(* ===== verification/_CoqProject ===== *)
-Q . S2P
Prelude.v
GoLib.v
Amount.v
Asset.v
Alias.v
Float64.v
Rounding.v
Trade.v
RobustStat.v
Window.v
Twap.v
Proxy.v
Outliers.v
Router.v
Corroborate.v
Global.v
Completeness.v
Stream.v
Admission.v
Hub.v
Confidence.v
Baseline.v
Anomaly.v
Freeze.v
FreezeStore.v
FreezeControl.v
NetIP.v
RateLimit.v
Sources.v
Render.v
WindowFetch.v
WindowFill.v
Evidence.v
Mev.v
Sandwich.v
Cascade.v
Encoding.v
Projector.v
ScVal.v
ContractId.v
Phoenix.v
PhoenixSwap.v
Soroswap.v
PriceGuard.v
Orchestrator.v
Publish.v
TickRun.v
Divergence.v
DivergenceRun.v
ScamGate.v
Supply.v
SupplyRefresh.v
