(* ===== verification/Prelude.v ===== *)
(** * StellarIndex: a verification library of the pricing core

    StellarIndex indexes the Stellar network and serves prices. Ledgers are
    decoded into trades and oracle updates of canonical assets; the aggregator
    turns windows of trades into prices, removes outliers, crosses pairs
    through routes and picks one headline price per asset, scores each price
    and freezes the ones that look manipulated; completeness checks
    certify that what is served covers the ledger; a publish/subscribe hub
    streams closed prices to clients, behind rate limits; detectors look
    through the trades for extracted value. Upstream, a projector reads the
    landed contract events of each protocol, decodes them and writes the rows
    that everything else reads. This library models those parts
    of the Go code under src/internal and proves what makes them correct.

    ** The parts and their files

    - [Prelude]: results, tactics, sums, sorting, counting: the shared lemmas.
    - [GoLib]: what the code uses of Go: wrap-around integers, clock values,
      byte strings, decimal and hexadecimal text.
    - [Float64]: binary64 comparisons, conversion to rationals (SpecFloat);
      [Rounding]: binary64 arithmetic and [big.Rat.Float64], with the theory
      that says what a rounded result can be compared with.
    - [Amount] (canonical/amount.go, errors.go): wide integers and codecs.
    - [Asset] (canonical/asset*.go, pair.go, strkey.go): identifiers, parsing,
      printing, validation, codecs. The strkey library is the class [Strkey],
      whose laws are its documented behaviour.
    - [Alias] (canonical/alias.go, sac.go, network.go, orientation.go): the
      registry of alias forms, the installed network, pair orientation. The
      process-wide variables are the record [globals], passed explicitly; the
      derivation of a SAC address is the class [XdrSac].
    - [Trade] (canonical/trade.go, oracle.go, safetime.go).
    - [RobustStat] (robuststat): medians, scales, the served-price guard.
    - [Window] (aggregate/vwap.go, scale.go, ohlc.go), [Twap] (twap.go),
      [Proxy] (stablecoin.go, decimals.go, triangulate.go), [Outliers]
      (outliers.go, outliers_local.go): prices of windows of trades.
    - [Router] (aggregate/router.go): the exchange graph, its routes and the
      combined rate; [Corroborate] holds the proofs about the combination.
    - [Global] (aggregate/global.go): the fallback chain of the headline price.
    - [Sources] (sources/external/registry.go, framework.go): the table of
      sources, who votes in a price, what may be replayed.
    - [WindowFetch] (orchestrator/window_coverage.go, window_metrics.go, the
      reading half of orchestrator.go, and its two queries in
      storage/timescale/trades.go and trade_sums_1m.go): the trades of a
      window, completed with minute sums where one read does not hold them,
      its dollar volume and its price; [WindowFill] holds the proofs;
      [Render]: the decimal text of a price.
    - [Completeness] (completeness): watermark, re-derivation and
      reconciliation, evidence age, the census text.
    - [Stream] (api/streaming/event.go, ring.go, drain.go), [Admission]
      (periplimit.go and the caps of handler.go), [Hub] (hub.go).
    - [Confidence] (aggregate/confidence): the score of a price;
      [Baseline] (aggregate/baseline): volatility windows, z-scores, volume
      bars; [Anomaly] (aggregate/anomaly): asset classes and their limits.
    - [Freeze] (aggregate/freeze/lifecycle.go): the ladder of a frozen pair as
      a pure step, with its step relation [reach]; [FreezeStore] (freeze.go):
      the marker in Redis shared by the windows of a pair and the durable
      ladders; [FreezeControl] (orchestrator/phase2_freeze.go, the freeze half
      of orchestrator.go, freeze/recovery.go): what a bucket does to them.
    - [Evidence] (orchestrator/bucket_return.go, composite_reference.go,
      triangulate_corroborate.go, confidence.go): what a price is compared
      with; [Orchestrator] (orchestrator.go, triangulate.go, stream.go, the
      cached price of phase2_freeze.go, cachekeys/keys.go): the tick, from the
      trades of a bucket to the served keys and the stream. Its state is the
      record [agg], its environment the record [inputs]. [Publish] holds the
      proofs about one market and [TickRun] those about runs of ticks, whose
      relation is [ran].
    - [Divergence] (divergence/reference.go, compare.go, oracle.go,
      synthetic.go, worker.go; orchestrator/divergence_refresh.go): a price
      against what other publishers say. The state of the service, its part of
      the cache and the rows of its sink are the record [svc]; the order in
      which references answer is an argument. [DivergenceRun] holds the proofs,
      over runs of refreshes.
    - [RateLimit] (ratelimit): the bucket in Redis with its script and its
      fail-open clock, the bounded store of a process, the keys of clients;
      [NetIP]: what the limiter uses of net/netip, parsing and printing of
      addresses.
    - [Mev] (aggregate/mev/detector.go): grouping, evidence, the arbitrage
      detector with its union-find components; [Sandwich] (sandwich.go,
      oracle_sandwich.go, inputs.go): brackets around trades and oracle
      updates; [Cascade] (cascade.go): chained liquidations.
    - [Projector] (projector/projector.go, sinkfault.go, with the cursor table
      and the error classes of storage/timescale): one cycle of a source over
      its landed events, and what a committed cursor may leave behind.
    - [Encoding]: base64, hexadecimal, UTF-8 and RFC 3339 of the standard
      library; [ScVal] (scval): typed reading of contract values, their text
      and display forms; [ContractId] (contractid, events): the event record
      and the registry that decides whose events are believed.
    - [Phoenix] (sources/phoenix): the decoder of a protocol that publishes a
      swap as eight events, with its correlation buffers; [PhoenixSwap] holds
      its proofs and composes it with the projector; [Soroswap]
      (sources/soroswap): a protocol whose swap is a pair of events.
    - [PriceGuard] (pricingguard/guard.go, substance.go, with the measuring
      queries of storage/timescale/aggregates.go and the knobs of
      config/config.go): whether a bucket may be served and whether its market
      is large enough; [ScamGate] (scam.go): the legs of flagged issuers under
      every spelling, and the one verdict both gates give.
    - [Supply] (supply): supply keys, the operator's policy, the computers of
      XLM, classic assets and contract tokens with their readers, the overlay,
      the comparison of an asset with its wrapper; [SupplyRefresh]
      (refresher.go, crosscheck_refresher.go, genesis_autoseed.go): what is
      published, tick after tick.

    ** How the code is modelled

    A function of the code is a function here, of the same name where Rocq
    allows it. [( T, error )] is [res E T]; the error keeps the sentinels that
    [errors.Is] sees, not the message. [*big.Int] is [Z] and [*big.Rat] is [Q]
    (equality of prices is [==]); fixed-width integers are [Z] with the wrap
    written out wherever an operation can leave the range. Go maps are [gmap];
    where the code ranges over one, the result is proved independent of the
    order, or the order is an argument. Clock readings are arguments. Panics
    are values where the code recovers from them. Code that is not in the
    repository is a class with laws: the Stellar SDK ([Strkey], [XdrSac], and
    [Xdr] with [XdrLaws], the codec of contract values), the
    Redis client ([RedisCache], whose calls may fail and whose entries expire,
    and [CounterStore], the counters of the limiter) and the durable store
    ([LadderDB], [FreezeRows]); [MathLib] stands for math.Exp and math.Log,
    [RatText] for the decimal text of a rational in Go and in SQL,
    [FloatText] for the shortest decimal of a float and [StringsFold] for
    Unicode case folding.
    Each class with laws has an instance that satisfies them.
    Float arithmetic is rounded after each operation (no fused multiply-add).
    A freeze operation reads the clock once.

    Loops are structural or folds, but for seven definitions with fuel: the
    route search [dfs] (its fuel is the hop budget that bounds the recursion
    in the code too), [twap_loop] (one unit per trade, and an instant takes at
    least one), [mask_members] (one per bit), the printer of integers (one per
    binary digit), [find] of the union-find map (one per trade, shown to bound
    the depth of the forest), [first_sig] (the sixty places of the code's own
    bound) and [withTopic], whose retry loop is shown to need one turn.

    Concurrency is in [Admission] and [Hub]: one step is one atomic section
    (an atomic operation or what runs under one lock), and the theorems hold
    for every sequence of steps, by induction on it.

    ** What the theorems show

    - Identifiers: assets and pairs survive every codec, accepted spellings
      are normalised, alias forms are classes of one equivalence, orientation
      does not depend on the side, packed operation indices never collide.
    - Amounts: 128-bit values are exact; JSON and SQL lose nothing.
    - Windows: the VWAP is the exact quotient of the volumes it reports and
      lies within the traded prices, whatever the scales of the sources; the
      TWAP is within 10^-40 below the exact average; bars and per-source
      shares cover exactly the priced trades.
    - Reads: a window larger than one read is completed without loss, its
      price is that of all its trades, and a window that is cut says where;
      the text of a price is its truncation and keeps its leading digits.
    - Outliers: each filter keeps exactly a band in ratio space, the local one
      can only rescue, and neither serves a minority of the volume.
    - Routes: the search is sound and complete, the graph is independent of
      the quotes' order, the served rate is that of a most trusted shortest
      route, and corroboration never overstates.
    - The headline price is the first the tiers offer, and the average of the
      aggregators is the mean rounded once.
    - Completeness: every event of a stream is skipped, counted or recorded as
      blind; the watermark and the reconciliations report exactly the
      problems there are.
    - Streams: identifiers increase, a resume is complete or says so as far
      as the ring knows, caps hold and no slot leaks, the reaper never drops a
      subscribed topic, a full topic map refuses only for live subscribers.

    - Freezes: a freeze ends by itself exactly after enough consecutive
      healthy buckets and its initial hold; a recovered pair is released, and
      every scored freeze is released or escalated in bounded time; one
      window's write or release never loses another's, a restart resumes the
      ladder, a lost marker or a failed read never ends a freeze, and the
      recovery sweep closes only rows of freezes that are over. The
      orchestrator is shown to take exactly the steps of the lifecycle.
    - Ticks: a market that a tick freezes keeps the price it had, though
      composites are published over its key; a bucket is decided once and
      streamed once, in order, whatever is read and whichever calls fail; a
      composite reference that confirms a price is made of agreeing legs, and
      every closed minute of a market is scored.
    - Divergence: a comparison does not depend on the order of the replies and
      accounts for every reference; a warning is published exactly when the
      divergence has held for its time, over refreshes that cannot be judged
      too; the hook is called once per episode; a dollar cross comes from two
      publishers.
    - Scores: a confidence is in [0, 1], capped while the baseline is thin,
      and zero when a weighted factor is; the worst voting window decides the
      z-score; density must be paid for in volume; the percentage test of an
      anomaly is exact in spite of its rounding.

    - Rate limits: no client passes its budget of a window, in Redis or in
      process, whatever the crowding and the failures; the store of a process
      is one counter per key and window while it has room, and its memory is
      bounded; the limiter fails open only for its dwell time.
    - Detectors: a published arbitrage closes a cycle of hops and every cycle
      that meets the venue condition is published; a published sandwich or
      cascade is the bracket it claims to be, and the transactions that are
      looked up are enough.
    - Ingestion: a projector's cursor never passes an event that was not
      written, undecodable or given up by name, and what is given up is
      bounded; a fault-free cycle writes what the re-derivation counts. A
      Phoenix or Soroswap stream yields exactly one trade for each swap that
      decodes, however the swaps interleave and whatever events are missing; the gate
      admits only what its factories announced; stored text of contract bytes
      is reversible.
    - Serving: a bucket outside the band of its past day is never served, a
      stand-in is the newest clean bucket and not too old; a cached verdict is
      the measured one, at most a minute old; the hour-grain floor is the
      strictest that refuses nothing the minute-grain floor admits; a
      configuration is accepted exactly when some market can pass it; a
      flagged issuer is withheld under every spelling of its assets.
    - Supply: keys are unique and read back, totals are exact sums with
      circulating between zero and the total, the reserves come from one
      source; what is published is fresh or provably dormant; a divergence is
      reported only from comparable snapshots.

    Statements marked C1 to C40 are the main properties, in their order of
    importance; a statement with hypotheses is followed by an instance.

    ** What is not modelled

    Storage beyond the queries named above, HTTP handlers, metrics, logging
    and message texts; protocol decoders other than Phoenix and Soroswap,
    ledger streaming and dispatch; accounts. Of
    the projector, the goroutine of a source and its watcher; of Phoenix, the
    curated contract lists; of supply, the metric files. Of the other covered files:
    display helpers, [BlindSpots.Detail], the recognition audit, the writer
    half of handler.go, the worker pool [RefreshAll], the round trips of
    washtrade.go and the scan worker of the detectors; of the divergence
    service the reference behind HTTP (coingecko.go), the comparison of
    supplies (supply.go) and the gauges; of the orchestrator the contributions
    table, the gauges and the loop that starts ticks.

    ** Order of extension

    Next are the other protocol decoders (sources) and the guard of declared
    decimals (decimalsguard). *)

From stdpp Require Export base option list sorting strings gmap.
From Stdlib Require Export ZArith QArith Qabs Qreduction Lqa Lia.
From Stdlib Require Export Permutation Ascii.
#[global] Close Scope Q_scope.
#[global] Open Scope Z_scope.

(** ** Results

    A Go function that returns [(T, error)] is a function to [res E T]; the
    error carries the sentinels [errors.Is] can see, the message text is not
    kept. *)

Inductive res (E A : Type) : Type :=
| Ok (a : A)
| Err (e : E).
Arguments Ok {E A} a.
Arguments Err {E A} e.

#[export] Instance res_ret E : MRet (res E) := fun A a => Ok a.
#[export] Instance res_bind E : MBind (res E) := fun A B k m =>
  match m with Ok a => k a | Err e => Err e end.
#[export] Instance res_fmap E : FMap (res E) := fun A B f m =>
  match m with Ok a => Ok (f a) | Err e => Err e end.

Definition is_ok {E A} (r : res E A) : bool :=
  match r with Ok _ => true | Err _ => false end.

(** [guardE b e] is the Go idiom [if !b { return e }]. *)
Definition guardE {E} (b : bool) (e : E) : res E unit :=
  if b then Ok tt else Err e.

(** ** Tactics *)

(** Turn boolean tests in hypotheses and goal into propositions. *)
Ltac bprop :=
  repeat match goal with
  | H : andb _ _ = true |- _ => apply andb_prop in H; destruct H
  | H : orb _ _ = false |- _ => apply orb_false_elim in H; destruct H
  | H : negb _ = true |- _ => apply negb_true_iff in H
  | H : negb _ = false |- _ => apply negb_false_iff in H
  | H : Z.ltb _ _ = true |- _ => apply Z.ltb_lt in H
  | H : Z.ltb _ _ = false |- _ => apply Z.ltb_ge in H
  | H : Z.leb _ _ = true |- _ => apply Z.leb_le in H
  | H : Z.leb _ _ = false |- _ => apply Z.leb_gt in H
  | H : Z.eqb _ _ = true |- _ => apply Z.eqb_eq in H
  | H : Z.eqb _ _ = false |- _ => apply Z.eqb_neq in H
  | H : Nat.ltb _ _ = true |- _ => apply Nat.ltb_lt in H
  | H : Nat.ltb _ _ = false |- _ => apply Nat.ltb_ge in H
  | H : Nat.leb _ _ = true |- _ => apply Nat.leb_le in H
  | H : Nat.leb _ _ = false |- _ => apply Nat.leb_gt in H
  | H : Nat.eqb _ _ = true |- _ => apply Nat.eqb_eq in H
  | H : Nat.eqb _ _ = false |- _ => apply Nat.eqb_neq in H
  | H : String.eqb _ _ = true |- _ => apply String.eqb_eq in H
  | H : String.eqb _ _ = false |- _ => apply String.eqb_neq in H
  | H : Qle_bool _ _ = true |- _ => apply Qle_bool_iff in H
  | H : bool_decide _ = true |- _ => apply bool_decide_eq_true_1 in H
  | H : bool_decide _ = false |- _ => apply bool_decide_eq_false_1 in H
  end.

(** Case on the scrutinee of the first [if] or [match] of the goal. *)
Ltac case_if :=
  match goal with
  | |- context [if ?b then _ else _] => destruct b eqn:?
  end.

Ltac case_if_in H :=
  match type of H with
  | context [if ?b then _ else _] => destruct b eqn:?
  end.

(** Follow a successful computation in [res] back through its binds. *)
Ltac inv_ok :=
  repeat match goal with
  | H : Ok _ = Ok _ |- _ => injection H as H; subst
  | H : Err _ = Ok _ |- _ => discriminate H
  | H : Ok _ = Err _ |- _ => discriminate H
  | H : guardE ?b _ = Ok _ |- _ =>
      let E := fresh "E" in unfold guardE in H; destruct b eqn:E; [| discriminate H]
  | H : mbind _ ?m = Ok _ |- _ =>
      let E := fresh "E" in
      destruct m eqn:E; cbn [mbind res_bind] in H; [| discriminate H]
  end.

(** Rewrite the goal with every hypothesis that evaluates a test or a call. *)
Ltac rw_hyps :=
  repeat match goal with
  | u : () |- _ => destruct u
  | E : ?x = true |- context [?x] => rewrite E
  | E : ?x = false |- context [?x] => rewrite E
  | E : ?x = Ok _ |- context [?x] => rewrite E
  | E : ?x = Some _ |- context [?x] => rewrite E
  | E : ?x = None |- context [?x] => rewrite E
  end.

Create HintDb go.
Create Rewrite HintDb gorw.

(** ** Sums *)

Definition zsum (l : list Z) : Z := foldr Z.add 0 l.

Lemma zsum_app l1 l2 : zsum (l1 ++ l2) = zsum l1 + zsum l2.
Proof. induction l1 as [|x l1 IH]; simpl; [done|]. rewrite IH. lia. Qed.

Lemma zsum_nonneg l : Forall (fun x => 0 <= x) l -> 0 <= zsum l.
Proof. induction 1; simpl; lia. Qed.

Lemma zsum_pos l : l <> [] -> Forall (fun x => 0 < x) l -> 0 < zsum l.
Proof.
  intros Hne HF. destruct HF as [|x l Hx HF]; [done|]. simpl.
  assert (0 <= zsum l); [|lia].
  apply zsum_nonneg. eapply Forall_impl; [exact HF|]. simpl. lia.
Qed.

Lemma zsum_fold_left l a : foldl Z.add a l = a + zsum l.
Proof. revert a; induction l as [|x l IH]; intros a; simpl; [lia|]. rewrite IH. lia. Qed.

Lemma zsum_map_mul {A} (f : A -> Z) k l :
  zsum (map (fun x => k * f x) l) = k * zsum (map f l).
Proof. induction l as [|x l IH]; simpl; [lia|]. rewrite IH. lia. Qed.

Lemma zsum_perm l1 l2 : l1 ≡ₚ l2 -> zsum l1 = zsum l2.
Proof. induction 1; simpl; lia. Qed.

(** The sum of a projection over the values of a map. *)
Definition msum {K A} `{Countable K} (f : A -> Z) (m : gmap K A) : Z :=
  zsum (map (fun kv => f kv.2) (map_to_list m)).

Lemma msum_insert_fresh {K A} `{Countable K} (f : A -> Z) (m : gmap K A) k v :
  m !! k = None -> msum f (<[k := v]> m) = f v + msum f m.
Proof.
  intros Hk. unfold msum.
  by rewrite (zsum_perm _ _ (Permutation_map (fun kv => f kv.2) (map_to_list_insert m k v Hk))).
Qed.

Lemma msum_insert {K A} `{Countable K} (f : A -> Z) (m : gmap K A) k v :
  msum f (<[k := v]> m) = msum f m + f v - from_option f 0 (m !! k).
Proof.
  rewrite <- insert_delete_eq, msum_insert_fresh by apply lookup_delete_eq.
  destruct (m !! k) as [w|] eqn:E; simpl.
  - rewrite <- (insert_delete_id m k w E) at 2. rewrite msum_insert_fresh by apply lookup_delete_eq. lia.
  - rewrite delete_id by done. lia.
Qed.

(** ** Sums of rationals *)

Definition qsum (l : list Q) : Q := foldr Qplus (0 # 1)%Q l.

Section QSum.
Local Open Scope Q_scope.

Lemma qsum_app l1 l2 : qsum (l1 ++ l2) == qsum l1 + qsum l2.
Proof. induction l1 as [|x l1 IH]; simpl; [lra|]. rewrite IH. lra. Qed.

Lemma qsum_perm l1 l2 : l1 ≡ₚ l2 -> qsum l1 == qsum l2.
Proof. induction 1; simpl; lra. Qed.

Lemma qsum_scale {A} (f : A -> Q) k l : qsum (map (fun x => k * f x) l) == k * qsum (map f l).
Proof. induction l as [|x l IH]; simpl; [lra|]. rewrite IH. lra. Qed.

Lemma qsum_ext {A} (f g : A -> Q) l :
  (forall x, x ∈ l -> f x == g x) -> qsum (map f l) == qsum (map g l).
Proof.
  induction l as [|x l IH]; intros E; simpl; [lra|]. rewrite IH, (E x); [lra|left|].
  intros y Hy. apply E. by right.
Qed.

Lemma qsum_le {A} (f g : A -> Q) l :
  (forall x, x ∈ l -> f x <= g x) -> qsum (map f l) <= qsum (map g l).
Proof.
  induction l as [|x l IH]; intros E; simpl; [lra|].
  assert (f x <= g x) by (apply E; left).
  assert (qsum (map f l) <= qsum (map g l)) by (apply IH; intros y Hy; apply E; by right). lra.
Qed.

Lemma qsum_inject {A} (f : A -> Z) l : qsum (map (fun x => inject_Z (f x)) l) == inject_Z (zsum (map f l)).
Proof. induction l as [|x l IH]; simpl; [reflexivity|]. by rewrite IH, inject_Z_plus. Qed.

Lemma inject_Z_pos z : (0 < z)%Z <-> 0 < inject_Z z.
Proof. change 0 with (inject_Z 0). by rewrite <- (Zlt_Qlt 0 z). Qed.

Lemma Qdiv_le_iff a b c : 0 < b -> a / b <= c <-> a <= c * b.
Proof.
  intros Hb. split; intros Hc.
  - rewrite <- (Qmult_div_r a b) by lra. rewrite (Qmult_comm b). by apply Qmult_le_compat_r; [|lra].
  - apply Qle_shift_div_r; done.
Qed.

Lemma Qle_div_iff a b c : 0 < b -> c <= a / b <-> c * b <= a.
Proof.
  intros Hb. split; intros Hc.
  - rewrite <- (Qmult_div_r a b) by lra. rewrite (Qmult_comm b). by apply Qmult_le_compat_r; [|lra].
  - apply Qle_shift_div_l; done.
Qed.

(** A quotient of sums lies between the bounds of the quotients. *)
Lemma weighted_mean_between {A} (num den : A -> Q) (l : list A) lo hi :
  l <> [] ->
  (forall x, x ∈ l -> 0 < den x /\ lo <= num x / den x <= hi) ->
  0 < qsum (map den l) /\ lo <= qsum (map num l) / qsum (map den l) <= hi.
Proof.
  intros Hne Hb.
  assert (0 < qsum (map den l)) as Hd.
  { destruct l as [|x l]; [done|]. simpl. destruct (Hb x) as [? _]; [left|].
    assert (0 <= qsum (map den l)); [|lra].
    apply Qle_trans with (qsum (map (fun _ => 0) l)); [clear; induction l; simpl; lra|].
    apply qsum_le. intros y Hy. destruct (Hb y) as [? _]; [by right|]. lra. }
  split; [done|]. rewrite Qdiv_le_iff, Qle_div_iff, <- !qsum_scale by done.
  split; apply qsum_le; intros x Hx; destruct (Hb x Hx) as (Hp & Hl & Hu);
    [by rewrite <- Qle_div_iff | by rewrite <- Qdiv_le_iff].
Qed.
End QSum.

(** ** Products of rationals *)

Definition qprod (l : list Q) : Q := foldr Qmult (1 # 1)%Q l.

Lemma foldl_qprod out l : (foldl Qmult out l == out * qprod l)%Q.
Proof. revert out; induction l as [|q l IH]; intros out; simpl; [lra|]. rewrite IH. lra. Qed.

Lemma qprod_app l1 l2 : (qprod (l1 ++ l2) == qprod l1 * qprod l2)%Q.
Proof. induction l1 as [|q l IH]; simpl; [lra|]. rewrite IH. lra. Qed.

Lemma qprod_pos l : Forall (fun q => 0 < q)%Q l -> (0 < qprod l)%Q.
Proof. induction 1 as [|q l Hq HF IH]; simpl in *; [lra | nra]. Qed.

(** ** Stable insertion sort

    [sort.SliceStable] with a strict order [less] puts the elements in the one
    order that is sorted and keeps equal elements in input order; [isort]
    computes it, with [leb x y := negb (less y x)]. Where the source calls the
    unstable [sort.Slice], the elements it may permute are equal under every
    observation the caller makes. *)

Section Sort.
Context {A : Type} (leb : A -> A -> bool).

Fixpoint insert_sorted (x : A) (l : list A) : list A :=
    match l with
    | [] => [x]
    | y :: l' => if leb x y then x :: y :: l' else y :: insert_sorted x l'
    end.

Definition isort (l : list A) : list A := foldr insert_sorted [] l.

Lemma insert_sorted_perm x l : insert_sorted x l ≡ₚ x :: l.
Proof.
    induction l as [|y l IH]; simpl; [done|]. case_if; [done|].
    rewrite IH. apply Permutation_swap.
Qed.

Lemma isort_perm l : isort l ≡ₚ l.
Proof. induction l as [|x l IH]; simpl; [done|]. by rewrite insert_sorted_perm, IH. Qed.

Lemma isort_length l : length (isort l) = length l.
Proof. apply Permutation_length, isort_perm. Qed.

Lemma elem_of_isort x l : x ∈ isort l <-> x ∈ l.
Proof. by rewrite (isort_perm l). Qed.

Lemma Forall_isort (P : A -> Prop) l : Forall P l -> Forall P (isort l).
Proof. by rewrite (isort_perm l). Qed.

Context (leb_total : forall x y, leb x y = true \/ leb y x = true).
Context (leb_trans : forall x y z, leb x y = true -> leb y z = true -> leb x z = true).

Lemma insert_sorted_sorted x l :
    StronglySorted (fun a b => leb a b = true) l ->
    StronglySorted (fun a b => leb a b = true) (insert_sorted x l).
Proof.
    induction 1 as [|y l HS IH HF]; simpl; [repeat constructor|].
    case_if; constructor.
    - by constructor.
    - constructor; [done|]. eapply Forall_impl; [exact HF|]. eauto.
    - done.
    - rewrite insert_sorted_perm. constructor; [|done].
      destruct (leb_total x y); congruence.
Qed.

Lemma isort_sorted l : StronglySorted (fun a b => leb a b = true) (isort l).
Proof. induction l; simpl; [constructor|]. by apply insert_sorted_sorted. Qed.
End Sort.

(** Sorting commutes with a map the order factors through. *)
Lemma isort_map {A B} (f : A -> B) (leb : B -> B -> bool) l :
  map f (isort (fun x y => leb (f x) (f y)) l) = isort leb (map f l).
Proof.
  induction l as [|x l IH]; simpl; [done|]. rewrite <- IH.
  generalize (isort (fun x y => leb (f x) (f y)) l) as s. clear.
  induction s as [|y s IH]; simpl; [done|]. case_if; simpl; [done|]. by rewrite IH.
Qed.

(** ** Lookups in sorted lists *)

Lemma sorted_lookup_le {A} (R : relation A) l i j x y :
  (forall a, R a a) -> StronglySorted R l ->
  l !! i = Some x -> l !! j = Some y -> (i <= j)%nat -> R x y.
Proof.
  intros Hr HS; revert i j; induction HS as [|z l HS IH HF]; intros i j Hx Hy Hij; [done|].
  destruct i as [|i], j as [|j]; simpl in *; simplify_eq; auto; try lia.
  - rewrite Forall_forall in HF. eapply HF, list_elem_of_lookup_2, Hy.
  - eapply IH; eauto. lia.
Qed.

Lemma Forall_filter {A} (P Q : A -> Prop) `{forall x, Decision (Q x)} l : Forall P l -> Forall P (filter Q l).
Proof. rewrite !Forall_forall. intros HP x [_ Hx]%list_elem_of_filter. auto. Qed.

Lemma sublist_Forall {A} (P : A -> Prop) l1 l2 : l1 `sublist_of` l2 -> Forall P l2 -> Forall P l1.
Proof.
  induction 1 as [|x l1 l2 _ IH|x l1 l2 _ IH]; [done| |]; intros [Hx HF]%Forall_cons; auto.
Qed.

Lemma filter_full {A} (P : A -> Prop) `{forall x, Decision (P x)} l :
  length (filter P l) = length l -> filter P l = l.
Proof.
  induction l as [|x l IH]; [done|]. rewrite filter_cons. destruct (decide (P x)); simpl.
  - intros E. f_equal. apply IH. lia.
  - pose proof (length_filter P l). lia.
Qed.

(** ** Counting *)

Fixpoint countb {A} (f : A -> bool) (l : list A) : nat :=
  match l with
  | [] => O
  | x :: l' => ((if f x then 1 else 0) + countb f l')%nat
  end.

Lemma countb_perm {A} (f : A -> bool) l1 l2 : l1 ≡ₚ l2 -> countb f l1 = countb f l2.
Proof. induction 1; simpl; repeat case_if; lia. Qed.

Lemma countb_app {A} (f : A -> bool) l1 l2 : countb f (l1 ++ l2) = (countb f l1 + countb f l2)%nat.
Proof. induction l1; simpl; lia. Qed.

Lemma countb_all {A} (f : A -> bool) l :
  Forall (fun x => f x = true) l -> countb f l = length l.
Proof. induction 1 as [|x l Hx]; simpl; [done|]. rewrite Hx. lia. Qed.

Lemma countb_le_length {A} (f : A -> bool) l : (countb f l <= length l)%nat.
Proof. induction l; simpl; [done|]. case_if; lia. Qed.

Lemma countb_impl {A} (f g : A -> bool) l :
  (forall x, f x = true -> g x = true) -> (countb f l <= countb g l)%nat.
Proof.
  intros Hfg. induction l as [|x l IH]; simpl; [done|].
  destruct (f x) eqn:E; [rewrite (Hfg _ E)|]; [lia|]. case_if; lia.
Qed.

(** ** Values of a map *)

Section Values.
Context {K A : Type} `{Countable K}.
Implicit Types (m : gmap K A) (k : K) (r : A).

Definition values m : list A := (map_to_list m).*2.

Lemma values_insert m k r : m !! k = None -> values (<[k := r]> m) ≡ₚ r :: values m.
Proof. intros E. unfold values. by rewrite map_to_list_insert. Qed.

Lemma values_delete m k r : m !! k = Some r -> values m ≡ₚ r :: values (delete k m).
Proof. intros E. rewrite <- (insert_delete_id m k r E) at 1. apply values_insert, lookup_delete_eq. Qed.

Lemma elem_of_values m r : r ∈ values m <-> exists k, m !! k = Some r.
Proof. unfold values. rewrite list_elem_of_fmap. setoid_rewrite <- elem_of_map_to_list. split; [intros ([k x] & -> & Hk); by exists k|intros (k & Hk); by exists (k, r)]. Qed.

(** The entries that pass a test and the others. *)
Lemma values_filter (f : A -> bool) m : values m ≡ₚ List.filter f (values m) ++ values (filter (fun kv => f kv.2 = false) m).
Proof.
  induction m as [|k r m Hk IH] using map_ind; [done|].
  assert (forall l l', l ≡ₚ l' -> List.filter f l ≡ₚ List.filter f l') as HP by (intros l l' Hl; induction Hl; cbn; repeat case_if; try constructor; try done; by etransitivity).
  rewrite (HP _ _ (values_insert m k r Hk)), (values_insert m k r Hk). cbn [List.filter]. destruct (f r) eqn:E.
  - rewrite map_filter_insert_False, delete_id by done || (cbn; congruence). cbn [app]. by constructor.
  - rewrite map_filter_insert_True by done. rewrite values_insert by (apply map_lookup_filter_None; by left). rewrite <- Permutation_middle. by constructor.
Qed.
End Values.

(** ** Filters *)

Lemma filter_filter_andb {A} (f h : A -> bool) (l : list A) : List.filter f (List.filter h l) = List.filter (fun x => h x && f x) l.
Proof. induction l as [|x l IH]; [done|]. cbn [List.filter]. destruct (h x); cbn [List.filter andb]; [by rewrite IH|done]. Qed.

Lemma elem_of_List_filter {A} (f : A -> bool) (l : list A) x : x ∈ List.filter f l <-> f x = true /\ x ∈ l.
Proof. rewrite !list_elem_of_In, filter_In. tauto. Qed.

Lemma filter_none {A} (f : A -> bool) (l : list A) : (forall x, x ∈ l -> f x = false) -> List.filter f l = [].
Proof. induction l as [|x l IH]; intros HF; [done|]. cbn [List.filter]. rewrite (HF x) by (by left). apply IH. intros y Hy. apply HF. by right. Qed.
