(* ===== verification/GoLib.v ===== *)
(** * The parts of Go and its standard library the modelled code uses

    Machine integers with their wrap-around, [time.Time] and [time.Duration],
    byte strings ([strings.CutPrefix], [IndexAny], [LastIndex], [EqualFold],
    [Cut], comparison), and positional number text ([big.Int.String],
    [big.Int.SetString], [strconv.ParseUint], [%016x]). *)

From S2P Require Import Prelude.

(** ** Machine integers *)

Definition wrapu (w z : Z) : Z := z mod 2 ^ w.
Definition wraps (w z : Z) : Z := (z + 2 ^ (w - 1)) mod 2 ^ w - 2 ^ (w - 1).

Definition MaxInt64 : Z := 2 ^ 63 - 1.
Definition MinInt64 : Z := - 2 ^ 63.
Definition MaxUint32 : Z := 2 ^ 32 - 1.
Definition MaxUint64 : Z := 2 ^ 64 - 1.

Definition is_int64 (z : Z) : Prop := MinInt64 <= z <= MaxInt64.
Definition is_uint64 (z : Z) : Prop := 0 <= z <= MaxUint64.
Definition is_uint32 (z : Z) : Prop := 0 <= z <= MaxUint32.

Lemma wrapu_small w z : 0 <= z < 2 ^ w -> wrapu w z = z.
Proof. intros. unfold wrapu. by apply Z.mod_small. Qed.

Lemma wraps_small w z : 0 < w -> - 2 ^ (w - 1) <= z < 2 ^ (w - 1) -> wraps w z = z.
Proof.
  intros Hw Hz. unfold wraps.
  assert (2 ^ w = 2 * 2 ^ (w - 1)) by (rewrite <- Z.pow_succ_r by lia; f_equal; lia).
  rewrite Z.mod_small; lia.
Qed.

(** An [int64] accumulator. *)
Definition int64_sum (l : list Z) : Z := foldl (fun t x => wraps 64 (t + x)) 0 l.

Lemma int64_sum_from a l : 0 <= a -> Forall (fun x => 0 <= x) l -> a + zsum l <= MaxInt64 ->
  foldl (fun t x => wraps 64 (t + x)) a l = a + zsum l.
Proof.
  intros Ha HF; revert a Ha; induction HF as [|x l Hx HF IH]; intros a Ha Hs; simpl in *; [lia|].
  pose proof (zsum_nonneg l HF). unfold MaxInt64 in *. rewrite wraps_small by lia. rewrite IH by lia. lia.
Qed.

Lemma int64_sum_eq l : Forall (fun x => 0 <= x) l -> zsum l <= MaxInt64 -> int64_sum l = zsum l.
Proof. intros. unfold int64_sum. rewrite int64_sum_from by (try done; lia). lia. Qed.

(** ** Time

    A [time.Time] is the instant it denotes, in nanoseconds since the Unix
    epoch; the location and the monotonic reading play no part in the
    comparisons the code makes. [zero_time] is the instant of [time.Time{}]
    (0001-01-01T00:00:00Z). A [time.Duration] is its int64 nanosecond count. *)

Abbreviation Time := Z.
Abbreviation Duration := Z.

Definition Second : Duration := 1000000000.
Definition Minute : Duration := 60 * Second.
Definition Hour : Duration := 60 * Minute.

Definition zero_time : Time := - 62135596800 * Second.
Definition time_IsZero (t : Time) : bool := t =? zero_time.
Definition time_Before (a b : Time) : bool := a <? b.
Definition time_After (a b : Time) : bool := b <? a.
Definition time_Equal (a b : Time) : bool := a =? b.
Definition time_Add (t : Time) (d : Duration) : Time := t + d.
(** [Time.Sub] saturates at the ends of the Duration range. *)
Definition time_Sub (a b : Time) : Duration := Z.max MinInt64 (Z.min MaxInt64 (a - b)).
Definition time_Unix (t : Time) : Z := t / Second.
Definition time_UnixMilli (t : Time) : Z := t / 1000000.
Definition time_UnixNano (t : Time) : Z := wraps 64 t.
Definition unix_time (sec : Z) : Time := sec * Second.
Definition unix_milli_time (ms : Z) : Time := ms * 1000000.
(** [Time.Truncate] rounds down to a multiple of [d] since the zero time. *)
Definition time_Truncate (t : Time) (d : Duration) : Time :=
  if d <=? 0 then t else t - (t - zero_time) mod d.

Lemma time_Sub_pos a b : 0 < time_Sub a b <-> b < a.
Proof. unfold time_Sub, MinInt64, MaxInt64. lia. Qed.

(** ** Byte strings *)

Definition byte_of (c : ascii) : Z := Z.of_N (N_of_ascii c).

Lemma byte_of_inj c d : byte_of c = byte_of d -> c = d.
Proof.
  unfold byte_of. intros H. apply N2Z.inj in H.
  rewrite <- (ascii_N_embedding c), <- (ascii_N_embedding d). by f_equal.
Qed.

Lemma byte_of_range c : 0 <= byte_of c < 256.
Proof. unfold byte_of. pose proof (N_ascii_bounded c). lia. Qed.

Fixpoint str_forallb (f : ascii -> bool) (s : string) : bool :=
  match s with
  | EmptyString => true
  | String c s' => f c && str_forallb f s'
  end.

Fixpoint str_take (n : nat) (s : string) : string :=
  match n, s with
  | S n', String c s' => String c (str_take n' s')
  | _, _ => EmptyString
  end.

Fixpoint str_drop (n : nat) (s : string) : string :=
  match n, s with
  | S n', String c s' => str_drop n' s'
  | S _, EmptyString => EmptyString
  | O, _ => s
  end.

(** [strings.CutPrefix]: the rest of [s] after the prefix [p]. *)
Fixpoint CutPrefix (s p : string) {struct p} : option string :=
  match p, s with
  | EmptyString, _ => Some s
  | String a p', String b s' => if Ascii.eqb a b then CutPrefix s' p' else None
  | String _ _, EmptyString => None
  end.

Definition HasPrefix (s p : string) : bool :=
  match CutPrefix s p with Some _ => true | None => false end.

Definition TrimPrefix (s p : string) : string :=
  match CutPrefix s p with Some r => r | None => s end.

(** [strings.IndexFunc]: the first byte that satisfies [f]. *)
Fixpoint index_by (f : ascii -> bool) (s : string) : option nat :=
  match s with
  | EmptyString => None
  | String c s' => if f c then Some O else S <$> index_by f s'
  end.

(** The last byte that satisfies [f] ([strings.LastIndex] for one byte). *)
Fixpoint last_index_by (f : ascii -> bool) (s : string) : option nat :=
  match s with
  | EmptyString => None
  | String c s' =>
      match last_index_by f s' with
      | Some n => Some (S n)
      | None => if f c then Some O else None
      end
  end.

(** [strings.Cut] around one separator byte. *)
Definition Cut (s : string) (c : ascii) : option (string * string) :=
  match index_by (Ascii.eqb c) s with
  | Some i => Some (str_take i s, str_drop (S i) s)
  | None => None
  end.

Definition ascii_lower (c : ascii) : ascii :=
  if (65 <=? byte_of c) && (byte_of c <=? 90) then ascii_of_N (N_of_ascii c + 32) else c.

(** [strings.EqualFold] against an ASCII word without the letters k and s,
    the only two with a non-ASCII simple fold. *)
Fixpoint EqualFold (s t : string) : bool :=
  match s, t with
  | EmptyString, EmptyString => true
  | String a s', String b t' => Ascii.eqb (ascii_lower a) (ascii_lower b) && EqualFold s' t'
  | _, _ => false
  end.

(** Go's [<] on strings: byte-wise lexicographic. *)
Fixpoint str_ltb (a b : string) : bool :=
  match a, b with
  | _, EmptyString => false
  | EmptyString, String _ _ => true
  | String x a', String y b' =>
      if byte_of x <? byte_of y then true
      else if byte_of x =? byte_of y then str_ltb a' b' else false
  end.

Definition str_leb (a b : string) : bool := negb (str_ltb b a).

Lemma str_ltb_irrefl a : str_ltb a a = false.
Proof. induction a as [|c a IH]; simpl; [done|]. by rewrite Z.ltb_irrefl, Z.eqb_refl. Qed.

Lemma str_ltb_trans a b c : str_ltb a b = true -> str_ltb b c = true -> str_ltb a c = true.
Proof.
  revert b c; induction a as [|x a IH]; intros [|y b] [|z c]; simpl; try done.
  repeat case_if; bprop; intros; try done; try lia; eauto.
Qed.

Lemma str_ltb_total a b : str_ltb a b = false -> str_ltb b a = false -> a = b.
Proof.
  revert b; induction a as [|x a IH]; intros [|y b]; simpl; try done.
  repeat case_if; bprop; intros; try done; try lia.
  f_equal; [by apply byte_of_inj | by apply IH].
Qed.

Lemma str_ltb_asym a b : str_ltb a b = true -> str_ltb b a = false.
Proof.
  intros H. destruct (str_ltb b a) eqn:E; [|done].
  pose proof (str_ltb_trans _ _ _ H E) as X. by rewrite str_ltb_irrefl in X.
Qed.

Lemma str_leb_total a b : str_leb a b = true \/ str_leb b a = true.
Proof.
  unfold str_leb. destruct (str_ltb b a) eqn:E; [right|left]; [|done].
  by rewrite (str_ltb_asym _ _ E).
Qed.

Lemma str_leb_trans a b c : str_leb a b = true -> str_leb b c = true -> str_leb a c = true.
Proof.
  unfold str_leb. rewrite !negb_true_iff. intros H1 H2.
  destruct (str_ltb c a) eqn:E; [|done].
  destruct (str_ltb a b) eqn:Eab.
  - by rewrite (str_ltb_trans _ _ _ E Eab) in H2.
  - pose proof (str_ltb_total _ _ Eab H1). subst; congruence.
Qed.

Lemma str_leb_antisym a b : str_leb a b = true -> str_leb b a = true -> a = b.
Proof. unfold str_leb. rewrite !negb_true_iff. intros. by apply str_ltb_total. Qed.

(** [sort.Strings]. *)
Definition sort_Strings (l : list string) : list string := isort str_leb l.

(** *** Lemmas on the string functions *)

Lemma str_length_app a b : String.length (a +:+ b) = (String.length a + String.length b)%nat.
Proof. induction a as [|c a IH]; simpl; [done|]. by rewrite IH. Qed.

Lemma str_app_assoc a b c : (a +:+ b) +:+ c = a +:+ (b +:+ c).
Proof. induction a as [|d a IH]; [done|]. exact (f_equal (String d) IH). Qed.

Lemma str_forallb_app f a b : str_forallb f (a +:+ b) = str_forallb f a && str_forallb f b.
Proof. induction a as [|c a IH]; simpl; [done|]. by rewrite IH, andb_assoc. Qed.

Lemma str_forallb_impl f g s :
  (forall c, f c = true -> g c = true) -> str_forallb f s = true -> str_forallb g s = true.
Proof.
  intros H. induction s as [|c s IH]; simpl; [done|]. rewrite !andb_true_iff.
  intros [? ?]. auto.
Qed.

Lemma CutPrefix_app p s : CutPrefix (p +:+ s) p = Some s.
Proof. induction p as [|c p IH]; simpl; [done|]. by rewrite Ascii.eqb_refl. Qed.

Lemma CutPrefix_Some s p r : CutPrefix s p = Some r -> s = p +:+ r.
Proof.
  revert s; induction p as [|c p IH]; intros s H; simpl in *.
  - by injection H as <-.
  - destruct s as [|d s]; [discriminate H|].
    destruct (Ascii.eqb c d) eqn:E; [|discriminate H].
    apply Ascii.eqb_eq in E as ->. by rewrite (IH _ H).
Qed.

Lemma str_take_app a b : str_take (String.length a) (a +:+ b) = a.
Proof. induction a as [|c a IH]; simpl; [by destruct b|]. by rewrite IH. Qed.

Lemma str_drop_app a b : str_drop (String.length a) (a +:+ b) = b.
Proof. induction a as [|c a IH]; simpl; [by destruct b|]. done. Qed.

Lemma str_drop_S_app a c b : str_drop (S (String.length a)) (a +:+ String c b) = b.
Proof. induction a as [|d a IH]; simpl in *; [by destruct b|]. done. Qed.

Lemma str_take_drop n s : str_take n s +:+ str_drop n s = s.
Proof. revert s; induction n as [|n IH]; intros [|c s]; try done. exact (f_equal (String c) (IH s)). Qed.

Lemma str_take_length n s : (n <= String.length s)%nat -> String.length (str_take n s) = n.
Proof. revert s. induction n as [|n IH]; intros [|c s] Hn; cbn in *; try lia. by rewrite IH by lia. Qed.

Lemma index_by_app f a c b :
  str_forallb (fun x => negb (f x)) a = true -> f c = true ->
  index_by f (a +:+ String c b) = Some (String.length a).
Proof.
  induction a as [|d a IH]; simpl; intros H Hc; [by rewrite Hc|].
  bprop. rewrite H. by rewrite IH.
Qed.

Lemma index_by_None f s : str_forallb (fun x => negb (f x)) s = true -> index_by f s = None.
Proof.
  induction s as [|d s IH]; simpl; intros H; [done|]. bprop. rewrite H. by rewrite IH.
Qed.

Lemma last_index_by_None f s :
  str_forallb (fun x => negb (f x)) s = true -> last_index_by f s = None.
Proof.
  induction s as [|d s IH]; simpl; intros H; [done|]. bprop. rewrite IH by done. by rewrite H.
Qed.

Lemma last_index_by_app f a c b :
  f c = true -> str_forallb (fun x => negb (f x)) b = true ->
  last_index_by f (a +:+ String c b) = Some (String.length a).
Proof.
  intros Hc Hb. induction a as [|d a IH]; simpl.
  - by rewrite last_index_by_None, Hc by done.
  - by rewrite IH.
Qed.

Lemma last_index_by_Some f s i :
  last_index_by f s = Some i ->
  exists c, s = str_take i s +:+ String c (str_drop (S i) s) /\ f c = true /\
    str_forallb (fun x => negb (f x)) (str_drop (S i) s) = true.
Proof.
  revert i; induction s as [|d s IH]; intros i H; [done|]. simpl in H.
  destruct (last_index_by f s) as [n|] eqn:E.
  - injection H as <-. destruct (IH n eq_refl) as (c & Hs & Hc & Hf).
    exists c. split; [exact (f_equal (String d) Hs) | by split].
  - destruct (f d) eqn:Ed; [|done]. injection H as <-. exists d. simpl.
    split; [by destruct s|]. split; [done|].
    assert (str_forallb (fun x => negb (f x)) s = true) as Hn.
    { clear -E. induction s as [|e s IHs]; simpl in *; [done|].
      destruct (last_index_by f s); [done|]. destruct (f e); [done|]. by apply IHs. }
    by destruct s.
Qed.

(** ** Positional number text *)

Definition digit_char (d : Z) : ascii :=
  ascii_of_N (Z.to_N (if d <? 10 then d + 48 else d + 87)).

Definition digit_val (c : ascii) : option Z :=
  let b := byte_of c in
  if (48 <=? b) && (b <=? 57) then Some (b - 48)
  else if (97 <=? b) && (b <=? 122) then Some (b - 87)
  else if (65 <=? b) && (b <=? 90) then Some (b - 55)
  else None.

Fixpoint digits_acc (fuel : nat) (base n : Z) (acc : string) : string :=
  match fuel with
  | O => acc
  | S f =>
      let acc' := String (digit_char (n mod base)) acc in
      if n <? base then acc' else digits_acc f base (n / base) acc'
  end.

(** The digits of [n] in [base], most significant first, no leading zero;
    one unit of fuel per binary digit is enough for any base. *)
Definition fmt_uint (base n : Z) : string :=
  digits_acc (S (Z.to_nat (Z.log2 n))) base n EmptyString.

Fixpoint parse_acc (base : Z) (s : string) (acc : Z) : option Z :=
  match s with
  | EmptyString => Some acc
  | String c s' =>
      match digit_val c with
      | Some d => if d <? base then parse_acc base s' (acc * base + d) else None
      | None => None
      end
  end.

(** A non-empty run of digits and nothing else. *)
Definition parse_uint (base : Z) (s : string) : option Z :=
  match s with
  | EmptyString => None
  | _ => parse_acc base s 0
  end.

(** [big.Int.String] and [big.Int.SetString(s, 10)]. *)
Definition big_String (z : Z) : string :=
  if z <? 0 then String "-"%char (fmt_uint 10 (- z)) else fmt_uint 10 z.

Definition big_SetString10 (s : string) : option Z :=
  match s with
  | String "-"%char s' => Z.opp <$> parse_uint 10 s'
  | String "+"%char s' => parse_uint 10 s'
  | _ => parse_uint 10 s
  end.

Lemma byte_of_ascii_of_N n : 0 <= n < 256 -> byte_of (ascii_of_N (Z.to_N n)) = n.
Proof. intros H. unfold byte_of. rewrite N_ascii_embedding; lia. Qed.

Lemma byte_of_digit_char d :
  0 <= d < 36 -> byte_of (digit_char d) = if d <? 10 then d + 48 else d + 87.
Proof. intros H. unfold digit_char. case_if; bprop; apply byte_of_ascii_of_N; lia. Qed.

Lemma digit_val_char d : 0 <= d < 36 -> digit_val (digit_char d) = Some d.
Proof.
  intros H. unfold digit_val. rewrite byte_of_digit_char by done.
  destruct (d <? 10) eqn:E; bprop; repeat case_if; bprop; f_equal; lia.
Qed.

Section Digits.
Context (base : Z) (Hbase : 2 <= base <= 36).

Lemma digits_acc_app f n acc : digits_acc f base n acc = digits_acc f base n EmptyString +:+ acc.
Proof.
    revert n acc; induction f as [|f IH]; intros n acc; simpl; [done|].
    case_if; [done|]. rewrite IH, (IH _ (String _ EmptyString)).
    by rewrite str_app_assoc.
Qed.

Lemma parse_digits_acc f n acc :
    0 <= n < base ^ Z.of_nat f ->
    parse_acc base (digits_acc f base n acc) 0 = parse_acc base acc n.
Proof.
    revert n acc; induction f as [|f IH]; intros n acc Hn; simpl.
    - f_equal. simpl in Hn. lia.
    - pose proof (Z.mod_pos_bound n base). pose proof (Z.div_mod n base).
      case_if; bprop; simpl; assert ((n mod base <? base) = true) as Hd by (apply Z.ltb_lt; lia).
      + rewrite digit_val_char, Hd by lia. f_equal. rewrite Z.mod_small; lia.
      + rewrite Nat2Z.inj_succ, Z.pow_succ_r in Hn by lia.
        rewrite IH; simpl.
        * rewrite digit_val_char, Hd by lia. f_equal. lia.
        * split; [apply Z.div_pos; lia | apply Z.div_lt_upper_bound; lia].
Qed.

Lemma log2_fuel n : 0 <= n -> n < base ^ Z.of_nat (S (Z.to_nat (Z.log2 n))).
Proof.
    intros Hn. rewrite Nat2Z.inj_succ, Z2Nat.id by apply Z.log2_nonneg.
    destruct (Z.eq_dec n 0) as [->|Hz]; [simpl; lia|].
    pose proof (Z.log2_spec n ltac:(lia)) as [_ H].
    eapply Z.lt_le_trans; [exact H|]. apply Z.pow_le_mono_l. lia.
Qed.

Lemma fmt_uint_nonempty n : fmt_uint base n <> EmptyString.
Proof.
    unfold fmt_uint. simpl. case_if; [done|]. rewrite digits_acc_app.
    by destruct (digits_acc _ _ _ _).
Qed.

Lemma parse_fmt_uint n : 0 <= n -> parse_uint base (fmt_uint base n) = Some n.
Proof.
    intros Hn. unfold parse_uint.
    destruct (fmt_uint base n) as [|c s] eqn:E; [by destruct (fmt_uint_nonempty n)|].
    rewrite <- E. unfold fmt_uint. rewrite parse_digits_acc; [done|].
    split; [done | by apply log2_fuel].
Qed.

Lemma digits_acc_length f n acc k :
    0 <= n < base ^ Z.of_nat (S k) ->
    (String.length (digits_acc f base n acc) <= S k + String.length acc)%nat.
Proof.
    revert n acc k; induction f as [|f IH]; intros n acc k Hn; simpl; [lia|].
    case_if; bprop; simpl; [lia|].
    rewrite Nat2Z.inj_succ, Z.pow_succ_r in Hn by lia.
    destruct k as [|k]; [simpl in Hn; lia|].
    specialize (IH (n / base) (String (digit_char (n mod base)) acc) k). simpl in IH.
    enough (0 <= n / base < base ^ Z.of_nat (S k)) by lia.
    split; [apply Z.div_pos; lia | apply Z.div_lt_upper_bound; lia].
Qed.

Lemma fmt_uint_length n k :
    0 <= n < base ^ Z.of_nat (S k) -> (String.length (fmt_uint base n) <= S k)%nat.
Proof. intros H. unfold fmt_uint. pose proof (digits_acc_length (S (Z.to_nat (Z.log2 n))) n EmptyString k H). simpl in *. lia. Qed.

Lemma digits_acc_chars f n acc (g : ascii -> bool) :
    (forall d, 0 <= d < base -> g (digit_char d) = true) ->
    str_forallb g acc = true -> str_forallb g (digits_acc f base n acc) = true.
Proof.
    intros Hg. revert n acc; induction f as [|f IH]; intros n acc Ha; simpl; [done|].
    assert (g (digit_char (n mod base)) = true) by (apply Hg, Z.mod_pos_bound; lia).
    case_if; [simpl; by rewrite H, Ha|]. apply IH. simpl. by rewrite H, Ha.
Qed.
End Digits.

Definition is_dec_digit (c : ascii) : bool := (48 <=? byte_of c) && (byte_of c <=? 57).

Lemma fmt_uint10_digits n : str_forallb is_dec_digit (fmt_uint 10 n) = true.
Proof.
  apply digits_acc_chars; [lia| |done]. intros d Hd. unfold is_dec_digit.
  rewrite byte_of_digit_char by lia. assert ((d <? 10) = true) as -> by (apply Z.ltb_lt; lia).
  apply andb_true_intro; split; apply Z.leb_le; lia.
Qed.

Lemma fmt_uint10_head n :
  exists c s, fmt_uint 10 n = String c s /\ is_dec_digit c = true.
Proof.
  pose proof (fmt_uint10_digits n) as H. pose proof (fmt_uint_nonempty 10 n) as Hne.
  destruct (fmt_uint 10 n) as [|c s]; [done|]. simpl in H. bprop. eauto.
Qed.

(** Printing then parsing a [big.Int] is the identity. *)
Lemma big_SetString_String z : big_SetString10 (big_String z) = Some z.
Proof.
  unfold big_String. case_if; bprop.
  - simpl. rewrite parse_fmt_uint by lia. simpl. f_equal. lia.
  - pose proof (parse_fmt_uint 10 ltac:(lia) z ltac:(lia)) as Hp.
    destruct (fmt_uint10_head z) as (c & s & E & Hc). rewrite E in *.
    unfold big_SetString10. by destruct c as [[] [] [] [] [] [] [] []].
Qed.

Lemma big_String_length z k :
  Z.abs z < 10 ^ Z.of_nat (S k) -> (String.length (big_String z) <= S (S k))%nat.
Proof.
  intros H. unfold big_String. case_if; bprop; simpl.
  - pose proof (fmt_uint_length 10 ltac:(lia) (- z) k ltac:(lia)). lia.
  - pose proof (fmt_uint_length 10 ltac:(lia) z k ltac:(lia)). lia.
Qed.

Lemma big_String_nonempty z : big_String z <> EmptyString.
Proof. unfold big_String. case_if; [done|]. apply fmt_uint_nonempty. Qed.

(** ** Fixed-width hexadecimal

    [fmt.Sprintf("%016x", n)] of a uint64: zero-padded, and 16 digits are
    always enough. *)

Fixpoint hexw (k : nat) (n : Z) : string :=
  match k with
  | O => EmptyString
  | S k => String (digit_char (n / 16 ^ Z.of_nat k mod 16)) (hexw k n)
  end.

Lemma hexw_length k n : String.length (hexw k n) = k.
Proof. induction k as [|k IH]; simpl; [done|]. by rewrite IH. Qed.

Lemma hexw_mod k n : hexw k (n mod 16 ^ Z.of_nat k) = hexw k n.
Proof.
  assert (forall j, (j <= k)%nat -> hexw j (n mod 16 ^ Z.of_nat k) = hexw j n) as H; [|by apply H].
  induction j as [|j IH]; intros Hj; simpl; [done|]. f_equal; [|apply IH; lia].
  f_equal. replace (Z.of_nat k) with (Z.of_nat j + (1 + Z.of_nat (k - j - 1))) by lia.
  rewrite Z.pow_add_r, Z.rem_mul_r by (try apply Z.pow_nonzero; try apply Z.pow_pos_nonneg; lia).
  rewrite Z.add_comm, (Z.mul_comm (16 ^ Z.of_nat j)), Z.div_add_l by (apply Z.pow_nonzero; lia).
  rewrite (Z.div_small (n mod _)) by (apply Z.mod_pos_bound, Z.pow_pos_nonneg; lia).
  rewrite Z.add_0_r, Z.pow_add_r by lia. change (16 ^ 1) with 16.
  rewrite Z.rem_mul_r by (try apply Z.pow_pos_nonneg; lia).
  rewrite Z.mul_comm, Z.mod_add by lia. by rewrite Z.mod_mod.
Qed.

Lemma digit_char_ltb a b : 0 <= a < 16 -> 0 <= b < 16 -> (byte_of (digit_char a) <? byte_of (digit_char b)) = (a <? b).
Proof.
  intros Ha Hb. rewrite !byte_of_digit_char by lia.
  destruct (Z.ltb_spec a 10), (Z.ltb_spec b 10), (Z.ltb_spec a b); rewrite ?Z.ltb_lt, ?Z.ltb_ge; lia.
Qed.

(** The text order of padded numbers is their numeric order. *)
Lemma hexw_lt k a b : 0 <= a < 16 ^ Z.of_nat k -> 0 <= b < 16 ^ Z.of_nat k ->
  str_ltb (hexw k a) (hexw k b) = (a <? b).
Proof.
  revert a b; induction k as [|k IH]; intros a b Ha Hb; [simpl in *; symmetry; apply Z.ltb_ge; lia|].
  cbn [hexw str_ltb]. rewrite Nat2Z.inj_succ, Z.pow_succ_r in Ha, Hb by lia.
  set (P := 16 ^ Z.of_nat k) in *. assert (0 < P) by (apply Z.pow_pos_nonneg; lia).
  assert (0 <= a / P < 16) by (split; [apply Z.div_pos | apply Z.div_lt_upper_bound]; lia).
  assert (0 <= b / P < 16) by (split; [apply Z.div_pos | apply Z.div_lt_upper_bound]; lia).
  rewrite !(Z.mod_small (_ / P)) by done. rewrite digit_char_ltb by done.
  pose proof (Z.div_mod a P ltac:(lia)). pose proof (Z.div_mod b P ltac:(lia)).
  pose proof (Z.mod_pos_bound a P ltac:(lia)). pose proof (Z.mod_pos_bound b P ltac:(lia)).
  destruct (Z.ltb_spec (a / P) (b / P)); [symmetry; apply Z.ltb_lt; nia|].
  destruct (Z.eqb_spec (byte_of (digit_char (a / P))) (byte_of (digit_char (b / P)))) as [E|E].
  - assert (a / P = b / P) as Eq.
    { pose proof (digit_char_ltb (b / P) (a / P) ltac:(lia) ltac:(lia)) as Hd. rewrite E, Z.ltb_irrefl in Hd.
      symmetry in Hd. apply Z.ltb_ge in Hd. lia. }
    rewrite <- (hexw_mod k a), <- (hexw_mod k b). fold P. rewrite IH by done.
    apply eq_true_iff_eq. rewrite !Z.ltb_lt. nia.
  - assert (a / P <> b / P) by (intros Eq; apply E; by rewrite Eq).
    symmetry. apply Z.ltb_ge. nia.
Qed.

Lemma parse_hexw_acc k n acc : 0 <= n ->
  parse_acc 16 (hexw k n) acc = Some (acc * 16 ^ Z.of_nat k + n mod 16 ^ Z.of_nat k).
Proof.
  intros Hn; revert acc; induction k as [|k IH]; intros acc; cbn [hexw parse_acc].
  - rewrite Z.mod_1_r. f_equal. lia.
  - set (P := 16 ^ Z.of_nat k) in *. assert (0 < P) by (apply Z.pow_pos_nonneg; lia).
    pose proof (Z.mod_pos_bound (n / P) 16 ltac:(lia)).
    rewrite digit_val_char, (proj2 (Z.ltb_lt _ _)), IH by lia. f_equal.
    rewrite Nat2Z.inj_succ, Z.pow_succ_r by lia. fold P. rewrite (Z.mul_comm 16 P), Z.rem_mul_r by lia. lia.
Qed.

#[global] Arguments hexw k n : simpl never.
