(* ===== verification/Amount.v ===== *)
(** * Precision-safe token amounts (internal/canonical/amount.go, errors.go)

    An [Amount] wraps a [*big.Int] that may be nil (the zero value of the Go
    struct): nil is [None], and every accessor reads it as zero. The file
    models the constructors from Soroban's 128- and 256-bit words, the decimal
    text form, and the JSON and database/sql codecs built on it. *)

From S2P Require Import Prelude GoLib.

(** ** The package's error sentinels

    An error is the list of sentinels it wraps, outermost first, so
    [errors.Is err s] is membership; an error that wraps none is the empty
    list. *)

Inductive sentinel :=
| ErrInvalidAmount | ErrI128Overflow | ErrUnknownAsset | ErrPairMismatch
| ErrInvalidAsset | ErrInvalidStrkey | ErrInvalidTrade | ErrInvalidOracle.

#[export] Instance sentinel_eq_dec : EqDecision sentinel.
Proof. solve_decision. Defined.

Abbreviation error := (list sentinel).

Definition errors_Is (e : error) (s : sentinel) : bool := bool_decide (s ∈ e).

(** ** The type *)

Record Amount := mkAmount { value : option Z }.

#[export] Instance Amount_eq_dec : EqDecision Amount.
Proof. solve_decision. Defined.

Definition Amount_BigInt (a : Amount) : Z := default 0 (value a).

Definition NewAmount (v : option Z) : Amount :=
  match v with
  | None => mkAmount (Some 0)
  | Some v => mkAmount (Some v)
  end.

Definition Amount_IsZero (a : Amount) : bool :=
  match value a with None => true | Some v => Z.sgn v =? 0 end.

Definition Amount_Sign (a : Amount) : Z :=
  match value a with None => 0 | Some v => Z.sgn v end.

(** [big.Int.Cmp] returns -1, 0 or +1. *)
Definition big_Cmp (x y : Z) : Z :=
  match x ?= y with Lt => -1 | Eq => 0 | Gt => 1 end.

Definition Amount_Cmp (a b : Amount) : Z := big_Cmp (Amount_BigInt a) (Amount_BigInt b).

Definition Amount_Equal (a b : Amount) : bool := Amount_Cmp a b =? 0.

(** ** Soroban wide integers *)

Definition FromInt128Parts (hi lo : Z) : Amount :=
  let h := Z.shiftl hi 64 in
  mkAmount (Some (h + lo)).

Definition FromUInt128Parts (hi lo : Z) : Amount :=
  let h := Z.shiftl hi 64 in
  mkAmount (Some (h + lo)).

Definition FromUInt256Parts (hiHi hiLo loHi loLo : Z) : Amount :=
  let r := Z.shiftl hiHi 64 in
  let r := r + hiLo in
  let r := Z.shiftl r 64 in
  let r := r + loHi in
  let r := Z.shiftl r 64 in
  let r := r + loLo in
  mkAmount (Some r).

Definition FromInt256Parts (hiHi hiLo loHi loLo : Z) : Amount :=
  let r := Z.shiftl hiHi 64 in
  let r := r + hiLo in
  let r := Z.shiftl r 64 in
  let r := r + loHi in
  let r := Z.shiftl r 64 in
  let r := r + loLo in
  mkAmount (Some r).

(** ** Text *)

Definition MaxAmountStringLen : nat := 512.

Definition FromString (s : string) : res error Amount :=
  if String.eqb s "" then Ok (mkAmount (Some 0))
  else if (MaxAmountStringLen <? String.length s)%nat then Err [ErrInvalidAmount]
  else match big_SetString10 s with
       | None => Err [ErrInvalidAmount]
       | Some v => Ok (mkAmount (Some v))
       end.

Definition Amount_String (a : Amount) : string :=
  match value a with None => "0" | Some v => big_String v end.

(** ** JSON

    The token a JSON document holds at an Amount: [encoding/json] hands
    [UnmarshalJSON] the bytes of one value, and the code distinguishes null,
    a string, a number literal (kept verbatim by [json.Number]) and the rest. *)

Inductive json_token :=
| JNull
| JString (s : string)
| JNumber (literal : string)
| JOther.

Definition Amount_MarshalJSON (a : Amount) : json_token := JString (Amount_String a).

Definition Amount_UnmarshalJSON (b : json_token) : res error Amount :=
  match b with
  | JNull => Err [ErrInvalidAmount]
  | JString s => FromString s
  | JNumber n => FromString n
  | JOther => Err [ErrInvalidAmount]
  end.

(** ** database/sql *)

Inductive sql_value :=
| SqlNull
| SqlString (s : string)
| SqlBytes (s : string)
| SqlInt64 (z : Z)
| SqlOther.

Definition Amount_Value (a : Amount) : sql_value := SqlString (Amount_String a).

Definition Amount_Scan (src : sql_value) : res error Amount :=
  match src with
  | SqlNull => Err [ErrInvalidAmount]
  | SqlString s => FromString s
  | SqlBytes s => FromString s
  | SqlInt64 z => Ok (mkAmount (Some z))
  | SqlOther => Err [ErrInvalidAmount]
  end.

(** ** Lemmas *)

Lemma Amount_Cmp_spec a b :
  (Amount_Cmp a b = -1 <-> Amount_BigInt a < Amount_BigInt b) /\
  (Amount_Cmp a b = 0 <-> Amount_BigInt a = Amount_BigInt b) /\
  (Amount_Cmp a b = 1 <-> Amount_BigInt b < Amount_BigInt a).
Proof.
  unfold Amount_Cmp, big_Cmp.
  destruct (Z.compare_spec (Amount_BigInt a) (Amount_BigInt b)); lia.
Qed.

Lemma Amount_Equal_spec a b :
  Amount_Equal a b = true <-> Amount_BigInt a = Amount_BigInt b.
Proof. unfold Amount_Equal. rewrite Z.eqb_eq. apply Amount_Cmp_spec. Qed.

Lemma Amount_Sign_spec a : Amount_Sign a = Z.sgn (Amount_BigInt a).
Proof. by destruct a as [[v|]]. Qed.

#[export] Hint Rewrite Amount_Sign_spec : gorw.

Lemma Amount_String_BigInt a : Amount_String a = big_String (Amount_BigInt a).
Proof. by destruct a as [[v|]]. Qed.

(** The word arithmetic of the two wide constructors, as one sum. *)
Lemma FromInt128Parts_value hi lo : Amount_BigInt (FromInt128Parts hi lo) = hi * 2 ^ 64 + lo.
Proof. unfold FromInt128Parts, Amount_BigInt; simpl. rewrite Z.shiftl_mul_pow2 by lia. lia. Qed.

Lemma FromInt256Parts_value hiHi hiLo loHi loLo :
  Amount_BigInt (FromInt256Parts hiHi hiLo loHi loLo) =
  hiHi * 2 ^ 192 + hiLo * 2 ^ 128 + loHi * 2 ^ 64 + loLo.
Proof.
  unfold FromInt256Parts, Amount_BigInt; simpl. rewrite !Z.shiftl_mul_pow2 by lia. lia.
Qed.

Lemma FromUInt256Parts_value hiHi hiLo loHi loLo :
  Amount_BigInt (FromUInt256Parts hiHi hiLo loHi loLo) =
  hiHi * 2 ^ 192 + hiLo * 2 ^ 128 + loHi * 2 ^ 64 + loLo.
Proof.
  unfold FromUInt256Parts, Amount_BigInt; simpl. rewrite !Z.shiftl_mul_pow2 by lia. lia.
Qed.

Lemma wraps_wrapu_concat w k hi lo :
  0 < w -> 0 <= k -> 0 <= lo < 2 ^ k -> - 2 ^ (w - 1) <= hi < 2 ^ (w - 1) ->
  wraps (w + k) (wrapu w hi * 2 ^ k + lo) = hi * 2 ^ k + lo.
Proof.
  intros Hw Hk Hlo Hhi. unfold wraps, wrapu.
  assert (2 ^ w = 2 * 2 ^ (w - 1)) by (rewrite <- Z.pow_succ_r by lia; f_equal; lia).
  assert (2 ^ (w + k) = 2 ^ w * 2 ^ k) by (apply Z.pow_add_r; lia).
  assert (2 ^ (w + k - 1) = 2 ^ (w - 1) * 2 ^ k)
    by (rewrite <- Z.pow_add_r by lia; f_equal; lia).
  assert (0 < 2 ^ k) by (apply Z.pow_pos_nonneg; lia).
  destruct (Z.lt_ge_cases hi 0) as [Hneg|Hpos].
  - rewrite <- (Z.mod_add hi 1 (2 ^ w)), Z.mul_1_l by lia.
    rewrite (Z.mod_small (hi + 2 ^ w)) by lia.
    replace ((hi + 2 ^ w) * 2 ^ k + lo + 2 ^ (w + k - 1))
      with (hi * 2 ^ k + lo + 2 ^ (w + k - 1) + 1 * 2 ^ (w + k)) by nia.
    rewrite Z.mod_add by nia. rewrite Z.mod_small; nia.
  - rewrite (Z.mod_small hi) by lia. rewrite Z.mod_small; nia.
Qed.

Lemma FromString_big_String z :
  Z.abs z < 10 ^ 511 -> FromString (big_String z) = Ok (mkAmount (Some z)).
Proof.
  intros Hz. unfold FromString.
  destruct (String.eqb_spec (big_String z) "") as [E|_]; [by destruct (big_String_nonempty z)|].
  pose proof (big_String_length z 510 Hz).
  destruct (Nat.ltb_spec MaxAmountStringLen (String.length (big_String z)));
    [unfold MaxAmountStringLen in *; lia|].
  by rewrite big_SetString_String.
Qed.

(** ** Properties *)

(** An i128 decoded from its signed high word and unsigned low word is the
    two's-complement value of the concatenated 128 bits, inside the i128 range
    and never truncated to 64 bits. *)
Theorem FromInt128Parts_twos_complement hi lo :
  is_int64 hi -> is_uint64 lo ->
  Amount_BigInt (FromInt128Parts hi lo) = wraps 128 (wrapu 64 hi * 2 ^ 64 + lo) /\
  - 2 ^ 127 <= Amount_BigInt (FromInt128Parts hi lo) < 2 ^ 127.
Proof.
  unfold is_int64, is_uint64, MinInt64, MaxInt64, MaxUint64. intros Hhi Hlo.
  rewrite FromInt128Parts_value. split; [|lia].
  symmetry. apply (wraps_wrapu_concat 64 64); lia.
Qed.

Lemma FromInt128Parts_twos_complement_witness :
  is_int64 (-1) /\ is_uint64 (2 ^ 64 - 5) /\
  Amount_BigInt (FromInt128Parts (-1) (2 ^ 64 - 5)) = -5 /\
  Amount_BigInt (FromInt128Parts (-1) (2 ^ 64 - 5))
    = wraps 128 (wrapu 64 (-1) * 2 ^ 64 + (2 ^ 64 - 5)).
Proof.
  split; [unfold is_int64, MinInt64, MaxInt64; lia|].
  split; [unfold is_uint64, MaxUint64; lia|]. split; [reflexivity|].
  apply (FromInt128Parts_twos_complement (-1) (2 ^ 64 - 5));
    [unfold is_int64, MinInt64, MaxInt64; lia | unfold is_uint64, MaxUint64; lia].
Defined.

(** Every Amount whose value has at most 511 digits survives both codecs
    exactly: unmarshalling its JSON string, and scanning its database value,
    give an Amount that is numerically equal, with no loss of precision. *)
Theorem Amount_codecs_roundtrip a :
  Z.abs (Amount_BigInt a) < 10 ^ 511 ->
  exists b c,
    Amount_UnmarshalJSON (Amount_MarshalJSON a) = Ok b /\ Amount_Equal a b = true /\
    Amount_Scan (Amount_Value a) = Ok c /\ Amount_Equal a c = true.
Proof.
  intros Ha. exists (mkAmount (Some (Amount_BigInt a))), (mkAmount (Some (Amount_BigInt a))).
  simpl. rewrite Amount_String_BigInt, FromString_big_String by done.
  by rewrite !Amount_Equal_spec.
Qed.

Lemma Amount_codecs_roundtrip_witness :
  let a := FromInt128Parts (- 2 ^ 63) 0 in
  Amount_String a = "-170141183460469231731687303715884105728" /\
  exists b c,
    Amount_UnmarshalJSON (Amount_MarshalJSON a) = Ok b /\ Amount_Equal a b = true /\
    Amount_Scan (Amount_Value a) = Ok c /\ Amount_Equal a c = true.
Proof. split; [vm_compute; reflexivity|]. apply Amount_codecs_roundtrip. vm_compute. reflexivity. Defined.
