(* ===== verification/Asset.v ===== *)
(** * Asset identities and pairs (internal/canonical/asset*.go, strkey.go, pair.go)

    The seven asset shapes, their validation, their wire form and its parser,
    and directed pairs. Strkey decoding (SEP-23 base32 with a CRC) belongs to
    the Stellar SDK: it is the class [Strkey], and the theorems use only the
    shape of a decodable key ([StrkeyLaws]). *)

From S2P Require Import Prelude GoLib Amount.

(** ** Strkeys (strkey.go) *)

Inductive version_byte :=
| VersionByteAccountID | VersionByteContract | VersionByteMuxedAccount
| VersionByteMuxedContract | VersionByteClaimableBalance | VersionByteLiquidityPool.

(** The SDK's codec: the payload of a checked strkey, and the strkey of a
    payload. *)
Class Strkey := {
  strkey_Decode : version_byte -> string -> option string;
  strkey_Encode : version_byte -> string -> option string
}.

(** The base32 alphabet of RFC 4648. *)
Definition is_base32 (c : ascii) : bool :=
  let b := byte_of c in ((65 <=? b) && (b <=? 90)) || ((50 <=? b) && (b <=? 55)).

(** SEP-23: account (G) and contract (C) strkeys are 56 base32 characters. *)
Class StrkeyLaws `{Strkey} := {
  strkey_shape v s r :
    v = VersionByteAccountID \/ v = VersionByteContract ->
    strkey_Decode v s = Some r ->
    String.length s = 56%nat /\ str_forallb is_base32 s = true;
  strkey_encode_decode v r s :
    strkey_Encode v r = Some s -> strkey_Decode v s = Some r
}.

Section StrkeyOps.
Context `{Strkey}.

Definition decodes (v : version_byte) (s : string) : bool :=
    match strkey_Decode v s with Some _ => true | None => false end.

Definition IsAccountID (s : string) : bool := decodes VersionByteAccountID s.
Definition IsContractID (s : string) : bool := decodes VersionByteContract s.
Definition IsMuxedAccount (s : string) : bool := decodes VersionByteMuxedAccount s.
Definition IsMuxedContract (s : string) : bool := decodes VersionByteMuxedContract s.
Definition IsClaimableBalance (s : string) : bool := decodes VersionByteClaimableBalance s.
Definition IsLiquidityPool (s : string) : bool := decodes VersionByteLiquidityPool s.

(** The strkey of kind [to] over the first 32 payload bytes of a [from]. *)
Definition unmux (from to : version_byte) (m : string) : option string :=
    match strkey_Decode from m with
    | None => None
    | Some raw =>
        if (String.length raw <? 32)%nat then None
        else strkey_Encode to (str_take 32 raw)
    end.

Definition MuxedAccountID (m : string) : option string :=
    unmux VersionByteMuxedAccount VersionByteAccountID m.
Definition MuxedContractID (w : string) : option string :=
    unmux VersionByteMuxedContract VersionByteContract w.

Definition IsAnyHolder (s : string) : bool :=
    IsAccountID s || IsContractID s || IsMuxedAccount s ||
    IsClaimableBalance s || IsLiquidityPool s.

Definition validateAccountID (s : string) : res error unit :=
    guardE (IsAccountID s) [ErrInvalidStrkey].
Definition validateContractID (s : string) : res error unit :=
    guardE (IsContractID s) [ErrInvalidStrkey].
Definition validateAddress (s : string) : res error unit :=
    guardE (IsAnyHolder s) [ErrInvalidStrkey].
End StrkeyOps.
#[global] Arguments IsAccountID {_} s : simpl never.
#[global] Arguments IsContractID {_} s : simpl never.

(** ** Allow-lists (asset_fiat.go, asset_crypto.go, asset_rwa.go) *)

Definition knownFiatCodes : list string :=
  [ "AED"; "ALL"; "ARS"; "AUD"; "AWG"; "BAM"; "BBD"; "BDT"; "BGN"; "BHD"; "BIF"; "BND";
    "BOB"; "BRL"; "BSD"; "BWP"; "BZD"; "CAD"; "CDF"; "CHF"; "CLP"; "CNH"; "CNY"; "COP";
    "CRC"; "CUP"; "CVE"; "CYP"; "CZK"; "DJF"; "DKK"; "DOP"; "DZD"; "EEK"; "EGP"; "ETB";
    "EUR"; "FJD"; "GBP"; "GHS"; "GMD"; "GNF"; "GTQ"; "GYD"; "HKD"; "HNL"; "HRK"; "HTG";
    "HUF"; "IDR"; "ILS"; "INR"; "IQD"; "ISK"; "JMD"; "JPY"; "KES"; "KHR"; "KMF"; "KRW";
    "KWD"; "KYD"; "KZT"; "LAK"; "LBP"; "LKR"; "LRD"; "LSL"; "LTL"; "LVL"; "LYD"; "MAD";
    "MDL"; "MGA"; "MKD"; "MOP"; "MTL"; "MUR"; "MVR"; "MWK"; "MXN"; "MYR"; "MZN"; "NAD";
    "NGN"; "NIO"; "NOK"; "NPR"; "NZD"; "OMR"; "PAB"; "PEN"; "PGK"; "PHP"; "PKR"; "PLN";
    "PYG"; "QAR"; "ROL"; "RON"; "RSD"; "RUB"; "RWF"; "SAR"; "SCR"; "SDG"; "SEK"; "SGD";
    "SIT"; "SKK"; "SOS"; "SVC"; "SZL"; "THB"; "TJS"; "TMT"; "TND"; "TRL"; "TRY"; "TTD";
    "TWD"; "TZS"; "UAH"; "UGX"; "USD"; "UYU"; "UZS"; "VES"; "VND"; "XPF"; "YER"; "ZAR";
    "ZMW" ].

Definition knownCryptoCodes : list string :=
  [ "ADA"; "ATOM"; "AVAX"; "BCH"; "BNB"; "BTC"; "DASH"; "DOGE"; "DOT"; "ETH"; "LINK";
    "LTC"; "MATIC"; "NEAR"; "SHIB"; "SOL"; "TON"; "TRX"; "UNI"; "USDC"; "USDT"; "XLM";
    "XRP"; "DAI"; "PYUSD"; "USDP"; "USDT0"; "EURC"; "EUROC"; "EUROB"; "MXNe"; "SolvBTC";
    "SolvBTC_FUNDAMENTAL"; "SolvBTC.BBN_FUNDAMENTAL"; "USDe"; "sUSDe";
    "savUSD_FUNDAMENTAL"; "SolvBTC_FUNDAMENTAL_USD"; "SolvBTC.BBN_FUNDAMENTAL_USD" ].

Definition knownRWACodes : list string :=
  [ "BENJI"; "iBENJI"; "GILTS"; "CETES"; "KTB"; "TESOURO"; "USTRY"; "SPXU"; "USDY";
    "USST"; "XAUm"; "deJAAA"; "deJTRSY"; "XAU" ].

Definition IsKnownFiat (code : string) : bool := bool_decide (code ∈ knownFiatCodes).
Definition IsKnownCrypto (code : string) : bool := bool_decide (code ∈ knownCryptoCodes).
Definition IsKnownRWA (code : string) : bool := bool_decide (code ∈ knownRWACodes).

#[global] Arguments IsKnownFiat code : simpl never.
#[global] Arguments IsKnownCrypto code : simpl never.
#[global] Arguments IsKnownRWA code : simpl never.

Definition KnownFiatCodes : list string := sort_Strings knownFiatCodes.
Definition KnownRWACodes : list string := sort_Strings knownRWACodes.

(** ** Assets (asset.go) *)

(** [AssetType] is a Go string type; the constants are constructors and any
    other tag (the zero value included) is [AssetTypeUnknown]. *)
Inductive AssetType :=
| AssetNative | AssetClassic | AssetSoroban | AssetFiat
| AssetCrypto | AssetRWA | AssetOracleRaw
| AssetTypeUnknown (tag : string).

#[export] Instance AssetType_eq_dec : EqDecision AssetType.
Proof. solve_decision. Defined.

Record Asset := mkAsset {
  Type_ : AssetType;
  Code : string;
  Issuer : string;
  ContractID : string
}.

#[export] Instance Asset_eq_dec : EqDecision Asset.
Proof. solve_decision. Defined.

Definition zero_asset : Asset := mkAsset (AssetTypeUnknown "") "" "" "".
Definition NativeAsset : Asset := mkAsset AssetNative "" "" "".

Definition Asset_IsZero (a : Asset) : bool :=
  bool_decide (Type_ a = AssetTypeUnknown "") && String.eqb (Code a) "" &&
  String.eqb (Issuer a) "" && String.eqb (ContractID a) "".

Definition is_alnum (c : ascii) : bool :=
  let b := byte_of c in
  ((97 <=? b) && (b <=? 122)) || ((65 <=? b) && (b <=? 90)) || ((48 <=? b) && (b <=? 57)).

Definition validateClassicAssetCode (code : string) : res error unit :=
  let l := String.length code in
  if (l =? 0)%nat || (12 <? l)%nat then Err [ErrInvalidAsset]
  else guardE (str_forallb is_alnum code) [ErrInvalidAsset].

Definition rawSymbolMaxLen : nat := 64.

Definition is_printable (c : ascii) : bool :=
  negb ((byte_of c <? 0x21) || (0x7E <? byte_of c)).

Definition validateRawSymbol (code : string) : res error unit :=
  let l := String.length code in
  if (l =? 0)%nat || (rawSymbolMaxLen <? l)%nat then Err [ErrInvalidAsset]
  else guardE (str_forallb is_printable code) [ErrInvalidAsset].

Definition NewFiatAsset (code : string) : res error Asset :=
  if IsKnownFiat code then Ok (mkAsset AssetFiat code "" "") else Err [ErrInvalidAsset].
Definition NewCryptoAsset (code : string) : res error Asset :=
  if IsKnownCrypto code then Ok (mkAsset AssetCrypto code "" "") else Err [ErrInvalidAsset].
Definition NewRWAAsset (code : string) : res error Asset :=
  if IsKnownRWA code then Ok (mkAsset AssetRWA code "" "") else Err [ErrInvalidAsset].
Definition NewOracleRawAsset (symbol : string) : res error Asset :=
  _ ← validateRawSymbol symbol; Ok (mkAsset AssetOracleRaw symbol "" "").

Definition Asset_IsMapped (a : Asset) : bool := negb (bool_decide (Type_ a = AssetOracleRaw)).

Definition MapOracleSymbol (sym : string) : res error Asset :=
  if IsKnownFiat sym then NewFiatAsset sym
  else if IsKnownCrypto sym then NewCryptoAsset sym
  else if IsKnownRWA sym then NewRWAAsset sym
  else NewOracleRawAsset sym.

Definition Asset_String (a : Asset) : string :=
  match Type_ a with
  | AssetNative => "native"
  | AssetClassic => Code a +:+ "-" +:+ Issuer a
  | AssetSoroban => ContractID a
  | AssetFiat => "fiat:" +:+ Code a
  | AssetCrypto => "crypto:" +:+ Code a
  | AssetRWA => "rwa:" +:+ Code a
  | AssetOracleRaw => "raw:" +:+ Code a
  | AssetTypeUnknown _ => "invalid-asset"
  end.

Definition Asset_Equal (a b : Asset) : bool :=
  bool_decide (Type_ a = Type_ b) && String.eqb (Code a) (Code b) &&
  String.eqb (Issuer a) (Issuer b) && String.eqb (ContractID a) (ContractID b).

Definition is_empty (s : string) : bool := String.eqb s "".

(** [strings.IndexAny(s, "-:")]'s separator set. *)
Definition is_sep (c : ascii) : bool := Ascii.eqb c "-" || Ascii.eqb c ":".

Section AssetOps.
Context `{Strkey}.

Definition NewClassicAsset (code issuer : string) : res error Asset :=
    _ ← validateClassicAssetCode code;
    _ ← validateAccountID issuer;
    Ok (mkAsset AssetClassic code issuer "").

Definition NewSorobanAsset (contractID : string) : res error Asset :=
    _ ← validateContractID contractID;
    Ok (mkAsset AssetSoroban "" "" contractID).

Definition Asset_Validate (a : Asset) : res error unit :=
    match Type_ a with
    | AssetNative =>
        guardE (is_empty (Code a) && is_empty (Issuer a) && is_empty (ContractID a)) [ErrInvalidAsset]
    | AssetClassic =>
        _ ← guardE (is_empty (ContractID a)) [ErrInvalidAsset];
        _ ← validateClassicAssetCode (Code a);
        validateAccountID (Issuer a)
    | AssetSoroban =>
        _ ← guardE (is_empty (Code a) && is_empty (Issuer a)) [ErrInvalidAsset];
        validateContractID (ContractID a)
    | AssetFiat =>
        _ ← guardE (is_empty (Issuer a) && is_empty (ContractID a)) [ErrInvalidAsset];
        guardE (IsKnownFiat (Code a)) [ErrInvalidAsset]
    | AssetCrypto =>
        _ ← guardE (is_empty (Issuer a) && is_empty (ContractID a)) [ErrInvalidAsset];
        guardE (IsKnownCrypto (Code a)) [ErrInvalidAsset]
    | AssetRWA =>
        _ ← guardE (is_empty (Issuer a) && is_empty (ContractID a)) [ErrInvalidAsset];
        guardE (IsKnownRWA (Code a)) [ErrInvalidAsset]
    | AssetOracleRaw =>
        _ ← guardE (is_empty (Issuer a) && is_empty (ContractID a)) [ErrInvalidAsset];
        validateRawSymbol (Code a)
    | AssetTypeUnknown _ => Err [ErrInvalidAsset]
    end.

(** The fiat/crypto/RWA prefix dispatch of [ParseAsset]: the first prefix
      that matches with a rest that is not a G-strkey decides. *)
Fixpoint prefix_dispatch (s : string)
      (table : list (string * (string -> res error Asset))) : option (res error Asset) :=
    match table with
    | [] => None
    | (prefix, ctor) :: table' =>
        match CutPrefix s prefix with
        | Some rest =>
            if negb (IsAccountID rest) then Some (ctor rest) else prefix_dispatch s table'
        | None => prefix_dispatch s table'
        end
    end.

Definition ParseAsset (s : string) : res error Asset :=
    if String.eqb s "" then Err [ErrInvalidAsset]
    else if String.eqb s "native" then Ok NativeAsset
    else if EqualFold s "XLM" || EqualFold s "native" then Ok NativeAsset
    else
      match prefix_dispatch s
              [("fiat:", NewFiatAsset); ("crypto:", NewCryptoAsset); ("rwa:", NewRWAAsset)] with
      | Some r => r
      | None =>
          match CutPrefix s "raw:" with
          | Some rest => NewOracleRawAsset rest
          | None =>
              if IsContractID s then NewSorobanAsset s
              else
                match index_by is_sep s with
                | Some sep =>
                    if (0 <? sep)%nat && (sep <? String.length s - 1)%nat
                    then NewClassicAsset (str_take sep s) (str_drop (S sep) s)
                    else Err [ErrInvalidAsset]
                | None => Err [ErrInvalidAsset]
                end
          end
      end.

(** JSON: the string form, or the structured object (its decoded fields). *)
Inductive asset_json :=
  | AJString (s : string)
  | AJNull
  | AJObject (r : Asset)
  | AJOther.

Definition Asset_MarshalJSON (a : Asset) : asset_json := AJString (Asset_String a).

(** [json.Unmarshal] of null into a Go string succeeds and leaves it empty. *)
Definition Asset_UnmarshalJSON (b : asset_json) : res error Asset :=
    match b with
    | AJString s => ParseAsset s
    | AJNull => ParseAsset ""
    | AJObject r => _ ← Asset_Validate r; Ok r
    | AJOther => Err [ErrInvalidAsset]
    end.

Definition Asset_Value (a : Asset) : res error sql_value :=
    _ ← Asset_Validate a; Ok (SqlString (Asset_String a)).

Definition Asset_Scan (src : sql_value) : res error Asset :=
    match src with
    | SqlNull => Err [ErrInvalidAsset]
    | SqlString s => ParseAsset s
    | SqlBytes s => ParseAsset s
    | _ => Err [ErrInvalidAsset]
    end.
End AssetOps.

(** ** Pairs (pair.go) *)

Record Pair := mkPair { Base : Asset; Quote : Asset }.

#[export] Instance Pair_eq_dec : EqDecision Pair.
Proof. solve_decision. Defined.

Definition Pair_String (p : Pair) : string :=
  Asset_String (Base p) +:+ "/" +:+ Asset_String (Quote p).

Definition Pair_Flip (p : Pair) : Pair := mkPair (Quote p) (Base p).

Definition Pair_Equal (p q : Pair) : bool :=
  Asset_Equal (Base p) (Base q) && Asset_Equal (Quote p) (Quote q).

Definition Pair_EqualEitherWay (p q : Pair) : bool :=
  Pair_Equal p q || Pair_Equal p (Pair_Flip q).

Section PairOps.
Context `{Strkey}.

Definition Pair_Validate (p : Pair) : res error unit :=
    _ ← Asset_Validate (Base p);
    _ ← Asset_Validate (Quote p);
    _ ← guardE (Asset_IsMapped (Base p)) [ErrInvalidAsset];
    _ ← guardE (Asset_IsMapped (Quote p)) [ErrInvalidAsset];
    guardE (negb (Asset_Equal (Base p) (Quote p))) [ErrPairMismatch].

Definition NewPair (base quote : Asset) : res error Pair :=
    let p := mkPair base quote in
    _ ← Pair_Validate p; Ok p.

Definition ParsePair (s : string) : res error Pair :=
    match last_index_by (Ascii.eqb "/") s with
    | None => Err [ErrPairMismatch]
    | Some idx =>
        if (idx =? 0)%nat || (idx =? String.length s - 1)%nat then Err [ErrPairMismatch]
        else
          base ← ParseAsset (str_take idx s);
          quote ← ParseAsset (str_drop (S idx) s);
          NewPair base quote
    end.
End PairOps.

(** JSON: the string form, or an object whose fields are asset values. *)
Inductive pair_json :=
| PJString (s : string)
| PJObject (base quote : option asset_json)
| PJOther.

Definition Pair_MarshalJSON (p : Pair) : pair_json :=
  PJObject (Some (Asset_MarshalJSON (Base p))) (Some (Asset_MarshalJSON (Quote p))).

Definition json_field `{Strkey} (f : option asset_json) : res error Asset :=
  match f with None => Ok zero_asset | Some j => Asset_UnmarshalJSON j end.

Definition Pair_UnmarshalJSON `{Strkey} (b : pair_json) : res error Pair :=
  match b with
  | PJString s => ParsePair s
  | PJObject bj qj =>
      base ← json_field bj;
      quote ← json_field qj;
      _ ← Pair_Validate (mkPair base quote);
      Ok (mkPair base quote)
  | PJOther => Err []
  end.

(** ** Lemmas *)

Lemma Asset_Equal_spec a b : Asset_Equal a b = true <-> a = b.
Proof.
  unfold Asset_Equal. destruct a as [ta ca ia ka], b as [tb cb ib kb]; simpl. split.
  - intros E. bprop. by subst.
  - intros E. injection E as -> -> -> ->.
    rewrite !String.eqb_refl, bool_decide_eq_true_2 by done. done.
Qed.

Lemma Asset_Equal_refl a : Asset_Equal a a = true.
Proof. by apply Asset_Equal_spec. Qed.

Lemma Asset_Equal_false a b : Asset_Equal a b = false <-> a <> b.
Proof. rewrite <- Asset_Equal_spec. by destruct (Asset_Equal a b). Qed.

Lemma Asset_Equal_sym a b : Asset_Equal a b = Asset_Equal b a.
Proof. apply eq_true_iff_eq. rewrite !Asset_Equal_spec. naive_solver. Qed.

Lemma is_empty_spec s : is_empty s = true <-> s = EmptyString.
Proof. apply String.eqb_eq. Qed.

Lemma EqualFold_length s t : EqualFold s t = true -> String.length s = String.length t.
Proof.
  revert t; induction s as [|a s IH]; intros [|b t]; simpl; try done.
  intros E. bprop. f_equal. by apply IH.
Qed.

Lemma str_forallb_differ f s t :
  str_forallb f s = true -> str_forallb f t = false -> s <> t.
Proof. congruence. Qed.

Lemma CutPrefix_None_char f s p :
  str_forallb f s = true -> str_forallb f p = false -> CutPrefix s p = None.
Proof.
  intros Hs Hp. destruct (CutPrefix s p) eqn:E; [|done].
  apply CutPrefix_Some in E. subst. rewrite str_forallb_app, Hp in Hs. done.
Qed.

(** A prefix that ends at its first character outside [g] is matched only by
    a string whose first such character is the same, at the same place. *)
Lemma CutPrefix_sep g a c b p d r :
  str_forallb g a = true -> str_forallb g p = true -> g c = false -> g d = false ->
  CutPrefix (a +:+ String c b) (p +:+ String d EmptyString) = Some r -> a = p /\ c = d /\ b = r.
Proof.
  intros Ha Hp Hc Hd. revert a Ha Hp.
  induction p as [|y p IH]; intros [|x a] Ha Hp; simpl in *; bprop.
  - destruct (Ascii.eqb_spec d c); intros; by simplify_eq.
  - destruct (Ascii.eqb_spec d x); congruence.
  - destruct (Ascii.eqb_spec y c); congruence.
  - destruct (Ascii.eqb_spec y x) as [->|]; [|done]. intros E. by destruct (IH a) as (-> & -> & ->).
Qed.

Definition no_slash (c : ascii) : bool := negb (Ascii.eqb "/" c).

(** What the parser needs to know of an allow-listed code. *)
Definition code_ok (code : string) : bool :=
  (String.length code <? 56)%nat && str_forallb no_slash code &&
  negb (String.eqb code "").

Lemma allow_list_code_ok l code :
  forallb code_ok l = true -> bool_decide (code ∈ l) = true -> code_ok code = true.
Proof.
  intros Hl Hc. bprop. rewrite forallb_forall in Hl. by apply Hl, list_elem_of_In.
Qed.

Lemma IsKnownFiat_ok code : IsKnownFiat code = true -> code_ok code = true.
Proof. apply allow_list_code_ok. vm_compute. reflexivity. Qed.
Lemma IsKnownCrypto_ok code : IsKnownCrypto code = true -> code_ok code = true.
Proof. apply allow_list_code_ok. vm_compute. reflexivity. Qed.
Lemma IsKnownRWA_ok code : IsKnownRWA code = true -> code_ok code = true.
Proof. apply allow_list_code_ok. vm_compute. reflexivity. Qed.

Lemma is_alnum_not_sep c : is_alnum c = true -> negb (is_sep c) = true.
Proof.
  unfold is_alnum, is_sep. intros Hc.
  destruct (Ascii.eqb_spec c "-") as [->|_]; [by vm_compute in Hc|].
  by destruct (Ascii.eqb_spec c ":") as [->|_]; [vm_compute in Hc|].
Qed.

Lemma is_sep_cases c : is_sep c = true -> c = "-"%char \/ c = ":"%char.
Proof. unfold is_sep. intros [->%Ascii.eqb_eq | ->%Ascii.eqb_eq]%orb_true_iff; auto. Qed.
Lemma is_sep_not_alnum c : is_sep c = true -> is_alnum c = false.
Proof. by intros [-> | ->]%is_sep_cases. Qed.
Lemma is_sep_not_base32 c : is_sep c = true -> is_base32 c = false.
Proof. by intros [-> | ->]%is_sep_cases. Qed.

Lemma is_alnum_no_slash c : is_alnum c = true -> no_slash c = true.
Proof. unfold no_slash. by destruct (Ascii.eqb_spec "/" c) as [<-|_]. Qed.

Lemma is_base32_no_slash c : is_base32 c = true -> no_slash c = true.
Proof. unfold no_slash. by destruct (Ascii.eqb_spec "/" c) as [<-|_]. Qed.

Section StrkeyFacts.
Context `{StrkeyLaws}.

Lemma IsAccountID_shape s :
  IsAccountID s = true -> String.length s = 56%nat /\ str_forallb is_base32 s = true.
Proof.
  unfold IsAccountID, decodes. destruct (strkey_Decode _ s) eqn:E; [intros _|done].
  eapply (strkey_shape VersionByteAccountID); [by left | exact E].
Qed.

Lemma IsContractID_shape s :
  IsContractID s = true -> String.length s = 56%nat /\ str_forallb is_base32 s = true.
Proof.
  unfold IsContractID, decodes. destruct (strkey_Decode _ s) eqn:E; [intros _|done].
  eapply (strkey_shape VersionByteContract); [by right | exact E].
Qed.

Lemma code_ok_not_account code : code_ok code = true -> IsAccountID code = false.
Proof.
  unfold code_ok. intros Hc. bprop. destruct (IsAccountID code) eqn:E; [|done].
  apply IsAccountID_shape in E. lia.
Qed.

Lemma not_base32_not_contract s : str_forallb is_base32 s = false -> IsContractID s = false.
Proof.
  intros Hs. destruct (IsContractID s) eqn:E; [|done].
  apply IsContractID_shape in E as [_ E]. congruence.
Qed.
End StrkeyFacts.

(** A long string is none of the native spellings. *)
Lemma long_not_native s :
  (6 < String.length s)%nat ->
  String.eqb s "" = false /\ String.eqb s "native" = false /\
  EqualFold s "XLM" || EqualFold s "native" = false.
Proof.
  intros Hl. repeat split.
  - destruct (String.eqb_spec s ""); [subst; simpl in Hl; lia|done].
  - destruct (String.eqb_spec s "native"); [subst; simpl in Hl; lia|done].
  - destruct (EqualFold s "XLM") eqn:E1; [apply EqualFold_length in E1; simpl in E1; lia|].
    destruct (EqualFold s "native") eqn:E2; [apply EqualFold_length in E2; simpl in E2; lia|done].
Qed.

Section RoundTrip.
Context `{StrkeyLaws}.

Lemma ParseAsset_soroban k :
  IsContractID k = true -> ParseAsset k = Ok (mkAsset AssetSoroban "" "" k).
Proof.
  intros Hk. destruct (IsContractID_shape k Hk) as [Hl H32].
  destruct (long_not_native k ltac:(lia)) as (E1 & E2 & E3).
  unfold ParseAsset. rewrite E1, E2, E3. cbn [prefix_dispatch].
  rewrite !(CutPrefix_None_char is_base32 k) by done.
  rewrite Hk. unfold NewSorobanAsset, validateContractID. by rewrite Hk.
Qed.

(** The prefixes of the table fall through to the classic form: what follows
    them is an issuer, or they do not match. *)
Lemma prefix_dispatch_classic code c issuer table :
  str_forallb is_alnum code = true -> is_sep c = true -> IsAccountID issuer = true ->
  Forall (fun e => exists p, e.1 = p +:+ ":" /\ str_forallb is_alnum p = true) table ->
  prefix_dispatch (code +:+ String c issuer) table = None.
Proof.
  intros Ha Hc Hi. induction 1 as [|[pre ctor] table (p & Hp & Hpa) _ IH]; [done|]. cbn [fst] in Hp. subst pre. cbn [prefix_dispatch].
  destruct (CutPrefix _ _) as [rest|] eqn:E; [|done].
  by destruct (CutPrefix_sep is_alnum code c issuer p ":" rest Ha Hpa (is_sep_not_alnum c Hc) eq_refl E) as (_ & _ & <-); rewrite Hi.
Qed.

(** Both separators of the classic form are read, but for [raw:G...]. *)
Lemma ParseAsset_classic_sep c code issuer :
  is_sep c = true -> (c = ":"%char -> code <> "raw") ->
  validateClassicAssetCode code = Ok tt -> IsAccountID issuer = true ->
  ParseAsset (code +:+ String c issuer) = Ok (mkAsset AssetClassic code issuer "").
Proof.
  intros Hs Hraw Hc Hi. destruct (IsAccountID_shape issuer Hi) as [Hl _].
  assert (String.length code <> 0%nat /\ str_forallb is_alnum code = true) as [Hn Ha].
  { unfold validateClassicAssetCode in Hc. case_if_in Hc; [done|]. bprop. inv_ok. done. }
  set (s := code +:+ String c issuer).
  assert (String.length s = (String.length code + 57)%nat) as Hlen
    by (unfold s; rewrite !str_length_app; simpl; lia).
  destruct (long_not_native s ltac:(lia)) as (E1 & E2 & E3).
  assert (CutPrefix s "raw:" = None) as Hr.
  { destruct (CutPrefix s "raw:") eqn:E; [|done].
    destruct (CutPrefix_sep is_alnum code c issuer "raw" ":" _ Ha eq_refl (is_sep_not_alnum c Hs) eq_refl E) as (-> & -> & _).
    by destruct (Hraw eq_refl). }
  assert (IsContractID s = false) as Hk.
  { apply not_base32_not_contract. unfold s. rewrite str_forallb_app. simpl.
    by rewrite (is_sep_not_base32 c Hs), andb_false_r. }
  assert (index_by is_sep s = Some (String.length code)) as Hx.
  { apply index_by_app; [|done]. eapply str_forallb_impl; [|exact Ha]. apply is_alnum_not_sep. }
  unfold ParseAsset. rewrite E1, E2, E3, Hr, Hk, Hx. unfold s at 1. rewrite prefix_dispatch_classic; try done.
  2: { repeat constructor; [by exists "fiat"|by exists "crypto"|by exists "rwa"]. }
  destruct (Nat.ltb_spec 0 (String.length code)); [|lia].
  destruct (Nat.ltb_spec (String.length code) (String.length s - 1)); [|lia]. simpl andb. cbv iota.
  unfold s. rewrite str_take_app, str_drop_S_app.
  unfold NewClassicAsset, validateAccountID, guardE. by rewrite Hc, Hi.
Qed.

Lemma ParseAsset_fiat code :
  IsKnownFiat code = true -> ParseAsset ("fiat:" +:+ code) = Ok (mkAsset AssetFiat code "" "").
Proof.
  intros Hk. pose proof (code_ok_not_account _ (IsKnownFiat_ok _ Hk)) as Ha.
  unfold ParseAsset. cbv [String.append]. cbn. rewrite Ha. simpl. unfold NewFiatAsset. by rewrite Hk.
Qed.

Lemma ParseAsset_crypto code :
  IsKnownCrypto code = true ->
  ParseAsset ("crypto:" +:+ code) = Ok (mkAsset AssetCrypto code "" "").
Proof.
  intros Hk. pose proof (code_ok_not_account _ (IsKnownCrypto_ok _ Hk)) as Ha.
  unfold ParseAsset. cbv [String.append]. cbn. rewrite Ha. simpl. unfold NewCryptoAsset. by rewrite Hk.
Qed.

Lemma ParseAsset_rwa code :
  IsKnownRWA code = true -> ParseAsset ("rwa:" +:+ code) = Ok (mkAsset AssetRWA code "" "").
Proof.
  intros Hk. pose proof (code_ok_not_account _ (IsKnownRWA_ok _ Hk)) as Ha.
  unfold ParseAsset. cbv [String.append]. cbn. rewrite Ha. simpl. unfold NewRWAAsset. by rewrite Hk.
Qed.

Lemma ParseAsset_raw sym :
  validateRawSymbol sym = Ok tt ->
  ParseAsset ("raw:" +:+ sym) = Ok (mkAsset AssetOracleRaw sym "" "").
Proof. intros Hv. unfold ParseAsset. cbv [String.append]. cbn. unfold NewOracleRawAsset. by rewrite Hv. Qed.

(** Case analysis on a valid asset: its fields, per shape. *)
Lemma Asset_Validate_inv a :
  Asset_Validate a = Ok tt ->
  match Type_ a with
  | AssetNative => a = NativeAsset
  | AssetClassic => a = mkAsset AssetClassic (Code a) (Issuer a) "" /\
      validateClassicAssetCode (Code a) = Ok tt /\ IsAccountID (Issuer a) = true
  | AssetSoroban => a = mkAsset AssetSoroban "" "" (ContractID a) /\
      IsContractID (ContractID a) = true
  | AssetFiat => a = mkAsset AssetFiat (Code a) "" "" /\ IsKnownFiat (Code a) = true
  | AssetCrypto => a = mkAsset AssetCrypto (Code a) "" "" /\ IsKnownCrypto (Code a) = true
  | AssetRWA => a = mkAsset AssetRWA (Code a) "" "" /\ IsKnownRWA (Code a) = true
  | AssetOracleRaw => a = mkAsset AssetOracleRaw (Code a) "" "" /\
      validateRawSymbol (Code a) = Ok tt
  | AssetTypeUnknown _ => False
  end.
Proof.
  destruct a as [[] c i k]; unfold Asset_Validate, validateAccountID, validateContractID; simpl;
    intros Hv; inv_ok; bprop; rewrite ?is_empty_spec in *; subst;
    repeat match goal with u : () |- _ => destruct u end; try done.
Qed.

Lemma ParseAsset_String_valid a :
  Asset_Validate a = Ok tt -> ParseAsset (Asset_String a) = Ok a.
Proof.
  intros Hv. pose proof (Asset_Validate_inv a Hv) as Hi.
  destruct a as [[] c i k]; unfold Asset_String, NativeAsset in *; simpl in *;
    destruct_and?; simplify_eq; try done.
  - by apply (ParseAsset_classic_sep "-").
  - by apply ParseAsset_soroban.
  - by apply ParseAsset_fiat.
  - by apply ParseAsset_crypto.
  - by apply ParseAsset_rwa.
  - by apply ParseAsset_raw.
Qed.
End RoundTrip.

(** ** A concrete strkey codec, for the witnesses

    It checks the version character, the length and the alphabet of a key and
    takes the characters after the first as payload. *)

Definition version_char (v : version_byte) : ascii :=
  match v with
  | VersionByteAccountID => "G" | VersionByteContract => "C"
  | VersionByteMuxedAccount => "M" | VersionByteMuxedContract => "W"
  | VersionByteClaimableBalance => "B" | VersionByteLiquidityPool => "L"
  end.

Definition version_len (v : version_byte) : nat :=
  match v with
  | VersionByteMuxedAccount | VersionByteMuxedContract => 69
  | VersionByteClaimableBalance => 58
  | _ => 56
  end.

Definition shape_ok (v : version_byte) (s : string) : bool :=
  (String.length s =? version_len v)%nat && str_forallb is_base32 s.

Definition plain_strkey : Strkey := {|
  strkey_Decode v s :=
    match s with
    | String c r => if Ascii.eqb c (version_char v) && shape_ok v s then Some r else None
    | EmptyString => None
    end;
  strkey_Encode v r :=
    let s := String (version_char v) r in if shape_ok v s then Some s else None
|}.

Lemma plain_strkey_laws : @StrkeyLaws plain_strkey.
Proof.
  constructor.
  - intros v [|c s] r Hv E; simpl in E; [done|].
    destruct (Ascii.eqb c (version_char v)); [|done]. simpl in E.
    unfold shape_ok in E. case_if_in E; [|done]. bprop. split; [|done].
    by destruct Hv as [-> | ->].
  - intros v r s E. simpl in E. case_if_in E; [|done]. injection E as <-. simpl.
    rewrite Ascii.eqb_refl. simpl. by rewrite Heqb.
Qed.

Definition issuer_ex : string := "GA5ZSEJYB37JRC5AVCIA5MOP4RHTM335X2KGX3IHOJAPP5RE34K4KZVN".

(** ** Properties *)

Lemma NewClassicAsset_valid `{Strkey} code issuer a :
  NewClassicAsset code issuer = Ok a -> Asset_Validate a = Ok tt.
Proof.
  unfold NewClassicAsset, validateAccountID. intros E. inv_ok. unfold Asset_Validate, validateAccountID, guardE. simpl.
  by rw_hyps.
Qed.

Lemma allow_listed_valid `{Strkey} code a :
  NewFiatAsset code = Ok a \/ NewCryptoAsset code = Ok a \/ NewRWAAsset code = Ok a \/
  NewOracleRawAsset code = Ok a \/ NewSorobanAsset code = Ok a ->
  Asset_Validate a = Ok tt.
Proof.
  unfold NewFiatAsset, NewCryptoAsset, NewRWAAsset, NewOracleRawAsset, NewSorobanAsset,
    validateContractID.
  intros [E|[E|[E|[E|E]]]]; try (case_if_in E; [|done]); inv_ok; unfold Asset_Validate, validateContractID, guardE; simpl;
    by rw_hyps.
Qed.

(** C35: a valid asset is recovered exactly from its wire form, whether read as
    an API string, as JSON, or from a database column. *)
Theorem ParseAsset_roundtrip `{StrkeyLaws} a :
  Asset_Validate a = Ok tt ->
  ParseAsset (Asset_String a) = Ok a /\
  Asset_UnmarshalJSON (Asset_MarshalJSON a) = Ok a /\
  exists v, Asset_Value a = Ok v /\ Asset_Scan v = Ok a.
Proof.
  intros Hv. pose proof (ParseAsset_String_valid a Hv) as Hp.
  repeat split; [exact Hp | exact Hp |].
  exists (SqlString (Asset_String a)). unfold Asset_Value. by rewrite Hv.
Qed.

Lemma ParseAsset_roundtrip_witness :
  let a := mkAsset AssetClassic "USDC" issuer_ex "" in
  Asset_String a = "USDC-GA5ZSEJYB37JRC5AVCIA5MOP4RHTM335X2KGX3IHOJAPP5RE34K4KZVN" /\
  @ParseAsset plain_strkey (Asset_String a) = Ok a.
Proof.
  split; [reflexivity|].
  apply (@ParseAsset_roundtrip plain_strkey plain_strkey_laws
           (mkAsset AssetClassic "USDC" issuer_ex "")).
  vm_compute. reflexivity.
Defined.

Lemma ParseAsset_valid `{Strkey} s a : ParseAsset s = Ok a -> Asset_Validate a = Ok tt.
Proof.
  intros Hp. unfold ParseAsset in Hp. cbn [prefix_dispatch] in Hp.
  repeat (case_match; simplify_eq; inv_ok; try done); eauto using NewClassicAsset_valid;
    eauto 9 using allow_listed_valid, or_introl, or_intror.
Qed.

(** Whatever [ParseAsset] accepts is one of the seven valid shapes, and
    printing then parsing it again changes nothing: every accepted spelling
    ("XLM", [code:issuer], ...) is normalised to one canonical identifier. *)
Theorem ParseAsset_sound `{StrkeyLaws} s a :
  ParseAsset s = Ok a ->
  Asset_Validate a = Ok tt /\ ParseAsset (Asset_String a) = Ok a.
Proof.
  intros Hp. apply ParseAsset_valid in Hp as Hv. split; [done|by apply ParseAsset_String_valid].
Qed.

Lemma ParseAsset_sound_witness :
  @ParseAsset plain_strkey ("USDC:" +:+ issuer_ex) = Ok (mkAsset AssetClassic "USDC" issuer_ex "") /\
  @Asset_Validate plain_strkey (mkAsset AssetClassic "USDC" issuer_ex "") = Ok tt.
Proof.
  split; [vm_compute; reflexivity|].
  apply (@ParseAsset_sound plain_strkey plain_strkey_laws ("USDC:" +:+ issuer_ex)).
  vm_compute. reflexivity.
Defined.

(** The wire form of a valid mapped asset is non-empty and "/"-free. *)
Lemma Asset_String_no_slash `{StrkeyLaws} a :
  Asset_Validate a = Ok tt -> Asset_IsMapped a = true ->
  str_forallb no_slash (Asset_String a) = true /\ Asset_String a <> EmptyString.
Proof.
  intros Hv Hm. pose proof (Asset_Validate_inv a Hv) as Hi.
  destruct a as [[] c i k]; unfold Asset_String, NativeAsset in *; simpl in *;
    destruct_and?; simplify_eq; try done.
  - destruct (IsAccountID_shape i) as [_ Hb]; [done|].
    unfold validateClassicAssetCode in *. case_match; [done|]. inv_ok. bprop.
    rewrite !str_forallb_app. split; [|by destruct c].
    rewrite (str_forallb_impl _ _ _ is_alnum_no_slash E), (str_forallb_impl _ _ _ is_base32_no_slash Hb).
    done.
  - destruct (IsContractID_shape k) as [Hl Hb]; [done|].
    split; [exact (str_forallb_impl _ _ _ is_base32_no_slash Hb)|]. by destruct k.
  - rewrite str_forallb_app. pose proof (IsKnownFiat_ok c) as Hc. unfold code_ok in Hc.
    destruct (str_forallb no_slash c); [done|]. rewrite andb_false_r in Hc. naive_solver.
  - rewrite str_forallb_app. pose proof (IsKnownCrypto_ok c) as Hc. unfold code_ok in Hc.
    destruct (str_forallb no_slash c); [done|]. rewrite andb_false_r in Hc. naive_solver.
  - rewrite str_forallb_app. pose proof (IsKnownRWA_ok c) as Hc. unfold code_ok in Hc.
    destruct (str_forallb no_slash c); [done|]. rewrite andb_false_r in Hc. naive_solver.
Qed.

Lemma Pair_Validate_inv `{Strkey} p :
  Pair_Validate p = Ok tt <->
  Asset_Validate (Base p) = Ok tt /\ Asset_Validate (Quote p) = Ok tt /\
  Asset_IsMapped (Base p) = true /\ Asset_IsMapped (Quote p) = true /\ Base p <> Quote p.
Proof.
  unfold Pair_Validate. rewrite <- Asset_Equal_false. split.
  - intros E. inv_ok. bprop. repeat match goal with u : () |- _ => destruct u end. done.
  - intros (? & ? & ? & ? & ?). unfold guardE. rw_hyps. simpl. by rw_hyps.
Qed.

(** Flipping keeps a pair valid. *)
Lemma Pair_Flip_valid `{Strkey} p : Pair_Validate p = Ok tt -> Pair_Validate (Pair_Flip p) = Ok tt.
Proof. rewrite !Pair_Validate_inv. simpl. naive_solver. Qed.

Lemma Pair_Equal_spec p q : Pair_Equal p q = true <-> p = q.
Proof.
  unfold Pair_Equal. rewrite andb_true_iff, !Asset_Equal_spec.
  destruct p, q; simpl. naive_solver.
Qed.

Lemma ParsePair_String_valid `{StrkeyLaws} p :
  Pair_Validate p = Ok tt -> ParsePair (Pair_String p) = Ok p.
Proof.
  intros Hv. pose proof Hv as (Hb & Hq & Hbm & Hqm & _)%Pair_Validate_inv.
  destruct (Asset_String_no_slash _ Hb Hbm) as [_ Hbn].
  destruct (Asset_String_no_slash _ Hq Hqm) as [Hqs Hqn].
  unfold ParsePair, Pair_String.
  change ("/" +:+ Asset_String (Quote p)) with (String "/" (Asset_String (Quote p))).
  rewrite last_index_by_app by done. rewrite str_take_app, str_drop_S_app, str_length_app. simpl.
  destruct (Nat.eqb_spec (String.length (Asset_String (Base p))) 0);
    [by destruct (Asset_String (Base p))|].
  destruct (Nat.eqb_spec (String.length (Asset_String (Base p)))
    (String.length (Asset_String (Base p)) + S (String.length (Asset_String (Quote p))) - 1)).
  { destruct (Asset_String (Quote p)); simpl in *; [done|lia]. }
  simpl. rewrite !ParseAsset_String_valid by done. simpl. unfold NewPair.
  destruct p; simpl in *. by rewrite Hv.
Qed.

Lemma ParsePair_valid `{Strkey} s q :
  ParsePair s = Ok q ->
  Pair_Validate q = Ok tt /\ Asset_IsMapped (Base q) = true /\ Asset_IsMapped (Quote q) = true.
Proof.
  unfold ParsePair, NewPair. intros E. repeat case_match; try done. inv_ok. rw_hyps.
  match goal with E : Pair_Validate _ = Ok _ |- _ => apply Pair_Validate_inv in E as Hp end.
  naive_solver.
Qed.

(** A valid pair is recovered exactly from its [base/quote] string and
    from its JSON object, and so is its flip; whatever [ParsePair] accepts is
    a valid pair, so no raw oracle symbol is ever a pair leg. *)
Theorem ParsePair_roundtrip `{StrkeyLaws} p :
  Pair_Validate p = Ok tt ->
  ParsePair (Pair_String p) = Ok p /\
  Pair_UnmarshalJSON (Pair_MarshalJSON p) = Ok p /\
  ParsePair (Pair_String (Pair_Flip p)) = Ok (Pair_Flip p) /\
  (forall s q, ParsePair s = Ok q ->
     Pair_Validate q = Ok tt /\ Asset_IsMapped (Base q) = true /\ Asset_IsMapped (Quote q) = true).
Proof.
  intros Hv. pose proof Hv as (Hb & Hq & Hbm & Hqm & _)%Pair_Validate_inv.
  split; [by apply ParsePair_String_valid|]. split; [|split; [|apply ParsePair_valid]].
  - simpl. rewrite !ParseAsset_String_valid by done. simpl. destruct p; simpl in *. by rewrite Hv.
  - by apply ParsePair_String_valid, Pair_Flip_valid.
Qed.

Lemma ParsePair_roundtrip_witness :
  let p := mkPair NativeAsset (mkAsset AssetClassic "USDC" issuer_ex "") in
  @Pair_Validate plain_strkey p = Ok tt /\
  @ParsePair plain_strkey (Pair_String p) = Ok p /\
  @ParsePair plain_strkey (Pair_String (Pair_Flip p)) = Ok (Pair_Flip p).
Proof.
  split; [vm_compute; reflexivity|].
  destruct (@ParsePair_roundtrip plain_strkey plain_strkey_laws
    (mkPair NativeAsset (mkAsset AssetClassic "USDC" issuer_ex ""))) as (H1 & _ & H2 & _);
    [vm_compute; reflexivity|]. split; [exact H1 | exact H2].
Defined.
