(* ===== verification/Alias.v ===== *)
(** * Alias families, the configured network and pair orientation
    (internal/canonical/alias.go, network.go, sac.go, asset_xdr.go, orientation.go)

    XLM has three identities and a classic asset two (itself and its SAC);
    an [AliasRegistry] maps every form to its family, in read priority order.
    The registry and the network passphrase are process-wide atomics: they are
    the record [globals], passed explicitly. XDR encoding and SAC derivation
    belong to the Stellar SDK and are the class [XdrSac]. *)

From S2P Require Import Prelude GoLib Amount Asset.

(** ** The SDK's view of an on-chain asset *)

Class XdrSac := {
  xdr_Asset : Type;
  xdr_MustNewNativeAsset : xdr_Asset;
  xdr_NewCreditAsset : string -> string -> option xdr_Asset;
  (** [Asset.ContractID(passphrase)]: the 32 bytes of the SAC's contract id *)
  xdr_ContractID : xdr_Asset -> string -> option string
}.

(** ** SAC derivation (sac.go) *)

Definition PubnetPassphrase : string := "Public Global Stellar Network ; September 2015".
Definition XLMSacContractID : string :=
  "CAS3J7GYLGXMF6TDJBBYYSE3HQ6BBSMLNUQ34T6TZMYMW2EVH34XOWMA".

Section Sac.
Context `{Strkey} `{XdrSac}.

(** [strkey.MustEncode] panics when the payload has no strkey; the branch is
    kept as an error without sentinel. *)
Definition derive_sac (x : xdr_Asset) (passphrase : string) : res error string :=
  match xdr_ContractID x passphrase with
  | None => Err []
  | Some raw =>
      match strkey_Encode VersionByteContract raw with
      | None => Err []
      | Some s => Ok s
      end
  end.

Definition sacContractIDOn (a : Asset) (passphrase : string) : res error string :=
  match Type_ a with
  | AssetNative => derive_sac xdr_MustNewNativeAsset passphrase
  | AssetClassic =>
      match xdr_NewCreditAsset (Code a) (Issuer a) with
      | None => Err []
      | Some x => derive_sac x passphrase
      end
  | _ => Err []
  end.
End Sac.

(** ** Families and registries (alias.go) *)

Abbreviation family_map := (gmap string (list Asset)).

Record AliasRegistry := mkAliasRegistry { families : family_map }.

Definition xlmAliasFamilyFor (sac : string) : list Asset :=
  [ mkAsset AssetNative "" "" "";
    mkAsset AssetCrypto "XLM" "" "";
    mkAsset AssetSoroban "" "" sac ].

Definition eurcAliasFamily : list Asset :=
  [ mkAsset AssetCrypto "EURC" "" ""; mkAsset AssetCrypto "EUROC" "" "" ].

(** The inner loop: every member of a family keys the family. *)
Definition add_family (m : family_map) (fam : list Asset) : family_map :=
  foldl (fun m a => <[Asset_String a := fam]> m) m fam.

Definition baseAliasFamiliesFor (xlmSAC : string) : family_map :=
  foldl add_family ∅ [xlmAliasFamilyFor xlmSAC; eurcAliasFamily].

Definition defaultAliasRegistry : AliasRegistry :=
  mkAliasRegistry (baseAliasFamiliesFor XLMSacContractID).

Section Registry.
Context `{Strkey} `{XdrSac}.

Definition addSACWrapperFamily (fams : family_map) (passphrase sacID classicKey : string)
    : res error family_map :=
  sac ← NewSorobanAsset sacID;
  classic ← ParseAsset classicKey;
  let sacStr := Asset_String sac in
  let classicStr := Asset_String classic in
  if String.eqb sacStr classicStr then Ok fams
  else
    derived ← sacContractIDOn classic passphrase;
    if negb (String.eqb derived sacStr) then Err []
    else if bool_decide (Type_ classic = AssetNative) then Ok fams
    else match fams !! sacStr with
    | Some _ => Err []
    | None =>
      match fams !! classicStr with
      | Some _ => Err []
      | None =>
          let family := [classic; sac] in
          Ok (<[sacStr := family]> (<[classicStr := family]> fams))
      end
    end.

(** [sacWrappers] visited in ascending key order. *)
Definition sorted_wrappers (w : gmap string string) : list (string * string) :=
  isort (fun x y => str_leb x.1 y.1) (map_to_list w).

Fixpoint add_wrappers (fams : family_map) (passphrase : string)
    (ws : list (string * string)) : res error family_map :=
  match ws with
  | [] => Ok fams
  | (sacID, classicKey) :: ws' =>
      fams' ← addSACWrapperFamily fams passphrase sacID classicKey;
      add_wrappers fams' passphrase ws'
  end.

Definition NewAliasRegistry (passphrase : string) (sacWrappers : gmap string string)
    : res error AliasRegistry :=
  if String.eqb passphrase "" then Err []
  else
    xlmSAC ← sacContractIDOn NativeAsset passphrase;
    fams ← add_wrappers (baseAliasFamiliesFor xlmSAC) passphrase (sorted_wrappers sacWrappers);
    Ok (mkAliasRegistry fams).
End Registry.

Definition reg_Aliases (fams : family_map) (asset : Asset) : list Asset :=
  match fams !! Asset_String asset with
  | None => [asset]
  | Some family =>
      asset :: filter (fun f => Asset_String f <> Asset_String asset) family
  end.

Definition reg_Canonical (fams : family_map) (asset : Asset) : Asset :=
  match fams !! Asset_String asset with
  | Some (head :: _) => head
  | _ => asset
  end.

Definition reg_AliasForms (fams : family_map) : gmap string string :=
  map_imap (fun form family =>
    match family with
    | [] => None
    | head :: _ =>
        let canon := Asset_String head in
        if String.eqb form canon then None else Some canon
    end) fams.

Definition reg_AliasStrings (fams : family_map) (asset : Asset) : list string :=
  map Asset_String (reg_Aliases fams asset).

(** ** The process-wide network (network.go) *)

Record globals := mkGlobals {
  activeRegistry : option AliasRegistry;
  networkBaseRegistry : option AliasRegistry;
  installedPassphrase : option string;
  installedNativeSAC : option string
}.

Definition init_globals : globals := mkGlobals None None None None.

Definition InstallAliasRegistry (r : option AliasRegistry) (g : globals) : globals :=
  mkGlobals r (networkBaseRegistry g) (installedPassphrase g) (installedNativeSAC g).

Definition baselineAliasRegistry (g : globals) : AliasRegistry :=
  match networkBaseRegistry g with Some r => r | None => defaultAliasRegistry end.

Definition activeAliasRegistry (g : globals) : AliasRegistry :=
  match activeRegistry g with Some r => r | None => baselineAliasRegistry g end.

Definition familyMap (g : globals) (r : option AliasRegistry) : family_map :=
  match r with None => families (baselineAliasRegistry g) | Some r => families r end.

Definition NativeSACContractID (g : globals) : string :=
  match installedNativeSAC g with Some s => s | None => XLMSacContractID end.

Definition NetworkPassphrase (g : globals) : string :=
  match installedPassphrase g with Some p => p | None => PubnetPassphrase end.

Definition AssetAliases (g : globals) (a : Asset) : list Asset :=
  reg_Aliases (families (activeAliasRegistry g)) a.
Definition AssetAliasStrings (g : globals) (a : Asset) : list string :=
  reg_AliasStrings (families (activeAliasRegistry g)) a.
Definition AllAliasForms (g : globals) : gmap string string :=
  reg_AliasForms (families (activeAliasRegistry g)).
Definition CanonicalAsset (g : globals) (a : Asset) : Asset :=
  reg_Canonical (families (activeAliasRegistry g)) a.

Section Network.
Context `{Strkey} `{XdrSac}.

Definition InstallNetworkPassphrase (p : string) (g : globals) : globals :=
  if String.eqb p "" then mkGlobals (activeRegistry g) None None None
  else
    match sacContractIDOn NativeAsset p with
    | Err _ => mkGlobals (activeRegistry g) None (Some p) None
    | Ok sac =>
        mkGlobals (activeRegistry g)
          (Some (mkAliasRegistry (baseAliasFamiliesFor sac))) (Some p) (Some sac)
    end.

Definition InstallNetwork (passphrase : string) (sacWrappers : gmap string string) (g : globals)
    : res error globals :=
  reg ← NewAliasRegistry passphrase sacWrappers;
  Ok (InstallNetworkPassphrase passphrase (InstallAliasRegistry (Some reg) g)).

Definition SacContractID (g : globals) (a : Asset) : res error string :=
  sacContractIDOn a (NetworkPassphrase g).

Definition ContractAddress (g : globals) (a : Asset) : option string :=
  if negb (is_empty (ContractID a)) then Some (ContractID a)
  else
    match Type_ a with
    | AssetClassic | AssetNative =>
        match SacContractID g a with Ok sac => Some sac | Err _ => None end
    | _ => None
    end.

Definition SEP11SACAsset (g : globals) (name contractID : string) : option Asset :=
  let asset :=
    if String.eqb name "native" then Some NativeAsset
    else match Cut name ":" with
         | None => None
         | Some (code, issuer) =>
             match NewClassicAsset code issuer with Ok a => Some a | Err _ => None end
         end in
  match asset with
  | None => None
  | Some a =>
      match SacContractID g a with
      | Ok derived => if String.eqb derived contractID then Some a else None
      | Err _ => None
      end
  end.
End Network.

(** ** Pair orientation (orientation.go) *)

Definition StablecoinCodes : list string :=
  ["USDT"; "USDC"; "DAI"; "PYUSD"; "USDP"; "EURC"; "EUROC"; "EUROB"; "MXNe"].

Definition is_stable_code (code : string) : bool := bool_decide (code ∈ StablecoinCodes).

Definition assetCode (assetID : string) : string :=
  let code :=
    match index_by (Ascii.eqb "-") assetID with
    | Some i => if (0 <? i)%nat then str_take i assetID else assetID
    | None => assetID
    end in
  TrimPrefix code "crypto:".

Definition isXLMQuoteForm (g : globals) (assetID : string) : bool :=
  String.eqb assetID "native" || String.eqb assetID "crypto:XLM" ||
  String.eqb assetID (NativeSACContractID g).

Definition isStablecoinSACForm (g : globals) (assetID : string) : bool :=
  match families (activeAliasRegistry g) !! assetID with
  | Some (head :: _) =>
      if String.eqb (Asset_String head) assetID then false
      else bool_decide (Type_ head = AssetClassic) && is_stable_code (Code head)
  | _ => false
  end.

Definition quoteRank (g : globals) (assetID : string) : Z :=
  if HasPrefix assetID "fiat:" then 4
  else if is_stable_code (assetCode assetID) || isStablecoinSACForm g assetID then 3
  else if isXLMQuoteForm g assetID then 2
  else 1.

Definition StablecoinSACForms (g : globals) : list string :=
  sort_Strings (filter (fun form => isStablecoinSACForm g form = true)
    (map fst (map_to_list (families (activeAliasRegistry g))))).

Definition Orient (g : globals) (a b : string) : string * string * bool :=
  let ra := quoteRank g a in
  let rb := quoteRank g b in
  let bIsQuote := (ra <? rb) || ((rb =? ra) && str_ltb a b) in
  if bIsQuote then (a, b, false) else (b, a, true).

Definition Pair_Canonical (g : globals) (p : Pair) : Pair * bool :=
  let '(_, _, flipped) := Orient g (Asset_String (Base p)) (Asset_String (Quote p)) in
  if negb flipped then (p, false) else (mkPair (Quote p) (Base p), true).

(** ** XDR assets (asset_xdr.go) *)

Inductive xdr_asset_value :=
| AssetTypeNative
| AssetTypeCreditAlphanum4 (assetCode issuer : string)
| AssetTypeCreditAlphanum12 (assetCode issuer : string)
| AssetTypeOther.

Fixpoint trim_nulls_rev (l : list ascii) : list ascii :=
  match l with
  | c :: l' => if byte_of c =? 0 then trim_nulls_rev l' else l
  | [] => []
  end.

Definition TrimTrailingNulls (b : string) : string :=
  String.string_of_list_ascii (rev (trim_nulls_rev (rev (String.list_ascii_of_string b)))).

Definition AssetFromXDR `{Strkey} (a : xdr_asset_value) : res error Asset :=
  let classic code raw :=
    match strkey_Encode VersionByteAccountID raw with
    | None => Err []
    | Some issuer => NewClassicAsset (TrimTrailingNulls code) issuer
    end in
  match a with
  | AssetTypeNative => Ok NativeAsset
  | AssetTypeCreditAlphanum4 code raw => classic code raw
  | AssetTypeCreditAlphanum12 code raw => classic code raw
  | AssetTypeOther => Err []
  end.

(** ** The registry invariant *)

(** A family is non-empty, its members are valid with distinct wire forms, and
    a Soroban form (a SAC) may only be the last member. *)
Fixpoint sac_last (fam : list Asset) : Prop :=
  match fam with
  | [] => True
  | a :: l => (l = [] \/ Type_ a <> AssetSoroban) /\ sac_last l
  end.

Record family_wf `{Strkey} (fam : list Asset) : Prop := {
  fam_nonempty : fam <> [];
  fam_valid : Forall (fun a => Asset_Validate a = Ok tt) fam;
  fam_nodup : NoDup (map Asset_String fam);
  fam_sac_last : sac_last fam
}.

(** Every key is a form of its family and every form of a family keys it: the
    families partition the forms. *)
Record registry_wf `{Strkey} (m : family_map) : Prop := {
  wf_family form fam : m !! form = Some fam -> family_wf fam;
  wf_key form fam : m !! form = Some fam -> form ∈ map Asset_String fam;
  wf_members form fam a : m !! form = Some fam -> a ∈ fam -> m !! Asset_String a = Some fam
}.

Lemma Asset_String_inj `{StrkeyLaws} a b :
  Asset_Validate a = Ok tt -> Asset_Validate b = Ok tt -> Asset_String a = Asset_String b -> a = b.
Proof.
  intros Ha Hb E. apply ParseAsset_String_valid in Ha, Hb. rewrite E, Hb in Ha. by simplify_eq.
Qed.

(** The insertion loop, for any value [v] and any list of keys. *)
Lemma insert_all_lookup (v : list Asset) l (m : family_map) form :
  foldl (fun (m : family_map) a => <[Asset_String a := v]> m) m l !! form =
  if decide (form ∈ map Asset_String l) then Some v else m !! form.
Proof.
  revert m; induction l as [|a l IH]; intros m; [done|cbn [foldl map]].
  rewrite IH. repeat case_decide; try done; rewrite ?elem_of_cons in *.
  - naive_solver.
  - destruct (decide (form = Asset_String a)) as [->|Hne]; [apply lookup_insert_eq|].
    naive_solver.
  - apply lookup_insert_ne. naive_solver.
Qed.

Lemma add_family_lookup_in m fam form :
  form ∈ map Asset_String fam -> add_family m fam !! form = Some fam.
Proof. intros. unfold add_family. rewrite insert_all_lookup. by rewrite decide_True. Qed.

Lemma add_family_lookup_out m fam form :
  form ∉ map Asset_String fam -> add_family m fam !! form = m !! form.
Proof. intros. unfold add_family. rewrite insert_all_lookup. by rewrite decide_False. Qed.

Section Invariant.
Context `{StrkeyLaws}.

Lemma registry_wf_empty : registry_wf ∅.
Proof. split; intros *; by rewrite lookup_empty. Qed.

(** Adding a family whose forms are all new keeps the invariant. *)
Lemma registry_wf_add m fam :
  registry_wf m -> family_wf fam ->
  (forall a, a ∈ fam -> m !! Asset_String a = None) -> registry_wf (add_family m fam).
Proof.
  intros [W1 W2 W3] Hf Hnew.
  assert (forall form f, add_family m fam !! form = Some f ->
    ((form ∈ map Asset_String fam) /\ f = fam) \/
    ((form ∉ map Asset_String fam) /\ m !! form = Some f)) as Hc.
  { intros form f E. destruct (decide (form ∈ map Asset_String fam)) as [Hi|Hi].
    - rewrite add_family_lookup_in in E by done. naive_solver.
    - rewrite add_family_lookup_out in E by done. by right. }
  split.
  - intros form f E. destruct (Hc _ _ E) as [[_ ->]|[_ E']]; eauto.
  - intros form f E. destruct (Hc _ _ E) as [[? ->]|[_ E']]; eauto.
  - intros form f a E Ha. destruct (Hc _ _ E) as [[_ ->]|[_ E']].
    + apply add_family_lookup_in. apply list_elem_of_fmap. eauto.
    + rewrite add_family_lookup_out; [eauto|]. intros (b & Eb & Hb)%list_elem_of_fmap.
      pose proof (W3 _ _ _ E' Ha) as X. rewrite Eb, Hnew in X by done. done.
Qed.

Lemma contract_form_fresh sac form :
  IsContractID sac = true -> str_forallb is_base32 form = false -> form <> sac.
Proof.
  intros Hs Hf ->. apply IsContractID_shape in Hs as [_ Hs]. congruence.
Qed.

Lemma soroban_valid sac :
  IsContractID sac = true -> Asset_Validate (mkAsset AssetSoroban "" "" sac) = Ok tt.
Proof. intros Hs. unfold Asset_Validate, validateContractID, guardE. simpl. by rw_hyps. Qed.

Lemma xlm_family_wf sac : IsContractID sac = true -> family_wf (xlmAliasFamilyFor sac).
Proof.
  intros Hs. split.
  - done.
  - repeat constructor; try (vm_compute; reflexivity). by apply soroban_valid.
  - simpl. repeat constructor; rewrite ?elem_of_cons, ?elem_of_nil; cbn [Asset_String Type_ Code ContractID];
      intuition (try congruence); eapply contract_form_fresh; eauto; by vm_compute.
  - simpl. auto 10.
Qed.

Lemma eurc_family_wf : family_wf eurcAliasFamily.
Proof.
  split.
  - done.
  - repeat constructor; vm_compute; reflexivity.
  - by apply (bool_decide_unpack _); vm_compute.
  - simpl. auto 10.
Qed.

Lemma base_families_wf sac : IsContractID sac = true -> registry_wf (baseAliasFamiliesFor sac).
Proof.
  intros Hs. unfold baseAliasFamiliesFor. simpl.
  apply registry_wf_add; [|apply eurc_family_wf|].
  - apply registry_wf_add; [apply registry_wf_empty | by apply xlm_family_wf |].
    intros. apply lookup_empty.
  - intros a Ha. rewrite add_family_lookup_out; [apply lookup_empty|].
    unfold eurcAliasFamily in Ha. rewrite !elem_of_cons, elem_of_nil in Ha.
    simpl. rewrite !elem_of_cons, elem_of_nil.
    assert (forall f, str_forallb is_base32 f = false -> f <> sac) as Hn
      by (intros; by eapply contract_form_fresh).
    destruct Ha as [->|[->|[]]]; cbn;
      intros [E|[E|[E|[]]]]; try done; revert E; apply Hn; vm_compute; reflexivity.
Qed.

Context `{XdrSac}.

Lemma derive_sac_contract x p s : derive_sac x p = Ok s -> IsContractID s = true.
Proof.
  unfold derive_sac. intros E. repeat case_match; simplify_eq.
  unfold IsContractID, decodes. erewrite strkey_encode_decode; eauto.
Qed.

Lemma addSACWrapperFamily_Ok m p sacID key m' :
  addSACWrapperFamily m p sacID key = Ok m' ->
  m' = m \/ exists classic sac,
    m' = add_family m [classic; sac] /\ family_wf [classic; sac] /\
    m !! Asset_String classic = None /\ m !! Asset_String sac = None.
Proof.
  unfold addSACWrapperFamily. intros E. inv_ok. case_if_in E; [inv_ok; by left|].
  inv_ok. case_if_in E; [done|]. case_if_in E; [inv_ok; by left|].
  destruct (m !! Asset_String a) eqn:Es; [done|].
  destruct (m !! Asset_String a0) eqn:Ec; [done|]. inv_ok. right. exists a0, a. bprop.
  assert (Asset_Validate a0 = Ok tt /\ Asset_Validate a = Ok tt) as [V0 V].
  { split; [by eapply ParseAsset_valid|]. eapply allow_listed_valid. eauto 9 using or_intror. }
  assert (Type_ a0 = AssetClassic) as Ht.
  { unfold sacContractIDOn in *. by destruct (Type_ a0). }
  repeat split; auto.
  - repeat constructor; rewrite ?elem_of_cons, ?elem_of_nil; naive_solver.
  - right. by rewrite Ht.
Qed.

Lemma addSACWrapperFamily_wf m p sacID key m' :
  registry_wf m -> addSACWrapperFamily m p sacID key = Ok m' -> registry_wf m'.
Proof.
  intros Hw [->|(c & s & -> & Hf & Hc & Hs)]%addSACWrapperFamily_Ok; [done|].
  apply registry_wf_add; auto. intros b. rewrite !elem_of_cons, elem_of_nil. naive_solver.
Qed.

Lemma add_wrappers_wf ws m p m' :
  registry_wf m -> add_wrappers m p ws = Ok m' -> registry_wf m'.
Proof.
  revert m; induction ws as [|[sacID key] ws IH]; intros m Hw E; simpl in E; inv_ok; [done|].
  eapply IH; [|exact E]. by eapply addSACWrapperFamily_wf.
Qed.

(** Registering wrappers never changes a form that already has a family. *)
Lemma add_wrappers_keeps ws m p m' form fam :
  m !! form = Some fam -> add_wrappers m p ws = Ok m' -> m' !! form = Some fam.
Proof.
  revert m; induction ws as [|[sacID key] ws IH]; intros m Hk E; simpl in E; inv_ok; [done|].
  eapply IH; [|exact E].
  destruct (addSACWrapperFamily_Ok _ _ _ _ _ E0) as [->|(c & s & -> & _ & Hc & Hs)]; [done|].
  rewrite add_family_lookup_out; [done|]. simpl. rewrite !elem_of_cons, elem_of_nil.
  intros [->|[->|[]]]; congruence.
Qed.

Lemma NewAliasRegistry_wf p w r : NewAliasRegistry p w = Ok r -> registry_wf (families r).
Proof.
  unfold NewAliasRegistry. intros E. case_if_in E; [done|]. inv_ok. simpl.
  eapply add_wrappers_wf; [|exact E1]. apply base_families_wf.
  exact (derive_sac_contract _ _ _ E0).
Qed.
End Invariant.

(** ** Consequences of the invariant *)

Lemma filter_sac_last (P : Asset -> Prop) `{forall a, Decision (P a)} fam :
  sac_last fam -> sac_last (filter P fam).
Proof.
  induction fam as [|a l IH]; simpl; [done|]. intros [Ha Hl].
  destruct (decide (P a)).
  - rewrite filter_cons_True by done. simpl. split; [|auto].
    destruct Ha as [->|Ha]; [by left | by right].
  - rewrite filter_cons_False by done. auto.
Qed.

Section Consequences.
Context `{StrkeyLaws} (m : family_map) (Hwf : registry_wf m).

(** The family of a valid form contains that very asset. *)
Lemma family_has_asset a fam :
  Asset_Validate a = Ok tt -> m !! Asset_String a = Some fam -> a ∈ fam.
Proof.
  intros Ha Hf. pose proof (wf_key _ Hwf _ _ Hf) as (b & Eb & Hb)%list_elem_of_fmap.
  pose proof (fam_valid _ (wf_family _ Hwf _ _ Hf)) as Hv. rewrite Forall_forall in Hv.
  by rewrite (Asset_String_inj a b Ha (Hv b Hb) Eb).
Qed.

Lemma elem_of_reg_Aliases a b :
  Asset_Validate a = Ok tt ->
  b ∈ reg_Aliases m a <->
  b = a \/ exists fam, m !! Asset_String a = Some fam /\ b ∈ fam.
Proof.
  intros Ha. unfold reg_Aliases. destruct (m !! Asset_String a) as [fam|] eqn:Hf.
  - rewrite elem_of_cons, list_elem_of_filter. split; [naive_solver|].
    intros [->|(f & [= <-] & Hb)]; [by left|].
    destruct (decide (Asset_String b = Asset_String a)) as [E|]; [left|by right].
    pose proof (fam_valid _ (wf_family _ Hwf _ _ Hf)) as Hv. rewrite Forall_forall in Hv.
    by apply Asset_String_inj; [apply Hv|..].
  - rewrite list_elem_of_singleton. naive_solver.
Qed.

Lemma reg_Canonical_family a fam :
  m !! Asset_String a = Some fam -> exists l, fam = reg_Canonical m a :: l.
Proof.
  intros Hf. unfold reg_Canonical. rewrite Hf.
  pose proof (fam_nonempty _ (wf_family _ Hwf _ _ Hf)). destruct fam; [done|]. eauto.
Qed.

Lemma reg_Canonical_none a : m !! Asset_String a = None -> reg_Canonical m a = a.
Proof. unfold reg_Canonical. by intros ->. Qed.

(** The canonical form lies in the family and keys the same family. *)
Lemma reg_Canonical_lookup a fam :
  m !! Asset_String a = Some fam -> m !! Asset_String (reg_Canonical m a) = Some fam.
Proof.
  intros Hf. destruct (reg_Canonical_family _ _ Hf) as [l El].
  eapply wf_members; eauto. rewrite El. apply list_elem_of_here.
Qed.

Lemma reg_Canonical_valid a :
  Asset_Validate a = Ok tt -> Asset_Validate (reg_Canonical m a) = Ok tt.
Proof.
  intros Ha. destruct (m !! Asset_String a) as [fam|] eqn:Hf.
  - destruct (reg_Canonical_family _ _ Hf) as [l El].
    pose proof (fam_valid _ (wf_family _ Hwf _ _ Hf)) as Hv. rewrite Forall_forall in Hv.
    apply Hv. rewrite El. apply list_elem_of_here.
  - by rewrite reg_Canonical_none.
Qed.

Lemma aliases_iff_canonical a b :
  Asset_Validate a = Ok tt -> Asset_Validate b = Ok tt ->
  b ∈ reg_Aliases m a <-> reg_Canonical m a = reg_Canonical m b.
Proof.
  intros Ha Hb. rewrite elem_of_reg_Aliases by done. split.
  - intros [->|(fam & Hf & Hm)]; [done|].
    pose proof (wf_members _ Hwf _ _ _ Hf Hm) as Hf'.
    destruct (reg_Canonical_family _ _ Hf) as [l El], (reg_Canonical_family _ _ Hf') as [l' El'].
    congruence.
  - intros E. destruct (m !! Asset_String a) as [fam|] eqn:Hf.
    + right. exists fam. split; [done|]. apply reg_Canonical_lookup in Hf.
      destruct (m !! Asset_String b) as [fam'|] eqn:Hf'.
      * pose proof (reg_Canonical_lookup _ _ Hf') as Hc. rewrite <- E in Hc.
        assert (fam' = fam) as -> by congruence. by apply family_has_asset.
      * rewrite E, (reg_Canonical_none b) in Hf by done. congruence.
    + left. destruct (m !! Asset_String b) as [fam'|] eqn:Hf'.
      * apply reg_Canonical_lookup in Hf'. rewrite <- E, reg_Canonical_none in Hf' by done. congruence.
      * rewrite !reg_Canonical_none in E by done. done.
Qed.

Lemma reg_Aliases_order a :
  Asset_Validate a = Ok tt ->
  exists rest, reg_Aliases m a = a :: rest /\ NoDup (a :: rest) /\ sac_last rest.
Proof.
  intros Ha. unfold reg_Aliases. destruct (m !! Asset_String a) as [fam|] eqn:Hf.
  - eexists; split; [done|]. destruct (wf_family _ Hwf _ _ Hf) as [_ _ Hn Hs]. split.
    + constructor; [rewrite list_elem_of_filter; naive_solver|].
      apply NoDup_filter. by eapply NoDup_fmap_1.
    + by apply filter_sac_last.
  - exists []. split; [done|]. split; [apply NoDup_singleton | done].
Qed.

Lemma reg_AliasForms_canonical a c :
  Asset_Validate a = Ok tt ->
  reg_AliasForms m !! Asset_String a = Some c <->
  reg_Canonical m a <> a /\ c = Asset_String (reg_Canonical m a).
Proof.
  intros Ha. unfold reg_AliasForms. rewrite map_lookup_imap.
  destruct (m !! Asset_String a) as [fam|] eqn:Hf; simpl.
  - pose proof (reg_Canonical_valid a Ha) as Hc.
    destruct (reg_Canonical_family _ _ Hf) as [l ->].
    destruct (String.eqb_spec (Asset_String a) (Asset_String (reg_Canonical m a))) as [E|E].
    + apply Asset_String_inj in E; [|done|done]. split; [done|]. naive_solver.
    + split; [|naive_solver]. intros [= <-]. split; [|done]. intros E'. by rewrite E' in E.
  - rewrite reg_Canonical_none by done. naive_solver.
Qed.
End Consequences.

(** ** Orientation lemmas *)

Lemma Orient_swap g a b x y f :
  a <> b -> Orient g a b = (x, y, f) -> Orient g b a = (x, y, negb f).
Proof.
  intros Hab. unfold Orient. cbv zeta.
  destruct (Z.ltb_spec (quoteRank g a) (quoteRank g b)), (Z.ltb_spec (quoteRank g b) (quoteRank g a)),
    (Z.eqb_spec (quoteRank g a) (quoteRank g b)), (Z.eqb_spec (quoteRank g b) (quoteRank g a));
    try lia; simpl; try (intros [= <- <- <-]; done).
  destruct (str_ltb a b) eqn:E1; intros [= <- <- <-].
  - by rewrite (str_ltb_asym _ _ E1).
  - destruct (str_ltb b a) eqn:E2; [done|]. by destruct (Hab (str_ltb_total _ _ E1 E2)).
Qed.

Lemma Orient_rank g a b x y f :
  Orient g a b = (x, y, f) -> quoteRank g x <= quoteRank g y.
Proof.
  unfold Orient. cbv zeta. case_if; intros [= <- <- <-]; bprop; [|lia].
  apply orb_prop in Heqb0 as []; bprop; lia.
Qed.

Lemma Orient_stable g a b x y f : a <> b -> Orient g a b = (x, y, f) -> Orient g x y = (x, y, false).
Proof.
  intros Hab E. destruct f.
  - assert (x = b /\ y = a) as [-> ->].
    { unfold Orient in E. case_if_in E; by simplify_eq. }
    by apply Orient_swap in E.
  - assert (x = a /\ y = b) as [-> ->].
    { unfold Orient in E. case_if_in E; by simplify_eq. }
    done.
Qed.

(** ** A concrete SDK, for the witnesses *)

Definition usdc_sac : string := "CCW67TSZV3SSS2HXMBQ5JFGCKJNXKZM7UQUWUZPUTHXSTZLEO7SJMI75".

Definition plain_sac : XdrSac := {|
  xdr_Asset := option (string * string);
  xdr_MustNewNativeAsset := None;
  xdr_NewCreditAsset c i := Some (Some (c, i));
  xdr_ContractID x p :=
    Some (str_drop 1 (match x with None => XLMSacContractID | Some _ => usdc_sac end))
|}.

Definition usdc_ex : Asset := mkAsset AssetClassic "USDC" issuer_ex "".
Definition wrappers_ex : gmap string string := {[ usdc_sac := Asset_String usdc_ex ]}.

Definition registry_ex : AliasRegistry :=
  match @NewAliasRegistry plain_strkey plain_sac PubnetPassphrase wrappers_ex with
  | Ok r => r
  | Err _ => mkAliasRegistry ∅
  end.

Lemma registry_ex_ok :
  @NewAliasRegistry plain_strkey plain_sac PubnetPassphrase wrappers_ex = Ok registry_ex.
Proof. vm_compute. reflexivity. Qed.

(** ** Properties *)

(** In every registry [NewAliasRegistry] builds, the alias sets are the
    classes of one equivalence: a valid asset [b] is among the aliases of [a]
    exactly when both fold on the same canonical form. A read keyed on any
    form therefore sees the rows of every other form of the asset. *)
Theorem alias_classes `{StrkeyLaws} `{XdrSac} p w r a b :
  NewAliasRegistry p w = Ok r ->
  Asset_Validate a = Ok tt -> Asset_Validate b = Ok tt ->
  b ∈ reg_Aliases (families r) a <-> reg_Canonical (families r) a = reg_Canonical (families r) b.
Proof. intros Hr Ha Hb. apply aliases_iff_canonical; auto. by eapply NewAliasRegistry_wf. Qed.

Lemma alias_classes_witness :
  let sac := mkAsset AssetSoroban "" "" usdc_sac in
  reg_Canonical (families registry_ex) sac = usdc_ex /\
  sac ∈ reg_Aliases (families registry_ex) usdc_ex.
Proof.
  split; [vm_compute; reflexivity|].
  apply (@alias_classes plain_strkey plain_strkey_laws plain_sac _ _ _ usdc_ex
    (mkAsset AssetSoroban "" "" usdc_sac) registry_ex_ok); vm_compute; reflexivity.
Defined.

(** The aliases of a valid asset start with the asset itself, name no
    asset twice, and put a SAC form behind every other alternative (the thin
    Soroban pool is tried last); and the SQL fold map [AliasForms] sends
    exactly the non-canonical forms to their canonical form. *)
Theorem alias_order `{StrkeyLaws} `{XdrSac} p w r a :
  NewAliasRegistry p w = Ok r -> Asset_Validate a = Ok tt ->
  (exists rest, reg_Aliases (families r) a = a :: rest /\ NoDup (a :: rest) /\ sac_last rest) /\
  (forall c, reg_AliasForms (families r) !! Asset_String a = Some c <->
     reg_Canonical (families r) a <> a /\ c = Asset_String (reg_Canonical (families r) a)).
Proof.
  intros Hr Ha. pose proof (NewAliasRegistry_wf _ _ _ Hr) as Hw.
  split; [by apply reg_Aliases_order | intros c; by apply reg_AliasForms_canonical].
Qed.

Lemma alias_order_witness :
  exists rest, reg_Aliases (families registry_ex) usdc_ex = usdc_ex :: rest /\
    NoDup (usdc_ex :: rest) /\ sac_last rest.
Proof.
  apply (@alias_order plain_strkey plain_strkey_laws plain_sac _ _ _ usdc_ex registry_ex_ok).
  vm_compute. reflexivity.
Defined.

Lemma base_families_xlm sac form :
  form ∈ map Asset_String (xlmAliasFamilyFor sac) -> form ∉ map Asset_String eurcAliasFamily ->
  baseAliasFamiliesFor sac !! form = Some (xlmAliasFamilyFor sac).
Proof.
  intros Hin Hout. unfold baseAliasFamiliesFor. simpl.
  rewrite add_family_lookup_out by done. by rewrite add_family_lookup_in.
Qed.

Lemma base_families_native sac :
  baseAliasFamiliesFor sac !! "native" = Some (xlmAliasFamilyFor sac).
Proof.
  apply base_families_xlm; [apply list_elem_of_here|]. by apply (bool_decide_unpack _); vm_compute.
Qed.

(** After a successful [InstallNetwork] the whole process agrees on the
    network: the passphrase is the configured one, the cached native SAC is
    the derivation from it, and the XLM alias family read by every lookup ends
    in that same SAC. *)
Theorem InstallNetwork_consistent `{StrkeyLaws} `{XdrSac} p w g g' :
  InstallNetwork p w g = Ok g' ->
  NetworkPassphrase g' = p /\
  SacContractID g' NativeAsset = Ok (NativeSACContractID g') /\
  AssetAliases g' NativeAsset = xlmAliasFamilyFor (NativeSACContractID g') /\
  registry_wf (families (activeAliasRegistry g')).
Proof.
  unfold InstallNetwork. intros E. inv_ok.
  pose proof (NewAliasRegistry_wf _ _ _ E0) as Hw.
  unfold NewAliasRegistry in E0. case_if_in E0; [done|]. inv_ok.
  unfold InstallNetworkPassphrase. rewrite Heqb, E. simpl.
  split; [done|]. split; [exact E|]. split; [|exact Hw].
  change (reg_Aliases a1 NativeAsset = xlmAliasFamilyFor a0).
  pose proof (add_wrappers_keeps _ _ _ _ _ _ (base_families_native _) E1) as Hk.
  assert (a0 <> "native") as Hn.
  { intros ->. exact (contract_form_fresh "native" "native" (derive_sac_contract _ _ _ E) eq_refl eq_refl). }
  unfold reg_Aliases. change (Asset_String NativeAsset) with "native". rewrite Hk.
  unfold xlmAliasFamilyFor. by rewrite filter_cons_False, !filter_cons_True by (by vm_compute || done).
Qed.

Lemma InstallNetwork_consistent_witness :
  exists g', @InstallNetwork plain_strkey plain_sac PubnetPassphrase wrappers_ex init_globals = Ok g' /\
    AssetAliases g' NativeAsset = xlmAliasFamilyFor (NativeSACContractID g').
Proof.
  eexists. split; [vm_compute; reflexivity|].
  apply (@InstallNetwork_consistent plain_strkey plain_strkey_laws plain_sac
    PubnetPassphrase wrappers_ex init_globals). vm_compute. reflexivity.
Defined.

(** Orientation is canonical: the two orders of a market of distinct
    assets give the same (base, quote) and opposite flip flags, the quote
    never ranks below the base, and a canonical pair is left alone; so a
    pair's canonical form is the same from either side and re-orienting it
    does nothing. *)
Theorem Orient_canonical `{StrkeyLaws} g p :
  Pair_Validate p = Ok tt ->
  fst (Pair_Canonical g p) = fst (Pair_Canonical g (Pair_Flip p)) /\
  snd (Pair_Canonical g p) = negb (snd (Pair_Canonical g (Pair_Flip p))) /\
  (let c := fst (Pair_Canonical g p) in
   Pair_Canonical g c = (c, false) /\
   quoteRank g (Asset_String (Base c)) <= quoteRank g (Asset_String (Quote c)) /\
   Pair_Validate c = Ok tt).
Proof.
  intros Hv. pose proof Hv as (Hb & Hq & _ & _ & Hne)%Pair_Validate_inv.
  assert (Asset_String (Base p) <> Asset_String (Quote p)) as Hs
    by (intros E; by apply Hne, Asset_String_inj).
  unfold Pair_Canonical. simpl.
  destruct (Orient g (Asset_String (Base p)) (Asset_String (Quote p))) as [[x y] f] eqn:E.
  pose proof (Orient_swap _ _ _ _ _ _ Hs E) as E'. rewrite E'.
  pose proof (Orient_rank _ _ _ _ _ _ E). pose proof (Orient_rank _ _ _ _ _ _ E').
  assert (f = false -> x = Asset_String (Base p) /\ y = Asset_String (Quote p)) as Hf
    by (unfold Orient in E; case_if_in E; intros; by simplify_eq).
  assert (f = true -> x = Asset_String (Quote p) /\ y = Asset_String (Base p)) as Ht
    by (unfold Orient in E; case_if_in E; intros; by simplify_eq).
  destruct f; simpl.
  - destruct (Ht eq_refl) as [-> ->]. rewrite E'. simpl.
    repeat split; auto. by apply Pair_Flip_valid.
  - destruct (Hf eq_refl) as [-> ->]. rewrite E. simpl. destruct p. repeat split; auto.
Qed.

Lemma Orient_canonical_witness :
  let p := mkPair usdc_ex NativeAsset in
  Pair_Canonical init_globals p = (mkPair NativeAsset usdc_ex, true) /\
  fst (Pair_Canonical init_globals p) = fst (Pair_Canonical init_globals (Pair_Flip p)).
Proof.
  split; [vm_compute; reflexivity|].
  apply (@Orient_canonical plain_strkey plain_strkey_laws init_globals (mkPair usdc_ex NativeAsset)).
  vm_compute. reflexivity.
Defined.
