(* ===== verification/Float64.v ===== *)
(** * IEEE binary64 values

    Go's [float64] is the standard library's [spec_float] at precision 53 and
    exponent bound 1024. The modelled code compares floats, tests them for NaN
    and infinity, and converts finite ones exactly to rationals
    ([big.Rat.SetFloat64]); the comparisons are a total preorder outside NaN. *)

From S2P Require Import Prelude.
From Stdlib Require Import Floats.SpecFloat.

Abbreviation float64 := spec_float.

Definition f64_zero : float64 := S754_zero false.
Definition f64_one : float64 := S754_finite false 4503599627370496 (-52).
Definition f64_nan : float64 := S754_nan.

Definition IsNaN (f : float64) : bool := match f with S754_nan => true | _ => false end.
Definition IsInf (f : float64) : bool := match f with S754_infinity _ => true | _ => false end.

(** Go's [<], [<=], [==] on float64. *)
Definition f64_lt (a b : float64) : bool := SFltb a b.
Definition f64_le (a b : float64) : bool := SFleb a b.
Definition f64_eq (a b : float64) : bool := SFeqb a b.

(** [new(big.Rat).SetFloat64(f)]: exact, nil for NaN and the infinities. *)
Definition SetFloat64 (f : float64) : option Q :=
  match f with
  | S754_zero _ => Some (0 # 1)%Q
  | S754_finite s m e =>
      let n := if s then Zneg m else Zpos m in
      Some (match e with
            | Z0 => n # 1
            | Zpos p => (n * 2 ^ Zpos p)%Z # 1
            | Zneg p => n # (2 ^ p)
            end)%Q
  | _ => None
  end.

(** ** Order *)

(** A sort key: sign class, then exponent and mantissa signed by it. *)
Definition f64_key (f : float64) : Z * Z * Z :=
  match f with
  | S754_zero _ => (0, 0, 0)
  | S754_infinity s => (if s then -2 else 2, 0, 0)
  | S754_nan => (3, 0, 0)
  | S754_finite s m e => if s then (-1, - e, Zneg m) else (1, e, Zpos m)
  end.

Definition key_le (a b : Z * Z * Z) : Prop :=
  let '(a1, a2, a3) := a in let '(b1, b2, b3) := b in
  a1 < b1 \/ (a1 = b1 /\ (a2 < b2 \/ (a2 = b2 /\ a3 <= b3))).

Lemma f64_le_spec a b :
  f64_le a b = true <-> IsNaN a = false /\ IsNaN b = false /\ key_le (f64_key a) (f64_key b).
Proof.
  unfold f64_le, SFleb.
  destruct a as [sa|sa| |sa ma ea], b as [sb|sb| |sb mb eb]; try destruct sa; try destruct sb;
    simpl; try (split; [done|]; lia); try (intuition lia); try (intuition done);
    destruct (Z.compare_spec ea eb); simpl; try (intuition (try lia; done));
    change (PosDef.Pos.compare_cont Eq ma mb) with (Pos.compare ma mb);
    destruct (Pos.compare_spec ma mb); simpl; intuition (try lia; done).
Qed.

Lemma f64_lt_spec a b :
  f64_lt a b = true <-> IsNaN a = false /\ IsNaN b = false /\ ~ key_le (f64_key b) (f64_key a).
Proof.
  unfold f64_lt, SFltb.
  destruct a as [sa|sa| |sa ma ea], b as [sb|sb| |sb mb eb]; try destruct sa; try destruct sb;
    simpl; try (split; [done|]; lia); try (intuition lia); try (intuition done);
    destruct (Z.compare_spec ea eb); simpl; try (intuition (try lia; done));
    change (PosDef.Pos.compare_cont Eq ma mb) with (Pos.compare ma mb);
    destruct (Pos.compare_spec ma mb); simpl; intuition (try lia; done).
Qed.

Lemma key_le_total a b : key_le a b \/ key_le b a.
Proof. destruct a as [[a1 a2] a3], b as [[b1 b2] b3]; simpl. lia. Qed.

Lemma key_le_trans a b c : key_le a b -> key_le b c -> key_le a c.
Proof. destruct a as [[a1 a2] a3], b as [[b1 b2] b3], c as [[c1 c2] c3]; simpl. lia. Qed.

Lemma f64_le_trans a b c : f64_le a b = true -> f64_le b c = true -> f64_le a c = true.
Proof. rewrite !f64_le_spec. intros (? & ? & ?) (? & ? & ?). eauto using key_le_trans. Qed.

Lemma f64_le_refl a : IsNaN a = false -> f64_le a a = true.
Proof. rewrite f64_le_spec. destruct (key_le_total (f64_key a) (f64_key a)); auto. Qed.

Lemma f64_lt_negb_le a b :
  IsNaN a = false -> IsNaN b = false -> f64_lt a b = negb (f64_le b a).
Proof.
  intros Ha Hb. apply eq_true_iff_eq. rewrite negb_true_iff, <- not_true_iff_false.
  rewrite f64_lt_spec, f64_le_spec. naive_solver.
Qed.

Lemma f64_le_total a b :
  IsNaN a = false -> IsNaN b = false -> f64_le a b = true \/ f64_le b a = true.
Proof. rewrite !f64_le_spec. destruct (key_le_total (f64_key a) (f64_key b)); auto. Qed.

Lemma f64_lt_le a b : f64_lt a b = true -> f64_le a b = true.
Proof.
  rewrite f64_lt_spec, f64_le_spec. destruct (key_le_total (f64_key a) (f64_key b)); naive_solver.
Qed.

Lemma f64_le_nan a b : f64_le a b = true -> IsNaN a = false /\ IsNaN b = false.
Proof. rewrite f64_le_spec. naive_solver. Qed.

Lemma f64_eq_le a b : f64_eq a b = true <-> f64_le a b = true /\ f64_le b a = true.
Proof.
  unfold f64_eq, SFeqb. rewrite !f64_le_spec.
  destruct a as [sa|sa| |sa ma ea], b as [sb|sb| |sb mb eb]; try destruct sa; try destruct sb;
    simpl; try (split; [done|]; lia); try (intuition lia); try (intuition done);
    destruct (Z.compare_spec ea eb); simpl; try (intuition (try lia; done));
    change (PosDef.Pos.compare_cont Eq ma mb) with (Pos.compare ma mb);
    destruct (Pos.compare_spec ma mb); simpl; intuition (try lia; done).
Qed.

Lemma f64_eq_refl a : IsNaN a = false -> f64_eq a a = true.
Proof. intros. rewrite f64_eq_le. split; by apply f64_le_refl. Qed.

(** A positive finite float is a positive rational. *)
Lemma SetFloat64_pos f q : f64_lt f64_zero f = true -> SetFloat64 f = Some q -> (0 < q)%Q.
Proof.
  unfold f64_lt, SFltb. destruct f as [s|s| |s m [|e|e]]; simpl; try done; destruct s; try done;
    intros _ [= <-]; unfold Qlt; simpl; try lia.
Qed.
