(* ===== verification/Rounding.v ===== *)
(** * Rounding to binary64
    (math/big's [Rat.Float64], and the rounding of every float64 operation)

    The standard library defines the operations of IEEE 754 on [spec_float]
    by one function, [binary_round_aux]. This file proves what the code relies
    on when it compares a rounded value with a limit: rounding is monotone and
    keeps every float64, so a value on one side of a limit never crosses it.
    [rat_Float64] is [big.Rat.Float64], the nearest float64 of a rational. *)

From S2P Require Import Prelude Float64.
From Stdlib Require Import Floats.SpecFloat Qpower.

Abbreviation prec64 := 53.
Abbreviation emax64 := 1024.
Abbreviation emin64 := (-1074).

Definition rat_Float64 (q : Q) : float64 :=
  match Qnum q with
  | Z0 => S754_zero false
  | Zpos n =>
      let '(m, e, l) := SFdiv_core_binary prec64 emax64 (Zpos n) 0 (Zpos (Qden q)) 0 in
      binary_round_aux prec64 emax64 false m e l
  | Zneg n =>
      let '(m, e, l) := SFdiv_core_binary prec64 emax64 (Zpos n) 0 (Zpos (Qden q)) 0 in
      binary_round_aux prec64 emax64 true m e l
  end.

(** The operations of Go on float64. *)
(** [float64(n)] of an integer. *)
Definition f64_Z (n : Z) : float64 := rat_Float64 (inject_Z n).

Definition f64_add : float64 -> float64 -> float64 := SFadd prec64 emax64.
Definition f64_sub : float64 -> float64 -> float64 := SFsub prec64 emax64.
Definition f64_mul : float64 -> float64 -> float64 := SFmul prec64 emax64.
Definition f64_div : float64 -> float64 -> float64 := SFdiv prec64 emax64.

(** A float64 in its canonical form, as every operation produces it. *)
Definition valid64 (f : float64) : bool := valid_binary prec64 emax64 f.

(** ** Powers of two *)

Section Pow2.
Open Scope Q_scope.

Definition pow2 (e : Z) : Q := Qpower (2 # 1) e.

Lemma pow2_pos e : 0 < pow2 e.
Proof. apply Qpower_0_lt. reflexivity. Qed.

Lemma pow2_add a b : pow2 (a + b) == pow2 a * pow2 b.
Proof. apply Qpower_plus. discriminate. Qed.

Lemma pow2_Z n : (0 <= n)%Z -> pow2 n == inject_Z (2 ^ n).
Proof. intros. unfold pow2. change (2 # 1) with (inject_Z 2). by rewrite Zpower_Qpower. Qed.

Lemma pow2_S e : pow2 (e + 1) == 2 * pow2 e.
Proof. rewrite pow2_add. change (pow2 1) with (2 # 1). ring. Qed.

(** [m * 2^e]. *)
Definition mant (m e : Z) : Q := inject_Z m * pow2 e.

Lemma mant_shift m e n : (0 <= n)%Z -> mant m (e + n) == mant (m * 2 ^ n) e.
Proof. intros. unfold mant. rewrite pow2_add, inject_Z_mult, <- pow2_Z by done. ring. Qed.

Lemma mant_le m n e : mant m e <= mant n e <-> (m <= n)%Z.
Proof. unfold mant. rewrite Qmult_le_r by apply pow2_pos. by rewrite <- Zle_Qle. Qed.

Lemma mant_lt m n e : mant m e < mant n e <-> (m < n)%Z.
Proof. unfold mant. rewrite Qmult_lt_r by apply pow2_pos. by rewrite <- Zlt_Qlt. Qed.
End Pow2.

(** The order of two scaled integers, on the smaller of the two scales. *)
Lemma mant_le_iff m e n f : e <= f -> (mant m e <= mant n f)%Q <-> m <= n * 2 ^ (f - e).
Proof.
  intros. replace f with (e + (f - e)) at 1 by lia. rewrite mant_shift by lia. apply mant_le.
Qed.

Lemma mant_le_iff' m e n f : f <= e -> (mant m e <= mant n f)%Q <-> m * 2 ^ (e - f) <= n.
Proof.
  intros. replace e with (f + (e - f)) at 1 by lia. rewrite mant_shift by lia. apply mant_le.
Qed.

(** ** Digits *)

Lemma digits2_bounds p : 2 ^ (Zpos (digits2_pos p) - 1) <= Zpos p < 2 ^ Zpos (digits2_pos p).
Proof.
  assert (E : forall a, 2 ^ (Zpos (Pos.succ a)) = 2 * 2 ^ Zpos a)
    by (intros a; rewrite Pos2Z.inj_succ, Z.pow_succ_r by lia; done).
  induction p as [p IH|p IH|]; cbn [digits2_pos].
  - rewrite E. replace (Zpos (Pos.succ (digits2_pos p)) - 1) with (Z.succ (Zpos (digits2_pos p) - 1)) by lia.
    rewrite Z.pow_succ_r by lia. lia.
  - rewrite E. replace (Zpos (Pos.succ (digits2_pos p)) - 1) with (Z.succ (Zpos (digits2_pos p) - 1)) by lia.
    rewrite Z.pow_succ_r by lia. lia.
  - simpl. lia.
Qed.

Lemma Zdigits2_bounds m : 0 < m -> 2 ^ (Zdigits2 m - 1) <= m < 2 ^ Zdigits2 m.
Proof. destruct m; try lia. intros _. apply digits2_bounds. Qed.

Lemma Zdigits2_pos m : 0 < m -> 0 < Zdigits2 m.
Proof. destruct m; simpl; lia. Qed.

(** Digits are determined by the power of two below. *)
Lemma Zdigits2_unique m d : 2 ^ (d - 1) <= m < 2 ^ d -> 0 < d -> Zdigits2 m = d.
Proof.
  intros [Hl Hu] Hd. assert (0 < m) by (pose proof (Z.pow_pos_nonneg 2 (d - 1)); lia).
  destruct (Zdigits2_bounds m) as [Hl' Hu']; [done|]. pose proof (Zdigits2_pos m H).
  assert (Zdigits2 m - 1 < d) by (apply (Z.pow_lt_mono_r_iff 2); lia).
  assert (d - 1 < Zdigits2 m) by (apply (Z.pow_lt_mono_r_iff 2); lia). lia.
Qed.

Lemma Zdigits2_le m k : 0 <= k -> 0 <= m < 2 ^ k -> Zdigits2 m <= k.
Proof.
  intros Hk Hm. destruct (Z.eq_dec m 0) as [->|]; [done|].
  destruct (Zdigits2_bounds m) as [Hl _]; [lia|]. pose proof (Zdigits2_pos m ltac:(lia)).
  assert (Zdigits2 m - 1 < k) by (apply (Z.pow_lt_mono_r_iff 2); lia). lia.
Qed.

Lemma Zdigits2_ge m k : 0 <= k -> 2 ^ k <= m -> k < Zdigits2 m.
Proof.
  intros Hk Hm. assert (0 < 2 ^ k) by (apply Z.pow_pos_nonneg; lia).
  destruct (Zdigits2_bounds m) as [_ Hu]; [lia|]. pose proof (Zdigits2_pos m ltac:(lia)).
  apply (Z.pow_lt_mono_r_iff 2); lia.
Qed.

(** ** Truncation with its remainder

    A shift record holds the integer part of a value, whether the value is at
    or past the middle to the next integer, and whether it is off the point
    the first two give. *)

Definition rep (mrs : shr_record) (w : Q) : Prop :=
  let m := inject_Z (shr_m mrs) in
  0 <= shr_m mrs /\
  match shr_r mrs, shr_s mrs with
  | false, false => w == m
  | false, true => m < w < m + (1 # 2)
  | true, false => w == m + (1 # 2)
  | true, true => m + (1 # 2) < w < m + 1
  end%Q.

Lemma rep_floor mrs w : rep mrs w -> (inject_Z (shr_m mrs) <= w < inject_Z (shr_m mrs) + 1)%Q.
Proof. destruct mrs as [m [] []]; unfold rep; simpl; intros [_ H]; lra. Qed.

Lemma shr_1_rep mrs w : rep mrs w -> rep (shr_1 mrs) (w * (1 # 2)).
Proof.
  destruct mrs as [m r s]. unfold rep, shr_1. simpl. intros [Hm H].
  assert (E : forall p, (inject_Z (Zpos p~1) == 2 * inject_Z (Zpos p) + 1)%Q)
    by (intros p; rewrite Pos2Z.inj_xI, inject_Z_plus, inject_Z_mult; reflexivity).
  assert (E' : forall p, (inject_Z (Zpos p~0) == 2 * inject_Z (Zpos p))%Q)
    by (intros p; rewrite Pos2Z.inj_xO, inject_Z_mult; reflexivity).
  destruct m as [|[p|p|]|]; try lia; simpl; (split; [lia|]).
  - change (inject_Z 0) with (0 # 1)%Q in *. destruct r, s; simpl; lra.
  - specialize (E p). destruct r, s; simpl; lra.
  - specialize (E' p). destruct r, s; simpl; lra.
  - change (inject_Z 1) with (1 # 1)%Q in *. change (inject_Z 0) with (0 # 1)%Q. destruct r, s; simpl; lra.
Qed.

#[local] Instance rep_proper mrs : Proper (Qeq ==> iff) (rep mrs).
Proof. intros x y E. unfold rep. destruct (shr_r mrs), (shr_s mrs); rewrite E; done. Qed.

Lemma iter_shr_rep n mrs w : rep mrs w -> rep (iter_pos shr_1 n mrs) (w * pow2 (- Zpos n)).
Proof.
  revert mrs w. induction n as [n IH|n IH|]; intros mrs w H; simpl iter_pos.
  - apply shr_1_rep, IH, IH in H. revert H. apply rep_proper.
    rewrite Pos2Z.inj_xI. replace (- (2 * Zpos n + 1)) with (-1 + (- Zpos n + - Zpos n)) by lia.
    rewrite !pow2_add. change (pow2 (-1)) with (1 # 2)%Q. ring.
  - apply IH, IH in H. revert H. apply rep_proper.
    rewrite Pos2Z.inj_xO. replace (- (2 * Zpos n)) with (- Zpos n + - Zpos n) by lia.
    rewrite !pow2_add. ring.
  - by apply shr_1_rep.
Qed.

(** [shr] by [n >= 0]: the exponent goes up, the value stays. *)
Lemma shr_rep mrs e n w : 0 <= n -> rep mrs w ->
  let '(mrs', e') := shr mrs e n in e' = e + n /\ rep mrs' (w * pow2 (- n)).
Proof.
  intros Hn H. destruct n as [|n|n]; [|by split; [|apply iter_shr_rep]|lia].
  simpl. split; [lia|]. revert H. apply rep_proper. change (pow2 (- 0)) with (1 # 1)%Q. ring.
Qed.

Lemma loc_of_record mrs : shr_record_of_loc (shr_m mrs) (loc_of_shr_record mrs) = mrs.
Proof. by destruct mrs as [m [] []]. Qed.

(** The two integers next to a value; the value itself when it is one. *)
Lemma round_nearest_even_cases m l :
  round_nearest_even m l = m \/ (round_nearest_even m l = m + 1 /\ l <> loc_Exact).
Proof. destruct l as [|[]]; simpl; auto. - destruct (Z.even m); auto. Qed.

(** ** The grid of float64 values *)

(** A scaled integer of the float64 grid: at most 53 bits, the exponent not
    below the least. *)
Definition on_grid (m e : Z) : Prop := 0 <= m < 2 ^ prec64 /\ emin64 <= e.

(** Normalised: all bits are used, or the exponent is the least. *)
Definition normalised (m e : Z) : Prop := 2 ^ (prec64 - 1) <= m \/ e = emin64.

Lemma grid_below m e n f :
  on_grid m e -> normalised n f -> 0 <= n -> emin64 <= f -> e < f -> (mant m e <= mant n f)%Q.
Proof.
  intros [Hm He] Hn Hn0 Hf Hlt. destruct Hn as [Hn| ->]; [|lia].
  apply mant_le_iff; [lia|].
  assert (2 ^ 1 <= 2 ^ (f - e)) by (apply Z.pow_le_mono_r; lia).
  change (2 ^ prec64) with 9007199254740992 in Hm. change (2 ^ (prec64 - 1)) with 4503599627370496 in Hn. nia.
Qed.

(** No grid point lies strictly between two neighbours. *)
Lemma grid_gap m e n f :
  on_grid m e -> normalised n f -> 0 <= n -> emin64 <= f ->
  (mant m e <= mant n f)%Q \/ (mant (n + 1) f <= mant m e)%Q.
Proof.
  intros Hm Hn Hn0 Hf. destruct (Z.lt_ge_cases e f) as [Hlt|Hge].
  - left. by apply grid_below.
  - assert (D : m * 2 ^ (e - f) <= n \/ n + 1 <= m * 2 ^ (e - f)) by lia.
    destruct D as [D|D]; [left; by apply mant_le_iff'|right; by apply mant_le_iff].
Qed.

Lemma fexp64 e : fexp prec64 emax64 e = Z.max (e - 53) emin64.
Proof. reflexivity. Qed.

Lemma rep_of_loc m l w : rep (shr_record_of_loc m l) w -> 0 <= m /\ (inject_Z m <= w < inject_Z m + 1)%Q.
Proof.
  intros H. assert (E : shr_m (shr_record_of_loc m l) = m) by (by destruct l as [|[]]).
  pose proof (rep_floor _ _ H) as F. rewrite E in F. split; [|done]. destruct H as [? _]. lia.
Qed.

(** Rewriting an inequality between a scaled integer and a value as one
    between the integer and the scaled value. *)
Lemma scale_le m e w x : (w == x * pow2 (- e))%Q -> (inject_Z m <= w)%Q <-> (mant m e <= x)%Q.
Proof.
  intros ->. unfold mant. rewrite <- (Qmult_le_r _ _ (pow2 e)) by apply pow2_pos.
  rewrite <- Qmult_assoc, <- pow2_add, Z.add_opp_diag_l. change (pow2 0) with (1 # 1)%Q. by rewrite Qmult_1_r.
Qed.

Lemma scale_lt m e w x : (w == x * pow2 (- e))%Q -> (w < inject_Z m)%Q <-> (x < mant m e)%Q.
Proof. intros E. pose proof (scale_le m e w x E). split; intros; apply Qnot_le_lt; intros ?; apply H in H1; lra. Qed.

(** The first truncation lands on a normalised grid point below the value. *)
Lemma shr_fexp_spec mx ex lx w :
  rep (shr_record_of_loc mx lx) w -> ex <= fexp prec64 emax64 (Zdigits2 mx + ex) ->
  let '(mrs, e) := shr_fexp prec64 emax64 mx ex lx in
  e = fexp prec64 emax64 (Zdigits2 mx + ex)
  /\ rep mrs (w * pow2 ex * pow2 (- e))%Q /\ on_grid (shr_m mrs) e /\ normalised (shr_m mrs) e.
Proof.
  intros Hrep Hex. unfold shr_fexp.
  set (n := fexp prec64 emax64 (Zdigits2 mx + ex) - ex). assert (Hn : 0 <= n) by lia.
  pose proof (shr_rep _ ex n w Hn Hrep) as Hs. destruct (shr _ ex n) as [mrs e]. destruct Hs as [He Hs].
  destruct (rep_of_loc _ _ _ Hrep) as [Hm [Hlo Hhi]].
  pose proof (rep_floor _ _ Hs) as [Hlo' Hhi']. pose proof (proj1 Hs) as Hm'.
  assert (Hfl : shr_m mrs = mx / 2 ^ n).
  { assert (Hp : 0 < 2 ^ n) by (apply Z.pow_pos_nonneg; lia).
    assert (P1 : (pow2 (- n) * inject_Z (2 ^ n) == 1)%Q)
      by (rewrite <- pow2_Z, <- pow2_add, Z.add_opp_diag_l by done; reflexivity).
    assert (Hq : (0 < inject_Z (2 ^ n))%Q) by (rewrite <- pow2_Z by done; apply pow2_pos).
    set (a := inject_Z (2 ^ n)) in *. set (b := pow2 (- n)) in *.
    assert (W : (w * b * a == w)%Q) by (rewrite <- Qmult_assoc, P1; ring).
    assert (A1 : (inject_Z (shr_m mrs) * a <= w)%Q) by (apply (Qmult_le_r _ _ a Hq) in Hlo'; lra).
    assert (A2 : (w < (inject_Z (shr_m mrs) + 1) * a)%Q) by (apply (Qmult_lt_r _ _ a Hq) in Hhi'; lra).
    assert (B1 : (inject_Z (shr_m mrs * 2 ^ n) < inject_Z (mx + 1))%Q)
      by (rewrite inject_Z_mult, inject_Z_plus; fold a; change (inject_Z 1) with (1 # 1)%Q; lra).
    assert (B2 : (inject_Z mx < inject_Z ((shr_m mrs + 1) * 2 ^ n))%Q)
      by (rewrite inject_Z_mult, inject_Z_plus; fold a; change (inject_Z 1) with (1 # 1)%Q; lra).
    rewrite <- Zlt_Qlt in B1, B2. apply (Z.div_unique _ _ _ (mx - 2 ^ n * shr_m mrs)); lia. }
  assert (Hen : e = fexp prec64 emax64 (Zdigits2 mx + ex)) by lia.
  split; [done|]. split.
  { revert Hs. apply rep_proper. rewrite <- Qmult_assoc, <- pow2_add.
    replace (ex + - e) with (- n) by lia. reflexivity. }
  rewrite fexp64 in *. destruct (Z.eq_dec mx 0) as [->|Hmx].
  { rewrite Hfl, Z.div_0_l by (apply Z.pow_nonzero; lia). unfold on_grid, normalised. simpl in *. lia. }
  destruct (Zdigits2_bounds mx) as [Hd1 Hd2]; [lia|]. pose proof (Zdigits2_pos mx ltac:(lia)).
  unfold on_grid, normalised. split; [split; [split; [lia|]|lia]|].
  - rewrite Hfl. apply Z.div_lt_upper_bound; [apply Z.pow_pos_nonneg; lia|]. rewrite <- Z.pow_add_r by lia.
    eapply Z.lt_le_trans; [exact Hd2|]. apply Z.pow_le_mono_r; lia.
  - destruct (Z.eq_dec e emin64) as [?|He']; [by right|left]. rewrite Hfl.
    apply Z.div_le_lower_bound; [apply Z.pow_pos_nonneg; lia|]. rewrite <- Z.pow_add_r by lia.
    eapply Z.le_trans; [|exact Hd1]. apply Z.pow_le_mono_r; lia.
Qed.

(** What [binary_round_aux] returns for a rounded mantissa of the grid: a
    mantissa that reached 2^53 is halved, one past the range is infinite. *)
Definition finish (s : bool) (m e : Z) : float64 :=
  if m =? 0 then S754_zero s
  else
    let '(m, e) := if m =? 2 ^ prec64 then (2 ^ (prec64 - 1), e + 1) else (m, e) in
    if e <=? 971 then S754_finite s (Z.to_pos m) e else S754_infinity s.

Lemma finish_shr s m e :
  0 <= m <= 2 ^ prec64 -> emin64 <= e -> normalised m e ->
  (let '(mrs, e') := shr_fexp prec64 emax64 m e loc_Exact in
   match shr_m mrs with
   | Z0 => S754_zero s
   | Zpos p => if e' <=? emax64 - prec64 then S754_finite s p e' else S754_infinity s
   | _ => S754_nan
   end) = finish s m e.
Proof.
  intros Hm He Hn. unfold shr_fexp, finish. rewrite fexp64.
  destruct (Z.eqb_spec m (2 ^ prec64)) as [->|Hne].
  { replace (Z.max _ _ - e) with 1 by (change (Zdigits2 (2 ^ prec64)) with 54; lia). reflexivity. }
  assert (Hd : Z.max (Zdigits2 m + e - 53) emin64 = e).
  { assert (Zdigits2 m <= 53) by (apply Zdigits2_le; lia). destruct Hn as [Hn| ->]; [|lia].
    assert (52 < Zdigits2 m) by (by apply Zdigits2_ge). lia. }
  rewrite Hd, Z.sub_diag. simpl shr. cbv iota beta. cbn [shr_m shr_record_of_loc].
  destruct m as [|m|]; [done| |lia]. simpl. done.
Qed.

(** Rounding goes to one of the two neighbours of the value on the grid. *)
Lemma round_aux_spec mx ex lx w :
  rep (shr_record_of_loc mx lx) w -> ex <= fexp prec64 emax64 (Zdigits2 mx + ex) ->
  exists m e mr, on_grid m e /\ normalised m e
    /\ (mr = m \/ (mr = m + 1 /\ (mant m e < w * pow2 ex)%Q))
    /\ (mant m e <= w * pow2 ex < mant (m + 1) e)%Q
    /\ forall s, binary_round_aux prec64 emax64 s mx ex lx = finish s mr e.
Proof.
  intros Hrep Hex. pose proof (shr_fexp_spec mx ex lx w Hrep Hex) as H.
  destruct (shr_fexp prec64 emax64 mx ex lx) as [mrs e] eqn:E. destruct H as (_ & Hr & Hg & Hn).
  set (v := (w * pow2 ex)%Q) in *.
  assert (Hlo : (mant (shr_m mrs) e <= v)%Q).
  { apply (scale_le _ _ _ _ (Qeq_refl _)). by apply (rep_floor _ _ Hr). }
  assert (Hhi : (v < mant (shr_m mrs + 1) e)%Q).
  { apply (scale_lt _ _ _ _ (Qeq_refl _)). rewrite inject_Z_plus. by apply (rep_floor _ _ Hr). }
  exists (shr_m mrs), e, (round_nearest_even (shr_m mrs) (loc_of_shr_record mrs)).
  pose proof (round_nearest_even_cases (shr_m mrs) (loc_of_shr_record mrs)) as Hc.
  split_and!; try done.
  - destruct Hc as [?|[? Hl]]; [by left|right; split; [done|]].
    apply Qnot_le_lt. intros Hv. apply Hl. destruct Hr as [_ Hr].
    assert (Hw : (v * pow2 (- e) <= inject_Z (shr_m mrs))%Q).
    { apply Qnot_lt_le. intros Hlt.
      assert (mant (shr_m mrs) e < v)%Q; [|lra].
      apply (Qmult_lt_r _ _ (pow2 e) (pow2_pos e)) in Hlt. unfold mant.
      rewrite <- Qmult_assoc, <- pow2_add, Z.add_opp_diag_l in Hlt.
      change (pow2 0) with (1 # 1)%Q in Hlt. rewrite Qmult_1_r in Hlt. done. }
    destruct mrs as [mm [] []]; simpl in *; try done; lra.
  - intros s. unfold binary_round_aux. rewrite E. rewrite <- (finish_shr s).
    + by destruct (shr_fexp _ _ (round_nearest_even _ _) e loc_Exact).
    + destruct Hg. destruct Hc as [->|[-> _]]; lia.
    + apply Hg.
    + destruct Hn as [Hn|Hn]; [left|by right]. destruct Hc as [->|[-> _]]; lia.
Qed.

(** ** Values and order of float64 *)

Lemma SetFloat64_mant s m e q :
  SetFloat64 (S754_finite s m e) = Some q -> (q == mant (if s then Zneg m else Zpos m) e)%Q.
Proof.
  cbn [SetFloat64]. intros [= <-]. set (n := if s then Zneg m else Zpos m). unfold mant. destruct e as [|e|e].
  - change (pow2 0) with (1 # 1)%Q. rewrite Qmult_1_r. reflexivity.
  - rewrite pow2_Z by lia. rewrite <- inject_Z_mult. reflexivity.
  - unfold pow2. change (Zneg e) with (- Zpos e). rewrite Qpower_opp. change (2 # 1)%Q with (inject_Z 2).
    rewrite <- Zpower_Qpower by lia. rewrite <- Pos2Z.inj_pow. unfold Qeq, Qmult, Qinv, inject_Z. simpl. lia.
Qed.

Lemma valid64_grid s m e :
  valid64 (S754_finite s m e) = true -> on_grid (Zpos m) e /\ normalised (Zpos m) e /\ e <= 971.
Proof.
  unfold valid64, valid_binary, bounded, canonical_mantissa. rewrite fexp64. intros H. bprop.
  pose proof (digits2_bounds m) as [Hl Hu]. unfold on_grid, normalised.
  assert (Zpos (digits2_pos m) <= 53) by lia.
  split; [split; [split; [lia|]|lia]|split; [|lia]].
  - eapply Z.lt_le_trans; [exact Hu|]. apply Z.pow_le_mono_r; lia.
  - destruct (Z.eq_dec e emin64); [by right|left]. eapply Z.le_trans; [|exact Hl]. apply Z.pow_le_mono_r; lia.
Qed.

Lemma grid_valid64 s m e :
  on_grid (Zpos m) e -> normalised (Zpos m) e -> e <= 971 -> valid64 (S754_finite s m e) = true.
Proof.
  intros [Hm He] Hn Hx. unfold valid64, valid_binary, bounded, canonical_mantissa. rewrite fexp64.
  apply andb_true_intro. split; [|lia]. apply Z.eqb_eq.
  assert (Zdigits2 (Zpos m) <= 53) by (apply Zdigits2_le; lia). simpl in H.
  destruct Hn as [Hn|Hn]; [|lia]. apply Zdigits2_ge in Hn; [simpl in Hn; lia|done].
Qed.

Lemma f64_le_mant s t m1 e1 m2 e2 :
  valid64 (S754_finite s m1 e1) = true -> valid64 (S754_finite t m2 e2) = true ->
  f64_le (S754_finite false m1 e1) (S754_finite false m2 e2) = true <->
  (mant (Zpos m1) e1 <= mant (Zpos m2) e2)%Q.
Proof.
  intros (Hg1 & Hn1 & _)%valid64_grid (Hg2 & Hn2 & _)%valid64_grid.
  rewrite f64_le_spec. unfold key_le, f64_key; simpl.
  assert (Hgap : forall m e n f, on_grid (Zpos m) e -> on_grid (Zpos n) f -> normalised (Zpos n) f -> e < f ->
            (mant (Zpos m) e < mant (Zpos n) f)%Q).
  { intros m e n f [Hm He] [Hn Hf] [Hn'| ->] Hlt; [|lia]. apply Qnot_le_lt. rewrite mant_le_iff' by lia.
    assert (2 ^ 1 <= 2 ^ (f - e)) by (apply Z.pow_le_mono_r; lia).
    change (2 ^ prec64) with 9007199254740992 in *. change (2 ^ (prec64 - 1)) with 4503599627370496 in *. nia. }
  destruct (Z.lt_trichotomy e1 e2) as [H|[->|H]].
  - pose proof (Hgap m1 e1 m2 e2 Hg1 Hg2 Hn2 H). split; [intros _; lra|]. intros _. lia.
  - rewrite mant_le. lia.
  - pose proof (Hgap m2 e2 m1 e1 Hg2 Hg1 Hn1 H). split; [lia|]. intros. exfalso. lra.
Qed.

(** The float a rounded grid mantissa becomes, compared with a float64. *)
Lemma finish_valid s m e :
  0 <= m <= 2 ^ prec64 -> emin64 <= e -> normalised m e -> valid64 (finish s m e) = true.
Proof.
  intros Hm He Hn. unfold finish. destruct (Z.eqb_spec m 0); [done|].
  destruct (Z.eqb_spec m (2 ^ prec64)).
  - case_if; [|done]. bprop. apply grid_valid64; [split; [simpl; lia|lia]|left; simpl; lia|lia].
  - case_if; [|done]. bprop. apply grid_valid64; rewrite ?Z2Pos.id by lia; [split; lia|done|lia].
Qed.

Lemma finish_le m e t et :
  0 <= m <= 2 ^ prec64 -> emin64 <= e -> normalised m e -> valid64 (S754_finite false t et) = true ->
  (f64_le (S754_finite false t et) (finish false m e) = true <-> (mant (Zpos t) et <= mant m e)%Q)
  /\ (f64_le (finish false m e) (S754_finite false t et) = true <-> (mant m e <= mant (Zpos t) et)%Q).
Proof.
  intros Hm He Hn Ht. pose proof (finish_valid false m e Hm He Hn) as Hv.
  pose proof (valid64_grid _ _ _ Ht) as ([[_ Htm] _] & _ & Hte).
  assert (Hpos : (0 < mant (Zpos t) et)%Q)
    by (apply Qmult_lt_0_compat; [rewrite <- inject_Z_pos; lia|apply pow2_pos]).
  (* past the range, a grid mantissa is above every float64 *)
  assert (Hbig : 971 < e -> 2 ^ (prec64 - 1) <= m -> (mant (Zpos t) et < mant m e)%Q).
  { intros H1 H2. apply Qnot_le_lt. rewrite mant_le_iff' by lia.
    assert (2 ^ 1 <= 2 ^ (e - et)) by (apply Z.pow_le_mono_r; lia).
    change (2 ^ prec64) with 9007199254740992 in *. change (2 ^ (prec64 - 1)) with 4503599627370496 in *. nia. }
  revert Hv. unfold finish. destruct (Z.eqb_spec m 0) as [->|].
  { intros _. unfold mant at 2 3. change (inject_Z 0) with (0 # 1)%Q. rewrite Qmult_0_l. simpl. split; split; try done; lra. }
  destruct (Z.eqb_spec m (2 ^ prec64)) as [->|].
  - case_if; bprop.
    + intros Hv. assert (E : (mant (2 ^ prec64) e == mant (2 ^ (prec64 - 1)) (e + 1))%Q)
        by (rewrite mant_shift by lia; reflexivity). rewrite E.
      change (2 ^ (prec64 - 1)) with (Zpos (Z.to_pos (2 ^ (prec64 - 1)))) at 2 4. rewrite !(f64_le_mant false false) by done. done.
    + intros _. assert ((mant (Zpos t) et < mant (2 ^ prec64) e)%Q).
      { apply Qnot_le_lt. rewrite mant_le_iff' by lia.
        assert (2 ^ 0 <= 2 ^ (e - et)) by (apply Z.pow_le_mono_r; lia).
        change (2 ^ prec64) with 9007199254740992 in *. nia. }
      simpl. split; split; try done; lra.
  - case_if; bprop.
    + intros Hv. rewrite <- (Z2Pos.id m) at 2 4 by lia. rewrite !(f64_le_mant false false) by done. done.
    + intros _. assert (Hlt : (mant (Zpos t) et < mant m e)%Q) by (apply Hbig; [lia|destruct Hn; lia]).
      simpl. split; split; try done; lra.
Qed.

(** ** Rounding does not cross a float64 *)

(** [f] is a rounding of [v]: a float64 that no float64 separates from it. *)
Definition rounds (v : Q) (f : float64) : Prop :=
  valid64 f = true /\ IsNaN f = false /\
  forall t q, valid64 t = true -> SetFloat64 t = Some q ->
    ((q <= v)%Q -> f64_le t f = true) /\ ((v <= q)%Q -> f64_le f t = true).

#[export] Instance rounds_proper : Proper (Qeq ==> eq ==> iff) rounds.
Proof.
  intros v v' E f f' <-. unfold rounds.
  split; intros (? & ? & H); split_and!; try done; intros t q Ht Hq; destruct (H t q Ht Hq); split; intros;
    [apply H2; lra|apply H3; lra|apply H2; lra|apply H3; lra].
Qed.

Lemma f64_le_nonneg s m e f : f64_le f64_zero f = true -> f64_le (S754_finite true m e) f = true
  /\ f64_le (S754_zero s) f = true.
Proof.
  rewrite !f64_le_spec. unfold key_le, f64_key, f64_zero.
  destruct f as [[]|[]| |[] ? ?]; simpl; intuition (try lia; try done).
Qed.

Lemma round_aux_pos mx ex lx w :
  rep (shr_record_of_loc mx lx) w -> ex <= fexp prec64 emax64 (Zdigits2 mx + ex) ->
  rounds (w * pow2 ex) (binary_round_aux prec64 emax64 false mx ex lx)
  /\ f64_le f64_zero (binary_round_aux prec64 emax64 false mx ex lx) = true.
Proof.
  intros Hrep Hex. destruct (round_aux_spec mx ex lx w Hrep Hex) as (m & e & mr & Hg & Hn & Hmr & [Hlo Hhi] & ->).
  destruct Hg as [Hm He].
  assert (Hmr' : 0 <= mr <= 2 ^ prec64) by lia.
  assert (Hnr : normalised mr e) by (destruct Hn; [left|right]; lia).
  assert (Hz : f64_le f64_zero (finish false mr e) = true).
  { unfold finish. repeat case_if; try done. }
  assert (Hle : (mant m e <= mant mr e)%Q) by (apply mant_le; lia).
  split; [|done]. split_and!; [by apply finish_valid| |].
  { unfold finish. repeat case_if; done. }
  intros t q Ht Hq. set (v := (w * pow2 ex)%Q) in *.
  assert (Hv : (0 <= v)%Q).
  { eapply Qle_trans; [|exact Hlo]. unfold mant. apply Qmult_le_0_compat; [|apply Qlt_le_weak, pow2_pos].
    change 0%Q with (inject_Z 0). rewrite <- Zle_Qle. lia. }
  destruct t as [s| | |[] t et]; try done.
  - injection Hq as <-. split; [intros _; by apply (f64_le_nonneg s 1 0)|]. intros Hv0.
    assert (Hmr0 : mr = 0).
    { destruct Hmr as [->|[-> Hlt]].
      - assert (mant m e <= mant 0 e)%Q; [|apply mant_le in H; lia].
        unfold mant at 2. change (inject_Z 0) with (0 # 1)%Q. rewrite Qmult_0_l. lra.
      - exfalso. assert (mant 0 e <= mant m e)%Q by (apply mant_le; lia).
        unfold mant at 1 in H. change (inject_Z 0) with (0 # 1)%Q in H. rewrite Qmult_0_l in H. lra. }
    rewrite Hmr0. done.
  - apply SetFloat64_mant in Hq.
    assert (Hneg : (mant (Zneg t) et < 0)%Q).
    { unfold mant. pose proof (pow2_pos et). assert (inject_Z (Zneg t) < 0)%Q by reflexivity. nra. }
    split; [intros _; by apply (f64_le_nonneg false)|intros; lra].
  - apply SetFloat64_mant in Hq. destruct (finish_le mr e t et Hmr' He Hnr Ht) as [-> ->].
    destruct (valid64_grid _ _ _ Ht) as (Hgt & _ & _).
    destruct (grid_gap (Zpos t) et m e Hgt Hn ltac:(lia) He) as [Hd|Hd]; split; intros Hc; try lra;
      destruct Hmr as [->|[-> Hlt]]; lra.
Qed.

(** ** Signs *)

Lemma finish_sign m e : finish true m e = SFopp (finish false m e).
Proof. unfold finish. destruct (m =? 0); [done|]. by destruct (m =? 2 ^ prec64); case_if. Qed.

Lemma SFopp_valid f : valid64 (SFopp f) = valid64 f.
Proof. by destruct f. Qed.

Lemma SFopp_le a b : f64_le (SFopp a) (SFopp b) = f64_le b a.
Proof.
  unfold f64_le, SFleb. destruct a as [[]|[]| |[] m e], b as [[]|[]| |[] n f]; simpl; try done;
    rewrite (Z.compare_antisym e f); destruct (e ?= f) eqn:E; simpl; try done;
    fold (Pos.compare m n); fold (Pos.compare n m); rewrite (Pos.compare_antisym m n); by destruct (m ?= n)%positive.
Qed.

Lemma SFopp_involutive f : SFopp (SFopp f) = f.
Proof. destruct f as [[]|[]| |[] m e]; done. Qed.

Lemma SetFloat64_opp f q : SetFloat64 f = Some q -> exists q', SetFloat64 (SFopp f) = Some q' /\ (q' == - q)%Q.
Proof.
  destruct f as [s|s| |s m e]; try done.
  - intros [= <-]. by exists (0 # 1)%Q.
  - intros Hq. assert (exists q', SetFloat64 (SFopp (S754_finite s m e)) = Some q') as [q' Hq'] by (by eexists).
    exists q'. split; [done|]. apply SetFloat64_mant in Hq. apply SetFloat64_mant in Hq'.
    rewrite Hq, Hq'. unfold mant. destruct s; simpl negb; cbv iota;
      [change (Zneg m) with (- Zpos m)|change (Zneg m) with (- Zpos m)]; rewrite inject_Z_opp; ring.
Qed.

Lemma rounds_opp v f : rounds v f -> rounds (- v) (SFopp f).
Proof.
  intros (Hv & Hn & H). split_and!; [by rewrite SFopp_valid|by destruct f|].
  intros t q Ht Hq. destruct (SetFloat64_opp _ _ Hq) as (q' & Hq' & E).
  destruct (H (SFopp t) q') as [H1 H2]; [by rewrite SFopp_valid|done|].
  rewrite <- (SFopp_involutive t), !SFopp_le. split; intros; [apply H2; lra|apply H1; lra].
Qed.

Lemma round_aux_sign mx ex lx w (s : bool) :
  rep (shr_record_of_loc mx lx) w -> ex <= fexp prec64 emax64 (Zdigits2 mx + ex) ->
  rounds (if s then - (w * pow2 ex) else w * pow2 ex)%Q (binary_round_aux prec64 emax64 s mx ex lx).
Proof.
  intros Hrep Hex. pose proof (proj1 (round_aux_pos mx ex lx w Hrep Hex)) as Hp.
  destruct (round_aux_spec mx ex lx w Hrep Hex) as (m & e & mr & _ & _ & _ & _ & E).
  destruct s; [|done]. rewrite E, finish_sign, <- E. by apply rounds_opp.
Qed.

(** ** [big.Rat.Float64] *)

Lemma new_location_rep q r b : 0 <= q -> 0 <= r < Zpos b ->
  rep (shr_record_of_loc q (new_location (Zpos b) r)) (inject_Z q + (r # b)).
Proof.
  intros Hq Hr.
  assert (E3 : ((r # b) == (1 # 2))%Q <-> 2 * r = Zpos b) by (unfold Qeq; simpl; lia).
  assert (E4 : (0 < (r # b))%Q <-> 0 < r) by (unfold Qlt; simpl; lia).
  assert (E5 : ((r # b) < 1)%Q) by (unfold Qlt; simpl; lia).
  assert (E6 : ((r # b) < (1 # 2))%Q <-> 2 * r < Zpos b) by (unfold Qlt; simpl; lia).
  assert (E7 : ((1 # 2) < (r # b))%Q <-> Zpos b < 2 * r) by (unfold Qlt; simpl; lia).
  unfold new_location, new_location_even, new_location_odd.
  change (IntDef.Z.even (Zpos b)) with (Z.even (Zpos b)).
  destruct (Z.even (Zpos b)) eqn:Ev; (destruct (Z.eqb_spec r 0) as [->|Hne];
    [unfold rep; simpl; split; [lia|]; unfold Qeq; simpl; lia|]).
  - destruct (Z.compare_spec (2 * r) (Zpos b)); unfold rep; simpl; (split; [lia|]).
    + apply E3 in H. lra.
    + apply E6 in H. assert (0 < (r # b))%Q by (apply E4; lia). lra.
    + apply E7 in H. lra.
  - assert (Hodd : 2 * r <> Zpos b).
    { intros E. rewrite <- E in Ev. rewrite Z.even_mul in Ev. done. }
    assert (0 < (r # b))%Q by (apply E4; lia).
    destruct (Z.compare_spec (2 * r + 1) (Zpos b)); unfold rep; simpl; (split; [lia|]).
    + assert (2 * r < Zpos b) as H1%E6 by lia. lra.
    + assert (2 * r < Zpos b) as H1%E6 by lia. lra.
    + assert (Zpos b < 2 * r) as H1%E7 by lia. lra.
Qed.

(** The quotient of two scaled integers is prepared with enough digits. *)
Lemma div_core_spec n e1 d e2 :
  let '(m, e, l) := SFdiv_core_binary prec64 emax64 (Zpos n) e1 (Zpos d) e2 in
  e <= fexp prec64 emax64 (Zdigits2 m + e)
  /\ exists w, rep (shr_record_of_loc m l) w /\ (w * pow2 e == (Zpos n # d) * pow2 (e1 - e2))%Q.
Proof.
  unfold SFdiv_core_binary.
  set (d1 := Zdigits2 (Zpos n)). set (d2 := Zdigits2 (Zpos d)). rewrite fexp64.
  remember (Z.min (Z.max (d1 + e1 - (d2 + e2) - 53) emin64) (e1 - e2)) as e eqn:He.
  remember (e1 - e2 - e) as s eqn:Hse.
  assert (Hs : 0 <= s) by lia.
  assert (Em : match s with Z0 => Zpos n | Zpos _ => Z.shiftl (Zpos n) s | Zneg _ => 0 end = Zpos n * 2 ^ s).
  { destruct s eqn:Es; [lia| |lia]. rewrite Z.shiftl_mul_pow2 by lia. done. }
  rewrite Em. pose proof (Z_div_mod (Zpos n * 2 ^ s) (Zpos d) ltac:(lia)) as Hdm.
  destruct (Z.div_eucl (Zpos n * 2 ^ s) (Zpos d)) as [q r]. destruct Hdm as [Hdm Hr].
  assert (Hpow : 0 < 2 ^ s) by (apply Z.pow_pos_nonneg; lia).
  assert (Hq : 0 <= q) by nia.
  split.
  - rewrite fexp64. destruct (Z.le_gt_cases e emin64); [lia|].
    (* here the quotient has at least 53 digits *)
    assert (Hd1 : 2 ^ (d1 - 1) <= Zpos n) by (apply Zdigits2_bounds; lia).
    assert (Hd2 : Zpos d < 2 ^ d2) by (apply Zdigits2_bounds; lia).
    assert (0 < d1 /\ 0 < d2) as [] by (split; apply Zdigits2_pos; lia).
    assert (Hk : 0 <= d1 - 1 - d2 + s) by lia.
    assert (Hqk : 2 ^ (d1 - 1 - d2 + s) <= q).
    { apply Z.lt_succ_r. apply (Z.mul_lt_mono_pos_l (2 ^ d2)); [apply Z.pow_pos_nonneg; lia|].
      rewrite <- Z.pow_add_r by lia. replace (d2 + (d1 - 1 - d2 + s)) with ((d1 - 1) + s) by lia.
      rewrite Z.pow_add_r by lia. nia. }
    apply Zdigits2_ge in Hqk; lia.
  - exists (inject_Z q + (r # d))%Q. split; [apply new_location_rep; lia|].
    assert (Ee : (pow2 e * inject_Z (2 ^ s) == pow2 (e1 - e2))%Q).
    { rewrite <- pow2_Z, <- pow2_add by done. replace (e + s) with (e1 - e2) by lia. reflexivity. }
    assert (En : (inject_Z q + (r # d) == (Zpos n # d) * inject_Z (2 ^ s))%Q).
    { unfold Qeq, Qplus, Qmult, inject_Z. simpl. rewrite Pos.mul_1_r. nia. }
    rewrite En, <- Qmult_assoc, (Qmult_comm (inject_Z _)), Ee. ring.
Qed.

(** [Rat.Float64] is a rounding of its argument. *)
Lemma rat_Float64_rounds q : rounds q (rat_Float64 q).
Proof.
  destruct q as [[|n|n] d]; unfold rat_Float64; cbn [Qnum Qden].
  - assert (E : (0 # d == 0)%Q) by reflexivity. rewrite E. split_and!; try done. intros t q Ht Hq.
    destruct t as [[]| | |[] m e]; try done; [injection Hq as <-; done..| |]; apply SetFloat64_mant in Hq.
    + assert (mant (Zneg m) e < 0)%Q
        by (unfold mant; pose proof (pow2_pos e); assert (inject_Z (Zneg m) < 0)%Q by reflexivity; nra).
      split; [done|intros; lra].
    + assert (0 < mant (Zpos m) e)%Q
        by (unfold mant; pose proof (pow2_pos e); assert (0 < inject_Z (Zpos m))%Q by reflexivity; nra).
      split; [intros; lra|done].
  - pose proof (div_core_spec n 0 d 0) as H. destruct (SFdiv_core_binary _ _ _ _ _ _) as [[m e] l].
    destruct H as (He & w & Hw & E). change (pow2 (0 - 0)) with (1 # 1)%Q in E. rewrite Qmult_1_r in E.
    rewrite <- E. by apply round_aux_pos.
  - pose proof (div_core_spec n 0 d 0) as H. destruct (SFdiv_core_binary _ _ _ _ _ _) as [[m e] l].
    destruct H as (He & w & Hw & E). change (pow2 (0 - 0)) with (1 # 1)%Q in E. rewrite Qmult_1_r in E.
    assert (E' : (Zneg n # d == - (w * pow2 e))%Q) by (rewrite E; reflexivity). rewrite E'.
    exact (round_aux_sign m e l w true Hw He).
Qed.

(** Comparing a rounded value with a float64 limit: at or above the limit
    stays so, and what falls below it was below it. *)
Lemma rounds_ge v f t q : rounds v f -> valid64 t = true -> SetFloat64 t = Some q -> (q <= v)%Q ->
  f64_lt f t = false.
Proof.
  intros (_ & Hn & H) Ht Hq Hle. destruct (H t q Ht Hq) as [H1 _]. specialize (H1 Hle).
  rewrite f64_lt_negb_le; [by rewrite H1|done|by destruct t].
Qed.

Lemma rounds_lt v f t q : rounds v f -> valid64 t = true -> SetFloat64 t = Some q -> f64_lt f t = true -> (v < q)%Q.
Proof.
  intros Hr Ht Hq Hlt. apply Qnot_le_lt. intros Hle. rewrite (rounds_ge v f t q) in Hlt; done.
Qed.

(** ** The operations round the exact result *)

Lemma SetFloat64_finite s m e :
  exists q, SetFloat64 (S754_finite s m e) = Some q /\ (q == (if s then - mant (Zpos m) e else mant (Zpos m) e))%Q.
Proof.
  assert (exists q, SetFloat64 (S754_finite s m e) = Some q) as [q Hq] by (by eexists).
  exists q. split; [done|]. rewrite (SetFloat64_mant _ _ _ _ Hq). destruct s; [|reflexivity].
  unfold mant. change (Zneg m) with (- Zpos m). rewrite inject_Z_opp. ring.
Qed.

Lemma f64_mul_rounds x y a b :
  valid64 x = true -> valid64 y = true -> SetFloat64 x = Some a -> SetFloat64 y = Some b ->
  rounds (a * b) (f64_mul x y).
Proof.
  intros Vx Vy Sx Sy.
  assert (Z : forall s, rounds 0 (S754_zero s)).
  { intros s. pose proof (rat_Float64_rounds 0) as H. destruct s; [apply (rounds_opp _ _ H)|done]. }
  destruct x as [sx| | |sx mx ex], y as [sy| | |sy my ey]; try done;
    [injection Sx as <-; eapply rounds_proper; [|reflexivity|apply Z]; ring..
    |injection Sy as <-; eapply rounds_proper; [|reflexivity|apply Z]; ring|].
  destruct (SetFloat64_finite sx mx ex) as (a' & Ha & Ea). rewrite Sx in Ha. injection Ha as <-.
  destruct (SetFloat64_finite sy my ey) as (b' & Hb & Eb). rewrite Sy in Hb. injection Hb as <-.
  apply valid64_grid in Vx as (Gx & Nx & _). apply valid64_grid in Vy as (Gy & Ny & _).
  assert (Hrep : rep (shr_record_of_loc (Zpos (mx * my)) loc_Exact) (inject_Z (Zpos (mx * my))))
    by (split; [simpl; lia|reflexivity]).
  assert (Hex : ex + ey <= fexp prec64 emax64 (Zdigits2 (Zpos (mx * my)) + (ex + ey))).
  { rewrite fexp64. assert (D : 2 ^ 52 <= Zpos (mx * my) -> 52 < Zdigits2 (Zpos (mx * my)))
      by (intros; by apply Zdigits2_ge).
    assert (Zpos (mx * my) = Zpos mx * Zpos my) by lia. destruct Nx as [Nx|Nx]; [|destruct Ny as [Ny|Ny]]; [| |lia].
    - assert (2 ^ 52 <= Zpos (mx * my)) by nia. specialize (D H0). lia.
    - assert (2 ^ 52 <= Zpos (mx * my)) by nia. specialize (D H0). lia. }
  pose proof (round_aux_sign _ _ _ _ (xorb sx sy) Hrep Hex) as HR.
  eapply rounds_proper; [|reflexivity|exact HR].
  assert (E : (inject_Z (Zpos (mx * my)) * pow2 (ex + ey) == mant (Zpos mx) ex * mant (Zpos my) ey)%Q).
  { unfold mant. rewrite Pos2Z.inj_mul, inject_Z_mult, pow2_add. ring. }
  rewrite Ea, Eb. destruct sx, sy; simpl xorb; cbv iota; rewrite E; ring.
Qed.

Lemma f64_div_rounds x y a b :
  SetFloat64 x = Some a -> SetFloat64 y = Some b -> ~ (b == 0)%Q -> rounds (a / b) (f64_div x y).
Proof.
  intros Sx Sy Hb.
  assert (Z : forall s, rounds 0 (S754_zero s)).
  { intros s. pose proof (rat_Float64_rounds 0) as H. destruct s; [apply (rounds_opp _ _ H)|done]. }
  destruct x as [sx| | |sx mx ex], y as [sy| | |sy my ey]; try done;
    try (by injection Sy as <-; destruct Hb).
  - injection Sx as <-. eapply rounds_proper; [|reflexivity|apply Z]. unfold Qdiv. ring.
  - destruct (SetFloat64_finite sx mx ex) as (a' & Ha & Ea). rewrite Sx in Ha. injection Ha as <-.
    destruct (SetFloat64_finite sy my ey) as (b' & Hb' & Eb). rewrite Sy in Hb'. injection Hb' as <-.
    unfold f64_div, SFdiv. pose proof (div_core_spec mx ex my ey) as H.
    destruct (SFdiv_core_binary _ _ _ _ _ _) as [[m e] l]. destruct H as (He & w & Hw & E).
    pose proof (round_aux_sign _ _ _ _ (xorb sx sy) Hw He) as HR.
    eapply rounds_proper; [|reflexivity|exact HR].
    assert (Hy : ~ (mant (Zpos my) ey == 0)%Q).
    { assert (0 < mant (Zpos my) ey)%Q; [|lra].
      apply Qmult_lt_0_compat; [reflexivity|apply pow2_pos]. }
    assert (E' : (w * pow2 e == mant (Zpos mx) ex / mant (Zpos my) ey)%Q).
    { rewrite E. apply (Qmult_inj_r _ _ (mant (Zpos my) ey)); [done|].
      rewrite Qmult_div_l || rewrite (Qmult_comm (_ / _)), Qmult_div_r by done. unfold mant.
      replace ex with (ex - ey + ey) at 2 by lia. rewrite (pow2_add (ex - ey)).
      assert (X : ((Zpos mx # my) * inject_Z (Zpos my) == inject_Z (Zpos mx))%Q)
        by (unfold Qeq, inject_Z; simpl; lia).
      rewrite <- X. ring. }
    rewrite Ea, Eb. destruct sx, sy; simpl xorb; cbv iota; rewrite E'; unfold Qdiv; try reflexivity;
      rewrite ?Qinv_opp; try ring; field; done.
Qed.

Lemma iter_xO m d : Zpos (Pos.iter xO m d) = Zpos m * 2 ^ Zpos d.
Proof.
  induction d as [|d IH] using Pos.peano_ind; [simpl; lia|].
  rewrite Pos.iter_succ, Pos2Z.inj_succ, Z.pow_succ_r by lia. change (Zpos (Pos.iter xO m d)~0) with (2 * Zpos (Pos.iter xO m d)).
  rewrite IH. ring.
Qed.

Lemma shl_align_spec m e e' : let '(m', f) := shl_align m e e' in
  f = Z.min e e' /\ (mant (Zpos m') f == mant (Zpos m) e)%Q.
Proof.
  unfold shl_align. destruct (e' - e) as [|d|d] eqn:E; [split; [lia|reflexivity]..|].
  split; [lia|]. rewrite iter_xO. replace e with (e' + Zpos d) by lia. rewrite mant_shift by lia. reflexivity.
Qed.

(** The digits of a shifted mantissa. *)
Lemma Zdigits2_shift m d : 0 < m -> 0 <= d -> Zdigits2 (m * 2 ^ d) = Zdigits2 m + d.
Proof.
  intros Hm Hd. destruct (Zdigits2_bounds m Hm) as [Hl Hu]. pose proof (Zdigits2_pos m Hm).
  apply Zdigits2_unique; [|lia].
  replace (Zdigits2 m + d - 1) with ((Zdigits2 m - 1) + d) by lia. rewrite !Z.pow_add_r by lia.
  assert (0 < 2 ^ d) by (apply Z.pow_pos_nonneg; lia). nia.
Qed.

Lemma binary_round_rounds (s : bool) m e :
  rounds (if s then - mant (Zpos m) e else mant (Zpos m) e)%Q (binary_round prec64 emax64 s m e).
Proof.
  unfold binary_round.
  assert (H : let '(mz, ez) := shl_align m e (fexp prec64 emax64 (Zpos (digits2_pos m) + e)) in
              (mant (Zpos mz) ez == mant (Zpos m) e)%Q
              /\ ez <= fexp prec64 emax64 (Zdigits2 (Zpos mz) + ez)).
  { unfold shl_align. set (f := fexp prec64 emax64 (Zpos (digits2_pos m) + e)).
    destruct (f - e) as [|d|d] eqn:E; [split; [reflexivity|]; change (Zdigits2 (Zpos m)) with (Zpos (digits2_pos m)); lia..|].
    rewrite iter_xO. split.
    - rewrite <- mant_shift by lia. replace (f + Zpos d) with e by lia. reflexivity.
    - rewrite Zdigits2_shift by lia. change (Zdigits2 (Zpos m)) with (Zpos (digits2_pos m)).
      replace (Zpos (digits2_pos m) + Zpos d + f) with (Zpos (digits2_pos m) + e) by lia. subst f. lia. }
  destruct (shl_align m e _) as [mz ez]. destruct H as [E He].
  assert (Hrep : rep (shr_record_of_loc (Zpos mz) loc_Exact) (inject_Z (Zpos mz))) by (split; [simpl; lia|reflexivity]).
  pose proof (round_aux_sign _ _ _ _ s Hrep He) as HR. eapply rounds_proper; [|reflexivity|exact HR].
  fold (mant (Zpos mz) ez). destruct s; by rewrite E.
Qed.

Lemma binary_normalize_rounds m e :
  rounds (mant m e) (binary_normalize prec64 emax64 m e false).
Proof.
  destruct m as [|m|m]; cbn [binary_normalize].
  - eapply rounds_proper; [|reflexivity|apply (rat_Float64_rounds 0)]. unfold mant. apply Qmult_0_l.
  - apply (binary_round_rounds false).
  - eapply rounds_proper; [|reflexivity|apply (binary_round_rounds true)].
    unfold mant. change (Zneg m) with (- Zpos m). rewrite inject_Z_opp. ring.
Qed.

(** A valid float64 is a rounding of its own value. *)
Lemma rounds_self x a : valid64 x = true -> SetFloat64 x = Some a -> rounds a x.
Proof.
  intros Vx Sx. split_and!; [done|by destruct x|]. intros t q Vt St.
  assert (Hpos : forall m e, (0 < mant (Zpos m) e)%Q)
    by (intros; apply Qmult_lt_0_compat; [reflexivity|apply pow2_pos]).
  destruct x as [sx| | |sx mx ex]; try done; destruct t as [st| | |st mt et]; try done.
  - injection Sx as <-. destruct (SetFloat64_finite st mt et) as (b & Hb & Eb). rewrite St in Hb. injection Hb as <-.
    specialize (Hpos mt et). destruct st; cbv iota in Eb; split; intros; try done; lra.
  - injection St as <-. destruct (SetFloat64_finite sx mx ex) as (b & Hb & Eb). rewrite Sx in Hb. injection Hb as <-.
    specialize (Hpos mx ex). destruct sx; cbv iota in Eb; split; intros; try done; lra.
  - destruct (SetFloat64_finite st mt et) as (b & Hb & Eb). rewrite St in Hb. injection Hb as <-.
    destruct (SetFloat64_finite sx mx ex) as (c & Hc & Ec). rewrite Sx in Hc. injection Hc as <-.
    pose proof (Hpos mx ex). pose proof (Hpos mt et).
    destruct sx, st; cbv iota in Eb, Ec; split; intros; try done; try lra.
    1: change (S754_finite true mt et) with (SFopp (S754_finite false mt et));
       change (S754_finite true mx ex) with (SFopp (S754_finite false mx ex)); rewrite SFopp_le.
    2: change (S754_finite true mt et) with (SFopp (S754_finite false mt et));
       change (S754_finite true mx ex) with (SFopp (S754_finite false mx ex)); rewrite SFopp_le.
    all: eapply f64_le_mant; [exact Vx || exact Vt..|lra].
Qed.

Lemma f64_add_rounds x y a b :
  valid64 x = true -> valid64 y = true -> SetFloat64 x = Some a -> SetFloat64 y = Some b ->
  rounds (a + b) (f64_add x y).
Proof.
  intros Vx Vy Sx Sy. destruct x as [sx| | |sx mx ex]; try done; destruct y as [sy| | |sy my ey]; try done.
  - injection Sx as <-. injection Sy as <-.
    pose proof (rat_Float64_rounds 0) as H. pose proof (rounds_opp _ _ H) as H'.
    destruct sx, sy; done.
  - injection Sx as <-. eapply rounds_proper; [|reflexivity|by apply (rounds_self _ b)]. ring.
  - injection Sy as <-. eapply rounds_proper; [|reflexivity|by apply (rounds_self _ a)]. ring.
  - destruct (SetFloat64_finite sx mx ex) as (a' & Ha & Ea). rewrite Sx in Ha. injection Ha as <-.
    destruct (SetFloat64_finite sy my ey) as (b' & Hb & Eb). rewrite Sy in Hb. injection Hb as <-.
    unfold f64_add, SFadd. pose proof (shl_align_spec mx ex (Z.min ex ey)) as H1.
    pose proof (shl_align_spec my ey (Z.min ex ey)) as H2.
    destruct (shl_align mx ex (Z.min ex ey)) as [m1 f1], (shl_align my ey (Z.min ex ey)) as [m2 f2].
    destruct H1 as [-> E1], H2 as [-> E2]. cbn [fst].
    eapply rounds_proper; [|reflexivity|apply binary_normalize_rounds].
    replace (Z.min ex (Z.min ex ey)) with (Z.min ex ey) in E1 by lia.
    replace (Z.min ey (Z.min ex ey)) with (Z.min ex ey) in E2 by lia.
    destruct sx, sy; cbv iota in Ea, Eb; rewrite Ea, Eb, <- E1, <- E2; unfold mant, cond_Zopp;
      rewrite inject_Z_plus, ?inject_Z_opp; ring.
Qed.

Lemma f64_sub_add x y : f64_sub x y = f64_add x (SFopp y) \/ (exists s t, x = S754_zero s /\ y = S754_zero t).
Proof.
  destruct x as [[]|[]| |sx mx ex], y as [[]|[]| |sy my ey]; try (left; done); try (right; eauto; fail).
  left. unfold f64_sub, f64_add, SFsub, SFadd. cbn [SFopp]. f_equal. destruct sy; simpl; lia.
Qed.

Lemma f64_sub_rounds x y a b :
  valid64 x = true -> valid64 y = true -> SetFloat64 x = Some a -> SetFloat64 y = Some b ->
  rounds (a - b) (f64_sub x y).
Proof.
  intros Vx Vy Sx Sy. destruct (f64_sub_add x y) as [->|(s & t & -> & ->)].
  - destruct (SetFloat64_opp _ _ Sy) as (b' & Sb & Eb).
    eapply rounds_proper; [|reflexivity|apply (f64_add_rounds x (SFopp y) a b')]; try done; [|by rewrite SFopp_valid].
    rewrite Eb. reflexivity.
  - injection Sx as <-. injection Sy as <-. pose proof (rat_Float64_rounds 0) as H.
    pose proof (rounds_opp _ _ H) as H'. destruct s, t; done.
Qed.

(** ** Order and value agree *)

Lemma f64_le_Q x y a b :
  valid64 x = true -> valid64 y = true -> SetFloat64 x = Some a -> SetFloat64 y = Some b ->
  f64_le x y = true <-> (a <= b)%Q.
Proof.
  intros Vx Vy Sx Sy. split; [|apply (proj2 (proj2 (rounds_self y b Vy Sy)) x a Vx Sx)].
  intros Hle. apply Qnot_lt_le. intros Hlt.
  assert (Hge : f64_le y x = true) by (apply (proj2 (proj2 (rounds_self x a Vx Sx)) y b Vy Sy); lra).
  apply f64_le_spec in Hle as (_ & _ & K1). apply f64_le_spec in Hge as (_ & _ & K2).
  assert (K : f64_key x = f64_key y).
  { destruct (f64_key x) as [[x1 x2] x3], (f64_key y) as [[y1 y2] y3]. unfold key_le in *. repeat f_equal; lia. }
  destruct x as [?| | |[] ? ?], y as [?| | |[] ? ?]; try done; simpl in K.
  - injection Sx as <-. injection Sy as <-. lra.
  - injection K as ? ?. assert (e = e0) by lia. subst. rewrite Sx in Sy. injection Sy as <-. lra.
  - injection K as ? ?. subst. rewrite Sx in Sy. injection Sy as <-. lra.
Qed.

Lemma f64_lt_Q x y a b :
  valid64 x = true -> valid64 y = true -> SetFloat64 x = Some a -> SetFloat64 y = Some b ->
  f64_lt x y = true <-> (a < b)%Q.
Proof.
  intros Vx Vy Sx Sy. assert (Nx : IsNaN x = false) by (by destruct x).
  assert (Ny : IsNaN y = false) by (by destruct y).
  rewrite f64_lt_negb_le, negb_true_iff by done. pose proof (f64_le_Q y x b a Vy Vx Sy Sx) as H.
  split; intros E.
  - apply Qnot_le_lt. intros Hle. apply H in Hle. congruence.
  - apply not_true_iff_false. intros Hle. apply H in Hle. lra.
Qed.

(** A float between two finite ones is finite, and so is its value. *)
Lemma f64_between_finite f lo hi a b :
  SetFloat64 lo = Some a -> SetFloat64 hi = Some b -> f64_le lo f = true -> f64_le f hi = true ->
  exists q, SetFloat64 f = Some q.
Proof.
  intros Sl Sh Hl Hh. apply f64_le_spec in Hl as (_ & Nf & Kl). apply f64_le_spec in Hh as (_ & _ & Kh).
  destruct f as [|s| |]; try (eexists; reflexivity); [|discriminate Nf]. exfalso.
  destruct lo as [|?| |[] ? ?], hi as [|?| |[] ? ?], s; unfold key_le in *; simpl in *; try done; lia.
Qed.

(** ** Floats by their value *)

(** [f] is the float64 of value [q]. *)
Definition f64_is (f : float64) (q : Q) : Prop :=
  valid64 f = true /\ exists a, SetFloat64 f = Some a /\ (a == q)%Q.

#[export] Instance f64_is_proper : Proper (eq ==> Qeq ==> iff) f64_is.
Proof.
  intros f f' <- q q' E. unfold f64_is. split; intros (V & a & S & Ea); (split; [done|]); exists a; (split; [done|]); lra.
Qed.

Lemma f64_is_nan f q : f64_is f q -> IsNaN f = false.
Proof. intros (_ & a & S & _). by destruct f. Qed.

Lemma f64_is_le x y a b : f64_is x a -> f64_is y b -> f64_le x y = true <-> (a <= b)%Q.
Proof.
  intros (Vx & a' & Sx & Ea) (Vy & b' & Sy & Eb). rewrite (f64_le_Q x y a' b') by done. by rewrite Ea, Eb.
Qed.

Lemma f64_is_lt x y a b : f64_is x a -> f64_is y b -> f64_lt x y = true <-> (a < b)%Q.
Proof.
  intros (Vx & a' & Sx & Ea) (Vy & b' & Sy & Eb). rewrite (f64_lt_Q x y a' b') by done. by rewrite Ea, Eb.
Qed.

Lemma f64_is_add x y a b : f64_is x a -> f64_is y b -> rounds (a + b) (f64_add x y).
Proof.
  intros (Vx & a' & Sx & Ea) (Vy & b' & Sy & Eb). rewrite <- Ea, <- Eb. by apply f64_add_rounds.
Qed.

Lemma f64_is_sub x y a b : f64_is x a -> f64_is y b -> rounds (a - b) (f64_sub x y).
Proof.
  intros (Vx & a' & Sx & Ea) (Vy & b' & Sy & Eb). rewrite <- Ea, <- Eb. by apply f64_sub_rounds.
Qed.

Lemma f64_is_mul x y a b : f64_is x a -> f64_is y b -> rounds (a * b) (f64_mul x y).
Proof.
  intros (Vx & a' & Sx & Ea) (Vy & b' & Sy & Eb). rewrite <- Ea, <- Eb. by apply f64_mul_rounds.
Qed.

Lemma f64_is_div x y a b : f64_is x a -> f64_is y b -> ~ (b == 0)%Q -> rounds (a / b) (f64_div x y).
Proof.
  intros (Vx & a' & Sx & Ea) (Vy & b' & Sy & Eb) Hb. rewrite <- Ea, <- Eb. apply f64_div_rounds; [done..|].
  by rewrite Eb.
Qed.

(** Rounding keeps a value between two floats between them. *)
Lemma rounds_range v f lo hi p q :
  rounds v f -> f64_is lo p -> f64_is hi q -> (p <= v <= q)%Q -> exists x, f64_is f x /\ (p <= x <= q)%Q.
Proof.
  intros (Vf & _ & H) Hlo Hhi [H1 H2].
  pose proof Hlo as (Vl & a & Sl & Ea). pose proof Hhi as (Vh & b & Sh & Eb).
  assert (f64_le lo f = true) as L by (apply (H lo a); [done..|lra]).
  assert (f64_le f hi = true) as G by (apply (H hi b); [done..|lra]).
  destruct (f64_between_finite f lo hi a b Sl Sh L G) as [x Sx].
  exists x. assert (Hx : f64_is f x) by (split; [done|by exists x]). split; [done|].
  apply (f64_is_le lo f p x) in L; [|done..]. apply (f64_is_le f hi x q) in G; done.
Qed.

Lemma f64_between lo f hi p q : valid64 f = true -> f64_is lo p -> f64_is hi q ->
  f64_le lo f = true -> f64_le f hi = true -> exists x, f64_is f x /\ (p <= x <= q)%Q.
Proof.
  intros Vf Hlo Hhi L G. pose proof Hlo as (Vl & a & Sl & Ea). pose proof Hhi as (Vh & b & Sh & Eb).
  destruct (f64_between_finite f lo hi a b Sl Sh L G) as [x Sx].
  exists x. assert (Hx : f64_is f x) by (split; [done|by exists x]). split; [done|].
  apply (f64_is_le lo f p x) in L; [|done..]. apply (f64_is_le f hi x q) in G; done.
Qed.

(** A constant of the code, by evaluation. *)
Lemma f64_is_const f q : valid64 f = true ->
  match SetFloat64 f with Some a => Qeq_bool a q | None => false end = true -> f64_is f q.
Proof.
  intros V E. split; [done|]. destruct (SetFloat64 f) as [a|]; [|done]. exists a. split; [done|]. by apply Qeq_bool_eq.
Qed.

Ltac f64_const := apply f64_is_const; vm_compute; reflexivity.
