(* ===== verification/Trade.v ===== *)
(** * Trades, oracle updates and decoded timestamps
    (internal/canonical/trade.go, oracle.go, safetime.go)

    The two records every source decoder produces, the invariants their
    [Validate] methods enforce, the packed operation index that keeps trades
    of one operation apart, and the guarded conversion of raw u64 timestamps. *)

From S2P Require Import Prelude GoLib Float64 Amount Asset.

(** ** Trades (trade.go) *)

Record Trade := mkTrade {
  tr_Source : string;
  tr_Ledger : Z;
  tr_TxHash : string;
  tr_OpIndex : Z;
  tr_Timestamp : Time;
  tr_Pair : Pair;
  tr_BaseAmount : Amount;
  tr_QuoteAmount : Amount;
  tr_Maker : string;
  tr_Taker : string;
  tr_RoutedVia : string
}.

#[export] Instance Trade_eq_dec : EqDecision Trade.
Proof. solve_decision. Defined.

(** [None] is the panic on an index outside 16 bits. *)
Definition FanoutOpIndex (opIndex eventIndex : Z) : option Z :=
  if (opIndex <? 0) || (0xFFFF <? opIndex) then None
  else if (eventIndex <? 0) || (0xFFFF <? eventIndex) then None
  else Some (Z.lor (wrapu 32 (Z.shiftl opIndex 16)) eventIndex).

Definition is_lower_hex (c : ascii) : bool :=
  negb (((byte_of c <? 48) || (57 <? byte_of c)) && ((byte_of c <? 97) || (102 <? byte_of c))).

Definition validTxHash (s : string) : bool :=
  if negb (String.length s =? 64)%nat then false else str_forallb is_lower_hex s.

Definition colon (a b : string) : string := a +:+ ":" +:+ b.

(** [%d] of an unsigned or signed integer is its decimal text. *)
Definition Trade_ID (t : Trade) : string :=
  colon (tr_Source t) (colon (big_String (tr_Ledger t)) (colon (tr_TxHash t)
    (colon (big_String (tr_OpIndex t)) (big_String (time_UnixNano (tr_Timestamp t)))))).

Definition wrap_err (s : sentinel) {A} (r : res error A) : res error A :=
  match r with Ok a => Ok a | Err e => Err (s :: e) end.

Definition Trade_Validate `{Strkey} (t : Trade) : res error unit :=
  _ ← guardE (negb (is_empty (tr_Source t))) [ErrInvalidTrade];
  _ ← guardE (validTxHash (tr_TxHash t)) [ErrInvalidTrade];
  _ ← guardE (negb (time_IsZero (tr_Timestamp t))) [ErrInvalidTrade];
  _ ← wrap_err ErrInvalidTrade (Pair_Validate (tr_Pair t));
  let bs := Amount_Sign (tr_BaseAmount t) in
  let qs := Amount_Sign (tr_QuoteAmount t) in
  _ ← guardE (negb (bs <? 0)) [ErrInvalidTrade];
  _ ← guardE (negb (qs <? 0)) [ErrInvalidTrade];
  guardE (negb ((bs =? 0) && (qs =? 0))) [ErrInvalidTrade].

Definition PriceRatio (t : Trade) : Z * Z :=
  (Amount_BigInt (tr_QuoteAmount t), Amount_BigInt (tr_BaseAmount t)).

Definition Trade_Equal (t o : Trade) : bool :=
  String.eqb (tr_Source t) (tr_Source o) && (tr_Ledger t =? tr_Ledger o) &&
  String.eqb (tr_TxHash t) (tr_TxHash o) && (tr_OpIndex t =? tr_OpIndex o) &&
  time_Equal (tr_Timestamp t) (tr_Timestamp o).

(** ** Oracle updates (oracle.go) *)

Record OracleUpdate := mkOracleUpdate {
  ou_Source : string;
  ou_ContractID : string;
  ou_Ledger : Z;
  ou_TxHash : string;
  ou_OpIndex : Z;
  ou_Timestamp : Time;
  ou_Asset : Asset;
  ou_Quote : Asset;
  ou_Price : Amount;
  ou_PublishedPrice : option Amount;
  ou_Decimals : Z;
  ou_Confidence : float64;
  ou_Observer : string
}.

Definition OracleUpdate_ID (u : OracleUpdate) : string :=
  colon (ou_Source u) (colon (big_String (ou_Ledger u)) (colon (ou_TxHash u)
    (big_String (ou_OpIndex u)))).

Definition maxOraclePriceWholeExp : Z := 15.

Definition maxOraclePriceRaw (decimals : Z) : Z := 10 ^ (maxOraclePriceWholeExp + decimals).

Definition validatePublishedPrice (u : OracleUpdate) : res error unit :=
  match ou_PublishedPrice u with
  | None => Ok tt
  | Some p =>
      _ ← guardE (negb (Amount_Sign p <=? 0)) [ErrInvalidOracle];
      guardE (negb (0 <? big_Cmp (Amount_BigInt p) (maxOraclePriceRaw (ou_Decimals u)))) [ErrInvalidOracle]
  end.

Definition validateAttribution `{Strkey} (u : OracleUpdate) : res error unit :=
  _ ← (if negb (is_empty (ou_Observer u))
       then wrap_err ErrInvalidOracle (validateAddress (ou_Observer u)) else Ok tt);
  if negb (is_empty (ou_ContractID u))
  then wrap_err ErrInvalidOracle (validateContractID (ou_ContractID u)) else Ok tt.

Definition OracleUpdate_Validate `{Strkey} (u : OracleUpdate) : res error unit :=
  _ ← guardE (negb (is_empty (ou_Source u))) [ErrInvalidOracle];
  _ ← guardE (negb (is_empty (ou_TxHash u))) [ErrInvalidOracle];
  _ ← guardE (validTxHash (ou_TxHash u)) [ErrInvalidOracle];
  _ ← guardE (negb (time_IsZero (ou_Timestamp u))) [ErrInvalidOracle];
  _ ← wrap_err ErrInvalidOracle (Asset_Validate (ou_Asset u));
  _ ← wrap_err ErrInvalidOracle (Asset_Validate (ou_Quote u));
  _ ← guardE (negb (Asset_Equal (ou_Asset u) (ou_Quote u))) [ErrInvalidOracle];
  _ ← guardE (negb (Amount_Sign (ou_Price u) <=? 0)) [ErrInvalidOracle];
  _ ← validatePublishedPrice u;
  _ ← guardE (negb (38 <? ou_Decimals u)) [ErrInvalidOracle];
  _ ← guardE (negb (0 <? big_Cmp (Amount_BigInt (ou_Price u)) (maxOraclePriceRaw (ou_Decimals u)))) [ErrInvalidOracle];
  _ ← guardE (negb (IsNaN (ou_Confidence u) || f64_lt (ou_Confidence u) f64_zero ||
                    f64_lt f64_one (ou_Confidence u))) [ErrInvalidOracle];
  validateAttribution u.

Definition OracleUpdate_Equal (u o : OracleUpdate) : bool :=
  String.eqb (ou_Source u) (ou_Source o) && (ou_Ledger u =? ou_Ledger o) &&
  String.eqb (ou_TxHash u) (ou_TxHash o) && (ou_OpIndex u =? ou_OpIndex o).

(** ** Raw u64 timestamps (safetime.go) *)

Definition SafeUnixFutureWindow : Duration := 24 * Hour.
Definition safeUnixEpochFloorSeconds : Z := 1000000000.

Definition SafeUnixSeconds (raw : Z) (closedAt : Time) : Time :=
  let ceil := time_Unix (time_Add closedAt SafeUnixFutureWindow) in
  if ceil <? 0 then closedAt
  else if (raw <? safeUnixEpochFloorSeconds) || (wrapu 64 ceil <? raw) then closedAt
  else unix_time (wraps 64 raw).

Definition UnboundedUnixSeconds (raw : Z) : Time * bool :=
  if MaxInt64 <? raw then (zero_time, false) else (unix_time (wraps 64 raw), true).

Definition SafeUnixMillis (raw : Z) (closedAt : Time) : Time :=
  let ceil := time_UnixMilli (time_Add closedAt SafeUnixFutureWindow) in
  if ceil <? 0 then closedAt
  else if (raw <? safeUnixEpochFloorSeconds * 1000) || (wrapu 64 ceil <? raw) then closedAt
  else unix_milli_time (wraps 64 raw).

(** ** Lemmas *)

Lemma wrap_err_ok s {A} (r : res error A) a : wrap_err s r = Ok a <-> r = Ok a.
Proof. destruct r; simpl; naive_solver. Qed.

Lemma FanoutOpIndex_value op ev :
  0 <= op <= 0xFFFF -> 0 <= ev <= 0xFFFF -> FanoutOpIndex op ev = Some (op * 2 ^ 16 + ev).
Proof.
  intros Hop Hev. unfold FanoutOpIndex. repeat (case_if; bprop; try lia).
  f_equal. rewrite Z.shiftl_mul_pow2, wrapu_small by lia.
  rewrite <- Z.shiftl_mul_pow2 by lia. rewrite Z.lor_comm.
  apply Z.bits_inj'. intros n Hn. rewrite Z.lor_spec.
  replace (Z.shiftl op 16 + ev) with (ev + op * 2 ^ 16) by (rewrite Z.shiftl_mul_pow2 by lia; lia).
  destruct (Z.lt_ge_cases n 16) as [Hlt|Hge].
  - rewrite Z.shiftl_spec_low, orb_false_r by lia.
    rewrite <- (Z.mod_pow2_bits_low (ev + op * 2 ^ 16) 16) by lia.
    rewrite Z.mod_add by lia. by rewrite Z.mod_pow2_bits_low by lia.
  - rewrite Z.shiftl_spec by lia.
    rewrite <- (Z.mod_small ev (2 ^ 16)) at 1 by lia. rewrite Z.mod_pow2_bits_high by lia. simpl.
    replace n with ((n - 16) + 16) at 2 by lia.
    rewrite <- Z.div_pow2_bits by lia. rewrite Z.div_add, Z.div_small by lia. f_equal.
Qed.

(** Every error of a guard chain under one sentinel wraps that sentinel. *)
Ltac err_chain :=
  repeat match goal with
  | H : mbind _ ?m = Err _ |- _ =>
      let E := fresh "E" in destruct m eqn:E; cbn [mbind res_bind] in H
  | H : guardE ?b _ = Err _ |- _ => unfold guardE in H; destruct b
  | H : wrap_err _ ?r = Err _ |- _ => destruct r; simpl in H
  | H : Err _ = Err _ |- _ => injection H as <-
  | H : Ok _ = Err _ |- _ => discriminate H
  end.

Lemma big_Cmp_pos x y : (0 <? big_Cmp x y) = (y <? x).
Proof.
  unfold big_Cmp. destruct (Z.compare_spec x y); symmetry;
    [apply Z.ltb_ge | apply Z.ltb_ge | apply Z.ltb_lt]; lia.
Qed.

Lemma sgn_ltb x : (Z.sgn x <? 0) = (x <? 0).
Proof. destruct x; done. Qed.
Lemma sgn_leb x : (Z.sgn x <=? 0) = (x <=? 0).
Proof. destruct x; done. Qed.
Lemma sgn_eqb x : (Z.sgn x =? 0) = (x =? 0).
Proof. destruct x; done. Qed.

#[export] Hint Rewrite big_Cmp_pos sgn_ltb sgn_leb sgn_eqb : gorw.

Lemma Trade_Validate_spec `{Strkey} t :
  Trade_Validate t = Ok tt <->
  tr_Source t <> "" /\ validTxHash (tr_TxHash t) = true /\ tr_Timestamp t <> zero_time /\
  Pair_Validate (tr_Pair t) = Ok tt /\
  0 <= Amount_BigInt (tr_BaseAmount t) /\ 0 <= Amount_BigInt (tr_QuoteAmount t) /\
  0 < Amount_BigInt (tr_BaseAmount t) + Amount_BigInt (tr_QuoteAmount t).
Proof.
  unfold Trade_Validate, time_IsZero, is_empty. autorewrite with gorw. split.
  - intros E. inv_ok. rewrite wrap_err_ok in *. bprop.
    repeat match goal with u : () |- _ => destruct u end.
    repeat split; auto; repeat match goal with
      | E : (_ && _) = false |- _ => apply andb_false_iff in E as [?|?] end; bprop; lia.
  - intros (Hs & Hh & Ht & Hp & Hb & Hq & Hbq). unfold guardE.
    rewrite Hp, Hh. apply String.eqb_neq in Hs. rewrite Hs. apply Z.eqb_neq in Ht. rewrite Ht.
    rewrite (proj2 (Z.ltb_ge _ _) Hb), (proj2 (Z.ltb_ge _ _) Hq). simpl.
    destruct (Z.eqb_spec (Amount_BigInt (tr_BaseAmount t)) 0),
      (Z.eqb_spec (Amount_BigInt (tr_QuoteAmount t)) 0); simpl; done || lia.
Qed.

(** ** Properties *)

(** The packed operation index of two trades of one transaction is equal
    only when both the operation and the event index are: the index fits a
    uint32, both halves can be read back, and out-of-range indices panic
    instead of colliding. *)
Theorem FanoutOpIndex_injective op ev v :
  FanoutOpIndex op ev = Some v <->
  (0 <= op <= 0xFFFF /\ 0 <= ev <= 0xFFFF) /\ is_uint32 v /\ v / 2 ^ 16 = op /\ v mod 2 ^ 16 = ev.
Proof.
  unfold is_uint32, MaxUint32. split.
  - intros E. assert (0 <= op <= 0xFFFF /\ 0 <= ev <= 0xFFFF) as [Hop Hev].
    { unfold FanoutOpIndex in E. repeat (case_if_in E; [done|]). bprop. lia. }
    rewrite FanoutOpIndex_value in E by done. injection E as <-.
    split; [done|]. split; [lia|]. split.
    + rewrite Z.div_add_l, Z.div_small by lia. lia.
    + rewrite Z.add_comm, Z.mod_add, Z.mod_small by lia. done.
  - intros ([Hop Hev] & Hv & Hd & Hm). rewrite FanoutOpIndex_value by done. f_equal.
    pose proof (Z.div_mod v (2 ^ 16) ltac:(lia)). lia.
Qed.

(** A decoded timestamp is trusted only inside
    [1e9 s, close time + 24 h]: the conversion returns the raw instant exactly
    when it lies in that window and the ledger close time otherwise, for every
    u64, in seconds and in milliseconds; no wrapped or far-future value ever
    leaves it. *)
Theorem SafeUnix_window raw closedAt :
  is_uint64 raw -> - SafeUnixFutureWindow <= closedAt < 2 ^ 62 * 1000000 ->
  (let t := SafeUnixSeconds raw closedAt in
   (safeUnixEpochFloorSeconds <= raw /\ raw * Second <= closedAt + SafeUnixFutureWindow ->
      t = raw * Second) /\
   (t = closedAt \/
    t = raw * Second /\ safeUnixEpochFloorSeconds <= raw /\ t <= closedAt + SafeUnixFutureWindow)) /\
  (let t := SafeUnixMillis raw closedAt in
   (safeUnixEpochFloorSeconds * 1000 <= raw /\ raw * 1000000 <= closedAt + SafeUnixFutureWindow ->
      t = raw * 1000000) /\
   (t = closedAt \/
    t = raw * 1000000 /\ safeUnixEpochFloorSeconds * 1000 <= raw /\
    t <= closedAt + SafeUnixFutureWindow)).
Proof.
  unfold is_uint64, MaxUint64, SafeUnixSeconds, SafeUnixMillis, time_Unix, time_UnixMilli, time_Add,
    unix_time, unix_milli_time, safeUnixEpochFloorSeconds.
  assert (SafeUnixFutureWindow = 86400000000000) as -> by reflexivity.
  change Second with 1000000000. intros Hr Hc.
  set (c := closedAt + 86400000000000) in *.
  pose proof (Z.div_mod c 1000000000 ltac:(lia)). pose proof (Z.mod_pos_bound c 1000000000 ltac:(lia)).
  pose proof (Z.div_mod c 1000000 ltac:(lia)). pose proof (Z.mod_pos_bound c 1000000 ltac:(lia)).
  rewrite !wrapu_small by lia. split; cbv zeta.
  all: case_if; bprop; [split; [lia | by left]|].
  all: case_if; bprop; [rewrite orb_true_iff, !Z.ltb_lt in *; split; [lia | by left]|].
  all: rewrite wraps_small by lia; split; lia.
Qed.

Lemma SafeUnix_window_witness :
  is_uint64 (2 ^ 64 - 1) /\
  SafeUnixSeconds (2 ^ 64 - 1) (1700000000 * Second) = 1700000000 * Second /\
  SafeUnixSeconds 1700000100 (1700000000 * Second) = 1700000100 * Second.
Proof.
  assert (is_uint64 (2 ^ 64 - 1)) as Hu by (unfold is_uint64, MaxUint64; lia).
  assert (is_uint64 1700000100) as Hv by (unfold is_uint64, MaxUint64; lia).
  assert (- SafeUnixFutureWindow <= 1700000000 * Second < 2 ^ 62 * 1000000) as Hw by (vm_compute; split; congruence).
  split; [exact Hu|]. split.
  - destruct (proj2 (proj1 (SafeUnix_window _ _ Hu Hw))) as [H|[H _]]; [exact H|].
    exfalso. vm_compute in H. discriminate H.
  - apply (SafeUnix_window _ _ Hv Hw). vm_compute. split; congruence.
Defined.

(** [Trade.Validate] accepts exactly the trades with a source, a
    canonical lower-case hash, a set timestamp, a valid mapped pair and
    non-negative legs that are not both zero, and every rejection wraps
    [ErrInvalidTrade], whatever inner error caused it. *)
Theorem Trade_Validate_exact `{Strkey} t :
  (Trade_Validate t = Ok tt <->
   tr_Source t <> "" /\ validTxHash (tr_TxHash t) = true /\ tr_Timestamp t <> zero_time /\
   Pair_Validate (tr_Pair t) = Ok tt /\
   0 <= Amount_BigInt (tr_BaseAmount t) /\ 0 <= Amount_BigInt (tr_QuoteAmount t) /\
   0 < Amount_BigInt (tr_BaseAmount t) + Amount_BigInt (tr_QuoteAmount t)) /\
  (forall e, Trade_Validate t = Err e -> errors_Is e ErrInvalidTrade = true).
Proof.
  split; [apply Trade_Validate_spec|]. unfold Trade_Validate. cbv zeta. intros e E.
  err_chain; apply bool_decide_eq_true_2, list_elem_of_here.
Qed.

Lemma Trade_Validate_exact_witness :
  let t := mkTrade "sdex" 5 (fmt_uint 16 (2 ^ 255)) 0 1 (mkPair NativeAsset (mkAsset AssetFiat "USD" "" ""))
    (mkAmount (Some 5)) (mkAmount None) "" "" "" in
  @Trade_Validate plain_strkey t = Ok tt.
Proof.
  cbv zeta. apply (@Trade_Validate_exact plain_strkey).
  repeat split; done || (vm_compute; congruence).
Defined.

Lemma validatePublishedPrice_bounds u p :
  validatePublishedPrice u = Ok tt -> ou_PublishedPrice u = Some p ->
  0 < Amount_BigInt p <= 10 ^ (15 + ou_Decimals u).
Proof.
  unfold validatePublishedPrice. intros E Hp. rewrite Hp in E. autorewrite with gorw in E. inv_ok. bprop.
  unfold maxOraclePriceRaw, maxOraclePriceWholeExp in *. lia.
Qed.

(** An oracle update that validates has a strictly positive price of at
    most 10^15 quote units per base unit at its declared scale (at most 38
    decimals), a confidence that is a number in [0,1], two distinct valid
    assets, and any published price under the same bounds; every rejection
    wraps [ErrInvalidOracle]. *)
Theorem OracleUpdate_Validate_bounds `{Strkey} u :
  (OracleUpdate_Validate u = Ok tt ->
   0 < Amount_BigInt (ou_Price u) <= 10 ^ (15 + ou_Decimals u) /\ ou_Decimals u <= 38 /\
   IsNaN (ou_Confidence u) = false /\
   f64_le f64_zero (ou_Confidence u) = true /\ f64_le (ou_Confidence u) f64_one = true /\
   ou_Asset u <> ou_Quote u /\
   Asset_Validate (ou_Asset u) = Ok tt /\ Asset_Validate (ou_Quote u) = Ok tt /\
   (forall p, ou_PublishedPrice u = Some p -> 0 < Amount_BigInt p <= 10 ^ (15 + ou_Decimals u))) /\
  (forall e, OracleUpdate_Validate u = Err e -> errors_Is e ErrInvalidOracle = true).
Proof.
  unfold OracleUpdate_Validate, validateAttribution. autorewrite with gorw. split.
  - intros E. inv_ok. rewrite wrap_err_ok in *. bprop.
    repeat match goal with u : () |- _ => destruct u end.
    rewrite f64_lt_negb_le in * by done. bprop. unfold maxOraclePriceRaw, maxOraclePriceWholeExp in *.
    split; [lia|]. split; [lia|]. repeat split; auto; try (by apply Asset_Equal_false);
      by eapply validatePublishedPrice_bounds.
  - unfold validatePublishedPrice. intros e E. err_chain; repeat case_match; simplify_eq; err_chain;
      apply bool_decide_eq_true_2, list_elem_of_here.
Qed.

Definition oracle_ex : OracleUpdate :=
  mkOracleUpdate "redstone" "" 7 (fmt_uint 16 (2 ^ 255)) 0 1 (mkAsset AssetCrypto "BTC" "" "")
    (mkAsset AssetFiat "USD" "" "") (mkAmount (Some 6500000000000)) None 8 f64_one "".

Lemma OracleUpdate_Validate_bounds_witness :
  @OracleUpdate_Validate plain_strkey oracle_ex = Ok tt /\
  0 < Amount_BigInt (ou_Price oracle_ex) <= 10 ^ (15 + 8).
Proof.
  assert (@OracleUpdate_Validate plain_strkey oracle_ex = Ok tt) as Hv by (vm_compute; reflexivity).
  split; [exact Hv|]. exact (proj1 (proj1 (@OracleUpdate_Validate_bounds plain_strkey oracle_ex) Hv)).
Defined.
