(* ===== verification/RobustStat.v ===== *)
(** * Exact robust statistics (internal/robuststat)

    Median, MAD and ratio-symmetric deviation over [*big.Rat], and the guard
    of the served VWAP built on them. A [*big.Rat] is a rational [Q] up to
    [==]; a nil pointer is [None]. [sort.Slice] by [Cmp] only permutes equal
    rationals, so the stable sort gives the same values. Weights and their
    running sums are [int64] and wrap. *)

From S2P Require Import Prelude GoLib.

Local Open Scope Q_scope.

(** ** Operations (robust.go) *)

Definition Qsort (l : list Q) : list Q := isort Qle_bool l.

Definition Qlt_bool (x y : Q) : bool := negb (Qle_bool y x).

(** [None] on the empty input; an index outside the slice would also be
    [None], which [Median_defined] excludes. *)
Definition Median (vals : list Q) : option Q :=
  match vals with
  | [] => None
  | _ =>
      let s := Qsort vals in
      let n := length s in
      if Nat.odd n then s !! (n / 2)%nat
      else
        lo ← s !! (n / 2 - 1)%nat;
        hi ← s !! (n / 2)%nat;
        Some ((lo + hi) / 2)
  end.

Definition MedianMember (vals : list Q) : option Q :=
  match vals with
  | [] => None
  | _ => let s := Qsort vals in s !! ((length s - 1) / 2)%nat
  end.

Definition abs_devs (vals : list Q) (centre : Q) : list Q :=
  map (fun v => Qabs (v - centre)) vals.

Definition MAD (vals : list Q) (centre : Q) : option Q := Median (abs_devs vals centre).

(** The value at position [pos] of the multiset, by a running count over the
    sorted (value, weight) rows; past the end it is the last value. *)
Fixpoint weighted_at (rows : list (Q * Z)) (cum pos : Z) : option Q :=
  match rows with
  | [] => None
  | (v, w) :: rows' =>
      let cum := wraps 64 (cum + w) in
      if (pos <? cum)%Z then Some v
      else match rows' with
           | [] => Some v
           | _ => weighted_at rows' cum pos
           end
  end.

Definition sort_rows (rows : list (Q * Z)) : list (Q * Z) :=
  isort (fun x y => Qle_bool x.1 y.1) rows.

(** [w = None] is the nil weight slice. *)
Definition WeightedMedian (vals : list Q) (w : option (list Z)) : option Q :=
  match w with
  | None => Median vals
  | Some w =>
      match vals with
      | [] => None
      | _ =>
          let rows := sort_rows (combine vals w) in
          let total := int64_sum w in
          lo ← weighted_at rows 0 (Z.quot (wraps 64 (total - 1)) 2);
          hi ← weighted_at rows 0 (Z.quot total 2);
          Some ((lo + hi) / 2)
      end
  end.

Definition madToStd : Q := 7413 # 5000.
Definition zeroScaleRelFloor : Q := 1 # 200.

Definition WeightedCentreScale (vals : list Q) (w : option (list Z)) : option (Q * Q) :=
  match vals with
  | [] => None
  | _ =>
      centre ← WeightedMedian vals w;
      mad ← WeightedMedian (abs_devs vals centre) w;
      let scale := madToStd * mad in
      let scale :=
        if Qeq_bool scale 0 then
          let floor := Qabs (zeroScaleRelFloor * centre) in
          if Qlt_bool 0 floor then floor else scale
        else scale in
      Some (centre, scale)
  end.

Definition CentreScale (vals : list Q) : option (Q * Q) := WeightedCentreScale vals None.

Definition SymmetricDev (p centre : option Q) : option Q :=
  match p, centre with
  | Some p, Some centre =>
      if Qle_bool centre 0 || Qle_bool centre p then Some (Qabs (p - centre))
      else if Qle_bool p 0 then None
      else Some ((centre - p) * centre / p)
  | _, _ => None
  end.

(** ** The served-price guard (served_guard.go) *)

Definition guardMinSamples : nat := 5.
Definition guardRatioBound : Q := 3 # 1.
Definition guardThinRatioBound : Q := 10 # 1.
Definition guardMADFactor : Q := 10 # 1.

(** The positive, non-nil trailing values. *)
Definition positives (trailing : list (option Q)) : list Q :=
  omap (fun v => match v with
                 | Some q => if Qlt_bool 0 q then Some q else None
                 | None => None
                 end) trailing.

Definition robustBand (trailing : list (option Q)) : option (Q * Q) :=
  let vals := positives trailing in
  match vals with
  | [] => None
  | _ =>
      centre ← Median vals;
      if Qle_bool centre 0 then None
      else if (length vals <? guardMinSamples)%nat then
        Some (centre / guardThinRatioBound, centre * guardThinRatioBound)
      else
        mad ← MAD vals centre;
        let lo := centre / guardRatioBound in
        let hi := centre * guardRatioBound in
        let scale := madToStd * mad in
        let half := guardMADFactor * scale in
        let madHi := centre + half in
        let madLo := centre * centre / madHi in
        let lo := if Qlt_bool madLo lo then madLo else lo in
        let hi := if Qlt_bool hi madHi then madHi else hi in
        Some (lo, hi)
  end.

Definition withinBand (v : option Q) (lo hi : Q) : bool :=
  match v with
  | None => true
  | Some v => Qle_bool lo v && Qle_bool v hi
  end.

(** The newest-first walk for the last clean bucket; index -1 when none. *)
Fixpoint last_clean (trailing : list (option Q)) (lo hi : Q) (i : Z) : option Z :=
  match trailing with
  | [] => None
  | Some v :: rest =>
      if withinBand (Some v) lo hi then Some i else last_clean rest lo hi (i + 1)
  | None :: rest => last_clean rest lo hi (i + 1)
  end.

Definition GuardServedVWAP (candidate : option Q) (trailing : list (option Q)) : bool * Z :=
  match robustBand trailing, candidate with
  | Some (lo, hi), Some c =>
      if withinBand (Some c) lo hi then (true, -1)%Z
      else match last_clean trailing lo hi 0 with
           | Some i => (false, i)
           | None => (true, -1)%Z
           end
  | _, _ => (true, -1)%Z
  end.

Definition ServedBaselineValidated (trailing : list (option Q)) : bool :=
  match robustBand trailing with Some _ => true | None => false end.

(** ** Order lemmas *)

Lemma Qle_bool_total x y : Qle_bool x y = true \/ Qle_bool y x = true.
Proof. rewrite !Qle_bool_iff. destruct (Qlt_le_dec x y); [left; lra | right; lra]. Qed.

Lemma Qle_bool_trans x y z : Qle_bool x y = true -> Qle_bool y z = true -> Qle_bool x z = true.
Proof. rewrite !Qle_bool_iff. lra. Qed.

Lemma Qlt_bool_iff x y : Qlt_bool x y = true <-> x < y.
Proof.
  unfold Qlt_bool. rewrite negb_true_iff, <- not_true_iff_false, Qle_bool_iff. split; intros; lra.
Qed.

Lemma Qle_bool_false x y : Qle_bool x y = false <-> y < x.
Proof. rewrite <- not_true_iff_false, Qle_bool_iff. split; intros; lra. Qed.

Lemma Qlt_bool_false x y : Qlt_bool x y = false <-> y <= x.
Proof. rewrite <- not_true_iff_false, Qlt_bool_iff. split; intros; lra. Qed.

Lemma Qeq_bool_false x y : Qeq_bool x y = false <-> ~ x == y.
Proof. by rewrite <- not_true_iff_false, Qeq_bool_iff. Qed.

(** Rational tests in the context, as propositions. *)
Ltac qprop :=
  bprop;
  repeat match goal with
  | H : Qle_bool _ _ = false |- _ => apply Qle_bool_false in H
  | H : Qlt_bool _ _ = true |- _ => apply Qlt_bool_iff in H
  | H : Qlt_bool _ _ = false |- _ => apply Qlt_bool_false in H
  | H : Qeq_bool _ _ = true |- _ => apply Qeq_bool_iff in H
  | H : Qeq_bool _ _ = false |- _ => apply Qeq_bool_false in H
  end.

(** [lra] with halves. *)
Ltac hlra := unfold Qdiv in *; change (/ 2) with (1 # 2) in *; lra.

Lemma Qsort_sorted l : StronglySorted Qle (Qsort l).
Proof.
  pose proof (isort_sorted Qle_bool Qle_bool_total Qle_bool_trans l) as Hs.
  unfold Qsort. induction Hs as [|x s Hs IH HF]; constructor; [done|].
  eapply Forall_impl; [exact HF|]. intros y. apply Qle_bool_iff.
Qed.

Lemma Qsort_perm l : Qsort l ≡ₚ l.
Proof. apply isort_perm. Qed.

Lemma Qsort_length l : length (Qsort l) = length l.
Proof. apply isort_length. Qed.

(** Two sorted lists with the same elements agree position by position. *)
Lemma sorted_perm_Qeq l1 l2 :
  StronglySorted Qle l1 -> StronglySorted Qle l2 -> l1 ≡ₚ l2 -> Forall2 Qeq l1 l2.
Proof.
  intros H1 H2 Hp.
  assert (forall l, StronglySorted Qle l -> StronglySorted Qle (map Qred l)) as Hr.
  { induction 1 as [|x s Hs IH HF]; simpl; constructor; [done|].
    apply Forall_map. eapply Forall_impl; [exact HF|]. intros y Hy. simpl. by rewrite !Qred_correct. }
  assert (map Qred l1 = map Qred l2) as E.
  { eapply (StronglySorted_unique_strong Qle); [|by apply Hr..|by apply Permutation_map].
    intros x y (a & -> & _)%list_elem_of_fmap (b & -> & _)%list_elem_of_fmap Hab Hba.
    rewrite !Qred_correct in Hab, Hba. apply Qred_complete. lra. }
  clear -E. revert l2 E. induction l1 as [|x l1 IH]; intros [|y l2] E; simplify_eq/=; constructor.
  - rewrite <- (Qred_correct x), <- (Qred_correct y). by rewrite H.
  - auto.
Qed.

(** ** Medians *)

Lemma div2_bounds n : (0 < n -> (n - 1) / 2 < n /\ n / 2 < n /\ (n - 1) / 2 <= n / 2)%nat.
Proof.
  intros Hn. pose proof (Nat.div_lt n 2). pose proof (Nat.Div0.div_le_mono (n - 1) n 2). lia.
Qed.

(** The two central values of the sorted input; equal for odd lengths. *)
Lemma Median_central vals m :
  Median vals = Some m ->
  exists lo hi, Qsort vals !! ((length vals - 1) / 2)%nat = Some lo /\
    Qsort vals !! (length vals / 2)%nat = Some hi /\ m == (lo + hi) / 2.
Proof.
  unfold Median. destruct vals as [|v vals]; [done|]. rewrite Qsort_length.
  remember (v :: vals) as l. destruct (Nat.odd (length l)) eqn:Eo.
  - intros E. exists m, m. apply Nat.odd_spec in Eo as [k Hk]. rewrite Hk in *.
    replace (2 * k + 1 - 1)%nat with (k * 2)%nat by lia.
    replace (2 * k + 1)%nat with (1 + k * 2)%nat in * by lia.
    rewrite Nat.div_mul, Nat.div_add in * by lia. simpl in *. repeat split; auto. hlra.
  - intros E. apply bind_Some in E as (lo & Elo & (hi & Ehi & [= <-])%bind_Some).
    exists lo, hi. rewrite <- Nat.negb_even, negb_false_iff in Eo. apply Nat.even_spec in Eo as [k Hk].
    rewrite Hk in *. replace (2 * k)%nat with (k * 2)%nat in * by lia. rewrite Nat.div_mul in * by lia.
    assert (k <> 0)%nat by (subst l; simpl in Hk; lia).
    replace ((k * 2 - 1) / 2)%nat with (k - 1)%nat; [done|].
    replace (k * 2 - 1)%nat with (1 + (k - 1) * 2)%nat by lia.
    by rewrite Nat.div_add by lia.
Qed.

Lemma Median_defined vals : vals <> [] -> is_Some (Median vals).
Proof.
  intros Hne. unfold Median. destruct vals as [|v vals]; [done|]. rewrite Qsort_length.
  remember (v :: vals) as l. assert (0 < length l)%nat by (subst; simpl; lia).
  destruct (div2_bounds (length l)) as (H1 & H2 & H3); [done|].
  assert (forall i, (i < length l)%nat -> is_Some (Qsort l !! i)) as Hs
    by (intros; apply lookup_lt_is_Some_2; by rewrite Qsort_length).
  destruct (Hs (length l / 2)%nat) as [hi Hhi]; [lia|]. rewrite Hhi.
  destruct (Nat.odd (length l)) eqn:Eo; [done|].
  destruct (Hs (length l / 2 - 1)%nat) as [lo Hlo]; [lia|]. rewrite Hlo. done.
Qed.

Lemma Qsort_lookup_le l i j x y :
  Qsort l !! i = Some x -> Qsort l !! j = Some y -> (i <= j)%nat -> x <= y.
Proof. apply sorted_lookup_le; [apply Qle_refl | apply Qsort_sorted]. Qed.

Lemma Qsort_lookup_elem l i x : Qsort l !! i = Some x -> x ∈ l.
Proof. intros. rewrite <- (Qsort_perm l). by eapply list_elem_of_lookup_2. Qed.

(** A median lies between two members, at or below and at or above it. *)
Lemma Median_between vals m :
  Median vals = Some m -> exists lo hi, lo ∈ vals /\ hi ∈ vals /\ lo <= m <= hi /\ m == (lo + hi) / 2.
Proof.
  intros E. assert (vals <> []) by (by destruct vals).
  destruct (Median_central _ _ E) as (lo & hi & Hlo & Hhi & Hm).
  pose proof (div2_bounds (length vals)) as Hd.
  assert (lo <= hi).
  { eapply Qsort_lookup_le; eauto. destruct vals; [done|]. simpl length in *. lia. }
  exists lo, hi. split; [by eapply Qsort_lookup_elem|]. split; [by eapply Qsort_lookup_elem|].
  split; [hlra | done].
Qed.

Lemma Median_pos vals m : Forall (fun v => 0 < v) vals -> Median vals = Some m -> 0 < m.
Proof.
  intros HF E. apply Median_between in E as (lo & hi & Hlo & Hhi & ? & _).
  rewrite Forall_forall in HF. pose proof (HF _ Hlo). hlra.
Qed.

Lemma Median_nonneg vals m : Forall (fun v => 0 <= v) vals -> Median vals = Some m -> 0 <= m.
Proof.
  intros HF E. apply Median_between in E as (lo & hi & Hlo & Hhi & ? & _).
  rewrite Forall_forall in HF. pose proof (HF _ Hlo). hlra.
Qed.

(** Counting against an element of the sorted list. *)
Lemma sorted_count_le s i x m :
  StronglySorted Qle s -> s !! i = Some x -> x <= m ->
  (S i <= countb (fun v => Qle_bool v m) s)%nat.
Proof.
  intros Hs; revert i; induction Hs as [|y s Hs IH HF]; intros i Hi Hx; [done|]. simpl.
  assert (y <= m).
  { destruct i; simplify_eq/=; [done|]. rewrite Forall_forall in HF.
    pose proof (HF x (list_elem_of_lookup_2 _ _ _ Hi)). hlra. }
  rewrite (proj2 (Qle_bool_iff y m)) by done. destruct i as [|i]; [lia|].
  specialize (IH i Hi Hx). lia.
Qed.

Lemma sorted_count_ge s i x m :
  StronglySorted Qle s -> s !! i = Some x -> m <= x ->
  (length s - i <= countb (fun v => Qle_bool m v) s)%nat.
Proof.
  intros Hs; revert i; induction Hs as [|y s Hs IH HF]; intros i Hi Hx; [done|]. simpl.
  destruct i as [|i]; simplify_eq/=.
  - rewrite (proj2 (Qle_bool_iff m x)) by done. rewrite countb_all; [lia|].
    eapply Forall_impl; [exact HF|]. intros v Hv. simpl. apply Qle_bool_iff. hlra.
  - specialize (IH i Hi Hx). case_if; lia.
Qed.

(** The median has at least half of the values at or below it and at
    least half at or above it; so fewer than half corrupted prints can never
    push it outside the range of the honest ones. *)
Theorem Median_majority vals m :
  Median vals = Some m ->
  (length vals <= 2 * countb (fun v => Qle_bool v m) vals)%nat /\
  (length vals <= 2 * countb (fun v => Qle_bool m v) vals)%nat.
Proof.
  intros E. destruct (Median_central _ _ E) as (lo & hi & Hlo & Hhi & Hm).
  assert (0 < length vals)%nat by (destruct vals; [done | simpl; lia]).
  assert (lo <= hi).
  { eapply Qsort_lookup_le; eauto. pose proof (div2_bounds (length vals)). lia. }
  rewrite <- !(countb_perm _ _ _ (Qsort_perm vals)).
  pose proof (sorted_count_le _ _ _ m (Qsort_sorted vals) Hlo ltac:(hlra)).
  pose proof (sorted_count_ge _ _ _ m (Qsort_sorted vals) Hhi ltac:(hlra)).
  rewrite Qsort_length in *. pose proof (Nat.div_mod_eq (length vals) 2).
  pose proof (Nat.div_mod_eq (length vals - 1) 2).
  pose proof (Nat.mod_upper_bound (length vals) 2). pose proof (Nat.mod_upper_bound (length vals - 1) 2).
  lia.
Qed.

Lemma Median_majority_witness :
  Median [5#1; 1#1; 3#1; 100#1] = Some (((3#1) + (5#1)) / 2) /\
  (4 <= 2 * countb (fun v => Qle_bool v (((3#1) + (5#1)) / 2)) [5#1; 1#1; 3#1; 100#1])%nat.
Proof.
  split; [vm_compute; reflexivity|]. apply (Median_majority [5#1; 1#1; 3#1; 100#1]).
  vm_compute. reflexivity.
Defined.

(** ** Weighted medians *)

(** The multiset a weighted slice stands for: value [v] repeated [w] times. *)
Definition expand (rows : list (Q * Z)) : list Q :=
  concat (map (fun r => replicate (Z.to_nat r.2) r.1) rows).

Lemma expand_cons v w rows : expand ((v, w) :: rows) = replicate (Z.to_nat w) v ++ expand rows.
Proof. done. Qed.

Lemma expand_length rows :
  Forall (fun r => (1 <= r.2)%Z) rows -> Z.of_nat (length (expand rows)) = zsum (map snd rows).
Proof.
  induction 1 as [|[v w] rows Hw HF IH]; [done|].
  rewrite expand_cons, length_app, length_replicate. simpl in *. lia.
Qed.

Lemma expand_perm rows rows' : rows ≡ₚ rows' -> expand rows ≡ₚ expand rows'.
Proof.
  induction 1 as [|[v w] l l' _ IH|[v w] [v' w'] l|l1 l2 l3 _ IH1 _ IH2]; rewrite ?expand_cons.
  - done.
  - by rewrite IH.
  - rewrite !app_assoc. apply Permutation_app_tail, Permutation_app_comm.
  - by rewrite IH1.
Qed.

Lemma elem_of_expand q rows : q ∈ expand rows -> exists w, (q, w) ∈ rows.
Proof.
  induction rows as [|[v w] rows IH]; rewrite ?expand_cons; [by intros ?%elem_of_nil|].
  rewrite elem_of_app, elem_of_replicate. intros [[-> _]|Hq].
  - exists w. apply list_elem_of_here.
  - destruct (IH Hq) as [w' Hw']. exists w'. by apply list_elem_of_further.
Qed.

Lemma expand_sorted rows :
  StronglySorted (fun x y => Qle_bool x.1 y.1 = true) rows -> StronglySorted Qle (expand rows).
Proof.
  induction 1 as [|[v w] rows Hs IH HF]; [constructor|]. rewrite expand_cons.
  induction (Z.to_nat w) as [|n IHn]; simpl; [done|]. constructor; [done|].
  apply Forall_app. split; [apply Forall_replicate; hlra|].
  rewrite Forall_forall in HF. apply Forall_forall. intros q [w' Hq]%elem_of_expand.
  specialize (HF _ Hq). by apply Qle_bool_iff in HF.
Qed.

Lemma weighted_at_lookup rows cum pos :
  Forall (fun r => (1 <= r.2)%Z) rows -> (0 <= cum)%Z -> (cum <= pos < cum + zsum (map snd rows))%Z ->
  (cum + zsum (map snd rows) <= MaxInt64)%Z ->
  weighted_at rows cum pos = expand rows !! Z.to_nat (pos - cum).
Proof.
  intros HF; revert cum; induction HF as [|[v w] rows Hw HF IH]; intros cum H0 Hp Hm; simpl in *; [lia|].
  assert (0 <= zsum (map snd rows))%Z
    by (apply zsum_nonneg, Forall_map; eapply Forall_impl; [exact HF|]; simpl; lia).
  unfold MaxInt64 in *. rewrite expand_cons, wraps_small by lia. case_if; qprop.
  - rewrite lookup_app_l by (rewrite length_replicate; lia). symmetry. apply lookup_replicate_2. lia.
  - rewrite lookup_app_r, length_replicate by (rewrite length_replicate; lia).
    destruct rows as [|r rows]; [simpl in *; lia|]. rewrite IH by lia. f_equal. lia.
Qed.

Lemma Forall2_lookup_Qeq l1 l2 i x :
  Forall2 Qeq l1 l2 -> l1 !! i = Some x -> exists y, l2 !! i = Some y /\ x == y.
Proof. intros HF Hx. destruct (Forall2_lookup_l _ _ _ _ _ HF Hx) as (y & ? & ?). eauto. Qed.

Lemma to_nat_half n :
  (0 < n)%nat ->
  Z.to_nat ((Z.of_nat n - 1) / 2) = ((n - 1) / 2)%nat /\ Z.to_nat (Z.of_nat n / 2) = (n / 2)%nat.
Proof.
  intros Hn. split.
  - rewrite <- (Nat2Z.id ((n - 1) / 2)), Nat2Z.inj_div. f_equal. f_equal. lia.
  - by rewrite <- (Nat2Z.id (n / 2)), Nat2Z.inj_div.
Qed.

(** The sorted rows of a weighted slice, against the multiset they stand for. *)
Lemma sort_rows_expand vals w :
  length w = length vals -> Forall (fun k => (1 <= k)%Z) w ->
  let rows := sort_rows (combine vals w) in
  Forall (fun r => (1 <= r.2)%Z) rows /\ zsum (map snd rows) = zsum w /\
  length (expand (combine vals w)) = length (expand rows) /\
  Z.of_nat (length (expand rows)) = zsum w /\
  Forall2 Qeq (expand rows) (Qsort (expand (combine vals w))).
Proof.
  intros Hlen Hw rows. assert (rows ≡ₚ combine vals w) as Hp by apply isort_perm.
  assert (Forall (fun r => (1 <= r.2)%Z) rows) as Hr.
  { rewrite Hp. clear -Hlen Hw. revert vals Hlen.
    induction Hw as [|k w Hk Hw IH]; intros [|v vals] Hlen; simpl in *; auto. }
  assert (zsum (map snd rows) = zsum w) as Hz.
  { rewrite (zsum_perm _ _ (Permutation_map snd Hp)). f_equal. clear -Hlen. revert vals Hlen.
    induction w as [|k w IH]; intros [|v vals] H; simpl in *; auto; [done|]. by rewrite IH by lia. }
  split; [done|]. split; [done|].
  split; [by apply Permutation_length, expand_perm|]. split; [by rewrite <- Hz; apply expand_length|].
  apply sorted_perm_Qeq; [|apply Qsort_sorted|rewrite Qsort_perm; by apply expand_perm].
  apply expand_sorted, isort_sorted; intros *; [apply Qle_bool_total | apply Qle_bool_trans].
Qed.

Lemma half_bounds n : (0 < n)%Z -> (0 <= (n - 1) / 2 < n)%Z /\ (0 <= n / 2 < n)%Z.
Proof.
  intros. pose proof (Z.div_mod n 2). pose proof (Z.div_mod (n - 1) 2).
  pose proof (Z.mod_pos_bound n 2). pose proof (Z.mod_pos_bound (n - 1) 2). lia.
Qed.

(** The two values a weighted median averages. *)
Lemma WeightedMedian_lookup vals w :
  vals <> [] -> length w = length vals -> Forall (fun k => (1 <= k)%Z) w -> (zsum w <= MaxInt64)%Z ->
  let e := expand (sort_rows (combine vals w)) in
  WeightedMedian vals (Some w) =
  (lo ← e !! ((length e - 1) / 2)%nat; hi ← e !! (length e / 2)%nat; Some ((lo + hi) / 2)).
Proof.
  intros Hne Hlen Hw Hmax e. destruct (sort_rows_expand vals w Hlen Hw) as (Hr & Hz & _ & El & _). fold e in El.
  assert (0 < zsum w)%Z as Hpos.
  { apply zsum_pos; [by destruct w, vals|]. eapply Forall_impl; [exact Hw|]. simpl. lia. }
  unfold WeightedMedian. destruct vals as [|v vals]; [done|].
  rewrite int64_sum_eq by first [done | eapply Forall_impl; [exact Hw|]; simpl; lia].
  pose proof (half_bounds _ Hpos). unfold MaxInt64 in *. rewrite wraps_small by lia.
  rewrite !Z.quot_div_nonneg, !weighted_at_lookup by (unfold MaxInt64; auto; rewrite ?Hz; lia).
  rewrite !Z.sub_0_r, <- El. destruct (to_nat_half (length e)) as [-> ->]; [lia|]. done.
Qed.

Lemma WeightedMedian_multiset vals w :
  vals <> [] -> length w = length vals -> Forall (fun k => (1 <= k)%Z) w -> (zsum w <= MaxInt64)%Z ->
  exists m m', WeightedMedian vals (Some w) = Some m /\
    Median (expand (combine vals w)) = Some m' /\ m == m'.
Proof.
  intros Hne Hlen Hw Hmax. rewrite WeightedMedian_lookup by done.
  destruct (sort_rows_expand vals w Hlen Hw) as (Hr & Hz & Ec & El & HQ).
  set (e := expand (sort_rows (combine vals w))) in *.
  destruct (Median_defined (expand (combine vals w))) as [m' Hm'].
  { intros E. rewrite E in Ec. simpl in Ec. destruct vals, w; try done. inversion Hw; subst.
    assert (0 <= zsum w)%Z by (apply zsum_nonneg; eapply Forall_impl; [done|]; simpl; lia). simpl in El. lia. }
  destruct (Median_central _ _ Hm') as (lo & hi & Hlo & Hhi & Hm). rewrite Ec in *.
  destruct (Forall2_lookup_r _ _ _ _ _ HQ Hlo) as (lo' & -> & Qlo).
  destruct (Forall2_lookup_r _ _ _ _ _ HQ Hhi) as (hi' & -> & Qhi).
  exists ((lo' + hi') / 2), m'. split; [done|]. split; [done|]. rewrite Hm, Qlo, Qhi. reflexivity.
Qed.

(** The weighted median of summary rows is the plain median of the
    multiset they stand for, so a row of [w] trades weighs exactly as its
    trades, as long as the trade count fits an int64; and both are defined on
    a non-empty input. *)
Theorem WeightedMedian_expand vals w :
  vals <> [] -> length w = length vals -> Forall (fun k => (1 <= k)%Z) w -> (zsum w <= MaxInt64)%Z ->
  exists m m', WeightedMedian vals (Some w) = Some m /\
    Median (expand (combine vals w)) = Some m' /\ m == m'.
Proof. apply WeightedMedian_multiset. Qed.

Lemma WeightedMedian_expand_witness :
  WeightedMedian [5#1; 1#1] (Some [1; 3]%Z) = Some (((1#1) + (1#1)) / 2) /\
  exists m m', WeightedMedian [5#1; 1#1] (Some [1; 3]%Z) = Some m /\
    Median (expand (combine [5#1; 1#1] [1; 3]%Z)) = Some m' /\ m == m'.
Proof.
  split; [vm_compute; reflexivity|].
  apply (WeightedMedian_expand [5#1; 1#1] [1; 3]%Z); [done | done | repeat constructor; lia | vm_compute; congruence].
Defined.

(** ** The served-price guard *)

Lemma positives_spec trailing q :
  q ∈ positives trailing <-> Some q ∈ trailing /\ 0 < q.
Proof.
  unfold positives. rewrite list_elem_of_omap. split.
  - intros ([v|] & Hv & E); [|done]. destruct (Qlt_bool 0 v) eqn:Ev; [|done].
    injection E as <-. qprop. done.
  - intros [Hq Hp]. exists (Some q). split; [done|]. apply Qlt_bool_iff in Hp. by rewrite Hp.
Qed.

Lemma positives_pos trailing : Forall (fun q => 0 < q) (positives trailing).
Proof. apply Forall_forall. intros q [_ Hq]%positives_spec. done. Qed.

Lemma Qdiv_pos a b : 0 < a -> 0 < b -> 0 < a / b.
Proof. intros. unfold Qdiv. apply Qmult_lt_0_compat; [done | by apply Qinv_lt_0_compat]. Qed.

Lemma abs_devs_nonneg vals c : Forall (fun v => 0 <= v) (abs_devs vals c).
Proof. apply Forall_map, Forall_forall. intros. apply Qabs_nonneg. Qed.

(** The band is centred on the median of the positive history, its lower edge
    is strictly positive, and it always spans a factor three either side. *)
Lemma robustBand_spec trailing lo hi :
  robustBand trailing = Some (lo, hi) ->
  exists centre, Median (positives trailing) = Some centre /\
    0 < lo /\ lo <= centre * (1 # 3) /\ centre * 3 <= hi.
Proof.
  unfold robustBand. destruct (positives trailing) as [|v vals] eqn:Ev; [done|].
  rewrite <- Ev. clear Ev v vals. set (vals := positives trailing).
  intros (centre & Hc & E)%bind_Some. exists centre. split; [done|].
  pose proof (Median_pos _ _ (positives_pos trailing) Hc) as Hp.
  case_if_in E; [done|]. unfold guardThinRatioBound, guardRatioBound, guardMADFactor in E.
  case_if_in E.
  - injection E as <- <-. unfold Qdiv. change (/ (10 # 1)) with (1 # 10). repeat split; lra.
  - apply bind_Some in E as (mad & Hmad & [= <- <-]).
    pose proof (Median_nonneg _ _ (abs_devs_nonneg _ _) Hmad) as Hm.
    assert (0 < centre + (10 # 1) * (madToStd * mad)) as Hhi by (unfold madToStd; lra).
    pose proof (Qdiv_pos (centre * centre) _ ltac:(by apply Qmult_lt_0_compat) Hhi) as Hlo.
    repeat split; repeat case_if; qprop; unfold Qdiv in *; change (/ (3 # 1)) with (1 # 3) in *; lra.
Qed.

(** Some member of the history lies in the band. *)
Lemma band_has_member trailing lo hi :
  robustBand trailing = Some (lo, hi) -> exists v, Some v ∈ trailing /\ lo <= v <= hi.
Proof.
  intros Hb. destruct (robustBand_spec _ _ _ Hb) as (c & Hc & Hlo & Hlc & Hch).
  destruct (Median_between _ _ Hc) as (x & y & Hx & Hy & Hxy & Hm).
  apply positives_spec in Hx as [_ Hx], Hy as [Hy _]. exists y. split; [done|]. hlra.
Qed.

Lemma last_clean_spec trailing lo hi k :
  (exists v, Some v ∈ trailing /\ lo <= v <= hi) ->
  exists i v, last_clean trailing lo hi k = Some (k + Z.of_nat i)%Z /\
    trailing !! i = Some (Some v) /\ lo <= v <= hi /\
    forall j w, (j < i)%nat -> trailing !! j = Some (Some w) -> ~ (lo <= w <= hi).
Proof.
  revert k; induction trailing as [|o rest IH]; intros k (v & Hv & Hband); [by apply elem_of_nil in Hv|].
  assert (Some v ∈ rest -> exists i v, last_clean rest lo hi (k + 1) = Some (k + Z.of_nat (S i))%Z /\
    rest !! i = Some (Some v) /\ lo <= v <= hi /\
    forall j w, (j < i)%nat -> rest !! j = Some (Some w) -> ~ (lo <= w <= hi)) as Hrest.
  { intros Hr. destruct (IH (k + 1)%Z) as (i & u & Hi & Hu); [eauto|].
    exists i, u. split; [|done]. rewrite Hi. f_equal. lia. }
  apply elem_of_cons in Hv. destruct o as [u|]; simpl.
  - destruct (Qle_bool lo u && Qle_bool u hi) eqn:Eb; qprop.
    + exists 0%nat, u. split; [f_equal; lia|]. split; [done|]. split; [done|]. lia.
    + destruct Hrest as (i & x & Hi & Hx & Hx' & Hn).
      { destruct Hv as [[= <-]|Hv]; [|done]. exfalso. rewrite andb_false_iff in Eb.
        destruct Eb; qprop; lra. }
      exists (S i), x. repeat split; auto; try apply Hx'. intros [|j] w Hj Hw Hc; simplify_eq/=.
      * rewrite andb_false_iff in Eb. destruct Eb; qprop; lra.
      * eapply Hn; eauto. lia.
  - destruct Hv as [Hv|Hv]; [done|]. destruct (Hrest Hv) as (i & x & Hi & Hx & Hx' & Hn).
    exists (S i), x. repeat split; auto; try apply Hx'. intros [|j] w Hj Hw; simplify_eq/=.
    eapply Hn; eauto. lia.
Qed.

(** With a usable baseline the guard never fails open. A candidate is
    served exactly when it lies in the band, whose edges are at least a factor
    three around the median of the positive history and whose lower edge is
    strictly positive; any other candidate is refused and the newest in-band
    bucket is named instead, so the "no clean member" fallback is dead code. *)
Theorem GuardServedVWAP_sound trailing lo hi c :
  robustBand trailing = Some (lo, hi) ->
  (exists centre, Median (positives trailing) = Some centre /\
     0 < lo /\ lo <= centre * (1 # 3) /\ centre * 3 <= hi) /\
  match GuardServedVWAP (Some c) trailing with
  | (true, i) => i = (-1)%Z /\ lo <= c <= hi
  | (false, i) =>
      ~ (lo <= c <= hi) /\
      exists n v, i = Z.of_nat n /\ trailing !! n = Some (Some v) /\ lo <= v <= hi /\
        forall j w, (j < n)%nat -> trailing !! j = Some (Some w) -> ~ (lo <= w <= hi)
  end.
Proof.
  intros Hb. split; [by apply robustBand_spec|]. unfold GuardServedVWAP. rewrite Hb. simpl.
  destruct (Qle_bool lo c && Qle_bool c hi) eqn:Ec; qprop; [done|].
  destruct (last_clean_spec trailing lo hi 0 (band_has_member _ _ _ Hb)) as (i & v & Hi & Hv).
  rewrite Hi. split; [|by exists i, v].
  rewrite andb_false_iff in Ec. destruct Ec; qprop; lra.
Qed.

Lemma GuardServedVWAP_sound_witness :
  let trailing := [Some (100#1); Some (1#1); None; Some (1#1); Some (9#10); Some (11#10)] in
  GuardServedVWAP (Some (50#1)) trailing = (false, 1)%Z /\ ~ ((1#3) <= (50#1) <= (3#1)).
Proof.
  split; [vm_compute; reflexivity|].
  pose proof (GuardServedVWAP_sound [Some (100#1); Some (1#1); None; Some (1#1); Some (9#10); Some (11#10)]
    _ _ (50#1) ltac:(vm_compute; reflexivity)) as [_ H].
  destruct (GuardServedVWAP (Some (50#1)) _) as [[] i] eqn:E; [vm_compute in E; discriminate E|].
  intros Hb. lra.
Defined.

(** ** The statistics on their own terms *)

(** [m] is the middle of [l]: the mean of the two middle ones of its values in
    ascending order (the same one for an odd number of them). *)
Definition middle (l : list Q) (m : Q) : Prop :=
  exists s lo hi, s ≡ₚ l /\ StronglySorted Qle s
    /\ s !! ((length l - 1) / 2)%nat = Some lo /\ s !! (length l / 2)%nat = Some hi /\ m == (lo + hi) / 2.

Lemma Median_middle vals m : Median vals = Some m -> middle vals m.
Proof.
  intros (lo & hi & Hlo & Hhi & Hm)%Median_central. exists (Qsort vals), lo, hi.
  split; [apply Qsort_perm|]. split; [apply Qsort_sorted|]. done.
Qed.

(** There is one middle. *)
Lemma middle_unique l m m' : middle l m -> middle l m' -> m == m'.
Proof.
  intros (s & lo & hi & Hs & Hss & Hlo & Hhi & Hm) (s' & lo' & hi' & Hs' & Hss' & Hlo' & Hhi' & Hm').
  assert (Forall2 Qeq s s') as HF by (apply sorted_perm_Qeq; [done..|by rewrite Hs]).
  assert (lo == lo') as E1 by (by apply (Forall2_lookup_lr _ _ _ _ _ _ HF Hlo)).
  assert (hi == hi') as E2 by (by apply (Forall2_lookup_lr _ _ _ _ _ _ HF Hhi)).
  by rewrite Hm, Hm', E1, E2.
Qed.

(** The band of a history: a factor ten either side of its middle when it has
    fewer than five values; else at least a factor three, and as far as ten
    times 1.4826 times the middle distance from the middle, the lower edge
    mirrored by ratio. *)
Definition band_of (vals : list Q) (lo hi : Q) : Prop :=
  exists m, middle vals m /\ 0 < m /\
    if (length vals <? 5)%nat then lo == m * (1 # 10) /\ hi == m * (10 # 1)
    else exists d, middle (map (fun v => Qabs (v - m)) vals) d /\ 0 <= d /\
           let w := m + (10 # 1) * ((7413 # 5000) * d) in
           lo == (if Qle_bool (m * (1 # 3)) (m * m / w) then m * (1 # 3) else m * m / w)
           /\ hi == (if Qle_bool w (m * (3 # 1)) then m * (3 # 1) else w).

Lemma robustBand_band trailing :
  match robustBand trailing with
  | Some (lo, hi) => band_of (positives trailing) lo hi
  | None => positives trailing = []
  end.
Proof.
  unfold robustBand. destruct (positives trailing) as [|v vals] eqn:Ev; [done|].
  rewrite <- Ev. assert (positives trailing <> []) as Hne by (by rewrite Ev). clear Ev v vals.
  destruct (Median_defined _ Hne) as [m Hm]. rewrite Hm. cbn [mbind option_bind].
  pose proof (Median_pos _ _ (positives_pos trailing) Hm) as Hp.
  destruct (Qle_bool m 0) eqn:E0; [apply Qle_bool_iff in E0; lra|].
  unfold band_of, guardMinSamples, guardThinRatioBound, guardRatioBound, guardMADFactor, MAD, madToStd.
  destruct (length (positives trailing) <? 5)%nat eqn:E5.
  - exists m. split; [by apply Median_middle|]. split; [done|].
    unfold Qdiv. change (/ (10 # 1)) with (1 # 10). split; reflexivity.
  - assert (abs_devs (positives trailing) m <> []) as Hd by (unfold abs_devs; by destruct (positives trailing)).
    destruct (Median_defined _ Hd) as [d Hmd]. rewrite Hmd. cbn [mbind option_bind].
    pose proof (Median_nonneg _ _ (abs_devs_nonneg _ _) Hmd) as Hd0.
    exists m. split; [by apply Median_middle|]. split; [done|]. exists d. split; [by apply Median_middle|]. split; [done|].
    unfold Qlt_bool. change (m / (3 # 1)) with (m * (1 # 3)).
    split; [destruct (Qle_bool (m * (1 # 3)) _)|destruct (Qle_bool (m + _) _)]; reflexivity.
Qed.

(** The band is one up to the representation of its edges. *)
Lemma middle_proper l l' m m' : Forall2 Qeq l l' -> m == m' -> middle l m -> middle l' m'.
Proof.
  intros HF Em (s & lo & hi & Hs & Hss & Hlo & Hhi & Hm).
  assert (exists s', s' ≡ₚ l' /\ Forall2 Qeq s s') as (s' & Hs' & HF').
  { clear - Hs HF. revert l' HF. symmetry in Hs. induction Hs; intros l0 HF.
    - exists l0. by inversion HF.
    - inversion HF as [|? y ? l2 Hy Hl]; subst. destruct (IHHs l2 Hl) as (s' & ? & ?). exists (y :: s'). by split; [constructor|constructor].
    - inversion HF as [|? a ? l2 Ha Hl]; subst. inversion Hl as [|? b ? l3 Hb Hl3]; subst.
      exists (b :: a :: l3). split; [constructor|by repeat constructor].
    - destruct (IHHs1 l0 HF) as (s1 & H1 & HF1). destruct (IHHs2 s1 HF1) as (s2 & H2 & HF2). exists s2. split; [by rewrite H2|done]. }
  assert (length l' = length l) as El by (symmetry; by apply (Forall2_length _ _ _ HF)).
  assert (StronglySorted Qle s') as Hss'.
  { clear - Hss HF'. revert s' HF'. induction Hss as [|x s Hs IH Hx]; intros s' HF'; inversion HF' as [|? y ? s2 Hy Hl]; subst; constructor; [auto|].
    apply Forall_lookup. intros i z Hz. apply (Forall2_lookup_r _ _ _ _ _ Hl) in Hz as (z0 & Hz0 & Ez).
    rewrite Forall_lookup in Hx. rewrite <- Hy, <- Ez. by eapply Hx. }
  apply (Forall2_lookup_l _ _ _ _ _ HF') in Hlo as (lo' & Hlo' & E1), Hhi as (hi' & Hhi' & E2).
  exists s', lo', hi'. rewrite El. split_and!; try done. by rewrite <- Em, Hm, E1, E2.
Qed.

Lemma Qle_bool_proper a a' b b' : a == a' -> b == b' -> Qle_bool a b = Qle_bool a' b'.
Proof. intros Ea Eb. apply eq_true_iff_eq. by rewrite !Qle_bool_iff, Ea, Eb. Qed.

Lemma band_unique vals lo hi lo' hi' : band_of vals lo hi -> band_of vals lo' hi' -> lo == lo' /\ hi == hi'.
Proof.
  intros (m & Hm & _ & H1) (m' & Hm' & _ & H2). pose proof (middle_unique _ _ _ Hm Hm') as Em.
  destruct (length vals <? 5)%nat.
  - destruct H1 as [-> ->], H2 as [-> ->]. rewrite Em. done.
  - destruct H1 as (d & Hd & _ & -> & ->), H2 as (d' & Hd' & _ & -> & ->).
    assert (d == d') as Ed.
    { eapply middle_unique; [|exact Hd']. eapply middle_proper; [|reflexivity|exact Hd].
      clear -Em. induction vals as [|v vals IH]; cbn [map]; [constructor|]. constructor; [|exact IH]. rewrite Em. reflexivity. }
    set (w := m + (10 # 1) * ((7413 # 5000) * d)). set (w' := m' + (10 # 1) * ((7413 # 5000) * d')).
    assert (w == w') as Ew by (unfold w, w'; by rewrite Em, Ed).
    rewrite (Qle_bool_proper (m * (1 # 3)) (m' * (1 # 3)) (m * m / w) (m' * m' / w')) by (rewrite ?Em, ?Ew; reflexivity).
    rewrite (Qle_bool_proper w w' (m * (3 # 1)) (m' * (3 # 1))) by (rewrite ?Em, ?Ew; reflexivity).
    split; destruct (Qle_bool _ _); rewrite ?Em, ?Ew; reflexivity.
Qed.

(** The centre and the robust deviation of a list: its middle, and 1.4826
    times the middle distance from it, or half a per cent of the centre when
    that distance is zero. *)
Definition centre_scale (vals : list Q) (c s : Q) : Prop :=
  exists d, middle vals c /\ middle (map (fun v => Qabs (v - c)) vals) d
    /\ s == (if Qeq_bool d 0 then Qabs c * (1 # 200) else (7413 # 5000) * d).

Lemma CentreScale_spec vals c s : CentreScale vals = Some (c, s) -> centre_scale vals c s.
Proof.
  unfold CentreScale, WeightedCentreScale, WeightedMedian. destruct vals as [|v0 vals0] eqn:Ev; [done|]. rewrite <- Ev.
  intros (c' & Hc & E)%bind_Some. apply bind_Some in E as (d & Hd & E). apply (inj Some) in E.
  assert (Ec := f_equal fst E). cbn [fst] in Ec. subst c'. apply (f_equal snd) in E. cbn [snd] in E. rewrite <- E. clear E.
  exists d. split; [by apply Median_middle|]. split; [by apply Median_middle|]. unfold madToStd, zeroScaleRelFloor, Qlt_bool.
  assert (Qabs ((1 # 200) * c) == (1 # 200) * Qabs c) as Ea by (rewrite Qabs_Qmult; reflexivity).
  generalize dependent (Qabs ((1 # 200) * c)). intros q Ea. pose proof (Qabs_nonneg c).
  destruct (Qeq_bool d 0) eqn:E0.
  - apply Qeq_bool_iff in E0. assert (Qeq_bool ((7413 # 5000) * d) 0 = true) as -> by (apply Qeq_bool_iff; lra).
    destruct (Qle_bool q 0) eqn:El; cbn [negb]; [apply Qle_bool_iff in El|]; lra.
  - apply Qeq_bool_false in E0. destruct (Qeq_bool ((7413 # 5000) * d) 0) eqn:E1; [|reflexivity].
    apply Qeq_bool_iff in E1. exfalso. apply E0. lra.
Qed.

Lemma centre_scale_unique vals c s c' s' : centre_scale vals c s -> centre_scale vals c' s' -> c == c' /\ s == s'.
Proof.
  intros (d & Hc & Hd & ->) (d' & Hc' & Hd' & ->). pose proof (middle_unique _ _ _ Hc Hc') as Ec. split; [done|].
  assert (d == d') as Ed.
  { eapply middle_unique; [|exact Hd']. eapply middle_proper; [|reflexivity|exact Hd].
    clear -Ec. induction vals as [|v vals IH]; cbn [map]; [constructor|]. constructor; [|exact IH]. rewrite Ec. reflexivity. }
  assert (Qeq_bool d 0 = Qeq_bool d' 0) as -> by (apply eq_true_iff_eq; rewrite !Qeq_bool_iff, Ed; done).
  destruct (Qeq_bool d' 0); [by rewrite Ec|by rewrite Ed].
Qed.
