(* ===== verification/Window.v ===== *)
(** * Pricing a window of trades
    (internal/aggregate: vwap.go, scale.go, ohlc.go)

    The scale lift that makes a window's amounts comparable, the exact
    volume-weighted price, the per-source shares of it and the
    open/high/low/close bar. Sums and products of [*big.Int] are exact, so
    they are [Z]; prices are [Q]. An [int] that counts trades is [Z]; an [int]
    computed from a caller's decimals wraps at 64 bits. *)

From S2P Require Import Prelude GoLib Amount Asset Trade RobustStat.

Local Open Scope Q_scope.

(** ** Errors of the package *)

Inductive agg_error := ErrNoTrades | ErrUnsortedTrades | ErrTriangulateZero.

(** ** Rationals from integers *)

(** [new(big.Rat).SetFrac(a, b)]; it panics on [b = 0], which no caller passes. *)
Definition SetFrac (a b : Z) : Q := inject_Z a / inject_Z b.

(** [big.Int.Exp(x, y, nil)] is 1 for [y <= 0]. *)
Definition big_Exp (x y : Z) : Z := if (y <=? 0)%Z then 1 else (x ^ y)%Z.

(** ** The priced population (vwap.go) *)

Definition tb (t : Trade) : Z := Amount_BigInt (tr_BaseAmount t).
Definition tq (t : Trade) : Z := Amount_BigInt (tr_QuoteAmount t).

Definition priceable (t : Trade) : bool := (0 <? Z.sgn (tb t))%Z && (0 <? Z.sgn (tq t))%Z.

(** The price of one trade. *)
Definition trade_price (t : Trade) : Q := SetFrac (tq t) (tb t).

Definition priced (trades : list Trade) : list Trade := filter (fun t => priceable t = true) trades.

Definition TotalBaseVolume (trades : list Trade) : Amount :=
  NewAmount (Some (foldl (fun sum t => if priceable t then sum + tb t else sum)%Z 0%Z trades)).

Definition TotalQuoteVolume (trades : list Trade) : Amount :=
  NewAmount (Some (foldl (fun sum t => if priceable t then sum + tq t else sum)%Z 0%Z trades)).

(** ** Scaled windows (scale.go) *)

Record ScaledWindow := mkScaledWindow { w_trades : list Trade; w_decimals : Z }.

Definition Len (w : ScaledWindow) : nat := length (w_trades w).

(** The memoised per-source scale. *)
Definition dec (decimalsFor : string -> Z) (cache : gmap string Z) (source : string) : Z * gmap string Z :=
  match cache !! source with
  | Some d => (d, cache)
  | None => let d := decimalsFor source in (d, <[source := d]> cache)
  end.

Fixpoint max_dec (decimalsFor : string -> Z) (trades : list Trade) (cache : gmap string Z) (maxDec : Z)
    : Z * gmap string Z :=
  match trades with
  | [] => (maxDec, cache)
  | t :: ts =>
      let '(d, cache) := dec decimalsFor cache (tr_Source t) in
      max_dec decimalsFor ts cache (if (maxDec <? d)%Z then d else maxDec)
  end.

(** 10^exp, cached per exponent. *)
Definition factor_for (factors : gmap Z Z) (exp : Z) : Z * gmap Z Z :=
  match factors !! exp with
  | Some f => (f, factors)
  | None => let f := big_Exp 10 exp in (f, <[exp := f]> factors)
  end.

Definition lift_trade (factor : Z) (t : Trade) : Trade :=
  mkTrade (tr_Source t) (tr_Ledger t) (tr_TxHash t) (tr_OpIndex t) (tr_Timestamp t) (tr_Pair t)
    (NewAmount (Some (tb t * factor)%Z)) (NewAmount (Some (tq t * factor)%Z))
    (tr_Maker t) (tr_Taker t) (tr_RoutedVia t).

Fixpoint lift_all (decimalsFor : string -> Z) (maxDec : Z) (trades : list Trade)
    (cache : gmap string Z) (factors : gmap Z Z) : list Trade :=
  match trades with
  | [] => []
  | t :: ts =>
      let '(d, cache) := dec decimalsFor cache (tr_Source t) in
      let exp := wraps 64 (maxDec - d) in
      if (exp <=? 0)%Z then t :: lift_all decimalsFor maxDec ts cache factors
      else
        let '(factor, factors) := factor_for factors exp in
        lift_trade factor t :: lift_all decimalsFor maxDec ts cache factors
  end.

Definition NormalizeAmountScale (trades : list Trade) (decimalsFor : string -> Z) : ScaledWindow :=
  match trades with
  | [] => mkScaledWindow trades 0
  | _ =>
      let '(maxDec, cache) := max_dec decimalsFor trades ∅ 0 in
      mkScaledWindow (lift_all decimalsFor maxDec trades cache ∅) maxDec
  end.

(** ** VWAP *)

Definition vwap_sums (trades : list Trade) : Z * Z :=
  foldl (fun '(sumQuote, sumBase) t =>
    if negb (priceable t) then (sumQuote, sumBase)
    else (sumQuote + tq t, sumBase + tb t)%Z) (0, 0)%Z trades.

Definition VWAP (w : ScaledWindow) : res agg_error Q :=
  let trades := w_trades w in
  if (length trades =? 0)%nat then Err ErrNoTrades
  else
    let '(sumQuote, sumBase) := vwap_sums trades in
    if (Z.sgn sumBase =? 0)%Z then Err ErrNoTrades
    else Ok (SetFrac sumQuote sumBase).

(** ** Source contributions *)

Record SourceContribution := mkSourceContribution {
  sc_Source : string;
  sc_Weight : Q;
  sc_BaseVolume : Z;
  sc_QuoteVolume : Z;
  sc_TradeCount : Z
}.

Record accum := mkAccum { ac_base : Z; ac_quote : Z; ac_count : Z }.

Definition accrue (st : gmap string accum * Z) (t : Trade) : gmap string accum * Z :=
  let '(bySource, totalQuote) := st in
  if negb (priceable t) then st
  else
    let a := default (mkAccum 0 0 0) (bySource !! tr_Source t) in
    (<[tr_Source t := mkAccum (ac_base a + tb t) (ac_quote a + tq t) (ac_count a + 1)]> bySource,
     (totalQuote + tq t)%Z).

Definition contribution (totalQuote : Z) (row : string * accum) : SourceContribution :=
  let '(source, a) := row in
  mkSourceContribution source (SetFrac (ac_quote a) totalQuote) (ac_base a) (ac_quote a) (ac_count a).

(** A Go map is ranged over in an unspecified order; the rows come out in the
    order of [map_to_list], and no statement depends on it. [None] is nil. *)
Definition SourceContributions (trades : list Trade) : option (list SourceContribution) :=
  if (length trades =? 0)%nat then None
  else
    let '(bySource, totalQuote) := foldl accrue (∅, 0%Z) trades in
    if (Z.sgn totalQuote =? 0)%Z then None
    else Some (map (contribution totalQuote) (map_to_list bySource)).

(** ** OHLC bars (ohlc.go) *)

(** The prices of the empty bar are nil in the source; they are 0 here and
    are not read while [bar_TradeCount] is 0. *)
Record OHLC := mkOHLC {
  bar_Open : Q; bar_High : Q; bar_Low : Q; bar_Close : Q;
  bar_BaseVolume : Amount; bar_QuoteVolume : Amount;
  bar_TradeCount : Z
}.

Record ohlc_state := mkOhlcState {
  os_bar : OHLC; os_totalBase : Z; os_totalQuote : Z
}.

Definition ohlc_init : ohlc_state :=
  mkOhlcState (mkOHLC 0 0 0 0 (mkAmount None) (mkAmount None) 0) 0 0.

Definition ohlc_step (st : ohlc_state) (t : Trade) : ohlc_state :=
  let b := tb t in
  if (Z.sgn b <=? 0)%Z then st
  else
    let q := tq t in
    if (Z.sgn q <=? 0)%Z then st
    else
      let bar := os_bar st in
      let price := SetFrac q b in
      let '(open, high, low) :=
        if (bar_TradeCount bar =? 0)%Z then (price, price, price)
        else
          (bar_Open bar,
           if Qlt_bool (bar_High bar) price then price else bar_High bar,
           if Qlt_bool price (bar_Low bar) then price else bar_Low bar) in
      mkOhlcState
        (mkOHLC open high low price (bar_BaseVolume bar) (bar_QuoteVolume bar) (bar_TradeCount bar + 1))
        (os_totalBase st + b) (os_totalQuote st + q).

Definition ComputeOHLC (trades : list Trade) : res agg_error OHLC :=
  if (length trades =? 0)%nat then Err ErrNoTrades
  else
    let st := foldl ohlc_step ohlc_init trades in
    let bar := os_bar st in
    if (bar_TradeCount bar =? 0)%Z then Err ErrNoTrades
    else Ok (mkOHLC (bar_Open bar) (bar_High bar) (bar_Low bar) (bar_Close bar)
      (NewAmount (Some (os_totalBase st))) (NewAmount (Some (os_totalQuote st))) (bar_TradeCount bar)).

(** ** Lemmas *)

Lemma priceable_iff t : priceable t = true <-> (0 < tb t /\ 0 < tq t)%Z.
Proof. unfold priceable. rewrite andb_true_iff, !Z.ltb_lt. lia. Qed.

Lemma elem_of_priced t trades : t ∈ priced trades <-> priceable t = true /\ t ∈ trades.
Proof. unfold priced. by rewrite list_elem_of_filter. Qed.

Lemma priced_cons t ts : priced (t :: ts) = if priceable t then t :: priced ts else priced ts.
Proof. unfold priced. rewrite filter_cons. destruct (priceable t); simpl; done. Qed.

Lemma priced_pos t trades : t ∈ priced trades -> (0 < tb t /\ 0 < tq t)%Z.
Proof. rewrite elem_of_priced, priceable_iff. tauto. Qed.

Lemma volume_fold (f : Trade -> Z) trades a :
  foldl (fun sum t => if priceable t then sum + f t else sum)%Z a trades = (a + zsum (map f (priced trades)))%Z.
Proof.
  revert a; induction trades as [|t ts IH]; intros a; simpl; [lia|]. rewrite IH, priced_cons.
  destruct (priceable t); simpl; lia.
Qed.

Lemma TotalBaseVolume_sum trades : Amount_BigInt (TotalBaseVolume trades) = zsum (map tb (priced trades)).
Proof. unfold TotalBaseVolume. rewrite volume_fold. done. Qed.
Lemma TotalQuoteVolume_sum trades : Amount_BigInt (TotalQuoteVolume trades) = zsum (map tq (priced trades)).
Proof. unfold TotalQuoteVolume. rewrite volume_fold. done. Qed.

Lemma vwap_sums_fold trades q b :
  foldl (fun '(sumQuote, sumBase) t => if negb (priceable t) then (sumQuote, sumBase)
    else (sumQuote + tq t, sumBase + tb t)%Z) (q, b) trades =
  (q + zsum (map tq (priced trades)), b + zsum (map tb (priced trades)))%Z.
Proof.
  revert q b; induction trades as [|t ts IH]; intros q b; simpl; [f_equal; lia|].
  rewrite priced_cons. destruct (priceable t); simpl; rewrite IH; f_equal; lia.
Qed.

Lemma vwap_sums_eq trades :
  vwap_sums trades = (zsum (map tq (priced trades)), zsum (map tb (priced trades))).
Proof. apply vwap_sums_fold. Qed.

Lemma priced_sums_pos trades : priced trades <> [] ->
  (0 < zsum (map tb (priced trades)) /\ 0 < zsum (map tq (priced trades)))%Z.
Proof.
  intros Hne. split; apply zsum_pos; try (by destruct (priced trades));
    apply Forall_map, Forall_forall; intros t Ht; apply priced_pos in Ht; simpl; lia.
Qed.

Lemma VWAP_eq w :
  VWAP w = match priced (w_trades w) with
           | [] => Err ErrNoTrades
           | _ => Ok (SetFrac (zsum (map tq (priced (w_trades w)))) (zsum (map tb (priced (w_trades w)))))
           end.
Proof.
  unfold VWAP. rewrite vwap_sums_eq. pose proof (priced_sums_pos (w_trades w)) as Hp.
  destruct (length (w_trades w) =? 0)%nat eqn:El.
  { bprop. by rewrite (nil_length_inv _ El). }
  destruct (priced (w_trades w)) as [|t ts]; [done|]. destruct Hp as [Hb Hq]; [done|].
  by rewrite (proj2 (Z.eqb_neq (Z.sgn _) 0)) by lia.
Qed.

Lemma VWAP_Ok w p : VWAP w = Ok p ->
  priced (w_trades w) <> [] /\
  p = SetFrac (zsum (map tq (priced (w_trades w)))) (zsum (map tb (priced (w_trades w)))).
Proof. rewrite VWAP_eq. destruct (priced (w_trades w)) as [|t ts]; [done|]. intros [= <-]. done. Qed.

(** *** The memo tables of the scale lift are transparent *)

Definition memo_ok {K V} `{Countable K} (f : K -> V) (m : gmap K V) : Prop :=
  forall k v, m !! k = Some v -> v = f k.

Lemma memo_ok_insert {K V} `{Countable K} (f : K -> V) m k : memo_ok f m -> memo_ok f (<[k := f k]> m).
Proof. intros Hm k' v. rewrite lookup_insert_Some. intros [[<- <-]|[_ E]]; eauto. Qed.

Lemma dec_eq f cache s : memo_ok f cache ->
  exists cache', dec f cache s = (f s, cache') /\ memo_ok f cache'.
Proof.
  intros Hc. unfold dec. destruct (cache !! s) as [d|] eqn:E.
  - rewrite (Hc _ _ E). eauto.
  - eauto using memo_ok_insert.
Qed.

Lemma factor_for_eq factors e : memo_ok (big_Exp 10) factors ->
  exists factors', factor_for factors e = (big_Exp 10 e, factors') /\ memo_ok (big_Exp 10) factors'.
Proof.
  intros Hc. unfold factor_for. destruct (factors !! e) as [d|] eqn:E.
  - rewrite (Hc _ _ E). eauto.
  - eexists. split; [done|]. by apply memo_ok_insert.
Qed.

(** The largest scale of the window, and the trade lifted to it. *)
Definition common_scale (f : string -> Z) (trades : list Trade) : Z :=
  foldr Z.max 0%Z (map (fun t => f (tr_Source t)) trades).

Definition lifted (f : string -> Z) (maxDec : Z) (t : Trade) : Trade :=
  let e := wraps 64 (maxDec - f (tr_Source t)) in
  if (e <=? 0)%Z then t else lift_trade (10 ^ e) t.

Lemma max_dec_eq f trades cache m : memo_ok f cache -> (0 <= m)%Z ->
  exists cache', max_dec f trades cache m = (Z.max m (common_scale f trades), cache') /\ memo_ok f cache'.
Proof.
  revert cache m; induction trades as [|t ts IH]; intros cache m Hc Hm; simpl.
  - exists cache. split; [f_equal; unfold common_scale; simpl; lia | done].
  - destruct (dec_eq f cache (tr_Source t) Hc) as (c1 & -> & H1).
    edestruct (IH c1 (if (m <? f (tr_Source t))%Z then f (tr_Source t) else m) H1) as (c2 & -> & H2).
    { destruct (Z.ltb_spec m (f (tr_Source t))); lia. }
    exists c2. split; [|done]. f_equal. unfold common_scale. simpl.
    destruct (Z.ltb_spec m (f (tr_Source t))); lia.
Qed.

Lemma lift_all_eq f maxDec trades cache factors :
  memo_ok f cache -> memo_ok (big_Exp 10) factors ->
  lift_all f maxDec trades cache factors = map (lifted f maxDec) trades.
Proof.
  revert cache factors; induction trades as [|t ts IH]; intros cache factors Hc Hf; [done|].
  simpl. unfold lifted at 1. destruct (dec_eq f cache (tr_Source t) Hc) as (c1 & -> & H1).
  destruct (wraps 64 (maxDec - f (tr_Source t)) <=? 0)%Z eqn:E; [by rewrite IH|].
  destruct (factor_for_eq factors (wraps 64 (maxDec - f (tr_Source t))) Hf) as (c2 & -> & H2).
  rewrite IH by done. unfold big_Exp. by rewrite E.
Qed.

Lemma NormalizeAmountScale_eq trades f :
  NormalizeAmountScale trades f =
  mkScaledWindow (map (lifted f (common_scale f trades)) trades) (common_scale f trades).
Proof.
  unfold NormalizeAmountScale. destruct trades as [|t ts]; [done|].
  destruct (max_dec_eq f (t :: ts) ∅ 0) as (c & -> & Hc); [by intros ? ?; rewrite lookup_empty | lia|].
  rewrite lift_all_eq; [|done|by intros ? ?; rewrite lookup_empty].
  assert (0 <= common_scale f (t :: ts))%Z by (unfold common_scale; induction (t :: ts); simpl; lia).
  by rewrite Z.max_r by done.
Qed.

(** *** Lifting preserves every price and every real volume *)

Lemma common_scale_le f trades t : t ∈ trades -> (f (tr_Source t) <= common_scale f trades)%Z.
Proof. unfold common_scale. induction 1; simpl; lia. Qed.

Lemma common_scale_bound f trades m :
  (0 <= m)%Z -> Forall (fun t => (f (tr_Source t) <= m)%Z) trades -> (common_scale f trades <= m)%Z.
Proof. unfold common_scale. induction 2; simpl in *; lia. Qed.

(** Decimals the registry can return: non-negative and in range. *)
Definition decimals_ok (f : string -> Z) (trades : list Trade) : Prop :=
  Forall (fun t => (0 <= f (tr_Source t) <= MaxInt64)%Z) trades.

Lemma tb_lift k t : tb (lift_trade k t) = (tb t * k)%Z.
Proof. done. Qed.
Lemma tq_lift k t : tq (lift_trade k t) = (tq t * k)%Z.
Proof. done. Qed.

Lemma lifted_legs f trades t : decimals_ok f trades -> t ∈ trades ->
  let k := (10 ^ (common_scale f trades - f (tr_Source t)))%Z in
  tb (lifted f (common_scale f trades) t) = (k * tb t)%Z /\
  tq (lifted f (common_scale f trades) t) = (k * tq t)%Z /\ (0 < k)%Z.
Proof.
  intros Hd Ht. pose proof (common_scale_le f _ _ Ht).
  assert (common_scale f trades <= MaxInt64)%Z.
  { apply common_scale_bound; [unfold MaxInt64; lia|]. eapply Forall_impl; [exact Hd|]. simpl. lia. }
  unfold decimals_ok in Hd. rewrite Forall_forall in Hd. specialize (Hd t Ht). simpl in Hd.
  cbv zeta. unfold lifted. unfold MaxInt64 in *. rewrite wraps_small by lia.
  destruct (Z.leb_spec (common_scale f trades - f (tr_Source t)) 0).
  - replace (common_scale f trades - f (tr_Source t))%Z with 0%Z by lia. simpl. lia.
  - rewrite tb_lift, tq_lift, !(Z.mul_comm (10 ^ _)). split; [done|]. split; [done|].
    apply Z.pow_pos_nonneg; lia.
Qed.

Lemma lifted_priceable f trades t : decimals_ok f trades -> t ∈ trades ->
  priceable (lifted f (common_scale f trades) t) = priceable t.
Proof.
  intros Hd Ht. destruct (lifted_legs f trades t Hd Ht) as (Hb & Hq & Hk).
  apply eq_true_iff_eq. rewrite !priceable_iff, Hb, Hq. nia.
Qed.

Lemma lifted_price f trades t : decimals_ok f trades -> t ∈ priced trades ->
  trade_price (lifted f (common_scale f trades) t) == trade_price t.
Proof.
  intros Hd [Hp Ht]%elem_of_priced. destruct (lifted_legs f trades t Hd Ht) as (Hb & Hq & Hk).
  apply priceable_iff in Hp. unfold trade_price, SetFrac. rewrite Hb, Hq, !inject_Z_mult.
  assert (0 < inject_Z (tb t)) by (rewrite <- inject_Z_pos; lia).
  apply inject_Z_pos in Hk. field. split; lra.
Qed.

(** An amount in whole units at [d] decimals. *)
Definition real_units (d x : Z) : Q := inject_Z x / inject_Z (10 ^ d).

Lemma priced_lifted f trades : decimals_ok f trades ->
  priced (map (lifted f (common_scale f trades)) trades) = map (lifted f (common_scale f trades)) (priced trades).
Proof.
  intros Hd. assert (forall t, t ∈ trades -> priceable (lifted f (common_scale f trades) t) = priceable t) as Hp
    by (intros; by apply lifted_priceable).
  generalize dependent (common_scale f trades). intros m Hp. clear Hd.
  induction trades as [|t ts IH]; [done|]. simpl map. rewrite !priced_cons, Hp by left.
  rewrite IH by (intros; apply Hp; by right). by destruct (priceable t).
Qed.

(** Lifted legs are the real legs times one common factor. *)
Lemma lifted_real f trades t : decimals_ok f trades -> t ∈ trades ->
  let c := inject_Z (10 ^ common_scale f trades) in
  inject_Z (tb (lifted f (common_scale f trades) t)) == c * real_units (f (tr_Source t)) (tb t) /\
  inject_Z (tq (lifted f (common_scale f trades) t)) == c * real_units (f (tr_Source t)) (tq t) /\ 0 < c.
Proof.
  intros Hd Ht. destruct (lifted_legs f trades t Hd Ht) as (Hb & Hq & Hk).
  pose proof (common_scale_le f _ _ Ht).
  unfold decimals_ok in Hd. rewrite Forall_forall in Hd. specialize (Hd t Ht). simpl in Hd.
  cbv zeta. rewrite Hb, Hq.
  replace (10 ^ common_scale f trades)%Z
    with (10 ^ (common_scale f trades - f (tr_Source t)) * 10 ^ f (tr_Source t))%Z
    by (rewrite <- Z.pow_add_r by lia; f_equal; lia).
  assert (0 < inject_Z (10 ^ f (tr_Source t))) by (rewrite <- inject_Z_pos; apply Z.pow_pos_nonneg; lia).
  rewrite inject_Z_pos in Hk. unfold real_units. rewrite !inject_Z_mult.
  split; [field; lra|]. split; [field; lra|]. nra.
Qed.

(** ** Properties *)

(** C1: [VWAP] fails exactly when no trade has both legs positive; otherwise
    it is the exact quotient of the two volume totals, strictly positive, and
    never outside the range of the prices of the trades it prices. *)
Theorem VWAP_within_prices w :
  (VWAP w = Err ErrNoTrades <-> priced (w_trades w) = []) /\
  (forall p, VWAP w = Ok p ->
    p = SetFrac (Amount_BigInt (TotalQuoteVolume (w_trades w))) (Amount_BigInt (TotalBaseVolume (w_trades w))) /\
    0 < p /\
    forall lo hi, (forall t, t ∈ priced (w_trades w) -> lo <= trade_price t <= hi) -> lo <= p <= hi).
Proof.
  rewrite VWAP_eq. pose proof (priced_sums_pos (w_trades w)) as Hs.
  rewrite TotalQuoteVolume_sum, TotalBaseVolume_sum.
  destruct (priced (w_trades w)) as [|t ts] eqn:Ep; [done|]. rewrite <- Ep in *.
  destruct Hs as [Hb Hq]; [by rewrite Ep|]. rewrite inject_Z_pos in Hb, Hq.
  split; [by rewrite Ep|]. intros p [= <-]. split; [done|]. unfold SetFrac.
  split; [apply Qlt_shift_div_l; lra|]. intros lo hi Hlh.
  rewrite <- !qsum_inject. apply weighted_mean_between; [by rewrite Ep|].
  intros x Hx. split; [|by apply Hlh]. rewrite <- inject_Z_pos. apply priced_pos in Hx. lia.
Qed.

(** C33: lifting a window to the largest decimals of its sources keeps the
    trades, their order and every trade's price, and makes the VWAP the
    quotient of the real (whole-unit) volumes: sources with different scales
    weigh by what was traded, not by how it was encoded. *)
Theorem NormalizeAmountScale_real_volume trades decimalsFor :
  decimals_ok decimalsFor trades ->
  let w := NormalizeAmountScale trades decimalsFor in
  let real leg t := real_units (decimalsFor (tr_Source t)) (leg t) in
  w_decimals w = common_scale decimalsFor trades /\
  map tr_Source (w_trades w) = map tr_Source trades /\
  Forall2 (fun t t' => priceable t' = priceable t /\ (priceable t = true -> trade_price t' == trade_price t))
    trades (w_trades w) /\
  (forall p, VWAP w = Ok p ->
    p == qsum (map (real tq) (priced trades)) / qsum (map (real tb) (priced trades))).
Proof.
  intros Hd. cbv zeta. rewrite NormalizeAmountScale_eq. simpl. split; [done|]. split; [|split].
  - rewrite map_map. apply map_ext. intros t. unfold lifted. by destruct (_ <=? _)%Z.
  - apply Forall2_fmap_r, Forall_Forall2_diag, Forall_forall. intros t Ht.
    split; [by apply lifted_priceable|]. intros Hp. apply lifted_price, elem_of_priced; done.
  - intros p [Hne ->]%VWAP_Ok. cbn [w_trades] in *. rewrite priced_lifted in * by done.
    unfold SetFrac. rewrite !map_map, <- !qsum_inject.
    set (c := inject_Z (10 ^ common_scale decimalsFor trades)).
    assert (0 < c) as Hc.
    { destruct (priced trades) as [|t0 ts0] eqn:Ep; [done|].
      apply (lifted_real decimalsFor trades t0 Hd), (elem_of_priced t0). rewrite Ep. left. }
    rewrite (qsum_ext _ (fun t => c * real_units (decimalsFor (tr_Source t)) (tq t))),
      (qsum_ext (fun t => inject_Z (tb _)) (fun t => c * real_units (decimalsFor (tr_Source t)) (tb t)));
      [|intros t [_ Ht]%elem_of_priced; by apply lifted_real..].
    rewrite !qsum_scale. set (x := qsum _). set (y := qsum _).
    destruct (Qeq_dec y 0) as [Hy|Hy]; [|field; lra].
    rewrite Hy. unfold Qdiv. rewrite Qmult_0_r. change (/ 0) with 0. lra.
Qed.

(** *** Source contributions *)

Definition of_source (s : string) (trades : list Trade) : list Trade :=
  filter (fun t => tr_Source t = s) (priced trades).

(** What the accumulation loop has after the trades it has seen. *)
Definition accrued (trades : list Trade) (st : gmap string accum * Z) : Prop :=
  st.2 = zsum (map tq (priced trades)) /\
  msum ac_quote st.1 = zsum (map tq (priced trades)) /\
  msum ac_base st.1 = zsum (map tb (priced trades)) /\
  msum ac_count st.1 = Z.of_nat (length (priced trades)) /\
  forall s, st.1 !! s =
    match of_source s trades with
    | [] => None
    | l => Some (mkAccum (zsum (map tb l)) (zsum (map tq l)) (Z.of_nat (length l)))
    end.

Lemma priced_app l1 l2 : priced (l1 ++ l2) = priced l1 ++ priced l2.
Proof. unfold priced. by rewrite filter_app. Qed.

Lemma of_source_snoc s ts t : of_source s (ts ++ [t]) =
  of_source s ts ++ (if priceable t then if decide (tr_Source t = s) then [t] else [] else []).
Proof.
  unfold of_source. rewrite priced_app, filter_app. f_equal. rewrite priced_cons.
  destruct (priceable t); [|done]. unfold priced. simpl. rewrite filter_cons, !filter_nil. done.
Qed.

Lemma accrue_step ts t st : accrued ts st -> accrued (ts ++ [t]) (accrue st t).
Proof.
  destruct st as [m tot]. intros (Ht & Hq & Hb & Hc & Hm). simpl in *. unfold accrued, accrue.
  rewrite priced_app, !map_app, !zsum_app, length_app.
  rewrite (priced_cons t []). destruct (priceable t) eqn:Ep; simpl.
  2: { repeat split; try lia. intros s. by rewrite of_source_snoc, Ep, app_nil_r. }
  rewrite !msum_insert.
  assert (forall f, f (mkAccum 0 0 0) = 0%Z ->
    from_option f 0%Z (m !! tr_Source t) = f (default (mkAccum 0 0 0) (m !! tr_Source t))) as Hd
    by (intros f Hf; destruct (m !! tr_Source t); simpl; lia).
  rewrite !Hd by done. simpl. repeat split; try lia.
  intros s. rewrite of_source_snoc, Ep. destruct (decide (tr_Source t = s)) as [<-|Hne].
  - rewrite lookup_insert_eq, Hm. destruct (of_source (tr_Source t) ts) as [|t0 l0]; simpl; [do 2 f_equal; lia|].
    rewrite !map_app, !zsum_app, length_app. simpl. do 2 f_equal; lia.
  - by rewrite lookup_insert_ne, app_nil_r.
Qed.

Lemma accrued_all trades : accrued trades (foldl accrue (∅, 0%Z) trades).
Proof.
  induction trades as [|t ts IH] using rev_ind; [done|].
  rewrite foldl_app. simpl. by apply accrue_step.
Qed.

Lemma of_source_sub s t trades : t ∈ of_source s trades -> t ∈ priced trades /\ tr_Source t = s.
Proof. unfold of_source. rewrite list_elem_of_filter. tauto. Qed.

(** The rows of the output, against the windows they sum. *)
Lemma SourceContributions_rows trades cs : SourceContributions trades = Some cs ->
  exists m, accrued trades (m, zsum (map tq (priced trades))) /\
  (0 < zsum (map tq (priced trades)))%Z /\
  cs = map (contribution (zsum (map tq (priced trades)))) (map_to_list m).
Proof.
  unfold SourceContributions. pose proof (accrued_all trades) as Ha.
  destruct (foldl accrue (∅, 0%Z) trades) as [m tot]. pose proof (proj1 Ha) as Ht. simpl in Ht. subst tot.
  repeat case_if; intros; simplify_eq. bprop. exists m. repeat split; try apply Ha.
  destruct (priced trades) as [|t0 ts0] eqn:Ep; [done|]. rewrite <- Ep. apply priced_sums_pos. by rewrite Ep.
Qed.

Lemma SourceContributions_None trades : SourceContributions trades = None <-> priced trades = [].
Proof.
  unfold SourceContributions. pose proof (accrued_all trades) as Ha.
  destruct (foldl accrue (∅, 0%Z) trades) as [m tot]. pose proof (proj1 Ha) as Ht. simpl in Ht. subst tot.
  destruct (length trades =? 0)%nat eqn:El; [bprop; by rewrite (nil_length_inv _ El)|].
  pose proof (priced_sums_pos trades) as Hp. destruct (priced trades) as [|t0 ts0]; [done|].
  destruct Hp as [_ Hq]; [done|]. by rewrite (proj2 (Z.eqb_neq (Z.sgn _) 0)) by lia.
Qed.

Lemma contribution_sum (g : accum -> Z) (f : SourceContribution -> Z) T (m : gmap string accum) :
  (forall T row, f (contribution T row) = g row.2) ->
  zsum (map f (map (contribution T) (map_to_list m))) = msum g m.
Proof. intros Hfg. unfold msum. rewrite map_map. f_equal. apply map_ext. intros row. apply Hfg. Qed.

Lemma contribution_sources T (m : gmap string accum) :
  map sc_Source (map (contribution T) (map_to_list m)) = (map_to_list m).*1.
Proof. rewrite map_map. apply map_ext. by intros [s a]. Qed.

Lemma contribution_weights T (m : gmap string accum) :
  qsum (map sc_Weight (map (contribution T) (map_to_list m))) == SetFrac (msum ac_quote m) T.
Proof.
  rewrite map_map. unfold msum, SetFrac, Qdiv. rewrite Qmult_comm, <- qsum_inject, <- qsum_scale.
  apply qsum_ext. intros [s a] _. unfold contribution. simpl. unfold SetFrac, Qdiv. lra.
Qed.

(** A source's share of a priced window. *)
Lemma of_source_share s trades : of_source s trades <> [] ->
  0 < SetFrac (zsum (map tq (of_source s trades))) (zsum (map tq (priced trades))) <= 1.
Proof.
  intros Hne.
  assert (0 < zsum (map tq (of_source s trades)) <= zsum (map tq (priced trades)))%Z as [Hp Hle].
  { split.
    - apply zsum_pos; [by destruct (of_source s trades)|]. apply Forall_map, Forall_forall.
      intros t [Ht _]%of_source_sub. apply priced_pos in Ht. simpl. lia.
    - assert (Forall (fun t => (0 < tq t)%Z) (priced trades)) as Hpos
        by (apply Forall_forall; intros t Ht; apply priced_pos in Ht; lia).
      unfold of_source. clear Hne. induction Hpos as [|t ts Ht Hts IH]; [done|]. rewrite filter_cons.
      destruct (decide _); simpl; lia. }
  unfold SetFrac. assert (0 < inject_Z (zsum (map tq (priced trades)))) by (rewrite <- inject_Z_pos; lia).
  rewrite inject_Z_pos in Hp. rewrite Zle_Qle in Hle.
  split; [apply Qlt_shift_div_l; lra | apply Qle_shift_div_r; lra].
Qed.

(** The per-source breakdown of a priced window has one row per source
    that priced a trade, each row's volumes and count are the sums over that
    source's trades, every weight is in (0,1], the weights sum to exactly 1
    and the volumes to the totals of the served price; it is nil exactly when
    the VWAP is unavailable. *)
Theorem SourceContributions_partition trades :
  (SourceContributions trades = None <-> priced trades = []) /\
  (forall cs, SourceContributions trades = Some cs ->
    NoDup (map sc_Source cs) /\
    (forall c, c ∈ cs -> let l := of_source (sc_Source c) trades in
      l <> [] /\ sc_BaseVolume c = zsum (map tb l) /\ sc_QuoteVolume c = zsum (map tq l) /\
      sc_TradeCount c = Z.of_nat (length l) /\ 0 < sc_Weight c <= 1) /\
    (forall t, t ∈ priced trades -> tr_Source t ∈ map sc_Source cs) /\
    qsum (map sc_Weight cs) == 1 /\
    zsum (map sc_QuoteVolume cs) = Amount_BigInt (TotalQuoteVolume trades) /\
    zsum (map sc_BaseVolume cs) = Amount_BigInt (TotalBaseVolume trades) /\
    zsum (map sc_TradeCount cs) = Z.of_nat (length (priced trades))).
Proof.
  split; [apply SourceContributions_None|].
  intros cs (m & (_ & Hq & Hb & Hc & Hm) & Hpos & ->)%SourceContributions_rows. simpl in *.
  rewrite TotalQuoteVolume_sum, TotalBaseVolume_sum.
  rewrite (contribution_sum ac_quote), (contribution_sum ac_base), (contribution_sum ac_count)
    by (by intros ? [? ?]).
  rewrite contribution_sources. split; [apply NoDup_fst_map_to_list|]. split; [|split; [|split; [|done]]].
  - intros c ([s a] & -> & Ha)%list_elem_of_fmap. apply elem_of_map_to_list in Ha. cbv zeta. simpl.
    rewrite Hm in Ha. pose proof (of_source_share s trades) as Hw.
    destruct (of_source s trades) as [|t0 l0]; [done|]. injection Ha as <-.
    split; [done|]. simpl ac_base. simpl ac_quote. simpl ac_count. repeat split; by apply Hw.
  - intros t Ht. apply list_elem_of_fmap. pose proof (Hm (tr_Source t)) as Hs.
    assert (t ∈ of_source (tr_Source t) trades) as Hin by (unfold of_source; by rewrite list_elem_of_filter).
    destruct (of_source (tr_Source t) trades) as [|t0 l0]; [by apply not_elem_of_nil in Hin|].
    eexists. split; [|by apply elem_of_map_to_list]. done.
  - rewrite contribution_weights, Hq. unfold SetFrac. rewrite inject_Z_pos in Hpos. field. lra.
Qed.

(** *** OHLC bars *)

(** The bar of a non-empty list of priced trades. *)
Definition bar_of (l : list Trade) (bar : OHLC) : Prop :=
  bar_TradeCount bar = Z.of_nat (length l) /\
  (exists t, head l = Some t /\ bar_Open bar = trade_price t) /\
  (exists t, last l = Some t /\ bar_Close bar = trade_price t) /\
  (exists t, t ∈ l /\ bar_High bar = trade_price t) /\
  (exists t, t ∈ l /\ bar_Low bar = trade_price t) /\
  (forall t, t ∈ l -> bar_Low bar <= trade_price t <= bar_High bar).

Lemma ohlc_step_priceable st t :
  ohlc_step st t = if priceable t then ohlc_step st t else st.
Proof.
  destruct (priceable t) eqn:E; [done|]. unfold ohlc_step, priceable in *.
  destruct (Z.leb_spec (Z.sgn (tb t)) 0); [done|]. destruct (Z.leb_spec (Z.sgn (tq t)) 0); [done|].
  rewrite andb_false_iff in E. destruct E; bprop; lia.
Qed.

Lemma foldl_ohlc_priced trades st : foldl ohlc_step st trades = foldl ohlc_step st (priced trades).
Proof.
  revert st; induction trades as [|t ts IH]; intros st; [done|]. rewrite priced_cons. simpl.
  rewrite ohlc_step_priceable. destruct (priceable t); simpl; apply IH.
Qed.

Lemma ohlc_step_bar l st t : priceable t = true -> l <> [] -> bar_of l (os_bar st) ->
  bar_of (l ++ [t]) (os_bar (ohlc_step st t)).
Proof.
  intros [Hb Hq]%priceable_iff Hne (Hc & Ho & _ & Hh & Hl & Hall).
  unfold ohlc_step. fold (trade_price t).
  rewrite (proj2 (Z.leb_gt _ _)) by lia. rewrite (proj2 (Z.leb_gt _ _)) by lia.
  rewrite (proj2 (Z.eqb_neq _ 0)) by (rewrite Hc; destruct l; simpl in *; [done | lia]).
  unfold bar_of. simpl. rewrite length_app, last_snoc. split; [simpl; lia|].
  split; [destruct l; [done|]; exact Ho|]. split; [by exists t|].
  destruct (Qlt_bool (bar_High (os_bar st)) (trade_price t)) eqn:E1,
    (Qlt_bool (trade_price t) (bar_Low (os_bar st))) eqn:E2; qprop.
  all: (split; [first [by exists t; split; [set_solver|] | destruct Hh as (h & ? & ->); exists h; set_solver]|]).
  all: (split; [first [by exists t; split; [set_solver|] | destruct Hl as (h & ? & ->); exists h; set_solver]|]).
  all: intros x [Hx|Hx]%elem_of_app;
    [specialize (Hall x Hx) | apply list_elem_of_singleton in Hx as ->]; split; lra.
Qed.

Lemma ohlc_totals l st : Forall (fun t => priceable t = true) l ->
  os_totalBase (foldl ohlc_step st l) = (os_totalBase st + zsum (map tb l))%Z /\
  os_totalQuote (foldl ohlc_step st l) = (os_totalQuote st + zsum (map tq l))%Z.
Proof.
  intros HF; revert st; induction HF as [|t l Ht HF IH]; intros st; simpl; [lia|].
  destruct (IH (ohlc_step st t)) as [-> ->]. apply priceable_iff in Ht as [Hb Hq]. unfold ohlc_step.
  rewrite (proj2 (Z.leb_gt (Z.sgn (tb t)) 0)) by lia. rewrite (proj2 (Z.leb_gt (Z.sgn (tq t)) 0)) by lia.
  destruct (_ =? 0)%Z; simpl; lia.
Qed.

Lemma ohlc_fold_bar l : l <> [] -> Forall (fun t => priceable t = true) l ->
  bar_of l (os_bar (foldl ohlc_step ohlc_init l)).
Proof.
  intros Hne HF. induction l as [|t l IH] using rev_ind; [done|].
  apply Forall_app in HF as [HF Ht]. rewrite list.Forall_singleton in Ht. rewrite foldl_app. simpl.
  destruct (decide (l = [])) as [->|Hl]; [|apply ohlc_step_bar; auto].
  apply priceable_iff in Ht as [Hb Hq]. simpl. unfold ohlc_step. simpl. fold (trade_price t).
  rewrite (proj2 (Z.leb_gt _ _)) by lia. rewrite (proj2 (Z.leb_gt _ _)) by lia.
  unfold bar_of. simpl. split; [done|]. repeat (split; [exists t; set_solver|]).
  intros x ->%list_elem_of_singleton. lra.
Qed.

Lemma priced_Forall trades : Forall (fun t => priceable t = true) (priced trades).
Proof. apply Forall_forall. intros t [Ht _]%elem_of_priced. done. Qed.

(** A bar exists exactly when the window prices a trade; it opens at the
    first priced trade and closes at the last, its high and low are prices of
    trades and bound them all, its volumes and count cover exactly the trades
    the VWAP prices, and the VWAP of the same window lies between low and
    high. *)
Theorem ComputeOHLC_bar trades :
  (ComputeOHLC trades = Err ErrNoTrades <-> priced trades = []) /\
  (forall bar, ComputeOHLC trades = Ok bar ->
    bar_of (priced trades) bar /\ 0 < bar_Low bar /\
    bar_BaseVolume bar = TotalBaseVolume trades /\ bar_QuoteVolume bar = TotalQuoteVolume trades /\
    forall p d, VWAP (mkScaledWindow trades d) = Ok p -> bar_Low bar <= p <= bar_High bar).
Proof.
  unfold ComputeOHLC, TotalBaseVolume, TotalQuoteVolume. rewrite !volume_fold, foldl_ohlc_priced.
  destruct (length trades =? 0)%nat eqn:El; [bprop; by rewrite (nil_length_inv _ El)|].
  destruct (ohlc_totals (priced trades) ohlc_init (priced_Forall trades)) as [-> ->].
  destruct (decide (priced trades = [])) as [Ep|Ep]; [rewrite Ep; done|].
  pose proof (ohlc_fold_bar _ Ep (priced_Forall trades)) as Hbar. set (st := foldl _ _ _) in *.
  rewrite (proj2 (Z.eqb_neq _ 0)) by (rewrite (proj1 Hbar); destruct (priced trades); simpl in *; [done | lia]).
  split; [done|]. intros bar [= <-]. split; [exact Hbar|]. simpl.
  destruct Hbar as (_ & _ & _ & _ & (tl & Htl & Hlow) & Hall). split; [|split; [done|split; [done|]]].
  - rewrite Hlow. apply priced_pos in Htl as [Hb Hq]. rewrite inject_Z_pos in Hb, Hq.
    apply Qlt_shift_div_l; lra.
  - intros p d [_ ->]%VWAP_Ok. simpl. unfold SetFrac. rewrite <- !qsum_inject.
    apply weighted_mean_between; [done|]. intros x Hx. split; [|by apply Hall].
    rewrite <- inject_Z_pos. apply priced_pos in Hx. lia.
Qed.

(** *** Examples

    One XLM/USD window: 4 XLM for 1 USD on "sdex" at 7 decimals, 10 XLM for
    3 USD on "kraken" at 8, and a dust fill with a zero leg. *)

Definition xlm_usd : Pair := mkPair NativeAsset (mkAsset AssetFiat "USD" "" "").

Definition trade_ex (source : string) (ts b q : Z) : Trade :=
  mkTrade source 5 (fmt_uint 16 (2 ^ 255)) 0 ts xlm_usd (mkAmount (Some b)) (mkAmount (Some q)) "" "" "".

Definition window_ex : list Trade :=
  [trade_ex "sdex" 1 40000000 10000000; trade_ex "kraken" 2 1000000000 300000000; trade_ex "sdex" 3 1 0].

Definition decimals_ex (s : string) : Z := if String.eqb s "kraken" then 8 else 7.

Lemma VWAP_within_prices_witness : exists p,
  VWAP (mkScaledWindow window_ex 0) = Ok p /\ 0 < p /\ 1 # 4 <= p <= 3 # 10.
Proof.
  eexists. split; [vm_compute; reflexivity|].
  split; [|apply (VWAP_within_prices (mkScaledWindow window_ex 0)); [vm_compute; reflexivity|]].
  - apply (VWAP_within_prices (mkScaledWindow window_ex 0)). vm_compute. reflexivity.
  - assert (priced (w_trades (mkScaledWindow window_ex 0)) = take 2 window_ex) as -> by (vm_compute; reflexivity).
    intros t Ht. repeat (apply elem_of_cons in Ht as [->|Ht]; [vm_compute; split; congruence|]).
    by apply not_elem_of_nil in Ht.
Defined.

Lemma NormalizeAmountScale_real_volume_witness : exists p,
  VWAP (NormalizeAmountScale window_ex decimals_ex) = Ok p /\ p == 4 # 14.
Proof.
  eexists. split; [vm_compute; reflexivity|].
  assert (decimals_ok decimals_ex window_ex) as Hd
    by (repeat (constructor; [vm_compute; split; congruence|]); constructor).
  rewrite (proj2 (proj2 (proj2 (NormalizeAmountScale_real_volume window_ex decimals_ex Hd))));
    [|vm_compute; reflexivity].
  vm_compute. reflexivity.
Defined.

Lemma SourceContributions_partition_witness : exists cs,
  SourceContributions window_ex = Some cs /\ qsum (map sc_Weight cs) == 1.
Proof.
  eexists. split; [vm_compute; reflexivity|].
  apply (proj2 (SourceContributions_partition window_ex)). vm_compute. reflexivity.
Defined.

Lemma ComputeOHLC_bar_witness : exists bar,
  ComputeOHLC window_ex = Ok bar /\ 0 < bar_Low bar.
Proof.
  eexists. split; [vm_compute; reflexivity|].
  apply (proj2 (ComputeOHLC_bar window_ex)). vm_compute. reflexivity.
Defined.
