(* ===== verification/Twap.v ===== *)
(** * Time-weighted prices (internal/aggregate/twap.go)

    Each instant (the trades sharing a timestamp) is priced at its own
    volume-weighted price and is current until the next priced instant or the
    end of the window. The loop works in fixed point with scale 10^40; the
    file proves it equal to a definition by grouping, and bounds its distance
    from the exact rational average. *)

From S2P Require Import Prelude GoLib Amount Asset Trade RobustStat Window.

(** ** Operations *)

Definition twapScale : Z := 10 ^ 40.

(** The index [i] of the loop is the suffix [trades[i:]] with its predecessor
    [trades[i-1]]; the trades sharing the first timestamp are split off. *)
Fixpoint span_instant (ts : Time) (l : list Trade) : list Trade * list Trade :=
  match l with
  | t :: l' =>
      if time_Equal (tr_Timestamp t) ts then
        let '(g, n) := span_instant ts l' in (t :: g, n)
      else ([], l)
  | [] => ([], [])
  end.

Definition instantEnd (prev : option Trade) (t : Trade) (rest : list Trade)
    : res agg_error (list Trade * list Trade) :=
  if match prev with
     | Some p => time_Before (tr_Timestamp t) (tr_Timestamp p)
     | None => false
     end
  then Err ErrUnsortedTrades
  else let '(g, n) := span_instant (tr_Timestamp t) rest in Ok (t :: g, n).

Definition instantVolumes (group : list Trade) : Z * Z * Z :=
  foldl (fun '(base, quote, priced) t =>
    if negb (priceable t) then (base, quote, priced)
    else (base + tb t, quote + tq t, priced + 1)) (0, 0, 0) group.

Definition accrueTWAPSlot (weightedSum totalNanos base quote : Z) (dur : Duration) : Z * Z :=
  if dur <=? 0 then (weightedSum, totalNanos)
  else (weightedSum + Z.quot (quote * twapScale * dur) base, totalNanos + dur).

(** The last priced instant; [havePending] is [Some]. *)
Record instant := mkInstant { in_start : Time; in_base : Z; in_quote : Z; in_priced : Z }.

Record twap_state := mkTwapState {
  weightedSum : Z; totalNanos : Z; weighted : Z; pending : option instant
}.

(** Close the pending slot at time [at_]. *)
Definition close_slot (st : twap_state) (at_ : Time) : twap_state :=
  match pending st with
  | Some p =>
      let dur := time_Sub at_ (in_start p) in
      if 0 <? dur then
        let '(ws, tn) := accrueTWAPSlot (weightedSum st) (totalNanos st) (in_base p) (in_quote p) dur in
        mkTwapState ws tn (weighted st + in_priced p) (pending st)
      else st
  | None => st
  end.

Definition twap_instant (st : twap_state) (start : Time) (group : list Trade) : twap_state :=
  let '(base, quote, priced) := instantVolumes group in
  if 0 <? priced then
    let st := close_slot st start in
    mkTwapState (weightedSum st) (totalNanos st) (weighted st) (Some (mkInstant start base quote priced))
  else st.

(** The fuel bounds the number of instants; [TWAPWithCount] gives it the
    number of trades. *)
Fixpoint twap_loop (fuel : nat) (prev : option Trade) (rest : list Trade) (st : twap_state)
    : res agg_error twap_state :=
  match rest, fuel with
  | [], _ => Ok st
  | _ :: _, O => Ok st
  | t :: rest', S fuel =>
      '(group, next) ← instantEnd prev t rest';
      twap_loop fuel (last group) next (twap_instant st (tr_Timestamp t) group)
  end.

Definition TWAPWithCount (trades : list Trade) (windowEnd : Time) : res agg_error (Q * Z) :=
  if (length trades =? 0)%nat then Err ErrNoTrades
  else
    st ← twap_loop (length trades) None trades (mkTwapState 0 0 0 None);
    let st := close_slot st windowEnd in
    if Z.sgn (totalNanos st) <=? 0 then Err ErrNoTrades
    else Ok (SetFrac (weightedSum st) (totalNanos st * twapScale), weighted st).

Definition TWAP (trades : list Trade) (windowEnd : Time) : res agg_error Q :=
  '(price, _) ← TWAPWithCount trades windowEnd; Ok price.

(** ** Reference definition *)

(** Runs of equal timestamps. *)
Fixpoint instants (l : list Trade) : list (list Trade) :=
  match l with
  | [] => []
  | t :: l' =>
      match instants l' with
      | (t' :: g) :: gs =>
          if tr_Timestamp t' =? tr_Timestamp t then (t :: t' :: g) :: gs else [t] :: (t' :: g) :: gs
      | gs => [t] :: gs
      end
  end.

Definition start_of (g : list Trade) : Time := from_option tr_Timestamp 0 (head g).

Definition priced_instant (g : list Trade) : option instant :=
  match priced g with
  | [] => None
  | l => Some (mkInstant (start_of g) (zsum (map tb l)) (zsum (map tq l)) (Z.of_nat (length l)))
  end.

Definition priced_instants (trades : list Trade) : list instant := omap priced_instant (instants trades).

(** An instant with the time it was current; only positive durations count. *)
Fixpoint slots (l : list instant) (windowEnd : Time) : list (instant * Z) :=
  match l with
  | [] => []
  | p :: l' =>
      let until := match l' with [] => windowEnd | n :: _ => in_start n end in
      let dur := time_Sub until (in_start p) in
      (if 0 <? dur then [(p, dur)] else []) ++ slots l' windowEnd
  end.

Definition twap_slots (trades : list Trade) (windowEnd : Time) : list (instant * Z) :=
  slots (priced_instants trades) windowEnd.

Definition slot_fixed (s : instant * Z) : Z := (in_quote s.1 * twapScale * s.2) / in_base s.1.

Definition time_sorted (trades : list Trade) : Prop :=
  StronglySorted (fun t u => tr_Timestamp t <= tr_Timestamp u) trades.

(** The exact time-weighted average of the slots. *)
Definition slot_price (s : instant * Z) : Q := SetFrac (in_quote s.1) (in_base s.1).

Definition exact_twap (sl : list (instant * Z)) : Q :=
  (qsum (map (fun s => inject_Z s.2 * slot_price s) sl) / qsum (map (fun s => inject_Z s.2) sl))%Q.

(** ** The loop is the reference *)

Lemma instants_unfold t l :
  instants (t :: l) =
  match instants l with
  | (t' :: g) :: gs =>
      if tr_Timestamp t' =? tr_Timestamp t then (t :: t' :: g) :: gs else [t] :: (t' :: g) :: gs
  | gs => [t] :: gs
  end.
Proof. done. Qed.

Lemma instants_cons t l :
  instants (t :: l) = let '(g, n) := span_instant (tr_Timestamp t) l in (t :: g) :: instants n.
Proof.
  revert t; induction l as [|u l IH]; intros t; [done|].
  rewrite instants_unfold, IH. cbn [span_instant]. unfold time_Equal.
  destruct (Z.eqb_spec (tr_Timestamp u) (tr_Timestamp t)) as [E|E].
  - rewrite <- E. destruct (span_instant (tr_Timestamp u) l) as [g n]. by rewrite E, Z.eqb_refl.
  - rewrite IH. destruct (span_instant (tr_Timestamp u) l) as [g n].
    by rewrite (proj2 (Z.eqb_neq _ _)) by done.
Qed.

Lemma span_instant_spec ts l g n : span_instant ts l = (g, n) ->
  l = g ++ n /\ Forall (fun t => tr_Timestamp t = ts) g.
Proof.
  revert g n; induction l as [|t l IH]; simpl; intros g n E; simplify_eq; [done|].
  unfold time_Equal in E. destruct (Z.eqb_spec (tr_Timestamp t) ts); [|by simplify_eq].
  destruct (span_instant ts l) as [g' n']. simplify_eq. destruct (IH g' n eq_refl) as [-> HF].
  split; [done|]. by constructor.
Qed.

Fixpoint sorted_from (prev : option Time) (l : list Trade) : bool :=
  match l with
  | [] => true
  | t :: l' =>
      match prev with Some p => p <=? tr_Timestamp t | None => true end &&
      sorted_from (Some (tr_Timestamp t)) l'
  end.

Lemma sorted_from_run ts g n : Forall (fun t => tr_Timestamp t = ts) g ->
  sorted_from (Some ts) (g ++ n) = sorted_from (Some ts) n.
Proof. induction 1 as [|t g <- HF IH]; simpl; [done|]. by rewrite Z.leb_refl. Qed.

Lemma sorted_from_ge ts l : sorted_from (Some ts) l = true -> Forall (fun t => ts <= tr_Timestamp t) l.
Proof.
  revert ts; induction l as [|t l IH]; intros ts; simpl; [constructor|]. intros H. bprop.
  constructor; [done|]. eapply Forall_impl; [by apply IH|]. simpl. lia.
Qed.

Lemma sorted_from_iff prev l :
  sorted_from prev l = true <->
  time_sorted l /\ match prev with Some p => Forall (fun t => p <= tr_Timestamp t) l | None => True end.
Proof.
  revert prev; induction l as [|t l IH]; intros prev; simpl.
  - split; [|done]. intros _. split; [constructor|]. by destruct prev.
  - rewrite andb_true_iff, IH. split.
    + intros [Hp [Hs HF]]. split; [by constructor|]. destruct prev as [p|]; [|done]. bprop.
      constructor; [done|]. eapply Forall_impl; [exact HF|]. simpl. lia.
    + intros [Hs HF]. apply StronglySorted_inv in Hs as [Hs HF']. split; [|done].
      destruct prev; [|done]. apply Forall_cons in HF as [Hp _]. by apply Z.leb_le.
Qed.

Lemma last_run t g : Forall (fun u => tr_Timestamp u = tr_Timestamp t) g ->
  tr_Timestamp <$> last (t :: g) = Some (tr_Timestamp t).
Proof.
  intros HF. destruct (last (t :: g)) as [u|] eqn:E; [|by apply last_None in E].
  simpl. f_equal. apply last_Some_elem_of in E. apply elem_of_cons in E as [->|E]; [done|].
  rewrite Forall_forall in HF. by apply HF.
Qed.

Lemma twap_loop_eq fuel prev rest st : (length rest <= fuel)%nat ->
  twap_loop fuel prev rest st =
  if sorted_from (tr_Timestamp <$> prev) rest
  then Ok (foldl (fun st g => twap_instant st (start_of g) g) st (instants rest))
  else Err ErrUnsortedTrades.
Proof.
  revert prev rest st; induction fuel as [|fuel IH]; intros prev rest st Hf.
  { destruct rest; simpl in *; [done | lia]. }
  destruct rest as [|t rest]; [done|]. cbn [twap_loop]. rewrite instants_cons. unfold instantEnd.
  destruct (span_instant (tr_Timestamp t) rest) as [g n] eqn:Es.
  apply span_instant_spec in Es as [-> HF]. cbn [sorted_from]. rewrite sorted_from_run by done.
  assert (match prev with Some p => time_Before (tr_Timestamp t) (tr_Timestamp p) | None => false end =
    negb match tr_Timestamp <$> prev with Some p => p <=? tr_Timestamp t | None => true end) as ->.
  { destruct prev as [p|]; simpl; [|done]. unfold time_Before. by rewrite Z.leb_antisym, negb_involutive. }
  destruct (match tr_Timestamp <$> prev with Some p => p <=? tr_Timestamp t | None => true end); simpl; [|done].
  rewrite IH by (simpl in Hf; rewrite length_app in Hf; lia). by rewrite last_run.
Qed.

Lemma instantVolumes_eq g :
  instantVolumes g = (zsum (map tb (priced g)), zsum (map tq (priced g)), Z.of_nat (length (priced g))).
Proof.
  unfold instantVolumes. induction g as [|t g IH] using rev_ind; [done|].
  rewrite foldl_app, IH, priced_app, !map_app, !zsum_app, length_app, (priced_cons t []). simpl.
  destruct (priceable t); simpl; repeat f_equal; lia.
Qed.

(** One priced instant. *)
Definition priced_step (st : twap_state) (p : instant) : twap_state :=
  let st := close_slot st (in_start p) in
  mkTwapState (weightedSum st) (totalNanos st) (weighted st) (Some p).

Lemma twap_instant_eq st g :
  twap_instant st (start_of g) g = match priced_instant g with Some p => priced_step st p | None => st end.
Proof.
  unfold twap_instant, priced_instant. rewrite instantVolumes_eq. by destruct (priced g).
Qed.

Lemma foldl_instants gs st :
  foldl (fun st g => twap_instant st (start_of g) g) st gs = foldl priced_step st (omap priced_instant gs).
Proof.
  revert st; induction gs as [|g gs IH]; intros st; [done|]. simpl. rewrite twap_instant_eq, IH.
  by destruct (priced_instant g).
Qed.

Definition instant_ok (p : instant) : Prop := 0 < in_base p /\ 0 < in_quote p /\ 0 < in_priced p.

(** The state once the pending slot and the remaining instants are closed. *)
Lemma close_slots l st p windowEnd :
  pending st = Some p -> Forall instant_ok (p :: l) ->
  let st' := close_slot (foldl priced_step st l) windowEnd in
  let sl := slots (p :: l) windowEnd in
  weightedSum st' = weightedSum st + zsum (map slot_fixed sl) /\
  totalNanos st' = totalNanos st + zsum (map snd sl) /\
  weighted st' = weighted st + zsum (map (fun s => in_priced s.1) sl).
Proof.
  revert st p; induction l as [|n l IH]; intros st p Hp [Hok HF]%Forall_cons; cbv zeta.
  - simpl. unfold close_slot. rewrite Hp. unfold accrueTWAPSlot.
    destruct (Z.ltb_spec 0 (time_Sub windowEnd (in_start p))); simpl; [|lia].
    rewrite (proj2 (Z.leb_gt _ 0)) by lia. simpl. unfold slot_fixed. simpl.
    destruct Hok as (Hb & Hq & _). rewrite Z.quot_div_nonneg by (unfold twapScale; nia). lia.
  - cbn [foldl]. destruct (IH (priced_step st n) n eq_refl HF) as (-> & -> & ->).
    change (slots (p :: n :: l) windowEnd) with
      ((if 0 <? time_Sub (in_start n) (in_start p) then [(p, time_Sub (in_start n) (in_start p))] else [])
       ++ slots (n :: l) windowEnd).
    rewrite !map_app, !zsum_app. unfold priced_step, close_slot. rewrite Hp. unfold accrueTWAPSlot.
    destruct (Z.ltb_spec 0 (time_Sub (in_start n) (in_start p))); simpl; [|lia].
    rewrite (proj2 (Z.leb_gt _ 0)) by lia. simpl. unfold slot_fixed at 2. simpl.
    destruct Hok as (Hb & Hq & _). rewrite Z.quot_div_nonneg by (unfold twapScale; nia). lia.
Qed.

Lemma priced_instants_ok trades : Forall instant_ok (priced_instants trades).
Proof.
  apply Forall_forall. intros p (g & _ & E)%list_elem_of_omap. unfold priced_instant in E.
  pose proof (priced_sums_pos g) as Hs. destruct (priced g) as [|t l]; [done|].
  injection E as <-. destruct Hs; [done|]. unfold instant_ok. simpl in *. lia.
Qed.

Lemma slots_pos l windowEnd : Forall (fun s => 0 < s.2) (slots l windowEnd).
Proof.
  induction l as [|p l IH]; [constructor|]. cbn [slots]. apply Forall_app. split; [|done].
  case_if; bprop; repeat constructor. done.
Qed.

Lemma TWAPWithCount_eq trades windowEnd :
  TWAPWithCount trades windowEnd =
  let sl := twap_slots trades windowEnd in
  if negb (sorted_from None trades) then Err ErrUnsortedTrades
  else if (length sl =? 0)%nat then Err ErrNoTrades
  else Ok (SetFrac (zsum (map slot_fixed sl)) (zsum (map snd sl) * twapScale),
           zsum (map (fun s => in_priced s.1) sl)).
Proof.
  unfold TWAPWithCount. destruct trades as [|t ts]; [done|]. simpl (length (t :: ts) =? 0)%nat.
  rewrite twap_loop_eq by done. cbn [fmap option_fmap option_map]. cbv zeta. unfold twap_slots.
  destruct (sorted_from None (t :: ts)); cbn [mbind res_bind negb]; [|done].
  rewrite foldl_instants. fold (priced_instants (t :: ts)). pose proof (priced_instants_ok (t :: ts)) as Hok.
  destruct (priced_instants (t :: ts)) as [|p l]; [done|].
  pose proof (close_slots l (priced_step (mkTwapState 0 0 0 None) p) p windowEnd eq_refl Hok) as Hc.
  cbv zeta in Hc. cbn [foldl]. destruct Hc as (-> & -> & ->).
  pose proof (slots_pos (p :: l) windowEnd) as Hpos.
  destruct (slots (p :: l) windowEnd) as [|s sl]; [done|].
  cbn [priced_step close_slot pending weightedSum totalNanos weighted].
  assert (0 < zsum (map snd (s :: sl))) by (apply zsum_pos; [done|]; by apply Forall_map).
  rewrite (proj2 (Z.leb_gt _ 0)) by lia. simpl. done.
Qed.

(** ** Distance from the exact average *)

Local Open Scope Q_scope.

Lemma slots_instants l windowEnd s : s ∈ slots l windowEnd -> s.1 ∈ l.
Proof.
  induction l as [|p l IH]; [by intros ?%not_elem_of_nil|]. cbn [slots].
  intros [Hs|Hs]%elem_of_app; [|right; auto]. case_if_in Hs; [|by apply not_elem_of_nil in Hs].
  apply list_elem_of_singleton in Hs as ->. left.
Qed.

(** Flooring one slot loses less than one fixed-point unit. *)
Lemma slot_floor s : instant_ok s.1 ->
  inject_Z (slot_fixed s) <= inject_Z twapScale * (inject_Z s.2 * slot_price s) < inject_Z (slot_fixed s) + 1.
Proof.
  destruct s as [p d]. intros (Hb & _ & _). unfold slot_fixed, slot_price, SetFrac. simpl in *.
  assert (0 < inject_Z (in_base p)) by by rewrite <- inject_Z_pos.
  set (n := (in_quote p * twapScale * d)%Z).
  assert (inject_Z twapScale * (inject_Z d * (inject_Z (in_quote p) / inject_Z (in_base p))) ==
    inject_Z n / inject_Z (in_base p)) as ->.
  { unfold n. rewrite !inject_Z_mult. field. lra. }
  pose proof (Z.div_mod n (in_base p) ltac:(lia)) as Hn. pose proof (Z.mod_pos_bound n _ Hb) as Hm.
  split.
  - apply Qle_shift_div_l; [done|]. rewrite <- inject_Z_mult, <- Zle_Qle. lia.
  - apply Qlt_shift_div_r; [done|]. change 1 with (inject_Z 1).
    rewrite <- inject_Z_plus, <- inject_Z_mult, <- Zlt_Qlt. lia.
Qed.

Lemma slots_floor sl : Forall (fun s => instant_ok s.1) sl -> Forall (fun s => (0 < s.2)%Z) sl -> sl <> [] ->
  let T := inject_Z (zsum (map snd sl)) in
  inject_Z (zsum (map slot_fixed sl)) <= inject_Z twapScale * qsum (map (fun s => inject_Z s.2 * slot_price s) sl)
    < inject_Z (zsum (map slot_fixed sl)) + T.
Proof.
  intros Hok Hpos Hne. cbv zeta.
  assert (forall s, instant_ok s.1 -> (0 < s.2)%Z -> inject_Z (slot_fixed s) <=
    inject_Z twapScale * (inject_Z s.2 * slot_price s) < inject_Z (slot_fixed s) + inject_Z s.2) as Hone.
  { intros s Ho Hp. pose proof (slot_floor s Ho). assert (inject_Z 1 <= inject_Z s.2) by (rewrite <- Zle_Qle; lia).
    change (inject_Z 1) with 1 in *. split; lra. }
  destruct sl as [|s sl]; [done|]. apply Forall_cons in Hok as [Ho Hok], Hpos as [Hp Hpos].
  simpl. rewrite !inject_Z_plus, Qmult_plus_distr_r. pose proof (Hone s Ho Hp) as Hs.
  assert (inject_Z (zsum (map slot_fixed sl)) <=
    inject_Z twapScale * qsum (map (fun s => inject_Z s.2 * slot_price s) sl)
    <= inject_Z (zsum (map slot_fixed sl)) + inject_Z (zsum (map snd sl))) as Hrest; [|split; lra].
  clear Hne Hs. induction Hok as [|u sl Hu Hok IH]; [vm_compute; split; congruence|].
  apply Forall_cons in Hpos as [Hpu Hpos]. specialize (IH Hpos). simpl.
  rewrite !inject_Z_plus, Qmult_plus_distr_r. pose proof (Hone u Hu Hpu). split; lra.
Qed.

Lemma twap_slots_ok trades windowEnd :
  Forall (fun s => instant_ok s.1) (twap_slots trades windowEnd) /\
  Forall (fun s => (0 < s.2)%Z) (twap_slots trades windowEnd).
Proof.
  split; [|apply slots_pos]. apply Forall_forall. intros s Hs%slots_instants.
  pose proof (priced_instants_ok trades) as Hok. rewrite Forall_forall in Hok. auto.
Qed.

(** The exact average of the slots, from the fixed-point one. *)
Lemma exact_twap_near sl :
  Forall (fun s => instant_ok s.1) sl -> Forall (fun s => (0 < s.2)%Z) sl -> sl <> [] ->
  let p := SetFrac (zsum (map slot_fixed sl)) (zsum (map snd sl) * twapScale) in
  p <= exact_twap sl < p + 1 / inject_Z twapScale.
Proof.
  intros Hok Hpos Hne. pose proof (slots_floor sl Hok Hpos Hne) as [Hl Hu]. cbv zeta in *.
  assert (0 < zsum (map snd sl))%Z as HT by (apply zsum_pos; [by destruct sl | by apply Forall_map]).
  unfold exact_twap, SetFrac. rewrite (qsum_inject snd). rewrite inject_Z_mult.
  rewrite inject_Z_pos in HT.
  assert (0 < inject_Z twapScale) as HS by (rewrite <- inject_Z_pos; reflexivity).
  set (T := inject_Z (zsum (map snd sl))) in *. set (X := qsum _) in *. set (S := inject_Z twapScale) in *.
  set (F := inject_Z (zsum (map slot_fixed sl))) in *. assert (0 < T * S) as HTS by nra.
  assert (X / T == (S * X) / (T * S)) as -> by (field; split; lra).
  assert (F / (T * S) + 1 / S == (F + T) / (T * S)) as -> by (field; split; lra).
  pose proof (Qinv_lt_0_compat _ HTS). unfold Qdiv.
  split; [apply Qmult_le_compat_r | apply Qmult_lt_compat_r]; lra.
Qed.

(** The price of a priced instant is a mean of its trades' prices. *)
Lemma instants_concat trades : concat (instants trades) = trades.
Proof.
  induction trades as [|t ts IH]; [done|]. rewrite instants_unfold.
  destruct (instants ts) as [|[|u g] gs]; simpl in *; [by rewrite <- IH..|].
  case_if; simpl; by rewrite <- IH.
Qed.

Lemma instant_price_between trades windowEnd lo hi s :
  (forall t, t ∈ priced trades -> lo <= trade_price t <= hi) ->
  s ∈ twap_slots trades windowEnd -> lo <= slot_price s <= hi.
Proof.
  intros Hb (g & Hg & E)%slots_instants%list_elem_of_omap. unfold priced_instant in E.
  assert (forall t, t ∈ priced g -> 0 < inject_Z (tb t) /\ lo <= trade_price t <= hi) as Ht.
  { intros t [Hp Hin]%elem_of_priced. split; [rewrite <- inject_Z_pos; apply priceable_iff in Hp; lia|].
    apply Hb, elem_of_priced. split; [done|]. rewrite <- (instants_concat trades).
    apply list_elem_of_In, in_concat. exists g. by rewrite <- !list_elem_of_In. }
  destruct (priced g) as [|t l] eqn:Ep; [done|]. rewrite <- Ep in *. injection E as E.
  unfold slot_price, SetFrac. rewrite <- E. simpl. rewrite <- !qsum_inject.
  apply weighted_mean_between; [by rewrite Ep|]. done.
Qed.

Lemma exact_twap_between trades windowEnd lo hi :
  (forall t, t ∈ priced trades -> lo <= trade_price t <= hi) ->
  twap_slots trades windowEnd <> [] -> lo <= exact_twap (twap_slots trades windowEnd) <= hi.
Proof.
  intros Hb Hne. unfold exact_twap. apply weighted_mean_between; [done|]. intros s Hs.
  destruct (twap_slots_ok trades windowEnd) as [_ Hpos]. rewrite Forall_forall in Hpos.
  specialize (Hpos s Hs). simpl in Hpos. rewrite inject_Z_pos in Hpos. split; [done|].
  pose proof (instant_price_between trades windowEnd lo hi s Hb Hs) as [Hl Hu].
  assert (inject_Z s.2 * slot_price s / inject_Z s.2 == slot_price s) as -> by (field; lra). done.
Qed.

(** ** Properties *)

(** The time-weighted price is total and exact about its failures: an
    unsorted input is always rejected as such, a sorted one fails only when
    no priced instant was current for a positive time. Otherwise the price is
    at most the exact time-weighted average of the instants and less than
    10^-40 below it, that average lies within the range of the priced trades,
    and the count is the number of trades that carried weight. *)
Theorem TWAPWithCount_near_exact trades windowEnd :
  let sl := twap_slots trades windowEnd in
  (TWAPWithCount trades windowEnd = Err ErrUnsortedTrades <-> ~ time_sorted trades) /\
  (TWAPWithCount trades windowEnd = Err ErrNoTrades <-> time_sorted trades /\ sl = []) /\
  (time_sorted trades -> sl <> [] ->
    exists p, TWAPWithCount trades windowEnd = Ok (p, zsum (map (fun s => in_priced s.1) sl)) /\
      p <= exact_twap sl < p + 1 / inject_Z (10 ^ 40) /\
      forall lo hi, (forall t, t ∈ priced trades -> lo <= trade_price t <= hi) -> lo <= exact_twap sl <= hi).
Proof.
  cbv zeta. rewrite TWAPWithCount_eq. cbv zeta. pose proof (sorted_from_iff None trades) as Hs.
  destruct (twap_slots_ok trades windowEnd) as [Hok Hpos].
  destruct (sorted_from None trades); cbn [negb].
  2: { assert (~ time_sorted trades) by (intros Hn; discriminate (proj2 Hs (conj Hn I))). intuition done. }
  assert (time_sorted trades) as Ht by (by apply (proj1 Hs)).
  destruct (twap_slots trades windowEnd) as [|s sl] eqn:Esl; [intuition done|].
  rewrite <- Esl in *. assert (twap_slots trades windowEnd <> []) as Hne by (by rewrite Esl).
  replace (length (twap_slots trades windowEnd) =? 0)%nat with false by (by rewrite Esl).
  split; [intuition done|]. split; [intuition done|]. intros _ _. eexists. split; [reflexivity|].
  split; [by apply exact_twap_near|]. intros lo hi Hb. by apply exact_twap_between.
Qed.

Lemma TWAPWithCount_near_exact_witness :
  exists p, TWAPWithCount window_ex 10 = Ok (p, 2%Z) /\
    p <= exact_twap (twap_slots window_ex 10) < p + 1 / inject_Z (10 ^ 40).
Proof.
  destruct (proj2 (proj2 (TWAPWithCount_near_exact window_ex 10))) as (p & E & Hp & _).
  - repeat constructor; vm_compute; congruence.
  - vm_compute. congruence.
  - exists p. split; [exact E | exact Hp].
Defined.

(** The bound of the fixed-point price is absolute. A relative bound of 10^-40
    does not hold: one trade of 1 for 30, current for one nanosecond, loses
    more than that share of its price. *)
Lemma TWAP_relative_error :
  let trades := [trade_ex "sdex" 0 30 1] in
  exists p, TWAP trades 1 = Ok p /\
    exact_twap (twap_slots trades 1) / inject_Z (10 ^ 40) < exact_twap (twap_slots trades 1) - p.
Proof. eexists. split; [vm_compute; reflexivity|]. vm_compute. reflexivity. Qed.
