(* ===== verification/Proxy.v ===== *)
(** * Derived prices: decimals, triangulation, stablecoin proxies
    (internal/aggregate: decimals.go, triangulate.go, stablecoin.go)

    How a raw ratio becomes a true price when the two assets have different
    decimals, how direct prices chain into a cross price, and how stablecoin
    markets stand in for fiat ones. *)

From S2P Require Import Prelude GoLib Amount Asset Trade RobustStat Window.

(** ** Decimals (decimals.go) *)

Definition StandardDecimals : Z := 7.

(** A [DecimalsLookup] is its [Lookup] method; a nil interface is [None]. *)
Definition ResolveDecimals (lookup : option (string -> option Z)) (asset : Asset) : Z :=
  match lookup with
  | None => StandardDecimals
  | Some f =>
      match f (Asset_String asset) with
      | Some d => d
      | None => StandardDecimals
      end
  end.

Definition DecimalsAdjustment (baseDecimals quoteDecimals : Z) : Q :=
  let delta := wraps 64 (baseDecimals - quoteDecimals) in
  if delta =? 0 then (1 # 1)%Q
  else
    let abs := if delta <? 0 then wraps 64 (- delta) else delta in
    let scale := big_Exp 10 abs in
    if 0 <? delta then inject_Z scale else SetFrac 1 scale.

Definition AdjustPrice (raw : option Q) (baseDecimals quoteDecimals : Z) : option Q :=
  match raw with
  | None => None
  | Some r =>
      if baseDecimals =? quoteDecimals then raw
      else Some (r * DecimalsAdjustment baseDecimals quoteDecimals)%Q
  end.

(** ** Triangulation (triangulate.go) *)

Definition Triangulate (aToB bToC : option Q) : res agg_error Q :=
  match aToB, bToC with
  | Some a, Some b =>
      if Qle_bool a 0 || Qle_bool b 0 then Err ErrTriangulateZero
      else Ok (a * b)%Q
  | _, _ => Err ErrTriangulateZero
  end.

Fixpoint triangulate_loop (out : Q) (prices : list (option Q)) : res agg_error Q :=
  match prices with
  | [] => Ok out
  | p :: ps =>
      match p with
      | None => Err ErrTriangulateZero
      | Some p =>
          if Qle_bool p 0 then Err ErrTriangulateZero
          else triangulate_loop (out * p)%Q ps
      end
  end.

Definition TriangulateChain (prices : list (option Q)) : res agg_error Q :=
  if (length prices =? 0)%nat then Err ErrTriangulateZero
  else triangulate_loop (1 # 1)%Q prices.

(** ** Stablecoin proxies (stablecoin.go) *)

(** The rows of the Go map; the keys are distinct. *)
Definition stablecoinFiatProxy : list (string * string) :=
  [ ("USDT", "USD"); ("USDC", "USD"); ("DAI", "USD"); ("PYUSD", "USD"); ("USDP", "USD");
    ("EURC", "EUR"); ("EUROC", "EUR"); ("EUROB", "EUR"); ("MXNe", "MXN") ].

Fixpoint assoc (k : string) (rows : list (string * string)) : option string :=
  match rows with
  | [] => None
  | (k', v) :: rows' => if String.eqb k k' then Some v else assoc k rows'
  end.

Definition FiatProxy (a : Asset) : option Asset :=
  if bool_decide (Type_ a = AssetCrypto) then
    match assoc (Code a) stablecoinFiatProxy with
    | None => None
    | Some fiat =>
        match NewFiatAsset fiat with
        | Ok proxy => Some proxy
        | Err _ => None
        end
    end
  else None.

Definition IsFiatProxyFor (a : Asset) (fiatCode : string) : bool :=
  match FiatProxy a with
  | Some proxy => String.eqb (Code proxy) fiatCode
  | None => false
  end.

(** The tickers of the rows that target [fiat], in row order. *)
Definition backers_in (rows : list (string * string)) (fiat : string) : list string :=
  omap (fun '(stable, target) => if String.eqb target fiat then Some stable else None) rows.

(** The map is ranged over in an unspecified order; the sort removes it. *)
Definition FiatBackers (fiat : string) : list string :=
  sort_Strings (backers_in stablecoinFiatProxy fiat).

Section Pairs.
Context `{Strkey}.

Definition ProxyPair (p : Pair) : option Pair :=
  match FiatProxy (Quote p) with
  | None => None
  | Some proxy =>
      match NewPair (Base p) proxy with
      | Ok rewritten => Some rewritten
      | Err _ => None
      end
  end.

Definition ProxyTrade (t : Trade) : Trade * bool :=
  match ProxyPair (tr_Pair t) with
  | None => (t, false)
  | Some p =>
      (mkTrade (tr_Source t) (tr_Ledger t) (tr_TxHash t) (tr_OpIndex t) (tr_Timestamp t) p
        (tr_BaseAmount t) (tr_QuoteAmount t) (tr_Maker t) (tr_Taker t) (tr_RoutedVia t), true)
  end.

Definition backer_pair (base : Asset) (ticker : string) : option Pair :=
  match NewCryptoAsset ticker with
  | Err _ => None
  | Ok stable => match NewPair base stable with Ok src => Some src | Err _ => None end
  end.

Definition peg_pair (base : Asset) (classic : Asset) : option Pair :=
  if negb (bool_decide (Type_ classic = AssetClassic)) then None
  else match NewPair base classic with Ok src => Some src | Err _ => None end.

Definition ExpandTargetPairWithClassicPegs (target : Pair) (classicUSDPegs : list Asset)
    : res error (list Pair) :=
  _ ← Pair_Validate target;
  if negb (bool_decide (Type_ (Quote target) = AssetFiat)) then Ok [target]
  else
    let backers := FiatBackers (Code (Quote target)) in
    let out := target :: omap (backer_pair (Base target)) backers in
    Ok (if String.eqb (Code (Quote target)) "USD"
        then out ++ omap (peg_pair (Base target)) classicUSDPegs
        else out).

Definition ExpandTargetPair (target : Pair) : res error (list Pair) :=
  ExpandTargetPairWithClassicPegs target [].
End Pairs.

(** ** Lemmas *)

Lemma assoc_Some k v rows : NoDup rows.*1 -> assoc k rows = Some v <-> (k, v) ∈ rows.
Proof.
  induction rows as [|[k' v'] rows IH]; simpl; [by rewrite elem_of_nil|].
  intros [Hk Hnd]%NoDup_cons. rewrite elem_of_cons. destruct (String.eqb_spec k k') as [->|Hne].
  - split; [naive_solver|]. intros [[= ->]|Hin]; [done|].
    exfalso. apply Hk, list_elem_of_fmap. by exists (k', v).
  - rewrite IH by done. naive_solver.
Qed.

Lemma backers_in_spec rows fiat s : s ∈ backers_in rows fiat <-> (s, fiat) ∈ rows.
Proof.
  unfold backers_in. rewrite list_elem_of_omap. split.
  - intros ([k v] & Hin & E). destruct (String.eqb_spec v fiat); naive_solver.
  - intros Hin. exists (s, fiat). by rewrite String.eqb_refl.
Qed.

Lemma FiatBackers_spec fiat s : s ∈ FiatBackers fiat <-> assoc s stablecoinFiatProxy = Some fiat.
Proof.
  unfold FiatBackers, sort_Strings. rewrite elem_of_isort, backers_in_spec, assoc_Some; [done|].
  apply (bool_decide_unpack _). vm_compute. exact I.
Qed.

(** Sorting a permutation of distinct strings gives the same list. *)
Lemma sort_Strings_perm l1 l2 : l1 ≡ₚ l2 -> sort_Strings l1 = sort_Strings l2.
Proof.
  intros Hp. eapply (StronglySorted_unique_strong (fun a b => str_leb a b = true)).
  - intros x y _ _. apply str_leb_antisym.
  - apply isort_sorted; [apply str_leb_total | apply str_leb_trans].
  - apply isort_sorted; [apply str_leb_total | apply str_leb_trans].
  - unfold sort_Strings. by rewrite !isort_perm.
Qed.

Lemma NewPair_Ok `{Strkey} b q p : NewPair b q = Ok p <-> p = mkPair b q /\ Pair_Validate p = Ok tt.
Proof.
  unfold NewPair. split.
  - intros E. inv_ok. destruct a. done.
  - intros [-> ->]. done.
Qed.

Lemma NewPair_Some `{Strkey} b q p :
  match NewPair b q with Ok r => Some r | Err _ => None end = Some p <->
  p = mkPair b q /\ Pair_Validate p = Ok tt.
Proof. rewrite <- NewPair_Ok. destruct (NewPair b q); naive_solver. Qed.

Lemma backer_pair_spec `{Strkey} base s p :
  backer_pair base s = Some p <->
  IsKnownCrypto s = true /\ p = mkPair base (mkAsset AssetCrypto s "" "") /\ Pair_Validate p = Ok tt.
Proof.
  unfold backer_pair, NewCryptoAsset. destruct (IsKnownCrypto s); [|naive_solver].
  rewrite NewPair_Some. tauto.
Qed.

Lemma peg_pair_spec `{Strkey} base c p :
  peg_pair base c = Some p <-> Type_ c = AssetClassic /\ p = mkPair base c /\ Pair_Validate p = Ok tt.
Proof.
  unfold peg_pair. case_bool_decide; simpl; [|naive_solver]. rewrite NewPair_Some. tauto.
Qed.

(** The quote a stablecoin stands in for. *)
Lemma FiatProxy_spec a f :
  FiatProxy a = Some f <->
  Type_ a = AssetCrypto /\ exists fiat, assoc (Code a) stablecoinFiatProxy = Some fiat /\
    IsKnownFiat fiat = true /\ f = mkAsset AssetFiat fiat "" "".
Proof.
  unfold FiatProxy, NewFiatAsset. case_bool_decide; [|naive_solver].
  destruct (assoc _ _) as [fiat|]; [|naive_solver]. destruct (IsKnownFiat fiat) eqn:E; split.
  - intros [= <-]. eauto.
  - by intros (_ & ? & [= ->] & _ & ->).
  - done.
  - intros (_ & ? & [= ->] & E' & _). congruence.
Qed.

Lemma ProxyPair_spec `{Strkey} p r :
  ProxyPair p = Some r <->
  exists f, FiatProxy (Quote p) = Some f /\ r = mkPair (Base p) f /\ Pair_Validate r = Ok tt.
Proof.
  unfold ProxyPair. destruct (FiatProxy (Quote p)); [|naive_solver].
  rewrite NewPair_Some. naive_solver.
Qed.

(** The stablecoin pairs fetched for a fiat target are those that proxy to it. *)
Lemma backer_pairs_spec `{Strkey} target p :
  Pair_Validate target = Ok tt -> Type_ (Quote target) = AssetFiat ->
  p ∈ omap (backer_pair (Base target)) (FiatBackers (Code (Quote target))) <->
  Pair_Validate p = Ok tt /\ ProxyPair p = Some target.
Proof.
  intros Hv Ht. pose proof Hv as (_ & Hq & _)%Pair_Validate_inv.
  apply Asset_Validate_inv in Hq. rewrite Ht in Hq. destruct Hq as [Hq Hk].
  rewrite list_elem_of_omap, ProxyPair_spec. split.
  - intros (s & Hs%FiatBackers_spec & (_ & -> & Hp)%backer_pair_spec). split; [done|].
    exists (Quote target). rewrite FiatProxy_spec. simpl. destruct target; naive_solver.
  - intros [Hp (f & Hf & -> & _)]. simpl in *. apply FiatProxy_spec in Hf as (Hc & fiat & Ha & _ & ->).
    exists (Code (Quote p)). rewrite FiatBackers_spec, backer_pair_spec. simpl.
    apply Pair_Validate_inv in Hp as Hp'. destruct Hp' as (_ & Hpq & _).
    apply Asset_Validate_inv in Hpq. rewrite Hc in Hpq. destruct Hpq as [Hpq Hkc].
    split; [done|]. split; [done|]. split; [|done]. destruct p; simpl in *. by rewrite <- Hpq.
Qed.

(** ** Properties *)

(** For a valid fiat target the fetch plan is the target itself, first,
    then exactly the valid pairs over the same base that the proxy rewrites
    to the target and, for USD, those quoted in a declared classic peg; any
    other target is fetched alone and a malformed one is an error. The backers
    come in one order whatever order the proxy map is ranged over in. *)
Theorem ExpandTargetPair_exact `{Strkey} target pegs :
  (forall rows, rows ≡ₚ stablecoinFiatProxy ->
     sort_Strings (backers_in rows (Code (Quote target))) = FiatBackers (Code (Quote target))) /\
  match ExpandTargetPairWithClassicPegs target pegs with
  | Err e => Pair_Validate target = Err e
  | Ok out =>
      Pair_Validate target = Ok tt /\ head out = Some target /\
      forall p, p ∈ out <-> p = target \/
        (Type_ (Quote target) = AssetFiat /\ Pair_Validate p = Ok tt /\
         (ProxyPair p = Some target \/
          Code (Quote target) = "USD" /\ Base p = Base target /\
          Type_ (Quote p) = AssetClassic /\ Quote p ∈ pegs))
  end.
Proof.
  split. { intros rows Hp. apply sort_Strings_perm. unfold backers_in. by rewrite Hp. }
  unfold ExpandTargetPairWithClassicPegs.
  destruct (Pair_Validate target) as [[]|e] eqn:Hv; cbn [mbind res_bind]; [|done].
  case_bool_decide as Ht; simpl.
  2: { split; [done|]. split; [done|]. intros p. rewrite list_elem_of_singleton. naive_solver. }
  split; [done|]. destruct (String.eqb_spec (Code (Quote target)) "USD") as [E|E].
  all: (split; [done|]); intros p; rewrite ?elem_of_cons, ?elem_of_app, ?elem_of_cons, backer_pairs_spec by done.
  - rewrite list_elem_of_omap. setoid_rewrite peg_pair_spec. split.
    + intros [->|[?|(c & Hc & Ht' & -> & Hp)]]; [by left | naive_solver|].
      right. split; [done|]. split; [done|]. right. naive_solver.
    + intros [->|(_ & Hp & [?|(_ & Hb & Hc & Hin)])]; [naive_solver..|].
      right. right. exists (Quote p). destruct p; simpl in *. naive_solver.
  - naive_solver.
Qed.

Lemma ExpandTargetPair_exact_witness :
  exists out, @ExpandTargetPairWithClassicPegs plain_strkey xlm_usd [mkAsset AssetClassic "USDC" issuer_ex ""] = Ok out /\
  length out = 7%nat /\ mkPair NativeAsset (mkAsset AssetCrypto "USDT" "" "") ∈ out.
Proof.
  eexists. split; [vm_compute; reflexivity|]. split; [reflexivity|].
  apply (proj2 (proj2 (proj2 (@ExpandTargetPair_exact plain_strkey xlm_usd [mkAsset AssetClassic "USDC" issuer_ex ""])))).
  right. split; [reflexivity|]. split; [vm_compute; reflexivity|]. left. vm_compute. reflexivity.
Defined.

Lemma pow10_pos d : (0 <= d)%Z -> (0 < inject_Z (10 ^ d))%Q.
Proof. intros. rewrite <- inject_Z_pos. by apply Z.pow_pos_nonneg. Qed.

Lemma DecimalsAdjustment_eq b q : 0 <= b <= MaxInt64 -> 0 <= q <= MaxInt64 ->
  (DecimalsAdjustment b q == inject_Z (10 ^ b) / inject_Z (10 ^ q))%Q.
Proof.
  intros Hb Hq. unfold DecimalsAdjustment, MaxInt64, big_Exp in *.
  pose proof (pow10_pos b ltac:(lia)). pose proof (pow10_pos q ltac:(lia)).
  rewrite wraps_small by lia. destruct (Z.eqb_spec (b - q) 0).
  { replace b with q by lia. field. lra. }
  destruct (Z.ltb_spec (b - q) 0).
  - rewrite wraps_small by lia. rewrite (proj2 (Z.ltb_ge 0 _)), (proj2 (Z.leb_gt _ 0)) by lia.
    replace q with (b + - (b - q)) at 2 by lia. rewrite Z.pow_add_r, inject_Z_mult by lia.
    pose proof (pow10_pos (- (b - q)) ltac:(lia)). unfold SetFrac. change (inject_Z 1) with (1#1)%Q. field. lra.
  - rewrite (proj2 (Z.ltb_lt 0 _)), (proj2 (Z.leb_gt _ 0)) by lia.
    replace b with (q + (b - q)) at 2 by lia. rewrite Z.pow_add_r, inject_Z_mult by lia. field. lra.
Qed.

(** For decimals in range, adjusting the raw ratio of two smallest-unit
    amounts gives the ratio of the whole-unit amounts they stand for, and
    adjusting back by the opposite decimals gives the raw ratio again; a
    missing price stays missing. *)
Theorem AdjustPrice_whole_units base quote bd qd :
  0 < base -> 0 <= bd <= MaxInt64 -> 0 <= qd <= MaxInt64 ->
  (exists p, AdjustPrice (Some (SetFrac quote base)) bd qd = Some p /\
    (p == real_units qd quote / real_units bd base)%Q /\
    exists r, AdjustPrice (Some p) qd bd = Some r /\ (r == SetFrac quote base)%Q) /\
  AdjustPrice None bd qd = None.
Proof.
  intros Hbase Hb Hq. split; [|done]. unfold AdjustPrice, SetFrac, real_units.
  pose proof (pow10_pos bd ltac:(lia)). pose proof (pow10_pos qd ltac:(lia)). rewrite inject_Z_pos in Hbase.
  rewrite (Z.eqb_sym qd bd). destruct (Z.eqb_spec bd qd) as [->|Hne].
  - eexists. split; [done|]. split; [field; lra|]. eexists. split; [done|]. reflexivity.
  - eexists. split; [done|]. rewrite DecimalsAdjustment_eq by done. split; [field; lra|].
    eexists. split; [done|]. rewrite !DecimalsAdjustment_eq by done. field. lra.
Qed.

Lemma AdjustPrice_whole_units_witness : exists p,
  AdjustPrice (Some (SetFrac 500 2)) 18 7 = Some p /\ (p == real_units 7 500 / real_units 18 2)%Q.
Proof.
  destruct (AdjustPrice_whole_units 2 500 18 7) as [(p & E & Hp & _) _];
    [reflexivity | vm_compute; split; congruence | vm_compute; split; congruence|].
  exists p. split; [exact E | exact Hp].
Defined.

(** *** Chains *)

Lemma triangulate_loop_Ok out prices p :
  triangulate_loop out prices = Ok p <->
  exists l, prices = Some <$> l /\ Forall (fun q => 0 < q)%Q l /\ p = foldl Qmult out l.
Proof.
  revert out; induction prices as [|o prices IH]; intros out; simpl.
  - split; [intros [= <-]; by exists []|]. intros (l & Hl & _ & ->). destruct l; naive_solver.
  - destruct o as [q|]; [|split; [done|]; intros ([|q l] & ? & _); naive_solver].
    destruct (Qle_bool q 0) eqn:E; qprop.
    + split; [done|]. intros ([|q' l] & ? & HF & _); [done|]. simplify_eq/=.
      apply Forall_cons in HF as [? _]. lra.
    + rewrite IH. split.
      * intros (l & -> & HF & ->). exists (q :: l). split; [done|]. split; [by constructor | done].
      * intros ([|q' l] & ? & HF & ->); [done|]. simplify_eq/=. apply Forall_cons in HF as [_ HF]. eauto.
Qed.

Lemma TriangulateChain_Ok prices p :
  TriangulateChain prices = Ok p ->
  exists l, prices = Some <$> l /\ l <> [] /\ Forall (fun q => 0 < q)%Q l /\ (p == qprod l)%Q.
Proof.
  unfold TriangulateChain. case_if; [done|]. intros (l & -> & HF & ->)%triangulate_loop_Ok.
  exists l. split; [done|]. split; [by destruct l|]. split; [done|]. rewrite foldl_qprod. lra.
Qed.

Lemma TriangulateChain_all l : l <> [] -> Forall (fun q => 0 < q)%Q l ->
  TriangulateChain (Some <$> l) = Ok (foldl Qmult (1 # 1)%Q l).
Proof.
  intros Hne HF. unfold TriangulateChain. rewrite (proj2 (Nat.eqb_neq _ 0)) by (destruct l; simpl; [done | lia]).
  apply triangulate_loop_Ok. eauto.
Qed.

(** A chain of direct prices has a cross price exactly when it is not
    empty and every link is present and positive; the price is then positive,
    it is the product of the links, and splitting the chain anywhere and
    triangulating the two halves gives the same price. *)
Theorem TriangulateChain_product prices :
  ((exists p, TriangulateChain prices = Ok p) <->
   prices <> [] /\ Forall (fun o => exists q, o = Some q /\ 0 < q)%Q prices) /\
  (forall p, TriangulateChain prices = Ok p -> (0 < p)%Q /\ (p == qprod (omap id prices))%Q) /\
  (forall l1 l2 p1 p2, prices = l1 ++ l2 ->
     TriangulateChain l1 = Ok p1 -> TriangulateChain l2 = Ok p2 ->
     exists p r, TriangulateChain prices = Ok p /\ Triangulate (Some p1) (Some p2) = Ok r /\ (p == r)%Q).
Proof.
  split; [|split].
  - split.
    + intros [p (l & -> & Hne & HF & _)%TriangulateChain_Ok]. split; [by destruct l|].
      apply Forall_fmap. eapply Forall_impl; [exact HF|]. simpl. eauto.
    + intros [Hne HF]. assert (exists l, prices = Some <$> l /\ Forall (fun q => 0 < q)%Q l) as (l & -> & Hl).
      { clear Hne. induction HF as [|o prices (q & -> & Hq) HF (l & -> & Hl)]; [by exists []|].
        exists (q :: l). split; [done|]. by constructor. }
      eexists. apply TriangulateChain_all; [by destruct l | done].
  - intros p (l & -> & Hne & HF & Hp)%TriangulateChain_Ok.
    assert (omap id (Some <$> l) = l) as -> by (clear; induction l; simpl; [done | by f_equal]).
    split; [|done]. rewrite Hp. by apply qprod_pos.
  - intros l1 l2 p1 p2 -> (a & -> & Ha & HFa & Hp1)%TriangulateChain_Ok (b & -> & Hb & HFb & Hp2)%TriangulateChain_Ok.
    rewrite <- fmap_app, TriangulateChain_all by (try (by destruct a); by apply Forall_app).
    eexists _, (p1 * p2)%Q. split; [done|]. split; [|rewrite foldl_qprod, qprod_app, <- Hp1, <- Hp2; lra].
    pose proof (qprod_pos a HFa). pose proof (qprod_pos b HFb). unfold Triangulate.
    rewrite (proj2 (Qle_bool_false p1 0)), (proj2 (Qle_bool_false p2 0)) by lra. done.
Qed.

Lemma TriangulateChain_product_witness :
  exists p r, TriangulateChain [Some (2 # 1)%Q; Some (3 # 7)%Q] = Ok p /\
    Triangulate (Some (1 * (2 # 1))%Q) (Some (1 * (3 # 7))%Q) = Ok r /\ (p == r)%Q.
Proof.
  apply (proj2 (proj2 (TriangulateChain_product [Some (2 # 1)%Q; Some (3 # 7)%Q])) [Some (2 # 1)%Q] [Some (3 # 7)%Q]);
    reflexivity.
Defined.
