(* ===== verification/Outliers.v ===== *)
(** * Outlier filters (internal/aggregate: outliers.go, outliers_local.go)

    The whole-window filter and the time-local one of the published VWAP. A
    trade's price is compared with robust references in ratio space; a trim
    that would delete the base-volume majority withholds the window instead.

    Slices are lists, and an index the code reads is in range by construction;
    the default of a lookup is never reached. [sigma] is a [float64]: NaN is
    not [<= 0] and has no rational, so it disables the trim. *)

From S2P Require Import Prelude GoLib Float64 Amount Asset Trade RobustStat Window.

Local Open Scope Q_scope.

(** ** The whole-window filter (outliers.go) *)

Definition priceRat (t : Trade) : option Q :=
  let b := tb t in
  if (Z.sgn b <=? 0)%Z then None
  else
    let q := tq t in
    if (Z.sgn q <=? 0)%Z then None
    else Some (SetFrac q b).

(** The usable trades with their indices and prices, in input order. *)
Definition usable (trades : list Trade) : list (nat * Trade * Q) :=
  omap (fun it => match priceRat it.2 with Some p => Some (it, p) | None => None end)
    (imap pair trades).

Definition validIdx_of (trades : list Trade) : list nat := map (fun r => r.1.1) (usable trades).
Definition prices_of (trades : list Trade) : list Q := map snd (usable trades).

Definition keepByIndex (trades : list Trade) (idx : list nat) : list Trade :=
  omap (fun i => trades !! i) idx.

Definition volume_at (vol : list Trade) (idx : list nat) : Z :=
  zsum (map (fun i => from_option tb 0%Z (vol !! i)) idx).

Definition keepIfVolumeMajority (trades : list Trade) (validIdx kept : list nat)
    (scaleOf : option (string -> Z)) : list Trade :=
  if (length kept =? length validIdx)%nat then keepByIndex trades kept
  else
    let vol := match scaleOf with
               | Some f => w_trades (NormalizeAmountScale trades f)
               | None => trades
               end in
    let total := volume_at vol validIdx in
    let keptVol := volume_at vol kept in
    if (Z.shiftl keptVol 1 <? total)%Z then [] else keepByIndex trades kept.

Definition localScaleRelFloor : Q := 1 # 400.

(** The scale floored at [localScaleRelFloor] of the centre. *)
Definition floor_scale (centre scale : Q) : Q :=
  let floor := Qabs (localScaleRelFloor * centre) in
  if Qlt_bool scale floor then floor else scale.

Definition FilterOutliers (trades : list Trade) (sigma : float64) : list Trade :=
  if f64_le sigma f64_zero || (length trades <? 3)%nat then trades
  else
    let prices := prices_of trades in
    let validIdx := validIdx_of trades in
    if (length prices <? 3)%nat then keepByIndex trades validIdx
    else
      match CentreScale prices with
      | None => keepByIndex trades validIdx
      | Some (centre, scale) =>
          let scale := floor_scale centre scale in
          match SetFloat64 sigma with
          | None => keepByIndex trades validIdx
          | Some sigmaRat =>
              let threshold := sigmaRat * scale in
              let kept := omap (fun r =>
                match SymmetricDev (Some r.2) (Some centre) with
                | None => None
                | Some dev => if Qlt_bool threshold dev then None else Some r.1.1
                end) (usable trades) in
              keepIfVolumeMajority trades validIdx kept None
          end
      end.

Definition ScaledWindow_FilterOutliers (w : ScaledWindow) (sigma : float64) : ScaledWindow :=
  mkScaledWindow (FilterOutliers (w_trades w) sigma) (w_decimals w).

(** ** The time-local filter (outliers_local.go) *)

Definition DefaultOutlierBucket : Duration := Minute.
Definition DefaultOutlierMinBucket : Z := 3.
Definition DefaultOutlierNeighbours : Z := 5.

Record LocalOutlierOptions := mkOpts {
  Sigma : float64;
  Bucket : Duration;
  MinBucket : Z;
  Neighbours : Z;
  Weight : option (Trade -> Z);
  AmountScaleDecimals : option (string -> Z)
}.

Definition withDefaults (o : LocalOutlierOptions) : LocalOutlierOptions :=
  mkOpts (Sigma o)
    (if (Bucket o <=? 0)%Z then DefaultOutlierBucket else Bucket o)
    (if (MinBucket o <=? 0)%Z then DefaultOutlierMinBucket else MinBucket o)
    (if (Neighbours o <=? 0)%Z then DefaultOutlierNeighbours else Neighbours o)
    (Weight o) (AmountScaleDecimals o).

Record robustRef := mkRef { ref_centre : Q; ref_scale : Q }.

Definition localScaleRelCeiling : Q := 1 # 100.

(** [prices] is never empty at a call. *)
Definition newRobustRef (prices : list Q) (w : option (list Z)) : robustRef :=
  match WeightedCentreScale prices w with
  | Some (c, s) => mkRef c s
  | None => mkRef 0 0
  end.

Definition newLocalRef (prices : list Q) (w : option (list Z)) : robustRef :=
  let r := newRobustRef prices w in
  let floor := Qabs (localScaleRelFloor * ref_centre r) in
  let scale := if Qlt_bool (ref_scale r) floor then floor else ref_scale r in
  let ceiling := Qabs (localScaleRelCeiling * ref_centre r) in
  let scale := if Qlt_bool 0 ceiling && Qlt_bool ceiling scale then ceiling else scale in
  mkRef (ref_centre r) scale.

(** [None] is [ok = false]. *)
Definition ref_score (r : robustRef) (p : Q) : option Q :=
  match SymmetricDev (Some p) (Some (ref_centre r)) with
  | None => None
  | Some dev =>
      if Qeq_bool (ref_scale r) 0 then if Qeq_bool dev 0 then Some 0 else None
      else Some (dev / ref_scale r)
  end.

Definition minScore (best : option Q) (ref : robustRef) (p : Q) : option Q :=
  match ref_score ref p with
  | None => best
  | Some s =>
      match best with
      | None => Some s
      | Some b => if Qlt_bool s b then Some s else best
      end
  end.

Definition TradeOrderLess (a b : Trade) : bool :=
  if negb (time_Equal (tr_Timestamp a) (tr_Timestamp b)) then time_Before (tr_Timestamp a) (tr_Timestamp b)
  else if negb (tr_Ledger a =? tr_Ledger b)%Z then (tr_Ledger a <? tr_Ledger b)%Z
  else if negb (String.eqb (tr_TxHash a) (tr_TxHash b)) then str_ltb (tr_TxHash a) (tr_TxHash b)
  else if negb (tr_OpIndex a =? tr_OpIndex b)%Z then (tr_OpIndex a <? tr_OpIndex b)%Z
  else str_ltb (tr_Source a) (tr_Source b).

(** The stable sort by [TradeOrderLess]. *)
Definition trade_leb (a b : Trade) : bool := negb (TradeOrderLess b a).

Definition withinTol (a b tol : Q) : bool := Qle_bool (Qabs (a - b)) tol.

Definition anchorTolerance (window : robustRef) (sigma : float64) : Q :=
  let tol := Qabs (localScaleRelCeiling * ref_centre window) in
  let tol := if Qlt_bool tol (ref_scale window) then ref_scale window else tol in
  match SetFloat64 sigma with
  | None => tol
  | Some s => tol * s
  end.

Record priceBucket := mkBucket { members : list nat; bucket_ref : option robustRef }.

Record localIndex := mkIndex {
  ix_opts : LocalOutlierOptions;
  ix_prices : list Q;
  ix_weights : option (list Z);
  ix_order : list nat;
  ix_bucketOf : list nat;
  ix_buckets : list priceBucket;
  ix_window : robustRef;
  ix_anchorTol : Q;
  ix_lastAnchored : option Q
}.

Definition set_buckets (ix : localIndex) (bs : list priceBucket) : localIndex :=
  mkIndex (ix_opts ix) (ix_prices ix) (ix_weights ix) (ix_order ix) (ix_bucketOf ix) bs
    (ix_window ix) (ix_anchorTol ix) (ix_lastAnchored ix).

Definition set_anchor (ix : localIndex) (c : option Q) : localIndex :=
  mkIndex (ix_opts ix) (ix_prices ix) (ix_weights ix) (ix_order ix) (ix_bucketOf ix) (ix_buckets ix)
    (ix_window ix) (ix_anchorTol ix) c.

Definition price_at (ix : localIndex) (pos : nat) : Q := default 0 (ix_prices ix !! pos).
Definition order_at (ix : localIndex) (k : nat) : nat := default 0%nat (ix_order ix !! k).

Definition weight (ix : localIndex) (pos : nat) : Z :=
  match ix_weights ix with
  | None => 1
  | Some ws => default 0%Z (ws !! pos)
  end.

(** The verdict, and the index with the chain head moved on success. *)
Definition anchored (ix : localIndex) (centre : Q) : bool * localIndex :=
  let ok := withinTol centre (ref_centre (ix_window ix)) (ix_anchorTol ix) ||
    match ix_lastAnchored ix with
    | Some l => withinTol centre l (ix_anchorTol ix)
    | None => false
    end in
  (ok, if ok then set_anchor ix (Some centre) else ix).

(** One qualifying bucket: its reference if anchored. *)
Definition anchor_bucket (ix : localIndex) (b : priceBucket) : priceBucket * localIndex :=
  let n := int64_sum (map (fun k => weight ix (order_at ix k)) (members b)) in
  if (n <? MinBucket (ix_opts ix))%Z then (b, ix)
  else
    let ps := map (fun k => price_at ix (order_at ix k)) (members b) in
    let ws := match ix_weights ix with
              | None => None
              | Some _ => Some (map (fun k => weight ix (order_at ix k)) (members b))
              end in
    let ref := newLocalRef ps ws in
    let '(ok, ix) := anchored ix (ref_centre ref) in
    (if ok then mkBucket (members b) (Some ref) else b, ix).

Fixpoint anchor_loop (ix : localIndex) (bs : list priceBucket) : list priceBucket * localIndex :=
  match bs with
  | [] => ([], ix)
  | b :: bs' =>
      let '(b, ix) := anchor_bucket ix b in
      let '(bs', ix) := anchor_loop ix bs' in
      (b :: bs', ix)
  end.

Definition anchorBuckets (ix : localIndex) : localIndex :=
  let '(bs, ix) := anchor_loop (set_anchor ix None) (ix_buckets ix) in
  set_anchor (set_buckets ix bs) None.

(** The partition into buckets: the ones before the last, the last, its key. *)
Definition bucket_step (key : Z) (k : nat) (st : list priceBucket * Z * list nat)
    : list priceBucket * Z * list nat :=
  let '(buckets, lastKey, bucketOf) := st in
  let '(buckets, lastKey) :=
    if (length buckets =? 0)%nat || negb (key =? lastKey)%Z
    then (buckets ++ [mkBucket [] None], key) else (buckets, lastKey) in
  let bi := (length buckets - 1)%nat in
  let buckets := alter (fun b => mkBucket (members b ++ [k]) (bucket_ref b)) bi buckets in
  (buckets, lastKey, bucketOf ++ [bi]).

(** [rows] are the usable trades with their positions, in time order. *)
Fixpoint bucket_loop (bucket : Duration) (rows : list (nat * Trade)) (k : nat)
    (st : list priceBucket * Z * list nat) : list priceBucket * Z * list nat :=
  match rows with
  | [] => st
  | (_, t) :: rows' =>
      bucket_loop bucket rows' (S k) (bucket_step (time_UnixNano (time_Truncate (tr_Timestamp t) bucket)) k st)
  end.

Definition newLocalIndex (utrades : list Trade) (prices : list Q) (weights : option (list Z))
    (opts : LocalOutlierOptions) : localIndex :=
  let rows := isort (fun a b => trade_leb a.2 b.2) (imap pair utrades) in
  let '(buckets, _, bucketOf) := bucket_loop (Bucket opts) rows 0 ([], 0%Z, []) in
  let window := newRobustRef prices weights in
  anchorBuckets (mkIndex opts prices weights (map fst rows) bucketOf buckets window
    (anchorTolerance window (Sigma opts)) None).

Definition bucketRef (ix : localIndex) (bi : Z) : option robustRef :=
  if (bi <? 0)%Z || (Z.of_nat (length (ix_buckets ix)) <=? bi)%Z then None
  else b ← ix_buckets ix !! Z.to_nat bi; bucket_ref b.

(** One side of the neighbourhood: positions outward from [k], nearest first. *)
Fixpoint take_side (ix : localIndex) (side : list nat) (budget : Z) : list (nat * Z) :=
  match side with
  | [] => []
  | pos :: side' =>
      if (0 <? budget)%Z then
        let n := Z.min (weight ix pos) budget in
        (pos, n) :: take_side ix side' (budget - n)
      else []
  end.

Definition neighbourhoodRef (ix : localIndex) (k : nat) : option robustRef * localIndex :=
  let per := Neighbours (ix_opts ix) in
  let own := (weight ix (order_at ix k) - 1)%Z in
  let ownL := Z.min (Z.quot own 2) per in
  let ownR := Z.min (own - Z.quot own 2) per in
  let neigh :=
    (if (0 <? ownL + ownR)%Z then [(order_at ix k, (ownL + ownR)%Z)] else []) ++
    take_side ix (rev (take k (ix_order ix))) (per - ownL) ++
    take_side ix (drop (S k) (ix_order ix)) (per - ownR) in
  match neigh with
  | [] => (None, ix)
  | _ =>
      let ws := match ix_weights ix with None => None | Some _ => Some (map snd neigh) end in
      let ref := newLocalRef (map (fun pn => price_at ix pn.1) neigh) ws in
      let '(ok, ix) := anchored ix (ref_centre ref) in
      (if ok then Some ref else None, ix)
  end.

Definition minScore_opt (best : option Q) (ref : option robustRef) (p : Q) : option Q :=
  match ref with Some r => minScore best r p | None => best end.

Definition score (ix : localIndex) (k : nat) : option Q * localIndex :=
  let p := price_at ix (order_at ix k) in
  let best := minScore None (ix_window ix) p in
  let bi := Z.of_nat (default 0%nat (ix_bucketOf ix !! k)) in
  let own := bucketRef ix bi in
  let ix := match own with Some r => set_anchor ix (Some (ref_centre r)) | None => ix end in
  let best := foldl (fun best ref => minScore_opt best ref p) best
    [own; bucketRef ix (bi - 1); bucketRef ix (bi + 1)] in
  match own with
  | Some _ => (best, ix)
  | None =>
      let '(ref, ix) := neighbourhoodRef ix k in
      (minScore_opt best ref p, ix)
  end.

(** [z[order[k]] = score k], in time order. *)
Fixpoint score_loop (ix : localIndex) (order : list nat) (k : nat) (z : list (option Q)) : list (option Q) :=
  match order with
  | [] => z
  | pos :: order' =>
      let '(s, ix) := score ix k in
      score_loop ix order' (S k) (<[pos := s]> z)
  end.

Definition row_weight (opts : LocalOutlierOptions) (t : Trade) : Z :=
  match Weight opts with Some f => Z.max (f t) 1 | None => 1 end.

Definition weights_of (opts : LocalOutlierOptions) (utrades : list Trade) : option (list Z) :=
  match Weight opts with
  | None => None
  | Some f => match utrades with [] => None | _ => Some (map (row_weight opts) utrades) end
  end.

(** [z = None] is the nil slice: too few usable prices. *)
Definition outlierScores (trades : list Trade) (opts : LocalOutlierOptions)
    : list nat * option (list (option Q)) :=
  let opts := withDefaults opts in
  let prices := prices_of trades in
  let validIdx := validIdx_of trades in
  let utrades := map (fun r => r.1.2) (usable trades) in
  let total := int64_sum (map (row_weight opts) utrades) in
  if (total <? 3)%Z then (validIdx, None)
  else
    let ix := newLocalIndex utrades prices (weights_of opts utrades) opts in
    (validIdx, Some (score_loop ix (ix_order ix) 0 (replicate (length prices) None))).

Definition FilterOutliersLocal (trades : list Trade) (opts : LocalOutlierOptions) : list Trade :=
  if f64_le (Sigma opts) f64_zero ||
     ((length trades <? 3)%nat && match Weight opts with None => true | Some _ => false end)
  then trades
  else
    let '(validIdx, z) := outlierScores trades opts in
    match z with
    | None => keepByIndex trades validIdx
    | Some z =>
        match SetFloat64 (Sigma opts) with
        | None => keepByIndex trades validIdx
        | Some sigmaRat =>
            let kept := omap (fun iz : nat * option Q =>
              match iz.2 with
              | None => None
              | Some s => if Qlt_bool sigmaRat s then None else Some iz.1
              end) (combine validIdx z) in
            keepIfVolumeMajority trades validIdx kept (AmountScaleDecimals opts)
        end
    end.

(** ** Ratio-symmetric bands *)

(** For positive prices the deviation is defined, and staying within [T] of
    the centre is staying in the multiplicative band around it. *)
Lemma SymmetricDev_band p c : 0 < p -> 0 < c ->
  exists d, SymmetricDev (Some p) (Some c) = Some d /\ 0 <= d /\
    forall T, 0 <= T -> d <= T <-> c * c / (c + T) <= p <= c + T.
Proof.
  intros Hp Hc. unfold SymmetricDev. rewrite (proj2 (Qle_bool_false c 0)) by done. cbn [orb].
  destruct (Qle_bool c p) eqn:E; qprop.
  - eexists. split; [done|].
    assert (Qabs (p - c) == p - c) as Hd by (apply (Qabs_pos (p - c)); lra). split; [lra|]. intros T HT.
    assert (c * c / (c + T) <= p) by (apply Qle_shift_div_r; [lra | nra]).
    split; [intros; split; [done | lra] | intros [_ ?]; lra].
  - rewrite (proj2 (Qle_bool_false p 0)) by done. eexists. split; [done|].
    split; [apply Qle_shift_div_l; nra|]. intros T HT. rewrite !Qdiv_le_iff by lra. split; [|nra].
    intros. split; [nra | lra].
Qed.

(** ** Usable trades *)

Lemma priceRat_eq t : priceRat t = if priceable t then Some (trade_price t) else None.
Proof.
  unfold priceRat, priceable. destruct (Z.leb_spec (Z.sgn (tb t)) 0), (Z.leb_spec (Z.sgn (tq t)) 0),
    (Z.ltb_spec 0 (Z.sgn (tb t))), (Z.ltb_spec 0 (Z.sgn (tq t))); simpl; done || lia.
Qed.

(** Positions, trades and prices of a list from index [n] on. *)
Definition usable_from (n : nat) (trades : list Trade) : list (nat * Trade * Q) :=
  omap (fun it => match priceRat it.2 with Some p => Some (it, p) | None => None end)
    (imap (fun i t => ((n + i)%nat, t)) trades).

Lemma usable_from_cons n t ts : usable_from n (t :: ts) =
  (if priceable t then [(n, t, trade_price t)] else []) ++ usable_from (S n) ts.
Proof.
  unfold usable_from. simpl. rewrite priceRat_eq.
  replace (n + 0)%nat with n by lia.
  rewrite (imap_ext _ (fun i t => (S n + i, t)%nat)) by (intros i x _; simpl; f_equal; lia).
  by destruct (priceable t).
Qed.

Lemma usable_usable_from trades : usable trades = usable_from 0 trades.
Proof. done. Qed.

Lemma usable_from_trades n ts : map (fun r => r.1.2) (usable_from n ts) = priced ts.
Proof.
  revert n; induction ts as [|t ts IH]; intros n; [done|]. rewrite usable_from_cons, priced_cons.
  destruct (priceable t); simpl; by rewrite IH.
Qed.

Lemma usable_from_prices n ts : map snd (usable_from n ts) = map trade_price (priced ts).
Proof.
  revert n; induction ts as [|t ts IH]; intros n; [done|]. rewrite usable_from_cons, priced_cons.
  destruct (priceable t); simpl; by rewrite IH.
Qed.

Lemma usable_from_row n ts r : r ∈ usable_from n ts ->
  (n <= r.1.1)%nat /\ ts !! (r.1.1 - n)%nat = Some r.1.2 /\ priceable r.1.2 = true /\ r.2 = trade_price r.1.2.
Proof.
  revert n; induction ts as [|t ts IH]; intros n; [by intros ?%not_elem_of_nil|].
  rewrite usable_from_cons. intros [Hr|Hr]%elem_of_app.
  - destruct (priceable t) eqn:E; [|by apply not_elem_of_nil in Hr].
    apply list_elem_of_singleton in Hr as ->. simpl. by rewrite Nat.sub_diag.
  - destruct (IH _ Hr) as (Hn & Hl & Hp). split; [lia|]. split; [|done].
    replace (r.1.1 - n)%nat with (S (r.1.1 - S n)) by lia. done.
Qed.

Lemma usable_row trades r : r ∈ usable trades ->
  trades !! r.1.1 = Some r.1.2 /\ priceable r.1.2 = true /\ r.2 = trade_price r.1.2.
Proof.
  rewrite usable_usable_from. intros (_ & Hl & Hp)%usable_from_row. by rewrite Nat.sub_0_r in Hl.
Qed.

Lemma prices_of_eq trades : prices_of trades = map trade_price (priced trades).
Proof. apply (usable_from_prices 0). Qed.

(** Keeping the rows of the usable list that satisfy [f]. *)
Lemma keep_rows trades (l : list (nat * Trade * Q)) :
  Forall (fun r => trades !! r.1.1 = Some r.1.2) l ->
  keepByIndex trades (map (fun r => r.1.1) l) = map (fun r => r.1.2) l.
Proof.
  unfold keepByIndex. induction 1 as [|r l Hr HF IH]; [done|]. simpl. rewrite Hr. f_equal. exact IH.
Qed.

Lemma usable_rows_ok trades : Forall (fun r => trades !! r.1.1 = Some r.1.2) (usable trades).
Proof. apply Forall_forall. intros r (Hr & _)%usable_row. done. Qed.

Lemma volume_rows (vol trades : list Trade) (g : Trade -> Trade) (l : list (nat * Trade * Q)) :
  (forall i t, trades !! i = Some t -> vol !! i = Some (g t)) ->
  Forall (fun r => trades !! r.1.1 = Some r.1.2) l ->
  volume_at vol (map (fun r => r.1.1) l) = zsum (map (fun t => tb (g t)) (map (fun r => r.1.2) l)).
Proof.
  intros Hv. unfold volume_at. induction 1 as [|r l Hr HF IH]; [done|]. simpl. rewrite (Hv _ _ Hr), IH. done.
Qed.

(** The lift the volume comparison applies to a trade. *)
Definition vol_lift (trades : list Trade) (scaleOf : option (string -> Z)) (t : Trade) : Trade :=
  match scaleOf with
  | Some f => lifted f (common_scale f trades) t
  | None => t
  end.

Definition base_volume (g : Trade -> Trade) (l : list Trade) : Z := zsum (map (fun t => tb (g t)) l).

(** The volume rule, on trades instead of indices. *)
Lemma keepIfVolumeMajority_rows (trades : list Trade) (l : list (nat * Trade * Q)) scaleOf :
  Forall (fun r => trades !! r.1.1 = Some r.1.2) l ->
  let g := vol_lift trades scaleOf in
  let kept := map (fun r => r.1.2) l in
  keepIfVolumeMajority trades (validIdx_of trades) (map (fun r => r.1.1) l) scaleOf =
  if negb (length kept =? length (priced trades))%nat &&
     (2 * base_volume g kept <? base_volume g (priced trades))%Z then [] else kept.
Proof.
  intros HF g kept. unfold keepIfVolumeMajority, validIdx_of.
  pose proof (usable_from_trades 0 trades) as Hu. rewrite <- usable_usable_from in Hu.
  rewrite !length_map. subst kept. rewrite length_map, <- Hu, length_map, keep_rows by done.
  destruct (length l =? length (usable trades))%nat; [done|]. simpl.
  set (vol := match scaleOf with Some f => w_trades (NormalizeAmountScale trades f) | None => trades end).
  assert (forall i t, trades !! i = Some t -> vol !! i = Some (g t)) as Hv.
  { intros i t Hi. subst vol g. destruct scaleOf as [f|]; [|done]. rewrite NormalizeAmountScale_eq. simpl.
    change (map ?f ?l) with (f <$> l). by rewrite list_lookup_fmap, Hi. }
  rewrite (volume_rows vol trades g l Hv HF), (volume_rows vol trades g (usable trades) Hv (usable_rows_ok trades)).
  unfold base_volume. rewrite Z.shiftl_mul_pow2 by lia. by rewrite (Z.mul_comm _ (2 ^ 1)).
Qed.

Lemma CentreScale_defined vals : vals <> [] -> is_Some (CentreScale vals).
Proof.
  intros Hne. unfold CentreScale, WeightedCentreScale, WeightedMedian.
  destruct (Median_defined vals Hne) as [c Hc]. destruct vals as [|v vals]; [done|]. rewrite Hc. simpl.
  destruct (Median_defined (abs_devs (v :: vals) c)) as [m Hm]; [done|]. simpl in Hm. rewrite Hm. done.
Qed.

Lemma CentreScale_Some vals c s : CentreScale vals = Some (c, s) -> Median vals = Some c /\ 0 <= s.
Proof.
  unfold CentreScale, WeightedCentreScale, WeightedMedian. destruct vals as [|v vals]; [done|].
  intros E. apply bind_Some in E as (c' & Hc & E). apply bind_Some in E as (m & Hm & [= <- <-]).
  split; [done|]. assert (0 <= m) by (eapply Median_nonneg, Hm; apply Forall_map, Forall_forall; intros; apply Qabs_nonneg).
  unfold madToStd. repeat case_if; qprop; lra.
Qed.

Lemma floor_scale_pos c s : 0 < c -> 0 < floor_scale c s.
Proof.
  intros Hc. unfold floor_scale, localScaleRelFloor.
  assert (Qabs ((1 # 400) * c) == (1 # 400) * c) as Hd by (apply (Qabs_pos ((1 # 400) * c)); lra).
  destruct (Qlt_bool s _) eqn:E; qprop; lra.
Qed.

Lemma omap_rows (f : nat * Trade * Q -> bool) (l : list (nat * Trade * Q)) (h : nat * Trade * Q -> option nat) :
  (forall r, r ∈ l -> h r = if f r then Some r.1.1 else None) ->
  omap h l = map (fun r => r.1.1) (filter (fun r => f r = true) l).
Proof.
  induction l as [|r l IH]; intros Hh; [done|]. simpl. rewrite Hh by left. rewrite filter_cons.
  assert (omap h l = map (fun r => r.1.1) (filter (fun r => f r = true) l)) as IHl
    by (apply IH; intros; apply Hh; by right).
  destruct (f r); simpl; [f_equal|]; exact IHl.
Qed.

Lemma usable_filter (f : Trade -> bool) trades :
  map (fun r => r.1.2) (filter (fun r : nat * Trade * Q => f r.1.2 = true) (usable trades)) =
  filter (fun t => f t = true) (priced trades).
Proof.
  rewrite usable_usable_from. generalize 0%nat as n. induction trades as [|t ts IH]; intros n; [done|].
  rewrite usable_from_cons, priced_cons. destruct (priceable t); simpl; [|apply IH].
  rewrite !filter_cons. simpl. destruct (decide (f t = true)); simpl; by rewrite IH.
Qed.

Lemma base_volume_nonneg trades l : (forall t, t ∈ l -> t ∈ priced trades) -> (0 <= base_volume id l)%Z.
Proof.
  intros Hl. apply zsum_nonneg, Forall_map, Forall_forall. intros t Ht%Hl.
  apply priced_pos in Ht. simpl. lia.
Qed.

Lemma f64_active sigma s : SetFloat64 sigma = Some s -> 0 < s -> f64_le sigma f64_zero = false.
Proof.
  unfold f64_le, SpecFloat.SFleb. destruct sigma as [b|b| |b m e]; simpl; try done; intros [= <-] Hs.
  - lra.
  - destruct b; [|done]. exfalso. unfold Qlt in Hs. destruct e; simpl in Hs; lia.
Qed.

(** On a window with three priced trades or more and a finite positive
    sigma, the filter keeps, in input order, exactly the priced trades whose
    price lies in the multiplicative band [c^2/(c+T), c+T] around the median,
    [T = sigma * scale > 0] with the scale floored at 0.25% of it; if those
    carry less than half of the priced base volume, it returns nothing. *)
Theorem FilterOutliers_band trades sigma s :
  SetFloat64 sigma = Some s -> 0 < s -> (3 <= length (priced trades))%nat ->
  exists c scale, CentreScale (map trade_price (priced trades)) = Some (c, scale) /\ 0 < c /\
    let T := s * floor_scale c scale in
    let in_band t := Qle_bool (c * c / (c + T)) (trade_price t) && Qle_bool (trade_price t) (c + T) in
    let kept := filter (fun t => in_band t = true) (priced trades) in
    0 < T /\
    FilterOutliers trades sigma =
      if (2 * base_volume id kept <? base_volume id (priced trades))%Z then [] else kept.
Proof.
  intros Hs Hpos Hlen.
  assert (map trade_price (priced trades) <> []) as Hne by (destruct (priced trades); simpl in *; [lia | done]).
  destruct (CentreScale_defined _ Hne) as [[c scale] Hcs]. exists c, scale. split; [done|].
  assert (forall t, t ∈ priced trades -> 0 < trade_price t) as Hpp.
  { intros t [Hb Hq]%priced_pos. rewrite inject_Z_pos in Hb, Hq. apply Qlt_shift_div_l; lra. }
  assert (0 < c) as Hc.
  { eapply Median_pos, (proj1 (CentreScale_Some _ _ _ Hcs)). apply Forall_map, Forall_forall. done. }
  split; [done|]. intros T in_band kept. pose proof (floor_scale_pos c scale Hc) as Hf.
  assert (0 < T) as HT by (unfold T; nra). split; [done|].
  assert (length (priced trades) <= length trades)%nat by (unfold priced; apply length_filter).
  unfold FilterOutliers. rewrite (f64_active sigma s) by done.
  rewrite (proj2 (Nat.ltb_ge (length trades) 3)), prices_of_eq by lia. cbn [orb].
  rewrite length_map, (proj2 (Nat.ltb_ge (length (priced trades)) 3)), Hcs, Hs by lia. fold T.
  rewrite (omap_rows (fun r => in_band r.1.2)).
  - rewrite keepIfVolumeMajority_rows, usable_filter by (apply Forall_filter, usable_rows_ok).
    fold kept. change (vol_lift trades None) with (@id Trade).
    destruct (Nat.eqb_spec (length kept) (length (priced trades))) as [El|El]; [|done]. simpl.
    assert (kept = priced trades) as -> by by apply filter_full.
    pose proof (base_volume_nonneg trades (priced trades) ltac:(done)).
    by rewrite (proj2 (Z.ltb_ge _ _)) by lia.
  - intros r (Hr & Hp & ->)%usable_row. destruct (SymmetricDev_band (trade_price r.1.2) c) as (d & -> & _ & Hd); [|done|].
    { apply Hpp, elem_of_priced. split; [done|]. by eapply list_elem_of_lookup_2. }
    assert (in_band r.1.2 = negb (Qlt_bool T d)) as ->; [|by destruct (Qlt_bool T d)].
    apply eq_true_iff_eq. rewrite negb_true_iff, Qlt_bool_false, (Hd T) by lra.
    unfold in_band. by rewrite andb_true_iff, !Qle_bool_iff.
Qed.

Lemma FilterOutliers_band_witness :
  let trades := [trade_ex "a" 1 100 100; trade_ex "b" 2 100 101; trade_ex "c" 3 100 99; trade_ex "d" 4 1 5] in
  FilterOutliers trades (SpecFloat.S754_finite false 4503599627370496 (-50)) = take 3 trades /\
  exists c scale, CentreScale (map trade_price (priced trades)) = Some (c, scale) /\ 0 < c.
Proof.
  cbv zeta. split; [vm_compute; reflexivity|].
  destruct (FilterOutliers_band [trade_ex "a" 1 100 100; trade_ex "b" 2 100 101; trade_ex "c" 3 100 99; trade_ex "d" 4 1 5]
    (SpecFloat.S754_finite false 4503599627370496 (-50)) (4503599627370496 # 2 ^ 50)) as (c & scale & E & Hc & _);
    [reflexivity | reflexivity | vm_compute; lia|].
  exists c, scale. split; [exact E | exact Hc].
Defined.

(** ** The trade order *)

(** A strict total order up to [same]. *)
Record strict_total {A} (less : A -> A -> bool) (same : A -> A -> Prop) : Prop := {
  st_irrefl : forall a b, same a b -> less a b = false;
  st_trans : forall a b c, less a b = true -> less b c = true -> less a c = true;
  st_total : forall a b, less a b = false -> less b a = false -> same a b
}.

Definition lexb {A B} (eqb ltb : B -> B -> bool) (f : A -> B) (rest : A -> A -> bool) (a b : A) : bool :=
  if negb (eqb (f a) (f b)) then ltb (f a) (f b) else rest a b.

Lemma lexb_strict_total {A B} (eqb ltb : B -> B -> bool) (f : A -> B) rest (same : A -> A -> Prop) :
  (forall x y, eqb x y = true <-> x = y) -> strict_total ltb eq -> strict_total rest same ->
  strict_total (lexb eqb ltb f rest) (fun a b => f a = f b /\ same a b).
Proof.
  intros He Hl Hr. assert (forall x y, x <> y -> eqb x y = false) as Hne
    by (intros x y Hxy; rewrite <- not_true_iff_false, He; done).
  assert (forall x, eqb x x = true) as Hrefl by (intros; by apply He).
  split; unfold lexb.
  - intros a b [-> Hs]. rewrite Hrefl. by apply (st_irrefl _ _ Hr).
  - intros a b c. destruct (eqb (f a) (f b)) eqn:E1, (eqb (f b) (f c)) eqn:E2; rewrite ?He in *; simpl.
    + rewrite E1, E2, Hrefl. apply (st_trans _ _ Hr).
    + rewrite E1, E2. done.
    + rewrite <- E2, E1. done.
    + intros Hab Hbc. pose proof (st_trans _ _ Hl _ _ _ Hab Hbc) as Hac. rewrite Hne; [done|].
      intros E. rewrite (st_irrefl _ _ Hl _ _ E) in Hac. done.
  - intros a b. destruct (eqb (f a) (f b)) eqn:E; simpl.
    + apply He in E. rewrite E, Hrefl. intros H1 H2. split; [done|]. by apply (st_total _ _ Hr).
    + rewrite Hne by (intros E'; rewrite <- E', Hrefl in E; done). simpl. intros H1 H2.
      rewrite (st_total _ _ Hl _ _ H1 H2), Hrefl in E. done.
Qed.

Lemma Zltb_strict_total : strict_total Z.ltb eq.
Proof.
  split; intros; rewrite ?Z.ltb_lt, ?Z.ltb_ge in *; subst; rewrite ?Z.ltb_irrefl; done || lia.
Qed.

Lemma str_ltb_strict_total : strict_total str_ltb eq.
Proof.
  split; [intros a b ->; apply str_ltb_irrefl | apply str_ltb_trans | intros a b; apply str_ltb_total].
Qed.

Lemma TradeOrderLess_strict : strict_total TradeOrderLess (fun a b => Trade_Equal a b = true).
Proof.
  assert (strict_total TradeOrderLess (fun a b => tr_Timestamp a = tr_Timestamp b /\ tr_Ledger a = tr_Ledger b /\
    tr_TxHash a = tr_TxHash b /\ tr_OpIndex a = tr_OpIndex b /\ tr_Source a = tr_Source b)) as Hs.
  { change TradeOrderLess with (lexb Z.eqb Z.ltb tr_Timestamp (lexb Z.eqb Z.ltb tr_Ledger
      (lexb String.eqb str_ltb tr_TxHash (lexb Z.eqb Z.ltb tr_OpIndex
        (fun a b => str_ltb (tr_Source a) (tr_Source b)))))).
    repeat apply lexb_strict_total; auto using Zltb_strict_total, str_ltb_strict_total, Z.eqb_eq, String.eqb_eq.
    destruct str_ltb_strict_total. split; eauto. }
  assert (forall a b, Trade_Equal a b = true <-> tr_Timestamp a = tr_Timestamp b /\ tr_Ledger a = tr_Ledger b /\
    tr_TxHash a = tr_TxHash b /\ tr_OpIndex a = tr_OpIndex b /\ tr_Source a = tr_Source b) as He.
  { intros a b. unfold Trade_Equal, time_Equal. rewrite !andb_true_iff, !Z.eqb_eq, !String.eqb_eq. tauto. }
  split; [|apply Hs|]; intros; [apply Hs; by apply He | apply He; by apply Hs].
Qed.

Lemma TradeOrderLess_asym a b : TradeOrderLess a b = true -> TradeOrderLess b a = false.
Proof.
  intros Hab. destruct (TradeOrderLess b a) eqn:E; [|done].
  assert (Trade_Equal a a = true) as Hr
    by (unfold Trade_Equal, time_Equal; rewrite !Z.eqb_refl, !String.eqb_refl; done).
  pose proof (st_trans _ _ TradeOrderLess_strict _ _ _ Hab E) as H.
  by rewrite (st_irrefl _ _ TradeOrderLess_strict _ _ Hr) in H.
Qed.

Lemma trade_leb_total a b : trade_leb a b = true \/ trade_leb b a = true.
Proof.
  unfold trade_leb. destruct (TradeOrderLess b a) eqn:E; [|by left]. right.
  by rewrite (TradeOrderLess_asym _ _ E).
Qed.

Lemma trade_leb_trans a b c : trade_leb a b = true -> trade_leb b c = true -> trade_leb a c = true.
Proof.
  unfold trade_leb. rewrite !negb_true_iff. intros Hba Hcb. destruct (TradeOrderLess c a) eqn:E; [|done].
  destruct (TradeOrderLess a b) eqn:Eab.
  - by rewrite (st_trans _ _ TradeOrderLess_strict _ _ _ E Eab) in Hcb.
  - pose proof (st_total _ _ TradeOrderLess_strict _ _ Eab Hba) as Hs.
    assert (TradeOrderLess c b = TradeOrderLess c a) as Hcab; [|congruence].
    unfold Trade_Equal, time_Equal in Hs. bprop. unfold TradeOrderLess, time_Equal, time_Before.
    repeat match goal with H : _ a = _ b |- _ => rewrite H; clear H end. done.
Qed.

(** [TradeOrderLess] is a strict total order on trade identities: it is
    irreflexive and transitive, and two trades it does not separate are the
    same trade. So the time order of a window whose trades are distinct is the
    same for every order the caller merged them in. *)
Theorem TradeOrderLess_merge_independent :
  strict_total TradeOrderLess (fun a b => Trade_Equal a b = true) /\
  forall ts ts', ts ≡ₚ ts' -> (forall t u, t ∈ ts -> u ∈ ts -> Trade_Equal t u = true -> t = u) ->
    isort trade_leb ts = isort trade_leb ts' /\
    map snd (isort (fun a b : nat * Trade => trade_leb a.2 b.2) (imap pair ts)) = isort trade_leb ts.
Proof.
  split; [apply TradeOrderLess_strict|]. intros ts ts' Hp Hd. split.
  - eapply (StronglySorted_unique_strong (fun a b => trade_leb a b = true)).
    + intros x y Hx Hy Hxy Hyx. rewrite elem_of_isort in Hx, Hy. rewrite <- Hp in Hy.
      apply Hd; [done..|]. unfold trade_leb in *. bprop. by apply (st_total _ _ TradeOrderLess_strict).
    + apply isort_sorted; [apply trade_leb_total | apply trade_leb_trans].
    + apply isort_sorted; [apply trade_leb_total | apply trade_leb_trans].
    + by rewrite !isort_perm.
  - rewrite (isort_map snd trade_leb). f_equal. change (map snd (imap pair ts)) with (snd <$> imap pair ts).
    rewrite fmap_imap. clear. induction ts as [|t ts IH]; [done|]. simpl. f_equal. exact IH.
Qed.

Lemma TradeOrderLess_merge_independent_witness :
  let ts := [trade_ex "b" 2 1 1; trade_ex "a" 1 1 1] in
  isort trade_leb ts = isort trade_leb (rev ts) /\ isort trade_leb ts = [trade_ex "a" 1 1 1; trade_ex "b" 2 1 1].
Proof.
  cbv zeta. split; [|vm_compute; reflexivity].
  apply (proj2 TradeOrderLess_merge_independent); [apply Permutation_rev|].
  intros t u Ht Hu. repeat (apply elem_of_cons in Ht as [->|Ht]); try (by apply not_elem_of_nil in Ht);
    repeat (apply elem_of_cons in Hu as [->|Hu]); try (by apply not_elem_of_nil in Hu);
    vm_compute; congruence.
Defined.

(** ** The local filter keeps what the window accepts *)

(** The fields scoring never changes. *)
Definition same_view (ix ix' : localIndex) : Prop :=
  ix_prices ix' = ix_prices ix /\ ix_order ix' = ix_order ix /\ ix_window ix' = ix_window ix.

Lemma same_view_refl ix : same_view ix ix.
Proof. done. Qed.

Lemma same_view_trans a b c : same_view a b -> same_view b c -> same_view a c.
Proof. unfold same_view. intuition congruence. Qed.

Lemma anchored_view ix c : same_view ix (anchored ix c).2.
Proof. unfold anchored. simpl. by case_if. Qed.

Lemma anchor_bucket_view ix b : same_view ix (anchor_bucket ix b).2.
Proof.
  unfold anchor_bucket. case_if; [done|]. cbv zeta. set (ref := newLocalRef _ _).
  pose proof (anchored_view ix (ref_centre ref)) as Hv. by destruct (anchored ix (ref_centre ref)).
Qed.

Lemma anchor_loop_view ix bs : same_view ix (anchor_loop ix bs).2.
Proof.
  revert ix; induction bs as [|b bs IH]; intros ix; simpl; [done|].
  pose proof (anchor_bucket_view ix b) as Hv. destruct (anchor_bucket ix b) as [b' ix1].
  pose proof (IH ix1) as Hv1. destruct (anchor_loop ix1 bs) as [bs' ix2].
  by eapply same_view_trans.
Qed.

Lemma anchorBuckets_view ix : same_view ix (anchorBuckets ix).
Proof.
  unfold anchorBuckets. pose proof (anchor_loop_view (set_anchor ix None) (ix_buckets ix)) as Hv.
  destruct (anchor_loop _ _) as [bs ix1]. exact Hv.
Qed.

Lemma neighbourhoodRef_view ix k : same_view ix (neighbourhoodRef ix k).2.
Proof.
  unfold neighbourhoodRef. cbv zeta. set (neigh := _ ++ _). destruct neigh as [|pn neigh]; [done|].
  set (ref := newLocalRef _ _).
  pose proof (anchored_view ix (ref_centre ref)) as Hv. by destruct (anchored ix (ref_centre ref)).
Qed.

Lemma score_view ix k : same_view ix (score ix k).2.
Proof.
  unfold score. destruct (bucketRef ix _) as [r|]; [done|].
  pose proof (neighbourhoodRef_view ix k) as Hv. by destruct (neighbourhoodRef ix k).
Qed.

(** Each reference can only lower the score. *)
Definition at_most (best : option Q) (z : Q) : Prop := exists s, best = Some s /\ s <= z.

Lemma minScore_at_most best ref p z : at_most best z -> at_most (minScore best ref p) z.
Proof.
  intros (b & -> & Hb). unfold minScore. destruct (ref_score ref p) as [s|]; [|by exists b].
  destruct (Qlt_bool s b) eqn:E; qprop; [exists s; split; [done | lra] | by exists b].
Qed.

Lemma minScore_opt_at_most best ref p z : at_most best z -> at_most (minScore_opt best ref p) z.
Proof. destruct ref; [apply minScore_at_most | done]. Qed.

Lemma score_at_most ix k z :
  ref_score (ix_window ix) (price_at ix (order_at ix k)) = Some z -> at_most (score ix k).1 z.
Proof.
  intros Hz. unfold score. set (p := price_at ix (order_at ix k)) in *.
  assert (at_most (minScore None (ix_window ix) p) z) as H0.
  { unfold minScore. rewrite Hz. exists z. split; [done | lra]. }
  destruct (bucketRef ix _) as [r|]; cbn [foldl].
  - by repeat apply minScore_opt_at_most.
  - destruct (neighbourhoodRef ix k) as [ref ix']. by repeat apply minScore_opt_at_most.
Qed.

(** Every position of the time order gets its own score. *)
Lemma score_loop_other ix order k z pos :
  pos ∉ order -> score_loop ix order k z !! pos = z !! pos.
Proof.
  revert ix k z; induction order as [|p order IH]; intros ix k z Hn; simpl; [done|].
  apply not_elem_of_cons in Hn as [Hp Hn]. destruct (score ix k) as [s ix'].
  rewrite IH by done. by apply list_lookup_insert_ne.
Qed.

Lemma score_loop_length ix order k z : length (score_loop ix order k z) = length z.
Proof.
  revert ix k z; induction order as [|p order IH]; intros ix k z; simpl; [done|].
  destruct (score ix k) as [s ix']. by rewrite IH, length_insert.
Qed.

Lemma score_loop_lookup ix order k z j pos :
  NoDup order -> order !! j = Some pos -> (pos < length z)%nat ->
  exists ix', same_view ix ix' /\ score_loop ix order k z !! pos = Some (score ix' (k + j)%nat).1.
Proof.
  revert ix k z j; induction order as [|p order IH]; intros ix k z j Hnd Hj Hpos; [done|].
  apply NoDup_cons in Hnd as [Hp Hnd]. simpl. pose proof (score_view ix k) as Hv.
  destruct (score ix k) as [s ix1] eqn:Es. destruct j as [|j]; simplify_eq/=.
  - exists ix. split; [done|]. rewrite score_loop_other by done.
    rewrite list_lookup_insert_eq by done. by rewrite Nat.add_0_r, Es.
  - destruct (IH ix1 (S k) (<[p := s]> z) j) as (ix' & Hv' & E); [done|done|by rewrite length_insert|].
    exists ix'. split; [by eapply same_view_trans|]. rewrite E. do 3 f_equal. lia.
Qed.

Lemma newLocalIndex_view utrades prices weights opts :
  let ix := newLocalIndex utrades prices weights opts in
  ix_prices ix = prices /\ ix_window ix = newRobustRef prices weights /\
  ix_order ix ≡ₚ seq 0 (length utrades).
Proof.
  unfold newLocalIndex. cbv zeta. set (rows := isort _ _).
  destruct (bucket_loop _ rows 0 _) as [[buckets lastKey] bucketOf].
  match goal with |- context [anchorBuckets ?i] => destruct (anchorBuckets_view i) as (Hp & Ho & Hw) end.
  rewrite Hp, Ho, Hw. simpl. split; [done|]. split; [done|]. unfold rows. rewrite isort_perm.
  change (map fst ?l) with (fst <$> l). rewrite fmap_imap. unfold compose. simpl. clear.
  cut (forall n, imap (fun i (_ : Trade) => (n + i)%nat) utrades = seq n (length utrades)).
  { intros E. by rewrite <- (E 0%nat). }
  induction utrades as [|t ts IH]; intros n; [done|]. simpl. f_equal; [lia|]. rewrite <- IH.
  apply imap_ext. intros i x _. simpl. lia.
Qed.

(** The rows whose score passes [s]. *)
Definition row_passes (s : Q) (rz : (nat * Trade * Q) * option Q) : option (nat * Trade * Q) :=
  match rz.2 with
  | None => None
  | Some x => if Qlt_bool s x then None else Some rz.1
  end.

Lemma kept_rows s (l : list (nat * Trade * Q)) (z : list (option Q)) :
  omap (fun iz : nat * option Q =>
    match iz.2 with None => None | Some x => if Qlt_bool s x then None else Some iz.1 end)
    (combine (map (fun r => r.1.1) l) z) =
  map (fun r => r.1.1) (omap (row_passes s) (combine l z)).
Proof.
  revert z; induction l as [|r l IH]; intros [|[x|] z]; [done..| |]; simpl; [|apply IH].
  unfold row_passes at 1. simpl. destruct (Qlt_bool s x); simpl; [|f_equal]; apply IH.
Qed.

Lemma kept_rows_sublist s (l : list (nat * Trade * Q)) z : omap (row_passes s) (combine l z) `sublist_of` l.
Proof.
  revert z; induction l as [|r l IH]; intros z; [done|].
  destruct z as [|o z]; simpl; [apply sublist_nil_l|].
  destruct (row_passes s (r, o)) as [r'|] eqn:E; [|apply sublist_cons, IH].
  assert (r' = r) as ->.
  { unfold row_passes in E. simpl in E. destruct o; [|done]. case_if_in E; naive_solver. }
  apply sublist_skip, IH.
Qed.

Lemma kept_rows_elem s (l : list (nat * Trade * Q)) z pos r x :
  l !! pos = Some r -> z !! pos = Some (Some x) -> x <= s -> r ∈ omap (row_passes s) (combine l z).
Proof.
  intros Hl Hz Hx. apply list_elem_of_omap. exists (r, Some x). split.
  - revert z pos Hl Hz; induction l as [|r' l IH]; intros [|o z] [|pos] Hl Hz; simplify_eq/=; [left|].
    right. eauto.
  - unfold row_passes. simpl. by rewrite (proj2 (Qlt_bool_false s x)).
Qed.

Lemma few_trades trades opts : (3 <= int64_sum (map (row_weight opts) (priced trades)))%Z ->
  ((length trades <? 3)%nat && match Weight opts with None => true | Some _ => false end) = false.
Proof.
  intros H. destruct (Weight opts) as [f|] eqn:Ew; [by rewrite andb_false_r|]. rewrite andb_true_r.
  apply Nat.ltb_ge. assert (length (priced trades) <= length trades)%nat by (unfold priced; apply length_filter).
  assert (forall t, row_weight opts t = 1%Z) as Hw by (intros; unfold row_weight; by rewrite Ew).
  rewrite (map_ext _ (fun _ => 1%Z) Hw) in H.
  destruct (priced trades) as [|t1 [|t2 [|t3 l]]]; [by destruct H..|]. simpl in *. lia.
Qed.

(** The scores of the usable trades, against the window reference. *)
Lemma outlierScores_window trades opts :
  (3 <= int64_sum (map (row_weight opts) (priced trades)))%Z ->
  exists z, outlierScores trades opts = (validIdx_of trades, Some z) /\ length z = length (usable trades) /\
    forall pos r x, usable trades !! pos = Some r ->
      ref_score (newRobustRef (map trade_price (priced trades)) (weights_of opts (priced trades))) r.2 = Some x ->
      exists y, z !! pos = Some (Some y) /\ y <= x.
Proof.
  intros Htot. unfold outlierScores. rewrite prices_of_eq, (usable_from_trades 0).
  change (row_weight (withDefaults opts)) with (row_weight opts).
  change (weights_of (withDefaults opts)) with (weights_of opts).
  rewrite (proj2 (Z.ltb_ge _ 3)) by done.
  set (w := weights_of opts (priced trades)). set (prices := map trade_price (priced trades)).
  set (ix := newLocalIndex _ _ _ _).
  destruct (newLocalIndex_view (priced trades) prices w (withDefaults opts)) as (Hpr & Hwin & Hord). fold ix in Hpr, Hwin, Hord.
  assert (length (usable trades) = length (priced trades)) as Hlen
    by (rewrite <- (usable_from_trades 0 trades), length_map; done).
  eexists. split; [reflexivity|]. rewrite score_loop_length, length_replicate. unfold prices at 1.
  split; [by rewrite length_map|]. intros pos r x Hr Hx.
  assert (pos < length (usable trades))%nat as Hpos by (by eapply lookup_lt_Some).
  assert (pos ∈ ix_order ix) as Hin by (rewrite Hord; apply elem_of_seq; lia).
  apply list_elem_of_lookup in Hin as [j Hj].
  destruct (score_loop_lookup ix (ix_order ix) 0 (replicate (length prices) None) j pos) as (ix' & (Vp & Vo & Vw) & E).
  - rewrite Hord. apply NoDup_seq.
  - done.
  - rewrite length_replicate. unfold prices. rewrite length_map. lia.
  - assert (price_at ix' (order_at ix' (0 + j)) = r.2) as Hp.
    { unfold price_at, order_at. simpl. rewrite Vo, Hj. simpl. rewrite Vp, Hpr. unfold prices.
      rewrite <- (usable_from_prices 0 trades). change (map ?f ?l) with (f <$> l).
      rewrite list_lookup_fmap, <- usable_usable_from, Hr. done. }
    destruct (score_at_most ix' (0 + j) x) as (y & Hy & Hyx); [by rewrite Vw, Hwin, Hp|].
    exists y. by rewrite E, Hy.
Qed.

(** C29: with a finite positive sigma and at least three trades behind the
    usable rows, the local filter keeps a subsequence of the priced trades
    that includes every trade the whole-window reference scores within sigma:
    the bucket and neighbour references can rescue a print but never condemn
    one. It withholds the window (and only then) when what it keeps carries
    less than half of the base volume at one common scale. *)
Theorem FilterOutliersLocal_keeps trades opts s :
  SetFloat64 (Sigma opts) = Some s -> 0 < s ->
  (3 <= int64_sum (map (row_weight opts) (priced trades)))%Z ->
  let window := newRobustRef (map trade_price (priced trades)) (weights_of opts (priced trades)) in
  let g := vol_lift trades (AmountScaleDecimals opts) in
  exists kept, kept `sublist_of` priced trades /\
    (forall t x, t ∈ priced trades -> ref_score window (trade_price t) = Some x -> x <= s -> t ∈ kept) /\
    FilterOutliersLocal trades opts =
      if negb (length kept =? length (priced trades))%nat &&
         (2 * base_volume g kept <? base_volume g (priced trades))%Z then [] else kept.
Proof.
  intros Hs Hpos Htot window g. destruct (outlierScores_window trades opts Htot) as (z & Ez & Hlen & Hz).
  set (l := omap (row_passes s) (combine (usable trades) z)).
  pose proof (kept_rows_sublist s (usable trades) z) as Hsub. fold l in Hsub.
  exists (map (fun r => r.1.2) l). split; [|split].
  - rewrite <- (usable_from_trades 0 trades), <- usable_usable_from. by apply (fmap_sublist (fun r : nat * Trade * Q => r.1.2)).
  - intros t x Ht Hx Hle. rewrite <- (usable_from_trades 0 trades), <- usable_usable_from in Ht.
    apply list_elem_of_fmap in Ht as (r & -> & Hr). apply list_elem_of_fmap. exists r. split; [done|].
    pose proof (usable_row _ _ Hr) as (_ & _ & Hp). apply list_elem_of_lookup in Hr as [pos Hr].
    destruct (Hz pos r x Hr) as (y & Hy & Hyx); [by rewrite Hp|].
    eapply kept_rows_elem; [done..|]. lra.
  - unfold FilterOutliersLocal. rewrite (f64_active _ s), few_trades, Ez, Hs by done. cbn [orb].
    unfold validIdx_of at 2. rewrite kept_rows. fold l. apply keepIfVolumeMajority_rows.
    eapply sublist_Forall; [exact Hsub|]. apply usable_rows_ok.
Qed.

Lemma FilterOutliersLocal_keeps_witness :
  let trades := [trade_ex "a" 1 100 100; trade_ex "b" 2 100 101; trade_ex "c" 3 100 99; trade_ex "d" 4 1 5] in
  let opts := mkOpts (SpecFloat.S754_finite false 4503599627370496 (-50)) 0 0 0 None None in
  exists kept, kept `sublist_of` trades /\ FilterOutliersLocal trades opts = kept.
Proof.
  cbv zeta. set (trades := [_; _; _; _]). set (opts := mkOpts _ _ _ _ _ _).
  destruct (FilterOutliersLocal_keeps trades opts (4503599627370496 # 2 ^ 50)) as (kept & Hsub & _ & E);
    [reflexivity | reflexivity | vm_compute; congruence|].
  exists (FilterOutliersLocal trades opts). split; [|reflexivity].
  rewrite E. case_if; [apply sublist_nil_l | exact Hsub].
Defined.
