(* ===== verification/Router.v ===== *)
(** * The cross-rate router (internal/aggregate/router.go)

    Quotes become a directed graph of exact rates; a depth-first search
    enumerates the acyclic routes between two assets; the shortest ones are
    scored, gated by confidence and combined, and the count of independent
    agreeing routes is a maximum clique. Prices are [Q] ([None] is a nil
    pointer), confidences [float64]. *)

From S2P Require Import Prelude GoLib Float64 Amount Asset Trade RobustStat Window.

Inductive route_error := ErrNoRoute | ErrEmptyRoute | ErrRouteBroken | ErrLegNonPositive.

Definition routerOutlierPermitPct : Z := 40.
Definition routerDivergenceSpreadPct : Z := 40.
Definition routerCorroborationAgreePct : Z := 3.
Definition maxCorroborationRoutes : nat := 16.

(** [confidence.BootstrapConfidenceCap] = 0.5. *)
Definition RouteTrustFloor : float64 := SpecFloat.S754_finite false 4503599627370496 (-53).

Definition ClearsRouteTrustFloor (weakestLink : float64) : bool := f64_lt RouteTrustFloor weakestLink.

(** ** The graph *)

Record RouteLeg := mkLeg {
  From_ : Asset;
  To_ : Asset;
  leg_Price : option Q;
  leg_Confidence : float64;
  leg_Provenance : list string
}.

Record QuoteObs := mkQuoteObs {
  q_Pair : Pair;
  q_Price : option Q;
  q_Confidence : float64;
  q_Provenance : list string
}.

Definition NUL : string := String "000" EmptyString.

Definition undirectedEdgeKey (a b : Asset) : string :=
  let sa := Asset_String a in
  let sb := Asset_String b in
  if str_leb sa sb then sa +:+ NUL +:+ sb else sb +:+ NUL +:+ sa.

Definition sanitizeConfidence (c : float64) : float64 :=
  if IsNaN c || IsInf c then f64_zero else c.

Definition nonpositive (p : option Q) : bool :=
  match p with None => true | Some p => Qle_bool p 0 end.

(** One pass over the sorted quotes; [seen] holds the market keys. *)
Fixpoint edges_loop (quotes : list QuoteObs) (seen : gset string) : res route_error (list RouteLeg) :=
  match quotes with
  | [] => Ok []
  | q :: qs =>
      match q_Price q with
      | None => Err ErrLegNonPositive
      | Some p =>
          if Qle_bool p 0 then Err ErrLegNonPositive
          else
            let b := Base (q_Pair q) in
            let u := Quote (q_Pair q) in
            if Asset_Equal b u then edges_loop qs seen
            else
              let mkey := undirectedEdgeKey b u in
              if bool_decide (mkey ∈ seen) then edges_loop qs seen
              else
                let conf := sanitizeConfidence (q_Confidence q) in
                rest ← edges_loop qs ({[mkey]} ∪ seen);
                Ok (mkLeg b u (Some p) conf (q_Provenance q) ::
                    mkLeg u b (Some (/ p)%Q) conf (q_Provenance q) :: rest)
      end
  end.

Definition quote_leb (a b : QuoteObs) : bool := str_leb (Pair_String (q_Pair a)) (Pair_String (q_Pair b)).

Definition edge_less (a b : RouteLeg) : bool :=
  if negb (String.eqb (Asset_String (From_ a)) (Asset_String (From_ b)))
  then str_ltb (Asset_String (From_ a)) (Asset_String (From_ b))
  else str_ltb (Asset_String (To_ a)) (Asset_String (To_ b)).

Definition BuildEdges (quotes : list QuoteObs) : res route_error (list RouteLeg) :=
  edges ← edges_loop (isort quote_leb quotes) ∅;
  Ok (isort (fun a b => negb (edge_less b a)) edges).

(** [adj[a]]: the edges out of [a], in input order, self-loops dropped. *)
Definition buildAdjacency (edges : list RouteLeg) (a : Asset) : list RouteLeg :=
  filter (fun e => negb (Asset_Equal (From_ e) (To_ e)) = true /\ From_ e = a) edges.

(** ** Routes *)

(** [budget] is [maxHops - len(path)]; [visited] is the set of the current
    branch, so leaving a branch restores it. *)
Fixpoint dfs (adj : Asset -> list RouteLeg) (quote : Asset) (budget : nat)
    (visited : list Asset) (path : list RouteLeg) (current : Asset) : list (list RouteLeg) :=
  match budget with
  | O => []
  | S budget =>
      flat_map (fun e =>
        if bool_decide (To_ e ∈ visited) then []
        else if Asset_Equal (To_ e) quote then [path ++ [e]]
        else dfs adj quote budget (To_ e :: visited) (path ++ [e]) (To_ e)) (adj current)
  end.

Definition min_len (paths : list (list RouteLeg)) (d : nat) : nat :=
  foldl (fun m p => if (length p <? m)%nat then length p else m) d paths.

Definition keepShortest (paths : list (list RouteLeg)) : list (list RouteLeg) :=
  match paths with
  | [] => paths
  | p :: _ =>
      let minLen := min_len paths (length p) in
      filter (fun p => length p = minLen) paths
  end.

Definition FindRoutes (edges : list RouteLeg) (base quote : Asset) (maxHops : Z) (shortestOnly : bool)
    : list (list RouteLeg) :=
  if (maxHops <? 1) || Asset_Equal base quote then []
  else
    let paths := dfs (buildAdjacency edges) quote (Z.to_nat maxHops) [base] [] base in
    if shortestOnly then keepShortest paths else paths.

Fixpoint composite_loop (out : Q) (prev : option RouteLeg) (path : list RouteLeg) : res route_error Q :=
  match path with
  | [] => Ok out
  | leg :: rest =>
      match leg_Price leg with
      | None => Err ErrLegNonPositive
      | Some p =>
          if Qle_bool p 0 then Err ErrLegNonPositive
          else if match prev with Some l => negb (Asset_Equal (From_ leg) (To_ l)) | None => false end
          then Err ErrRouteBroken
          else composite_loop (out * p)%Q (Some leg) rest
      end
  end.

Definition CompositeRate (path : list RouteLeg) : res route_error Q :=
  match path with
  | [] => Err ErrEmptyRoute
  | _ => composite_loop (1 # 1)%Q None path
  end.

Definition RouteConfidence (path : list RouteLeg) : float64 :=
  match path with
  | [] => f64_zero
  | l :: rest =>
      foldl (fun m leg => if f64_lt (leg_Confidence leg) m then leg_Confidence leg else m)
        (leg_Confidence l) rest
  end.

(** ** Combining *)

Definition omitOutlierIndices (rates : list Q) (permitDivergentPct : Z) : list nat :=
  let all := seq 0 (length rates) in
  if (length rates <? 3)%nat then all
  else
    match Median rates with
    | None => all
    | Some med =>
        let medAbs := Qabs med in
        if Qeq_bool medAbs 0 then all
        else
          let rhs := (medAbs * inject_Z permitDivergentPct)%Q in
          let keep := omap (fun ir : nat * Q =>
            let lhs := (Qabs (ir.2 - med) * (100 # 1))%Q in
            if Qle_bool lhs rhs then Some ir.1 else None) (imap pair rates) in
          match keep with
          | [] => all
          | _ => keep
          end
    end.

Definition at_indices {A} (l : list A) (idx : list nat) : list A := omap (fun i => l !! i) idx.

Definition OmitOutliers (rates : list Q) (permitDivergentPct : Z) : list Q :=
  at_indices rates (omitOutlierIndices rates permitDivergentPct).

Record scoredRoute := mkScored {
  sr_legs : list RouteLeg;
  sr_price : Q;
  sr_confidence : float64
}.

Fixpoint scoreRoutes (routes : list (list RouteLeg)) : res route_error (list scoredRoute) :=
  match routes with
  | [] => Ok []
  | r :: rs =>
      p ← CompositeRate r;
      rest ← scoreRoutes rs;
      Ok (mkScored r p (sanitizeConfidence (RouteConfidence r)) :: rest)
  end.

Definition gateByConfidence (scored : list scoredRoute) (minConfidence : float64) : list scoredRoute * bool :=
  let kept := filter (fun s => f64_le minConfidence (sr_confidence s) = true) scored in
  match kept with
  | [] => (scored, true)
  | _ => (kept, false)
  end.

Definition pricesOf (scored : list scoredRoute) : list Q := map sr_price scored.

Definition maxConfidence (scored : list scoredRoute) : float64 :=
  match scored with
  | [] => f64_zero
  | s :: rest =>
      foldl (fun best s => if f64_lt best (sr_confidence s) then sr_confidence s else best)
        (sr_confidence s) rest
  end.

Definition top_tier (routes : list scoredRoute) : list scoredRoute :=
  filter (fun s => f64_eq (sr_confidence s) (maxConfidence routes) = true) routes.

Definition highestConfidencePrice (routes : list scoredRoute) : option Q * nat :=
  let top := OmitOutliers (pricesOf (top_tier routes)) routerOutlierPermitPct in
  (MedianMember top, length top).

Definition spreadExceeds (vals : list Q) (pct : Z) : bool :=
  match vals with
  | v0 :: _ :: _ =>
      match Median vals with
      | None => false
      | Some med =>
          let medAbs := Qabs med in
          if Qeq_bool medAbs 0 then false
          else
            let lo := foldl (fun lo v => if Qlt_bool v lo then v else lo) v0 vals in
            let hi := foldl (fun hi v => if Qlt_bool hi v then v else hi) v0 vals in
            Qlt_bool (medAbs * inject_Z pct) ((hi - lo) * (100 # 1))
      end
  | _ => false
  end.

(** ** Corroboration *)

Definition pricesAgreeWithin (a b : option Q) (pct : Z) : bool :=
  match a, b with
  | Some a, Some b =>
      if Qle_bool a 0 || Qle_bool b 0 then false
      else
        let smaller := if Qlt_bool b a then b else a in
        let lhs := (Qabs (a - b) * (100 # 1))%Q in
        let rhs := (Qabs smaller * inject_Z pct)%Q in
        Qle_bool lhs rhs
  | _, _ => false
  end.

Definition provenanceEdgeKey (p : string) : string := "provenance" +:+ NUL +:+ p.

Definition routeEdgeSet (route : list RouteLeg) : gset string :=
  foldl (fun set leg =>
    foldl (fun set p => {[provenanceEdgeKey p]} ∪ set)
      ({[undirectedEdgeKey (From_ leg) (To_ leg)]} ∪ set) (leg_Provenance leg)) ∅ route.

(** Scans the smaller set; the answer does not depend on which. *)
Definition edgeSetsDisjoint (a b : gset string) : bool :=
  let '(a, b) := if (size b <? size a)%nat then (b, a) else (a, b) in
  forallb (fun k => negb (bool_decide (k ∈ b))) (elements a).

(** The set bits of a mask, ascending; the shift reaches 0 within 64 steps. *)
Fixpoint mask_members (fuel : nat) (mask i : Z) : list nat :=
  match fuel with
  | O => []
  | S fuel =>
      if Z.shiftr mask i =? 0 then []
      else
        (if Z.land mask (Z.shiftl 1 i) =? 0 then [] else [Z.to_nat i]) ++
        mask_members fuel mask (i + 1)
  end.

(** [connected(members[a], members[b])] for every [a < b]. *)
Fixpoint pairwise (connected : nat -> nat -> bool) (members : list nat) : bool :=
  match members with
  | [] => true
  | a :: ms => forallb (connected a) ms && pairwise connected ms
  end.

Definition maskIsClique (mask : Z) (connected : nat -> nat -> bool) : bool :=
  pairwise connected (mask_members 64 mask 0).

(** [bits.OnesCount]. *)
Definition OnesCount (mask : Z) : nat := countb (fun i => Z.testbit mask (Z.of_nat i)) (seq 0 64).

Definition greedyCliqueSize (n : nat) (connected : nat -> nat -> bool) : nat :=
  length (foldl (fun chosen i => if forallb (connected i) chosen then chosen ++ [i] else chosen)
    [] (seq 0 n)).

Definition maxCliqueSize (n : nat) (connected : nat -> nat -> bool) : nat :=
  if (n =? 0)%nat then 0
  else if (maxCorroborationRoutes <? n)%nat then greedyCliqueSize n connected
  else
    foldl (fun best mask =>
      let size := OnesCount mask in
      if (size <=? best)%nat then best
      else if maskIsClique mask connected then size else best)
    0%nat (map Z.of_nat (seq 1 (2 ^ n - 1))).

Definition survivor_agree (survivors : list scoredRoute) (i j : nat) : bool :=
  match survivors !! i, survivors !! j with
  | Some a, Some b =>
      ClearsRouteTrustFloor (sr_confidence a) && ClearsRouteTrustFloor (sr_confidence b) &&
      pricesAgreeWithin (Some (sr_price a)) (Some (sr_price b)) routerCorroborationAgreePct
  | _, _ => false
  end.

Definition sets_disjoint_at (edgeSets : list (gset string)) (i j : nat) : bool :=
  match edgeSets !! i, edgeSets !! j with
  | Some a, Some b => edgeSetsDisjoint a b
  | _, _ => false
  end.

Definition corroboratingRouteCount (survivors : list scoredRoute) (diverged : bool) : nat :=
  if diverged then 0
  else
    let n := length survivors in
    if (n <=? 1)%nat then n
    else if (maxCliqueSize n (survivor_agree survivors) <? 2)%nat then 0
    else
      let edgeSets := map (fun s => routeEdgeSet (sr_legs s)) survivors in
      maxCliqueSize n (fun i j => survivor_agree survivors i j && sets_disjoint_at edgeSets i j).

Definition MaxEdgeDisjointRoutes (routes : list (list RouteLeg)) : nat :=
  let n := length routes in
  if (n <=? 1)%nat then n
  else
    let edgeSets := map routeEdgeSet routes in
    maxCliqueSize n (sets_disjoint_at edgeSets).

(** ** The served composite *)

Definition next_len (all : list (list RouteLeg)) (shortest : nat) : nat :=
  foldl (fun next r =>
    if (shortest <? length r)%nat && ((next =? 0)%nat || (length r <? next)%nat)
    then length r else next) 0%nat all.

(** [composite] is never nil at the call. *)
Definition nextTierDisagrees (composite : option Q) (all : list (list RouteLeg)) (shortest : nat)
    (minConfidence : float64) : res route_error bool :=
  let next := next_len all shortest in
  if (next =? 0)%nat then Ok false
  else
    scored ← scoreRoutes (filter (fun r => length r = next) all);
    let gated := fst (gateByConfidence scored minConfidence) in
    let kept := OmitOutliers (pricesOf gated) routerOutlierPermitPct in
    match composite, MedianMember kept with
    | Some c, Some m => Ok (spreadExceeds [c; m] routerDivergenceSpreadPct)
    | _, _ => Ok false
    end.

Record combined := mkCombined {
  composite : option Q;
  combinedConfidence : float64;
  servedRouteCount : nat;
  pathCount : nat;
  corroborationCount : nat;
  diverged : bool;
  lowConfidence : bool
}.

Definition CombineRoutes (edges : list RouteLeg) (base quote : Asset) (maxHops : Z) (minConfidence : float64)
    : res route_error combined :=
  let all := FindRoutes edges base quote maxHops false in
  let routes := keepShortest all in
  match routes with
  | [] => Err ErrNoRoute
  | r0 :: _ =>
      scored ← scoreRoutes routes;
      let '(gated, lowConf) := gateByConfidence scored minConfidence in
      let '(composite, served) := highestConfidencePrice gated in
      let keep := omitOutlierIndices (pricesOf gated) routerOutlierPermitPct in
      let survivors := at_indices gated keep in
      let rejected := (length gated - length survivors)%nat in
      let div := (0 <? rejected)%nat || spreadExceeds (pricesOf survivors) routerDivergenceSpreadPct in
      div ← (if div then Ok true else nextTierDisagrees composite all (length r0) minConfidence);
      Ok (mkCombined composite (maxConfidence gated) served (length survivors)
            (corroboratingRouteCount survivors div) div lowConf)
  end.

(** ** The search *)

(** [path] leads from [cur] to [quote]. *)
Fixpoint chain (cur : Asset) (path : list RouteLeg) (quote : Asset) : Prop :=
  match path with
  | [] => cur = quote
  | e :: rest => From_ e = cur /\ chain (To_ e) rest quote
  end.

Lemma chain_last cur path quote : chain cur path quote -> path <> [] -> quote ∈ map To_ path.
Proof.
  revert cur; induction path as [|e path IH]; intros cur Hc Hne; [done|]. destruct Hc as [_ Hc].
  destruct path as [|e' path]; simpl in *; [subst; left|]. right. eapply IH; [exact Hc|done].
Qed.

Lemma elem_of_adj edges a e :
  e ∈ buildAdjacency edges a <-> e ∈ edges /\ From_ e = a /\ From_ e <> To_ e.
Proof.
  unfold buildAdjacency. rewrite list_elem_of_filter, negb_true_iff, Asset_Equal_false. tauto.
Qed.

(** What the search may return below a node: extensions of the current path. *)
Definition extends (edges : list RouteLeg) (quote : Asset) (budget : nat) (visited : list Asset)
    (cur : Asset) (q : list RouteLeg) : Prop :=
  q <> [] /\ (length q <= budget)%nat /\ Forall (fun e => e ∈ edges) q /\ chain cur q quote /\
  NoDup (map To_ q) /\ Forall (fun e => To_ e ∉ visited) q.

Lemma extends_cons edges quote budget visited cur e q :
  cur ∈ visited ->
  extends edges quote (S budget) visited cur (e :: q) <->
  e ∈ buildAdjacency edges cur /\ (To_ e ∉ visited) /\
  ((To_ e = quote /\ q = []) \/ (To_ e <> quote /\ extends edges quote budget (To_ e :: visited) (To_ e) q)).
Proof.
  intros Hcur. rewrite elem_of_adj. unfold extends. simpl. rewrite !Forall_cons, NoDup_cons. split.
  - intros (_ & Hl & (He & HF) & (Hf & Hc) & (Hn & Hnd) & (Hv & HV)).
    split; [split; [done|]; split; [done|]; intros E; congruence|]. split; [done|].
    destruct q as [|e' q]; [left; by simpl in Hc|]. right.
    assert (To_ e <> quote) as Hq by (intros <-; apply Hn; by eapply chain_last).
    split; [done|]. split; [done|]. split; [lia|]. split; [done|]. split; [done|]. split; [done|].
    rewrite Forall_forall in *. intros x Hx [E|Hin]%elem_of_cons; [|by eapply HV].
    apply Hn. rewrite <- E. by apply list_elem_of_fmap_2.
  - intros ((He & Hf & _) & Hv & [[Hq ->]|(Hq & Hne & Hl & HF & Hc & Hnd & HV)]).
    + split; [done|]. split; [simpl; lia|]. split; [done|]. split; [done|].
      split; [split; [apply not_elem_of_nil | constructor]|]. done.
    + split; [done|]. split; [lia|]. split; [done|]. split; [done|]. rewrite Forall_forall in HV.
      split; [split; [|done]|split; [done|]].
      * intros (x & E & Hx)%list_elem_of_fmap. apply (HV x Hx). rewrite E. left.
      * apply Forall_forall. intros x Hx Hin. apply (HV x Hx). by right.
Qed.

Lemma dfs_spec edges quote budget visited path cur p :
  cur ∈ visited ->
  p ∈ dfs (buildAdjacency edges) quote budget visited path cur <->
  exists q, p = path ++ q /\ extends edges quote budget visited cur q.
Proof.
  revert visited path cur; induction budget as [|budget IH]; intros visited path cur Hcur; cbn [dfs].
  - split; [by intros ?%not_elem_of_nil|]. intros ([|e q] & _ & Hne & Hl & _); [done | simpl in Hl; lia].
  - rewrite list_elem_of_In, in_flat_map. split.
    + intros (e & He%list_elem_of_In & Hp). case_bool_decide as Hv; [done|].
      destruct (Asset_Equal (To_ e) quote) eqn:Eq.
      * destruct Hp as [<-|[]]. apply Asset_Equal_spec in Eq. exists [e]. split; [done|].
        apply extends_cons; [done|]. naive_solver.
      * apply Asset_Equal_false in Eq. apply list_elem_of_In, IH in Hp as (q & -> & Hq); [|left].
        exists (e :: q). split; [by rewrite <- app_assoc|]. apply extends_cons; [done|]. naive_solver.
    + intros ([|e q] & -> & Hq); [by destruct Hq|]. apply extends_cons in Hq as (He & Hv & Hq); [|done].
      exists e. split; [by apply list_elem_of_In|]. rewrite bool_decide_eq_false_2 by done.
      destruct Hq as [[Hq ->]|[Hq Hx]].
      * rewrite (proj2 (Asset_Equal_spec _ _) Hq). left. done.
      * rewrite (proj2 (Asset_Equal_false _ _) Hq). apply list_elem_of_In, IH; [left|].
        exists q. split; [by rewrite <- app_assoc | done].
Qed.

Lemma FindRoutes_spec edges base quote maxHops p :
  base <> quote ->
  p ∈ FindRoutes edges base quote maxHops false <->
  p <> [] /\ Z.of_nat (length p) <= maxHops /\ Forall (fun e => e ∈ edges) p /\ chain base p quote /\
  NoDup (base :: map To_ p).
Proof.
  intros Hbq. unfold FindRoutes. rewrite (proj2 (Asset_Equal_false base quote) Hbq), orb_false_r.
  destruct (Z.ltb_spec maxHops 1).
  { split; [by intros ?%not_elem_of_nil|]. intros (Hne & Hl & _). destruct p; [done|]. simpl in Hl. lia. }
  rewrite dfs_spec by left. unfold extends. rewrite NoDup_cons. split.
  - intros (q & -> & Hne & Hl & HF & Hc & Hnd & HV). simpl. split; [done|]. split; [lia|].
    split; [done|]. split; [done|]. split; [|done]. rewrite Forall_forall in HV.
    intros (x & E & Hx)%list_elem_of_fmap. apply (HV x Hx). rewrite E. left.
  - intros (Hne & Hl & HF & Hc & Hn & Hnd). exists p. split; [done|]. split; [done|]. split; [lia|].
    split; [done|]. split; [done|]. split; [done|]. apply Forall_forall. intros x Hx E%list_elem_of_singleton.
    apply Hn. rewrite <- E. by apply list_elem_of_fmap_2.
Qed.

Lemma min_len_spec (paths : list (list RouteLeg)) d :
  (min_len paths d <= d)%nat /\ (forall p, p ∈ paths -> (min_len paths d <= length p)%nat) /\
  (min_len paths d = d \/ exists p, p ∈ paths /\ length p = min_len paths d).
Proof.
  unfold min_len. revert d; induction paths as [|p paths IH]; intros d; simpl.
  - split; [done|]. split; [by intros ? ?%not_elem_of_nil | by left].
  - specialize (IH (if (length p <? d)%nat then length p else d)). destruct IH as (H1 & H2 & H3).
    destruct (Nat.ltb_spec (length p) d).
    + split; [lia|]. split; [intros q [->|Hq]%elem_of_cons; auto|].
      right. destruct H3 as [->|(q & Hq & ?)]; [exists p; split; [left|done] | exists q; split; [by right|done]].
    + split; [lia|]. split; [intros q [->|Hq]%elem_of_cons; [lia|auto]|].
      destruct H3 as [->|(q & Hq & ?)]; [by left | right; exists q; split; [by right|done]].
Qed.

Lemma keepShortest_spec paths p :
  p ∈ keepShortest paths <-> p ∈ paths /\ forall q, q ∈ paths -> (length p <= length q)%nat.
Proof.
  unfold keepShortest. destruct paths as [|p0 ps] eqn:E; [by rewrite elem_of_nil; naive_solver|].
  rewrite <- E. rewrite list_elem_of_filter. destruct (min_len_spec paths (length p0)) as (H1 & H2 & H3). split.
  - intros [Hl Hp]. split; [done|]. intros q Hq. rewrite Hl. auto.
  - intros [Hp Hq]. split; [|done]. apply Nat.le_antisymm; [|by apply H2].
    destruct H3 as [->|(q & Hin & <-)]; [|by apply Hq]. apply Hq. rewrite E. left.
Qed.

(** C26: the route search is sound and complete: for two different assets it
    returns exactly the chains of at most [maxHops] legs of the graph that
    lead from base to quote without visiting an asset twice; pruned, exactly
    those of minimum length; and nothing when base and quote coincide. *)
Theorem FindRoutes_exact edges base quote maxHops p :
  (p ∈ FindRoutes edges base quote maxHops false <->
   base <> quote /\ p <> [] /\ Z.of_nat (length p) <= maxHops /\ Forall (fun e => e ∈ edges) p /\
   chain base p quote /\ NoDup (base :: map To_ p)) /\
  (p ∈ FindRoutes edges base quote maxHops true <->
   p ∈ FindRoutes edges base quote maxHops false /\
   forall q, q ∈ FindRoutes edges base quote maxHops false -> (length p <= length q)%nat).
Proof.
  split.
  - destruct (decide (base = quote)) as [->|Hne]; [|rewrite FindRoutes_spec by done; tauto].
    unfold FindRoutes. rewrite Asset_Equal_refl, orb_true_r. rewrite elem_of_nil. naive_solver.
  - unfold FindRoutes. case_if; [rewrite elem_of_nil; naive_solver|]. apply keepShortest_spec.
Qed.

Definition usd_ex : Asset := mkAsset AssetFiat "USD" "" "".
Definition btc_ex : Asset := mkAsset AssetCrypto "BTC" "" "".
Definition leg_ex (a b : Asset) (p : Q) : RouteLeg := mkLeg a b (Some p) f64_one [].
Definition edges_ex : list RouteLeg :=
  [leg_ex NativeAsset btc_ex (1 # 4); leg_ex btc_ex NativeAsset (4 # 1); leg_ex btc_ex usd_ex (2 # 1);
   leg_ex usd_ex btc_ex (1 # 2)].

Lemma FindRoutes_exact_witness :
  FindRoutes edges_ex NativeAsset usd_ex 3 false = [[leg_ex NativeAsset btc_ex (1 # 4); leg_ex btc_ex usd_ex (2 # 1)]] /\
  chain NativeAsset [leg_ex NativeAsset btc_ex (1 # 4); leg_ex btc_ex usd_ex (2 # 1)] usd_ex.
Proof.
  split; [vm_compute; reflexivity|].
  apply (FindRoutes_exact edges_ex NativeAsset usd_ex 3). vm_compute. left.
Defined.

(** ** Composite rates *)

Definition leg_rate (e : RouteLeg) : Q := default (0 # 1)%Q (leg_Price e).
Definition leg_positive (e : RouteLeg) : Prop := exists p, leg_Price e = Some p /\ (0 < p)%Q.

Fixpoint linked (prev : option RouteLeg) (path : list RouteLeg) : Prop :=
  match path with
  | [] => True
  | e :: rest =>
      match prev with Some l => From_ e = To_ l | None => True end /\ linked (Some e) rest
  end.

Lemma composite_loop_Ok out prev path r :
  composite_loop out prev path = Ok r <->
  Forall leg_positive path /\ linked prev path /\ r = foldl Qmult out (map leg_rate path).
Proof.
  revert out prev; induction path as [|e path IH]; intros out prev; simpl.
  { split; [intros [= <-]; done | by intros (_ & _ & ->)]. }
  rewrite Forall_cons. unfold leg_positive at 1. destruct (leg_Price e) as [p|] eqn:Epr; [|naive_solver].
  assert (leg_rate e = p) as -> by (unfold leg_rate; by rewrite Epr).
  destruct (Qle_bool p 0) eqn:Ep; qprop.
  { split; [done|]. intros (((q & [= <-] & Hq) & _) & _). lra. }
  destruct prev as [l|]; [destruct (Asset_Equal (From_ e) (To_ l)) eqn:El; simpl|].
  - apply Asset_Equal_spec in El. rewrite IH.
    split; [intros (? & ? & ?); split_and!; eauto | intros ((_ & ?) & (_ & ?) & ?); by split_and!].
  - apply Asset_Equal_false in El. split; [done|]. by intros (_ & (? & _) & _).
  - rewrite IH. split; [intros (? & ? & ?); split_and!; eauto | intros ((_ & ?) & (_ & ?) & ?); by split_and!].
Qed.

Lemma CompositeRate_Ok path r :
  CompositeRate path = Ok r <->
  path <> [] /\ Forall leg_positive path /\ linked None path /\ r = foldl Qmult (1 # 1)%Q (map leg_rate path).
Proof.
  unfold CompositeRate. destruct path as [|e path]; [split; [done|]; by intros [? _]|].
  rewrite composite_loop_Ok. split; [intros (? & ? & ->); by split_and!|].
  intros (_ & ? & ? & ->). by split_and!.
Qed.

Lemma CompositeRate_value path r : CompositeRate path = Ok r -> (0 < r)%Q /\ (r == qprod (map leg_rate path))%Q.
Proof.
  intros (_ & HF & _ & ->)%CompositeRate_Ok. rewrite foldl_qprod. split; [|lra].
  assert (0 < qprod (map leg_rate path))%Q; [|lra]. apply qprod_pos, Forall_map.
  eapply Forall_impl; [exact HF|]. intros e (p & E & Hp). simpl. unfold leg_rate. by rewrite E.
Qed.

Lemma chain_linked cur path quote l : chain cur path quote -> To_ l = cur -> linked (Some l) path.
Proof.
  revert cur l; induction path as [|e path IH]; intros cur l Hc El; simpl in *; [done|].
  destruct Hc as [<- Hc]. split; [done|]. by eapply IH.
Qed.

Lemma chain_linked_None cur path quote : chain cur path quote -> linked None path.
Proof. destruct path as [|e path]; [done|]. intros [_ Hc]. split; [done|]. by eapply chain_linked. Qed.

Lemma chain_snoc cur path e quote : chain cur path (From_ e) -> To_ e = quote -> chain cur (path ++ [e]) quote.
Proof.
  revert cur; induction path as [|e' path IH]; intros cur; simpl; [naive_solver|].
  intros [-> Hc] Ht. split; [done|]. by apply IH.
Qed.

(** ** Building the graph *)

Lemma undirectedEdgeKey_sym a b : undirectedEdgeKey a b = undirectedEdgeKey b a.
Proof.
  unfold undirectedEdgeKey.
  destruct (str_leb (Asset_String a) (Asset_String b)) eqn:E1, (str_leb (Asset_String b) (Asset_String a)) eqn:E2; try done.
  - by rewrite (str_leb_antisym _ _ E1 E2).
  - destruct (str_leb_total (Asset_String a) (Asset_String b)); congruence.
Qed.

Definition finite (c : float64) : Prop := IsNaN c = false /\ IsInf c = false.

Lemma sanitizeConfidence_finite c : finite (sanitizeConfidence c).
Proof. unfold sanitizeConfidence, finite. destruct (IsNaN c) eqn:E1, (IsInf c) eqn:E2; simpl; auto. Qed.

(** [e'] is the other direction of [e]: the inverse rate, the same trust. *)
Definition inverse_leg (e e' : RouteLeg) : Prop :=
  From_ e' = To_ e /\ To_ e' = From_ e /\ (leg_rate e * leg_rate e' == 1)%Q /\
  leg_Confidence e' = leg_Confidence e /\ leg_Provenance e' = leg_Provenance e.

Definition leg_key (e : RouteLeg) : string := undirectedEdgeKey (From_ e) (To_ e).

(** What the loop over the quotes builds. *)
Definition market_edges (edges : list RouteLeg) : Prop :=
  NoDup (map (fun e => (From_ e, To_ e)) edges) /\
  forall e, e ∈ edges ->
    leg_positive e /\ From_ e <> To_ e /\ finite (leg_Confidence e) /\ exists e', e' ∈ edges /\ inverse_leg e e'.

Lemma market_edges_cons e e' edges :
  market_edges edges -> leg_positive e -> leg_positive e' -> From_ e <> To_ e -> finite (leg_Confidence e) ->
  inverse_leg e e' -> Forall (fun x => leg_key x <> leg_key e) edges -> market_edges (e :: e' :: edges).
Proof.
  intros (Hnd & Hall) Hp Hp' Hne Hfin (Hf & Ht & Hr & Hc & Hpr) Hk. rewrite Forall_forall in Hk.
  assert (leg_key e' = leg_key e) as Hkk by (unfold leg_key; rewrite Hf, Ht; apply undirectedEdgeKey_sym).
  split.
  - simpl. rewrite Hf, Ht. apply NoDup_cons. split; [|apply NoDup_cons; split; [|done]].
    + intros [[= E1 E2]|(x & E & Hx)%list_elem_of_fmap]%elem_of_cons; [congruence|].
      apply (Hk x Hx). unfold leg_key. by injection E as <- <-.
    + intros (x & E & Hx)%list_elem_of_fmap. apply (Hk x Hx). rewrite <- Hkk. unfold leg_key.
      rewrite Hf, Ht. by injection E as <- <-.
  - intros x [->|[->|Hx]%elem_of_cons]%elem_of_cons.
    + split; [done|]. split; [done|]. split; [done|]. exists e'. split; [right; left|]. done.
    + split; [done|]. split; [congruence|]. split; [by rewrite Hc|]. exists e. split; [left|].
      unfold inverse_leg. rewrite Hf, Ht, Hc, Hpr. split_and!; try done. lra.
    + destruct (Hall x Hx) as (H1 & H2 & H3 & y & Hy & Hinv). split; [done|]. split; [done|]. split; [done|].
      exists y. split; [by right; right | done].
Qed.

Lemma edges_loop_spec quotes seen edges :
  edges_loop quotes seen = Ok edges ->
  market_edges edges /\ Forall (fun e => leg_key e ∉ seen) edges /\
  Forall (fun q => exists p, q_Price q = Some p /\ (0 < p)%Q) quotes /\
  Forall (fun q => Base (q_Pair q) = Quote (q_Pair q) \/
    undirectedEdgeKey (Base (q_Pair q)) (Quote (q_Pair q)) ∈ seen \/
    exists e, e ∈ edges /\ leg_key e = undirectedEdgeKey (Base (q_Pair q)) (Quote (q_Pair q))) quotes.
Proof.
  revert seen edges; induction quotes as [|q qs IH]; intros seen edges; simpl.
  { intros [= <-]. split; [|done]. split; [constructor|]. by intros e ?%not_elem_of_nil. }
  destruct (q_Price q) as [p|] eqn:Ep; [|done]. destruct (Qle_bool p 0) eqn:Hp; qprop; [done|].
  set (b := Base (q_Pair q)). set (u := Quote (q_Pair q)). set (k := undirectedEdgeKey b u).
  destruct (Asset_Equal b u) eqn:Ebu.
  { apply Asset_Equal_spec in Ebu. intros (H1 & H2 & H3 & H4)%IH. split_and!; try done; constructor; eauto. }
  apply Asset_Equal_false in Ebu. case_bool_decide as Hk.
  { intros (H1 & H2 & H3 & H4)%IH. split_and!; try done; constructor; eauto. }
  intros E. inv_ok. match goal with E : edges_loop _ _ = Ok _ |- _ => apply IH in E as (H1 & H2 & H3 & H4) end.
  set (conf := sanitizeConfidence (q_Confidence q)).
  set (e := mkLeg b u (Some p) conf (q_Provenance q)). set (e' := mkLeg u b (Some (/ p)%Q) conf (q_Provenance q)).
  assert (leg_key e = k /\ leg_key e' = k) as [Ke Ke'] by (split; [done | apply undirectedEdgeKey_sym]).
  split; [|split; [|split]].
  - apply market_edges_cons; try done.
    + by exists p.
    + exists (/ p)%Q. split; [done|]. by apply Qinv_lt_0_compat.
    + apply sanitizeConfidence_finite.
    + unfold inverse_leg, leg_rate. simpl. split_and!; try done. field. lra.
    + eapply Forall_impl; [exact H2|]. intros x Hx. simpl in Hx. rewrite Ke. set_solver.
  - constructor; [by rewrite Ke|]. constructor; [by rewrite Ke'|].
    eapply Forall_impl; [exact H2|]. intros x Hx. simpl in Hx. set_solver.
  - constructor; eauto.
  - constructor.
    + right. right. exists e. split; [left | done].
    + eapply Forall_impl; [exact H4|]. intros x [?|[Hx|(y & Hy & Hxy)]]; [by left| |].
      * apply elem_of_union in Hx as [Hx%elem_of_singleton|]; [|by right; left].
        right. right. exists e. split; [left | by rewrite Ke].
      * right. right. exists y. split; [by right; right | done].
Qed.

(** A permutation of the quotes gives the same sorted quotes. *)
Lemma quote_sort_perm quotes quotes' :
  quotes ≡ₚ quotes' -> NoDup (map (fun q => Pair_String (q_Pair q)) quotes) ->
  isort quote_leb quotes = isort quote_leb quotes'.
Proof.
  intros Hp Hnd. eapply (StronglySorted_unique_strong (fun a b => quote_leb a b = true)).
  - intros x y Hx Hy Hxy Hyx. rewrite elem_of_isort in Hx, Hy. rewrite <- Hp in Hy.
    pose proof (str_leb_antisym _ _ Hxy Hyx) as E. clear -Hnd Hx Hy E.
    induction quotes as [|q qs IH]; [by apply not_elem_of_nil in Hx|].
    simpl in Hnd. apply NoDup_cons in Hnd as [Hn Hnd].
    apply elem_of_cons in Hx as [->|Hx], Hy as [->|Hy]; auto; exfalso; apply Hn; [rewrite E | rewrite <- E];
      by apply (list_elem_of_fmap_2 (fun q => Pair_String (q_Pair q))).
  - apply isort_sorted; unfold quote_leb; eauto using str_leb_total, str_leb_trans.
  - apply isort_sorted; unfold quote_leb; eauto using str_leb_total, str_leb_trans.
  - by rewrite !isort_perm.
Qed.

Lemma market_edges_perm edges edges' : edges ≡ₚ edges' -> market_edges edges -> market_edges edges'.
Proof.
  intros Hp [Hnd Hall]. split; [by rewrite <- Hp|]. intros e He. rewrite <- Hp in He.
  destruct (Hall e He) as (H1 & H2 & H3 & e' & He' & Hi). split_and!; try done. exists e'. by rewrite <- Hp.
Qed.

(** Reversing a route through the inverse edges. *)
Lemma reverse_route edges cur path quote :
  market_edges edges -> Forall (fun e => e ∈ edges) path -> chain cur path quote ->
  exists path', Forall (fun e => e ∈ edges) path' /\ length path' = length path /\ chain quote path' cur /\
    (qprod (map leg_rate path) * qprod (map leg_rate path') == 1)%Q.
Proof.
  intros [_ Hall] HF; revert cur; induction HF as [|e path He HF IH]; intros cur Hc; simpl in *.
  - exists []. split; [done|]. split; [done|]. split; [done|]. simpl. lra.
  - destruct Hc as [<- Hc]. destruct (IH _ Hc) as (path' & HF' & Hl & Hc' & Hr).
    destruct (Hall e He) as (_ & _ & _ & e' & He' & Hf & Ht & Hi & _).
    exists (path' ++ [e']). split; [apply Forall_app; split; [done | by repeat constructor]|]. split; [rewrite length_app; simpl; lia|].
    split; [apply chain_snoc; [by rewrite Hf | done]|].
    rewrite map_app, qprod_app. simpl. rewrite Qmult_1_r.
    assert (leg_rate e * qprod (map leg_rate path) * (qprod (map leg_rate path') * leg_rate e') ==
      (leg_rate e * leg_rate e') * (qprod (map leg_rate path) * qprod (map leg_rate path')))%Q as -> by ring.
    rewrite Hi, Hr. lra.
Qed.

(** A graph built from quotes has positive rates and finite trust, one
    edge per direction of each market and no self-loop, and every edge has its
    exact inverse; so any route between two assets can be walked back at the
    inverse composite rate. The graph covers every quoted market, and it is
    the same whatever order the quotes arrive in, as regions that range over
    their own maps must agree on. *)
Theorem BuildEdges_graph quotes edges :
  BuildEdges quotes = Ok edges ->
  market_edges edges /\
  (forall q, q ∈ quotes -> Base (q_Pair q) = Quote (q_Pair q) \/
     exists e, e ∈ edges /\ leg_key e = undirectedEdgeKey (Base (q_Pair q)) (Quote (q_Pair q))) /\
  (forall quotes', quotes ≡ₚ quotes' -> NoDup (map (fun q => Pair_String (q_Pair q)) quotes) ->
     BuildEdges quotes' = Ok edges) /\
  (forall a b path r, Forall (fun e => e ∈ edges) path -> chain a path b -> CompositeRate path = Ok r ->
     exists path' r', Forall (fun e => e ∈ edges) path' /\ chain b path' a /\ CompositeRate path' = Ok r' /\
       (r * r' == 1)%Q).
Proof.
  unfold BuildEdges. intros E.
  destruct (edges_loop (isort quote_leb quotes) ∅) as [es|] eqn:El; cbn [mbind res_bind] in E; [|done].
  injection E as <-. apply edges_loop_spec in El as Hes. destruct Hes as (Hm & _ & Hq & Hcov).
  set (edges := isort _ es). assert (es ≡ₚ edges) as Hpe by (unfold edges; by rewrite isort_perm).
  pose proof (market_edges_perm _ _ Hpe Hm) as Hme. split; [done|]. split; [|split].
  - intros q Hin. rewrite Forall_forall in Hcov. destruct (Hcov q) as [?|[Hx|(e & He & Hk)]];
      [by rewrite elem_of_isort | by left | by apply not_elem_of_empty in Hx|].
    right. exists e. by rewrite <- Hpe.
  - intros quotes' Hp Hnd. by rewrite <- (quote_sort_perm _ _ Hp Hnd), El.
  - intros a b path r HF Hc Hr. destruct (CompositeRate_value _ _ Hr) as [Hpos Hv].
    destruct (reverse_route edges a path b Hme HF Hc) as (path' & HF' & Hl & Hc' & Hinv).
    exists path', (foldl Qmult (1 # 1)%Q (map leg_rate path')). split; [done|]. split; [done|].
    split; [|rewrite Hv, foldl_qprod; lra]. apply CompositeRate_Ok in Hr as (Hne & _).
    apply CompositeRate_Ok. split; [intros ->; by destruct path|]. split; [|split; [by eapply chain_linked_None | done]].
    eapply Forall_impl; [exact HF'|]. intros e He. by apply (proj2 Hme e He).
Qed.

Definition quotes_ex : list QuoteObs :=
  [mkQuoteObs (mkPair NativeAsset btc_ex) (Some (1 # 4)%Q) f64_one [];
   mkQuoteObs (mkPair usd_ex btc_ex) (Some (1 # 2)%Q) f64_nan []].

Lemma BuildEdges_graph_witness : exists edges,
  BuildEdges quotes_ex = Ok edges /\ BuildEdges (rev quotes_ex) = Ok edges /\ length edges = 4%nat.
Proof.
  eexists. split; [vm_compute; reflexivity|]. split; [|reflexivity].
  apply (BuildEdges_graph quotes_ex); [vm_compute; reflexivity | apply Permutation_rev|].
  apply (bool_decide_unpack _). vm_compute. exact I.
Defined.
