(* ===== verification/Corroborate.v ===== *)
(** * Combining routes: corroboration and the served composite

    Proofs about the second half of router.go, whose definitions are in
    [Router]: the clique search over bit masks is exact up to 16 routes and
    never overstates beyond, and the served price is a composite some shortest
    route of the top confidence tier really produced. *)

From S2P Require Import Prelude GoLib Float64 Amount Asset Trade RobustStat Window Router.
From Stdlib Require Import Floats.SpecFloat.

(** ** Bit masks *)

Lemma lor_bound n a b : (0 <= n)%Z -> (0 <= a < 2 ^ n)%Z -> (0 <= b < 2 ^ n)%Z -> (0 <= Z.lor a b < 2 ^ n)%Z.
Proof.
  intros Hn Ha Hb. assert (Z.lor a b = Z.lor a b mod 2 ^ n) as ->.
  { rewrite <- Z.land_ones by lia. rewrite Z.land_lor_distr_l, !Z.land_ones, !Z.mod_small by lia. done. }
  apply Z.mod_pos_bound. apply Z.pow_pos_nonneg; lia.
Qed.

Lemma mask_bit_zero m i : 0 <= i -> (Z.land m (Z.shiftl 1 i) =? 0) = negb (Z.testbit m i).
Proof.
  intros Hi. assert (Z.land m (Z.shiftl 1 i) = if Z.testbit m i then 2 ^ i else 0) as ->.
  - apply Z.bits_inj'. intros j Hj. rewrite Z.land_spec, Z.shiftl_spec by done.
    destruct (Z.eq_dec i j) as [->|Hne].
    + rewrite Z.sub_diag. change (Z.testbit 1 0) with true. rewrite andb_true_r.
      destruct (Z.testbit m j); [by rewrite Z.pow2_bits_true | by rewrite Z.bits_0].
    + assert (Z.testbit 1 (j - i) = false) as ->.
      { destruct (Z.ltb_spec (j - i) 0); [by apply Z.testbit_neg_r|].
        apply Z.bits_above_log2; [lia|]. change (Z.log2 1) with 0. lia. }
      rewrite andb_false_r. destruct (Z.testbit m i); [by rewrite Z.pow2_bits_false | by rewrite Z.bits_0].
  - destruct (Z.testbit m i); [|done]. apply Z.eqb_neq. pose proof (Z.pow_pos_nonneg 2 i). lia.
Qed.

(** The loop over a mask lists its set bits. *)
Lemma mask_members_eq fuel m i : 0 <= m -> 0 <= i ->
  mask_members fuel m i = filter (fun k => Z.testbit m (Z.of_nat k) = true) (seq (Z.to_nat i) fuel).
Proof.
  intros Hm; revert i; induction fuel as [|fuel IH]; intros i Hi; [done|]. cbn [mask_members].
  destruct (Z.eqb_spec (Z.shiftr m i) 0) as [E|E].
  - symmetry.
    assert (forall j, i <= j -> Z.testbit m j = false) as Hb.
    { intros j Hj. replace j with ((j - i) + i) by lia. rewrite <- Z.shiftr_spec by lia. by rewrite E, Z.bits_0. }
    generalize (S fuel) as n. intros n.
    assert (Forall (fun k => ~ (Z.testbit m (Z.of_nat k) = true)) (seq (Z.to_nat i) n)) as HF.
    { apply Forall_forall. intros k Hk. apply elem_of_seq in Hk. rewrite Hb by lia. done. }
    induction HF as [|k l Hk HF IHF]; [done|]. by rewrite filter_cons_False.
  - rewrite mask_bit_zero by done. simpl seq. rewrite filter_cons, IH by lia.
    replace (Z.to_nat (i + 1)) with (S (Z.to_nat i)) by lia. rewrite Z2Nat.id by done.
    destruct (Z.testbit m i); done.
Qed.

Lemma OnesCount_members m : 0 <= m -> OnesCount m = length (mask_members 64 m 0).
Proof.
  intros Hm. rewrite mask_members_eq by done. unfold OnesCount. change (Z.to_nat 0) with 0%nat.
  induction (seq 0 64) as [|k l IH]; [done|]. simpl. rewrite IH, filter_cons.
  destruct (Z.testbit m (Z.of_nat k)); simpl; lia.
Qed.

(** The mask of a set of indices. *)
Definition mask_of (l : list nat) : Z := foldr (fun i m => Z.lor (2 ^ Z.of_nat i) m) 0 l.

Lemma mask_of_bit l k : Z.testbit (mask_of l) (Z.of_nat k) = true <-> k ∈ l.
Proof.
  induction l as [|i l IH]; simpl; [rewrite Z.bits_0, elem_of_nil; done|].
  rewrite Z.lor_spec, orb_true_iff, IH, elem_of_cons. apply or_iff_compat_r.
  destruct (decide (k = i)) as [->|Hne]; [rewrite Z.pow2_bits_true by lia; done|].
  rewrite Z.pow2_bits_false by lia. naive_solver.
Qed.

Lemma mask_of_bound n l : Forall (fun i => (i < n)%nat) l -> 0 <= mask_of l < 2 ^ Z.of_nat n.
Proof.
  induction 1 as [|i l Hi HF IH]; simpl; [split; [done | apply Z.pow_pos_nonneg; lia]|].
  apply lor_bound; [lia| |done]. split; [apply Z.pow_nonneg; lia|]. apply Z.pow_lt_mono_r; lia.
Qed.

(** ** Cliques *)

Definition clique (n : nat) (connected : nat -> nat -> bool) (l : list nat) : Prop :=
  NoDup l /\ Forall (fun i => (i < n)%nat) l /\
  forall i j, i ∈ l -> j ∈ l -> i <> j -> connected i j = true.

Section Clique.
Context (n : nat) (connected : nat -> nat -> bool).
Context (connected_sym : forall i j, connected i j = connected j i).

Lemma pairwise_iff l : NoDup l ->
  pairwise connected l = true <-> forall i j, i ∈ l -> j ∈ l -> i <> j -> connected i j = true.
Proof using connected_sym.
  induction 1 as [|a l Ha Hnd IH]; simpl; [split; [by intros _ i j ?%not_elem_of_nil | done]|].
  rewrite andb_true_iff, IH, forallb_forall. setoid_rewrite <- list_elem_of_In. split.
  - intros [H1 H2] i j [->|Hi]%elem_of_cons [->|Hj]%elem_of_cons Hij; auto; try done.
    rewrite connected_sym. auto.
  - intros H. split; [intros x Hx; apply H; [left | by right | set_solver]|].
    intros i j Hi Hj. apply H; by right.
Qed.

(** A mask is a clique when its bits are one, and every clique has a mask. *)
Lemma members_clique m : 0 <= m < 2 ^ Z.of_nat n -> maskIsClique m connected = true ->
  clique n connected (mask_members 64 m 0).
Proof using connected_sym.
  intros Hm. unfold maskIsClique. rewrite mask_members_eq by lia. change (Z.to_nat 0) with 0%nat.
  assert (NoDup (filter (fun k => Z.testbit m (Z.of_nat k) = true) (seq 0 64))) as Hnd
    by (apply NoDup_filter, NoDup_seq).
  rewrite pairwise_iff by done. intros Hc. split; [done|]. split; [|done].
  apply Forall_forall. intros k [Hk _]%list_elem_of_filter.
  destruct (Nat.ltb_spec k n) as [|Hn]; [done|]. rewrite Z.bits_above_log2 in Hk; [done|lia|].
  destruct (Z.eq_dec m 0) as [->|]; [by rewrite Z.bits_0 in Hk|].
  assert (Z.log2 m < Z.of_nat n); [apply Z.log2_lt_pow2; lia | lia].
Qed.

Lemma clique_mask l : (n <= 64)%nat -> clique n connected l ->
  0 <= mask_of l < 2 ^ Z.of_nat n /\ maskIsClique (mask_of l) connected = true /\ OnesCount (mask_of l) = length l.
Proof using connected_sym.
  intros Hn (Hnd & Hlt & Hc). pose proof (mask_of_bound n l Hlt) as Hb. split; [done|].
  assert (mask_members 64 (mask_of l) 0 ≡ₚ l) as Hp.
  { rewrite mask_members_eq by lia. change (Z.to_nat 0) with 0%nat. apply list.NoDup_Permutation; [|done|].
    - apply NoDup_filter, NoDup_seq.
    - intros k. rewrite list_elem_of_filter, mask_of_bit, elem_of_seq. split; [tauto|]. intros Hk. split; [done|].
      rewrite Forall_forall in Hlt. specialize (Hlt k Hk). simpl in Hlt. lia. }
  split; [|by rewrite OnesCount_members, Hp by lia].
  unfold maskIsClique. rewrite pairwise_iff by (rewrite Hp; done). intros i j. rewrite Hp. auto.
Qed.

Definition clique_step (best : nat) (mask : Z) : nat :=
  let size := OnesCount mask in
  if (size <=? best)%nat then best else if maskIsClique mask connected then size else best.

Lemma clique_fold_spec masks best :
  (best <= foldl clique_step best masks)%nat /\
  (forall m, m ∈ masks -> maskIsClique m connected = true -> (OnesCount m <= foldl clique_step best masks)%nat) /\
  (foldl clique_step best masks = best \/
   exists m, m ∈ masks /\ maskIsClique m connected = true /\ OnesCount m = foldl clique_step best masks).
Proof.
  revert best; induction masks as [|m masks IH]; intros best; simpl.
  { split; [done|]. split; [by intros ? ?%not_elem_of_nil | by left]. }
  destruct (IH (clique_step best m)) as (H1 & H2 & H3).
  assert ((best <= clique_step best m)%nat /\
    (maskIsClique m connected = true -> (OnesCount m <= clique_step best m)%nat) /\
    (clique_step best m = best \/ maskIsClique m connected = true /\ OnesCount m = clique_step best m)) as (S1 & S2 & S3).
  { unfold clique_step. destruct (Nat.leb_spec (OnesCount m) best); [split_and!; auto; lia|].
    destruct (maskIsClique m connected); split_and!; auto; lia. }
  split; [lia|]. split.
  - intros x [->|Hx]%elem_of_cons Hc; [specialize (S2 Hc); lia | auto].
  - destruct H3 as [E|(x & Hx & Hc & E)]; [|right; exists x; split_and!; auto; by right].
    destruct S3 as [E'|[Hc E']]; [left; congruence|]. right. exists m. split_and!; [left|done|congruence].
Qed.

Lemma greedy_clique_spec : exists l, clique n connected l /\ length l = greedyCliqueSize n connected.
Proof using connected_sym.
  unfold greedyCliqueSize. eexists. split; [|reflexivity].
  assert (forall k, (k <= n)%nat -> let l := foldl (fun chosen i =>
    if forallb (connected i) chosen then chosen ++ [i] else chosen) [] (seq 0 k) in
    clique n connected l /\ Forall (fun i => (i < k)%nat) l) as H; [|by apply (H n)].
  induction k as [|k IH]; intros Hk; cbv zeta in *.
  { split; [|constructor]. split_and!; [constructor..|]. by intros i j ?%not_elem_of_nil. }
  rewrite seq_S, foldl_app. simpl. destruct IH as [(Hnd & Hlt & Hc) Hk']; [lia|]. set (l := foldl _ _ _) in *.
  assert (Forall (fun i => (i < S k)%nat) l) as HS by (eapply Forall_impl; [exact Hk'|]; simpl; lia).
  destruct (forallb (connected k) l) eqn:E; [|done]. rewrite forallb_forall in E.
  assert (k ∉ l) as Hnk by (intros Hin; rewrite Forall_forall in Hk'; specialize (Hk' k Hin); simpl in Hk'; lia).
  split; [|apply Forall_app; split; [done|]; repeat constructor].
  split_and!.
  - apply NoDup_app. split_and!; [done| |apply NoDup_singleton]. set_solver.
  - apply Forall_app. split; [done|]. repeat constructor. lia.
  - intros i j [Hi|Hi%list_elem_of_singleton]%elem_of_app [Hj|Hj%list_elem_of_singleton]%elem_of_app Hij; subst.
    + by apply Hc.
    + rewrite connected_sym. apply E. by apply list_elem_of_In.
    + apply E. by apply list_elem_of_In.
    + done.
Qed.

Lemma elem_of_masks m : m ∈ map Z.of_nat (seq 1 (2 ^ n - 1)) <-> 1 <= m < 2 ^ Z.of_nat n.
Proof.
  assert (Z.of_nat (2 ^ n) = 2 ^ Z.of_nat n) as E by (by rewrite Nat2Z.inj_pow).
  rewrite list_elem_of_fmap. setoid_rewrite elem_of_seq. split.
  - intros (k & -> & Hk). lia.
  - intros Hm. exists (Z.to_nat m). lia.
Qed.

(** The search returns the size of a clique, and of a largest one in the exact
    regime. *)
Lemma maxCliqueSize_spec :
  (exists l, clique n connected l /\ length l = maxCliqueSize n connected) /\
  ((n <= maxCorroborationRoutes)%nat -> forall l, clique n connected l -> (length l <= maxCliqueSize n connected)%nat).
Proof using connected_sym.
  unfold maxCliqueSize. destruct (Nat.eqb_spec n 0) as [Hn|Hn].
  { split.
    - exists []. split; [|done]. split_and!; [constructor..|]. by intros i j ?%not_elem_of_nil.
    - intros _ [|i l] (_ & HF & _); [done|]. apply Forall_cons in HF as [Hi _]. lia. }
  destruct (Nat.ltb_spec maxCorroborationRoutes n).
  { split; [apply greedy_clique_spec | lia]. }
  fold clique_step. destruct (clique_fold_spec (map Z.of_nat (seq 1 (2 ^ n - 1))) 0) as (_ & Hub & Hex). split.
  - destruct Hex as [->|(m & Hm & Hc & <-)].
    + exists []. split; [|done]. split_and!; [constructor..|]. by intros i j ?%not_elem_of_nil.
    + apply elem_of_masks in Hm. exists (mask_members 64 m 0).
      split; [apply members_clique; [lia|done] | by rewrite OnesCount_members by lia].
  - intros _ l Hl. unfold maxCorroborationRoutes in *.
    destruct (clique_mask l ltac:(lia) Hl) as (Hb & Hc & <-). destruct l as [|i l]; [exact (Nat.le_0_l _)|].
    apply Hub; [|done]. apply elem_of_masks. split; [|lia].
    assert (mask_of (i :: l) <> 0); [|lia]. intros E.
    assert (Z.testbit (mask_of (i :: l)) (Z.of_nat i) = true) as Hbit by (apply mask_of_bit; left).
    rewrite E, Z.bits_0 in Hbit. done.
Qed.
End Clique.

(** ** Corroborating routes *)

Lemma pricesAgreeWithin_sym a b pct : pricesAgreeWithin a b pct = pricesAgreeWithin b a pct.
Proof.
  unfold pricesAgreeWithin. destruct a as [a|], b as [b|]; try done. rewrite (orb_comm (Qle_bool b 0)).
  case_if; [done|]. apply eq_true_iff_eq. rewrite !Qle_bool_iff.
  rewrite (Qabs_Qminus a b).
  destruct (Qlt_bool b a) eqn:E1, (Qlt_bool a b) eqn:E2; qprop; try done; [lra|].
  by assert (a == b)%Q as -> by lra.
Qed.

Lemma survivor_agree_sym s i j : survivor_agree s i j = survivor_agree s j i.
Proof.
  unfold survivor_agree. destruct (s !! i), (s !! j); try done.
  by rewrite pricesAgreeWithin_sym, (andb_comm (ClearsRouteTrustFloor _)).
Qed.

Lemma edgeSetsDisjoint_iff a b : edgeSetsDisjoint a b = true <-> a ## b.
Proof.
  assert (forall a b : gset string, forallb (fun k => negb (bool_decide (k ∈ b))) (elements a) = true <-> a ## b) as H.
  { intros x y. rewrite forallb_forall. setoid_rewrite <- list_elem_of_In. setoid_rewrite elem_of_elements.
    setoid_rewrite negb_true_iff. setoid_rewrite bool_decide_eq_false. set_solver. }
  unfold edgeSetsDisjoint. destruct (size b <? size a)%nat; rewrite H; [|done]. set_solver.
Qed.

Lemma sets_disjoint_at_sym sets i j : sets_disjoint_at sets i j = sets_disjoint_at sets j i.
Proof.
  unfold sets_disjoint_at. destruct (sets !! i), (sets !! j); try done.
  apply eq_true_iff_eq. rewrite !edgeSetsDisjoint_iff. set_solver.
Qed.

(** Two survivors confirm each other: both clear the trust floor, their prices
    agree within 3% of the smaller and their routes share no market and no
    provenance. *)
Definition corroborate (a b : scoredRoute) : Prop :=
  ClearsRouteTrustFloor (sr_confidence a) = true /\ ClearsRouteTrustFloor (sr_confidence b) = true /\
  pricesAgreeWithin (Some (sr_price a)) (Some (sr_price b)) routerCorroborationAgreePct = true /\
  routeEdgeSet (sr_legs a) ## routeEdgeSet (sr_legs b).

Definition corroborating_set (survivors : list scoredRoute) (idx : list nat) : Prop :=
  NoDup idx /\ Forall (fun i => (i < length survivors)%nat) idx /\
  forall i j a b, i ∈ idx -> j ∈ idx -> i <> j ->
    survivors !! i = Some a -> survivors !! j = Some b -> corroborate a b.

Lemma agree_disjoint_iff survivors i j a b :
  survivors !! i = Some a -> survivors !! j = Some b ->
  survivor_agree survivors i j &&
    sets_disjoint_at (map (fun s => routeEdgeSet (sr_legs s)) survivors) i j = true <-> corroborate a b.
Proof.
  intros Ha Hb. unfold survivor_agree, sets_disjoint_at, corroborate. change (map ?f ?l) with (f <$> l).
  rewrite !list_lookup_fmap, Ha, Hb. simpl. rewrite !andb_true_iff, edgeSetsDisjoint_iff. tauto.
Qed.

Lemma corroborating_clique survivors idx :
  corroborating_set survivors idx <->
  clique (length survivors) (fun i j => survivor_agree survivors i j &&
    sets_disjoint_at (map (fun s => routeEdgeSet (sr_legs s)) survivors) i j) idx.
Proof.
  unfold corroborating_set, clique. split; intros (Hnd & Hlt & Hc); (split; [done|]); (split; [done|]).
  all: rewrite Forall_forall in Hlt.
  - intros i j Hi Hj Hij.
    destruct (lookup_lt_is_Some_2 survivors i (Hlt i Hi)) as [a Ha].
    destruct (lookup_lt_is_Some_2 survivors j (Hlt j Hj)) as [b Hb].
    apply (agree_disjoint_iff survivors i j a b Ha Hb). exact (Hc i j a b Hi Hj Hij Ha Hb).
  - intros i j a b Hi Hj Hij Ha Hb. apply (agree_disjoint_iff survivors i j a b Ha Hb). by apply Hc.
Qed.

Lemma agree_disjoint_sym survivors i j :
  survivor_agree survivors i j && sets_disjoint_at (map (fun s => routeEdgeSet (sr_legs s)) survivors) i j =
  survivor_agree survivors j i && sets_disjoint_at (map (fun s => routeEdgeSet (sr_legs s)) survivors) j i.
Proof. by rewrite survivor_agree_sym, sets_disjoint_at_sym. Qed.

Lemma corroborating_agree survivors idx :
  corroborating_set survivors idx -> clique (length survivors) (survivor_agree survivors) idx.
Proof.
  intros (Hnd & Hlt & Hc)%corroborating_clique. split; [done|]. split; [done|]. intros i j Hi Hj Hij.
  specialize (Hc i j Hi Hj Hij). simpl in Hc. apply andb_prop in Hc. tauto.
Qed.

Definition exact_regime (survivors : list scoredRoute) : Prop :=
  (2 <= length survivors <= maxCorroborationRoutes)%nat.

(** The corroboration count never overstates: whatever it reports (two or
    more) is the size of a set of surviving routes that pairwise clear the
    trust floor, agree within 3% and are edge-disjoint, so wash-trading one
    shared leg cannot raise it. With at most 16 survivors it is the largest
    such set; a diverged set counts for nothing. *)
Theorem corroboratingRouteCount_sound survivors :
  corroboratingRouteCount survivors true = 0%nat /\
  ((2 <= corroboratingRouteCount survivors false)%nat ->
   exists idx, corroborating_set survivors idx /\ length idx = corroboratingRouteCount survivors false) /\
  (exact_regime survivors -> forall idx, corroborating_set survivors idx -> (2 <= length idx)%nat ->
   (length idx <= corroboratingRouteCount survivors false)%nat).
Proof.
  split; [done|]. unfold corroboratingRouteCount, exact_regime. cbv zeta.
  pose proof (maxCliqueSize_spec (length survivors) _ (agree_disjoint_sym survivors)) as [Hex Hub].
  pose proof (maxCliqueSize_spec (length survivors) _ (survivor_agree_sym survivors)) as [_ Hgate].
  destruct (Nat.leb_spec (length survivors) 1).
  { split; lia. }
  destruct (Nat.ltb_spec (maxCliqueSize (length survivors) (survivor_agree survivors)) 2).
  - split; [lia|]. intros [_ Hn] idx Hidx Hlen. exfalso.
    pose proof (Hgate Hn idx (corroborating_agree _ _ Hidx)). lia.
  - split.
    + intros _. destruct Hex as (idx & Hc & Hl). exists idx. by rewrite corroborating_clique.
    + intros [_ Hn] idx Hidx _. apply Hub; [done|]. by apply corroborating_clique.
Qed.

(** ** The served composite *)

Lemma scoreRoutes_spec routes scored :
  scoreRoutes routes = Ok scored ->
  map sr_legs scored = routes /\
  Forall (fun s => CompositeRate (sr_legs s) = Ok (sr_price s) /\
    sr_confidence s = sanitizeConfidence (RouteConfidence (sr_legs s))) scored.
Proof.
  revert scored; induction routes as [|r rs IH]; intros scored; simpl; [by intros [= <-]|].
  intros E. inv_ok. destruct (IH _ eq_refl) as [<- HF]. simpl. split; [done|]. by constructor.
Qed.

Lemma scoreRoutes_total routes :
  Forall (fun r => exists p, CompositeRate r = Ok p) routes -> exists scored, scoreRoutes routes = Ok scored.
Proof.
  induction 1 as [|r rs [p Hp] HF [scored IH]]; [by eexists|]. simpl. rewrite Hp. simpl. rewrite IH. by eexists.
Qed.

Lemma gateByConfidence_spec scored minConf :
  let '(gated, low) := gateByConfidence scored minConf in
  (forall s, s ∈ gated <-> s ∈ scored /\ (low = true \/ f64_le minConf (sr_confidence s) = true)) /\
  (low = true <-> forall s, s ∈ scored -> f64_le minConf (sr_confidence s) = false) /\
  (scored <> [] -> gated <> []).
Proof.
  unfold gateByConfidence. set (kept := filter _ scored).
  assert (forall s, s ∈ kept <-> f64_le minConf (sr_confidence s) = true /\ s ∈ scored) as Hk
    by (intros s; unfold kept; by rewrite list_elem_of_filter).
  destruct kept as [|k ks]; cbn iota.
  - split_and!; [intros; split; [intros; split; [done | by left] | tauto]| |done]. split; [|done]. intros _ s Hs.
    destruct (f64_le minConf (sr_confidence s)) eqn:E; [|done].
    exfalso. eapply (not_elem_of_nil s), Hk. done.
  - split_and!; [intros s; rewrite Hk; naive_solver| |done]. split; [done|]. intros H.
    destruct (proj1 (Hk k)) as [E Hin]; [left|]. rewrite (H k Hin) in E. done.
Qed.

Definition finite_conf (s : scoredRoute) : Prop := finite (sr_confidence s).

Lemma maxConfidence_spec scored : scored <> [] -> Forall finite_conf scored ->
  (exists s, s ∈ scored /\ sr_confidence s = maxConfidence scored) /\
  forall s, s ∈ scored -> f64_le (sr_confidence s) (maxConfidence scored) = true.
Proof.
  destruct scored as [|s0 rest]; [done|]. intros _ [H0 HF]%Forall_cons. unfold maxConfidence.
  assert (forall b, finite b -> let m := foldl (fun best s => if f64_lt best (sr_confidence s) then sr_confidence s else best) b rest in
    finite m /\ f64_le b m = true /\ (m = b \/ exists s, s ∈ rest /\ sr_confidence s = m) /\
    forall s, s ∈ rest -> f64_le (sr_confidence s) m = true) as H.
  { clear H0. induction HF as [|s rest Hs HF IH]; intros b Hb; simpl.
    - split; [done|]. split; [by apply f64_le_refl, Hb|]. split; [by left|]. by intros s ?%not_elem_of_nil.
    - destruct (f64_lt b (sr_confidence s)) eqn:E.
      + destruct (IH _ Hs) as (Hf & Hle & Hin & Hall). split; [done|]. apply f64_lt_le in E.
        split; [by eapply f64_le_trans|]. split.
        * right. destruct Hin as [Hin|(x & Hx & Ex)]; [exists s; split; [left|done] | exists x; split; [by right|done]].
        * intros x [->|Hx]%elem_of_cons; auto.
      + destruct (IH _ Hb) as (Hf & Hle & Hin & Hall). split; [done|]. split; [done|]. split.
        * destruct Hin as [Hin|(x & Hx & Ex)]; [by left | right; exists x; split; [by right|done]].
        * intros x [->|Hx]%elem_of_cons; auto. eapply f64_le_trans; [|exact Hle].
          rewrite f64_lt_negb_le in E by (apply Hb || apply Hs). by apply negb_false_iff in E. }
  destruct (H _ H0) as (Hf & Hle & Hin & Hall). split.
  - destruct Hin as [Hin|(x & Hx & Ex)]; [exists s0; split; [left|done] | exists x; split; [by right|done]].
  - intros s [->|Hs]%elem_of_cons; auto.
Qed.

Lemma omitOutlierIndices_spec rates pct : rates <> [] ->
  omitOutlierIndices rates pct <> [] /\ Forall (fun i => (i < length rates)%nat) (omitOutlierIndices rates pct).
Proof.
  intros Hne. set (all := seq 0 (length rates)).
  assert (all <> [] /\ Forall (fun i => (i < length rates)%nat) all) as Hall.
  { split; [unfold all; by destruct rates|]. apply Forall_forall. intros i Hi%elem_of_seq. lia. }
  unfold omitOutlierIndices. fold all. case_if; [done|]. destruct (Median rates) as [med|]; [|done].
  case_if; [done|]. cbv zeta. set (keep := omap _ _).
  assert (Forall (fun i => (i < length rates)%nat) keep) as Hk.
  { apply Forall_forall. intros i ([j r] & Hj & E)%list_elem_of_omap. simpl in E. case_if_in E; [|done].
    injection E as <-. apply elem_of_lookup_imap in Hj as (k & x & [= -> ->] & Hl). by eapply lookup_lt_Some. }
  by destruct keep.
Qed.

Lemma OmitOutliers_spec rates pct : rates <> [] ->
  OmitOutliers rates pct <> [] /\ forall r, r ∈ OmitOutliers rates pct -> r ∈ rates.
Proof.
  intros Hne. destruct (omitOutlierIndices_spec rates pct Hne) as [Hi Hlt]. unfold OmitOutliers, at_indices. split.
  - destruct (omitOutlierIndices rates pct) as [|i idx]; [done|]. apply Forall_cons in Hlt as [Hlt _].
    apply lookup_lt_is_Some_2 in Hlt as [x Hx]. simpl. rewrite Hx. done.
  - intros r (i & _ & Hr)%list_elem_of_omap. by eapply list_elem_of_lookup_2.
Qed.

Lemma MedianMember_elem vals : vals <> [] -> exists m, MedianMember vals = Some m /\ m ∈ vals.
Proof.
  intros Hne. unfold MedianMember. destruct vals as [|v vals]; [done|]. rewrite Qsort_length. set (l := v :: vals).
  destruct (lookup_lt_is_Some_2 (Qsort l) ((length l - 1) / 2)) as [m Hm].
  { rewrite Qsort_length. apply div2_bounds. simpl. lia. }
  exists m. split; [done|]. by eapply Qsort_lookup_elem.
Qed.

(** The served price comes from a route of the top tier. *)
Lemma highestConfidencePrice_spec gated : gated <> [] -> Forall finite_conf gated ->
  exists p s, fst (highestConfidencePrice gated) = Some p /\ s ∈ gated /\ sr_price s = p /\
    f64_eq (sr_confidence s) (maxConfidence gated) = true.
Proof.
  intros Hne HF. destruct (maxConfidence_spec gated Hne HF) as [(s & Hs & Es) _].
  assert (pricesOf (top_tier gated) <> []) as Htop.
  { assert (s ∈ top_tier gated) as Hin.
    { unfold top_tier. rewrite list_elem_of_filter, <- Es. split; [|done]. apply f64_eq_refl.
      rewrite Forall_forall in HF. apply (HF s Hs). }
    unfold pricesOf. destruct (top_tier gated); [by apply not_elem_of_nil in Hin | done]. }
  destruct (OmitOutliers_spec _ routerOutlierPermitPct Htop) as [Hn Hsub].
  destruct (MedianMember_elem _ Hn) as (p & Hp & Hin). apply Hsub in Hin.
  apply list_elem_of_fmap in Hin as (t & -> & [Ht Hg]%list_elem_of_filter). exists (sr_price t), t. done.
Qed.

Lemma composite_loop_err out prev path : composite_loop out prev path <> Err ErrNoRoute.
Proof.
  revert out prev; induction path as [|e path IH]; intros out prev; simpl; [done|].
  destruct (leg_Price e); [|done]. case_if; [done|]. case_if; [done|]. apply IH.
Qed.

Lemma scoreRoutes_err routes : scoreRoutes routes <> Err ErrNoRoute.
Proof.
  induction routes as [|r rs IH]; simpl; [done|]. destruct (CompositeRate r) as [p|e] eqn:E; simpl.
  - destruct (scoreRoutes rs); simpl; [done|]. congruence.
  - intros [= ->]. unfold CompositeRate in E. destruct r; [done|]. by apply composite_loop_err in E.
Qed.

Lemma nextTierDisagrees_err c all n minConf : nextTierDisagrees c all n minConf <> Err ErrNoRoute.
Proof.
  unfold nextTierDisagrees. case_if; [done|]. set (tier := filter _ all).
  pose proof (scoreRoutes_err tier) as H. destruct (scoreRoutes tier); simpl; [|congruence]. by repeat case_match.
Qed.

Lemma FindRoutes_shortest edges base quote maxHops :
  FindRoutes edges base quote maxHops true = keepShortest (FindRoutes edges base quote maxHops false).
Proof. unfold FindRoutes. by case_if. Qed.

(** Every route of a well-formed graph has a composite. *)
Lemma FindRoutes_composite edges base quote maxHops :
  (forall e, e ∈ edges -> leg_positive e) ->
  Forall (fun r => exists p, CompositeRate r = Ok p) (FindRoutes edges base quote maxHops false).
Proof.
  intros Hpos. apply Forall_forall. intros r Hr.
  destruct (decide (base = quote)) as [->|Hne].
  { unfold FindRoutes in Hr. rewrite Asset_Equal_refl, orb_true_r in Hr. by apply not_elem_of_nil in Hr. }
  apply FindRoutes_spec in Hr as (Hr & _ & HF & Hc & _); [|done].
  eexists. apply CompositeRate_Ok. split_and!; [done| |by eapply chain_linked_None|done].
  eapply Forall_impl; [exact HF|]. auto.
Qed.

Lemma CombineRoutes_total edges base quote maxHops minConf :
  (forall e, e ∈ edges -> leg_positive e) -> FindRoutes edges base quote maxHops true <> [] ->
  exists c, CombineRoutes edges base quote maxHops minConf = Ok c.
Proof.
  intros Hpos. rewrite FindRoutes_shortest. intros Hne. unfold CombineRoutes.
  pose proof (FindRoutes_composite edges base quote maxHops Hpos) as HF. set (all := FindRoutes _ _ _ _ _) in *.
  destruct (scoreRoutes_total (keepShortest all)) as [scored Hs].
  { apply Forall_forall. intros r [Hr _]%keepShortest_spec. rewrite Forall_forall in HF. auto. }
  destruct (keepShortest all) as [|r0 rs] eqn:Er; [done|]. rewrite Hs. cbn [mbind res_bind].
  destruct (gateByConfidence scored minConf) as [gated low].
  destruct (highestConfidencePrice gated) as [c served]. case_if; [by eexists|].
  unfold nextTierDisagrees. case_if; [by eexists|]. set (tier := filter _ all).
  destruct (scoreRoutes_total tier) as [scored' Hs'].
  { by apply Forall_filter. }
  rewrite Hs'. cbn [mbind res_bind]. repeat case_match; by eexists.
Qed.

(** What a successful combination has computed. *)
Lemma CombineRoutes_Ok edges base quote maxHops minConf c :
  CombineRoutes edges base quote maxHops minConf = Ok c ->
  exists scored gated low, scoreRoutes (FindRoutes edges base quote maxHops true) = Ok scored /\ scored <> [] /\
    gateByConfidence scored minConf = (gated, low) /\
    composite c = fst (highestConfidencePrice gated) /\ combinedConfidence c = maxConfidence gated /\
    lowConfidence c = low /\ (diverged c = true -> corroborationCount c = 0%nat).
Proof.
  rewrite FindRoutes_shortest. unfold CombineRoutes. set (all := FindRoutes _ _ _ _ _).
  destruct (keepShortest all) as [|r0 rs]; [done|]. intros E.
  destruct (scoreRoutes (r0 :: rs)) as [scored|] eqn:Es; cbn [mbind res_bind] in E; [|done].
  destruct (gateByConfidence scored minConf) as [gated low] eqn:Eg.
  destruct (highestConfidencePrice gated) as [p served] eqn:Eh.
  match type of E with mbind _ ?m = _ => destruct m as [div|]; cbn [mbind res_bind] in E; [|done] end.
  injection E as <-. exists scored, gated, low.
  cbn [composite combinedConfidence lowConfidence diverged corroborationCount]. rewrite Eh. split_and!; try done.
  - apply scoreRoutes_spec in Es as [Em _]. by destruct scored.
  - by intros ->.
Qed.

(** *** Routes, prices and trust on their own terms *)

(** A route: a chain of at most [maxHops] legs of the graph from base to
    quote that visits no asset twice. *)
Definition is_route (edges : list RouteLeg) (base quote : Asset) (maxHops : Z) (p : list RouteLeg) : Prop :=
  base <> quote /\ p <> [] /\ Z.of_nat (length p) <= maxHops /\ Forall (fun e => e ∈ edges) p
  /\ chain base p quote /\ NoDup (base :: map To_ p).

Definition shortest_route (edges : list RouteLeg) (base quote : Asset) (maxHops : Z) (p : list RouteLeg) : Prop :=
  is_route edges base quote maxHops p /\ forall q, is_route edges base quote maxHops q -> (length p <= length q)%nat.

(** [w] is the trust of the least trusted leg. *)
Definition weakest (p : list RouteLeg) (w : float64) : Prop :=
  (exists e, e ∈ p /\ leg_Confidence e = w) /\ forall e, e ∈ p -> f64_le w (leg_Confidence e) = true.

Lemma FindRoutes_route edges base quote maxHops p :
  p ∈ FindRoutes edges base quote maxHops false <-> is_route edges base quote maxHops p.
Proof.
  unfold is_route. destruct (decide (base = quote)) as [->|Hne]; [|rewrite FindRoutes_spec by done; tauto].
  unfold FindRoutes. rewrite Asset_Equal_refl, orb_true_r. rewrite elem_of_nil. naive_solver.
Qed.

Lemma FindRoutes_shortest_route edges base quote maxHops p :
  p ∈ FindRoutes edges base quote maxHops true <-> shortest_route edges base quote maxHops p.
Proof.
  rewrite FindRoutes_shortest, keepShortest_spec. unfold shortest_route. rewrite FindRoutes_route.
  apply and_iff_compat_l. split; intros H q Hq; apply H; by apply FindRoutes_route.
Qed.

Lemma RouteConfidence_weakest p : p <> [] -> Forall (fun e => finite (leg_Confidence e)) p -> weakest p (RouteConfidence p).
Proof.
  destruct p as [|l rest]; [done|]. intros _ [Hl HF]%Forall_cons. unfold RouteConfidence. revert l Hl.
  induction HF as [|e rest He HF IH]; intros l Hl; simpl.
  - split; [by exists l; split; [left|]|]. intros e He%list_elem_of_singleton. subst. apply f64_le_refl, Hl.
  - set (l' := if f64_lt (leg_Confidence e) (leg_Confidence l) then e else l).
    assert ((if f64_lt (leg_Confidence e) (leg_Confidence l) then leg_Confidence e else leg_Confidence l) = leg_Confidence l') as ->
      by (unfold l'; by case_if).
    destruct (IH l') as [(x & Hx & Ex) Hall]; [unfold l'; by case_if|].
    assert (f64_le (leg_Confidence l') (leg_Confidence e) = true /\ f64_le (leg_Confidence l') (leg_Confidence l) = true) as [L1 L2].
    { unfold l'. destruct (f64_lt _ _) eqn:E; [split; [apply f64_le_refl, He|by apply f64_lt_le]|].
      split; [|apply f64_le_refl, Hl]. rewrite f64_lt_negb_le in E by (apply He || apply Hl). by apply negb_false_iff in E. }
    specialize (Hall l' ltac:(left)) as Hl'. split.
    + exists x. split; [|done]. apply elem_of_cons in Hx as [->|Hx]; [|by right; right]. unfold l'. case_if; [by right; left|by left].
    + intros y [->|[->|Hy]%elem_of_cons]%elem_of_cons; [by eapply f64_le_trans..|]. apply Hall. by right.
Qed.

Lemma weakest_le p w w' : weakest p w -> weakest p w' -> f64_le w w' = true.
Proof. intros [_ H] [(e & He & <-) _]. by apply H. Qed.

(** The trust of a route of a graph with finite confidences. *)
Lemma route_trust_weakest edges base quote maxHops r :
  (forall e, e ∈ edges -> finite (leg_Confidence e)) -> is_route edges base quote maxHops r ->
  weakest r (sanitizeConfidence (RouteConfidence r)).
Proof.
  intros Hfin (_ & Hne & _ & HF & _). assert (weakest r (RouteConfidence r)) as Hw.
  { apply RouteConfidence_weakest; [done|]. eapply Forall_impl; [exact HF|]. auto. }
  destruct Hw as [(e & He & <-) Hall]. rewrite Forall_forall in HF. destruct (Hfin e (HF e He)) as [H1 H2].
  unfold sanitizeConfidence. rewrite H1, H2. split; [by exists e|done].
Qed.

(** The combination, by the routes the search returned. *)
Lemma CombineRoutes_by_search edges base quote maxHops minConf c :
  CombineRoutes edges base quote maxHops minConf = Ok c ->
  let routes := FindRoutes edges base quote maxHops true in
  let trust r := sanitizeConfidence (RouteConfidence r) in
    (lowConfidence c = true <-> forall r, r ∈ routes -> f64_le minConf (trust r) = false) /\
    (diverged c = true -> corroborationCount c = 0%nat) /\
    exists r p, composite c = Some p /\ r ∈ routes /\ CompositeRate r = Ok p /\
      f64_eq (trust r) (combinedConfidence c) = true /\
      (lowConfidence c = true \/ f64_le minConf (trust r) = true) /\
      (forall r', r' ∈ routes -> lowConfidence c = true \/ f64_le minConf (trust r') = true ->
         f64_le (trust r') (combinedConfidence c) = true).
Proof.
  intros (scored & gated & low & Hs & Hne & Hg & Hcomp & Hconf & Hlow & Hdiv)%CombineRoutes_Ok routes conf.
  apply scoreRoutes_spec in Hs as [Hmap HF]. fold routes in Hmap. rewrite Forall_forall in HF.
  pose proof (gateByConfidence_spec scored minConf) as Hgs. rewrite Hg in Hgs. destruct Hgs as (Hin & Hl & Hgne).
  assert (forall s, s ∈ scored -> sr_confidence s = conf (sr_legs s) /\ sr_legs s ∈ routes) as Hsc.
  { intros s Hs. split; [by apply HF|]. rewrite <- Hmap. by apply (list_elem_of_fmap_2 sr_legs). }
  assert (forall r, r ∈ routes -> exists s, s ∈ scored /\ sr_legs s = r) as Hrs.
  { intros r Hr. rewrite <- Hmap in Hr. apply list_elem_of_fmap in Hr as (s & -> & Hs). eauto. }
  assert (Forall finite_conf gated) as Hfin.
  { apply Forall_forall. intros s [Hs _]%Hin. unfold finite_conf. rewrite (proj1 (Hsc s Hs)).
    apply sanitizeConfidence_finite. }
  rewrite Hcomp, Hconf, Hlow. split; [|split; [done|]].
  { rewrite Hl. split.
    - intros H r (s & Hs & <-)%Hrs. rewrite <- (proj1 (Hsc s Hs)). auto.
    - intros H s Hs. rewrite (proj1 (Hsc s Hs)). by apply H, Hsc. }
  destruct (highestConfidencePrice_spec gated (Hgne Hne) Hfin) as (p & s & Hp & Hsg & Hpr & Heq).
  apply Hin in Hsg as [Hss Hgate]. destruct (Hsc s Hss) as [Ec Hr]. destruct (HF s Hss) as [Hcr _].
  exists (sr_legs s), p. rewrite Hpr in Hcr. split_and!; try done; rewrite <- ?Ec; try done.
  intros r' (t & Ht & <-)%Hrs Hgt. rewrite <- (proj1 (Hsc t Ht)) in *.
  apply (maxConfidence_spec gated (Hgne Hne) Hfin). by apply Hin.
Qed.

Lemma CombineRoutes_no_route edges base quote maxHops minConf :
  CombineRoutes edges base quote maxHops minConf = Err ErrNoRoute <-> FindRoutes edges base quote maxHops true = [].
Proof.
  rewrite FindRoutes_shortest. unfold CombineRoutes. set (all := FindRoutes _ _ _ _ _).
  destruct (keepShortest all) as [|r0 rs]; [done|]. split; [|done]. intros E. exfalso.
  pose proof (scoreRoutes_err (r0 :: rs)). destruct (scoreRoutes (r0 :: rs)); cbn [mbind res_bind] in E; [|congruence].
  destruct (gateByConfidence _ _). destruct (highestConfidencePrice _).
  case_if_in E; [done|]. match type of E with mbind _ ?m = _ => destruct m eqn:Em; cbn [mbind res_bind] in E; [done|] end.
  injection E as ->. by apply nextTierDisagrees_err in Em.
Qed.

(** A request has a shortest route as soon as it has one. *)
Lemma shortest_exists edges base quote maxHops r :
  is_route edges base quote maxHops r -> FindRoutes edges base quote maxHops true <> [].
Proof.
  rewrite <- FindRoutes_route, FindRoutes_shortest. unfold keepShortest. intros Hr.
  destruct (FindRoutes edges base quote maxHops false) as [|p0 ps] eqn:E; [by apply not_elem_of_nil in Hr|].
  destruct (min_len_spec (p0 :: ps) (length p0)) as (_ & _ & H3). intros Hn.
  assert (exists q, q ∈ p0 :: ps /\ length q = min_len (p0 :: ps) (length p0)) as (q & Hq & El)
    by (destruct H3 as [->|H3]; [exists p0; split; [left|done]|done]).
  apply (not_elem_of_nil q). rewrite <- Hn. by apply list_elem_of_filter.
Qed.


(** A diamond of two markets each way, of which one leg is hardly trusted. *)
Definition conf_leg_ex (a b : Asset) (p : Q) (c : Z) : RouteLeg :=
  mkLeg a b (Some p) (S754_finite false 4503599627370496 (-52 - c)) [].
Definition diamond_ex : list RouteLeg :=
  let eth := mkAsset AssetCrypto "ETH" "" "" in
  [conf_leg_ex NativeAsset btc_ex (1 # 4) 0; conf_leg_ex btc_ex usd_ex (2 # 1) 1;
   conf_leg_ex NativeAsset eth (1 # 8) 2; conf_leg_ex eth usd_ex (80 # 1) 0].


Lemma corroboratingRouteCount_sound_witness :
  let s a := mkScored [leg_ex NativeAsset a (1 # 4); leg_ex a usd_ex (2 # 1)] (1 # 2) f64_one in
  let survivors := [s btc_ex; s (mkAsset AssetCrypto "ETH" "" "")] in
  exists idx, corroborating_set survivors idx /\ length idx = 2%nat.
Proof.
  cbv zeta. match goal with |- exists _, corroborating_set ?s _ /\ _ =>
    destruct (proj1 (proj2 (corroboratingRouteCount_sound s))) as (idx & Hidx & Hl); [vm_compute; lia|];
    exists idx; split; [exact Hidx|]; rewrite Hl; vm_compute; reflexivity end.
Defined.
