(* ===== verification/Global.v ===== *)
(** * The global price (internal/aggregate/global.go)

    The fallback chain of the headline price of an asset: our own VWAP, the
    average of the aggregator sources, the triangulated price, a stale VWAP.
    The storage seam is a record of functions that may fail; the alias forms
    of the base asset come from the registry of [Alias]. [time.Now] is one
    reading per call, an argument. *)

From S2P Require Import Prelude GoLib Amount Asset Alias Float64 Trade RobustStat Window Outliers.

Local Open Scope Q_scope.

(** ** Results, readers, options *)

Inductive PriceAuthority :=
| AuthorityVWAPNative | AuthorityAggregatorAvg | AuthorityTriangulated
| AuthorityReferenceRate | AuthorityIdentity | AuthorityOnChainListing.

Record GlobalPriceResult := mkGlobalPrice {
  gp_Price : string;
  gp_Authority : PriceAuthority;
  gp_Sources : list string;
  gp_AsOf : Time;
  gp_TradeCount : Z
}.

(** A lookup answers with a value, with nothing ([ok = false]) or with an
    error of the storage. *)
Record GlobalPriceReader (E : Type) := mkReader {
  LatestVWAP : Asset -> Asset -> res E (option (string * Time * Z * list string));
  LatestAggregatorPrices : Asset -> Asset -> list string -> res E (list OracleUpdate);
  LookupTriangulated : Asset -> Asset -> Duration -> res E (option (string * Time))
}.
Arguments LatestVWAP {E}.
Arguments LatestAggregatorPrices {E}.
Arguments LookupTriangulated {E}.

Record GlobalPriceOptions := mkGlobalOptions {
  VWAPMinTradeCount : Z;
  AggregatorSources : list string;
  TriangulationWindow : Duration;
  MaxAggregatorAge : Duration;
  MaxVWAPAge : Duration
}.

Definition DefaultGlobalPriceOptions : GlobalPriceOptions :=
  mkGlobalOptions 5 [] (5 * Minute) (10 * Minute) (10 * Minute).

Inductive global_error (E : Type) := ErrNoPrice | ErrNilReader | ErrReader (e : E).
Arguments ErrNoPrice {E}.
Arguments ErrNilReader {E}.
Arguments ErrReader {E} e.

(** ** The aggregator tier *)

Definition filterFreshAggregatorRows (rows : list OracleUpdate) (maxAge : Duration) (now : Time) : list OracleUpdate :=
  if (maxAge <=? 0)%Z then rows
  else filter (fun u => time_After (ou_Timestamp u) (time_Add now (- maxAge)) = true) rows.

Definition aggregatorCommonDecimals : Z := 14.
Definition aggregatorMinForOutlierReject : nat := 3.
Definition aggregatorMADFactor : Q := 5 # 1.

Definition pow10 (n : Z) : Z := big_Exp 10 n.

Definition scaledAggregatorRat (u : OracleUpdate) : option Q :=
  let bi := Amount_BigInt (ou_Price u) in
  if (Z.sgn bi <=? 0)%Z then None
  else
    let diff := (aggregatorCommonDecimals - ou_Decimals u)%Z in
    Some (inject_Z (if (0 <? diff)%Z then bi * pow10 diff
                    else if (diff <? 0)%Z then Z.quot bi (pow10 (- diff)) else bi)).

(** The rows with a usable price, in input order. *)
Definition scaled_rows (rows : list OracleUpdate) : list (OracleUpdate * Q) :=
  omap (fun u => match scaledAggregatorRat u with Some v => Some (u, v) | None => None end) rows.

(** [CentreScale] answers on three values or more. *)
Definition rejectAggregatorOutliers (rows : list OracleUpdate) : list OracleUpdate :=
  if (length rows <? aggregatorMinForOutlierReject)%nat then rows
  else
    let vals := scaled_rows rows in
    if (length vals <? aggregatorMinForOutlierReject)%nat then rows
    else
      match CentreScale (map snd vals) with
      | None => rows
      | Some (centre, scale) =>
          let half := aggregatorMADFactor * scale in
          let kept := omap (fun r : OracleUpdate * Q =>
            match SymmetricDev (Some r.2) (Some centre) with
            | None => None
            | Some dev => if Qlt_bool half dev then None else Some r.1
            end) vals in
          if (length kept =? 0)%nat then rows else kept
      end.

(** Decimal text of a scaled integer: the padding loop adds as many zeros as
    are missing. *)
Fixpoint zeros (n : nat) : string := match n with O => "" | S n => String "0" (zeros n) end.

Definition formatScaledDecimal (avg p10 : Z) (decimals : nat) : string :=
  let intPart := Z.quot avg p10 in
  let frac := Z.abs (Z.rem avg p10) in
  let fracStr := big_String frac in
  big_String intPart +:+ "." +:+ (zeros (decimals - String.length fracStr) +:+ fracStr).

(** The running sum of real prices, the latest time and the count. *)
Definition average_step (st : Q * Time * Z) (u : OracleUpdate) : Q * Time * Z :=
  let '(sum, latest, contributed) := st in
  let bi := Amount_BigInt (ou_Price u) in
  if (Z.sgn bi <=? 0)%Z then st
  else
    (sum + SetFrac bi (pow10 (ou_Decimals u)),
     if time_After (ou_Timestamp u) latest then ou_Timestamp u else latest,
     (contributed + 1)%Z).

(** [big.Rat] is in lowest terms. *)
Definition averageAggregatorPrices (rows : list OracleUpdate) : option (string * Time) :=
  match rows with
  | [] => None
  | _ =>
      let target := big_Exp 10 14 in
      let '(sum, latest, contributed) := foldl average_step (0, zero_time, 0%Z) rows in
      if (contributed =? 0)%Z then None
      else
        let sum := Qred (sum * SetFrac target contributed) in
        let twoNum := (Z.shiftl (Qnum sum) 1 + Zpos (Qden sum))%Z in
        let avgScaled := Z.quot twoNum (Z.shiftl (Zpos (Qden sum)) 1) in
        if (Z.sgn avgScaled <=? 0)%Z then None
        else Some (formatScaledDecimal avgScaled target 14, latest)
  end.

(** ** The tiers *)

Definition assetAliases (g : globals) (asset : Asset) : list Asset := AssetAliases g asset.

Section Tiers.
Context {E : Type} (reader : GlobalPriceReader E) (opts : GlobalPriceOptions) (quote : Asset) (now : Time).

(** The loop of [tryVWAPTier]: the first fresh result, else the first stale. *)
Fixpoint vwap_loop (aliases : list Asset) (stale : option GlobalPriceResult)
    : res E (option GlobalPriceResult * option GlobalPriceResult) :=
  match aliases with
  | [] => Ok (None, stale)
  | b :: aliases =>
      match LatestVWAP reader b quote with
      | Err e => Err e
      | Ok None => vwap_loop aliases stale
      | Ok (Some (vwap, asOf, tradeCount, sources)) =>
          if (tradeCount <? VWAPMinTradeCount opts)%Z then vwap_loop aliases stale
          else
            let r := mkGlobalPrice vwap AuthorityVWAPNative sources asOf tradeCount in
            if (MaxVWAPAge opts <=? 0)%Z || time_After asOf (time_Add now (- MaxVWAPAge opts)) then Ok (Some r, None)
            else vwap_loop aliases (match stale with None => Some r | Some _ => stale end)
      end
  end.

Definition tryVWAPTier (g : globals) (base : Asset) := vwap_loop (assetAliases g base) None.

Fixpoint aggregator_loop (aliases : list Asset) : res E (option GlobalPriceResult) :=
  match aliases with
  | [] => Ok None
  | b :: aliases =>
      match LatestAggregatorPrices reader b quote (AggregatorSources opts) with
      | Err e => Err e
      | Ok rows =>
          if (length rows =? 0)%nat then aggregator_loop aliases
          else
            let fresh := filterFreshAggregatorRows rows (MaxAggregatorAge opts) now in
            if (length fresh =? 0)%nat then aggregator_loop aliases
            else
              let kept := rejectAggregatorOutliers fresh in
              match averageAggregatorPrices kept with
              | None => aggregator_loop aliases
              | Some (avgPrice, latest) =>
                  Ok (Some (mkGlobalPrice avgPrice AuthorityAggregatorAvg (map ou_Source kept) latest 0))
              end
      end
  end.

Definition tryAggregatorTier (g : globals) (base : Asset) : res E (option GlobalPriceResult) :=
  if (length (AggregatorSources opts) =? 0)%nat then Ok None else aggregator_loop (assetAliases g base).

Fixpoint triangulated_loop (aliases : list Asset) : res E (option GlobalPriceResult) :=
  match aliases with
  | [] => Ok None
  | b :: aliases =>
      match LookupTriangulated reader b quote (TriangulationWindow opts) with
      | Err e => Err e
      | Ok None => triangulated_loop aliases
      | Ok (Some (price, asOf)) => Ok (Some (mkGlobalPrice price AuthorityTriangulated [] asOf 0))
      end
  end.

Definition tryTriangulatedTier (g : globals) (base : Asset) : res E (option GlobalPriceResult) :=
  triangulated_loop (assetAliases g base).
End Tiers.

(** [None] is the nil reader. *)
Definition ComputeGlobalPrice {E} (g : globals) (base quote : Asset) (reader : option (GlobalPriceReader E))
    (opts : GlobalPriceOptions) (now : Time) : res (global_error E) GlobalPriceResult :=
  match reader with
  | None => Err ErrNilReader
  | Some reader =>
      match tryVWAPTier reader opts quote now g base with
      | Err e => Err (ErrReader e)
      | Ok (Some r, _) => Ok r
      | Ok (None, stale) =>
          match tryAggregatorTier reader opts quote now g base with
          | Err e => Err (ErrReader e)
          | Ok (Some r) => Ok r
          | Ok None =>
              match tryTriangulatedTier reader opts quote g base with
              | Err e => Err (ErrReader e)
              | Ok (Some r) => Ok r
              | Ok None => match stale with Some r => Ok r | None => Err ErrNoPrice end
              end
          end
      end
  end.

(** ** The average *)

(** The real price of a row. *)
Definition real_price (u : OracleUpdate) : Q := SetFrac (Amount_BigInt (ou_Price u)) (pow10 (ou_Decimals u)).

Definition positive_price (u : OracleUpdate) : bool := (0 <? Amount_BigInt (ou_Price u))%Z.

Definition positive_rows (rows : list OracleUpdate) : list OracleUpdate := filter (fun u => positive_price u = true) rows.

(** The mean of the rows with a positive price. *)
Definition mean_price (rows : list OracleUpdate) : Q :=
  qsum (map real_price (positive_rows rows)) / inject_Z (Z.of_nat (length (positive_rows rows))).

Definition latest_of (t : Time) (rows : list OracleUpdate) : Time :=
  foldl (fun t u => Z.max t (ou_Timestamp u)) t rows.

Lemma sgn_nonpositive z : (Z.sgn z <=? 0)%Z = negb (0 <? z)%Z.
Proof. apply eq_true_iff_eq. rewrite negb_true_iff, Z.leb_le, Z.ltb_ge. lia. Qed.

Lemma average_fold rows sum latest n :
  exists sum', foldl average_step (sum, latest, n) rows =
    (sum', latest_of latest (positive_rows rows), (n + Z.of_nat (length (positive_rows rows)))%Z) /\
    sum' == sum + qsum (map real_price (positive_rows rows)).
Proof.
  revert sum latest n; induction rows as [|u rows IH]; intros sum latest n; simpl.
  { exists sum. split; [by rewrite Z.add_0_r|lra]. }
  rewrite sgn_nonpositive. change (0 <? Amount_BigInt (ou_Price u))%Z with (positive_price u). unfold positive_rows. rewrite filter_cons.
  destruct (positive_price u) eqn:Ep; cbn [negb]; destruct (decide _) as [Hd|Hd]; try congruence.
  - destruct (IH (sum + SetFrac (Amount_BigInt (ou_Price u)) (pow10 (ou_Decimals u)))
      (if time_After (ou_Timestamp u) latest then ou_Timestamp u else latest) (n + 1)%Z) as (s' & -> & Hs).
    exists s'. split; [|simpl; rewrite Hs; unfold real_price; fold (positive_rows rows); lra]. f_equal; [f_equal|].
    + simpl. unfold latest_of. simpl. f_equal. unfold time_After. case_if; bprop; lia.
    + simpl. fold (positive_rows rows). lia.
  - apply IH.
Qed.

Lemma power_pos n : (0 < pow10 n)%Z.
Proof. unfold pow10, big_Exp. case_if; [lia|]. bprop. apply Z.pow_pos_nonneg; lia. Qed.

Lemma real_price_pos u : positive_price u = true -> 0 < real_price u.
Proof.
  unfold positive_price, real_price, SetFrac. intros H. bprop. pose proof (power_pos (ou_Decimals u)) as Hp.
  rewrite inject_Z_pos in H, Hp. apply Qlt_shift_div_l; lra.
Qed.

(** Half-up rounding of a rational in lowest terms. *)
Lemma half_up_round (m : Q) : 0 <= m ->
  let z := Z.quot (Z.shiftl (Qnum m) 1 + Zpos (Qden m)) (Z.shiftl (Zpos (Qden m)) 1) in
  (0 <= z)%Z /\ inject_Z z <= m + (1 # 2) /\ m + (1 # 2) < inject_Z z + 1.
Proof.
  intros Hm. destruct m as [n d]. unfold Qle in Hm. simpl in Hm. rewrite !Z.shiftl_mul_pow2 by lia. simpl Qnum. simpl Qden.
  change (2 ^ 1)%Z with 2%Z. rewrite Z.quot_div_nonneg by lia. set (z := ((n * 2 + Zpos d) / (Zpos d * 2))%Z).
  pose proof (Z.div_mod (n * 2 + Zpos d) (Zpos d * 2) ltac:(lia)). pose proof (Z.mod_pos_bound (n * 2 + Zpos d) (Zpos d * 2) ltac:(lia)).
  fold z in H. assert (0 <= z)%Z by (apply Z.div_pos; lia). split; [done|].
  assert ((n # d) == inject_Z n / inject_Z (Zpos d)) as -> by apply Qmake_Qdiv.
  assert (0 < inject_Z (Zpos d)) as Hd by (rewrite <- inject_Z_pos; lia).
  assert (inject_Z z * inject_Z (Zpos d) * (2 # 1) <= inject_Z n * (2 # 1) + inject_Z (Zpos d)) as H2
    by (change (2 # 1) with (inject_Z 2); rewrite <- !inject_Z_mult, <- inject_Z_plus, <- Zle_Qle; lia).
  assert (inject_Z n * (2 # 1) + inject_Z (Zpos d) < inject_Z z * inject_Z (Zpos d) * (2 # 1) + inject_Z (Zpos d) * (2 # 1)) as H3
    by (change (2 # 1) with (inject_Z 2); rewrite <- !inject_Z_mult, <- !inject_Z_plus, <- Zlt_Qlt; lia).
  set (q := inject_Z n / inject_Z (Zpos d)). assert (inject_Z n == q * inject_Z (Zpos d)) as Hq by (unfold q; field; lra).
  rewrite Hq in H2, H3. split; nra.
Qed.

(** ** Decimal text *)

Lemma parse_zeros k s : s <> EmptyString -> parse_uint 10 (zeros k +:+ s) = parse_uint 10 s.
Proof.
  intros Hs. assert (parse_uint 10 s = parse_acc 10 s 0) as -> by (by destruct s).
  assert (parse_uint 10 (zeros k +:+ s) = parse_acc 10 (zeros k +:+ s) 0) as ->.
  { destruct k; [by destruct s|done]. }
  induction k as [|k IH]; [done|]. cbn [zeros String.append parse_acc]. exact IH.
Qed.

Lemma zeros_length k : String.length (zeros k) = k.
Proof. induction k; simpl; congruence. Qed.

(** The value a reader takes from decimal text with [k] fractional digits. *)
Definition decimal_of (s : string) (k : nat) (z : Z) : Prop :=
  exists i f, s = i +:+ "." +:+ f /\ String.length f = k /\
    parse_uint 10 i = Some (z / 10 ^ Z.of_nat k)%Z /\ parse_uint 10 f = Some (z mod 10 ^ Z.of_nat k)%Z.

Lemma big_String_nonneg z : (0 <= z)%Z -> big_String z = fmt_uint 10 z.
Proof. intros H. unfold big_String. by rewrite (proj2 (Z.ltb_ge z 0)). Qed.

Lemma formatScaledDecimal_exact z k : (0 <= z)%Z -> (0 < k)%nat ->
  decimal_of (formatScaledDecimal z (10 ^ Z.of_nat k) k) k z.
Proof.
  intros Hz Hk. assert (0 < 10 ^ Z.of_nat k)%Z as Hp by (apply Z.pow_pos_nonneg; lia).
  unfold formatScaledDecimal. rewrite Z.quot_div_nonneg, Z.rem_mod_nonneg by lia.
  pose proof (Z.mod_pos_bound z (10 ^ Z.of_nat k) Hp) as Hm. pose proof (Z.div_pos z (10 ^ Z.of_nat k) Hz Hp) as Hd.
  rewrite Z.abs_eq, !big_String_nonneg by lia. eexists _, _. split; [reflexivity|]. split; [|split].
  - rewrite str_length_app, zeros_length. destruct k as [|k]; [lia|].
    pose proof (fmt_uint_length 10 ltac:(lia) (z mod 10 ^ Z.of_nat (S k)) k Hm). lia.
  - apply parse_fmt_uint; lia.
  - rewrite parse_zeros by (apply fmt_uint_nonempty; lia). apply parse_fmt_uint; lia.
Qed.

(** ** The served average *)

Lemma qsum_real_prices l : l <> [] -> Forall (fun u => positive_price u = true) l -> 0 < qsum (map real_price l).
Proof.
  intros Hne HF. destruct HF as [|u l Hu HF]; [done|]. clear Hne. apply real_price_pos in Hu. simpl.
  assert (0 <= qsum (map real_price l)); [|lra]. induction HF as [|v l Hv HF IH]; simpl; [lra|].
  apply real_price_pos in Hv. lra.
Qed.

Lemma mean_price_pos rows : positive_rows rows <> [] -> 0 < mean_price rows.
Proof.
  intros Hne. unfold mean_price. apply Qlt_shift_div_l.
  - rewrite <- inject_Z_pos. destruct (positive_rows rows); [done|]. simpl. lia.
  - rewrite Qmult_0_l. apply qsum_real_prices; [done|]. apply Forall_forall. by intros u [? _]%list_elem_of_filter.
Qed.

(** The aggregator average is the mean, rounded once: over the rows with a
    positive price, the text served is the decimal, with 14 fractional digits,
    of the exact mean of the real prices rounded half up, stamped with the
    latest of their observation times; nothing is served only when there is no
    such row or the mean is below half a unit of the last digit. *)
Theorem averageAggregatorPrices_mean rows :
  match averageAggregatorPrices rows with
  | Some (s, latest) =>
      exists z, (0 < z)%Z /\ decimal_of s 14 z /\
        inject_Z z - (1 # 2) <= mean_price rows * inject_Z (10 ^ 14) < inject_Z z + (1 # 2) /\
        latest = latest_of zero_time (positive_rows rows) /\ positive_rows rows <> []
  | None => positive_rows rows = [] \/ mean_price rows * inject_Z (10 ^ 14) < 1 # 2
  end.
Proof.
  unfold averageAggregatorPrices. destruct rows as [|u0 rows0] eqn:Er; [by left|]. rewrite <- Er. clear Er u0 rows0.
  destruct (average_fold rows 0 zero_time 0) as (sum & -> & Hsum). rewrite Z.add_0_l.
  destruct (Z.eqb_spec (Z.of_nat (length (positive_rows rows))) 0) as [Hz|Hz].
  { left. by apply nil_length_inv, Nat2Z.inj. }
  assert (positive_rows rows <> []) as Hne by (intros E; by rewrite E in Hz).
  change (big_Exp 10 14) with (10 ^ 14)%Z. set (n := Z.of_nat (length (positive_rows rows))) in *.
  set (m := Qred (sum * SetFrac (10 ^ 14) n)).
  assert (m == mean_price rows * inject_Z (10 ^ 14)) as Hm.
  { unfold m, mean_price, SetFrac. rewrite Qred_correct, Hsum. fold n.
    assert (~ inject_Z n == 0) by (unfold n; intros H; apply Hz; by apply (inject_Z_injective _ 0)). field. done. }
  pose proof (mean_price_pos rows Hne) as Hpos. assert (0 <= m) as Hm0 by (rewrite Hm; assert (0 < inject_Z (10 ^ 14)) by (by rewrite <- inject_Z_pos); nra).
  pose proof (half_up_round m Hm0) as (Hz0 & Hlo & Hhi).
  set (z := Z.quot _ _) in *. rewrite sgn_nonpositive. destruct (Z.ltb_spec 0 z) as [Hzp|Hzn]; cbn [negb].
  - exists z. split; [done|]. split; [apply (formatScaledDecimal_exact z 14); lia|]. rewrite Hm in Hlo, Hhi. split; [lra|done].
  - right. assert (z = 0%Z) as E by lia. rewrite E, Hm in Hhi. change (inject_Z 0) with 0 in Hhi. lra.
Qed.

(** ** Rejecting divergent sources *)

(** The upper of the two middle values is at least the median, and no value is
    nearer to it: its distance is at most the MAD. *)
Lemma median_member vals c : Median vals = Some c ->
  exists hi, hi ∈ vals /\ c <= hi /\ forall v, v ∈ vals -> hi - c <= Qabs (v - c).
Proof.
  intros Hc. destruct (Median_central _ _ Hc) as (lo & hi & Hlo & Hhi & Hm).
  assert (0 < length vals)%nat as Hn by (destruct vals; [done|simpl; lia]).
  destruct (div2_bounds (length vals) Hn) as (H1 & H2 & H3).
  assert (lo <= hi) as Hlh by (eapply Qsort_lookup_le; eauto).
  exists hi. split; [by eapply Qsort_lookup_elem|]. split; [hlra|]. intros v Hv.
  rewrite <- (Qsort_perm vals) in Hv. apply list_elem_of_lookup in Hv as [i Hi].
  destruct (Nat.le_gt_cases i ((length vals - 1) / 2)) as [Hle|Hgt].
  - assert (v <= lo) by (eapply Qsort_lookup_le; eauto).
    assert (Qabs (v - c) == - (v - c)) as -> by (apply Qabs_neg; hlra). hlra.
  - assert (length vals / 2 <= i)%nat as Hi2.
    { pose proof (Nat.div_mod_eq (length vals) 2). pose proof (Nat.div_mod_eq (length vals - 1) 2).
      pose proof (Nat.mod_upper_bound (length vals) 2). pose proof (Nat.mod_upper_bound (length vals - 1) 2). lia. }
    assert (hi <= v) by (eapply Qsort_lookup_le; eauto).
    assert (Qabs (v - c) == v - c) as -> by (apply Qabs_pos; hlra). hlra.
Qed.

Lemma CentreScale_member vals c s : CentreScale vals = Some (c, s) -> exists v, v ∈ vals /\ c <= v /\ v - c <= s.
Proof.
  unfold CentreScale, WeightedCentreScale, WeightedMedian. destruct vals as [|v0 vals0] eqn:Ev; [done|]. rewrite <- Ev.
  intros E. apply bind_Some in E as (c' & Hc & E). apply bind_Some in E as (m & Hm & [= -> <-]).
  destruct (median_member _ _ Hc) as (hi & Hin & Hge & Hall). exists hi. split; [done|]. split; [done|].
  assert (hi - c <= m) as Hle.
  { destruct (Median_between _ _ Hm) as (lo & hi' & Hlo & _ & Hb & _).
    apply list_elem_of_fmap in Hlo as (v & Ev' & Hv). specialize (Hall v Hv). rewrite Ev' in Hb. lra. }
  unfold madToStd. repeat case_if; qprop; lra.
Qed.

Lemma scaled_rows_nonneg rows : Forall (fun r : OracleUpdate * Q => 0 <= r.2) (scaled_rows rows).
Proof.
  apply Forall_forall. intros [u v] (u' & _ & H)%list_elem_of_omap. unfold scaledAggregatorRat in H.
  rewrite sgn_nonpositive in H. destruct (Z.ltb_spec 0 (Amount_BigInt (ou_Price u'))) as [Hp|]; cbn [negb] in H; [|done].
  injection H as <- <-. simpl. change 0 with (inject_Z 0). rewrite <- Zle_Qle.
  pose proof (power_pos (aggregatorCommonDecimals - ou_Decimals u')).
  pose proof (power_pos (- (aggregatorCommonDecimals - ou_Decimals u'))).
  repeat case_if; [nia|apply Z.quot_pos; lia|lia].
Qed.

(** The acceptance test in multiplicative form. *)
Definition in_ratio_band (c T v : Q) : bool := Qle_bool (c * c) (v * (c + T)) && Qle_bool v (c + T).

Lemma SymmetricDev_test c T v : 0 <= c -> 0 <= T -> 0 <= v ->
  match SymmetricDev (Some v) (Some c) with None => false | Some dev => negb (Qlt_bool T dev) end = in_ratio_band c T v.
Proof.
  intros Hc HT Hv. unfold SymmetricDev. apply eq_true_iff_eq. unfold in_ratio_band. rewrite andb_true_iff, !Qle_bool_iff.
  destruct (Qle_bool c 0) eqn:E0; cbn [orb]; [|destruct (Qle_bool c v) eqn:E1; cbn [orb]]; qprop.
  - assert (Qabs (v - c) == v - c) as Hd by (apply Qabs_pos; lra). rewrite negb_true_iff, Qlt_bool_false, Hd.
    split; [intros; split; nra|lra].
  - assert (Qabs (v - c) == v - c) as Hd by (apply Qabs_pos; lra). rewrite negb_true_iff, Qlt_bool_false, Hd.
    split; [intros; split; nra|lra].
  - destruct (Qle_bool v 0) eqn:E2; qprop.
    + split; [done|]. intros [H _]. assert (v == 0) as Hz by lra. rewrite Hz in H. nra.
    + rewrite negb_true_iff, Qlt_bool_false, Qdiv_le_iff by lra. split; [intros; split; nra|intros [? _]; nra].
Qed.

Lemma omap_filter_map {A B} (f : A -> option B) (p : A -> bool) (g : A -> B) l :
  (forall x, x ∈ l -> f x = if p x then Some (g x) else None) -> omap f l = map g (filter (fun x => p x = true) l).
Proof.
  induction l as [|x l IH]; intros H; [done|]. rewrite filter_cons.
  assert (omap f l = map g (filter (fun x => p x = true) l)) as E by (apply IH; intros; apply H; by right).
  simpl. rewrite (H x) by left. destruct (p x); simpl; [f_equal|]; exact E.
Qed.

(** With three usable aggregator prices or more, the tier keeps, in input
    order, exactly the sources whose price is within five robust deviations of
    the median in ratio space, high or low, and it keeps at least one; with
    fewer it keeps every row. *)
Theorem rejectAggregatorOutliers_band rows :
  let vals := scaled_rows rows in
  if (3 <=? length vals)%nat then
    exists c s, CentreScale (map snd vals) = Some (c, s) /\ 0 <= c /\ 0 <= s /\
      rejectAggregatorOutliers rows =
        map fst (filter (fun r => in_ratio_band c ((5 # 1) * s) r.2 = true) vals) /\
      rejectAggregatorOutliers rows <> []
  else rejectAggregatorOutliers rows = rows.
Proof.
  intros vals. unfold rejectAggregatorOutliers. fold vals.
  assert (length vals <= length rows)%nat as Hl.
  { unfold vals, scaled_rows. clear. induction rows as [|u rows IH]; cbn [omap list_omap length]; [lia|].
    destruct (scaledAggregatorRat u); simpl in *; lia. }
  destruct (Nat.leb_spec 3 (length vals)) as [H3|H3].
  2: { case_if; [done|]. by rewrite (proj2 (Nat.ltb_lt (length vals) aggregatorMinForOutlierReject)). }
  rewrite !(proj2 (Nat.ltb_ge _ _)) by (unfold aggregatorMinForOutlierReject; lia).
  assert (map snd vals <> []) as Hne by (destruct vals; simpl in *; [lia|done]).
  destruct (CentreScale_defined _ Hne) as [[c s] Hcs]. exists c, s.
  destruct (CentreScale_Some _ _ _ Hcs) as [Hmed Hs0].
  assert (Forall (fun r : OracleUpdate * Q => 0 <= r.2) vals) as Hnn by apply scaled_rows_nonneg.
  assert (0 <= c) as Hc0 by (eapply Median_nonneg, Hmed; by apply Forall_map).
  rewrite Hcs. set (kept := omap _ vals).
  assert (kept = map fst (filter (fun r => in_ratio_band c ((5 # 1) * s) r.2 = true) vals)) as Ek.
  { apply omap_filter_map. intros r Hr. rewrite Forall_forall in Hnn. unfold aggregatorMADFactor.
    rewrite <- (SymmetricDev_test c ((5 # 1) * s) r.2 Hc0 ltac:(lra) (Hnn r Hr)).
    destruct (SymmetricDev (Some r.2) (Some c)) as [d|]; [by destruct (Qlt_bool ((5 # 1) * s) d)|done]. }
  assert (kept <> []) as Hk.
  { destruct (CentreScale_member _ _ _ Hcs) as (v & Hv & Hge & Hle). apply list_elem_of_fmap in Hv as (r & -> & Hr).
    assert (r.1 ∈ kept) as Hin; [|by destruct kept; [apply not_elem_of_nil in Hin|]].
    rewrite Ek. apply list_elem_of_fmap. exists r. split; [done|]. apply list_elem_of_filter. split; [|done].
    unfold in_ratio_band. rewrite andb_true_iff, !Qle_bool_iff. split; nra. }
  rewrite (proj2 (Nat.eqb_neq (length kept) 0)) by (by destruct kept). done.
Qed.

(** Three prices a hundredfold apart: only the middle one is kept. *)
Lemma rejectAggregatorOutliers_minority :
  let row := fun s p => mkOracleUpdate s "" 0 "" 0 0 NativeAsset NativeAsset (mkAmount (Some p)) None 0 f64_zero "" in
  rejectAggregatorOutliers [row "a" 1%Z; row "b" 100%Z; row "c" 10000%Z] = [row "b" 100%Z].
Proof. vm_compute. reflexivity. Qed.

(** ** The fallback chain *)

Section Chain.
Context {E : Type} (reader : GlobalPriceReader E) (opts : GlobalPriceOptions) (quote : Asset) (now : Time).

(** What each tier has to say about one alias form. *)
Definition vwap_answer (b : Asset) : option GlobalPriceResult :=
  match LatestVWAP reader b quote with
  | Ok (Some (vwap, asOf, tradeCount, sources)) =>
      if (tradeCount <? VWAPMinTradeCount opts)%Z then None
      else Some (mkGlobalPrice vwap AuthorityVWAPNative sources asOf tradeCount)
  | _ => None
  end.

Definition is_fresh (r : GlobalPriceResult) : bool :=
  (MaxVWAPAge opts <=? 0)%Z || time_After (gp_AsOf r) (time_Add now (- MaxVWAPAge opts)).

Definition aggregator_answer (b : Asset) : option GlobalPriceResult :=
  match LatestAggregatorPrices reader b quote (AggregatorSources opts) with
  | Ok rows =>
      let kept := rejectAggregatorOutliers (filterFreshAggregatorRows rows (MaxAggregatorAge opts) now) in
      match averageAggregatorPrices kept with
      | Some (p, latest) => Some (mkGlobalPrice p AuthorityAggregatorAvg (map ou_Source kept) latest 0)
      | None => None
      end
  | Err _ => None
  end.

Definition triangulated_answer (b : Asset) : option GlobalPriceResult :=
  match LookupTriangulated reader b quote (TriangulationWindow opts) with
  | Ok (Some (p, asOf)) => Some (mkGlobalPrice p AuthorityTriangulated [] asOf 0)
  | _ => None
  end.

Lemma omap_step {A B} (f : A -> option B) x l :
  omap f (x :: l) = match f x with Some y => y :: omap f l | None => omap f l end.
Proof. done. Qed.

Lemma vwap_loop_spec aliases stale :
  (forall b, b ∈ aliases -> is_ok (LatestVWAP reader b quote) = true) ->
  let fresh := head (filter (fun r => is_fresh r = true) (omap vwap_answer aliases)) in
  exists st, vwap_loop reader opts quote now aliases stale = Ok (fresh, st) /\
    (fresh = None -> st = match stale with Some r => Some r | None => head (omap vwap_answer aliases) end).
Proof.
  revert stale; induction aliases as [|b aliases IH]; intros stale Hok; cbn [vwap_loop].
  { exists stale. split; [done|]. by destruct stale. }
  assert (forall b, b ∈ aliases -> is_ok (LatestVWAP reader b quote) = true) as Hok' by (intros; apply Hok; by right).
  specialize (Hok b ltac:(left)). rewrite !omap_step.
  destruct (vwap_answer b) as [r|] eqn:Ea; unfold vwap_answer in Ea;
    destruct (LatestVWAP reader b quote) as [[[[[v asOf] tc] src]|]|]; try done; try (by apply IH);
    destruct (tc <? VWAPMinTradeCount opts)%Z; try done; try (by apply IH).
  injection Ea as Ea. rewrite filter_cons, Ea.
  change ((MaxVWAPAge opts <=? 0)%Z || time_After asOf (time_Add now (- MaxVWAPAge opts)))
    with (is_fresh (mkGlobalPrice v AuthorityVWAPNative src asOf tc)). rewrite Ea.
  destruct (is_fresh r) eqn:Ef; simpl.
  - exists None. split; [done|]. done.
  - destruct (IH (match stale with None => Some r | Some _ => stale end) Hok') as (st & -> & Hst). exists st. split; [done|].
    intros Hn. rewrite (Hst Hn). by destruct stale.
Qed.

Lemma aggregator_loop_spec aliases :
  (forall b, b ∈ aliases -> is_ok (LatestAggregatorPrices reader b quote (AggregatorSources opts)) = true) ->
  aggregator_loop reader opts quote now aliases = Ok (head (omap aggregator_answer aliases)).
Proof.
  induction aliases as [|b aliases IH]; intros Hok; cbn [aggregator_loop]; [done|].
  assert (aggregator_loop reader opts quote now aliases = Ok (head (omap aggregator_answer aliases))) as IH'
    by (apply IH; intros; apply Hok; by right).
  specialize (Hok b ltac:(left)). rewrite omap_step. unfold aggregator_answer at 1.
  destruct (LatestAggregatorPrices reader b quote (AggregatorSources opts)) as [rows|]; [|done].
  destruct (Nat.eqb_spec (length rows) 0) as [E0|_].
  { apply nil_length_inv in E0 as ->. unfold filterFreshAggregatorRows. rewrite filter_nil. by destruct (_ <=? 0)%Z. }
  destruct (Nat.eqb_spec (length (filterFreshAggregatorRows rows (MaxAggregatorAge opts) now)) 0) as [E0|_].
  { by apply nil_length_inv in E0 as ->. }
  by destruct (averageAggregatorPrices _) as [[p latest]|].
Qed.

Lemma triangulated_loop_spec aliases :
  (forall b, b ∈ aliases -> is_ok (LookupTriangulated reader b quote (TriangulationWindow opts)) = true) ->
  triangulated_loop reader opts quote aliases = Ok (head (omap triangulated_answer aliases)).
Proof.
  induction aliases as [|b aliases IH]; intros Hok; cbn [triangulated_loop]; [done|].
  assert (triangulated_loop reader opts quote aliases = Ok (head (omap triangulated_answer aliases))) as IH'
    by (apply IH; intros; apply Hok; by right).
  specialize (Hok b ltac:(left)). rewrite omap_step. unfold triangulated_answer at 1.
  by destruct (LookupTriangulated reader b quote (TriangulationWindow opts)) as [[[p asOf]|]|].
Qed.

(** The chain as a choice among the tiers' answers over the alias forms. *)
Definition chain_choice (aliases : list Asset) : res (global_error E) GlobalPriceResult :=
  let vwaps := omap vwap_answer aliases in
  let aggregators := if (length (AggregatorSources opts) =? 0)%nat then [] else omap aggregator_answer aliases in
  match head (filter (fun r => is_fresh r = true) vwaps ++ aggregators ++ omap triangulated_answer aliases ++ vwaps) with
  | Some r => Ok r
  | None => Err ErrNoPrice
  end.

Lemma ComputeGlobalPrice_choice g base :
  (forall b, b ∈ assetAliases g base ->
     is_ok (LatestVWAP reader b quote) = true /\
     is_ok (LatestAggregatorPrices reader b quote (AggregatorSources opts)) = true /\
     is_ok (LookupTriangulated reader b quote (TriangulationWindow opts)) = true) ->
  ComputeGlobalPrice g base quote (Some reader) opts now = chain_choice (assetAliases g base).
Proof.
  intros Hok. unfold ComputeGlobalPrice, tryVWAPTier, tryAggregatorTier, tryTriangulatedTier, chain_choice.
  set (aliases := assetAliases g base) in *.
  destruct (vwap_loop_spec aliases None) as (st & -> & Hst); [intros b Hb; by apply Hok|].
  rewrite triangulated_loop_spec by (intros b Hb; by apply Hok).
  destruct (filter (fun r => is_fresh r = true) (omap vwap_answer aliases)) as [|r l]; [|done]. simpl in Hst |- *.
  rewrite (Hst eq_refl).
  destruct (length (AggregatorSources opts) =? 0)%nat; [|rewrite aggregator_loop_spec by (intros b Hb; by apply Hok);
    destruct (omap aggregator_answer aliases); simpl; [|done]].
  all: destruct (omap triangulated_answer aliases); simpl; [|done]; by destruct (omap vwap_answer aliases).
Qed.

(** *** What each tier offers, on its own terms *)

(** The row of the VWAP reader, if it has enough trades. *)
Definition vwap_offer (b : Asset) (r : GlobalPriceResult) : Prop :=
  exists v asOf n srcs, LatestVWAP reader b quote = Ok (Some (v, asOf, n, srcs)) /\ (VWAPMinTradeCount opts <= n)%Z
    /\ r = mkGlobalPrice v AuthorityVWAPNative srcs asOf n.

Definition fresh_offer (b : Asset) (r : GlobalPriceResult) : Prop :=
  vwap_offer b r /\ ((MaxVWAPAge opts <= 0)%Z \/ (now - MaxVWAPAge opts < gp_AsOf r)%Z).

(** The rows of the aggregators that are not too old. *)
Definition young_rows (rows : list OracleUpdate) : list OracleUpdate :=
  filter (fun u => (MaxAggregatorAge opts <= 0)%Z \/ (now - MaxAggregatorAge opts < ou_Timestamp u)%Z) rows.

(** A positive price in units of 1e-14. *)
Definition usable (u : OracleUpdate) : option (OracleUpdate * Q) :=
  if (0 <? Amount_BigInt (ou_Price u))%Z
  then Some (u, inject_Z (Amount_BigInt (ou_Price u) * 10 ^ Z.max 0 (14 - ou_Decimals u) / 10 ^ Z.max 0 (ou_Decimals u - 14)))
  else None.

(** The rows the average is over: all, with fewer than three usable prices;
    else the usable ones within five robust deviations of the middle one, the
    lower edge mirrored by ratio. *)
Definition agreeing_rows (rows kept : list OracleUpdate) : Prop :=
  if (length (omap usable rows) <? 3)%nat then kept = rows
  else exists c s, centre_scale (map snd (omap usable rows)) c s
         /\ kept = map fst (filter (fun r => in_ratio_band c ((5 # 1) * s) r.2 = true) (omap usable rows)).

(** The mean of the prices that agree, rounded half up to fourteen places. *)
Definition aggregator_offer (b : Asset) (r : GlobalPriceResult) : Prop :=
  AggregatorSources opts <> [] /\ exists rows kept z,
    LatestAggregatorPrices reader b quote (AggregatorSources opts) = Ok rows /\ agreeing_rows (young_rows rows) kept
    /\ positive_rows kept <> [] /\ (0 < z)%Z /\ decimal_of (gp_Price r) 14 z
    /\ inject_Z z - (1 # 2) <= mean_price kept * inject_Z (10 ^ 14) < inject_Z z + (1 # 2)
    /\ gp_Authority r = AuthorityAggregatorAvg /\ gp_Sources r = map ou_Source kept
    /\ gp_AsOf r = latest_of zero_time (positive_rows kept) /\ gp_TradeCount r = 0%Z.

Definition triangulated_offer (b : Asset) (r : GlobalPriceResult) : Prop :=
  exists p asOf, LookupTriangulated reader b quote (TriangulationWindow opts) = Ok (Some (p, asOf))
    /\ r = mkGlobalPrice p AuthorityTriangulated [] asOf 0.

(** [r] is offered by the first of the forms that offers anything. *)
Definition first_offer (P : Asset -> GlobalPriceResult -> Prop) (l : list Asset) (r : GlobalPriceResult) : Prop :=
  exists l1 b l2, l = l1 ++ b :: l2 /\ P b r /\ forall b' r', b' ∈ l1 -> ~ P b' r'.

Definition no_offer (P : Asset -> GlobalPriceResult -> Prop) (l : list Asset) : Prop := forall b r, b ∈ l -> ~ P b r.

Lemma head_offer (f : Asset -> option GlobalPriceResult) P (l : list Asset) :
  (forall b, match f b with Some r => P b r | None => forall r, ~ P b r end) ->
  match head (omap f l) with Some r => first_offer P l r | None => no_offer P l end.
Proof.
  intros Hf. induction l as [|b l IH]; [intros b r Hb; by apply elem_of_nil in Hb|].
  rewrite omap_step. specialize (Hf b). destruct (f b) as [r|]; simpl.
  - exists [], b, l. split_and!; [done|done|]. intros b' r' Hb. by apply elem_of_nil in Hb.
  - destruct (head (omap f l)) as [r|].
    + destruct IH as (l1 & b' & l2 & -> & HP & Hno). exists (b :: l1), b', l2. split_and!; [done|done|].
      intros b0 r0 [->|Hb0]%elem_of_cons; [by apply Hf|by apply Hno].
    + intros b0 r0 [->|Hb0]%elem_of_cons; [by apply Hf|by apply IH].
Qed.

Lemma filter_omap (f : Asset -> option GlobalPriceResult) (p : GlobalPriceResult -> bool) (l : list Asset) :
  filter (fun r => p r = true) (omap f l)
  = omap (fun b => match f b with Some r => if p r then Some r else None | None => None end) l.
Proof.
  induction l as [|b l IH]; [done|]. rewrite !omap_step. destruct (f b) as [r|]; [|done].
  rewrite filter_cons. destruct (p r) eqn:Ep; [rewrite decide_True by done; by f_equal|by rewrite decide_False].
Qed.

Lemma vwap_answer_offer b : match vwap_answer b with Some r => vwap_offer b r | None => forall r, ~ vwap_offer b r end.
Proof.
  unfold vwap_answer, vwap_offer. destruct (LatestVWAP reader b quote) as [[[[[v asOf] n] srcs]|]|]; [|naive_solver..].
  destruct (Z.ltb_spec n (VWAPMinTradeCount opts)); [intros r (? & ? & ? & ? & [= <- <- <- <-] & ? & _); lia|].
  by exists v, asOf, n, srcs.
Qed.

Lemma fresh_answer_offer b :
  match (match vwap_answer b with Some r => if is_fresh r then Some r else None | None => None end) with
  | Some r => fresh_offer b r | None => forall r, ~ fresh_offer b r end.
Proof.
  pose proof (vwap_answer_offer b) as Hb. destruct (vwap_answer b) as [r|]; [|intros r [Hr _]; by apply (Hb r)].
  assert (is_fresh r = true <-> (MaxVWAPAge opts <= 0)%Z \/ (now - MaxVWAPAge opts < gp_AsOf r)%Z) as Hf
    by (unfold is_fresh, time_After, time_Add; rewrite orb_true_iff, Z.leb_le, Z.ltb_lt, Z.add_opp_r; done).
  destruct (is_fresh r); [split; [done|by apply Hf]|].
  intros r' [Hr' Ht]. assert (r' = r) as -> by (destruct Hb as (? & ? & ? & ? & E1 & _ & ->), Hr' as (? & ? & ? & ? & E2 & _ & ->); congruence).
  by apply Hf in Ht.
Qed.

Lemma triangulated_answer_offer b :
  match triangulated_answer b with Some r => triangulated_offer b r | None => forall r, ~ triangulated_offer b r end.
Proof.
  unfold triangulated_answer, triangulated_offer.
  destruct (LookupTriangulated reader b quote (TriangulationWindow opts)) as [[[p asOf]|]|]; naive_solver.
Qed.

Lemma young_rows_filter rows : filterFreshAggregatorRows rows (MaxAggregatorAge opts) now = young_rows rows.
Proof.
  unfold filterFreshAggregatorRows, young_rows, time_After, time_Add. destruct (Z.leb_spec (MaxAggregatorAge opts) 0).
  - symmetry. induction rows as [|u rows IH]; [done|]. rewrite filter_cons, IH. by rewrite decide_True by (by left).
  - apply list_filter_iff. intros u. rewrite Z.ltb_lt, Z.add_opp_r. intuition lia.
Qed.

Lemma usable_rows rows : omap usable rows = scaled_rows rows.
Proof.
  unfold scaled_rows. induction rows as [|u rows IH]; [done|]. rewrite !omap_step, IH.
  enough (usable u = match scaledAggregatorRat u with Some v => Some (u, v) | None => None end) as -> by done.
  unfold usable, scaledAggregatorRat, aggregatorCommonDecimals, pow10, big_Exp.
  rewrite sgn_nonpositive. destruct (Z.ltb_spec 0 (Amount_BigInt (ou_Price u))) as [Hp|]; cbn [negb]; [|done].
  do 2 f_equal. set (p := Amount_BigInt (ou_Price u)) in *. set (d := ou_Decimals u). destruct (Z.ltb_spec 0 (14 - d)).
  - destruct (Z.leb_spec (14 - d) 0); [lia|]. rewrite !Z.max_r, (Z.max_l 0 (d - 14)) by lia. by rewrite Z.div_1_r.
  - rewrite (Z.max_l 0 (14 - d)), Z.mul_1_r by lia. destruct (Z.ltb_spec (14 - d) 0).
    + destruct (Z.leb_spec (- (14 - d)) 0); [lia|]. rewrite Z.max_r by lia. replace (- (14 - d))%Z with (d - 14)%Z by lia.
      rewrite Z.quot_div_nonneg; [done|lia|apply Z.pow_pos_nonneg; lia].
    + replace (d - 14)%Z with 0%Z by lia. by rewrite Z.div_1_r.
Qed.

Lemma in_ratio_band_proper c c' T T' v : c == c' -> T == T' -> in_ratio_band c T v = in_ratio_band c' T' v.
Proof. intros Ec ET. unfold in_ratio_band. f_equal; apply Qle_bool_proper; by rewrite ?Ec, ?ET. Qed.

Lemma agreeing_rows_reject rows kept : agreeing_rows rows kept <-> kept = rejectAggregatorOutliers rows.
Proof.
  pose proof (rejectAggregatorOutliers_band rows) as HB. unfold agreeing_rows. rewrite usable_rows. cbv zeta in HB.
  destruct (Nat.leb_spec 3 (length (scaled_rows rows))), (Nat.ltb_spec (length (scaled_rows rows)) 3); try lia; [|by rewrite HB].
  destruct HB as (c & s & Hcs%CentreScale_spec & _ & _ & -> & _). split.
  - intros (c' & s' & Hcs' & ->). f_equal. apply list_filter_iff. intros r.
    destruct (centre_scale_unique _ _ _ _ _ Hcs Hcs') as [Ec Es].
    by rewrite (in_ratio_band_proper c' c ((5 # 1) * s') ((5 # 1) * s)) by (rewrite ?Ec, ?Es; reflexivity).
  - intros ->. by exists c, s.
Qed.

Lemma aggregator_answer_offer b : AggregatorSources opts <> [] ->
  match aggregator_answer b with Some r => aggregator_offer b r | None => forall r, ~ aggregator_offer b r end.
Proof.
  intros Hs. unfold aggregator_answer, aggregator_offer.
  destruct (LatestAggregatorPrices reader b quote (AggregatorSources opts)) as [rows|]; [|naive_solver].
  rewrite young_rows_filter. set (kept := rejectAggregatorOutliers (young_rows rows)).
  assert (agreeing_rows (young_rows rows) kept) as Hk by (by apply agreeing_rows_reject).
  pose proof (averageAggregatorPrices_mean kept) as HM. destruct (averageAggregatorPrices kept) as [[p latest]|].
  - destruct HM as (z & Hz & Hd & Hb & -> & Hne). split; [done|]. by exists rows, kept, z.
  - intros r (_ & rows' & kept' & z & [= <-] & ->%agreeing_rows_reject & Hne & Hz & _ & [Hlo _] & _).
    fold kept in Hne, Hlo. destruct HM as [HM|HM]; [done|].
    assert (1 <= inject_Z z) by (change 1 with (inject_Z 1); rewrite <- Zle_Qle; lia). lra.
Qed.

End Chain.

(** Lumens under their three names. *)
Definition global_ex : globals := init_globals.
Definition usd_quote_ex : Asset := mkAsset AssetFiat "USD" "" "".
Definition agg_row (s : string) (p t : Z) : OracleUpdate :=
  mkOracleUpdate s "" 0 "" 0 t NativeAsset usd_quote_ex (mkAmount (Some p)) None 2 f64_zero "".
Definition reader_ex : GlobalPriceReader unit := mkReader unit
  (fun b _ => Ok (if Asset_Equal b NativeAsset then Some ("0.1", 0%Z, 9%Z, ["sdex"]) else None))
  (fun b _ _ => Ok (if Asset_Equal b NativeAsset then [] else [agg_row "old" 900 0; agg_row "a" 20 (15 * Minute); agg_row "b" 24 (16 * Minute)]))
  (fun _ _ _ => Ok (Some ("0.2", 5%Z))).
Definition opts_ex : GlobalPriceOptions := mkGlobalOptions 5 ["old"; "a"; "b"] (5 * Minute) (10 * Minute) (10 * Minute).

