(* ===== verification/Completeness.v ===== *)
(** * Completeness verdicts (internal/completeness)

    The watermark that reduces problem ledgers to a verdict, the re-derive
    that counts what a decoder makes of the lake's events and records what it
    could not read, the per-ledger and per-contract reconciles, the lower
    bound on the network tip, the age bound on carried evidence and the text
    form of the recognition census.

    Ledgers are [uint32] as [Z]; a Go map is a [gmap], ranged over in an
    unspecified order that the final sorts remove. A decoder is a Go
    interface: a state machine with two methods, each of which may panic. *)

From S2P Require Import Prelude GoLib Float64.

(** ** The watermark (watermark.go) *)

Definition firstLedger : Z := 1.

Record Watermark := mkWatermark {
  wm_Genesis : Z; wm_Tip : Z; wm_Ledger : Z;
  wm_CoveragePct : float64; wm_Complete : bool; wm_FirstProblem : Z
}.

(** [float64(n)] of a [uint32] is exact. *)
Definition f64_of_Z (n : Z) : float64 := SpecFloat.binary_normalize 53 1024 n 0 false.
Definition f64_div (a b : float64) : float64 := SpecFloat.SFdiv 53 1024 a b.
(** The built-in [max] and [min]: NaN propagates. *)
Definition f64_max (a b : float64) : float64 :=
  if IsNaN a || IsNaN b then f64_nan else if f64_lt a b then b else a.
Definition f64_min (a b : float64) : float64 :=
  if IsNaN a || IsNaN b then f64_nan else if f64_lt b a then b else a.

(** The loop over the problems: [None] is [have = false]. *)
Definition first_problem (genesis lo tip : Z) (problems : list Z) : option Z :=
  foldl (fun first p =>
    if (p <? genesis) || (tip <? p) then first
    else
      let p := Z.max p lo in
      match first with
      | None => Some p
      | Some f => if p <? f then Some p else first
      end) None problems.

Definition ComputeWatermark (genesis tip : Z) (problemLedgers : list Z) : Watermark :=
  let lo := Z.max genesis firstLedger in
  if tip <? lo then mkWatermark lo tip (wrapu 32 (lo - 1)) f64_zero false 0
  else
    match first_problem genesis lo tip problemLedgers with
    | None => mkWatermark lo tip tip f64_one true 0
    | Some first =>
        let ledger := wrapu 32 (first - 1) in
        if first =? lo then mkWatermark lo tip ledger f64_zero false first
        else
          let span := f64_of_Z (wrapu 32 (tip - lo + 1)) in
          let verified := f64_of_Z (wrapu 32 (ledger - lo + 1)) in
          mkWatermark lo tip ledger (f64_min (f64_max (f64_div verified span) f64_zero) f64_one) false first
    end.

(** ** Blind spots (reconcile.go) *)

Record BlindSpots := mkBlindSpots {
  bs_Ledgers : list Z; UndecodableMatched : Z; Unreconstructable : Z
}.

Record BlindTracker := mkTracker { bt_seen : gset Z; bt_spots : BlindSpots }.

Definition NewBlindTracker : BlindTracker := mkTracker ∅ (mkBlindSpots [] 0 0).

Definition mark (t : BlindTracker) (ledger : Z) : BlindTracker :=
  if bool_decide (ledger ∈ bt_seen t) then t
  else
    let s := bt_spots t in
    mkTracker ({[ledger]} ∪ bt_seen t)
      (mkBlindSpots (bs_Ledgers s ++ [ledger]) (UndecodableMatched s) (Unreconstructable s)).

Definition tr_Undecodable (t : BlindTracker) (ledger : Z) : BlindTracker :=
  let s := bt_spots t in
  mark (mkTracker (bt_seen t) (mkBlindSpots (bs_Ledgers s) (UndecodableMatched s + 1) (Unreconstructable s))) ledger.

Definition tr_Unreconstructable (t : BlindTracker) (ledger : Z) : BlindTracker :=
  let s := bt_spots t in
  mark (mkTracker (bt_seen t) (mkBlindSpots (bs_Ledgers s) (UndecodableMatched s) (Unreconstructable s + 1))) ledger.

Definition tr_Result (t : BlindTracker) : BlindSpots :=
  let s := bt_spots t in
  mkBlindSpots (isort Z.leb (bs_Ledgers s)) (UndecodableMatched s) (Unreconstructable s).

Definition BlindSpots_Merge (b o : BlindSpots) : BlindSpots :=
  let t := foldl mark NewBlindTracker (bs_Ledgers b) in
  let t := foldl mark t (bs_Ledgers o) in
  let out := tr_Result t in
  mkBlindSpots (bs_Ledgers out) (UndecodableMatched b + UndecodableMatched o)
    (Unreconstructable b + Unreconstructable o).

Definition Rows (b : BlindSpots) : Z := UndecodableMatched b + Unreconstructable b.
Definition BlindSpots_Any (b : BlindSpots) : bool := 0 <? Rows b.

(** ** The re-derive (reconcile.go) *)

(** The fields of [events.Event] that identify it; the payload is the
    decoder's business. *)
Class EventPayload := { payload : Type }.

(** Output counts by kind, then ledger. *)
Abbreviation Counts := (gmap string (gmap Z Z)).

Section ReDerive.
Context `{EventPayload}.

Record Event := mkEvent {
  ev_Ledger : Z; ev_TxHash : string; ev_OperationIndex : Z; ev_EventIndex : Z; ev_Payload : payload
}.

(** A decoder output: its [EventKind()] and its [EventLedger()], 0 when the
    output does not declare one. *)
Record Output := mkOutput { out_Kind : string; out_EventLedger : Z }.

(** A method call on the decoder: the panic is [None]; a decode error is
    [Some None]. *)
Record Decoder := mkDecoder {
  dec_state : Type;
  dec_init : dec_state;
  dec_Matches : dec_state -> Event -> option bool * dec_state;
  dec_Decode : dec_state -> Event -> option (option (list Output)) * dec_state
}.

Definition countLedger (out : Output) (streamLedger : Z) : Z :=
  if negb (out_EventLedger out =? 0) then out_EventLedger out else streamLedger.

(** [Guard] turns a panic into an error. *)
Definition safeMatches (d : Decoder) (s : dec_state d) (ev : Event) : option bool * dec_state d :=
  dec_Matches d s ev.
Definition safeDecode (d : Decoder) (s : dec_state d) (ev : Event) : option (list Output) * dec_state d :=
  let '(r, s) := dec_Decode d s ev in
  (match r with None => None | Some r => r end, s).

Definition count_output (byKind : Counts) (ledger : Z) (out : Output) : Counts :=
  let k := out_Kind out in
  let l := countLedger out ledger in
  let m := default ∅ (byKind !! k) in
  <[k := <[l := default 0 (m !! l) + 1]> m]> byKind.

Definition ident (ev : Event) : Z * Z * Z * string :=
  (ev_Ledger ev, ev_OperationIndex ev, ev_EventIndex ev, ev_TxHash ev).

Record derive_state (d : Decoder) := mkDerive {
  ds_byKind : Counts; ds_blind : BlindTracker;
  ds_last : option (Z * Z * Z * string); ds_dec : dec_state d
}.
Arguments mkDerive {d}. Arguments ds_byKind {d}. Arguments ds_blind {d}.
Arguments ds_last {d}. Arguments ds_dec {d}.

(** The callback of the stream, for an event that is not a duplicate part. *)
Definition derive_event {d : Decoder} (st : derive_state d) (ev : Event) : derive_state d :=
  let last := Some (ident ev) in
  let '(matched, s) := safeMatches d (ds_dec st) ev in
  match matched with
  | None => mkDerive (ds_byKind st) (tr_Undecodable (ds_blind st) (ev_Ledger ev)) last s
  | Some false => mkDerive (ds_byKind st) (ds_blind st) last s
  | Some true =>
      let '(outs, s) := safeDecode d s ev in
      match outs with
      | None => mkDerive (ds_byKind st) (tr_Undecodable (ds_blind st) (ev_Ledger ev)) last s
      | Some outs =>
          mkDerive (foldl (fun m out => count_output m (ev_Ledger ev) out) (ds_byKind st) outs)
            (ds_blind st) last s
      end
  end.

Definition derive_step {d : Decoder} (st : derive_state d) (ev : Event) : derive_state d :=
  if bool_decide (ds_last st = Some (ident ev)) then st else derive_event st ev.

(** [events] is what the lake streams for the range and filters; a stream
    error is the caller's and discards everything. *)
Definition ReDeriveOutputCountsByKindFromEvents (d : Decoder) (events : list Event) : Counts * BlindSpots :=
  let st := foldl derive_step (mkDerive ∅ NewBlindTracker None (dec_init d)) events in
  (ds_byKind st, tr_Result (ds_blind st)).
End ReDerive.

Arguments mkDerive {_ d}. Arguments ds_byKind {_ d}. Arguments ds_blind {_ d}.
Arguments ds_last {_ d}. Arguments ds_dec {_ d}.

Definition add_counts (out m : gmap Z Z) : gmap Z Z :=
  map_fold (fun ledger c out => <[ledger := default 0 (out !! ledger) + c]> out) out m.

Definition SumKinds (byKind : Counts) (kinds : list string) : gmap Z Z :=
  foldl (fun out k => add_counts out (default ∅ (byKind !! k))) ∅ kinds.

(** ** Reconciling counts *)

Record ProjectionGap := mkGap { gap_Ledger : Z; gap_Expected : Z; gap_Actual : Z }.

Definition gap_leb (a b : ProjectionGap) : bool := gap_Ledger a <=? gap_Ledger b.

Definition ReconcileCounts (expected actual : gmap Z Z) : list ProjectionGap :=
  let gaps1 := omap (fun '(ledger, exp) =>
    let act := default 0 (actual !! ledger) in
    if negb (act =? exp) then Some (mkGap ledger exp act) else None) (map_to_list expected) in
  let gaps2 := omap (fun '(ledger, act) =>
    match expected !! ledger with
    | Some _ => None
    | None => if negb (act =? 0) then Some (mkGap ledger 0 act) else None
    end) (map_to_list actual) in
  isort gap_leb (gaps1 ++ gaps2).

(** ** Running totals (rollup.go) *)

Record RunningTotals := mkTotals { Mint : option Z; Burn : option Z; Clawback : option Z }.

Record TotalsDrift := mkDrift {
  td_ContractID : string; td_Kind : string; td_Checkpoint : Z; td_Truth : Z; td_Delta : Z
}.

Definition orZero (v : option Z) : Z := default 0 v.

Definition kind_drift (contractID kind : string) (cp tr : option Z) (tol : Z) : list TotalsDrift :=
  let c := orZero cp in
  let t := orZero tr in
  let delta := c - t in
  if Z.abs delta <=? tol then []
  else [mkDrift contractID kind c t delta].

(** The zero [RunningTotals] of a missing key. *)
Definition totals_at (m : gmap string RunningTotals) (id : string) : RunningTotals :=
  default (mkTotals None None None) (m !! id).

Definition ReconcileRunningTotals (checkpoint truth : gmap string RunningTotals) (tolerance : option Z)
    : list TotalsDrift :=
  let tol := default 0 tolerance in
  let ids := sort_Strings (elements (dom checkpoint ∪ dom truth)) in
  concat (map (fun id =>
    let cp := totals_at checkpoint id in
    let tr := totals_at truth id in
    kind_drift id "mint" (Mint cp) (Mint tr) tol ++
    kind_drift id "burn" (Burn cp) (Burn tr) tol ++
    kind_drift id "clawback" (Clawback cp) (Clawback tr) tol) ids).

(** ** The network tip (network_tip.go) and carried evidence (evidence.go) *)

Definition SlowestLedgerClose : Duration := 6 * Second.

Definition NetworkTipLowerBound (lastLedger : Z) (ingestedAt now : Time) : Z :=
  if time_IsZero ingestedAt || negb (time_After now ingestedAt) then lastLedger
  else
    let closed := wrapu 64 (Z.quot (time_Sub now ingestedAt) SlowestLedgerClose) in
    if MaxUint32 - lastLedger <? closed then MaxUint32
    else wrapu 32 (lastLedger + wrapu 32 closed).

Definition MaxProjectionCarryAge : Duration := 7 * 24 * Hour.

Definition ProjectionEvidenceExpired (evidencedAt now : Time) (maxAge : Duration) : bool :=
  if maxAge <=? 0 then false
  else time_IsZero evidencedAt || (maxAge <? time_Sub now evidencedAt).

(** ** Audit axes (audit_axis.go, audited_sources.go) *)

Definition SystemRecognitionSource : string := "recognition".
Definition IsAuditAxis (source : string) : bool := String.eqb source SystemRecognitionSource.

Record RecognitionCensus := mkCensus { Shapes : Z; Contracts : Z; EarliestLedger : Z }.

Definition clean_detail : string :=
  "0 unrecognized shape(s): every event shape in the lake belongs to a contract an indexed source owns".

Definition detail_tail : string :=
  " — events on contracts no indexed source owns (foreign Soroban protocols); a discovery backlog, not missing data — run verify-recognition".

Definition FormatRecognitionDetail (c : RecognitionCensus) : string :=
  if Shapes c =? 0 then clean_detail
  else
    big_String (Shapes c) +:+ (" unrecognized shape(s) on " +:+ (big_String (Contracts c) +:+
      (" unowned contract(s) (earliest ledger " +:+ (big_String (EarliestLedger c) +:+
        (")" +:+ detail_tail))))).

(** [\d+] at the head of a string: the digits and the rest. *)
Fixpoint span_digits (s : string) : string * string :=
  match s with
  | String c s' =>
      if is_dec_digit c then let '(d, r) := span_digits s' in (String c d, r) else (EmptyString, s)
  | EmptyString => (EmptyString, EmptyString)
  end.

Definition match_digits (s : string) : option (string * string) :=
  let '(d, r) := span_digits s in
  match d with EmptyString => None | _ => Some (d, r) end.

(** [recognitionDetailRE.FindStringSubmatch]: the digits are greedy and no
    literal that follows a group starts with a digit, so the match is unique. *)
Definition detail_submatch (s : string) : option (string * string * string) :=
  '(a, s) ← match_digits s;
  s ← CutPrefix s " unrecognized shape(s) on ";
  '(b, s) ← match_digits s;
  s ← CutPrefix s " unowned contract(s) (earliest ledger ";
  '(c, s) ← match_digits s;
  _ ← CutPrefix s ")";
  Some (a, b, c).

(** [strconv.Atoi] and [ParseUint] of a digit string, with a range check. *)
Definition parse_bounded (s : string) (hi : Z) : option Z :=
  n ← parse_uint 10 s;
  if n <=? hi then Some n else None.

Definition ParseRecognitionDetail (detail : string) : option RecognitionCensus :=
  match detail_submatch detail with
  | None =>
      if String.eqb detail (FormatRecognitionDetail (mkCensus 0 0 0)) then Some (mkCensus 0 0 0) else None
  | Some (m1, m2, m3) =>
      shapes ← parse_bounded m1 MaxInt64;
      contracts ← parse_bounded m2 MaxInt64;
      earliest ← parse_bounded m3 MaxUint32;
      Some (mkCensus shapes contracts earliest)
  end.

Definition staticAuditedSources : list string :=
  [ "aquarius"; "blend"; "blend_backstop"; "blend_emitter"; "cctp"; "comet"; "defindex";
    "phoenix"; "rozo"; "sdex"; "sorocredit"; "soroswap"; "soroswap-router"; "spectra";
    "sushiswap_v3"; "upshift" ].

(** The fields of [config.Config] the audit list reads. *)
Record AuditConfig := mkAuditConfig {
  DEXContract : string; CEXContract : string; FXContract : string; AdapterContract : string;
  CacheContract : string; StandardReferenceContract : string; WatchedSEP41Contracts : list string
}.

Definition AuditedSources (cfg : AuditConfig) : list string :=
  let gated := [ (DEXContract cfg, "reflector-dex"); (CEXContract cfg, "reflector-cex");
    (FXContract cfg, "reflector-fx"); (AdapterContract cfg, "redstone");
    (CacheContract cfg, "chainlink-stellar"); (StandardReferenceContract cfg, "band") ] in
  let out := staticAuditedSources ++
    omap (fun '(contract, name) => if negb (String.eqb contract "") then Some name else None) gated in
  let out := out ++ (if (0 <? length (WatchedSEP41Contracts cfg))%nat
                     then ["sep41_transfers"; "sep41_supply"] else []) in
  sort_Strings out.

(** ** The watermark *)

(** The ledger a problem pins: problems outside the range are ignored, ledger
    0 counts as the first. *)
Definition pins (genesis lo tip : Z) (problems : list Z) (l : Z) : Prop :=
  exists p, p ∈ problems /\ genesis <= p <= tip /\ l = Z.max p lo.

Lemma first_problem_snoc genesis lo tip ps p :
  first_problem genesis lo tip (ps ++ [p]) =
  let first := first_problem genesis lo tip ps in
  if (p <? genesis) || (tip <? p) then first
  else match first with
       | None => Some (Z.max p lo)
       | Some f => if Z.max p lo <? f then Some (Z.max p lo) else first
       end.
Proof. unfold first_problem. by rewrite foldl_app. Qed.

Lemma pins_snoc genesis lo tip ps p l :
  pins genesis lo tip (ps ++ [p]) l <->
  pins genesis lo tip ps l \/ (genesis <= p <= tip /\ l = Z.max p lo).
Proof.
  unfold pins. split.
  - intros (x & [Hx|Hx%list_elem_of_singleton]%elem_of_app & H); [left; eauto | right; by subst].
  - intros [(x & Hx & H)|H]; [exists x | exists p]; (split; [set_solver | done]).
Qed.

(** The loop finds the least pinned ledger. *)
Lemma first_problem_spec genesis lo tip ps :
  match first_problem genesis lo tip ps with
  | None => forall l, ~ pins genesis lo tip ps l
  | Some f => pins genesis lo tip ps f /\ forall l, pins genesis lo tip ps l -> f <= l
  end.
Proof.
  induction ps as [|p ps IH] using rev_ind.
  { simpl. intros l (p & Hp & _). by apply not_elem_of_nil in Hp. }
  rewrite first_problem_snoc. cbv zeta.
  destruct ((p <? genesis) || (tip <? p)) eqn:Eo.
  - assert (forall l, pins genesis lo tip (ps ++ [p]) l <-> pins genesis lo tip ps l) as Hs.
    { intros l. rewrite pins_snoc. apply orb_true_iff in Eo. rewrite !Z.ltb_lt in Eo. split; [intros [?|?]; [done | lia] | by left]. }
    destruct (first_problem _ _ _ ps) as [f|]; setoid_rewrite Hs; done.
  - bprop. destruct (first_problem _ _ _ ps) as [f|].
    + destruct IH as [Hf Hmin]. destruct (Z.ltb_spec (Z.max p lo) f); setoid_rewrite pins_snoc.
      * split; [right; lia|]. intros l [Hl|[_ ->]]; [specialize (Hmin l Hl)|]; lia.
      * split; [by left|]. intros l [Hl|[_ ->]]; [by apply Hmin | lia].
    + setoid_rewrite pins_snoc. split; [right; lia|]. intros l [Hl|[_ ->]]; [by apply IH in Hl | lia].
Qed.

Lemma f64_clamp x : let y := f64_min (f64_max x f64_zero) f64_one in
  f64_lt y f64_zero = false /\ f64_lt f64_one y = false.
Proof.
  cbv zeta. unfold f64_min, f64_max. destruct (IsNaN x) eqn:Hx; [done|]. cbn [orb].
  change (IsNaN f64_zero) with false. cbn [orb].
  set (m := if f64_lt x f64_zero then f64_zero else x).
  assert (IsNaN m = false) as Hm by (unfold m; by case_if). rewrite Hm. change (IsNaN f64_one) with false. cbn [orb].
  assert (f64_lt m f64_zero = false) as H0 by (unfold m; case_if; done).
  destruct (f64_lt f64_one m) eqn:E; done.
Qed.

Lemma ComputeWatermark_fields genesis tip problems :
  is_uint32 genesis -> is_uint32 tip ->
  let lo := Z.max genesis firstLedger in
  let w := ComputeWatermark genesis tip problems in
  wm_Genesis w = lo /\
  f64_lt (wm_CoveragePct w) f64_zero = false /\ f64_lt f64_one (wm_CoveragePct w) = false /\
  if tip <? lo then wm_Ledger w = lo - 1 /\ wm_Complete w = false
  else match first_problem genesis lo tip problems with
       | None => wm_Ledger w = tip /\ wm_Complete w = true /\ wm_FirstProblem w = 0
       | Some f => wm_Ledger w = f - 1 /\ wm_Complete w = false /\ wm_FirstProblem w = f /\ lo <= f <= tip
       end.
Proof.
  intros Hg Ht lo w. unfold is_uint32, MaxUint32 in *. unfold w, ComputeWatermark. fold lo.
  assert (1 <= lo < 2 ^ 32) as Hlo by (unfold lo, firstLedger; lia).
  destruct (Z.ltb_spec tip lo); cbn [wm_Genesis wm_CoveragePct wm_Ledger wm_Complete].
  { rewrite wrapu_small by lia. done. }
  pose proof (first_problem_spec genesis lo tip problems) as Hf.
  destruct (first_problem genesis lo tip problems) as [f|]; [|done].
  destruct Hf as [(p & _ & Hp & Ef) _]. assert (lo <= f <= tip) by lia.
  destruct (f =? lo); cbn [wm_Genesis wm_CoveragePct wm_Ledger wm_Complete wm_FirstProblem];
    rewrite (wrapu_small 32 (f - 1)) by lia; [done|].
  split; [done|]. split; [apply f64_clamp|]. split; [apply f64_clamp|]. done.
Qed.

(** The watermark is the highest ledger up to which no problem is pinned:
    nothing below it (from genesis) is a problem, and unless it is the tip the
    next ledger is one, reported as the first problem. It is complete exactly
    when it reaches the tip, more problems can only lower it, and the coverage
    share never compares below 0 or above 1. *)
Theorem ComputeWatermark_exact genesis tip problems more :
  is_uint32 genesis -> is_uint32 tip ->
  let lo := Z.max genesis firstLedger in
  let w := ComputeWatermark genesis tip problems in
  wm_Genesis w = lo /\
  f64_lt (wm_CoveragePct w) f64_zero = false /\ f64_lt f64_one (wm_CoveragePct w) = false /\
  wm_Ledger (ComputeWatermark genesis tip (problems ++ more)) <= wm_Ledger w /\
  (tip < lo -> wm_Ledger w = lo - 1 /\ wm_Complete w = false) /\
  (lo <= tip ->
    lo - 1 <= wm_Ledger w <= tip /\
    (forall l, lo <= l <= wm_Ledger w -> ~ pins genesis lo tip problems l) /\
    (wm_Complete w = true <-> wm_Ledger w = tip) /\
    (wm_FirstProblem w = 0 <-> wm_Complete w = true) /\
    (wm_Ledger w < tip ->
       pins genesis lo tip problems (wm_Ledger w + 1) /\ wm_FirstProblem w = wm_Ledger w + 1)).
Proof.
  intros Hg Ht lo w. pose proof (ComputeWatermark_fields genesis tip problems Hg Ht) as F1.
  pose proof (ComputeWatermark_fields genesis tip (problems ++ more) Hg Ht) as F2. cbv zeta in F1, F2.
  fold lo in F1, F2. fold w in F1. destruct F1 as (Hgen & Hc0 & Hc1 & F1). destruct F2 as (_ & _ & _ & F2).
  split; [done|]. split; [done|]. split; [done|].
  assert (1 <= lo) by (unfold lo, firstLedger; lia).
  destruct (Z.ltb_spec tip lo); [split_and!; [lia | done | lia]|].
  pose proof (first_problem_spec genesis lo tip problems) as H1.
  pose proof (first_problem_spec genesis lo tip (problems ++ more)) as H2.
  assert (forall l, pins genesis lo tip problems l -> pins genesis lo tip (problems ++ more) l) as Hsub.
  { intros l (p & Hp & Hl). exists p. split; [set_solver | done]. }
  split; [|split; [lia|]].
  - destruct (first_problem genesis lo tip problems) as [f|], (first_problem genesis lo tip (problems ++ more)) as [f'|].
    + destruct H1 as [Hf _], H2 as [_ Hmin]. specialize (Hmin f (Hsub f Hf)). lia.
    + exfalso. eapply H2, Hsub, H1.
    + lia.
    + lia.
  - intros _. destruct (first_problem genesis lo tip problems) as [f|].
    + destruct F1 as (-> & -> & -> & Hf), H1 as [Hpin Hmin]. split; [lia|].
      split; [intros l Hl Hpl; specialize (Hmin l Hpl); lia|].
      split; [split; [done | lia]|]. split; [split; [lia | done]|]. intros _.
      replace (f - 1 + 1) with f by lia. done.
    + destruct F1 as (-> & -> & ->). split; [lia|]. split; [intros l _; apply H1|]. split; [done|]. split; [done | lia].
Qed.

Lemma ComputeWatermark_exact_witness :
  wm_Ledger (ComputeWatermark 100 200 [150; 300; 120]) = 119 /\
  wm_FirstProblem (ComputeWatermark 100 200 [150; 300; 120]) = 120.
Proof.
  assert (is_uint32 100) as H1 by (unfold is_uint32, MaxUint32; lia).
  assert (is_uint32 200) as H2 by (unfold is_uint32, MaxUint32; lia).
  split; [vm_compute; reflexivity|].
  apply (ComputeWatermark_exact 100 200 [150; 300; 120] [] H1 H2); vm_compute; congruence.
Defined.

(** ** Reconciling counts *)

Definition count_at (m : gmap Z Z) (l : Z) : Z := default 0 (m !! l).

Lemma ReconcileCounts_elem expected actual g :
  g ∈ ReconcileCounts expected actual <->
  gap_Expected g = count_at expected (gap_Ledger g) /\ gap_Actual g = count_at actual (gap_Ledger g) /\
  gap_Expected g <> gap_Actual g.
Proof.
  unfold ReconcileCounts, count_at. rewrite elem_of_isort, elem_of_app, !list_elem_of_omap.
  destruct g as [l e a]; simpl. split.
  - intros [([l' e'] & Hin & E)|([l' a'] & Hin & E)]; apply elem_of_map_to_list in Hin.
    + destruct (Z.eqb_spec (default 0 (actual !! l')) e'); simplify_eq/=. rewrite Hin. simpl. done.
    + destruct (expected !! l') eqn:Ex; [done|]. destruct (Z.eqb_spec a' 0); simplify_eq/=. by rewrite Ex, Hin.
  - intros (-> & -> & Hne). destruct (expected !! l) as [e|] eqn:Ex; simpl in *.
    + left. exists (l, e). split; [by apply elem_of_map_to_list|].
      destruct (Z.eqb_spec (default 0 (actual !! l)) e); simpl; [congruence | done].
    + right. destruct (actual !! l) as [a|] eqn:Ea; simpl in *; [|done]. exists (l, a).
      split; [by apply elem_of_map_to_list|]. rewrite Ex. destruct (Z.eqb_spec a 0); simpl; [congruence | done].
Qed.

Lemma ReconcileCounts_sorted expected actual :
  StronglySorted (fun a b => gap_Ledger a <= gap_Ledger b) (ReconcileCounts expected actual).
Proof.
  unfold ReconcileCounts. set (l := _ ++ _).
  assert (StronglySorted (fun a b => gap_leb a b = true) (isort gap_leb l)) as Hs.
  { apply isort_sorted; unfold gap_leb; intros *; rewrite ?Z.leb_le; lia. }
  induction Hs as [|g gs Hs IH HF]; constructor; [done|]. eapply Forall_impl; [exact HF|].
  intros x. unfold gap_leb. by rewrite Z.leb_le.
Qed.

(** The count reconcile reports exactly the ledgers where the expected and
    the actual number of rows differ, with both numbers (a missing ledger
    counts as zero, on either side), in ascending order; an empty report means
    the two counts agree on every ledger. *)
Theorem ReconcileCounts_exact expected actual :
  (forall g, g ∈ ReconcileCounts expected actual <->
     gap_Expected g = count_at expected (gap_Ledger g) /\ gap_Actual g = count_at actual (gap_Ledger g) /\
     gap_Expected g <> gap_Actual g) /\
  StronglySorted (fun a b => gap_Ledger a <= gap_Ledger b) (ReconcileCounts expected actual) /\
  (ReconcileCounts expected actual = [] <-> forall l, count_at expected l = count_at actual l).
Proof.
  split; [apply ReconcileCounts_elem|]. split; [apply ReconcileCounts_sorted|]. split.
  - intros E l. destruct (Z.eq_dec (count_at expected l) (count_at actual l)) as [|Hne]; [done|]. exfalso.
    apply (not_elem_of_nil (mkGap l (count_at expected l) (count_at actual l))).
    rewrite <- E, ReconcileCounts_elem. done.
  - intros Heq. destruct (ReconcileCounts expected actual) as [|g gs] eqn:E; [done|]. exfalso.
    assert (g ∈ ReconcileCounts expected actual) as Hg by (rewrite E; left).
    apply ReconcileCounts_elem in Hg as (H1 & H2 & H3). specialize (Heq (gap_Ledger g)). congruence.
Qed.

(** ** Running totals *)

Lemma elem_of_kind_drift d id kind cp tr tol :
  d ∈ kind_drift id kind cp tr tol <->
  td_ContractID d = id /\ td_Kind d = kind /\ td_Checkpoint d = orZero cp /\ td_Truth d = orZero tr /\
  td_Delta d = td_Checkpoint d - td_Truth d /\ tol < Z.abs (td_Delta d).
Proof.
  unfold kind_drift. destruct d as [i k c t dl]; simpl. destruct (Z.leb_spec (Z.abs (orZero cp - orZero tr)) tol).
  - split; [by intros ?%not_elem_of_nil|]. intros (-> & -> & -> & -> & -> & Hd). lia.
  - rewrite list_elem_of_singleton. split; [intros [= -> -> -> -> ->]; done|].
    by intros (-> & -> & -> & -> & -> & _).
Qed.

(** A kind's total on both sides, as the reconcile names it. *)
Definition kind_total (kind : string) (t : RunningTotals) : option (option Z) :=
  if String.eqb kind "mint" then Some (Mint t)
  else if String.eqb kind "burn" then Some (Burn t)
  else if String.eqb kind "clawback" then Some (Clawback t) else None.

Lemma ReconcileRunningTotals_elem checkpoint truth tolerance d :
  let tol := default 0 tolerance in 0 <= tol ->
  d ∈ ReconcileRunningTotals checkpoint truth tolerance <->
  exists c t, kind_total (td_Kind d) (totals_at checkpoint (td_ContractID d)) = Some c /\
    kind_total (td_Kind d) (totals_at truth (td_ContractID d)) = Some t /\
    td_Checkpoint d = orZero c /\ td_Truth d = orZero t /\
    td_Delta d = td_Checkpoint d - td_Truth d /\ tol < Z.abs (td_Delta d).
Proof.
  intros tol Htol. unfold ReconcileRunningTotals. fold tol.
  rewrite list_elem_of_In, in_concat. setoid_rewrite <- list_elem_of_In. setoid_rewrite list_elem_of_fmap. split.
  - intros (l & (id & -> & _) & Hd). rewrite !elem_of_app, !elem_of_kind_drift in Hd.
    destruct d as [i k cp tr dl]. simpl in *. unfold kind_total.
    destruct Hd as [(-> & -> & H)|[(-> & -> & H)|(-> & -> & H)]]; simpl; eauto 10.
  - intros (c & t & Hc & Ht & H1 & H2 & H3 & H4). set (id := td_ContractID d) in *.
    eexists. split.
    + exists id. split; [reflexivity|]. unfold sort_Strings. rewrite elem_of_isort, elem_of_elements, elem_of_union, !elem_of_dom.
      destruct (checkpoint !! id) eqn:E1; [left; by eexists|]. destruct (truth !! id) eqn:E2; [right; by eexists|].
      exfalso. unfold totals_at in Hc, Ht. rewrite E1 in Hc. rewrite E2 in Ht. simpl in *.
      unfold kind_total in *. repeat case_match; simplify_eq/=; rewrite H1, H2 in H3; simpl in *; lia.
    + rewrite !elem_of_app, !elem_of_kind_drift. unfold kind_total in *.
      destruct (String.eqb_spec (td_Kind d) "mint"); [left; simplify_eq; done|].
      destruct (String.eqb_spec (td_Kind d) "burn"); [right; left; simplify_eq; done|].
      destruct (String.eqb_spec (td_Kind d) "clawback"); [right; right; simplify_eq; done|]. done.
Qed.

(** The running-total reconcile reports exactly the (contract, kind) rows
    whose checkpoint differs from the authoritative re-sum by more than the
    tolerance, with the signed drift, whichever side the contract is missing
    from; with zero tolerance an empty report means every mint, burn and
    clawback total equals its truth, so a double fold is always caught. *)
Theorem ReconcileRunningTotals_exact checkpoint truth tolerance :
  0 <= default 0 tolerance ->
  (forall d, d ∈ ReconcileRunningTotals checkpoint truth tolerance <->
    exists c t, kind_total (td_Kind d) (totals_at checkpoint (td_ContractID d)) = Some c /\
      kind_total (td_Kind d) (totals_at truth (td_ContractID d)) = Some t /\
      td_Checkpoint d = orZero c /\ td_Truth d = orZero t /\
      td_Delta d = td_Checkpoint d - td_Truth d /\ default 0 tolerance < Z.abs (td_Delta d)) /\
  (ReconcileRunningTotals checkpoint truth None = [] ->
    forall id kind c t, kind_total kind (totals_at checkpoint id) = Some c ->
      kind_total kind (totals_at truth id) = Some t -> orZero c = orZero t).
Proof.
  intros Htol. split; [intros d; by apply ReconcileRunningTotals_elem|]. intros E id kind c t Hc Ht.
  destruct (Z.eq_dec (orZero c) (orZero t)) as [|Hne]; [done|]. exfalso.
  apply (not_elem_of_nil (mkDrift id kind (orZero c) (orZero t) (orZero c - orZero t))).
  rewrite <- E. apply (ReconcileRunningTotals_elem checkpoint truth None); [simpl; lia|]. simpl.
  exists c, t. split_and!; auto. lia.
Qed.

Lemma ReconcileRunningTotals_exact_witness :
  let cp := {[ "C" := mkTotals (Some 20) None None ]} : gmap string RunningTotals in
  let tr := {[ "C" := mkTotals (Some 10) None None ]} : gmap string RunningTotals in
  mkDrift "C" "mint" 20 10 10 ∈ ReconcileRunningTotals cp tr None.
Proof.
  cbv zeta. apply (ReconcileRunningTotals_exact _ _ None); [vm_compute; congruence|].
  exists (Some 20), (Some 10). split_and!; reflexivity.
Defined.

(** ** Blind spots *)

(** A tracker's ledger list is its set, without repetition. *)
Definition tracker_ok (t : BlindTracker) : Prop :=
  NoDup (bs_Ledgers (bt_spots t)) /\ forall l, l ∈ bs_Ledgers (bt_spots t) <-> l ∈ bt_seen t.

Lemma NewBlindTracker_ok : tracker_ok NewBlindTracker.
Proof. split; [constructor|]. simpl. intros l. rewrite elem_of_nil. set_solver. Qed.

Lemma mark_spec t l : tracker_ok t ->
  tracker_ok (mark t l) /\ (forall x, x ∈ bt_seen (mark t l) <-> x = l \/ x ∈ bt_seen t) /\
  UndecodableMatched (bt_spots (mark t l)) = UndecodableMatched (bt_spots t) /\
  Unreconstructable (bt_spots (mark t l)) = Unreconstructable (bt_spots t).
Proof.
  intros [Hnd Hin]. unfold mark. case_bool_decide as Hl; simpl.
  - split; [done|]. split; [|done]. intros x. split; [by right|]. by intros [->|?].
  - split; [|split; [set_solver | done]]. split; simpl.
    + apply NoDup_app. split_and!; [done| |apply NoDup_singleton]. intros x Hx ->%list_elem_of_singleton.
      by apply Hl, Hin.
    + intros x. rewrite elem_of_app, list_elem_of_singleton, Hin. set_solver.
Qed.

Lemma foldl_mark_spec ls t : tracker_ok t ->
  tracker_ok (foldl mark t ls) /\ (forall x, x ∈ bt_seen (foldl mark t ls) <-> x ∈ ls \/ x ∈ bt_seen t).
Proof.
  revert t; induction ls as [|l ls IH]; intros t Ht; simpl; [split; [done|]; set_solver|].
  destruct (mark_spec t l Ht) as (H1 & H2 & _). destruct (IH _ H1) as [H3 H4]. split; [done|].
  intros x. rewrite H4, H2, elem_of_cons. tauto.
Qed.

Lemma tr_Result_spec t : tracker_ok t ->
  NoDup (bs_Ledgers (tr_Result t)) /\ (forall l, l ∈ bs_Ledgers (tr_Result t) <-> l ∈ bt_seen t) /\
  StronglySorted Z.le (bs_Ledgers (tr_Result t)).
Proof.
  intros [Hnd Hin]. simpl. split; [by rewrite isort_perm|]. split; [intros l; by rewrite elem_of_isort|].
  assert (StronglySorted (fun a b => (a <=? b) = true) (isort Z.leb (bs_Ledgers (bt_spots t)))) as Hs
    by (apply isort_sorted; intros *; rewrite ?Z.leb_le; lia).
  induction Hs as [|x l Hs IH HF]; constructor; [done|]. eapply Forall_impl; [exact HF|]. intros y. apply Z.leb_le.
Qed.

(** ** The re-derive accounts for every event *)

Section Accounting.
Context `{EventPayload} (d : Decoder).

(** What becomes of one event, by what the decoder's own methods answer: blind
    when [Matches] panics, when [Decode] panics and when [Decode] fails. *)
Inductive outcome := Skipped | Blind | Counted (outs : list Output).

Definition outcome_of (s : dec_state d) (ev : Event) : outcome * dec_state d :=
  match dec_Matches d s ev with
  | (None, s) => (Blind, s)
  | (Some false, s) => (Skipped, s)
  | (Some true, s) =>
      match dec_Decode d s ev with
      | (None, s) | (Some None, s) => (Blind, s)
      | (Some (Some outs), s) => (Counted outs, s)
      end
  end.

Fixpoint outcomes (s : dec_state d) (evs : list Event) : list (Event * outcome) :=
  match evs with
  | [] => []
  | ev :: evs' => let '(o, s) := outcome_of s ev in (ev, o) :: outcomes s evs'
  end.

(** The stream without consecutive duplicate parts: events at the same place
    of the chain. *)
Fixpoint dedupe (last : option (Z * Z * Z * string)) (evs : list Event) : list Event :=
  match evs with
  | [] => []
  | ev :: evs' =>
      let place := (ev_Ledger ev, ev_OperationIndex ev, ev_EventIndex ev, ev_TxHash ev) in
      if bool_decide (last = Some place) then dedupe last evs' else ev :: dedupe (Some place) evs'
  end.

Definition cnt (m : Counts) (k : string) (l : Z) : Z := default 0 (default ∅ (m !! k) !! l).

(** The outputs of one event with kind [k] that belong to ledger [l]: the one
    the output declares, else the event's. *)
Definition outs_at (k : string) (l : Z) (eo : Event * outcome) : Z :=
  match eo.2 with
  | Counted outs =>
      Z.of_nat (countb (fun o => String.eqb (out_Kind o) k
                                 && ((if out_EventLedger o =? 0 then ev_Ledger eo.1 else out_EventLedger o) =? l)) outs)
  | _ => 0
  end.

Definition is_blind (eo : Event * outcome) : bool := match eo.2 with Blind => true | _ => false end.

Lemma cnt_count_output m led o k l :
  cnt (count_output m led o) k l =
  cnt m k l + (if String.eqb (out_Kind o) k && (countLedger o led =? l) then 1 else 0).
Proof.
  unfold cnt, count_output. cbv zeta. destruct (String.eqb_spec (out_Kind o) k) as [->|Hk].
  - rewrite lookup_insert_eq. simpl. destruct (Z.eqb_spec (countLedger o led) l) as [->|Hl].
    + by rewrite lookup_insert_eq.
    + rewrite lookup_insert_ne by done. lia.
  - rewrite lookup_insert_ne by done. simpl. lia.
Qed.

Lemma countb_countLedger outs led k l :
  countb (fun o => String.eqb (out_Kind o) k && (countLedger o led =? l)) outs
  = countb (fun o => String.eqb (out_Kind o) k && ((if out_EventLedger o =? 0 then led else out_EventLedger o) =? l)) outs.
Proof.
  induction outs as [|o outs IH]; [done|]. cbn [countb]. rewrite IH. unfold countLedger. by destruct (out_EventLedger o =? 0).
Qed.

Lemma cnt_count_outputs outs m led k l :
  cnt (foldl (fun m out => count_output m led out) m outs) k l =
  cnt m k l + Z.of_nat (countb (fun o => String.eqb (out_Kind o) k && (countLedger o led =? l)) outs).
Proof.
  revert m; induction outs as [|o outs IH]; intros m; simpl; [lia|]. rewrite IH, cnt_count_output.
  destruct (String.eqb (out_Kind o) k && (countLedger o led =? l)); lia.
Qed.

Lemma derive_step_dedupe evs (st : derive_state d) :
  foldl derive_step st evs = foldl derive_event st (dedupe (ds_last st) evs).
Proof.
  revert st; induction evs as [|ev evs IH]; intros st; simpl; [done|]. unfold derive_step at 2.
  change (ev_Ledger ev, ev_OperationIndex ev, ev_EventIndex ev, ev_TxHash ev) with (ident ev).
  case_bool_decide as Hd; [apply IH|]. simpl. rewrite IH. f_equal. f_equal.
  unfold derive_event. destruct (safeMatches d (ds_dec st) ev) as [[[|]|] s]; try done.
  destruct (safeDecode d s ev) as [[outs|] s']; done.
Qed.

Lemma derive_event_outcome (st : derive_state d) ev :
  let '(o, s) := outcome_of (ds_dec st) ev in
  ds_dec (derive_event st ev) = s /\
  (forall k l, cnt (ds_byKind (derive_event st ev)) k l = cnt (ds_byKind st) k l + outs_at k l (ev, o)) /\
  ds_blind (derive_event st ev) = if is_blind (ev, o) then tr_Undecodable (ds_blind st) (ev_Ledger ev) else ds_blind st.
Proof.
  unfold outcome_of, derive_event, safeMatches, safeDecode. destruct (dec_Matches d (ds_dec st) ev) as [[[|]|] s].
  - destruct (dec_Decode d s ev) as [[[outs|]|] s']; simpl; split_and!; try done; intros; unfold outs_at; simpl;
      [by rewrite cnt_count_outputs, countb_countLedger | lia..].
  - split_and!; try done. intros. unfold outs_at. simpl. lia.
  - split_and!; try done. intros. unfold outs_at. simpl. lia.
Qed.

Lemma tr_Undecodable_spec t l : tracker_ok t ->
  tracker_ok (tr_Undecodable t l) /\ (forall x, x ∈ bt_seen (tr_Undecodable t l) <-> x = l \/ x ∈ bt_seen t) /\
  UndecodableMatched (bt_spots (tr_Undecodable t l)) = UndecodableMatched (bt_spots t) + 1 /\
  Unreconstructable (bt_spots (tr_Undecodable t l)) = Unreconstructable (bt_spots t).
Proof.
  intros Ht. unfold tr_Undecodable. set (t' := mkTracker _ _).
  assert (tracker_ok t') as Ht' by exact Ht. destruct (mark_spec t' l Ht') as (H1 & H2 & H3 & H4). done.
Qed.

Lemma derive_fold evs (st : derive_state d) : tracker_ok (ds_blind st) ->
  let st' := foldl derive_event st evs in
  let os := outcomes (ds_dec st) evs in
  (forall k l, cnt (ds_byKind st') k l = cnt (ds_byKind st) k l + zsum (map (outs_at k l) os)) /\
  tracker_ok (ds_blind st') /\
  (forall l, l ∈ bt_seen (ds_blind st') <-> l ∈ bt_seen (ds_blind st) \/ exists eo, eo ∈ os /\ is_blind eo = true /\ ev_Ledger eo.1 = l) /\
  UndecodableMatched (bt_spots (ds_blind st')) =
    UndecodableMatched (bt_spots (ds_blind st)) + Z.of_nat (countb is_blind os) /\
  Unreconstructable (bt_spots (ds_blind st')) = Unreconstructable (bt_spots (ds_blind st)).
Proof.
  revert st; induction evs as [|ev evs IH]; intros st Ht; cbv zeta; simpl.
  { split_and!; try done; intros; [lia| |lia]. split; [by left|]. intros [?|(? & ?%not_elem_of_nil & _)]; done. }
  pose proof (derive_event_outcome st ev) as Ho. destruct (outcome_of (ds_dec st) ev) as [o s].
  destruct Ho as (Hs & Hc & Hb).
  assert (tracker_ok (ds_blind (derive_event st ev)) /\
    (forall l, l ∈ bt_seen (ds_blind (derive_event st ev)) <-> l ∈ bt_seen (ds_blind st) \/ (is_blind (ev, o) = true /\ ev_Ledger ev = l)) /\
    UndecodableMatched (bt_spots (ds_blind (derive_event st ev))) =
      UndecodableMatched (bt_spots (ds_blind st)) + (if is_blind (ev, o) then 1 else 0) /\
    Unreconstructable (bt_spots (ds_blind (derive_event st ev))) = Unreconstructable (bt_spots (ds_blind st)))
    as (B1 & B2 & B3 & B4).
  { rewrite Hb. destruct (is_blind (ev, o)); [|split_and!; [done| |lia|done]; naive_solver].
    destruct (tr_Undecodable_spec (ds_blind st) (ev_Ledger ev) Ht) as (H1 & H2 & H3 & H4). split_and!; [done| |done..].
    intros l. rewrite H2. naive_solver. }
  destruct (IH _ B1) as (I1 & I2 & I3 & I4 & I5). rewrite Hs in *. split_and!.
  - intros k l. rewrite I1, Hc. cbn [map]. change (zsum (?x :: ?l)) with (x + zsum l). lia.
  - done.
  - intros l. rewrite I3, B2. setoid_rewrite elem_of_cons. split.
    + intros [[?|[H1 H2]]|(eo & H1 & H2)]; [by left | right; exists (ev, o); auto | right; exists eo; auto].
    + intros [?|(eo & [->|H1] & H2)]; [by left; left | left; right; done | right; by exists eo].
  - rewrite I4, B3. cbn [countb]. destruct (is_blind (ev, o)); lia.
  - by rewrite I5.
Qed.

Lemma ReDerive_accounts evs :
  let '(byKind, blind) := ReDeriveOutputCountsByKindFromEvents d evs in
  let os := outcomes (dec_init d) (dedupe None evs) in
  (forall k l, cnt byKind k l = zsum (map (outs_at k l) os)) /\
  (forall l, l ∈ bs_Ledgers blind <-> exists eo, eo ∈ os /\ is_blind eo = true /\ ev_Ledger eo.1 = l) /\
  NoDup (bs_Ledgers blind) /\ StronglySorted Z.le (bs_Ledgers blind) /\
  Rows blind = Z.of_nat (countb is_blind os).
Proof.
  unfold ReDeriveOutputCountsByKindFromEvents. rewrite derive_step_dedupe.
  set (st0 := mkDerive _ _ _ _). destruct (derive_fold (dedupe None evs) st0 NewBlindTracker_ok) as (H1 & H2 & H3 & H4 & H5).
  change (ds_last st0) with (@None (Z * Z * Z * string)). change (ds_dec st0) with (dec_init d) in *.
  destruct (tr_Result_spec _ H2) as (R1 & R2 & R3).
  split; [intros k l; rewrite H1; unfold cnt; simpl; rewrite lookup_empty; done|].
  split; [intros l; rewrite R2, H3; split; [intros [Hx|?]; [by apply not_elem_of_empty in Hx | done] | by right]|].
  split; [done|]. split; [done|]. unfold Rows, tr_Result. cbn [UndecodableMatched Unreconstructable].
  rewrite H4, H5. simpl. lia.
Qed.
End Accounting.

(** C22: the re-derive accounts for every event of the stream once: consecutive
    duplicate parts are dropped; each remaining event is skipped by the
    decoder, or counted under its kinds and ledgers, output by output, or
    (when [Matches] or [Decode] panics or fails) recorded as a blind spot at
    its ledger. The blind ledgers are exactly those of the failed events,
    ascending, and the blind-row total is their number, so nothing the decoder
    claimed is dropped silently. *)
Theorem ReDerive_accounts_for_all `{EventPayload} (d : Decoder) evs :
  let '(byKind, blind) := ReDeriveOutputCountsByKindFromEvents d evs in
  let os := outcomes d (dec_init d) (dedupe None evs) in
  (forall k l, cnt byKind k l = zsum (map (outs_at k l) os)) /\
  (forall l, l ∈ bs_Ledgers blind <-> exists eo, eo ∈ os /\ is_blind eo = true /\ ev_Ledger eo.1 = l) /\
  NoDup (bs_Ledgers blind) /\ StronglySorted Z.le (bs_Ledgers blind) /\
  Rows blind = Z.of_nat (countb is_blind os).
Proof. apply ReDerive_accounts. Qed.

(** A stream with a duplicate part, an event the decoder does not want, one
    it panics on in [Matches], one in [Decode], one it cannot decode, and one
    whose output is another ledger's. *)
#[local] Instance unit_payload : EventPayload := {| payload := unit |}.
Definition moody_decoder : Decoder := {|
  dec_state := unit; dec_init := tt;
  dec_Matches := fun s ev => (if ev_Ledger ev =? 3 then None else Some (negb (ev_Ledger ev =? 2)), s);
  dec_Decode := fun s ev =>
    (if ev_Ledger ev =? 4 then None else if ev_Ledger ev =? 5 then Some None
     else Some (Some [mkOutput "trade" 0; mkOutput "trade" 9]), s) |}.
Definition moody_stream : list Event :=
  map (fun l => mkEvent l "tx" 0 0 tt) [1; 1; 2; 3; 3; 4; 5; 6].

Lemma ReDerive_accounts_for_all_witness :
  let '(byKind, blind) := ReDeriveOutputCountsByKindFromEvents moody_decoder moody_stream in
  byKind = {[ "trade" := {[ 1 := 1; 6 := 1; 9 := 2 ]} ]} /\ bs_Ledgers blind = [3; 4; 5] /\ Rows blind = 3
  /\ (forall k l, cnt byKind k l
       = zsum (map (outs_at k l) (outcomes moody_decoder (dec_init moody_decoder) (dedupe None moody_stream)))).
Proof.
  pose proof (ReDerive_accounts_for_all moody_decoder moody_stream) as HX.
  destruct (ReDeriveOutputCountsByKindFromEvents moody_decoder moody_stream) as [byKind blind] eqn:E.
  split; [vm_compute in E; injection E as <- <-; vm_compute; reflexivity|].
  split; [vm_compute in E; injection E as <- <-; reflexivity|].
  split; [vm_compute in E; injection E as <- <-; reflexivity|]. apply HX.
Defined.

(** ** The network tip *)

(** The extrapolated tip never falls below the last ingested ledger, never
    leaves the uint32 range, never claims more ledgers than the slowest cadence
    gives in the elapsed time, and does not decrease as time passes. *)
Theorem NetworkTipLowerBound_bounds lastLedger ingestedAt now later :
  is_uint32 lastLedger -> now <= later ->
  let t := NetworkTipLowerBound lastLedger ingestedAt in
  lastLedger <= t now <= MaxUint32 /\ t now <= t later /\
  (ingestedAt < now -> (t now - lastLedger) * SlowestLedgerClose <= now - ingestedAt).
Proof.
  intros Hl Hn t. unfold is_uint32 in Hl.
  assert (forall n, time_IsZero ingestedAt = false -> ingestedAt < n ->
    let q := Z.quot (time_Sub n ingestedAt) SlowestLedgerClose in
    0 <= q /\ q * SlowestLedgerClose <= n - ingestedAt /\ q < 2 ^ 63 /\
    t n = Z.min MaxUint32 (lastLedger + q)) as Hq.
  { intros n Hz Hlt q. unfold t, NetworkTipLowerBound, time_After. rewrite Hz, (proj2 (Z.ltb_lt _ _) Hlt). cbn [orb negb].
    assert (0 < time_Sub n ingestedAt <= n - ingestedAt /\ time_Sub n ingestedAt < 2 ^ 63) as [Hs Hs'].
    { unfold time_Sub, MaxInt64, MinInt64. lia. }
    assert (SlowestLedgerClose = 6000000000) as Es by reflexivity.
    assert (q = time_Sub n ingestedAt / SlowestLedgerClose) as Eq by (unfold q; apply Z.quot_div_nonneg; lia).
    pose proof (Z.div_mod (time_Sub n ingestedAt) SlowestLedgerClose ltac:(lia)).
    pose proof (Z.mod_pos_bound (time_Sub n ingestedAt) SlowestLedgerClose ltac:(lia)).
    rewrite <- Eq in *. fold q. clearbody q. rewrite Es in *. assert (0 <= q) by lia.
    split; [done|]. split; [lia|]. split; [lia|]. unfold MaxUint32 in *. rewrite (wrapu_small 64) by lia.
    destruct (Z.ltb_spec (2 ^ 32 - 1 - lastLedger) q); [lia|].
    rewrite (wrapu_small 32 q), wrapu_small by lia. lia. }
  assert (forall n, (time_IsZero ingestedAt = true \/ n <= ingestedAt) -> t n = lastLedger) as Hstay.
  { intros n H. unfold t, NetworkTipLowerBound, time_After. destruct H as [->|H]; [done|].
    rewrite (proj2 (Z.ltb_ge _ _) H). by rewrite orb_true_r. }
  destruct (time_IsZero ingestedAt) eqn:Ez; [rewrite !Hstay by auto; split; [lia|]; split; [lia|]; intros;
    rewrite Z.sub_diag; lia|].
  destruct (Z.le_gt_cases now ingestedAt) as [Hle|Hgt].
  - rewrite (Hstay now) by auto. split; [lia|]. split; [|lia].
    destruct (Z.le_gt_cases later ingestedAt); [rewrite Hstay by auto; lia|].
    destruct (Hq later eq_refl) as (H0 & _ & _ & ->); [lia|]. lia.
  - destruct (Hq now eq_refl) as (H0 & H1 & _ & ->); [lia|]. split; [lia|].
    destruct (Hq later eq_refl) as (_ & _ & _ & ->); [lia|].
    assert (Z.quot (time_Sub now ingestedAt) SlowestLedgerClose <= Z.quot (time_Sub later ingestedAt) SlowestLedgerClose)
      by (apply Z.quot_le_mono; [reflexivity | unfold time_Sub; lia]).
    split; [lia|]. intros _. assert (0 < SlowestLedgerClose) by reflexivity. nia.
Qed.

Lemma NetworkTipLowerBound_bounds_witness :
  NetworkTipLowerBound 100 (1000 * Second) (1062 * Second) = 110 /\
  100 <= NetworkTipLowerBound 100 (1000 * Second) (1062 * Second) <= MaxUint32.
Proof.
  split; [vm_compute; reflexivity|].
  apply (NetworkTipLowerBound_bounds 100 (1000 * Second) (1062 * Second) (1062 * Second));
    [unfold is_uint32, MaxUint32; lia | reflexivity || lia].
Defined.

(** ** The census text *)

Lemma span_digits_app d c r :
  str_forallb is_dec_digit d = true -> is_dec_digit c = false ->
  span_digits (d +:+ String c r) = (d, String c r).
Proof.
  intros Hd Hc. induction d as [|x d IH].
  - change (EmptyString +:+ String c r) with (String c r). cbn [span_digits]. by rewrite Hc.
  - simpl in Hd. apply andb_prop in Hd as [Hx Hd].
    change (String x d +:+ String c r) with (String x (d +:+ String c r)). cbn [span_digits].
    by rewrite Hx, IH.
Qed.

Lemma match_digits_uint n c r : 0 <= n -> is_dec_digit c = false ->
  match_digits (big_String n +:+ String c r) = Some (fmt_uint 10 n, String c r).
Proof.
  intros Hn Hc. unfold match_digits, big_String. rewrite (proj2 (Z.ltb_ge n 0) Hn).
  rewrite span_digits_app by (try done; apply fmt_uint10_digits).
  pose proof (fmt_uint_nonempty 10 n). by destruct (fmt_uint 10 n).
Qed.

Definition census_ok (c : RecognitionCensus) : Prop :=
  0 <= Shapes c <= MaxInt64 /\ 0 <= Contracts c <= MaxInt64 /\ is_uint32 (EarliestLedger c).

Lemma parse_bounded_uint n hi : 0 <= n <= hi -> parse_bounded (fmt_uint 10 n) hi = Some n.
Proof.
  intros Hn. unfold parse_bounded. rewrite parse_fmt_uint by lia. simpl. by rewrite (proj2 (Z.leb_le _ _)) by lia.
Qed.

(** The matcher on a formatted backlog. *)
Lemma detail_submatch_format c : census_ok c ->
  detail_submatch (big_String (Shapes c) +:+ (" unrecognized shape(s) on " +:+ (big_String (Contracts c) +:+
    (" unowned contract(s) (earliest ledger " +:+ (big_String (EarliestLedger c) +:+ (")" +:+ detail_tail)))))) =
  Some (fmt_uint 10 (Shapes c), fmt_uint 10 (Contracts c), fmt_uint 10 (EarliestLedger c)).
Proof.
  intros (Hs & Hc & He). unfold is_uint32 in He. unfold detail_submatch.
  set (t1 := big_String (Contracts c) +:+ _). set (t2 := big_String (EarliestLedger c) +:+ _) in t1.
  change (" unrecognized shape(s) on " +:+ t1) with (String " " ("unrecognized shape(s) on " +:+ t1)).
  rewrite match_digits_uint by (done || lia). cbn [mbind option_bind].
  change (String " " ("unrecognized shape(s) on " +:+ t1)) with (" unrecognized shape(s) on " +:+ t1).
  rewrite CutPrefix_app. cbn [mbind option_bind]. unfold t1.
  change (" unowned contract(s) (earliest ledger " +:+ t2) with (String " " ("unowned contract(s) (earliest ledger " +:+ t2)).
  rewrite match_digits_uint by (done || lia). cbn [mbind option_bind].
  change (String " " ("unowned contract(s) (earliest ledger " +:+ t2)) with (" unowned contract(s) (earliest ledger " +:+ t2).
  rewrite CutPrefix_app. cbn [mbind option_bind]. unfold t2.
  change (")" +:+ detail_tail) with (String ")" detail_tail).
  rewrite match_digits_uint by (done || lia). done.
Qed.

(** The served census text parses back to the census it was rendered from,
    for every backlog with counts that fit an [int] and for the clean state,
    and a parsed text is either the clean one or carries the three counts in
    range; the clean text and a backlog can never be confused. *)
Theorem ParseRecognitionDetail_roundtrip c :
  census_ok c -> (Shapes c = 0 -> c = mkCensus 0 0 0) ->
  ParseRecognitionDetail (FormatRecognitionDetail c) = Some c /\
  (forall s c', ParseRecognitionDetail s = Some c' -> s = clean_detail \/ exists m, detail_submatch s = Some m) /\
  detail_submatch clean_detail = None.
Proof.
  intros Hok Hclean. split; [|split; [|reflexivity]].
  - unfold FormatRecognitionDetail. destruct (Z.eqb_spec (Shapes c) 0) as [E|E].
    + rewrite (Hclean E). vm_compute. reflexivity.
    + unfold ParseRecognitionDetail. rewrite detail_submatch_format by done. destruct Hok as (Hs & Hc & He).
      rewrite !parse_bounded_uint by done. by destruct c.
  - intros s c'. unfold ParseRecognitionDetail. destruct (detail_submatch s); [eauto|].
    destruct (String.eqb_spec s (FormatRecognitionDetail (mkCensus 0 0 0))) as [->|]; [by left | done].
Qed.

Lemma ParseRecognitionDetail_roundtrip_witness :
  ParseRecognitionDetail (FormatRecognitionDetail (mkCensus 17 4 50457424)) = Some (mkCensus 17 4 50457424).
Proof.
  apply (ParseRecognitionDetail_roundtrip (mkCensus 17 4 50457424)); [|discriminate].
  unfold census_ok, is_uint32, MaxInt64, MaxUint32. simpl. lia.
Defined.
