(* ===== verification/Stream.v ===== *)
(** * Event identifiers and replay rings
    (internal/api/streaming: event.go, ring.go, drain.go)

    The monotonic ID generator, the per-topic replay buffer against the whole
    history of its topic and the shutdown broadcast. Wall-clock readings are
    arguments. *)

From S2P Require Import Prelude GoLib.

(** ** Events and identifiers (event.go) *)

Record Event := mkEvent {
  ev_ID : string; ev_Type : string; ev_Data : string; ev_Timestamp : Time; ev_Retry : Duration
}.

Definition idLen : nat := 16.
Definition EventTypeStreamGap : string := "stream_gap".

(** The state the compare-and-swap installs, from the one it read and the
    millisecond clock. *)
Definition next_state (now old : Z) : Z :=
  let oldMillis := Z.shiftr old 16 in
  let oldCounter := Z.land old 0xFFFF in
  if oldMillis <? now then wrapu 64 (Z.shiftl now 16)
  else if oldCounter <? 0xFFFF then Z.lor (wrapu 64 (Z.shiftl oldMillis 16)) (oldCounter + 1)
  else wrapu 64 (Z.shiftl (wrapu 64 (oldMillis + 1)) 16).

(** [Next]: the loop retries until its swap succeeds, so one call is one
    transition from the state it found there; [now] was read before. *)
Definition Next (now : Z) (state : Z) : string * Z :=
  let next := next_state now state in
  (hexw idLen next, next).

Definition Ahead (state now : Z) (id : string) : bool :=
  if negb (String.length id =? idLen)%nat then false
  else match parse_uint 16 id with
       | None => false
       | Some v =>
           let ceiling := Z.max state (Z.lor (wrapu 64 (Z.shiftl now 16)) 0xFFFF) in
           ceiling <? v
       end.

(** ** Rings (ring.go) *)

Record ring := mkRing { r_cap : nat; r_events : list Event; r_evicted : bool }.

Definition newRing (capacity : nat) : ring := mkRing capacity [] false.

Definition ring_empty (r : ring) : bool := (length (r_events r) =? 0)%nat.

(** The capacity is positive ([NewHub] defaults it), so a full ring is not
    empty. *)
Definition push (r : ring) (ev : Event) : ring :=
  if (length (r_events r) <? r_cap r)%nat
  then mkRing (r_cap r) (r_events r ++ [ev]) (r_evicted r)
  else mkRing (r_cap r) (drop 1 (r_events r) ++ [ev]) true.

Definition oldestID (r : ring) : string :=
  match r_events r with [] => "" | e :: _ => ev_ID e end.

Definition hasEvicted (r : ring) : bool := r_evicted r.

(** A nil result is the empty list. *)
Definition snapshotAfter (r : ring) (lastEventID : string) : list Event :=
  if String.eqb lastEventID "" then []
  else filter (fun e => str_ltb lastEventID (ev_ID e) = true) (r_events r).

(** ** The shutdown broadcast (drain.go)

    [None] is a nil receiver or a zero value, whose channel never fires. *)
Record Drain := mkDrain { d_closed : bool }.

Definition NewDrain : option Drain := Some (mkDrain false).
Definition Begin (d : option Drain) : option Drain :=
  match d with None => None | Some _ => Some (mkDrain true) end.
Definition Done_ready (d : option Drain) : bool :=
  match d with None => false | Some d => d_closed d end.

(** ** Identifiers are strictly increasing *)

(** Same or earlier millisecond, saturated or not: the state grows by one. *)
Lemma next_state_eq now old :
  0 <= old < 2 ^ 64 - 1 -> 0 <= now < 2 ^ 48 ->
  next_state now old = if old / 2 ^ 16 <? now then now * 2 ^ 16 else old + 1.
Proof.
  intros Ho Hn. unfold next_state. rewrite !Z.shiftl_mul_pow2, Z.shiftr_div_pow2 by lia.
  change 0xFFFF with (Z.ones 16). rewrite Z.land_ones by lia. change (Z.ones 16) with 65535.
  pose proof (Z.div_mod old (2 ^ 16) ltac:(lia)). pose proof (Z.mod_pos_bound old (2 ^ 16) ltac:(lia)).
  destruct (Z.ltb_spec (old / 2 ^ 16) now); [apply wrapu_small; lia|].
  destruct (Z.ltb_spec (old mod 2 ^ 16) 65535).
  - rewrite wrapu_small by lia. rewrite <- Z.shiftl_mul_pow2 by lia.
    assert (Z.land (Z.shiftl (old / 2 ^ 16) 16) (old mod 2 ^ 16 + 1) = 0) as Hd.
    { apply Z.bits_inj'. intros i Hi. rewrite Z.land_spec, Z.bits_0.
      destruct (Z.ltb_spec i 16); [by rewrite Z.shiftl_spec_low|].
      rewrite (Z.bits_above_log2 (old mod 2 ^ 16 + 1)); [by rewrite andb_false_r|lia|].
      assert (Z.log2 (old mod 2 ^ 16 + 1) < 16) by (apply Z.log2_lt_pow2; lia). lia. }
    rewrite <- Z.lxor_lor, <- Z.add_nocarry_lxor by done. rewrite Z.shiftl_mul_pow2 by lia. lia.
  - rewrite (wrapu_small 64 (old / 2 ^ 16 + 1)), wrapu_small by lia. lia.
Qed.

(** A run of calls with the clock readings they made, in swap order. *)
Fixpoint Next_run (state : Z) (nows : list Z) : list string * Z :=
  match nows with
  | [] => ([], state)
  | now :: nows' =>
      let '(id, state) := Next now state in
      let '(ids, state) := Next_run state nows' in
      (id :: ids, state)
  end.

Lemma next_state_bounds now old :
  0 <= old < 2 ^ 64 - 1 -> 0 <= now < 2 ^ 48 -> old < next_state now old <= Z.max (old + 1) (now * 2 ^ 16).
Proof.
  intros Ho Hn. rewrite next_state_eq by done.
  pose proof (Z.div_mod old (2 ^ 16) ltac:(lia)). pose proof (Z.mod_pos_bound old (2 ^ 16) ltac:(lia)).
  destruct (Z.ltb_spec (old / 2 ^ 16) now); lia.
Qed.

Lemma Next_run_sorted nows state :
  Forall (fun now => 0 <= now < 2 ^ 47) nows -> 0 <= state ->
  Z.max state (2 ^ 63) + Z.of_nat (length nows) < 2 ^ 64 ->
  Forall (fun id => exists v, state < v <= (Next_run state nows).2 /\ id = hexw 16 v) (Next_run state nows).1 /\
  state <= (Next_run state nows).2 < 2 ^ 64 /\
  StronglySorted (fun a b => str_ltb a b = true) (Next_run state nows).1.
Proof.
  intros HF; revert state; induction HF as [|now nows Hn HF IH]; intros state H0 Hb; [cbn [Next_run fst snd length] in *; split_and!; [constructor | lia | lia | constructor]|].
  cbn [Next_run Next]. simpl length in Hb. destruct (next_state_bounds now state ltac:(lia) ltac:(lia)) as [Hlt Hle].
  destruct (IH (next_state now state)) as (IHv & IHb & IHs); [lia..|].
  destruct (Next_run (next_state now state) nows) as [ids st']. cbn [fst snd] in *. split_and!; [|lia|lia|].
  - constructor; [exists (next_state now state); split; [lia|done]|].
    eapply Forall_impl; [exact IHv|]. intros id (v & Hv & ->). exists v. split; [lia|done].
  - constructor; [done|]. eapply Forall_impl; [exact IHv|]. intros id (v & Hv & ->).
    unfold idLen. rewrite hexw_lt; [apply Z.ltb_lt; lia | |]; change (16 ^ Z.of_nat 16) with (2 ^ 64); lia.
Qed.

(** Whatever the clock does (standing still, stepping back, more than
    65536 events in a millisecond), the identifiers one generator issues are
    16 characters long and strictly increasing in text order, so they never
    repeat and text order is issue order; and none of them is ever taken for a
    cursor from a foreign identifier space. *)
Theorem Next_strictly_increasing state nows now :
  Forall (fun n => 0 <= n < 2 ^ 47) nows -> 0 <= now < 2 ^ 47 -> 0 <= state ->
  Z.max state (2 ^ 63) + Z.of_nat (length nows) < 2 ^ 64 ->
  let '(ids, state') := Next_run state nows in
  length ids = length nows /\
  StronglySorted (fun a b => str_ltb a b = true) ids /\ NoDup ids /\
  Forall (fun id => String.length id = idLen /\ Ahead state' now id = false) ids.
Proof.
  intros HF Hnow H0 Hb. pose proof (Next_run_sorted nows state HF H0 Hb) as (Hv & Hst & Hs).
  assert (length (Next_run state nows).1 = length nows) as Hlen.
  { clear. revert state; induction nows as [|n nows IH]; intros state; [done|]. cbn [Next_run Next].
    specialize (IH (next_state n state)). destruct (Next_run (next_state n state) nows). simpl in *. lia. }
  destruct (Next_run state nows) as [ids state']. cbn [fst snd] in *. split; [done|]. split; [done|]. split.
  - clear -Hs. induction Hs as [|x l Hs IH HF]; [constructor|]. apply NoDup_cons. split; [|done].
    rewrite Forall_forall in HF. intros Hx. specialize (HF x Hx). by rewrite str_ltb_irrefl in HF.
  - eapply Forall_impl; [exact Hv|]. intros id (v & Hr & ->). split; [apply hexw_length|].
    unfold Ahead. rewrite hexw_length. change (negb (16 =? idLen)%nat) with false. cbv iota.
    assert (parse_uint 16 (hexw 16 v) = Some v) as ->.
    { transitivity (parse_acc 16 (hexw 16 v) 0); [done|]. rewrite parse_hexw_acc by lia.
      change (16 ^ Z.of_nat 16) with (2 ^ 64). rewrite Z.mod_small by lia. done. }
    apply Z.ltb_ge. lia.
Qed.

Lemma Next_strictly_increasing_witness :
  let '(ids, _) := Next_run 0 [1700000000000; 1700000000000; 1699999999999] in
  ids = ["018bcfe568000000"; "018bcfe568000001"; "018bcfe568000002"] /\
  StronglySorted (fun a b => str_ltb a b = true) ids.
Proof.
  assert (Forall (fun n => 0 <= n < 2 ^ 47) [1700000000000; 1700000000000; 1699999999999]) as HF
    by (repeat constructor; vm_compute; congruence).
  pose proof (Next_strictly_increasing 0 [1700000000000; 1700000000000; 1699999999999] 0 HF) as H.
  destruct (Next_run 0 [1700000000000; 1700000000000; 1699999999999]) as [ids st] eqn:E.
  split.
  - change ids with (ids, st).1. rewrite <- E. vm_compute. reflexivity.
  - apply H; vm_compute; split || idtac; congruence.
Defined.

(** ** A ring is the recent end of its topic's history *)

Lemma ring_history cap hist : (0 < cap)%nat ->
  foldl push (newRing cap) hist =
  mkRing cap (drop (length hist - cap) hist) (cap <? length hist)%nat.
Proof.
  intros Hc. induction hist as [|e hist IH] using rev_ind; [done|].
  rewrite foldl_app, IH, length_app. simpl. unfold push. cbn [r_events r_cap r_evicted]. rewrite length_drop.
  destruct (Nat.ltb_spec (length hist - (length hist - cap)) cap).
  - replace (length hist - cap)%nat with 0%nat by lia. replace (length hist + 1 - cap)%nat with 0%nat by lia.
    rewrite !drop_0. f_equal. destruct (Nat.ltb_spec cap (length hist)), (Nat.ltb_spec cap (length hist + 1)); lia || done.
  - rewrite drop_drop, (proj2 (Nat.ltb_lt cap (length hist + 1))) by lia. f_equal.
    rewrite drop_app_le by lia. do 2 f_equal. lia.
Qed.

Definition ids_ascending (hist : list Event) : Prop :=
  StronglySorted (fun a b => str_ltb (ev_ID a) (ev_ID b) = true) hist /\ Forall (fun e => ev_ID e <> "") hist.

(** The ring part of [resumeGap]: evicted past the cursor. *)
Definition evictedPast (r : ring) (lastEventID : string) : bool :=
  negb (String.eqb (oldestID r) "") && str_ltb lastEventID (oldestID r) && hasEvicted r.

Lemma filter_drop_below (last : string) (n : nat) hist e0 :
  StronglySorted (fun a b => str_ltb (ev_ID a) (ev_ID b) = true) hist ->
  hist !! n = Some e0 -> str_ltb last (ev_ID e0) = false ->
  filter (fun e => str_ltb last (ev_ID e) = true) (drop n hist) =
  filter (fun e => str_ltb last (ev_ID e) = true) hist.
Proof.
  intros Hs; revert n; induction Hs as [|e hist Hs IH HF]; intros n He0 Hlt; [done|].
  destruct n as [|n]; [done|]. simpl in *. rewrite IH by done. rewrite filter_cons_False; [done|].
  rewrite Forall_forall in HF. specialize (HF e0 (list_elem_of_lookup_2 _ _ _ He0)). simpl in HF.
  intros Hl. by rewrite (str_ltb_trans _ _ _ Hl HF) in Hlt.
Qed.

(** A resume never loses an event silently: for a topic whose identifiers
    ascend, unless the ring reports that it evicted past the cursor, the
    replay is exactly the events of the whole history after the cursor; when
    it does report it, the replay is everything still held. The ring never
    holds more than its capacity and always holds the newest events. *)
Theorem ring_resume_complete cap hist lastEventID :
  (0 < cap)%nat -> ids_ascending hist -> lastEventID <> "" ->
  let r := foldl push (newRing cap) hist in
  r_events r = drop (length hist - cap) hist /\ (length (r_events r) <= cap)%nat /\
  (evictedPast r lastEventID = false ->
     snapshotAfter r lastEventID = filter (fun e => str_ltb lastEventID (ev_ID e) = true) hist) /\
  (evictedPast r lastEventID = true ->
     snapshotAfter r lastEventID = r_events r /\ (cap < length hist)%nat).
Proof.
  intros Hc [Hs Hne] Hl r. unfold r. rewrite ring_history by done. unfold evictedPast, snapshotAfter, hasEvicted, oldestID.
  cbn [r_events r_evicted]. rewrite (proj2 (String.eqb_neq _ _) Hl), length_drop.
  split; [done|]. split; [lia|].
  destruct (drop (length hist - cap) hist) as [|e0 es] eqn:Ed.
  { simpl. split; [|done]. intros _. assert (hist = []) as ->; [|done].
    apply nil_length_inv. apply (f_equal length) in Ed. rewrite length_drop in Ed. simpl in Ed. lia. }
  assert (hist !! (length hist - cap)%nat = Some e0) as He0.
  { rewrite <- (Nat.add_0_r (length hist - cap)), <- lookup_drop, Ed. done. }
  assert (ev_ID e0 <> "") as Hid by (rewrite Forall_forall in Hne; by eapply Hne, list_elem_of_lookup_2).
  rewrite (proj2 (String.eqb_neq _ _) Hid). cbn [negb andb]. rewrite <- Ed.
  destruct (str_ltb lastEventID (ev_ID e0)) eqn:Elt; cbn [andb].
  - destruct (Nat.ltb_spec cap (length hist)).
    + split; [done|]. intros _. split; [|done]. rewrite Ed.
      assert (StronglySorted (fun a b => str_ltb (ev_ID a) (ev_ID b) = true) (e0 :: es)) as Hs'.
      { rewrite <- Ed. clear -Hs. revert Hs. generalize (length hist - cap)%nat as n.
        intros n Hs; revert n; induction Hs as [|x l Hs IH HF]; intros [|n]; simpl; auto using SSorted_nil.
        by constructor. }
      apply StronglySorted_inv in Hs' as [_ HF]. rewrite filter_cons_True by done. f_equal.
      clear -HF Elt. induction HF as [|x l Hx HF IH]; [done|]. rewrite filter_cons_True; [by rewrite IH|].
      eapply str_ltb_trans; eauto.
    + split; [|done]. intros _. replace (length hist - cap)%nat with 0%nat by lia. done.
  - split; [|done]. intros _. by eapply filter_drop_below.
Qed.

Lemma ring_resume_complete_witness :
  let ev := fun i => mkEvent i "price_update" "{}" 0 0 in
  let hist := [ev "01"; ev "02"; ev "03"] in
  ids_ascending hist /\
  snapshotAfter (foldl push (newRing 2) hist) "02" = [ev "03"] /\
  evictedPast (foldl push (newRing 2) hist) "02" = false.
Proof.
  intros ev hist.
  assert (ids_ascending hist) as Ha by (split; repeat constructor; done).
  destruct (ring_resume_complete 2 hist "02" ltac:(lia) Ha ltac:(done)) as (_ & _ & H & _).
  split; [done|]. split; [rewrite H; vm_compute; reflexivity | vm_compute; reflexivity].
Defined.

(** The gap report is not exact: a cursor that is the newest evicted event
    lost nothing, since everything after it is still held, yet the ring
    reports it as evicted past. *)
Lemma evictedPast_not_exact :
  let ev := fun i => mkEvent i "price_update" "{}" 0 0 in
  let hist := [ev "01"; ev "02"; ev "03"] in
  let r := foldl push (newRing 2) hist in
  evictedPast r "01" = true /\
  snapshotAfter r "01" = filter (fun e => str_ltb "01" (ev_ID e) = true) hist.
Proof. vm_compute. done. Qed.
