(* ===== verification/Admission.v ===== *)
(** * Stream admission
    (internal/api/streaming: periplimit.go, the slot half of handler.go)

    The global cap and the per-client cap on concurrent streams, with their
    counters shared by every connection. A connection is a little program
    whose steps are the atomic sections of the Go code: one [sync/atomic]
    operation, or one section under [streamIPMu]. A schedule is the list of
    connections that take the next step, so a theorem for every schedule is a
    theorem for every interleaving. The client key of a connection is the one
    [resolveStreamClientIP] gave it. The caps are set once at start-up, before
    the first connection. *)

From S2P Require Import Prelude GoLib.

Record server := mkServer {
  maxConcurrentStreams : Z;
  maxStreamsPerIP : Z;
  activeStreams : Z;
  rejectedStreams : Z;
  streamsPerIP : gmap string Z
}.

Definition SetMaxConcurrentStreams (s : server) (n : Z) : server :=
  mkServer n (maxStreamsPerIP s) (activeStreams s) (rejectedStreams s) (streamsPerIP s).
Definition SetMaxStreamsPerIP (s : server) (n : Z) : server :=
  mkServer (maxConcurrentStreams s) n (activeStreams s) (rejectedStreams s) (streamsPerIP s).
Definition StreamsRejected (s : server) : Z := rejectedStreams s.

Definition add_active (s : server) (d : Z) : server :=
  mkServer (maxConcurrentStreams s) (maxStreamsPerIP s) (activeStreams s + d) (rejectedStreams s) (streamsPerIP s).
Definition add_rejected (s : server) (d : Z) : server :=
  mkServer (maxConcurrentStreams s) (maxStreamsPerIP s) (activeStreams s) (rejectedStreams s + d) (streamsPerIP s).
Definition set_ips (s : server) (m : gmap string Z) : server :=
  mkServer (maxConcurrentStreams s) (maxStreamsPerIP s) (activeStreams s) (rejectedStreams s) m.

(** A missing key reads as zero. *)
Definition count_ip (s : server) (ip : string) : Z := default 0 (streamsPerIP s !! ip).

Definition ActiveStreamsForIP (s : server) (key : string) : Z := count_ip s key.

(** [acquireGlobalStreamSlot] up to its decision: the counter is raised first
    and the value read back is compared, so a refusal leaves it raised until
    the compensating step. *)
Definition acquireGlobalStreamSlot (s : server) : bool * server :=
  let s' := add_active s 1 in
  let limit := maxConcurrentStreams s in
  if 0 <? limit then (activeStreams s' <=? limit, s') else (true, s').

Definition releaseGlobal (s : server) : server := add_active s (-1).

(** [acquireIPStreamSlot]: the answer and whether the release function it
    returns does something ([limit <= 0] gives one that does not). *)
Definition acquireIPStreamSlot (s : server) (ip : string) : option bool * server :=
  let limit := maxStreamsPerIP s in
  if limit <=? 0 then (Some false, s)
  else if limit <=? count_ip s ip then (None, s)
  else (Some true, set_ips s (<[ip := count_ip s ip + 1]> (streamsPerIP s))).

Definition releaseIP (s : server) (counted : bool) (ip : string) : server :=
  if counted then
    set_ips s (if count_ip s ip <=? 1 then delete ip (streamsPerIP s)
               else <[ip := count_ip s ip - 1]> (streamsPerIP s))
  else s.

(** Where a connection stands in [admitStream] and in the release it returns. *)
Inductive phase :=
| Start                       (** before the global slot *)
| GlobalOver                  (** raised past the cap, to be lowered *)
| GlobalRefused               (** lowered, to be counted as rejected *)
| GlobalHeld                  (** global slot held, per-client slot next *)
| IPOver                      (** no per-client slot, global one to give back *)
| IPRefused                   (** given back, to be counted as rejected *)
| Open (counted : bool)       (** admitted; the stream is being served *)
| Closing                     (** per-client slot released, global one next *)
| Refused503 | Refused429     (** refused, the response written *)
| Closed.                     (** released; a further release does nothing *)

#[export] Instance phase_eq_dec : EqDecision phase.
Proof. solve_decision. Defined.

Record conn := mkConn { c_ip : string; c_phase : phase }.

(** The next atomic section of a connection ([admitStream], then [release]). *)
Definition admit_step (s : server) (c : conn) : server * phase :=
  match c_phase c with
  | Start => let '(ok, s) := acquireGlobalStreamSlot s in (s, if ok then GlobalHeld else GlobalOver)
  | GlobalOver => (add_active s (-1), GlobalRefused)
  | GlobalRefused => (add_rejected s 1, Refused503)
  | GlobalHeld =>
      match acquireIPStreamSlot s (c_ip c) with
      | (Some counted, s) => (s, Open counted)
      | (None, s) => (s, IPOver)
      end
  | IPOver => (releaseGlobal s, IPRefused)
  | IPRefused => (add_rejected s 1, Refused429)
  | Open counted => (releaseIP s counted (c_ip c), Closing)
  | Closing => (releaseGlobal s, Closed)
  | Refused503 => (s, Refused503)
  | Refused429 => (s, Refused429)
  | Closed => (s, Closed)
  end.

Definition sys_step (st : server * list conn) (i : nat) : server * list conn :=
  match st.2 !! i with
  | None => st
  | Some c => let '(s, p) := admit_step st.1 c in (s, <[i := mkConn (c_ip c) p]> st.2)
  end.

Definition run (st : server * list conn) (schedule : list nat) : server * list conn :=
  foldl sys_step st schedule.

Definition fresh (limit perIP : Z) : server := mkServer limit perIP 0 0 ∅.
Definition arrivals (ips : list string) : list conn := map (fun ip => mkConn ip Start) ips.

(** ** Counting connections *)

Definition b2z (b : bool) : Z := if b then 1 else 0.
Definition cnt (P : conn -> bool) (cs : list conn) : Z := zsum (map (fun c => b2z (P c)) cs).

Lemma cnt_nonneg P cs : 0 <= cnt P cs.
Proof. apply zsum_nonneg, Forall_forall. intros x (c & -> & _)%list_elem_of_fmap. destruct (P c); simpl; lia. Qed.

Lemma cnt_insert P cs i c c' : cs !! i = Some c -> cnt P (<[i := c']> cs) = cnt P cs - b2z (P c) + b2z (P c').
Proof.
  revert i; induction cs as [|x cs IH]; intros [|i] Hi; simplify_eq/=; unfold cnt in *; simpl; [lia|].
  rewrite IH by done. lia.
Qed.

Lemma cnt_mono P Q cs : (forall c, P c = true -> Q c = true) -> cnt P cs <= cnt Q cs.
Proof.
  intros H. unfold cnt. induction cs as [|c cs IH]; simpl; [lia|]. specialize (H c).
  destruct (P c); [rewrite H by done; simpl; lia|]. simpl. destruct (Q c); simpl; lia.
Qed.

Lemma cnt_zero P cs : Forall (fun c => P c = false) cs -> cnt P cs = 0.
Proof. unfold cnt. induction 1 as [|c cs Hc _ IH]; simpl; [done|]. rewrite Hc. simpl. lia. Qed.

(** Connections the global counter counts, those that hold a slot, those
    being served, those counted against a client, those refused. *)
Definition counted_global (c : conn) : bool :=
  match c_phase c with GlobalOver | GlobalHeld | IPOver | Open _ | Closing => true | _ => false end.
Definition holds_global (c : conn) : bool :=
  match c_phase c with GlobalHeld | IPOver | Open _ | Closing => true | _ => false end.
Definition serving (c : conn) : bool := match c_phase c with Open _ => true | _ => false end.
Definition serving_ip (ip : string) (c : conn) : bool := serving c && String.eqb (c_ip c) ip.
Definition refused (c : conn) : bool := match c_phase c with Refused503 | Refused429 => true | _ => false end.
Definition finished (c : conn) : bool :=
  match c_phase c with Refused503 | Refused429 | Closed => true | _ => false end.

(** ** The invariant of every interleaving *)

Record admission_inv (limit perIP : Z) (st : server * list conn) : Prop := {
  ai_limit : maxConcurrentStreams st.1 = limit;
  ai_perIP : maxStreamsPerIP st.1 = perIP;
  ai_active : activeStreams st.1 = cnt counted_global st.2;
  ai_held : 0 < limit -> cnt holds_global st.2 <= limit;
  ai_rejected : rejectedStreams st.1 = cnt refused st.2;
  ai_off : perIP <= 0 -> streamsPerIP st.1 = ∅;
  ai_open : Forall (fun c => match c_phase c with Open b => b = (0 <? perIP) | _ => True end) st.2;
  ai_ip : 0 < perIP -> forall ip,
      (count_ip st.1 ip = cnt (serving_ip ip) st.2 /\ cnt (serving_ip ip) st.2 <= perIP /\
       streamsPerIP st.1 !! ip <> Some 0)
}.

Lemma admission_inv_init limit perIP ips : admission_inv limit perIP (fresh limit perIP, arrivals ips).
Proof.
  assert (forall P, (forall ip, P (mkConn ip Start) = false) -> cnt P (arrivals ips) = 0) as Hz.
  { intros P HP. apply cnt_zero, Forall_forall. intros c (ip & -> & _)%list_elem_of_fmap. apply HP. }
  split; simpl; try done.
  - by rewrite Hz.
  - rewrite Hz by done. lia.
  - by rewrite Hz.
  - apply Forall_forall. intros c (ip & -> & _)%list_elem_of_fmap. done.
  - intros Hp ip. rewrite Hz by done. unfold count_ip. simpl. rewrite lookup_empty. split_and!; [done|lia|done].
Qed.

Lemma count_ip_insert s ip n ip' :
  count_ip (set_ips s (<[ip := n]> (streamsPerIP s))) ip' = if String.eqb ip ip' then n else count_ip s ip'.
Proof.
  unfold count_ip. simpl. destruct (String.eqb_spec ip ip') as [->|Hne];
    [by rewrite lookup_insert_eq | by rewrite lookup_insert_ne].
Qed.

Lemma count_ip_delete s ip ip' :
  count_ip (set_ips s (delete ip (streamsPerIP s))) ip' = if String.eqb ip ip' then 0 else count_ip s ip'.
Proof.
  unfold count_ip. simpl. destruct (String.eqb_spec ip ip') as [->|Hne];
    [by rewrite lookup_delete_eq | by rewrite lookup_delete_ne].
Qed.

Lemma cnt_in P cs i c : cs !! i = Some c -> P c = true -> 1 <= cnt P cs.
Proof.
  intros Hi HP. revert i Hi; induction cs as [|x cs IH]; intros [|i] Hi; simplify_eq/=; unfold cnt; simpl;
    fold (cnt P cs).
  - rewrite HP. pose proof (cnt_nonneg P cs). simpl. lia.
  - specialize (IH i Hi). destruct (P x); simpl; lia.
Qed.

(** What a step has to keep of the per-client counts, given how it changes
    them and the connection. *)
Lemma admission_inv_step limit perIP s cs i c s' p :
  admission_inv limit perIP (s, cs) -> cs !! i = Some c ->
  let c' := mkConn (c_ip c) p in
  maxConcurrentStreams s' = limit -> maxStreamsPerIP s' = perIP ->
  activeStreams s' - activeStreams s = b2z (counted_global c') - b2z (counted_global c) ->
  (0 < limit -> cnt holds_global cs + b2z (holds_global c') - b2z (holds_global c) <= limit) ->
  rejectedStreams s' - rejectedStreams s = b2z (refused c') - b2z (refused c) ->
  (perIP <= 0 -> streamsPerIP s' = ∅) ->
  match p with Open b => b = (0 <? perIP) | _ => True end ->
  (0 < perIP -> forall ip,
     count_ip s' ip - count_ip s ip = b2z (serving_ip ip c') - b2z (serving_ip ip c) /\
     (b2z (serving_ip ip c') - b2z (serving_ip ip c) <= 0 \/ count_ip s ip < perIP) /\
     streamsPerIP s' !! ip <> Some 0) ->
  admission_inv limit perIP (s', <[i := c']> cs).
Proof.
  intros [] Hi c' Hl Hp Ha Hh Hr Hoff Hopen Hip; simpl in *.
  split; simpl; try done; rewrite ?(cnt_insert _ _ _ _ _ Hi).
  - lia.
  - intros H. specialize (Hh H). lia.
  - lia.
  - by apply Forall_insert.
  - intros H ip. destruct (Hip H ip) as (H1 & H2 & H3). destruct (ai_ip0 H ip) as (H4 & H5 & _).
    rewrite (cnt_insert _ _ _ _ _ Hi).
    assert (b2z (serving_ip ip c') <= 1) by (destruct (serving_ip ip c'); simpl; lia).
    assert (0 <= b2z (serving_ip ip c)) by (destruct (serving_ip ip c); simpl; lia). split_and!; [lia|lia|done].
Qed.

(** The same for the steps that leave the per-client counts alone. *)
Lemma admission_inv_step_global limit perIP s cs i c s' p :
  admission_inv limit perIP (s, cs) -> cs !! i = Some c ->
  let c' := mkConn (c_ip c) p in
  maxConcurrentStreams s' = limit -> maxStreamsPerIP s' = perIP ->
  activeStreams s' - activeStreams s = b2z (counted_global c') - b2z (counted_global c) ->
  (0 < limit -> cnt holds_global cs + b2z (holds_global c') - b2z (holds_global c) <= limit) ->
  rejectedStreams s' - rejectedStreams s = b2z (refused c') - b2z (refused c) ->
  streamsPerIP s' = streamsPerIP s -> serving c' = false -> serving c = false ->
  admission_inv limit perIP (s', <[i := c']> cs).
Proof.
  intros Hinv Hi c' Hl Hp Ha Hh Hr Hm Hs' Hs. pose proof Hinv as [_ _ _ _ _ Hoff Hopen Hip]; simpl in *.
  apply (admission_inv_step limit perIP s cs i c); auto.
  - intros. rewrite Hm. auto.
  - unfold serving in Hs'. simpl in Hs'. by destruct p.
  - intros H ip. unfold count_ip. rewrite Hm. unfold serving_ip. fold c'. rewrite Hs, Hs'. simpl.
    split_and!; [lia|lia|apply (Hip H ip)].
Qed.

Lemma acquireIP_counts s ip s' :
  acquireIPStreamSlot s ip = (Some true, s') -> 0 <= count_ip s ip ->
  s' = set_ips s (streamsPerIP s') /\ count_ip s ip < maxStreamsPerIP s /\ forall ip',
    count_ip s' ip' = count_ip s ip' + b2z (String.eqb ip ip') /\
    (streamsPerIP s !! ip' <> Some 0 -> streamsPerIP s' !! ip' <> Some 0).
Proof.
  unfold acquireIPStreamSlot. intros H H0. repeat case_if_in H; simplify_eq/=. bprop.
  split; [done|]. split; [done|]. intros ip'. rewrite count_ip_insert.
  destruct (String.eqb_spec ip ip') as [->|Hne]; simpl.
  - rewrite lookup_insert_eq. split; [done|]. intros _ [=]. lia.
  - rewrite lookup_insert_ne by done. split; [lia|done].
Qed.

Lemma releaseIP_counts s ip :
  1 <= count_ip s ip -> let s' := releaseIP s true ip in
  (exists m, s' = set_ips s m) /\ forall ip',
    count_ip s' ip' = count_ip s ip' - b2z (String.eqb ip ip') /\
    (streamsPerIP s !! ip' <> Some 0 -> streamsPerIP s' !! ip' <> Some 0).
Proof.
  intros H1 s'. unfold s'. unfold releaseIP. split; [eauto|]. intros ip'. case_if; bprop.
  - rewrite count_ip_delete. simpl. destruct (String.eqb_spec ip ip') as [->|Hne]; simpl.
    + rewrite lookup_delete_eq. split; [lia|done].
    + rewrite lookup_delete_ne by done. split; [lia|done].
  - rewrite count_ip_insert. simpl. destruct (String.eqb_spec ip ip') as [->|Hne]; simpl.
    + rewrite lookup_insert_eq. split; [lia|]. intros _ [=]. lia.
    + rewrite lookup_insert_ne by done. split; [lia|done].
Qed.

Ltac global_step :=
  match goal with
  | Hinv : admission_inv ?l ?k (?s, ?cs), Hi : ?cs !! ?i = Some ?c |- _ =>
      apply (admission_inv_step_global l k s cs i c); auto; simpl;
      try lia; try done; intros; lia
  end.

Lemma sys_step_inv limit perIP st i : admission_inv limit perIP st -> admission_inv limit perIP (sys_step st i).
Proof.
  destruct st as [s cs]. intros Hinv. unfold sys_step. simpl. destruct (cs !! i) as [[ip p]|] eqn:Hi; [|done].
  pose proof Hinv as [Hl Hp Ha Hh Hr Hoff Hopen Hip]; simpl in *.
  assert (cnt holds_global cs <= cnt counted_global cs) as Hle by (apply cnt_mono; intros [? []]; done).
  pose proof (Forall_lookup_1 _ _ _ _ Hopen Hi) as Hop. simpl in Hop.
  destruct p; unfold admit_step; simpl; try global_step.
  - (* the global counter is raised and read back *)
    unfold acquireGlobalStreamSlot. simpl. repeat case_if; bprop; global_step.
  - (* the per-client slot *)
    destruct (acquireIPStreamSlot s ip) as [[[]|] s'] eqn:E.
    + destruct (Z.lt_ge_cases 0 perIP) as [Hpos|Hpos].
      2: { unfold acquireIPStreamSlot in E. rewrite Hp in E. rewrite (proj2 (Z.leb_le _ _) Hpos) in E. done. }
      destruct (Hip Hpos ip) as (Hc & _). pose proof (cnt_nonneg (serving_ip ip) cs).
      apply acquireIP_counts in E as (-> & Hlt & Hcs); [|lia].
      apply (admission_inv_step limit perIP s cs i (mkConn ip GlobalHeld)); simpl; auto; try lia.
      intros _ ip'. destruct (Hcs ip') as [-> Hn]. unfold serving_ip. simpl. pose proof (Hip Hpos ip') as (? & ? & ?).
        destruct (String.eqb_spec ip ip') as [<-|]; simpl; split_and!; lia || auto.
    + unfold acquireIPStreamSlot in E. repeat case_if_in E; simplify_eq/=. bprop.
      apply (admission_inv_step (maxConcurrentStreams s') (maxStreamsPerIP s') s' cs i (mkConn ip GlobalHeld)); simpl; auto; lia.
    + unfold acquireIPStreamSlot in E. repeat case_if_in E; simplify_eq/=. bprop.
      global_step.
  - (* the per-client release *)
    subst counted. destruct (Z.lt_ge_cases 0 perIP) as [Hpos|Hpos].
    + rewrite (proj2 (Z.ltb_lt _ _) Hpos) in *. destruct (Hip Hpos ip) as (Hc & _).
      assert (1 <= cnt (serving_ip ip) cs) by (eapply cnt_in; [done|]; unfold serving_ip; simpl; by rewrite String.eqb_refl).
      destruct (releaseIP_counts s ip ltac:(lia)) as [[m Heq] Hcs]. rewrite Heq in *.
      apply (admission_inv_step limit perIP s cs i (mkConn ip (Open true))); simpl; auto; try lia.
      intros _ ip'. destruct (Hcs ip') as [He Hn]. rewrite He. unfold serving_ip. simpl. pose proof (Hip Hpos ip') as (? & ? & ?).
        destruct (String.eqb ip ip'); simpl; split_and!; lia || auto.
    + rewrite (proj2 (Z.ltb_ge _ _) Hpos) in *. simpl. apply (admission_inv_step limit perIP s cs i (mkConn ip (Open false))); simpl; auto; try lia.
Qed.

Lemma run_inv limit perIP st schedule : admission_inv limit perIP st -> admission_inv limit perIP (run st schedule).
Proof.
  unfold run. revert st; induction schedule as [|i l IH]; intros st H; [done|]. simpl. by apply IH, sys_step_inv.
Qed.

Lemma finished_uncounted cs : Forall (fun c => finished c = true) cs -> cnt counted_global cs = 0.
Proof.
  intros H. apply cnt_zero. eapply Forall_impl; [exact H|]. intros [ip []]; done.
Qed.

(** No connection in the middle of an admission or a release. *)
Definition settled (c : conn) : bool :=
  match c_phase c with Start | Open _ => true | _ => finished c end.

Lemma settled_active cs : Forall (fun c => settled c = true) cs -> cnt counted_global cs = cnt serving cs.
Proof.
  unfold cnt. induction 1 as [|[ip p] cs Hc HF IH]; [done|]. simpl. rewrite IH. f_equal. by destruct p.
Qed.

(** Admission without contention is exact. *)
Lemma admit_uncontended limit perIP s cs i ip :
  admission_inv limit perIP (s, cs) -> Forall (fun c => settled c = true) cs -> cs !! i = Some (mkConn ip Start) ->
  exists p s', run (s, cs) [i; i] = (s', <[i := mkConn ip p]> cs) /\
    (serving (mkConn ip p) = true <->
     (limit <= 0 \/ cnt serving cs < limit) /\ (perIP <= 0 \/ cnt (serving_ip ip) cs < perIP)).
Proof.
  intros [Hl Hp Ha _ _ _ _ Hip] Hset Hi; simpl in *. rewrite settled_active in Ha by done.
  unfold run. simpl. unfold sys_step at 2. simpl. rewrite Hi. simpl. unfold admit_step, acquireGlobalStreamSlot. simpl.
  unfold sys_step.
  destruct (Z.ltb_spec 0 (maxConcurrentStreams s)); [destruct (Z.leb_spec (activeStreams s + 1) (maxConcurrentStreams s))|];
    simpl; rewrite list_lookup_insert_eq by (eapply lookup_lt_Some; eauto); unfold admit_step; simpl.
  2: { eexists _, _. split; [rewrite list_insert_insert_eq; done|]. simpl. split; [done|]. lia. }
  all: unfold acquireIPStreamSlot; simpl.
  all: destruct (Z.leb_spec (maxStreamsPerIP s) 0); [|destruct (Hip ltac:(lia) ip) as (Hc & _); unfold count_ip in *; simpl; destruct (Z.leb_spec (maxStreamsPerIP s) (default 0 (streamsPerIP s !! ip)))];
    simpl; (eexists _, _; split; [rewrite list_insert_insert_eq; done|]); simpl; split; done || lia.
Qed.

(** Every connection ends: its own steps bring it to an end state whatever the
    others do in between, in at most four of them. *)
Definition steps_left (p : phase) : nat :=
  match p with
  | Start => 4 | GlobalHeld => 3 | GlobalOver | IPOver | Open _ => 2
  | GlobalRefused | IPRefused | Closing => 1 | Refused503 | Refused429 | Closed => 0
  end.

Lemma admit_step_progress s c :
  (steps_left (admit_step s c).2 <= pred (steps_left (c_phase c)))%nat /\
  (steps_left (c_phase c) = 0%nat <-> finished c = true).
Proof.
  unfold admit_step, finished, acquireGlobalStreamSlot, acquireIPStreamSlot. destruct c as [ip p]; simpl.
  split; [|by destruct p]. destruct p; simpl; repeat case_if; simpl; lia.
Qed.

(** C34: under every interleaving of any number of connections being admitted
    and released, at most [maxConcurrentStreams] streams are served at once
    and at most [maxStreamsPerIP] per client, the per-client count is exactly
    the client's streams being served, and once every connection has ended no
    slot is leaked: the global counter is back to zero, no client key is left
    in the map, and every refusal was counted. *)
Theorem admission_caps limit perIP ips schedule :
  let '(s, cs) := run (fresh limit perIP, arrivals ips) schedule in
  (0 < limit -> cnt serving cs <= limit) /\
  (0 < perIP -> forall ip, ActiveStreamsForIP s ip = cnt (serving_ip ip) cs /\ cnt (serving_ip ip) cs <= perIP) /\
  StreamsRejected s = cnt refused cs /\
  (forallb finished cs = true -> activeStreams s = 0 /\ streamsPerIP s = ∅).
Proof.
  pose proof (run_inv _ _ _ schedule (admission_inv_init limit perIP ips)) as H.
  destruct (run (fresh limit perIP, arrivals ips) schedule) as [s cs]. destruct H as [_ _ Ha Hh Hr Hoff _ Hip]; simpl in *.
  split_and!.
  - intros Hl. specialize (Hh Hl). assert (cnt serving cs <= cnt holds_global cs); [|lia].
    apply cnt_mono. intros [? []]; done.
  - intros Hp ip. destruct (Hip Hp ip) as (? & ? & _). auto.
  - done.
  - intros Hf. assert (Forall (fun c => finished c = true) cs) as HF.
    { apply Forall_forall. intros c Hc. rewrite forallb_forall in Hf. apply Hf. by apply list_elem_of_In. }
    rewrite Ha, finished_uncounted by done. split; [done|]. destruct (Z.lt_ge_cases 0 perIP) as [Hp|Hp]; [|auto].
    apply map_empty. intros ip. destruct (Hip Hp ip) as (Hc & _ & Hn).
    rewrite cnt_zero in Hc; [|eapply Forall_impl; [exact HF|]; intros [? []]; done].
    unfold count_ip in Hc. destruct (streamsPerIP s !! ip) as [n|]; simpl in Hc; [congruence|done].
Qed.
