(* ===== verification/Hub.v ===== *)
(** * The publish/subscribe hub (internal/api/streaming/hub.go)

    Topics with their replay rings and subscriber sets, the subscriber queues,
    and the reaper that bounds the topic map. Topic states and subscriptions
    are held by pointer in the code, so they live in stores indexed by a
    location: the reaper detaches a state from [topics] and marks it evicted,
    and a goroutine that looked it up before still holds its location.

    Each definition down to [close_sub] is one atomic section of the code (a
    section under the hub's lock, a topic's lock or a subscription's lock);
    [Publish], [Subscribe], [dropSubscriber] compose them. Clock readings are
    arguments. Go map iteration order is an argument where it matters. *)

From S2P Require Import Prelude GoLib Stream.

Definition DefaultBufferSize : nat := 256.
Definition subscriberQueueDepth : nat := 32.
Definition maxSplitReplayTopics : nat := 8.
Definition DefaultTopicIdleTTL : Duration := 15 * Minute.
Definition DefaultMaxTopics : Z := 4096.
Definition topicSweepGrowth : Z := 64.
Definition topicSweepInterval : Duration := 30 * Second.

(** ** State *)

Record topicState := mkTopic {
  t_buffer : option ring;      (** nil until the first publish *)
  t_subs : gset nat;
  t_lastUsed : Time;
  t_evicted : bool
}.

Record subscription := mkSub { s_ch : list Event; s_topics : list string; s_closed : bool }.

Record Hub := mkHub {
  gen : Z;
  bufferSize : nat;
  topics : gmap string nat;          (** name to location of its state *)
  states : gmap nat topicState;
  subs : gmap nat subscription;
  next_loc : nat;
  idleTTL : Duration;
  maxTopics : Z;
  lastSweep : Time;
  sinceSweep : Z;
  ceilingFutile : bool;
  unsubscribed : bool;
  reaped : Z
}.

Definition NewHub (size : Z) (now : Time) : Hub :=
  mkHub 0 (if size <=? 0 then DefaultBufferSize else Z.to_nat size) ∅ ∅ ∅ 0
        DefaultTopicIdleTTL DefaultMaxTopics now 0 false false 0.

(** Field updates. *)
Definition set_gen (h : Hub) g := mkHub g (bufferSize h) (topics h) (states h) (subs h) (next_loc h)
  (idleTTL h) (maxTopics h) (lastSweep h) (sinceSweep h) (ceilingFutile h) (unsubscribed h) (reaped h).
Definition set_topics (h : Hub) m := mkHub (gen h) (bufferSize h) m (states h) (subs h) (next_loc h)
  (idleTTL h) (maxTopics h) (lastSweep h) (sinceSweep h) (ceilingFutile h) (unsubscribed h) (reaped h).
Definition set_state (h : Hub) l t := mkHub (gen h) (bufferSize h) (topics h) (<[l := t]> (states h)) (subs h)
  (next_loc h) (idleTTL h) (maxTopics h) (lastSweep h) (sinceSweep h) (ceilingFutile h) (unsubscribed h) (reaped h).
Definition set_sub (h : Hub) i s := mkHub (gen h) (bufferSize h) (topics h) (states h) (<[i := s]> (subs h))
  (next_loc h) (idleTTL h) (maxTopics h) (lastSweep h) (sinceSweep h) (ceilingFutile h) (unsubscribed h) (reaped h).
Definition set_next_loc (h : Hub) n := mkHub (gen h) (bufferSize h) (topics h) (states h) (subs h) n
  (idleTTL h) (maxTopics h) (lastSweep h) (sinceSweep h) (ceilingFutile h) (unsubscribed h) (reaped h).
Definition set_limits (h : Hub) ttl mx fut := mkHub (gen h) (bufferSize h) (topics h) (states h) (subs h)
  (next_loc h) ttl mx (lastSweep h) (sinceSweep h) fut (unsubscribed h) (reaped h).
Definition set_sweep (h : Hub) last since fut uns rp := mkHub (gen h) (bufferSize h) (topics h) (states h) (subs h)
  (next_loc h) (idleTTL h) (maxTopics h) last since fut uns rp.

Definition SetTopicIdleTTL (h : Hub) (d : Duration) : Hub :=
  set_limits h (if d <=? 0 then DefaultTopicIdleTTL else d) (maxTopics h) (ceilingFutile h).
Definition SetMaxTopics (h : Hub) (n : Z) : Hub :=
  set_limits h (idleTTL h) (if n <=? 0 then DefaultMaxTopics else n) false.

Definition TopicCount (h : Hub) : Z := Z.of_nat (size (topics h)).
Definition TopicsReaped (h : Hub) : Z := reaped h.
Definition BufferedTopicCount (h : Hub) : Z :=
  Z.of_nat (countb (fun kv => match states h !! kv.2 with
                              | Some t => match t_buffer t with Some _ => true | None => false end
                              | None => false
                              end) (map_to_list (topics h))).

(** ** Topic state *)

Definition replayAfter (t : topicState) (lastEventID : string) : list Event :=
  match t_buffer t with None => [] | Some r => snapshotAfter r lastEventID end.
Definition bufferEmpty (t : topicState) : bool :=
  match t_buffer t with None => true | Some r => ring_empty r end.
Definition oldestBufferedID (t : topicState) : string :=
  match t_buffer t with None => "" | Some r => oldestID r end.
Definition hasEvictedBuffered (t : topicState) : bool :=
  match t_buffer t with None => false | Some r => hasEvicted r end.

(** ** The reaper *)

Definition evictLocked (h : Hub) (name : string) : Hub :=
  let h := set_topics h (delete name (topics h)) in
  set_sweep h (lastSweep h) (sinceSweep h) (ceilingFutile h) (unsubscribed h) (reaped h + 1).

Definition mark_evicted (t : topicState) : topicState := mkTopic (t_buffer t) (t_subs t) (t_lastUsed t) true.

(** One topic of the first pass: the hub and the idle candidates so far. *)
Definition sweep_topic (now : Time) (st : Hub * list (string * Time)) (name : string) : Hub * list (string * Time) :=
  let '(h, idle) := st in
  match topics h !! name with
  | None => (h, idle)
  | Some l =>
      match states h !! l with
      | None => (h, idle)
      | Some t =>
          let unused := bool_decide (t_subs t = ∅) in
          let expired := unused && (bufferEmpty t || (idleTTL h <=? time_Sub now (t_lastUsed t))) in
          if expired then (evictLocked (set_state h l (mark_evicted t)) name, idle)
          else if unused then (h, idle ++ [(name, t_lastUsed t)])
          else (h, idle)
      end
  end.

(** One candidate of the second pass, oldest first, while at the ceiling. *)
Definition ceiling_evict (h : Hub) (c : string * Time) : Hub :=
  if Z.of_nat (size (topics h)) <? maxTopics h then h
  else match topics h !! c.1 with
       | None => h
       | Some l =>
           match states h !! l with
           | None => h
           | Some t => if bool_decide (t_subs t = ∅) then evictLocked (set_state h l (mark_evicted t)) c.1 else h
           end
       end.

(** [order] is the iteration order of the topic map; ties of the sort keep it,
    so the order also stands for what an unstable sort makes of them. *)
Definition reapLocked (h : Hub) (now : Time) (order : list string) : Hub :=
  let h := set_sweep h now 0 (ceilingFutile h) false (reaped h) in
  let '(h, idle) := foldl (sweep_topic now) (h, []) order in
  if Z.of_nat (size (topics h)) <? maxTopics h then h
  else foldl ceiling_evict h (isort (fun a b => negb (time_Before b.2 a.2)) idle).

Definition maybeReapLocked (h : Hub) (now : Time) (order : list string) : Hub :=
  let h := set_sweep h (lastSweep h) (sinceSweep h + 1) (ceilingFutile h) (unsubscribed h) (reaped h) in
  let atCeiling := (maxTopics h <=? Z.of_nat (size (topics h))) && (negb (ceilingFutile h) || unsubscribed h) in
  if (sinceSweep h <? topicSweepGrowth) && negb atCeiling && (time_Sub now (lastSweep h) <? topicSweepInterval)
  then h
  else
    let h := reapLocked h now order in
    set_sweep h (lastSweep h) (sinceSweep h) (maxTopics h <=? Z.of_nat (size (topics h))) (unsubscribed h) (reaped h).

(** [None] is ErrTopicCapacity. *)
Definition getOrCreateTopic (h : Hub) (name : string) (bounded : bool) (now : Time) (order : list string)
  : option nat * Hub :=
  match topics h !! name with
  | Some l => (Some l, h)
  | None =>
      let h := maybeReapLocked h now order in
      if bounded && (maxTopics h <=? Z.of_nat (size (topics h))) then (None, h)
      else
        let l := next_loc h in
        let h := set_state h l (mkTopic None ∅ now false) in
        (Some l, set_topics (set_next_loc h (S l)) (<[name := l]> (topics h)))
  end.

(** The locked half of [withTopic]: [None] is an evicted state, on which the
    loop looks the topic up again; otherwise the idle clock is refreshed and
    the body runs. *)
Definition locked {A} (h : Hub) (l : nat) (now : Time) (fn : Hub -> topicState -> A * (Hub * topicState))
  : option (A * Hub) :=
  match states h !! l with
  | None => None
  | Some t =>
      if t_evicted t then None
      else
        let '(a, (h, t)) := fn h (mkTopic (t_buffer t) (t_subs t) now (t_evicted t)) in
        Some (a, set_state h l t)
  end.

(** The body of [Publish]: the event with its identifier, and the subscribers
    to send it to. *)
Definition publish_body (eventType data : string) (now : Time) (h : Hub) (t : topicState)
  : (Event * list nat) * (Hub * topicState) :=
  let '(id, g) := Next (wrapu 64 (time_UnixMilli now)) (gen h) in
  let ev := mkEvent id eventType data now 0 in
  let buffer := push (default (newRing (bufferSize h)) (t_buffer t)) ev in
  ((ev, elements (t_subs t)), (set_gen h g, mkTopic (Some buffer) (t_subs t) (t_lastUsed t) (t_evicted t))).

(** [resumeGap], with the clock of [Ahead]. *)
Definition resumeGap (h : Hub) (t : topicState) (lastEventID oldestHeld : string) (now : Time) : bool :=
  if String.eqb lastEventID "" then false
  else
    let evictedPast := negb (String.eqb oldestHeld "") && str_ltb lastEventID oldestHeld && hasEvictedBuffered t in
    evictedPast || Ahead (gen h) (wrapu 64 (time_UnixMilli now)) lastEventID.

(** The body of [Subscribe] for one topic: the replay it contributes, and the
    oldest held identifier when the resume has a gap. *)
Definition subscribe_body (sub : nat) (lastEventID : string) (share : nat) (now : Time) (h : Hub) (t : topicState)
  : (list Event * option string) * (Hub * topicState) :=
  let oldestHeld := oldestBufferedID t in
  let full := replayAfter t lastEventID in
  let trimmed := drop (length full - share) full in
  let gap := if resumeGap h t lastEventID oldestHeld now then Some oldestHeld else None in
  ((trimmed, gap), (h, mkTopic (t_buffer t) ({[sub]} ∪ t_subs t) (t_lastUsed t) (t_evicted t))).

(** ** Subscriptions *)

(** [true]: the queue is full and the caller drops the subscriber. *)
Definition trySend (h : Hub) (i : nat) (ev : Event) : bool * Hub :=
  match subs h !! i with
  | None => (false, h)
  | Some s =>
      if s_closed s then (false, h)
      else if (length (s_ch s) <? subscriberQueueDepth)%nat
           then (false, set_sub h i (mkSub (s_ch s ++ [ev]) (s_topics s) false))
           else (true, h)
  end.

Definition sendReplay (h : Hub) (i : nat) (ev : Event) : bool * Hub :=
  match subs h !! i with
  | None => (false, h)
  | Some s =>
      if s_closed s then (false, h)
      else if (length (s_ch s) <? subscriberQueueDepth)%nat
           then (true, set_sub h i (mkSub (s_ch s ++ [ev]) (s_topics s) false))
           else (false, h)
  end.

(** The consumer's receive. *)
Definition recv (h : Hub) (i : nat) : option Event * Hub :=
  match subs h !! i with
  | Some s => match s_ch s with
              | ev :: rest => (Some ev, set_sub h i (mkSub rest (s_topics s) (s_closed s)))
              | [] => (None, h)
              end
  | None => (None, h)
  end.

Definition close_sub (h : Hub) (i : nat) : bool * Hub :=
  match subs h !! i with
  | None => (false, h)
  | Some s => if s_closed s then (false, h) else (true, set_sub h i (mkSub (s_ch s) (s_topics s) true))
  end.

(** The topic-locked half of [dropSubscriber], on the state its lookup found. *)
Definition drop_section (h : Hub) (l : nat) (i : nat) (now : Time) : bool * Hub :=
  match states h !! l with
  | None => (false, h)
  | Some t =>
      let present := bool_decide (i ∈ t_subs t) in
      let subs' := if present then t_subs t ∖ {[i]} else t_subs t in
      let h := if present && bool_decide (subs' = ∅)
               then set_sweep h (lastSweep h) (sinceSweep h) (ceilingFutile h) true (reaped h) else h in
      (present, set_state h l (mkTopic (t_buffer t) subs' now (t_evicted t)))
  end.

(** ** Operations

    Each runs its atomic sections in order, with one clock reading; [iter] is
    the iteration order of a Go map. The loop of [withTopic] has fuel, [None]
    when it runs out. *)

Inductive hub_error := ErrTopicCapacity.

Section Operations.
Variable iter : gmap string nat -> list string.

Fixpoint withTopic {A} (fuel : nat) (h : Hub) (name : string) (bounded : bool) (now : Time)
    (fn : Hub -> topicState -> A * (Hub * topicState)) : option (res hub_error A * Hub) :=
  match fuel with
  | O => None
  | S fuel =>
      match getOrCreateTopic h name bounded now (iter (topics h)) with
      | (None, h) => Some (Err ErrTopicCapacity, h)
      | (Some l, h) =>
          match locked h l now fn with
          | None => withTopic fuel h name bounded now fn
          | Some (a, h) => Some (Ok a, h)
          end
      end
  end.

(** Whether this call closed the subscription. *)
Definition dropSubscriber (h : Hub) (topic : string) (sub : nat) (now : Time) : bool * Hub :=
  match topics h !! topic with
  | None => (false, h)
  | Some l =>
      let '(present, h) := drop_section h l sub now in
      if present then close_sub h sub else (false, h)
  end.

Definition deliver (topic : string) (ev : Event) (now : Time) (h : Hub) (s : nat) : Hub :=
  let '(full, h) := trySend h s ev in
  if full then (dropSubscriber h topic s now).2 else h.

Definition Publish (fuel : nat) (h : Hub) (topic eventType data : string) (now : Time) : option (string * Hub) :=
  match withTopic fuel h topic false now (publish_body eventType data now) with
  | Some (Ok (ev, ss), h) => Some (ev_ID ev, foldl (deliver topic ev now) h ss)
  | Some (Err _, h) => Some ("", h)
  | None => None
  end.

(** [json.Marshal] of a string of ASCII text: the escapes of encoding/json. *)
Definition json_escape (c : ascii) : string :=
  let b := byte_of c in
  let bs := String (ascii_of_N 92) in
  if (b =? 34) || (b =? 92) then bs (String c "")
  else if b =? 8 then bs "b" else if b =? 12 then bs "f" else if b =? 10 then bs "n"
  else if b =? 13 then bs "r" else if b =? 9 then bs "t"
  else if (b <? 32) || (b =? 60) || (b =? 62) || (b =? 38) then bs ("u" +:+ hexw 4 b)
  else String c "".

Fixpoint json_chars (s : string) : string :=
  match s with EmptyString => "" | String c s => json_escape c +:+ json_chars s end.

Definition json_string (s : string) : string :=
  String (ascii_of_N 34) (json_chars s +:+ String (ascii_of_N 34) "").

Definition newStreamGapEvent (topic requestedAfter resumedFrom : string) (now : Time) : Event :=
  mkEvent "" EventTypeStreamGap
    ("{" +:+ json_string "topic" +:+ ":" +:+ json_string topic +:+ "," +:+
     json_string "requested_after" +:+ ":" +:+ json_string requestedAfter +:+ "," +:+
     json_string "resumed_from" +:+ ":" +:+ json_string resumedFrom +:+ "}")
    now 0.

(** The share of the remaining replay budget of the next of [left] topics,
    when [total] were asked for. *)
Definition replay_share (total left remaining : nat) : nat :=
  if (total <=? maxSplitReplayTopics)%nat then ((remaining + left - 1) / left)%nat else remaining.

(** The loop of [Subscribe] over the topics still to do: what it collects for
    the queue, or the error. *)
Fixpoint subscribe_loop (fuel : nat) (sub : nat) (lastEventID : string) (now : Time) (total : nat)
    (todo : list string) (h : Hub) (remaining : nat) (merged gaps : list Event)
  : option (res hub_error (list Event * list Event) * Hub) :=
  match todo with
  | [] => Some (Ok (merged, gaps), h)
  | topic :: todo' =>
      let share := replay_share total (length todo) remaining in
      match withTopic fuel h topic true now (subscribe_body sub lastEventID share now) with
      | None => None
      | Some (Err e, h) => Some (Err e, h)
      | Some (Ok (trimmed, gap), h) =>
          let gaps := match gap with
                      | Some oldestHeld => gaps ++ [newStreamGapEvent topic lastEventID oldestHeld now]
                      | None => gaps
                      end in
          subscribe_loop fuel sub lastEventID now total todo' h (remaining - length trimmed) (merged ++ trimmed) gaps
      end
  end.

(** [cancel]. *)
Definition cancel (h : Hub) (ts : list string) (sub : nat) (now : Time) : Hub :=
  foldl (fun h topic => (dropSubscriber h topic sub now).2) h ts.

(** Queue events until one does not fit. *)
Fixpoint send_replays (h : Hub) (sub : nat) (evs : list Event) : Hub :=
  match evs with
  | [] => h
  | ev :: evs => let '(ok, h) := sendReplay h sub ev in if ok then send_replays h sub evs else h
  end.

Definition new_subscription (h : Hub) (ts : list string) : nat * Hub :=
  let sub := next_loc h in (sub, set_sub (set_next_loc h (S sub)) sub (mkSub [] ts false)).

Definition event_leb (a b : Event) : bool := negb (str_ltb (ev_ID b) (ev_ID a)).

Definition Subscribe (fuel : nat) (h : Hub) (ts : list string) (lastEventID : string) (now : Time)
  : option (res hub_error nat * Hub) :=
  let '(sub, h) := new_subscription h ts in
  match subscribe_loop fuel sub lastEventID now (length ts) ts h (subscriberQueueDepth / 2) [] [] with
  | None => None
  | Some (Err e, h) => Some (Err e, cancel h ts sub now)
  | Some (Ok (merged, gaps), h) =>
      let h := send_replays h sub gaps in
      let h := send_replays h sub (isort event_leb merged) in
      Some (Ok sub, h)
  end.

End Operations.

(** ** Interleavings

    One step is one atomic section, by any goroutine, on any location it may
    hold: the parts of the reaper and of the topic map under the hub's lock,
    the topic-locked bodies, the queue operations. The clock stays between
    1970 and the year 6429. *)

Definition topic_insert (h : Hub) (name : string) (now : Time) : Hub :=
  let l := next_loc h in
  let h := set_state h l (mkTopic None ∅ now false) in
  set_topics (set_next_loc h (S l)) (<[name := l]> (topics h)).

(** The sections outside the hub's lock. *)
Inductive hub_section (h : Hub) : Hub -> Prop :=
| HPublish l eventType data now a h' :
    0 <= time_UnixMilli now < 2 ^ 47 ->
    locked h l now (publish_body eventType data now) = Some (a, h') -> hub_section h h'
| HSubscribe l sub lastEventID share now a h' :
    is_Some (subs h !! sub) ->
    locked h l now (subscribe_body sub lastEventID share now) = Some (a, h') -> hub_section h h'
| HNew ts : hub_section h (new_subscription h ts).2
| HSend i ev : hub_section h (trySend h i ev).2
| HReplay i ev : hub_section h (sendReplay h i ev).2
| HRecv i : hub_section h (recv h i).2
| HClose i : hub_section h (close_sub h i).2
| HDrop l i now : hub_section h (drop_section h l i now).2.

(** With the parts of what runs under the hub's lock, between which the
    others may run. *)
Inductive hub_step (h : Hub) : Hub -> Prop :=
| HSection h' : hub_section h h' -> hub_step h h'
| HCounters last since fut uns rp : hub_step h (set_sweep h last since fut uns rp)
| HLimits ttl mx fut : hub_step h (set_limits h ttl mx fut)
| HSweep now idle name : hub_step h (sweep_topic now (h, idle) name).1
| HCeiling c : hub_step h (ceiling_evict h c)
| HInsert name now : topics h !! name = None -> hub_step h (topic_insert h name now).

(** The hubs reachable in so many steps from a new one. *)
Inductive reach : nat -> Hub -> Prop :=
| reach_new size now : reach 0 (NewHub size now)
| reach_step n h h' : reach n h -> hub_step h h' -> reach (S n) h'.

(** A ring's identifiers were issued by this hub's generator, in order. *)
Definition issued (g : Z) (evs : list Event) : Prop :=
  exists vs, map ev_ID evs = map (hexw idLen) vs /\ StronglySorted Z.lt vs /\ Forall (fun v => 0 < v <= g) vs.

Definition ring_ok (h : Hub) (r : ring) : Prop :=
  r_cap r = bufferSize h /\ (0 < length (r_events r) <= r_cap r)%nat /\ issued (gen h) (r_events r).

(** What is known of one topic state. *)
Record topic_ok (h : Hub) (l : nat) (t : topicState) : Prop := {
  tk_fresh : (l < next_loc h)%nat;
  tk_attached : t_evicted t = false -> exists name, topics h !! name = Some l;
  tk_detached : t_evicted t = true -> t_subs t = ∅;
  tk_subs : forall i, i ∈ t_subs t -> is_Some (subs h !! i);
  tk_ring : forall r, t_buffer t = Some r -> ring_ok h r
}.

Record hub_inv (h : Hub) : Prop := {
  hi_size : (0 < bufferSize h)%nat;
  hi_gen : 0 <= gen h;
  hi_live : forall name l, topics h !! name = Some l -> exists t, states h !! l = Some t /\ t_evicted t = false;
  hi_inj : forall n1 n2 l, topics h !! n1 = Some l -> topics h !! n2 = Some l -> n1 = n2;
  hi_topic : forall l t, states h !! l = Some t -> topic_ok h l t;
  hi_fresh : forall i s, subs h !! i = Some s -> (i < next_loc h)%nat;
  hi_queue : forall i s, subs h !! i = Some s -> (length (s_ch s) <= subscriberQueueDepth)%nat
}.

(** ** The invariant is kept by every step *)

Lemma issued_mono g g' evs : g <= g' -> issued g evs -> issued g' evs.
Proof.
  intros Hg (vs & He & Hs & HF). exists vs. split_and!; try done.
  eapply Forall_impl; [exact HF|]. simpl. lia.
Qed.

Lemma topic_ok_ext h h' l t :
  (next_loc h <= next_loc h')%nat ->
  (forall name, topics h !! name = Some l -> exists name', topics h' !! name' = Some l) ->
  (forall i, is_Some (subs h !! i) -> is_Some (subs h' !! i)) ->
  bufferSize h' = bufferSize h -> gen h <= gen h' ->
  topic_ok h l t -> topic_ok h' l t.
Proof.
  intros Hn Ht Hs Hb Hg [Hf Ha Hd Hsub Hr]. split; auto; [lia| |].
  - intros He. destruct (Ha He) as [name Hname]. eauto.
  - intros r E. destruct (Hr r E) as (Hc & Hl & Hi). split_and!; [congruence|lia|lia|by eapply issued_mono].
Qed.

Lemma inv_set_state h l t t' :
  hub_inv h -> states h !! l = Some t -> t_evicted t' = t_evicted t -> topic_ok h l t' -> hub_inv (set_state h l t').
Proof.
  intros [] Hl He Hok. split; simpl; auto.
  - intros name l' Hn. destruct (decide (l' = l)) as [->|].
    + exists t'. rewrite lookup_insert_eq, He. split; [done|].
      destruct (hi_live0 _ _ Hn) as (t0 & ? & ?). congruence.
    + rewrite lookup_insert_ne by done. eauto.
  - intros l' t0 [[-> <-]|[Hne H]]%lookup_insert_Some;
      [|apply hi_topic0 in H; destruct H as [H1 H2 H3 H4 H5]; by split].
    destruct Hok as [H1 H2 H3 H4 H5]. by split.
Qed.

Lemma inv_evict h name l t :
  hub_inv h -> topics h !! name = Some l -> states h !! l = Some t -> t_subs t = ∅ ->
  hub_inv (evictLocked (set_state h l (mark_evicted t)) name).
Proof.
  intros [] Hn Hl Hs. split; simpl; auto.
  - intros n l' [Hne H]%lookup_delete_Some. rewrite lookup_insert_ne; [by eauto|].
    intros <-. by apply Hne, (hi_inj0 _ _ l).
  - intros n1 n2 l' [_ H1]%lookup_delete_Some [_ H2]%lookup_delete_Some. eauto.
  - intros l' t0 [[-> <-]|[Hne H]]%lookup_insert_Some.
    + destruct (hi_topic0 _ _ Hl) as [H1 H2 H3 H4 H5]. split; simpl; auto; done.
    + destruct (hi_topic0 _ _ H) as [H1 H2 H3 H4 H5]. split; simpl; auto.
      intros He. destruct (H2 He) as [n Hn']. exists n. rewrite lookup_delete_ne; [done|].
      intros <-. congruence.
Qed.

Lemma inv_insert h name now : hub_inv h -> topics h !! name = None -> hub_inv (topic_insert h name now).
Proof.
  intros [] Hn.
  assert (forall n, topics h !! n <> Some (next_loc h)) as Hfr.
  { intros n H. destruct (hi_live0 _ _ H) as (t & Ht & _). destruct (hi_topic0 _ _ Ht) as [? _ _ _ _]. lia. }
  split; simpl; auto.
  - intros n l' [[<- <-]|[Hne H]]%lookup_insert_Some.
    + exists (mkTopic None ∅ now false). by rewrite lookup_insert_eq.
    + rewrite lookup_insert_ne; [by eauto|]. intros <-. by eapply Hfr.
  - intros n1 n2 l' [[<- <-]|[Hne H]]%lookup_insert_Some [[<- E]|[Hne' H']]%lookup_insert_Some; subst;
      eauto; exfalso; by eapply Hfr.
  - intros l' t0 [[<- <-]|[Hne H]]%lookup_insert_Some.
    + split; simpl; try done; [lia|]. intros _. exists name. by rewrite lookup_insert_eq.
    + apply hi_topic0 in H. eapply topic_ok_ext; [..|exact H]; simpl; auto with lia.
      intros n Hn'. exists n. rewrite lookup_insert_ne; [done|]. intros <-. congruence.
  - intros i s H. apply hi_fresh0 in H. lia.
Qed.

(** A queue operation: the store of subscriptions only grows. *)
Lemma inv_set_sub h i s :
  hub_inv h -> (i < next_loc h)%nat -> (length (s_ch s) <= subscriberQueueDepth)%nat -> hub_inv (set_sub h i s).
Proof.
  intros [] Hi Hq. split; simpl; auto.
  - intros l t H. apply hi_topic0 in H. eapply topic_ok_ext; [..|exact H]; simpl; eauto; try lia.
    intros j [s' Hj]. destruct (decide (j = i)) as [->|]; [rewrite lookup_insert_eq | rewrite lookup_insert_ne by done]; eauto.
  - intros j s' [[<- <-]|[_ H]]%lookup_insert_Some; eauto.
  - intros j s' [[<- <-]|[_ H]]%lookup_insert_Some; eauto.
Qed.

Lemma inv_new h ts : hub_inv h -> hub_inv (new_subscription h ts).2.
Proof.
  intros Hinv. unfold new_subscription. simpl. apply inv_set_sub; simpl; [|lia|unfold subscriberQueueDepth; lia].
  destruct Hinv. split; simpl; auto.
  - intros l t H. apply hi_topic0 in H. eapply topic_ok_ext; [..|exact H]; simpl; eauto; lia.
  - intros i s H. apply hi_fresh0 in H. lia.
Qed.

(** A step that only changes counters and limits. *)
Lemma inv_fields h ttl mx last since fut uns rp :
  hub_inv h -> hub_inv (set_sweep (set_limits h ttl mx fut) last since fut uns rp).
Proof.
  intros []. split; simpl; auto. intros l t H. apply hi_topic0 in H.
  eapply topic_ok_ext; [..|exact H]; simpl; eauto; lia.
Qed.

Lemma inv_set_gen h g : hub_inv h -> gen h <= g -> hub_inv (set_gen h g).
Proof.
  intros [] Hg. split; simpl; auto; [lia|]. intros l t H. apply hi_topic0 in H.
  eapply topic_ok_ext; [..|exact H]; simpl; eauto; lia.
Qed.

Lemma StronglySorted_snoc {A} (R : relation A) l x :
  StronglySorted R l -> Forall (fun y => R y x) l -> StronglySorted R (l ++ [x]).
Proof.
  intros Hs HF. induction Hs as [|y l Hs IH Hy]; simpl; [repeat constructor|].
  inversion HF; subst. constructor; [auto|]. apply Forall_app. split; [done|]. by repeat constructor.
Qed.

Lemma issued_push g v evs ev :
  issued g evs -> 0 <= g < v -> ev_ID ev = hexw idLen v -> issued v (evs ++ [ev]).
Proof.
  intros (vs & He & Hs & HF) Hv Hid. exists (vs ++ [v]). rewrite !map_app, He. simpl. rewrite Hid. split_and!; [done| |].
  - apply StronglySorted_snoc; [done|]. eapply Forall_impl; [exact HF|]. simpl. lia.
  - apply Forall_app. split; [eapply Forall_impl; [exact HF|]; simpl; lia|]. repeat constructor; lia.
Qed.

Lemma issued_drop g n evs : issued g evs -> issued g (drop n evs).
Proof.
  intros (vs & He & Hs & HF). exists (drop n vs). split_and!.
  - by rewrite <- !skipn_map, He.
  - clear -Hs. revert n. induction Hs as [|x l Hs IH Hx]; intros [|n]; simpl; auto using SSorted_nil, SSorted_cons.
  - by apply Forall_drop.
Qed.

Lemma push_ring_ok h (b : option ring) v ev :
  (0 < bufferSize h)%nat -> (forall r, b = Some r -> ring_ok h r) -> 0 <= gen h < v -> ev_ID ev = hexw idLen v ->
  ring_ok (set_gen h v) (push (default (newRing (bufferSize h)) b) ev).
Proof.
  intros Hb Hr Hv Hid. unfold ring_ok. simpl.
  assert (exists r, default (newRing (bufferSize h)) b = r /\ r_cap r = bufferSize h /\
            (length (r_events r) <= r_cap r)%nat /\ issued (gen h) (r_events r)) as (r & -> & Hc & Hl & Hi).
  { destruct b as [r|]; simpl; eexists; (split; [reflexivity|]).
    - destruct (Hr r eq_refl) as (? & ? & ?). split_and!; [done|lia|done].
    - simpl. split_and!; [done|lia|]. exists []. simpl. by repeat constructor. }
  unfold push. destruct (Nat.ltb_spec (length (r_events r)) (r_cap r)); simpl; rewrite length_app; simpl.
  - split_and!; [done|lia|lia|by eapply issued_push].
  - rewrite length_drop. split_and!; [done|lia|lia|]. eapply issued_push; [by apply issued_drop|done|done].
Qed.

Lemma inv_publish h l ty data now a h' :
  hub_inv h -> gen h < 2 ^ 64 - 1 -> 0 <= time_UnixMilli now < 2 ^ 47 ->
  locked h l now (publish_body ty data now) = Some (a, h') ->
  hub_inv h' /\ gen h <= gen h' <= Z.max (gen h + 1) (2 ^ 63).
Proof.
  intros Hinv Hg Hnow Hl. pose proof (hi_gen _ Hinv) as H0.
  unfold locked in Hl. destruct (states h !! l) as [t|] eqn:El; [|done]. destruct (t_evicted t) eqn:He; [done|].
  simpl in Hl. injection Hl as <- <-. simpl.
  rewrite wrapu_small in * by lia. destruct (next_state_bounds (time_UnixMilli now) (gen h)) as [Hlt Hle]; [lia|lia|].
  split; [|lia]. apply (inv_set_state _ l t); [by apply inv_set_gen; [|lia]|done|done|].
  destruct (hi_topic _ Hinv _ _ El) as [H1 H2 H3 H4 H5]. split; simpl; auto; try done.
  intros r [= <-]. apply push_ring_ok; auto; apply Hinv || lia.
Qed.

Lemma inv_subscribe h l sub last share now a h' :
  hub_inv h -> is_Some (subs h !! sub) -> locked h l now (subscribe_body sub last share now) = Some (a, h') ->
  hub_inv h' /\ gen h' = gen h.
Proof.
  intros Hinv Hsub Hl. unfold locked in Hl. destruct (states h !! l) as [t|] eqn:El; [|done].
  destruct (t_evicted t) eqn:He; [done|]. simpl in Hl. injection Hl as <- <-. split; [|done].
  apply (inv_set_state _ l t); auto.
  destruct (hi_topic _ Hinv _ _ El) as [H1 H2 H3 H4 H5]. split; simpl; auto; try done.
  intros i [->%elem_of_singleton|Hi]%elem_of_union; auto.
Qed.

Lemma inv_drop h l i now : hub_inv h -> hub_inv (drop_section h l i now).2 /\ gen (drop_section h l i now).2 = gen h.
Proof.
  intros Hinv. unfold drop_section. destruct (states h !! l) as [t|] eqn:El; [|done].
  destruct (hi_topic _ Hinv _ _ El) as [H1 H2 H3 H4 H5].
  set (subs' := if bool_decide (i ∈ t_subs t) then t_subs t ∖ {[i]} else t_subs t).
  assert (subs' ⊆ t_subs t) as Hsub by (unfold subs'; case_if; set_solver).
  set (h1 := if bool_decide (i ∈ t_subs t) && bool_decide (subs' = ∅)
             then set_sweep h (lastSweep h) (sinceSweep h) (ceilingFutile h) true (reaped h) else h).
  assert (hub_inv h1 /\ topics h1 = topics h /\ subs h1 = subs h /\ next_loc h1 = next_loc h /\
          bufferSize h1 = bufferSize h /\ gen h1 = gen h /\ states h1 = states h) as (Hi & E1 & E2 & E3 & E4 & E5 & E6).
  { unfold h1. case_if; [|done]. split; [|done].
    apply (inv_fields h (idleTTL h) (maxTopics h) (lastSweep h) (sinceSweep h) (ceilingFutile h) true (reaped h) Hinv). }
  simpl. split; [|done]. apply (inv_set_state _ l t); [done|congruence|done|].
  split; simpl; rewrite ?E1, ?E2, ?E3; auto.
  - intros He. specialize (H3 He). set_solver.
  - intros r Hr. unfold ring_ok. rewrite E4, E5. by apply H5.
Qed.

(** The operations on one queue. *)
Lemma inv_queue h i : hub_inv h -> forall h',
  (exists ev, h' = (trySend h i ev).2) \/ (exists ev, h' = (sendReplay h i ev).2) \/
  h' = (recv h i).2 \/ h' = (close_sub h i).2 -> hub_inv h' /\ gen h' = gen h.
Proof.
  intros Hinv h'. destruct (subs h !! i) as [s|] eqn:Ei.
  2: { unfold trySend, sendReplay, recv, close_sub. rewrite Ei. naive_solver. }
  pose proof (hi_queue _ Hinv _ _ Ei) as Hq. pose proof (hi_fresh _ Hinv _ _ Ei) as Hf.
  unfold trySend, sendReplay, recv, close_sub. rewrite Ei.
  intros [[ev ->]|[[ev ->]|[->| ->]]]; repeat case_if; bprop; try done.
  1,2: split; [|done]; apply inv_set_sub; auto; simpl; rewrite length_app; simpl; lia.
  - destruct (s_ch s) eqn:Es; [done|]. split; [|done]. apply inv_set_sub; auto. simpl in *. lia.
  - split; [|done]. by apply inv_set_sub.
Qed.

Lemma hub_section_inv h h' :
  hub_inv h -> gen h < 2 ^ 64 - 1 -> hub_section h h' ->
  hub_inv h' /\ gen h <= gen h' <= Z.max (gen h + 1) (2 ^ 63).
Proof.
  intros Hinv Hg Hs. pose proof (hi_gen _ Hinv) as H0.
  assert (forall h1, hub_inv h1 /\ gen h1 = gen h -> hub_inv h1 /\ gen h <= gen h1 <= Z.max (gen h + 1) (2 ^ 63)) as Hsame
    by (intros h1 [? ?]; split; [done|lia]).
  destruct Hs as [l ty data now a h' Hnow Hl|l sub last share now a h' Hsub Hl|ts|i ev|i ev|i|i|l i now].
  - by eapply inv_publish.
  - apply Hsame. by eapply inv_subscribe.
  - apply Hsame. split; [by apply inv_new|done].
  - apply Hsame, (inv_queue h i Hinv). eauto.
  - apply Hsame, (inv_queue h i Hinv). eauto.
  - apply Hsame, (inv_queue h i Hinv). eauto.
  - apply Hsame, (inv_queue h i Hinv). eauto 6.
  - by apply Hsame, inv_drop.
Qed.

Lemma hub_step_inv h h' :
  hub_inv h -> gen h < 2 ^ 64 - 1 -> hub_step h h' ->
  hub_inv h' /\ gen h <= gen h' <= Z.max (gen h + 1) (2 ^ 63).
Proof.
  intros Hinv Hg Hs. pose proof (hi_gen _ Hinv) as H0.
  assert (forall h1, hub_inv h1 /\ gen h1 = gen h -> hub_inv h1 /\ gen h <= gen h1 <= Z.max (gen h + 1) (2 ^ 63)) as Hsame
    by (intros h1 [? ?]; split; [done|lia]).
  destruct Hs as [h' Hs|last since fut uns rp|ttl mx fut|now idle name|c|name now Hn]; [by apply hub_section_inv|..].
  - apply Hsame. split; [|done]. apply (inv_fields h (idleTTL h) (maxTopics h) last since fut uns rp Hinv).
  - apply Hsame. split; [|done].
    apply (inv_fields h ttl mx (lastSweep h) (sinceSweep h) fut (unsubscribed h) (reaped h) Hinv).
  - apply Hsame. unfold sweep_topic. destruct (topics h !! name) as [l|] eqn:En; [|done].
    destruct (states h !! l) as [t|] eqn:El; [|done]. repeat case_if; try done.
    bprop. simpl. split; [by apply inv_evict|done].
  - apply Hsame. unfold ceiling_evict. case_if; [done|]. destruct (topics h !! c.1) as [l|] eqn:En; [|done].
    destruct (states h !! l) as [t|] eqn:El; [|done]. case_if; [|done].
    bprop. split; [by apply inv_evict|done].
  - apply Hsame. split; [by apply inv_insert|done].
Qed.

Lemma inv_NewHub size now : hub_inv (NewHub size now).
Proof.
  split; simpl; try done. destruct (Z.leb_spec size 0); [unfold DefaultBufferSize|]; lia.
Qed.

Lemma reach_inv n h : reach n h -> Z.of_nat n < 2 ^ 62 -> hub_inv h /\ gen h <= 2 ^ 63 + Z.of_nat n.
Proof.
  induction 1 as [size now|n h h' _ IH Hs]; intros Hn; [split; [apply inv_NewHub|simpl; lia]|].
  destruct IH as [Hinv Hg]; [lia|]. apply hub_step_inv in Hs as [? ?]; [split; [done|lia]|done|lia].
Qed.

(** ** What a reap may change *)

(** Topics may go, states may be marked; a topic that stays keeps its state,
    and a topic with a subscriber stays. *)
Record reaps (h h' : Hub) : Prop := {
  rp_topics : topics h' ⊆ topics h;
  rp_state : forall name l, topics h' !! name = Some l -> states h' !! l = states h !! l;
  rp_kept : forall name l t, topics h !! name = Some l -> states h !! l = Some t -> t_subs t <> ∅ ->
              topics h' !! name = Some l;
  rp_max : maxTopics h' = maxTopics h;
  rp_subs : subs h' = subs h;
  rp_gen : gen h' = gen h /\ bufferSize h' = bufferSize h /\ next_loc h' = next_loc h /\ idleTTL h' = idleTTL h
}.

Lemma reaps_refl h : reaps h h.
Proof. by split. Qed.

Lemma reaps_trans h1 h2 h3 : reaps h1 h2 -> reaps h2 h3 -> reaps h1 h3.
Proof.
  intros [A1 A2 A3 A4 A5 A6] [B1 B2 B3 B4 B5 B6]. split; try congruence.
  - by transitivity (topics h2).
  - intros name l Hn. rewrite (B2 name l Hn). eapply A2, lookup_weaken; eauto.
  - intros name l t Hn Hl Hs. assert (topics h2 !! name = Some l) as H2 by eauto.
    eapply B3; [done| |done]. by rewrite (A2 name l H2).
  - destruct A6 as (? & ? & ? & ?), B6 as (? & ? & ? & ?). split_and!; congruence.
Qed.

Lemma reaps_counters h last since fut uns rp : reaps h (set_sweep h last since fut uns rp).
Proof. by split. Qed.

Lemma reaps_evict h name l t :
  hub_inv h -> topics h !! name = Some l -> states h !! l = Some t -> t_subs t = ∅ ->
  reaps h (evictLocked (set_state h l (mark_evicted t)) name).
Proof.
  intros Hinv Hn Hl Hs. split; simpl; try done.
  - apply delete_subseteq.
  - intros n l' [Hne H]%lookup_delete_Some. rewrite lookup_insert_ne; [done|].
    intros <-. by apply Hne, (hi_inj _ Hinv _ _ l).
  - intros n l' t' H Hl' Hs'. rewrite lookup_delete_ne; [done|]. intros <-. congruence.
Qed.

Lemma ceiling_evict_reaps h c : hub_inv h -> hub_inv (ceiling_evict h c) /\ reaps h (ceiling_evict h c).
Proof.
  intros Hinv. unfold ceiling_evict. case_if; [by auto using reaps_refl|].
  destruct (topics h !! c.1) as [l|] eqn:En; [|by auto using reaps_refl].
  destruct (states h !! l) as [t|] eqn:El; [|by auto using reaps_refl]. case_if; [|by auto using reaps_refl].
  bprop. split; [by apply inv_evict|by apply reaps_evict].
Qed.

Lemma sweep_topic_reaps now h idle name :
  hub_inv h -> hub_inv (sweep_topic now (h, idle) name).1 /\ reaps h (sweep_topic now (h, idle) name).1.
Proof.
  intros Hinv. unfold sweep_topic. destruct (topics h !! name) as [l|] eqn:En; [|by auto using reaps_refl].
  destruct (states h !! l) as [t|] eqn:El; [|by auto using reaps_refl]. repeat case_if; simpl; auto using reaps_refl.
  bprop. split; [by apply inv_evict|by apply reaps_evict].
Qed.

Lemma reaps_size h h' : reaps h h' -> (size (topics h') <= size (topics h))%nat.
Proof. intros []. by apply map_subseteq_size. Qed.

(** A topic has a live subscriber. *)
Definition subscribed (h : Hub) (name : string) : Prop :=
  exists l t, topics h !! name = Some l /\ states h !! l = Some t /\ t_subs t <> ∅.

Lemma sweep_topics_reaps now order h idle :
  hub_inv h ->
  let st := foldl (sweep_topic now) (h, idle) order in
  hub_inv st.1 /\ reaps h st.1 /\
  (forall c, c ∈ idle -> c ∈ st.2) /\
  (forall name, name ∈ order -> is_Some (topics st.1 !! name) -> subscribed st.1 name \/ name ∈ map fst st.2).
Proof.
  revert h idle; induction order as [|name order IH]; intros h idle Hinv; cbn [foldl].
  { split_and!; auto using reaps_refl. intros name Hn. by apply not_elem_of_nil in Hn. }
  pose proof (sweep_topic_reaps now h idle name Hinv) as [Hi Hr].
  assert ((forall c, c ∈ idle -> c ∈ (sweep_topic now (h, idle) name).2) /\
          (is_Some (topics (sweep_topic now (h, idle) name).1 !! name) ->
           subscribed (sweep_topic now (h, idle) name).1 name \/ name ∈ map fst (sweep_topic now (h, idle) name).2)) as [Hidle Hname].
  { unfold sweep_topic. destruct (topics h !! name) as [l|] eqn:En; [|simpl; rewrite En; split; [auto|by intros [? ?]]].
    destruct (hi_live _ Hinv _ _ En) as (t & El & _). rewrite El.
    destruct (bool_decide (t_subs t = ∅)) eqn:Eu; simpl.
    - case_if; simpl; [rewrite lookup_delete_eq; split; [auto|by intros [? ?]]|].
      split; [intros c; rewrite elem_of_app; auto|]. right. rewrite map_app. apply elem_of_app. right. by left.
    - bprop. split; [auto|]. left. exists l, t. auto. }
  destruct (sweep_topic now (h, idle) name) as [h1 idle1]. simpl in Hi, Hr, Hidle, Hname.
  destruct (IH h1 idle1 Hi) as (IHi & IHr & IHd & IHn). split_and!; auto; [by eapply reaps_trans|].
  intros n [->|Hn]%elem_of_cons Hs; [|by auto].
  assert (is_Some (topics h1 !! name)) as Hs1.
  { destruct Hs as [l Hl]. exists l. eapply lookup_weaken; [exact Hl|apply IHr]. }
  destruct (Hname Hs1) as [(l & t & E1 & E2 & E3)|Hin].
  - left. exists l, t. assert (E4 := rp_kept _ _ IHr _ _ _ E1 E2 E3). split_and!; [done| |done].
    by rewrite (rp_state _ _ IHr _ _ E4).
  - right. apply list_elem_of_fmap in Hin as ([n t] & -> & Hin). apply list_elem_of_fmap. eexists. split; [done|]. auto.
Qed.

Lemma ceiling_pass_reaps cs h :
  hub_inv h ->
  let h' := foldl ceiling_evict h cs in
  hub_inv h' /\ reaps h h' /\
  (maxTopics h <= Z.of_nat (size (topics h')) ->
   forall c, c ∈ cs -> is_Some (topics h' !! c.1) -> subscribed h' c.1).
Proof.
  revert h; induction cs as [|c cs IH]; intros h Hinv; cbn [foldl].
  { split_and!; auto using reaps_refl. intros _ c Hc. by apply not_elem_of_nil in Hc. }
  destruct (ceiling_evict_reaps h c Hinv) as [Hi Hr]. destruct (IH _ Hi) as (IHi & IHr & IHc).
  set (h' := foldl ceiling_evict (ceiling_evict h c) cs) in *.
  split_and!; auto; [by eapply reaps_trans|]. intros Hmax c' [->|Hc]%elem_of_cons [l Hl].
  2: { apply IHc; eauto. by rewrite (rp_max _ _ Hr). }
  assert (topics (ceiling_evict h c) !! c.1 = Some l) as Hl1 by (eapply lookup_weaken; [exact Hl|apply IHr]).
  assert (topics h !! c.1 = Some l) as Hl0 by (eapply lookup_weaken; [exact Hl1|apply Hr]).
  destruct (hi_live _ Hinv _ _ Hl0) as (t & El & _).
  assert (t_subs t <> ∅) as Hs.
  { intros Hs. revert Hl1. unfold ceiling_evict. rewrite (proj2 (Z.ltb_ge _ _)).
    - rewrite Hl0, El, bool_decide_eq_true_2 by done. simpl. by rewrite lookup_delete_eq.
    - pose proof (reaps_size _ _ IHr). pose proof (reaps_size _ _ Hr). lia. }
  exists l, t. split_and!; [done| |done].
  rewrite (rp_state _ _ IHr _ _ Hl). by rewrite (rp_state _ _ Hr _ _ Hl1).
Qed.

Definition names (h : Hub) : list string := map fst (map_to_list (topics h)).

Lemma elem_of_names h name : name ∈ names h <-> is_Some (topics h !! name).
Proof.
  unfold names. split.
  - intros ([n l] & -> & H%elem_of_map_to_list)%list_elem_of_fmap. eauto.
  - intros [l Hl]. apply list_elem_of_fmap. exists (name, l). split; [done|]. by apply elem_of_map_to_list.
Qed.

(** The reaper never drops a subscribed topic, and what it leaves at the
    ceiling is subscribed throughout. *)
Lemma reapLocked_spec h now order :
  hub_inv h -> order ≡ₚ names h ->
  let h' := reapLocked h now order in
  hub_inv h' /\ reaps h h' /\
  (maxTopics h <= Z.of_nat (size (topics h')) -> forall name, is_Some (topics h' !! name) -> subscribed h' name).
Proof.
  intros Hinv Ho. unfold reapLocked.
  set (h0 := set_sweep h now 0 (ceilingFutile h) false (reaped h)).
  assert (hub_inv h0) as Hi0 by apply (inv_fields h (idleTTL h) (maxTopics h) now 0 (ceilingFutile h) false (reaped h) Hinv).
  destruct (sweep_topics_reaps now order h0 [] Hi0) as (Hi1 & Hr1 & _ & Hn1).
  destruct (foldl (sweep_topic now) (h0, []) order) as [h1 idle]. simpl in Hi1, Hr1, Hn1.
  assert (reaps h h1) as Hr by (eapply reaps_trans; [apply reaps_counters|exact Hr1]).
  destruct (Z.ltb_spec (Z.of_nat (size (topics h1))) (maxTopics h1)) as [Hlt|Hge].
  { split_and!; [done|done|]. rewrite (rp_max _ _ Hr) in Hlt. lia. }
  destruct (ceiling_pass_reaps (isort (fun a b => negb (time_Before b.2 a.2)) idle) h1 Hi1) as (Hi2 & Hr2 & Hc2).
  split_and!; [done|by eapply reaps_trans|]. intros Hmax name [l Hl].
  assert (topics h1 !! name = Some l) as Hl1 by (eapply lookup_weaken; [exact Hl|apply Hr2]).
  destruct (Hn1 name) as [(l' & t & E1 & E2 & E3)|Hin]; [| | |apply list_elem_of_fmap in Hin as ([n t] & -> & Hin)].
  - rewrite Ho. apply elem_of_names. exists l. eapply lookup_weaken; [exact Hl1|apply Hr].
  - eauto.
  - simplify_eq. exists l, t. split_and!; [done| |done]. by rewrite (rp_state _ _ Hr2 _ _ Hl).
  - apply (Hc2 ltac:(rewrite (rp_max _ _ Hr); lia) (n, t)); [by apply elem_of_isort|eauto].
Qed.

Lemma maybeReapLocked_reaps h now order :
  hub_inv h -> order ≡ₚ names h -> hub_inv (maybeReapLocked h now order) /\ reaps h (maybeReapLocked h now order).
Proof.
  intros Hinv Ho. unfold maybeReapLocked.
  set (h0 := set_sweep h (lastSweep h) (sinceSweep h + 1) (ceilingFutile h) (unsubscribed h) (reaped h)).
  assert (hub_inv h0) as Hi0 by apply (inv_fields h (idleTTL h) (maxTopics h) (lastSweep h) (sinceSweep h + 1)
    (ceilingFutile h) (unsubscribed h) (reaped h) Hinv).
  case_if; [split; [done|apply reaps_counters]|].
  destruct (reapLocked_spec h0 now order Hi0 Ho) as (Hi1 & Hr1 & _). set (h1 := reapLocked h0 now order) in *.
  split.
  - apply (inv_fields h1 (idleTTL h1) (maxTopics h1) (lastSweep h1) (sinceSweep h1)
      (maxTopics h1 <=? Z.of_nat (size (topics h1))) (unsubscribed h1) (reaped h1) Hi1).
  - eapply reaps_trans; [apply reaps_counters|]. eapply reaps_trans; [exact Hr1|]. apply reaps_counters.
Qed.

(** ** The topic ceiling

    The hub as its operations leave it, a creation with its reap being one
    operation. *)

Inductive hub_op (h : Hub) : Hub -> Prop :=
| OpSection h' : hub_section h h' -> hub_op h h'
| OpCreate name bounded now order :
    order ≡ₚ names h -> hub_op h (getOrCreateTopic h name bounded now order).2
| OpTTL d : hub_op h (SetTopicIdleTTL h d)
| OpMax n : hub_op h (SetMaxTopics h n).

Inductive op_reach : nat -> Hub -> Prop :=
| op_reach_new size now : op_reach 0 (NewHub size now)
| op_reach_step n h h' : op_reach n h -> hub_op h h' -> op_reach (S n) h'.

Definition live_at (h : Hub) (l : nat) : bool :=
  match states h !! l with Some t => negb (bool_decide (t_subs t = ∅)) | None => false end.

(** The topics with a live subscriber. *)
Definition live (h : Hub) : gmap string nat := filter (fun kv => live_at h kv.2 = true) (topics h).

(** The skip of a futile sweep is sound: no unsubscribe since, so the live
    topics still fill the ceiling. *)
Definition futile_ok (h : Hub) : Prop :=
  ceilingFutile h = true -> unsubscribed h = true \/ maxTopics h <= Z.of_nat (size (live h)).

Lemma live_mono h h' :
  (forall name l, topics h !! name = Some l -> live_at h l = true -> topics h' !! name = Some l /\ live_at h' l = true) ->
  (size (live h) <= size (live h'))%nat.
Proof.
  intros H. apply map_subseteq_size, map_subseteq_spec. intros name l [H1 H2]%map_lookup_filter_Some.
  apply map_lookup_filter_Some. simpl in *. auto.
Qed.

Lemma live_at_true h l t : states h !! l = Some t -> live_at h l = true <-> t_subs t <> ∅.
Proof. intros E. unfold live_at. rewrite E. rewrite negb_true_iff, bool_decide_eq_false. done. Qed.

Lemma reaps_live h h' : hub_inv h -> reaps h h' -> (size (live h) <= size (live h'))%nat.
Proof.
  intros Hinv Hr. apply live_mono. intros name l Hn Hl. destruct (hi_live _ Hinv _ _ Hn) as (t & Ht & _).
  rewrite (live_at_true _ _ _ Ht) in Hl. assert (Hn' := rp_kept _ _ Hr _ _ _ Hn Ht Hl). split; [done|].
  rewrite live_at_true; [exact Hl|]. by rewrite (rp_state _ _ Hr _ _ Hn').
Qed.

Lemma all_subscribed_live h :
  (forall name, is_Some (topics h !! name) -> subscribed h name) -> size (live h) = size (topics h).
Proof.
  intros H. unfold live. f_equal. apply map_filter_id. intros name l Hl. simpl.
  destruct (H name) as (l' & t & E1 & E2 & E3); [eauto|]. simplify_eq. by apply (live_at_true _ _ t).
Qed.

Lemma live_at_ext h h' l : states h' = states h -> live_at h' l = live_at h l.
Proof. intros E. unfold live_at. by rewrite E. Qed.

Lemma maybeReapLocked_futile h now order :
  hub_inv h -> order ≡ₚ names h -> futile_ok h ->
  let h' := maybeReapLocked h now order in
  futile_ok h' /\
  (maxTopics h <= Z.of_nat (size (topics h')) -> maxTopics h <= Z.of_nat (size (live h'))).
Proof.
  intros Hinv Ho Hf. unfold maybeReapLocked.
  set (h0 := set_sweep h (lastSweep h) (sinceSweep h + 1) (ceilingFutile h) (unsubscribed h) (reaped h)).
  assert (hub_inv h0) as Hi0 by apply (inv_fields h (idleTTL h) (maxTopics h) (lastSweep h) (sinceSweep h + 1)
    (ceilingFutile h) (unsubscribed h) (reaped h) Hinv).
  case_if.
  - split; [exact Hf|]. intros Hmax. bprop. subst h0. simpl in *.
    apply andb_false_iff in H1 as [H1|H1]; [bprop; lia|]. bprop. destruct (Hf H1) as [?|?]; [congruence|done].
  - destruct (reapLocked_spec h0 now order Hi0 Ho) as (Hi1 & Hr1 & Hs1). set (h1 := reapLocked h0 now order) in *.
    assert (maxTopics h1 = maxTopics h) as Em by apply Hr1.
    assert (maxTopics h <= Z.of_nat (size (topics h1)) -> maxTopics h <= Z.of_nat (size (live h1))) as Hl.
    { intros Hmax. rewrite all_subscribed_live; [done|]. by apply Hs1. }
    split; [|exact Hl]. unfold futile_ok. simpl. intros Hm. bprop. right. rewrite Em in *. by apply Hl.
Qed.

Lemma getOrCreateTopic_inv h name bounded now order :
  hub_inv h -> futile_ok h -> order ≡ₚ names h ->
  let h' := (getOrCreateTopic h name bounded now order).2 in
  hub_inv h' /\ futile_ok h' /\ gen h' = gen h.
Proof.
  intros Hinv Hf Ho. unfold getOrCreateTopic. destruct (topics h !! name) as [l|] eqn:En; [done|].
  destruct (maybeReapLocked_reaps h now order Hinv Ho) as [Hi Hr].
  destruct (maybeReapLocked_futile h now order Hinv Ho Hf) as [Hf' _].
  set (h1 := maybeReapLocked h now order) in *. case_if; simpl; [split_and!; [done|done|apply Hr]|].
  split_and!; [|intros Hc; destruct (Hf' Hc) as [?|Hle]; [by left|right]|apply Hr].
  - apply (inv_insert h1 name now Hi). destruct (topics h1 !! name) as [l|] eqn:E; [|done].
    pose proof (lookup_weaken _ _ _ _ E (rp_topics _ _ Hr)). congruence.
  - etransitivity; [exact Hle|]. apply inj_le, live_mono. intros n l Hn Hl.
    assert (l <> next_loc h1) as Hfr.
    { destruct (hi_live _ Hi _ _ Hn) as (t & Ht & _). destruct (hi_topic _ Hi _ _ Ht) as [? _ _ _ _]. lia. }
    assert (n <> name) as Hne.
    { intros ->. pose proof (lookup_weaken _ _ _ _ Hn (rp_topics _ _ Hr)). congruence. }
    simpl. rewrite lookup_insert_ne by done. split; [done|]. unfold live_at in *. simpl. by rewrite lookup_insert_ne.
Qed.

Lemma futile_mono h h' :
  futile_ok h -> ceilingFutile h' = ceilingFutile h -> maxTopics h' = maxTopics h -> topics h' = topics h ->
  (unsubscribed h = true -> unsubscribed h' = true) ->
  unsubscribed h' = true \/ (forall l, live_at h l = true -> live_at h' l = true) -> futile_ok h'.
Proof.
  intros Hf E1 E2 E3 Hu Hl Hc. rewrite E1 in Hc. destruct (Hf Hc) as [?|Hle]; [by left; auto|].
  destruct Hl as [?|Hl]; [by left|]. right. rewrite E2. etransitivity; [exact Hle|].
  apply inj_le, live_mono. intros name l Hn Hla. rewrite E3. auto.
Qed.

Lemma live_at_set_state h l t t' l' :
  states h !! l = Some t -> (t_subs t <> ∅ -> t_subs t' <> ∅) ->
  live_at h l' = true -> live_at (set_state h l t') l' = true.
Proof.
  intros E Hs. unfold live_at. simpl. destruct (decide (l' = l)) as [->|];
    [rewrite lookup_insert_eq, E | by rewrite lookup_insert_ne].
  rewrite !negb_true_iff, !bool_decide_eq_false. auto.
Qed.

Lemma hub_section_futile h h' : futile_ok h -> hub_section h h' -> futile_ok h'.
Proof.
  intros Hf Hs.
  destruct Hs as [l ty data now a h' Hnow Hl|l sub last share now a h' Hsub Hl|ts|i ev|i ev|i|i|l i now].
  - unfold locked in Hl. destruct (states h !! l) as [t|] eqn:El; [|done]. destruct (t_evicted t); [done|].
    simpl in Hl. injection Hl as <- <-. eapply futile_mono; [exact Hf|done..|]. right. intros l'.
    by apply (live_at_set_state (set_gen h _) l t).
  - unfold locked in Hl. destruct (states h !! l) as [t|] eqn:El; [|done]. destruct (t_evicted t); [done|].
    simpl in Hl. injection Hl as <- <-. eapply futile_mono; [exact Hf|done..|]. right. intros l'.
    apply (live_at_set_state h l t); [done|]. simpl. set_solver.
  - by apply (futile_mono h); auto.
  - unfold trySend. repeat case_match; try done; by apply (futile_mono h); auto.
  - unfold sendReplay. repeat case_match; try done; by apply (futile_mono h); auto.
  - unfold recv. repeat case_match; try done; by apply (futile_mono h); auto.
  - unfold close_sub. repeat case_match; try done; by apply (futile_mono h); auto.
  - unfold drop_section. destruct (states h !! l) as [t|] eqn:El; [|done].
    destruct (bool_decide (i ∈ t_subs t)) eqn:Ei; simpl.
    + destruct (bool_decide (t_subs t ∖ {[i]} = ∅)) eqn:Ee; simpl.
      * apply (futile_mono h); auto.
      * bprop. apply (futile_mono h); auto. right. intros l'. apply (live_at_set_state h l t); done.
    + apply (futile_mono h); auto. right. intros l'. apply (live_at_set_state h l t); done.
Qed.

Lemma op_reach_inv n h :
  op_reach n h -> Z.of_nat n < 2 ^ 62 -> hub_inv h /\ futile_ok h /\ gen h <= 2 ^ 63 + Z.of_nat n.
Proof.
  induction 1 as [size now|n h h' _ IH Hs]; intros Hn; [split_and!; [apply inv_NewHub|done|simpl; lia]|].
  destruct IH as (Hinv & Hf & Hg); [lia|]. pose proof (hi_gen _ Hinv).
  destruct Hs as [h' Hs|name bounded now order Ho|d|m].
  - pose proof (hub_section_futile _ _ Hf Hs). apply hub_section_inv in Hs as [? ?]; [split_and!; [done|done|lia]|done|lia].
  - destruct (getOrCreateTopic_inv h name bounded now order Hinv Hf Ho) as (? & ? & E). split_and!; [done|done|lia].
  - unfold SetTopicIdleTTL. set (d' := if d <=? 0 then DefaultTopicIdleTTL else d). split_and!; [|exact Hf|simpl; lia].
    apply (inv_fields h d' (maxTopics h) (lastSweep h) (sinceSweep h) (ceilingFutile h) (unsubscribed h) (reaped h) Hinv).
  - unfold SetMaxTopics. set (m' := if m <=? 0 then DefaultMaxTopics else m). split_and!; [|done|simpl; lia].
    apply (inv_fields h (idleTTL h) m' (lastSweep h) (sinceSweep h) false (unsubscribed h) (reaped h) Hinv).
Qed.

(** ** Statements *)

Lemma issued_ascending g evs : issued g evs -> g < 2 ^ 64 -> ids_ascending evs.
Proof.
  intros (vs & He & Hs & HF) Hg. assert (Forall (fun e => ev_ID e <> "") evs) as Hne.
  { apply Forall_forall. intros e Hin. assert (ev_ID e ∈ map (hexw idLen) vs) as H
      by (rewrite <- He; apply list_elem_of_fmap; eauto).
    apply list_elem_of_fmap in H as (v & Hv & _). intros E. apply (f_equal String.length) in Hv.
    rewrite hexw_length, E in Hv. done. }
  split; [|done]. clear Hne. revert evs He; induction Hs as [|v vs Hs IH Hv]; intros [|e evs] He; try done; [constructor|].
  inversion HF; subst. simpl in He. injection He as He1 He2. constructor; [auto|].
  apply Forall_forall. intros e' Hin. cbv beta. assert (ev_ID e' ∈ map (hexw idLen) vs) as Hin'
    by (rewrite <- He2; apply list_elem_of_fmap; eauto).
  apply list_elem_of_fmap in Hin' as (v' & E' & Hv'). rewrite E'. rewrite He1. rewrite Forall_forall in Hv, H2.
  specialize (Hv v' Hv'). specialize (H2 v' Hv'). cbv beta in *. unfold idLen.
  rewrite hexw_lt; [by apply Z.ltb_lt| |]; change (16 ^ Z.of_nat 16) with (2 ^ 64); lia.
Qed.

(** C14: under every interleaving of publishes, subscribes, unsubscribes, queue
    operations and the parts of the reaper: a subscriber is never left on a
    state the reaper has detached (so no subscribed topic is ever dropped),
    every topic of the map is attached to exactly one live state, every replay
    ring holds at most [bufferSize] events whose identifiers ascend strictly,
    and no subscriber queue exceeds its depth. *)
Theorem hub_interleaving_safe n h :
  reach n h -> Z.of_nat n < 2 ^ 62 ->
  (forall l t, states h !! l = Some t -> t_subs t <> ∅ ->
     exists name, topics h !! name = Some l /\ forall name', topics h !! name' = Some l -> name' = name) /\
  (forall name l, topics h !! name = Some l -> exists t, states h !! l = Some t /\ t_evicted t = false) /\
  (forall l t r, states h !! l = Some t -> t_buffer t = Some r ->
     (length (r_events r) <= bufferSize h)%nat /\ ids_ascending (r_events r)) /\
  (forall i s, subs h !! i = Some s -> (length (s_ch s) <= subscriberQueueDepth)%nat).
Proof.
  intros Hr Hn. destruct (reach_inv n h Hr Hn) as [Hinv Hg]. split_and!.
  - intros l t Hl Hs. destruct (hi_topic _ Hinv _ _ Hl) as [_ Ha Hd _ _].
    destruct (t_evicted t); [by specialize (Hd eq_refl)|]. destruct (Ha eq_refl) as [name Hname].
    exists name. split; [done|]. intros name' Hname'. by apply (hi_inj _ Hinv _ _ l).
  - apply Hinv.
  - intros l t r Hl Hb. destruct (hi_topic _ Hinv _ _ Hl) as [_ _ _ _ Hring].
    destruct (Hring r Hb) as (Hc & Hlen & Hi). split; [lia|]. eapply issued_ascending; [exact Hi|lia].
  - apply Hinv.
Qed.

Lemma hub_interleaving_safe_witness :
  exists h, reach 3 h /\ topics h !! "t" = Some 0%nat /\
    (forall l t, states h !! l = Some t -> t_subs t <> ∅ -> exists name, topics h !! name = Some l).
Proof.
  set (h0 := NewHub 2 0). set (h1 := topic_insert h0 "t" 0). set (h2 := (new_subscription h1 ["t"]).2).
  destruct (locked h2 0 0 (subscribe_body 1 "" 16 0)) as [[a h3]|] eqn:E; [|vm_compute in E; discriminate E].
  assert (reach 3 h3) as Hr.
  { eapply reach_step; [eapply reach_step; [eapply reach_step; [apply (reach_new 2 0)|]|]|].
    - by apply (HInsert h0 "t" 0).
    - apply HSection, (HNew h1 ["t"]).
    - apply HSection. eapply HSubscribe; [|exact E]. vm_compute. eauto. }
  exists h3. split; [done|]. split; [vm_compute in E; injection E as _ <-; vm_compute; reflexivity|].
  intros l t Hl Hs. destruct (hub_interleaving_safe 3 h3 Hr ltac:(vm_compute; reflexivity)) as [H _].
  destruct (H l t Hl Hs) as (name & ? & _). eauto.
Defined.

(** A subscription cannot grow the topic map past its ceiling: the topic
    it needs is created within [maxTopics], or refused; a refusal means that
    topics with a live subscriber alone fill the ceiling (also when the sweep
    was skipped as futile); either way no topic with a subscriber is dropped
    or changed. *)
Theorem topic_ceiling n h name now order :
  op_reach n h -> Z.of_nat n < 2 ^ 62 -> order ≡ₚ names h -> topics h !! name = None ->
  let '(r, h') := getOrCreateTopic h name true now order in
  match r with
  | Some l => topics h' !! name = Some l /\ TopicCount h' <= maxTopics h
  | None => topics h' !! name = None /\ maxTopics h <= Z.of_nat (size (live h'))
  end /\
  (forall name' l t, topics h !! name' = Some l -> states h !! l = Some t -> t_subs t <> ∅ ->
     topics h' !! name' = Some l /\ states h' !! l = Some t).
Proof.
  intros Hr Hn Ho Hname. destruct (op_reach_inv n h Hr Hn) as (Hinv & Hf & _). unfold getOrCreateTopic. rewrite Hname.
  destruct (maybeReapLocked_reaps h now order Hinv Ho) as [Hi Hrp].
  destruct (maybeReapLocked_futile h now order Hinv Ho Hf) as [_ Hlive].
  set (h1 := maybeReapLocked h now order) in *. assert (maxTopics h1 = maxTopics h) as Em by apply Hrp.
  assert (topics h1 !! name = None) as Hn1.
  { destruct (topics h1 !! name) as [l|] eqn:E; [|done]. pose proof (lookup_weaken _ _ _ _ E (rp_topics _ _ Hrp)). congruence. }
  assert (forall name' l t, topics h !! name' = Some l -> states h !! l = Some t -> t_subs t <> ∅ ->
            topics h1 !! name' = Some l /\ states h1 !! l = Some t) as Hkept.
  { intros name' l t H1 H2 H3. assert (H4 := rp_kept _ _ Hrp _ _ _ H1 H2 H3). split; [done|].
    by rewrite (rp_state _ _ Hrp _ _ H4). }
  rewrite Em. destruct (Z.leb_spec (maxTopics h) (Z.of_nat (size (topics h1)))) as [Hge|Hlt]; simpl.
  - split; [auto|done].
  - split.
    + rewrite lookup_insert_eq. split; [done|]. unfold TopicCount. simpl. rewrite map_size_insert_None by done. lia.
    + intros name' l t H1 H2 H3. destruct (Hkept name' l t H1 H2 H3) as [H4 H5].
      rewrite lookup_insert_ne by congruence. split; [done|]. rewrite lookup_insert_ne; [done|].
      intros <-. destruct (hi_topic _ Hi _ _ H5) as [? _ _ _ _]. lia.
Qed.

Lemma topic_ceiling_witness :
  let h := SetMaxTopics (NewHub 2 0) 1 in
  op_reach 1 h /\
  (let '(r, h') := getOrCreateTopic h "t" true 0 [] in r = Some 0%nat /\ TopicCount h' <= 1).
Proof.
  intros h. assert (op_reach 1 h) as Hr by (eapply op_reach_step; [apply (op_reach_new 2 0)|apply (OpMax _ 1)]).
  split; [done|]. pose proof (topic_ceiling 1 h "t" 0 [] Hr ltac:(vm_compute; reflexivity) ltac:(reflexivity) ltac:(reflexivity)) as H.
  destruct (getOrCreateTopic h "t" true 0 []) as [r h'] eqn:E.
  assert (r = Some 0%nat) as -> by (vm_compute in E; injection E as <- _; reflexivity).
  split; [reflexivity|]. apply H.
Defined.

(** ** Operations in sequence *)

(** A subscriber is only on attached states. *)
Lemma registered_attached h l t i :
  hub_inv h -> states h !! l = Some t -> i ∈ t_subs t -> exists name, topics h !! name = Some l.
Proof.
  intros Hinv Hl Hi. destruct (hi_topic _ Hinv _ _ Hl) as [_ Ha Hd _ _].
  destruct (t_evicted t); [rewrite Hd in Hi by done; set_solver|auto].
Qed.

(** Where a subscription is registered. *)
Definition on_topic (h : Hub) (i : nat) (name : string) : Prop :=
  exists l t, topics h !! name = Some l /\ states h !! l = Some t /\ i ∈ t_subs t.

Lemma reaps_on_topic h h' i name :
  hub_inv h -> reaps h h' -> on_topic h' i name <-> on_topic h i name.
Proof.
  intros Hinv Hr. split; intros (l & t & H1 & H2 & H3); exists l, t.
  - split_and!; [|by rewrite <- (rp_state _ _ Hr _ _ H1)|done]. eapply lookup_weaken; [exact H1|apply Hr].
  - assert (H4 := rp_kept _ _ Hr _ _ _ H1 H2 ltac:(set_solver)).
    split_and!; [done|by rewrite (rp_state _ _ Hr _ _ H4)|done].
Qed.

Section Sequential.
Variable iter : gmap string nat -> list string.
Hypothesis iter_perm : forall m, iter m ≡ₚ map fst (map_to_list m).

(** The state a lookup or a creation hands to its caller. *)
Lemma getOrCreateTopic_spec h name bounded now r h' :
  hub_inv h -> getOrCreateTopic h name bounded now (iter (topics h)) = (r, h') ->
  hub_inv h' /\ subs h' = subs h /\ gen h' = gen h /\
  (forall i n, on_topic h' i n <-> on_topic h i n) /\
  match r with
  | None => bounded = true /\ topics h !! name = None
  | Some l => topics h' !! name = Some l /\
      exists t, states h' !! l = Some t /\ t_evicted t = false /\
        match topics h !! name with Some l0 => l0 = l /\ states h !! l = Some t | None => t = mkTopic None ∅ now false end
  end.
Proof.
  intros Hinv H. unfold getOrCreateTopic in H. destruct (topics h !! name) as [l|] eqn:En.
  { injection H as <- <-. destruct (hi_live _ Hinv _ _ En) as (t & Ht & He). split_and!; try done. eauto 6. }
  destruct (maybeReapLocked_reaps h now (iter (topics h)) Hinv (iter_perm _)) as [Hi Hr].
  set (h1 := maybeReapLocked h now (iter (topics h))) in *.
  destruct (bounded && _) eqn:Eb; injection H as <- <-.
  { apply andb_prop in Eb as [-> _]. split_and!; try done; try apply Hr. intros. by apply reaps_on_topic. }
  assert (topics h1 !! name = None) as Hn1.
  { destruct (topics h1 !! name) as [l|] eqn:E; [|done]. pose proof (lookup_weaken _ _ _ _ E (rp_topics _ _ Hr)). congruence. }
  refine (conj (inv_insert h1 name now Hi Hn1) (conj _ (conj _ (conj _ _)))); [apply Hr|apply Hr| |].
  - intros i n. rewrite <- (reaps_on_topic h h1 i n Hinv Hr). unfold on_topic. simpl.
    split; intros (l & t & H1 & H2 & H3).
    + apply lookup_insert_Some in H2 as [[<- <-]|[Hne H2]]; [simpl in H3; set_solver|].
      apply lookup_insert_Some in H1 as [[<- <-]|[Hne' H1]]; [done|]. eauto 6.
    + exists l, t. rewrite lookup_insert_ne by congruence. split; [done|]. split; [|done].
      rewrite lookup_insert_ne; [done|]. intros <-. destruct (hi_topic _ Hi _ _ H2) as [? _ _ _ _]. lia.
  - simpl. rewrite !lookup_insert_eq. eauto 6.
Qed.

(** One turn of the loop is enough: the state it locks is not evicted. *)
Lemma withTopic_spec {A} f h name bounded now (fn : Hub -> topicState -> A * (Hub * topicState)) :
  hub_inv h ->
  exists r h1, getOrCreateTopic h name bounded now (iter (topics h)) = (r, h1) /\
  withTopic iter (S f) h name bounded now fn =
  match r with
  | None => Some (Err ErrTopicCapacity, h1)
  | Some l => match states h1 !! l with
              | None => None
              | Some t => let '(a, (h2, t2)) := fn h1 (mkTopic (t_buffer t) (t_subs t) now false) in
                          Some (Ok a, set_state h2 l t2)
              end
  end.
Proof.
  intros Hinv. destruct (getOrCreateTopic h name bounded now (iter (topics h))) as [r h1] eqn:E.
  exists r, h1. split; [done|]. cbn [withTopic]. rewrite E.
  destruct (getOrCreateTopic_spec _ _ _ _ _ _ Hinv E) as (_ & _ & _ & _ & Hr). destruct r as [l|]; [|done].
  destruct Hr as (_ & t & Ht & He & _). unfold locked. rewrite Ht, He.
  by destruct (fn h1 (mkTopic (t_buffer t) (t_subs t) now false)) as [a [h2 t2]].
Qed.

(** One topic of [Subscribe]. *)
Lemma subscribe_topic f h topic sub last share now :
  hub_inv h -> is_Some (subs h !! sub) ->
  exists r h', withTopic iter (S f) h topic true now (subscribe_body sub last share now) = Some (r, h') /\
    hub_inv h' /\ subs h' = subs h /\ gen h' = gen h /\
    match r with
    | Err _ => topics h !! topic = None /\ forall i n, on_topic h' i n <-> on_topic h i n
    | Ok (trimmed, gap) =>
        (forall i n, on_topic h' i n <-> on_topic h i n \/ (i = sub /\ n = topic)) /\
        exists t, trimmed = drop (length (replayAfter t last) - share) (replayAfter t last) /\
          gap = (if resumeGap h t last (oldestBufferedID t) now then Some (oldestBufferedID t) else None) /\
          (forall l0 t0, topics h !! topic = Some l0 -> states h !! l0 = Some t0 -> t_buffer t = t_buffer t0)
    end.
Proof.
  intros Hinv Hsub.
  destruct (withTopic_spec f h topic true now (subscribe_body sub last share now) Hinv) as (r & h1 & E & ->).
  destruct (getOrCreateTopic_spec _ _ _ _ _ _ Hinv E) as (Hi & Es & Eg & Hon & Hr). destruct r as [l|].
  2: { exists (Err ErrTopicCapacity), h1. naive_solver. }
  destruct Hr as (Hn & t & Ht & He & Hold). rewrite Ht.
  exists (Ok (subscribe_body sub last share now h1 (mkTopic (t_buffer t) (t_subs t) now false)).1).
  eexists. split; [reflexivity|]. simpl. split; [|split; [done|split; [done|split]]].
  - destruct (hi_topic _ Hi _ _ Ht) as [H1 H2 H3 H4 H5].
    apply (inv_set_state h1 l t); [done|done|done|]. split; simpl; auto; [done|].
    intros i [->%elem_of_singleton|Hin]%elem_of_union; [by rewrite Es|auto].
  - intros i n. rewrite <- Hon. unfold on_topic. simpl. split.
    + intros (l' & t' & H1 & H2 & H3). apply lookup_insert_Some in H2 as [[<- <-]|[Hne H2]]; [|eauto 6].
      simpl in H3. apply elem_of_union in H3 as [->%elem_of_singleton|H3]; [|eauto 6].
      right. split; [done|]. by apply (hi_inj _ Hi _ _ l).
    + intros [(l' & t' & H1 & H2 & H3)|[-> ->]].
      * destruct (decide (l' = l)) as [->|Hne].
        -- exists l, (mkTopic (t_buffer t) ({[sub]} ∪ t_subs t) now false). rewrite lookup_insert_eq. simplify_eq.
           split_and!; [done|done|]. simpl. set_solver.
        -- exists l', t'. by rewrite lookup_insert_ne.
      * eexists l, _. rewrite lookup_insert_eq. split_and!; [done|done|]. simpl. set_solver.
  - exists t. unfold resumeGap. rewrite Eg. split; [done|]. split; [done|]. intros l0 t0 H1 H2. rewrite H1 in Hold.
    destruct Hold as [-> H3]. congruence.
Qed.

Lemma replay_share_le total left remaining : (0 < left)%nat -> (replay_share total left remaining <= remaining)%nat.
Proof.
  intros Hl. unfold replay_share. case_if; [|done]. apply Nat.lt_succ_r, Nat.Div0.div_lt_upper_bound. nia.
Qed.

Definition is_gap (e : Event) : Prop := ev_ID e = "" /\ ev_Type e = EventTypeStreamGap.
Definition after_cursor (last : string) (e : Event) : Prop := str_ltb last (ev_ID e) = true.

Lemma replayAfter_after t last : Forall (after_cursor last) (replayAfter t last).
Proof.
  unfold replayAfter, snapshotAfter. repeat case_match; try constructor. apply Forall_forall.
  intros e [He _]%list_elem_of_filter. done.
Qed.

Lemma subscribe_loop_spec f sub last now total todo h remaining merged gaps :
  hub_inv h -> is_Some (subs h !! sub) -> (length merged + remaining = subscriberQueueDepth / 2)%nat ->
  Forall (after_cursor last) merged -> Forall is_gap gaps ->
  exists r h', subscribe_loop iter (S f) sub last now total todo h remaining merged gaps = Some (r, h') /\
    hub_inv h' /\ subs h' = subs h /\
    (forall n, on_topic h' sub n -> on_topic h sub n \/ n ∈ todo) /\
    match r with
    | Err _ => True
    | Ok (m, g) => (forall n, on_topic h sub n \/ n ∈ todo -> on_topic h' sub n) /\
        (length m <= subscriberQueueDepth / 2)%nat /\ (length g <= length gaps + length todo)%nat /\
        Forall (after_cursor last) m /\ Forall is_gap g
    end.
Proof.
  revert h remaining merged gaps; induction todo as [|topic todo IH]; intros h remaining merged gaps Hinv Hsub Hb Hm Hg.
  { exists (Ok (merged, gaps)), h. split; [done|]. split; [done|]. split; [done|]. split; [auto|].
    split; [intros n [?|Hn%not_elem_of_nil]; done|]. cbn [length]. split_and!; [lia|lia|done|done]. }
  cbn [subscribe_loop]. set (share := replay_share total (length (topic :: todo)) remaining).
  assert (share <= remaining)%nat as Hsh by (apply replay_share_le; simpl; lia).
  destruct (subscribe_topic f h topic sub last share now Hinv Hsub) as (r & h1 & -> & Hi & Es & _ & Hr).
  destruct r as [[trimmed gap]|e].
  2: { exists (Err e), h1. destruct Hr as [_ Hon]. split; [done|]. split; [done|]. split; [done|].
       split; [|done]. intros n Hn. left. by apply Hon. }
  destruct Hr as (Hon & t & Etr & _).
  assert (length trimmed <= remaining)%nat as Htr by (rewrite Etr, length_drop; lia).
  set (gaps' := match gap with Some oldestHeld => _ | None => gaps end).
  assert (length gaps' <= length gaps + 1 /\ Forall is_gap gaps')%nat as [Hgl Hg'].
  { unfold gaps'. destruct gap; [|split; [lia|done]]. rewrite length_app. split; [simpl; lia|]. apply Forall_app. by repeat constructor. }
  destruct (IH h1 (remaining - length trimmed)%nat (merged ++ trimmed) gaps') as (r & h' & -> & Hi' & Es' & Hon' & Hr'); [done| | | |done|].
  - by rewrite Es.
  - rewrite length_app. lia.
  - apply Forall_app. split; [done|]. rewrite Etr. apply Forall_drop, replayAfter_after.
  - exists r, h'. split; [done|]. split; [done|]. split; [congruence|]. split.
    + intros n Hn. destruct (Hon' n Hn) as [[?|[_ ->]]%Hon|?]; [by left|right; left|right; by right].
    + destruct r as [[m g]|]; [|done]. destruct Hr' as (Hall & Hml & Hgl' & Hm' & Hgg). split.
      * intros n [Hn|[->|Hn]%elem_of_cons]; apply Hall; [left; apply Hon; auto|left; apply Hon; auto|by right].
      * cbn [length]. split_and!; [done|lia|done|done].
Qed.

Lemma send_replays_fit evs h sub q ts :
  hub_inv h -> subs h !! sub = Some (mkSub q ts false) -> (length q + length evs <= subscriberQueueDepth)%nat ->
  let h' := send_replays h sub evs in
  hub_inv h' /\ topics h' = topics h /\ states h' = states h /\ subs h' !! sub = Some (mkSub (q ++ evs) ts false).
Proof.
  revert h q; induction evs as [|ev evs IH]; intros h q Hinv Hs Hl; cbn [send_replays].
  { by rewrite app_nil_r. }
  unfold sendReplay. rewrite Hs. cbn [s_closed s_ch s_topics]. cbn [length] in Hl.
  rewrite (proj2 (Nat.ltb_lt _ _)) by lia.
  destruct (IH (set_sub h sub (mkSub (q ++ [ev]) ts false)) (q ++ [ev])) as (H1 & H2 & H3 & H4).
  - apply inv_set_sub; [done|by eapply hi_fresh|]. simpl. rewrite length_app. simpl. lia.
  - simpl. by rewrite lookup_insert_eq.
  - rewrite length_app. simpl. lia.
  - rewrite <- app_assoc in H4. done.
Qed.

Lemma drop_section_spec h l sub now t :
  states h !! l = Some t ->
  let '(present, h') := drop_section h l sub now in
  present = bool_decide (sub ∈ t_subs t) /\ topics h' = topics h /\ subs h' = subs h /\
  states h' = <[l := mkTopic (t_buffer t) (t_subs t ∖ {[sub]}) now (t_evicted t)]> (states h).
Proof.
  intros El. unfold drop_section. rewrite El. destruct (bool_decide (sub ∈ t_subs t)) eqn:Ep; simpl.
  - by destruct (bool_decide (t_subs t ∖ {[sub]} = ∅)).
  - bprop. split_and!; try done. do 3 f_equal. set_solver.
Qed.

(** What dropping a subscriber from a topic changes. *)
Lemma dropSubscriber_spec h topic sub now :
  hub_inv h ->
  let h' := (dropSubscriber h topic sub now).2 in
  hub_inv h' /\ topics h' = topics h /\
  (forall l, t_buffer <$> states h' !! l = t_buffer <$> states h !! l) /\
  (forall j n, on_topic h' j n <-> on_topic h j n /\ ~ (j = sub /\ n = topic)) /\
  (on_topic h sub topic -> forall s, subs h !! sub = Some s -> subs h' = <[sub := mkSub (s_ch s) (s_topics s) true]> (subs h)).
Proof.
  intros Hinv. unfold dropSubscriber. destruct (topics h !! topic) as [l|] eqn:En.
  2: { simpl. assert (forall j, ~ on_topic h j topic) as Hno by (intros j (? & ? & ? & _); congruence).
       split_and!; try done; [|intros H; by apply Hno in H]. naive_solver. }
  destruct (inv_drop h l sub now Hinv) as [Hi _]. destruct (hi_live _ Hinv _ _ En) as (t & El & _).
  pose proof (drop_section_spec h l sub now t El) as Hd.
  destruct (drop_section h l sub now) as [present h1]. simpl in Hi. destruct Hd as (-> & Et & Es & Est).
  assert (forall j n, on_topic h1 j n <-> on_topic h j n /\ ~ (j = sub /\ n = topic)) as Hon.
  { intros j n. unfold on_topic. rewrite Est, Et. split.
    - intros (l' & t' & H1 & H2 & H3). apply lookup_insert_Some in H2 as [[<- <-]|[Hne H2]].
      + simpl in H3. split; [exists l, t|]; set_solver.
      + split; [by eauto|]. intros [_ ->]. congruence.
    - intros [(l' & t' & H1 & H2 & H3) Hne]. destruct (decide (l' = l)) as [->|Hl].
      + eexists l, _. rewrite lookup_insert_eq. split_and!; [done|done|]. simplify_eq. simpl.
        assert (j <> sub) by (intros ->; apply Hne; split; [done|]; by apply (hi_inj _ Hinv _ _ l)). set_solver.
      + exists l', t'. by rewrite lookup_insert_ne. }
  assert (forall l', t_buffer <$> states h1 !! l' = t_buffer <$> states h !! l') as Hb.
  { intros l'. rewrite Est. destruct (decide (l' = l)) as [->|];
      [by rewrite lookup_insert_eq, El | by rewrite lookup_insert_ne]. }
  case_if; bprop; simpl.
  - destruct (inv_queue h1 sub Hi (close_sub h1 sub).2) as [Hi2 _]; [auto|]. split; [done|].
    unfold close_sub, on_topic in *. rewrite Es. destruct (subs h !! sub) as [s|] eqn:Esub; [|naive_solver].
    destruct s as [q ts []]; simpl; (split; [done|]; split; [done|]; split; [done|]); intros _ s [= <-]; simpl; rewrite ?Es; [|done].
    by rewrite insert_id.
  - split; [done|]. split; [done|]. split; [exact Hb|]. split; [exact Hon|].
    intros (l' & t' & H1 & H2 & H3). by simplify_eq.
Qed.

Lemma cancel_spec ts h sub now :
  hub_inv h -> let h' := cancel h ts sub now in
  hub_inv h' /\ (forall n, on_topic h' sub n <-> on_topic h sub n /\ n ∉ ts).
Proof.
  unfold cancel. revert h; induction ts as [|topic ts IH]; intros h Hinv; cbn [foldl].
  { split; [done|]. intros n. set_solver. }
  destruct (dropSubscriber_spec h topic sub now Hinv) as (Hi & _ & _ & Hon & _). destruct (IH _ Hi) as [Hi' Hon'].
  split; [done|]. intros n. rewrite Hon', Hon. set_solver.
Qed.

Lemma new_subscription_spec h ts :
  hub_inv h -> let '(sub, h1) := new_subscription h ts in
  hub_inv h1 /\ subs h1 !! sub = Some (mkSub [] ts false) /\ topics h1 = topics h /\ states h1 = states h /\ gen h1 = gen h /\
  (forall n, ~ on_topic h1 sub n).
Proof.
  intros Hinv. pose proof (inv_new h ts Hinv) as Hi. unfold new_subscription in *. simpl in *.
  rewrite lookup_insert_eq. split_and!; try done. intros n (l & t & H1 & H2 & H3). simpl in *.
  destruct (hi_topic _ Hinv _ _ H2) as [_ _ _ Hs _]. destruct (Hs _ H3) as [s Hs']. apply (hi_fresh _ Hinv) in Hs'. lia.
Qed.

Lemma event_isort_sorted evs : StronglySorted (fun a b => event_leb a b = true) (isort event_leb evs).
Proof.
  apply isort_sorted.
  - intros x y. apply str_leb_total.
  - intros x y z. apply str_leb_trans.
Qed.

Lemma subscribe_one f h1 sub topic last now m g h2 l t :
  hub_inv h1 -> is_Some (subs h1 !! sub) ->
  subscribe_loop iter (S f) sub last now 1 [topic] h1 (subscriberQueueDepth / 2) [] [] = Some (Ok (m, g), h2) ->
  topics h1 !! topic = Some l -> states h1 !! l = Some t ->
  m ≡ₚ drop (length (replayAfter t last) - subscriberQueueDepth / 2) (replayAfter t last).
Proof.
  intros Hi Hs E Hn Hl. cbn [subscribe_loop] in E.
  set (share := replay_share 1 (length [topic]) (subscriberQueueDepth / 2)) in E.
  change share with (subscriberQueueDepth / 2)%nat in E. clear share.
  destruct (subscribe_topic f h1 topic sub last (subscriberQueueDepth / 2) now Hi Hs) as (r & h' & Ew & _ & _ & _ & Hr).
  rewrite Ew in E. destruct r as [[trimmed gap]|]; [|done]. injection E as <- _ _.
  destruct Hr as (_ & t' & -> & _ & Hb). unfold replayAfter. by rewrite (Hb l t Hn Hl).
Qed.

(** A subscription is all or nothing, and a resume leaves room for live
    events: [Subscribe] always returns; when it refuses, the subscription is
    registered on no topic; when it succeeds it is registered on every topic
    it asked for, its queue holds the gap markers and then the replay, at most
    half the queue deep, of events newer than the cursor in identifier order,
    and the next event still fits. On one existing topic the replay is the
    newest events the ring holds after the cursor. *)
Theorem Subscribe_resume f h ts lastEventID now :
  hub_inv h -> (length ts < subscriberQueueDepth / 2)%nat ->
  exists r h', Subscribe iter (S f) h ts lastEventID now = Some (r, h') /\ hub_inv h' /\
  match r with
  | Err _ => forall l t, states h' !! l = Some t -> next_loc h ∉ t_subs t
  | Ok sub =>
      (forall topic, topic ∈ ts -> on_topic h' sub topic) /\
      exists gaps replay, subs h' !! sub = Some (mkSub (gaps ++ replay) ts false) /\
        Forall is_gap gaps /\ Forall (after_cursor lastEventID) replay /\
        StronglySorted (fun a b => event_leb a b = true) replay /\
        (length replay <= subscriberQueueDepth / 2)%nat /\
        (length (gaps ++ replay) < subscriberQueueDepth)%nat /\
        (forall topic l t, ts = [topic] -> topics h !! topic = Some l -> states h !! l = Some t ->
           let full := replayAfter t lastEventID in
           replay ≡ₚ drop (length full - subscriberQueueDepth / 2) full)
  end.
Proof.
  intros Hinv Hlen. unfold Subscribe. pose proof (new_subscription_spec h ts Hinv) as Hnew.
  assert ((new_subscription h ts).1 = next_loc h) as Hid by done.
  destruct (new_subscription h ts) as [sub h1]. simpl in Hid. subst sub.
  destruct Hnew as (Hi1 & Hs1 & Et1 & Est1 & Eg1 & Hoff).
  destruct (subscribe_loop_spec f (next_loc h) lastEventID now (length ts) ts h1 (subscriberQueueDepth / 2) [] [])
    as (r & h2 & E & Hi2 & Es2 & Hon & Hr); [done|by eauto|done|constructor|constructor|].
  rewrite E. destruct r as [[m g]|e].
  - destruct Hr as (Hall & Hml & Hgl & Hm & Hg). simpl in Hgl.
    destruct (send_replays_fit g h2 (next_loc h) [] ts Hi2) as (Hi3 & Et3 & Est3 & Hs3);
      [congruence|unfold subscriberQueueDepth in *; simpl in *; lia|].
    destruct (send_replays_fit (isort event_leb m) _ (next_loc h) g ts Hi3 Hs3) as (Hi4 & Et4 & Est4 & Hs4);
      [rewrite isort_length; unfold subscriberQueueDepth in *; simpl in *; lia|].
    eexists (Ok (next_loc h)), _. split; [reflexivity|]. split; [exact Hi4|]. split.
    { intros topic Hin. unfold on_topic. rewrite Et4, Est4, Et3, Est3. apply Hall. by right. }
    exists g, (isort event_leb m). split_and!; [done|done|by apply Forall_isort|by apply event_isort_sorted| | |].
    + by rewrite isort_length.
    + rewrite length_app, isort_length. unfold subscriberQueueDepth in *. simpl in *. lia.
    + intros topic l t -> Hn Hl. rewrite isort_perm. by apply (subscribe_one f h1 (next_loc h) topic lastEventID now m g h2 l t); auto; congruence.
  - destruct (cancel_spec ts h2 (next_loc h) now Hi2) as [Hi3 Hon3].
    eexists (Err e), _. split; [reflexivity|]. split; [exact Hi3|]. intros l t Hl Hin.
    destruct (registered_attached _ _ _ _ Hi3 Hl Hin) as [name Hname].
    destruct (proj1 (Hon3 name)) as [H1 H2]; [by exists l, t|].
    destruct (Hon name H1) as [H3|H3]; [by apply (Hoff name)|done].
Qed.

(** ** Delivery *)

(** What sending an event to a subscriber leaves of it. *)
Definition sent (ev : Event) (s : subscription) : subscription :=
  if s_closed s then s
  else if (length (s_ch s) <? subscriberQueueDepth)%nat then mkSub (s_ch s ++ [ev]) (s_topics s) false
  else mkSub (s_ch s) (s_topics s) true.

Definition drops (s : subscription) : bool := negb (s_closed s) && (subscriberQueueDepth <=? length (s_ch s))%nat.

Lemma deliver_spec topic ev now h i s :
  hub_inv h -> on_topic h i topic -> subs h !! i = Some s ->
  let h' := deliver topic ev now h i in
  hub_inv h' /\ subs h' = <[i := sent ev s]> (subs h) /\
  topics h' = topics h /\ (forall l, t_buffer <$> states h' !! l = t_buffer <$> states h !! l) /\
  (forall j n, on_topic h' j n <-> on_topic h j n /\ ~ (j = i /\ n = topic /\ drops s = true)).
Proof.
  intros Hinv Hon Hs. destruct (inv_queue h i Hinv (trySend h i ev).2) as [Hi _]; [eauto|].
  unfold deliver, trySend, sent, drops in *. rewrite Hs in *. destruct s as [q ts c]; cbn [s_closed s_ch s_topics negb andb fst snd] in *.
  destruct c; cbn [negb andb] in *.
  { rewrite insert_id by done. naive_solver. }
  destruct (Nat.ltb_spec (length q) subscriberQueueDepth) as [Hlt|Hge]; cbn [snd] in *.
  { rewrite (proj2 (Nat.leb_gt _ _) Hlt). split; [done|]. split; [done|]. split; [done|]. split; [done|]. naive_solver. }
  rewrite (proj2 (Nat.leb_le _ _) Hge).
  destruct (dropSubscriber_spec h topic i now Hinv) as (H1 & H2 & H3 & H4 & H5).
  split; [done|]. split; [apply (H5 Hon _ Hs)|]. split; [done|]. split; [done|]. naive_solver.
Qed.

Lemma deliver_all topic ev now ss h :
  hub_inv h -> NoDup ss -> (forall i, i ∈ ss -> on_topic h i topic) ->
  let h' := foldl (deliver topic ev now) h ss in
  hub_inv h' /\ topics h' = topics h /\ (forall l, t_buffer <$> states h' !! l = t_buffer <$> states h !! l) /\
  (forall i s, subs h !! i = Some s -> subs h' !! i = Some (if bool_decide (i ∈ ss) then sent ev s else s)) /\
  (forall i s n, subs h !! i = Some s ->
     on_topic h' i n <-> on_topic h i n /\ ~ (i ∈ ss /\ n = topic /\ drops s = true)).
Proof.
  revert h; induction ss as [|i ss IH]; intros h Hinv Hnd Hon; cbn [foldl].
  { split; [done|]. split; [done|]. split; [done|]. split; [|set_solver].
    intros i s Hs. rewrite bool_decide_eq_false_2 by apply not_elem_of_nil. done. }
  apply NoDup_cons in Hnd as [Hni Hnd]. assert (on_topic h i topic) as Hi by (apply Hon; left).
  assert (is_Some (subs h !! i)) as [s Hs].
  { destruct Hi as (l & t & _ & Hl & Hin). by apply (tk_subs _ _ _ (hi_topic _ Hinv _ _ Hl)). }
  destruct (deliver_spec topic ev now h i s Hinv Hi Hs) as (D1 & D2 & D3 & D4 & D5).
  destruct (IH (deliver topic ev now h i) D1 Hnd) as (E1 & E2 & E3 & E4 & E5).
  { intros j Hj. apply D5. split; [apply Hon; by right|]. intros [-> _]. done. }
  split; [done|]. split; [congruence|]. split; [intros l; by rewrite E3|]. split.
  - intros j sj Hj. destruct (decide (j = i)) as [->|Hne].
    + simplify_eq. rewrite (E4 i (sent ev s)) by (rewrite D2; apply lookup_insert_eq).
      rewrite bool_decide_eq_false_2, bool_decide_eq_true_2 by (done || left). done.
    + rewrite (E4 j sj) by (by rewrite D2, lookup_insert_ne). rewrite (bool_decide_ext (j ∈ ss) (j ∈ i :: ss)); [done|set_solver].
  - intros j sj n Hj. destruct (decide (j = i)) as [->|Hne].
    + simplify_eq. rewrite (E5 i (sent ev s)) by (rewrite D2; apply lookup_insert_eq). rewrite D5. set_solver.
    + rewrite (E5 j sj) by (by rewrite D2, lookup_insert_ne). rewrite D5. set_solver.
Qed.

Lemma push_last r ev : exists evs, r_events (push r ev) = evs ++ [ev].
Proof. unfold push. case_if; eauto. Qed.

(** A publish reaches every subscriber once: it always returns; the event
    is the newest of its topic's ring under the identifier it returns; a
    subscriber of the topic with room in its queue gets the event at the end
    of it and stays, one that is full is closed and taken off the topic, a
    closed one is left alone; nobody else's queue or registration changes. *)
Theorem Publish_delivers f h topic eventType data now :
  hub_inv h -> gen h < 2 ^ 64 - 1 -> 0 <= time_UnixMilli now < 2 ^ 47 ->
  exists id h', Publish iter (S f) h topic eventType data now = Some (id, h') /\ hub_inv h' /\
    let ev := mkEvent id eventType data now 0 in
    (exists l t r evs, topics h' !! topic = Some l /\ states h' !! l = Some t /\ t_buffer t = Some r /\
       r_events r = evs ++ [ev]) /\
    (forall i s, subs h !! i = Some s ->
       (on_topic h i topic -> subs h' !! i = Some (sent ev s)) /\
       (~ on_topic h i topic -> subs h' !! i = Some s) /\
       (forall n, on_topic h' i n <-> on_topic h i n /\ ~ (n = topic /\ drops s = true))).
Proof.
  intros Hinv Hg Hnow. unfold Publish.
  destruct (withTopic_spec f h topic false now (publish_body eventType data now) Hinv) as (r & h1 & E & ->).
  destruct (getOrCreateTopic_spec _ _ _ _ _ _ Hinv E) as (Hi & Es & Eg & Hon & Hr). destruct r as [l|]; [|by destruct Hr].
  destruct Hr as (Hn & t & Ht & He & _). rewrite Ht. cbn [publish_body Next].
  set (g := next_state _ _). set (ev := mkEvent (hexw idLen g) eventType data now 0).
  set (t2 := mkTopic _ _ _ _). set (h2 := set_state (set_gen h1 g) l t2).
  assert (hub_inv h2) as Hi2.
  { destruct (inv_publish h1 l eventType data now (ev, elements (t_subs t)) h2) as [? _]; [done|lia|done| |done].
    unfold locked. rewrite Ht, He. done. }
  assert (forall i n, on_topic h2 i n <-> on_topic h i n) as Hon2.
  { intros i n. rewrite <- Hon. unfold on_topic, h2. simpl. split; intros (l' & t' & H1 & H2 & H3).
    - apply lookup_insert_Some in H2 as [[<- <-]|[_ H2]]; eauto 6.
    - destruct (decide (l' = l)) as [->|]; [exists l, t2; simplify_eq; by rewrite lookup_insert_eq|].
      exists l', t'. by rewrite lookup_insert_ne. }
  assert (forall i, i ∈ elements (t_subs t) <-> on_topic h i topic) as Hel.
  { intros i. rewrite elem_of_elements, <- Hon. split; [by exists l, t|]. intros (l' & t' & H1 & H2 & H3). by simplify_eq. }
  destruct (deliver_all topic ev now (elements (t_subs t)) h2 Hi2) as (E1 & E2 & E3 & E4 & E5);
    [apply NoDup_elements|intros i Hin; by apply Hon2, Hel|].
  eexists (ev_ID ev), _. split; [reflexivity|]. split; [exact E1|]. simpl. split.
  - specialize (E3 l). unfold h2 in E3 at 2. simpl in E3. rewrite lookup_insert_eq in E3.
    apply fmap_Some in E3 as (t' & Ht' & Hb). destruct (push_last (default (newRing (bufferSize h1)) (t_buffer t)) ev) as [evs Hevs].
    exists l, t', (push (default (newRing (bufferSize h1)) (t_buffer t)) ev), evs. by rewrite E2.
  - intros i s Hs. assert (subs h2 !! i = Some s) as Hs2 by (unfold h2; simpl; by rewrite Es).
    split; [intros Hin%Hel; by rewrite (E4 i s Hs2), bool_decide_eq_true_2|].
    split; [intros Hin; rewrite (E4 i s Hs2), bool_decide_eq_false_2; [done|by rewrite Hel]|].
    intros n. rewrite (E5 i s n Hs2), Hon2, Hel. naive_solver.
Qed.
End Sequential.

Definition map_order (m : gmap string nat) : list string := map fst (map_to_list m).

Lemma Subscribe_resume_witness :
  exists r h', Subscribe map_order 1 (NewHub 2 0) ["t"] "01" 0 = Some (r, h') /\ hub_inv h' /\ r = Ok 0%nat /\
    on_topic h' 0 "t".
Proof.
  destruct (Subscribe_resume map_order (fun m => reflexivity _) 0 (NewHub 2 0) ["t"] "01" 0
              (inv_NewHub 2 0) ltac:(vm_compute; lia)) as (r & h' & E & Hi & H).
  exists r, h'. split; [exact E|]. split; [exact Hi|].
  assert (r = Ok 0%nat) as -> by (vm_compute in E; injection E as <- _; reflexivity).
  split; [reflexivity|]. apply H. left.
Defined.

Lemma Publish_delivers_witness :
  exists id h', Publish map_order 1 (NewHub 2 0) "t" "price_update" "{}" 1700000000000000000 = Some (id, h') /\
    hub_inv h' /\ id = "018bcfe568000000".
Proof.
  destruct (Publish_delivers map_order (fun m => reflexivity _) 0 (NewHub 2 0) "t" "price_update" "{}" 1700000000000000000
              (inv_NewHub 2 0) ltac:(vm_compute; reflexivity) ltac:(vm_compute; split; congruence)) as (id & h' & E & Hi & _).
  exists id, h'. split; [exact E|]. split; [exact Hi|]. vm_compute in E. injection E as <- _. reflexivity.
Defined.

(** A resume after the reaper gave up the topic's buffer is not reported as a
    gap: the topic starts again with an empty ring, although an event after
    the cursor was published and is lost to the client. *)
Lemma reaped_resume_silent :
  let minute := 60000000000 in
  let t0 := 1700000000000000000 in
  match Publish map_order 1 (NewHub 2 t0) "t" "price_update" "a" t0 with
  | Some (id1, h) =>
      match Publish map_order 1 h "t" "price_update" "b" (t0 + minute) with
      | Some (id2, h) =>
          match Subscribe map_order 1 h ["u"] "" (t0 + 20 * minute) with
          | Some (Ok _, h) =>
              match Subscribe map_order 1 h ["t"] id1 (t0 + 20 * minute) with
              | Some (Ok sub, h) => str_ltb id1 id2 = true /\ s_ch <$> subs h !! sub = Some []
              | _ => False
              end
          | _ => False
          end
      | None => False
      end
  | None => False
  end.
Proof. vm_compute. split; reflexivity. Qed.
