(* ===== verification/Confidence.v ===== *)
(** * Confidence of a price
    (internal/aggregate/confidence: factors.go, score.go)

    Seven factors in [0, 1] and their weighted geometric mean, with the
    bootstrap ceiling of a young baseline. The exponential and the logarithm
    of package math are the class [MathLib], whose laws are their documented
    special cases and signs; every other operation is IEEE arithmetic. *)

From S2P Require Import Prelude GoLib Float64 Rounding.
From Stdlib Require Import Floats.SpecFloat.

Class MathLib := {
  math_Exp : float64 -> float64;
  math_Log : float64 -> float64
}.

(** A float in [0, 1], NaN excluded. *)
Definition in01 (f : float64) : bool := f64_le f64_zero f && f64_le f f64_one.

Definition nonpos (f : float64) : bool := f64_le f f64_zero.

Class MathLaws `{MathLib} := {
  Exp_valid x : valid64 (math_Exp x) = true;
  Log_valid x : valid64 (math_Log x) = true;
  Exp_nan x : IsNaN x = true -> IsNaN (math_Exp x) = true;
  Exp_minus_inf : math_Exp (S754_infinity true) = f64_zero;
  Log_unit x : f64_lt f64_zero x = true -> f64_le x f64_one = true -> nonpos (math_Log x) = true
}.

Definition f64_half : float64 := rat_Float64 (1 # 2).

(** ** Factors *)

Definition zScoreSigmoidWidth : float64 := f64_one.
Definition sourceCountInflectionN : float64 := f64_Z 3.
Definition liquidityFloorUSD : float64 := f64_Z 1000.
Definition liquidityCeilingUSD : float64 := f64_Z 1000000.
Definition LiquidityUnmeasured : float64 := f64_Z (-1).
Definition LiquidityUnmeasuredFactor : float64 := f64_half.
Definition crossOracleTolerancePct : float64 := f64_one.
Definition crossOracleHalfLifePct : float64 := f64_Z 4.
Definition triangulationTolerancePct : float64 := f64_Z 2.
Definition triangulationHalfLifePct : float64 := f64_Z 4.
Definition triangulationNeutralFactor : float64 := rat_Float64 (7 # 10).
Definition baselineFullDays : float64 := f64_Z 30.
(** [math.Ln2] as a float64. *)
Definition Ln2 : float64 := S754_finite false 6243314768165359 (-53).

Definition clamp01 (x : float64) : float64 :=
  if IsNaN x then f64_zero
  else if f64_lt x f64_zero then f64_zero
  else if f64_lt f64_one x then f64_one
  else x.

Section Factors.
Context `{MathLib}.

Definition ZScoreFactor (z : float64) : float64 :=
  if IsNaN z || f64_lt z f64_zero then f64_zero
  else if IsInf z then f64_zero
  else clamp01 (f64_div f64_one (f64_add f64_one (math_Exp (f64_div (f64_sub z (f64_Z 5)) zScoreSigmoidWidth)))).

Definition SourceCountFactor (n : Z) : float64 :=
  if n <? 0 then f64_zero
  else clamp01 (f64_div f64_one
         (f64_add f64_one (math_Exp (SFopp (f64_sub (f64_Z n) sourceCountInflectionN))))).

Definition DiversityFactor (classCount : Z) : float64 :=
  if classCount <=? 0 then f64_zero else if classCount =? 1 then f64_half else f64_one.

Definition LiquidityFactor (usdVolume : float64) : float64 :=
  if IsNaN usdVolume then f64_zero
  else if f64_lt usdVolume f64_zero then LiquidityUnmeasuredFactor
  else if f64_le liquidityCeilingUSD usdVolume then f64_one
  else if f64_le usdVolume liquidityFloorUSD then f64_zero
  else clamp01 (f64_div (f64_sub (math_Log usdVolume) (math_Log liquidityFloorUSD))
                        (f64_sub (math_Log liquidityCeilingUSD) (math_Log liquidityFloorUSD))).

(** The shape shared by the two agreement factors. *)
Definition agreement_decay (tolerance halfLife divergencePct : float64) : float64 :=
  let excess := f64_sub divergencePct tolerance in
  clamp01 (math_Exp (f64_div (f64_mul (SFopp excess) Ln2) halfLife)).

Definition CrossOracleFactor (divergencePct : float64) : float64 :=
  if IsNaN divergencePct then f64_zero
  else if f64_lt divergencePct f64_zero then rat_Float64 (7 # 10)
  else if f64_le divergencePct crossOracleTolerancePct then f64_one
  else agreement_decay crossOracleTolerancePct crossOracleHalfLifePct divergencePct.

Definition TriangulationAgreementFactor (divergencePct : float64) : float64 :=
  if IsNaN divergencePct then f64_zero
  else if f64_lt divergencePct f64_zero then triangulationNeutralFactor
  else if f64_le divergencePct triangulationTolerancePct then f64_one
  else agreement_decay triangulationTolerancePct triangulationHalfLifePct divergencePct.

Definition BaselineQualityFactor (daysHistory : float64) : float64 :=
  if IsNaN daysHistory || f64_lt daysHistory f64_zero then f64_half
  else if f64_le baselineFullDays daysHistory then f64_one
  else f64_add f64_half (f64_mul f64_half (f64_div daysHistory baselineFullDays)).
End Factors.

(** ** Score *)

Definition BootstrapConfidenceCap : float64 := f64_half.
(** 30 * 0.95 and 30 * 0.90, constant expressions. *)
Definition BootstrapDensityDays : float64 := rat_Float64 (285 # 10).
Definition BootstrapReengageDensityDays : float64 := f64_Z 27.

Record Inputs := mkInputs {
  inZScore : float64;
  inSourceCount : Z;
  SourceClassCount : Z;
  LiquidityUSD : float64;
  CrossOracleDivergencePct : float64;
  CrossOracleAgreementCount : Z;
  inTriangulationChecked : bool;
  inTriangulationDivergencePct : float64;
  inBaselineAgeDays : float64;
  BootstrapReleased : bool
}.

Record Factors := mkFactors {
  fZScore : float64;
  fSourceCount : float64;
  fDiversity : float64;
  fLiquidity : float64;
  fCrossOracle : float64;
  fTriangulationAgreement : float64;
  fBaselineQuality : float64;
  CrossOracleChecked : bool;
  LiquidityMeasured : bool;
  CrossOracleAgreement : Z;
  TriangulationChecked : bool;
  BaselineAgeDays : float64;
  BootstrapCapped : bool
}.

Record Weights := mkWeights {
  wZScore : float64;
  wSourceCount : float64;
  wDiversity : float64;
  wLiquidity : float64;
  wCrossOracle : float64;
  wTriangulationAgreement : float64;
  wBaselineQuality : float64
}.

Definition DefaultWeights : Weights :=
  mkWeights f64_one f64_one f64_one f64_one f64_one f64_half f64_one.

Record Score := mkScore { Confidence : float64; scFactors : Factors }.

Definition triangulationInput (i : Inputs) : float64 :=
  if negb (inTriangulationChecked i) then f64_Z (-1) else inTriangulationDivergencePct i.

Definition bootstrapCapInForce (ageDays : float64) (released : bool) : bool :=
  if IsNaN ageDays then false
  else if released then f64_lt ageDays BootstrapReengageDensityDays
  else f64_lt ageDays BootstrapDensityDays.

Definition applyBootstrapCap (c ageDays : float64) (released : bool) : float64 :=
  if negb (bootstrapCapInForce ageDays released) then c
  else if f64_lt BootstrapConfidenceCap c then BootstrapConfidenceCap else c.

Definition servedBaselineAgeDays (ageDays : float64) : float64 :=
  if IsNaN ageDays || IsInf ageDays then f64_Z (-1) else ageDays.

(** [x >= 0 && !math.IsNaN(x)]. *)
Definition measured (x : float64) : bool := f64_le f64_zero x && negb (IsNaN x).

Section Compute.
Context `{MathLib}.

Definition safeLog (x : float64) : float64 :=
  if f64_le x f64_zero || IsNaN x then S754_infinity true else math_Log x.

Definition weightedLog (factor weight : float64) : float64 :=
  if f64_eq weight f64_zero then f64_zero else f64_mul (safeLog factor) weight.

Definition factors_of (i : Inputs) : Factors :=
  let checked := measured (CrossOracleDivergencePct i) in
  mkFactors (ZScoreFactor (inZScore i)) (SourceCountFactor (inSourceCount i))
    (DiversityFactor (SourceClassCount i)) (LiquidityFactor (LiquidityUSD i))
    (CrossOracleFactor (CrossOracleDivergencePct i)) (TriangulationAgreementFactor (triangulationInput i))
    (BaselineQualityFactor (inBaselineAgeDays i)) checked (f64_le f64_zero (LiquidityUSD i))
    (if checked && (0 <? CrossOracleAgreementCount i) then CrossOracleAgreementCount i else 0)
    (inTriangulationChecked i && measured (inTriangulationDivergencePct i))
    (servedBaselineAgeDays (inBaselineAgeDays i))
    (bootstrapCapInForce (inBaselineAgeDays i) (BootstrapReleased i)).

Definition Compute (i : Inputs) (w : Weights) : Score :=
  let f := factors_of i in
  let triWeight := if TriangulationChecked f then wTriangulationAgreement w else f64_zero in
  let totalWeight :=
    f64_add (f64_add (f64_add (f64_add (f64_add (f64_add (wZScore w) (wSourceCount w)) (wDiversity w))
      (wLiquidity w)) (wCrossOracle w)) triWeight) (wBaselineQuality w) in
  if f64_le totalWeight f64_zero then mkScore f64_half f
  else
    let logSum :=
      f64_add (f64_add (f64_add (f64_add (f64_add (f64_add
        (weightedLog (fZScore f) (wZScore w)) (weightedLog (fSourceCount f) (wSourceCount w)))
        (weightedLog (fDiversity f) (wDiversity w))) (weightedLog (fLiquidity f) (wLiquidity w)))
        (weightedLog (fCrossOracle f) (wCrossOracle w)))
        (weightedLog (fTriangulationAgreement f) triWeight))
        (weightedLog (fBaselineQuality f) (wBaselineQuality w)) in
    let conf := math_Exp (f64_div logSum totalWeight) in
    let conf := applyBootstrapCap conf (inBaselineAgeDays i) (BootstrapReleased i) in
    mkScore (clamp01 conf) f.
End Compute.

(** ** Ranges *)

Lemma in01_spec f : in01 f = true <-> f64_le f64_zero f = true /\ f64_le f f64_one = true.
Proof. unfold in01. by rewrite andb_true_iff. Qed.

Lemma clamp01_in01 x : in01 (clamp01 x) = true.
Proof.
  unfold clamp01. destruct (IsNaN x) eqn:N; [done|].
  destruct (f64_lt x f64_zero) eqn:E0; [done|]. destruct (f64_lt f64_one x) eqn:E1; [done|].
  rewrite f64_lt_negb_le in E0, E1 by done. apply negb_false_iff in E0, E1. apply in01_spec. done.
Qed.


Lemma agreement_decay_in01 `{MathLib} t h d : in01 (agreement_decay t h d) = true.
Proof. apply clamp01_in01. Qed.

#[local] Hint Resolve clamp01_in01 agreement_decay_in01 : core.

(** The linear ramp from one half to one. *)
Lemma BaselineQuality_ramp d :
  valid64 d = true -> f64_le f64_zero d = true -> f64_le d baselineFullDays = true ->
  in01 (f64_add f64_half (f64_mul f64_half (f64_div d baselineFullDays))) = true.
Proof.
  intros Vd H0 H30.
  assert (C0 : f64_is f64_zero 0) by f64_const. assert (C30 : f64_is baselineFullDays 30) by f64_const.
  assert (Ch : f64_is f64_half (1 # 2)) by f64_const. assert (C1 : f64_is f64_one 1) by f64_const.
  destruct (f64_between f64_zero d baselineFullDays 0 30) as (q & Hq & Rq); [done..|].
  destruct (rounds_range _ _ f64_zero f64_one 0 1 (f64_is_div _ _ _ _ Hq C30 ltac:(lra)) C0 C1) as (x & Hx & Rx).
  { split; [apply Qle_shift_div_l|apply Qle_shift_div_r]; try reflexivity; lra. }
  destruct (rounds_range _ _ f64_zero f64_half 0 (1 # 2) (f64_is_mul _ _ _ _ Ch Hx) C0 Ch) as (y & Hy & Ry).
  { split; lra. }
  destruct (rounds_range _ _ f64_zero f64_one 0 1 (f64_is_add _ _ _ _ Ch Hy) C0 C1) as (z & Hz & Rz).
  { split; lra. }
  apply in01_spec. split; [apply (f64_is_le _ _ _ _ C0 Hz)|apply (f64_is_le _ _ _ _ Hz C1)]; apply Rz.
Qed.

Lemma factor_in01 `{MathLib} :
  (forall z, in01 (ZScoreFactor z) = true) /\ (forall n, in01 (SourceCountFactor n) = true)
  /\ (forall n, in01 (DiversityFactor n) = true) /\ (forall v, in01 (LiquidityFactor v) = true)
  /\ (forall d, in01 (CrossOracleFactor d) = true) /\ (forall d, in01 (TriangulationAgreementFactor d) = true).
Proof.
  unfold ZScoreFactor, SourceCountFactor, DiversityFactor, LiquidityFactor, CrossOracleFactor,
    TriangulationAgreementFactor.
  split_and!; intros; repeat case_if; auto; reflexivity.
Qed.

Lemma BaselineQualityFactor_in01 d : valid64 d = true -> in01 (BaselineQualityFactor d) = true.
Proof.
  intros Vd. unfold BaselineQualityFactor. destruct (IsNaN d) eqn:N; [done|]. simpl.
  destruct (f64_lt d f64_zero) eqn:E0; [done|]. destruct (f64_le baselineFullDays d) eqn:E1; [done|].
  rewrite f64_lt_negb_le in E0 by done. apply negb_false_iff in E0.
  apply BaselineQuality_ramp; [done..|].
  destruct (f64_le_total d baselineFullDays) as [?|?]; [done..|congruence].
Qed.

Lemma applyBootstrapCap_le c age released : bootstrapCapInForce age released = true ->
  f64_le (clamp01 (applyBootstrapCap c age released)) f64_half = true.
Proof.
  intros HB. unfold applyBootstrapCap. rewrite HB. simpl.
  destruct (f64_lt BootstrapConfidenceCap c) eqn:E; [done|].
  unfold clamp01. destruct (IsNaN c) eqn:N; [done|]. rewrite f64_lt_negb_le in E by done.
  apply negb_false_iff in E. repeat case_if; try done.
  apply f64_lt_le in Heqb0. pose proof (f64_le_trans _ _ _ Heqb0 E) as X. by vm_compute in X.
Qed.

(** A confidence is always a number between 0 and 1 that can be encoded.
    Whatever the inputs, the weights and the exponential do, the score and
    each of the seven factors are in [0, 1] (no NaN, no infinity), the served
    density is finite, the served bootstrap flag is the cap that was applied,
    and while the cap is in force the score does not exceed one half. *)
Theorem Compute_bounds `{MathLib} i w :
  valid64 (inBaselineAgeDays i) = true ->
  in01 (Confidence (Compute i w)) = true
  /\ (let f := scFactors (Compute i w) in
      in01 (fZScore f) && in01 (fSourceCount f) && in01 (fDiversity f) && in01 (fLiquidity f)
      && in01 (fCrossOracle f) && in01 (fTriangulationAgreement f) && in01 (fBaselineQuality f) = true
      /\ IsNaN (BaselineAgeDays f) = false /\ IsInf (BaselineAgeDays f) = false
      /\ (BootstrapCapped f = true -> f64_le (Confidence (Compute i w)) f64_half = true)).
Proof.
  intros Vd.
  assert (Hf : scFactors (Compute i w) = factors_of i) by (unfold Compute; by case_if). rewrite Hf.
  destruct factor_in01 as (F1 & F2 & F3 & F4 & F5 & F6). split.
  { unfold Compute. case_if; simpl; [done|apply clamp01_in01]. }
  cbn [factors_of fZScore fSourceCount fDiversity fLiquidity fCrossOracle fTriangulationAgreement fBaselineQuality
       BaselineAgeDays BootstrapCapped].
  rewrite F1, F2, F3, F4, F5, F6, BaselineQualityFactor_in01 by done. split_and!; [done| | |].
  - unfold servedBaselineAgeDays. by destruct (inBaselineAgeDays i).
  - unfold servedBaselineAgeDays. by destruct (inBaselineAgeDays i).
  - intros HB. unfold Compute. case_if; simpl; [done|]. by apply applyBootstrapCap_le.
Qed.

(** ** A factor that is zero *)

Lemma nonpos_add x y : valid64 x = true -> valid64 y = true -> nonpos x = true -> nonpos y = true ->
  nonpos (f64_add x y) = true /\ valid64 (f64_add x y) = true
  /\ (x = S754_infinity true \/ y = S754_infinity true -> f64_add x y = S754_infinity true).
Proof.
  unfold nonpos. intros Vx Vy Nx Ny.
  destruct x as [sx|[]| |sx mx ex]; try done; destruct y as [sy|[]| |sy my ey]; try done.
  - destruct sx, sy; split_and!; try done; intros [?|?]; done.
  - assert (C : f64_is (S754_zero sx) 0) by (destruct sx; f64_const).
    unfold f64_add, SFadd. split_and!; [done|done|intros [?|?]; done].
  - unfold f64_add, SFadd. split_and!; [done|done|intros [?|?]; done].
  - assert (C0 : f64_is f64_zero 0) by f64_const.
    destruct (SetFloat64 (S754_finite sx mx ex)) as [a|] eqn:Sa; [|done].
    destruct (SetFloat64 (S754_finite sy my ey)) as [b|] eqn:Sb; [|done].
    assert (Ha : f64_is (S754_finite sx mx ex) a) by (split; [done|by exists a]).
    assert (Hb : f64_is (S754_finite sy my ey) b) by (split; [done|by exists b]).
    apply (f64_is_le _ _ _ _ Ha C0) in Nx. apply (f64_is_le _ _ _ _ Hb C0) in Ny.
    destruct (f64_is_add _ _ _ _ Ha Hb) as (V & _ & R). split_and!; [|done|intros [?|?]; done].
    apply (R f64_zero (0 # 1)%Q); [done|done|]. change ((0 # 1)%Q) with 0%Q. lra.
Qed.

Lemma sum_nonpos l x :
  valid64 x = true -> nonpos x = true -> Forall (fun y => valid64 y = true /\ nonpos y = true) l ->
  (x = S754_infinity true \/ S754_infinity true ∈ l) -> foldl f64_add x l = S754_infinity true.
Proof.
  intros Vx Nx Hl. revert x Vx Nx. induction Hl as [|y l [Vy Ny] _ IH]; intros x Vx Nx Hin; simpl.
  { destruct Hin as [?|[]%elem_of_nil]. done. }
  destruct (nonpos_add x y Vx Vy Nx Ny) as (N & V & Hinf). apply IH; [done..|].
  rewrite elem_of_cons in Hin. destruct Hin as [?|[<-|?]]; auto.
Qed.

(** A weight an operator can set: finite and not negative. *)
Definition weight_ok (w : float64) : bool := valid64 w && f64_le f64_zero w && negb (IsInf w).

Section ZeroFactor.
Context `{MathLaws}.

Lemma safeLog_nonpos f : in01 f = true -> valid64 (safeLog f) = true /\ nonpos (safeLog f) = true.
Proof.
  intros [? ?]%in01_spec. unfold safeLog. destruct (f64_le f f64_zero) eqn:E; [done|]. simpl.
  destruct (IsNaN f) eqn:N; [done|]. split; [apply Log_valid|]. apply Log_unit; [|done].
  rewrite f64_lt_negb_le by done. by rewrite E.
Qed.

Lemma weightedLog_nonpos f w : in01 f = true -> weight_ok w = true ->
  valid64 (weightedLog f w) = true /\ nonpos (weightedLog f w) = true.
Proof.
  intros Hf Hw. unfold weight_ok in Hw. bprop. unfold weightedLog. case_if; [done|].
  destruct (safeLog_nonpos f Hf) as [Vl Nl]. set (l := safeLog f) in *.
  destruct w as [sw|[]| |sw mw ew]; try done; destruct l as [sl|[]| |sl ml el]; try done.
  - destruct sw; done.
  - assert (C0 : f64_is f64_zero 0) by f64_const. unfold nonpos in Nl.
    destruct (SetFloat64 (S754_finite sl ml el)) as [a|] eqn:Sa; [|done].
    destruct (SetFloat64 (S754_finite sw mw ew)) as [b|] eqn:Sb; [|done].
    assert (Ha : f64_is (S754_finite sl ml el) a) by (split; [done|by exists a]).
    assert (Hb : f64_is (S754_finite sw mw ew) b) by (split; [done|by exists b]).
    apply (f64_is_le _ _ _ _ Ha C0) in Nl. apply (f64_is_le _ _ _ _ C0 Hb) in H3.
    destruct (f64_is_mul _ _ _ _ Ha Hb) as (V & _ & R). split; [done|].
    apply (R f64_zero (0 # 1)%Q); [done|done|]. change ((0 # 1)%Q) with 0%Q. nra.
Qed.

Lemma weightedLog_zero f w : f64_eq f f64_zero = true -> weight_ok w = true -> f64_lt f64_zero w = true ->
  weightedLog f w = S754_infinity true.
Proof.
  intros Hf Hw Hp. unfold weight_ok in Hw. bprop. apply f64_eq_le in Hf as [Hf _].
  unfold weightedLog, safeLog. rewrite Hf. simpl.
  destruct w as [sw|[]| |[] mw ew]; done.
Qed.
End ZeroFactor.

Lemma nonneg_add x y : valid64 x = true -> valid64 y = true -> f64_le f64_zero x = true -> f64_le f64_zero y = true ->
  valid64 (f64_add x y) = true /\ f64_le x (f64_add x y) = true /\ f64_le y (f64_add x y) = true.
Proof.
  intros Vx Vy Nx Ny.
  destruct x as [sx|[]| |sx mx ex]; try done; destruct y as [sy|[]| |sy my ey]; try done.
  - destruct sx, sy; done.
  - split_and!; [done| |]; apply f64_le_spec; unfold key_le, f64_key, f64_add, SFadd; destruct sx, sy; simpl; try done; lia.
  - split_and!; [done| |]; apply f64_le_spec; unfold key_le, f64_key, f64_add, SFadd; destruct sx, sy; simpl; try done; lia.
  - assert (C0 : f64_is f64_zero 0) by f64_const.
    destruct (SetFloat64 (S754_finite sx mx ex)) as [a|] eqn:Sa; [|done].
    destruct (SetFloat64 (S754_finite sy my ey)) as [b|] eqn:Sb; [|done].
    assert (Ha : f64_is (S754_finite sx mx ex) a) by (split; [done|by exists a]).
    assert (Hb : f64_is (S754_finite sy my ey) b) by (split; [done|by exists b]).
    apply (f64_is_le _ _ _ _ C0 Ha) in Nx. apply (f64_is_le _ _ _ _ C0 Hb) in Ny.
    destruct (f64_is_add _ _ _ _ Ha Hb) as (V & _ & R). split_and!; [done| |].
    + apply (R _ a); [done|done|lra].
    + apply (R _ b); [done|done|lra].
Qed.

Lemma sum_nonneg l x z :
  valid64 x = true -> f64_le f64_zero x = true ->
  Forall (fun y => valid64 y = true /\ f64_le f64_zero y = true) l -> z ∈ x :: l ->
  f64_le z (foldl f64_add x l) = true.
Proof.
  intros Vx Nx Hl. revert x z Vx Nx. induction Hl as [|y l [Vy Ny] _ IH]; intros x z Vx Nx Hin; simpl.
  { apply list_elem_of_singleton in Hin. subst. apply f64_le_refl. by destruct x. }
  destruct (nonneg_add x y Vx Vy Nx Ny) as (V & Hx & Hy).
  assert (N : f64_le f64_zero (f64_add x y) = true) by (by eapply f64_le_trans).
  assert (Hs : f64_le (f64_add x y) (foldl f64_add (f64_add x y) l) = true) by (apply IH; [done..|left]).
  rewrite !elem_of_cons in Hin. destruct Hin as [->|[->|Hin]]; [by eapply f64_le_trans..|].
  apply IH; [done..|by right].
Qed.

(** One dead factor kills the score. With weights that are finite and not
    negative, a factor of zero whose weight is positive makes the confidence
    zero, however good the others are and whatever the logarithms return;
    a factor of weight zero is left out. *)
Theorem Compute_zero_factor `{MathLaws} i w :
  valid64 (inBaselineAgeDays i) = true ->
  (let ws := [wZScore w; wSourceCount w; wDiversity w; wLiquidity w; wCrossOracle w;
              wTriangulationAgreement w; wBaselineQuality w] in forallb weight_ok ws = true) ->
  (let f := factors_of i in
   exists fw, fw ∈ [(fZScore f, wZScore w); (fSourceCount f, wSourceCount w); (fDiversity f, wDiversity w);
                    (fLiquidity f, wLiquidity w); (fCrossOracle f, wCrossOracle w);
                    (fTriangulationAgreement f,
                     if TriangulationChecked f then wTriangulationAgreement w else f64_zero);
                    (fBaselineQuality f, wBaselineQuality w)]
     /\ f64_eq fw.1 f64_zero = true /\ f64_lt f64_zero fw.2 = true) ->
  Confidence (Compute i w) = f64_zero.
Proof.
  intros Vd Hws Hz. cbv zeta in Hws, Hz. destruct Hz as ([f0 w0] & Hin & Hf0 & Hw0). simpl in Hf0, Hw0.
  set (f := factors_of i) in *. set (tri := if TriangulationChecked f then wTriangulationAgreement w else f64_zero) in *.
  set (pairs := [(fZScore f, wZScore w); (fSourceCount f, wSourceCount w); (fDiversity f, wDiversity w);
                 (fLiquidity f, wLiquidity w); (fCrossOracle f, wCrossOracle w);
                 (fTriangulationAgreement f, tri); (fBaselineQuality f, wBaselineQuality w)]) in *.
  destruct factor_in01 as (F1 & F2 & F3 & F4 & F5 & F6).
  assert (Hp : Forall (fun fw => in01 fw.1 = true /\ weight_ok fw.2 = true) pairs).
  { simpl in Hws. rewrite !andb_true_iff in Hws. destruct Hws as (W1 & W2 & W3 & W4 & W5 & W6 & W7 & _).
    assert (Wt : weight_ok tri = true) by (subst tri; by case_if).
    repeat (constructor; [split; [simpl|simpl; done]|]); auto; by apply BaselineQualityFactor_in01. }
  pose proof (proj1 (Forall_forall _ _) Hp _ Hin) as [_ Wok0]. simpl in Wok0.
  unfold Compute. fold f tri.
  change (f64_add (f64_add (f64_add (f64_add (f64_add (f64_add (wZScore w) (wSourceCount w)) (wDiversity w))
      (wLiquidity w)) (wCrossOracle w)) tri) (wBaselineQuality w))
    with (foldl f64_add (wZScore w) (tail (map snd pairs))).
  change (f64_add (f64_add (f64_add (f64_add (f64_add (f64_add
        (weightedLog (fZScore f) (wZScore w)) (weightedLog (fSourceCount f) (wSourceCount w)))
        (weightedLog (fDiversity f) (wDiversity w))) (weightedLog (fLiquidity f) (wLiquidity w)))
        (weightedLog (fCrossOracle f) (wCrossOracle w)))
        (weightedLog (fTriangulationAgreement f) tri))
        (weightedLog (fBaselineQuality f) (wBaselineQuality w)))
    with (foldl f64_add (weightedLog (fZScore f) (wZScore w))
            (tail (map (fun fw => weightedLog fw.1 fw.2) pairs))).
  assert (Hlog : foldl f64_add (weightedLog (fZScore f) (wZScore w))
                   (tail (map (fun fw => weightedLog fw.1 fw.2) pairs)) = S754_infinity true).
  { inversion_clear Hp as [|? ? [Hf1 Hw1] Hp']. apply sum_nonpos; try (by apply weightedLog_nonpos).
    - simpl tail. change (Forall (fun y => valid64 y = true /\ nonpos y = true)
                            (map (fun fw => weightedLog fw.1 fw.2) (tail pairs))).
      apply Forall_map, (Forall_impl _ _ _ Hp'). intros [] []. by apply weightedLog_nonpos.
    - rewrite <- (weightedLog_zero f0 w0) by done. apply elem_of_cons in Hin as [[= -> ->]|Hin]; [by left|right].
      change (weightedLog f0 w0 ∈ map (fun fw => weightedLog fw.1 fw.2) (tail pairs)).
      apply list_elem_of_fmap. by exists (f0, w0). }
  rewrite Hlog. set (total := foldl f64_add (wZScore w) (tail (map snd pairs))).
  assert (Htot : f64_le w0 total = true).
  { assert (Wall : Forall (fun y => valid64 y = true /\ f64_le f64_zero y = true) (map snd pairs)).
    { apply Forall_map, (Forall_impl _ _ _ Hp). intros [] [_ Hw]. unfold weight_ok in Hw. bprop. done. }
    inversion Wall as [|? ? [? ?] ?]; subst. apply sum_nonneg; [done..|].
    change (w0 ∈ map snd pairs). apply list_elem_of_fmap. by exists (f0, w0). }
  destruct (f64_le total f64_zero) eqn:Et.
  { exfalso. assert (Nw : IsNaN w0 = false) by (by destruct w0). rewrite f64_lt_negb_le in Hw0 by done.
    by rewrite (f64_le_trans _ _ _ Htot Et) in Hw0. }
  cbn [Confidence]. clearbody total.
  assert (Hexp : math_Exp (f64_div (S754_infinity true) total) = f64_zero
                 \/ IsNaN (math_Exp (f64_div (S754_infinity true) total)) = true).
  { unfold weight_ok in Wok0. bprop. assert (f64_le f64_zero total = true) by (by eapply f64_le_trans).
    destruct total as [s|[]| |[] m e]; try done; [right; by apply Exp_nan|left; apply Exp_minus_inf]. }
  unfold applyBootstrapCap. destruct Hexp as [->|N]; [by case_if|].
  destruct (math_Exp _); try done. by case_if.
Qed.

(** A pair of functions with the laws: the exponential of zero or less is 1 or
    0, the logarithm of anything in (0, 1] is zero. *)
Definition coarse_math : MathLib := {|
  math_Exp x := if IsNaN x then f64_nan else match x with S754_infinity true => f64_zero | _ => f64_one end;
  math_Log x := f64_zero
|}.

Lemma coarse_math_laws : @MathLaws coarse_math.
Proof.
  split; simpl; try done.
  - intros x. by destruct x as [|[]| |].
  - intros x Hx. by rewrite Hx.
Qed.

(** A calm, well sourced bucket whose sources belong to no known class. *)
Definition inputs_ex : Inputs :=
  mkInputs f64_zero 6 0 (f64_Z 1000000) f64_zero 2 false f64_zero (f64_Z 30) true.

Lemma Compute_bounds_witness :
  in01 (Confidence (@Compute coarse_math inputs_ex DefaultWeights)) = true.
Proof. refine (proj1 (@Compute_bounds coarse_math inputs_ex DefaultWeights _)). vm_compute. reflexivity. Defined.

Lemma Compute_zero_factor_witness :
  Confidence (@Compute coarse_math inputs_ex DefaultWeights) = f64_zero.
Proof.
  refine (@Compute_zero_factor coarse_math coarse_math_laws inputs_ex DefaultWeights _ _ _).
  - vm_compute. reflexivity.
  - vm_compute. reflexivity.
  - exists (f64_zero, f64_one). split; [|split; reflexivity].
    right. right. left.
Defined.
