(* ===== verification/Baseline.v ===== *)
(** * Volatility baselines
    (internal/aggregate/baseline: baseline.go, multi.go, refresh.go)

    The robust scale of a pair's one-minute returns over one day, a week and
    a month, and the z-score of a new return against them. Floats are IEEE
    binary64, the order is that of [sort.Float64s] (NaN first). The reader of
    prices and the writer of baselines are the results they return; a run of
    [RefreshAll] is the multiset of its outcomes, since the workers' results
    are only counted. *)

From S2P Require Import Prelude GoLib Float64 Rounding.
From Stdlib Require Import Floats.SpecFloat.

(** 1.4826 and 1e-3, the doubles nearest to them. *)
Definition MADScale : float64 := rat_Float64 (14826 # 10000).
Definition MinSamples : Z := 2.
Definition MinDriftSamples : Z := 60.
Definition MinMAD : float64 := rat_Float64 (1 # 1000).
Definition f64_two : float64 := rat_Float64 (2 # 1).
Definition f64_sqrt : float64 -> float64 := SFsqrt prec64 emax64.
Definition f64_inf : float64 := S754_infinity false.

Inductive baseline_error := ErrNotEnoughSamples.

Record Baseline := mkBaseline { bMedian : float64; bMAD : float64; N : Z }.

(** [sort.Float64s] orders by [<], NaN first. *)
Definition f64_sort_le (a b : float64) : bool := IsNaN a || f64_le a b.

Definition Median (xs : list float64) : float64 :=
  match xs with
  | [] => f64_zero
  | _ =>
      let cp := isort f64_sort_le xs in
      let n := length cp in
      if Nat.odd n then default f64_zero (cp !! Nat.div2 n)
      else f64_div (f64_add (default f64_zero (cp !! (Nat.div2 n - 1)%nat)) (default f64_zero (cp !! Nat.div2 n)))
                   f64_two
  end.

Definition MAD (xs : list float64) : float64 :=
  match xs with
  | [] => f64_zero
  | _ => let med := Median xs in f64_mul MADScale (Median (map (fun x => SFabs (f64_sub x med)) xs))
  end.

Definition FromReturns (returns : list float64) : res baseline_error Baseline :=
  if Z.of_nat (length returns) <? MinSamples then Err ErrNotEnoughSamples
  else Ok (mkBaseline (Median returns) (MAD returns) (Z.of_nat (length returns))).

Definition scale (b : Baseline) : float64 := if f64_lt (bMAD b) MinMAD then MinMAD else bMAD b.

Definition ZScore (b : Baseline) (x : float64) : float64 := f64_div (SFabs (f64_sub x (bMedian b))) (scale b).

Definition DriftZScore (b : Baseline) : option float64 :=
  if N b <? MinDriftSamples then None
  else
    let drift := SFabs (bMedian b) in
    if f64_eq (bMAD b) f64_zero then Some (if f64_eq drift f64_zero then f64_zero else f64_inf)
    else Some (f64_div (f64_mul drift (f64_sqrt (rat_Float64 (inject_Z (N b))))) (bMAD b)).

Definition BucketWidth : Duration := Minute.

(** [NewBucketReturn]: the scaled return, none when [prev] is zero. *)
Definition NewBucketReturn (prev curr : float64) (elapsed : Duration) : option float64 :=
  if f64_eq prev f64_zero then None
  else
    let frac := f64_div (f64_sub curr prev) prev in
    Some (if BucketWidth <? elapsed
          then f64_div frac (f64_sqrt (f64_div (rat_Float64 (inject_Z elapsed)) (rat_Float64 (inject_Z BucketWidth))))
          else frac).

Record TimedVWAP := mkTimed { tVWAP : float64; BucketEnd : Time; USDVolume : option Q }.

(** The loop of [ReturnsFromVWAPs], from the last priced bucket. *)
Fixpoint returns_from (prev : option TimedVWAP) (timed : list TimedVWAP) : list float64 :=
  match timed with
  | [] => []
  | t :: rest =>
      if f64_eq (tVWAP t) f64_zero then returns_from prev rest
      else
        match prev with
        | Some p =>
            match NewBucketReturn (tVWAP p) (tVWAP t) (time_Sub (BucketEnd t) (BucketEnd p)) with
            | Some r => r :: returns_from (Some t) rest
            | None => returns_from (Some t) rest
            end
        | None => returns_from (Some t) rest
        end
  end.

Definition ReturnsFromVWAPs (timed : list TimedVWAP) : list float64 := returns_from None timed.

(** ** Three windows *)

Definition Window1d : Duration := 24 * Hour.
Definition Window7d : Duration := 7 * 24 * Hour.
Definition Window30d : Duration := 30 * 24 * Hour.

Record MultiBaseline := mkMulti { Day1 : option Baseline; Day7 : option Baseline; Day30 : option Baseline }.

Definition buildOrNil (vwaps : list TimedVWAP) : option Baseline :=
  match FromReturns (ReturnsFromVWAPs vwaps) with Ok b => Some b | Err _ => None end.

Definition NewMultiBaseline (d1 d7 d30 : list TimedVWAP) : MultiBaseline :=
  mkMulti (buildOrNil d1) (buildOrNil d7) (buildOrNil d30).

Definition HasAnyValid (m : MultiBaseline) : bool :=
  bool_decide (is_Some (Day1 m)) || bool_decide (is_Some (Day7 m)) || bool_decide (is_Some (Day30 m)).

Definition MinZScoreSamples : Z := 60.

(** The windows that have a baseline, shortest first. *)
Definition windowBaselines (m : MultiBaseline) : list (Baseline * Duration) :=
  omap (fun c => match c.1 with Some b => Some (b, c.2) | None => None end)
       [(Day1 m, Window1d); (Day7 m, Window7d); (Day30 m, Window30d)].

(** The best-sampled window so far, the later one on a tie. *)
Definition larger (best : option (Baseline * Duration)) (c : Baseline * Duration) : option (Baseline * Duration) :=
  match best with
  | None => Some c
  | Some l => if N l.1 <=? N c.1 then Some c else best
  end.

Definition zScoreVoters (m : MultiBaseline) : list (Baseline * Duration) :=
  let cs := windowBaselines m in
  let voters := filter (fun c => MinZScoreSamples <= N c.1) cs in
  let largest := foldl larger None cs in
  match voters, largest with
  | [], Some l => [l]
  | _, _ => voters
  end.

(** The running maximum of the two loops: the first, then every larger one. *)
Definition max_step (best : option (float64 * Duration)) (zw : float64 * Duration) : option (float64 * Duration) :=
  match best with
  | None => Some zw
  | Some b => if f64_lt b.1 zw.1 then Some zw else best
  end.

Definition MaxZScore (m : MultiBaseline) (x : float64) : option (float64 * Duration) :=
  if negb (HasAnyValid m) then None
  else if IsNaN x || IsInf x then
    Some (f64_inf, match Day1 m, Day7 m with
                   | Some _, _ => Window1d
                   | None, Some _ => Window7d
                   | None, None => Window30d
                   end)
  else foldl max_step None (map (fun v => (ZScore v.1 x, v.2)) (zScoreVoters m)).

Definition MaxDriftZScore (m : MultiBaseline) : option (float64 * Duration) :=
  foldl max_step None
    (omap (fun c => match DriftZScore c.1 with Some z => Some (z, c.2) | None => None end) (windowBaselines m)).

Fixpoint firstAtOrAfter (timed : list TimedVWAP) (cutoff : Time) : nat :=
  match timed with
  | [] => 0
  | t :: rest => if time_Before (BucketEnd t) cutoff then S (firstAtOrAfter rest cutoff) else 0
  end.

Definition SplitByLookback (timed : list TimedVWAP) (now : Time)
  : list TimedVWAP * list TimedVWAP * list TimedVWAP :=
  (drop (firstAtOrAfter timed (time_Add now (- Window1d))) timed,
   drop (firstAtOrAfter timed (time_Add now (- Window7d))) timed,
   drop (firstAtOrAfter timed (time_Add now (- Window30d))) timed).

(** ** Refreshing *)

Definition MinuteNotionalFloor (minUSDVolume : float64) (longestWindow : Duration) : Q :=
  let minutes := Z.quot longestWindow Minute in
  if f64_le minUSDVolume f64_zero || (minutes <=? 0) then 0%Q
  else match SetFloat64 minUSDVolume with
       | None => 0%Q
       | Some f => (f / inject_Z minutes)%Q
       end.

(** The loop of [volumeBars]: bars so far, the open bar's USD volume and
    price sum, and whether a minute was valued. *)
Record bar_state := mkBars { bars : list TimedVWAP; open_usd : Q; open_px : Q; valued : bool }.

Definition add_minute (floor : Q) (st : bar_state) (t : TimedVWAP) : bar_state :=
  match USDVolume t with
  | None => st
  | Some vol =>
      if Qle_bool vol 0 then st
      else match SetFloat64 (tVWAP t) with
           | None => st
           | Some v =>
               let usd := (open_usd st + vol)%Q in
               let px := (open_px st + v * vol)%Q in
               if negb (Qle_bool floor usd) then mkBars (bars st) usd px true
               else mkBars (bars st ++ [mkTimed (rat_Float64 (px / usd)) (BucketEnd t) (Some usd)]) 0 0 true
           end
  end.

Definition volumeBars (floor : Q) (timed : list TimedVWAP) : list TimedVWAP * bool :=
  let st := foldl (add_minute floor) (mkBars [] 0 0 false) timed in (bars st, valued st).

Inductive RefreshOutcome :=
| OutcomeOK | OutcomeNotEnoughSamples | OutcomeReadError | OutcomeWriteError
| OutcomeOKPerMinuteFallback | OutcomeOKUnvalued.

#[export] Instance RefreshOutcome_eq_dec : EqDecision RefreshOutcome.
Proof. solve_decision. Defined.

Definition split_multi (timed : list TimedVWAP) (now : Time) : MultiBaseline :=
  let '(d1, d7, d30) := SplitByLookback timed now in NewMultiBaseline d1 d7 d30.

(** [multi.Day30.N] clamped at [MinZScoreSamples]. *)
Definition clamp_day30 (m : MultiBaseline) : MultiBaseline :=
  match Day30 m with
  | Some b => if MinZScoreSamples <? N b
              then mkMulti (Day1 m) (Day7 m) (Some (mkBaseline (bMedian b) (bMAD b) MinZScoreSamples)) else m
  | None => m
  end.

(** [RefreshPair]: the outcome and what was handed to the sink. [timed] is
    what the source returned, [None] an error; [sink_ok] whether the write of
    the baseline succeeds. *)
Definition RefreshPair (floor : Q) (now : Time) (timed : option (list TimedVWAP)) (sink_ok : bool)
  : RefreshOutcome * option MultiBaseline :=
  match timed with
  | None => (OutcomeReadError, None)
  | Some timed =>
      let '(sample, val) := volumeBars floor timed in
      let '(sample, okOutcome) := if val then (sample, OutcomeOK) else (timed, OutcomeOKUnvalued) in
      let multi := split_multi sample now in
      let '(multi, okOutcome) :=
        match Day30 multi with
        | None => if val then (clamp_day30 (split_multi timed now), OutcomeOKPerMinuteFallback) else (multi, okOutcome)
        | Some _ => (multi, okOutcome)
        end in
      match Day30 multi with
      | None => (OutcomeNotEnoughSamples, None)
      | Some _ => (if sink_ok then okOutcome else OutcomeWriteError, Some multi)
      end
  end.

(** ** The worst window *)

Definition finite_baseline (b : Baseline) : bool :=
  valid64 (bMedian b) && bool_decide (is_Some (SetFloat64 (bMedian b)))
  && valid64 (bMAD b) && bool_decide (is_Some (SetFloat64 (bMAD b))).

Lemma SFabs_valid f : valid64 (SFabs f) = valid64 f.
Proof. by destruct f. Qed.

Lemma rounds_not_nan v f : rounds v f -> IsNaN f = false.
Proof. intros (_ & H & _). done. Qed.

(** The denominator is a positive number. *)
Lemma scale_pos b : finite_baseline b = true -> exists q, f64_is (scale b) q /\ (0 < q)%Q.
Proof.
  intros H. unfold finite_baseline in H. bprop. destruct H0 as [a Ha].
  assert (Hm : exists q, f64_is MinMAD q /\ (0 < q)%Q).
  { exists (default 0%Q (SetFloat64 MinMAD)). split; [f64_const|reflexivity]. }
  destruct Hm as (q & Hq & Hpos). unfold scale. destruct (f64_lt (bMAD b) MinMAD) eqn:E; [eauto|].
  assert (Ha' : f64_is (bMAD b) a) by (split; [done|by exists a]). exists a. split; [done|].
  rewrite f64_lt_negb_le in E by (done || by destruct (bMAD b)). apply negb_false_iff in E.
  apply (f64_is_le _ _ _ _ Hq Ha') in E. lra.
Qed.

Lemma ZScore_not_nan b x q : finite_baseline b = true -> f64_is x q -> IsNaN (ZScore b x) = false.
Proof.
  intros Hb Hx. destruct (scale_pos b Hb) as (s & Hs & Hpos). unfold finite_baseline in Hb. bprop. destruct H2 as [m Hm].
  assert (Hm' : f64_is (bMedian b) m) by (split; [done|by exists m]).
  pose proof (f64_is_sub _ _ _ _ Hx Hm') as R. unfold ZScore.
  set (d := f64_sub x (bMedian b)) in *.
  assert (Hd : IsNaN (SFabs d) = false) by (apply rounds_not_nan in R; by destruct d).
  assert (Vd : valid64 (SFabs d) = true) by (rewrite SFabs_valid; apply R).
  destruct (SetFloat64 (SFabs d)) as [a|] eqn:Sa.
  - apply (rounds_not_nan (a / s)). apply f64_is_div; [split; [done|by exists a]|done|lra].
  - destruct Hs as (_ & s' & Ss & _). destruct d as [?|[]| |? ? ?]; try done; destruct (scale b); done.
Qed.

(** The running maximum is attained and bounds every element. *)
Lemma foldl_max_step l best :
  Forall (fun zw => IsNaN zw.1 = false) l ->
  match best with Some b => IsNaN b.1 = false | None => True end ->
  match foldl max_step best l with
  | Some r => (r ∈ l \/ Some r = best) /\ IsNaN r.1 = false
              /\ Forall (fun zw => f64_le zw.1 r.1 = true) l
              /\ match best with Some b => f64_le b.1 r.1 = true | None => True end
  | None => best = None /\ l = []
  end.
Proof.
  intros Hl. revert best. induction Hl as [|zw l Hz _ IH]; intros best Hb; simpl.
  { destruct best; [|done]. split_and!; auto. by apply f64_le_refl. }
  assert (Hstep : match max_step best zw with Some b => IsNaN b.1 = false | None => True end).
  { unfold max_step. destruct best; [case_if|]; done. }
  specialize (IH _ Hstep). destruct (foldl max_step (max_step best zw) l) as [r|].
  - destruct IH as (Hin & Hn & Hall & Hmax).
    unfold max_step in *. destruct best as [b|].
    + destruct (f64_lt b.1 zw.1) eqn:E.
      * split_and!; [destruct Hin as [?|[= ->]]; [left; by right|left; left]|done|by constructor|].
        eapply f64_le_trans; [by apply f64_lt_le|done].
      * rewrite f64_lt_negb_le in E by done. apply negb_false_iff in E.
        split_and!; [destruct Hin as [?|?]; [left; by right|by right]|done| |done].
        constructor; [by eapply f64_le_trans|done].
    + split_and!; [destruct Hin as [?|[= ->]]; [left; by right|left; left]|done|by constructor|done].
  - destruct IH as [Hm _]. unfold max_step in Hm. destruct best; [by case_if_in Hm|done].
Qed.

Lemma zScoreVoters_sub m v : v ∈ zScoreVoters m -> v ∈ windowBaselines m.
Proof.
  unfold zScoreVoters. set (cs := windowBaselines m).
  assert (Hbest : forall l best, match foldl larger best l with
                   | Some r => r ∈ l \/ best = Some r | None => True end).
  { induction l as [|c l IH]; intros best; simpl; [destruct best; auto|].
    specialize (IH (larger best c)). destruct (foldl larger _ l) as [r|]; [|done]. destruct IH as [?|E]; [left; by right|].
    unfold larger in E. destruct best as [b|]; [case_if_in E|]; simplify_eq; auto using list_elem_of_here. }
  specialize (Hbest cs None).
  destruct (filter _ cs) as [|a l] eqn:Ef.
  - destruct (foldl _ None cs) as [r|]; [|intros []%elem_of_nil].
    intros ->%list_elem_of_singleton. by destruct Hbest.
  - rewrite <- Ef. intros Hv. apply list_elem_of_filter in Hv. apply Hv.
Qed.

Lemma zScoreVoters_nonempty m : HasAnyValid m = true -> zScoreVoters m <> [].
Proof.
  unfold HasAnyValid, zScoreVoters. intros Hv. set (cs := windowBaselines m).
  assert (Hcs : cs <> []).
  { subst cs. unfold windowBaselines. destruct m as [[?|] [?|] [?|]]; try done. }
  destruct (filter _ cs) as [|a l]; [|done].
  assert (Hs : forall l best, is_Some best -> is_Some (foldl larger best l)).
  { induction l as [|c l IH]; intros best Hb; simpl; [done|]. apply IH. unfold larger. destruct best; [case_if|]; done. }
  destruct cs as [|c cs]; [done|]. simpl. destruct (Hs cs (Some c)) as [r ->]; done.
Qed.

(** An anomalous return never hides behind a calm window. With a baseline
    in any window a score always comes back: infinite for a return that is
    not a number, and otherwise the score of a window that votes which is at
    least the score of every window that votes. Without a baseline there is
    no score. *)
Theorem MaxZScore_worst m x :
  Forall (fun c => finite_baseline c.1 = true) (windowBaselines m) -> valid64 x = true ->
  (HasAnyValid m = false -> MaxZScore m x = None)
  /\ (HasAnyValid m = true -> IsNaN x || IsInf x = true -> exists w, MaxZScore m x = Some (f64_inf, w))
  /\ (HasAnyValid m = true -> IsNaN x || IsInf x = false ->
      exists b w, MaxZScore m x = Some (ZScore b x, w) /\ (b, w) ∈ zScoreVoters m
        /\ IsNaN (ZScore b x) = false
        /\ Forall (fun v => f64_le (ZScore v.1 x) (ZScore b x) = true) (zScoreVoters m)).
Proof.
  intros Hfin Vx. unfold MaxZScore. split_and!.
  - by intros ->.
  - intros -> ->. simpl. eauto.
  - intros HV Hx. rewrite HV, Hx. simpl.
    assert (exists q, f64_is x q) as [q Hq].
    { destruct (SetFloat64 x) as [a|] eqn:E; [exists a; split; [done|by exists a]|]. by destruct x. }
    set (l := map (fun v => (ZScore v.1 x, v.2)) (zScoreVoters m)).
    assert (Hl : Forall (fun zw => IsNaN zw.1 = false) l).
    { apply Forall_map, Forall_forall. intros v Hv. simpl. eapply ZScore_not_nan; [|done].
      rewrite Forall_forall in Hfin. by apply Hfin, zScoreVoters_sub. }
    pose proof (foldl_max_step l None Hl I) as HM. destruct (foldl max_step None l) as [[z w]|].
    + destruct HM as ([Hin|?] & Hn & Hall & _); [|done].
      apply list_elem_of_fmap in Hin as ([b w'] & [= -> ->] & Hin). exists b, w'. split_and!; [done..|].
      by apply Forall_map in Hall.
    + destruct HM as [_ Hnil]. subst l. apply map_eq_nil in Hnil. by apply zScoreVoters_nonempty in Hnil.
Qed.

Definition flat_ex : Baseline := mkBaseline f64_zero f64_zero 100.

Lemma MaxZScore_worst_witness :
  exists b w, MaxZScore (mkMulti (Some flat_ex) None (Some flat_ex)) f64_one = Some (ZScore b f64_one, w)
    /\ (b, w) ∈ zScoreVoters (mkMulti (Some flat_ex) None (Some flat_ex))
    /\ IsNaN (ZScore b f64_one) = false
    /\ Forall (fun v => f64_le (ZScore v.1 f64_one) (ZScore b f64_one) = true)
         (zScoreVoters (mkMulti (Some flat_ex) None (Some flat_ex))).
Proof.
  refine (proj2 (proj2 (MaxZScore_worst (mkMulti (Some flat_ex) None (Some flat_ex)) f64_one _ _)) _ _).
  1: repeat constructor.
  all: reflexivity.
Defined.

(** ** Density costs volume *)

(** The USD volume of a minute that can enter a bar. *)
Definition usd_of (t : TimedVWAP) : Q :=
  match USDVolume t with Some v => if Qle_bool v 0 then 0 else v | None => 0 end.

Definition usd_total (l : list TimedVWAP) : Q := qsum (map usd_of l).

Lemma usd_of_nonneg t : (0 <= usd_of t)%Q.
Proof.
  unfold usd_of. destruct (USDVolume t) as [v|]; [|lra]. destruct (Qle_bool v 0) eqn:E; [lra|].
  apply Qlt_le_weak, Qnot_le_lt. intros Hle. apply Qle_bool_iff in Hle. congruence.
Qed.

(** What the loop has accounted for after the minutes [l]. *)
Record bars_inv (floor : Q) (l : list TimedVWAP) (st : bar_state) : Prop := {
  bi_full : Forall (fun b => exists u, USDVolume b = Some u /\ (floor <= u)%Q /\ usd_of b == u)%Q (bars st);
  bi_open : (0 <= open_usd st)%Q;
  bi_total : (usd_total (bars st) + open_usd st <= usd_total l)%Q
}.

Lemma usd_total_snoc l t : (usd_total (l ++ [t]) == usd_total l + usd_of t)%Q.
Proof. unfold usd_total. rewrite map_app, qsum_app. unfold qsum at 2; simpl. lra. Qed.

Lemma add_minute_inv floor l st t : (0 <= floor)%Q ->
  bars_inv floor l st -> bars_inv floor (l ++ [t]) (add_minute floor st t).
Proof.
  intros Hfl [Hf Ho Ht]. pose proof (usd_of_nonneg t) as Hu. unfold add_minute.
  assert (Hskip : bars_inv floor (l ++ [t]) st) by (split; [done|done|rewrite usd_total_snoc; lra]).
  destruct (USDVolume t) as [vol|] eqn:Ev; [|done].
  destruct (Qle_bool vol 0) eqn:Ez; [done|].
  destruct (SetFloat64 (tVWAP t)) as [v|]; [|done].
  assert (Et : usd_of t = vol) by (unfold usd_of; by rewrite Ev, Ez). rewrite Et in Hu.
  destruct (Qle_bool floor (open_usd st + vol)) eqn:Ef; simpl.
  - apply Qle_bool_iff in Ef.
    assert (Ev0 : (0 < vol)%Q) by (apply Qnot_le_lt; intros Hle; apply Qle_bool_iff in Hle; congruence).
    set (b := mkTimed _ (BucketEnd t) (Some (open_usd st + vol)%Q)).
    assert (Eb : (usd_of b == open_usd st + vol)%Q).
    { unfold usd_of. simpl. destruct (Qle_bool (open_usd st + vol) 0) eqn:E; [|reflexivity].
      apply Qle_bool_iff in E. lra. }
    split; simpl; [|lra|].
    + apply Forall_app. split; [done|]. constructor; [|constructor].
      exists (open_usd st + vol)%Q. split_and!; done.
    + rewrite usd_total_snoc, usd_total_snoc, Eb, Et. lra.
  - split; simpl; [done|lra|]. rewrite usd_total_snoc, Et. lra.
Qed.

Lemma volumeBars_inv floor timed : (0 <= floor)%Q ->
  Forall (fun b => exists u, USDVolume b = Some u /\ (floor <= u)%Q) (volumeBars floor timed).1
  /\ (usd_total (volumeBars floor timed).1 <= usd_total timed)%Q
  /\ (inject_Z (Z.of_nat (length (volumeBars floor timed).1)) * floor <= usd_total timed)%Q.
Proof.
  intros Hfl. unfold volumeBars. simpl.
  assert (Hinv : bars_inv floor timed (foldl (add_minute floor) (mkBars [] 0 0 false) timed)).
  { induction timed as [|t l IH] using rev_ind; [by split; [constructor|apply Qle_refl|apply Qle_refl]|].
    rewrite foldl_app. by apply add_minute_inv. }
  destruct Hinv as [Hf Ho Ht]. set (bs := bars _) in *.
  assert (Hcost : (inject_Z (Z.of_nat (length bs)) * floor <= usd_total bs)%Q).
  { clear Ht. unfold usd_total. induction Hf as [|b l (u & _ & Hu & E) _ IH]; [change (0 * floor <= 0)%Q; lra|].
    simpl length. rewrite Nat2Z.inj_succ, <- Z.add_1_r, inject_Z_plus. simpl map.
    change (qsum (usd_of b :: map usd_of l)) with (usd_of b + qsum (map usd_of l))%Q.
    rewrite E. change (inject_Z 1) with 1%Q. lra. }
  split_and!; [|lra|lra]. apply (Forall_impl _ _ _ Hf). intros b (u & ? & ? & _). eauto.
Qed.

Lemma returns_from_length l prev :
  (length (returns_from prev l) <= (match prev with Some _ => length l | None => pred (length l) end))%nat.
Proof.
  revert prev. induction l as [|t l IH]; intros prev; simpl; [by destruct prev|].
  case_if.
  - specialize (IH prev). destruct prev; lia.
  - specialize (IH (Some t)). destruct prev as [p|]; [|simpl in IH; lia].
    destruct (NewBucketReturn _ _ _); simpl in *; lia.
Qed.

Lemma buildOrNil_N l b : buildOrNil l = Some b -> 2 <= N b /\ N b + 1 <= Z.of_nat (length l).
Proof.
  unfold buildOrNil, FromReturns. destruct (_ <? _) eqn:E; [done|]. intros [= <-]. simpl. bprop. unfold MinSamples in E.
  pose proof (returns_from_length l None) as H. simpl in H. unfold ReturnsFromVWAPs in *. lia.
Qed.

(** A baseline's density has to be paid for. The month's sample count
    that a refresh persists, which lifts the bootstrap ceiling on confidence,
    is at least two, and once any minute of the pair is valued in USD it is
    either at most sixty (an hour of density) or backed by at least the
    minute floor of USD volume per sample: dust prints cannot buy it. *)
Theorem RefreshPair_density floor now timed sink_ok o m :
  (0 <= floor)%Q -> RefreshPair floor now (Some timed) sink_ok = (o, Some m) ->
  exists b, Day30 m = Some b /\ 2 <= N b
    /\ ((volumeBars floor timed).2 = true ->
        N b <= MinZScoreSamples \/ (inject_Z (N b + 1) * floor <= usd_total timed)%Q).
Proof.
  intros Hfl HR. unfold RefreshPair in HR. pose proof (volumeBars_inv floor timed Hfl) as (_ & _ & Hcost).
  destruct (volumeBars floor timed) as [bs val]. simpl in Hcost |- *.
  assert (Hday : forall l b, Day30 (split_multi l now) = Some b -> 2 <= N b /\ N b + 1 <= Z.of_nat (length l)).
  { intros l b. unfold split_multi, SplitByLookback. simpl. intros Hb. apply buildOrNil_N in Hb as [? Hle].
    rewrite length_drop in Hle. lia. }
  destruct val; cbv iota beta in HR.
  - destruct (Day30 (split_multi bs now)) as [b|] eqn:E.
    + rewrite E in HR. injection HR as _ <-. exists b. rewrite E. destruct (Hday bs b E) as [H2 Hle]. split_and!; [done..|].
      intros _. right. eapply Qle_trans; [|exact Hcost]. apply Qmult_le_compat_r; [|done]. rewrite <- Zle_Qle. lia.
    + destruct (Day30 (clamp_day30 _)) as [b|] eqn:Ec; [|done]. injection HR as _ <-. exists b. split; [done|].
      unfold clamp_day30 in Ec. destruct (Day30 (split_multi timed now)) as [b'|] eqn:Eb; [|congruence].
      destruct (Hday timed b' Eb) as [H2 _]. unfold MinZScoreSamples in *.
      destruct (60 <? N b') eqn:E60; simpl in Ec, Eb; bprop; rewrite ?Eb in Ec; simplify_eq; simpl;
        (split; [lia|]); intros _; left; lia.
  - destruct (Day30 (split_multi timed now)) as [b|] eqn:E; [rewrite E in HR|by rewrite E in HR]. injection HR as _ <-. exists b. rewrite E.
    destruct (Hday timed b E). split_and!; done.
Qed.

(** Three valued minutes of a dollar each, at 1, 2 and 1. *)
Definition timed_ex : list TimedVWAP :=
  [mkTimed f64_one 0 (Some 1%Q); mkTimed f64_two Minute (Some 1%Q); mkTimed f64_one (2 * Minute) (Some 1%Q)].

Lemma RefreshPair_density_witness :
  exists b, Day30 (split_multi timed_ex Hour) = Some b /\ 2 <= N b
    /\ ((volumeBars 1 timed_ex).2 = true ->
        N b <= MinZScoreSamples \/ (inject_Z (N b + 1) * 1 <= usd_total timed_ex)%Q).
Proof.
  refine (RefreshPair_density 1 Hour timed_ex true OutcomeOK (split_multi timed_ex Hour) _ _).
  - discriminate.
  - vm_compute. reflexivity.
Defined.
