(* ===== verification/Anomaly.v ===== *)
(** * Anomaly decisions
    (internal/aggregate/anomaly: class.go, threshold.go, decision.go)

    Whether a closed bucket's price may be published, by how far it moved from
    the previous bucket, the asset's class and the number of sources. Classes
    and actions are the strings of the code; the [Reason] of a decision is a
    tag per branch, its rendered text is not kept. The registry of asset
    aliases is the one installed at start-up, passed as [g]. *)

From S2P Require Import Prelude GoLib Float64 Rounding Amount Asset Alias.
From Stdlib Require Import Floats.SpecFloat.

(** ** Classes *)

Abbreviation AssetClass := string.
Definition ClassStablecoin : AssetClass := "stablecoin".
Definition ClassTreasury : AssetClass := "treasury".
Definition ClassCrypto : AssetClass := "crypto".
Definition ClassGovernance : AssetClass := "governance".
Definition ClassDefault : AssetClass := "default".

Definition AllClasses : list AssetClass :=
  [ClassStablecoin; ClassTreasury; ClassCrypto; ClassGovernance; ClassDefault].

Section Classes.
Context `{Strkey} (g : globals).

Definition foldKey (k : string) : string :=
  match ParseAsset k with
  | Err _ => k
  | Ok a => Asset_String (CanonicalAsset g a)
  end.

(** The loop of [foldOverrides] over the sorted keys: the folded map, the
    first key seen for each folded one, the first conflict. *)
Record fold_state := mkFold {
  folded : gmap string AssetClass;
  firstKey : gmap string string;
  conflict : option (string * string)
}.

Definition fold_override (overrides : gmap string AssetClass) (st : fold_state) (k : string) : fold_state :=
  let fk := foldKey k in
  let cls := default EmptyString (overrides !! k) in
  match firstKey st !! fk with
  | Some prev =>
      let differs := negb (String.eqb (default EmptyString (folded st !! fk)) cls) in
      mkFold (folded st) (firstKey st)
             (match conflict st with
              | None => if differs then Some (prev, k) else None
              | c => c
              end)
  | None => mkFold (<[fk := cls]> (folded st)) (<[fk := k]> (firstKey st)) (conflict st)
  end.

Definition foldOverrides (overrides : gmap string AssetClass) : fold_state :=
  foldl (fold_override overrides) (mkFold ∅ ∅ None) (sort_Strings (map_to_list overrides).*1).

Record Classifier := mkClassifier { overrides : gmap string AssetClass }.

Definition NewClassifier (ov : gmap string AssetClass) : Classifier := mkClassifier (folded (foldOverrides ov)).

(** The error names the two keys. *)
Definition ValidateOverrides (ov : gmap string AssetClass) : res (string * string) unit :=
  match conflict (foldOverrides ov) with Some c => Err c | None => Ok tt end.

Definition ClassOf (c : Classifier) (asset : Asset) : AssetClass :=
  match overrides c !! Asset_String (CanonicalAsset g asset) with
  | Some cls => cls
  | None => ClassDefault
  end.
End Classes.
#[global] Arguments foldKey : simpl never.

(** ** Decisions *)

Abbreviation Action := string.
Definition ActionAllow : Action := "allow".
Definition ActionWarn : Action := "warn".
Definition ActionFreeze : Action := "freeze".

Record Thresholds := mkThresholds { WarnPct : float64; FreezePct : float64 }.

Inductive reason :=
| NoPriorBucket | NilCurrVWAP | WithinNormalRange | AboveWarn | SourcesCorroborate | SingleSource
| OtherReason (text : string).

Record Decision := mkDecision {
  dAction : Action;
  dClass : AssetClass;
  dThresholds : Thresholds;
  DeviationPct : float64;
  Reason : reason
}.

Definition IsFrozen (d : Decision) : bool := String.eqb (dAction d) ActionFreeze.
Definition IsWarn (d : Decision) : bool := String.eqb (dAction d) ActionWarn.
Definition Publishes (d : Decision) : bool :=
  if String.eqb (dAction d) ActionAllow || String.eqb (dAction d) ActionWarn then true
  else if String.eqb (dAction d) ActionFreeze then false
  else false.

(** ** Thresholds *)

Inductive threshold_error :=
| WarnNotPositive | FreezeNotPositive | FreezeNotAboveWarn
| ClassifierRequired | DefaultRequired | BadClass (cls : AssetClass).

Definition Thresholds_Validate (t : Thresholds) : res threshold_error unit :=
  _ ← guardE (negb (f64_le (WarnPct t) f64_zero)) WarnNotPositive;
  _ ← guardE (negb (f64_le (FreezePct t) f64_zero)) FreezeNotPositive;
  guardE (negb (f64_le (FreezePct t) (WarnPct t))) FreezeNotAboveWarn.

(** The exactly representable percentages of the defaults. *)
Definition pct (n : positive) : float64 := rat_Float64 (Zpos n # 1).

Definition DefaultThresholds : gmap AssetClass Thresholds :=
  {[ ClassStablecoin := mkThresholds (pct 1) (pct 3);
     ClassTreasury := mkThresholds (pct 1) (pct 3);
     ClassCrypto := mkThresholds (pct 20) (pct 50);
     ClassGovernance := mkThresholds (pct 50) (pct 100);
     ClassDefault := mkThresholds (pct 30) (pct 75) ]}.

Record Checker := mkChecker {
  thresholds : gmap AssetClass Thresholds;
  classifier : Classifier
}.

(** The rows are validated in the map's iteration order; only whether one
    fails is kept, with some class that does. *)
Definition NewChecker (ts : gmap AssetClass Thresholds) (c : option Classifier) : res threshold_error Checker :=
  match c with
  | None => Err ClassifierRequired
  | Some cl =>
      match ts !! ClassDefault with
      | None => Err DefaultRequired
      | Some _ =>
          match list_find (fun kt => is_ok (Thresholds_Validate kt.2) = false) (map_to_list ts) with
          | Some (_, (cls, _)) => Err (BadClass cls)
          | None => Ok (mkChecker ts cl)
          end
      end
  end.

Definition zero_Thresholds : Thresholds := mkThresholds f64_zero f64_zero.

Definition thresholdsFor (c : Checker) (class : AssetClass) : Thresholds :=
  match thresholds c !! class with
  | Some t => t
  | None => default zero_Thresholds (thresholds c !! ClassDefault)
  end.

Record Observation := mkObservation {
  obsPair : Pair;
  PrevVWAP : option Q;
  CurrVWAP : option Q;
  SourceCount : Z
}.

(** 1e9, exact in binary64. *)
Definition huge_deviation : float64 := rat_Float64 (1000000000 # 1).

Definition computeDeviationPct (prev curr : Q) : float64 :=
  if Qeq_bool prev 0 then
    if Qeq_bool curr 0 then f64_zero else huge_deviation
  else rat_Float64 (Qabs (Qabs (curr - prev) / prev) * (100 # 1))%Q.

Definition Checker_ClassOf (g : globals) (c : Checker) (asset : Asset) : AssetClass :=
  ClassOf g (classifier c) asset.

Definition Checker_Evaluate (g : globals) (c : Checker) (obs : Observation) : Decision :=
  let class := ClassOf g (classifier c) (Base (obsPair obs)) in
  let t := thresholdsFor c class in
  match PrevVWAP obs with
  | None => mkDecision ActionAllow class t f64_zero NoPriorBucket
  | Some prev =>
      match CurrVWAP obs with
      | None => mkDecision ActionFreeze class t f64_zero NilCurrVWAP
      | Some curr =>
          let deviation := computeDeviationPct prev curr in
          if f64_lt deviation (WarnPct t)
          then mkDecision ActionAllow class t deviation WithinNormalRange
          else if f64_lt deviation (FreezePct t)
          then mkDecision ActionWarn class t deviation AboveWarn
          else if 1 <? SourceCount obs
          then mkDecision ActionWarn class t deviation SourcesCorroborate
          else mkDecision ActionFreeze class t deviation SingleSource
      end
  end.

(** ** The classifier *)

Section ClassifierProofs.
Context `{Strkey} (g : globals).
Implicit Types ov : gmap string AssetClass.

(** The state of the loop after the keys [ks]. *)
Record fold_inv ov (ks : list string) (st : fold_state) : Prop := {
  fi_dom : forall fk, folded st !! fk = None <-> firstKey st !! fk = None;
  fi_from : forall fk c, folded st !! fk = Some c ->
            exists k, k ∈ ks /\ foldKey g k = fk /\ default EmptyString (ov !! k) = c;
  fi_seen : forall k, k ∈ ks -> is_Some (folded st !! foldKey g k);
  fi_agree : conflict st = None ->
             forall k, k ∈ ks -> folded st !! foldKey g k = Some (default EmptyString (ov !! k))
}.

Lemma fold_override_inv ov ks st k :
  fold_inv ov ks st -> fold_inv ov (ks ++ [k]) (fold_override g ov st k).
Proof.
  intros [Hd Hf Hs Ha]. unfold fold_override.
  destruct (firstKey st !! foldKey g k) as [prev|] eqn:E.
  - assert (Hk : is_Some (folded st !! foldKey g k)).
    { destruct (folded st !! foldKey g k) eqn:E'; [done|]. apply Hd in E'. congruence. }
    split; simpl; [done| | |].
    + intros fk c Hc. destruct (Hf fk c Hc) as (k' & ? & ?). exists k'. rewrite elem_of_app. auto.
    + intros k' [?| ->%list_elem_of_singleton]%elem_of_app; auto.
    + destruct (conflict st) eqn:Ec; [done|]. destruct Hk as [c Hk]. rewrite Hk. simpl.
      destruct (String.eqb_spec c (default EmptyString (ov !! k))) as [->|]; [|done]. intros _.
      intros k' [?| ->%list_elem_of_singleton]%elem_of_app; [by apply Ha|done].
  - apply Hd in E. split; simpl.
    + intros fk. destruct (decide (fk = foldKey g k)) as [->|]; [by rewrite !lookup_insert_eq|].
      rewrite !lookup_insert_ne by done. apply Hd.
    + intros fk c. destruct (decide (fk = foldKey g k)) as [->|].
      * rewrite lookup_insert_eq. intros [= <-]. exists k. rewrite elem_of_app, list_elem_of_singleton. auto.
      * rewrite lookup_insert_ne by done. intros Hc. destruct (Hf fk c Hc) as (k' & ? & ?).
        exists k'. rewrite elem_of_app. auto.
    + intros k' [Hk'| ->%list_elem_of_singleton]%elem_of_app; [|by rewrite lookup_insert_eq].
      destruct (decide (foldKey g k' = foldKey g k)) as [->|]; [by rewrite lookup_insert_eq|].
      rewrite lookup_insert_ne by done. auto.
    + intros Hc k' [Hk'| ->%list_elem_of_singleton]%elem_of_app; [|by rewrite lookup_insert_eq].
      destruct (decide (foldKey g k' = foldKey g k)) as [Ek|]; [|rewrite lookup_insert_ne by done; auto].
      destruct (Hs k' Hk') as [? Hx]. rewrite Ek in Hx. congruence.
Qed.

Lemma foldOverrides_inv ov :
  fold_inv ov (sort_Strings (map_to_list ov).*1) (foldOverrides g ov).
Proof.
  unfold foldOverrides. generalize (sort_Strings (map_to_list ov).*1). intros ks.
  induction ks as [|k ks IH] using rev_ind.
  - split; simpl; [done| | |].
    + intros fk c. by rewrite lookup_empty.
    + intros k Hk. by apply elem_of_nil in Hk.
    + intros _ k Hk. by apply elem_of_nil in Hk.
  - rewrite foldl_app. by apply fold_override_inv.
Qed.

Lemma elem_of_override_keys ov k : k ∈ sort_Strings (map_to_list ov).*1 <-> is_Some (ov !! k).
Proof.
  unfold sort_Strings. rewrite elem_of_isort, list_elem_of_fmap. split.
  - intros ([k' c] & -> & Hk%elem_of_map_to_list). by exists c.
  - intros [c Hc]. exists (k, c). by rewrite elem_of_map_to_list.
Qed.
End ClassifierProofs.

(** Classification by operator override is exact up to aliases. When the
    overrides are accepted, every asset an override key names, in whatever
    spelling of the same asset, has the class the operator gave it, and an
    asset no key names (after folding aliases) has the default class. *)
Theorem NewClassifier_exact `{Strkey} (g : globals) (ov : gmap string AssetClass) :
  ValidateOverrides g ov = Ok tt ->
  (forall k cls a b, ov !! k = Some cls -> ParseAsset k = Ok a -> CanonicalAsset g b = CanonicalAsset g a ->
     ClassOf g (NewClassifier g ov) b = cls)
  /\ (forall b, (forall k, is_Some (ov !! k) -> foldKey g k <> Asset_String (CanonicalAsset g b)) ->
     ClassOf g (NewClassifier g ov) b = ClassDefault).
Proof.
  unfold ValidateOverrides. intros Hv. destruct (foldOverrides_inv g ov) as [_ Hf _ Ha].
  destruct (conflict _) eqn:Ec; [done|]. specialize (Ha eq_refl). unfold ClassOf, NewClassifier. simpl. split.
  - intros k cls a b Hk Hp Hc.
    assert (Hfk : foldKey g k = Asset_String (CanonicalAsset g b)) by (unfold foldKey; by rewrite Hp, Hc).
    specialize (Ha k). rewrite elem_of_override_keys, Hk, Hfk in Ha. rewrite Ha by done. done.
  - intros b Hb. destruct (folded _ !! _) as [c|] eqn:E; [|done].
    destruct (Hf _ _ E) as (k & Hk & Hfk & _). apply elem_of_override_keys in Hk. by destruct (Hb k).
Qed.

Definition overrides_ex : gmap string AssetClass := {[ "native" := ClassCrypto; "fiat:EUR" := ClassTreasury ]}.

Lemma NewClassifier_exact_witness :
  ClassOf init_globals (@NewClassifier plain_strkey init_globals overrides_ex)
     (mkAsset AssetCrypto "XLM" "" "") = ClassCrypto.
Proof.
  refine (proj1 (@NewClassifier_exact plain_strkey init_globals overrides_ex _)
            "native" ClassCrypto NativeAsset (mkAsset AssetCrypto "XLM" "" "") _ _ _); vm_compute; reflexivity.
Defined.

(** ** The checker *)

Lemma Thresholds_Validate_spec t :
  Thresholds_Validate t = Ok tt <->
  f64_le (WarnPct t) f64_zero = false /\ f64_le (FreezePct t) f64_zero = false
  /\ f64_le (FreezePct t) (WarnPct t) = false.
Proof.
  unfold Thresholds_Validate, guardE.
  destruct (f64_le (WarnPct t) f64_zero), (f64_le (FreezePct t) f64_zero), (f64_le (FreezePct t) (WarnPct t));
    simpl; intuition congruence.
Qed.

(** [Validate] does not reject what is not a number: no comparison with NaN
    holds, so a NaN limit passes every test. *)
Lemma Thresholds_Validate_NaN t : IsNaN (WarnPct t) = true -> IsNaN (FreezePct t) = true ->
  Thresholds_Validate t = Ok tt.
Proof.
  intros Hw Hf. apply Thresholds_Validate_spec. destruct t as [w f]; simpl in *.
  destruct w; try done. destruct f; try done.
Qed.

Lemma DefaultThresholds_valid cls t : DefaultThresholds !! cls = Some t -> Thresholds_Validate t = Ok tt.
Proof.
  unfold DefaultThresholds. rewrite !lookup_insert_Some, lookup_singleton_Some.
  intros H. repeat destruct H as [[_ <-]|[_ H]] || destruct H as [_ <-]; vm_compute; reflexivity.
Qed.

(** What a row of limits has to be, spelled out on the float64 comparisons: no
    limit at or below zero, the freeze limit not at or below the warning one.
    A limit that is not a number is not compared at all. *)
Definition sound_row (t : Thresholds) : Prop :=
  f64_le (WarnPct t) (S754_zero false) = false
  /\ f64_le (FreezePct t) (S754_zero false) = false
  /\ f64_le (FreezePct t) (WarnPct t) = false.

(** [t] is the row of [cls] in the table: its own, or that of "default". *)
Definition row_of (ts : gmap AssetClass Thresholds) (cls : AssetClass) (t : Thresholds) : Prop :=
  ts !! cls = Some t \/ (ts !! cls = None /\ ts !! "default" = Some t).

Lemma NewChecker_Ok ts cl c :
  NewChecker ts cl = Ok c <->
  cl = Some (classifier c) /\ thresholds c = ts /\ is_Some (ts !! "default")
  /\ forall cls t, ts !! cls = Some t -> sound_row t.
Proof.
  assert (Hrow : forall t, sound_row t <-> Thresholds_Validate t = Ok tt)
    by (intros t; symmetry; apply Thresholds_Validate_spec).
  unfold NewChecker. change (ts !! ClassDefault) with (ts !! "default").
  destruct cl as [cl|]; [|naive_solver]. destruct (ts !! "default") as [d|] eqn:Ed;
    [|split; [done|intros (_ & _ & [? ?] & _); done]].
  destruct (list_find _ _) as [[i [k t]]|] eqn:El.
  - apply list_find_Some in El as (Hi & Hk & _). simpl in Hk. split; [done|]. intros (_ & _ & _ & Hall).
    apply list_elem_of_lookup_2, elem_of_map_to_list, Hall, Hrow in Hi. by rewrite Hi in Hk.
  - split; [intros [= <-]; simpl; split_and!; eauto|].
    + intros k t Hk. apply Hrow.
      apply list_find_None, Forall_forall with (x := (k, t)) in El; [|by apply elem_of_map_to_list].
      simpl in El. destruct (Thresholds_Validate t) as [[]|]; [done|]. by destruct El.
    + intros ([= ->] & <- & _). by destruct c.
Qed.

Lemma thresholdsFor_row c cls : is_Some (thresholds c !! "default") ->
  row_of (thresholds c) cls (thresholdsFor c cls).
Proof.
  intros [d Hd]. unfold row_of, thresholdsFor. change (thresholds c !! ClassDefault) with (thresholds c !! "default").
  destruct (thresholds c !! cls) eqn:E; [by left|right]. by rewrite Hd.
Qed.

Lemma Checker_Evaluate_row g c obs :
  dThresholds (Checker_Evaluate g c obs) = thresholdsFor c (dClass (Checker_Evaluate g c obs)).
Proof. unfold Checker_Evaluate. cbv zeta. repeat case_match; reflexivity. Qed.

(** C40: a checker that was built judges by the table it was given and never
    looks up a limit that is not there. One is built exactly when there is a
    classifier and a table with a default row, no limit of which is at or
    below zero nor any freeze limit at or below its warning limit; it keeps
    that table and classifier. Every decision is then taken on the row of its
    class: the class's own, else the default one; unless a limit of the row
    is NaN, the warning limit is above zero and the freeze limit above it. *)
Theorem NewChecker_thresholds ts cl c :
  (NewChecker ts cl = Ok c <->
     cl = Some (classifier c) /\ thresholds c = ts /\ is_Some (ts !! "default")
     /\ forall cls t, ts !! cls = Some t -> sound_row t)
  /\ (NewChecker ts cl = Ok c ->
      (forall cls, row_of ts cls (thresholdsFor c cls))
      /\ (forall g obs, let d := Checker_Evaluate g c obs in row_of ts (dClass d) (dThresholds d))
      /\ forall cls t, row_of ts cls t -> sound_row t
           /\ (IsNaN (WarnPct t) = false -> IsNaN (FreezePct t) = false ->
               f64_lt (S754_zero false) (WarnPct t) = true /\ f64_lt (WarnPct t) (FreezePct t) = true)).
Proof.
  split; [apply NewChecker_Ok|]. intros (_ & <- & Hd & Hall)%NewChecker_Ok. split_and!.
  - intros cls. by apply thresholdsFor_row.
  - intros g obs. cbv zeta. rewrite Checker_Evaluate_row. by apply thresholdsFor_row.
  - intros cls t Ht. assert (Hs : sound_row t) by (destruct Ht as [?|[_ ?]]; eauto).
    split; [done|]. destruct Hs as (Hw & Hf & Hfw). intros Nw Nf.
    rewrite !f64_lt_negb_le by done. by rewrite Hw, Hfw.
Qed.

Definition checker_ex : Checker := mkChecker DefaultThresholds (mkClassifier ∅).

Lemma NewChecker_thresholds_witness :
  is_ok (NewChecker DefaultThresholds (Some (mkClassifier ∅))) = true
  /\ (forall cls, row_of DefaultThresholds cls (thresholdsFor checker_ex cls))
  /\ thresholdsFor checker_ex "crypto" = mkThresholds (pct 20) (pct 50)
  /\ thresholdsFor checker_ex "exotic" = mkThresholds (pct 30) (pct 75)
  /\ NewChecker (<["crypto" := mkThresholds (pct 50) (pct 20)]> DefaultThresholds) (Some (mkClassifier ∅))
     = Err (BadClass "crypto").
Proof.
  split; [vm_compute; reflexivity|]. split.
  - refine (proj1 (proj2 (NewChecker_thresholds DefaultThresholds (Some (mkClassifier ∅)) checker_ex) _)).
    vm_compute. reflexivity.
  - repeat split; vm_compute; reflexivity.
Defined.

(** The exact move of a price in percent of the previous one. *)
Definition move_pct (prev curr : Q) : Q := (Qabs (curr - prev) / Qabs prev * (100 # 1))%Q.

Lemma computeDeviationPct_rounds prev curr : ~ (prev == 0)%Q ->
  rounds (move_pct prev curr) (computeDeviationPct prev curr).
Proof.
  intros Hp. unfold computeDeviationPct. destruct (Qeq_bool prev 0) eqn:E; [by apply Qeq_bool_eq in E|].
  eapply rounds_proper; [|reflexivity|apply rat_Float64_rounds].
  unfold move_pct, Qdiv. rewrite Qabs_Qmult, Qabs_Qinv.
  rewrite (Qabs_pos (Qabs _)) by apply Qabs_nonneg. reflexivity.
Qed.

(** A manipulated price is withheld and an ordinary one is not. For a
    checker whose limits for the asset are the float64 numbers [w] and [f],
    and a bucket whose price moved from a non-zero price by exactly [m] per
    cent: a move of at least [f] seen by at most one source is frozen, and a
    frozen bucket has at most one source and a move that no float64 below the
    freeze limit exceeds; a bucket with more than one source is never frozen;
    a bucket published without a warning moved by less than [w]. The rounding
    of the percentage to binary64 loses none of this. *)
Theorem Evaluate_move g c obs prev curr t w f :
  thresholdsFor c (ClassOf g (classifier c) (Base (obsPair obs))) = t ->
  PrevVWAP obs = Some prev -> CurrVWAP obs = Some curr -> ~ (prev == 0)%Q ->
  SetFloat64 (WarnPct t) = Some w -> SetFloat64 (FreezePct t) = Some f ->
  valid64 (WarnPct t) = true -> valid64 (FreezePct t) = true -> Thresholds_Validate t = Ok tt ->
  let d := Checker_Evaluate g c obs in
  ((f <= move_pct prev curr)%Q -> SourceCount obs <= 1 -> IsFrozen d = true)
  /\ (IsFrozen d = true -> SourceCount obs <= 1 /\
        forall x q, valid64 x = true -> SetFloat64 x = Some q -> f64_lt x (FreezePct (dThresholds d)) = true ->
          (q <= move_pct prev curr)%Q)
  /\ (1 < SourceCount obs -> Publishes d = true)
  /\ (dAction d = ActionAllow -> (move_pct prev curr < w)%Q)
  /\ Publishes d = negb (IsFrozen d).
Proof.
  intros Ht Hp Hc Hz Hw Hf Vw Vf Hv. unfold Checker_Evaluate. rewrite Hp, Hc, Ht. cbv zeta.
  pose proof (computeDeviationPct_rounds prev curr Hz) as Hr.
  set (dev := computeDeviationPct prev curr) in *.
  assert (Nd : IsNaN dev = false) by apply Hr.
  assert (Nw : IsNaN (WarnPct t) = false) by (by destruct (WarnPct t)).
  assert (Nf : IsNaN (FreezePct t) = false) by (by destruct (FreezePct t)).
  assert (Hwf : f64_le (WarnPct t) (FreezePct t) = true).
  { apply Thresholds_Validate_spec in Hv. apply f64_lt_le. rewrite f64_lt_negb_le by done. by rewrite (proj2 (proj2 Hv)). }
  assert (Hbig : (f <= move_pct prev curr)%Q -> f64_lt dev (FreezePct t) = false)
    by (by apply rounds_ge).
  assert (Hwarn : f64_lt dev (FreezePct t) = false -> f64_lt dev (WarnPct t) = false).
  { rewrite !f64_lt_negb_le, !negb_false_iff by done. intros. by eapply f64_le_trans. }
  assert (Hsmall : f64_lt dev (WarnPct t) = true -> (move_pct prev curr < w)%Q)
    by (by apply rounds_lt).
  assert (Hx : f64_lt dev (FreezePct t) = false -> forall x q, valid64 x = true -> SetFloat64 x = Some q ->
                 f64_lt x (FreezePct t) = true -> (q <= move_pct prev curr)%Q).
  { intros Hd x q Vx Sx Lx. apply Qnot_lt_le. intros Hlt. destruct Hr as (_ & _ & Hr).
    destruct (Hr x q Vx Sx) as [_ H2]. specialize (H2 ltac:(lra)).
    rewrite f64_lt_negb_le in Hd by done. apply negb_false_iff in Hd.
    assert (Nx : IsNaN x = false) by (by destruct x). rewrite f64_lt_negb_le in Lx by done.
    by rewrite (f64_le_trans _ _ _ Hd H2) in Lx. }
  destruct (f64_lt dev (WarnPct t)) eqn:Ew; [|destruct (f64_lt dev (FreezePct t)) eqn:Ef; [|case_if; bprop]];
    cbn [IsFrozen Publishes dAction dThresholds]; split_and!; try done; auto; try lia.
  - intros H. discriminate (Hwarn (Hbig H)).
  - intros H. discriminate (Hbig H).
  - intros _. split; [lia|by apply Hx].
Qed.

Definition obs_ex : Observation :=
  mkObservation (mkPair NativeAsset (mkAsset AssetFiat "USD" "" "")) (Some (1 # 10)%Q) (Some (2 # 10)%Q) 1.

Lemma Evaluate_move_witness :
  IsFrozen (Checker_Evaluate init_globals checker_ex obs_ex) = true.
Proof.
  refine (proj1 (Evaluate_move init_globals checker_ex obs_ex (1 # 10)%Q (2 # 10)%Q (mkThresholds (pct 30) (pct 75))
            (default 0%Q (SetFloat64 (pct 30))) (default 0%Q (SetFloat64 (pct 75))) _ eq_refl eq_refl _ _ _ _ _ _) _ _);
    first [vm_compute; reflexivity | vm_compute; congruence].
Defined.
