(* ===== verification/Freeze.v ===== *)
(** * The freeze lifecycle
    (internal/aggregate/freeze: lifecycle.go, and [LadderStillLive] of
    freeze.go)

    A frozen pair serves its last good price. The lifecycle decides, one
    closed bucket at a time, when a freeze starts, how long it holds, when it
    releases itself and when only an operator can end it. [Evaluate] is the
    code's function; [persist] is what its caller keeps between buckets
    (engageFreeze and releaseFreeze of orchestrator/phase2_freeze.go), and
    [step] adds the operator's override, so that [reach] holds of every state
    a running process can be in. Theorems about time take the clock readings
    of the signals in order, as the ticks that produce them are. *)

From S2P Require Import Prelude GoLib Float64.
From Stdlib Require Import Floats.SpecFloat.

(** [cachekeys.FreezeTTL]. *)
Definition FreezeTTL : Duration := 5 * Minute.

Definition DefaultInitialHold : Duration := 30 * Minute.
Definition DefaultUncorroboratedInitialHold : Duration := 10 * Minute.
Definition DefaultExtension : Duration := 30 * Minute.
Definition DefaultMaxExtensions : Z := 4.
(** 0.30 and 3.0, the doubles nearest to them. *)
Definition DefaultUnfreezeConfidenceMin : float64 := S754_finite false 5404319552844595 (-54).
Definition DefaultUnfreezeZScoreMax : float64 := S754_finite false 6755399441055744 (-51).
Definition DefaultUnfreezeBuckets : Z := 2.
Definition DefaultOverrideMemory : Duration := 2 * Hour.
Definition DefaultMarkerGrace : Duration := FreezeTTL.

Record Policy := mkPolicy {
  InitialHold : Duration;
  UncorroboratedInitialHold : Duration;
  Extension : Duration;
  MaxExtensions : Z;
  UnfreezeConfidenceMin : float64;
  UnfreezeZScoreMax : float64;
  UnfreezeBuckets : Z;
  MarkerGrace : Duration;
  OverrideMemory : Duration
}.

Definition unset_duration (d dflt : Duration) : Duration := if d <=? 0 then dflt else d.
Definition unset_int (n dflt : Z) : Z := if n =? 0 then dflt else n.
Definition unset_float (f dflt : float64) : float64 := if f64_eq f f64_zero then dflt else f.

Definition WithDefaults (p : Policy) : Policy := {|
  InitialHold := unset_duration (InitialHold p) DefaultInitialHold;
  UncorroboratedInitialHold :=
    unset_duration (UncorroboratedInitialHold p) DefaultUncorroboratedInitialHold;
  Extension := unset_duration (Extension p) DefaultExtension;
  MaxExtensions := unset_int (MaxExtensions p) DefaultMaxExtensions;
  UnfreezeConfidenceMin := unset_float (UnfreezeConfidenceMin p) DefaultUnfreezeConfidenceMin;
  UnfreezeZScoreMax := unset_float (UnfreezeZScoreMax p) DefaultUnfreezeZScoreMax;
  UnfreezeBuckets := unset_int (UnfreezeBuckets p) DefaultUnfreezeBuckets;
  MarkerGrace := unset_duration (MarkerGrace p) DefaultMarkerGrace;
  OverrideMemory := unset_duration (OverrideMemory p) DefaultOverrideMemory
|}.

Record State := mkState {
  FiredAt : Time;
  HoldUntil : Time;
  ExtensionsUsed : Z;
  Escalated : bool;
  UnfreezeStreak : Z;
  Corroborated : bool;
  OverriddenAt : Time
}.

(** [State{}]. *)
Definition zero_State : State := mkState zero_time zero_time 0 false 0 false zero_time.

#[export] Instance State_eq_dec : EqDecision State.
Proof. solve_decision. Defined.

Definition Overridden (s : State) (now : Time) : State :=
  mkState zero_time zero_time (ExtensionsUsed s) (Escalated s) 0 false now.

Definition Active (s : State) : bool := negb (time_IsZero (FiredAt s)).

Record Signal := mkSignal {
  Now : Time;
  Fires : bool;
  Scored : bool;
  Confidence : float64;
  ZScore : float64;
  sigCorroborated : bool;
  ReleaseCorroborated : bool
}.

Inductive Transition :=
| TransitionNone | TransitionFired | TransitionHeld | TransitionExtended
| TransitionHeldUnscored | TransitionEscalated | TransitionReleased | TransitionOverridden.

#[export] Instance Transition_eq_dec : EqDecision Transition.
Proof. solve_decision. Defined.

Record Outcome := mkOutcome {
  Frozen : bool;
  outTransition : Transition;
  outState : State;
  MarkerTTL : Duration
}.

(** Field updates of a copied state. *)
Definition set_HoldUntil (s : State) (t : Time) : State :=
  mkState (FiredAt s) t (ExtensionsUsed s) (Escalated s) (UnfreezeStreak s) (Corroborated s) (OverriddenAt s).
Definition set_ExtensionsUsed (s : State) (n : Z) : State :=
  mkState (FiredAt s) (HoldUntil s) n (Escalated s) (UnfreezeStreak s) (Corroborated s) (OverriddenAt s).
Definition set_Escalated (s : State) (b : bool) : State :=
  mkState (FiredAt s) (HoldUntil s) (ExtensionsUsed s) b (UnfreezeStreak s) (Corroborated s) (OverriddenAt s).
Definition set_UnfreezeStreak (s : State) (n : Z) : State :=
  mkState (FiredAt s) (HoldUntil s) (ExtensionsUsed s) (Escalated s) n (Corroborated s) (OverriddenAt s).
Definition set_OverriddenAt (s : State) (t : Time) : State :=
  mkState (FiredAt s) (HoldUntil s) (ExtensionsUsed s) (Escalated s) (UnfreezeStreak s) (Corroborated s) t.

Definition initialHold (p : Policy) (corroborated : bool) : Duration :=
  if corroborated then InitialHold p else UncorroboratedInitialHold p.

Definition minimumServed (p : Policy) (st : State) (now : Time) : bool :=
  negb (time_Before now (time_Add (FiredAt st) (initialHold p (Corroborated st)))).

Definition streak (p : Policy) (prev : Z) (sig : Signal) : Z :=
  if negb (Scored sig) || Fires sig then 0
  else if negb (ReleaseCorroborated sig) then 0
  else if f64_lt (UnfreezeConfidenceMin p) (Confidence sig)
          && f64_lt (ZScore sig) (UnfreezeZScoreMax p)
  then if UnfreezeBuckets p <=? prev then prev else prev + 1
  else 0.

(** The sum of two Durations is an int64 sum. *)
Definition frozen (p : Policy) (st : State) (tr : Transition) (now : Time) : Outcome :=
  let remaining := Z.max 0 (time_Sub (HoldUntil st) now) in
  mkOutcome true tr st (wraps 64 (remaining + MarkerGrace p)).

Definition fire (p : Policy) (prev : State) (sig : Signal) : Outcome :=
  let st := mkState (Now sig) (time_Add (Now sig) (initialHold p (sigCorroborated sig)))
                    0 false 0 (sigCorroborated sig) zero_time in
  if time_IsZero (OverriddenAt prev)
     || negb (time_Before (Now sig) (time_Add (OverriddenAt prev) (OverrideMemory p)))
  then frozen p st TransitionFired (Now sig)
  else
    let st := set_OverriddenAt (set_ExtensionsUsed st (ExtensionsUsed prev)) (OverriddenAt prev) in
    if Escalated prev
    then frozen p (set_HoldUntil (set_Escalated st true) (time_Add (Now sig) (Extension p)))
                TransitionEscalated (Now sig)
    else frozen p st TransitionFired (Now sig).

Definition Evaluate (p0 : Policy) (prev : State) (sig : Signal) : Outcome :=
  let p := WithDefaults p0 in
  if negb (Active prev) then
    if negb (Fires sig) then mkOutcome false TransitionNone zero_State 0
    else fire p prev sig
  else
    let st := set_UnfreezeStreak prev (streak p (UnfreezeStreak prev) sig) in
    let slid s := set_HoldUntil s (time_Add (Now sig) (Extension p)) in
    if Escalated st then frozen p (slid st) TransitionHeld (Now sig)
    else if (UnfreezeBuckets p <=? UnfreezeStreak st) && minimumServed p st (Now sig)
    then mkOutcome false TransitionReleased zero_State 0
    else if time_Before (Now sig) (HoldUntil st) then frozen p st TransitionHeld (Now sig)
    else if negb (Scored sig) then frozen p (slid st) TransitionHeldUnscored (Now sig)
    else if ExtensionsUsed st <? MaxExtensions p
    then frozen p (slid (set_ExtensionsUsed st (ExtensionsUsed st + 1))) TransitionExtended (Now sig)
    else frozen p (slid (set_Escalated st true)) TransitionEscalated (Now sig).

(** [LadderStillLive]: active, and not past the hold by more than the grace. *)
Definition LadderStillLive (st : State) (grace : Duration) (now : Time) : bool :=
  if negb (Active st) then false
  else negb (time_After now (time_Add (HoldUntil st) grace)).

(** What the caller keeps of an evaluation: the state of a frozen outcome;
    on release nothing, unless nothing was frozen, when the remembered ladder
    of an earlier override stays. *)
Definition persist (prev : State) (out : Outcome) : State :=
  if Frozen out then outState out
  else if Active prev then zero_State else prev.

Definition advance (p : Policy) (st : State) (sig : Signal) : State := persist st (Evaluate p st sig).

Definition run (p : Policy) (st : State) (sigs : list Signal) : State := foldl (advance p) st sigs.

(** One step of a pair's lifecycle at clock reading [t]: a bucket is
    evaluated, or an override ends the freeze. *)
Inductive step (p : Policy) : State -> Time -> State -> Prop :=
| step_bucket st sig : step p st (Now sig) (advance p st sig)
| step_override st now : Active st = true -> step p st now (Overridden st now).

(** States reachable from a start without a freeze, with a clock that does
    not run backwards and has left the zero time. *)
Inductive reach (p : Policy) : Time -> State -> Prop :=
| reach_start t0 : zero_time < t0 -> reach p t0 zero_State
| reach_step t st t' st' : reach p t st -> t <= t' -> step p st t' st' -> reach p t' st'.

(** ** Defaults *)

Lemma unset_duration_pos d dflt : 0 < dflt -> 0 < unset_duration d dflt.
Proof. unfold unset_duration. case_if; bprop; lia. Qed.

Lemma WithDefaults_durations p :
  0 < InitialHold (WithDefaults p) /\ 0 < UncorroboratedInitialHold (WithDefaults p)
  /\ 0 < Extension (WithDefaults p) /\ 0 < MarkerGrace (WithDefaults p)
  /\ 0 < OverrideMemory (WithDefaults p).
Proof. split_and!; apply unset_duration_pos; reflexivity. Qed.

Lemma initialHold_pos p b : 0 < initialHold (WithDefaults p) b.
Proof. destruct (WithDefaults_durations p) as (? & ? & _). by destruct b. Qed.

Lemma Extension_pos p : 0 < Extension (WithDefaults p).
Proof. apply WithDefaults_durations. Qed.

#[export] Hint Resolve initialHold_pos Extension_pos : go.

Lemma unset_duration_idem d dflt : 0 < dflt -> unset_duration (unset_duration d dflt) dflt = unset_duration d dflt.
Proof. unfold unset_duration. intros. repeat (case_if; bprop; try lia); lia. Qed.

Lemma unset_int_idem d dflt : dflt <> 0 -> unset_int (unset_int d dflt) dflt = unset_int d dflt.
Proof. unfold unset_int. intros. repeat (case_if; bprop; try lia); lia. Qed.

Lemma unset_float_idem d dflt :
  f64_eq dflt f64_zero = false -> unset_float (unset_float d dflt) dflt = unset_float d dflt.
Proof. unfold unset_float. intros Hd. destruct (f64_eq d f64_zero) eqn:E; by rewrite ?Hd, ?E. Qed.

(** Filling defaults in twice is filling them in once, so a caller may pass a
    policy that already has them. *)
Lemma WithDefaults_idem p : WithDefaults (WithDefaults p) = WithDefaults p.
Proof.
  unfold WithDefaults; simpl.
  rewrite !unset_duration_idem, !unset_int_idem, !unset_float_idem by done. done.
Qed.

#[global] Arguments WithDefaults : simpl never.

(** ** A signal's evidence of health *)

(** The condition of [streak]: the bucket was scored, does not fire, a lens
    agrees with the price a release would publish, and both thresholds hold. *)
Definition healthy (p : Policy) (sig : Signal) : bool :=
  Scored sig && negb (Fires sig) && ReleaseCorroborated sig
  && f64_lt (UnfreezeConfidenceMin p) (Confidence sig) && f64_lt (ZScore sig) (UnfreezeZScoreMax p).

(** The number of healthy buckets at the end of a history. *)
Definition healthy_suffix (p : Policy) (h : list Signal) : Z :=
  foldl (fun n sig => if healthy p sig then n + 1 else 0) 0 h.

Lemma streak_healthy p n sig :
  streak p n sig = if healthy p sig then (if UnfreezeBuckets p <=? n then n else n + 1) else 0.
Proof.
  unfold streak, healthy.
  destruct (Scored sig), (Fires sig), (ReleaseCorroborated sig),
    (f64_lt (UnfreezeConfidenceMin p) _), (f64_lt (ZScore sig) _); done.
Qed.

Lemma healthy_suffix_snoc p h sig :
  healthy_suffix p (h ++ [sig]) = if healthy p sig then healthy_suffix p h + 1 else 0.
Proof. unfold healthy_suffix. by rewrite foldl_app. Qed.

Lemma healthy_suffix_nonneg p h : 0 <= healthy_suffix p h.
Proof.
  induction h as [|sig h IH] using rev_ind; [done|].
  rewrite healthy_suffix_snoc. case_if; lia.
Qed.

(** ** The equations of one evaluation *)

Section Evaluation.
Context (p0 : Policy) (st : State) (sig : Signal).
Let p := WithDefaults p0.
Let k := streak p (UnfreezeStreak st) sig.

Lemma advance_inactive : Active st = false -> Fires sig = false -> advance p0 st sig = st.
Proof. unfold advance, Evaluate. intros HA ->. rewrite HA. simpl. unfold persist. simpl. by rewrite HA. Qed.

Lemma advance_fire : Active st = false -> Fires sig = true ->
  advance p0 st sig = outState (fire p st sig).
Proof.
  unfold advance, Evaluate. intros HA ->. rewrite HA. simpl. fold p. unfold fire, persist.
  destruct (_ || _); [done|]. by destruct (Escalated st).
Qed.

(** The outcome of an active state is read off the code's [switch]. *)
Lemma advance_active : Active st = true ->
  advance p0 st sig =
    if Escalated st then set_HoldUntil (set_UnfreezeStreak st k) (Now sig + Extension p)
    else if (UnfreezeBuckets p <=? k) && minimumServed p st (Now sig) then zero_State
    else if time_Before (Now sig) (HoldUntil st) then set_UnfreezeStreak st k
    else if negb (Scored sig) then set_HoldUntil (set_UnfreezeStreak st k) (Now sig + Extension p)
    else if ExtensionsUsed st <? MaxExtensions p
    then set_HoldUntil (set_ExtensionsUsed (set_UnfreezeStreak st k) (ExtensionsUsed st + 1))
                       (Now sig + Extension p)
    else set_HoldUntil (set_Escalated (set_UnfreezeStreak st k) true) (Now sig + Extension p).
Proof.
  unfold advance, Evaluate. intros HA. rewrite HA. cbn [negb]. fold p k. unfold persist.
  cbn [set_UnfreezeStreak set_HoldUntil Escalated UnfreezeStreak HoldUntil ExtensionsUsed Corroborated].
  replace (minimumServed p (set_UnfreezeStreak st k) (Now sig)) with (minimumServed p st (Now sig)) by done.
  destruct (Escalated st); [done|].
  destruct (_ && _); [by simpl; rewrite HA|].
  destruct (time_Before _ _); [done|]. destruct (negb (Scored sig)); [done|]. by destruct (_ <? _).
Qed.
End Evaluation.

(** Case on the branches of one evaluation. *)
Ltac cases_advance :=
  repeat (case_if; cbn [set_HoldUntil set_UnfreezeStreak set_ExtensionsUsed set_Escalated set_OverriddenAt
             FiredAt HoldUntil ExtensionsUsed Escalated UnfreezeStreak Corroborated OverriddenAt
             zero_State frozen outState] in *).

(** ** The invariant of a pair's lifecycle *)

Record lifecycle_inv (p : Policy) (t : Time) (st : State) : Prop := {
  inv_clock : zero_time < t;
  inv_ext : 0 <= ExtensionsUsed st <= Z.max 0 (MaxExtensions p);
  inv_esc : Escalated st = true -> MaxExtensions p <= ExtensionsUsed st;
  inv_streak : 0 <= UnfreezeStreak st <= Z.max 0 (UnfreezeBuckets p);
  inv_live : Active st = true -> zero_time < FiredAt st <= t /\ t < HoldUntil st;
  inv_hold : Active st = true -> Escalated st = false ->
             FiredAt st + initialHold p (Corroborated st) <= HoldUntil st;
  inv_far : Active st = true ->
            HoldUntil st <= t + Z.max (Extension p) (Z.max (InitialHold p) (UncorroboratedInitialHold p));
  inv_over : OverriddenAt st <= t
}.

Lemma Active_iff st : Active st = true <-> FiredAt st <> zero_time.
Proof. unfold Active, time_IsZero. rewrite negb_true_iff, Z.eqb_neq. done. Qed.

Lemma Active_false st : Active st = false <-> FiredAt st = zero_time.
Proof. unfold Active, time_IsZero. rewrite negb_false_iff, Z.eqb_eq. done. Qed.

Lemma streak_bounds p n sig :
  0 <= n <= Z.max 0 (UnfreezeBuckets p) -> 0 <= streak p n sig <= Z.max 0 (UnfreezeBuckets p).
Proof. rewrite streak_healthy. intros. repeat case_if; bprop; lia. Qed.

Lemma initialHold_max p b :
  initialHold p b <= Z.max (Extension p) (Z.max (InitialHold p) (UncorroboratedInitialHold p)).
Proof. destruct b; simpl; lia. Qed.

Lemma zero_State_inv p t : zero_time < t -> lifecycle_inv p t zero_State.
Proof. intros. split; simpl; try done; try lia. Qed.

Lemma fire_inv p t st sig :
  (forall b, 0 < initialHold p b) -> 0 < Extension p ->
  lifecycle_inv p t st -> Active st = false -> t <= Now sig ->
  lifecycle_inv p (Now sig) (outState (fire p st sig)).
Proof.
  intros Hh He [? ? ? ? ? ? ? ?] HA Ht. unfold fire, time_Add.
  specialize (Hh (sigCorroborated sig)).
  pose proof (initialHold_max p (sigCorroborated sig)).
  cases_advance; split; simpl; try done; try lia; intros; try lia; auto.
Qed.

Lemma advance_inv p0 t st sig : let p := WithDefaults p0 in
  lifecycle_inv p t st -> t <= Now sig -> lifecycle_inv p (Now sig) (advance p0 st sig).
Proof.
  intros p Hinv Ht. pose proof (initialHold_pos p0) as Hh. pose proof (Extension_pos p0) as He. fold p in Hh, He.
  destruct (Active st) eqn:HA.
  - rewrite advance_active by done. fold p. destruct Hinv as [? ? ? Hs Hl Hd Hf ?].
    apply (streak_bounds p _ sig) in Hs. specialize (Hl HA). specialize (Hd HA). specialize (Hf HA).
    generalize dependent (streak p (UnfreezeStreak st) sig). intros k Hk. clearbody p. unfold time_Before.
    cases_advance; try (apply zero_State_inv; lia); bprop;
      split; simpl; try done; try lia; intros; try lia; try congruence; auto; try (specialize (Hd eq_refl); lia).
  - destruct (Fires sig) eqn:HF; [rewrite advance_fire by done; eapply fire_inv; eauto|].
    rewrite advance_inactive by done. destruct Hinv. split; try done; try lia; congruence.
Qed.

Lemma step_inv p0 t st t' st' : let p := WithDefaults p0 in
  lifecycle_inv p t st -> t <= t' -> step p0 st t' st' -> lifecycle_inv p t' st'.
Proof.
  intros p Hinv Ht Hs. destruct Hs as [st sig|st now HA]; [by apply advance_inv with (t := t)|].
  destruct Hinv. split; simpl; try done; try lia.
Qed.

Lemma ladder_reach_inv p0 t st : reach p0 t st -> lifecycle_inv (WithDefaults p0) t st.
Proof.
  induction 1; [by apply zero_State_inv|]. eauto using step_inv.
Qed.

(** ** Episodes

    An episode is a run of buckets that all end frozen. *)

Fixpoint held (p : Policy) (st : State) (h : list Signal) : bool :=
  match h with
  | [] => true
  | sig :: h' => Frozen (Evaluate p st sig) && held p (advance p st sig) h'
  end.

(** Clock readings in order, at most [d] apart, from [t] on. *)
Fixpoint ticks (d : Duration) (t : Time) (h : list Signal) : Prop :=
  match h with
  | [] => True
  | sig :: h' => t <= Now sig <= t + d /\ ticks d (Now sig) h'
  end.

Definition last_now (t : Time) (h : list Signal) : Time := foldl (fun _ sig => Now sig) t h.

Lemma frozen_active p0 st sig : Active st = true ->
  Frozen (Evaluate p0 st sig) =
    Escalated st || negb ((UnfreezeBuckets (WithDefaults p0) <=? streak (WithDefaults p0) (UnfreezeStreak st) sig)
                          && minimumServed (WithDefaults p0) st (Now sig)).
Proof.
  unfold Evaluate. intros ->. cbn [negb set_UnfreezeStreak Escalated UnfreezeStreak].
  replace (minimumServed (WithDefaults p0) (set_UnfreezeStreak st _) (Now sig))
    with (minimumServed (WithDefaults p0) st (Now sig)) by done.
  destruct (Escalated st); [done|]. destruct (_ && _); [done|]. simpl. by repeat case_if.
Qed.

(** What a held bucket cannot change. *)
Lemma advance_held p0 st sig : Active st = true -> Frozen (Evaluate p0 st sig) = true ->
  let st' := advance p0 st sig in
  FiredAt st' = FiredAt st /\ Corroborated st' = Corroborated st /\ Active st' = true
  /\ UnfreezeStreak st' = streak (WithDefaults p0) (UnfreezeStreak st) sig
  /\ (Escalated st = true -> Escalated st' = true).
Proof.
  intros HA HF st'. rewrite frozen_active in HF by done. subst st'. rewrite advance_active by done.
  destruct (Escalated st) eqn:HE; cbn [orb] in HF; [simpl; rewrite ?HE; split_and!; done|].
  apply negb_true_iff in HF. rewrite HF. unfold Active in HA |- *.
  repeat case_if; simpl; rewrite ?HE; split_and!; done.
Qed.

Lemma run_held p0 st h : Active st = true -> held p0 st h = true ->
  let st' := run p0 st h in
  FiredAt st' = FiredAt st /\ Corroborated st' = Corroborated st /\ Active st' = true
  /\ (Escalated st = true -> Escalated st' = true).
Proof.
  revert st. induction h as [|sig h IH]; intros st HA Hh; simpl in *; [split_and!; done|].
  bprop. destruct (advance_held p0 st sig) as (? & ? & ? & _ & ?); [done..|].
  destruct (IH (advance p0 st sig)) as (? & ? & ? & ?); [done..|].
  split_and!; try congruence; auto.
Qed.

Lemma run_app p0 st h sig : run p0 st (h ++ [sig]) = advance p0 (run p0 st h) sig.
Proof. unfold run. by rewrite foldl_app. Qed.

Lemma held_snoc p0 st h sig :
  held p0 st (h ++ [sig]) = held p0 st h && Frozen (Evaluate p0 (run p0 st h) sig).
Proof.
  revert st. induction h as [|s h IH]; intros st; simpl; [by rewrite andb_true_r|].
  by rewrite IH, andb_assoc.
Qed.

(** The streak is the healthy suffix of the episode, cut at the target. *)
Lemma streak_suffix p0 st h : Active st = true -> UnfreezeStreak st = 0 -> held p0 st h = true ->
  let p := WithDefaults p0 in
  UnfreezeStreak (run p0 st h) = Z.min (Z.max 0 (UnfreezeBuckets p)) (healthy_suffix p h).
Proof.
  intros HA H0 Hh p. revert Hh. induction h as [|sig h IH] using rev_ind; intros Hh.
  { simpl. rewrite H0. unfold healthy_suffix. simpl. lia. }
  rewrite held_snoc in Hh. bprop. specialize (IH H).
  destruct (run_held p0 st h) as (_ & _ & HA' & _); [done..|].
  rewrite run_app. destruct (advance_held p0 (run p0 st h) sig) as (_ & _ & _ & -> & _); [done..|].
  rewrite IH, streak_healthy. fold p. rewrite healthy_suffix_snoc.
  pose proof (healthy_suffix_nonneg p h). repeat case_if; bprop; lia.
Qed.

(** ** The ladder *)

(** An escalated freeze is held whatever the buckets say. *)
Lemma escalated_held p0 st h : Active st = true -> Escalated st = true ->
  held p0 st h = true /\ Escalated (run p0 st h) = true.
Proof.
  revert st. induction h as [|sig h IH]; intros st HA HE; simpl; [done|].
  assert (HF : Frozen (Evaluate p0 st sig) = true) by (rewrite frozen_active, HE; done).
  rewrite HF. destruct (advance_held p0 st sig HA HF) as (_ & _ & HA' & _ & HE'). by apply IH; auto.
Qed.

(** Buckets that could not be scored hold a freeze (one that has not already
    earned its release) and never climb its ladder. *)
Lemma unscored_held p0 st h :
  Active st = true -> 0 < UnfreezeBuckets (WithDefaults p0) ->
  Forall (fun sig => Scored sig = false) h ->
  held p0 st h = true /\ ExtensionsUsed (run p0 st h) = ExtensionsUsed st
  /\ Escalated (run p0 st h) = Escalated st.
Proof.
  intros HA HB Hh. revert st HA. induction Hh as [|sig h Hs _ IH]; intros st HA; simpl; [done|].
  assert (Hk : streak (WithDefaults p0) (UnfreezeStreak st) sig = 0) by (unfold streak; by rewrite Hs).
  assert (HF : Frozen (Evaluate p0 st sig) = true).
  { rewrite frozen_active, Hk by done. replace (UnfreezeBuckets _ <=? 0) with false by lia. by rewrite orb_true_r. }
  rewrite HF. destruct (advance_held p0 st sig HA HF) as (_ & _ & HA' & _).
  destruct (IH _ HA') as (-> & -> & ->). split; [done|].
  rewrite advance_active, Hk, Hs by done. replace (UnfreezeBuckets _ <=? 0) with false by lia.
  simpl. by repeat case_if.
Qed.

(** A held, scored, undecided bucket leaves the hold alone or, once the hold
    is over, takes one of the extensions that are left. *)
Lemma climb_step p0 st sig :
  Active st = true -> Frozen (Evaluate p0 st sig) = true -> Scored sig = true ->
  Escalated (advance p0 st sig) = false ->
  (Now sig < HoldUntil st /\ HoldUntil (advance p0 st sig) = HoldUntil st
   /\ ExtensionsUsed (advance p0 st sig) = ExtensionsUsed st)
  \/ (HoldUntil st <= Now sig
      /\ HoldUntil (advance p0 st sig) = Now sig + Extension (WithDefaults p0)
      /\ ExtensionsUsed (advance p0 st sig) = ExtensionsUsed st + 1
      /\ ExtensionsUsed st < MaxExtensions (WithDefaults p0)).
Proof.
  intros HA HF Hs. destruct (advance_held p0 st sig HA HF) as (_ & _ & _ & _ & Hmono).
  rewrite frozen_active in HF by done. intros HE.
  destruct (Escalated st) eqn:HEs; [rewrite Hmono in HE; done|].
  cbn [orb] in HF. apply negb_true_iff in HF. revert HE.
  rewrite advance_active, HEs, HF, Hs by done. cbn [negb]. unfold time_Before.
  repeat case_if; bprop; intros; [left|right|done]; split_and!; simpl; try done; lia.
Qed.

(** The climb of a held, undecided freeze whose buckets are all scored. *)
Lemma climb_bound p0 d st t h :
  Active st = true -> t < HoldUntil st -> 0 <= d ->
  Forall (fun sig => Scored sig = true) h -> ticks d t h ->
  held p0 st h = true -> Escalated (run p0 st h) = false ->
  last_now t h < HoldUntil st + Z.max 0 (MaxExtensions (WithDefaults p0) - ExtensionsUsed st)
                                * (Extension (WithDefaults p0) + d).
Proof.
  intros HA Ht Hd Hs. pose proof (Extension_pos p0) as He. revert st t HA Ht.
  induction Hs as [|sig h Hsig _ IH]; intros st t HA Ht Htick Hh HE.
  { change (last_now t []) with t. assert (0 <= Z.max 0 (MaxExtensions (WithDefaults p0) - ExtensionsUsed st)
      * (Extension (WithDefaults p0) + d)) by (apply Z.mul_nonneg_nonneg; lia). lia. }
  simpl in Htick, Hh. destruct Htick as [Hn Htick]. bprop.
  change (last_now t (sig :: h)) with (last_now (Now sig) h).
  change (run p0 st (sig :: h)) with (run p0 (advance p0 st sig) h) in HE.
  destruct (advance_held p0 st sig HA H) as (_ & _ & HA' & _ & _).
  assert (HE0 : Escalated (advance p0 st sig) = false).
  { destruct (Escalated (advance p0 st sig)) eqn:E; [|done].
    destruct (escalated_held p0 (advance p0 st sig) h); congruence. }
  destruct (climb_step p0 st sig) as [(? & Hu & Hx)|(? & Hu & Hx & ?)]; [done..| |];
    assert (Hlt : Now sig < HoldUntil (advance p0 st sig)) by lia;
    specialize (IH _ _ HA' Hlt Htick H0 HE); rewrite Hu, Hx in IH; [done|].
  rewrite Z.max_r in IH |- * by lia. nia.
Qed.

(** A state on its way to a release: the ladder has room for the healthy
    buckets that are still missing. *)
Definition releasing (p : Policy) (st : State) : Prop :=
  Active st = true /\ Escalated st = false
  /\ FiredAt st + initialHold p (Corroborated st) <= HoldUntil st
  /\ 0 <= UnfreezeStreak st <= UnfreezeBuckets p
  /\ ExtensionsUsed st + Z.max 0 (UnfreezeBuckets p - UnfreezeStreak st - 1) <= MaxExtensions p.

Lemma healthy_step p0 st sig : let p := WithDefaults p0 in
  0 < UnfreezeBuckets p -> releasing p st -> healthy p sig = true -> Frozen (Evaluate p0 st sig) = true ->
  releasing p (advance p0 st sig)
  /\ UnfreezeStreak (advance p0 st sig) = Z.min (UnfreezeBuckets p) (UnfreezeStreak st + 1)
  /\ (UnfreezeBuckets p <= UnfreezeStreak st + 1 -> Now sig < FiredAt st + initialHold p (Corroborated st)).
Proof.
  intros p HB (HA & HE & Hh & Hk & Hx) Hs HF.
  destruct (advance_held p0 st sig HA HF) as (Hf & Hc & HA' & Hstr & _).
  rewrite streak_healthy in Hstr. fold p in Hstr. rewrite Hs in Hstr.
  rewrite frozen_active, HE, streak_healthy in HF by done. fold p in HF. rewrite Hs in HF.
  cbn [orb] in HF. apply negb_true_iff in HF.
  assert (HS : Scored sig = true) by (unfold healthy in Hs; bprop; done).
  pose proof (Extension_pos p0) as He. fold p in He.
  unfold releasing. rewrite Hstr, Hf, Hc, HA'. clear Hstr Hf Hc HA'.
  rewrite advance_active, HE by done. fold p. rewrite streak_healthy, Hs, HF, HS.
  unfold minimumServed, time_Before, time_Add in *. clearbody p.
  assert (HN : UnfreezeBuckets p <= UnfreezeStreak st + 1 -> Now sig < FiredAt st + initialHold p (Corroborated st)).
  { revert HF. repeat case_if; intros; bprop; try lia; destruct (_ <? _) eqn:?; bprop; try lia; simpl in *; lia. }
  clear HF. cbn [negb]. repeat case_if; bprop; simpl; split_and!; try done; try lia.
Qed.

Lemma healthy_run p0 st t h : let p := WithDefaults p0 in
  0 < UnfreezeBuckets p -> releasing p st ->
  Forall (fun sig => healthy p sig = true) h -> held p0 st h = true ->
  h <> [] -> UnfreezeBuckets p <= UnfreezeStreak st + Z.of_nat (length h) ->
  last_now t h < FiredAt st + initialHold p (Corroborated st).
Proof.
  intros p HB Hr Hs. revert st t Hr. induction Hs as [|sig h Hsig Hs IH]; intros st t Hr Hh Hne Hlen; [done|].
  simpl in Hh. bprop. destruct (healthy_step p0 st sig) as (Hr' & Hk & HN); [done..|].
  destruct Hr as (HA & _ & _ & Hb & _).
  destruct (advance_held p0 st sig) as (Hf & Hc & _); [done..|].
  change (last_now t (sig :: h)) with (last_now (Now sig) h). fold p in Hk, Hr', HN.
  destruct h as [|sig' h]; [simpl in *; apply HN; lia|].
  rewrite <- Hf, <- Hc. apply IH; [done..|]. rewrite Hk. simpl in *. lia.
Qed.

(** ** Main properties *)

Lemma released_frozen p0 st sig : Active st = true ->
  outTransition (Evaluate p0 st sig) = TransitionReleased <-> Frozen (Evaluate p0 st sig) = false.
Proof.
  unfold Evaluate. intros ->. cbn [negb]. repeat case_if; simpl; done.
Qed.

(** The state a fresh fire leaves. *)
Lemma fired_state p0 prev sig :
  outTransition (Evaluate p0 prev sig) = TransitionFired ->
  let st := outState (Evaluate p0 prev sig) in
  Frozen (Evaluate p0 prev sig) = true /\ FiredAt st = Now sig /\ Corroborated st = sigCorroborated sig
  /\ UnfreezeStreak st = 0 /\ Escalated st = false
  /\ HoldUntil st = Now sig + initialHold (WithDefaults p0) (sigCorroborated sig).
Proof.
  unfold Evaluate, fire. destruct (Active prev); cbn [negb].
  - repeat case_if; simpl; done.
  - destruct (Fires sig); cbn [negb]; [|done].
    destruct (_ || _); [intros _; split_and!; done|]. destruct (Escalated prev); [done|intros _; split_and!; done].
Qed.

(** C2: a freeze ends by itself exactly when it should. For a freeze fired at
    one bucket and held through every bucket [h] since, the next bucket
    releases it if and only if the ladder has not escalated, the buckets up to
    and including this one end with at least [UnfreezeBuckets] consecutive
    healthy ones (scored, not firing, agreed by a lens, confidence above and
    z-score below the limits), and the initial hold, counted from the fire and
    not from the sliding hold, has been served. *)
Theorem freeze_release_exact p0 prev sig0 h sig :
  outTransition (Evaluate p0 prev sig0) = TransitionFired -> Now sig0 <> zero_time ->
  held p0 (outState (Evaluate p0 prev sig0)) h = true ->
  (outTransition (Evaluate p0 (run p0 (outState (Evaluate p0 prev sig0)) h) sig) = TransitionReleased <->
   Escalated (run p0 (outState (Evaluate p0 prev sig0)) h) = false
   /\ UnfreezeBuckets (WithDefaults p0) <= healthy_suffix (WithDefaults p0) (h ++ [sig])
   /\ Now sig0 + initialHold (WithDefaults p0) (sigCorroborated sig0) <= Now sig).
Proof.
  intros Hfire Hz Hh. destruct (fired_state _ _ _ Hfire) as (_ & Hf & Hc & Hk & _).
  set (st0 := outState (Evaluate p0 prev sig0)) in *.
  assert (HA0 : Active st0 = true) by (apply Active_iff; congruence).
  destruct (run_held p0 st0 h) as (Hf' & Hc' & HA & _); [done..|].
  rewrite released_frozen, frozen_active by done.
  rewrite (streak_suffix p0 st0 h), streak_healthy, healthy_suffix_snoc by done.
  pose proof (healthy_suffix_nonneg (WithDefaults p0) h).
  unfold minimumServed, time_Before, time_Add. rewrite Hf', Hc', Hf, Hc.
  rewrite orb_false_iff, negb_false_iff, andb_true_iff, negb_true_iff, Z.leb_le, Z.ltb_ge.
  repeat case_if; bprop; intuition lia.
Qed.

Definition health_ex (t : Time) : Signal := mkSignal t false true f64_one f64_zero true true.
Definition fire_ex (t : Time) : Signal := mkSignal t true true f64_zero f64_one true false.
Definition policy_ex : Policy := mkPolicy 0 0 0 0 f64_zero f64_zero 0 0 0.

Lemma reach_ex : reach policy_ex 0 (advance policy_ex zero_State (fire_ex 0)).
Proof.
  apply (reach_step policy_ex (-1) zero_State 0); [by constructor|lia|].
  apply (step_bucket policy_ex zero_State (fire_ex 0)).
Qed.

Lemma freeze_release_exact_witness :
  outTransition (Evaluate policy_ex (run policy_ex (outState (Evaluate policy_ex zero_State (fire_ex 0)))
                  [health_ex (29 * Minute)]) (health_ex (30 * Minute))) = TransitionReleased.
Proof.
  apply (freeze_release_exact policy_ex zero_State (fire_ex 0) [health_ex (29 * Minute)] (health_ex (30 * Minute)));
    vm_compute; try done.
Defined.

(** C24: a recovered market is served again. From any reachable frozen state
    whose ladder has not escalated and still has a rung for each healthy
    bucket but one that a release needs, every run of healthy buckets that is
    long enough and reaches the end of the initial hold contains the release. *)
Theorem freeze_recovers p0 t st h :
  reach p0 t st -> Active st = true -> Escalated st = false ->
  0 < UnfreezeBuckets (WithDefaults p0) ->
  ExtensionsUsed st + (UnfreezeBuckets (WithDefaults p0) - 1) <= MaxExtensions (WithDefaults p0) ->
  Forall (fun sig => healthy (WithDefaults p0) sig = true) h ->
  UnfreezeBuckets (WithDefaults p0) <= Z.of_nat (length h) ->
  FiredAt st + initialHold (WithDefaults p0) (Corroborated st) <= last_now t h ->
  held p0 st h = false.
Proof.
  intros Hr HA HE HB Hx Hs Hlen Hlast. apply ladder_reach_inv in Hr. destruct Hr as [_ _ _ Hk _ Hh _ _].
  apply not_true_iff_false. intros Hheld.
  assert (Hrel : releasing (WithDefaults p0) st) by (unfold releasing; split_and!; auto; lia).
  pose proof (healthy_run p0 st t h HB Hrel Hs Hheld) as Hl.
  enough (last_now t h < FiredAt st + initialHold (WithDefaults p0) (Corroborated st)) by lia.
  apply Hl; [intros ->; cbn in Hlen; lia | lia].
Qed.

Lemma freeze_recovers_witness :
  held policy_ex (advance policy_ex zero_State (fire_ex 0)) [health_ex Minute; health_ex (40 * Minute)] = false.
Proof.
  refine (freeze_recovers policy_ex 0 _ _ reach_ex _ _ _ _ _ _ _).
  1-2: vm_compute; reflexivity.
  1-2: vm_compute; congruence.
  1: repeat constructor; vm_compute; reflexivity.
  all: vm_compute; congruence.
Defined.

(** C32: no freeze is left undecided. From any reachable frozen state, if
    every bucket can be scored and buckets are at most [d] apart, then by the
    time the remaining extensions (each at most one hold plus one gap) are
    used up, the freeze has been released or an operator has been called. *)
Theorem freeze_decided p0 d t st h :
  reach p0 t st -> Active st = true -> 0 <= d ->
  Forall (fun sig => Scored sig = true) h -> ticks d t h ->
  HoldUntil st + Z.max 0 (MaxExtensions (WithDefaults p0) - ExtensionsUsed st)
                 * (Extension (WithDefaults p0) + d) <= last_now t h ->
  held p0 st h = false \/ Escalated (run p0 st h) = true.
Proof.
  intros Hr HA Hd Hs Htick Hlast. apply ladder_reach_inv in Hr. destruct (inv_live _ _ _ Hr HA) as [_ Ht].
  destruct (held p0 st h) eqn:Hh; [right|by left].
  destruct (Escalated (run p0 st h)) eqn:HE; [done|].
  pose proof (climb_bound p0 d st t h HA Ht Hd Hs Htick Hh HE). lia.
Qed.

Lemma freeze_decided_witness :
  held policy_ex (advance policy_ex zero_State (fire_ex 0))
       (map fire_ex [30 * Minute; 60 * Minute; 90 * Minute; 120 * Minute; 150 * Minute; 180 * Minute;
                     210 * Minute; 240 * Minute; 270 * Minute]) = false
  \/ Escalated (run policy_ex (advance policy_ex zero_State (fire_ex 0))
       (map fire_ex [30 * Minute; 60 * Minute; 90 * Minute; 120 * Minute; 150 * Minute; 180 * Minute;
                     210 * Minute; 240 * Minute; 270 * Minute])) = true.
Proof.
  refine (freeze_decided policy_ex (30 * Minute) 0 _ _ reach_ex _ _ _ _ _).
  - vm_compute; reflexivity.
  - vm_compute; congruence.
  - repeat constructor.
  - vm_compute. intuition congruence.
  - vm_compute; congruence.
Defined.

(** The invariant of a lifecycle, whatever buckets and overrides it sees:
    the ladder stays within its rungs, is full once escalated, the streak
    stays within its target, a live freeze always has hold left (so its marker
    is always written with more than the grace), is never past the longest
    hold, and an unescalated one is held at least for its initial hold. *)
Theorem freeze_invariant p0 t st :
  reach p0 t st ->
  0 <= ExtensionsUsed st <= Z.max 0 (MaxExtensions (WithDefaults p0))
  /\ (Escalated st = true -> MaxExtensions (WithDefaults p0) <= ExtensionsUsed st)
  /\ 0 <= UnfreezeStreak st <= Z.max 0 (UnfreezeBuckets (WithDefaults p0))
  /\ (Active st = true ->
      FiredAt st <= t < HoldUntil st
      /\ HoldUntil st <= t + Z.max (Extension (WithDefaults p0))
           (Z.max (InitialHold (WithDefaults p0)) (UncorroboratedInitialHold (WithDefaults p0)))
      /\ (Escalated st = false ->
          FiredAt st + initialHold (WithDefaults p0) (Corroborated st) <= HoldUntil st)).
Proof.
  intros Hr. destruct (ladder_reach_inv _ _ _ Hr) as [_ ? ? ? Hl Hh Hf _].
  do 3 (split; [done|]). intros HA. destruct (Hl HA). auto with lia.
Qed.

Lemma freeze_invariant_witness :
  0 <= ExtensionsUsed (advance policy_ex zero_State (fire_ex 0)) <= 4.
Proof.
  destruct (freeze_invariant policy_ex 0 (advance policy_ex zero_State (fire_ex 0))) as [H _]; [exact reach_ex|exact H].
Defined.

(** The marker of a frozen outcome outlives the hold by exactly the grace,
    for holds within the Duration range. *)
Lemma frozen_MarkerTTL p0 st sig t :
  lifecycle_inv (WithDefaults p0) t st -> t <= Now sig -> Frozen (Evaluate p0 st sig) = true ->
  HoldUntil (advance p0 st sig) - Now sig + MarkerGrace (WithDefaults p0) <= MaxInt64 ->
  MarkerTTL (Evaluate p0 st sig)
  = HoldUntil (advance p0 st sig) - Now sig + MarkerGrace (WithDefaults p0)
  /\ MarkerGrace (WithDefaults p0) < MarkerTTL (Evaluate p0 st sig).
Proof.
  intros Hinv Ht HF Hmax. pose proof (advance_inv p0 t st sig Hinv Ht) as Hinv'.
  destruct (WithDefaults_durations p0) as (_ & _ & _ & HG & _).
  assert (HE : MarkerTTL (Evaluate p0 st sig) = wraps 64 (Z.max 0 (time_Sub (HoldUntil (advance p0 st sig)) (Now sig))
             + MarkerGrace (WithDefaults p0)) /\ Active (advance p0 st sig) = true).
  { destruct (Active st) eqn:HA.
    - split; [|by apply advance_held]. revert HF. unfold advance, persist, Evaluate. rewrite HA. cbn [negb].
      repeat case_if; simpl; done.
    - assert (HF' : Fires sig = true) by (revert HF; unfold Evaluate; rewrite HA; destruct (Fires sig); done).
      rewrite advance_fire by done. split; [|apply Active_iff].
      + unfold Evaluate, fire. rewrite HA, HF'. cbn [negb]. repeat case_if; done.
      + destruct Hinv. unfold fire. repeat case_if; simpl; lia. }
  destruct HE as [-> HA']. destruct (inv_live _ _ _ Hinv' HA') as [_ Hlt].
  unfold time_Sub. rewrite wraps_small; unfold MinInt64, MaxInt64 in *; lia.
Qed.

Lemma run_quiet p0 st h : Active st = false -> Forall (fun sig => Fires sig = false) h -> run p0 st h = st.
Proof.
  intros HA Hq. induction Hq as [|sig h Hs _ IH]; [done|].
  change (run p0 st (sig :: h)) with (run p0 (advance p0 st sig) h). by rewrite advance_inactive.
Qed.

(** An override does not reset the ladder. If an escalated freeze is ended
    out of band and, after any buckets that do not fire, the pair fires again
    within the override memory, the new freeze is escalated at once: it has
    the rungs already climbed, is not released by any later buckets, and an
    operator is called again. Past the memory the pair starts afresh. *)
Theorem override_remembers p0 st now quiet sig later :
  Escalated st = true -> now <> zero_time ->
  Forall (fun s => Fires s = false) quiet -> Fires sig = true -> Now sig <> zero_time ->
  (Now sig < now + OverrideMemory (WithDefaults p0) ->
     let out := Evaluate p0 (run p0 (Overridden st now) quiet) sig in
     outTransition out = TransitionEscalated /\ Escalated (outState out) = true
     /\ ExtensionsUsed (outState out) = ExtensionsUsed st
     /\ held p0 (outState out) later = true)
  /\ (now + OverrideMemory (WithDefaults p0) <= Now sig ->
     let out := Evaluate p0 (run p0 (Overridden st now) quiet) sig in
     outTransition out = TransitionFired /\ Escalated (outState out) = false
     /\ ExtensionsUsed (outState out) = 0).
Proof.
  intros HE Hz Hq HF Hzs. rewrite run_quiet by done.
  assert (Hi : Active (Overridden st now) = false) by done.
  unfold Evaluate. rewrite Hi, HF. cbn [negb]. unfold fire, time_IsZero, time_Before, time_Add.
  cbn [Overridden OverriddenAt Escalated ExtensionsUsed]. rewrite HE.
  replace (now =? zero_time) with false by lia. split; intros Hm.
  - replace (Now sig <? now + OverrideMemory (WithDefaults p0)) with true by lia.
    cbn [orb negb frozen outTransition outState Escalated set_HoldUntil set_Escalated ExtensionsUsed
         set_OverriddenAt set_ExtensionsUsed]. split_and!; try done.
    apply escalated_held; [|done]. by apply Active_iff.
  - replace (Now sig <? now + OverrideMemory (WithDefaults p0)) with false by lia. done.
Qed.

Lemma override_remembers_witness :
  ExtensionsUsed (outState (Evaluate policy_ex
     (run policy_ex (Overridden (mkState 1 2 4 true 0 false zero_time) Minute) [health_ex (2 * Minute)])
     (fire_ex (3 * Minute)))) = 4.
Proof.
  refine (proj1 (proj2 (proj2 (proj1 (override_remembers policy_ex (mkState 1 2 4 true 0 false zero_time) Minute
            [health_ex (2 * Minute)] (fire_ex (3 * Minute)) [] _ _ _ _ _) _)))).
  1: reflexivity.
  1: vm_compute; congruence.
  1: repeat constructor.
  1: reflexivity.
  all: vm_compute; congruence.
Defined.

(** A release does not wait for the hold to end: after an extension, two
    healthy buckets release the pair before the extended hold expires. *)
Example released_before_expiry :
  let st := run policy_ex zero_State [fire_ex 0; fire_ex (30 * Minute); health_ex (31 * Minute)] in
  outTransition (Evaluate policy_ex st (health_ex (32 * Minute))) = TransitionReleased
  /\ HoldUntil st = 60 * Minute.
Proof. vm_compute. split; reflexivity. Qed.
