(* ===== verification/FreezeStore.v ===== *)
(** * Freeze markers and their durable ladders
    (internal/aggregate/freeze: freeze.go, recovery.go)

    The lifecycle of each (pair, window) is kept in a Redis marker, one per
    pair, and mirrored in a durable record, so that a restart or the loss of
    Redis neither ends a freeze nor lets one window inherit another's. [Writer]
    is the code's writer; its methods pass the cache and the store explicitly.

    Redis and the durable store are behind the interfaces of the code,
    [RedisCache] and [LadderDB]: every call may fail, and the laws say what a
    call that succeeds has done. A marker is the value it decodes to, or a
    body that does not decode; ladders are keyed by the window whose label the
    code prints. One operation reads the clock once. Logging and metrics are
    left out. *)

From S2P Require Import Prelude GoLib Float64 Asset Anomaly Freeze.

(** ** Interfaces *)

Record Marker := mkMarker {
  AssetID : string;
  QuoteID : string;
  mAction : Action;
  mClass : AssetClass;
  mDeviationPct : float64;
  mReason : reason;
  FrozenAt : Time;
  Windowed : bool;
  Ladders : gmap Duration State;
  UnownedLadder : State;
  UnownedSince : Time;
  mState : State
}.

Record overrideRecord := mkOverride { Actor : string; ovReason : string; At : Time }.

Inductive body := BMarker (m : Marker) | BOverride (r : overrideRecord) | BUndecodable.

Inductive io_err := CacheErr | StoreErr.

(** The four calls of the Redis client. [redis_SetXX] is SET with XX and
    KEEPTTL, [Ok false] when the key was absent. [live] is what a key holds
    at an instant, expiry included; GET reports it or fails. *)
Class RedisCache (C : Type) := {
  redis_Get : C -> Time -> string -> res io_err (option body);
  redis_Set : string -> body -> Duration -> Time -> C -> C * option io_err;
  redis_SetXX : string -> body -> Time -> C -> C * res io_err bool;
  redis_Del : string -> Time -> C -> C * option io_err;
  live : C -> Time -> string -> option body
}.

(** Expiry is kept in milliseconds, so a value outlives its TTL's last
    millisecond at most. *)
Definition Millisecond : Duration := 1000000.

Class RedisLaws (C : Type) `{RedisCache C} := {
  Get_live c t k v : redis_Get c t k = Ok v -> v = live c t k;
  Set_live c k b ttl now c' t : redis_Set k b ttl now c = (c', None) ->
    now <= t -> t + Millisecond <= now + ttl -> live c' t k = Some b;
  Set_other c k b ttl now c' t k' : redis_Set k b ttl now c = (c', None) -> k' <> k ->
    live c' t k' = live c t k';
  SetXX_live c k b now c' t : redis_SetXX k b now c = (c', Ok true) -> now <= t ->
    live c' t k = match live c t k with Some _ => Some b | None => None end;
  SetXX_absent c k b now c' : redis_SetXX k b now c = (c', Ok false) -> c' = c;
  Del_live c k now c' t : redis_Del k now c = (c', None) -> live c' t k = None
}.

(** The durable store: the pair-level ladder of [LadderStore], the per-window
    ladders of [WindowLadderStore], the event row of [EventSink]. *)
Class LadderDB (D : Type) := {
  RecordFreeze : Asset -> Asset -> string -> Decision -> D -> D * option io_err;
  SaveLadder : Asset -> Asset -> State -> D -> D * option io_err;
  LoadLadder : D -> Asset -> Asset -> res io_err (option State);
  SaveWindowLadder : Asset -> Asset -> Duration -> State -> D -> D * option io_err;
  LoadWindowLadders : D -> Asset -> Asset -> res io_err (option (gmap Duration State * State))
}.

(** The keys of [cachekeys]. *)
Definition Freeze_key (asset quote : Asset) : string :=
  "freeze:" +:+ Asset_String asset +:+ ":" +:+ Asset_String quote.
Definition FreezeOverride_key (asset quote : Asset) : string :=
  "freeze:override:" +:+ Asset_String asset +:+ ":" +:+ Asset_String quote.

Definition DefaultLadderGrace : Duration := DefaultMarkerGrace.

(** What the options of [NewWriter] wire. [hasWindowLadder] is the result of
    the type assertion in [WithLadderStore], so it implies [hasLadder]. *)
Record Writer := mkWriter {
  w_ttl : Duration;
  hasSink : bool;
  hasLadder : bool;
  hasWindowLadder : bool;
  ladderGrace : Duration
}.

Definition NewWriter (ttl : Duration) (sink ladder windowLadder : bool) (grace : Duration) : Writer :=
  mkWriter (if ttl <=? 0 then FreezeTTL else ttl) sink ladder (ladder && windowLadder)
           (if grace <=? 0 then DefaultLadderGrace else grace).

(** [windowLabel]: none for the unscoped sentinel. *)
Definition windowLabel (window : Duration) : option Duration :=
  if window <=? 0 then None else Some window.

Section Store.
Context {C D : Type} `{RedisCache C} `{LadderDB D}.

(** What an operation reads and changes. *)
Record world := mkWorld { cache : C; db : D }.

Section Ops.
Context (w : Writer) (asset quote : Asset) (now : Time).

Let key := Freeze_key asset quote.

(** ** Reading *)

Definition readMarker (s : world) : res io_err (option Marker) :=
  match redis_Get (cache s) now key with
  | Err e => Err e
  | Ok None => Ok None
  | Ok (Some (BMarker m)) => Ok (Some m)
  | Ok (Some _) => Ok None
  end.

Definition live_ladder (st : State) : bool := LadderStillLive st (ladderGrace w) now.

Definition unownedAdoptable (m : Marker) : bool :=
  if negb (live_ladder (UnownedLadder m)) || time_IsZero (UnownedSince m) then false
  else negb (time_After now (time_Add (UnownedSince m) (ladderGrace w))).

Definition loadDurableLadder (s : world) : State * bool :=
  if negb (hasLadder w) then (zero_State, false)
  else match LoadLadder (db s) asset quote with
       | Ok (Some st) => if live_ladder st then (st, true) else (zero_State, false)
       | _ => (zero_State, false)
       end.

Definition any_live (m : gmap Duration State) : bool := existsb live_ladder (map_to_list m).*2.

Definition loadDurableWindowLadder (window : Duration) (s : world) : State * bool :=
  match LoadWindowLadders (db s) asset quote with
  | Ok (Some (stored, unowned)) =>
      match stored !! window with
      | Some own => if live_ladder own then (own, true)
                    else if live_ladder unowned then (unowned, true)
                    else (zero_State, any_live stored)
      | None => if live_ladder unowned then (unowned, true) else (zero_State, any_live stored)
      end
  | _ => (zero_State, false)
  end.

Definition loadState (window : Duration) (s : world) : res io_err (State * bool) :=
  let label := windowLabel window in
  match redis_Get (cache s) now key with
  | Err e => Err e
  | Ok None =>
      match label with
      | Some win => if hasWindowLadder w then Ok (loadDurableWindowLadder win s) else Ok (loadDurableLadder s)
      | None => Ok (loadDurableLadder s)
      end
  | Ok (Some (BMarker m)) =>
      match label, Windowed m with
      | Some win, true =>
          match Ladders m !! win with
          | Some st => if live_ladder st then Ok (st, true)
                       else if unownedAdoptable m then Ok (UnownedLadder m, true)
                       else Ok (zero_State, true)
          | None => if unownedAdoptable m then Ok (UnownedLadder m, true) else Ok (zero_State, true)
          end
      | _, _ => Ok (mState m, true)
      end
  | Ok (Some _) => Ok (zero_State, true)
  end.

Definition LoadState (s : world) : res io_err (State * bool) := loadState 0 s.
Definition LoadStateForWindow (window : Duration) (s : world) : res io_err (State * bool) := loadState window s.

(** The ladder of the pair-level store; the caller judges whether it is live. *)
Definition liveDurableLadder (s : world) : State :=
  if negb (hasLadder w) then zero_State
  else match LoadLadder (db s) asset quote with Ok (Some st) => st | _ => zero_State end.

Definition liveDurableLadders (s : world) : gmap Duration State * State :=
  if negb (hasWindowLadder w) then (∅, liveDurableLadder s)
  else match LoadWindowLadders (db s) asset quote with
       | Ok (Some (stored, unowned)) =>
           (filter (fun kv => is_Some (windowLabel kv.1) /\ live_ladder kv.2 = true) stored, unowned)
       | _ => (∅, zero_State)
       end.

Definition siblingLadderHeld (m : Marker) (own : Duration) : bool :=
  any_live (delete own (Ladders m)) || live_ladder (UnownedLadder m).

Definition durableSiblingHeld (own : Duration) (s : world) : res io_err bool :=
  if negb (hasWindowLadder w) then Ok false
  else match LoadWindowLadders (db s) asset quote with
       | Err e => Err e
       | Ok None => Ok false
       | Ok (Some (stored, unowned)) => Ok (any_live (delete own stored) || live_ladder unowned)
       end.

(** ** Writing *)

(** The marker's ladders with [label] set to [state]: windowed, the ladders,
    the unowned one and its date, and the marker that is replaced. *)
Definition mergeLadders (label : option Duration) (state : State) (s : world)
  : bool * gmap Duration State * State * Time * option Marker :=
  let read := readMarker s in
  let prior := match read with Ok (Some m) => Some m | _ => None end in
  let '(windowed, ladders, unowned, since) :=
    match prior with
    | None => let '(ls, u) := liveDurableLadders s in (negb (bool_decide (ls = ∅)), ls, u, now)
    | Some m =>
        if Windowed m
        then (true, filter (fun kv => live_ladder kv.2 = true) (Ladders m), UnownedLadder m, UnownedSince m)
        else (false, ∅, mState m, now)
    end in
  let '(unowned, since) := if live_ladder unowned then (unowned, since) else (zero_State, zero_time) in
  match label with
  | None => (windowed || negb (bool_decide (ladders = ∅)) || Active unowned, ladders, unowned, since, prior)
  | Some l =>
      (true, (if Active state then <[l := state]> ladders else delete l ladders), unowned, since, prior)
  end.

(** [need := HoldUntil - now + grace] of a live ladder, an int64 sum. *)
Definition consider (floor : Duration) (st : State) : Duration :=
  if live_ladder st then
    let need := wraps 64 (time_Sub (HoldUntil st) now + ladderGrace w) in
    if floor <? need then need else floor
  else floor.

Definition lifecycleTTLFloor (m : Marker) (own : option Duration) : Duration :=
  let ladders := match own with Some l => delete l (Ladders m) | None => Ladders m end in
  let floor := foldl consider 0 (map_to_list ladders).*2 in
  let floor := consider floor (UnownedLadder m) in
  if Windowed m then floor else consider floor (mState m).

(** [ctx_done] is whether the context ends before the retry. *)
Definition recordFreeze (ctx_done : bool) (frozenValue : string) (decision : Decision) (d : D) : D :=
  let '(d1, e1) := RecordFreeze asset quote frozenValue decision d in
  match e1 with
  | None => d1
  | Some _ => if ctx_done then d1 else fst (RecordFreeze asset quote frozenValue decision d1)
  end.

(** The marker a write stores and its TTL. *)
Definition nextMarker (window : Duration) (decision : Decision) (state : State) (ttl : Duration) (s : world)
  : Marker * Duration :=
  let ttl := if ttl <=? 0 then w_ttl w else ttl in
  let label := windowLabel window in
  let '(windowed, ladders, unowned, since, prior) := mergeLadders label state s in
  let marker := mkMarker (Asset_String asset) (Asset_String quote) (dAction decision) (dClass decision)
                  (Anomaly.DeviationPct decision) (Anomaly.Reason decision) now windowed ladders unowned since state in
  let marker :=
    match prior with
    | Some m => if bool_decide (label = None) && negb (Active state) && (0 <? lifecycleTTLFloor m None)
                then m else marker
    | None => marker
    end in
  let floor := lifecycleTTLFloor marker label in
  (marker, if ttl <? floor then floor else ttl).

Definition markHold (ctx_done : bool) (window : Duration) (frozenValue : string) (decision : Decision)
    (state : State) (ttl : Duration) (s : world) : world * option io_err :=
  let '(marker, ttl) := nextMarker window decision state ttl s in
  let '(c, e) := redis_Set key (BMarker marker) ttl now (cache s) in
  match e with
  | Some e => (mkWorld c (db s), Some e)
  | None =>
      let d := if hasSink w then recordFreeze ctx_done frozenValue decision (db s) else db s in
      let d := if hasWindowLadder w && (0 <? window) then fst (SaveWindowLadder asset quote window state d)
               else if hasLadder w && Active state then fst (SaveLadder asset quote state d)
               else d in
      (mkWorld c d, None)
  end.

Definition MarkHold ctx_done := markHold ctx_done 0.
Definition Mark (ctx_done : bool) (frozenValue : string) (decision : Decision) (s : world) : world * option io_err :=
  MarkHold ctx_done frozenValue decision zero_State (w_ttl w) s.
Definition MarkHoldForWindow := markHold.

Definition set_Ladders (m : Marker) (ls : gmap Duration State) : Marker :=
  mkMarker (AssetID m) (QuoteID m) (mAction m) (mClass m) (mDeviationPct m) (mReason m) (FrozenAt m)
           (Windowed m) ls (UnownedLadder m) (UnownedSince m) (mState m).

Definition RetireWindowLadder (window : Duration) (s : world) : world * option io_err :=
  match windowLabel window with
  | None => (s, None)
  | Some label =>
      let s := if hasWindowLadder w
               then mkWorld (cache s) (fst (SaveWindowLadder asset quote window zero_State (db s))) else s in
      match readMarker s with
      | Err e => (s, Some e)
      | Ok None => (s, None)
      | Ok (Some m) =>
          if negb (Windowed m) then (s, None)
          else match Ladders m !! label with
               | None => (s, None)
               | Some _ =>
                   let '(c, r) := redis_SetXX key (BMarker (set_Ladders m (delete label (Ladders m)))) now (cache s) in
                   (mkWorld c (db s), match r with Ok _ => None | Err e => Some e end)
               end
      end
  end.

Definition Clear (s : world) : world * option io_err :=
  let '(c, e) := redis_Del key now (cache s) in
  match e with
  | Some e => (mkWorld c (db s), Some e)
  | None => (mkWorld c (if hasLadder w then fst (SaveLadder asset quote zero_State (db s)) else db s), None)
  end.

(** [ReleaseWindow]: whether the marker was kept, with the error. *)
Definition ReleaseWindow (window : Duration) (s : world) : world * (bool * option io_err) :=
  match readMarker s with
  | Err e => (s, (true, Some e))
  | Ok mk =>
      match windowLabel window with
      | None => let '(s', e) := Clear s in (s', (false, e))
      | Some label =>
          let held := match mk with Some m => Windowed m && siblingLadderHeld m label | None => false end in
          match (if held then Ok true else durableSiblingHeld window s) with
          | Err e => (s, (true, Some e))
          | Ok true => let '(s', e) := RetireWindowLadder window s in (s', (true, e))
          | Ok false => let '(s', e) := Clear s in (s', (false, e))
          end
      end
  end.

Definition RecordOverride (actor reason : string) (s : world) : world * option io_err :=
  let '(c, e) := redis_Set (FreezeOverride_key asset quote) (BOverride (mkOverride actor reason now))
                   FreezeTTL now (cache s) in
  (mkWorld c (db s), e).

Definition OverrideRecorded (s : world) : res io_err bool :=
  match redis_Get (cache s) now (FreezeOverride_key asset quote) with
  | Err e => Err e
  | Ok None => Ok false
  | Ok (Some _) => Ok true
  end.

Definition FrozenForPair (s : world) : res io_err bool :=
  match redis_Get (cache s) now key with
  | Err e => Err e
  | Ok None => Ok false
  | Ok (Some _) => Ok true
  end.
End Ops.
End Store.

(** ** Properties of the marker *)

Lemma LadderStillLive_spec st grace t :
  LadderStillLive st grace t = true <-> Active st = true /\ t <= HoldUntil st + grace.
Proof.
  unfold LadderStillLive, time_After, time_Add. destruct (Active st); simpl; [|intuition congruence].
  rewrite negb_true_iff, Z.ltb_ge. tauto.
Qed.

(** A ladder that is live at a later instant is live now. *)
Lemma LadderStillLive_earlier st grace t now :
  LadderStillLive st grace t = true -> now <= t -> LadderStillLive st grace now = true.
Proof. rewrite !LadderStillLive_spec. intros [] ?. split; [done|lia]. Qed.

Section StoreProofs.
Context {C D : Type} `{RL : RedisLaws C} `{LadderDB D}.
Context (w : Writer) (asset quote : Asset).
Implicit Types s : world (C := C) (D := D).

Lemma any_live_spec now (m : gmap Duration State) :
  any_live w now m = true <-> exists l st, m !! l = Some st /\ live_ladder w now st = true.
Proof.
  unfold any_live. rewrite existsb_exists. split.
  - intros (st & Hin & Hl). apply list_elem_of_In, list_elem_of_fmap in Hin.
    destruct Hin as ([l st'] & -> & Hin%elem_of_map_to_list). eauto.
  - intros (l & st & Hm & Hl). exists st. split; [|done]. apply list_elem_of_In, list_elem_of_fmap.
    exists (l, st). by rewrite elem_of_map_to_list.
Qed.

(** *** The expiry covers every live ladder *)

Lemma consider_ge now floor st : floor <= consider w now floor st.
Proof. unfold consider. repeat case_if; bprop; lia. Qed.

Lemma consider_need now floor st :
  live_ladder w now st = true -> wraps 64 (time_Sub (HoldUntil st) now + ladderGrace w) <= consider w now floor st.
Proof. unfold consider. intros ->. case_if; bprop; lia. Qed.

Lemma foldl_consider_ge now l floor : floor <= foldl (consider w now) floor l.
Proof.
  revert floor. induction l as [|st l IH]; intros floor; simpl; [lia|].
  etrans; [apply (consider_ge now floor st)|apply IH].
Qed.

Lemma foldl_consider_need now l floor st :
  st ∈ l -> live_ladder w now st = true ->
  wraps 64 (time_Sub (HoldUntil st) now + ladderGrace w) <= foldl (consider w now) floor l.
Proof.
  intros Hin Hl. revert floor. induction Hin as [l|x l st' Hin IH]; intros floor; simpl; [|by apply IH].
  etrans; [by apply (consider_need now floor)|apply foldl_consider_ge].
Qed.

Lemma TTLFloor_sibling now m own l st :
  Ladders m !! l = Some st -> own <> Some l -> live_ladder w now st = true ->
  wraps 64 (time_Sub (HoldUntil st) now + ladderGrace w) <= lifecycleTTLFloor w now m own.
Proof.
  intros Hm Hne Hl. unfold lifecycleTTLFloor.
  set (ls := match own with Some l => delete l (Ladders m) | None => Ladders m end).
  assert (Hls : ls !! l = Some st) by (subst ls; destruct own; [rewrite lookup_delete_ne by congruence|]; done).
  assert (Hf : wraps 64 (time_Sub (HoldUntil st) now + ladderGrace w)
               <= foldl (consider w now) 0 (map_to_list ls).*2).
  { apply foldl_consider_need; [|done]. apply list_elem_of_fmap. exists (l, st). by rewrite elem_of_map_to_list. }
  case_if; repeat (etrans; [|apply consider_ge]); done.
Qed.

(** For a hold within the Duration range, [need] is the exact distance. *)
Lemma need_exact now st :
  0 <= ladderGrace w -> LadderStillLive st (ladderGrace w) now = true ->
  HoldUntil st + ladderGrace w - now <= MaxInt64 -> MinInt64 <= HoldUntil st - now ->
  wraps 64 (time_Sub (HoldUntil st) now + ladderGrace w) = HoldUntil st + ladderGrace w - now.
Proof.
  intros Hg [_ Hl]%LadderStillLive_spec Hmax Hmin. unfold time_Sub.
  rewrite Z.min_r, Z.max_r by lia. rewrite wraps_small; unfold MaxInt64, MinInt64 in *; lia.
Qed.

(** *** Which freeze a window has on record *)

(** The marker, or the durable record when there is no readable marker, holds
    [st] as the ladder of window [l]. *)
Definition recorded (now : Time) (l : Duration) (st : State) s : Prop :=
  match readMarker asset quote now s with
  | Ok (Some m) => Windowed m = true /\ Ladders m !! l = Some st
  | _ => hasWindowLadder w = true
         /\ exists stored unowned, LoadWindowLadders (db s) asset quote = Ok (Some (stored, unowned))
              /\ stored !! l = Some st
  end.

Lemma mergeLadders_keeps now l l' st state s :
  recorded now l' st s -> 0 < l' -> live_ladder w now st = true -> l' <> l ->
  let '(windowed, ladders, _, _, _) := mergeLadders w asset quote now (Some l) state s in
  windowed = true /\ ladders !! l' = Some st.
Proof.
  unfold recorded, mergeLadders. intros Hrec Hpos Hl Hne.
  assert (Hcase : forall ls : gmap Duration State, ls !! l' = Some st ->
            (if Active state then <[l:=state]> ls else delete l ls) !! l' = Some st).
  { intros ls Hls. case_if; [by rewrite lookup_insert_ne|by rewrite lookup_delete_ne]. }
  assert (Hdur : hasWindowLadder w = true
            /\ (exists stored unowned, LoadWindowLadders (db s) asset quote = Ok (Some (stored, unowned))
                  /\ stored !! l' = Some st) ->
          (liveDurableLadders w asset quote now s).1 !! l' = Some st).
  { intros (Hw & stored & unowned & HL & Hs). unfold liveDurableLadders. rewrite Hw, HL. simpl.
    apply map_lookup_filter_Some. split; [done|]. split; [|done]. unfold windowLabel.
    simpl. replace (l' <=? 0) with false by lia. by eexists. }
  destruct (readMarker asset quote now s) as [[m|]|e].
  - destruct Hrec as [Hw Hm]. rewrite Hw. case_if; simpl; (split; [done|]); apply Hcase;
      by apply map_lookup_filter_Some.
  - specialize (Hdur Hrec). destruct (liveDurableLadders w asset quote now s) as [ls u]. simpl in Hdur.
    case_if; simpl; (split; [done|]); by apply Hcase.
  - specialize (Hdur Hrec). destruct (liveDurableLadders w asset quote now s) as [ls u]. simpl in Hdur.
    case_if; simpl; (split; [done|]); by apply Hcase.
Qed.

Lemma mergeLadders_own now l state s :
  Active state = true ->
  let '(windowed, ladders, _, _, _) := mergeLadders w asset quote now (Some l) state s in
  windowed = true /\ ladders !! l = Some state.
Proof.
  intros HA. unfold mergeLadders.
  destruct (match readMarker asset quote now s with Ok (Some m) => Some m | _ => None end) as [m|];
    [destruct (Windowed m)|destruct (liveDurableLadders w asset quote now s) as [ls u]];
    case_if; simpl; rewrite HA; by rewrite lookup_insert_eq.
Qed.

(** What a window reads back from a marker that has its ladder. *)
Lemma loadState_marker t l st m s :
  redis_Get (cache s) t (Freeze_key asset quote) = Ok (Some (BMarker m)) ->
  Windowed m = true -> Ladders m !! l = Some st -> 0 < l -> LadderStillLive st (ladderGrace w) t = true ->
  LoadStateForWindow w asset quote t l s = Ok (st, true).
Proof.
  intros HG Hw Hm Hl Hlive. unfold LoadStateForWindow, loadState, windowLabel.
  replace (l <=? 0) with false by lia. rewrite HG, Hw, Hm. unfold live_ladder. by rewrite Hlive.
Qed.

Lemma nextMarker_window now win decision state ttl s :
  0 < win -> 0 < ttl ->
  let '(marker, ttl') := nextMarker w asset quote now win decision state ttl s in
  let '(windowed, ladders, _, _, _) := mergeLadders w asset quote now (Some win) state s in
  Windowed marker = windowed /\ Ladders marker = ladders
  /\ ttl <= ttl' /\ lifecycleTTLFloor w now marker (Some win) <= ttl'.
Proof.
  intros Hw Ht. unfold nextMarker, windowLabel. replace (win <=? 0) with false by lia.
  replace (ttl <=? 0) with false by lia.
  destruct (mergeLadders w asset quote now (Some win) state s) as [[[[wd ls] u] sn] prior].
  rewrite bool_decide_eq_false_2 by done. simpl.
  destruct prior; simpl; (split; [done|]); (split; [done|]); case_if; bprop; lia.
Qed.

Lemma markHold_Set ctx_done now win fv decision state ttl s s' :
  markHold w asset quote now ctx_done win fv decision state ttl s = (s', None) ->
  let '(marker, ttl') := nextMarker w asset quote now win decision state ttl s in
  redis_Set (Freeze_key asset quote) (BMarker marker) ttl' now (cache s) = (cache s', None).
Proof.
  unfold markHold. destruct (nextMarker w asset quote now win decision state ttl s) as [marker ttl'].
  destruct (redis_Set _ _ _ _ _) as [c [e|]] eqn:E; [done|]. intros [= <-]. done.
Qed.

(** The written window reads its state back, and the marker holds it. *)
Lemma MarkHoldForWindow_own now ctx_done win fv decision state ttl s s' t b :
  0 < win -> 0 < ttl -> now <= t -> t + Millisecond <= now + ttl ->
  MarkHoldForWindow w asset quote now ctx_done win fv decision state ttl s = (s', None) ->
  redis_Get (cache s') t (Freeze_key asset quote) = Ok b ->
  LadderStillLive state (ladderGrace w) t = true ->
  LoadStateForWindow w asset quote t win s' = Ok (state, true).
Proof.
  intros Hw Httl Ht Htt HM HG Hlive. apply markHold_Set in HM.
  pose proof (nextMarker_window now win decision state ttl s Hw Httl) as HN.
  destruct (nextMarker w asset quote now win decision state ttl s) as [marker ttl'].
  pose proof (mergeLadders_own now win state s) as Hm.
  destruct (mergeLadders w asset quote now (Some win) state s) as [[[[wd ls] u] sn] prior].
  destruct HN as (HW & HL & ? & _). apply LadderStillLive_spec in Hlive as HA. destruct HA as [HA _].
  destruct (Hm HA) as [-> Hls]. eapply loadState_marker; eauto; [|by rewrite HL].
  rewrite HG. f_equal. rewrite (Get_live _ _ _ _ HG). eapply Set_live; eauto. lia.
Qed.

(** *** Releasing one window *)

Lemma readMarker_live now s m :
  readMarker asset quote now s = Ok (Some m) -> live (cache s) now (Freeze_key asset quote) = Some (BMarker m).
Proof.
  unfold readMarker. destruct (redis_Get _ _ _) as [[[m'| |]|]|] eqn:E; try done. intros [= ->].
  symmetry. by apply (Get_live _ _ _ _ E).
Qed.

(** A sibling's live ladder on record keeps the marker. *)
Lemma held_sibling now win l st s :
  recorded now l st s -> l <> win -> live_ladder w now st = true ->
  match readMarker asset quote now s with
  | Ok (Some m) => Windowed m && siblingLadderHeld w now m win = true
  | _ => durableSiblingHeld w asset quote now win s = Ok true
  end.
Proof.
  unfold recorded. intros Hrec Hne Hl.
  assert (Hdur : hasWindowLadder w = true
            /\ (exists stored unowned, LoadWindowLadders (db s) asset quote = Ok (Some (stored, unowned))
                  /\ stored !! l = Some st) ->
          durableSiblingHeld w asset quote now win s = Ok true).
  { intros (Hw & stored & u & HL & Hs). unfold durableSiblingHeld. rewrite Hw, HL. simpl.
    replace (any_live w now (delete win stored)) with true; [done|]. symmetry. apply any_live_spec.
    exists l, st. by rewrite lookup_delete_ne. }
  destruct (readMarker asset quote now s) as [[m|]|e]; [|by apply Hdur..].
  destruct Hrec as [Hw Hm]. rewrite Hw. simpl. unfold siblingLadderHeld.
  replace (any_live w now (delete win (Ladders m))) with true; [done|]. symmetry. apply any_live_spec.
  exists l, st. by rewrite lookup_delete_ne.
Qed.

Lemma RetireWindowLadder_marker now win m s s' :
  0 < win -> readMarker asset quote now s = Ok (Some m) -> Windowed m = true ->
  RetireWindowLadder w asset quote now win s = (s', None) ->
  forall t, now <= t ->
  live (cache s') t (Freeze_key asset quote) = live (cache s) t (Freeze_key asset quote)
  \/ live (cache s') t (Freeze_key asset quote)
     = (fun _ => BMarker (set_Ladders m (delete win (Ladders m)))) <$> live (cache s) t (Freeze_key asset quote).
Proof.
  intros Hw Hm HW HR t Ht. unfold RetireWindowLadder, windowLabel in HR. replace (win <=? 0) with false in HR by lia.
  set (s1 := if hasWindowLadder w then _ else s) in HR.
  assert (Hc : cache s1 = cache s) by (subst s1; by case_if).
  assert (Hm1 : readMarker asset quote now s1 = Ok (Some m)) by (unfold readMarker in *; by rewrite Hc).
  rewrite Hm1, HW in HR. simpl in HR.
  destruct (Ladders m !! win); [|injection HR as <-; left; by rewrite Hc].
  destruct (redis_SetXX _ _ _ _) as [c [b|e]] eqn:E; [|done]. injection HR as <-. simpl. rewrite Hc in E.
  destruct b.
  - right. rewrite (SetXX_live _ _ _ _ _ _ E Ht). by destruct (live (cache s) t _).
  - left. by rewrite (SetXX_absent _ _ _ _ _ E).
Qed.
End StoreProofs.

(** C21: one window's write never loses another window's freeze. After a
    successful [MarkHoldForWindow], a process that reads the marker later (a
    restart included) finds for the written window the state just written, for
    as long as the TTL asked for; and for every other window whose live ladder
    was on record before, in the marker or, when Redis had lost it, in the
    durable store, exactly that ladder, until the end of its own hold plus the
    grace (less the millisecond Redis rounds by), however short the TTL asked. *)
Theorem MarkHoldForWindow_keeps_windows {C D : Type} `{RedisLaws C} `{LadderDB D}
    (w : Writer) asset quote now ctx_done win fv decision state ttl (s s' : world (C := C) (D := D)) t l st b :
  0 <= ladderGrace w <= MaxInt64 -> 0 < win -> 0 < ttl -> 0 < l -> now <= t ->
  MarkHoldForWindow w asset quote now ctx_done win fv decision state ttl s = (s', None) ->
  redis_Get (cache s') t (Freeze_key asset quote) = Ok b ->
  LadderStillLive st (ladderGrace w) t = true ->
  (l = win /\ st = state /\ t + Millisecond <= now + ttl
   \/ l <> win /\ recorded w asset quote now l st s
      /\ t + Millisecond <= HoldUntil st + ladderGrace w
      /\ HoldUntil st + ladderGrace w - now <= MaxInt64) ->
  LoadStateForWindow w asset quote t l s' = Ok (st, true).
Proof.
  intros Hg Hw Httl Hl Ht HM HG Hlive [(-> & -> & Htt)|(Hne & Hrec & Htt & Hmax)].
  { exact (MarkHoldForWindow_own w asset quote now ctx_done win fv decision state ttl s s' t b Hw Httl Ht Htt HM HG Hlive). }
  apply markHold_Set in HM.
  pose proof (nextMarker_window w asset quote now win decision state ttl s Hw Httl) as HN.
  destruct (nextMarker w asset quote now win decision state ttl s) as [marker ttl'].
  pose proof (LadderStillLive_earlier _ _ _ _ Hlive Ht) as Hnow.
  pose proof (mergeLadders_keeps w asset quote now win l st state s Hrec Hl Hnow Hne) as Hm.
  destruct (mergeLadders w asset quote now (Some win) state s) as [[[[wd ls] u] sn] prior].
  destruct HN as (HW & HL & _ & Hfl). destruct Hm as [-> Hls].
  pose proof (TTLFloor_sibling w now marker (Some win) l st) as Hs. rewrite HL in Hs.
  specialize (Hs Hls ltac:(congruence) Hnow).
  apply LadderStillLive_spec in Hnow as Hn'. destruct Hn' as [_ Hn'].
  rewrite need_exact in Hs; [|lia|done|lia|unfold MinInt64, MaxInt64 in *; lia].
  eapply loadState_marker; eauto; [|by rewrite HL]. rewrite HG. f_equal.
  rewrite (Get_live _ _ _ _ HG). eapply Set_live; eauto. lia.
Qed.

(** A release never takes a sibling's freeze with it. If another window's
    live ladder is on record, in the marker or in the durable store behind a
    lost marker, [ReleaseWindow] keeps the marker, and where the marker has
    the ladder, every later reader of a marker that has not expired finds it
    there. Conversely, when it reports the marker gone it is gone, and no
    other window had a live ladder on record. *)
Theorem ReleaseWindow_spares_siblings {C D : Type} `{RedisLaws C} `{LadderDB D}
    (w : Writer) asset quote now win (s s' : world (C := C) (D := D)) kept :
  0 < win -> ReleaseWindow w asset quote now win s = (s', (kept, None)) ->
  (forall l st, recorded w asset quote now l st s -> l <> win -> live_ladder w now st = true ->
     kept = true
     /\ forall m t b, readMarker asset quote now s = Ok (Some m) -> 0 < l -> now <= t ->
          live (cache s) t (Freeze_key asset quote) = Some (BMarker m) ->
          redis_Get (cache s') t (Freeze_key asset quote) = Ok b ->
          LadderStillLive st (ladderGrace w) t = true ->
          LoadStateForWindow w asset quote t l s' = Ok (st, true))
  /\ (kept = false -> forall t, live (cache s') t (Freeze_key asset quote) = None).
Proof.
  intros Hw HR. unfold ReleaseWindow, windowLabel in HR. replace (win <=? 0) with false in HR by lia.
  assert (HC : forall s1 s2 e, Clear w asset quote now s1 = (s2, e) -> e = None ->
             forall t, live (cache s2) t (Freeze_key asset quote) = None).
  { intros s1 s2 e HCl -> t. unfold Clear in HCl. destruct (redis_Del _ _ _) as [c [e|]] eqn:E; [done|].
    injection HCl as <-. simpl. eapply Del_live; eauto. }
  destruct (readMarker asset quote now s) as [mk|e] eqn:Em; [|done]. split.
  - intros l st Hrec Hne Hl. pose proof (held_sibling w asset quote now win l st s Hrec Hne Hl) as Hheld.
    rewrite Em in Hheld. destruct mk as [m|].
    + rewrite Hheld in HR. destruct (RetireWindowLadder w asset quote now win s) as [s1 e] eqn:ER.
      injection HR as -> <- ->. split; [done|]. intros m' t b [= <-] Hl0 Ht HLv HG Hlive.
      unfold recorded in Hrec. rewrite Em in Hrec. destruct Hrec as [HW HLd].
      pose proof (RetireWindowLadder_marker w asset quote now win m s s' Hw Em HW ER t Ht) as Hlv.
      rewrite HLv in Hlv. simpl in Hlv.
      rewrite (Get_live _ _ _ _ HG) in HG.
      destruct Hlv as [Hlv|Hlv]; rewrite Hlv in HG;
        [by apply (loadState_marker w asset quote t l st m)|].
      apply (loadState_marker w asset quote t l st (set_Ladders m (delete win (Ladders m)))); try done.
      simpl. by rewrite lookup_delete_ne.
    + rewrite Hheld in HR. destruct (RetireWindowLadder w asset quote now win s) as [s1 e].
      injection HR as -> <- ->. done.
  - intros ->. destruct (if match mk with Some m => _ | None => false end then _ else _) as [[]|]; try done.
    + by destruct (RetireWindowLadder w asset quote now win s).
    + destruct (Clear w asset quote now s) as [s1 e] eqn:E. injection HR as -> ->. by eapply HC.
Qed.

(** ** A cache and a store that satisfy the laws *)

Abbreviation map_cache := (gmap string (body * Time)).

Definition map_live (c : map_cache) (t : Time) (k : string) : option body :=
  match c !! k with Some (b, expiry) => if t <? expiry then Some b else None | None => None end.

#[export] Instance map_RedisCache : RedisCache map_cache := {|
  redis_Get c t k := Ok (map_live c t k);
  redis_Set k b ttl now c := (<[k := (b, now + ttl / Millisecond * Millisecond)]> c, None);
  redis_SetXX k b now c :=
    match c !! k with
    | Some (_, expiry) => if now <? expiry then (<[k := (b, expiry)]> c, Ok true) else (c, Ok false)
    | None => (c, Ok false)
    end;
  redis_Del k now c := (delete k c, None);
  live := map_live
|}.

#[export] Instance map_RedisLaws : RedisLaws map_cache.
Proof.
  split; simpl; unfold map_live.
  - by intros c t k v [= <-].
  - intros c k b ttl now c' t [= <-] H1 H2. rewrite lookup_insert_eq.
    pose proof (Z.div_mod ttl Millisecond ltac:(done)). pose proof (Z.mod_pos_bound ttl Millisecond ltac:(done)).
    by replace (t <? _) with true by lia.
  - intros c k b ttl now c' t k' [= <-] H1. by rewrite lookup_insert_ne.
  - intros c k b now c' t. destruct (c !! k) as [[b' x]|] eqn:E; [|done]. case_if; [|done]. bprop.
    intros [= <-] Ht. rewrite lookup_insert_eq. by case_if.
  - intros c k b now c'. destruct (c !! k) as [[b' x]|]; [case_if|]; by intros [= <-].
  - intros c k now c' t [= <-]. by rewrite lookup_delete_eq.
Qed.

Abbreviation map_db := (gmap Duration State).

#[export] Instance map_LadderDB : LadderDB map_db := {|
  RecordFreeze _ _ _ _ d := (d, None);
  SaveLadder _ _ st d := (if Active st then d else ∅, None);
  LoadLadder d _ _ := Ok None;
  SaveWindowLadder _ _ win st d := (if Active st then <[win := st]> d else delete win d, None);
  LoadWindowLadders d _ _ := Ok (Some (d, zero_State))
|}.

Definition usd_fiat_ex : Asset := mkAsset AssetFiat "USD" "" "".
Definition writer_ex : Writer := NewWriter 0 true true true 0.
Definition held_ex (t : Time) : State := mkState t (t + 30 * Minute) 0 false 0 true zero_time.
Definition decision_ex : Decision := mkDecision ActionFreeze ClassDefault zero_Thresholds f64_zero SingleSource.

(** An hour's window frozen at 0, with its ladder only in the durable store;
    the five-minute window is then frozen at one minute. *)
Definition world_ex : world (C := map_cache) (D := map_db) := mkWorld ∅ {[ Hour := held_ex 0 ]}.

Lemma MarkHoldForWindow_keeps_windows_witness :
  LoadStateForWindow writer_ex NativeAsset usd_fiat_ex (34 * Minute) Hour
    (fst (MarkHoldForWindow writer_ex NativeAsset usd_fiat_ex Minute false (5 * Minute) "1" decision_ex
            (held_ex Minute) (6 * Minute) world_ex)) = Ok (held_ex 0, true).
Proof.
  refine (MarkHoldForWindow_keeps_windows writer_ex NativeAsset usd_fiat_ex Minute false (5 * Minute) "1" decision_ex
           (held_ex Minute) (6 * Minute) world_ex _ (34 * Minute) Hour (held_ex 0) _ _ _ _ _ _ _ _ _ _).
  1: vm_compute; split; congruence.
  1-4: vm_compute; congruence.
  1-2: reflexivity.
  1: vm_compute; reflexivity.
  right. split_and!; try (vm_compute; congruence).
  vm_compute. split; [reflexivity|]. do 2 eexists. split; reflexivity.
Defined.

Lemma ReleaseWindow_spares_siblings_witness :
  fst (snd (ReleaseWindow writer_ex NativeAsset usd_fiat_ex Minute (5 * Minute) world_ex)) = true.
Proof.
  refine (proj1 (proj1 (ReleaseWindow_spares_siblings writer_ex NativeAsset usd_fiat_ex Minute (5 * Minute) world_ex
            (fst (ReleaseWindow writer_ex NativeAsset usd_fiat_ex Minute (5 * Minute) world_ex)) true _ _)
            Hour (held_ex 0) _ _ _)).
  - vm_compute. reflexivity.
  - vm_compute. reflexivity.
  - vm_compute. split; [reflexivity|]. do 2 eexists. split; reflexivity.
  - vm_compute. congruence.
  - vm_compute. reflexivity.
Defined.
