(* ===== verification/FreezeControl.v ===== *)
(** * Who freezes, who releases, who cleans up
    (internal/aggregate/orchestrator/phase2_freeze.go, the freeze half of
    orchestrator.go, internal/aggregate/freeze/recovery.go)

    The aggregator turns each closed bucket into a signal, advances the
    lifecycle of its (pair, window) and drives the marker; the recovery worker
    closes the durable rows of freezes that are over. [orch] is the state the
    orchestrator keeps: the lifecycle per (pair, window), the windows refused
    this tick, and the cache and store behind the writer. The prices that the
    freeze protects (the held VWAP and its qualifiers) are other keys of the
    cache and are left out; the text of the held value is an argument, and of
    the reason text of a decision the model keeps the label and not the
    formatted numbers. Metrics and log lines are left out. The orchestrator and its writer share one clock reading per bucket. *)

From S2P Require Import Prelude GoLib Float64 Rounding Asset Alias Confidence Anomaly Freeze FreezeStore.
From Stdlib Require Import Floats.SpecFloat.

(** ** The conditions of a bucket *)

(** 0.45, 5.0 and 1. *)
Definition DefaultPhase2ConfidenceMaxFreeze : float64 := rat_Float64 (45 # 100).
Definition DefaultPhase2ZScoreMinFreeze : float64 := rat_Float64 (5 # 1).
Definition DefaultPhase2SourceCountMaxFreeze : Z := 1.

Record Phase2Thresholds := mkPhase2 {
  ConfidenceMaxFreeze : float64;
  ZScoreMinFreeze : float64;
  SourceCountMaxFreeze : Z;
  Lifecycle : Policy
}.

Definition withDefaults (p : Phase2Thresholds) : Phase2Thresholds :=
  mkPhase2 (unset_float (ConfidenceMaxFreeze p) DefaultPhase2ConfidenceMaxFreeze)
           (unset_float (ZScoreMinFreeze p) DefaultPhase2ZScoreMinFreeze)
           (unset_int (SourceCountMaxFreeze p) DefaultPhase2SourceCountMaxFreeze)
           (Lifecycle p).

Record confidenceWithSourceCount := mkConfSrc { csConfidence : float64; csZScore : float64; csSourceCount : Z }.

Definition phase2FreezeFires (c : confidenceWithSourceCount) (t : Phase2Thresholds) : bool :=
  let t := withDefaults t in
  f64_lt (csConfidence c) (ConfidenceMaxFreeze t) && f64_lt (ZScoreMinFreeze t) (csZScore c)
  && (csSourceCount c <=? SourceCountMaxFreeze t).

(** The verdict of the composite reference ([""] is none). *)
Inductive compositeVerdict :=
| VerdictNone | compositeVerdictCorroborated | compositeVerdictRefuted | compositeVerdictUnavailable.

Record compositeReference := mkCompositeRef { verdict : compositeVerdict; deviationRatio : option Q }.

Definition resolved (r : compositeReference) : bool :=
  match verdict r with compositeVerdictCorroborated | compositeVerdictRefuted => true | _ => false end.

(** The fields of the confidence computation that the freeze step reads. *)
Record confidenceComputation := mkConfComp {
  ccScore : Score;
  ccZScore : float64;
  CrossOracleMedian : float64;
  TriangulationChecked : bool;
  TriangulationDivergencePct : float64
}.

Definition f64_hundred : float64 := rat_Float64 (100 # 1).

Definition releaseAgreementMaxPct : float64 := rat_Float64 (5 # 1).

(** The cross-oracle arm, against the fresh candidate. *)
Definition crossOracleAgrees (median : float64) (candidate : option Q) : bool :=
  match candidate with
  | Some c =>
      f64_lt f64_zero median
      && (let cand := rat_Float64 c in
          f64_lt f64_zero cand
          && f64_le (f64_mul (f64_div (SFabs (f64_sub cand median)) median) f64_hundred) releaseAgreementMaxPct)
  | None => false
  end.

Definition releaseCorroborated (c : confidenceComputation) (candidate : option Q) (ref : compositeReference)
    (compositeBandPct : float64) : bool :=
  let first :=
    if resolved ref then
      match SetFloat64 (f64_div compositeBandPct f64_hundred), deviationRatio ref with
      | Some band, Some dev => Qle_bool dev band
      | _, _ => false
      end
    else TriangulationChecked c && f64_le (SFabs (TriangulationDivergencePct c)) releaseAgreementMaxPct in
  first || crossOracleAgrees (CrossOracleMedian c) candidate.

Definition corroborated (c : confidenceComputation) : bool :=
  Confidence.TriangulationChecked (scFactors (ccScore c)) || CrossOracleChecked (scFactors (ccScore c)).

(** [CompositeReferenceConfig.ReleaseBandPct] after its defaults: 2 per cent. *)
Definition DefaultCompositeReferenceReleaseBandPct : float64 := rat_Float64 (2 # 1).
Definition release_band (b : float64) : float64 :=
  if f64_le b f64_zero then DefaultCompositeReferenceReleaseBandPct else b.

(** The signal of [stepPhase2Freeze]: unscored when the confidence could not
    be computed, and not firing when the composite moved with the venue. *)
Definition phase2_signal (t : Phase2Thresholds) (band : float64) (now : Time)
    (conf : option confidenceComputation) (sourceCount : Z) (vwap : Q) (ref : compositeReference) : Signal :=
  match conf with
  | None => mkSignal now false false f64_zero f64_zero false false
  | Some c =>
      let fires := phase2FreezeFires (mkConfSrc (Confidence.Confidence (ccScore c)) (ccZScore c) sourceCount) t in
      let suppressed := match verdict ref with compositeVerdictCorroborated => true | _ => false end in
      mkSignal now (fires && negb suppressed) true (Confidence.Confidence (ccScore c)) (ccZScore c) (corroborated c)
               (releaseCorroborated c (Some vwap) ref (release_band band))
  end.

(** ** The orchestrator *)

Record Config := mkConfig {
  hasFreezeWriter : bool;
  hasWindowedFreeze : bool;
  hasOverrideReader : bool;
  Windows : list Duration;
  phase2 : Phase2Thresholds;
  ReleaseBandPct : float64;
  cfgAnomaly : option Checker;
  writer : Writer
}.

Section Control.
Context {C D : Type} `{RedisCache C} `{LadderDB D}.
Context (cfg : Config) (g : globals) (now : Time).

Record orch := mkOrch {
  freezeStates : gmap (string * Duration) State;
  frozenThisTick : gset (string * Duration);
  wld : world (C := C) (D := D)
}.

Definition set_state (o : orch) (key : string * Duration) (st : State) : orch :=
  mkOrch (<[key := st]> (freezeStates o)) (frozenThisTick o) (wld o).
Definition set_world (o : orch) (s : world (C := C) (D := D)) : orch :=
  mkOrch (freezeStates o) (frozenThisTick o) s.

(** A missing entry reads as the zero state. *)
Definition state_of (o : orch) (key : string * Duration) : State := default zero_State (freezeStates o !! key).

Definition classOf (pair : Pair) : AssetClass :=
  match cfgAnomaly cfg with Some a => Checker_ClassOf g a (Base pair) | None => ClassDefault end.

Definition loadMarkerState (pair : Pair) (window : Duration) (s : world (C := C) (D := D)) : res io_err (State * bool) :=
  if hasWindowedFreeze cfg then LoadStateForWindow (writer cfg) (Base pair) (Quote pair) now window s
  else LoadState (writer cfg) (Base pair) (Quote pair) now s.

(** The working state and whether the freeze was ended out of band. *)
Definition loadFreezeState (pair : Pair) (window : Duration) (o : orch) : orch * res io_err (State * bool) :=
  let key := (Pair_String pair, window) in
  let st := state_of o key in
  if negb (hasFreezeWriter cfg) then (o, Ok (st, false))
  else match freezeStates o !! key with
       | None =>
           match loadMarkerState pair window (wld o) with
           | Err e => (o, Err e)
           | Ok (marked, ok) =>
               let st := if ok && Active marked then marked else st in
               (set_state o key st, Ok (st, false))
           end
       | Some st =>
           if Active st then
             match LoadState (writer cfg) (Base pair) (Quote pair) now (wld o) with
             | Ok (_, false) => (o, Ok (st, true))
             | _ => (o, Ok (st, false))
             end
           else (o, Ok (st, false))
       end.

Definition siblingWindowFrozen (pair : Pair) (window : Duration) (o : orch) : bool :=
  existsb (fun w => negb (w =? window) && Active (state_of o (Pair_String pair, w))) (Windows cfg).

Definition markHoldForWindow (pair : Pair) (window : Duration) (fv : string) (decision : Decision)
    (state : State) (ttl : Duration) (s : world (C := C) (D := D)) : world * option io_err :=
  if hasWindowedFreeze cfg
  then MarkHoldForWindow (writer cfg) (Base pair) (Quote pair) now false window fv decision state ttl s
  else MarkHold (writer cfg) (Base pair) (Quote pair) now false fv decision state ttl s.

(** A marker that cannot be written is logged; the bucket stays refused. *)
Definition engageFreeze (pair : Pair) (window : Duration) (fv : string) (decision : Decision)
    (out : Outcome) (o : orch) : orch :=
  let key := (Pair_String pair, window) in
  let o := set_state o key (outState out) in
  let o := mkOrch (freezeStates o) ({[ key ]} ∪ frozenThisTick o) (wld o) in
  if negb (hasFreezeWriter cfg) then o
  else set_world o (fst (markHoldForWindow pair window fv decision (outState out) (MarkerTTL out) (wld o))).

Definition clearReleasedMarker (pair : Pair) (window : Duration) (o : orch) : orch :=
  if negb (hasWindowedFreeze cfg)
  then set_world o (fst (Clear (writer cfg) (Base pair) (Quote pair) now (wld o)))
  else set_world o (fst (ReleaseWindow (writer cfg) (Base pair) (Quote pair) now window (wld o))).

Inductive release_mode := ModeAuto | ModeOperator | ModeLapsed.

Definition overrideMode (pair : Pair) (o : orch) : release_mode :=
  if negb (hasOverrideReader cfg) then ModeOperator
  else match OverrideRecorded (Base pair) (Quote pair) now (wld o) with
       | Ok false => ModeLapsed
       | _ => ModeOperator
       end.

(** The new state and how the release is counted, if anything was frozen. *)
Definition releaseFreeze (pair : Pair) (window : Duration) (prev : State) (tr : Transition) (o : orch)
  : orch * option release_mode :=
  let key := (Pair_String pair, window) in
  if negb (Active prev) then (set_state o key prev, None)
  else
    let overridden := bool_decide (tr = TransitionOverridden) in
    let mode := if overridden then overrideMode pair o else ModeAuto in
    let o := set_state o key (if overridden then Overridden prev now else zero_State) in
    if negb (hasFreezeWriter cfg) then (o, Some mode)
    else if siblingWindowFrozen pair window o then
      (if hasWindowedFreeze cfg
       then set_world o (fst (RetireWindowLadder (writer cfg) (Base pair) (Quote pair) now window (wld o)))
       else o, Some mode)
    else (clearReleasedMarker pair window o, Some mode).

(** [stepFreezeLifecycle]: true when the bucket must be refused. *)
Definition stepFreezeLifecycle (pair : Pair) (window : Duration) (fv : string) (sig : Signal)
    (decision : Decision) (o : orch) : orch * bool :=
  let '(o, loaded) := loadFreezeState pair window o in
  match loaded with
  | Err _ => (o, true)
  | Ok (prev, true) => (fst (releaseFreeze pair window prev TransitionOverridden o), false)
  | Ok (prev, false) =>
      let out := Evaluate (Lifecycle (phase2 cfg)) prev sig in
      if negb (Frozen out) then (fst (releaseFreeze pair window prev (outTransition out) o), false)
      else (engageFreeze pair window fv decision out o, true)
  end.

Definition stepPhase2Freeze (pair : Pair) (window : Duration) (fv : string)
    (conf : option confidenceComputation) (sourceCount : Z) (vwap : Q) (ref : compositeReference)
    (o : orch) : orch * bool :=
  let sig := phase2_signal (phase2 cfg) (ReleaseBandPct cfg) now conf sourceCount vwap ref in
  let why := match conf with Some _ => "phase2:3_signal_AND" | None => "phase2:unscored" end in
  stepFreezeLifecycle pair window fv sig
    (mkDecision ActionFreeze (classOf pair) zero_Thresholds f64_zero (OtherReason why)) o.

(** A bucket without a price is the unscored case of the step above: the same
    signal and the same decision. *)
Definition unpricedBucket (pair : Pair) (window : Duration) (fv : string) (o : orch) : orch :=
  let key := (Pair_String pair, window) in
  match freezeStates o !! key with
  | Some st => if Active st then
                 fst (stepPhase2Freeze pair window fv None 0 0 (mkCompositeRef VerdictNone None) o)
               else o
  | None => fst (stepPhase2Freeze pair window fv None 0 0 (mkCompositeRef VerdictNone None) o)
  end.

(** The Phase 1 step: the action and whether the bucket may go on. *)
Definition evaluateAndMaybeFreeze (pair : Pair) (window : Duration) (fv : string)
    (stepPrev stepCurr : option Q) (sources : Z) (o : orch) : orch * (Action * bool) :=
  match cfgAnomaly cfg with
  | None => (o, (ActionAllow, true))
  | Some a =>
      if Active (state_of o (Pair_String pair, window)) then (o, (ActionAllow, true))
      else
        let decision := Checker_Evaluate g a (mkObservation pair stepPrev stepCurr sources) in
        if negb (IsFrozen decision) then (o, (dAction decision, true))
        else
          let '(o', refused) := stepFreezeLifecycle pair window fv
                                  (mkSignal now true false f64_zero f64_zero false false) decision o in
          (o', (dAction decision, negb refused))
  end.

Definition frozenLeg (pair : Pair) (window : Duration) (o : orch) : bool :=
  let key := (Pair_String pair, window) in
  bool_decide (key ∈ frozenThisTick o)
  || LadderStillLive (state_of o key) (MarkerGrace (WithDefaults (Lifecycle (phase2 cfg)))) now.
End Control.

(** ** The recovery worker *)

Class FreezeRows (D : Type) := {
  ListOpen : D -> res io_err (list (Asset * Asset));
  MarkRecovered : Asset -> Asset -> D -> D * option io_err
}.

Record Recovery := mkRecovery { rHasLadder : bool; rGrace : Duration }.

Definition NewRecovery (ladder : bool) (grace : Duration) : Recovery :=
  mkRecovery ladder (if grace <=? 0 then DefaultLadderGrace else grace).

Section RecoveryTick.
Context {C D : Type} `{RedisCache C} `{LadderDB D} `{FreezeRows D}.
Context (r : Recovery) (now : Time).

Definition ladderStillHolds (p : Asset * Asset) (d : D) : bool :=
  if negb (rHasLadder r) then false
  else match LoadLadder d p.1 p.2 with
       | Ok (Some st) => LadderStillLive st (rGrace r) now
       | _ => false
       end.

(** The counters of one sweep, and the rows it closed. *)
Record sweep := mkSweep {
  recovered : list (Asset * Asset);
  stillFiring : nat;
  heldByLadder : nat;
  errs : nat
}.

Definition sweep_pair (c : C) (ds : D * sweep) (p : Asset * Asset) : D * sweep :=
  let '(d, k) := ds in
  match redis_Get c now (Freeze_key p.1 p.2) with
  | Ok None =>
      if ladderStillHolds p d then (d, mkSweep (recovered k) (stillFiring k) (S (heldByLadder k)) (errs k))
      else
        let '(d', e) := MarkRecovered p.1 p.2 d in
        match e with
        | Some _ => (d', mkSweep (recovered k) (stillFiring k) (heldByLadder k) (S (errs k)))
        | None => (d', mkSweep (recovered k ++ [p]) (stillFiring k) (heldByLadder k) (errs k))
        end
  | Err _ => (d, mkSweep (recovered k) (stillFiring k) (heldByLadder k) (S (errs k)))
  | Ok (Some _) => (d, mkSweep (recovered k) (S (stillFiring k)) (heldByLadder k) (errs k))
  end.

(** [tick]: the new store and the sweep, or nothing when the rows could not be
    listed. *)
Definition tick (s : world (C := C) (D := D)) : world (C := C) (D := D) * option sweep :=
  match ListOpen (db s) with
  | Err _ => (s, None)
  | Ok open =>
      let '(d, k) := foldl (sweep_pair (cache s)) (db s, mkSweep [] 0 0 0) open in
      (mkWorld (cache s) d, Some k)
  end.
End RecoveryTick.

(** ** The orchestrator implements the lifecycle *)

Section ControlProofs.
Context {C D : Type} `{RL : RedisLaws C} `{LadderDB D}.
Context (cfg : Config) (now : Time) (pair : Pair) (window : Duration).
Implicit Types o : orch (C := C) (D := D).
Let key := (Pair_String pair, window).
Let p := Lifecycle (phase2 cfg).

Lemma loadFreezeState_frame o : let '(o', r) := loadFreezeState cfg now pair window o in
  wld o' = wld o
  /\ (forall k, k <> key -> freezeStates o' !! k = freezeStates o !! k)
  /\ (is_ok r = false -> o' = o)
  /\ match r with Ok (st, true) => Active st = true | _ => True end.
Proof.
  unfold loadFreezeState. fold key. destruct (hasFreezeWriter cfg); [|done]. simpl.
  destruct (freezeStates o !! key) as [st|].
  - destruct (Active st) eqn:HA; [|done]. by destruct (LoadState _ _ _ _ _) as [[? []]|].
  - destruct (loadMarkerState _ _ _ _ _) as [[st ok]|]; [|done]. simpl. split_and!; try done.
    intros k Hk. by rewrite lookup_insert_ne.
Qed.

Lemma releaseFreeze_states prev tr o :
  freezeStates (fst (releaseFreeze cfg now pair window prev tr o))
  = <[key := if Active prev then (if bool_decide (tr = TransitionOverridden) then Overridden prev now else zero_State)
             else prev]> (freezeStates o).
Proof.
  unfold releaseFreeze, clearReleasedMarker. fold key. destruct (Active prev); simpl; [|done].
  destruct (hasFreezeWriter cfg); simpl; [|done].
  destruct (siblingWindowFrozen _ _ _ _); destruct (hasWindowedFreeze cfg); done.
Qed.

Lemma engageFreeze_states fv decision out o :
  freezeStates (engageFreeze cfg now pair window fv decision out o) = <[key := outState out]> (freezeStates o).
Proof. unfold engageFreeze. by destruct (hasFreezeWriter cfg). Qed.

(** The engaged world is what the marker write leaves. *)
Lemma engageFreeze_world fv decision out o : hasFreezeWriter cfg = true ->
  wld (engageFreeze cfg now pair window fv decision out o)
  = fst (markHoldForWindow cfg now pair window fv decision (outState out) (MarkerTTL out) (wld o)).
Proof. unfold engageFreeze. by intros ->. Qed.

Lemma frozen_state_active prev sig : Now sig <> zero_time -> Frozen (Evaluate p prev sig) = true ->
  Active (outState (Evaluate p prev sig)) = true.
Proof.
  intros Hz HF. assert (HE : advance p prev sig = outState (Evaluate p prev sig))
    by (unfold advance, persist; by rewrite HF).
  destruct (Active prev) eqn:HA; [rewrite <- HE; by apply advance_held|].
  revert HF. unfold Evaluate, fire. rewrite HA. cbn [negb]. destruct (Fires sig); cbn [negb]; [intros _|done].
  apply Active_iff. repeat case_if; done.
Qed.

Lemma not_overridden_transition prev sig : outTransition (Evaluate p prev sig) <> TransitionOverridden.
Proof.
  unfold Evaluate, fire. repeat case_if; done.
Qed.
End ControlProofs.

(** What the freeze state of a window reads as, spelled out on the state in
    memory, the marker's key and the durable ladder of the pair. *)
Section Loaded.
Context {C D : Type} `{RedisCache C} `{LadderDB D}.
Context (cfg : Config) (now : Time) (pair : Pair) (window : Duration).

(** No durable ladder contradicts a missing marker: none can be read (no
    store, or an error), none is on record, or the one on record is over. *)
Definition ladder_over (d : D) : Prop :=
  hasLadder (writer cfg) = false \/ (exists e, LoadLadder d (Base pair) (Quote pair) = Err e)
  \/ LoadLadder d (Base pair) (Quote pair) = Ok None
  \/ exists st, LoadLadder d (Base pair) (Quote pair) = Ok (Some st)
        /\ (FiredAt st = zero_time \/ HoldUntil st + ladderGrace (writer cfg) < now).

(** The freeze in memory was ended out of band. *)
Definition ended_out_of_band (st : State) (s : world (C := C) (D := D)) : Prop :=
  FiredAt st <> zero_time
  /\ redis_Get (cache s) now ("freeze:" +:+ Asset_String (Base pair) +:+ ":" +:+ Asset_String (Quote pair)) = Ok None
  /\ ladder_over (db s).

Inductive loads (o : orch (C := C) (D := D)) : res io_err (State * bool) -> Prop :=
| loads_unwired : hasFreezeWriter cfg = false ->
    loads o (Ok (default zero_State (freezeStates o !! (Pair_String pair, window)), false))
| loads_memory st b : hasFreezeWriter cfg = true -> freezeStates o !! (Pair_String pair, window) = Some st ->
    (b = true <-> ended_out_of_band st (wld o)) -> loads o (Ok (st, b))
| loads_marker marked ok : hasFreezeWriter cfg = true -> freezeStates o !! (Pair_String pair, window) = None ->
    LoadStateForWindow (writer cfg) (Base pair) (Quote pair) now (if hasWindowedFreeze cfg then window else 0) (wld o)
      = Ok (marked, ok) ->
    loads o (Ok (if ok && negb (FiredAt marked =? zero_time) then marked else zero_State, false))
| loads_error e : hasFreezeWriter cfg = true -> freezeStates o !! (Pair_String pair, window) = None ->
    redis_Get (cache (wld o)) now ("freeze:" +:+ Asset_String (Base pair) +:+ ":" +:+ Asset_String (Quote pair)) = Err e ->
    loads o (Err e).

Lemma loadState_Err w win s e : loadState w (Base pair) (Quote pair) now win s = Err e ->
  redis_Get (cache s) now (Freeze_key (Base pair) (Quote pair)) = Err e.
Proof. unfold loadState. cbv zeta. repeat case_match; intros [= <-]; done. Qed.

Lemma durable_over (s : world (C := C) (D := D)) :
  snd (loadDurableLadder (writer cfg) (Base pair) (Quote pair) now s) = false <-> ladder_over (db s).
Proof.
  unfold ladder_over, loadDurableLadder, live_ladder. destruct (hasLadder (writer cfg)); simpl; [|naive_solver].
  destruct (LoadLadder _ _ _) as [[d|]|e]; simpl; [|naive_solver..].
  pose proof (LadderStillLive_spec d (ladderGrace (writer cfg)) now) as HS. rewrite Active_iff in HS.
  destruct (LadderStillLive _ _ _); simpl.
  - destruct HS as [[Ha Hb] _]; [done|]. split; [done|].
    intros [?|[[? ?]|[?|(st & [= <-] & [?|?])]]]; [done|done|done|done|]. lia.
  - split; [|done]. intros _. right. right. right. exists d. split; [done|].
    destruct (decide (FiredAt d = zero_time)) as [?|n]; [by left|right]. apply Z.nle_gt. intros Hle. by discriminate (proj2 HS (conj n Hle)).
Qed.

Lemma loadFreezeState_loads (o : orch (C := C) (D := D)) : loads o (snd (loadFreezeState cfg now pair window o)).
Proof.
  unfold loadFreezeState, loadMarkerState. destruct (hasFreezeWriter cfg) eqn:HW; simpl; [|by constructor].
  destruct (freezeStates o !! (Pair_String pair, window)) as [st|] eqn:Hst.
  - assert (HE : Active st = true -> snd (match LoadState (writer cfg) (Base pair) (Quote pair) now (wld o) with
              | Ok (_, false) => (st, true) | _ => (st, false) end) = true <-> ended_out_of_band st (wld o)).
    { intros HA. unfold LoadState, loadState, ended_out_of_band. change (windowLabel 0) with (@None Duration). cbv zeta iota.
      unfold Freeze_key. destruct (redis_Get _ _ _) as [[[m| |]|]|]; try (split; [done|intros (_ & ? & _); congruence]).
      rewrite <- durable_over. destruct (loadDurableLadder _ _ _ _ _) as [d []]; simpl; split; try done.
      - by intros (_ & _ & ?).
      - intros _. split_and!; [by apply Active_iff|done|done]. }
    destruct (Active st) eqn:HA.
    + specialize (HE eq_refl). destruct (LoadState _ _ _ _ _) as [[? []]|]; by eapply loads_memory.
    + apply loads_memory; [done..|]. split; [done|]. intros (? & _). by apply Active_false in HA.
  - destruct (hasWindowedFreeze cfg) eqn:HWd; [destruct (LoadStateForWindow _ _ _ _ _ _) as [[m ok]|e] eqn:EL
      |destruct (LoadState _ _ _ _ _) as [[m ok]|e] eqn:EL].
    1, 3: cbn [snd]; unfold state_of; rewrite Hst; refine (loads_marker o m ok HW Hst _); rewrite HWd; exact EL.
    all: apply loads_error; [done..|]; by apply (loadState_Err (writer cfg) _ _ _ EL).
Qed.
End Loaded.

(** The bucket ends the freeze: it has not escalated, enough buckets in a row
    up to this one were healthy, and the initial hold is served. *)
Definition bucket_ends (q : Policy) (prev : State) (sig : Signal) : Prop :=
  Escalated prev = false
  /\ UnfreezeBuckets q <= (if healthy q sig then Z.max (UnfreezeStreak prev) (Z.min (UnfreezeBuckets q) (UnfreezeStreak prev + 1)) else 0)
  /\ FiredAt prev + (if Corroborated prev then InitialHold q else UncorroboratedInitialHold q) <= Now sig.

Lemma Frozen_exact p prev sig :
  Frozen (Evaluate p prev sig) = true <->
  if FiredAt prev =? zero_time then Fires sig = true else ~ bucket_ends (WithDefaults p) prev sig.
Proof.
  fold (time_IsZero (FiredAt prev)). destruct (time_IsZero (FiredAt prev)) eqn:EZ.
  - unfold Evaluate, Active. rewrite EZ. destruct (Fires sig); simpl; [|done]. unfold fire. by repeat case_if.
  - rewrite frozen_active by (unfold Active; by rewrite EZ). rewrite streak_healthy.
    unfold bucket_ends, minimumServed, initialHold, time_Before, time_Add.
    destruct (Escalated prev); simpl; [split; [intros _ (? & _); done|done]|].
    rewrite negb_true_iff, andb_false_iff, negb_false_iff, Z.leb_gt, Z.ltb_lt.
    repeat case_if; bprop; lia.
Qed.

(** What one freeze step of a bucket stores and answers, once its state has
    been read as [prev]. *)
Definition lifecycle_step (p : Policy) (now : Time) (sig : Signal) (prev : State) (ended : bool)
    (st' : State) (refused : bool) : Prop :=
  if ended then refused = false /\ FiredAt st' = zero_time /\ OverriddenAt st' = now
                /\ ExtensionsUsed st' = ExtensionsUsed prev /\ Escalated st' = Escalated prev
  else (refused = true <->
          if FiredAt prev =? zero_time then Fires sig = true else ~ bucket_ends (WithDefaults p) prev sig)
       /\ (refused = true -> st' = outState (Evaluate p prev sig) /\ FiredAt st' <> zero_time)
       /\ (refused = false -> st' = if FiredAt prev =? zero_time then prev else zero_State).

(** C30: the orchestrator implements the lifecycle. One freeze step of a
    bucket leaves every other (pair, window) alone. If the recorded state
    cannot be read it withholds the bucket and changes nothing. Otherwise it
    takes exactly one step of the lifecycle on the bucket's own signal, from
    the state in memory or, after a restart, the recorded one: a freeze that
    was ended out of band is dropped and its ladder remembered; an unfrozen
    bucket is refused if and only if it fires; a frozen one is refused until
    the buckets up to this one end the freeze; and what is stored is the state
    the lifecycle evaluates to, live whenever the bucket is refused, and none
    when a freeze ends. *)
Theorem stepFreezeLifecycle_refines {C D : Type} `{RedisCache C} `{LadderDB D}
    (cfg : Config) now pair window fv sig decision (o o' : orch (C := C) (D := D)) refused :
  Now sig <> zero_time ->
  stepFreezeLifecycle cfg now pair window fv sig decision o = (o', refused) ->
  (forall k, k <> (Pair_String pair, window) -> freezeStates o' !! k = freezeStates o !! k)
  /\ exists r, loads cfg now pair window o r
     /\ match r with
        | Err _ => refused = true /\ o' = o
        | Ok (prev, ended) =>
            exists st', freezeStates o' !! (Pair_String pair, window) = Some st'
              /\ lifecycle_step (Lifecycle (phase2 cfg)) now sig prev ended st' refused
        end.
Proof.
  intros Hz HS. unfold stepFreezeLifecycle in HS.
  pose proof (loadFreezeState_frame cfg now pair window o) as HF.
  pose proof (loadFreezeState_loads cfg now pair window o) as HL.
  destruct (loadFreezeState cfg now pair window o) as [o1 r]. destruct HF as (_ & Hother & Herr & Hact). simpl in HL.
  destruct r as [[prev ov]|e]; [|injection HS as <- <-; rewrite Herr by done; split; [done|by exists (Err e)]].
  set (q := Lifecycle (phase2 cfg)) in *.
  assert (Hins : forall st, freezeStates o' = <[(Pair_String pair, window) := st]> (freezeStates o1) ->
            lifecycle_step q now sig prev ov st refused ->
            (forall k, k <> (Pair_String pair, window) -> freezeStates o' !! k = freezeStates o !! k)
            /\ exists r, loads cfg now pair window o r /\ match r with
                 | Err _ => refused = true /\ o' = o
                 | Ok (prev, ended) => exists st', freezeStates o' !! (Pair_String pair, window) = Some st'
                                        /\ lifecycle_step q now sig prev ended st' refused end).
  { intros st E Hst. split; [|exists (Ok (prev, ov)); split; [done|]; exists st; by rewrite E, lookup_insert_eq].
    intros k Hk. by rewrite E, lookup_insert_ne, Hother. }
  destruct ov.
  - injection HS as <- <-. apply (Hins (Overridden prev now)); [|done].
    rewrite releaseFreeze_states, Hact. by rewrite bool_decide_eq_true_2.
  - pose proof (Frozen_exact q prev sig) as HX. pose proof (frozen_state_active cfg prev sig Hz) as HA.
    destruct (Frozen (Evaluate q prev sig)) eqn:EF; simpl in HS; injection HS as <- <-.
    + apply (Hins (outState (Evaluate q prev sig))); [by rewrite engageFreeze_states|]. split; [done|].
      split; [|done]. split; [done|]. by apply Active_iff, HA.
    + eapply Hins; [rewrite releaseFreeze_states, bool_decide_eq_false_2 by apply not_overridden_transition; done|].
      split; [done|]. split; [done|]. intros _. unfold Active, time_IsZero. by destruct (FiredAt prev =? zero_time).
Qed.

Definition cfg_ex : Config :=
  mkConfig true true true [5 * Minute; Hour] (mkPhase2 f64_zero f64_zero 0 policy_ex) f64_zero None writer_ex.
Definition pair_ex : Pair := mkPair NativeAsset usd_fiat_ex.
Definition orch_ex : orch (C := gmap string (body * Time)) (D := gmap Duration State) := mkOrch ∅ ∅ world_ex.

(** The cold state of one hour: a healthy bucket is refused while the hold
    runs; a quiet pair is refused when its bucket fires and not otherwise. *)
Lemma stepFreezeLifecycle_refines_witness :
  (let '(o', refused) := stepFreezeLifecycle cfg_ex Minute pair_ex Hour "1" (health_ex Minute) decision_ex orch_ex in
   refused = true /\ exists r, loads cfg_ex Minute pair_ex Hour orch_ex r
     /\ match r with
        | Err _ => refused = true /\ o' = orch_ex
        | Ok (prev, ended) => exists st', freezeStates o' !! (Pair_String pair_ex, Hour) = Some st'
              /\ lifecycle_step policy_ex Minute (health_ex Minute) prev ended st' refused
        end)
  /\ snd (stepFreezeLifecycle cfg_ex Minute pair_ex (5 * Minute) "1" (fire_ex Minute) decision_ex
            (mkOrch (C := gmap string (body * Time)) (D := gmap Duration State) ∅ ∅ (mkWorld ∅ ∅))) = true
  /\ snd (stepFreezeLifecycle cfg_ex Minute pair_ex (5 * Minute) "1" (health_ex Minute) decision_ex
            (mkOrch (C := gmap string (body * Time)) (D := gmap Duration State) ∅ ∅ (mkWorld ∅ ∅))) = false.
Proof.
  split; [|split; vm_compute; reflexivity].
  destruct (stepFreezeLifecycle cfg_ex Minute pair_ex Hour "1" (health_ex Minute) decision_ex orch_ex)
    as [o' refused] eqn:E.
  split; [vm_compute in E; by injection E as _ <-|].
  refine (proj2 (stepFreezeLifecycle_refines cfg_ex Minute pair_ex Hour "1" (health_ex Minute) decision_ex orch_ex
            o' refused _ E)).
  vm_compute. congruence.
Defined.

(** A restart resumes the freeze. After a bucket is refused and its marker
    was written, a new process (nothing in memory, the same cache and store)
    that evaluates the same window while the marker lives and the hold is not
    past its grace starts from exactly the state the old process held: fire
    time, rungs climbed, escalation and streak included. *)
Theorem restart_resumes {C D : Type} `{RedisLaws C} `{LadderDB D}
    (cfg : Config) now t pair window fv sig decision prev (o o1 o' : orch (C := C) (D := D)) b :
  hasFreezeWriter cfg = true -> hasWindowedFreeze cfg = true -> 0 < window -> now <= t ->
  loadFreezeState cfg now pair window o = (o1, Ok (prev, false)) ->
  stepFreezeLifecycle cfg now pair window fv sig decision o = (o', true) ->
  snd (markHoldForWindow cfg now pair window fv decision
         (outState (Evaluate (Lifecycle (phase2 cfg)) prev sig))
         (MarkerTTL (Evaluate (Lifecycle (phase2 cfg)) prev sig)) (wld o)) = None ->
  0 < MarkerTTL (Evaluate (Lifecycle (phase2 cfg)) prev sig) ->
  t + Millisecond <= now + MarkerTTL (Evaluate (Lifecycle (phase2 cfg)) prev sig) ->
  LadderStillLive (state_of o' (Pair_String pair, window)) (ladderGrace (writer cfg)) t = true ->
  redis_Get (cache (wld o')) t (Freeze_key (Base pair) (Quote pair)) = Ok b ->
  snd (loadFreezeState cfg t pair window (mkOrch ∅ ∅ (wld o'))) = Ok (state_of o' (Pair_String pair, window), false).
Proof.
  intros HW HWd Hwin Ht HL HS HM Hpos Httl Hlive HG.
  pose proof (loadFreezeState_frame cfg now pair window o) as HF. rewrite HL in HF. destruct HF as (Hw1 & _).
  unfold stepFreezeLifecycle in HS. rewrite HL in HS.
  set (out := Evaluate (Lifecycle (phase2 cfg)) prev sig) in *.
  destruct (Frozen out) eqn:EF; simpl in HS; [|done]. injection HS as <-.
  unfold state_of in *. rewrite engageFreeze_states, lookup_insert_eq in *. simpl in *.
  rewrite engageFreeze_world in * by done. rewrite Hw1 in *.
  unfold markHoldForWindow in *. rewrite HWd in *.
  destruct (MarkHoldForWindow _ _ _ _ _ _ _ _ _ _ _) as [s' e] eqn:EM. simpl in *. subst e.
  unfold loadFreezeState. rewrite HW. simpl. unfold loadMarkerState. rewrite HWd. simpl.
  erewrite MarkHoldForWindow_own by eauto. simpl.
  apply LadderStillLive_spec in Hlive as [-> _]. done.
Qed.

Lemma restart_resumes_witness :
  let o' := fst (stepFreezeLifecycle cfg_ex Minute pair_ex Hour "1" (health_ex Minute) decision_ex orch_ex) in
  snd (loadFreezeState cfg_ex (2 * Minute) pair_ex Hour (mkOrch ∅ ∅ (wld o')))
  = Ok (state_of o' (Pair_String pair_ex, Hour), false).
Proof.
  refine (restart_resumes cfg_ex Minute (2 * Minute) pair_ex Hour "1" (health_ex Minute) decision_ex (held_ex 0)
           orch_ex _ _ _ _ _ _ _ _ _ _ _ _ _ _).
  1-2: reflexivity.
  1-2: vm_compute; congruence.
  1-2: vm_compute; reflexivity.
  1: vm_compute; reflexivity.
  1-2: vm_compute; congruence.
  all: vm_compute; reflexivity.
Defined.


Definition frozen_hour_ex : orch (C := gmap string (body * Time)) (D := gmap Duration State) :=
  mkOrch {[ (Pair_String pair_ex, Hour) := held_ex 0 ]} ∅ world_ex.


(** ** The sweep *)

(** Closing one row leaves the ladders of the others. *)
Class FreezeRowsLaws (D : Type) `{LadderDB D} `{FreezeRows D} := {
  MarkRecovered_other d d' e a q a' q' :
    MarkRecovered a q d = (d', e) -> (a', q') <> (a, q) -> LoadLadder d' a' q' = LoadLadder d a' q'
}.

Section SweepProofs.
Context {C D : Type} `{RedisCache C} `{FreezeRowsLaws D}.
Context (r : Recovery) (now : Time).

Definition over (c : C) (d : D) (p : Asset * Asset) : Prop :=
  redis_Get c now (Freeze_key p.1 p.2) = Ok None /\ ladderStillHolds r now p d = false.

Lemma sweep_pair_spec (c : C) d k p : let '(d', k') := sweep_pair r now c (d, k) p in
  (forall p', p' <> p -> ladderStillHolds r now p' d' = ladderStillHolds r now p' d)
  /\ (recovered k' = recovered k \/ recovered k' = recovered k ++ [p] /\ over c d p)
  /\ (length (recovered k') + stillFiring k' + heldByLadder k' + errs k'
     = S (length (recovered k) + stillFiring k + heldByLadder k + errs k))%nat.
Proof.
  unfold sweep_pair. destruct (redis_Get c now _) as [[b|]|] eqn:E; simpl.
  - split_and!; [done|by left|lia].
  - destruct (ladderStillHolds r now p d) eqn:EL; simpl; [split_and!; [done|by left|lia]|].
    destruct (MarkRecovered p.1 p.2 d) as [d' e] eqn:EM.
    assert (Hkeep : forall p', p' <> p -> ladderStillHolds r now p' d' = ladderStillHolds r now p' d).
    { intros p' Hp. unfold ladderStillHolds. rewrite (MarkRecovered_other d d' e p.1 p.2 p'.1 p'.2); [done..|].
      destruct p, p'; done. }
    destruct e; simpl; (split; [done|]); (split; [|rewrite ?length_app; simpl; lia]); [by left|by right].
  - split_and!; [done|by left|lia].
Qed.

Lemma sweep_spec (c : C) open d k : NoDup open ->
  let '(d', k') := foldl (sweep_pair r now c) (d, k) open in
  (forall p, p ∈ recovered k' -> p ∈ recovered k \/ (p ∈ open /\ over c d p))
  /\ (length (recovered k') + stillFiring k' + heldByLadder k' + errs k'
     = length (recovered k) + stillFiring k + heldByLadder k + errs k + length open)%nat.
Proof.
  intros Hnd. revert d k. induction Hnd as [|p open Hp Hnd IH]; intros d k; cbn [foldl].
  { split; [by left|simpl; lia]. }
  pose proof (sweep_pair_spec c d k p) as Hp1. destruct (sweep_pair r now c (d, k) p) as [d1 k1].
  destruct Hp1 as (Hkeep & Hrec & Hcnt). specialize (IH d1 k1).
  destruct (foldl _ (d1, k1) open) as [d2 k2]. destruct IH as [Hin Hlen]. split; [|simpl; lia].
  intros p' Hp'. destruct (Hin p' Hp') as [Hk|(Ho & HR & HL)].
  - destruct Hrec as [E|[E Hov]]; rewrite E in Hk; [by left|].
    apply elem_of_app in Hk as [?| ->%list_elem_of_singleton]; [by left|right]. split; [left|done].
  - right. split; [by right|]. split; [done|]. rewrite <- Hkeep; [done|]. intros ->. by destruct Hp.
Qed.
End SweepProofs.

(** The recovery sweep closes only freezes that are over. Every row it
    closes was open, the cache answered that its marker is gone, and no
    durable ladder still holds it: a marker that cannot be read, or one that
    Redis lost while the hold runs, leaves the row open for the rehydrate.
    Every open row is counted once: recovered, firing, held or failed. *)
Theorem tick_closes_only_ended {C D : Type} `{RedisCache C} `{FreezeRowsLaws D}
    (r : Recovery) now (s s' : world (C := C) (D := D)) open k :
  ListOpen (db s) = Ok open -> NoDup open -> tick r now s = (s', Some k) ->
  (forall p, p ∈ recovered k -> p ∈ open
     /\ redis_Get (cache s) now (Freeze_key p.1 p.2) = Ok None /\ ladderStillHolds r now p (db s) = false)
  /\ (length (recovered k) + stillFiring k + heldByLadder k + errs k = length open)%nat
  /\ cache s' = cache s.
Proof.
  intros HL Hnd HT. unfold tick in HT. rewrite HL in HT.
  pose proof (sweep_spec r now (cache s) open (db s) (mkSweep [] 0 0 0) Hnd) as HS.
  destruct (foldl _ _ open) as [d k']. injection HT as <- <-. destruct HS as [Hin Hlen].
  split; [|split; [done|done]]. intros p Hp. destruct (Hin p Hp) as [[]%elem_of_nil|(Ho & ? & ?)]. done.
Qed.

#[export] Instance map_FreezeRows : FreezeRows (gmap Duration State) := {|
  ListOpen d := Ok (if bool_decide (d = ∅) then [] else [(NativeAsset, usd_fiat_ex)]);
  MarkRecovered _ _ d := (∅, None)
|}.

#[export] Instance map_FreezeRowsLaws : FreezeRowsLaws (gmap Duration State).
Proof. split. done. Qed.

Lemma tick_closes_only_ended_witness :
  (length (recovered (default (mkSweep [] 0 0 0) (snd (tick (NewRecovery true 0) Minute world_ex)))) = 1)%nat
  /\ (1 + 0 + 0 + 0 = 1)%nat.
Proof.
  split; [vm_compute; reflexivity|].
  refine (proj1 (proj2 (tick_closes_only_ended (NewRecovery true 0) Minute world_ex _ [(NativeAsset, usd_fiat_ex)]
            (mkSweep [(NativeAsset, usd_fiat_ex)] 0 0 0) _ _ _))).
  - vm_compute. reflexivity.
  - apply NoDup_singleton.
  - vm_compute. reflexivity.
Defined.
