(* ===== verification/NetIP.v ===== *)
(** * IP addresses (what the rate limiter uses of net/netip)

    [ParseAddr] and [String] of netip.Addr with the operations that mask an
    address to a network. An IPv4 address is its four octets, an IPv6 address
    its eight 16-bit groups and its zone. The main result is that printing is
    injective up to parsing: a printed address is read back as itself. *)

From S2P Require Import Prelude GoLib.

Inductive Addr :=
| Addr4 (octets : list Z)
| Addr6 (groups : list Z) (zone : string).

#[export] Instance Addr_eq_dec : EqDecision Addr.
Proof. solve_decision. Defined.

Definition dot : ascii := "."%char.
Definition colon : ascii := ":"%char.
Definition percent : ascii := "%"%char.

(** ** Parsing *)

(** parseIPv4Fields: the octet being read, its digits so far, the octets read. *)
Fixpoint ipv4_fields (s : string) (val : Z) (digLen : nat) (fields : list Z) : option (list Z) :=
  match s with
  | EmptyString =>
      if (length fields <? 3)%nat || (digLen =? 0)%nat then None else Some (fields ++ [val])
  | String c s =>
      if is_dec_digit c then
        if (digLen =? 1)%nat && (val =? 0) then None
        else let v := val * 10 + (byte_of c - 48) in
             if 255 <? v then None else ipv4_fields s v (S digLen) fields
      else if Ascii.eqb c dot then
        if (digLen =? 0)%nat || (length fields =? 3)%nat then None
        else ipv4_fields s 0 0 (fields ++ [val])
      else None
  end.

Definition parseIPv4Fields (s : string) : option (list Z) := ipv4_fields s 0 0 [].

Definition hex_val (c : ascii) : option Z :=
  match digit_val c with
  | Some d => if d <? 16 then Some d else None
  | None => None
  end.

(** The hexadecimal group at the front of the string: its value, how many
    digits it has and what follows. A fifth digit is an error. *)
Fixpoint hex_group (s : string) (acc : Z) (off : nat) : option (Z * nat * string) :=
  match s with
  | EmptyString => Some (acc, off, s)
  | String c r =>
      match hex_val c with
      | None => Some (acc, off, s)
      | Some d => if (3 <? off)%nat then None else hex_group r (acc * 16 + d) (S off)
      end
  end.

(** The loop of parseIPv6 with [room] groups left to fill: the groups read,
    where the ellipsis is, and what was not consumed. *)
Fixpoint ipv6_groups (room : nat) (s : string) (ip : list Z) (ellipsis : option nat)
  : option (list Z * option nat * string) :=
  match room with
  | O => Some (ip, ellipsis, s)
  | S room =>
      match hex_group s 0 0 with
      | None | Some (_, O, _) => None
      | Some (acc, S _, rest) =>
          match rest with
          | EmptyString => Some (ip ++ [acc], ellipsis, rest)
          | String c rest =>
              if Ascii.eqb c dot then
                if bool_decide (ellipsis = None) && negb (length ip =? 6)%nat then None
                else if (6 <? length ip)%nat then None
                else match parseIPv4Fields s with
                     | Some [a; b; c; d] => Some (ip ++ [a * 256 + b; c * 256 + d], ellipsis, EmptyString)
                     | _ => None
                     end
              else if negb (Ascii.eqb c colon) then None
              else match rest with
                   | EmptyString => None
                   | String c' rest' =>
                       if Ascii.eqb c' colon then
                         match ellipsis with
                         | Some _ => None
                         | None =>
                             let ell := Some (length (ip ++ [acc])) in
                             match rest' with
                             | EmptyString => Some (ip ++ [acc], ell, rest')
                             | _ => ipv6_groups room rest' (ip ++ [acc]) ell
                             end
                         end
                       else ipv6_groups room rest (ip ++ [acc]) ellipsis
                   end
          end
      end
  end.

(** The end of parseIPv6: nothing may be left, and a short address needs an
    ellipsis, which must stand for at least one group. *)
Definition ipv6_expand (ip : list Z) (ellipsis : option nat) : option (list Z) :=
  if (length ip <? 8)%nat then
    match ellipsis with
    | None => None
    | Some e => Some (take e ip ++ replicate (8 - length ip) 0 ++ drop e ip)
    end
  else match ellipsis with Some _ => None | None => Some ip end.

(** The address between a leading ellipsis and the zone. *)
Definition ipv6_body (body zone : string) : option Addr :=
  match CutPrefix body "::" with
  | Some EmptyString => Some (Addr6 (replicate 8 0) zone)
  | front =>
      let '(body, ellipsis) := match front with Some r => (r, Some 0%nat) | None => (body, None) end in
      match ipv6_groups 8 body [] ellipsis with
      | Some (ip, ell, EmptyString) => ip' ← ipv6_expand ip ell; Some (Addr6 ip' zone)
      | _ => None
      end
  end.

Definition parseIPv6 (s : string) : option Addr :=
  match Cut s percent with
  | Some (_, EmptyString) => None
  | Some (body, zone) => ipv6_body body zone
  | None => ipv6_body s EmptyString
  end.

(** The first of the three separators decides the family. *)
Definition ParseAddr (s : string) : option Addr :=
  let sep c := Ascii.eqb c dot || Ascii.eqb c colon || Ascii.eqb c percent in
  match index_by sep s with
  | None => None
  | Some i =>
      match str_drop i s with
      | String c _ =>
          if Ascii.eqb c dot then Addr4 <$> parseIPv4Fields s
          else if Ascii.eqb c colon then parseIPv6 s else None
      | EmptyString => None
      end
  end.

(** ** Kinds and masks *)

Definition Is4 (a : Addr) : bool := match a with Addr4 _ => true | _ => false end.
Definition Is6 (a : Addr) : bool := match a with Addr6 _ _ => true | _ => false end.

Definition Is4In6 (a : Addr) : bool :=
  match a with
  | Addr6 gs _ => bool_decide (take 6 gs = [0; 0; 0; 0; 0; 65535])
  | Addr4 _ => false
  end.

Definition Unmap (a : Addr) : Addr :=
  match a with
  | Addr6 gs _ =>
      if Is4In6 a then Addr4 (drop 6 gs ≫= fun g => [g / 256; g mod 256]) else a
  | Addr4 _ => a
  end.

(** [netip.PrefixFrom(addr.WithZone(""), 16 * k).Masked().Addr()] of an IPv6
    address. *)
Definition mask6 (k : nat) (gs : list Z) : list Z := take k gs ++ replicate (8 - k) 0.

(** ** Printing *)

Fixpoint join (sep : string) (l : list string) : string :=
  match l with
  | [] => EmptyString
  | [x] => x
  | x :: l => x +:+ sep +:+ join sep l
  end.

Definition string4 (os : list Z) : string := join "." (map (fmt_uint 10) os).

(** How many zero groups start at the front of the list. *)
Fixpoint zero_run (gs : list Z) : nat :=
  match gs with
  | [] => 0
  | g :: gs => if g =? 0 then S (zero_run gs) else 0
  end.

(** The first longest run of at least two zero groups: start and length. *)
Fixpoint best_run (i : nat) (gs : list Z) (best : nat * nat) : nat * nat :=
  match gs with
  | [] => best
  | _ :: gs' =>
      let l := zero_run gs in
      best_run (S i) gs' (if (2 <=? l)%nat && (snd best <? l)%nat then (i, l) else best)
  end.

Definition hex_groups (gs : list Z) : string := join ":" (map (fmt_uint 16) gs).

Definition string6 (gs : list Z) : string :=
  let '(start, len) := best_run 0 gs (0%nat, 0%nat) in
  if (len =? 0)%nat then hex_groups gs
  else hex_groups (take start gs) +:+ "::" +:+ hex_groups (drop (start + len) gs).

Definition Addr_String (a : Addr) : string :=
  match a with
  | Addr4 os => string4 os
  | Addr6 gs zone =>
      (if Is4In6 a then "::ffff:" +:+ match Unmap a with Addr4 os => string4 os | _ => EmptyString end
       else string6 gs)
      +:+ (if String.eqb zone EmptyString then EmptyString else "%" +:+ zone)
  end.

Example parse_examples :
  map (fun s => option_map Addr_String (ParseAddr s))
    ["1.2.3.4"; "01.2.3.4"; "::"; "::1"; "1::"; "2001:DB8:0:0:1:0:0:1"; "::ffff:1.2.3.4"; "fe80::1%eth0"; "1::2::3";
     "1:2:3:4:5:6:7:8"; "1:2:3:4:5:6:7::"; "1:2:3:4:5:6:7"; "1:2:3:4:5:6:1.2.3.4"; "12345::"; "256.1.1.1"; "1:2:3:4:5:6:7:8::"]
  = [Some "1.2.3.4"; None; Some "::"; Some "::1"; Some "1::"; Some "2001:db8::1:0:0:1"; Some "::ffff:1.2.3.4";
     Some "fe80::1%eth0"; None; Some "1:2:3:4:5:6:7:8"; Some "1:2:3:4:5:6:7:0"; None; Some "1:2:3:4:5:6:102:304";
     None; None; None].
Proof. vm_compute. reflexivity. Qed.

(** ** A printed address is read back *)

#[local] Arguments fmt_uint : simpl never.

Definition valid_addr (a : Addr) : Prop :=
  match a with
  | Addr4 os => length os = 4%nat /\ Forall (fun o => 0 <= o < 256) os
  | Addr6 gs _ => length gs = 8%nat /\ Forall (fun g => 0 <= g < 65536) gs
  end.

(** Octets have few values: the reader is run on each. *)
Lemma ipv4_fields_octet v r fs :
  0 <= v < 256 ->
  ipv4_fields (fmt_uint 10 v +:+ r) 0 0 fs = ipv4_fields r v (S (pred (String.length (fmt_uint 10 v)))) fs.
Proof.
  intros Hv. assert (Hall : Forall (fun v => forall r fs, ipv4_fields (fmt_uint 10 v +:+ r) 0 0 fs
      = ipv4_fields r v (S (pred (String.length (fmt_uint 10 v)))) fs) (map Z.of_nat (seq 0 256))).
  { cbv [seq map]. repeat constructor. }
  rewrite Forall_forall in Hall. apply Hall.
  apply list_elem_of_fmap. exists (Z.to_nat v). split; [lia|]. apply elem_of_seq. lia.
Qed.

Lemma str_app_empty_r s : s +:+ EmptyString = s.
Proof. induction s as [|c s IH]; [done|]. exact (f_equal (String c) IH). Qed.

Lemma str_app_empty_l s : EmptyString +:+ s = s.
Proof. done. Qed.

Lemma parseIPv4Fields_string os :
  length os = 4%nat -> Forall (fun o => 0 <= o < 256) os -> parseIPv4Fields (string4 os) = Some os.
Proof.
  destruct os as [|a [|b [|c [|d [|]]]]]; try done. intros _ H. rewrite !Forall_cons in H.
  destruct H as (Ha & Hb & Hc & Hd & _). unfold parseIPv4Fields, string4. cbn [map join].
  rewrite <- (str_app_empty_r (fmt_uint 10 d)).
  do 3 (rewrite ipv4_fields_octet by done; simpl; rewrite str_app_empty_l).
  by rewrite ipv4_fields_octet.
Qed.

Definition hex_digit (c : ascii) : bool := bool_decide (is_Some (hex_val c)).

Lemma fmt_uint16_digits n : str_forallb hex_digit (fmt_uint 16 n) = true.
Proof.
  apply digits_acc_chars; [lia| |done]. intros d Hd. unfold hex_digit, hex_val. rewrite digit_val_char by lia.
  by assert ((d <? 16) = true) as -> by (apply Z.ltb_lt; lia).
Qed.

(** What ends a group. *)
Definition ends_group (r : string) : bool := match r with String c _ => negb (hex_digit c) | EmptyString => true end.

Lemma hex_group_digits s r acc off v :
  parse_acc 16 s acc = Some v -> ends_group r = true -> (String.length s + off <= 4)%nat ->
  hex_group (s +:+ r) acc off = Some (v, (off + String.length s)%nat, r).
Proof.
  revert acc off. induction s as [|c s IH]; intros acc off Hv Hr Hl; simpl in *.
  - rewrite Nat.add_0_r. destruct r as [|c r]; simpl; [congruence|].
    unfold ends_group, hex_digit in Hr. bprop. destruct (hex_val c); [|congruence]. destruct Hr. eauto.
  - unfold hex_val. destruct (digit_val c) as [d|]; [|done]. destruct (d <? 16); [|done].
    assert ((3 <? off)%nat = false) as -> by (apply Nat.ltb_ge; lia).
    rewrite IH by (done || lia). by rewrite Nat.add_succ_r.
Qed.

Lemma hex_group_fmt g r :
  0 <= g < 65536 -> ends_group r = true ->
  exists k, hex_group (fmt_uint 16 g +:+ r) 0 0 = Some (g, S k, r).
Proof.
  intros Hg Hr. pose proof (parse_fmt_uint 16 ltac:(lia) g ltac:(lia)) as Hp.
  pose proof (fmt_uint_length 16 ltac:(lia) g 3 ltac:(simpl; lia)) as Hl.
  assert (Hne := fmt_uint_nonempty 16 g).
  unfold parse_uint in Hp. destruct (fmt_uint 16 g) as [|c s] eqn:E; [done|].
  exists (String.length s). rewrite (hex_group_digits _ r 0 0 g) by (done || lia). done.
Qed.

(** A group is not empty and starts with a hexadecimal digit. *)
Lemma hex_groups_head g gs : exists c r, hex_groups (g :: gs) = String c r /\ hex_digit c = true.
Proof.
  pose proof (fmt_uint16_digits g) as H. pose proof (fmt_uint_nonempty 16 g) as Hne. unfold hex_groups.
  destruct gs as [|g' gs]; cbn [map join]; destruct (fmt_uint 16 g) as [|c s]; try done; simpl in H; bprop; eauto.
Qed.

Lemma hex_digit_sep c : hex_digit c = true -> Ascii.eqb c dot = false /\ Ascii.eqb c colon = false /\ Ascii.eqb c percent = false.
Proof.
  intros H. split_and!; apply Ascii.eqb_neq; intros ->; revert H; unfold hex_digit; vm_compute; congruence.
Qed.

Definition valid_group (g : Z) : Prop := 0 <= g < 65536.

(** The loop on a printed list of groups with nothing after it. *)
Lemma ipv6_groups_all room gs ip ell :
  gs <> [] -> Forall valid_group gs -> (length gs <= room)%nat ->
  ipv6_groups room (hex_groups gs) ip ell = Some (ip ++ gs, ell, EmptyString).
Proof.
  revert room ip. induction gs as [|g gs IH]; intros room ip Hne Hg Hl; [done|]. rewrite Forall_cons in Hg.
  destruct Hg as [Hg Hgs]. simpl in Hl. destruct room as [|room]; [lia|].
  destruct gs as [|g' gs].
  - unfold hex_groups. cbn [map join ipv6_groups]. rewrite <- (str_app_empty_r (fmt_uint 16 g)).
    by destruct (hex_group_fmt g EmptyString Hg eq_refl) as [k ->].
  - change (hex_groups (g :: g' :: gs)) with (fmt_uint 16 g +:+ String colon (hex_groups (g' :: gs))).
    cbn [ipv6_groups]. destruct (hex_group_fmt g (String colon (hex_groups (g' :: gs))) Hg eq_refl) as [k ->].
    cbn [Ascii.eqb negb]. simpl (Ascii.eqb colon dot). simpl (Ascii.eqb colon colon). cbn [negb].
    destruct (hex_groups_head g' gs) as (c & r & E & Hc). rewrite E.
    destruct (hex_digit_sep c Hc) as (_ & -> & _). rewrite <- E, IH by (done || simpl in *; lia).
    by rewrite <- app_assoc.
Qed.

(** The loop up to the ellipsis. *)
Lemma ipv6_groups_ellipsis room gs ip t :
  gs <> [] -> Forall valid_group gs -> (length gs <= room)%nat ->
  ipv6_groups room (hex_groups gs +:+ "::" +:+ t) ip None =
    let ell := Some (length (ip ++ gs)) in
    if String.eqb t EmptyString then Some (ip ++ gs, ell, EmptyString)
    else ipv6_groups (room - length gs) t (ip ++ gs) ell.
Proof.
  revert room ip. induction gs as [|g gs IH]; intros room ip Hne Hg Hl; [done|]. rewrite Forall_cons in Hg.
  destruct Hg as [Hg Hgs]. simpl in Hl. destruct room as [|room]; [lia|].
  destruct gs as [|g' gs].
  - unfold hex_groups. cbn [map join ipv6_groups].
    change ("::" +:+ t) with (String colon (String colon t)).
    destruct (hex_group_fmt g (String colon (String colon t)) Hg eq_refl) as [k ->].
    simpl (Ascii.eqb colon dot). simpl (Ascii.eqb colon colon). cbn [negb].
    destruct t as [|c t]; [done|]. simpl. by rewrite Nat.sub_0_r.
  - change (hex_groups (g :: g' :: gs)) with (fmt_uint 16 g +:+ String colon (hex_groups (g' :: gs))).
    rewrite str_app_assoc. change (String colon (hex_groups (g' :: gs)) +:+ "::" +:+ t)
      with (String colon (hex_groups (g' :: gs) +:+ "::" +:+ t)).
    cbn [ipv6_groups]. destruct (hex_group_fmt g (String colon (hex_groups (g' :: gs) +:+ "::" +:+ t)) Hg eq_refl) as [k ->].
    simpl (Ascii.eqb colon dot). simpl (Ascii.eqb colon colon). cbn [negb].
    destruct (hex_groups_head g' gs) as (c & r & E & Hc). rewrite E.
    change (String c r +:+ "::" +:+ t) with (String c (r +:+ "::" +:+ t)).
    destruct (hex_digit_sep c Hc) as (_ & -> & _).
    change (String c (r +:+ "::" +:+ t)) with (String c r +:+ "::" +:+ t).
    rewrite <- E, IH by (done || simpl in *; lia). cbv zeta. rewrite <- !app_assoc. done.
Qed.

(** ** The run of zeros that is left out *)

Lemma zero_run_spec gs : (zero_run gs <= length gs)%nat /\ take (zero_run gs) gs = replicate (zero_run gs) 0.
Proof.
  induction gs as [|g gs [IHl IH]]; [done|]. simpl. case_if; bprop; subst; simpl; [|split; [lia|done]].
  split; [lia|]. by rewrite IH.
Qed.

Definition run_ok (gs : list Z) (r : nat * nat) : Prop :=
  r.2 = 0%nat \/ gs = take r.1 gs ++ replicate r.2 0 ++ drop (r.1 + r.2) gs.

Lemma best_run_ok all i gs best : gs = drop i all -> run_ok all best -> run_ok all (best_run i gs best).
Proof.
  revert i best. induction gs as [|g gs IH]; intros i best Hd Hb; [done|]. cbn [best_run]. apply IH.
  - rewrite <- Nat.add_1_r, <- drop_drop, <- Hd. done.
  - case_if; [|done]. right. cbn [fst snd]. rewrite Hd. destruct (zero_run_spec (drop i all)) as [_ H].
    rewrite <- H, <- drop_drop, take_drop, take_drop. done.
Qed.

Lemma best_run_split gs :
  run_ok gs (best_run 0 gs (0%nat, 0%nat)).
Proof. apply best_run_ok; [done|]. by left. Qed.

Lemma ipv6_body_hex gs zone : length gs = 8%nat -> Forall valid_group gs ->
  ipv6_body (string6 gs) zone = Some (Addr6 gs zone).
Proof.
  intros Hl Hg. unfold string6. pose proof (best_run_split gs) as Hr.
  destruct (best_run 0 gs (0%nat, 0%nat)) as [st len]. unfold run_ok in Hr. cbn [fst snd] in Hr. unfold ipv6_body.
  destruct (len =? 0)%nat eqn:E; bprop.
  { destruct gs as [|g gs]; [done|]. destruct (hex_groups_head g gs) as (c & r & Eh & Hc). rewrite Eh.
    cbn [CutPrefix]. destruct (hex_digit_sep c Hc) as (_ & Hco & _). change ":"%char with colon.
    rewrite (Ascii.eqb_sym colon c), Hco, <- Eh, ipv6_groups_all by (done || lia).
    unfold ipv6_expand. by rewrite app_nil_l, Hl. }
  destruct Hr as [?|Hr]; [done|]. set (p := take st gs) in *. set (q := drop (st + len) gs) in *.
  assert (Hp : Forall valid_group p) by (by apply Forall_take). assert (Hq : Forall valid_group q) by (by apply Forall_drop).
  assert (Hlen : (length p + len + length q)%nat = 8%nat).
  { apply (f_equal length) in Hr. rewrite !length_app, length_replicate in Hr. lia. }
  rewrite Hr. clearbody p q. clear Hr Hl Hg gs. destruct p as [|g p].
  - change (hex_groups [] +:+ "::" +:+ hex_groups q) with ("::" +:+ hex_groups q). rewrite CutPrefix_app.
    destruct q as [|g q].
    { simpl in Hlen. replace len with 8%nat by lia. done. }
    destruct (hex_groups_head g q) as (c & r & Eh & _). rewrite Eh, <- Eh, ipv6_groups_all by (done || simpl in *; lia).
    unfold ipv6_expand. rewrite app_nil_l. assert ((length (g :: q) <? 8)%nat = true) as -> by (apply Nat.ltb_lt; simpl in *; lia).
    replace (8 - length (g :: q))%nat with len by (simpl in *; lia). done.
  - destruct (hex_groups_head g p) as (c & r & Eh & Hc). rewrite Eh. change (String c r +:+ ?x) with (String c (r +:+ x)).
    cbn [CutPrefix]. destruct (hex_digit_sep c Hc) as (_ & Hco & _). change ":"%char with colon.
    rewrite (Ascii.eqb_sym colon c), Hco. change (String c (r +:+ ?x)) with (String c r +:+ x). rewrite <- Eh.
    rewrite ipv6_groups_ellipsis by (done || simpl in *; lia). cbv zeta. rewrite app_nil_l.
    set (P := g :: p) in *. destruct q as [|g' q].
    + cbn [hex_groups map join String.eqb]. unfold ipv6_expand.
      assert ((length P <? 8)%nat = true) as -> by (apply Nat.ltb_lt; simpl in *; lia).
      replace (8 - length P)%nat with len by (simpl in *; lia). by rewrite firstn_all, skipn_all.
    + destruct (hex_groups_head g' q) as (c' & r' & Eh' & _). rewrite Eh'. cbn [String.eqb]. rewrite <- Eh'.
      rewrite ipv6_groups_all by (done || simpl in *; lia). unfold ipv6_expand.
      assert ((length (P ++ g' :: q) <? 8)%nat = true) as -> by (apply Nat.ltb_lt; rewrite length_app; simpl in *; lia).
      replace (8 - length (P ++ g' :: q))%nat with len by (rewrite length_app; simpl in *; lia).
      by rewrite take_app_length, drop_app_length.
Qed.

(** ** The whole printer *)

(** A mapped address prints its last two groups as octets. *)
Lemma octets_of_groups a b : 0 <= a < 65536 -> 0 <= b < 65536 ->
  Forall (fun o => 0 <= o < 256) [a / 256; a mod 256; b / 256; b mod 256].
Proof.
  intros Ha Hb. pose proof (Z.mod_pos_bound a 256). pose proof (Z.mod_pos_bound b 256).
  repeat constructor; try lia; (apply Z.div_pos || apply Z.div_lt_upper_bound); lia.
Qed.

Lemma dec_digits_hex s acc : str_forallb is_dec_digit s = true -> is_Some (parse_acc 16 s acc).
Proof.
  revert acc. induction s as [|c s IH]; intros acc H; [by eexists|]. simpl in *. bprop. unfold digit_val.
  unfold is_dec_digit in H. rewrite H. bprop. assert ((byte_of c - 48 <? 16) = true) as -> by (apply Z.ltb_lt; lia). auto.
Qed.

Lemma ipv6_groups_mapped room ip e os :
  length os = 4%nat -> Forall (fun o => 0 <= o < 256) os -> (length ip <= 6)%nat ->
  ipv6_groups (S room) (string4 os) ip (Some e)
  = match os with [a; b; c; d] => Some (ip ++ [a * 256 + b; c * 256 + d], Some e, EmptyString) | _ => None end.
Proof.
  intros Hl Ho Hip. pose proof (parseIPv4Fields_string os Hl Ho) as Hp.
  destruct os as [|a [|b [|c [|d [|]]]]]; try done. rewrite !Forall_cons in Ho. destruct Ho as (Ha & _).
  cbn [ipv6_groups]. destruct (dec_digits_hex (fmt_uint 10 a) 0 (fmt_uint10_digits a)) as [v Hv].
  pose proof (fmt_uint_length 10 ltac:(lia) a 2 ltac:(simpl; lia)) as Hla.
  pose proof (fmt_uint_nonempty 10 a) as Hne.
  assert (Eh : exists r k, hex_group (string4 [a; b; c; d]) 0 0 = Some (v, S k, String dot r)).
  { unfold string4. cbn [map join]. destruct (fmt_uint 10 a) as [|c0 s]; [done|]. do 2 eexists.
    change ("." +:+ ?x) with (String dot x). by rewrite (hex_group_digits _ _ _ _ v) by (done || lia). }
  destruct Eh as (r & k & ->). simpl (Ascii.eqb dot dot). cbv iota.
  assert ((6 <? length ip)%nat = false) as -> by (apply Nat.ltb_ge; lia). by rewrite Hp.
Qed.

Lemma ipv6_body_mapped gs zone os : length gs = 8%nat -> Forall valid_group gs ->
  Is4In6 (Addr6 gs zone) = true -> Unmap (Addr6 gs zone) = Addr4 os ->
  ipv6_body ("::ffff:" +:+ string4 os) zone = Some (Addr6 gs zone).
Proof.
  intros Hl Hg H4 Hu. unfold Unmap in Hu. rewrite H4 in Hu. unfold Is4In6 in H4. bprop.
  destruct gs as [|g0 [|g1 [|g2 [|g3 [|g4 [|g5 [|a [|b [|]]]]]]]]]; try done. simpl in H4, Hu. injection H4 as -> -> -> -> -> ->.
  injection Hu as <-. rewrite !Forall_cons in Hg. destruct Hg as (_ & _ & _ & _ & _ & _ & Ha & Hb & _).
  pose proof (octets_of_groups a b Ha Hb) as Ho. unfold ipv6_body.
  change ("::ffff:" +:+ ?x) with ("::" +:+ "ffff:" +:+ x). rewrite CutPrefix_app.
  change ("ffff:" +:+ ?x) with (String "f" (String "f" (String "f" (String "f" (String colon x))))).
  assert (E : exists c r, string4 [a / 256; a mod 256; b / 256; b mod 256] = String c r /\ is_dec_digit c = true).
  { destruct (fmt_uint10_head (a / 256)) as (c & r & E & Hc). unfold string4. cbn [map join]. rewrite E. by do 2 eexists. }
  destruct E as (c & r & E & Hc).
  assert (Hcc : Ascii.eqb c colon = false).
  { apply Ascii.eqb_neq. intros ->. by vm_compute in Hc. }
  set (t := string4 _) in *.
  assert (Hs : ipv6_groups 8 (String "f" (String "f" (String "f" (String "f" (String colon t))))) [] (Some 0%nat)
          = ipv6_groups 7 t [65535] (Some 0%nat)).
  { cbn [ipv6_groups]. rewrite E. simpl. change (":"%char) with colon. by rewrite Hcc. }
  rewrite Hs. unfold t. rewrite ipv6_groups_mapped by (done || simpl; lia). unfold ipv6_expand. simpl.
  rewrite <- !Z.mul_comm with (n := 256), <- !Z.div_mod by lia. done.
Qed.

(** The printed body of an IPv6 address: hexadecimal digits up to the first
    colon, no zone mark anywhere. *)
Definition v6_text (s : string) : Prop :=
  (exists d r, s = d +:+ String colon r /\ str_forallb hex_digit d = true)
  /\ str_forallb (fun c => negb (Ascii.eqb percent c)) s = true.

Lemma hex_digit_not_sep c : hex_digit c = true ->
  negb (Ascii.eqb c dot || Ascii.eqb c colon || Ascii.eqb c percent) = true.
Proof. intros H. by destruct (hex_digit_sep c H) as (-> & -> & ->). Qed.

Lemma hex_digit_not_percent c : hex_digit c = true -> negb (Ascii.eqb percent c) = true.
Proof. intros H. rewrite Ascii.eqb_sym. by destruct (hex_digit_sep c H) as (_ & _ & ->). Qed.

Lemma hex_groups_no_percent gs : str_forallb (fun c => negb (Ascii.eqb percent c)) (hex_groups gs) = true.
Proof.
  induction gs as [|g gs IH]; [done|]. assert (Hg := str_forallb_impl _ _ _ hex_digit_not_percent (fmt_uint16_digits g)).
  unfold hex_groups in *. destruct gs as [|g' gs]; [done|]. cbn [map join] in *.
  by rewrite !str_forallb_app, Hg, IH.
Qed.

Lemma hex_groups_text g gs r : exists d r', hex_groups (g :: gs) +:+ String colon r = d +:+ String colon r'
  /\ str_forallb hex_digit d = true.
Proof.
  exists (fmt_uint 16 g). unfold hex_groups. destruct gs as [|g' gs]; cbn [map join].
  - exists r. split; [done|apply fmt_uint16_digits].
  - rewrite str_app_assoc. eexists. split; [reflexivity|apply fmt_uint16_digits].
Qed.

Lemma string6_text gs : length gs = 8%nat -> v6_text (string6 gs).
Proof.
  intros Hl. unfold v6_text, string6. destruct (best_run 0 gs _) as [st len]. case_if.
  - split; [|apply hex_groups_no_percent]. destruct gs as [|g [|g' gs]]; try done.
    exists (fmt_uint 16 g). eexists. split; [reflexivity|apply fmt_uint16_digits].
  - split; [|by rewrite !str_forallb_app, !hex_groups_no_percent].
    change ("::" +:+ ?x) with (String colon (String colon x)).
    destruct (take st gs) as [|g p]; [by exists EmptyString; eexists|apply hex_groups_text].
Qed.

Lemma parse_v6_text body zone a : v6_text body -> ipv6_body body zone = Some a ->
  ParseAddr (body +:+ (if String.eqb zone EmptyString then EmptyString else "%" +:+ zone)) = Some a.
Proof.
  intros [(d & r & E & Hd) Hp] Ha. unfold ParseAddr.
  set (z := if String.eqb zone EmptyString then _ else _).
  rewrite E at 1. rewrite str_app_assoc. change (String colon r +:+ z) with (String colon (r +:+ z)).
  rewrite index_by_app; [|by eapply str_forallb_impl; [|exact Hd]; apply hex_digit_not_sep|done].
  rewrite E at 1. rewrite str_app_assoc. change (String colon r +:+ z) with (String colon (r +:+ z)).
  rewrite str_drop_app. simpl (Ascii.eqb colon dot). simpl (Ascii.eqb colon colon). cbv iota.
  unfold parseIPv6, Cut. destruct (String.eqb zone EmptyString) eqn:Ez; bprop; subst z.
  - subst zone. rewrite str_app_empty_r, index_by_None by done. done.
  - change ("%" +:+ zone) with (String percent zone). rewrite index_by_app by done.
    rewrite str_take_app, str_drop_S_app. by destruct zone.
Qed.

Lemma string4_dots os : Forall (fun o => 0 <= o < 256) os -> length os = 4%nat ->
  str_forallb (fun c => negb (Ascii.eqb percent c)) (string4 os) = true
  /\ exists o r, string4 os = fmt_uint 10 o +:+ String dot r.
Proof.
  intros _ Hl. assert (Hd : forall n, str_forallb (fun c => negb (Ascii.eqb percent c)) (fmt_uint 10 n) = true).
  { intros n. eapply str_forallb_impl; [|apply fmt_uint10_digits]. intros c Hc. destruct (Ascii.eqb percent c) eqn:E; [|done].
    apply Ascii.eqb_eq in E. subst c. by vm_compute in Hc. }
  destruct os as [|a [|b [|c [|d [|]]]]]; try done. unfold string4. cbn [map join]. split.
  - by rewrite !str_forallb_app, !Hd.
  - by do 2 eexists.
Qed.

(** A printed address is read back as itself, whatever its family, its runs of
    zeros and its zone. *)
Theorem ParseAddr_String a : valid_addr a -> ParseAddr (Addr_String a) = Some a.
Proof.
  destruct a as [os|gs zone]; intros [Hl Hv].
  - destruct (string4_dots os Hv Hl) as (_ & o & r & E). unfold ParseAddr, Addr_String.
    rewrite E at 1. rewrite index_by_app; [|eapply str_forallb_impl; [|apply fmt_uint10_digits]|done].
    2: { intros c Hc. unfold is_dec_digit in Hc. bprop.
         destruct (Ascii.eqb c dot || _ || _) eqn:Es; [|done]. exfalso.
         rewrite !orb_true_iff, !Ascii.eqb_eq in Es.
         destruct Es as [[Es|Es]|Es]; subst c; vm_compute in *; congruence. }
    rewrite E at 1. rewrite str_drop_app. simpl (Ascii.eqb dot dot). cbv iota. by rewrite parseIPv4Fields_string.
  - unfold Addr_String. destruct (Is4In6 (Addr6 gs zone)) eqn:E4.
    + destruct (Unmap (Addr6 gs zone)) as [os|] eqn:Eu; [|unfold Unmap in Eu; by rewrite E4 in Eu].
      apply parse_v6_text; [|by apply ipv6_body_mapped].
      assert (Ho : Forall (fun o => 0 <= o < 256) os /\ length os = 4%nat).
      { unfold Unmap in Eu. rewrite E4 in Eu. injection Eu as <-.
        destruct gs as [|g0 [|g1 [|g2 [|g3 [|g4 [|g5 [|a [|b [|]]]]]]]]]; try done. simpl.
        rewrite !Forall_cons in Hv. split; [by apply octets_of_groups; apply Hv|done]. }
      destruct (string4_dots os (proj1 Ho) (proj2 Ho)) as (Hp & _). split; [by exists EmptyString; eexists|].
      rewrite str_forallb_app. by rewrite Hp.
    + apply parse_v6_text; [by apply string6_text|by apply ipv6_body_hex].
Qed.

(** ** A parsed address is well formed *)

Lemma ipv4_fields_valid s val n fs os :
  0 <= val < 256 -> (length fs <= 3)%nat -> Forall (fun o => 0 <= o < 256) fs ->
  ipv4_fields s val n fs = Some os -> valid_addr (Addr4 os).
Proof.
  revert val n fs. induction s as [|c s IH]; intros val n fs Hv Hl Hf; cbn [ipv4_fields].
  - destruct (_ || _) eqn:E; [done|]. bprop. intros [= <-]. simpl. rewrite length_app. simpl.
    split; [lia|]. apply Forall_app. auto.
  - destruct (is_dec_digit c) eqn:Ed.
    + case_if; [done|]. destruct (255 <? _) eqn:E; [done|]. bprop. apply IH; [|done..].
      unfold is_dec_digit in Ed. bprop. lia.
    + case_if; [|done]. case_if; [done|]. bprop. apply IH; [lia| |].
      * rewrite length_app. simpl. lia.
      * apply Forall_app. auto.
Qed.

Lemma hex_group_valid s acc off v n r :
  0 <= acc < 16 ^ Z.of_nat off -> (off <= 4)%nat -> hex_group s acc off = Some (v, n, r) -> valid_group v.
Proof.
  revert acc off. induction s as [|c s IH]; intros acc off Ha Ho; cbn [hex_group].
  - intros [= <- <- <-]. unfold valid_group. enough (16 ^ Z.of_nat off <= 16 ^ 4) by lia.
    apply Z.pow_le_mono_r; lia.
  - destruct (hex_val c) as [d|] eqn:Ed.
    + case_if; [done|]. bprop. apply IH; [|lia]. unfold hex_val, digit_val in Ed.
      assert (0 <= d < 16) by (repeat case_if_in Ed; bprop; simplify_eq; pose proof (byte_of_range c); lia).
      rewrite Nat2Z.inj_succ, Z.pow_succ_r by lia. lia.
    + intros [= <- <- <-]. unfold valid_group. enough (16 ^ Z.of_nat off <= 16 ^ 4) by lia.
      apply Z.pow_le_mono_r; lia.
Qed.

Lemma ipv6_groups_valid room s ip ell ip' ell' r :
  (length ip + room = 8)%nat -> Forall valid_group ip -> ipv6_groups room s ip ell = Some (ip', ell', r) ->
  (length ip' <= 8)%nat /\ Forall valid_group ip'.
Proof.
  revert s ip ell. induction room as [|room IH]; intros s ip ell Hl Hv; cbn [ipv6_groups].
  { intros [= <- <- <-]. split; [lia|done]. }
  destruct (hex_group s 0 0) as [[[acc [|k]] rest]|] eqn:Eh; try done.
  apply hex_group_valid in Eh; [|simpl; lia|lia].
  assert (Hs : (length (ip ++ [acc]) <= 8)%nat /\ Forall valid_group (ip ++ [acc])).
  { rewrite length_app. simpl. split; [lia|]. apply Forall_app. auto. }
  assert (Hr : (length (ip ++ [acc]) + room = 8)%nat) by (rewrite length_app; simpl; lia).
  destruct rest as [|c rest]; [by intros [= <- <- <-]|]. destruct (Ascii.eqb c dot).
  { destruct (_ && _); [done|]. destruct (6 <? _)%nat eqn:E6; [done|]. bprop.
    destruct (parseIPv4Fields s) as [os|] eqn:E4; [|done]. apply ipv4_fields_valid in E4; [|lia|simpl; lia|done].
    destruct E4 as [_ Ho]. destruct os as [|a [|b [|c' [|d [|]]]]]; try done. intros [= <- <- <-].
    rewrite !Forall_cons in Ho. rewrite length_app. simpl. split; [lia|]. apply Forall_app. split; [done|].
    unfold valid_group. repeat constructor; lia. }
  destruct (negb _); [done|]. destruct rest as [|c' rest']; [done|]. destruct (Ascii.eqb c' colon); [|exact (IH _ _ _ Hr (proj2 Hs))].
  destruct ell; [done|]. destruct rest'; [by intros [= <- <- <-]|exact (IH _ _ _ Hr (proj2 Hs))].
Qed.

Lemma ipv6_body_valid body zone a : ipv6_body body zone = Some a -> valid_addr a /\ exists gs, a = Addr6 gs zone.
Proof.
  unfold ipv6_body. intros H.
  assert (Hz : valid_addr (Addr6 (replicate 8 0) zone)) by (split; [done|repeat constructor; lia]).
  assert (Hg : forall b e, match ipv6_groups 8 b [] e with
                | Some (ip, ell, EmptyString) => ip' ← ipv6_expand ip ell; Some (Addr6 ip' zone)
                | _ => None end = Some a -> valid_addr a /\ exists gs, a = Addr6 gs zone).
  { intros b e. destruct (ipv6_groups 8 b [] e) as [[[ip ell] [|]]|] eqn:Eg; try done.
    apply ipv6_groups_valid in Eg as [Hl Hv]; [|done|constructor].
    destruct (ipv6_expand ip ell) as [ip'|] eqn:Ee; [|done]. intros [= <-]. split; [|eauto].
    unfold ipv6_expand in Ee. destruct (length ip <? 8)%nat eqn:E8; bprop.
    - destruct ell as [e'|]; [|done]. injection Ee as <-. split.
      + rewrite !length_app, length_replicate, length_take, length_drop. lia.
      + change (Forall valid_group (take e' ip ++ replicate (8 - length ip) 0 ++ drop e' ip)).
        rewrite !Forall_app. split_and!; [by apply Forall_take| |by apply Forall_drop].
        apply Forall_replicate. done.
    - destruct ell; [done|]. injection Ee as <-. split; [lia|done]. }
  destruct (CutPrefix body "::") as [[|c r]|]; [injection H as <-; eauto|exact (Hg _ _ H)..].
Qed.

Lemma ParseAddr_valid s a : ParseAddr s = Some a -> valid_addr a.
Proof.
  unfold ParseAddr. destruct (index_by _ s); [|done]. destruct (str_drop _ s) as [|c r]; [done|].
  destruct (Ascii.eqb c dot).
  - destruct (parseIPv4Fields s) as [os|] eqn:E; [|done]. intros [= <-].
    by apply ipv4_fields_valid in E; [|lia|simpl; lia|].
  - destruct (Ascii.eqb c colon); [|done]. unfold parseIPv6.
    destruct (Cut s percent) as [[body [|z zone]]|]; [done| |]; intros H; by apply ipv6_body_valid in H as [? _].
Qed.

(** Printing is injective on well-formed addresses. *)
Lemma Addr_String_inj a b : valid_addr a -> valid_addr b -> Addr_String a = Addr_String b -> a = b.
Proof. intros Ha Hb H. apply ParseAddr_String in Ha, Hb. congruence. Qed.
