(* ===== verification/RateLimit.v ===== *)
(** * Rate limits (internal/ratelimit)

    A client gets so many tokens per fixed window. [Bucket] counts them in
    Redis, with one script per charge; while Redis fails it lets requests
    through for a dwell time and then refuses them; without Redis it counts in
    a bounded map of this process, [localStore]. [FixedWindowCounter] is the
    same counting without the verdict.

    The Redis commands are the class [CounterStore]; the script that runs
    there is the function [lua]. Its numbers are taken to be exact, as they are
    below 2^53. Each reading of the clock is an argument of its own, and the
    store is used under its mutex, so the calls of [take] are a sequence. *)

From S2P Require Import Prelude GoLib Float64 Rounding NetIP.
From Stdlib Require Import Floats.SpecFloat.

(** ** Windows *)

(** [time.Duration.Seconds]. *)
Definition Seconds (d : Duration) : float64 :=
  f64_add (f64_Z (Z.quot d Second)) (f64_div (f64_Z (Z.rem d Second)) (f64_Z Second)).

(** The conversion of a float64 to an integer type drops the fraction. *)
Definition f64_trunc (f : float64) : Z :=
  match SetFloat64 f with Some q => Z.quot (Qnum q) (Zpos (Qden q)) | None => MinInt64 end.

(** [int64(window.Seconds())]. *)
Definition windowSec (window : Duration) : Z := f64_trunc (Seconds window).

Definition ttlSeconds (window : Duration) : Z :=
  let ttl := f64_trunc (f64_mul (Seconds window) (f64_Z 2)) in if ttl <? 1 then 1 else ttl.

(** [now.Unix() / int64(window.Seconds())]. *)
Definition minute_of (now : Time) (window : Duration) : Z := Z.quot (time_Unix now) (windowSec window).

Example windowSec_examples :
  map windowSec [Second; Minute; Hour; 24 * Hour; 1500000000] = [1; 60; 3600; 86400; 1]
  /\ map ttlSeconds [Second; Minute; 1500000000] = [2; 120; 3].
Proof. vm_compute. done. Qed.

(** ** Keys *)

(** [url.QueryEscape] *)
Definition unreserved (c : ascii) : bool :=
  let b := byte_of c in
  ((48 <=? b) && (b <=? 57)) || ((65 <=? b) && (b <=? 90)) || ((97 <=? b) && (b <=? 122))
  || (b =? 45) || (b =? 95) || (b =? 46) || (b =? 126).

(** An upper-case hexadecimal digit. *)
Definition upper_hex (d : Z) : ascii := ascii_of_N (Z.to_N (if d <? 10 then d + 48 else d + 55)).

Definition escape_byte (c : ascii) : string :=
  if unreserved c then String c EmptyString
  else if Ascii.eqb c " "%char then "+"
  else String percent (String (upper_hex (byte_of c / 16)) (String (upper_hex (byte_of c mod 16)) EmptyString)).

Fixpoint QueryEscape (s : string) : string :=
  match s with
  | EmptyString => EmptyString
  | String c s => escape_byte c +:+ QueryEscape s
  end.

Definition rlKey (keyPrefix key : string) (minute : Z) : string :=
  keyPrefix +:+ QueryEscape key +:+ ":" +:+ big_String minute.

(** The throttle identity of a client address. *)
Definition ThrottleIPKey (ip : string) : string :=
  match ParseAddr ip with
  | None => ip
  | Some a =>
      if Is4 a || Is4In6 a then Addr_String (Unmap a)
      else match a with
           | Addr6 gs _ => Addr_String (Addr6 (mask6 4 gs) EmptyString)
           | Addr4 _ => Addr_String a
           end
  end.

(** [slash48Key]: the loop over the positions, [seen] being what is before;
    a position counts at the start and after a colon. *)
Fixpoint slash48_from (seen : string) (start : bool) (key : string) : option string :=
  match key with
  | EmptyString => None
  | String c rest =>
      let next := slash48_from (seen +:+ String c EmptyString) (Ascii.eqb c colon) rest in
      if negb start then next
      else match ParseAddr key with
           | None => next
           | Some a =>
               if negb (Is6 a) || Is4In6 a then None
               else match a with
                    | Addr6 gs _ => Some (seen +:+ Addr_String (Addr6 (mask6 3 gs) EmptyString))
                    | Addr4 _ => None
                    end
           end
  end.

Definition slash48Key (key : string) : option string := slash48_from EmptyString true key.

(** ** The counters of this process *)

Record localEntry := mkEntry { window : Z; count : Z }.

#[export] Instance localEntry_eq_dec : EqDecision localEntry.
Proof. solve_decision. Defined.

Record localStore := mkLocal {
  entries : gmap string localEntry;
  lastGC : Time;
  lastSweptWindow : Z;
  maxKeys : Z;
  per48 : gmap string localEntry;
  maxPer48 : Z;
  sweeps : Z
}.

Definition localStoreMaxKeys : Z := 100000.
Definition localStoreMaxKeysPer48 : Z := 1024.
Definition NUL : ascii := Ascii.zero.
Definition localPer48BucketTag : string := String NUL ("per48" +:+ String NUL EmptyString).
Definition localOverflowKey : string := String NUL ("overflow" +:+ String NUL EmptyString).

Definition newLocalStore : localStore :=
  mkLocal ∅ zero_time 0 localStoreMaxKeys ∅ localStoreMaxKeysPer48 0.

(** [len(s.entries)] *)
Definition len (m : gmap string localEntry) : Z := Z.of_nat (size m).

(** A missing entry reads as the zero value. *)
Definition entry_at (m : gmap string localEntry) (k : string) : localEntry := default (mkEntry 0 0) (m !! k).

Definition set_entries (s : localStore) (m : gmap string localEntry) : localStore :=
  mkLocal m (lastGC s) (lastSweptWindow s) (maxKeys s) (per48 s) (maxPer48 s) (sweeps s).
Definition set_per48 (s : localStore) (m : gmap string localEntry) : localStore :=
  mkLocal (entries s) (lastGC s) (lastSweptWindow s) (maxKeys s) m (maxPer48 s) (sweeps s).

(** The deletion of entries from older windows. *)
Definition fresh (current : Z) (m : gmap string localEntry) : gmap string localEntry :=
  filter (fun ke => current <= window ke.2) m.

Definition gcLocked (current : Z) (now : Time) (windowDur : Duration) (s : localStore) : localStore :=
  if current =? lastSweptWindow s then s
  else if (time_Sub now (lastGC s) <? windowDur) && (len (entries s) <? maxKeys s) then s
  else mkLocal (fresh current (entries s)) now current (maxKeys s) (fresh current (per48 s)) (maxPer48 s)
         (wraps 64 (sweeps s + 1)).

(** The store with the /48's allowance spent, and the bucket. *)
Definition admitLocked (key : string) (win : Z) (s : localStore) : localStore * string :=
  let '(s, key) :=
    match slash48Key key with
    | None => (s, key)
    | Some p48 =>
        let c := entry_at (per48 s) p48 in
        let c := if window c =? win then c else mkEntry win 0 in
        if maxPer48 s <=? count c then (s, localPer48BucketTag +:+ p48)
        else if len (entries s) <? maxKeys s
        then (set_per48 s (<[p48 := mkEntry (window c) (count c + 1)]> (per48 s)), key)
        else (s, key)
    end in
  if bool_decide (entries s !! key = None) && (maxKeys s <=? len (entries s))
  then (s, localOverflowKey) else (s, key).

(** A tracked key has its own bucket. *)
Definition bucket_of (key : string) (win : Z) (s : localStore) : localStore * string :=
  match entries s !! key with Some _ => (s, key) | None => admitLocked key win s end.

Definition take (key : string) (win limit : Z) (now : Time) (windowDur : Duration) (s : localStore)
  : localStore * (Z * bool) :=
  let s := gcLocked win now windowDur s in
  let '(s, key) := bucket_of key win s in
  let e := entry_at (entries s) key in
  let e := if window e =? win then e else mkEntry win 0 in
  let e := mkEntry (window e) (wraps 64 (count e + 1)) in
  (set_entries s (<[key := e]> (entries s)), (count e, count e <=? limit)).

(** ** The bucket *)

Definition DefaultDwellTime : Duration := 30 * Second.

Record Bucket := mkBucket {
  max : Z;
  bWindow : Duration;
  keyPrefix : string;
  dwellTime : Duration;
  isLocal : bool
}.

(** [New] panics on a limit or window it cannot work with. *)
Definition New (hasRedis : bool) (limit : Z) (window : Duration) (prefix : option string) (dwell : option Duration)
  : option Bucket :=
  if limit <=? 0 then None
  else if window <? Second then None
  else Some (mkBucket limit window (default "rl:" prefix) (default DefaultDwellTime dwell) (negb hasRedis)).

Record Result := mkResult { Allowed : bool; Remaining : Z; RetryAfter : Duration; Count : Z }.

(** *** The fail-open clock *)

Record breaker := mkBreaker { redisErrorSince : Time; healthySince : Time; lastFailure : Time }.
Definition zero_breaker : breaker := mkBreaker zero_time zero_time zero_time.

Definition observeRedisFailure (dwell : Duration) (now : Time) (b : breaker) : breaker * bool :=
  if dwell <? 0 then (b, false)
  else if time_IsZero (redisErrorSince b) then (mkBreaker now zero_time now, false)
  else (mkBreaker (redisErrorSince b) zero_time now, dwell <? time_Sub now (redisErrorSince b)).

Definition observeRedisSuccess (dwell : Duration) (now : Time) (b : breaker) : breaker :=
  if time_IsZero (redisErrorSince b) then b
  else
    let healthy := if time_IsZero (healthySince b) then now else healthySince b in
    if (dwell <=? time_Sub now healthy) || (dwell <? time_Sub now (lastFailure b))
    then mkBreaker zero_time zero_time (lastFailure b)
    else mkBreaker (redisErrorSince b) healthy (lastFailure b).

(** *** The counters in Redis *)

(** Commands of the Redis server, run at a time of its clock. *)
Class CounterStore (S : Type) := {
  INCRBY : string -> Z -> Time -> S -> S * Z;
  EXPIRE : string -> Z -> Time -> S -> S;
  TTL : string -> Time -> S -> Z;
  (** The live value of a key and when it expires. *)
  counter : S -> Time -> string -> option (Z * option Time)
}.

Definition expired (t : Time) (c : Z * option Time) : bool :=
  match c.2 with Some e => e <=? t | None => false end.

(** What is left of a counter at a later time. *)
Definition survives (t : Time) (c : option (Z * option Time)) : option (Z * option Time) :=
  c ≫= fun c => if expired t c then None else Some c.

Class CounterLaws (S : Type) `{CounterStore S} := {
  counter_later (s : S) t t' k : t <= t' -> counter s t' k = survives t' (counter s t k);
  INCRBY_value (s : S) t k n : (INCRBY k n t s).2 = n + default 0 (fst <$> counter s t k);
  INCRBY_counter (s : S) t t' k n k' : t <= t' ->
    counter (INCRBY k n t s).1 t' k' =
      if bool_decide (k' = k)
      then survives t' (Some (n + default 0 (fst <$> counter s t k), counter s t k ≫= snd))
      else counter s t' k';
  EXPIRE_counter (s : S) t t' k secs k' : t <= t' -> 0 < secs ->
    counter (EXPIRE k secs t s) t' k' =
      if bool_decide (k' = k)
      then survives t' ((fun c => (c.1, Some (time_Add t (secs * Second)))) <$> counter s t k)
      else counter s t' k'
}.

Section Charge.
Context {S : Type} `{CounterStore S}.

(** The script of a charge, run atomically: the count and, for a log, the TTL
    of a counter that is over. *)
Definition lua (key : string) (ttl max_count cost : Z) (t : Time) (s : S) : S * (Z * Z) :=
  let '(s, current) := INCRBY key cost t s in
  let s := if current =? cost then EXPIRE key ttl t s else s in
  if max_count <? current then (s, (current, Z.max 0 (TTL key t s))) else (s, (current, 0)).

Definition incrLua (key : string) (ttl : Z) (t : Time) (s : S) : S * Z :=
  let '(s, current) := INCRBY key 1 t s in
  (if current =? 1 then EXPIRE key ttl t s else s, current).

(** How a call of the script ends: with its result, or without; without one
    the script may have run all the same. *)
Inductive answer := Answered | Lost (applied cancelled : bool).

Inductive rl_error := ErrThrottleUnavailable | ErrEval.

Record bucket_state := mkState { brk : breaker; remote : S; local : localStore }.

(** The clock as one charge reads it: for the window, on the Redis server,
    for the fail-open clock (and the local store), for the reset time. *)
Record clocks := mkClocks { tKey : Time; tServer : Time; tObserve : Time; tRetry : Time }.

Definition clampCost (cost effectiveMax : Z) : Z :=
  if cost <? 1 then 1 else if effectiveMax <? cost then effectiveMax else cost.

Definition effectiveMax (b : Bucket) (limit : Z) : Z := if 0 <? limit then limit else max b.

(** The seconds left of the window, at least one, as a Duration. *)
Definition retryAfter (allowed : bool) (window : Duration) (minute : Z) (now : Time) : Duration :=
  if allowed then 0
  else let elapsed := time_Unix now - minute * windowSec window in
       let remainingSec := windowSec window - elapsed in
       wraps 64 ((if remainingSec <? 1 then 1 else remainingSec) * Second).

(** The [cost] single takes of a local charge: the result of the last. *)
Fixpoint takes (n : nat) (key : string) (win limit : Z) (now : Time) (dur : Duration)
    (last : Z * bool) (s : localStore) : localStore * (Z * bool) :=
  match n with
  | O => (s, last)
  | Datatypes.S n => let '(s, r) := take key win limit now dur s in takes n key win limit now dur r s
  end.

Definition localCharge (b : Bucket) (key : string) (cost effMax minute : Z) (now : Time) (s : localStore)
  : localStore * Result :=
  let '(s, (cnt, allowed)) := takes (Z.to_nat cost) key minute effMax now (bWindow b) (0, false) s in
  (s, mkResult allowed (Z.max 0 (effMax - cnt)) (retryAfter allowed (bWindow b) minute now) cnt).

Definition Charge (b : Bucket) (clk : clocks) (ans : answer) (key : string) (cost limit : Z) (s : bucket_state)
  : bucket_state * res rl_error Result :=
  let effMax := effectiveMax b limit in
  let cost := clampCost cost effMax in
  let minute := minute_of (tKey clk) (bWindow b) in
  if isLocal b then
    let '(l, r) := localCharge b key cost effMax minute (tObserve clk) (local s) in
    (mkState (brk s) (remote s) l, Ok r)
  else
    let '(ran, (cnt, _)) := lua (rlKey (keyPrefix b) key minute) (ttlSeconds (bWindow b)) effMax cost (tServer clk) (remote s) in
    match ans with
    | Lost applied cancelled =>
        let r := if applied then ran else remote s in
        if cancelled then (mkState (brk s) r (local s), Err ErrEval)
        else let '(k, closed) := observeRedisFailure (dwellTime b) (tObserve clk) (brk s) in
             (mkState k r (local s), Err (if closed then ErrThrottleUnavailable else ErrEval))
    | Answered =>
        let allowed := cnt <=? effMax in
        (mkState (observeRedisSuccess (dwellTime b) (tObserve clk) (brk s)) ran (local s),
         Ok (mkResult allowed (Z.max 0 (effMax - cnt)) (retryAfter allowed (bWindow b) minute (tRetry clk)) cnt))
    end.

Definition Take (b : Bucket) (clk : clocks) (ans : answer) (key : string) := Charge b clk ans key 1 0.

(** ** Counters without a verdict *)

Definition Incr (window : Duration) (now t : Time) (ans : answer) (keyBase : string) (s : S) : S * res rl_error Z :=
  let key := keyBase +:+ ":" +:+ big_String (minute_of now window) in
  let '(ran, cnt) := incrLua key (ttlSeconds window) t s in
  match ans with
  | Lost applied _ => (if applied then ran else s, Err ErrEval)
  | Answered => (ran, Ok cnt)
  end.
End Charge.

Definition Allow (window : Duration) (now : Time) (keyBase : string) (limit : Z) (s : localStore) : localStore * bool :=
  let '(s, (_, allowed)) := take keyBase (minute_of now window) limit now window s in (s, allowed).

(** ** Windows are at least a second long *)

Lemma f64_trunc_mono x y p q : f64_is x p -> f64_is y q -> (0 <= p)%Q -> (p <= q)%Q -> f64_trunc x <= f64_trunc y.
Proof.
  intros (_ & a & Ha & Ea) (_ & b & Hb & Eb) H0 Hab. unfold f64_trunc. rewrite Ha, Hb.
  assert (Hab' : (a <= b)%Q) by lra. assert (H0' : (0 <= a)%Q) by lra. clear H0 Hab Ea Eb Ha Hb. destruct a as [n d], b as [m e]. unfold Qle in *. simpl in *.
  rewrite !Z.quot_div_nonneg by nia. apply Z.div_le_lower_bound; [lia|].
  pose proof (Z.mul_div_le n (Zpos d) ltac:(lia)). nia.
Qed.

Lemma f64_Z_range n lo hi : f64_is (f64_Z lo) (inject_Z lo) -> f64_is (f64_Z hi) (inject_Z hi) -> lo <= n <= hi ->
  exists x, f64_is (f64_Z n) x /\ (inject_Z lo <= x <= inject_Z hi)%Q.
Proof.
  intros Hlo Hhi Hn. eapply rounds_range; [apply rat_Float64_rounds|done|done|]. rewrite <- !Zle_Qle. lia.
Qed.

Lemma Seconds_range d : Second <= d <= MaxInt64 -> exists x, f64_is (Seconds d) x /\ (1 <= x <= inject_Z (2 ^ 35))%Q.
Proof.
  intros Hd. unfold Second, MaxInt64 in Hd.
  assert (Hs : 1 <= Z.quot d Second <= 2 ^ 34).
  { unfold Second. rewrite Z.quot_div_nonneg by lia. split; [apply Z.div_le_lower_bound; lia|].
    apply Z.div_le_upper_bound; [lia|]. change (2 ^ 34) with 17179869184. lia. }
  assert (Hr : 0 <= Z.rem d Second <= Second) by (pose proof (Z.rem_bound_pos d Second); unfold Second in *; lia).
  destruct (f64_Z_range _ 1 (2 ^ 34) ltac:(f64_const) ltac:(f64_const) Hs) as (a & Ha & Ba).
  destruct (f64_Z_range _ 0 Second ltac:(f64_const) ltac:(f64_const) Hr) as (b & Hb & Bb).
  assert (HS : f64_is (f64_Z Second) (inject_Z Second)) by f64_const.
  assert (Hdiv := f64_is_div _ _ _ _ Hb HS ltac:(discriminate)).
  change (inject_Z 0) with 0%Q in *. change (inject_Z 1) with 1%Q in *.
  assert (0 < inject_Z Second)%Q by reflexivity.
  destruct (rounds_range _ _ f64_zero (f64_Z 1) 0 1 Hdiv ltac:(f64_const) ltac:(f64_const)) as (c & Hc & Bc).
  { split; [apply Qle_shift_div_l; [done|lra]|]. apply Qle_shift_div_r; [done|]. lra. }
  assert (Hadd := f64_is_add _ _ _ _ Ha Hc).
  apply (rounds_range _ _ (f64_Z 1) (f64_Z (2 ^ 35)) 1 (inject_Z (2 ^ 35)) Hadd ltac:(f64_const) ltac:(f64_const)).
  assert ((inject_Z (2 ^ 34) + 1 <= inject_Z (2 ^ 35))%Q) by (vm_compute; congruence). lra.
Qed.

Lemma windowSec_bounds d : Second <= d <= MaxInt64 -> 1 <= windowSec d <= ttlSeconds d /\ windowSec d <= 2 ^ 35.
Proof.
  intros Hd. destruct (Seconds_range d Hd) as (x & Hx & B1 & B2).
  assert (Hm := f64_is_mul _ _ _ _ Hx (ltac:(f64_const) : f64_is (f64_Z 2) (2 # 1))).
  destruct (rounds_range _ _ (Seconds d) (f64_Z (2 ^ 36)) x (inject_Z (2 ^ 36)) Hm Hx ltac:(f64_const)) as (y & Hy & By).
  { assert ((inject_Z (2 ^ 35) * 2 <= inject_Z (2 ^ 36))%Q) by (vm_compute; congruence). lra. }
  unfold windowSec, ttlSeconds.
  assert (1 <= f64_trunc (Seconds d)).
  { change 1 with (f64_trunc (f64_Z 1)) at 1. eapply (f64_trunc_mono _ _ 1); [f64_const|exact Hx|lra|lra]. }
  assert (f64_trunc (Seconds d) <= 2 ^ 35).
  { change (2 ^ 35) with (f64_trunc (f64_Z (2 ^ 35))).
    eapply (f64_trunc_mono _ _ x (inject_Z (2 ^ 35))); [exact Hx|f64_const|lra|lra]. }
  assert (f64_trunc (Seconds d) <= f64_trunc (f64_mul (Seconds d) (f64_Z 2)))
    by (eapply f64_trunc_mono; [exact Hx|exact Hy|lra|lra]).
  case_if; bprop; lia.
Qed.

(** ** Which bucket a key counts in *)

(** The allowance a /48 has spent in a window. *)
Definition allowance (s : localStore) (p48 : string) (m : Z) : Z :=
  let c := entry_at (per48 s) p48 in if window c =? m then count c else 0.

(** The bucket a key asks for: its own, or its /48's once that is out of
    allowance. *)
Definition redirect (s : localStore) (k : string) (m : Z) : string :=
  match slash48Key k with
  | Some p => if maxPer48 s <=? allowance s p m then localPer48BucketTag +:+ p else k
  | None => k
  end.

Definition untracked (s : localStore) (k : string) : bool := bool_decide (entries s !! k = None).
Definition full (s : localStore) : bool := maxKeys s <=? len (entries s).

Definition bucket_key (s : localStore) (k : string) (m : Z) : string :=
  if untracked s k then
    if untracked s (redirect s k m) && full s then localOverflowKey else redirect s k m
  else k.

(** The keys of clients: none starts with the NUL of the shared buckets. *)
Definition real_key (k : string) : bool := match k with String c _ => negb (Ascii.eqb c NUL) | EmptyString => true end.

Lemma bucket_of_spec k m s s' b : bucket_of k m s = (s', b) ->
  b = bucket_key s k m /\ entries s' = entries s /\ lastSweptWindow s' = lastSweptWindow s
  /\ maxKeys s' = maxKeys s /\ maxPer48 s' = maxPer48 s
  /\ (full s = true -> s' = s)
  /\ (s' = s \/ (b = k /\ untracked s k = true))
  /\ forall p, allowance s p m <= allowance s' p m.
Proof.
  unfold bucket_of, bucket_key, untracked, full. destruct (entries s !! k) eqn:Ek; [intros [= <- <-]; split_and!; auto; lia|].
  unfold admitLocked, redirect. rewrite bool_decide_true by done. destruct (slash48Key k) as [p|] eqn:Ep.
  - change (let c := entry_at (per48 s) p in if window c =? m then c else mkEntry m 0)
      with (if window (entry_at (per48 s) p) =? m then entry_at (per48 s) p else mkEntry m 0).
    set (c := if window (entry_at (per48 s) p) =? m then entry_at (per48 s) p else mkEntry m 0).
    assert (Hc : count c = allowance s p m /\ window c = m).
    { unfold c, allowance. cbv zeta. by destruct (window (entry_at (per48 s) p) =? m) eqn:E; bprop. }
    destruct Hc as [-> Hw]. destruct (maxPer48 s <=? allowance s p m) eqn:Em.
    { case_if; intros [= <- <-]; split_and!; auto; lia. }
    destruct (len (entries s) <? maxKeys s) eqn:El; bprop.
    + cbn [entries set_per48 maxKeys]. rewrite Ek, bool_decide_true by done.
      assert ((maxKeys s <=? len (entries s)) = false) as -> by (apply Z.leb_gt; lia). cbn [andb].
      intros [= <- <-]. split_and!; auto; [done|]. intros p'. remember (allowance s p m) as a eqn:Ea.
      destruct (decide (p' = p)) as [->|Hp]; unfold allowance, entry_at in *; cbn [per48 set_per48].
      * rewrite lookup_insert_eq. cbn [default window count]. rewrite Hw, Z.eqb_refl. simpl. lia.
      * rewrite lookup_insert_ne by done. lia.
    + rewrite Ek, bool_decide_true by done. assert ((maxKeys s <=? len (entries s)) = true) as -> by (apply Z.leb_le; lia).
      intros [= <- <-]. split_and!; auto; lia.
  - rewrite Ek, bool_decide_true by done. case_if; intros [= <- <-]; split_and!; auto; lia.
Qed.

Lemma fresh_lookup m (es : gmap string localEntry) k e : es !! k = Some e -> m <= window e -> fresh m es !! k = Some e.
Proof. intros. by apply map_lookup_filter_Some_2. Qed.

Lemma fresh_None m (es : gmap string localEntry) k : es !! k = None -> fresh m es !! k = None.
Proof. intros H. apply map_lookup_filter_None_2. by left. Qed.

(** A sweep does not change what was spent in the current window. *)
Lemma gc_allowance m now d s p : allowance (gcLocked m now d s) p m = allowance s p m.
Proof.
  unfold gcLocked. repeat case_if; try done. unfold allowance, entry_at. cbn [per48]. unfold fresh.
  rewrite map_lookup_filter. destruct (per48 s !! p) as [c|] eqn:E; simpl; [|done].
  case_guard as Hg; simpl; [done|]. assert ((window c =? m) = false) as -> by (apply Z.eqb_neq; lia). by case_if.
Qed.

Lemma gc_fields m now d s : maxKeys (gcLocked m now d s) = maxKeys s /\ maxPer48 (gcLocked m now d s) = maxPer48 s
  /\ (gcLocked m now d s = s \/ (lastSweptWindow s <> m /\ lastSweptWindow (gcLocked m now d s) = m
                                 /\ entries (gcLocked m now d s) = fresh m (entries s)
                                 /\ per48 (gcLocked m now d s) = fresh m (per48 s)))
  /\ (full (gcLocked m now d s) = true -> lastSweptWindow (gcLocked m now d s) = m).
Proof.
  unfold gcLocked. destruct (m =? lastSweptWindow s) eqn:E; bprop; [split_and!; auto|].
  destruct (_ && _) eqn:E2; bprop; [|split_and!; auto; right; split_and!; auto].
  split_and!; auto. unfold full. intros Hf. bprop. lia.
Qed.

Definition settled (s : localStore) (m : Z) (k b : string) (c : Z) : Prop :=
  bucket_key s k m = b /\ entries s !! b = Some (mkEntry m c)
  /\ (b = localOverflowKey -> lastSweptWindow s = m /\ full s = true).

Lemma real_tag k p : real_key k = true -> k <> localPer48BucketTag +:+ p.
Proof. by intros H ->. Qed.
Lemma real_overflow k : real_key k = true -> k <> localOverflowKey.
Proof. by intros H ->. Qed.
Lemma tag_overflow p : localPer48BucketTag +:+ p <> localOverflowKey.
Proof. done. Qed.

Lemma redirect_cases s k m : redirect s k m = k \/ exists p, slash48Key k = Some p /\ redirect s k m = localPer48BucketTag +:+ p.
Proof. unfold redirect. destruct (slash48Key k) as [p|]; [|auto]. case_if; eauto. Qed.

Lemma redirect_real s k m : real_key k = true -> redirect s k m <> localOverflowKey.
Proof. intros Hk. destruct (redirect_cases s k m) as [->|(p & _ & ->)]; [by apply real_overflow|apply tag_overflow]. Qed.

(** What matters of a state for the bucket of a key. *)
Lemma bucket_key_tracked s k m : untracked s k = false -> bucket_key s k m = k.
Proof. unfold bucket_key. by intros ->. Qed.

(** A sweep at the window of a settled key leaves it where it is. *)
Lemma settled_gc s m k b c now d : real_key k = true -> settled s m k b c -> settled (gcLocked m now d s) m k b c.
Proof.
  intros Hk (Hb & He & Ho). destruct (gc_fields m now d s) as (_ & HP & [->|(Hne & Hs & Ee & _)] & _); [done|].
  assert (He' : entries (gcLocked m now d s) !! b = Some (mkEntry m c)) by (rewrite Ee; apply fresh_lookup; [done|simpl; lia]).
  assert (Hno : b <> localOverflowKey) by (intros ->; destruct (Ho eq_refl); done).
  split_and!; [|done|done]. unfold bucket_key, untracked in *. rewrite Ee in *.
  destruct (entries s !! k) as [e|] eqn:Ek.
  - rewrite (bool_decide_false (Some e = None)) in Hb by done. subst b. rewrite He in Ek. injection Ek as <-.
    by rewrite He', bool_decide_false.
  - rewrite (fresh_None _ _ _ Ek), bool_decide_true by done. rewrite bool_decide_true in Hb by done.
    assert (Hr : redirect (gcLocked m now d s) k m = redirect s k m)
      by (unfold redirect; destruct (slash48Key k); [|done]; by rewrite HP, gc_allowance).
    rewrite Hr. destruct (bool_decide _ && full s) eqn:Ef in Hb; [by destruct Hno|]. rewrite Hb, He'.
    by rewrite bool_decide_false.
Qed.

(** ** One take *)

(** What the bucket held in this window. *)
Definition spent (s : localStore) (b : string) (m : Z) : Z :=
  let e := entry_at (entries s) b in if window e =? m then count e else 0.

Lemma take_spec k m L now d s s' n ok : take k m L now d s = (s', (n, ok)) ->
  let s1 := gcLocked m now d s in
  let b := bucket_key s1 k m in
  n = wraps 64 (spent s1 b m + 1) /\ ok = (n <=? L)
  /\ entries s' = <[b := mkEntry m n]> (entries s1)
  /\ lastSweptWindow s' = lastSweptWindow s1 /\ maxKeys s' = maxKeys s /\ maxPer48 s' = maxPer48 s
  /\ (full s1 = true -> per48 s' = per48 s1)
  /\ (per48 s' = per48 s1 \/ (b = k /\ untracked s1 k = true))
  /\ forall p, allowance s p m <= allowance s' p m.
Proof.
  unfold take. destruct (bucket_of k m (gcLocked m now d s)) as [s2 b] eqn:Eb.
  destruct (bucket_of_spec _ _ _ _ _ Eb) as (-> & Ee & Hl & Hk & Hp & Hf & Hor & Hal).
  destruct (gc_fields m now d s) as (Hk1 & Hp1 & _ & _).
  set (b := bucket_key (gcLocked m now d s) k m) in *. rewrite Ee. intros H. injection H as <- <- <-.
  assert (Hn : wraps 64 (count (if window (entry_at (entries (gcLocked m now d s)) b) =? m
                 then entry_at (entries (gcLocked m now d s)) b else mkEntry m 0) + 1)
               = wraps 64 (spent (gcLocked m now d s) b m + 1)).
  { unfold spent. cbv zeta. by case_if. }
  split_and!; try done.
  - cbn [entries set_entries]. f_equal. f_equal. by case_if; bprop.
  - simpl. congruence.
  - simpl. congruence.
  - intros Hfull. simpl. by rewrite Hf.
  - simpl. destruct Hor as [->|?]; auto.
  - intros p. rewrite <- (gc_allowance m now d s p). apply Hal.
Qed.

Lemma len_insert (es : gmap string localEntry) k e : len es <= len (<[k := e]> es) <= len es + 1.
Proof.
  unfold len. destruct (es !! k) eqn:E; [rewrite map_size_insert_Some by eauto; lia|].
  rewrite map_size_insert_None by done. lia.
Qed.

(** A full store tracks no new key but the overflow one. *)
Lemma full_bucket s k m : full s = true -> untracked s (bucket_key s k m) = false \/ bucket_key s k m = localOverflowKey.
Proof.
  intros Hf. unfold bucket_key. rewrite Hf, andb_true_r. destruct (untracked s k) eqn:Ek; [|auto].
  destruct (untracked s (redirect s k m)) eqn:Er; auto.
Qed.

Lemma untracked_insert s s' b e k : entries s' = <[b := e]> (entries s) -> b <> k -> untracked s' k = untracked s k.
Proof. intros E Hb. unfold untracked. by rewrite E, lookup_insert_ne. Qed.

Lemma full_insert s s' b e : entries s' = <[b := e]> (entries s) -> maxKeys s' = maxKeys s ->
  full s = true -> full s' = true.
Proof.
  unfold full. intros E Hm. bprop. rewrite E, Hm. pose proof (len_insert (entries s) b e). intros. bprop. apply Z.leb_le. lia.
Qed.

(** After a take its key is settled in the bucket that counted it. *)
Lemma take_settles k m L now d s s' n ok : real_key k = true -> take k m L now d s = (s', (n, ok)) ->
  settled s' m k (bucket_key (gcLocked m now d s) k m) n.
Proof.
  intros Hk HT. destruct (take_spec _ _ _ _ _ _ _ _ _ HT) as (_ & _ & Ee & Hsw & Hmk & Hmp & Hfull & Hor & Hal).
  destruct (gc_fields m now d s) as (Hmk1 & Hmp1 & _ & Hsweep). set (s1 := gcLocked m now d s) in *.
  set (b := bucket_key s1 k m) in *. split_and!; [|by rewrite Ee, lookup_insert_eq|].
  2: { intros Hb. assert (Hf : full s1 = true).
       { unfold b, bucket_key in Hb. destruct (untracked s1 k); [|by destruct (real_overflow k Hk)].
         destruct (_ && full s1) eqn:E; [by bprop|]. by destruct (redirect_real s1 k m Hk). }
       split; [rewrite Hsw; auto|]. eapply full_insert; [exact Ee|congruence|done]. }
  destruct (decide (b = k)) as [Hbk|Hbk].
  { rewrite bucket_key_tracked; [done|]. unfold untracked. rewrite Ee, Hbk, lookup_insert_eq. by rewrite bool_decide_false. }
  assert (Hu : untracked s1 k = true) by (destruct (untracked s1 k) eqn:E; [done|]; by destruct Hbk; apply bucket_key_tracked).
  assert (Hp48 : per48 s' = per48 s1) by (destruct Hor as [?|[? _]]; done).
  assert (Hr : redirect s' k m = redirect s1 k m)
    by (unfold redirect, allowance; rewrite Hp48, Hmp, <- Hmp1; done).
  unfold bucket_key. rewrite (untracked_insert s1 s' b _ k Ee Hbk), Hu, Hr.
  assert (Hb : b = if untracked s1 (redirect s1 k m) && full s1 then localOverflowKey else redirect s1 k m)
    by (unfold b, bucket_key; by rewrite Hu).
  destruct (untracked s1 (redirect s1 k m) && full s1) eqn:E; bprop.
  - rewrite (untracked_insert s1 s' b _ _ Ee) by (rewrite Hb; apply not_eq_sym, redirect_real, Hk).
    rewrite H, (full_insert s1 s' _ _ Ee) by (done || congruence). done.
  - rewrite <- Hb. unfold untracked. rewrite Ee, lookup_insert_eq. by rewrite bool_decide_false.
Qed.

(** A take in the same window leaves a settled key settled; it adds to the
    bucket of that key if that is its own bucket too. *)
Lemma settled_take k m b c k' L now d s s' n ok :
  real_key k = true -> settled s m k b c -> take k' m L now d s = (s', (n, ok)) -> real_key k' = true ->
  settled s' m k b (if bool_decide (bucket_key (gcLocked m now d s) k' m = b) then n else c)
  /\ (bucket_key (gcLocked m now d s) k' m = b -> n = wraps 64 (c + 1)).
Proof.
  intros Hk Hset HT Hk'. apply (settled_gc s m k b c now d Hk) in Hset as (Hb & He & Ho).
  destruct (take_spec _ _ _ _ _ _ _ _ _ HT) as (Hn & _ & Ee & Hsw & Hmk & Hmp & Hfull & Hor & Hal).
  destruct (gc_fields m now d s) as (Hmk1 & Hmp1 & _ & _). assert (Hal1 := fun p => gc_allowance m now d s p).
  set (s1 := gcLocked m now d s) in *. set (b' := bucket_key s1 k' m) in *.
  assert (Hsp : b' = b -> spent s1 b' m = c).
  { intros ->. unfold spent, entry_at. rewrite He. simpl. by rewrite Z.eqb_refl. }
  split; [|by intros E; rewrite Hn, Hsp].
  assert (He' : entries s' !! b = Some (mkEntry m (if bool_decide (b' = b) then n else c))).
  { rewrite Ee. destruct (decide (b' = b)) as [E|E].
    - by rewrite bool_decide_true, E, lookup_insert_eq.
    - by rewrite bool_decide_false, lookup_insert_ne. }
  assert (Ho' : b = localOverflowKey -> lastSweptWindow s' = m /\ full s' = true).
  { intros E. destruct (Ho E). split; [congruence|]. eapply full_insert; [exact Ee|congruence|done]. }
  split_and!; [|done|done].
  (* b' is k only if k' is k, and then b' = b *)
  destruct (decide (k' = k)) as [->|Hkk].
  { pose proof (take_settles _ _ _ _ _ _ _ _ _ Hk HT) as (Hs & _). fold s1 b' in Hs. rewrite Hs. done. }
  assert (Hb'k : b' <> k).
  { unfold b', bucket_key. destruct (untracked s1 k'); [|done]. destruct (_ && _).
    - intros E. by destruct (real_overflow k Hk).
    - destruct (redirect_cases s1 k' m) as [->|(p & _ & ->)]; [done|]. intros E. by destruct (real_tag k p Hk). }
  unfold bucket_key in Hb |- *. rewrite (untracked_insert s1 s' b' _ k Ee Hb'k). destruct (untracked s1 k) eqn:Hu; [|done].
  destruct (untracked s1 (redirect s1 k m) && full s1) eqn:E; bprop.
  - assert (Hr : redirect s' k m = redirect s1 k m)
      by (unfold redirect, allowance; rewrite (Hfull H0), Hmp, <- Hmp1; done).
    rewrite Hr, (untracked_insert s1 s' b' _ _ Ee), H, (full_insert s1 s' _ _ Ee) by (done || congruence ||
      (destruct (full_bucket s1 k' m H0) as [Ht|Ht]; fold b' in Ht;
       [intros E'; rewrite <- E' in H; congruence|rewrite Ht; apply not_eq_sym, redirect_real, Hk])). done.
  - assert (Hrk : redirect s1 k m <> k).
    { intros Er. rewrite Er in Hb. subst b. unfold untracked in Hu. rewrite He in Hu. by rewrite bool_decide_false in Hu. }
    assert (Hr : redirect s' k m = redirect s1 k m).
    { unfold redirect in Hrk |- *. destruct (slash48Key k) as [p|]; [|done]. destruct (maxPer48 s1 <=? _) eqn:E1; [|done].
      bprop. assert ((maxPer48 s' <=? allowance s' p m) = true) as ->; [|done]. apply Z.leb_le.
      specialize (Hal p). specialize (Hal1 p). lia. }
    rewrite Hr, Hb. unfold untracked. by rewrite He', bool_decide_false.
Qed.

(** ** Sequences of takes *)

Record take_req := mkReq { rqKey : string; rqWindow : Z; rqLimit : Z; rqNow : Time; rqDur : Duration }.

Definition take1 (r : take_req) (s : localStore) : localStore * (Z * bool) :=
  take (rqKey r) (rqWindow r) (rqLimit r) (rqNow r) (rqDur r) s.

Fixpoint trace (s : localStore) (l : list take_req) : list (take_req * (Z * bool)) :=
  match l with
  | [] => []
  | r :: l => let '(s', out) := take1 r s in (r, out) :: trace s' l
  end.

Fixpoint final (s : localStore) (l : list take_req) : localStore :=
  match l with [] => s | r :: l => final (take1 r s).1 l end.

(** The takes of one key in one window. *)
Definition of_key (k : string) (m : Z) (x : take_req * (Z * bool)) : bool :=
  String.eqb (rqKey x.1) k && (rqWindow x.1 =? m).
Definition outs (k : string) (m : Z) (t : list (take_req * (Z * bool))) : list (Z * bool) :=
  (filter (fun x => of_key k m x = true) t).*2.

(** Every count is within the takes so far. *)
Definition bounded (s : localStore) (N : Z) : Prop := map_Forall (fun _ e => 0 <= count e <= N) (entries s).

Definition in_order (l : list take_req) : Prop := StronglySorted (fun a b => rqWindow a <= rqWindow b) l.

Lemma wraps64_small z : 0 <= z <= MaxInt64 -> wraps 64 z = z.
Proof. intros H. unfold MaxInt64 in H. apply wraps_small; [lia|]. change (64 - 1) with 63. lia. Qed.

Lemma bounded_gc s N m now d : bounded s N -> bounded (gcLocked m now d s) N.
Proof.
  intros H. destruct (gc_fields m now d s) as (_ & _ & [->|(_ & _ & E & _)] & _); [done|].
  intros k e He. rewrite E in He. apply map_lookup_filter_Some in He as [He _]. by eapply H.
Qed.

Lemma bounded_spent s N b m : 0 <= N -> bounded s N -> 0 <= spent s b m <= N.
Proof.
  intros HN H. unfold spent, entry_at. destruct (entries s !! b) as [e|] eqn:E; simpl; [|case_if; lia].
  case_if; [by eapply H|lia].
Qed.

Lemma bounded_take r s s' n ok N : 0 <= N < MaxInt64 -> bounded s N -> take1 r s = (s', (n, ok)) ->
  bounded s' (N + 1) /\ 1 <= n <= N + 1 /\ n = spent (gcLocked (rqWindow r) (rqNow r) (rqDur r) s)
     (bucket_key (gcLocked (rqWindow r) (rqNow r) (rqDur r) s) (rqKey r) (rqWindow r)) (rqWindow r) + 1.
Proof.
  intros HN Hb HT. apply take_spec in HT as (Hn & _ & Ee & _).
  apply (bounded_gc _ _ (rqWindow r) (rqNow r) (rqDur r)) in Hb.
  set (s1 := gcLocked _ _ _ s) in *. set (b := bucket_key s1 _ _) in *.
  pose proof (bounded_spent s1 N b (rqWindow r) ltac:(lia) Hb) as Hs.
  rewrite wraps64_small in Hn by lia. split_and!; [|lia..].
  intros k e He. rewrite Ee in He. apply lookup_insert_Some in He as [[_ <-]|[_ He]]; [simpl; lia|].
  specialize (Hb k e He). simpl in Hb. lia.
Qed.

Lemma outs_cons k m r o t :
  outs k m ((r, o) :: t) = if of_key k m (r, o) then o :: outs k m t else outs k m t.
Proof. unfold outs. rewrite filter_cons. destruct (of_key k m (r, o)) eqn:E; [by rewrite decide_True|by rewrite decide_False; [|congruence]]. Qed.

(** Later windows have no takes of an earlier one. *)
Lemma outs_later k m s l : Forall (fun r => m < rqWindow r) l -> outs k m (trace s l) = [].
Proof.
  revert s. induction l as [|r l IH]; intros s H; [done|]. rewrite Forall_cons in H. cbn [trace].
  destruct (take1 r s) as [s' o]. rewrite outs_cons. unfold of_key. cbn [fst].
  assert ((rqWindow r =? m) = false) as -> by (apply Z.eqb_neq; lia). rewrite andb_false_r. apply IH, H.
Qed.

Definition real_req (r : take_req) : Prop := real_key (rqKey r) = true.

(** From a settled key on, its counts go up. *)
Lemma settled_counts l : forall s N k m b c,
  bounded s N -> 0 <= N -> N + Z.of_nat (length l) <= MaxInt64 -> 0 <= c <= N ->
  Forall real_req l -> in_order l -> Forall (fun r => m <= rqWindow r) l -> real_key k = true ->
  settled s m k b c -> StronglySorted Z.lt (c :: (outs k m (trace s l)).*1).
Proof.
  induction l as [|r l IH]; intros s N k m b c HB HN HL Hc HR HO HM Hk Hset; [by constructor; [constructor|constructor]|].
  rewrite Forall_cons in HR, HM. destruct HR as [Hr HR], HM as [Hm HM]. simpl in HL.
  apply StronglySorted_inv in HO as [HO Hle]. cbn [trace]. destruct (take1 r s) as [s' [n ok]] eqn:ET. rewrite outs_cons.
  destruct (decide (rqWindow r = m)) as [Ew|Hw].
  2: { unfold of_key. cbn [fst]. assert ((rqWindow r =? m) = false) as -> by (by apply Z.eqb_neq). rewrite andb_false_r.
       rewrite outs_later; [repeat constructor|]. eapply Forall_impl; [exact Hle|]. intros x Hx; simpl in *; lia. }
  pose proof (bounded_take r s s' n ok N ltac:(lia) HB ET) as (HB' & Hn & _).
  unfold take1 in ET. rewrite Ew in ET.
  destruct (settled_take _ _ _ _ _ _ _ _ _ _ _ _ Hk Hset ET Hr) as [Hset' Hnc].
  case_bool_decide as Eb.
  - specialize (Hnc Eb). rewrite wraps64_small in Hnc by lia.
    pose proof (IH s' (N + 1) k m b n HB' ltac:(lia) ltac:(lia) ltac:(lia) HR HO HM Hk Hset') as HS.
    assert (Hall : Forall (Z.lt c) (n :: (outs k m (trace s' l)).*1)).
    { constructor; [lia|]. apply StronglySorted_inv in HS as [_ HF]. eapply Forall_impl; [exact HF|]. intros x Hx; simpl in *; lia. }
    destruct (of_key k m (r, (n, ok))); [by constructor|].
    apply StronglySorted_inv in HS as [HS _]. constructor; [done|]. by inversion Hall.
  - assert (Hof : of_key k m (r, (n, ok)) = false).
    { unfold of_key. cbn [fst]. destruct (String.eqb (rqKey r) k) eqn:Ek; [|done]. bprop. exfalso. apply Eb. rewrite Ek.
      by destruct (settled_gc s m k b c (rqNow r) (rqDur r) Hk Hset). }
    rewrite Hof. apply (IH s' (N + 1) k m b c); done || lia.
Qed.

(** The counts of a key in a window are 1 or more and go up, whatever bucket
    they are taken from. *)
Lemma counts_increase l : forall s N k m,
  bounded s N -> 0 <= N -> N + Z.of_nat (length l) <= MaxInt64 ->
  Forall real_req l -> in_order l -> real_key k = true -> StronglySorted Z.lt (0 :: (outs k m (trace s l)).*1).
Proof.
  induction l as [|r l IH]; intros s N k m HB HN HL HR HO Hk; [by constructor; [constructor|constructor]|].
  rewrite Forall_cons in HR. destruct HR as [Hr HR]. simpl in HL. apply StronglySorted_inv in HO as [HO Hle].
  cbn [trace]. destruct (take1 r s) as [s' [n ok]] eqn:ET. rewrite outs_cons.
  pose proof (bounded_take r s s' n ok N ltac:(lia) HB ET) as (HB' & Hn & _).
  destruct (of_key k m (r, (n, ok))) eqn:Hof; [|by apply (IH s' (N + 1)); done || lia].
  unfold of_key in Hof. cbn [fst] in Hof. bprop. unfold take1 in ET. rewrite H, H0 in ET.
  pose proof (take_settles _ _ _ _ _ _ _ _ _ Hk ET) as Hset.
  assert (HS := settled_counts l s' (N + 1) k m _ n HB' ltac:(lia) ltac:(lia) ltac:(lia) HR HO
                  ltac:(eapply Forall_impl; [exact Hle|]; intros x Hx; simpl in *; lia) Hk Hset).
  constructor; [done|]. apply StronglySorted_inv in HS as HS'. destruct HS' as [_ HF]. constructor; [simpl; lia|].
  eapply Forall_impl; [exact HF|]. intros x Hx. simpl in *. lia.
Qed.

(** How many numbers of an increasing list are within a limit. *)
Lemma increasing_within L ns lo : StronglySorted Z.lt (lo :: ns) ->
  Z.of_nat (countb (fun n => n <=? L) ns) <= Z.max 0 (L - lo).
Proof.
  revert lo. induction ns as [|n ns IH]; intros lo H; [simpl; lia|]. apply StronglySorted_inv in H as [H Hlo].
  inversion Hlo; subst. cbn [countb]. specialize (IH n H). destruct (n <=? L) eqn:E; bprop; lia.
Qed.

Lemma outs_verdict k m L l : forall s, Forall (fun r => rqKey r = k -> rqWindow r = m -> rqLimit r = L) l ->
  (outs k m (trace s l)).*2 = map (fun n => n <=? L) (outs k m (trace s l)).*1.
Proof.
  induction l as [|r l IH]; intros s HF; [done|]. rewrite Forall_cons in HF. destruct HF as [Hr HF]. cbn [trace].
  destruct (take1 r s) as [s' [n ok]] eqn:ET. rewrite outs_cons. destruct (of_key k m (r, (n, ok))) eqn:Hof; [|by apply IH].
  cbn [fmap list_fmap map fst snd]. rewrite IH by done. f_equal. unfold of_key in Hof. cbn [fst] in Hof. bprop.
  apply take_spec in ET as (_ & -> & _). by rewrite Hr.
Qed.

Lemma countb_map {A B} (f : A -> B) (g : B -> bool) l : countb g (map f l) = countb (fun x => g (f x)) l.
Proof. induction l as [|x l IH]; [done|]. simpl. by rewrite IH. Qed.

Lemma sorted_le_verdicts L ns : StronglySorted Z.lt ns ->
  forall i j, (i < j)%nat -> map (fun n => n <=? L) ns !! j = Some true -> map (fun n => n <=? L) ns !! i = Some true.
Proof.
  intros HS i j Hij Hj. rewrite list_lookup_fmap in Hj |- *. destruct (ns !! j) as [y|] eqn:Ey; [|done].
  destruct (lookup_lt_is_Some_2 ns i) as [x Ex].
  { apply lookup_lt_Some in Ey. lia. }
  rewrite Ex. simpl in *. assert (x < y).
  { clear Hj. revert i j Hij x y Ex Ey. induction HS as [|z ns HS IH HF]; intros i j Hij x y Ex Ey; [done|].
    destruct j as [|j]; [lia|]. destruct i as [|i]; simpl in *.
    - injection Ex as <-. rewrite Forall_forall in HF. apply HF, list_elem_of_lookup. eauto.
    - eapply IH; [|done..]. lia. }
  f_equal. injection Hj as Hj. bprop. apply Z.leb_le. lia.
Qed.

(** No client gets more than its limit, however crowded the store is. In
    any sequence of takes whose windows do not go back, at most [L] takes of a
    key are allowed in a window, and once one is refused every later one in
    that window is: whether the key counts in its own bucket, in its /48's or
    in the overflow bucket, and whatever other keys come and go between. *)
Theorem local_budget s N l k m L :
  bounded s N -> 0 <= N -> N + Z.of_nat (length l) <= MaxInt64 ->
  Forall real_req l -> in_order l -> real_key k = true ->
  Forall (fun r => rqKey r = k -> rqWindow r = m -> rqLimit r = L) l ->
  Z.of_nat (countb id (outs k m (trace s l)).*2) <= Z.max 0 L
  /\ forall i j, (i < j)%nat ->
       (outs k m (trace s l)).*2 !! j = Some true -> (outs k m (trace s l)).*2 !! i = Some true.
Proof.
  intros HB HN HL HR HO Hk HF. rewrite (outs_verdict k m L l s HF).
  pose proof (counts_increase l s N k m HB HN HL HR HO Hk) as HS. split.
  - rewrite countb_map. pose proof (increasing_within L _ _ HS). unfold id. lia.
  - apply StronglySorted_inv in HS as [HS _]. by apply sorted_le_verdicts.
Qed.

(** A store of two keys: the third counts in the overflow bucket, which the
    fourth shares. *)
Definition small_ex : localStore := mkLocal ∅ zero_time 0 2 ∅ 1024 0.
Definition reqs_ex : list take_req :=
  map (fun k => mkReq k 7 2 Second Minute) ["a"; "b"; "c"; "a"; "d"; "c"; "a"; "c"].

Lemma local_budget_witness :
  Z.of_nat (countb id (outs "c" 7 (trace small_ex reqs_ex)).*2) <= 2
  /\ (outs "c" 7 (trace small_ex reqs_ex)) = [(1, true); (3, false); (4, false)].
Proof.
  split; [|vm_compute; reflexivity].
  apply (local_budget small_ex 0 reqs_ex "c" 7 2);
    [apply map_Forall_empty|lia|vm_compute; congruence|repeat constructor| |done|repeat constructor].
  repeat constructor; simpl; lia.
Defined.

(** ** What the store holds *)

(** The tracked keys of a /48 that were used in a window or later. *)
Definition tracked48 (p : string) (w : Z) (es : gmap string localEntry) : gmap string localEntry :=
  filter (fun ke => slash48Key ke.1 = Some p /\ w <= window ke.2) es.

(** No entry is of a later window, and an allowance is spent on tracked keys. *)
Definition store_ok (m : Z) (s : localStore) : Prop :=
  map_Forall (fun _ e => window e <= m) (entries s)
  /\ map_Forall (fun p c => window c <= m
        /\ 1 <= count c <= Z.of_nat (size (tracked48 p (window c) (entries s)))) (per48 s).

Lemma size_filter_insert_le (P : string * localEntry -> Prop) `{forall x, Decision (P x)} (es : gmap string localEntry) b e :
  (forall e0, es !! b = Some e0 -> P (b, e0) -> P (b, e)) ->
  (size (filter P es) <= size (filter P (<[b := e]> es)))%nat.
Proof.
  intros Hb. rewrite <- !size_dom. apply subseteq_size. intros k Hk. apply elem_of_dom in Hk as [e0 He0].
  apply map_lookup_filter_Some in He0 as [He0 HP]. apply elem_of_dom.
  destruct (decide (k = b)) as [->|Hkb].
  - exists e. apply map_lookup_filter_Some_2; [by rewrite lookup_insert_eq|by eapply Hb].
  - exists e0. apply map_lookup_filter_Some_2; [by rewrite lookup_insert_ne|done].
Qed.

Lemma tracked48_fresh p m w es : m <= w -> tracked48 p w (fresh m es) = tracked48 p w es.
Proof.
  intros Hm. unfold tracked48, fresh. apply map_eq. intros k. apply option_eq. intros e.
  rewrite !map_lookup_filter_Some. simpl. split; [tauto|]. intros (? & ? & ?). split_and!; auto. lia.
Qed.

Lemma store_ok_gc m now d s : store_ok m s -> store_ok m (gcLocked m now d s).
Proof.
  intros [He Hp]. destruct (gc_fields m now d s) as (_ & _ & [->|(_ & _ & Ee & Ep)] & _); [done|]. split.
  - rewrite Ee. intros k e H. apply map_lookup_filter_Some in H as [H _]. by eapply He.
  - rewrite Ep. intros p c H. apply map_lookup_filter_Some in H as [H Hw]. simpl in Hw.
    rewrite Ee, tracked48_fresh by done. by eapply Hp.
Qed.

(** The allowance after a take: one more for the /48 of a key that is new. *)
Lemma bucket_of_per48 k m s s' b : bucket_of k m s = (s', b) ->
  per48 s' = per48 s \/ (b = k /\ untracked s k = true /\ full s = false /\
    exists p, slash48Key k = Some p /\ per48 s' = <[p := mkEntry m (allowance s p m + 1)]> (per48 s)).
Proof.
  unfold bucket_of, untracked, full. destruct (entries s !! k) eqn:Ek; [intros [= <- <-]; auto|]. rewrite bool_decide_true by done.
  unfold admitLocked. destruct (slash48Key k) as [p|] eqn:Ep; [|case_if; intros [= <- <-]; auto].
  unfold allowance. cbv zeta. destruct (window (entry_at (per48 s) p) =? m) eqn:Ew; bprop.
  all: destruct (maxPer48 s <=? _); [case_if; intros [= <- <-]; auto|].
  all: destruct (len (entries s) <? maxKeys s) eqn:El; bprop; [|case_if; intros [= <- <-]; auto].
  all: cbn [entries set_per48 maxKeys per48]; assert ((maxKeys s <=? len (entries s)) = false) as -> by (apply Z.leb_gt; lia).
  all: rewrite andb_false_r; intros [= <- <-]; right; split_and!; auto; exists p; split; [done|].
  - by rewrite Ew, Z.eqb_refl.
  - assert ((window (entry_at (per48 s) p) =? m) = false) as -> by (by apply Z.eqb_neq). done.
Qed.

Lemma allowance_tracked m s p : store_ok m s -> 0 <= allowance s p m <= Z.of_nat (size (tracked48 p m (entries s))).
Proof.
  intros [_ Hp]. unfold allowance, entry_at. destruct (per48 s !! p) as [c|] eqn:E; simpl; [|case_if; lia].
  destruct (Hp p c E) as [_ Hc]. case_if; bprop; subst; lia.
Qed.

Lemma store_ok_take k m L now d s s' n ok : store_ok m s -> take k m L now d s = (s', (n, ok)) -> store_ok m s'.
Proof.
  intros Hs. apply (store_ok_gc m now d) in Hs. unfold take. set (s1 := gcLocked m now d s) in *. clearbody s1.
  destruct (bucket_of k m s1) as [s2 b] eqn:Eb.
  destruct (bucket_of_spec _ _ _ _ _ Eb) as (_ & Ee & _). pose proof (bucket_of_per48 _ _ _ _ _ Eb) as H48.
  rewrite Ee. set (e := if window (entry_at (entries s1) b) =? m then _ else _).
  assert (Hw : window e = m) by (unfold e; by case_if; bprop).
  set (e' := mkEntry (window e) _). intros [= <- _ _]. destruct Hs as [He Hp]. split.
  - cbn [entries set_entries]. apply map_Forall_insert_2; [simpl; lia|done].
  - cbn [entries set_entries per48]. intros p c Hc.
    assert (Hgrow : forall w, w <= m -> (size (tracked48 p w (entries s1)) <= size (tracked48 p w (<[b := e']> (entries s1))))%nat).
    { intros w Hwm. apply size_filter_insert_le. intros e0 _ [Hk _]. simpl in *. split; [done|lia]. }
    destruct H48 as [E|(-> & Hu & _ & p' & Hp' & E)]; rewrite E in Hc.
    { destruct (Hp p c Hc) as [Hcm Hcc]. specialize (Hgrow (window c) Hcm). lia. }
    destruct (decide (p = p')) as [<-|Hne].
    2: { rewrite lookup_insert_ne in Hc by done. destruct (Hp p c Hc) as [Hcm Hcc]. specialize (Hgrow (window c) Hcm). lia. }
    rewrite lookup_insert_eq in Hc. injection Hc as <-. cbn [window count].
    pose proof (allowance_tracked m s1 p (conj He Hp)) as Ha. split; [lia|].
    unfold tracked48. rewrite map_filter_insert_True by (simpl; split; [done|lia]).
    rewrite map_size_insert_None; [unfold tracked48 in Ha; lia|]. apply map_lookup_filter_None_2. left.
    unfold untracked in Hu. by bprop.
Qed.

Lemma store_ok_mono m m' s : m <= m' -> store_ok m s -> store_ok m' s.
Proof.
  intros Hm [He Hp]. split; eapply map_Forall_impl; [exact He| |exact Hp|]; simpl; intros; lia.
Qed.

Definition room (s : localStore) : Prop := len (delete localOverflowKey (entries s)) <= maxKeys s.

Lemma room_take k m L now d s s' n ok : room s -> take k m L now d s = (s', (n, ok)) -> room s'.
Proof.
  intros Hr HT. apply take_spec in HT as (_ & _ & Ee & _ & Hmk & _). destruct (gc_fields m now d s) as (Hmk1 & _ & Hgc & _).
  assert (Hr1 : room (gcLocked m now d s)).
  { unfold room. destruct Hgc as [->|(_ & _ & Ef & _)]; [done|]. rewrite Ef, Hmk1. etransitivity; [|exact Hr].
    unfold len. apply inj_le, map_subseteq_size, delete_mono, map_filter_subseteq. }
  set (s1 := gcLocked m now d s) in *. unfold room in *. rewrite Ee, Hmk, <- Hmk1.
  destruct (decide (bucket_key s1 k m = localOverflowKey)) as [->|Hb]; [by rewrite delete_insert_eq|].
  rewrite delete_insert_ne by done. pose proof (full_bucket s1 k m) as Hfb.
  set (b := bucket_key s1 k m) in *. clearbody b. destruct (entries s1 !! b) as [e|] eqn:E.
  - unfold len in *. rewrite map_size_insert_Some; [done|]. rewrite lookup_delete_ne by done. eauto.
  - assert (Hf : full s1 = false).
    { destruct (full s1) eqn:Hf; [|done]. destruct (Hfb eq_refl) as [H|H]; [|done].
      unfold untracked in H. rewrite E in H. by rewrite bool_decide_true in H. }
    unfold full in Hf. bprop. unfold len in *. rewrite map_size_insert_None by (by rewrite lookup_delete_ne).
    pose proof (map_subseteq_size _ _ (delete_subseteq (entries s1) localOverflowKey)). lia.
Qed.

Lemma size_list_to_set_le (l : list string) : (size (list_to_set l : gset string) <= length l)%nat.
Proof.
  induction l as [|x l IH]; [done|]. cbn [list_to_set length]. rewrite size_union_alt, size_singleton.
  pose proof (subseteq_size ((list_to_set l : gset string) ∖ {[x]}) (list_to_set l) ltac:(set_solver)). lia.
Qed.

Lemma store_sizes m s : store_ok m s -> room s -> len (entries s) <= maxKeys s + 1 /\ len (per48 s) <= len (entries s).
Proof.
  intros [_ Hp] Hr. unfold room, len in *. split.
  - destruct (entries s !! localOverflowKey) eqn:E.
    + rewrite map_size_delete, E in Hr. simpl in Hr. lia.
    + rewrite delete_id in Hr by done. lia.
  - apply inj_le. rewrite <- !size_dom.
    transitivity (size (list_to_set (omap slash48Key (elements (dom (entries s)))) : gset string)).
    + apply subseteq_size. intros p Hpd. apply elem_of_dom in Hpd as [c Hc]. destruct (Hp p c Hc) as [_ Hcnt].
      apply elem_of_list_to_set, list_elem_of_omap.
      destruct (decide (tracked48 p (window c) (entries s) = ∅)) as [E|(k & e & Hk)%map_choose].
      { rewrite E, map_size_empty in Hcnt. lia. }
      apply map_lookup_filter_Some in Hk as [Hk [Hs _]]. exists k. split; [|done]. apply elem_of_elements, elem_of_dom. eauto.
    + etransitivity; [apply size_list_to_set_le|]. change (size (dom (entries s))) with (length (elements (dom (entries s)))).
      generalize (elements (dom (entries s))). intros ks. clear.
      induction ks as [|k ks IH]; [done|]. cbn [omap list_omap]. destruct (slash48Key k); simpl in *; lia.
Qed.

Lemma final_ok l : forall s m, store_ok m s -> room s -> in_order l -> Forall (fun r => m <= rqWindow r) l ->
  (exists m', store_ok m' (final s l)) /\ room (final s l) /\ maxKeys (final s l) = maxKeys s.
Proof.
  induction l as [|r l IH]; intros s m Hs Hr HO HM; [by eauto|]. rewrite Forall_cons in HM. destruct HM as [Hm HM].
  apply StronglySorted_inv in HO as [HO Hle]. cbn [final]. destruct (take1 r s) as [s' [n ok]] eqn:ET. cbn [fst].
  unfold take1 in ET. apply (store_ok_mono _ _ _ Hm) in Hs.
  destruct (take_spec _ _ _ _ _ _ _ _ _ ET) as (_ & _ & _ & _ & Hmk & _). rewrite <- Hmk.
  eapply IH; [by eapply store_ok_take|by eapply room_take|done|]. exact Hle.
Qed.

(** The process's counters stay bounded however many clients come: at most
    one entry above the cap, the shared one, and no more /48 tallies than
    entries. *)
Theorem local_memory l : in_order l ->
  len (entries (final newLocalStore l)) <= localStoreMaxKeys + 1
  /\ len (per48 (final newLocalStore l)) <= localStoreMaxKeys + 1.
Proof.
  intros HO. set (m := match l with [] => 0 | r :: _ => rqWindow r end).
  destruct (final_ok l newLocalStore m) as ((m' & Hs) & Hr & Hk).
  - by split; apply map_Forall_empty.
  - unfold room. simpl. by vm_compute.
  - done.
  - destruct l as [|r l]; [done|]. apply StronglySorted_inv in HO as [_ HO]. constructor; [done|exact HO].
  - destruct (store_sizes _ _ Hs Hr) as [H1 H2]. rewrite Hk in H1. simpl in H1. lia.
Qed.

(** ** The specification: a counter per key and window *)

Definition same_req (k : string) (m : Z) (r : take_req) : bool := String.eqb (rqKey r) k && (rqWindow r =? m).

(** The n-th take of a key in a window counts n, nothing else matters. *)
Fixpoint reference (past : list take_req) (l : list take_req) : list (take_req * (Z * bool)) :=
  match l with
  | [] => []
  | r :: l =>
      let n := 1 + Z.of_nat (countb (same_req (rqKey r) (rqWindow r)) past) in
      (r, (n, n <=? rqLimit r)) :: reference (r :: past) l
  end.

Section Exact.
Context (D : gset string) (maxK max48 : Z).
Context (HD : Z.of_nat (size D) <= maxK).
Context (H48 : forall p, Z.of_nat (size (filter (fun k => slash48Key k = Some p) D)) <= max48).

(** The store against the past takes, at window [m]. *)
Record exact_inv (m : Z) (past : list take_req) (s : localStore) : Prop := {
  ex_ok : store_ok m s;
  ex_caps : maxKeys s = maxK /\ maxPer48 s = max48;
  ex_dom : dom (entries s) ⊆ D;
  ex_past : Forall (fun r => rqWindow r <= m) past;
  ex_count k w : m <= w ->
    let n := Z.of_nat (countb (same_req k w) past) in
    (0 < n -> entries s !! k = Some (mkEntry w n))
    /\ forall e, entries s !! k = Some e -> window e = w -> count e = n
}.

Lemma countb_future k w past m : Forall (fun r => rqWindow r <= m) past -> m < w -> countb (same_req k w) past = 0%nat.
Proof.
  intros HF Hw. induction HF as [|r past Hr _ IH]; [done|]. cbn [countb]. unfold same_req at 1.
  assert ((rqWindow r =? w) = false) as -> by (apply Z.eqb_neq; lia). by rewrite andb_false_r.
Qed.

Lemma exact_inv_mono m m' past s : m <= m' -> exact_inv m past s -> exact_inv m' past s.
Proof.
  intros Hm [Hok Hc Hd Hp Hn]. split; [by eapply store_ok_mono|done|done| |].
  - eapply Forall_impl; [exact Hp|]. intros r Hr. simpl in Hr. lia.
  - intros k w Hw. apply Hn. lia.
Qed.

Lemma exact_inv_gc m past s now d : exact_inv m past s -> exact_inv m past (gcLocked m now d s).
Proof.
  intros [Hok Hc Hd Hp Hn]. pose proof (store_ok_gc m now d s Hok) as Hok'.
  destruct (gc_fields m now d s) as (Hk & H4 & [->|(_ & _ & Ee & _)] & _); [by split|].
  split; [done|by rewrite Hk, H4| |done|].
  - rewrite Ee. intros k Hk'. apply Hd. apply elem_of_dom in Hk' as [e He]. apply map_lookup_filter_Some in He as [He _].
    apply elem_of_dom. eauto.
  - intros k w Hw. rewrite Ee. destruct (Hn k w Hw) as [H1 H2]. split.
    + intros H. apply fresh_lookup; [by apply H1|done].
    + intros e He. apply map_lookup_filter_Some in He as [He _]. by apply H2.
Qed.

(** With room for every key, every key has its own bucket. *)
Lemma exact_bucket m past s k : exact_inv m past s -> k ∈ D -> bucket_key s k m = k.
Proof.
  intros [Hok [Hk H4] Hd _ _] HkD. unfold bucket_key. destruct (untracked s k) eqn:Hu; [|done].
  assert (Hn : k ∉ dom (entries s)) by (unfold untracked in Hu; bprop; by apply not_elem_of_dom).
  assert (Hf : full s = false).
  { unfold full. apply Z.leb_gt. rewrite Hk. unfold len. rewrite <- size_dom.
    assert (size (dom (entries s) ∪ {[k]} : gset string) <= size D)%nat by (apply subseteq_size; set_solver).
    rewrite size_union, size_singleton in H by set_solver. lia. }
  rewrite Hf, andb_false_r. unfold redirect. destruct (slash48Key k) as [p|] eqn:Ep; [|done].
  pose proof (allowance_tracked m s p Hok) as Ha. rewrite H4.
  assert ((max48 <=? allowance s p m) = false) as ->; [|done]. apply Z.leb_gt.
  eapply Z.lt_le_trans; [|apply (H48 p)]. eapply Z.le_lt_trans; [apply Ha|]. apply inj_lt. rewrite <- size_dom.
  apply subset_size. split.
  - intros k' Hk'. apply elem_of_dom in Hk' as [e He]. apply map_lookup_filter_Some in He as [He [Hs _]].
    apply elem_of_filter. split; [done|]. apply Hd, elem_of_dom. eauto.
  - intros Hsub. assert (Hin : k ∈ filter (fun k => slash48Key k = Some p) D) by (by apply elem_of_filter).
    apply Hsub, elem_of_dom in Hin as [e He]. apply map_lookup_filter_Some in He as [He _]. apply Hn, elem_of_dom. eauto.
Qed.

Lemma exact_take m past s r s' n ok : exact_inv m past s -> rqWindow r = m -> rqKey r ∈ D ->
  Z.of_nat (length past) < MaxInt64 -> take1 r s = (s', (n, ok)) ->
  n = 1 + Z.of_nat (countb (same_req (rqKey r) m) past) /\ ok = (n <=? rqLimit r) /\ exact_inv m (r :: past) s'.
Proof.
  intros Hinv Hm HkD Hlen HT. unfold take1 in HT. rewrite Hm in HT.
  pose proof (store_ok_take _ _ _ _ _ _ _ _ _ (ex_ok _ _ _ Hinv) HT) as Hok'.
  apply (exact_inv_gc m past s (rqNow r) (rqDur r)) in Hinv. pose proof (exact_bucket m past _ _ Hinv HkD) as Hb.
  pose proof (take_spec _ _ _ _ _ _ _ _ _ HT) as (Hn & Hok & Ee & _ & Hk & H4 & _). rewrite Hb in Hn, Ee.
  destruct (gc_fields m (rqNow r) (rqDur r) s) as (Hk1 & H41 & _ & _).
  set (s1 := gcLocked m (rqNow r) (rqDur r) s) in *. clearbody s1. destruct Hinv as [_ [Hc1 Hc2] Hd Hp Hcnt].
  assert (Hspent : spent s1 (rqKey r) m = Z.of_nat (countb (same_req (rqKey r) m) past)).
  { destruct (Hcnt (rqKey r) m ltac:(lia)) as [H1 H2]. unfold spent, entry_at.
    destruct (entries s1 !! rqKey r) as [e|] eqn:E; simpl.
    - destruct (window e =? m) eqn:Ew; bprop; [by apply H2|].
      destruct (countb (same_req (rqKey r) m) past) eqn:Ec; [done|]. specialize (H1 ltac:(lia)). by simplify_eq.
    - destruct (countb (same_req (rqKey r) m) past) eqn:Ec; [by case_if|]. specialize (H1 ltac:(lia)). done. }
  assert (countb (same_req (rqKey r) m) past <= length past)%nat by apply countb_le_length.
  rewrite Hspent, wraps64_small in Hn by lia. split_and!; [lia|done|]. split; [done|split; congruence| | |].
  - rewrite Ee, dom_insert_L. set_solver.
  - constructor; [lia|done].
  - intros k w Hw. cbv zeta. cbn [countb]. rewrite Ee.
    replace (same_req k w r) with (String.eqb (rqKey r) k && (m =? w)) by (unfold same_req; by rewrite Hm).
    destruct (String.eqb (rqKey r) k) eqn:Ek; bprop; cbn [andb].
    + subst k. rewrite lookup_insert_eq. destruct (m =? w) eqn:Ew; bprop.
      * subst w. split; [intros _; f_equal; f_equal; lia|]. intros e [= <-] _. simpl. lia.
      * rewrite (countb_future _ _ past m Hp) by lia. simpl. split; [lia|]. intros e [= <-] He. simpl in He. lia.
    + rewrite lookup_insert_ne by done. apply Hcnt. lia.
Qed.

Lemma exact_trace l : forall m past s, exact_inv m past s -> in_order l -> Forall (fun r => m <= rqWindow r) l ->
  Forall (fun r => rqKey r ∈ D) l -> Z.of_nat (length past + length l) <= MaxInt64 ->
  trace s l = reference past l.
Proof.
  induction l as [|r l IH]; intros m past s Hinv HO HM HK HL; [done|]. rewrite Forall_cons in HM, HK.
  destruct HM as [Hm HM], HK as [Hk HK]. apply StronglySorted_inv in HO as [HO Hle]. simpl in HL.
  apply (exact_inv_mono _ _ _ _ Hm) in Hinv. cbn [trace reference]. destruct (take1 r s) as [s' [n ok]] eqn:ET.
  destruct (exact_take _ _ _ _ _ _ _ Hinv eq_refl Hk ltac:(lia) ET) as (-> & -> & Hinv'). f_equal.
  eapply IH; [exact Hinv'|done|exact Hle|done|]. simpl. lia.
Qed.
End Exact.

(** While the store has room it implements the plain specification. If
    the clients are no more than the store tracks and no /48 has more of them
    than its allowance, every sequence of takes whose windows do not go back
    gets exactly the counts and verdicts of one counter per key and window:
    sweeps, rollovers and the other clients are invisible. *)
Theorem local_exact (D : gset string) l :
  Z.of_nat (size D) <= localStoreMaxKeys ->
  (forall p, Z.of_nat (size (filter (fun k => slash48Key k = Some p) D)) <= localStoreMaxKeysPer48) ->
  Forall (fun r => rqKey r ∈ D) l -> in_order l -> Z.of_nat (length l) <= MaxInt64 ->
  trace newLocalStore l = reference [] l.
Proof.
  intros HD H48 HK HO HL. set (m := match l with [] => 0 | r :: _ => rqWindow r end).
  apply (exact_trace D localStoreMaxKeys localStoreMaxKeysPer48 HD H48 l m); [|done| |done|done].
  - split; [by split; apply map_Forall_empty|done|set_solver|constructor|].
    intros k w Hw. cbv zeta. cbn [countb]. split; [lia|]. intros e He. cbn [entries newLocalStore] in He. by rewrite lookup_empty in He.
  - destruct l as [|r l]; [done|]. apply StronglySorted_inv in HO as [_ HO]. constructor; [done|exact HO].
Qed.

Definition clients_ex : list take_req :=
  [mkReq "anon:2001:db8::" 7 2 Second Minute; mkReq "ip:1.2.3.4" 7 2 Second Minute;
   mkReq "anon:2001:db8::" 7 2 Second Minute; mkReq "anon:2001:db8::" 7 2 Second Minute;
   mkReq "anon:2001:db8::" 8 2 Minute Minute].

Lemma local_exact_witness :
  (trace newLocalStore clients_ex).*2 = [(1, true); (1, true); (2, true); (3, false); (1, true)]
  /\ (reference [] clients_ex).*2 = [(1, true); (1, true); (2, true); (3, false); (1, true)].
Proof.
  rewrite (local_exact {["anon:2001:db8::"; "ip:1.2.3.4"]} clients_ex).
  - split; vm_compute; reflexivity.
  - vm_compute. congruence.
  - intros p. transitivity 2; [|vm_compute; congruence]. change 2 with (Z.of_nat (size ({["anon:2001:db8::"; "ip:1.2.3.4"]} : gset string))).
    apply inj_le, subseteq_size. intros k Hk. by apply elem_of_filter in Hk as [_ Hk].
  - repeat constructor; set_solver.
  - repeat constructor; simpl; lia.
  - vm_compute. congruence.
Defined.

(** An entry of a newer window is reset too: a take that read its window
    before the rollover and runs after it costs the new window its count. *)
Example take_resets_newer :
  (trace newLocalStore [mkReq "a" 8 2 Minute Minute; mkReq "a" 8 2 Minute Minute; mkReq "a" 7 2 Minute Minute;
                        mkReq "a" 8 2 Minute Minute]).*2 = [(1, true); (2, true); (1, true); (1, true)].
Proof. vm_compute. reflexivity. Qed.

(** ** The fail-open clock *)

Inductive observed := OFail | OSuccess.

(** One observation; a failure says whether it is answered closed. *)
Definition observe (dwell : Duration) (b : breaker) (x : observed * Time) : breaker * option bool :=
  match x.1 with
  | OFail => let '(b, closed) := observeRedisFailure dwell x.2 b in (b, Some closed)
  | OSuccess => (observeRedisSuccess dwell x.2 b, None)
  end.

Fixpoint observe_all (dwell : Duration) (b : breaker) (l : list (observed * Time)) : breaker :=
  match l with [] => b | x :: l => observe_all dwell (observe dwell b x).1 l end.

(** Times do not go back and come after [t]. *)
Fixpoint ordered_from (t : Time) (l : list (observed * Time)) : Prop :=
  match l with [] => True | x :: l => t <= x.2 /\ ordered_from x.2 l end.

(** Every observation comes less than [dwell] after the latest failure. *)
Fixpoint no_calm (dwell : Duration) (lastFail : Time) (l : list (observed * Time)) : Prop :=
  match l with
  | [] => True
  | x :: l => x.2 - lastFail < dwell /\ no_calm dwell (match x.1 with OFail => x.2 | OSuccess => lastFail end) l
  end.

Lemma time_Sub_gt a b d : 0 <= d < MaxInt64 -> (d <? time_Sub a b) = (d <? a - b).
Proof.
  intros H. unfold time_Sub, MinInt64 in *. unfold MaxInt64 in *.
  destruct (d <? a - b) eqn:E; bprop; [apply Z.ltb_lt|apply Z.ltb_ge]; lia.
Qed.

Lemma time_Sub_ge a b d : 0 <= d < MaxInt64 -> (d <=? time_Sub a b) = (d <=? a - b).
Proof.
  intros H. unfold time_Sub, MinInt64 in *. unfold MaxInt64 in *.
  destruct (d <=? a - b) eqn:E; bprop; [apply Z.leb_le|apply Z.leb_gt]; lia.
Qed.

(** The clock while an outage that began at [t0] goes on: last failure at
    [f], seen until [t]. *)
Record outage (t0 f t : Time) (b : breaker) : Prop := {
  out_since : redisErrorSince b = t0;
  out_last : lastFailure b = f;
  out_healthy : healthySince b = zero_time \/ f <= healthySince b <= t;
  out_times : zero_time < t0 <= f /\ f <= t
}.

Lemma outage_step dwell t0 f t b x : 0 < dwell < MaxInt64 -> outage t0 f t b -> t <= x.2 -> x.2 - f < dwell ->
  outage t0 (match x.1 with OFail => x.2 | OSuccess => f end) x.2 (observe dwell b x).1
  /\ (x.1 = OFail -> (observe dwell b x).2 = Some (dwell <? x.2 - t0)).
Proof.
  intros Hd [Hs Hl Hh Ht] Hx Hgap. destruct x as [[|] now]; simpl in *; unfold observe; cbn [fst snd].
  - unfold observeRedisFailure. assert ((dwell <? 0) = false) as -> by (apply Z.ltb_ge; lia).
    unfold time_IsZero. rewrite Hs. assert ((t0 =? zero_time) = false) as -> by (apply Z.eqb_neq; lia).
    simpl. split; [split; simpl; auto; lia|]. intros _. by rewrite time_Sub_gt by lia.
  - split; [|done]. unfold observeRedisSuccess, time_IsZero. rewrite Hs.
    assert ((t0 =? zero_time) = false) as -> by (apply Z.eqb_neq; lia).
    rewrite time_Sub_ge, time_Sub_gt, Hl by lia. cbv zeta.
    set (h := if healthySince b =? zero_time then now else healthySince b).
    assert (Hh' : f <= h <= now) by (unfold h; case_if; bprop; destruct Hh as [Hh|Hh]; lia).
    assert (((dwell <=? now - h) || (dwell <? now - f)) = false) as ->.
    { apply orb_false_intro; [apply Z.leb_gt|apply Z.ltb_ge]; lia. }
    split; simpl; auto; lia.
Qed.

Lemma outage_run dwell l : forall t0 f t b, 0 < dwell < MaxInt64 -> outage t0 f t b -> ordered_from t l -> no_calm dwell f l ->
  exists f' t', outage t0 f' t' (observe_all dwell b l) /\ f <= f' /\ t <= t' /\ t' = foldl (fun _ x => x.2) t l
    /\ f' = foldl (fun f x => match x.1 with OFail => x.2 | OSuccess => f end) f l.
Proof.
  induction l as [|x l IH]; intros t0 f t b Hd Ho Hord Hc.
  - exists f, t. split_and!; try done; lia.
  - destruct Hord as [Hx Hord], Hc as [Hg Hc]. destruct (outage_step _ _ _ _ _ _ Hd Ho Hx Hg) as [Ho' _].
    destruct (IH _ _ _ _ Hd Ho' Hord Hc) as (f' & t' & H1 & H2 & H3 & H4 & H5). exists f', t'.
    split_and!; [done| |lia|done|done]. destruct Ho' as [_ _ _ [_ Ht2]]. destruct x as [[|] ?]; simpl in *; [|lia].
    destruct Ho as [_ _ _ Ht]. lia.
Qed.

(** Redis trouble fails open for a dwell time and no longer. Let the
    clock be clear and a failure come at [t0]. As long as the failures that
    follow are less than a dwell time apart, whatever successes a flapping
    Redis gives between them, a failure is answered fail-closed exactly when it
    comes more than a dwell time after [t0]. *)
Theorem failure_closed_exact dwell t0 l now b :
  redisErrorSince b = zero_time -> 0 < dwell < MaxInt64 -> zero_time < t0 ->
  ordered_from t0 (l ++ [(OFail, now)]) -> no_calm dwell t0 (l ++ [(OFail, now)]) ->
  (observeRedisFailure dwell now (observe_all dwell b ((OFail, t0) :: l))).2 = (dwell <? now - t0).
Proof.
  intros Hb Hd H0 Hord Hc.
  assert (Hsplit : forall l t f, ordered_from t (l ++ [(OFail, now)]) -> no_calm dwell f (l ++ [(OFail, now)]) ->
    ordered_from t l /\ no_calm dwell f l /\ foldl (fun _ x => x.2) t l <= now
    /\ now - foldl (fun f x => match x.1 with OFail => x.2 | OSuccess => f end) f l < dwell).
  { clear. induction l as [|x l IH]; intros t f H1 H2; simpl in *; [lia|].
    destruct H1 as [? H1], H2 as [? H2]. destruct (IH _ _ H1 H2) as (? & ? & ? & ?). auto. }
  destruct (Hsplit l t0 t0 Hord Hc) as (Ho & Hn & Hlast & Hgap).
  assert (Hout : outage t0 t0 t0 (observe dwell b (OFail, t0)).1).
  { unfold observe, observeRedisFailure. cbn [fst snd]. assert ((dwell <? 0) = false) as -> by (apply Z.ltb_ge; lia).
    unfold time_IsZero. rewrite Hb, Z.eqb_refl. split; simpl; auto; lia. }
  destruct (outage_run dwell l _ _ _ _ Hd Hout Ho Hn) as (f & t & Hr & _ & _ & -> & ->).
  destruct (outage_step dwell _ _ _ _ (OFail, now) Hd Hr Hlast Hgap) as [_ Hf]. specialize (Hf eq_refl).
  unfold observe in Hf. cbn [fst snd] in Hf. cbn [observe_all]. destruct (observeRedisFailure _ _ _). by simplify_eq/=.
Qed.

(** A Redis that fails every twenty seconds and answers in between. *)
Lemma failure_closed_exact_witness :
  (observeRedisFailure (30 * Second) (40 * Second)
     (observe_all (30 * Second) zero_breaker [(OFail, 0); (OSuccess, 10 * Second); (OFail, 20 * Second); (OSuccess, 30 * Second)])).2
  = true.
Proof.
  rewrite (failure_closed_exact (30 * Second) 0 [(OSuccess, 10 * Second); (OFail, 20 * Second); (OSuccess, 30 * Second)]
             (40 * Second) zero_breaker); try (vm_compute; intuition congruence).
Defined.

Definition success_at (t : Time) : observed * Time := (OSuccess, t).

Lemma success_clear dwell ts : forall b, redisErrorSince b = zero_time -> observe_all dwell b (map success_at ts) = b.
Proof.
  induction ts as [|t ts IH]; intros b Hb; [done|]. cbn [map observe_all]. unfold observe, success_at. cbn [fst snd].
  unfold observeRedisSuccess, time_IsZero. rewrite Hb, Z.eqb_refl. by apply IH.
Qed.

(** With a run of successes going on since [h], the clock is clear or knows it. *)
Lemma success_run dwell ts : forall h t b, 0 <= dwell < MaxInt64 -> zero_time < h <= t -> healthySince b <> zero_time -> healthySince b <= h ->
  ordered_from t (map success_at ts) ->
  (redisErrorSince (observe_all dwell b (map success_at ts)) = zero_time)
  \/ (healthySince (observe_all dwell b (map success_at ts)) = healthySince b
      /\ Forall (fun t' => t' - h < dwell) ts).
Proof.
  induction ts as [|t' ts IH]; intros h t b Hd Ht Hz Hh Hord; [by right|]. destruct Hord as [Ht' Hord].
  cbn [map observe_all]. unfold observe, success_at. cbn [fst snd]. unfold observeRedisSuccess, time_IsZero.
  destruct (redisErrorSince b =? zero_time) eqn:Ez; bprop; [left; by rewrite success_clear|].
  assert ((healthySince b =? zero_time) = false) as -> by (by apply Z.eqb_neq).
  rewrite time_Sub_ge, time_Sub_gt by lia. destruct (_ || _) eqn:E; [left; by rewrite success_clear|].
  bprop. simpl in Ht', Hord. destruct (IH h t' (mkBreaker (redisErrorSince b) (healthySince b) (lastFailure b)) Hd ltac:(lia) Hz Hh Hord) as [?|[H1 H2]]; [by left|right].
  split; [done|]. constructor; [lia|done].
Qed.

(** A dwell time of successes with no failure between clears the clock: the
    next failure is the first of a new outage and fails open. *)
Theorem success_resets dwell b t ts now :
  0 <= dwell < MaxInt64 -> zero_time < t -> healthySince b <= t -> ordered_from t (map success_at ts) ->
  Exists (fun t' => dwell <= t' - t) ts ->
  (observeRedisFailure dwell now (observe_all dwell b (map success_at (t :: ts)))).2 = false.
Proof.
  intros Hd Ht Hh Hord HE. assert (Hclear : redisErrorSince (observe_all dwell b (map success_at (t :: ts))) = zero_time).
  { cbn [map observe_all]. unfold observe, success_at at 1. cbn [fst snd]. unfold observeRedisSuccess, time_IsZero.
    destruct (redisErrorSince b =? zero_time) eqn:Ez; bprop; [by rewrite success_clear|].
    destruct (_ || _) eqn:E; [by rewrite success_clear|].
    set (h := if healthySince b =? zero_time then t else healthySince b).
    assert (Hhz : h <> zero_time /\ h <= t) by (unfold h; case_if; bprop; lia).
    destruct (success_run dwell ts t t (mkBreaker (redisErrorSince b) h (lastFailure b)) Hd ltac:(lia)
                (proj1 Hhz) (proj2 Hhz) Hord) as [?|[_ HF]]; [done|].
    exfalso. apply Exists_exists in HE as (t' & Hin & Ht'). rewrite Forall_forall in HF. specialize (HF t' Hin). lia. }
  unfold observeRedisFailure. case_if; [done|]. unfold time_IsZero. by rewrite Hclear, Z.eqb_refl.
Qed.

(** ** Keys do not collide *)

(** Read one escaped byte back. *)
Definition unescape1 (s : string) : option (ascii * string) :=
  match s with
  | EmptyString => None
  | String c r =>
      if Ascii.eqb c percent then
        match r with
        | String a (String b r) =>
            x ← hex_val a; y ← hex_val b; Some (ascii_of_N (Z.to_N (x * 16 + y)), r)
        | _ => None
        end
      else if Ascii.eqb c "+"%char then Some (" "%char, r) else Some (c, r)
  end.

Lemma unescape1_escape c r : unescape1 (escape_byte c +:+ r) = Some (c, r).
Proof. destruct c as [[] [] [] [] [] [] [] []]; reflexivity. Qed.

Lemma escape_byte_no_colon c : str_forallb (fun x => negb (Ascii.eqb colon x)) (escape_byte c) = true.
Proof. destruct c as [[] [] [] [] [] [] [] []]; reflexivity. Qed.

Lemma QueryEscape_inj s t : QueryEscape s = QueryEscape t -> s = t.
Proof.
  assert (Hne : forall c r, escape_byte c +:+ r <> EmptyString).
  { intros c r H. pose proof (unescape1_escape c r) as E. by rewrite H in E. }
  revert t. induction s as [|c s IH]; intros [|d t] H; cbn [QueryEscape] in H; [done| | |].
  - by destruct (Hne d (QueryEscape t)).
  - by destruct (Hne c (QueryEscape s)).
  - apply (f_equal unescape1) in H. rewrite !unescape1_escape in H. injection H as -> H. f_equal. by apply IH.
Qed.

Lemma QueryEscape_no_colon s : str_forallb (fun x => negb (Ascii.eqb colon x)) (QueryEscape s) = true.
Proof. induction s as [|c s IH]; [done|]. cbn [QueryEscape]. by rewrite str_forallb_app, escape_byte_no_colon. Qed.

(** Distinct clients and distinct windows have distinct counters, whatever
    bytes a client puts into its key. *)
Theorem rlKey_inj prefix k1 k2 m1 m2 : rlKey prefix k1 m1 = rlKey prefix k2 m2 -> k1 = k2 /\ m1 = m2.
Proof.
  unfold rlKey. intros H. apply (f_equal (fun s => CutPrefix s prefix)) in H. rewrite !CutPrefix_app in H. injection H as H.
  change (":" +:+ ?x) with (String colon x) in H.
  assert (Hi : forall k m, index_by (Ascii.eqb colon) (QueryEscape k +:+ String colon (big_String m))
                 = Some (String.length (QueryEscape k))) by (intros; apply index_by_app; [apply QueryEscape_no_colon|done]).
  pose proof (f_equal (index_by (Ascii.eqb colon)) H) as E. rewrite !Hi in E. injection E as E. split.
  - apply QueryEscape_inj. apply (f_equal (str_take (String.length (QueryEscape k1)))) in H.
    rewrite str_take_app, E, str_take_app in H. done.
  - apply (f_equal (str_drop (Datatypes.S (String.length (QueryEscape k1))))) in H. rewrite str_drop_S_app, E, str_drop_S_app in H.
    apply (f_equal big_SetString10) in H. rewrite !big_SetString_String in H. by injection H.
Qed.

(** The identity an address is throttled under: an IPv4 address with its
    mapped spelling, an IPv6 address up to its first 64 bits. *)
Definition throttle_id (a : Addr) : Addr :=
  match a with
  | Addr4 _ => a
  | Addr6 gs _ => if Is4In6 a then Unmap a else Addr6 (mask6 4 gs) EmptyString
  end.

Lemma ThrottleIPKey_id ip a : ParseAddr ip = Some a -> ThrottleIPKey ip = Addr_String (throttle_id a) /\ valid_addr (throttle_id a).
Proof.
  intros H. pose proof (ParseAddr_valid _ _ H) as Hv. unfold ThrottleIPKey. rewrite H.
  destruct a as [os|gs zone]; [done|]. cbn [Is4 orb throttle_id]. destruct (Is4In6 (Addr6 gs zone)) eqn:E.
  - split; [done|]. unfold Unmap. rewrite E. destruct Hv as [Hl Hg].
    destruct gs as [|g0 [|g1 [|g2 [|g3 [|g4 [|g5 [|a [|b [|]]]]]]]]]; try done. simpl. rewrite !Forall_cons in Hg.
    split; [done|]. by apply octets_of_groups; apply Hg.
  - split; [done|]. destruct Hv as [Hl Hg]. unfold mask6. split.
    + rewrite length_app, length_take, length_replicate, Hl. done.
    + apply Forall_app. split; [by apply Forall_take|]. by apply Forall_replicate.
Qed.

(** A client is one throttle identity and no two clients share one. Two
    texts that parse as addresses have the same key exactly when they are the
    same IPv4 address (in either spelling) or IPv6 addresses in one /64,
    whatever their zones and however they are written; a key is the printed
    form of its network and is its own key. *)
Theorem ThrottleIPKey_exact ip1 ip2 a1 a2 :
  ParseAddr ip1 = Some a1 -> ParseAddr ip2 = Some a2 ->
  (ThrottleIPKey ip1 = ThrottleIPKey ip2 <-> throttle_id a1 = throttle_id a2)
  /\ ParseAddr (ThrottleIPKey ip1) = Some (throttle_id a1)
  /\ ThrottleIPKey (ThrottleIPKey ip1) = ThrottleIPKey ip1.
Proof.
  intros H1 H2. destruct (ThrottleIPKey_id _ _ H1) as [K1 V1]. destruct (ThrottleIPKey_id _ _ H2) as [K2 V2].
  assert (HP : ParseAddr (ThrottleIPKey ip1) = Some (throttle_id a1)) by (rewrite K1; by apply ParseAddr_String).
  split_and!; [|done|].
  - rewrite K1, K2. split; [by apply Addr_String_inj|by intros ->].
  - destruct (ThrottleIPKey_id _ _ HP) as [-> _]. rewrite K1. f_equal. pose proof (ParseAddr_valid _ _ H1) as Hv.
    destruct a1 as [os|gs zone]; [done|]. cbn [throttle_id]. destruct (Is4In6 (Addr6 gs zone)) eqn:E; [unfold Unmap; by rewrite E|].
    destruct Hv as [Hl _]. destruct gs as [|g0 [|g1 [|g2 [|g3 [|g4 [|g5 [|a [|b [|]]]]]]]]]; try done.
    cbn [throttle_id mask6 firstn replicate app Nat.sub]. assert (Is4In6 (Addr6 [g0; g1; g2; g3; 0; 0; 0; 0] "") = false) as E'.
    { unfold Is4In6. apply bool_decide_eq_false. simpl. congruence. }
    by rewrite E'.
Qed.

Lemma ThrottleIPKey_exact_witness :
  ThrottleIPKey "2001:db8::1" = ThrottleIPKey "2001:DB8:0:0:ffff::2%eth0" /\ ThrottleIPKey "::ffff:1.2.3.4" = "1.2.3.4"
  /\ throttle_id (Addr6 [8193; 3512; 0; 0; 0; 0; 0; 1] "") = Addr6 [8193; 3512; 0; 0; 0; 0; 0; 0] "".
Proof.
  split_and!; [|vm_compute; reflexivity..].
  apply (proj1 (ThrottleIPKey_exact "2001:db8::1" "2001:DB8:0:0:ffff::2%eth0"
    (Addr6 [8193; 3512; 0; 0; 0; 0; 0; 1] "") (Addr6 [8193; 3512; 0; 0; 65535; 0; 0; 2] "eth0") eq_refl eq_refl)).
  vm_compute. reflexivity.
Defined.

(** ** Charges against Redis *)

(** A refused client that waits as told comes back in a new window: not
    before a second, and not after more than a window. *)
Lemma retryAfter_next win t now :
  1 <= windowSec win -> windowSec win * Second <= MaxInt64 -> 0 <= t <= now ->
  let r := retryAfter false win (minute_of t win) now in
  Second <= r <= windowSec win * Second /\ minute_of t win < minute_of (time_Add now r) win.
Proof.
  intros HW Hov Ht. unfold retryAfter, minute_of, time_Unix, time_Add. set (W := windowSec win) in *.
  assert (Hq : forall x, 0 <= x -> Z.quot (x / Second) W = (x / Second) / W)
    by (intros x Hx; apply Z.quot_div_nonneg; [apply Z.div_pos; [done|by vm_compute]|lia]).
  rewrite (Hq t) by lia. set (u := now / Second). set (mn := (t / Second) / W).
  assert (Hu : t / Second <= u) by (apply Z.div_le_mono; [by vm_compute|lia]).
  assert (Hm : mn * W <= t / Second) by (rewrite Z.mul_comm; apply Z.mul_div_le; lia).
  set (k := if W - (u - mn * W) <? 1 then 1 else W - (u - mn * W)).
  assert (Hk : 1 <= k <= W /\ W - (u - mn * W) <= k) by (unfold k; case_if; bprop; lia).
  cbv zeta. change (if W - (u - mn * W) <? 1 then 1 else W - (u - mn * W)) with k.
  assert (HS : 0 < Second) by by vm_compute.
  rewrite wraps64_small by nia. split; [nia|]. rewrite Hq by nia.
  replace ((now + k * Second) / Second) with (u + k) by (unfold u; rewrite Z.div_add; lia).
  apply Z.lt_le_trans with (mn + 1); [lia|]. apply Z.div_le_lower_bound; nia.
Qed.

Section Budget.
Context {S : Type} `{CounterLaws S}.

Record charge_req := mkCharge { cqClk : clocks; cqAns : answer; cqKey : string; cqCost : Z; cqLimit : Z }.

Definition charge1 (b : Bucket) (r : charge_req) (s : bucket_state (S := S)) :=
  Charge b (cqClk r) (cqAns r) (cqKey r) (cqCost r) (cqLimit r) s.

Definition cost_of (b : Bucket) (r : charge_req) : Z := clampCost (cqCost r) (effectiveMax b (cqLimit r)).
Definition minute_req (b : Bucket) (r : charge_req) : Z := minute_of (tKey (cqClk r)) (bWindow b).

(** The tokens the allowed charges of a key in a window have spent. *)
Fixpoint spent_by (b : Bucket) (k : string) (m : Z) (l : list charge_req) (s : bucket_state (S := S)) : Z :=
  match l with
  | [] => 0
  | r :: l =>
      let '(s', out) := charge1 b r s in
      (match out with
       | Ok res => if String.eqb (cqKey r) k && (minute_req b r =? m) && Allowed res then cost_of b r else 0
       | Err _ => 0
       end) + spent_by b k m l s'
  end.

(** The server's clock does not go back. *)
Definition server_order (l : list charge_req) : Prop := StronglySorted (fun x y => tServer (cqClk x) <= tServer (cqClk y)) l.

Lemma clampCost_pos c L : 1 <= L -> 1 <= clampCost c L <= L.
Proof. intros HL. unfold clampCost. repeat case_if; bprop; lia. Qed.

Lemma effectiveMax_pos b limit : 1 <= max b -> 1 <= effectiveMax b limit.
Proof. intros. unfold effectiveMax. case_if; bprop; lia. Qed.

(** What the counter of a key says of the tokens spent: [e0] is when it may
    expire at the earliest. *)
Definition covers (e0 : Time) (total : Z) (c : option (Z * option Time)) : Prop :=
  match c with
  | None => total = 0
  | Some (v, e) => total <= v /\ 1 <= v /\ exists e', e = Some e' /\ e0 <= e'
  end.

Lemma covers_later e0 total c t : t < e0 -> covers e0 total c -> covers e0 total (survives t c).
Proof.
  intros Ht. destruct c as [[v e]|]; [|done]. intros (H1 & H2 & e' & -> & He). simpl. unfold expired. simpl.
  assert ((e' <=? t) = false) as -> by (apply Z.leb_gt; lia). simpl. eauto.
Qed.

(** The script on another key leaves a counter alone. *)
Lemma lua_other key key' ttl mx cost t t' s : key' <> key -> 0 < ttl -> t <= t' ->
  counter (lua key ttl mx cost t s).1 t' key' = counter s t' key'.
Proof.
  intros Hk Httl Ht. unfold lua. pose proof (INCRBY_counter s t t' key cost key' Ht) as Hi.
  rewrite bool_decide_false in Hi by done. destruct (INCRBY key cost t s) as [s1 cur]. simpl in Hi.
  assert (He : counter (if cur =? cost then EXPIRE key ttl t s1 else s1) t' key' = counter s t' key').
  { case_if; [|done]. rewrite EXPIRE_counter by done. by rewrite bool_decide_false. }
  by case_if.
Qed.

(** The script on its own key: the count, and a counter that covers it. *)
Lemma lua_own key ttl mx cost t t' s e0 total : 0 < ttl -> t <= t' -> 1 <= cost ->
  t < e0 -> e0 <= t + ttl * Second -> t' < e0 -> 0 <= total -> covers e0 total (counter s t key) ->
  exists v, (lua key ttl mx cost t s).2.1 = v /\ total + cost <= v
    /\ covers e0 (total + cost) (counter (lua key ttl mx cost t s).1 t' key).
Proof.
  intros Httl Ht Hc Hte Hle Hte' Htot Hcov. unfold lua. pose proof (INCRBY_value s t key cost) as Hv.
  pose proof (INCRBY_counter s t t key cost key ltac:(lia)) as Hi. pose proof (INCRBY_counter s t t' key cost key Ht) as Hi'.
  rewrite bool_decide_true in Hi, Hi' by done. destruct (INCRBY key cost t s) as [s1 cur]. simpl in Hv, Hi, Hi'.
  assert (Hfin : total + cost <= cur
    /\ covers e0 (total + cost) (counter (if cur =? cost then EXPIRE key ttl t s1 else s1) t' key)).
  { destruct (counter s t key) as [[v e]|]; simpl in *.
    - destruct Hcov as (H1 & H2 & e' & -> & He). simpl in *. subst cur. assert ((cost + v =? cost) = false) as -> by (apply Z.eqb_neq; lia).
      rewrite Hi'. unfold expired. simpl. assert ((e' <=? t') = false) as -> by (apply Z.leb_gt; lia).
      split; [lia|]. simpl. split_and!; [lia..|eauto].
    - rewrite Z.add_0_r in Hv, Hi. subst cur. rewrite Z.eqb_refl, EXPIRE_counter, bool_decide_true by done.
      rewrite Hi. simpl. unfold expired, time_Add. simpl. assert ((t + ttl * Second <=? t') = false) as -> by (apply Z.leb_gt; lia).
      subst total. split; [lia|]. simpl. split_and!; [lia..|eauto]. }
  case_if; simpl; eauto.
Qed.
(** A charge of a key, seen from the counter of that key. *)
Lemma charge_step b k m e0 r (s s' : bucket_state (S := S)) out total :
  isLocal b = false -> 1 <= max b -> Second <= bWindow b <= MaxInt64 -> 0 <= total ->
  charge1 b r s = (s', out) ->
  (cqKey r = k -> minute_req b r = m -> tServer (cqClk r) < e0 <= tServer (cqClk r) + ttlSeconds (bWindow b) * Second) ->
  (forall t, tServer (cqClk r) <= t < e0 -> covers e0 total (counter (remote s) t (rlKey (keyPrefix b) k m))) ->
  let own := String.eqb (cqKey r) k && (minute_req b r =? m) in
  let gain := match out with Ok res => if own && Allowed res then cost_of b r else 0 | Err _ => 0 end in
  (forall t, tServer (cqClk r) <= t < e0 -> covers e0 (total + gain) (counter (remote s') t (rlKey (keyPrefix b) k m)))
  /\ (0 < gain -> total + gain <= effectiveMax b (cqLimit r)) /\ 0 <= gain.
Proof.
  intros Hloc Hmax Hwin Htot HC Hown Hcov. destruct (windowSec_bounds _ Hwin) as [[HW Httl] _].
  pose proof (clampCost_pos (cqCost r) _ (effectiveMax_pos b (cqLimit r) Hmax)) as Hcost. fold (cost_of b r) in Hcost.
  unfold charge1, Charge in HC. rewrite Hloc in HC. fold (cost_of b r) (minute_req b r) in HC.
  destruct (lua _ _ _ _ _ _) as [ran [cnt ttl]] eqn:El. cbv zeta.
  destruct (String.eqb (cqKey r) k && (minute_req b r =? m)) eqn:Eo.
  - apply andb_prop in Eo as [Ek Em]. bprop. specialize (Hown Ek Em). rewrite Ek, Em in El.
    assert (Hlua : forall t, tServer (cqClk r) <= t < e0 -> total + cost_of b r <= cnt
              /\ covers e0 (total + cost_of b r) (counter ran t (rlKey (keyPrefix b) k m))).
    { intros t Ht. destruct (lua_own (rlKey (keyPrefix b) k m) (ttlSeconds (bWindow b)) (effectiveMax b (cqLimit r)) (cost_of b r)
        (tServer (cqClk r)) t (remote s) e0 total) as (v & Hv & Hle & Hc); try lia; [apply Hcov; lia|].
      rewrite El in Hv, Hc. simpl in Hv, Hc. subst v. done. }
    assert (Hran : forall t, tServer (cqClk r) <= t < e0 -> covers e0 total (counter ran t (rlKey (keyPrefix b) k m))).
    { intros t Ht. destruct (Hlua t Ht) as [_ Hc]. destruct (counter ran t _) as [[v e]|]; simpl in *; [|lia].
      destruct Hc as (? & ? & ?). split_and!; [lia|done..]. }
    destruct (cqAns r) as [|applied cancelled].
    + injection HC as <- <-. simpl. destruct (cnt <=? effectiveMax b (cqLimit r)) eqn:Ea; bprop.
      * split_and!; [intros t Ht; by apply Hlua| |lia]. intros _. destruct (Hlua (tServer (cqClk r))) as [Hle _]; [lia|]. lia.
      * rewrite Z.add_0_r. split_and!; [done|lia|lia].
    + assert (out = Err ErrEval \/ out = Err ErrThrottleUnavailable) as Hout.
      { destruct cancelled; [injection HC as _ <-; auto|]. destruct (observeRedisFailure _ _ _) as [? []]; injection HC as _ <-; auto. }
      assert (remote s' = if applied then ran else remote s) as ->.
      { destruct cancelled; [by injection HC as <- _|]. destruct (observeRedisFailure _ _ _) as [? []]; by injection HC as <- _. }
      destruct Hout as [-> | ->]; rewrite Z.add_0_r; split_and!; try lia; destruct applied; done.
  - assert (Hne : rlKey (keyPrefix b) k m <> rlKey (keyPrefix b) (cqKey r) (minute_req b r)).
    { intros E. apply rlKey_inj in E as [-> ->]. by rewrite String.eqb_refl, Z.eqb_refl in Eo. }
    assert (Hran : forall t, tServer (cqClk r) <= t < e0 -> covers e0 total (counter ran t (rlKey (keyPrefix b) k m))).
    { intros t Ht. pose proof (lua_other _ _ (ttlSeconds (bWindow b)) (effectiveMax b (cqLimit r)) (cost_of b r)
        (tServer (cqClk r)) t (remote s) Hne ltac:(lia) ltac:(lia)) as Ho. rewrite El in Ho. simpl in Ho. rewrite Ho. by apply Hcov. }
    assert (Hg : match out with Ok res => if false && Allowed res then cost_of b r else 0 | Err _ => 0 end = 0) by (by destruct out).
    rewrite Hg, Z.add_0_r. split_and!; [|lia|lia].
    destruct (cqAns r) as [|applied cancelled]; [by injection HC as <- <-|].
    assert (remote s' = if applied then ran else remote s) as ->; [|destruct applied; auto].
    destruct cancelled; [by injection HC as <- _|]. destruct (observeRedisFailure _ _ _) as [? []]; by injection HC as <- _.
Qed.

(** A client never gets more than its limit out of Redis. For any sequence
    of charges on one bucket, with any costs, any of them failing (whether or
    not the script ran) and other keys in between: the tokens that the allowed
    charges of a key in a window spend add up to at most the key's limit, if
    the counter starts afresh at [T0] and the window's charges reach the
    server within the counter's lifetime from then. *)
Theorem redis_budget b k m L T0 l (s : bucket_state (S := S)) :
  isLocal b = false -> 1 <= max b -> Second <= bWindow b <= MaxInt64 -> 0 <= L -> server_order l ->
  Forall (fun r => T0 <= tServer (cqClk r)) l ->
  Forall (fun r => cqKey r = k -> minute_req b r = m ->
            effectiveMax b (cqLimit r) = L /\ tServer (cqClk r) < T0 + ttlSeconds (bWindow b) * Second) l ->
  counter (remote s) T0 (rlKey (keyPrefix b) k m) = None ->
  spent_by b k m l s <= L.
Proof.
  intros Hloc Hmax Hwin HL HO HT HF Hfresh. set (e0 := T0 + ttlSeconds (bWindow b) * Second).
  assert (Hgen : forall l s t total, T0 <= t -> server_order l -> Forall (fun r => t <= tServer (cqClk r)) l ->
    Forall (fun r => cqKey r = k -> minute_req b r = m -> effectiveMax b (cqLimit r) = L /\ tServer (cqClk r) < e0) l ->
    0 <= total <= L -> (forall t', t <= t' < e0 -> covers e0 total (counter (remote s) t' (rlKey (keyPrefix b) k m))) ->
    total + spent_by b k m l s <= L).
  { clear l s HO HT HF Hfresh. induction l as [|r l IH]; intros s t total Ht0 HO HT HF Htot Hcov; [simpl; lia|].
    rewrite Forall_cons in HT, HF. destruct HT as [Ht HT], HF as [Hr HF]. apply StronglySorted_inv in HO as [HO Hle].
    cbn [spent_by]. destruct (charge1 b r s) as [s' out] eqn:EC.
    destruct (charge_step b k m e0 r s s' out total Hloc Hmax Hwin (proj1 Htot) EC) as (Hc & Hg & Hg0).
    - intros Ek Em. destruct (Hr Ek Em) as [_ H1]. unfold e0 in *. lia.
    - intros t' Ht'. apply Hcov. lia.
    - set (gain := match out with Ok _ => _ | Err _ => _ end) in *.
      assert (Htot' : 0 <= total + gain <= L).
      { destruct (Z.eq_dec gain 0) as [Ez|Ez]; [lia|]. specialize (Hg ltac:(lia)).
        assert (Hown : cqKey r = k /\ minute_req b r = m).
        { unfold gain in Ez. destruct out as [res|]; [|done].
          destruct (String.eqb (cqKey r) k && (minute_req b r =? m)) eqn:Eo; [by bprop|done]. }
        destruct (Hr (proj1 Hown) (proj2 Hown)) as [<- _]. lia. }
      specialize (IH s' (tServer (cqClk r)) (total + gain) ltac:(lia) HO Hle HF Htot' Hc). lia. }
  pose proof (Hgen l s T0 0 ltac:(lia) HO HT HF ltac:(lia)) as Hfin. rewrite Z.add_0_l in Hfin. apply Hfin.
  intros t' Ht'. rewrite (counter_later _ T0 t') by lia. by rewrite Hfresh.
Qed.
End Budget.

(** Redis as a map of counters with their expiry. *)
Abbreviation map_counters := (gmap string (Z * option Time)).

#[export] Instance map_CounterStore : CounterStore map_counters := {|
  counter s t k := survives t (s !! k);
  INCRBY k n t s :=
    let c := survives t (s !! k) in
    let v := n + default 0 (fst <$> c) in (<[k := (v, c ≫= snd)]> s, v);
  EXPIRE k secs t s :=
    match survives t (s !! k) with
    | Some c => <[k := (c.1, Some (time_Add t (secs * Second)))]> s
    | None => s
    end;
  TTL k t s :=
    match survives t (s !! k) with
    | None => -2
    | Some (_, None) => -1
    | Some (_, Some e) => (e - t) / Second
    end
|}.

Lemma survives_later t t' c : t <= t' -> survives t' (survives t c) = survives t' c.
Proof.
  intros Ht. destruct c as [[v [e|]]|]; [|done..]. simpl. unfold expired. simpl.
  destruct (e <=? t) eqn:E; bprop; simpl; [|done]. by assert ((e <=? t') = true) as -> by (apply Z.leb_le; lia).
Qed.

#[export] Instance map_CounterLaws : CounterLaws map_counters.
Proof.
  split.
  - intros s t t' k Ht. simpl. by rewrite survives_later.
  - intros s t k n. done.
  - intros s t t' k n k' Ht. simpl. case_bool_decide as E; [subst; by rewrite lookup_insert_eq|by rewrite lookup_insert_ne].
  - intros s t t' k secs k' Ht Hs. simpl. destruct (survives t (s !! k)) as [c|] eqn:Ec.
    + case_bool_decide as E; [subst; by rewrite lookup_insert_eq|by rewrite lookup_insert_ne].
    + case_bool_decide as E; [|done]. subst. rewrite <- (survives_later t t') by done. by rewrite Ec.
Qed.

Definition bucket_ex : Bucket := mkBucket 60 Minute "rl:" DefaultDwellTime false.
Definition charge_ex (t : Time) (ans : answer) (key : string) (cost : Z) : charge_req :=
  mkCharge (mkClocks t t t t) ans key cost 0.
Definition charges_ex : list charge_req :=
  [charge_ex Second Answered "anon:1.2.3.4" 40; charge_ex (2 * Second) (Lost true false) "anon:1.2.3.4" 15;
   charge_ex (3 * Second) Answered "anon:5.6.7.8" 60; charge_ex (4 * Second) Answered "anon:1.2.3.4" 10;
   charge_ex (5 * Second) Answered "anon:1.2.3.4" 5].
Definition rl_state_ex : bucket_state (S := map_counters) := mkState zero_breaker ∅ newLocalStore.

(** Forty tokens are spent, fifteen are lost, ten and then five are refused. *)
Lemma redis_budget_witness :
  spent_by bucket_ex "anon:1.2.3.4" 0 charges_ex rl_state_ex <= 60
  /\ spent_by bucket_ex "anon:1.2.3.4" 0 charges_ex rl_state_ex = 40.
Proof.
  split; [|vm_compute; reflexivity].
  apply (redis_budget bucket_ex "anon:1.2.3.4" 0 60 0 charges_ex rl_state_ex); try done.
  - repeat constructor; vm_compute; congruence.
  - repeat constructor; vm_compute; congruence.
  - repeat constructor; vm_compute; split; congruence.
Defined.
