(* ===== verification/Sources.v ===== *)
(** * The registry of sources
    (internal/sources/external: framework.go, registry.go)

    What the program knows of each source of trades and prices: its class,
    whether it votes in a volume-weighted price, the scale of its amounts and
    how its history may be replayed. The map literal is a list of rows with
    distinct names, in the order of the text. *)

From S2P Require Import Prelude GoLib.

(** ** Metadata (framework.go) *)

Inductive SourceClass := ClassExchange | ClassAggregator | ClassOracle | ClassAuthoritySanity | ClassLending | ClassRouter | ClassBridge.
#[export] Instance SourceClass_eq_dec : EqDecision SourceClass.
Proof. solve_decision. Defined.

(** The empty subclass is [SubclassNone]. *)
Inductive Subclass := SubclassNone | SubclassCEX | SubclassDEX | SubclassFX.
#[export] Instance Subclass_eq_dec : EqDecision Subclass.
Proof. solve_decision. Defined.

Inductive BackfillPolicy := BackfillUnsafe | BackfillNoWASM | BackfillPerWASM.
#[export] Instance BackfillPolicy_eq_dec : EqDecision BackfillPolicy.
Proof. solve_decision. Defined.

Record Metadata := mkMeta {
  md_Class : SourceClass; md_Subclass : Subclass; DefaultWeight : Z; md_IncludeInVWAP : bool; Retired : bool; Paid : bool; md_Credit : string;
  BackfillAvailable : bool; md_Backfill : BackfillPolicy; AmountDecimals : Z; OracleResolution : Duration
}.

Definition AmountScaleDecimals (m : Metadata) : Z := if 0 <? AmountDecimals m then AmountDecimals m else 8.
Definition md_BackfillSafe (m : Metadata) : bool := negb (bool_decide (md_Backfill m = BackfillUnsafe)).

(** ** The registry (registry.go) *)

Definition Registry : list (string * Metadata) :=
  [("soroswap", mkMeta ClassExchange SubclassDEX 100 true false false "" true BackfillPerWASM 7 0);
   ("aquarius", mkMeta ClassExchange SubclassDEX 100 true false false "" true BackfillPerWASM 7 0);
   ("phoenix", mkMeta ClassExchange SubclassDEX 100 true false false "" true BackfillPerWASM 7 0);
   ("comet", mkMeta ClassExchange SubclassDEX 100 true false false "" true BackfillPerWASM 7 0);
   ("sdex", mkMeta ClassExchange SubclassDEX 100 true false false "" true BackfillNoWASM 7 0);
   ("sushiswap_v3", mkMeta ClassExchange SubclassDEX 100 true false false "" true BackfillPerWASM 7 0);
   ("upshift", mkMeta ClassRouter SubclassNone 0 false false false "" true BackfillUnsafe 0 0);
   ("spectra", mkMeta ClassRouter SubclassNone 0 false false false "" true BackfillPerWASM 0 0);
   ("reflector-dex", mkMeta ClassOracle SubclassNone 100 false false false "" true BackfillPerWASM 0 (5 * Minute));
   ("reflector-cex", mkMeta ClassOracle SubclassNone 100 false false false "" true BackfillPerWASM 0 (5 * Minute));
   ("reflector-fx", mkMeta ClassOracle SubclassNone 100 false false false "" true BackfillPerWASM 0 (5 * Minute));
   ("redstone", mkMeta ClassOracle SubclassNone 100 false false false "" true BackfillPerWASM 0 (24 * Hour));
   ("chainlink-stellar", mkMeta ClassOracle SubclassNone 100 false false false "" true BackfillPerWASM 0 (24 * Hour));
   ("band", mkMeta ClassOracle SubclassNone 100 false false false "" true BackfillPerWASM 0 Hour);
   ("blend", mkMeta ClassLending SubclassNone 100 false false false "" true BackfillPerWASM 0 0);
   ("blend_emitter", mkMeta ClassLending SubclassNone 0 false false false "" true BackfillPerWASM 0 0);
   ("sorocredit", mkMeta ClassLending SubclassNone 0 false false false "" true BackfillPerWASM 0 0);
   ("soroswap-router", mkMeta ClassRouter SubclassNone 0 false false false "" true BackfillPerWASM 0 0);
   ("defindex", mkMeta ClassRouter SubclassNone 0 false false false "" true BackfillPerWASM 0 0);
   ("cctp", mkMeta ClassBridge SubclassNone 0 false false false "" true BackfillPerWASM 0 0);
   ("rozo", mkMeta ClassBridge SubclassNone 0 false false false "" true BackfillPerWASM 0 0);
   ("binance", mkMeta ClassExchange SubclassCEX 100 true false false "" true BackfillNoWASM 0 0);
   ("kraken", mkMeta ClassExchange SubclassCEX 100 true false false "" true BackfillNoWASM 0 0);
   ("bitstamp", mkMeta ClassExchange SubclassCEX 100 true false false "" true BackfillNoWASM 0 0);
   ("poloniex_via_btc", mkMeta ClassExchange SubclassCEX 0 false false false "" true BackfillNoWASM 0 0);
   ("coinbase", mkMeta ClassExchange SubclassCEX 100 true false false "" true BackfillNoWASM 0 0);
   ("massive", mkMeta ClassExchange SubclassFX 100 true false true "Massive" true BackfillNoWASM 6 0);
   ("exchangeratesapi", mkMeta ClassExchange SubclassFX 100 true false true "exchangeratesapi.io" true BackfillNoWASM 6 (24 * Hour));
   ("coingecko", mkMeta ClassAggregator SubclassNone 100 false false false "CoinGecko" true BackfillNoWASM 0 (5 * Minute));
   ("coinmarketcap", mkMeta ClassAggregator SubclassNone 100 false false true "CoinMarketCap" true BackfillNoWASM 0 Minute);
   ("cryptocompare", mkMeta ClassAggregator SubclassNone 100 false false true "CCData (CryptoCompare)" true BackfillNoWASM 0 Minute);
   ("coingecko_daily", mkMeta ClassAggregator SubclassNone 0 false false false "CoinGecko" true BackfillNoWASM 0 0);
   ("ecb", mkMeta ClassAuthoritySanity SubclassFX 100 false false false "European Central Bank euro foreign exchange reference rates" true BackfillNoWASM 6 (24 * Hour));
   ("chainlink", mkMeta ClassOracle SubclassNone 100 false true false "" false BackfillUnsafe 0 0);
   ("tiingo", mkMeta ClassOracle SubclassNone 0 false false false "Tiingo" false BackfillNoWASM 6 (24 * Hour))].

(** A row of the map by its name. *)
Fixpoint registry_row (rows : list (string * Metadata)) (source : string) : option Metadata :=
  match rows with
  | [] => None
  | (n, m) :: rows => if String.eqb n source then Some m else registry_row rows source
  end.

Definition unknown_source : Metadata := mkMeta ClassExchange SubclassNone 100 false false false "" false BackfillUnsafe 0 0.

Definition Lookup (source : string) : Metadata := default unknown_source (registry_row Registry source).
Definition Registered (source : string) : bool := match registry_row Registry source with Some _ => true | None => false end.
Definition IncludeInVWAP (source : string) : bool := md_IncludeInVWAP (Lookup source).
Definition BackfillSafe (source : string) : bool := md_BackfillSafe (Lookup source).

Definition replayAuditCoveredBy : list (string * string) := [("blend_backstop", "blend")].
Definition replayStandardSchemaSources : list string := ["sep41_transfers"; "sep41_supply"].

Definition ReplayExempt (source : string) : bool := existsb (String.eqb source) replayStandardSchemaSources.
Definition ReplayAuditSubject (source : string) : string :=
  match List.find (fun r => String.eqb r.1 source) replayAuditCoveredBy with Some r => r.2 | None => source end.
Definition ReplayBackfillSafe (source : string) : bool :=
  if ReplayExempt source then true else BackfillSafe (ReplayAuditSubject source).
Definition UnsafeReplaySources (sources : list string) : list string := List.filter (fun s => negb (ReplayBackfillSafe s)) sources.

Definition sources_where (f : Metadata -> bool) : list string :=
  sort_Strings (map fst (List.filter (fun r => f r.2) Registry)).

Definition FXSources : list string := sources_where (fun m => bool_decide (md_Subclass m = SubclassFX)).
Definition AggregatorSources : list string := sources_where (fun m => bool_decide (md_Class m = ClassAggregator)).
Definition IsFXSource (source : string) : bool := bool_decide (md_Subclass (Lookup source) = SubclassFX).

Definition IsOnChain (source : string) : bool :=
  let m := Lookup source in
  match md_Subclass m with
  | SubclassCEX | SubclassFX => false
  | _ =>
      match md_Class m with
      | ClassAggregator | ClassAuthoritySanity => false
      | _ => negb (String.eqb source "chainlink" || String.eqb source "tiingo")
      end
  end.

Definition Credit (source : string) : string := match registry_row Registry source with Some m => md_Credit m | None => "" end.

(** ** Properties *)

Lemma registry_row_elem source m : registry_row Registry source = Some m -> (source, m) ∈ Registry.
Proof.
  generalize Registry. intros rows. induction rows as [|[n x] rows IH]; cbn [registry_row]; [done|].
  destruct (String.eqb_spec n source) as [->|]; [intros [= ->]; left|intros E; right; auto].
Qed.

(** A property that every row and the answer for an unknown name have holds
    of every name. *)
Lemma Lookup_ind (P : string -> Metadata -> Prop) :
  (forall s, P s unknown_source) -> Forall (fun r => P r.1 r.2) Registry -> forall s, P s (Lookup s).
Proof.
  intros HU HR s. unfold Lookup. destruct (registry_row Registry s) as [m|] eqn:E; [|apply HU].
  apply registry_row_elem in E. by apply (proj1 (Forall_forall _ _) HR (s, m)).
Qed.

Lemma Lookup_decimals s : 0 < AmountScaleDecimals (Lookup s) <= 8.
Proof. apply (Lookup_ind (fun _ m => 0 < AmountScaleDecimals m <= 8)); [by vm_compute|]. repeat constructor; by vm_compute. Qed.

(** Only live, registered exchanges with a weight vote in a price: a name that
    is not in the table, an oracle, an aggregator, a lender, a router or a
    bridge never does. Every name is in the table once, and an unknown name
    cannot be replayed. *)
Theorem voting_sources_sound :
  NoDup (map fst Registry) /\
  (forall s, IncludeInVWAP s = true -> Registered s = true /\ md_Class (Lookup s) = ClassExchange /\ Retired (Lookup s) = false /\ 0 < DefaultWeight (Lookup s)) /\
  (forall s, Registered s = false -> IncludeInVWAP s = false /\ BackfillSafe s = false).
Proof.
  split; [refine (bool_decide_unpack _ _); by vm_compute|]. split.
  - intros s. unfold IncludeInVWAP, Registered, Lookup. destruct (registry_row Registry s) as [m|] eqn:E; [|done]. cbn [default]. intros Hm. split; [done|].
    apply registry_row_elem in E.
    assert (Forall (fun r : string * Metadata => md_IncludeInVWAP r.2 = true -> md_Class r.2 = ClassExchange /\ Retired r.2 = false /\ 0 < DefaultWeight r.2) Registry) as HF
      by (unfold Registry; repeat (apply Forall_cons; split; [by vm_compute|]); constructor).
    by apply (proj1 (Forall_forall _ _) HF (s, m)).
  - intros s. unfold IncludeInVWAP, BackfillSafe, Registered, Lookup. by destruct (registry_row Registry s).
Qed.

(** The sources of exchange rates are exactly these, and no replay is ever
    admitted of a name outside the table and its two lists of exceptions. *)
Lemma FXSources_value : FXSources = ["ecb"; "exchangeratesapi"; "massive"].
Proof. by vm_compute. Qed.

Lemma replay_closed s : ReplayBackfillSafe s = true -> Registered s = true \/ s = "blend_backstop" \/ s ∈ replayStandardSchemaSources.
Proof.
  unfold ReplayBackfillSafe. destruct (ReplayExempt s) eqn:Ex; [intros _; right; right|].
  - unfold ReplayExempt in Ex. apply existsb_exists in Ex as (x & Hx & ->%String.eqb_eq). by apply list_elem_of_In.
  - unfold ReplayAuditSubject. cbn [List.find replayAuditCoveredBy fst snd]. destruct (String.eqb_spec "blend_backstop" s) as [<-|]; [intros _; right; by left|].
    intros Hb. left. destruct (Registered s) eqn:Er; [done|]. unfold BackfillSafe, Registered, Lookup in *. by destruct (registry_row Registry s).
Qed.
