(* ===== verification/Render.v ===== *)
(** * The text of a served price
    (internal/aggregate/orchestrator/orchestrator.go: formatRatFixed,
    renderScale)

    A price leaves the aggregator as decimal text, truncated toward zero at
    twelve places, and at more places when too few digits of it would be left.
    A [*big.Rat] is [Q]; the truncation does not depend on the fraction that
    represents it. *)

From S2P Require Import Prelude GoLib Window Global.
From Stdlib Require Import Qround.

Definition formatRatSigDigits : Z := 12.
Definition formatRatMaxScale : Z := 60.
Definition formatRatMinSigDigits (decimals : Z) : Z := Z.quot (decimals + 1) 2.

(** The place of the first significant digit, at most [fuel] places on. *)
Fixpoint first_sig (fuel : nat) (x : Q) (place : Z) : Z :=
  match fuel with
  | O => place
  | S fuel => if Qle_bool 1 x then place else first_sig fuel (x * 10) (place + 1)
  end.

Definition renderScale (r : option Q) (decimals : Z) : Z :=
  match r with
  | None => decimals
  | Some r =>
      if Qeq_bool r 0 then decimals
      else
        let firstSigPlace := first_sig (Z.to_nat formatRatMaxScale) (Qabs r) 0 in
        if formatRatMinSigDigits decimals <=? decimals - firstSigPlace + 1 then decimals
        else
          let need := firstSigPlace + formatRatSigDigits in
          if formatRatMaxScale <? need then formatRatMaxScale else need
  end.

Definition formatRatFixed (r : Q) (decimals : Z) : string :=
  let decimals := renderScale (Some r) decimals in
  let q := Z.quot (Qnum r * big_Exp 10 decimals) (Zpos (Qden r)) in
  let negative := Z.sgn q <? 0 in
  let digits := big_String (Z.abs q) in
  let places := Z.to_nat decimals in
  let digits := if (String.length digits <=? places)%nat then zeros (places - String.length digits + 1) +:+ digits else digits in
  let cut := (String.length digits - places)%nat in
  let out := str_take cut digits +:+ "." +:+ str_drop cut digits in
  if negative then "-" +:+ out else out.

(** ** Digits before and after a point *)

Lemma digit_val_nonneg c d : digit_val c = Some d -> 0 <= d.
Proof. unfold digit_val. intros E. repeat case_if_in E; try discriminate E; injection E as <-; bprop; lia. Qed.

Lemma parse_acc_app a b acc n : parse_acc 10 (a +:+ b) acc = Some n ->
  exists m, parse_acc 10 a acc = Some m /\ parse_acc 10 b m = Some n.
Proof.
  revert acc. induction a as [|c a IH]; intros acc E; [by exists acc|]. change (String c a +:+ b) with (String c (a +:+ b)) in E. cbn [parse_acc] in *.
  destruct (digit_val c) as [d|]; [|done]. destruct (d <? 10); [by apply IH|done].
Qed.

Lemma parse_acc_shift b m n : parse_acc 10 b m = Some n ->
  exists y, parse_acc 10 b 0 = Some y /\ 0 <= y < 10 ^ Z.of_nat (String.length b) /\ n = m * 10 ^ Z.of_nat (String.length b) + y.
Proof.
  assert (forall b m n acc, parse_acc 10 b m = Some n -> exists y, parse_acc 10 b acc = Some y /\
    acc * 10 ^ Z.of_nat (String.length b) <= y < (acc + 1) * 10 ^ Z.of_nat (String.length b) /\ n - m * 10 ^ Z.of_nat (String.length b) = y - acc * 10 ^ Z.of_nat (String.length b)) as HG.
  { clear. intros b. induction b as [|c b IH]; intros m n acc E; cbn [parse_acc String.length] in *.
    - injection E as <-. exists acc. split; [done|]. lia.
    - destruct (digit_val c) as [d|] eqn:Ed; [|done]. pose proof (digit_val_nonneg c d Ed). destruct (Z.ltb_spec d 10); [|done].
      destruct (IH _ _ (acc * 10 + d) E) as (y & Ey & Hy & En). exists y. split; [done|]. rewrite Nat2Z.inj_succ, Z.pow_succ_r by lia.
      set (p := 10 ^ Z.of_nat (String.length b)) in *. assert (0 < p) by (apply Z.pow_pos_nonneg; lia). nia. }
  intros E. destruct (HG b m n 0 E) as (y & Ey & Hy & En). exists y. split; [done|]. lia.
Qed.

(** Text of at least one digit before the point, cut [k] digits from its end. *)
Lemma decimal_of_cut s k z : (0 < k < String.length s)%nat -> parse_uint 10 s = Some z ->
  decimal_of (str_take (String.length s - k) s +:+ "." +:+ str_drop (String.length s - k) s) k z.
Proof.
  intros Hk Hz. set (n := (String.length s - k)%nat). pose proof (str_take_drop n s) as Hs.
  assert (String.length (str_take n s) = n) as Ht by (apply str_take_length; unfold n; lia).
  assert (String.length (str_drop n s) = k) as Hd.
  { pose proof (f_equal String.length Hs) as HL. rewrite str_length_app in HL. unfold n in *. lia. }
  eexists _, _. split; [reflexivity|]. split; [done|].
  assert (parse_acc 10 s 0 = Some z) as Hp by (by destruct s). rewrite <- Hs in Hp. apply parse_acc_app in Hp as (x & Hx & Hy).
  apply parse_acc_shift in Hy as (y & Hy & Hr & ->). rewrite Hd in Hr |- *.
  rewrite Z.add_comm, Z.div_add, Z.div_small, Z_mod_plus_full, Z.mod_small by lia.
  split.
  - destruct (str_take n s) eqn:E; [cbn in Ht; unfold n in Ht; lia|]. exact Hx.
  - destruct (str_drop n s) eqn:E; [cbn in Hd; lia|exact Hy].
Qed.

(** ** What the text says *)

Lemma first_sig_spec fuel x place : 0 <= place -> (0 < x)%Q ->
  let f := first_sig fuel x place in
  place <= f <= place + Z.of_nat fuel /\
  ((inject_Z (10 ^ (f - place)) * x < 1)%Q -> f = place + Z.of_nat fuel) /\
  (place < f -> (inject_Z (10 ^ (f - place - 1)) * x < 1)%Q).
Proof.
  cbv zeta. revert x place. induction fuel as [|fuel IH]; intros x place Hp Hx; cbn [first_sig]; [split_and!; lia|].
  destruct (Qle_bool 1 x) eqn:E.
  - apply Qle_bool_iff in E. split_and!; [lia|lia| |lia]. rewrite Z.sub_diag. change (inject_Z (10 ^ 0)) with 1%Q. intros HL. lra.
  - assert (x < 1)%Q as Hlt by (apply Qnot_le_lt; intros H; apply Qle_bool_iff in H; congruence).
    destruct (IH (x * 10)%Q (place + 1)) as (H1 & H2 & H3); [lia|lra|]. set (f := first_sig fuel (x * 10) (place + 1)) in *.
    assert (10 ^ (f - place) = 10 * 10 ^ (f - (place + 1))) as E1 by (rewrite <- Z.pow_succ_r by lia; f_equal; lia).
    split_and!; [lia|lia| |].
    + intros HL. rewrite Nat2Z.inj_succ. rewrite E1, inject_Z_mult in HL. enough (f = place + 1 + Z.of_nat fuel) by lia. apply H2. change (inject_Z 10) with (10 # 1)%Q in HL. lra.
    + intros _. destruct (Z.eq_dec f (place + 1)) as [->|Hne].
      * replace (place + 1 - place - 1) with 0 by lia. change (inject_Z (10 ^ 0)) with (1 # 1)%Q. lra.
      * specialize (H3 ltac:(lia)). assert (10 ^ (f - place - 1) = 10 * 10 ^ (f - (place + 1) - 1)) as E2 by (rewrite <- Z.pow_succ_r by lia; f_equal; lia).
        rewrite E2, inject_Z_mult. change (inject_Z 10) with (10 # 1)%Q. lra.
Qed.

(** The number of places of a price, spelled out: twelve for a price of at
    least 1e-7; thirteen digits from the first significant one on for a
    smaller price, but at most sixty places; sixty below 1e-60. *)
Definition places_of (r : Q) (k : Z) : Prop :=
  ((1 # 10 ^ 7 <= r)%Q -> k = 12)
  /\ (forall f, 8 <= f <= 60 -> (1 <= r * inject_Z (10 ^ f))%Q -> (r * inject_Z (10 ^ (f - 1)) < 1)%Q -> k = Z.min 60 (f + 12))
  /\ ((r < 1 # 10 ^ 60)%Q -> k = 60).

(** The place [f] of the first significant digit, sixty if there is none before. *)
Definition first_place (r : Q) (f : Z) : Prop :=
  0 <= f <= 60 /\ (f < 60 -> (1 <= r * inject_Z (10 ^ f))%Q) /\ (0 < f -> (r * inject_Z (10 ^ (f - 1)) < 1)%Q).

Lemma first_sig_place r : (0 < r)%Q -> first_place r (first_sig 60 (Qabs r) 0).
Proof.
  intros Hr. assert (Qabs r == r)%Q as Ha by (apply Qabs_pos; lra).
  destruct (first_sig_spec 60 (Qabs r) 0) as (H1 & H2 & H3); [lia|by rewrite Ha|].
  set (f := first_sig 60 (Qabs r) 0) in *. rewrite Ha, !Z.sub_0_r in H2. rewrite Ha, Z.sub_0_r in H3.
  change (0 + Z.of_nat 60) with 60 in *. split; [lia|]. split.
  - intros Hf. apply Qnot_lt_le. rewrite Qmult_comm. intros HL. apply H2 in HL. lia.
  - rewrite Qmult_comm. auto.
Qed.

Lemma renderScale_place r : (0 < r)%Q -> exists f, first_place r f /\
  renderScale (Some r) 12 = if f <=? 7 then 12 else Z.min 60 (f + 12).
Proof.
  intros Hr. exists (first_sig 60 (Qabs r) 0). split; [by apply first_sig_place|].
  unfold renderScale. destruct (Qeq_bool r 0) eqn:E0; [apply Qeq_bool_eq in E0; lra|].
  change (Z.to_nat formatRatMaxScale) with 60%nat. set (f := first_sig 60 (Qabs r) 0).
  change (formatRatMinSigDigits 12) with 6. unfold formatRatMaxScale, formatRatSigDigits. repeat case_if; bprop; lia.
Qed.

Lemma pow10_le a b : 0 <= a <= b -> (inject_Z (10 ^ a) <= inject_Z (10 ^ b))%Q.
Proof. intros. rewrite <- Zle_Qle. apply Z.pow_le_mono_r; lia. Qed.

Lemma scaled_le r a b : (0 < r)%Q -> 0 <= a <= b -> (r * inject_Z (10 ^ a) <= r * inject_Z (10 ^ b))%Q.
Proof. intros Hr Hab. rewrite (Qmult_comm r), (Qmult_comm r (inject_Z (10 ^ b))). apply Qmult_le_compat_r; [by apply pow10_le|lra]. Qed.

(** The place of the first significant digit is unique. *)
Lemma first_place_unique r f g : (0 < r)%Q -> first_place r f -> 0 < g <= 60 ->
  (1 <= r * inject_Z (10 ^ g))%Q -> (r * inject_Z (10 ^ (g - 1)) < 1)%Q -> f = g.
Proof.
  intros Hr (Hf & H1 & H2) Hg G1 G2. destruct (Z.lt_trichotomy f g) as [Hlt|[->|Hlt]]; [|done|].
  - pose proof (scaled_le r f (g - 1) Hr ltac:(lia)). specialize (H1 ltac:(lia)). lra.
  - pose proof (scaled_le r g (f - 1) Hr ltac:(lia)). specialize (H2 ltac:(lia)). lra.
Qed.

(** A bound on the price as a bound on the place. *)
Lemma pow_bound r p : (1 # 10 ^ p <= r)%Q <-> (1 <= r * inject_Z (10 ^ Zpos p))%Q.
Proof.
  unfold Qle. cbn [Qmult inject_Z Qnum Qden]. rewrite Pos.mul_1_r, Pos2Z.inj_pow. generalize (10 ^ Zpos p). lia.
Qed.

Lemma first_place_le r f n : (0 < r)%Q -> first_place r f -> 0 <= n < 60 -> (1 <= r * inject_Z (10 ^ n))%Q <-> f <= n.
Proof.
  intros Hr (Hf & H1 & H2) Hn. split.
  - intros HL. destruct (Z_le_gt_dec f n); [done|]. specialize (H2 ltac:(lia)).
    pose proof (scaled_le r n (f - 1) Hr ltac:(lia)). lra.
  - intros HL. specialize (H1 ltac:(lia)). pose proof (scaled_le r f n Hr ltac:(lia)). lra.
Qed.

Lemma renderScale_places r : (0 < r)%Q -> places_of r (renderScale (Some r) 12).
Proof.
  intros Hr. destruct (renderScale_place r Hr) as (f & Hf & ->). split_and!.
  - intros HL. apply (pow_bound r 7), (first_place_le r f) in HL; [|done..|lia]. by destruct (Z.leb_spec f 7); [|lia].
  - intros g Hg G1 G2. rewrite (first_place_unique r f g) by (done || lia). by destruct (Z.leb_spec g 7); [lia|].
  - intros HL. destruct (Z_le_gt_dec f 47) as [Hs|Hs]; [|destruct (Z.leb_spec f 7); lia].
    apply (first_place_le r f 47) in Hs; [|done..|lia]. pose proof (scaled_le r 47 60 Hr ltac:(lia)) as HS.
    exfalso. apply (Qlt_not_le _ _ HL), pow_bound. by apply (Qle_trans _ _ _ Hs).
Qed.

(** The places leave at least six digits of a price that is not below ten to
    the power of minus 55. *)
Lemma renderScale_spec r : (0 < r)%Q ->
  let k := renderScale (Some r) 12 in
  12 <= k <= 60 /\ ((1 # 10 ^ 55 <= r)%Q -> (inject_Z (10 ^ 5) <= r * inject_Z (10 ^ k))%Q) /\ ((1 # 10 ^ 60 <= r)%Q -> (1 <= r * inject_Z (10 ^ k))%Q).
Proof.
  intros Hr. cbv zeta. destruct (renderScale_place r Hr) as (f & Hf & ->).
  assert (Hfr := Hf). destruct Hfr as (Hb & H1 & _).
  set (k := if f <=? 7 then 12 else Z.min 60 (f + 12)). assert (12 <= k <= 60 /\ (f <= 55 -> f + 5 <= k) /\ f <= k) as (Hk & Hk5 & Hk0)
    by (unfold k; destruct (Z.leb_spec f 7); lia).
  split; [done|]. split.
  - intros HL. apply (pow_bound r 55), (first_place_le r f) in HL; [|done..|lia]. specialize (H1 ltac:(lia)).
    pose proof (scaled_le r (f + 5) k Hr ltac:(lia)) as HS. rewrite Z.pow_add_r, inject_Z_mult in HS by lia.
    change (inject_Z (10 ^ 5)) with (100000 # 1)%Q in *. lra.
  - intros HL. apply (pow_bound r 60) in HL. destruct (Z.eq_dec f 60) as [->|Hne]; [by assert (k = 60) as -> by lia|].
    specialize (H1 ltac:(lia)). pose proof (scaled_le r f k Hr ltac:(lia)). lra.
Qed.

Lemma trunc_floor r k : (0 < r)%Q -> 0 <= k ->
  let z := Z.quot (Qnum r * big_Exp 10 k) (Zpos (Qden r)) in
  0 <= z /\ (inject_Z z <= r * inject_Z (10 ^ k) < inject_Z (z + 1))%Q.
Proof.
  intros Hr Hk. cbv zeta. assert (big_Exp 10 k = 10 ^ k) as -> by (unfold big_Exp; destruct (Z.leb_spec k 0); [replace k with 0 by lia; done|done]).
  assert (0 < 10 ^ k) by (apply Z.pow_pos_nonneg; lia). destruct r as [n d]. unfold Qlt in Hr. cbn [Qnum Qden] in *.
  rewrite Z.quot_div_nonneg by lia. pose proof (Z.div_pos (n * 10 ^ k) (Zpos d)). pose proof (Z.mul_div_le (n * 10 ^ k) (Zpos d) ltac:(lia)).
  pose proof (Z.mul_succ_div_gt (n * 10 ^ k) (Zpos d) ltac:(lia)). set (q := n * 10 ^ k / Zpos d) in *.
  split; [lia|]. unfold Qle, Qlt. cbn [Qmult inject_Z Qnum Qden]. rewrite !Pos.mul_1_r. split; nia.
Qed.

(** No digit before the point is superfluous. *)
Definition no_leading_zero (s : string) : Prop :=
  forall rest, s = String "0" rest -> exists rest', rest = String "." rest'.

Lemma digits_head f n acc : 0 < n < 10 ^ Z.of_nat f ->
  exists c rest, digits_acc f 10 n acc = String c rest /\ c <> "0"%char.
Proof.
  revert n acc. induction f as [|f IH]; intros n acc Hn; cbn [digits_acc]; [simpl in Hn; lia|].
  case_if; bprop.
  - eexists _, _. split; [reflexivity|]. rewrite Z.mod_small by lia. intros E.
    pose proof (digit_val_char n ltac:(lia)) as Hv. rewrite E in Hv. vm_compute in Hv. injection Hv. lia.
  - apply IH. rewrite Nat2Z.inj_succ, Z.pow_succ_r in Hn by lia.
    split; [apply Z.div_str_pos; lia|apply Z.div_lt_upper_bound; lia].
Qed.

Lemma cut_no_leading_zero n k : 0 <= n -> (0 < k)%nat ->
  let d := fmt_uint 10 n in
  let s := if (String.length d <=? k)%nat then zeros (k - String.length d + 1) +:+ d else d in
  no_leading_zero (str_take (String.length s - k) s +:+ "." +:+ str_drop (String.length s - k) s).
Proof.
  intros Hn Hk. cbv zeta. destruct (Nat.leb_spec (String.length (fmt_uint 10 n)) k) as [Hl|Hl].
  - rewrite str_length_app, zeros_length.
    replace (k - String.length (fmt_uint 10 n) + 1 + String.length (fmt_uint 10 n) - k)%nat with 1%nat by lia.
    replace (k - String.length (fmt_uint 10 n) + 1)%nat with (S (k - String.length (fmt_uint 10 n))) by lia.
    intros rest. cbn [zeros]. change (String "0" ?a +:+ ?b) with (String "0" (a +:+ b)). cbn [str_take].
    intros [= <-]. by eexists.
  - destruct (Z.eq_dec n 0) as [->|Hz]; [vm_compute in Hl; lia|].
    destruct (digits_head (S (Z.to_nat (Z.log2 n))) n EmptyString) as (c & rest & E & Hc).
    { split; [lia|]. by apply (log2_fuel 10). }
    change (fmt_uint 10 n = String c rest) in E. rewrite E in *.
    destruct (String.length (String c rest) - k)%nat eqn:El; [lia|]. cbn [str_take]. intros rest' [= -> _]. done.
Qed.


