(* ===== verification/WindowFetch.v ===== *)
(** * The trades of a window
    (internal/aggregate/orchestrator: orchestrator.go, window_coverage.go,
    window_metrics.go; internal/storage/timescale: trades.go, trade_sums_1m.go)

    How the aggregator reads the trades of a pair and a window: the capped
    read, the minute sums that stand in for what the cap cuts off, the
    stablecoin markets that are folded in, the filters by source, the dollar
    volume that a window must have, and the price of what is left.

    The store is a record of functions that may fail. [table_store] is the one
    of the program: its two queries over the rows of the trades table, read
    with parsed assets. Metrics and log lines are left out. *)

From S2P Require Import Prelude GoLib Float64 Amount Asset Trade RobustStat Window Proxy Outliers Sources.
From Stdlib Require Import Floats.SpecFloat Qminmax.

(** The text of a float with the fewest digits that read back as it, as a
    rational: [big.Rat.SetString] of [strconv.FormatFloat(f, 'g', -1, 64)],
    nothing for NaN and the infinities. *)
Class FloatText := { shortest_decimal : float64 -> option Q }.

(** ** The store *)

Record TradeMinuteSum := mkSum {
  ms_Source : string; ms_Bucket : Time; ms_BaseSum : Amount; ms_QuoteSum : Amount; ms_Count : Z; ms_MinPrice : Q; ms_MaxPrice : Q
}.

(** The second field is the optional interface [TradeSumsStore]. *)
Record Store := mkStore {
  TradesInRange : Pair -> Time -> Time -> Z -> option (list Trade);
  TradeSums1mInRange : option (Pair -> Time -> Time -> option (list TradeMinuteSum * Time))
}.

(** ** Configuration *)

Record FetchConfig := mkFetch {
  MaxTradesPerWindow : Z; EnableStablecoinFiatProxy : bool; USDPeggedClassicAssets : list Asset; USDPeggedSorobanAssets : list Asset;
  MinUSDVolume : float64; OutlierSigmaThreshold : float64; DisableClassFilter : bool; ExcludedSources : list string;
  cfgDecimals : option (string -> option Z); FXMaxAge : Duration
}.

Definition DefaultMaxTradesPerWindow : Z := 10000.
Definition closedBucket : Duration := Minute.

Definition amountScaleDecimalsFor (source : string) : Z := AmountScaleDecimals (Lookup source).

(** ** Rows that stand for several trades (window_metrics.go) *)

Abbreviation Weights := (gmap string Z).

Definition tradeWeight (t : Trade) (weights : Weights) : Z := default 1 (weights !! Trade_ID t).
Definition tradeCount (trades : list Trade) (weights : Weights) : Z :=
  if (size weights =? 0)%nat then Z.of_nat (length trades) else foldl (fun n t => wraps 64 (n + tradeWeight t weights)) 0 trades.

(** ** Filters *)

Definition dropUnpriceable (trades : list Trade) : list Trade :=
  List.filter (fun t => (0 <? Z.sgn (tb t)) && (0 <? Z.sgn (tq t))) trades.

Definition dropExcludedSources (trades : list Trade) (excluded : list string) : list Trade :=
  match excluded with
  | [] => trades
  | _ => List.filter (fun t => negb (existsb (String.eqb (tr_Source t)) excluded)) trades
  end.

Definition exchange_voice (source : string) : bool :=
  let md := Lookup source in bool_decide (md_Class md = ClassExchange) && md_IncludeInVWAP md.

Definition filterForVWAP (trades : list Trade) : list Trade := List.filter (fun t => exchange_voice (tr_Source t)) trades.

Definition votesInVWAP (cfg : FetchConfig) (source : string) : bool :=
  if existsb (fun s => String.eqb s source) (ExcludedSources cfg) then false
  else if DisableClassFilter cfg then true
  else exchange_voice source.

(** ** Minute sums (window_coverage.go) *)

Definition tradeSumsHorizon : Duration := 25 * Hour.
Definition minuteRawBudget : nat := 10.
Definition minuteSumTxPrefix : string := "sum1m:".

Record minuteRow := mkRow {
  mr_source : string; mr_bucket : Time; mr_base : Z; mr_quote : Z; mr_count : Z; mr_lo : Q; mr_hi : Q; mr_wide : bool
}.

(** The rows of one source and one second: the key is the source and the time
    in RFC 3339 text, which is to the second. *)
Definition same_row (r : minuteRow) (s : TradeMinuteSum) : bool :=
  String.eqb (mr_source r) (ms_Source s) && (time_Unix (mr_bucket r) =? time_Unix (ms_Bucket s)).

Definition fresh_row (s : TradeMinuteSum) : minuteRow := mkRow (ms_Source s) (ms_Bucket s) 0 0 0 (ms_MinPrice s) (ms_MaxPrice s) false.

Definition Qlt_b (a b : Q) : bool := negb (Qle_bool b a).

Definition merge_sum (r : minuteRow) (s : TradeMinuteSum) : minuteRow :=
  mkRow (mr_source r) (mr_bucket r) (mr_base r + Amount_BigInt (ms_BaseSum s)) (mr_quote r + Amount_BigInt (ms_QuoteSum s))
    (wraps 64 (mr_count r + ms_Count s))
    (if Qlt_b (ms_MinPrice s) (mr_lo r) then ms_MinPrice s else mr_lo r)
    (if Qlt_b (mr_hi r) (ms_MaxPrice s) then ms_MaxPrice s else mr_hi r) (mr_wide r).

Fixpoint add_sum (rows : list minuteRow) (s : TradeMinuteSum) : list minuteRow :=
  match rows with
  | [] => [merge_sum (fresh_row s) s]
  | r :: rows => if same_row r s then merge_sum r s :: rows else r :: add_sum rows s
  end.

Definition foldMinuteSums (sums : list TradeMinuteSum) : list minuteRow :=
  isort (fun a b => mr_bucket a <=? mr_bucket b) (foldl add_sum [] sums).

Definition minuteSpreadBand (cfg : FetchConfig) : option Q :=
  if f64_le (OutlierSigmaThreshold cfg) f64_zero then None
  else match SetFloat64 (OutlierSigmaThreshold cfg) with None => None | Some sigma => Some (sigma / (400 # 1))%Q end.

Definition spreadExceeds (lo hi band : Q) : bool := let r := (hi / lo)%Q in Qlt_b band (r * (r - 1))%Q.

Definition with_wide (r : minuteRow) (w : bool) : minuteRow :=
  mkRow (mr_source r) (mr_bucket r) (mr_base r) (mr_quote r) (mr_count r) (mr_lo r) (mr_hi r) w.

Section Fetch.
Context `{FloatText} (cfg : FetchConfig) (store : Store).

(** The minutes to read again, newest first: the start of the coverage and the
    trades read. *)
Fixpoint reread (fetch : Pair) (buckets : list Time) (i : nat) (extra : list Trade) : Time * list Trade :=
  match buckets with
  | [] => (zero_time, extra)
  | b :: buckets =>
      if (minuteRawBudget <=? i)%nat then (time_Add b Minute, extra)
      else match TradesInRange store fetch b (time_Add b Minute) (MaxTradesPerWindow cfg) with
           | None => (time_Add b Minute, extra)
           | Some t => if MaxTradesPerWindow cfg <=? Z.of_nat (length t) then (time_Add b Minute, extra) else reread fetch buckets (S i) (extra ++ t)
           end
  end.

Definition wide_minutes (band : Q) (rows : list minuteRow) : gset Time :=
  list_to_set (map mr_bucket (List.filter (fun r => votesInVWAP cfg (mr_source r) && spreadExceeds (mr_lo r) (mr_hi r) band) rows)).

(** The rows with their marks, the start of the coverage, the trades read. *)
Definition resolveWideMinutes (fetch : Pair) (rows : list minuteRow) : list minuteRow * Time * list Trade :=
  match minuteSpreadBand cfg with
  | None => (rows, zero_time, [])
  | Some band =>
      let wide := wide_minutes band rows in
      let rows := map (fun r => with_wide r (bool_decide (mr_bucket r ∈ wide))) rows in
      let '(cut, extra) := reread fetch (isort (fun a b => b <=? a) (elements wide)) 0 [] in
      (rows, cut, extra)
  end.

Definition minute_trade (fetch : Pair) (r : minuteRow) : Trade :=
  mkTrade (mr_source r) 0 (minuteSumTxPrefix +:+ Pair_String fetch) 0 (mr_bucket r) fetch (NewAmount (Some (mr_base r))) (NewAmount (Some (mr_quote r))) "" "" "".

(** The rows of the result before the sort. *)
Definition filled_rows (fetch : Pair) (rows : list minuteRow) (cut : Time) : list minuteRow :=
  List.filter (fun r => negb (time_Before (mr_bucket r) cut || mr_wide r)) rows.

Definition fillFromMinuteSums (fetch : Pair) (from to : Time) (raw : list Trade) (coveredFrom : Time)
    : option (list Trade * Weights * Time) :=
  match TradeSums1mInRange store with
  | None => None
  | Some sumsInRange =>
      if (tradeSumsHorizon <? time_Sub to from) || negb (time_Equal from (time_Truncate from Minute)) then None
      else
        let m := time_Add (time_Truncate coveredFrom Minute) Minute in
        if time_After m to then None
        else match sumsInRange fetch from m with
             | None => None
             | Some (sums, watermark) =>
                 if time_Before watermark m then None
                 else
                   let '(rows, cut, extra) := resolveWideMinutes fetch (foldMinuteSums sums) in
                   let kept := filled_rows fetch rows cut in
                   let weights := foldl (fun w r => <[Trade_ID (minute_trade fetch r) := mr_count r]> w) ∅ kept in
                   let trades := map (minute_trade fetch) kept ++ List.filter (fun t => negb (time_Before (tr_Timestamp t) cut)) extra
                                 ++ List.filter (fun t => negb (time_Before (tr_Timestamp t) m)) raw in
                   Some (isort (fun a b => tr_Timestamp a <=? tr_Timestamp b) trades, weights, cut)
             end
  end.

(** The oldest of a read. *)
Definition oldest (t0 : Trade) (l : list Trade) : Time :=
  foldl (fun c t => if time_Before (tr_Timestamp t) c then tr_Timestamp t else c) (tr_Timestamp t0) (t0 :: l).

Definition fetchTradesDetectTruncation (fetch : Pair) (from to : Time) : option (list Trade * Weights * Time) :=
  match TradesInRange store fetch from to (MaxTradesPerWindow cfg) with
  | None => None
  | Some [] => Some ([], ∅, zero_time)
  | Some (t0 :: l) =>
      if Z.of_nat (length (t0 :: l)) <? MaxTradesPerWindow cfg then Some (t0 :: l, ∅, zero_time)
      else
        let coveredFrom := oldest t0 l in
        Some (default (t0 :: l, ∅, coveredFrom) (fillFromMinuteSums fetch from to (t0 :: l) coveredFrom))
  end.

(** ** Coverage *)

Record WindowCoverage := mkCoverage { Truncated : bool; CoveredFrom : Time }.
Definition whole_window : WindowCoverage := mkCoverage false zero_time.

Definition widenCoverage (c : WindowCoverage) (coveredFrom : Time) : WindowCoverage :=
  if time_IsZero coveredFrom then c
  else if negb (Truncated c) || time_After coveredFrom (CoveredFrom c) then mkCoverage true coveredFrom
  else c.

(** ** Dollar values *)

Definition isUSDPeggedClassic (asset : Asset) (pegs : list Asset) : bool :=
  existsb (fun p => bool_decide (Type_ p = AssetClassic) && (String.eqb (Code p) (Code asset) && String.eqb (Issuer p) (Issuer asset))) pegs.
Definition isUSDPeggedSoroban (asset : Asset) (pegs : list Asset) : bool :=
  existsb (fun p => bool_decide (Type_ p = AssetSoroban) && String.eqb (ContractID p) (ContractID asset)) pegs.

Definition is_usd_fiat (quote : Asset) : bool := bool_decide (Type_ quote = AssetFiat) && String.eqb (Code quote) "USD".

Definition usdQuoteDecimals (quote : Asset) (classicUSDPegs sorobanUSDPegs : list Asset) : option Z :=
  if is_usd_fiat quote then Some 8
  else if IsFiatProxyFor quote "USD" then Some 8
  else if bool_decide (Type_ quote = AssetClassic) && isUSDPeggedClassic quote classicUSDPegs then Some 7
  else if bool_decide (Type_ quote = AssetSoroban) && isUSDPeggedSoroban quote sorobanUSDPegs then Some 7
  else None.

Definition usdQuoteDecimalsForTrade (quote : Asset) (source : string) (classicUSDPegs sorobanUSDPegs : list Asset) : option Z :=
  if is_usd_fiat quote || IsFiatProxyFor quote "USD" then Some (amountScaleDecimalsFor source)
  else usdQuoteDecimals quote classicUSDPegs sorobanUSDPegs.

Abbreviation USDValues := (gmap string Q).

Definition usd_value (quote : Asset) (t : Trade) (classicUSDPegs sorobanUSDPegs : list Asset) : option Q :=
  if Z.sgn (tq t) =? 0 then None
  else match usdQuoteDecimalsForTrade quote (tr_Source t) classicUSDPegs sorobanUSDPegs with
       | None => None
       | Some decimals => Some (SetFrac (tq t) (big_Exp 10 decimals))
       end.

(** By the identity of the trade; a nil map is empty. *)
Definition usdVolumeForPairPerTrade (pair : Pair) (batch : list Trade) (classicUSDPegs sorobanUSDPegs : list Asset) : USDValues :=
  match usdQuoteDecimals (Quote pair) classicUSDPegs sorobanUSDPegs with
  | None => ∅
  | Some _ => foldl (fun m t => match usd_value (Quote pair) t classicUSDPegs sorobanUSDPegs with
                                | Some v => <[Trade_ID t := v]> m
                                | None => m
                                end) ∅ batch
  end.

Definition survivorUSDVolume (trades : list Trade) (tradeUSD : USDValues) : Q :=
  foldl (fun sum t => match tradeUSD !! Trade_ID t with Some v => sum + v | None => sum end)%Q 0%Q trades.

(** ** The trades of a target *)

Record Fetched := mkFetched { f_trades : list Trade; f_usd : USDValues; f_proxied : gset string; f_weights : Weights; f_coverage : WindowCoverage }.

Definition with_pair (target : Pair) (t : Trade) : Trade :=
  mkTrade (tr_Source t) (tr_Ledger t) (tr_TxHash t) (tr_OpIndex t) (tr_Timestamp t) target (tr_BaseAmount t) (tr_QuoteAmount t) (tr_Maker t) (tr_Taker t) (tr_RoutedVia t).

(** One source pair: the merge so far, and how many reads failed. *)
Definition merge_source (target : Pair) (from to : Time) (st : Fetched * nat) (src : Pair) : Fetched * nat :=
  let '(f, failed) := st in
  match fetchTradesDetectTruncation src from to with
  | None => (f, S failed)
  | Some (batch, w, coveredFrom) =>
      let usd := usdVolumeForPairPerTrade src batch (USDPeggedClassicAssets cfg) (USDPeggedSorobanAssets cfg) in
      let own := Pair_Equal src target in
      let batch' := if own then batch else map (with_pair target) batch in
      (mkFetched (f_trades f ++ batch') (usd ∪ f_usd f) (if own then f_proxied f else f_proxied f ∪ list_to_set (map Trade_ID batch'))
         (w ∪ f_weights f) (widenCoverage (f_coverage f) coveredFrom), failed)
  end.

(** [None] is an error of the read or of the expansion. *)
Definition fetchForTarget `{Strkey} (target : Pair) (from to : Time) : option Fetched :=
  if negb (EnableStablecoinFiatProxy cfg) then
    match fetchTradesDetectTruncation target from to with
    | None => None
    | Some (t, w, coveredFrom) =>
        Some (mkFetched t (usdVolumeForPairPerTrade target t (USDPeggedClassicAssets cfg) (USDPeggedSorobanAssets cfg)) ∅ w (widenCoverage whole_window coveredFrom))
    end
  else match ExpandTargetPairWithClassicPegs target (USDPeggedClassicAssets cfg) with
       | Err _ => None
       | Ok sources =>
           let '(f, failed) := foldl (merge_source target from to) (mkFetched [] ∅ ∅ ∅ whole_window, 0%nat) sources in
           if (failed =? length sources)%nat then None else Some f
       end.

(** ** The volume floor *)

Definition minUSDVolumeRat (floor : float64) : option Q := shortest_decimal floor.

(** [strings.Split] at a byte. *)
Fixpoint split_at (c : ascii) (s cur : string) : list string :=
  match s with
  | EmptyString => [cur]
  | String x s => if Ascii.eqb x c then cur :: split_at c s "" else split_at c s (cur +:+ String x "")
  end.
Definition strings_Split (s : string) (c : ascii) : list string := split_at c s "".

(** True when the rate may not be used. *)
Definition fxSnapRejection (now observedAt : Time) (source : string) (maxAge : Duration) : bool :=
  time_IsZero observedAt || (maxAge <? time_Sub now observedAt) || existsb (fun p => negb (IsFXSource p)) (strings_Split source "+"%char).

(** The store of exchange rates: no rate, a failure, or a rate with the time
    it was observed and its source. A nil store is [None]. *)
Inductive fx_answer := FXMissing | FXFailed | FXQuote (rate : option Q) (observedAt : Time) (source : string).
Abbreviation FXStore := (option (Pair -> Time -> fx_answer)).

(** The quote volume of the trades at the scale of each source. *)
Definition fiat_volume (trades : list Trade) : Q :=
  foldl (fun sum t => if Z.sgn (tq t) =? 0 then sum else (sum + SetFrac (tq t) (big_Exp 10 (amountScaleDecimalsFor (tr_Source t))))%Q) 0%Q trades.

(** The age limit of a rate, with its default. *)
Definition DefaultCompositeReferenceFXMaxAge : Duration := 76 * Hour.
Definition fx_max_age : Duration := if FXMaxAge cfg <=? 0 then DefaultCompositeReferenceFXMaxAge else FXMaxAge cfg.

(** [None] when there is no rate to value the window with. *)
Definition fiatWindowUSDVolume `{Strkey} (fx : FXStore) (quote : Asset) (trades : list Trade) (now : Time) : option Q :=
  match fx with
  | None => None
  | Some fxQuoteAtOrBefore =>
      match NewFiatAsset "USD" with
      | Err _ => None
      | Ok usd =>
          match NewPair quote usd with
          | Err _ => None
          | Ok leg =>
              match fxQuoteAtOrBefore leg now with
              | FXMissing | FXFailed => None
              | FXQuote None _ _ => None
              | FXQuote (Some rate) observedAt source =>
                  if Qle_bool rate 0 then None
                  else if fxSnapRejection now observedAt source fx_max_age then None
                  else Some (fiat_volume trades * rate)%Q
              end
          end
      end
  end.

(** True when the window is withheld. *)
Definition dropForMinUSDVolume `{Strkey} (fx : FXStore) (pair : Pair) (trades : list Trade) (usdVolume : Q) (now : Time) : bool :=
  if f64_le (MinUSDVolume cfg) f64_zero then false
  else
    let below v := match minUSDVolumeRat (MinUSDVolume cfg) with Some floor => negb (Qle_bool floor v) | None => true end in
    match usdQuoteDecimals (Quote pair) (USDPeggedClassicAssets cfg) (USDPeggedSorobanAssets cfg) with
    | Some _ => below usdVolume
    | None =>
        match Type_ (Quote pair) with
        | AssetClassic | AssetSoroban => true
        | AssetFiat => match fiatWindowUSDVolume fx (Quote pair) trades now with None => true | Some v => below v end
        | _ => false
        end
    end.

(** ** The price *)

Definition computeNormalizedVWAP (trades : list Trade) (pair : Pair) : res agg_error Q :=
  vwap ← VWAP (NormalizeAmountScale trades amountScaleDecimalsFor);
  Ok (default vwap (AdjustPrice (Some vwap) (ResolveDecimals (cfgDecimals cfg) (Base pair)) (ResolveDecimals (cfgDecimals cfg) (Quote pair)))).

Definition distinctSourceCount (trades : list Trade) : Z := Z.of_nat (size (list_to_set (map tr_Source trades) : gset string)).
End Fetch.

(** ** The queries (trades.go, trade_sums_1m.go) *)

Section Table.
(** The rows of the table; the moment up to which the view of minute sums is
    materialised, lowered to its first invalidated minute; reads that fail. *)
Context (table : list Trade) (watermark : Time) (fails : Pair -> Time -> Time -> bool).

Definition nonVWAPSources : list string := map fst (List.filter (fun r => negb (md_IncludeInVWAP r.2)) Registry).

Definition MaxTradesInRangeLimit : Z := 10000.

(** The rows of one stored direction in a range, without the sources that are
    not fills. *)
Definition rows_of (p : Pair) (from to : Time) : list Trade :=
  List.filter (fun t => Pair_Equal (tr_Pair t) p && (negb (time_Before (tr_Timestamp t) from) && time_Before (tr_Timestamp t) to)
                        && negb (existsb (String.eqb (tr_Source t)) nonVWAPSources)) table.

(** [ORDER BY ts DESC, ... LIMIT n] *)
Definition newest (n : nat) (l : list Trade) : list Trade := take n (isort (fun a b => trade_leb b a) l).

Definition orientTradeTo (want : Pair) (t : Trade) : Trade :=
  if negb (Pair_Equal (tr_Pair t) (Pair_Flip want)) then t
  else mkTrade (tr_Source t) (tr_Ledger t) (tr_TxHash t) (tr_OpIndex t) (tr_Timestamp t) want (tr_QuoteAmount t) (tr_BaseAmount t) (tr_Maker t) (tr_Taker t) (tr_RoutedVia t).

Definition table_TradesInRange (p : Pair) (from to : Time) (limit : Z) : option (list Trade) :=
  let limit := if limit <=? 0 then 1000 else limit in
  let limit := if MaxTradesInRangeLimit <? limit then MaxTradesInRangeLimit else limit in
  if time_Before to from || fails p from to then None
  else
    let n := Z.to_nat limit in
    Some (rev (map (orientTradeTo p) (newest n (newest n (rows_of p from to) ++ newest n (rows_of (Pair_Flip p) from to))))).

(** A row of the view in one stored direction: the fills of one source and one
    minute. The bounds of the prices are exact here; the view keeps them as
    NUMERIC quotients, and a row whose bound does not read back as a positive
    number is a failed read. *)
Definition minute_of (t : Trade) : Time := time_Truncate (tr_Timestamp t) Minute.
Definition sum_of (p : Pair) (k : string * Time) : TradeMinuteSum :=
  let l := List.filter (fun t => Pair_Equal (tr_Pair t) p && String.eqb (tr_Source t) k.1 && (minute_of t =? k.2) && priceable t) table in
  mkSum k.1 k.2 (NewAmount (Some (zsum (map tb l)))) (NewAmount (Some (zsum (map tq l)))) (Z.of_nat (length l))
    (foldr (fun t m => Qmin (trade_price t) m) (default 0%Q (head (map trade_price l))) l)
    (foldr (fun t m => Qmax (trade_price t) m) (default 0%Q (head (map trade_price l))) l).

(** The groups of the view that a range selects, oldest first. *)
Definition sum_keys (p : Pair) (from to : Time) : list (string * Time) :=
  remove_dups (map (fun t => (tr_Source t, minute_of t))
    (List.filter (fun t => Pair_Equal (tr_Pair t) p && priceable t && (negb (time_Before (minute_of t) from) && time_Before (minute_of t) to)
                           && time_Before (minute_of t) watermark && negb (existsb (String.eqb (tr_Source t)) nonVWAPSources)) table)).

Definition flip_sum (s : TradeMinuteSum) : TradeMinuteSum :=
  mkSum (ms_Source s) (ms_Bucket s) (ms_QuoteSum s) (ms_BaseSum s) (ms_Count s) (/ ms_MaxPrice s)%Q (/ ms_MinPrice s)%Q.

Definition table_TradeSums1mInRange (p : Pair) (from to : Time) : option (list TradeMinuteSum * Time) :=
  if fails p from to then None
  else Some (isort (fun a b => if ms_Bucket a =? ms_Bucket b then str_leb (ms_Source a) (ms_Source b) else ms_Bucket a <? ms_Bucket b)
               (map (sum_of p) (sum_keys p from to) ++ map (fun k => flip_sum (sum_of (Pair_Flip p) k)) (sum_keys (Pair_Flip p) from to)), watermark).

Definition table_store : Store := mkStore table_TradesInRange (Some table_TradeSums1mInRange).
End Table.
