(* ===== verification/WindowFill.v ===== *)
(** * What a window's rows are worth

    A window with more trades than one read returns is completed with minute
    sums. The result below says that nothing is lost by it: for every source
    the rows of the window have the volumes of its trades, so the price is the
    one of the complete list; and a window that is reported as cut holds
    everything after the moment it names. *)

From S2P Require Import Prelude GoLib Float64 Amount Asset Trade RobustStat Window Proxy Outliers Sources WindowFetch.

(** ** Sums over the elements that pass a test *)

Section Volume.
Context {A : Type}.
Implicit Types (f : A -> Z) (g h : A -> bool) (l : list A).

Definition volume f g l : Z := zsum (map f (List.filter g l)).

Lemma volume_nil f g : volume f g [] = 0.
Proof. done. Qed.

Lemma volume_cons f g x l : volume f g (x :: l) = (if g x then f x else 0) + volume f g l.
Proof. unfold volume. cbn [List.filter]. by destruct (g x). Qed.

Lemma volume_app f g l l' : volume f g (l ++ l') = volume f g l + volume f g l'.
Proof. induction l as [|x l IH]; [done|]. cbn [app]. rewrite !volume_cons, IH. lia. Qed.

Lemma volume_perm f g l l' : l ≡ₚ l' -> volume f g l = volume f g l'.
Proof. induction 1; rewrite ?volume_cons; lia. Qed.

Lemma volume_ext f f' g g' l : (forall x, x ∈ l -> g x = g' x /\ (g x = true -> f x = f' x)) -> volume f g l = volume f' g' l.
Proof.
  induction l as [|x l IH]; intros HE; [done|]. rewrite !volume_cons, IH by (intros y Hy; apply HE; by right).
  destruct (HE x) as [<- Hf]; [by left|]. destruct (g x); [by rewrite Hf|done].
Qed.

Lemma volume_filter f g h l : volume f g (List.filter h l) = volume f (fun x => h x && g x) l.
Proof. induction l as [|x l IH]; [done|]. cbn [List.filter]. rewrite volume_cons. destruct (h x); rewrite ?volume_cons, IH; done. Qed.

Lemma volume_split f g h l : volume f g l = volume f (fun x => g x && h x) l + volume f (fun x => g x && negb (h x)) l.
Proof. induction l as [|x l IH]; [done|]. rewrite !volume_cons, IH. destruct (g x), (h x); cbn; lia. Qed.

Lemma volume_none f g l : (forall x, x ∈ l -> g x = false) -> volume f g l = 0.
Proof. induction l as [|x l IH]; intros HN; [done|]. rewrite volume_cons, (HN x) by (by left). apply IH. intros y Hy. apply HN. by right. Qed.

Lemma volume_nonneg f g l : (forall x, x ∈ l -> g x = true -> 0 <= f x) -> 0 <= volume f g l.
Proof.
  induction l as [|x l IH]; intros HN; [done|]. rewrite volume_cons. assert (0 <= volume f g l) by (apply IH; intros y Hy; apply HN; by right).
  destruct (g x) eqn:E; [|done]. pose proof (HN x ltac:(by left) E). lia.
Qed.

Lemma volume_mono f g h l : (forall x, x ∈ l -> h x = true -> 0 <= f x) -> (forall x, x ∈ l -> g x = true -> h x = true) -> volume f g l <= volume f h l.
Proof.
  induction l as [|x l IH]; intros HN HI; [done|]. rewrite !volume_cons.
  assert (volume f g l <= volume f h l) by (apply IH; intros y Hy; [apply HN|apply HI]; by right).
  specialize (HN x ltac:(by left)). specialize (HI x ltac:(by left)). destruct (g x); [rewrite HI by done; lia|]. destruct (h x); [specialize (HN eq_refl); lia|lia].
Qed.

Lemma volume_keyed f g l : volume f g l = zsum (map (fun x => if g x then f x else 0) l).
Proof. induction l as [|x l IH]; [done|]. rewrite volume_cons, IH. done. Qed.

(** Group by group. *)
Lemma volume_groups {K} `{EqDecision K} f g (key : A -> K) (keys : list K) l : NoDup keys -> (forall x, x ∈ l -> g x = true -> key x ∈ keys) ->
  zsum (map (fun k => volume f (fun x => g x && bool_decide (key x = k)) l) keys) = volume f g l.
Proof.
  revert g. induction keys as [|k keys IH]; intros g Hnd HK; cbn [map zsum].
  - symmetry. apply volume_none. intros x Hx. destruct (g x) eqn:E; [|done]. by apply (HK x Hx), elem_of_nil in E.
  - apply NoDup_cons in Hnd as [Hk Hnd]. rewrite (volume_split f g (fun x => bool_decide (key x = k)) l).
    change (zsum (?x :: ?r)) with (x + zsum r). f_equal. rewrite <- (IH (fun x => g x && negb (bool_decide (key x = k)))); [|done|].
    + f_equal. apply map_ext_in. intros k' Hk'%list_elem_of_In. apply volume_ext. intros x _. split; [|done].
      destruct (decide (key x = k)) as [->|]; [rewrite (bool_decide_true (k = k)) by done; rewrite (bool_decide_false (k = k')) by congruence|rewrite (bool_decide_false (key x = k)) by done];
        destruct (g x); done.
    + intros x Hx Hg. apply andb_prop in Hg as [Hg Hn]. apply negb_true_iff, bool_decide_eq_false in Hn. by destruct (proj1 (elem_of_cons _ _ _) (HK x Hx Hg)).
Qed.
End Volume.

Lemma volume_map {A B} (h : B -> A) (f : A -> Z) (g : A -> bool) (l : list B) : volume f g (map h l) = volume (fun x => f (h x)) (fun x => g (h x)) l.
Proof. induction l as [|x l IH]; [done|]. cbn [map]. by rewrite !volume_cons, IH. Qed.

(** ** The capped read *)

Definition later (a b : Trade) : bool := trade_leb b a.

Lemma later_total x y : later x y = true \/ later y x = true.
Proof. unfold later. destruct (trade_leb_total x y); tauto. Qed.
Lemma later_trans x y z : later x y = true -> later y z = true -> later x z = true.
Proof. unfold later. intros. by eapply trade_leb_trans. Qed.

Lemma trade_leb_ts a b : trade_leb a b = true -> tr_Timestamp a <= tr_Timestamp b.
Proof. unfold trade_leb, TradeOrderLess, time_Equal, time_Before. rewrite negb_true_iff. destruct (Z.eqb_spec (tr_Timestamp b) (tr_Timestamp a)); cbn [negb]; [lia|]. intros ?%Z.ltb_ge. lia. Qed.

Lemma sorted_take_drop n (l : list Trade) : StronglySorted (fun a b => later a b = true) l ->
  forall x y, x ∈ take n l -> y ∈ drop n l -> later x y = true.
Proof.
  revert n. induction l as [|a l IH]; intros n HS x y Hx Hy; [by rewrite take_nil in Hx; apply elem_of_nil in Hx|].
  destruct n as [|n]; [by apply elem_of_nil in Hx|]. apply StronglySorted_inv in HS as [HS HF]. cbn [take drop] in Hx, Hy.
  apply elem_of_cons in Hx as [->|Hx]; [|by eapply IH]. eapply Forall_forall in HF; [done|]. rewrite <- (take_drop n l). apply elem_of_app. by right.
Qed.

(** The newest of a list, and the rest of it. *)
Record splits (n : nat) (l kept rest : list Trade) : Prop := {
  sp_all : l ≡ₚ kept ++ rest;
  sp_order : forall x y, x ∈ kept -> y ∈ rest -> later x y = true;
  sp_len : (length kept <= n)%nat;
  sp_whole : (length kept < n)%nat -> rest = []
}.

Lemma newest_splits n l : exists rest, splits n l (newest n l) rest.
Proof.
  unfold newest. set (s := isort (fun a b => trade_leb b a) l). assert (l ≡ₚ s) as Hp by (symmetry; apply isort_perm).
  exists (drop n s). split.
  - by rewrite take_drop.
  - apply sorted_take_drop. apply isort_sorted; [apply later_total|apply later_trans].
  - rewrite length_take. lia.
  - rewrite length_take. intros Hn. apply drop_ge. lia.
Qed.

(** The newest of two lists of newest are the newest of both. *)
Lemma newest_union n l l' : exists rest, splits n (l ++ l') (newest n (newest n l ++ newest n l')) rest.
Proof.
  destruct (newest_splits n l) as [r [H1 H2 H3 H4]], (newest_splits n l') as [r' [H1' H2' H3' H4']].
  set (a := newest n l) in *. set (a' := newest n l') in *. destruct (newest_splits n (a ++ a')) as [u [U1 U2 U3 U4]]. set (k := newest n (a ++ a')) in *.
  assert (forall b c rb, (forall x y, x ∈ b -> y ∈ rb -> later x y = true) -> ((length b < n)%nat -> rb = []) -> b ++ c ≡ₚ k ++ u ->
    forall x y, x ∈ k -> y ∈ rb -> later x y = true) as HK.
  { intros b c rb Hb Hbn HP x y Hx Hy. destruct (later x y) eqn:E; [done|exfalso].
    assert (later y x = true) as Hyx by (destruct (later_total x y); [congruence|done]).
    assert (forall z, z ∈ b -> later x z = false) as Hz.
    { intros z Hz. destruct (later x z) eqn:Exz; [|done]. rewrite (later_trans x z y Exz (Hb z y Hz Hy)) in E. done. }
    assert (length b >= n)%nat as Hlb by (destruct (le_lt_dec n (length b)) as [|Hl]; [lia|]; rewrite (Hbn Hl) in Hy; by apply elem_of_nil in Hy).
    set (g := fun z => negb (later x z)). assert (volume (fun _ => 1) g (b ++ c) = volume (fun _ => 1) g (k ++ u)) as HV by (by apply volume_perm).
    rewrite !volume_app in HV.
    assert (volume (fun _ => 1) g u = 0) as Hu by (apply volume_none; intros z Hzu; unfold g; by rewrite (U2 x z Hx Hzu)).
    assert (volume (fun _ => 1) g b = Z.of_nat (length b)) as Hvb.
    { clear -Hz. induction b as [|z b IH]; [done|]. rewrite volume_cons, IH by (intros w Hw; apply Hz; by right). unfold g at 1. rewrite Hz by (by left). cbn. lia. }
    assert (volume (fun _ => 1) g k <= Z.of_nat (length k) - 1) as Hvk.
    { apply list_elem_of_split in Hx as (k1 & k2 & ->). rewrite volume_app, volume_cons. unfold g at 2. assert (later x x = true) as -> by (destruct (later_total x x); done). cbn [negb].
      assert (forall q, volume (fun _ => 1) g q <= Z.of_nat (length q)) as Hq by (clear; intros q; induction q as [|z q IH]; [done|]; rewrite volume_cons; cbn [length]; destruct (g z); lia).
      pose proof (Hq k1). pose proof (Hq k2). rewrite length_app. cbn [length]. lia. }
    assert (0 <= volume (fun _ => 1) g c) by (apply volume_nonneg; lia). lia. }
  exists (u ++ r ++ r'). split.
  - rewrite H1, H1'. rewrite (Permutation_app_swap_app (a ++ r)), <- app_assoc, (app_assoc a' a). rewrite (Permutation_app_comm a' a), U1. solve_Permutation.
  - intros x y Hx [Hy|[Hy|Hy]%elem_of_app]%elem_of_app; [by apply U2| |].
    + by apply (HK a a' r).
    + apply (HK a' a r'); try done. by rewrite Permutation_app_comm.
  - done.
  - intros Hn. rewrite (U4 Hn) in *. rewrite app_nil_r in U1. apply Permutation_length in U1. rewrite length_app in U1. by rewrite H4, H4' by lia.
Qed.

(** ** Minutes *)

Lemma truncate_minute t : time_Truncate t Minute = Minute * (t / Minute).
Proof.
  unfold time_Truncate. change (Minute <=? 0) with false. cbv iota. change zero_time with (- (1035593280 * Minute)).
  replace (t - - (1035593280 * Minute)) with (t + 1035593280 * Minute) by lia. rewrite Z_mod_plus_full. pose proof (Z.div_mod t Minute ltac:(done)). lia.
Qed.

Definition aligned (t : Time) : Prop := t = Minute * (t / Minute).

Lemma minute_range t a b : aligned a -> aligned b -> (a <= time_Truncate t Minute < b <-> a <= t < b).
Proof. intros Ha Hb. rewrite truncate_minute, Ha, Hb. pose proof (Z.mul_div_le t Minute ltac:(done)). pose proof (Z.mul_succ_div_gt t Minute ltac:(done)). unfold Minute, Second in *. lia. Qed.

Lemma truncate_aligned t : aligned (time_Truncate t Minute).
Proof. unfold aligned. rewrite truncate_minute, (Z.mul_comm Minute (t / Minute)), Z.div_mul by done. lia. Qed.

Lemma aligned_next b : aligned b -> aligned (b + Minute).
Proof. unfold aligned. change Minute with 60000000000. Z.to_euclidean_division_equations. lia. Qed.

(** ** The trades a window has *)

Section Rows.
Context (table : list Trade) (watermark : Time) (fails : Pair -> Time -> Time -> bool) (p : Pair).

(** In the orientation of the pair. *)
Definition window_trades (from to : Time) : list Trade :=
  map (orientTradeTo p) (rows_of table p from to ++ rows_of table (Pair_Flip p) from to).

Lemma orient_same t : tr_Source (orientTradeTo p t) = tr_Source t /\ tr_Timestamp (orientTradeTo p t) = tr_Timestamp t /\ priceable (orientTradeTo p t) = priceable t.
Proof. unfold orientTradeTo. destruct (negb _); [done|]. split_and!; try done. unfold priceable, tb, tq. cbn. apply andb_comm. Qed.

Lemma read_splits from to cap l : 0 < cap <= MaxTradesInRangeLimit -> table_TradesInRange table fails p from to cap = Some l ->
  from <= to /\ exists rest, window_trades from to ≡ₚ l ++ rest /\ (forall x y, x ∈ l -> y ∈ rest -> tr_Timestamp y <= tr_Timestamp x) /\ (Z.of_nat (length l) < cap -> rest = []).
Proof.
  intros Hcap. unfold table_TradesInRange. rewrite (proj2 (Z.leb_gt cap 0)), (proj2 (Z.ltb_ge _ cap)) by lia.
  destruct (time_Before to from || fails p from to) eqn:E; [done|]. apply orb_false_iff in E as [E _]. unfold time_Before in E. bprop. intros [= <-]. split; [lia|].
  destruct (newest_union (Z.to_nat cap) (rows_of table p from to) (rows_of table (Pair_Flip p) from to)) as [rest [H1 H2 H3 H4]].
  exists (map (orientTradeTo p) rest). split; [|split].
  - unfold window_trades. rewrite H1, map_app, <- Permutation_rev. done.
  - intros x y Hx Hy. rewrite <- Permutation_rev in Hx. apply list_elem_of_fmap in Hx as (x' & -> & Hx), Hy as (y' & -> & Hy).
    destruct (orient_same x') as (_ & -> & _), (orient_same y') as (_ & -> & _). by apply trade_leb_ts, H2.
  - rewrite length_rev, length_map. intros Hl. rewrite H4 by lia. done.
Qed.

(** A window within a window. *)
Definition within (a b : Time) (t : Trade) : bool := (a <=? tr_Timestamp t) && (tr_Timestamp t <? b).

Lemma window_within from to a b : from <= a -> b <= to -> List.filter (within a b) (window_trades from to) = window_trades a b.
Proof.
  intros Ha Hb. unfold window_trades. assert (forall l, List.filter (within a b) (map (orientTradeTo p) l) = map (orientTradeTo p) (List.filter (within a b) l)) as HM.
  { intros l. induction l as [|t l IH]; [done|]. cbn [map List.filter]. assert (within a b (orientTradeTo p t) = within a b t) as -> by (unfold within; by destruct (orient_same t) as (_ & -> & _)). destruct (within a b t); cbn [map]; by rewrite IH. }
  rewrite HM, List.filter_app. unfold rows_of. f_equal. f_equal; rewrite filter_filter_andb; apply List.filter_ext; intros t; unfold time_Before, within;
    destruct (Pair_Equal _ _), (existsb _ _), (Z.ltb_spec (tr_Timestamp t) from), (Z.ltb_spec (tr_Timestamp t) to), (Z.ltb_spec (tr_Timestamp t) b), (Z.leb_spec a (tr_Timestamp t));
    destruct (Z.ltb_spec (tr_Timestamp t) a); cbn; try done; lia.
Qed.

Lemma window_times from to t : t ∈ window_trades from to -> from <= tr_Timestamp t < to.
Proof.
  unfold window_trades. intros (u & -> & Hu)%list_elem_of_fmap. destruct (orient_same u) as (_ & -> & _). rewrite elem_of_app in Hu. unfold rows_of in Hu.
  destruct Hu as [Hu|Hu]; apply elem_of_List_filter in Hu as [Hu _]; rewrite !andb_true_iff, negb_true_iff in Hu; destruct Hu as [[_ [H1 H2]] _]; unfold time_Before in H1, H2; bprop; lia.
Qed.

(** *** The view of minute sums *)

Definition row_key (t : Trade) : string * Time := (tr_Source t, minute_of t).

(** One stored direction. *)
Lemma direction_volume (d : Pair) from m f (P : string * Time -> bool) : aligned from -> aligned m -> m <= watermark ->
  zsum (map (fun k => if P k then zsum (map f (List.filter (fun t => Pair_Equal (tr_Pair t) d && String.eqb (tr_Source t) k.1 && (minute_of t =? k.2) && priceable t) table)) else 0)
         (sum_keys table watermark d from m))
  = volume f (fun t => priceable t && P (row_key t)) (rows_of table d from m).
Proof.
  intros Hf Hm Hw. unfold rows_of. rewrite volume_filter.
  set (inrange := fun k : string * Time => negb (time_Before k.2 from) && time_Before k.2 m && time_Before k.2 watermark && negb (existsb (String.eqb k.1) nonVWAPSources)).
  rewrite (volume_ext f f _ (fun t => (Pair_Equal (tr_Pair t) d && priceable t && inrange (row_key t)) && P (row_key t))).
  2:{ intros t _. split; [|done]. unfold inrange, row_key, time_Before, minute_of. cbn [fst snd]. pose proof (minute_range (tr_Timestamp t) from m Hf Hm) as HR.
      destruct (Pair_Equal _ _), (priceable t), (P _), (existsb _ _), (Z.ltb_spec (tr_Timestamp t) from), (Z.ltb_spec (tr_Timestamp t) m),
        (Z.ltb_spec (time_Truncate (tr_Timestamp t) Minute) from), (Z.ltb_spec (time_Truncate (tr_Timestamp t) Minute) m), (Z.ltb_spec (time_Truncate (tr_Timestamp t) Minute) watermark); cbn; try done; lia. }
  rewrite <- (volume_groups f _ row_key (sum_keys table watermark d from m) table).
  - f_equal. apply map_ext_in. intros k Hk%list_elem_of_In. unfold sum_keys in Hk. rewrite elem_of_remove_dups in Hk. apply list_elem_of_fmap in Hk as (t0 & -> & Ht0).
    apply elem_of_List_filter in Ht0 as [Hq _].
    assert (inrange (row_key t0) = true) as Hin.
    { unfold inrange, row_key. cbn [fst snd]. rewrite !andb_true_iff in Hq. rewrite !andb_true_iff. tauto. }
    change (tr_Source t0, minute_of t0) with (row_key t0). destruct (P (row_key t0)) eqn:EP.
    + apply volume_ext. intros t _. split; [|done]. change (row_key t0).1 with (tr_Source t0). change (row_key t0).2 with (minute_of t0). destruct (String.eqb_spec (tr_Source t) (tr_Source t0)) as [Es|Hs].
      * destruct (Z.eqb_spec (minute_of t) (minute_of t0)) as [Em|Hne].
        -- assert (row_key t = row_key t0) as -> by (unfold row_key; congruence). rewrite bool_decide_true by done. rewrite EP, Hin, !andb_true_r. done.
        -- rewrite (bool_decide_false (row_key t = row_key t0)) by (unfold row_key; congruence). rewrite !andb_false_r. done.
      * rewrite (bool_decide_false (row_key t = row_key t0)) by (unfold row_key; congruence). rewrite !andb_false_r. done.
    + symmetry. apply volume_none. intros t _. destruct (decide (row_key t = row_key t0)) as [->|]; [rewrite EP; by rewrite andb_false_r|]. rewrite bool_decide_false by done. apply andb_false_r.
  - unfold sum_keys. apply NoDup_remove_dups.
  - intros t Ht Hg. unfold sum_keys. rewrite elem_of_remove_dups. apply list_elem_of_fmap. exists t. split; [done|]. apply elem_of_List_filter. split; [|done].
    unfold inrange, row_key in Hg. cbn [fst snd] in Hg. rewrite !andb_true_iff in Hg. rewrite !andb_true_iff. tauto.
Qed.

(** One leg of a trade, of a sum and of a row. *)
Definition leg (b : bool) (t : Trade) : Z := if b then tb t else tq t.
Definition minute_leg (b : bool) (s : TradeMinuteSum) : Z := Amount_BigInt (if b then ms_BaseSum s else ms_QuoteSum s).
Definition row_leg (b : bool) (r : minuteRow) : Z := if b then mr_base r else mr_quote r.

Lemma orient_leg b t : Base p <> Quote p ->
  (tr_Pair t = p -> leg b (orientTradeTo p t) = leg b t) /\ (tr_Pair t = Pair_Flip p -> leg b (orientTradeTo p t) = leg (negb b) t).
Proof.
  intros Hn. unfold orientTradeTo. split; intros HP; rewrite HP.
  - destruct (Pair_Equal p (Pair_Flip p)) eqn:E; [|done]. apply Pair_Equal_spec in E. destruct p as [x y]. unfold Pair_Flip in E. cbn in *. congruence.
  - rewrite (proj2 (Pair_Equal_spec _ _)) by done. by destruct b.
Qed.

Lemma rows_pair d from to t : t ∈ rows_of table d from to -> tr_Pair t = d.
Proof. unfold rows_of. rewrite elem_of_List_filter, !andb_true_iff. intros [[[HP _] _] _]. by apply Pair_Equal_spec. Qed.

Lemma sums_volume b from m (P : string * Time -> bool) sums w : Base p <> Quote p -> aligned from -> aligned m ->
  table_TradeSums1mInRange table watermark fails p from m = Some (sums, w) -> m <= w ->
  volume (minute_leg b) (fun s => P (ms_Source s, ms_Bucket s)) sums = volume (leg b) (fun t => priceable t && P (row_key t)) (window_trades from m).
Proof.
  intros Hn Hf Hm. unfold table_TradeSums1mInRange. destruct (fails p from m); [done|]. intros [= <- <-] Hw. rewrite (volume_perm _ _ _ _ (isort_perm _ _)).
  unfold window_trades. rewrite volume_map, !volume_app, !volume_map. f_equal.
  - rewrite (volume_ext _ (leg b) _ (fun t => priceable t && P (row_key t)) (rows_of table p from m)).
    + rewrite <- direction_volume by done. rewrite volume_keyed. f_equal. apply map_ext. intros [s k]. unfold sum_of. cbn [ms_Source ms_Bucket fst snd]. by destruct (P (s, k)), b.
    + intros t Ht. unfold row_key, minute_of. destruct (orient_same t) as (-> & -> & ->). split; [done|]. intros _. apply orient_leg; [done|]. by eapply rows_pair.
  - rewrite (volume_ext _ (leg (negb b)) _ (fun t => priceable t && P (row_key t)) (rows_of table (Pair_Flip p) from m)).
    + rewrite <- direction_volume by done. rewrite volume_keyed. f_equal. apply map_ext. intros [s k]. unfold sum_of, flip_sum. cbn [ms_Source ms_Bucket ms_BaseSum ms_QuoteSum fst snd]. by destruct (P (s, k)), b.
    + intros t Ht. unfold row_key, minute_of. destruct (orient_same t) as (-> & -> & ->). split; [done|]. intros _. apply orient_leg; [done|]. by eapply rows_pair.
Qed.

(** What every sum of a read is. *)
Definition sum_ok (from m : Time) (s : TradeMinuteSum) : Prop :=
  aligned (ms_Bucket s) /\ from <= ms_Bucket s < m /\ forall b, 0 < minute_leg b s.

Lemma sum_of_ok d from m k : k ∈ sum_keys table watermark d from m ->
  aligned k.2 /\ from <= k.2 < m /\ forall b, 0 < minute_leg b (sum_of table d k).
Proof.
  unfold sum_keys. rewrite elem_of_remove_dups. intros (t & -> & Ht)%list_elem_of_fmap. apply elem_of_List_filter in Ht as [Hq Ht].
  rewrite !andb_true_iff, negb_true_iff in Hq. destruct Hq as [[[[HP Hpr] [Hf Hm]] _] _]. unfold time_Before in Hf, Hm. bprop. cbn [fst snd].
  split; [apply truncate_aligned|]. split; [lia|]. intros b. unfold sum_of. cbn [fst snd].
  set (l := List.filter _ table). assert (t ∈ l) as Hl.
  { apply elem_of_List_filter. split; [|done]. cbn [fst snd]. by rewrite HP, Hpr, String.eqb_refl, Z.eqb_refl. }
  assert (Forall (fun t => 0 < tb t /\ 0 < tq t) l) as HF.
  { apply Forall_forall. intros x Hx. apply elem_of_List_filter in Hx as [Hx _]. apply priceable_iff. rewrite !andb_true_iff in Hx. tauto. }
  assert (l <> []) by (intros E; rewrite E in Hl; by apply elem_of_nil in Hl).
  unfold minute_leg. destruct b; cbn; apply zsum_pos; try (by destruct l); apply Forall_map; eapply Forall_impl; try exact HF; cbn; lia.
Qed.

Lemma sums_ok from m sums w : table_TradeSums1mInRange table watermark fails p from m = Some (sums, w) -> Forall (sum_ok from m) sums.
Proof.
  unfold table_TradeSums1mInRange. destruct (fails p from m); [done|]. intros [= <- <-]. rewrite (isort_perm _ _). apply Forall_app. split; apply Forall_map, Forall_forall; intros k Hk.
  - by apply sum_of_ok.
  - apply sum_of_ok in Hk as (Ha & Hr & Hp). split; [done|]. split; [done|]. intros b. specialize (Hp (negb b)). by destruct b.
Qed.

(** *** Folding the sums into rows *)

Definition row_ok (from m : Time) (r : minuteRow) : Prop :=
  aligned (mr_bucket r) /\ from <= mr_bucket r < m /\ (forall b, 0 < row_leg b r) /\ mr_wide r = false.

Lemma aligned_same a b : aligned a -> aligned b -> time_Unix a = time_Unix b -> a = b.
Proof.
  unfold aligned, time_Unix. intros Ha Hb HE. rewrite Ha, Hb in HE |- *. change Minute with (60 * Second) in *. rewrite <- !Z.mul_assoc, !(Z.mul_comm 60), <- !Z.mul_assoc in HE.
  rewrite !(Z.mul_comm Second), !Z.div_mul in HE by done. lia.
Qed.

Definition row_pass (P : string * Time -> bool) (r : minuteRow) : bool := P (mr_source r, mr_bucket r).

Lemma merge_leg b r s : row_leg b (merge_sum r s) = row_leg b r + minute_leg b s.
Proof. by destruct b. Qed.

Lemma add_sum_volume b P from m rows s : sum_ok from m s -> Forall (row_ok from m) rows ->
  volume (row_leg b) (row_pass P) (add_sum rows s) = volume (row_leg b) (row_pass P) rows + (if P (ms_Source s, ms_Bucket s) then minute_leg b s else 0)
  /\ Forall (row_ok from m) (add_sum rows s).
Proof.
  intros (Ha & Hr & Hs) HF. induction HF as [|r rows Hok HF IH]; cbn [add_sum].
  - split.
    + rewrite volume_cons, !volume_nil, merge_leg. unfold row_pass, merge_sum, fresh_row. cbn [mr_source mr_bucket]. destruct (P _), b; cbn; lia.
    + constructor; [|done]. split_and!; try done; try (cbn; lia). intros b'. rewrite merge_leg. specialize (Hs b'). destruct b'; cbn in *; lia.
  - destruct (same_row r s) eqn:E.
    + unfold same_row in E. apply andb_prop in E as [E1%String.eqb_eq E2%Z.eqb_eq]. destruct Hok as (Hra & Hrr & Hrs & Hrw).
      pose proof (aligned_same _ _ Hra Ha E2) as E3. split.
      * rewrite !volume_cons, merge_leg. unfold row_pass at 1 3, merge_sum. cbn [mr_source mr_bucket]. rewrite E1, E3. destruct (P _); lia.
      * constructor; [|done]. split_and!; try done; try (cbn; lia). intros b'. rewrite merge_leg. specialize (Hs b'). specialize (Hrs b'). lia.
    + destruct IH as [IH1 IH2]. split; [rewrite !volume_cons, IH1; lia|by constructor].
Qed.

Lemma fold_volume b P from m sums : Forall (sum_ok from m) sums -> forall rows, Forall (row_ok from m) rows ->
  volume (row_leg b) (row_pass P) (foldl add_sum rows sums) = volume (row_leg b) (row_pass P) rows + volume (minute_leg b) (fun s => P (ms_Source s, ms_Bucket s)) sums
  /\ Forall (row_ok from m) (foldl add_sum rows sums).
Proof.
  induction 1 as [|s sums Hs HF IH]; intros rows Hr; cbn [foldl]; [rewrite volume_nil; split; [lia|done]|].
  destruct (add_sum_volume b P from m rows s Hs Hr) as [HV HO]. destruct (IH _ HO) as [HV' HO']. split; [|done]. rewrite HV', HV, volume_cons. lia.
Qed.

Lemma foldMinuteSums_volume b P from m sums : Forall (sum_ok from m) sums ->
  volume (row_leg b) (row_pass P) (foldMinuteSums sums) = volume (minute_leg b) (fun s => P (ms_Source s, ms_Bucket s)) sums /\ Forall (row_ok from m) (foldMinuteSums sums).
Proof.
  intros HF. unfold foldMinuteSums. rewrite (volume_perm _ _ _ _ (isort_perm _ _)), (isort_perm _ _). by apply (fold_volume b P from m sums HF []).
Qed.

(** *** Reading the wide minutes again *)

Lemma within_minute b t : aligned b -> within b (time_Add b Minute) t = bool_decide (minute_of t = b).
Proof.
  intros Hb. pose proof (aligned_next b Hb) as Hb'.
  pose proof (minute_range (tr_Timestamp t) b (b + Minute) Hb Hb') as HR. pose proof (truncate_aligned (tr_Timestamp t)) as Ht. unfold within, time_Add, minute_of.
  apply eq_true_iff_eq. rewrite andb_true_iff, Z.leb_le, Z.ltb_lt, bool_decide_eq_true. rewrite <- HR. unfold aligned in *. split; [|intros ->; unfold Minute, Second; lia].
  rewrite Hb, Ht. unfold Minute, Second in *. lia.
Qed.

Lemma minutes_volume f g from m bs : NoDup bs -> Forall (fun b => aligned b /\ from <= b /\ b + Minute <= m) bs ->
  volume f g (flat_map (fun b => window_trades b (time_Add b Minute)) bs) = volume f (fun t => g t && bool_decide (minute_of t ∈ bs)) (window_trades from m).
Proof.
  induction bs as [|b bs IH]; intros Hnd HF; cbn [flat_map].
  - rewrite volume_nil. symmetry. apply volume_none. intros t _. rewrite bool_decide_false by (by intros ?%elem_of_nil). apply andb_false_r.
  - apply NoDup_cons in Hnd as [Hb Hnd]. apply Forall_cons in HF as [(Ha & Hf & Hm) HF]. rewrite volume_app, IH by done.
    rewrite <- (window_within from m b (time_Add b Minute)) by (unfold time_Add; lia). rewrite volume_filter.
    rewrite (volume_split f (fun t => g t && bool_decide (minute_of t ∈ b :: bs)) (fun t => bool_decide (minute_of t = b))). f_equal; apply volume_ext; intros t _; (split; [|done]).
    + rewrite within_minute by done. destruct (decide (minute_of t = b)) as [->|]; [rewrite (bool_decide_true (b ∈ _)), (bool_decide_true (b = b)) by (done || by left); by destruct (g t)|]. rewrite (bool_decide_false (minute_of t = b)) by done. by rewrite andb_false_r.
    + destruct (decide (minute_of t = b)) as [->|Hne].
      * rewrite (bool_decide_true (b = b)), (bool_decide_false (b ∈ bs)) by done. by rewrite !andb_false_r.
      * rewrite (bool_decide_false (minute_of t = b)) by done. rewrite andb_true_r. f_equal. apply bool_decide_ext. rewrite elem_of_cons. tauto.
Qed.

Context (cfg : FetchConfig).
Let cap := MaxTradesPerWindow cfg.
Let store := table_store table watermark fails.

(** The minutes that were read are those from the cut on. *)
Lemma reread_minutes bs : forall i extra cut out, 0 < cap <= MaxTradesInRangeLimit -> StronglySorted (fun a b => (b <=? a) = true) bs -> NoDup bs -> Forall (fun b => aligned b /\ zero_time < b) bs ->
  reread cfg store p bs i extra = (cut, out) ->
  out ≡ₚ extra ++ flat_map (fun b => window_trades b (time_Add b Minute)) (List.filter (fun b => cut <=? b) bs)
  /\ (cut = zero_time \/ exists b, b ∈ bs /\ cut = time_Add b Minute).
Proof.
  induction bs as [|b bs IH]; intros i extra cut out Hcap HS Hnd HF; cbn [reread].
  { intros [= <- <-]. cbn. rewrite app_nil_r. split; [done|by left]. }
  apply StronglySorted_inv in HS as [HS HB]. apply NoDup_cons in Hnd as [Hb Hnd]. apply Forall_cons in HF as [[Ha Hz] HF].
  assert (forall out', extra = out' -> out' ≡ₚ extra ++ flat_map (fun b => window_trades b (time_Add b Minute)) (List.filter (fun x => time_Add b Minute <=? x) (b :: bs))) as Hstop.
  { intros out' ->. rewrite filter_none; [cbn; by rewrite app_nil_r|]. intros x Hx. apply Z.leb_gt. unfold time_Add. change Minute with 60000000000. apply elem_of_cons in Hx as [->|Hx]; [lia|].
    rewrite Forall_forall in HB. specialize (HB x Hx). apply Z.leb_le in HB. lia. }
  destruct (minuteRawBudget <=? i)%nat; [intros [= <- <-]; split; [by apply Hstop|right; exists b; split; [by left|done]]|].
  destruct (TradesInRange store p b (time_Add b Minute) (MaxTradesPerWindow cfg)) as [t|] eqn:ER; [|intros [= <- <-]; split; [by apply Hstop|right; exists b; split; [by left|done]]].
  destruct (MaxTradesPerWindow cfg <=? Z.of_nat (length t)) eqn:EL; [intros [= <- <-]; split; [by apply Hstop|right; exists b; split; [by left|done]]|].
  intros HR. apply IH in HR as [HP HC]; [|done..].
  destruct (read_splits b (time_Add b Minute) (MaxTradesPerWindow cfg) t Hcap ER) as (_ & rest & HW & _ & Hrest). rewrite Hrest, app_nil_r in HW by (bprop; lia).
  assert ((cut <=? b) = true) as Hcb.
  { apply Z.leb_le. destruct HC as [->|(x & Hx & ->)]; [lia|]. rewrite Forall_forall in HB, HF. specialize (HB x Hx). destruct (HF x Hx) as [Hxa _]. apply Z.leb_le in HB.
    assert (x <> b) by congruence. unfold aligned, time_Add in *. unfold Minute, Second in *. lia. }
  split.
  - cbn [List.filter]. rewrite Hcb. cbn [flat_map]. rewrite HP, HW, <- app_assoc. done.
  - destruct HC as [->|(x & Hx & ->)]; [by left|right; exists x; split; [by right|done]].
Qed.

Lemma resolve_minutes from m rows rows' cut extra : 0 < cap <= MaxTradesInRangeLimit -> aligned m -> zero_time < from <= m -> Forall (row_ok from m) rows ->
  resolveWideMinutes cfg store p rows = (rows', cut, extra) ->
  exists W, NoDup W /\ Forall (fun b => aligned b /\ from <= b /\ b + Minute <= m) W /\ rows' = map (fun r => with_wide r (bool_decide (mr_bucket r ∈ W))) rows
    /\ extra ≡ₚ flat_map (fun b => window_trades b (time_Add b Minute)) (List.filter (fun b => cut <=? b) W)
    /\ aligned cut /\ cut <= m.
Proof.
  intros Hcap Hm Hf HR. unfold resolveWideMinutes.
  assert (aligned zero_time) as Haz by (by vm_compute).
  destruct (minuteSpreadBand cfg) as [band|].
  - set (wide := wide_minutes cfg band rows). set (W := isort (fun a b => b <=? a) (elements wide)).
    assert (NoDup W) as Hnd by (unfold W; rewrite (isort_perm _ _); apply NoDup_elements).
    assert (forall b, b ∈ W <-> b ∈ wide) as HW by (intros b; unfold W; by rewrite (isort_perm _ _), elem_of_elements).
    assert (Forall (fun b => aligned b /\ from <= b /\ b + Minute <= m) W) as HF.
    { apply Forall_forall. intros b Hb. apply HW in Hb. unfold wide, wide_minutes in Hb. apply elem_of_list_to_set in Hb. apply list_elem_of_fmap in Hb as (r & -> & Hr). apply elem_of_List_filter in Hr as [_ Hr].
      rewrite Forall_forall in HR. destruct (HR r Hr) as (Ha & Hb & _). split; [done|]. split; [lia|]. unfold aligned in *. change Minute with 60000000000 in *. lia. }
    destruct (reread cfg store p W 0 []) as [cut' out] eqn:ER. intros [= <- <- <-]. exists W. split; [done|]. split; [done|]. split.
    { apply map_ext. intros r. f_equal. apply bool_decide_ext. by rewrite HW. }
    destruct (reread_minutes W 0 [] cut' out) as [HP HC]; try done.
    + unfold W. apply isort_sorted; [intros x y|intros x y z]; rewrite !Z.leb_le; lia.
    + eapply Forall_impl; [exact HF|]. cbn. intros b (Ha & Hb & _). split; [done|lia].
    + split; [done|]. destruct HC as [->|(b & Hb & ->)].
      * split; [done|lia].
      * rewrite Forall_forall in HF. destruct (HF b Hb) as (Ha & _ & Hbm). split; [by apply aligned_next|done].
  - intros [= <- <- <-]. exists []. split; [constructor|]. split; [done|]. split.
    { symmetry. rewrite <- map_id. apply map_ext_in. intros r Hr%list_elem_of_In. rewrite bool_decide_false by (by intros ?%elem_of_nil). rewrite Forall_forall in HR. destruct (HR r Hr) as (_ & _ & _ & Hw). destruct r. cbn in *. by subst. }
    split; [done|]. split; [done|lia].
Qed.

(** *** The window *)

Lemma oldest_spec t0 l : (forall t, t ∈ t0 :: l -> oldest t0 l <= tr_Timestamp t) /\ exists t, t ∈ t0 :: l /\ oldest t0 l = tr_Timestamp t.
Proof.
  unfold oldest. set (step := fun c t => if time_Before (tr_Timestamp t) c then tr_Timestamp t else c).
  assert (forall l c, (foldl step c l <= c /\ forall t, t ∈ l -> foldl step c l <= tr_Timestamp t) /\ (foldl step c l = c \/ exists t, t ∈ l /\ foldl step c l = tr_Timestamp t)) as HF.
  { clear. induction l as [|t l IH]; intros c; cbn [foldl]; [split; [split; [lia|by intros ? ?%elem_of_nil]|by left]|].
    destruct (IH (step c t)) as [[H1 H2] H3]. assert (step c t <= c /\ step c t <= tr_Timestamp t /\ (step c t = c \/ step c t = tr_Timestamp t)) as (Hc & Ht & He)
      by (unfold step, time_Before; destruct (Z.ltb_spec (tr_Timestamp t) c); lia).
    split; [split; [lia|intros u [->|Hu]%elem_of_cons; [lia|by apply H2]]|].
    destruct H3 as [H3|(u & Hu & H3)]; [|right; exists u; split; [by right|done]]. rewrite H3. destruct He as [->| ->]; [by left|right; exists t; split; [by left|done]]. }
  destruct (HF (t0 :: l) (tr_Timestamp t0)) as [[_ H2] H3]. split; [done|]. destruct H3 as [->|H3]; [exists t0; split; [by left|done]|done].
Qed.

(** The priceable trades of some sources from a moment on. *)
Definition counts (S : string -> bool) (c : Time) (t : Trade) : bool := S (tr_Source t) && priceable t && (c <=? tr_Timestamp t).

Lemma cut_minute cut t : aligned cut -> (cut <=? minute_of t) = (cut <=? tr_Timestamp t).
Proof.
  intros Hc. pose proof (truncate_minute (tr_Timestamp t)) as HT. unfold minute_of. apply eq_true_iff_eq. rewrite !Z.leb_le. rewrite HT, Hc. clear.
  change Minute with 60000000000. Z.to_euclidean_division_equations. lia.
Qed.

(** The trades of the wide minutes. *)
Lemma extra_volume b S from m (W : list Time) cut extra : NoDup W -> Forall (fun b => aligned b /\ from <= b /\ b + Minute <= m) W -> aligned cut ->
  extra ≡ₚ flat_map (fun b => window_trades b (time_Add b Minute)) (List.filter (fun b => cut <=? b) W) ->
  volume (leg b) (fun t => S (tr_Source t) && priceable t) (List.filter (fun t => negb (time_Before (tr_Timestamp t) cut)) extra)
  = volume (leg b) (fun t => counts S cut t && bool_decide (minute_of t ∈ W)) (window_trades from m).
Proof.
  intros Hnd HF Hc HE. rewrite volume_filter, (volume_perm _ _ _ _ HE), (minutes_volume _ _ from m).
  - apply volume_ext. intros t _. split; [|done]. unfold counts, time_Before. rewrite Z.ltb_antisym, negb_involutive, <- (cut_minute cut t Hc).
    rewrite (bool_decide_ext (minute_of t ∈ List.filter (fun b => cut <=? b) W) ((cut <=? minute_of t) = true /\ minute_of t ∈ W) (elem_of_List_filter _ _ _)).
    destruct (cut <=? minute_of t) eqn:E; cbn [andb]; [|by rewrite !andb_false_r]. rewrite andb_true_r. f_equal. apply bool_decide_ext. tauto.
  - by apply NoDup_ListNoDup, List.NoDup_filter, NoDup_ListNoDup.
  - apply Forall_forall. intros x [_ Hx]%elem_of_List_filter. rewrite Forall_forall in HF. by apply HF.
Qed.

(** The part of the first read that is kept. *)
Lemma raw_volume b S from to m raw rest : from <= m -> window_trades from to ≡ₚ raw ++ rest -> (forall y, y ∈ rest -> tr_Timestamp y < m) ->
  volume (leg b) (fun t => S (tr_Source t) && priceable t) (List.filter (fun t => negb (time_Before (tr_Timestamp t) m)) raw)
  = volume (leg b) (fun t => S (tr_Source t) && priceable t) (window_trades m to).
Proof.
  intros Hf HW Hrest. rewrite <- (window_within from to m to), !volume_filter, (volume_perm _ _ _ _ HW), volume_app by lia.
  rewrite (volume_none _ _ rest), Z.add_0_r.
  - apply volume_ext. intros t Ht. split; [|done]. unfold within, time_Before. rewrite Z.ltb_antisym, negb_involutive. destruct (window_times from to t) as [_ Hlt]; [rewrite HW; apply elem_of_app; by left|].
    rewrite (proj2 (Z.ltb_lt _ _) Hlt). by rewrite andb_true_r.
  - intros t Ht. unfold within. by rewrite (proj2 (Z.leb_gt _ _) (Hrest t Ht)).
Qed.

(** The rows kept are the fills of the narrow minutes. *)
Lemma kept_volume b S from m sums w (W : list Time) cut : Base p <> Quote p -> aligned from -> aligned m -> aligned cut ->
  table_TradeSums1mInRange table watermark fails p from m = Some (sums, w) -> m <= w ->
  volume (leg b) (fun t => S (tr_Source t) && priceable t)
    (map (minute_trade p) (filled_rows p (map (fun r => with_wide r (bool_decide (mr_bucket r ∈ W))) (foldMinuteSums sums)) cut))
  = volume (leg b) (fun t => counts S cut t && negb (bool_decide (minute_of t ∈ W))) (window_trades from m).
Proof.
  intros Hn Hf Hm Hc HS Hw. pose proof (sums_ok _ _ _ _ HS) as Hok.
  set (P := fun k : string * Time => S k.1 && (cut <=? k.2) && negb (bool_decide (k.2 ∈ W))).
  destruct (foldMinuteSums_volume b P from m sums Hok) as [HV HR]. rewrite Forall_forall in HR.
  unfold filled_rows. rewrite volume_map, volume_filter, volume_map.
  transitivity (volume (row_leg b) (row_pass P) (foldMinuteSums sums)).
  - apply volume_ext. intros r Hr. destruct (HR r Hr) as (_ & _ & Hp & _). split; [|by destruct b]. unfold row_pass, P, minute_trade, with_wide, time_Before. cbn [tr_Source mr_source mr_bucket mr_wide mr_base mr_quote fst snd].
    assert (priceable (minute_trade p (with_wide r (bool_decide (mr_bucket r ∈ W)))) = true) as Hpr by (apply priceable_iff; exact (conj (Hp true) (Hp false))).
    unfold minute_trade, with_wide in Hpr. cbn [mr_source mr_bucket mr_wide mr_base mr_quote] in Hpr. rewrite Hpr, andb_true_r.
    destruct (Z.ltb_spec (mr_bucket r) cut), (Z.leb_spec cut (mr_bucket r)); try (exfalso; lia); destruct (S (mr_source r)), (bool_decide (mr_bucket r ∈ W)); done.
  - rewrite HV, (sums_volume b from m P sums w Hn Hf Hm HS Hw). apply volume_ext. intros t Ht. split; [|done]. unfold counts, P, row_key. cbn [fst snd].
    rewrite cut_minute by done.
    destruct (priceable t), (S _); done.
Qed.

Lemma fill_volume b S from to t0 l trades w cut : 0 < cap <= MaxTradesInRangeLimit -> Base p <> Quote p -> zero_time < from ->
  TradesInRange store p from to cap = Some (t0 :: l) -> fillFromMinuteSums cfg store p from to (t0 :: l) (oldest t0 l) = Some (trades, w, cut) ->
  volume (leg b) (fun t => S (tr_Source t) && priceable t) trades = volume (leg b) (counts S cut) (window_trades from to).
Proof.
  intros Hcap Hn Hz HR. unfold fillFromMinuteSums. cbn [TradeSums1mInRange store table_store].
  destruct (_ || _) eqn:EA; [done|]. apply orb_false_iff in EA as [_ EA%negb_false_iff]. unfold time_Equal in EA. apply Z.eqb_eq in EA.
  assert (aligned from) as Hf by (rewrite EA; apply truncate_aligned).
  set (m := time_Add (time_Truncate (oldest t0 l) Minute) Minute). assert (aligned m) as Hm by (apply aligned_next, truncate_aligned).
  unfold time_After. destruct (Z.ltb_spec to m) as [|Hto]; [done|]. destruct (table_TradeSums1mInRange table watermark fails p from m) as [[sums wm]|] eqn:HS; [|done].
  unfold time_Before at 1. destruct (Z.ltb_spec wm m) as [|Hw]; [done|].
  destruct (read_splits from to cap (t0 :: l) Hcap HR) as (_ & rest & HW & Hrest & _). destruct (oldest_spec t0 l) as [Hold (told & Htold & Eold)].
  assert (oldest t0 l < m) as Hom by (unfold m, time_Add; rewrite truncate_minute; change Minute with 60000000000; Z.to_euclidean_division_equations; lia).
  assert (from <= oldest t0 l) as Hfo by (rewrite Eold; apply (window_times from to); rewrite HW; apply elem_of_app; by left).
  remember (t0 :: l) as raw eqn:Eraw. destruct (resolveWideMinutes cfg store p (foldMinuteSums sums)) as [[rows' cut'] extra] eqn:ERW. intros [= <- _ <-].
  pose proof (proj2 (foldMinuteSums_volume b (fun _ => true) from m sums (sums_ok _ _ _ _ HS))) as Hrows.
  destruct (resolve_minutes from m _ _ _ _ Hcap Hm ltac:(lia) Hrows ERW) as (W & Hnd & HF & -> & Hex & Hc & Hcm).
  rewrite (volume_perm _ _ _ _ (isort_perm _ _)), !volume_app, (kept_volume b S from m sums wm W cut') by done.
  rewrite (extra_volume b S from m W cut' extra) by done. rewrite (raw_volume b S from to m raw rest) by (try done; try lia; intros y Hy; pose proof (Hrest told y Htold Hy); lia).
  rewrite (volume_split (leg b) (counts S cut') (within from m) (window_trades from to)).
  rewrite Z.add_assoc, (Z.add_comm (volume _ (fun t => counts S cut' t && negb _) _)), <- volume_split. f_equal.
  - rewrite <- (window_within from to from m), volume_filter by lia. apply volume_ext. intros t _. split; [apply andb_comm|done].
  - rewrite <- (window_within from to m to), volume_filter by lia. apply volume_ext. intros t Ht. split; [|done]. apply window_times in Ht. unfold counts, within.
    destruct (S _), (priceable t), (Z.leb_spec m (tr_Timestamp t)), (Z.ltb_spec (tr_Timestamp t) to), (Z.leb_spec cut' (tr_Timestamp t)), (Z.leb_spec from (tr_Timestamp t)), (Z.ltb_spec (tr_Timestamp t) m); try (exfalso; lia); done.
Qed.

(** What a read of the window holds, between the trades after the moment it
    names and the trades from it on. *)
Lemma fetch_volume b S from to trades w c : 0 < cap <= MaxTradesInRangeLimit -> Base p <> Quote p -> 0 <= from ->
  fetchTradesDetectTruncation cfg store p from to = Some (trades, w, c) ->
  volume (leg b) (counts S (c + 1)) (window_trades from to) <= volume (leg b) (fun t => S (tr_Source t) && priceable t) trades <= volume (leg b) (counts S c) (window_trades from to).
Proof.
  intros Hcap Hn Hf. assert (zero_time < from) as Hz by (unfold zero_time, Second; lia).
  assert (forall c, volume (leg b) (counts S (c + 1)) (window_trades from to) <= volume (leg b) (counts S c) (window_trades from to)) as Hmono.
  { intros c'. apply volume_mono; intros t _; unfold counts; rewrite !andb_true_iff; [|rewrite !Z.leb_le; intros [[? ?] ?]; split_and!; try done; lia].
    intros [[_ Hp%priceable_iff] _]. destruct b; cbn; lia. }
  unfold fetchTradesDetectTruncation. destruct (TradesInRange store p from to (MaxTradesPerWindow cfg)) as [raw|] eqn:HR; [|done].
  destruct (read_splits from to _ raw Hcap HR) as (_ & rest & HW & Hrest & Hwhole).
  assert (Z.of_nat (length raw) < MaxTradesPerWindow cfg -> volume (leg b) (counts S (zero_time + 1)) (window_trades from to) <= volume (leg b) (fun t => S (tr_Source t) && priceable t) raw <= volume (leg b) (counts S zero_time) (window_trades from to)) as Hshort.
  { intros Hl. rewrite (Hwhole Hl), app_nil_r in HW. rewrite <- (volume_perm _ _ _ _ HW).
    enough (forall z, z <= from -> volume (leg b) (fun t => S (tr_Source t) && priceable t) (window_trades from to) = volume (leg b) (counts S z) (window_trades from to)) as HE
      by (rewrite (HE (zero_time + 1)), <- (HE zero_time) by lia; rewrite (HE (zero_time + 1)) by lia; lia).
    intros z Hzf. apply volume_ext. intros t Ht%window_times. split; [|done]. unfold counts. by rewrite (proj2 (Z.leb_le z (tr_Timestamp t))), andb_true_r by lia. }
  destruct raw as [|t0 l]; [intros [= <- _ <-]; apply Hshort; cbn; unfold cap in Hcap; lia|]. destruct (Z.ltb_spec (Z.of_nat (length (t0 :: l))) (MaxTradesPerWindow cfg)) as [Hl|_]; [intros [= <- _ <-]; by apply Hshort|].
  destruct (fillFromMinuteSums cfg store p from to (t0 :: l) (oldest t0 l)) as [[[trades' w'] c']|] eqn:EF; cbn [default]; intros [= <- _ <-].
  - rewrite (fill_volume b S from to t0 l _ _ _ Hcap Hn Hz HR EF). split; [apply Hmono|done].
  - destruct (oldest_spec t0 l) as [Hold (told & Htold & Eold)]. rewrite !(volume_perm _ _ _ _ HW), !volume_app.
    rewrite (volume_none _ (counts S (oldest t0 l + 1)) rest).
    2:{ intros y Hy. pose proof (Hrest told y Htold Hy). unfold counts. rewrite (proj2 (Z.leb_gt _ (tr_Timestamp y))) by lia. apply andb_false_r. }
    assert (0 <= volume (leg b) (counts S (oldest t0 l)) rest) as Hpos.
    { apply volume_nonneg. intros t _. unfold counts. rewrite !andb_true_iff. intros [[_ Hp%priceable_iff] _]. destruct b; cbn; lia. }
    rewrite (volume_ext (leg b) (leg b) (counts S (oldest t0 l)) (fun t => S (tr_Source t) && priceable t) (t0 :: l)).
    2:{ intros t Ht. split; [|done]. unfold counts. by rewrite (proj2 (Z.leb_le _ _) (Hold t Ht)), andb_true_r. }
    split; [|lia]. rewrite Z.add_0_r. apply volume_mono; intros t _; unfold counts; rewrite !andb_true_iff; [|tauto]. intros [_ Hp%priceable_iff]. destruct b; cbn; lia.
Qed.
End Rows.

(** ** The price is a function of the volumes of the sources *)

Lemma weighted_volume (c : string -> Z) b l keys : NoDup keys -> (forall t, t ∈ l -> tr_Source t ∈ keys) ->
  zsum (map (fun t => c (tr_Source t) * leg b t) l) = zsum (map (fun s => c s * volume (leg b) (fun t => String.eqb (tr_Source t) s) l) keys).
Proof.
  intros Hnd HK. transitivity (volume (fun t => c (tr_Source t) * leg b t) (fun _ => true) l); [by rewrite volume_keyed|].
  rewrite <- (volume_groups _ _ tr_Source keys l Hnd (fun t Ht _ => HK t Ht)). f_equal. apply map_ext. intros s. clear. induction l as [|t l IH]; [cbn; lia|].
  rewrite !volume_cons, IH. cbn [andb]. destruct (String.eqb_spec (tr_Source t) s) as [->|]; [rewrite bool_decide_true by done|rewrite bool_decide_false by done]; lia.
Qed.

Lemma same_sources L L' t : Forall (fun t => priceable t = true) L ->
  (forall s b, volume (leg b) (fun t => String.eqb (tr_Source t) s) L = volume (leg b) (fun t => String.eqb (tr_Source t) s) L') ->
  t ∈ L -> exists t', t' ∈ L' /\ tr_Source t' = tr_Source t.
Proof.
  intros HL HV Ht. destruct (decide (Exists (fun t' => tr_Source t' = tr_Source t) L')) as [HE|HE]; [by apply Exists_exists in HE|exfalso].
  assert (volume (leg true) (fun u => String.eqb (tr_Source u) (tr_Source t)) L' = 0) as H0.
  { apply volume_none. intros u Hu. apply String.eqb_neq. intros E. apply HE, Exists_exists. by exists u. }
  rewrite <- HV in H0. rewrite Forall_forall in HL. apply list_elem_of_split in Ht as (l1 & l2 & E). rewrite E, volume_app, volume_cons, String.eqb_refl in H0.
  assert (forall l, (forall u, u ∈ l -> u ∈ L) -> 0 <= volume (leg true) (fun u => String.eqb (tr_Source u) (tr_Source t)) l) as Hp.
  { intros l Hl. apply volume_nonneg. intros u Hu _. pose proof (proj1 (priceable_iff u) (HL u (Hl u Hu))). cbn. lia. }
  pose proof (Hp l1 ltac:(rewrite E; set_solver)). pose proof (Hp l2 ltac:(rewrite E; set_solver)). pose proof (proj1 (priceable_iff t) (HL t ltac:(rewrite E; set_solver))). cbn in *. lia.
Qed.
Lemma priced_all l : Forall (fun t => priceable t = true) l -> priced l = l.
Proof. induction 1 as [|t l Ht HF IH]; [done|]. by rewrite priced_cons, Ht, IH. Qed.

Lemma lifted_sum b l : zsum (map (leg b) (map (lifted amountScaleDecimalsFor (common_scale amountScaleDecimalsFor l)) l))
  = zsum (map (fun t => 10 ^ (common_scale amountScaleDecimalsFor l - amountScaleDecimalsFor (tr_Source t)) * leg b t) l).
Proof.
  rewrite map_map. f_equal. apply map_ext_in. intros t Ht%list_elem_of_In. destruct (lifted_legs amountScaleDecimalsFor l t) as (H1 & H2 & _); [|done|by destruct b].
  apply Forall_forall. intros u _. unfold amountScaleDecimalsFor. pose proof (Lookup_decimals (tr_Source u)). unfold MaxInt64. lia.
Qed.

Lemma same_price cfg p L L' : Forall (fun t => priceable t = true) L -> Forall (fun t => priceable t = true) L' ->
  (forall s b, volume (leg b) (fun t => String.eqb (tr_Source t) s) L = volume (leg b) (fun t => String.eqb (tr_Source t) s) L') ->
  computeNormalizedVWAP cfg L p = computeNormalizedVWAP cfg L' p.
Proof.
  intros HL HL' HV. set (f := amountScaleDecimalsFor).
  assert (forall l, decimals_ok f l) as Hok by (intros l; apply Forall_forall; intros u _; unfold f, amountScaleDecimalsFor; pose proof (Lookup_decimals (tr_Source u)); unfold MaxInt64; lia).
  pose proof (fun t => same_sources L L' t HL HV) as HS. pose proof (fun t => same_sources L' L t HL' (fun s b => eq_sym (HV s b))) as HS'.
  assert (forall l l', (forall t, t ∈ l -> exists t', t' ∈ l' /\ tr_Source t' = tr_Source t) -> common_scale f l <= common_scale f l') as Hle.
  { intros l l' H. apply common_scale_bound; [unfold common_scale; clear; induction l'; simpl; lia|]. apply Forall_forall. intros t (t' & Ht' & <-)%H. by apply common_scale_le. }
  assert (common_scale f L = common_scale f L') as HC by (apply Z.le_antisymm; by apply Hle).
  assert (forall b, zsum (map (leg b) (map (lifted f (common_scale f L)) L)) = zsum (map (leg b) (map (lifted f (common_scale f L')) L'))) as Hsum.
  { intros b. unfold f. rewrite !lifted_sum. fold f. rewrite <- HC. set (keys := remove_dups (map tr_Source (L ++ L'))).
    assert (forall t, t ∈ L \/ t ∈ L' -> tr_Source t ∈ keys) as HK by (intros t Ht; unfold keys; rewrite elem_of_remove_dups; apply list_elem_of_fmap; exists t; split; [done|by apply elem_of_app]).
    rewrite (weighted_volume (fun s => 10 ^ (common_scale f L - f s)) b L keys) by (try apply NoDup_remove_dups; auto).
    rewrite (weighted_volume (fun s => 10 ^ (common_scale f L - f s)) b L' keys) by (try apply NoDup_remove_dups; auto).
    f_equal. apply map_ext. intros s. by rewrite HV. }
  unfold computeNormalizedVWAP. rewrite !NormalizeAmountScale_eq, !VWAP_eq. cbn [w_trades]. fold f. rewrite !priced_lifted by done. rewrite !priced_all by done.
  change (map tb ?x) with (map (leg true) x). change (map tq ?x) with (map (leg false) x). rewrite !Hsum.
  destruct L as [|t L0], L' as [|t' L0']; [done| | |done].
  - destruct (HS' t' ltac:(by left)) as (u & Hu%elem_of_nil & _). done.
  - destruct (HS t ltac:(by left)) as (u & Hu%elem_of_nil & _). done.
Qed.

(** C8: Completing a window that is larger than one read loses nothing. A
    window that is reported as whole has, under every filter by source, the
    price of all the trades that the table has in it, although most of them
    may have been replaced by sums per source and minute; and a window that is
    reported as cut at a moment holds all that was traded after it and nothing
    from before it, source by source and on both legs. *)
Theorem window_fill_exact cfg table watermark fails p from to trades w c :
  0 < MaxTradesPerWindow cfg <= MaxTradesInRangeLimit -> Base p <> Quote p -> 0 <= from ->
  fetchTradesDetectTruncation cfg (table_store table watermark fails) p from to = Some (trades, w, c) ->
  let all := window_trades table p from to in
  (forall b s, volume (leg b) (counts (String.eqb s) (c + 1)) all
               <= volume (leg b) (fun t => String.eqb s (tr_Source t) && priceable t) trades
               <= volume (leg b) (counts (String.eqb s) c) all)
  /\ (time_IsZero c = true -> forall keep : string -> bool,
        let kept l := List.filter (fun t => keep (tr_Source t)) (dropUnpriceable l) in
        computeNormalizedVWAP cfg (kept trades) p = computeNormalizedVWAP cfg (kept all) p).
Proof.
  intros Hcap Hn Hf HR all. pose proof (fun b S => fetch_volume table watermark fails p cfg b S from to trades w c Hcap Hn Hf HR) as HV. split; [intros b s; apply HV|].
  intros Hzero keep kept. apply Z.eqb_eq in Hzero. subst c.
  assert (forall l, Forall (fun t => priceable t = true) (kept l)) as Hp.
  { intros l. apply Forall_forall. intros t Ht. apply elem_of_List_filter in Ht as [_ Ht]. by apply elem_of_List_filter in Ht as [Ht _]. }
  apply same_price; [done..|]. intros s b. unfold kept, dropUnpriceable. rewrite !volume_filter.
  set (S := fun x => keep x && String.eqb x s). specialize (HV b S).
  assert (forall z, z <= from -> volume (leg b) (counts S z) all = volume (leg b) (fun t => S (tr_Source t) && priceable t) all) as HE.
  { intros z Hz. apply volume_ext. intros t Ht. apply window_times in Ht. split; [|done]. unfold counts. by rewrite (proj2 (Z.leb_le z (tr_Timestamp t))), andb_true_r by lia. }
  rewrite !HE in HV by (unfold zero_time, Second; lia).
  enough (forall l, volume (leg b) (fun t => (0 <? Z.sgn (tb t)) && (0 <? Z.sgn (tq t)) && (keep (tr_Source t) && String.eqb (tr_Source t) s)) l = volume (leg b) (fun t => S (tr_Source t) && priceable t) l) as HX
    by (rewrite !HX; lia).
  intros l. apply volume_ext. intros t _. split; [apply andb_comm|done].
Qed.

(** Seven trades of two sources in three minutes, read four at a time: the
    newest minute as it was read, two sums for the minute before, and the first
    minute read again because its prices lie apart. *)
Definition fill_cfg : FetchConfig := mkFetch 4 false [] [] f64_zero f64_one false [] None 0.
Definition fill_table : list Trade :=
  [trade_ex "kraken" 1000 100 12; trade_ex "kraken" 2000 100 50; trade_ex "kraken" (Minute + 5) 100 12; trade_ex "coinbase" (Minute + 6) 100 13;
   trade_ex "kraken" (2 * Minute + 1) 100 14; trade_ex "coinbase" (2 * Minute + 2) 100 15; trade_ex "coinbase" (2 * Minute + 3) 100 15].
Definition fill_result := fetchTradesDetectTruncation fill_cfg (table_store fill_table (Hour) (fun _ _ _ => false)) xlm_usd 0 (3 * Minute).

Definition fill_shape : bool :=
  match fill_result with
  | Some (trades, w, c) => (length trades =? 7)%nat && (size w =? 2)%nat && time_IsZero c
  | None => false
  end.

Lemma window_fill_exact_witness : exists trades w,
  fill_result = Some (trades, w, zero_time) /\ length trades = 7%nat /\ size w = 2%nat
  /\ computeNormalizedVWAP fill_cfg (filterForVWAP (dropUnpriceable trades)) xlm_usd
     = computeNormalizedVWAP fill_cfg (filterForVWAP (dropUnpriceable (window_trades fill_table xlm_usd 0 (3 * Minute)))) xlm_usd.
Proof.
  assert (fill_shape = true) as HS by (by vm_compute). unfold fill_shape in HS. destruct fill_result as [[[trades w] c]|] eqn:E; [|done].
  apply andb_prop in HS as [[Hl%Nat.eqb_eq Hw%Nat.eqb_eq]%andb_prop Hc%Z.eqb_eq]. subst c. exists trades, w. split; [done|]. split; [done|]. split; [done|].
  assert (Base xlm_usd <> Quote xlm_usd) as Hne by discriminate.
  assert (0 < MaxTradesPerWindow fill_cfg <= MaxTradesInRangeLimit) as Hcap by (unfold MaxTradesInRangeLimit; cbn [MaxTradesPerWindow fill_cfg]; lia). unfold fill_result in E.
  exact (proj2 (window_fill_exact fill_cfg fill_table Hour (fun _ _ _ => false) xlm_usd 0 (3 * Minute) trades w zero_time Hcap Hne (Z.le_refl 0) E) eq_refl exchange_voice).
Defined.

(** ** Several markets in one window *)

Section Merge.
Context (cfg : FetchConfig) (store : Store) (target : Pair) (from to : Time).

(** The reads that succeeded. *)
Definition reads (sources : list Pair) : list (Pair * (list Trade * Weights * Time)) :=
  omap (fun src => option_map (pair src) (fetchTradesDetectTruncation cfg store src from to)) sources.

Definition retargeted (r : Pair * (list Trade * Weights * Time)) : list Trade :=
  if Pair_Equal r.1 target then r.2.1.1 else map (with_pair target) r.2.1.1.

(** A coverage is the latest of the moments that were named. *)
Definition covers (c : WindowCoverage) (cuts : list Time) : Prop :=
  Truncated c = existsb (fun t => negb (time_IsZero t)) cuts
  /\ (Truncated c = true -> CoveredFrom c ∈ cuts /\ forall t, t ∈ cuts -> time_IsZero t = false -> t <= CoveredFrom c).

Lemma widenCoverage_covers c cuts t : covers c cuts -> covers (widenCoverage c t) (cuts ++ [t]).
Proof.
  unfold covers, widenCoverage. rewrite existsb_app. cbn [existsb]. rewrite orb_false_r. intros [HT HC]. destruct (time_IsZero t) eqn:Ez; cbn [negb].
  - rewrite orb_false_r. split; [done|]. intros H. destruct (HC H) as [H1 H2]. split; [apply elem_of_app; by left|].
    intros u [Hu|Hu%list_elem_of_singleton]%elem_of_app Hz; [by apply H2|congruence].
  - rewrite orb_true_r. destruct (Truncated c) eqn:ET; cbn [negb orb].
    + destruct (HC eq_refl) as [H1 H2]. unfold time_After. destruct (Z.ltb_spec (CoveredFrom c) t) as [Hlt|Hge]; cbn [Truncated CoveredFrom].
      * split; [done|]. intros _. split; [apply elem_of_app; right; by apply list_elem_of_singleton|]. intros u [Hu|Hu%list_elem_of_singleton]%elem_of_app Hz; [specialize (H2 u Hu Hz); lia|lia].
      * split; [done|]. intros _. split; [apply elem_of_app; by left|]. intros u [Hu|Hu%list_elem_of_singleton]%elem_of_app Hz; [by apply H2|lia].
    + cbn [Truncated CoveredFrom]. split; [done|]. intros _. split; [apply elem_of_app; right; by apply list_elem_of_singleton|].
      intros u [Hu|Hu%list_elem_of_singleton]%elem_of_app Hz; [exfalso|lia]. symmetry in HT. assert (existsb (fun t => negb (time_IsZero t)) cuts = true) as HX; [|congruence].
      apply existsb_exists. exists u. split; [by apply list_elem_of_In|by rewrite Hz].
Qed.

Lemma reads_snoc sources src : reads (sources ++ [src])
  = reads sources ++ match fetchTradesDetectTruncation cfg store src from to with Some r => [(src, r)] | None => [] end.
Proof. unfold reads. rewrite omap_app. f_equal. cbn. by destruct (fetchTradesDetectTruncation cfg store src from to). Qed.

Lemma merge_sources_spec sources f failed :
  foldl (merge_source cfg store target from to) (mkFetched [] ∅ ∅ ∅ whole_window, 0%nat) sources = (f, failed) ->
  f_trades f = flat_map retargeted (reads sources) /\ covers (f_coverage f) (map (fun r => r.2.2) (reads sources)) /\ (failed + length (reads sources) = length sources)%nat.
Proof.
  revert f failed. induction sources as [|src sources IH] using rev_ind; intros f failed; [intros [= <- <-]; by split_and!|].
  rewrite foldl_app, reads_snoc. cbn [foldl]. destruct (foldl _ _ sources) as [f0 failed0] eqn:E0. destruct (IH _ _ eq_refl) as (H1 & H2 & H3).
  unfold merge_source. rewrite flat_map_app, map_app, !length_app. destruct (fetchTradesDetectTruncation cfg store src from to) as [[[batch w] cut]|]; intros [= <- <-]; cbn [f_trades f_coverage flat_map map length].
  - split; [|split; [by apply widenCoverage_covers|lia]]. rewrite H1, app_nil_r. done.
  - rewrite !app_nil_r. split; [done|]. split; [done|lia].
Qed.
End Merge.

(** A target pair is read through its stablecoin markets: the result is the
    fills of every market that could be read, under the pair that is asked
    for, and its coverage is the least one of theirs; it is an error only if
    no market could be read. *)
Theorem fetchForTarget_merges `{Strkey} cfg store target from to sources :
  EnableStablecoinFiatProxy cfg = true -> ExpandTargetPairWithClassicPegs target (USDPeggedClassicAssets cfg) = Ok sources ->
  let rs := reads cfg store from to sources in
  match fetchForTarget cfg store target from to with
  | None => rs = []
  | Some f => rs <> [] /\ f_trades f = flat_map (retargeted target) rs /\ covers (f_coverage f) (map (fun r => r.2.2) rs)
  end.
Proof.
  intros HP HE rs. unfold fetchForTarget. rewrite HP, HE. cbn [negb]. destruct (foldl _ _ sources) as [f failed] eqn:EF.
  apply merge_sources_spec in EF as (H1 & H2 & H3). fold rs in H1, H2, H3. destruct (Nat.eqb_spec failed (length sources)); [destruct rs; [done|cbn in H3; lia]|].
  split; [|done]. intros E. rewrite E in H3. cbn in H3. lia.
Qed.
