(* ===== verification/Evidence.v ===== *)
(** * What is known about a bucket
    (internal/aggregate/orchestrator: bucket_return.go, composite_reference.go,
    triangulate_corroborate.go, confidence.go)

    Before a price is published it is compared: minute by minute with the last
    prices, with a second price composed of other markets of the same tick,
    with the references that other services cached, and with the volatility of
    its own past. This file holds these comparisons; what follows from them is
    in [FreezeControl].

    The stores that are read (exchange rates, baselines, cached divergences) are
    functions that may fail. Gauges, log lines and the texts of a reason are
    left out; a reason is a value of [cause]. *)

From S2P Require Import Prelude GoLib Float64 Rounding Amount Asset Trade RobustStat Window Proxy Outliers Sources WindowFetch.
From S2P Require Import Confidence Baseline Anomaly Freeze FreezeStore FreezeControl.
From Stdlib Require Import Floats.SpecFloat.

(** ** Minutes (bucket_return.go) *)

Record minuteVWAP := mkMinute { mv_at : Time; mv_vwap : option Q }.
Record marginalBuckets := mkMarginal { mb_pred : option minuteVWAP; mb_minutes : list minuteVWAP; mb_rolling : Q }.
Record priceStep := mkStep { st_prev : option Q; st_curr : option Q; st_elapsed : Duration }.

Section Minutes.
Context (cfg : FetchConfig) (pair : Pair).

Definition bucketVWAP (trades : list Trade) : option Q :=
  match computeNormalizedVWAP cfg trades pair with Ok v => Some v | Err _ => None end.

Definition minute_key (t : Trade) : Z := time_UnixNano (time_Truncate (tr_Timestamp t) closedBucket).
Definition minute_keys (trades : list Trade) : list Z := isort (fun a b => b <=? a) (remove_dups (map minute_key trades)).
Definition in_minute (trades : list Trade) (k : Z) : list Trade := List.filter (fun t => minute_key t =? k) trades.

(** From the newest minute back: the minutes to score, newest first, and the
    one before them. *)
Fixpoint score_loop (trades : list Trade) (last : option minuteVWAP) (keys : list Z) (newestFirst : list minuteVWAP)
    : list minuteVWAP * option minuteVWAP :=
  match keys with
  | [] => (newestFirst, None)
  | k :: keys =>
      match bucketVWAP (in_minute trades k) with
      | None => score_loop trades last keys newestFirst
      | Some v =>
          let m := mkMinute k (Some v) in
          if (0 <? length newestFirst)%nat && match last with None => true | Some l => time_Before k (mv_at l) end
          then (newestFirst, Some m)
          else score_loop trades last keys (newestFirst ++ [m])
      end
  end.

(** The minutes to score and the entry of [scoredMinutes] afterwards. *)
Definition scoreMinutes (trades : list Trade) (last : option minuteVWAP) (rolling : Q) : marginalBuckets * option minuteVWAP :=
  let '(newestFirst, pred) := score_loop trades last (minute_keys trades) [] in
  match newestFirst with
  | [] => (mkMarginal pred [] rolling, last)
  | newest :: _ =>
      let minutes := rev newestFirst in
      let pred := match pred, last, minutes with
                  | None, Some l, m :: _ => if time_Before (mv_at l) (mv_at m) then Some l else None
                  | _, _, _ => pred
                  end in
      (mkMarginal pred minutes rolling, Some newest)
  end.

Fixpoint step_list (prev : minuteVWAP) (minutes : list minuteVWAP) : list priceStep :=
  match minutes with
  | [] => []
  | m :: rest =>
      mkStep (mv_vwap prev) (mv_vwap m) (if time_IsZero (mv_at prev) then 0 else time_Sub (mv_at m) (mv_at prev)) :: step_list m rest
  end.

Definition steps (mb : marginalBuckets) (fallback : option Q) : list priceStep :=
  match mb_minutes mb with
  | [] => [mkStep fallback (Some (mb_rolling mb)) 0]
  | minutes => step_list (default (mkMinute zero_time fallback) (mb_pred mb)) minutes
  end.

Definition step_move (prev curr : Q) : Q := Qabs ((curr - prev) / prev).

(** A move from nothing to something ends the search. *)
Fixpoint worst_loop (l : list priceStep) (worst : priceStep) (worstMove : option Q) : priceStep :=
  match l with
  | [] => worst
  | s :: l =>
      match st_prev s, st_curr s with
      | Some p, Some c =>
          if Qeq_bool p 0 then (if Qeq_bool c 0 then worst_loop l worst worstMove else s)
          else
            let move := step_move p c in
            if match worstMove with None => true | Some w => negb (Qle_bool move w) end
            then worst_loop l s (Some move) else worst_loop l worst worstMove
      | _, _ => worst_loop l worst worstMove
      end
  end.

Definition worstStep (mb : marginalBuckets) (fallback : option Q) : priceStep :=
  let l := steps mb fallback in worst_loop l (List.last l (mkStep None None 0)) None.

Definition returns (mb : marginalBuckets) (fallback : option Q) : list float64 :=
  omap (fun s => match st_prev s, st_curr s with
                 | Some p, Some c => NewBucketReturn (rat_Float64 p) (rat_Float64 c) (st_elapsed s)
                 | _, _ => None
                 end) (steps mb fallback).
End Minutes.

(** ** Chains (triangulate.go) *)

Record TriangulationChain := mkChain { Target : Pair; Legs : list Pair }.

Definition isFXLeg (leg : Pair) : bool := bool_decide (Type_ (Base leg) = AssetFiat) && bool_decide (Type_ (Quote leg) = AssetFiat).

Fixpoint chained (legs : list Pair) : bool :=
  match legs with
  | a :: ((b :: _) as rest) => Asset_Equal (Quote a) (Base b) && chained rest
  | _ => true
  end.

(** True when the chain is accepted. *)
Definition ValidateTriangulationChain (chain : TriangulationChain) : bool :=
  match Legs chain with
  | first :: _ :: _ =>
      Asset_Equal (Base first) (Base (Target chain)) && Asset_Equal (Quote (List.last (Legs chain) first)) (Quote (Target chain))
      && chained (Legs chain)
      && forallb (fun leg => negb (isFXLeg leg && negb (String.eqb (Code (Base leg)) "USD") && negb (String.eqb (Code (Quote leg)) "USD"))) (Legs chain)
  | _ => false
  end.

Definition containsPair (pairs : list Pair) (pair : Pair) : bool := existsb (fun p => Pair_Equal p pair) pairs.

(** ** The composite reference (composite_reference.go) *)

(** The switch and the tolerances; the age limit of a rate is [fx_max_age] and
    the release band [release_band]. *)
Record CompositeReferenceConfig := mkReference { Enabled : bool; Targets : list Pair; ToleranceBps : Z; MinLegSources : Z; LegDispersionBps : Z }.

Definition DefaultCompositeReferenceToleranceBps : Z := 75.
Definition DefaultCompositeReferenceMinLegSources : Z := 2.

Definition ref_withDefaults (c : CompositeReferenceConfig) : CompositeReferenceConfig :=
  let tolerance := if ToleranceBps c <=? 0 then DefaultCompositeReferenceToleranceBps else ToleranceBps c in
  mkReference (Enabled c) (Targets c) tolerance (if MinLegSources c <=? 0 then DefaultCompositeReferenceMinLegSources else MinLegSources c)
    (if LegDispersionBps c <=? 0 then tolerance else LegDispersionBps c).

Definition bps (n : Z) : Q := n # 10000.

(** What a published bucket says as a leg of another pair. *)
Record legRef := mkLegRef {
  lr_price : Q; lr_sources : Z; lr_dispersion : option Q; lr_dispersionUncomputable : bool;
  lr_proxyShare : float64; lr_surfaceDivergence : option Q; lr_surfaceUncomputable : bool
}.

Inductive cause :=
| NoChain | DirectNonPositive | LegNotRefreshed | LegSources (n : Z) | LegDispersionUncomputable | LegDispersed
| LegSurfaceUncomputable | LegSurfaceDiverged | FxStoreUnwired | FxMissing | FxError | FxNonPositive | FxRejected | NonFinite.

Definition quoteSurfaceRefusal (lr : legRef) (maxBps : Z) : option cause :=
  if lr_surfaceUncomputable lr then Some LegSurfaceUncomputable
  else match lr_surfaceDivergence lr with
       | Some d => if Qlt_b (bps maxBps) d then Some LegSurfaceDiverged else None
       | None => None
       end.

(** The difference of two prices relative to the second. *)
Definition rel_dev (a b : Q) : Q := Qabs (a - b) / b.

Section Legs.
Context (cfg : FetchConfig) (pair : Pair).

Definition quoteSurfaces (trades : list Trade) (proxied : gset string) : float64 * option Q * bool :=
  if (size proxied =? 0)%nat then (f64_zero, None, false)
  else
    let scaled := w_trades (NormalizeAmountScale trades amountScaleDecimalsFor) in
    let is_proxy (t : Trade) := bool_decide (Trade_ID t ∈ proxied) in
    let totalBase := zsum (map tb scaled) in
    let proxyBase := zsum (map (fun x : Trade * Trade => tb x.2) (List.filter (fun x => is_proxy x.1) (combine trades scaled))) in
    let proxy := List.filter is_proxy trades in
    let own := List.filter (fun t => negb (is_proxy t)) trades in
    if (length proxy =? 0)%nat || (Z.sgn totalBase <=? 0) then (f64_zero, None, false)
    else
      let share := rat_Float64 (SetFrac proxyBase totalBase) in
      if (length own =? 0)%nat then (share, None, false)
      else match computeNormalizedVWAP cfg proxy pair, computeNormalizedVWAP cfg own pair with
           | Ok p, Ok o => if Qle_bool p 0 || Qle_bool o 0 then (share, None, true) else (share, Some (rel_dev p o), false)
           | _, _ => (share, None, true)
           end.

(** One venue after another, in the order of the map. *)
Fixpoint dispersion_loop (trades : list Trade) (vwap : Q) (venues : list string) (worst : Q) : option Q * bool :=
  match venues with
  | [] => (Some worst, false)
  | s :: venues =>
      match computeNormalizedVWAP cfg (List.filter (fun t => String.eqb (tr_Source t) s) trades) pair with
      | Err _ => (None, true)
      | Ok v =>
          if Qle_bool v 0 then (None, true)
          else
            let dev := rel_dev v vwap in
            dispersion_loop trades vwap venues (if Qlt_b worst dev then dev else worst)
      end
  end.

Definition venues_of (trades : list Trade) : list string := elements (list_to_set (map tr_Source trades) : gset string).

Definition legDispersion (trades : list Trade) (vwap : Q) : option Q * bool :=
  if Qle_bool vwap 0 then (None, true)
  else
    let byVenue := venues_of trades in
    if (length byVenue <? 2)%nat then (None, false) else dispersion_loop trades vwap byVenue 0.

Definition newLegRef (vwap : Q) (trades : list Trade) (proxied : gset string) : legRef :=
  let '(dispersion, uncomputable) := legDispersion trades vwap in
  let '(share, surfaceDiv, surfaceUncomputable) := quoteSurfaces trades proxied in
  mkLegRef vwap (distinctSourceCount trades) dispersion uncomputable share surfaceDiv surfaceUncomputable.
End Legs.

Abbreviation LegRefs := (gmap (Duration * string) legRef).

Definition setTickLegRef (pair : Pair) (window : Duration) (lr : legRef) (refs : LegRefs) : LegRefs := <[(window, Pair_String pair) := lr]> refs.

Record Reading := mkReading {
  rd_ref : compositeReference; rd_price : option Q; rd_divergencePct : float64;
  rd_legSources : gmap string Z; rd_legDispersionBps : gmap string float64; rd_unavailable : option cause
}.

Definition f64_abs (x : float64) : float64 := SFabs x.
Definition ratBps (r : Q) : float64 := f64_mul (rat_Float64 r) (rat_Float64 (10000 # 1)).
Definition pct_dev (direct composite : float64) : float64 := f64_mul (Rounding.f64_div (f64_abs (f64_sub direct composite)) composite) f64_hundred.
Definition unusable (composite direct : float64) : bool := f64_le composite f64_zero || f64_le direct f64_zero || IsInf composite || IsInf direct.

(** A nil store is [None]. *)
Abbreviation FXRates := (option (Pair -> Time -> fx_answer)).

Section Reference.
Context (fcfg : FetchConfig) (rcfg : CompositeReferenceConfig) (phase2 : Phase2Thresholds) (chains : list TriangulationChain) (fx : FXRates).

Definition compositeReferenceEligible (pair : Pair) (trades : list Trade) : bool :=
  if negb (Enabled rcfg) || negb (containsPair (Targets rcfg) pair) then false
  else distinctSourceCount trades <=? SourceCountMaxFreeze (withDefaults phase2).

Definition chainForTarget (pair : Pair) : option TriangulationChain := List.find (fun c => Pair_Equal (Target c) pair) chains.

(** The price of a leg, the number of its sources, why it cannot be used. *)
Definition referenceLeg (refs : LegRefs) (leg : Pair) (window : Duration) (now : Time) (c : CompositeReferenceConfig) : option Q * Z * option cause :=
  if negb (isFXLeg leg) then
    match refs !! (window, Pair_String leg) with
    | None => (None, 0, Some LegNotRefreshed)
    | Some lr =>
        if Qle_bool (lr_price lr) 0 then (None, 0, Some LegNotRefreshed)
        else if lr_sources lr <? MinLegSources c then (None, lr_sources lr, Some (LegSources (lr_sources lr)))
        else if lr_dispersionUncomputable lr then (None, lr_sources lr, Some LegDispersionUncomputable)
        else if match lr_dispersion lr with Some d => Qlt_b (bps (LegDispersionBps c)) d | None => false end then (None, lr_sources lr, Some LegDispersed)
        else match quoteSurfaceRefusal lr (LegDispersionBps c) with
             | Some why => (None, lr_sources lr, Some why)
             | None => (Some (lr_price lr), lr_sources lr, None)
             end
    end
  else match fx with
       | None => (None, 0, Some FxStoreUnwired)
       | Some fxQuoteAtOrBefore =>
           match fxQuoteAtOrBefore leg now with
           | FXMissing => (None, 0, Some FxMissing)
           | FXFailed => (None, 0, Some FxError)
           | FXQuote None _ _ => (None, 0, Some FxNonPositive)
           | FXQuote (Some price) observedAt source =>
               if Qle_bool price 0 then (None, 0, Some FxNonPositive)
               else if fxSnapRejection now observedAt source (fx_max_age fcfg) then (None, 0, Some FxRejected)
               else (Some price, Z.of_nat (length (strings_Split source "+"%char)), None)
           end
       end.

Definition unavailable (sources : gmap string Z) (dispersion : gmap string float64) (why : cause) : Reading :=
  mkReading (mkCompositeRef compositeVerdictUnavailable None) None f64_zero sources dispersion (Some why).

(** The legs one after another: the product, or the leg that fails. *)
Fixpoint compose_legs (refs : LegRefs) (window : Duration) (now : Time) (legs : list Pair) (composite : Q)
    (sources : gmap string Z) (dispersion : gmap string float64) : (Q * gmap string Z * gmap string float64) + Reading :=
  match legs with
  | [] => inl (composite, sources, dispersion)
  | leg :: legs =>
      let '(price, n, why) := referenceLeg refs leg window now (ref_withDefaults rcfg) in
      let dispersion := match refs !! (window, Pair_String leg) with
                        | Some lr => match lr_dispersion lr with
                                     | Some d => if isFXLeg leg then dispersion else <[Pair_String leg := ratBps d]> dispersion
                                     | None => dispersion
                                     end
                        | None => dispersion
                        end in
      let sources := if 0 <? n then <[Pair_String leg := n]> sources else sources in
      match why, price with
      | Some why, _ => inr (unavailable sources dispersion why)
      | None, None => inr (unavailable sources dispersion LegNotRefreshed)
      | None, Some price => compose_legs refs window now legs (composite * price)%Q sources dispersion
      end
  end.

Definition resolveCompositeReference (refs : LegRefs) (pair : Pair) (window : Duration) (now : Time) (direct : Q) : Reading :=
  match chainForTarget pair with
  | None => unavailable ∅ ∅ NoChain
  | Some chain =>
      if Qle_bool direct 0 then unavailable ∅ ∅ DirectNonPositive
      else match compose_legs refs window now (Legs chain) 1 ∅ ∅ with
           | inr r => r
           | inl (composite, sources, dispersion) =>
               let compositeF := rat_Float64 composite in
               let directF := rat_Float64 direct in
               if unusable compositeF directF then unavailable sources dispersion NonFinite
               else
                 let deviation := rel_dev direct composite in
                 let v := if Qle_bool deviation (bps (ToleranceBps (ref_withDefaults rcfg))) then compositeVerdictCorroborated else compositeVerdictRefuted in
                 mkReading (mkCompositeRef v (Some deviation)) (Some composite) (pct_dev directF compositeF) sources dispersion None
           end
  end.

(** The configured pairs with the legs of the references first. *)
Definition refreshOrder (pairs : list Pair) : list Pair :=
  if negb (Enabled rcfg) || (length (Targets rcfg) =? 0)%nat then pairs
  else
    let isLeg p := existsb (fun chain => containsPair (Targets rcfg) (Target chain) && existsb (fun leg => negb (isFXLeg leg) && Pair_Equal leg p) (Legs chain)) chains in
    List.filter isLeg pairs ++ List.filter (fun p => negb (isLeg p)) pairs.
End Reference.

(** ** The composite of the last ticks (triangulate_corroborate.go) *)

Record compositeSample := mkSample { cs_price : Q; cs_at : Time; cs_corroborationCount : Z; cs_combinedConfidence : float64; cs_diverged : bool }.

Definition compositeMaxAgeTicks : Z := 2.
Definition DefaultInterval : Duration := 30 * Second.
Definition tickInterval (interval : Duration) : Duration := if 0 <? interval then interval else DefaultInterval.

(** By the pair and the window; [at] is the reading of the clock. *)
Abbreviation Samples := (gmap (string * Duration) compositeSample).

Definition recordComposite (target : Pair) (window : Duration) (price : option Q) (at_ : Time) (count : Z) (conf : float64) (diverged : bool) (l : Samples) : Samples :=
  match price with
  | None => l
  | Some p => if Qle_bool p 0 then l else <[(Pair_String target, window) := mkSample p at_ count conf diverged]> l
  end.

(** A sample that is young enough. *)
Definition recent_sample (interval : Duration) (samples : Samples) (pair : Pair) (window : Duration) (wall : Time) : option compositeSample :=
  match samples !! (Pair_String pair, window) with
  | None => None
  | Some s => if compositeMaxAgeTicks * tickInterval interval <? time_Sub wall (cs_at s) then None else Some s
  end.

Definition routeCorroborationCount (interval : Duration) (samples : Samples) (pair : Pair) (window : Duration) (wall : Time) : option Z :=
  option_map cs_corroborationCount (recent_sample interval samples pair window wall).

Abbreviation Readings := (gmap (string * Duration) Reading).

Definition triangulationDivergencePct (interval : Duration) (readings : Readings) (samples : Samples) (pair : Pair) (window : Duration) (wall : Time) (direct : Q) : option float64 :=
  if Qle_bool direct 0 then None
  else
    let fallback := match recent_sample interval samples pair window wall with
                    | None => None
                    | Some s =>
                        let compositeF := rat_Float64 (cs_price s) in
                        let directF := rat_Float64 direct in
                        if unusable compositeF directF then None else Some (pct_dev directF compositeF)
                    end in
    match readings !! (Pair_String pair, window) with
    | Some r => match verdict (rd_ref r) with compositeVerdictUnavailable => fallback | _ => Some (rd_divergencePct r) end
    | None => fallback
    end.

(** ** The confidence of a bucket (confidence.go) *)

Definition defaultDivergenceMinSources : Z := 2.
Definition divergenceMinSources (configured : Z) : Z := if 0 <? configured then configured else defaultDivergenceMinSources.

(** The fields of a cached divergence that are read. *)
Record CachedResult := mkCached { cr_SuccessCount : Z; cr_Pinned : bool; cr_Median : float64; cr_DivergencePct : float64; cr_AgreementCount : Z }.

Record crossOracleSignal := mkOracleSignal { xo_divergencePct : float64; xo_agreementCount : Z; xo_median : float64 }.
Definition f64_minus_one : float64 := rat_Float64 (-1 # 1).
Definition noCrossOracle : crossOracleSignal := mkOracleSignal f64_minus_one (-1) f64_zero.

(** An entry that is absent, cannot be read or does not decode is [None]. *)
Definition lookupCrossOracle (minSources : Z) (cached : option CachedResult) : crossOracleSignal :=
  match cached with
  | None => noCrossOracle
  | Some c =>
      if cr_SuccessCount c <? divergenceMinSources minSources then noCrossOracle
      else if cr_Pinned c then mkOracleSignal f64_minus_one (-1) (cr_Median c)
      else mkOracleSignal (cr_DivergencePct c) (cr_AgreementCount c) (cr_Median c)
  end.

Definition distinctSourceClassCount (trades : list Trade) : Z :=
  Z.of_nat (length (remove_dups (map (fun t => let md := Lookup (tr_Source t) in (md_Class md, md_Subclass md)) trades))).

Definition isUSDQuoted (pair : Pair) : bool :=
  existsb (String.eqb (Asset_String (Quote pair))) ["fiat:USD"; "crypto:USDT"; "crypto:USDC"; "crypto:DAI"; "crypto:PYUSD"; "crypto:USDP"].

Definition approxUSDVolume (trades : list Trade) (pair : Pair) : float64 :=
  if negb (isUSDQuoted pair) then LiquidityUnmeasured
  else rat_Float64 (foldl (fun total t => if Z.sgn (tq t) <=? 0 then total else total + SetFrac (tq t) (big_Exp 10 (amountScaleDecimalsFor (tr_Source t))))%Q 0%Q trades).

Definition baselineAgeDays (multi : MultiBaseline) : float64 :=
  match Day30 multi with None => f64_minus_one | Some b => Rounding.f64_div (rat_Float64 (inject_Z (N b + 1))) (rat_Float64 (1440 # 1)) end.

Fixpoint max_z_loop (multi : MultiBaseline) (rets : list float64) (best : option (float64 * Duration)) : option (option (float64 * Duration)) :=
  match rets with
  | [] => Some best
  | r :: rets =>
      match MaxZScore multi r with
      | None => None
      | Some (z, w) => max_z_loop multi rets (match best with Some (b, bw) => if f64_lt b z then Some (z, w) else Some (b, bw) | None => Some (z, w) end)
      end
  end.

Definition maxBucketZ (multi : MultiBaseline) (rets : list float64) : option (float64 * Duration) :=
  match max_z_loop multi rets None with Some best => best | None => None end.

Definition maxBaselineAge : Duration := Window1d.
Definition baselineFresh (computedAt now : Time) : bool := if time_IsZero computedAt then false else time_Sub now computedAt <=? maxBaselineAge.

Section Confidence.
Context `{MathLib} (interval : Duration) (minSources : Z).

(** The parts that a computation reads: the baseline of the pair (nil, an
    error or a row), the cached divergence, the readings and samples. *)
Definition computeConfidence (baselines : option (Pair -> option (MultiBaseline * Time))) (cached : Pair -> option CachedResult) (readings : Readings) (samples : Samples)
    (pair : Pair) (window : Duration) (vwap : Q) (rets : list float64) (trades : list Trade) (now wall : Time) (released : gmap string bool)
    : option confidenceComputation * gmap string bool :=
  match baselines, rets with
  | None, _ | _, [] => (None, released)
  | Some latestBaseline, _ =>
      match latestBaseline pair with
      | None => (None, released)
      | Some (multi, computedAt) =>
          if negb (baselineFresh computedAt now) then (None, released)
          else match maxBucketZ multi rets with
               | None => (None, released)
               | Some (observedZ, _) =>
                   let scoringZ := match MaxDriftZScore multi with Some (dz, _) => if f64_lt observedZ dz then dz else observedZ | None => observedZ end in
                   let xo := lookupCrossOracle minSources (cached pair) in
                   let tri := triangulationDivergencePct interval readings samples pair window wall vwap in
                   let triChecked := bool_decide (is_Some tri) in
                   let triPct := default f64_zero tri in
                   let score := Compute (mkInputs scoringZ (distinctSourceCount trades) (distinctSourceClassCount trades) (approxUSDVolume trades pair)
                                  (xo_divergencePct xo) (xo_agreementCount xo) triChecked triPct (baselineAgeDays multi) (default false (released !! Pair_String pair))) DefaultWeights in
                   (Some (mkConfComp score observedZ (xo_median xo) triChecked triPct), <[Pair_String pair := negb (BootstrapCapped (scFactors score))]> released)
               end
      end
  end.
End Confidence.

(** ** The venues of a leg *)

Lemma Qlt_b_false a b : Qlt_b a b = false <-> (b <= a)%Q.
Proof. unfold Qlt_b. rewrite negb_false_iff. apply Qle_bool_iff. Qed.

Lemma Qlt_b_true a b : Qlt_b a b = true <-> (a < b)%Q.
Proof. unfold Qlt_b. rewrite negb_true_iff. split; [intros E; apply Qnot_le_lt; intros H%Qle_bool_iff; congruence|]. intros HL. destruct (Qle_bool b a) eqn:E; [|done]. apply Qle_bool_iff in E. lra. Qed.

(** The price of one venue in a window. *)
Definition venue_price (cfg : FetchConfig) (pair : Pair) (trades : list Trade) (s : string) : res agg_error Q :=
  computeNormalizedVWAP cfg (List.filter (fun t => String.eqb (tr_Source t) s) trades) pair.

Lemma dispersion_loop_spec cfg pair trades vwap venues worst :
  match dispersion_loop cfg pair trades vwap venues worst with
  | (Some d, false) =>
      (worst <= d)%Q /\ (forall s, s ∈ venues -> exists v, venue_price cfg pair trades s = Ok v /\ (0 < v)%Q /\ (rel_dev v vwap <= d)%Q)
      /\ (d = worst \/ exists s v, s ∈ venues /\ venue_price cfg pair trades s = Ok v /\ d = rel_dev v vwap)
  | (None, true) => exists s, s ∈ venues /\ match venue_price cfg pair trades s with Ok v => (v <= 0)%Q | Err _ => True end
  | _ => False
  end.
Proof.
  revert worst. induction venues as [|s venues IH]; intros worst; cbn [dispersion_loop]; [split; [apply Qle_refl|split; [by intros ? ?%elem_of_nil|by left]]|].
  fold (venue_price cfg pair trades s). destruct (venue_price cfg pair trades s) as [v|e] eqn:Ev; [|exists s; rewrite Ev; split; [by left|done]].
  destruct (Qle_bool v 0) eqn:E0; [exists s; rewrite Ev; split; [by left|by apply Qle_bool_iff]|]. apply Qle_bool_false in E0.
  set (w := if Qlt_b worst (rel_dev v vwap) then rel_dev v vwap else worst). assert ((worst <= w /\ rel_dev v vwap <= w)%Q /\ (w = worst \/ w = rel_dev v vwap)) as [[H1 H2] H3].
  { unfold w. destruct (Qlt_b worst (rel_dev v vwap)) eqn:E; [apply Qlt_b_true in E|apply Qlt_b_false in E]; (split; [split; lra|]); [by right|by left]. }
  specialize (IH w). destruct (dispersion_loop cfg pair trades vwap venues w) as [[d|] [|]]; try done.
  - destruct IH as (Hw & IH & Hd). split; [lra|]. split; [intros x [->|Hx]%elem_of_cons; [exists v; split; [done|]; split; [done|lra]|by apply IH]|].
    destruct Hd as [->|(x & u & Hx & Hu)]; [|right; exists x, u; split; [by right|done]]. destruct H3 as [->| ->]; [by left|right; exists s, v; split; [by left|done]].
  - destruct IH as (x & Hx & Hv). exists x. split; [by right|done].
Qed.

(** The order in which the venues are met does not matter. *)
Lemma dispersion_any_order cfg pair trades vwap l l' : (forall s, s ∈ l <-> s ∈ l') ->
  match dispersion_loop cfg pair trades vwap l 0, dispersion_loop cfg pair trades vwap l' 0 with
  | (Some d, false), (Some d', false) => (d == d')%Q
  | (None, true), (None, true) => True
  | _, _ => False
  end.
Proof.
  assert (forall l l' d d', (forall s, s ∈ l <-> s ∈ l') -> dispersion_loop cfg pair trades vwap l 0 = (Some d, false) -> dispersion_loop cfg pair trades vwap l' 0 = (Some d', false) -> (d <= d')%Q) as HL.
  { intros a b d d' HE Ed Ed'. pose proof (dispersion_loop_spec cfg pair trades vwap a 0) as H1. pose proof (dispersion_loop_spec cfg pair trades vwap b 0) as H2. rewrite Ed in H1. rewrite Ed' in H2.
    destruct H1 as (_ & _ & [->|(s & v & Hs & Hv & ->)]), H2 as (H0 & HA & _); [done|]. apply HE in Hs. destruct (HA s Hs) as (v' & Ev & _ & Hle). rewrite Hv in Ev. by injection Ev as <-. }
  intros HE. pose proof (dispersion_loop_spec cfg pair trades vwap l 0) as H1. pose proof (dispersion_loop_spec cfg pair trades vwap l' 0) as H2.
  destruct (dispersion_loop cfg pair trades vwap l 0) as [[d|] [|]] eqn:E1, (dispersion_loop cfg pair trades vwap l' 0) as [[d'|] [|]] eqn:E2; try done.
  - apply Qle_antisym; [by eapply (HL l l')|]. eapply (HL l' l); [|done..]. intros s. symmetry. apply HE.
  - destruct H1 as (_ & H1 & _), H2 as (s & Hs & Hv). apply HE in Hs. destruct (H1 s Hs) as (v & Ev & Hp & _). rewrite Ev in Hv. lra.
  - destruct H2 as (_ & H2 & _), H1 as (s & Hs & Hv). apply HE in Hs. destruct (H2 s Hs) as (v & Ev & Hp & _). rewrite Ev in Hv. lra.
Qed.

Lemma elem_of_venues trades s : s ∈ venues_of trades <-> exists t, t ∈ trades /\ tr_Source t = s.
Proof. unfold venues_of. rewrite elem_of_elements, elem_of_list_to_set, list_elem_of_fmap. split; intros (t & H1 & H2); exists t; split; congruence. Qed.

Lemma venues_count trades : Z.of_nat (length (venues_of trades)) = distinctSourceCount trades.
Proof. done. Qed.

Lemma newLegRef_price cfg pair vwap trades proxied : lr_price (newLegRef cfg pair vwap trades proxied) = vwap.
Proof. unfold newLegRef. by destruct (legDispersion cfg pair trades vwap), (quoteSurfaces cfg pair trades proxied) as [[? ?] ?]. Qed.

(** ** The composite reference *)

(** A bucket that was published in this tick: what [setTickLegRef] was called
    with. *)
Record published_bucket := mkPublished {
  tp_pair : Pair; tp_window : Duration; tp_vwap : Q; tp_trades : list Trade; tp_proxied : gset string
}.

Section Composite.
Context (fcfg : FetchConfig) (rcfg : CompositeReferenceConfig) (chains : list TriangulationChain) (fx : FXRates).
Let c := ref_withDefaults rcfg.

(** The legs of the tick, after its publications in order. *)
Definition tick_legs (pubs : list published_bucket) : LegRefs :=
  foldl (fun refs p => setTickLegRef (tp_pair p) (tp_window p)
           (newLegRef fcfg (tp_pair p) (tp_vwap p) (tp_trades p) (tp_proxied p)) refs) ∅ pubs.

(** The last publication of a market in a window. *)
Definition last_publication (pubs : list published_bucket) (window : Duration) (leg : Pair) (p : published_bucket) : Prop :=
  exists l1 l2, pubs = l1 ++ p :: l2 /\ tp_window p = window /\ Pair_String (tp_pair p) = Pair_String leg
    /\ forall p', p' ∈ l2 -> ~ (tp_window p' = window /\ Pair_String (tp_pair p') = Pair_String leg).

(** The limits, with the defaults of the operator's settings. *)
Definition tolerance_bps : Z := if ToleranceBps rcfg <=? 0 then 75 else ToleranceBps rcfg.
Definition dispersion_bps : Z := if LegDispersionBps rcfg <=? 0 then tolerance_bps else LegDispersionBps rcfg.
Definition min_venues : Z := if MinLegSources rcfg <=? 0 then 2 else MinLegSources rcfg.

(** Two prices agree within so many ten thousandths of the second. *)
Definition agree_within (n : Z) (a b : Q) : Prop := (Qabs (a - b) <= (n # 10000) * b)%Q.

(** The price of some of the trades. *)
Definition price_of (pair : Pair) (trades : list Trade) (p : Q) : Prop :=
  computeNormalizedVWAP fcfg trades pair = Ok p /\ (0 < p)%Q.

(** The venues of a leg: enough of them and, if more than one, each with a
    price of its own that agrees with the leg's. *)
Definition venues_agree (p : published_bucket) : Prop :=
  exists venues, NoDup venues /\ (forall s, s ∈ venues <-> exists t, t ∈ tp_trades p /\ tr_Source t = s)
    /\ min_venues <= Z.of_nat (length venues)
    /\ ((2 <= length venues)%nat -> forall s, s ∈ venues -> exists v,
          price_of (tp_pair p) (List.filter (fun t => String.eqb (tr_Source t) s) (tp_trades p)) v /\ agree_within dispersion_bps v (tp_vwap p)).

(** The trades quoted in a proxy of the quote and the others: where there are
    both, their prices agree. *)
Definition surfaces_agree (p : published_bucket) : Prop :=
  let proxy := List.filter (fun t => bool_decide (Trade_ID t ∈ tp_proxied p)) (tp_trades p) in
  let own := List.filter (fun t => negb (bool_decide (Trade_ID t ∈ tp_proxied p))) (tp_trades p) in
  proxy = [] \/ own = [] \/ zsum (map tb (w_trades (NormalizeAmountScale (tp_trades p) amountScaleDecimalsFor))) <= 0
  \/ exists a b, price_of (tp_pair p) proxy a /\ price_of (tp_pair p) own b /\ agree_within dispersion_bps a b.

(** What the price of a leg stands on: a market of this tick whose venues and
    surfaces agree, or a rate that is recent and comes from providers of
    rates. *)
Definition leg_stands (pubs : list published_bucket) (window : Duration) (now : Time) (leg : Pair) (price : Q) : Prop :=
  (0 < price)%Q /\
  if decide (Type_ (Base leg) = AssetFiat /\ Type_ (Quote leg) = AssetFiat) then
    exists rate observedAt source, fx = Some rate /\ rate leg now = FXQuote (Some price) observedAt source /\ observedAt <> zero_time
      /\ time_Sub now observedAt <= (if FXMaxAge fcfg <=? 0 then 76 * Hour else FXMaxAge fcfg)
      /\ forall s, s ∈ strings_Split source "+"%char -> IsFXSource s = true
  else exists p, last_publication pubs window leg p /\ price = tp_vwap p /\ venues_agree p /\ surfaces_agree p.

(** *** The stored leg *)

Lemma tick_legs_last pubs window leg :
  match tick_legs pubs !! (window, Pair_String leg) with
  | Some lr => exists p, last_publication pubs window leg p
                 /\ lr = newLegRef fcfg (tp_pair p) (tp_vwap p) (tp_trades p) (tp_proxied p)
  | None => forall p, ~ last_publication pubs window leg p
  end.
Proof.
  unfold tick_legs. induction pubs as [|q pubs IH] using rev_ind.
  { cbn [foldl]. rewrite lookup_empty. intros p (l1 & l2 & E & _). by destruct l1. }
  rewrite foldl_app. cbn [foldl]. unfold setTickLegRef. destruct (decide ((window, Pair_String leg) = (tp_window q, Pair_String (tp_pair q)))) as [E|E].
  - rewrite E, lookup_insert_eq. injection E as -> E. exists q. split; [|done]. exists pubs, []. split_and!; try done. intros p' Hp. by apply elem_of_nil in Hp.
  - rewrite lookup_insert_ne by done.
    assert (forall p, last_publication (pubs ++ [q]) window leg p <-> last_publication pubs window leg p) as HE.
    { intros p. split; intros (l1 & l2 & Hl & Hw & Hp & Hno).
      - destruct l2 as [|x l2 _] using rev_ind; [apply app_inj_tail in Hl as [_ <-]; by destruct E; f_equal|].
        rewrite app_comm_cons, app_assoc in Hl. apply app_inj_tail in Hl as [-> _]. exists l1, l2. split_and!; try done.
        intros p' Hp'. apply Hno, elem_of_app. by left.
      - exists l1, (l2 ++ [q]). split_and!; try done; [by rewrite Hl, <- app_assoc|].
        intros p' [Hp'|Hp'%list_elem_of_singleton]%elem_of_app; [by apply Hno|]. subst. intros [Hw' Hs']. by destruct E; f_equal. }
    destruct (foldl _ ∅ pubs !! _) as [lr|]; [|intros p Hp; by apply (IH p), HE].
    destruct IH as (p & Hp & ->). exists p. split; [by apply HE|done].
Qed.

Lemma rel_dev_agree n a b : (0 < b)%Q -> (rel_dev a b <= bps n)%Q <-> agree_within n a b.
Proof.
  intros Hb. unfold rel_dev, bps, agree_within. split; intros HL; [|by apply Qle_shift_div_r].
  assert (Qabs (a - b) == Qabs (a - b) / b * b)%Q as -> by (field; lra). nra.
Qed.

Lemma limits_default : MinLegSources c = min_venues /\ LegDispersionBps c = dispersion_bps /\ ToleranceBps c = tolerance_bps.
Proof. done. Qed.

(** The guards of a stored leg, on the publication it was stored for. *)
Lemma newLegRef_venues p : (0 < tp_vwap p)%Q ->
  let lr := newLegRef fcfg (tp_pair p) (tp_vwap p) (tp_trades p) (tp_proxied p) in
  (lr_sources lr <? MinLegSources c) = false /\ lr_dispersionUncomputable lr = false
    /\ match lr_dispersion lr with Some d => Qlt_b (bps (LegDispersionBps c)) d | None => false end = false
  <-> venues_agree p.
Proof.
  intros Hp. cbv zeta. unfold newLegRef, legDispersion. destruct (quoteSurfaces _ _ _ _) as [[share div] unc].
  destruct (Qle_bool (tp_vwap p) 0) eqn:E0; [apply Qle_bool_iff in E0; lra|]. destruct limits_default as (-> & -> & _).
  set (vs := venues_of (tp_trades p)).
  assert (NoDup vs /\ (forall s, s ∈ vs <-> exists t, t ∈ tp_trades p /\ tr_Source t = s)) as [Hnd Hin]
    by (split; [unfold vs, venues_of; apply NoDup_elements|intros s; apply elem_of_venues]).
  assert (distinctSourceCount (tp_trades p) = Z.of_nat (length vs)) as Hn by (symmetry; apply venues_count).
  assert (forall venues, NoDup venues -> (forall s, s ∈ venues <-> exists t, t ∈ tp_trades p /\ tr_Source t = s) -> venues ≡ₚ vs) as HU
    by (intros venues Hv Hs; apply list.NoDup_Permutation; [done..|]; intros s; by rewrite Hs, Hin).
  destruct (Nat.ltb_spec (length vs) 2) as [H2|H2]; cbn [lr_sources lr_dispersionUncomputable lr_dispersion]; rewrite Hn, Z.ltb_ge; split.
  - intros [Hm _]. exists vs. split_and!; try done. lia.
  - intros (venues & Hv & Hs & Hm & _). by rewrite (HU venues Hv Hs) in Hm.
  - pose proof (dispersion_loop_spec fcfg (tp_pair p) (tp_trades p) (tp_vwap p) vs 0) as HD.
    destruct (dispersion_loop _ _ _ _ _ _) as [[d|] [|]]; cbn [lr_sources lr_dispersionUncomputable lr_dispersion] in *; try done; [|naive_solver].
    intros (Hm & _ & Hd%Qlt_b_false). exists vs. split_and!; try done. intros _ s Hs. destruct HD as (_ & HA & _).
    destruct (HA s Hs) as (v & Ev & Hv & Hle). exists v. split; [done|]. apply rel_dev_agree; [done|]. by eapply Qle_trans.
  - intros (venues & Hv & Hs & Hm & Hag). pose proof (HU venues Hv Hs) as HP. rewrite HP in Hm. rewrite HP in Hag. specialize (Hag H2).
    pose proof (dispersion_loop_spec fcfg (tp_pair p) (tp_trades p) (tp_vwap p) vs 0) as HD.
    destruct (dispersion_loop _ _ _ _ _ _) as [[d|] [|]]; cbn [lr_sources lr_dispersionUncomputable lr_dispersion] in *; try done.
    + split_and!; try done. apply Qlt_b_false. destruct HD as (_ & _ & [->|(s & v & Hs' & Ev & ->)]).
      * unfold bps. destruct (lookup_lt_is_Some_2 vs 0) as [s Hs'%list_elem_of_lookup_2]; [lia|].
        rewrite <- HP in Hs'. destruct (Hag s Hs') as (v & _ & Ha). unfold agree_within in Ha. pose proof (Qabs_nonneg (v - tp_vwap p)).
        assert (0 <= (dispersion_bps # 10000) * tp_vwap p)%Q by (by eapply Qle_trans). apply Qnot_lt_le. intros HL.
        generalize dependent (dispersion_bps # 10000)%Q. intros q. intros. nra.
      * rewrite <- HP in Hs'. destruct (Hag s Hs') as (v' & [Ev' _] & Ha). unfold venue_price in Ev. rewrite Ev' in Ev. injection Ev as <-. by apply rel_dev_agree.
    + destruct HD as (s & Hs' & Hbad). rewrite <- HP in Hs'. destruct (Hag s Hs') as (v & [Ev Hv'] & _). unfold venue_price in Hbad. rewrite Ev in Hbad. lra.
Qed.

Lemma newLegRef_surfaces p :
  quoteSurfaceRefusal (newLegRef fcfg (tp_pair p) (tp_vwap p) (tp_trades p) (tp_proxied p)) (LegDispersionBps c) = None <-> surfaces_agree p.
Proof.
  unfold quoteSurfaceRefusal, newLegRef. destruct (legDispersion _ _ _ _) as [disp unc]. unfold surfaces_agree. cbv zeta. destruct limits_default as (_ & -> & _).
  set (proxy := List.filter _ (tp_trades p)). set (own := List.filter (fun t => negb _) (tp_trades p)).
  unfold quoteSurfaces. fold proxy own. set (total := zsum _). destruct (Nat.eqb_spec (size (tp_proxied p)) 0) as [Es|_].
  { cbn. split; [|done]. intros _. left. apply size_empty_inv in Es. unfold proxy.
    assert (forall t, bool_decide (Trade_ID t ∈ tp_proxied p) = false) as HF by (intros t; apply bool_decide_eq_false; set_solver).
    induction (tp_trades p) as [|t l IH]; [done|]. cbn [List.filter]. by rewrite HF. }
  assert (forall l : list Trade, (length l =? 0)%nat = true <-> l = []) as HL by (intros [|]; done).
  destruct (length proxy =? 0)%nat eqn:E1; [cbn; split; [intros _; left; by apply HL|done]|].
  assert (proxy <> []) by (intros E; rewrite E in E1; done).
  destruct (Z.leb_spec (Z.sgn total) 0) as [Ht|Ht]; [cbn; split; [intros _; right; right; left; destruct total; simpl in *; lia|done]|].
  assert (0 < total) by (destruct total; simpl in *; lia). cbn [orb].
  destruct (length own =? 0)%nat eqn:E2; [cbn; split; [intros _; right; left; by apply HL|done]|].
  assert (own <> []) by (intros E; rewrite E in E2; done).
  assert ((proxy = [] \/ own = [] \/ total <= 0 \/ exists a b, price_of (tp_pair p) proxy a /\ price_of (tp_pair p) own b /\ agree_within dispersion_bps a b)
    <-> exists a b, price_of (tp_pair p) proxy a /\ price_of (tp_pair p) own b /\ agree_within dispersion_bps a b) as ->
    by (split; [intros [?|[?|[?|?]]]; [done|done|lia|done]|intros; by right; right; right]).
  unfold price_of. destruct (computeNormalizedVWAP fcfg proxy (tp_pair p)) as [a|]; [|cbn; split; [done|naive_solver]].
  destruct (computeNormalizedVWAP fcfg own (tp_pair p)) as [b|]; [|cbn; split; [done|naive_solver]].
  destruct (Qle_bool a 0) eqn:Ea; [apply Qle_bool_iff in Ea; cbn; split; [done|]; intros (? & ? & [[= <-] ?] & _); lra|].
  destruct (Qle_bool b 0) eqn:Eb; [apply Qle_bool_iff in Eb; cbn; split; [done|]; intros (? & ? & _ & [[= <-] ?] & _); lra|].
  apply Qle_bool_false in Ea, Eb. cbn [orb lr_surfaceUncomputable lr_surfaceDivergence].
  destruct (Qlt_b (bps dispersion_bps) (rel_dev a b)) eqn:Ed.
  - apply Qlt_b_true in Ed. split; [done|]. intros (? & ? & [[= <-] _] & [[= <-] _] & Hag%rel_dev_agree); [lra|done].
  - apply Qlt_b_false, rel_dev_agree in Ed; [|done]. split; [intros _; by exists a, b|done].
Qed.

Lemma isFXLeg_fiat leg : isFXLeg leg = bool_decide (Type_ (Base leg) = AssetFiat /\ Type_ (Quote leg) = AssetFiat).
Proof. unfold isFXLeg. by rewrite bool_decide_and. Qed.

Lemma fx_accepted now at_ src : fxSnapRejection now at_ src (fx_max_age fcfg) = false <->
  at_ <> zero_time /\ time_Sub now at_ <= (if FXMaxAge fcfg <=? 0 then 76 * Hour else FXMaxAge fcfg)
  /\ forall s, s ∈ strings_Split src "+"%char -> IsFXSource s = true.
Proof.
  unfold fxSnapRejection, fx_max_age, DefaultCompositeReferenceFXMaxAge, time_IsZero. rewrite !orb_false_iff, Z.eqb_neq, Z.ltb_ge.
  enough (existsb (fun p => negb (IsFXSource p)) (strings_Split src "+"%char) = false
          <-> forall s, s ∈ strings_Split src "+"%char -> IsFXSource s = true) by tauto.
  rewrite <- not_true_iff_false, existsb_exists. setoid_rewrite <- list_elem_of_In. setoid_rewrite negb_true_iff. split.
  - intros Hn s Hs. destruct (IsFXSource s) eqn:E; [done|]. destruct Hn. by exists s.
  - intros HA (s & Hs & E). rewrite (HA s Hs) in E. done.
Qed.

Lemma referenceLeg_stands pubs leg window now price :
  (exists n, referenceLeg fcfg fx (tick_legs pubs) leg window now c = (Some price, n, None)) <-> leg_stands pubs window now leg price.
Proof.
  unfold referenceLeg, leg_stands. rewrite isFXLeg_fiat. destruct (decide (Type_ (Base leg) = AssetFiat /\ Type_ (Quote leg) = AssetFiat)) as [Hd|Hd].
  - rewrite bool_decide_true by done. cbn [negb]. destruct fx as [rate|]; [|naive_solver]. destruct (rate leg now) as [| |[p|] at_ src] eqn:ER.
    1, 2, 4: split; [by intros (? & [=])|intros (_ & ? & ? & ? & [= <-] & E & _); congruence].
    destruct (Qle_bool p 0) eqn:E0; [apply Qle_bool_iff in E0; split; [naive_solver|]; intros (? & ? & ? & ? & [= <-] & E & _); rewrite ER in E; injection E as <- _ _; lra|].
    apply Qle_bool_false in E0. pose proof (fx_accepted now at_ src) as HF. destruct (fxSnapRejection _ _ _ _).
    + split; [naive_solver|]. intros (_ & ? & ? & ? & [= <-] & E & HA). rewrite ER in E. injection E as <- <- <-. by apply HF in HA.
    + split; [intros (n & [= <- _]); split; [done|]; exists rate, at_, src; split_and!; try done; by apply HF|].
      intros (_ & ? & ? & ? & [= <-] & E & _). rewrite ER in E. injection E as <- _ _. by eexists.
  - rewrite bool_decide_false by done. cbn [negb]. pose proof (tick_legs_last pubs window leg) as HT.
    destruct (tick_legs pubs !! _) as [lr|]; [|split; [naive_solver|]; intros (_ & p & Hp & _); by destruct (HT p)].
    destruct HT as (p & Hp & ->). set (lr := newLegRef _ _ _ _ _). pose proof (newLegRef_price fcfg (tp_pair p) (tp_vwap p) (tp_trades p) (tp_proxied p)) as Hpr.
    fold lr in Hpr. rewrite Hpr.
    assert (forall q, last_publication pubs window leg q -> q = p) as HU.
    { intros q Hq. destruct Hp as (l1 & l2 & E1 & Hw & Hs & Hno), Hq as (k1 & k2 & E2 & Hw' & Hs' & Hno'). rewrite E1 in E2.
      apply app_eq_inv in E2 as [(k & -> & E2)|(k & -> & E2)]; destruct k as [|x k]; simplify_eq/=; try done;
        [by destruct (Hno' p); [apply elem_of_app; right; left|]|by destruct (Hno q); [apply elem_of_app; right; left|]]. }
    destruct (Qle_bool (tp_vwap p) 0) eqn:E0; [apply Qle_bool_iff in E0; split; [naive_solver|]; intros (Hpos & q & ->%HU & -> & _); lra|].
    apply Qle_bool_false in E0. pose proof (newLegRef_venues p E0) as HV. pose proof (newLegRef_surfaces p) as HS. fold lr in HV, HS. cbv zeta in HV.
    split.
    + intros (n & E). destruct (lr_sources lr <? MinLegSources c); [done|]. destruct (lr_dispersionUncomputable lr); [done|].
      destruct (match lr_dispersion lr with Some _ => _ | None => _ end); [done|]. destruct (quoteSurfaceRefusal lr _) eqn:EQ; [done|]. injection E as <- _.
      split; [done|]. exists p. split_and!; try done; [by apply HV|by apply HS].
    + intros (_ & q & ->%HU & -> & (H1 & H2 & H3)%HV & H4%HS). rewrite H1, H2, H3, H4. by eexists.
Qed.

Lemma compose_legs_exact pubs window now legs : forall acc sources dispersion,
  match compose_legs fcfg rcfg fx (tick_legs pubs) window now legs acc sources dispersion with
  | inl (comp, _, _) => exists prices, Forall2 (leg_stands pubs window now) legs prices /\ comp = foldl Qmult acc prices
  | inr r => verdict (rd_ref r) = compositeVerdictUnavailable /\ forall prices, ~ Forall2 (leg_stands pubs window now) legs prices
  end.
Proof.
  induction legs as [|leg legs IH]; intros acc sources dispersion; cbn [compose_legs]; [exists []; split; [constructor|done]|].
  pose proof (referenceLeg_stands pubs leg window now) as HL. unfold c in HL.
  destruct (referenceLeg fcfg fx (tick_legs pubs) leg window now (ref_withDefaults rcfg)) as [[price n] why].
  assert ((forall p, (price, why) <> (Some p, None)) -> forall prices, ~ Forall2 (leg_stands pubs window now) (leg :: legs) prices) as HN.
  { intros Hne prices HF. inversion HF as [|? p ? ps Hp _]; subst. apply HL in Hp as (n' & E). injection E as -> _ ->. by apply (Hne p). }
  destruct why as [why|]; [split; [done|by apply HN]|]. destruct price as [price|]; [|split; [done|by apply HN]].
  set (d := match _ with Some _ => _ | None => _ end). set (s := if 0 <? n then _ else _). specialize (IH (acc * price)%Q s d).
  assert (leg_stands pubs window now leg price) as Hp by (apply HL; by exists n).
  destruct (compose_legs _ _ _ _ _ _ _ _ _ _) as [[[comp s'] d']|r].
  - destruct IH as (prices & HF & ->). exists (price :: prices). split; [by constructor|done].
  - destruct IH as (Hv & HF). split; [done|]. intros prices HF'. inversion HF' as [|? ? ? ps _ HF2]; subst. by apply (HF ps).
Qed.

(** A leg has one price. *)
Lemma leg_stands_functional pubs window now leg p q : leg_stands pubs window now leg p -> leg_stands pubs window now leg q -> p = q.
Proof. intros (n & E1)%referenceLeg_stands (m & E2)%referenceLeg_stands. congruence. Qed.

Lemma product_pos (P : Pair -> Q -> Prop) legs prices acc : (forall leg p, P leg p -> 0 < p)%Q -> Forall2 P legs prices -> (0 < acc)%Q -> (0 < foldl Qmult acc prices)%Q.
Proof. intros HP HF. revert acc. induction HF as [|l p ls ps Hl HF IH]; intros acc Ha; cbn [foldl]; [done|]. apply IH. specialize (HP l p Hl). nra. Qed.

(** The first chain of the configuration for a pair. *)
Definition first_chain (pair : Pair) (chain : TriangulationChain) : Prop :=
  exists l1 l2, chains = l1 ++ chain :: l2 /\ Target chain = pair /\ forall ch, ch ∈ l1 -> Target ch <> pair.

Lemma chainForTarget_first pair :
  match chainForTarget chains pair with Some chain => first_chain pair chain | None => forall chain, ~ first_chain pair chain end.
Proof.
  unfold chainForTarget, first_chain. induction chains as [|ch l IH]; cbn [List.find]; [intros chain (l1 & l2 & E & _); by destruct l1|].
  destruct (Pair_Equal (Target ch) pair) eqn:E.
  - apply Pair_Equal_spec in E. exists [], l. split_and!; try done. intros x Hx. by apply elem_of_nil in Hx.
  - assert (Target ch <> pair) as Hne by (intros Ht; by apply Pair_Equal_spec in Ht; congruence).
    destruct (List.find _ l) as [chain|].
    + destruct IH as (l1 & l2 & -> & Ht & Hno). exists (ch :: l1), l2. split_and!; try done. intros x [->|Hx]%elem_of_cons; [done|by apply Hno].
    + intros chain (l1 & l2 & E1 & Ht & Hno). destruct l1 as [|x l1]; injection E1 as -> E1; [done|]. apply (IH chain). exists l1, l2. split_and!; try done.
      intros y Hy. apply Hno. by right.
Qed.
End Composite.

(** A price that does not vanish or overflow as a float64. *)
Definition representable (q : Q) : Prop := f64_lt f64_zero (rat_Float64 q) = true /\ IsInf (rat_Float64 q) = false.

Lemma unusable_representable comp direct : unusable (rat_Float64 comp) (rat_Float64 direct) = false <-> representable comp /\ representable direct.
Proof.
  unfold unusable, representable. rewrite !orb_false_iff.
  rewrite !f64_lt_negb_le by (apply rat_Float64_rounds || done). rewrite !negb_true_iff. tauto.
Qed.

Section Verdict.
Context (fcfg : FetchConfig) (rcfg : CompositeReferenceConfig) (chains : list TriangulationChain) (fx : FXRates).
Context (pubs : list published_bucket) (pair : Pair) (window : Duration) (now : Time) (direct : Q).

(** [comp] is the product of the legs of the pair's chain, all of which stand. *)
Definition composite_stands (comp : Q) : Prop :=
  exists chain prices, first_chain chains pair chain
    /\ Forall2 (leg_stands fcfg rcfg fx pubs window now) (Legs chain) prices /\ comp = foldl Qmult 1%Q prices
    /\ (0 < direct)%Q /\ representable comp /\ representable direct.

Lemma first_chain_unique ch ch' : first_chain chains pair ch -> first_chain chains pair ch' -> ch = ch'.
Proof.
  intros (l1 & l2 & E1 & Ht & Hno) (k1 & k2 & E2 & Ht' & Hno'). rewrite E1 in E2.
  apply app_eq_inv in E2 as [(k & -> & E2)|(k & -> & E2)]; destruct k as [|x k]; simplify_eq/=; try done;
    match goal with HX : forall c, c ∈ ?k ++ ?y :: _ -> _ |- _ => exfalso; apply (HX y); [apply elem_of_app; right; left|done] end.
Qed.

Lemma leg_prices_unique legs ps qs :
  Forall2 (leg_stands fcfg rcfg fx pubs window now) legs ps -> Forall2 (leg_stands fcfg rcfg fx pubs window now) legs qs -> ps = qs.
Proof.
  intros HF. revert qs. induction HF as [|l p ls ps Hp HF IH]; intros qs HF'; inversion HF' as [|? q ? qs' Hq HF2]; subst; [done|].
  f_equal; [by eapply leg_stands_functional|by apply IH].
Qed.

Lemma composite_stands_unique comp comp' : composite_stands comp -> composite_stands comp' -> comp = comp'.
Proof.
  intros (ch & ps & Hc & HF & -> & _) (ch' & ps' & Hc' & HF' & -> & _).
  rewrite (first_chain_unique ch' ch Hc' Hc) in HF'. by rewrite (leg_prices_unique _ _ _ HF HF').
Qed.

Lemma resolve_verdict :
  let r := resolveCompositeReference fcfg rcfg chains fx (tick_legs fcfg pubs) pair window now direct in
  match verdict (rd_ref r) with
  | compositeVerdictUnavailable => forall comp, ~ composite_stands comp
  | v => exists comp, composite_stands comp /\ rd_price r = Some comp /\ deviationRatio (rd_ref r) = Some (rel_dev direct comp)
           /\ v = if Qle_bool (rel_dev direct comp) (bps (tolerance_bps rcfg)) then compositeVerdictCorroborated else compositeVerdictRefuted
  end.
Proof.
  cbv zeta. unfold resolveCompositeReference. pose proof (chainForTarget_first chains pair) as HC.
  destruct (chainForTarget chains pair) as [chain|]; [|cbn; intros comp (ch & ps & Hch & _); by destruct (HC ch)].
  destruct (Qle_bool direct 0) eqn:E0; [apply Qle_bool_iff in E0; cbn; intros comp (ch & ps & _ & _ & _ & ? & _); lra|]. apply Qle_bool_false in E0.
  pose proof (compose_legs_exact fcfg rcfg fx pubs window now (Legs chain) 1 ∅ ∅) as HL.
  destruct (compose_legs _ _ _ _ _ _ _ _ _ _) as [[[comp sources] dispersion]|r'].
  2:{ destruct HL as [-> HN]. intros comp (ch & ps & Hch & HF & _). rewrite (first_chain_unique ch chain Hch HC) in HF. by destruct (HN ps). }
  destruct HL as (prices & HF & Ec). pose proof (unusable_representable comp direct) as HR. destruct (unusable _ _).
  - cbn. intros comp' (ch & ps & Hch & HF' & -> & _ & H1 & H2). rewrite (first_chain_unique ch chain Hch HC) in HF'.
    rewrite (leg_prices_unique _ _ _ HF' HF), <- Ec in H1. discriminate (proj2 HR (conj H1 H2)).
  - destruct (proj1 HR eq_refl) as [H1 H2]. cbn [rd_ref verdict rd_price deviationRatio].
    change (ToleranceBps (ref_withDefaults rcfg)) with (tolerance_bps rcfg).
    assert (composite_stands comp) by (by exists chain, prices).
    destruct (Qle_bool (rel_dev direct comp) (bps (tolerance_bps rcfg))) eqn:Eq; exists comp; split_and!; try done; by rewrite Eq.
Qed.

Lemma composite_stands_pos comp : composite_stands comp -> (0 < comp)%Q.
Proof. intros (ch & ps & _ & HF & -> & _). eapply product_pos; [|done|done]. by intros leg p [H _]. Qed.

(** C12: the second opinion that can stand down a freeze is one. A composite
    that agrees with or refutes a direct price exists exactly when the pair
    has a chain, each leg of which stands: a market published in this tick
    with enough venues (two, unless configured) where, if there are several,
    every venue has a price of its own within the dispersion limit of the
    published one, and whose proxied and own trades have prices that agree; or
    a positive rate that is recent (76 hours, unless configured) and comes
    only from providers of rates; and neither price vanishes or overflows as a
    float. It is then the product of the legs, and agrees exactly when the
    direct price lies within the tolerance of it (75 basis points, unless
    configured). In every other case the verdict is that there is no
    reference. *)
Theorem composite_reference_sound :
  let r := resolveCompositeReference fcfg rcfg chains fx (tick_legs fcfg pubs) pair window now direct in
  (forall comp, composite_stands comp ->
     rd_price r = Some comp /\ (0 < comp)%Q
     /\ (exists d, deviationRatio (rd_ref r) = Some d /\ (d * comp == Qabs (direct - comp))%Q)
     /\ (verdict (rd_ref r) = compositeVerdictCorroborated <-> agree_within (tolerance_bps rcfg) direct comp)
     /\ (verdict (rd_ref r) = compositeVerdictRefuted <-> ~ agree_within (tolerance_bps rcfg) direct comp))
  /\ ((forall comp, ~ composite_stands comp) -> verdict (rd_ref r) = compositeVerdictUnavailable).
Proof.
  cbv zeta. pose proof resolve_verdict as HV. cbv zeta in HV. set (r := resolveCompositeReference _ _ _ _ _ _ _ _ _) in *. split.
  - intros comp Hc. pose proof (composite_stands_pos comp Hc) as Hp. rewrite <- (rel_dev_agree (tolerance_bps rcfg) direct comp Hp), <- Qle_bool_iff.
    destruct (verdict (rd_ref r)) eqn:Ev; [..|by destruct (HV comp)];
      destruct HV as (comp' & Hc' & Hpr & Hd & Hv); rewrite (composite_stands_unique comp' comp Hc' Hc) in *;
      (split; [done|]; split; [done|]; split; [exists (rel_dev direct comp); split; [done|unfold rel_dev; field; lra]|]);
      destruct (Qle_bool _ _); simplify_eq; naive_solver.
  - intros HN. destruct (verdict (rd_ref r)); [..|done]; destruct HV as (comp & Hc & _); by destruct (HN comp).
Qed.
End Verdict.

(** ** The minutes that are scored *)

(** A move out of nothing, and a move by a fraction. *)
Definition unbounded (s : priceStep) : Prop := exists p c, st_prev s = Some p /\ st_curr s = Some c /\ (p == 0)%Q /\ ~ (c == 0)%Q.
Definition moved (s : priceStep) (m : Q) : Prop := exists p c, st_prev s = Some p /\ st_curr s = Some c /\ ~ (p == 0)%Q /\ m = step_move p c.

Lemma worst_loop_spec l : forall worst wm, (forall m, wm = Some m -> moved worst m) ->
  let w := worst_loop l worst wm in
  (forall m, wm = Some m -> unbounded w \/ exists m', moved w m' /\ (m <= m')%Q)
  /\ forall s, s ∈ l -> (unbounded s -> unbounded w) /\ forall m, moved s m -> unbounded w \/ exists m', moved w m' /\ (m <= m')%Q.
Proof.
  induction l as [|s l IH]; intros worst wm HW; cbv zeta; cbn [worst_loop].
  { split; [|by intros ? ?%elem_of_nil]. intros m Em. right. exists m. split; [by apply HW|apply Qle_refl]. }
  assert (forall worst' wm', (forall m, wm' = Some m -> moved worst' m) -> (forall m, wm = Some m -> exists m', wm' = Some m' /\ (m <= m')%Q) ->
    (unbounded s -> False) -> (forall m, moved s m -> exists m', wm' = Some m' /\ (m <= m')%Q) ->
    let w := worst_loop l worst' wm' in
    (forall m, wm = Some m -> unbounded w \/ exists m', moved w m' /\ (m <= m')%Q) /\
    forall x, x ∈ s :: l -> (unbounded x -> unbounded w) /\ forall m, moved x m -> unbounded w \/ exists m', moved w m' /\ (m <= m')%Q) as HGo.
  { intros worst' wm' HW' Hup Hu Hs w. destruct (IH worst' wm' HW') as [H1 H2]. fold w in H1, H2.
    assert (forall m, (exists m', wm' = Some m' /\ (m <= m')%Q) -> unbounded w \/ exists m', moved w m' /\ (m <= m')%Q) as HX.
    { intros m (m' & Em & Hm). destruct (H1 m' Em) as [|(m2 & H3 & H4)]; [by left|]. right. exists m2. split; [done|lra]. }
    split; [intros m Em; apply HX, Hup, Em|]. intros x [->|Hx]%elem_of_cons; [|by apply H2]. split; [by intros ?%Hu|]. intros m Hm. by apply HX, Hs. }
  destruct (st_prev s) as [p|] eqn:EP.
  2:{ apply HGo; [done|intros m Em; exists m; split; [done|apply Qle_refl]|..]; [intros (p & c & Hp & _)|intros m (p & c & Hp & _)]; congruence. }
  destruct (st_curr s) as [c|] eqn:ECu.
  2:{ apply HGo; [done|intros m Em; exists m; split; [done|apply Qle_refl]|..]; [intros (q & c & _ & Hc & _)|intros m (q & c & _ & Hc & _)]; congruence. }
  destruct (Qeq_bool p 0) eqn:E0.
  - apply Qeq_bool_eq in E0. destruct (Qeq_bool c 0) eqn:E1.
    + apply Qeq_bool_eq in E1. apply HGo; [done|intros m Em; exists m; split; [done|apply Qle_refl]|..].
      * intros (q & d & Hq & Hd & _ & Hn). rewrite ECu in Hd. injection Hd as <-. done.
      * intros m (q & d & Hq & _ & Hn & _). rewrite EP in Hq. injection Hq as <-. done.
    + apply Qeq_bool_neq in E1. assert (unbounded s) by (by exists p, c). split; [by left|]. intros x _. split; [done|by left].
  - apply Qeq_bool_neq in E0. assert (moved s (step_move p c)) as Hm by (by exists p, c).
    assert (forall m, moved s m -> m = step_move p c) as Hu by (intros m (q & d & Hq & Hd & _ & ->); congruence).
    assert (unbounded s -> False) as Hnu by (intros (q & d & Hq & _ & Hz & _); rewrite EP in Hq; injection Hq as <-; done).
    destruct (match wm with None => true | Some w => negb (Qle_bool (step_move p c) w) end) eqn:EB.
    + apply HGo; [by intros m [= <-]| |done|intros m Hm'; exists (step_move p c); split; [done|rewrite (Hu m Hm'); apply Qle_refl]].
      intros m ->. apply negb_true_iff, Qle_bool_false in EB. exists (step_move p c). split; [done|lra].
    + destruct wm as [wm|]; [|done]. apply negb_false_iff, Qle_bool_iff in EB.
      apply HGo; [done|intros m Em; exists m; split; [done|apply Qle_refl]|done|]. intros m Hm'. exists wm. split; [done|]. by rewrite (Hu m Hm').
Qed.

(** The move that the first check of an anomaly sees is the largest of the
    moves of the bucket. *)
Theorem worstStep_worst mb fallback s : s ∈ steps mb fallback ->
  let w := worstStep mb fallback in
  (unbounded s -> unbounded w) /\ forall m, moved s m -> unbounded w \/ exists m', moved w m' /\ (m <= m')%Q.
Proof. intros Hs. cbv zeta. unfold worstStep. by apply (worst_loop_spec (steps mb fallback)). Qed.

Section Scored.
Context (cfg : FetchConfig) (pair : Pair) (trades : list Trade).

Definition priced_minute (k : Z) : option minuteVWAP := option_map (fun v => mkMinute k (Some v)) (bucketVWAP cfg pair (in_minute trades k)).

(** The minutes of a window that have a price, oldest first. *)
Definition priced_minutes : list minuteVWAP := rev (omap priced_minute (minute_keys trades)).

Definition before_last (last : option minuteVWAP) (m : minuteVWAP) : Prop := match last with None => True | Some l => mv_at m < mv_at l end.

Lemma score_loop_spec last keys acc : StronglySorted (fun a b => (b <=? a) = true) keys ->
  exists taken rest, omap priced_minute keys = taken ++ rest /\ score_loop cfg pair trades last keys acc = (acc ++ taken, head rest)
    /\ (acc = [] -> omap priced_minute keys <> [] -> taken <> []) /\ Forall (before_last last) rest.
Proof.
  revert acc. induction keys as [|k keys IH]; intros acc HS; [exists [], []; cbn; rewrite app_nil_r; by split_and!|].
  apply StronglySorted_inv in HS as [HS HB]. change (omap priced_minute (k :: keys)) with (match priced_minute k with Some m => m :: omap priced_minute keys | None => omap priced_minute keys end).
  assert (priced_minute k = option_map (fun v => mkMinute k (Some v)) (bucketVWAP cfg pair (in_minute trades k))) as -> by done.
  cbn [score_loop]. destruct (bucketVWAP cfg pair (in_minute trades k)) as [v|] eqn:EV; cbn [option_map].
  2:{ apply IH, HS. }
  destruct ((0 <? length acc)%nat && match last with None => true | Some l => time_Before k (mv_at l) end) eqn:EB.
  - apply andb_prop in EB as [Ea El]. exists [], (mkMinute k (Some v) :: omap priced_minute keys). rewrite app_nil_r. split_and!; try done; [intros ->; done|].
    destruct last as [l|]; [|apply Forall_forall; by intros]. apply Z.ltb_lt in El. constructor; [done|]. apply Forall_forall. intros m Hm.
    apply list_elem_of_omap in Hm as (k' & Hk' & Em). unfold priced_minute in Em. destruct (bucketVWAP cfg pair (in_minute trades k')); [|done]. injection Em as <-.
    rewrite Forall_forall in HB. specialize (HB k' Hk'). apply Z.leb_le in HB. cbn. lia.
  - destruct (IH (acc ++ [mkMinute k (Some v)]) HS) as (taken & rest & H1 & H2 & H3 & H4). exists (mkMinute k (Some v) :: taken), rest. rewrite H1, H2, <- app_assoc. by split_and!.
Qed.
End Scored.

(** *** The minutes of a window on their own terms *)

(** The start of the minute of a trade, in nanoseconds of Unix time (an int64). *)
Definition minute_start (t : Trade) : Z := wraps 64 (tr_Timestamp t / (60 * 10 ^ 9) * (60 * 10 ^ 9)).

(** The minutes of the trades that have a price, oldest first, each with the
    price of exactly its trades. *)
Definition minute_prices (cfg : FetchConfig) (pair : Pair) (trades : list Trade) (all : list minuteVWAP) : Prop :=
  StronglySorted (fun a b => mv_at a < mv_at b) all
  /\ forall m, m ∈ all <-> exists v, mv_vwap m = Some v /\ (exists t, t ∈ trades /\ minute_start t = mv_at m)
       /\ computeNormalizedVWAP cfg (List.filter (fun t => minute_start t =? mv_at m) trades) pair = Ok v.

Lemma minute_key_start t : minute_key t = minute_start t.
Proof.
  unfold minute_key, minute_start, time_UnixNano, time_Truncate. f_equal. change closedBucket with (60 * 10 ^ 9).
  change (60 * 10 ^ 9 <=? 0) with false. cbv iota. change zero_time with (-1035593280 * (60 * 10 ^ 9)).
  replace (tr_Timestamp t - -1035593280 * (60 * 10 ^ 9)) with (tr_Timestamp t + 1035593280 * (60 * 10 ^ 9)) by lia.
  rewrite Z_mod_plus_full. pose proof (Z.div_mod (tr_Timestamp t) (60 * 10 ^ 9) ltac:(lia)). lia.
Qed.

Lemma minute_keys_sorted trades : StronglySorted (fun a b => b < a) (minute_keys trades).
Proof.
  unfold minute_keys. set (l := remove_dups _). assert (NoDup l) as Hnd by apply NoDup_remove_dups.
  assert (StronglySorted (fun a b => (b <=? a) = true) (isort (fun a b => b <=? a) l)) as HS
    by (apply isort_sorted; [intros x y|intros x y z]; rewrite !Z.leb_le; lia).
  rewrite <- (isort_perm (fun a b => b <=? a) l) in Hnd. revert Hnd. induction HS as [|x s HS IH HF]; intros Hnd; constructor.
  - apply IH. by inversion Hnd.
  - apply NoDup_cons in Hnd as [Hx _]. apply Forall_forall. intros y Hy. rewrite Forall_forall in HF. specialize (HF y Hy). apply Z.leb_le in HF.
    assert (x <> y) by (intros ->; done). lia.
Qed.

Lemma priced_minutes_prices cfg pair trades : minute_prices cfg pair trades (priced_minutes cfg pair trades).
Proof.
  assert (forall k, in_minute trades k = List.filter (fun t => minute_start t =? k) trades) as Hin.
  { intros k. unfold in_minute. induction trades as [|t l IH]; [done|]. cbn [List.filter]. rewrite IH. by rewrite minute_key_start. }
  assert (forall m, m ∈ priced_minutes cfg pair trades <-> exists v, mv_vwap m = Some v /\ mv_at m ∈ minute_keys trades
            /\ computeNormalizedVWAP cfg (List.filter (fun t => minute_start t =? mv_at m) trades) pair = Ok v) as HE.
  { intros m. unfold priced_minutes. rewrite <- Permutation_rev, list_elem_of_omap. unfold priced_minute, bucketVWAP. setoid_rewrite Hin. split.
    - intros (k & Hk & E). destruct (computeNormalizedVWAP _ _ _) as [v|] eqn:Ev; [|done]. injection E as <-. by exists v.
    - intros (v & Hv & Hk & Ev). exists (mv_at m). split; [done|]. rewrite Ev. cbn. destruct m; cbn in *. by rewrite Hv. }
  split.
  - unfold priced_minutes. pose proof (minute_keys_sorted trades) as HS.
    assert (forall l, StronglySorted (fun a b => b < a) l -> StronglySorted (fun a b => mv_at b < mv_at a) (omap (priced_minute cfg pair trades) l)) as HO.
    { intros l Hl. induction Hl as [|k l Hl IH HF]; [constructor|]. change (omap ?f (k :: l)) with (match f k with Some y => y :: omap f l | None => omap f l end).
      destruct (priced_minute cfg pair trades k) as [m|] eqn:Em; [|done]. constructor; [done|]. apply Forall_forall. intros x (k' & Hk' & Ex)%list_elem_of_omap.
      rewrite Forall_forall in HF. specialize (HF k' Hk'). unfold priced_minute in Em, Ex. destruct (bucketVWAP _ _ (in_minute trades k)); [|done]. destruct (bucketVWAP _ _ (in_minute trades k')); [|done].
      injection Em as <-. injection Ex as <-. exact HF. }
    apply HO in HS. clear -HS. induction HS as [|m l HS IH HF]; cbn [rev]; [constructor|]. apply StronglySorted_app_2; [|done|by repeat constructor].
    intros x y Hx ->%list_elem_of_singleton. rewrite <- Permutation_rev in Hx. rewrite Forall_forall in HF. by apply HF.
  - intros m. rewrite HE. apply exist_proper. intros v. apply and_iff_compat_l, and_iff_compat_r. unfold minute_keys.
    rewrite elem_of_isort, elem_of_remove_dups, list_elem_of_fmap. setoid_rewrite minute_key_start. split; intros (t & H1 & H2); exists t; done.
Qed.

(** The steps of a run: every scored minute against the one before it. *)
Lemma step_list_pairs prev ms : map (fun s => (st_prev s, st_curr s)) (step_list prev ms) = combine (map mv_vwap (prev :: ms)) (map mv_vwap ms).
Proof. revert prev. induction ms as [|m ms IH]; intros prev; [done|]. cbn [step_list map combine st_prev st_curr]. rewrite IH. done. Qed.

(** C19: no minute of a market escapes the freeze check. A decision scores the
    minutes of its window that have a price, each at the price of exactly its
    trades, as one run up to the newest, at least one if there is any, and
    leaves out only minutes before the one the last decision ended with; each
    is compared with the minute before it, the first with the minute right
    before it in the window, or else with the last minute scored, or else with
    the fallback; and the next decision starts at the newest minute of this
    one. *)
Theorem every_minute_scored cfg pair trades last rolling mb last' :
  scoreMinutes cfg pair trades last rolling = (mb, last') ->
  exists all older, minute_prices cfg pair trades all /\ all = older ++ mb_minutes mb
    /\ (all <> [] -> mb_minutes mb <> [])
    /\ (forall l m, last = Some l -> m ∈ all -> mv_at l <= mv_at m -> m ∈ mb_minutes mb)
    /\ (mb_minutes mb <> [] -> last' = List.last (map Some (mb_minutes mb)) None
        /\ mb_pred mb = match List.last (map Some older) None, last with
                        | Some m, _ => Some m
                        | None, Some l => match mb_minutes mb with m :: _ => if mv_at l <? mv_at m then Some l else None | [] => None end
                        | None, None => None
                        end
        /\ forall fallback, map (fun s => (st_prev s, st_curr s)) (steps mb fallback)
             = combine (match mb_pred mb with Some m => mv_vwap m | None => fallback end :: map mv_vwap (mb_minutes mb)) (map mv_vwap (mb_minutes mb))).
Proof.
  pose proof (priced_minutes_prices cfg pair trades) as HPr. unfold scoreMinutes.
  destruct (score_loop_spec cfg pair trades last (minute_keys trades) []) as (taken & rest & HE & -> & HN & HB).
  { unfold minute_keys. apply isort_sorted; [intros x y|intros x y z]; rewrite !Z.leb_le; lia. }
  assert (forall l, List.last (map Some (rev l)) None = (head l : option minuteVWAP)) as HL.
  { intros [|x l]; [done|]. cbn [rev]. rewrite map_app. apply last_last. }
  assert (forall l m, last = Some l -> m ∈ priced_minutes cfg pair trades -> mv_at l <= mv_at m -> m ∈ rev taken) as HC.
  { intros l m -> Hm Hle. unfold priced_minutes in Hm. rewrite HE, rev_app_distr in Hm. apply elem_of_app in Hm as [Hm|Hm]; [|done]. rewrite <- Permutation_rev in Hm. rewrite Forall_forall in HB. specialize (HB m Hm). cbn in HB. lia. }
  cbn [app]. destruct taken as [|m0 taken]; intros [= <- <-]; exists (priced_minutes cfg pair trades), (rev rest); cbn [mb_minutes mb_pred]; (split; [done|]).
  - split; [unfold priced_minutes; by rewrite HE, app_nil_r|]. split; [|split; [done|done]].
    intros HP _. apply HN; [done| |done]. intros E. apply HP. unfold priced_minutes. by rewrite E.
  - split; [unfold priced_minutes; rewrite HE; apply rev_app_distr|]. split; [intros _ E; by destruct (rev taken)|]. split; [done|].
    intros _. change (rev taken ++ [m0]) with (rev (m0 :: taken)). rewrite (HL (m0 :: taken)), HL. split; [done|]. split; [destruct rest as [|x rest], last as [l|]; done|].
    intros fallback. unfold steps. cbn [mb_minutes mb_pred]. destruct (rev (m0 :: taken)) as [|m ms] eqn:ER; [cbn [rev] in ER; by destruct (rev taken)|].
    rewrite step_list_pairs. cbn [map]. f_equal. f_equal. by destruct (match head rest with Some _ => _ | None => _ end).
Qed.

(** ** Instances *)

Definition evidence_cfg : FetchConfig := mkFetch 4 false [] [] f64_zero f64_one false [] None 0.

(** Three minutes of one market, the first of them scored before. *)
Definition scored_trades : list Trade := [trade_ex "kraken" 1000 100 12; trade_ex "kraken" (Minute + 5) 100 12; trade_ex "coinbase" (2 * Minute + 1) 100 14].

Lemma every_minute_scored_witness :
  let last := Some (mkMinute 0 (Some (12 # 100)%Q)) in
  exists mb last', scoreMinutes evidence_cfg xlm_usd scored_trades last (13 # 100) = (mb, last')
  /\ map mv_at (mb_minutes mb) = [0; Minute; 2 * Minute]
  /\ exists all, minute_prices evidence_cfg xlm_usd scored_trades all /\ forall m, m ∈ all -> 0 <= mv_at m -> m ∈ mb_minutes mb.
Proof.
  cbv zeta. destruct (scoreMinutes evidence_cfg xlm_usd scored_trades (Some (mkMinute 0 (Some (12 # 100)%Q))) (13 # 100)) as [mb last'] eqn:E. exists mb, last'.
  destruct (every_minute_scored _ _ _ _ _ _ _ E) as (all & older & HP & H1 & H2 & H3 & H4). split; [done|]. split.
  - apply (f_equal (fun r => map mv_at (mb_minutes r.1))) in E. cbn [fst] in E. rewrite <- E. by vm_compute.
  - exists all. split; [done|]. intros m Hm Hle. by apply (H3 (mkMinute 0 (Some (12 # 100)%Q)) m).
Defined.

(** A pair against pounds through dollars: two venues that agree and a rate of
    the day before. *)
Definition usd_gbp : Pair := mkPair (mkAsset AssetFiat "USD" "" "") (mkAsset AssetFiat "GBP" "" "").
Definition xlm_gbp : Pair := mkPair NativeAsset (mkAsset AssetFiat "GBP" "" "").
Definition leg_trades : list Trade := [trade_ex "kraken" 1000 10000 1200; trade_ex "coinbase" 2000 10000 1201].
Definition pubs_ex : list published_bucket := [mkPublished xlm_usd Hour (2401 # 20000) leg_trades ∅].
Definition chains_ex : list TriangulationChain := [mkChain xlm_gbp [xlm_usd; usd_gbp]].
Definition rates_ex : FXRates := Some (fun _ now => FXQuote (Some (8 # 10)%Q) (now - 24 * Hour) "ecb").
Definition reference_ex : CompositeReferenceConfig := mkReference true [xlm_gbp] 0 0 0.

Lemma composite_reference_sound_witness :
  let r direct := resolveCompositeReference evidence_cfg reference_ex chains_ex rates_ex (tick_legs evidence_cfg pubs_ex) xlm_gbp Hour (100 * Hour) direct in
  verdict (rd_ref (r (96 # 1000)%Q)) = compositeVerdictCorroborated /\ verdict (rd_ref (r (97 # 1000)%Q)) = compositeVerdictRefuted
  /\ (exists comp, rd_price (r (96 # 1000)%Q) = Some comp /\ (Qabs ((96 # 1000) - comp) <= (75 # 10000) * comp)%Q)
  /\ verdict (rd_ref (resolveCompositeReference evidence_cfg reference_ex chains_ex rates_ex
       (tick_legs evidence_cfg [mkPublished xlm_usd Hour (12 # 100) [trade_ex "kraken" 1000 10000 1200] ∅]) xlm_gbp Hour (100 * Hour) (96 # 1000)))
     = compositeVerdictUnavailable.
Proof.
  cbv zeta. split; [by vm_compute|]. split; [by vm_compute|]. split; [|by vm_compute].
  pose proof (composite_reference_sound evidence_cfg reference_ex chains_ex rates_ex pubs_ex xlm_gbp Hour (100 * Hour) (96 # 1000)) as [HS _]. cbv zeta in HS.
  pose proof (resolve_verdict evidence_cfg reference_ex chains_ex rates_ex pubs_ex xlm_gbp Hour (100 * Hour) (96 # 1000)) as HV. cbv zeta in HV.
  set (r := resolveCompositeReference _ _ _ _ _ _ _ _ _) in *. assert (verdict (rd_ref r) = compositeVerdictCorroborated) as E by (by vm_compute).
  rewrite E in HV. destruct HV as (comp & Hc & _). destruct (HS comp Hc) as (Hp & _ & _ & Hv & _). exists comp. split; [done|]. by apply Hv.
Defined.
