(* ===== verification/Mev.v ===== *)
(** * Arbitrage candidates (internal/aggregate/mev: detector.go, the
    operation references of inputs.go)

    The detectors of this package look for patterns in a batch of trades and
    publish accounts by name, so the theorems say what the evidence of a
    candidate is. Here: what all of them share, and the arbitrage detector,
    which splits the trades of a transaction into asset-connected components
    with a union-find map and keeps those that close a cycle of hops.

    A slice of indices into the batch is a list of the indexed trades,
    [itrade]; a Go map of slices with its key order is [group_by]. The stored
    USD value of a trade is a rational or missing (empty or not a number); a
    sum of values stays a rational where the code prints two decimals, and
    the notes that explain a kind to readers are left out. *)

From S2P Require Import Prelude GoLib Amount Asset Alias Trade.
From Stdlib Require Import Relation_Operators.

Abbreviation itrade := (nat * Trade)%type.

(** ** Grouping *)

Fixpoint add_to {K A} `{EqDecision K} (k : K) (x : A) (gs : list (K * list A)) : list (K * list A) :=
  match gs with
  | [] => [(k, [x])]
  | (k', xs) :: gs => if decide (k = k') then (k', xs ++ [x]) :: gs else (k', xs) :: add_to k x gs
  end.

(** A Go map of slices with the order in which its keys were first seen. *)
Definition group_by {K A} `{EqDecision K} (key : A -> K) (l : list A) : list (K * list A) :=
  foldl (fun gs x => add_to (key x) x gs) [] l.

(** The batch with its indices. *)
Definition indexed (trades : list Trade) : list itrade := imap (fun i t => (i, t)) trades.

Definition base_of (t : Trade) : string := Asset_String (Base (tr_Pair t)).
Definition quote_of (t : Trade) : string := Asset_String (Quote (tr_Pair t)).

Definition sortedKeys (s : gset string) : list string := sort_Strings (elements s).

(** ** Evidence *)

Definition sdexOpIndexStride : Z := 1024.

Record OpRef := mkOpRef { refOp : option (Z * Z); TradeOpIndex : Z }.

Definition amm_sources : list string := ["aquarius"; "comet"; "phoenix"; "soroswap"; "sushiswap_v3"].

Definition opRefOf (t : Trade) : OpRef :=
  let i := tr_OpIndex t in
  mkOpRef (if String.eqb (tr_Source t) "sdex" then Some (i / sdexOpIndexStride, i mod sdexOpIndexStride)
           else if bool_decide (tr_Source t ∈ amm_sources) then Some (Z.shiftr i 16, Z.land i 65535)
           else None) i.

Definition sortKey (r : OpRef) : Z * Z := default (TradeOpIndex r, 0) (refOp r).

Definition before (r o : OpRef) : bool :=
  let '(rOp, rSub) := sortKey r in
  let '(oOp, oSub) := sortKey o in
  if negb (rOp =? oOp) then rOp <? oOp else rSub <? oSub.

Record Leg := mkLeg {
  lgSource : string; lgBase : string; lgQuote : string; lgBaseAmount : string; lgQuoteAmount : string; lgRef : OpRef
}.

Record OrderedLeg := mkOrderedLeg {
  olLeg : Leg; olTxHash : string; olTxIndex : Z; olAccount : string; olRole : string
}.

Record washLeg := mkWashLeg {
  wlLeg : Leg; wlLedger : Z; wlTxHash : string; wlMaker : string; wlTaker : string
}.

(** A liquidation fill and an oracle update as evidence. *)
Record cascadeFillRef := mkCascadeFillRef {
  cfPool : string; cfLiquidated : string; cfFiller : string; cfAuctionType : Z; cfAssets : list string;
  cfLedger : Z; cfTxHash : string; cfOpIndex : Z
}.
Record cascadeOracleRef := mkCascadeOracleRef {
  coSource : string; coContractID : string; coAsset : string; coLedger : Z; coTxHash : string
}.

Inductive detail :=
| ArbDetail
| SandwichDetail (pair attacker : string) (legs : list OrderedLeg)
| OracleSandwichDetail (source contract txHash : string) (txIndex : Z) (asset quote account : string) (legs : list OrderedLeg)
| CascadeDetail (window : Z) (fill : cascadeFillRef) (priors : list cascadeFillRef) (updates : list cascadeOracleRef)
| WashDetail (variant pair : string) (accounts : list string) (legs : list washLeg).

Definition leg_of (t : Trade) : Leg :=
  mkLeg (tr_Source t) (base_of t) (quote_of t) (Amount_String (tr_BaseAmount t)) (Amount_String (tr_QuoteAmount t)) (opRefOf t).

Record notional := mkNotional { NotionalUSD : option Q; NotionalLowerBound : bool; NotionalEstimated : bool }.

Record Candidate := mkCandidate {
  Kind : string;
  cLedger : Z;
  DetectedAtLedger : Z;
  cTimestamp : Time;
  cTxHash : string;
  cTaker : string;
  TxHashes : option (list string);
  Accounts : option (list string);
  Assets : list string;
  Sources : list string;
  AssetID : string;
  QuoteID : string;
  Legs : list Leg;
  cNotional : notional;
  Dedup : string;
  Detail : detail
}.

Definition DedupKey (c : Candidate) : string :=
  if negb (String.eqb (Dedup c) "") then Dedup c else Kind c +:+ ":" +:+ cTxHash c +:+ ":" +:+ cTaker c.

(** The stored USD value of a leg and whether it is an estimate. *)
Record MEVLegUSD := mkLegUSD { usdValue : option Q; Estimated : bool }.

Definition sum_leg (usdVolume : list MEVLegUSD) (acc : Q * (bool * bool * bool)) (x : itrade) : Q * (bool * bool * bool) :=
  let '(total, (priced, unpriced, estimated)) := acc in
  match usdVolume !! x.1 with
  | Some (mkLegUSD (Some v) est) => ((total + v)%Q, (true, unpriced, estimated || est))
  | _ => (total, (priced, true, estimated))
  end.

Definition sumUSD (usdVolume : list MEVLegUSD) (l : list itrade) : notional :=
  let '(total, (priced, unpriced, estimated)) := foldl (sum_leg usdVolume) (0%Q, (false, false, false)) l in
  if negb priced then mkNotional None false false else mkNotional (Some total) unpriced estimated.

(** ** Arbitrage *)

Definition KindArbitrage : string := "arbitrage".
Definition minLegs : nat := 2.

(** [find] with path compression. The recursion follows parents; its fuel is
    shown to be enough by [assetComponents_exact]. *)
Fixpoint find (fuel : nat) (parent : gmap string string) (a : string) : gmap string string * string :=
  match parent !! a with
  | None => (<[a := a]> parent, a)
  | Some p =>
      if String.eqb p a then (<[a := a]> parent, a)
      else match fuel with
           | O => (parent, a)
           | S fuel => let '(parent, r) := find fuel parent p in (<[a := r]> parent, r)
           end
  end.

Definition union_trade (fuel : nat) (parent : gmap string string) (x : itrade) : gmap string string :=
  let '(parent, rb) := find fuel parent (base_of x.2) in
  let '(parent, rq) := find fuel parent (quote_of x.2) in
  <[rb := rq]> parent.

(** The second pass: each trade joins the component of its root. *)
Definition place_trade (fuel : nat) (st : gmap string string * list (string * list itrade)) (x : itrade)
  : gmap string string * list (string * list itrade) :=
  let '(parent, r) := find fuel st.1 (base_of x.2) in (parent, add_to r x st.2).

Definition assetComponents (l : list itrade) : list (list itrade) :=
  let fuel := length l in
  let parent := foldl (union_trade fuel) ∅ l in
  (foldl (place_trade fuel) (parent, []) l).2.*2.

Definition nul : string := String Ascii.zero EmptyString.

Definition hopKey (source a b : string) : string :=
  let '(a, b) := if str_ltb b a then (b, a) else (a, b) in source +:+ nul +:+ a +:+ nul +:+ b.

Definition hop_of (x : itrade) : string := hopKey (tr_Source x.2) (base_of x.2) (quote_of x.2).

Definition assetSet (l : list itrade) : gset string := list_to_set (l ≫= fun x => [base_of x.2; quote_of x.2]).
Definition sourceSet (l : list itrade) : gset string := list_to_set (map (fun x => tr_Source x.2) l).
Definition hopSet (l : list itrade) : gset string := list_to_set (map hop_of l).

Definition isArbCycle (l : list itrade) : bool :=
  let nNodes := size (assetSet l) in
  if (size (hopSet l) <? nNodes)%nat then false
  else (2 <=? size (sourceSet l))%nat || ((2 <? nNodes)%nat && (length l <=? nNodes)%nat).

Definition idx_leb (x y : itrade) : bool := (x.1 <=? y.1)%nat.
Definition leg_leb (a b : Leg) : bool := negb (before (lgRef b) (lgRef a)).

Definition buildArbCandidate (usdVolume : list MEVLegUSD) (l : list itrade) : option Candidate :=
  let kept := concat (List.filter isArbCycle (assetComponents l)) in
  match isort idx_leb kept with
  | [] => None
  | (first :: _) as kept =>
      let t := first.2 in
      Some (mkCandidate KindArbitrage (tr_Ledger t) (tr_Ledger t) (tr_Timestamp t) (tr_TxHash t) (tr_Taker t) None None
              (sortedKeys (assetSet kept)) (sortedKeys (sourceSet kept)) "" ""
              (isort leg_leb (map (fun x => leg_of x.2) kept)) (sumUSD usdVolume kept) "" ArbDetail)
  end.

Definition atomic_trade (x : itrade) : bool :=
  negb ((tr_Ledger x.2 =? 0) || String.eqb (tr_Taker x.2) "" || String.eqb (tr_TxHash x.2) "").

Definition tx_taker (x : itrade) : string := tr_TxHash x.2 +:+ nul +:+ tr_Taker x.2.

Definition DetectArbitrage (trades : list Trade) (usdVolume : list MEVLegUSD) : list Candidate :=
  omap (fun g => if (length g.2 <? minLegs)%nat then None else buildArbCandidate usdVolume g.2)
       (group_by tx_taker (List.filter atomic_trade (indexed trades))).

(** ** Groups *)

Section Groups.
Context {K A : Type} `{EqDecision K}.

Lemma add_to_keys (k : K) (x : A) gs k' : k' ∈ (add_to k x gs).*1 <-> k' = k \/ k' ∈ gs.*1.
Proof.
  induction gs as [|[k0 xs] gs IH]; cbn [add_to fmap list_fmap]; [set_solver|].
  destruct (decide (k = k0)) as [->|Hk]; cbn [fmap list_fmap fst]; rewrite !elem_of_cons; [tauto|].
  rewrite IH. tauto.
Qed.

Lemma add_to_NoDup (k : K) (x : A) gs : NoDup gs.*1 -> NoDup (add_to k x gs).*1.
Proof.
  induction gs as [|[k0 xs] gs IH]; cbn [add_to fmap list_fmap fst]; intros HN; [repeat constructor; set_solver|].
  apply NoDup_cons in HN as [Hk0 HN]. destruct (decide (k = k0)) as [->|Hk]; cbn [fmap list_fmap fst]; apply NoDup_cons; [done|].
  split; [|auto]. rewrite add_to_keys. intros [->|?]; done.
Qed.

Lemma add_to_elem (k : K) (x : A) gs k' xs' : NoDup gs.*1 ->
  (k', xs') ∈ add_to k x gs <->
  (k' <> k /\ (k', xs') ∈ gs) \/ (k' = k /\ ((exists xs, ((k, xs) ∈ gs) /\ xs' = xs ++ [x]) \/ ((k ∉ gs.*1) /\ xs' = [x]))).
Proof.
  induction gs as [|[k0 xs] gs IH]; cbn [add_to fmap list_fmap fst]; intros HN.
  { rewrite list_elem_of_singleton. set_solver. }
  apply NoDup_cons in HN as [Hk0 HN].
  assert (Hin : forall ys, (k0, ys) ∈ gs -> False) by (intros ys Hy; apply Hk0, list_elem_of_fmap; by exists (k0, ys)).
  destruct (decide (k = k0)) as [->|Hk].
  - setoid_rewrite elem_of_cons. split.
    + intros [E|Hy]; [simplify_eq; right; split; [done|]; left; exists xs; split; [by left|done]|].
      left. split; [|auto]. intros ->. eauto.
    + intros [[Hne [E|Hy]]|[-> [(ys & [E|Hy] & ->)|[Hno _]]]]; [by simplify_eq|auto| |by destruct (Hin ys Hy)|].
      * injection E as E. subst ys. by left.
      * exfalso. apply Hno. by left.
  - rewrite elem_of_cons, IH by done. setoid_rewrite elem_of_cons. clear IH. split; [|naive_solver]. intros [E|H]; naive_solver.
Qed.

Lemma group_by_snoc (key : A -> K) l x : group_by key (l ++ [x]) = add_to (key x) x (group_by key l).
Proof. unfold group_by. by rewrite foldl_snoc. Qed.

Lemma filter_snoc_eq (key : A -> K) l x k :
  filter (fun y => key y = k) (l ++ [x]) = filter (fun y => key y = k) l ++ (if decide (key x = k) then [x] else []).
Proof. by rewrite filter_app. Qed.

Lemma filter_key_nil (key : A -> K) l k : (forall y, y ∈ l -> key y <> k) -> filter (fun y => key y = k) l = [].
Proof.
  intros H. destruct (filter _ l) as [|y ys] eqn:E; [done|]. assert (Hy : y ∈ filter (fun y => key y = k) l) by (rewrite E; by left).
  apply list_elem_of_filter in Hy as [? ?]. by destruct (H y).
Qed.

(** A group is what the batch has under its key, in order. *)
Lemma group_by_spec (key : A -> K) l :
  NoDup (group_by key l).*1
  /\ forall k xs, (k, xs) ∈ group_by key l <-> (exists x, x ∈ l /\ key x = k) /\ xs = filter (fun y => key y = k) l.
Proof.
  induction l as [|x l [HN IH]] using rev_ind.
  { split; [constructor|]. intros k xs. split; [by intros ?%elem_of_nil|]. intros [(y & Hy & _) _]. by apply elem_of_nil in Hy. }
  rewrite group_by_snoc. split; [by apply add_to_NoDup|]. intros k xs. rewrite add_to_elem by done. rewrite filter_snoc_eq.
  destruct (decide (key x = k)) as [Hk|Hk].
  - subst k. split.
    + intros [[? _]|[_ [(ys & Hy & ->)|[Hno ->]]]]; [done| |].
      * apply IH in Hy as [_ ->]. split; [|done]. exists x. set_solver.
      * split; [exists x; set_solver|]. rewrite filter_key_nil; [done|].
        intros y Hy E. apply Hno, list_elem_of_fmap. exists (key x, filter (fun z => key z = key x) l).
        split; [done|]. apply IH. split; [|done]. eauto.
    + intros [_ ->]. right. split; [done|]. destruct (filter (fun y => key y = key x) l) as [|y ys] eqn:Ef.
      * right. split; [|done]. intros ([k0 ys] & E & Hy)%list_elem_of_fmap. simpl in E. subst k0.
        apply IH in Hy as [(z & Hz & Ez) _]. assert (Hin : z ∈ filter (fun y => key y = key x) l) by (apply list_elem_of_filter; done).
        rewrite Ef in Hin. by apply elem_of_nil in Hin.
      * left. eexists. split; [|done]. apply IH. split; [|done]. exists y.
        assert (Hin : y ∈ filter (fun y => key y = key x) l) by (rewrite Ef; set_solver).
        apply list_elem_of_filter in Hin as [? ?]. done.
  - rewrite app_nil_r. split.
    + intros [[_ Hy]|[? _]]; [|congruence]. apply IH in Hy as [(y & Hy & Ey) ->]. split; [|done]. exists y. set_solver.
    + intros [(y & Hy & Ey) ->]. left. split; [congruence|]. apply IH. split; [|done]. exists y.
      apply elem_of_app in Hy as [Hy|Hy]; [done|]. apply list_elem_of_singleton in Hy. congruence.
Qed.

Lemma concat_add_to (k : K) (x : A) gs : concat (add_to k x gs).*2 ≡ₚ x :: concat gs.*2.
Proof.
  induction gs as [|[k0 xs] gs IH]; cbn [add_to fmap list_fmap snd concat]; [done|].
  destruct (decide (k = k0)); cbn [fmap list_fmap snd concat].
  - rewrite <- app_assoc. simpl. by rewrite Permutation_middle.
  - rewrite IH. by rewrite Permutation_middle.
Qed.

Lemma concat_group_by (key : A -> K) l : concat (group_by key l).*2 ≡ₚ l.
Proof.
  induction l as [|x l IH] using rev_ind; [done|]. rewrite group_by_snoc, concat_add_to, IH.
  by rewrite Permutation_cons_append.
Qed.

(** Dropping keys from the groups or from the batch is the same. *)
Lemma add_to_filter (good : K -> bool) (k : K) (x : A) gs :
  List.filter (fun g => good g.1) (add_to k x gs) =
  if good k then add_to k x (List.filter (fun g => good g.1) gs) else List.filter (fun g => good g.1) gs.
Proof.
  induction gs as [|[k0 xs] gs IH]; [cbn; by destruct (good k)|]. cbn [add_to].
  destruct (decide (k = k0)) as [->|Hk]; cbn [List.filter fst].
  - destruct (good k0); [|done]. cbn [add_to]. by rewrite decide_True.
  - rewrite IH. destruct (good k), (good k0); try done. cbn [add_to]. by rewrite decide_False.
Qed.

Lemma group_by_filter (good : K -> bool) (key : A -> K) l :
  List.filter (fun g => good g.1) (group_by key l) = group_by key (List.filter (fun x => good (key x)) l).
Proof.
  induction l as [|x l IH] using rev_ind; [done|]. rewrite group_by_snoc, add_to_filter, IH, List.filter_app. cbn [List.filter].
  destruct (good (key x)); [by rewrite group_by_snoc|by rewrite app_nil_r].
Qed.
End Groups.

Lemma bind_filter {A B} (good : A -> bool) (F : A -> list B) l :
  (forall x, x ∈ l -> good x = false -> F x = []) -> l ≫= F = List.filter good l ≫= F.
Proof.
  induction l as [|x l IH]; intros H; [done|]. cbn. rewrite IH by (intros; apply H; [by right|done]).
  destruct (good x) eqn:E; [done|]. rewrite H; [done|by left|done].
Qed.

Lemma bind_ext {A B} (F G : A -> list B) l : (forall x, x ∈ l -> F x = G x) -> l ≫= F = l ≫= G.
Proof. induction l as [|x l IH]; intros H; [done|]. cbn. rewrite H by (by left). f_equal. apply IH. intros. apply H. by right. Qed.

Lemma List_filter_ext_elem {A} (f g : A -> bool) l : (forall x, x ∈ l -> f x = g x) -> List.filter f l = List.filter g l.
Proof. intros H. apply filter_ext_in. intros x Hx. apply H. by apply list_elem_of_In. Qed.

(** ** Connected assets *)

(** Two assets are linked by a batch when a path of its trades joins them. *)
Definition trade_edge (l : list itrade) (a b : string) : Prop :=
  exists x, x ∈ l /\ a = base_of x.2 /\ b = quote_of x.2.

Definition linked (l : list itrade) : relation string := clos_refl_sym_trans string (trade_edge l).

#[export] Instance linked_equivalence l : Equivalence (linked l).
Proof.
  split.
  - intros a. apply rst_refl.
  - intros a b. apply rst_sym.
  - intros a b c. apply rst_trans.
Qed.

(** A relation that holds of the trades' assets holds of linked ones. *)
Lemma linked_ind_equiv l (R : relation string) : Equivalence R ->
  (forall x, x ∈ l -> R (base_of x.2) (quote_of x.2)) -> forall a b, linked l a b -> R a b.
Proof.
  intros HR HX a b H. induction H as [a b (x & Hx & -> & ->)|a|a b _ IH|a b c _ IH1 _ IH2]; [auto|reflexivity|by symmetry|by transitivity b].
Qed.

Lemma linked_trade l x : x ∈ l -> linked l (base_of x.2) (quote_of x.2).
Proof. intros Hx. apply rst_step. by exists x. Qed.

Lemma linked_mono l l' a b : (forall x, x ∈ l -> x ∈ l') -> linked l a b -> linked l' a b.
Proof. intros H. apply linked_ind_equiv; [apply _|]. intros x Hx. by apply linked_trade, H. Qed.

Lemma linked_nil a b : linked [] a b -> a = b.
Proof. apply (linked_ind_equiv [] eq); [apply _|]. intros x Hx. by apply elem_of_nil in Hx. Qed.

(** The representatives after the trades: the base's class takes the
    representative of the quote's. *)
Definition merge (rt : string -> string) (x : itrade) : string -> string :=
  fun a => if decide (rt a = rt (base_of x.2)) then rt (quote_of x.2) else rt a.

Definition roots (l : list itrade) : string -> string := foldl merge (fun a => a) l.

Lemma roots_snoc l x : roots (l ++ [x]) = merge (roots l) x.
Proof. unfold roots. by rewrite foldl_snoc. Qed.

Lemma merge_trade rt x : merge rt x (base_of x.2) = merge rt x (quote_of x.2).
Proof. unfold merge. destruct (decide _); [|done]. by destruct (decide _). Qed.

Lemma merge_mono rt x a b : rt a = rt b -> merge rt x a = merge rt x b.
Proof. unfold merge. by intros ->. Qed.

Lemma roots_linked l a b : roots l a = roots l b <-> linked l a b.
Proof.
  revert a b. induction l as [|x l IH] using rev_ind; intros a b; [split; [cbn; intros ->; reflexivity|intros H; by apply linked_nil in H as ->]|].
  rewrite roots_snoc.
  assert (HM : forall a b, linked l a b -> linked (l ++ [x]) a b) by (intros ? ?; apply linked_mono; set_solver).
  assert (HX : linked (l ++ [x]) (base_of x.2) (quote_of x.2)) by (apply linked_trade; set_solver).
  split.
  - unfold merge. destruct (decide _) as [Ea|Na]; destruct (decide _) as [Eb|Nb]; intros E.
    + apply HM, IH. congruence.
    + transitivity (base_of x.2); [by apply HM, IH|]. rewrite HX. by apply HM, IH.
    + transitivity (quote_of x.2); [by apply HM, IH|]. rewrite <- HX. symmetry. by apply HM, IH.
    + by apply HM, IH.
  - apply (linked_ind_equiv (l ++ [x]) (fun a b => merge (roots l) x a = merge (roots l) x b)).
    + split; [by intros ?|by intros ? ? ?|by intros ? ? ? -> ->].
    + intros y [Hy|Hy]%elem_of_app; [|apply list_elem_of_singleton in Hy as ->; apply merge_trade].
      apply merge_mono, IH. by apply linked_trade.
Qed.

(** ** The parent map *)

(** The map answers with [rt]: parents lead towards the root, by a depth that
    decreases. *)
Record forest (parent : gmap string string) (rt : string -> string) (d : string -> nat) : Prop := {
  f_parent : forall a b, parent !! a = Some b -> rt b = rt a /\ (b = a -> rt a = a) /\ (b <> a -> (d b < d a)%nat);
  f_absent : forall a, parent !! a = None -> rt a = a;
  f_root : forall a, rt (rt a) = rt a;
  f_depth : forall a, d (rt a) = 0%nat
}.

Lemma forest_insert parent rt d a b : forest parent rt d ->
  rt b = rt a -> (b = a -> rt a = a) -> (b <> a -> (d b < d a)%nat) -> forest (<[a := b]> parent) rt d.
Proof.
  intros [HP HA HR HD] E1 E2 E3. split; [| |done|done].
  - intros u v. destruct (decide (a = u)) as [->|Hu]; [rewrite lookup_insert_eq; intros [= ->]; auto|].
    rewrite lookup_insert_ne by done. apply HP.
  - intros u. destruct (decide (a = u)) as [->|Hu]; [by rewrite lookup_insert_eq|]. rewrite lookup_insert_ne by done. apply HA.
Qed.

Lemma forest_self parent rt d a : forest parent rt d -> rt a = a -> forest (<[a := a]> parent) rt d.
Proof. intros F Ha. by apply forest_insert. Qed.

(** With fuel for the depth, [find] gives the representative and keeps the
    forest. *)
Lemma find_spec fuel parent rt d a : forest parent rt d -> (d a <= fuel)%nat ->
  exists parent', find fuel parent a = (parent', rt a) /\ forest parent' rt d.
Proof.
  revert parent a. induction fuel as [|fuel IH]; intros parent a F Hd; cbn [find]; destruct (parent !! a) as [p|] eqn:E.
  2, 4: by rewrite (f_absent _ _ _ F a E); eexists; split; [|apply forest_self; [|apply (f_absent _ _ _ F)]].
  all: destruct (f_parent _ _ _ F a p E) as (H1 & H2 & H3); destruct (String.eqb_spec p a) as [Hp|Hp].
  1, 3: by rewrite (H2 Hp); eexists; split; [|apply forest_self; [|apply H2]].
  - specialize (H3 Hp). lia.
  - specialize (H3 Hp). destruct (IH parent p F) as (parent' & -> & F'); [lia|]. rewrite H1. eexists. split; [done|].
    apply forest_insert; [done|apply (f_root _ _ _ F)|auto|]. intros _. rewrite (f_depth _ _ _ F). lia.
Qed.

(** Linking two roots is [merge]; depths grow by at most one. *)
Lemma forest_union parent rt d x : forest parent rt d ->
  forest (<[rt (base_of x.2) := rt (quote_of x.2)]> parent) (merge rt x)
    (fun a => if decide (rt a = rt (base_of x.2) /\ rt (base_of x.2) <> rt (quote_of x.2)) then S (d a) else d a).
Proof.
  intros [HP HA HR HD]. unfold merge.
  set (rb := rt (base_of x.2)). set (rq := rt (quote_of x.2)).
  assert (Hrb : rt rb = rb) by apply HR. assert (Hrq : rt rq = rq) by apply HR.
  assert (Db : d rb = 0%nat) by apply HD. assert (Dq : d rq = 0%nat) by apply HD.
  split.
  - intros a b. destruct (decide (rb = a)) as [<-|Ha].
    + rewrite lookup_insert_eq. intros [= <-]. rewrite Hrb, Hrq, Db, Dq, (decide_True (P := rb = rb)) by done.
      split; [by case_decide|split; [done|]]. intros Hne. rewrite decide_False, decide_True by naive_solver. lia.
    + rewrite lookup_insert_ne by done. intros E. destruct (HP a b E) as (H1 & H2 & H3). rewrite H1.
      split; [done|]. split; intros Hb; [specialize (H2 Hb)|specialize (H3 Hb)]; case_decide; [congruence|done|lia|lia].
  - intros a. destruct (decide (rb = a)) as [<-|Ha]; [by rewrite lookup_insert_eq|]. rewrite lookup_insert_ne by done.
    intros E. rewrite (HA a E). by rewrite decide_False by done.
  - intros a. repeat (case_decide || rewrite Hrq || rewrite HR); congruence.
  - intros a. destruct (decide (rt a = rb)) as [Ea|Na]; [rewrite Hrq, Dq|rewrite HR, HD]; rewrite decide_False; naive_solver.
Qed.

Lemma unions_spec fuel l : (length l <= fuel)%nat ->
  exists d, forest (foldl (union_trade fuel) ∅ l) (roots l) d /\ forall a, (d a <= length l)%nat.
Proof.
  induction l as [|x l IH] using rev_ind; intros Hl.
  { exists (fun _ => 0%nat). split; [|done]. by split. }
  rewrite length_app in *. simpl in Hl. destruct IH as (d & F & Hd); [lia|]. rewrite foldl_snoc, roots_snoc.
  set (p := foldl _ _ l) in *. clearbody p. unfold union_trade.
  pose proof (Hd (base_of x.2)). pose proof (Hd (quote_of x.2)).
  destruct (find_spec fuel _ _ d (base_of x.2) F) as (p1 & -> & F1); [lia|].
  destruct (find_spec fuel _ _ d (quote_of x.2) F1) as (p2 & -> & F2); [lia|].
  eexists. split; [by apply forest_union|]. intros a. pose proof (Hd a). simpl. case_decide; lia.
Qed.

Lemma place_spec fuel rt d l parent gs : forest parent rt d -> (forall a, d a <= fuel)%nat ->
  (foldl (place_trade fuel) (parent, gs) l).2 = foldl (fun gs x => add_to (rt (base_of x.2)) x gs) gs l.
Proof.
  intros F Hd. revert parent gs F. induction l as [|x l IH]; intros parent gs F; [done|]. cbn [foldl]. unfold place_trade at 2.
  destruct (find_spec fuel parent rt d (base_of x.2) F (Hd _)) as (p1 & E & F1). cbn [fst snd]. rewrite E. by apply IH.
Qed.

(** The components are the batch grouped by representative. *)
Lemma assetComponents_group l : assetComponents l = (group_by (fun x => roots l (base_of x.2)) l).*2.
Proof.
  unfold assetComponents. destruct (unions_spec (length l) l) as (d & F & Hd); [done|]. by rewrite (place_spec _ (roots l) d).
Qed.

Lemma assetComponents_elem l c : c ∈ assetComponents l <->
  exists x, x ∈ l /\ c = filter (fun y => roots l (base_of y.2) = roots l (base_of x.2)) l.
Proof.
  rewrite assetComponents_group, list_elem_of_fmap.
  destruct (group_by_spec (fun x : itrade => roots l (base_of x.2)) l) as [_ HG]. split.
  - intros ([k ys] & -> & Hy). apply HG in Hy as [(x & Hx & <-) ->]. by exists x.
  - intros (x & Hx & ->). eexists (_, _). split; [done|]. apply HG. split; [by exists x|done].
Qed.

Lemma component_nonempty l c : c ∈ assetComponents l -> c <> [].
Proof.
  intros (z & Hz & ->)%assetComponents_elem E.
  assert (Hin : z ∈ filter (fun y => roots l (base_of y.2) = roots l (base_of z.2)) l) by (by apply list_elem_of_filter).
  rewrite E in Hin. by apply elem_of_nil in Hin.
Qed.

(** [assetComponents] splits a batch into its asset-connected
    components: each trade is placed once, a component keeps the batch's
    order, and two trades share one exactly when a path of trades joins
    their assets. The recursion of [find] always ends: its depth is at most
    the number of trades. *)
Theorem assetComponents_exact l :
  concat (assetComponents l) ≡ₚ l
  /\ forall c, c ∈ assetComponents l ->
       c <> [] /\ c `sublist_of` l
       /\ forall x y, x ∈ c -> (y ∈ c <-> y ∈ l /\ linked l (base_of x.2) (base_of y.2)).
Proof.
  split; [rewrite assetComponents_group; apply concat_group_by|]. intros c Hc.
  split; [by eapply component_nonempty|]. apply assetComponents_elem in Hc as (z & Hz & ->). split.
  - apply sublist_filter.
  - intros x y [Ex Hx]%list_elem_of_filter. rewrite list_elem_of_filter, <- roots_linked, Ex. naive_solver.
Qed.

(** ** Cycles *)

(** How many classes the trades leave of a set of assets. *)
Definition classes (N : gset string) (l : list itrade) : gset string := set_map (roots l) N.

Lemma classes_snoc N l x : base_of x.2 ∈ N -> quote_of x.2 ∈ N ->
  classes N (l ++ [x]) =
  if decide (roots l (base_of x.2) = roots l (quote_of x.2)) then classes N l else classes N l ∖ {[roots l (base_of x.2)]}.
Proof.
  intros Hb Hq. unfold classes. rewrite roots_snoc. unfold merge.
  apply set_eq. intros a. destruct (decide (roots l _ = _)) as [E|E].
  - rewrite !elem_of_map. rewrite <- E. split; intros (u & -> & Hu); exists u; split; auto; by case_decide.
  - rewrite elem_of_difference, elem_of_singleton, !elem_of_map. split.
    + intros (u & -> & Hu). case_decide; [|naive_solver]. split; [by exists (quote_of x.2)|done].
    + intros [(u & -> & Hu) Hne]. exists u. by rewrite decide_False by done.
Qed.

(** Each trade merges two classes, unless its assets are already linked. *)
Lemma classes_size N l x : base_of x.2 ∈ N -> quote_of x.2 ∈ N ->
  (linked l (base_of x.2) (quote_of x.2) /\ size (classes N (l ++ [x])) = size (classes N l))
  \/ S (size (classes N (l ++ [x]))) = size (classes N l).
Proof.
  intros Hb Hq. rewrite classes_snoc by done. destruct (decide _) as [E|E]; [left; split; [by apply roots_linked|done]|right].
  assert (Hin : roots l (base_of x.2) ∈ classes N l) by (apply elem_of_map; eauto).
  assert (HL : ({[roots l (base_of x.2)]} : gset string) ⊆ classes N l) by (by apply singleton_subseteq_l).
  pose proof (size_difference _ _ HL) as HS. apply subseteq_size in HL. rewrite size_singleton in HS, HL. lia.
Qed.

(** The trades' assets lie in the set. *)
Definition within (N : gset string) (l : list itrade) : Prop := forall x, x ∈ l -> base_of x.2 ∈ N /\ quote_of x.2 ∈ N.

Lemma classes_nil N : classes N [] = N.
Proof. unfold classes. apply set_eq. intros a. rewrite elem_of_map. split; [by intros (u & -> & Hu)|intros Ha; by exists a]. Qed.

Lemma classes_bound N l : within N l -> (size N <= size (classes N l) + length l)%nat.
Proof.
  induction l as [|x l IH] using rev_ind; intros HW; [rewrite classes_nil; lia|].
  destruct (HW x) as [Hb Hq]; [set_solver|]. rewrite length_app. simpl.
  assert (HW' : within N l) by (intros y Hy; apply HW; set_solver). specialize (IH HW').
  destruct (classes_size N l x Hb Hq) as [[_ E]|E]; lia.
Qed.

(** Either every trade merges two classes, or one closes a path of the
    trades before it. *)
Lemma classes_tree N l : within N l ->
  size N = (size (classes N l) + length l)%nat
  \/ exists l1 x l2, l = l1 ++ x :: l2 /\ linked l1 (base_of x.2) (quote_of x.2).
Proof.
  induction l as [|x l IH] using rev_ind; intros HW; [left; rewrite classes_nil; simpl; lia|].
  destruct (HW x) as [Hb Hq]; [set_solver|]. rewrite length_app. simpl.
  assert (HW' : within N l) by (intros y Hy; apply HW; set_solver).
  destruct (IH HW') as [E|(l1 & y & l2 & -> & Hy)]; [|right; exists l1, y, (l2 ++ [x]); by rewrite <- app_assoc].
  destruct (classes_size N l x Hb Hq) as [[Hx _]|E2]; [right; by exists l, x, []|left; lia].
Qed.

(** ** Keys *)

Definition nul_free (s : string) : bool := str_forallb (fun c => negb (Ascii.eqb c Ascii.zero)) s.

(** Two texts that end at the first NUL. *)
Lemma nul_split s t u v : nul_free s = true -> nul_free t = true ->
  s +:+ nul +:+ u = t +:+ nul +:+ v -> s = t /\ u = v.
Proof.
  revert t. induction s as [|c s IH]; intros [|d t] Hs Ht E.
  - split; [done|]. change (String Ascii.zero u = String Ascii.zero v) in E. by injection E.
  - change (String Ascii.zero u = String d (t +:+ nul +:+ v)) in E. injection E as <- _. done.
  - change (String c (s +:+ nul +:+ u) = String Ascii.zero v) in E. injection E as -> _. done.
  - change (String c (s +:+ nul +:+ u) = String d (t +:+ nul +:+ v)) in E. injection E as -> E.
    unfold nul_free in *. cbn [str_forallb] in *. apply andb_prop in Hs as [_ Hs]. apply andb_prop in Ht as [_ Ht].
    destruct (IH t Hs Ht E) as [-> ->]. done.
Qed.

(** No text of the trade that a key is made of has a NUL in it. *)
Definition clean_trade (t : Trade) : bool :=
  nul_free (tr_Source t) && nul_free (base_of t) && nul_free (quote_of t) && nul_free (tr_TxHash t) && nul_free (tr_Taker t).

Lemma hop_same x y : clean_trade x.2 = true -> clean_trade y.2 = true -> hop_of x = hop_of y ->
  tr_Source x.2 = tr_Source y.2
  /\ ((base_of x.2 = base_of y.2 /\ quote_of x.2 = quote_of y.2) \/ (base_of x.2 = quote_of y.2 /\ quote_of x.2 = base_of y.2)).
Proof.
  unfold clean_trade. rewrite !andb_true_iff. intros ((((Sx & Bx) & Qx) & _) & _) ((((Sy & By) & Qy) & _) & _).
  unfold hop_of, hopKey. destruct (str_ltb (quote_of x.2) _), (str_ltb (quote_of y.2) _); intros E;
    apply nul_split in E as [ES E]; try done; apply nul_split in E as [E1 E2]; auto.
Qed.

Lemma tx_taker_same x y : clean_trade x.2 = true -> clean_trade y.2 = true -> tx_taker x = tx_taker y ->
  tr_TxHash x.2 = tr_TxHash y.2 /\ tr_Taker x.2 = tr_Taker y.2.
Proof.
  unfold clean_trade. rewrite !andb_true_iff. intros ((_ & Hx) & _) ((_ & Hy) & _) E. by apply nul_split in E.
Qed.

(** One trade for each hop. *)
Lemma hop_reps (l : list itrade) : exists r : list itrade, (forall x, x ∈ r -> x ∈ l) /\ NoDup (map hop_of r) /\ (forall x, x ∈ l -> exists y, y ∈ r /\ hop_of y = hop_of x).
Proof.
  induction l as [|x l (r & H1 & H2 & H3)]; [exists []; split; [done|split; [constructor|]]; by intros x ?%elem_of_nil|].
  destruct (decide (hop_of x ∈ map hop_of r)) as [Hx|Hx].
  - exists r. split; [set_solver|split; [done|]]. intros y [->|Hy]%elem_of_cons; [|auto].
    apply list_elem_of_fmap in Hx as (z & E & Hz). by exists z.
  - exists (x :: r). split; [set_solver|split; [by constructor|]]. intros y [->|Hy]%elem_of_cons; [exists x; set_solver|].
    destruct (H3 y Hy) as (z & Hz & E). exists z. set_solver.
Qed.

Lemma hop_reps_size (l r : list itrade) : (forall x, x ∈ r -> x ∈ l) -> NoDup (map hop_of r) -> (forall x, x ∈ l -> exists y, y ∈ r /\ hop_of y = hop_of x) ->
  size (hopSet l) = length r.
Proof.
  intros H1 H2 H3. rewrite <- (length_map hop_of r), <- (size_list_to_set (C := gset string)) by done. f_equal.
  apply set_eq. intros k. unfold hopSet. rewrite !elem_of_list_to_set, !list_elem_of_fmap. split.
  - intros (x & -> & Hx). destruct (H3 x Hx) as (y & Hy & E). by exists y.
  - intros (x & -> & Hx). exists x. auto.
Qed.

Lemma assetSet_elem l a : a ∈ assetSet l <-> exists x, x ∈ l /\ (a = base_of x.2 \/ a = quote_of x.2).
Proof.
  unfold assetSet. rewrite elem_of_list_to_set, list_elem_of_bind.
  split; intros (x & H1 & H2); exists x; [rewrite elem_of_cons, list_elem_of_singleton in H1|rewrite elem_of_cons, list_elem_of_singleton]; done.
Qed.

(** ** Cycles of hops *)

(** The trade closes a cycle: its assets stay linked without its hop. *)
Definition closes (c : list itrade) (x : itrade) : Prop :=
  linked (filter (fun y => hop_of y <> hop_of x) c) (base_of x.2) (quote_of x.2).

Definition connected (c : list itrade) : Prop := forall x y, x ∈ c -> y ∈ c -> linked c (base_of x.2) (base_of y.2).

(** As many hops as assets: some hop closes a cycle. *)
Lemma cycle_of_count c : c <> [] -> (size (assetSet c) <= size (hopSet c))%nat -> exists x, x ∈ c /\ closes c x.
Proof.
  intros Hne Hsz. destruct (hop_reps c) as (r & H1 & H2 & H3). rewrite (hop_reps_size c r) in Hsz by done.
  assert (HW : within (assetSet c) r) by (intros x Hx; split; apply assetSet_elem; exists x; auto).
  destruct (classes_tree _ _ HW) as [E|(l1 & x & l2 & -> & Hx)].
  - exfalso. destruct c as [|x c]; [done|]. assert (Hin : roots r (base_of x.2) ∈ classes (assetSet (x :: c)) r).
    { apply elem_of_map. eexists. split; [done|]. apply assetSet_elem. exists x. set_solver. }
    assert (size (classes (assetSet (x :: c)) r) <> 0%nat) by (intros E0%size_empty_inv; set_solver). lia.
  - exists x. split; [set_solver|]. eapply linked_mono; [|exact Hx]. intros y Hy. apply list_elem_of_filter. split; [|set_solver].
    intros E. rewrite map_app in H2. cbn [map] in H2. apply NoDup_app in H2 as (_ & HD & _). apply (HD (hop_of y)).
    + by apply list_elem_of_fmap_2.
    + rewrite E. by left.
Qed.

(** A trade is linked by any trade of the same hop. *)
Lemma hop_linked l x y : clean_trade x.2 = true -> clean_trade y.2 = true -> hop_of x = hop_of y -> y ∈ l ->
  linked l (base_of x.2) (quote_of x.2).
Proof.
  intros Hx Hy E Hin. destruct (hop_same x y Hx Hy E) as [_ [[-> ->]|[-> ->]]]; [|symmetry]; by apply linked_trade.
Qed.

(** Without the closing hop the rest still joins every asset. *)
Lemma count_of_cycle c x : Forall (fun y => clean_trade y.2 = true) c -> connected c -> x ∈ c -> closes c x ->
  (size (assetSet c) <= size (hopSet c))%nat.
Proof.
  intros HC HK Hx HX. rewrite Forall_forall in HC. destruct (hop_reps c) as (r & H1 & H2 & H3).
  rewrite (hop_reps_size c r) by done. destruct (H3 x Hx) as (z & Hz & Ez). apply list_elem_of_split in Hz as (a & b & ->).
  assert (HO : forall y, y ∈ c -> hop_of y <> hop_of x -> linked (a ++ b) (base_of y.2) (quote_of y.2)).
  { intros y Hy Hne. destruct (H3 y Hy) as (y' & Hy' & E). apply (hop_linked _ _ y'); auto.
    apply elem_of_app in Hy' as [?|[->|?]%elem_of_cons]; [set_solver|congruence|set_solver]. }
  assert (HA : forall y, y ∈ c -> linked (a ++ b) (base_of y.2) (quote_of y.2)).
  { intros y Hy. destruct (decide (hop_of y = hop_of x)) as [E|E]; [|auto].
    assert (HX' : linked (a ++ b) (base_of x.2) (quote_of x.2)).
    { apply (linked_ind_equiv _ (linked (a ++ b)) _) in HX; [done|]. intros w [? ?]%list_elem_of_filter. auto. }
    destruct (hop_same y x (HC y Hy) (HC x Hx) E) as [_ [[-> ->]|[-> ->]]]; [|symmetry]; done. }
  assert (HL : forall u v, linked c u v -> linked (a ++ b) u v) by (apply linked_ind_equiv; [apply _|done]).
  assert (HN : forall u, u ∈ assetSet c -> linked (a ++ b) (base_of x.2) u).
  { intros u (y & Hy & [->| ->])%assetSet_elem; [|rewrite <- HA by done]; by apply HL, HK. }
  assert (HW : within (assetSet c) (a ++ b)).
  { intros y Hy. assert (y ∈ c) by (apply H1; set_solver). split; apply assetSet_elem; exists y; auto. }
  assert (HS : classes (assetSet c) (a ++ b) ⊆ {[roots (a ++ b) (base_of x.2)]}).
  { intros k (u & -> & Hu)%elem_of_map. apply elem_of_singleton. symmetry. by apply roots_linked, HN. }
  apply subseteq_size in HS. rewrite size_singleton in HS. pose proof (classes_bound _ _ HW) as HB. rewrite length_app in *. simpl. lia.
Qed.

(** A path of the batch stays in the component it starts from. *)
Lemma component_linked l k u v : linked l u v -> roots l u = k ->
  linked (filter (fun y => roots l (base_of y.2) = k) l) u v.
Proof.
  set (c := filter _ l). intros H.
  assert (HR : roots l u = roots l v /\ (roots l u = k -> linked c u v)); [|naive_solver].
  revert u v H. apply (linked_ind_equiv l (fun u v => roots l u = roots l v /\ (roots l u = k -> linked c u v))).
  - split; [by intros ?|intros u v [E1 E2]; split; [done|]; intros E3; symmetry; apply E2; congruence|].
    intros u v w [E1 E2] [E3 E4]. split; [congruence|]. intros E5. transitivity v; [by apply E2|apply E4; congruence].
  - intros x Hx. split; [by apply roots_linked, linked_trade|]. intros E. apply linked_trade. by apply list_elem_of_filter.
Qed.

Lemma component_connected l c : c ∈ assetComponents l -> connected c.
Proof.
  intros Hc x y. apply assetComponents_elem in Hc as (z & Hz & ->). intros [Ex Hx]%list_elem_of_filter [Ey Hy]%list_elem_of_filter.
  apply component_linked; [|done]. apply roots_linked. congruence.
Qed.

Lemma component_sub l c x : c ∈ assetComponents l -> x ∈ c -> x ∈ l.
Proof. intros (z & Hz & ->)%assetComponents_elem. by intros [_ Hx]%list_elem_of_filter. Qed.

(** The venue condition: two venues, or a component of at least three assets
    without spare legs. *)
Definition venues_ok (c : list itrade) : Prop :=
  (2 <= size (sourceSet c))%nat \/ (2 < size (assetSet c))%nat /\ (length c <= size (assetSet c))%nat.

Lemma isArbCycle_iff l c : c ∈ assetComponents l -> Forall (fun x => clean_trade x.2 = true) c ->
  isArbCycle c = true <-> (exists x, x ∈ c /\ closes c x) /\ venues_ok c.
Proof.
  intros Hc HC. unfold isArbCycle, venues_ok.
  assert (HE : (size (assetSet c) <= size (hopSet c))%nat <-> exists x, x ∈ c /\ closes c x).
  { split; [apply cycle_of_count; by eapply component_nonempty|].
    intros (x & Hx & HX). eapply count_of_cycle; eauto. by eapply component_connected. }
  destruct (Nat.ltb_spec (size (hopSet c)) (size (assetSet c))) as [H|H].
  - split; [done|]. intros [H1%HE _]. lia.
  - rewrite <- HE, orb_true_iff, andb_true_iff, !Nat.leb_le, Nat.ltb_lt. naive_solver.
Qed.

(** A component is taken for an arbitrage exactly when some hop of it
    closes a cycle - its two assets are linked by the other hops, and the
    trades that fill one hop count once - and the venue condition holds. *)
Theorem isArbCycle_exact l c : c ∈ assetComponents l -> Forall (fun x => clean_trade x.2 = true) c ->
  isArbCycle c = true <-> (exists x, x ∈ c /\ closes c x) /\ venues_ok c.
Proof. apply isArbCycle_iff. Qed.

(** ** The arbitrage detector *)

(** The trades of the batch in the transaction and by the taker of [x]. *)
Definition same_actor (trades : list Trade) (x : itrade) : list itrade :=
  filter (fun y => tx_taker y = tx_taker x) (List.filter atomic_trade (indexed trades)).

Lemma DetectArbitrage_elem trades usd c : c ∈ DetectArbitrage trades usd <->
  exists x, x ∈ List.filter atomic_trade (indexed trades)
    /\ (minLegs <= length (same_actor trades x))%nat /\ buildArbCandidate usd (same_actor trades x) = Some c.
Proof.
  unfold DetectArbitrage. rewrite list_elem_of_omap.
  destruct (group_by_spec tx_taker (List.filter atomic_trade (indexed trades))) as [_ HG]. split.
  - intros ([k l] & Hin & E). apply HG in Hin as [(x & Hx & <-) ->]. exists x. cbn [snd] in E. fold (same_actor trades x) in E.
    destruct (Nat.ltb_spec (length (same_actor trades x)) minLegs); [done|]. done.
  - intros (x & Hx & HL & E). exists (tx_taker x, same_actor trades x). split; [apply HG; split; [by exists x|done]|].
    cbn [snd]. rewrite (proj2 (Nat.ltb_ge _ _)) by done. done.
Qed.

Lemma List_filter_sublist {A} (f : A -> bool) (l : list A) : List.filter f l `sublist_of` l.
Proof. induction l as [|x l IH]; [done|]. cbn [List.filter]. destruct (f x); [by apply sublist_skip|by apply sublist_cons]. Qed.

Lemma indexed_elem trades i t : (i, t) ∈ indexed trades <-> trades !! i = Some t.
Proof.
  unfold indexed. rewrite list_elem_of_lookup. split.
  - intros (j & E). rewrite list_lookup_imap, fmap_Some in E. destruct E as (u & Hu & [= -> ->]). done.
  - intros E. exists i. rewrite list_lookup_imap, E. done.
Qed.

Lemma indexed_NoDup trades : NoDup (indexed trades).
Proof.
  apply NoDup_alt. intros i j [a t]. unfold indexed. rewrite !list_lookup_imap, !fmap_Some.
  intros (u & _ & [= -> _]) (v & _ & [= -> _]). done.
Qed.

Lemma indexed_trade trades x : x ∈ indexed trades -> x.2 ∈ trades.
Proof. destruct x as [i t]. rewrite indexed_elem. apply list_elem_of_lookup_2. Qed.

Lemma same_actor_elem trades x y : Forall (fun t => clean_trade t = true) trades ->
  x ∈ List.filter atomic_trade (indexed trades) ->
  y ∈ same_actor trades x -> y ∈ indexed trades /\ atomic_trade y = true /\ tr_TxHash y.2 = tr_TxHash x.2 /\ tr_Taker y.2 = tr_Taker x.2.
Proof.
  rewrite Forall_forall. intros HC [_ Hx]%elem_of_List_filter [E [Ha Hy]%elem_of_List_filter]%list_elem_of_filter.
  split; [done|]. split; [done|]. apply tx_taker_same; [apply HC, indexed_trade..|]; done.
Qed.

Lemma leg_leb_spec a b : leg_leb a b = true <->
  (sortKey (lgRef a)).1 < (sortKey (lgRef b)).1 \/ (sortKey (lgRef a)).1 = (sortKey (lgRef b)).1 /\ (sortKey (lgRef a)).2 <= (sortKey (lgRef b)).2.
Proof.
  unfold leg_leb, before. destruct (sortKey (lgRef a)) as [p q], (sortKey (lgRef b)) as [r s]. simpl.
  destruct (Z.eqb_spec r p); simpl; [destruct (Z.ltb_spec s q)|destruct (Z.ltb_spec r p)]; simpl; lia.
Qed.

Lemma leg_leb_total a b : leg_leb a b = true \/ leg_leb b a = true.
Proof. rewrite !leg_leb_spec. lia. Qed.

Lemma leg_leb_trans a b c : leg_leb a b = true -> leg_leb b c = true -> leg_leb a c = true.
Proof. rewrite !leg_leb_spec. lia. Qed.

(** The legs that a group publishes. *)
Definition arb_kept (l : list itrade) : list itrade := concat (List.filter isArbCycle (assetComponents l)).

Lemma arb_kept_elem l x : x ∈ arb_kept l <-> exists c, c ∈ assetComponents l /\ isArbCycle c = true /\ x ∈ c.
Proof.
  unfold arb_kept. rewrite list_elem_of_In, in_concat. split.
  - intros (c & Hc & Hx). exists c. rewrite <- !list_elem_of_In in *. apply elem_of_List_filter in Hc as [? ?]. done.
  - intros (c & Hc & HA & Hx). exists c. rewrite <- !list_elem_of_In. by rewrite elem_of_List_filter.
Qed.

Lemma concat_filter_sublist {A} (f : list A -> bool) ls : concat (List.filter f ls) `sublist_of` concat ls.
Proof.
  induction ls as [|l ls IH]; [done|]. cbn [List.filter concat]. destruct (f l); cbn [concat]; [by apply sublist_app|].
  by apply sublist_inserts_l.
Qed.

Lemma arb_kept_NoDup l : NoDup l -> NoDup (arb_kept l).
Proof.
  intros HN. apply (sublist_NoDup _ (concat (assetComponents l))); [|apply concat_filter_sublist].
  by rewrite assetComponents_group, concat_group_by.
Qed.

Lemma buildArbCandidate_spec usd l :
  match buildArbCandidate usd l with
  | None => arb_kept l = []
  | Some c => exists first, first ∈ arb_kept l /\ cTxHash c = tr_TxHash first.2 /\ cTaker c = tr_Taker first.2
                /\ Legs c ≡ₚ map (fun x => leg_of x.2) (arb_kept l)
                /\ StronglySorted (fun a b => leg_leb a b = true) (Legs c)
  end.
Proof.
  unfold buildArbCandidate. fold (arb_kept l). pose proof (isort_perm idx_leb (arb_kept l)) as HP.
  destruct (isort idx_leb (arb_kept l)) as [|x s] eqn:E; [by apply Permutation_nil_l in HP|].
  exists x. cbn [cTxHash cTaker Legs]. split; [rewrite <- HP; by left|]. split; [done|]. split; [done|].
  split; [etrans; [apply isort_perm|exact (Permutation_map _ HP)]|]. apply isort_sorted; [apply leg_leb_total|apply leg_leb_trans].
Qed.

(** A batch names a component big enough to have two legs. *)
Lemma list_to_set_size (l : list string) : (size (list_to_set l : gset string) <= length l)%nat.
Proof.
  induction l as [|x l IH]; [done|]. cbn [list_to_set length]. rewrite size_union_alt, size_singleton.
  pose proof (subseteq_size (list_to_set l ∖ {[x]} : gset string) (list_to_set l)) as H. specialize (H ltac:(set_solver)). lia.
Qed.

Lemma venues_ok_length c : venues_ok c -> (minLegs <= length c)%nat.
Proof.
  unfold venues_ok, sourceSet, assetSet, minLegs. intros [H|[H _]].
  - pose proof (list_to_set_size (map (fun x : itrade => tr_Source x.2) c)) as HL. rewrite length_map in HL. lia.
  - pose proof (list_to_set_size (c ≫= fun x => [base_of x.2; quote_of x.2])) as HL.
    assert (E : length (c ≫= fun x => [base_of x.2; quote_of x.2]) = (2 * length c)%nat) by
      (clear; induction c as [|x c IH]; [done|]; cbn; cbn in IH; rewrite IH; lia).
    lia.
Qed.

Section Detected.
Context (trades : list Trade) (usd : list MEVLegUSD) (x : itrade).
Context (HC : Forall (fun t => clean_trade t = true) trades) (Hx : x ∈ List.filter atomic_trade (indexed trades)).

Lemma same_actor_clean : Forall (fun y => clean_trade y.2 = true) (same_actor trades x).
Proof.
  apply Forall_forall. intros y Hy. apply same_actor_elem in Hy as (Hy & _); [|done..]. rewrite Forall_forall in HC.
  by apply HC, indexed_trade.
Qed.

Lemma component_clean comp : comp ∈ assetComponents (same_actor trades x) -> Forall (fun y => clean_trade y.2 = true) comp.
Proof.
  intros Hc. apply Forall_forall. intros y Hy. pose proof same_actor_clean as HF. rewrite Forall_forall in HF.
  eapply HF, component_sub; eauto.
Qed.

End Detected.

(** *** Arbitrages on their own terms *)

(** The trades of a transaction by a taker, on chain. *)
Definition actor_trades (trades : list Trade) (tx taker : string) : list itrade :=
  filter (fun y => tr_Ledger y.2 <> 0 /\ tr_TxHash y.2 = tx /\ tr_Taker y.2 = taker) (indexed trades).

(** Fills of one hop: one venue, the same two assets in either order. *)
Definition same_hop (t u : Trade) : Prop :=
  tr_Source t = tr_Source u
  /\ ((base_of t = base_of u /\ quote_of t = quote_of u) \/ (base_of t = quote_of u /\ quote_of t = base_of u)).

#[export] Instance same_hop_dec t u : Decision (same_hop t u).
Proof. unfold same_hop. apply _. Defined.

(** The two assets of the trade stay linked without its hop. *)
Definition on_cycle (c : list itrade) (x : itrade) : Prop :=
  linked (filter (fun y => ~ same_hop y.2 x.2) c) (base_of x.2) (quote_of x.2).

(** An asset-connected component of some trades. *)
Definition is_component (l comp : list itrade) : Prop :=
  comp <> [] /\ NoDup comp /\ forall x, x ∈ comp -> forall y, y ∈ comp <-> y ∈ l /\ linked l (base_of x.2) (base_of y.2).

(** Two venues, or at least three assets and no more legs than assets. *)
Definition venue_condition (c : list itrade) : Prop :=
  (exists x y, x ∈ c /\ y ∈ c /\ tr_Source x.2 <> tr_Source y.2)
  \/ exists assets, NoDup assets /\ (forall a, a ∈ assets <-> exists x, x ∈ c /\ (a = base_of x.2 \/ a = quote_of x.2))
       /\ (2 < length assets)%nat /\ (length c <= length assets)%nat.

Definition arbitrage (l comp : list itrade) : Prop :=
  is_component l comp /\ (exists x, x ∈ comp /\ on_cycle comp x) /\ venue_condition comp.

(** The place of a trade in its transaction: the operation and the fill
    within it where the venue encodes both. *)
Definition chain_place (t : Trade) : Z * Z :=
  if String.eqb (tr_Source t) "sdex" then (tr_OpIndex t / 1024, tr_OpIndex t mod 1024)
  else if bool_decide (tr_Source t ∈ ["aquarius"; "comet"; "phoenix"; "soroswap"; "sushiswap_v3"])
  then (tr_OpIndex t / 65536, tr_OpIndex t mod 65536)
  else (tr_OpIndex t, 0).

Definition chain_le (x y : itrade) : Prop :=
  (chain_place x.2).1 < (chain_place y.2).1
  \/ ((chain_place x.2).1 = (chain_place y.2).1 /\ (chain_place x.2).2 <= (chain_place y.2).2).

(** The leg is the trade: venue, assets, amounts. *)
Definition leg_shows (g : Leg) (x : itrade) : Prop :=
  lgSource g = tr_Source x.2 /\ lgBase g = Asset_String (Base (tr_Pair x.2)) /\ lgQuote g = Asset_String (Quote (tr_Pair x.2))
  /\ lgBaseAmount g = Amount_String (tr_BaseAmount x.2) /\ lgQuoteAmount g = Amount_String (tr_QuoteAmount x.2).

Lemma chain_place_key t : sortKey (opRefOf t) = chain_place t.
Proof.
  unfold sortKey, opRefOf, chain_place, sdexOpIndexStride, amm_sources. cbn [refOp TradeOpIndex].
  destruct (String.eqb (tr_Source t) "sdex"); [done|]. destruct (bool_decide _); [|done]. cbn [default from_option id].
  rewrite Z.shiftr_div_pow2 by lia. change 65535 with (Z.ones 16). rewrite Z.land_ones by lia. done.
Qed.

Lemma leg_leb_chain x y : leg_leb (leg_of x.2) (leg_of y.2) = true <-> chain_le x y.
Proof. rewrite leg_leb_spec. unfold leg_of. cbn [lgRef]. rewrite !chain_place_key. done. Qed.

Lemma hop_of_same x y : clean_trade x.2 = true -> clean_trade y.2 = true -> hop_of x = hop_of y <-> same_hop x.2 y.2.
Proof.
  intros Hx Hy. split; [by apply hop_same|]. intros [ES EB]. unfold hop_of, hopKey. rewrite ES.
  destruct EB as [[-> ->]|[-> ->]]; [done|]. destruct (str_ltb (base_of y.2) (quote_of y.2)) eqn:E1, (str_ltb (quote_of y.2) (base_of y.2)) eqn:E2; try done.
  - by rewrite str_ltb_asym in E2.
  - by rewrite (str_ltb_total _ _ E1 E2).
Qed.

Lemma on_cycle_closes c x : Forall (fun y => clean_trade y.2 = true) c -> x ∈ c -> on_cycle c x <-> closes c x.
Proof.
  rewrite Forall_forall. intros HC Hx. unfold on_cycle, closes. split; apply linked_mono; intros y [Hn Hy]%list_elem_of_filter;
    apply list_elem_of_filter; (split; [|done]); intros E; apply Hn, hop_of_same; auto.
Qed.

Lemma two_sources c : (2 <= size (sourceSet c))%nat <-> exists x y, x ∈ c /\ y ∈ c /\ tr_Source x.2 <> tr_Source y.2.
Proof.
  assert (forall a, a ∈ sourceSet c <-> exists x, x ∈ c /\ tr_Source x.2 = a) as HE
    by (intros a; unfold sourceSet; rewrite elem_of_list_to_set, list_elem_of_fmap; naive_solver). split.
  - intros H2. destruct c as [|x c']; [change (2 <= 0)%nat in H2; lia|].
    destruct (decide (Exists (fun y => tr_Source x.2 <> tr_Source y.2) (x :: c'))) as [(y & Hy & Hne)%Exists_exists|Hn]; [exists x, y; split; [by left|done]|].
    assert (sourceSet (x :: c') ⊆ {[ tr_Source x.2 ]}) as HS.
    { intros a (y & Hy & <-)%HE. apply elem_of_singleton. destruct (decide (tr_Source x.2 = tr_Source y.2)); [done|].
      destruct Hn. apply Exists_exists. by exists y. }
    apply subseteq_size in HS. rewrite size_singleton in HS. lia.
  - intros (x & y & Hx & Hy & Hne). assert (({[ tr_Source x.2 ]} ∪ {[ tr_Source y.2 ]} : gset string) ⊆ sourceSet c) as HS.
    { intros a [->%elem_of_singleton| ->%elem_of_singleton]%elem_of_union; apply HE; eauto. }
    apply subseteq_size in HS. rewrite size_union, !size_singleton in HS by set_solver. lia.
Qed.

Lemma venue_condition_ok c : venue_condition c <-> venues_ok c.
Proof.
  unfold venue_condition, venues_ok. rewrite two_sources. apply or_iff_compat_l. split.
  - intros (assets & Hnd & Hin & H2 & Hl). assert (assets ≡ₚ elements (assetSet c)) as HP.
    { apply list.NoDup_Permutation; [done|apply NoDup_elements|]. intros a. by rewrite elem_of_elements, Hin, assetSet_elem. }
    apply Permutation_length in HP. unfold size, set_size. cbn. lia.
  - intros [H2 Hl]. exists (elements (assetSet c)). split; [apply NoDup_elements|]. split; [|done].
    intros a. by rewrite elem_of_elements, assetSet_elem.
Qed.

Lemma linked_ext l l' a b : (forall x, x ∈ l <-> x ∈ l') -> linked l a b <-> linked l' a b.
Proof. intros H. split; apply linked_mono; intros x; apply H. Qed.

(** A component is one of those the code finds, up to order. *)
Lemma component_found l comp : NoDup l -> is_component l comp <-> exists c, c ∈ assetComponents l /\ comp ≡ₚ c.
Proof.
  intros Hl. split.
  - intros (Hne & Hnd & Hin). destruct comp as [|x comp]; [done|].
    assert (x ∈ l) as Hx by (apply (Hin x); left). exists (filter (fun y => roots l (base_of y.2) = roots l (base_of x.2)) l).
    split; [apply assetComponents_elem; by exists x|]. apply list.NoDup_Permutation; [done|by apply NoDup_filter|].
    intros y. rewrite (Hin x) by left. rewrite list_elem_of_filter, <- roots_linked. naive_solver.
  - intros (c & Hc & HP). apply assetComponents_elem in Hc as (z & Hz & ->). split; [|split].
    + intros ->. apply Permutation_nil_l in HP. assert (z ∈ filter (fun y => roots l (base_of y.2) = roots l (base_of z.2)) l) as Hin by (by apply list_elem_of_filter).
      rewrite <- HP in Hin. by apply elem_of_nil in Hin.
    + rewrite HP. by apply NoDup_filter.
    + intros x. rewrite HP. intros [Ex Hx]%list_elem_of_filter y. rewrite HP, list_elem_of_filter, <- roots_linked, Ex. naive_solver.
Qed.

Lemma perm_arbitrage c c' : c ≡ₚ c' -> (exists x, x ∈ c /\ on_cycle c x) /\ venue_condition c -> (exists x, x ∈ c' /\ on_cycle c' x) /\ venue_condition c'.
Proof.
  intros HP [(x & Hx & HX) HV]. split.
  - exists x. split; [by rewrite <- HP|]. eapply linked_mono; [|exact HX]. intros y. rewrite !list_elem_of_filter. by rewrite HP.
  - destruct HV as [(a & b & Ha & Hb & Hne)|(assets & Hnd & Hin & H2 & HL)]; [left; exists a, b; by rewrite <- HP|right].
    exists assets. split; [done|]. split; [intros a; rewrite Hin; by setoid_rewrite HP|]. by rewrite <- HP.
Qed.

(** What a group of trades publishes is what its arbitrages hold. *)
Lemma arb_kept_arbitrage l x : NoDup l -> Forall (fun y => clean_trade y.2 = true) l ->
  x ∈ arb_kept l <-> exists comp, arbitrage l comp /\ x ∈ comp.
Proof.
  intros Hl HC. assert (forall c, c ∈ assetComponents l -> Forall (fun y => clean_trade y.2 = true) c) as Hcl.
  { intros c Hc. apply Forall_forall. intros y Hy. rewrite Forall_forall in HC. eapply HC, component_sub; eauto. }
  assert (forall c, c ∈ assetComponents l -> isArbCycle c = true <-> (exists x, x ∈ c /\ on_cycle c x) /\ venue_condition c) as HI.
  { intros c Hc. rewrite (isArbCycle_iff l c Hc (Hcl c Hc)), venue_condition_ok. apply and_iff_compat_r.
    split; intros (y & Hy & HY); exists y; (split; [done|]); by apply (on_cycle_closes c y (Hcl c Hc)). }
  rewrite arb_kept_elem. split.
  - intros (c & Hc & HA%HI & Hx); [|done]. exists c. split; [|done]. split; [apply component_found; eauto|done].
  - intros (comp & (Hcomp & HA) & Hx). apply component_found in Hcomp as (c & Hc & HP); [|done]. exists c. split; [done|]. split; [|by rewrite <- HP].
    apply HI; [done|]. by apply (perm_arbitrage comp c).
Qed.

Lemma same_actor_trades trades x y : Forall (fun t => clean_trade t = true) trades ->
  x ∈ List.filter atomic_trade (indexed trades) ->
  y ∈ same_actor trades x <-> y ∈ actor_trades trades (tr_TxHash x.2) (tr_Taker x.2).
Proof.
  intros HC Hx. split.
  - intros Hy. destruct (same_actor_elem trades x y HC Hx Hy) as (Hi & Ha & E1 & E2). apply list_elem_of_filter.
    split; [|done]. split; [|done]. unfold atomic_trade in Ha. bprop. done.
  - intros [(Hl & E1 & E2) Hi]%list_elem_of_filter. apply list_elem_of_filter. split; [unfold tx_taker; by rewrite E1, E2|].
    apply elem_of_List_filter. split; [|done]. apply elem_of_List_filter in Hx as [Hx _].
    unfold atomic_trade in *. rewrite E1, E2. destruct (Z.eqb_spec (tr_Ledger y.2) 0); [done|].
    by destruct (tr_Ledger x.2 =? 0), (String.eqb (tr_Taker x.2) _), (String.eqb (tr_TxHash x.2) _).
Qed.

Lemma arbitrage_ext l l' comp : (forall x, x ∈ l <-> x ∈ l') -> arbitrage l comp <-> arbitrage l' comp.
Proof.
  intros H. unfold arbitrage, is_component. apply and_iff_compat_r, and_iff_compat_l, and_iff_compat_l.
  split; intros HX x Hx y; rewrite (HX x Hx y), H, (linked_ext l l'); done.
Qed.

Section Actors.
Context (trades : list Trade) (usd : list MEVLegUSD) (HC : Forall (fun t => clean_trade t = true) trades).

Lemma same_actor_NoDup x : NoDup (same_actor trades x).
Proof. apply NoDup_filter. apply (sublist_NoDup _ (indexed trades)); [apply indexed_NoDup|]. apply List_filter_sublist. Qed.

Lemma group_arbitrages x y : x ∈ List.filter atomic_trade (indexed trades) ->
  y ∈ arb_kept (same_actor trades x) <-> exists comp, arbitrage (actor_trades trades (tr_TxHash x.2) (tr_Taker x.2)) comp /\ y ∈ comp.
Proof using HC.
  intros Hx. rewrite arb_kept_arbitrage by (apply same_actor_NoDup || by apply same_actor_clean).
  pose proof (fun comp => arbitrage_ext _ _ comp (fun z => same_actor_trades trades x z HC Hx)) as HE.
  by split; intros (comp & HA%HE & Hy); exists comp.
Qed.

(** The trades a candidate publishes, in the order of the chain. *)
Lemma candidate_legs x c : x ∈ List.filter atomic_trade (indexed trades) -> buildArbCandidate usd (same_actor trades x) = Some c ->
  cTxHash c = tr_TxHash x.2 /\ cTaker c = tr_Taker x.2
  /\ exists kept, kept <> [] /\ NoDup kept /\ Forall2 leg_shows (Legs c) kept /\ StronglySorted chain_le kept
     /\ forall y, y ∈ kept <-> y ∈ arb_kept (same_actor trades x).
Proof using HC.
  intros Hx E. pose proof (buildArbCandidate_spec usd (same_actor trades x)) as HB. rewrite E in HB.
  destruct HB as (first & Hf & -> & -> & HP & HS).
  assert (tr_TxHash first.2 = tr_TxHash x.2 /\ tr_Taker first.2 = tr_Taker x.2) as [-> ->].
  { apply arb_kept_elem in Hf as (c' & Hc' & _ & Hf). by apply (same_actor_elem trades x first HC Hx), (component_sub _ c'). }
  split; [done|]. split; [done|]. apply Permutation_map_inv in HP as (kept & EL & HP). exists kept. rewrite EL in HS |- *. split_and!.
  - intros ->. apply Permutation_nil_r in HP. rewrite HP in Hf. by apply elem_of_nil in Hf.
  - rewrite <- HP. apply arb_kept_NoDup, same_actor_NoDup.
  - clear. induction kept; constructor; [done|done].
  - clear -HS. induction kept as [|y kept IH]; [constructor|]. cbn [map] in HS. apply StronglySorted_inv in HS as [HS HF]. constructor; [by apply IH|].
    apply Forall_map in HF. eapply Forall_impl; [exact HF|]. intros z. apply leg_leb_chain.
  - intros y. by rewrite HP.
Qed.
End Actors.

(** C28: the arbitrage detector publishes exactly the arbitrages. An arbitrage
    is an asset-connected component of the on-chain trades of one transaction
    and taker (both named) in which some trade's two assets stay linked
    without its hop, the fills of one hop counting once, and which has two
    venues or at least three assets and no more legs than assets. The legs of
    a candidate are exactly the trades of the arbitrages of its transaction
    and taker, each once, with their amounts, in the order in which the chain
    executed them; and whenever there is an arbitrage its transaction and
    taker have a candidate. The texts of the trades contain no NUL. *)
Theorem DetectArbitrage_exact trades usd : Forall (fun t => clean_trade t = true) trades ->
  (forall c, c ∈ DetectArbitrage trades usd ->
     cTxHash c <> "" /\ cTaker c <> "" /\ Kind c = "arbitrage"
     /\ exists kept, kept <> [] /\ NoDup kept /\ Forall2 leg_shows (Legs c) kept /\ StronglySorted chain_le kept
        /\ forall x, x ∈ kept <-> exists comp, arbitrage (actor_trades trades (cTxHash c) (cTaker c)) comp /\ x ∈ comp)
  /\ (forall tx taker comp, tx <> "" -> taker <> "" -> arbitrage (actor_trades trades tx taker) comp ->
       exists c, c ∈ DetectArbitrage trades usd /\ cTxHash c = tx /\ cTaker c = taker).
Proof.
  intros HC. split.
  - intros c (x & Hx & _ & E)%DetectArbitrage_elem. destruct (candidate_legs trades usd HC x c Hx E) as (-> & -> & kept & H1 & H2 & H3 & H4 & H5).
    assert (Hx' := Hx). apply elem_of_List_filter in Hx' as [Ha _]. unfold atomic_trade in Ha. bprop. split_and!; try done.
    + unfold buildArbCandidate in E. destruct (isort _ _); [done|]. by injection E as <-.
    + exists kept. split_and!; try done. intros y. rewrite H5. by apply group_arbitrages.
  - intros tx taker comp Htx Htk HA. destruct HA as ((Hne & HN & Hin) & HA'). assert (HA : arbitrage (actor_trades trades tx taker) comp) by done.
    destruct comp as [|x comp]; [done|]. assert (Hx : x ∈ actor_trades trades tx taker) by (apply (Hin x); left).
    apply list_elem_of_filter in Hx as [(Hl & E1 & E2) Hx].
    assert (Hx' : x ∈ List.filter atomic_trade (indexed trades)).
    { apply elem_of_List_filter. split; [|done]. unfold atomic_trade. rewrite E1, E2.
      destruct (Z.eqb_spec (tr_Ledger x.2) 0), (String.eqb_spec taker ""), (String.eqb_spec tx ""); done. }
    assert (Hk : x ∈ arb_kept (same_actor trades x)) by (apply group_arbitrages; [done..|]; exists (x :: comp); rewrite E1, E2; split; [done|left]).
    pose proof (buildArbCandidate_spec usd (same_actor trades x)) as HB.
    destruct (buildArbCandidate usd (same_actor trades x)) as [c|] eqn:E; [|rewrite HB in Hk; by apply elem_of_nil in Hk].
    exists c. destruct (candidate_legs trades usd HC x c Hx' E) as (-> & -> & _). split; [|done]. apply DetectArbitrage_elem. exists x. split; [done|]. split; [|done].
    apply arb_kept_elem in Hk as (c' & Hc' & HI & _). etrans; [apply venues_ok_length|].
    + by apply (isArbCycle_iff (same_actor trades x) c' Hc') in HI as [_ HV]; [exact HV|apply (component_clean trades x HC Hx')].
    + apply sublist_length. apply assetComponents_elem in Hc' as (z & Hz & ->). apply sublist_filter.
Qed.

(** ** Examples *)

Definition swap_ex (source txHash taker : string) (op : Z) (b q : Asset) : Trade :=
  mkTrade source 7 txHash op 1 (mkPair b q) (mkAmount (Some 5)) (mkAmount (Some 6)) "" taker "".

Definition usd_ex : Asset := mkAsset AssetFiat "USD" "" "".
Definition eur_ex : Asset := mkAsset AssetFiat "EUR" "" "".
Definition gbp_ex : Asset := mkAsset AssetFiat "GBP" "" "".
Definition jpy_ex : Asset := mkAsset AssetFiat "JPY" "" "".

(** Three hops around three assets, one of them filled twice, and a trade of
    the same transaction that has nothing to do with them. *)
Definition arb_ex : list Trade :=
  [swap_ex "sdex" "aa" "G1" 2048 NativeAsset usd_ex; swap_ex "sdex" "aa" "G1" 2049 NativeAsset usd_ex;
   swap_ex "soroswap" "aa" "G1" 0 usd_ex eur_ex; swap_ex "sdex" "aa" "G1" 3072 gbp_ex jpy_ex;
   swap_ex "aquarius" "aa" "G1" 65536 eur_ex NativeAsset].

Lemma isArbCycle_exact_witness :
  let l := indexed arb_ex in
  let c := filter (fun x => x.1 <> 3%nat) l in
  isArbCycle c = true /\ exists x, x ∈ c /\ closes c x.
Proof.
  cbv zeta. assert (E : isArbCycle (filter (fun x => x.1 <> 3%nat) (indexed arb_ex)) = true) by (vm_compute; reflexivity).
  split; [exact E|]. apply (isArbCycle_exact (indexed arb_ex)); [|by repeat constructor|exact E].
  apply list_elem_of_lookup. exists 0%nat. vm_compute. reflexivity.
Defined.

(** The legs of the cycle in the order of the chain, without the odd trade. *)
Lemma DetectArbitrage_exact_witness :
  exists c, DetectArbitrage arb_ex [] = [c]
    /\ map (fun g => (lgSource g, lgBase g)) (Legs c)
       = [("soroswap", Asset_String usd_ex); ("aquarius", Asset_String eur_ex); ("sdex", "native"); ("sdex", "native")]
    /\ DetectArbitrage (map (fun t => swap_ex (tr_Source t) "" "G1" (tr_OpIndex t) (Base (tr_Pair t)) (Quote (tr_Pair t))) arb_ex) [] = []
    /\ DetectArbitrage (map (fun t => swap_ex "sdex" "aa" "G1" (tr_OpIndex t) (Base (tr_Pair t)) (Quote (tr_Pair t))) arb_ex) [] = []
    /\ exists kept, NoDup kept /\ Forall2 leg_shows (Legs c) kept /\ StronglySorted chain_le kept.
Proof.
  assert (HL : length (DetectArbitrage arb_ex []) = 1%nat) by (vm_compute; reflexivity).
  destruct (DetectArbitrage arb_ex []) as [|c [|]] eqn:E; [discriminate HL| |discriminate HL].
  exists c. split; [reflexivity|]. split; [vm_compute in E; injection E as <-; vm_compute; reflexivity|].
  split; [vm_compute; reflexivity|]. split; [vm_compute; reflexivity|].
  destruct (DetectArbitrage_exact arb_ex []) as [H _]; [repeat (apply Forall_cons; split; [vm_compute; reflexivity|]); by apply Forall_nil|].
  destruct (H c) as (_ & _ & _ & kept & _ & HN & HF & HS & _); [rewrite E; constructor|]. exists kept. exact (conj HN (conj HF HS)).
Defined.
