(* ===== verification/Sandwich.v ===== *)
(** * Sandwich candidates (internal/aggregate/mev: sandwich.go,
    oracle_sandwich.go, inputs.go, the self-trades of washtrade.go)

    Patterns that depend on the order of transactions in a ledger. The order
    is looked up elsewhere ([txIdx], a transaction's index by its hash) and
    only for the hashes that [OrderingTxHashes] asks for; the theorems show
    what a published bracket is and that asking for so few loses nothing. *)

From S2P Require Import Prelude GoLib Amount Asset Alias Trade Mev.

(** ** Sandwiches *)

Definition KindSandwich : string := "sandwich".

Section Sandwich.
Context (g : globals).

Definition normAsset (a : string) : string := if String.eqb a (NativeSACContractID g) then "native" else a.

Definition pairIDs (t : Trade) : string * string :=
  let lo := normAsset (base_of t) in
  let hi := normAsset (quote_of t) in
  if str_ltb hi lo then (hi, lo) else (lo, hi).

Definition unorderedPairKey (t : Trade) : string := let '(lo, hi) := pairIDs t in lo +:+ "|" +:+ hi.

Definition orderableTrade (t : Trade) : bool :=
  (0 <? tr_Ledger t) && negb (String.eqb (tr_TxHash t) "") && negb (String.eqb (tr_Taker t) "").

(** Ten decimal digits and a colon. *)
Fixpoint ledger_digits (n : nat) (l : Z) (acc : string) : string :=
  match n with
  | O => acc
  | S n => ledger_digits n (l / 10) (String (digit_char (l mod 10)) acc)
  end.
Definition ledgerKey (l : Z) : string := ledger_digits 10 l ":".

Definition takerBaseIsReceived (source : string) : option bool :=
  if String.eqb source "sdex" then Some true
  else if bool_decide (source ∈ amm_sources) then Some false
  else None.

Definition takerReceivesLowAsset (t : Trade) : option bool :=
  received ← takerBaseIsReceived (tr_Source t);
  let baseIsLow := str_leb (normAsset (base_of t)) (normAsset (quote_of t)) in
  Some (Bool.eqb received baseIsLow).

Definition oppositeDirection (front back : Trade) : bool :=
  match takerReceivesLowAsset front, takerReceivesLowAsset back with
  | Some fl, Some bl => negb (Bool.eqb fl bl)
  | _, _ => false
  end.

(** [txIdx[t.TxHash]]: a missing hash reads as zero. *)
Definition tx_index (txIdx : gmap string Z) (x : itrade) : Z := default 0 (txIdx !! tr_TxHash x.2).

(** The outermost trades of an account: the first with the least index and
    the first with the greatest. *)
Definition widen (txIdx : gmap string Z) (fb : itrade * itrade) (x : itrade) : itrade * itrade :=
  let '(front, back) := fb in
  (if tx_index txIdx x <? tx_index txIdx front then x else front,
   if tx_index txIdx back <? tx_index txIdx x then x else back).

Definition bracketTrades (txIdx : gmap string Z) (l : list itrade) : option (itrade * itrade) :=
  match l with
  | [] => None
  | x :: l =>
      let '(front, back) := foldl (widen txIdx) (x, x) l in
      if String.eqb (tr_TxHash front.2) (tr_TxHash back.2) then None else Some (front, back)
  end.

Definition orderedLegFrom (txIdx : gmap string Z) (role : string) (x : itrade) : OrderedLeg :=
  mkOrderedLeg (leg_of x.2) (tr_TxHash x.2) (tx_index txIdx x) (tr_Taker x.2) role.

(** The distinct strings of a list, in order of first sight. *)
Definition first_seen (l : list string) : list string :=
  foldl (fun out s => if bool_decide (s ∈ out) then out else out ++ [s]) [] l.

Definition distinctTxHashes (l : list itrade) : list string := first_seen (map (fun x => tr_TxHash x.2) l).

Definition distinctAccounts (l : list itrade) (primary : string) : list string :=
  first_seen (primary :: List.filter (fun a => negb (String.eqb a "")) (map (fun x => tr_Taker x.2) l)).

Definition distinctSources (l : list itrade) : list string := sortedKeys (sourceSet l).
Definition pairAssets (t : Trade) : list string := sort_Strings [base_of t; quote_of t].

Definition victims_of (txIdx : gmap string Z) (group : list itrade) (attacker : string) (lo hi : Z) : list itrade :=
  List.filter (fun x => negb (String.eqb (tr_Taker x.2) attacker)
                        && (lo <? tx_index txIdx x) && (tx_index txIdx x <? hi)) group.

Definition buildSandwichCandidate (usdVolume : list MEVLegUSD) (txIdx : gmap string Z) (group : list itrade)
    (attacker : string) (own : list itrade) : option Candidate :=
  match bracketTrades txIdx own with
  | None => None
  | Some (front, back) =>
      if negb (oppositeDirection front.2 back.2) then None
      else
        match victims_of txIdx group attacker (tx_index txIdx front) (tx_index txIdx back) with
        | [] => None
        | victims =>
            let involved := [front] ++ victims ++ [back] in
            let legs := [orderedLegFrom txIdx "bracket" front] ++ map (orderedLegFrom txIdx "victim") victims
                        ++ [orderedLegFrom txIdx "bracket" back] in
            let t0 := front.2 in
            let pair := unorderedPairKey t0 in
            let '(assetID, quoteID) := pairIDs t0 in
            Some (mkCandidate KindSandwich (tr_Ledger t0) (tr_Ledger t0) (tr_Timestamp t0) (tr_TxHash t0) attacker
                    (Some (distinctTxHashes involved)) (Some (distinctAccounts involved attacker)) (pairAssets t0)
                    (distinctSources involved) assetID quoteID [] (sumUSD usdVolume involved)
                    (KindSandwich +:+ ":" +:+ tr_TxHash t0 +:+ ":" +:+ attacker +:+ ":" +:+ pair)
                    (SandwichDetail pair attacker legs))
        end
  end.

Definition sandwichesInGroup (usdVolume : list MEVLegUSD) (txIdx : gmap string Z) (group : list itrade) : list Candidate :=
  let byTaker := group_by (fun x => tr_Taker x.2) group in
  if (length byTaker <? 2)%nat then []
  else omap (fun tk => buildSandwichCandidate usdVolume txIdx group tk.1 tk.2) byTaker.

Definition ledger_pair (x : itrade) : string := ledgerKey (tr_Ledger x.2) +:+ unorderedPairKey x.2.

Definition ordered_trade (txIdx : gmap string Z) (x : itrade) : bool :=
  orderableTrade x.2 && bool_decide (is_Some (txIdx !! tr_TxHash x.2)).

Definition DetectSandwiches (trades : list Trade) (usdVolume : list MEVLegUSD) (txIdx : gmap string Z) : list Candidate :=
  if (size txIdx =? 0)%nat then []
  else group_by ledger_pair (List.filter (ordered_trade txIdx) (indexed trades))
       ≫= fun gr => sandwichesInGroup usdVolume txIdx gr.2.

(** Which transactions a sandwich could involve: the groups with three trades,
    two takers and a taker with two transactions. *)
Definition sandwich_shaped (group : list itrade) : bool :=
  let takers := group_by (fun x => tr_Taker x.2) group in
  negb ((length group <? 3)%nat || (length takers <? 2)%nat)
  && existsb (fun tk => (2 <=? size (list_to_set (map (fun x => tr_TxHash x.2) tk.2) : gset string))%nat) takers.

Definition collectSandwichHashes (trades : list Trade) : gset string :=
  list_to_set (group_by ledger_pair (List.filter (fun x => orderableTrade x.2) (indexed trades))
    ≫= fun gr => if sandwich_shaped gr.2 then map (fun x => tr_TxHash x.2) gr.2 else []).

(** ** Oracle sandwiches *)

Definition KindOracleSandwich : string := "oracle_sandwich".

Record OracleRef := mkOracleRef {
  or_Source : string; or_ContractID : string; or_Ledger : Z; or_TxHash : string; or_OpIndex : Z;
  or_Asset : string; or_Quote : string; or_Timestamp : Time
}.

Definition tradeTouches (t : Trade) (asset : string) : bool :=
  let a := normAsset asset in
  String.eqb (normAsset (base_of t)) a || String.eqb (normAsset (quote_of t)) a.

Definition takerReceivesAsset (t : Trade) (asset : string) : option bool :=
  baseReceived ← takerBaseIsReceived (tr_Source t);
  if String.eqb (normAsset asset) (normAsset (base_of t)) then Some baseReceived
  else if String.eqb (normAsset asset) (normAsset (quote_of t)) then Some (negb baseReceived)
  else None.

Definition oppositeOnAsset (a b : Trade) (asset : string) : bool :=
  match takerReceivesAsset a asset, takerReceivesAsset b asset with
  | Some ar, Some br => negb (Bool.eqb ar br)
  | _, _ => false
  end.

(** The nearest trades on each side of the update. *)
Definition nearest (txIdx : gmap string Z) (oIdx : Z) (ba : option itrade * option itrade) (x : itrade) : option itrade * option itrade :=
  let '(before, after) := ba in
  let ti := tx_index txIdx x in
  if ti <? oIdx then
    (match before with None => Some x | Some b => if tx_index txIdx b <? ti then Some x else before end, after)
  else if oIdx <? ti then
    (before, match after with None => Some x | Some a => if ti <? tx_index txIdx a then Some x else after end)
  else ba.

Definition buildOracleSandwichCandidate (usdVolume : list MEVLegUSD) (txIdx : gmap string Z) (o : OracleRef) (oIdx : Z)
    (taker : string) (own : list itrade) : option Candidate :=
  match foldl (nearest txIdx oIdx) (None, None) own with
  | (Some before, Some after) =>
      if negb (oppositeOnAsset before.2 after.2 (or_Asset o)) then None
      else
        let involved := [before; after] in
        let legs := [orderedLegFrom txIdx "before" before; orderedLegFrom txIdx "after" after] in
        let tb := before.2 in
        Some (mkCandidate KindOracleSandwich (or_Ledger o) (or_Ledger o) (tr_Timestamp tb) (or_TxHash o) taker
                (Some [tr_TxHash tb; or_TxHash o; tr_TxHash after.2]) (Some [taker]) [normAsset (or_Asset o)]
                (distinctSources involved) (normAsset (or_Asset o)) (or_Quote o) [] (sumUSD usdVolume involved)
                (KindOracleSandwich +:+ ":" +:+ or_TxHash o +:+ ":" +:+ big_String (or_OpIndex o) +:+ ":" +:+ taker
                 +:+ ":" +:+ normAsset (or_Asset o))
                (OracleSandwichDetail (or_Source o) (or_ContractID o) (or_TxHash o) oIdx (or_Asset o) (or_Quote o) taker legs))
  | _ => None
  end.

Definition oracleSandwichesForUpdate (usdVolume : list MEVLegUSD) (txIdx : gmap string Z) (o : OracleRef) (oIdx : Z)
    (ledgerTrades : list itrade) : list Candidate :=
  let touching := List.filter (fun x => negb (String.eqb (tr_TxHash x.2) (or_TxHash o) || negb (tradeTouches x.2 (or_Asset o))))
                    ledgerTrades in
  omap (fun tk => buildOracleSandwichCandidate usdVolume txIdx o oIdx tk.1 tk.2) (group_by (fun x => tr_Taker x.2) touching).

(** [tradesByLedger[o.Ledger]]. *)
Definition ledger_trades (trades : list Trade) (txIdx : gmap string Z) (ledger : Z) : list itrade :=
  List.filter (fun x => tr_Ledger x.2 =? ledger) (List.filter (ordered_trade txIdx) (indexed trades)).

Definition usable_oracle (o : OracleRef) : bool := negb ((or_Ledger o =? 0) || String.eqb (or_TxHash o) "").

Definition DetectOracleSandwiches (trades : list Trade) (usdVolume : list MEVLegUSD) (oracles : list OracleRef)
    (txIdx : gmap string Z) : list Candidate :=
  if (size txIdx =? 0)%nat || (length oracles =? 0)%nat then []
  else oracles ≫= fun o =>
    if negb (usable_oracle o) then []
    else match txIdx !! or_TxHash o with
         | None => []
         | Some oIdx => oracleSandwichesForUpdate usdVolume txIdx o oIdx (ledger_trades trades txIdx (or_Ledger o))
         end.

Definition collectOracleHashes (trades : list Trade) (oracles : list OracleRef) : gset string :=
  list_to_set (List.filter (fun t => orderableTrade t) trades ≫= fun t =>
    List.filter (fun o => usable_oracle o && (or_Ledger o =? tr_Ledger t) && tradeTouches t (or_Asset o)) oracles
    ≫= fun o => [tr_TxHash t; or_TxHash o]).

Definition OrderingTxHashes (trades : list Trade) (oracles : list OracleRef) : list string :=
  sortedKeys (collectSandwichHashes trades ∪ collectOracleHashes trades oracles).

(** ** Self-trades *)

Definition KindWashTrade : string := "wash_trade".
Definition maxLegs : nat := 20.

Definition washLegs (l : list itrade) : list washLeg :=
  map (fun x => mkWashLeg (leg_of x.2) (tr_Ledger x.2) (tr_TxHash x.2) (tr_Maker x.2) (tr_Taker x.2)) (take maxLegs l).

Definition accountMaker `{Strkey} (t : Trade) : bool := IsAccountID (tr_Maker t).

Definition self_trade `{Strkey} (x : itrade) : bool :=
  orderableTrade x.2 && accountMaker x.2 && String.eqb (tr_Maker x.2) (tr_Taker x.2).

Definition self_candidate (usdVolume : list MEVLegUSD) (l : list itrade) : option Candidate :=
  match l with
  | [] => None
  | x :: _ =>
      let t0 := x.2 in
      let '(assetID, quoteID) := pairIDs t0 in
      Some (mkCandidate KindWashTrade (tr_Ledger t0) (tr_Ledger t0) (tr_Timestamp t0) (tr_TxHash t0) (tr_Taker t0) None None
              (pairAssets t0) (distinctSources l) assetID quoteID [] (sumUSD usdVolume l) ""
              (WashDetail "self_trade" (unorderedPairKey t0) [tr_Taker t0] (washLegs l)))
  end.

Definition detectSelfTrades `{Strkey} (trades : list Trade) (usdVolume : list MEVLegUSD) : list Candidate :=
  omap (fun gr => self_candidate usdVolume gr.2) (group_by tx_taker (List.filter self_trade (indexed trades))).
End Sandwich.


Lemma NoDup_length_le {A} (xs l : list A) : NoDup xs -> (forall x, x ∈ xs -> x ∈ l) -> (length xs <= length l)%nat.
Proof. intros HN HX. apply submseteq_length, NoDup_submseteq; done. Qed.

(** ** Brackets *)

Section Laws.
Context (g : globals) (usd : list MEVLegUSD).

Lemma widen_spec (m : gmap string Z) x l front back : foldl (widen m) (x, x) l = (front, back) ->
  front ∈ x :: l /\ back ∈ x :: l
  /\ (forall z, z ∈ x :: l -> tx_index m front <= tx_index m z <= tx_index m back).
Proof.
  revert front back. induction l as [|y l IH] using rev_ind; intros front back.
  { cbn. intros [= <- <-]. split; [by left|split; [by left|]]. intros z Hz%list_elem_of_singleton. subst z. lia. }
  rewrite foldl_snoc. destruct (foldl (widen m) (x, x) l) as [f b]. destruct (IH f b eq_refl) as (Hf & Hb & HA). unfold widen.
  intros [= <- <-]. pose proof (HA f Hf). 
  destruct (Z.ltb_spec (tx_index m y) (tx_index m f)), (Z.ltb_spec (tx_index m b) (tx_index m y));
    (split; [set_solver|split; [set_solver|]]);
    intros z [->|[Hz|Hz%list_elem_of_singleton]%elem_of_app]%elem_of_cons; subst;
    (try (pose proof (HA x ltac:(by left)); lia)); (try (pose proof (HA z ltac:(by right)); lia)); pose proof (HA f Hf); pose proof (HA b Hb); lia.
Qed.

Lemma bracketTrades_spec m own front back : bracketTrades m own = Some (front, back) ->
  front ∈ own /\ back ∈ own /\ tr_TxHash front.2 <> tr_TxHash back.2
  /\ (forall z, z ∈ own -> tx_index m front <= tx_index m z <= tx_index m back).
Proof.
  destruct own as [|x l]; [done|]. cbn [bracketTrades]. destruct (foldl (widen m) (x, x) l) as [f b] eqn:E.
  destruct (String.eqb_spec (tr_TxHash f.2) (tr_TxHash b.2)) as [|Hne]; [done|]. intros [= <- <-].
  destruct (widen_spec m x l f b E) as (? & ? & ?). done.
Qed.

(** Where the account's first and last trade are the only ones at their
    places, they are the bracket. *)
Lemma bracketTrades_extremes m own a b : a ∈ own -> b ∈ own -> tr_TxHash a.2 <> tr_TxHash b.2 ->
  (forall z, z ∈ own -> z = a \/ tx_index m a < tx_index m z) ->
  (forall z, z ∈ own -> z = b \/ tx_index m z < tx_index m b) -> bracketTrades m own = Some (a, b).
Proof.
  intros Ha Hb Hne HA HB. destruct own as [|x l]; [by apply elem_of_nil in Ha|]. cbn [bracketTrades].
  destruct (foldl (widen m) (x, x) l) as [f k] eqn:E. destruct (widen_spec m x l f k E) as (Hf & Hk & HW).
  pose proof (HW a Ha). pose proof (HW b Hb). destruct (HA f Hf) as [->|?]; [|lia]. destruct (HB k Hk) as [->|?]; [|lia].
  by rewrite (proj2 (String.eqb_neq _ _)).
Qed.

Lemma victims_of_elem m group attacker lo hi x : x ∈ victims_of m group attacker lo hi <->
  x ∈ group /\ tr_Taker x.2 <> attacker /\ lo < tx_index m x < hi.
Proof.
  unfold victims_of. rewrite elem_of_List_filter, !andb_true_iff, negb_true_iff, String.eqb_neq, !Z.ltb_lt. tauto.
Qed.

Definition sandwich_evidence (m : gmap string Z) (front : itrade) (victims : list itrade) (back : itrade) : list OrderedLeg :=
  [orderedLegFrom m "bracket" front] ++ map (orderedLegFrom m "victim") victims ++ [orderedLegFrom m "bracket" back].

Lemma buildSandwichCandidate_spec m group attacker own :
  match buildSandwichCandidate g usd m group attacker own with
  | Some c => exists front back,
      let victims := victims_of m group attacker (tx_index m front) (tx_index m back) in
      bracketTrades m own = Some (front, back) /\ oppositeDirection g front.2 back.2 = true /\ victims <> []
      /\ cTaker c = attacker /\ cTxHash c = tr_TxHash front.2 /\ cLedger c = tr_Ledger front.2
      /\ Detail c = SandwichDetail (unorderedPairKey g front.2) attacker (sandwich_evidence m front victims back)
  | None => forall front back, bracketTrades m own = Some (front, back) -> oppositeDirection g front.2 back.2 = true ->
      victims_of m group attacker (tx_index m front) (tx_index m back) = []
  end.
Proof.
  unfold buildSandwichCandidate. destruct (bracketTrades m own) as [[front back]|] eqn:EB; [|done].
  destruct (oppositeDirection g front.2 back.2) eqn:EO; cbn [negb]; [|intros f k [= <- <-]; congruence].
  destruct (victims_of m group attacker _ _) as [|v vs] eqn:EV; [intros f k [= <- <-] _; done|].
  destruct (pairIDs g front.2) as [assetID quoteID] eqn:EP. exists front, back. cbn [cTaker cTxHash cLedger Detail].
  rewrite EV. done.
Qed.

Definition unguarded (trades : list Trade) (m : gmap string Z) : list Candidate :=
  group_by (ledger_pair g) (List.filter (ordered_trade m) (indexed trades)) ≫= fun gr => sandwichesInGroup g usd m gr.2.

(** Nothing can be ordered with an empty map. *)
Lemma DetectSandwiches_unguarded trades m : DetectSandwiches g trades usd m = unguarded trades m.
Proof.
  unfold DetectSandwiches, unguarded. destruct (Nat.eqb_spec (size m) 0) as [->%map_size_empty_inv|]; [|done].
  replace (List.filter (ordered_trade ∅) (indexed trades)) with ([] : list itrade); [done|].
  induction (indexed trades) as [|x l IH]; [done|]. cbn [List.filter]. unfold ordered_trade. rewrite lookup_empty, bool_decide_false by (by intros []).
  by rewrite andb_false_r.
Qed.

(** The group of a key and the trades of an account in it. *)
Definition group_of (trades : list Trade) (m : gmap string Z) (k : string) : list itrade :=
  filter (fun y => ledger_pair g y = k) (List.filter (ordered_trade m) (indexed trades)).
Definition own_trades (group : list itrade) (attacker : string) : list itrade := filter (fun y => tr_Taker y.2 = attacker) group.

Lemma takers_elem group tk own : (tk, own) ∈ group_by (fun x : itrade => tr_Taker x.2) group <->
  (exists x, x ∈ group /\ tr_Taker x.2 = tk) /\ own = own_trades group tk.
Proof. apply (group_by_spec (fun x : itrade => tr_Taker x.2) group). Qed.

Lemma takers_two group x y : x ∈ group -> y ∈ group -> tr_Taker x.2 <> tr_Taker y.2 ->
  (2 <= length (group_by (fun x : itrade => tr_Taker x.2) group))%nat.
Proof.
  intros Hx Hy Hne. rewrite <- (length_fmap fst). apply (NoDup_length_le [tr_Taker x.2; tr_Taker y.2]).
  { repeat constructor; [|set_solver..]. by rewrite list_elem_of_singleton. }
  intros k Hk. apply list_elem_of_fmap. exists (k, own_trades group k). split; [done|]. apply takers_elem. split; [|done].
  apply elem_of_cons in Hk as [Hk|Hk]; [|apply list_elem_of_singleton in Hk]; subst k; eauto.
Qed.

Lemma own_trades_elem group tk y : y ∈ own_trades group tk <-> y ∈ group /\ tr_Taker y.2 = tk.
Proof. unfold own_trades. rewrite list_elem_of_filter. tauto. Qed.

Lemma sandwichesInGroup_elem m group c : c ∈ sandwichesInGroup g usd m group <->
  exists x, x ∈ group /\ buildSandwichCandidate g usd m group (tr_Taker x.2) (own_trades group (tr_Taker x.2)) = Some c.
Proof.
  unfold sandwichesInGroup. destruct (Nat.ltb_spec (length (group_by (fun x : itrade => tr_Taker x.2) group)) 2) as [HL|HL].
  - split; [by intros ?%elem_of_nil|]. intros (x & Hx & E). exfalso.
    pose proof (buildSandwichCandidate_spec m group (tr_Taker x.2) (own_trades group (tr_Taker x.2))) as HB. rewrite E in HB.
    destruct HB as (front & back & _ & _ & Hv & _). destruct (victims_of m group _ _ _) as [|v vs] eqn:EV; [done|].
    assert (Hin : v ∈ v :: vs) by (by left). rewrite <- EV in Hin. apply victims_of_elem in Hin as (Hg & Hne & _).
    pose proof (takers_two group x v Hx Hg ltac:(congruence)). lia.
  - rewrite list_elem_of_omap. split.
    + intros ([tk own] & Hin & E). apply takers_elem in Hin as [(x & Hx & <-) ->]. by exists x.
    + intros (x & Hx & E). exists (tr_Taker x.2, own_trades group (tr_Taker x.2)). split; [|done]. apply takers_elem. eauto.
Qed.

Lemma DetectSandwiches_elem trades m c : c ∈ DetectSandwiches g trades usd m <->
  exists x, x ∈ List.filter (ordered_trade m) (indexed trades)
    /\ let group := group_of trades m (ledger_pair g x) in
       buildSandwichCandidate g usd m group (tr_Taker x.2) (own_trades group (tr_Taker x.2)) = Some c.
Proof.
  rewrite DetectSandwiches_unguarded. unfold unguarded. rewrite list_elem_of_bind.
  destruct (group_by_spec (ledger_pair g) (List.filter (ordered_trade m) (indexed trades))) as [_ HG]. split.
  - intros ([k group] & Hc & Hin). apply HG in Hin as [_ ->]. fold (group_of trades m k) in Hc. cbn [snd] in Hc.
    apply sandwichesInGroup_elem in Hc as (y & Hy & E). apply list_elem_of_filter in Hy as [Ek Hy]. exists y. rewrite Ek. done.
  - intros (x & Hx & E). exists (ledger_pair g x, group_of trades m (ledger_pair g x)). split; [|apply HG; eauto].
    apply sandwichesInGroup_elem. exists x. split; [|done]. apply list_elem_of_filter. done.
Qed.
End Laws.

(** ** Ledger keys *)

Lemma ledger_digits_app n l acc p : ledger_digits n l acc +:+ p = ledger_digits n l (acc +:+ p).
Proof. revert l acc. induction n as [|n IH]; intros l acc; [done|]. cbn [ledger_digits]. by rewrite IH. Qed.

Lemma ledger_digits_inj n l l' acc acc' : 0 <= l < 10 ^ Z.of_nat n -> 0 <= l' < 10 ^ Z.of_nat n ->
  ledger_digits n l acc = ledger_digits n l' acc' -> l = l' /\ acc = acc'.
Proof.
  revert l l' acc acc'. induction n as [|n IH]; intros l l' acc acc' Hl Hl' E; [simpl in *; split; [lia|done]|].
  cbn [ledger_digits] in E. rewrite Nat2Z.inj_succ, Z.pow_succ_r in Hl, Hl' by lia.
  apply IH in E as [E1 E2]; [|split; [apply Z.div_pos; lia|apply Z.div_lt_upper_bound; lia]..].
  injection E2 as E2 ->. split; [|done].
  assert (Hm : l mod 10 = l' mod 10).
  { apply (f_equal digit_val) in E2. pose proof (Z.mod_pos_bound l 10 ltac:(lia)). pose proof (Z.mod_pos_bound l' 10 ltac:(lia)).
    rewrite !digit_val_char in E2 by lia. congruence. }
  rewrite (Z.div_mod l 10), (Z.div_mod l' 10) by lia. congruence.
Qed.

Definition ledger_ok (t : Trade) : Prop := 0 <= tr_Ledger t < 2 ^ 32.

(** A group has one ledger and one pair. *)
Lemma ledger_pair_same g x y : ledger_ok x.2 -> ledger_ok y.2 -> ledger_pair g x = ledger_pair g y <->
  tr_Ledger x.2 = tr_Ledger y.2 /\ unorderedPairKey g x.2 = unorderedPairKey g y.2.
Proof.
  unfold ledger_ok, ledger_pair, ledgerKey. intros Hx Hy. rewrite !ledger_digits_app. split; [|by intros [-> ->]].
  intros E. apply ledger_digits_inj in E as [-> E]; [|lia..]. split; [done|].
  change (String ":" (unorderedPairKey g x.2) = String ":" (unorderedPairKey g y.2)) in E. congruence.
Qed.

(** ** What a sandwich is *)

(** A trade of the batch whose place is known. *)
Definition placed (trades : list Trade) (m : gmap string Z) (x : itrade) : Prop :=
  trades !! x.1 = Some x.2 /\ orderableTrade x.2 = true /\ is_Some (m !! tr_TxHash x.2).

Definition same_market (g : globals) (x y : itrade) : Prop :=
  tr_Ledger x.2 = tr_Ledger y.2 /\ unorderedPairKey g x.2 = unorderedPairKey g y.2.

Lemma placed_elem trades m x : x ∈ List.filter (ordered_trade m) (indexed trades) <-> placed trades m x.
Proof.
  rewrite elem_of_List_filter. unfold ordered_trade, placed. destruct x as [i t]. rewrite indexed_elem, andb_true_iff, bool_decide_eq_true.
  cbn [fst snd]. tauto.
Qed.

Section Sandwiches.
Context (g : globals) (usd : list MEVLegUSD) (trades : list Trade) (m : gmap string Z) (HL : Forall ledger_ok trades).

Lemma placed_ledger x : placed trades m x -> ledger_ok x.2.
Proof. intros (H & _). rewrite Forall_forall in HL. by apply HL, (list_elem_of_lookup_2 _ x.1). Qed.

Lemma group_of_elem x y : placed trades m x -> y ∈ group_of g trades m (ledger_pair g x) <-> placed trades m y /\ same_market g y x.
Proof.
  intros Hx. unfold group_of, same_market. rewrite list_elem_of_filter, placed_elem. split.
  - intros [E Hy]. split; [done|]. by apply ledger_pair_same; [apply placed_ledger..|].
  - intros [Hy E]. split; [|done]. by apply ledger_pair_same; [apply placed_ledger..|].
Qed.
End Sandwiches.

(** What the sandwich detector publishes. In a candidate the two
    bracket legs are the outermost trades of the named account on one pair
    in one ledger, in two transactions and opposite directions, and the
    victims are exactly the trades of other accounts on that pair and ledger
    whose transactions lie strictly between; conversely an account whose
    first and last trade run opposite ways around a trade of another account
    is published. Only trades whose transaction has a known index take
    part. *)
Theorem DetectSandwiches_exact g trades usd m : Forall ledger_ok trades ->
  (forall c, c ∈ DetectSandwiches g trades usd m ->
     exists front back victims,
       Detail c = SandwichDetail (unorderedPairKey g front.2) (cTaker c) (sandwich_evidence m front victims back)
       /\ cTxHash c = tr_TxHash front.2 /\ cLedger c = tr_Ledger front.2
       /\ placed trades m front /\ placed trades m back /\ same_market g back front
       /\ tr_Taker front.2 = cTaker c /\ tr_Taker back.2 = cTaker c
       /\ tr_TxHash front.2 <> tr_TxHash back.2 /\ oppositeDirection g front.2 back.2 = true
       /\ (forall z, placed trades m z -> same_market g z front -> tr_Taker z.2 = cTaker c ->
             tx_index m front <= tx_index m z <= tx_index m back)
       /\ victims <> []
       /\ forall v, v ∈ victims <-> placed trades m v /\ same_market g v front /\ tr_Taker v.2 <> cTaker c
                                    /\ tx_index m front < tx_index m v < tx_index m back)
  /\ (forall front back v, placed trades m front -> placed trades m back -> placed trades m v ->
        same_market g back front -> same_market g v front ->
        tr_Taker back.2 = tr_Taker front.2 -> tr_Taker v.2 <> tr_Taker front.2 ->
        tx_index m front < tx_index m v < tx_index m back -> oppositeDirection g front.2 back.2 = true ->
        (forall z, placed trades m z -> same_market g z front -> tr_Taker z.2 = tr_Taker front.2 ->
           (z = front \/ tx_index m front < tx_index m z) /\ (z = back \/ tx_index m z < tx_index m back)) ->
        exists c, c ∈ DetectSandwiches g trades usd m /\ cTaker c = tr_Taker front.2 /\ cTxHash c = tr_TxHash front.2).
Proof.
  intros HL. split.
  - intros c (x & Hx%placed_elem & E)%DetectSandwiches_elem. cbv zeta in E.
    pose proof (buildSandwichCandidate_spec g usd m (group_of g trades m (ledger_pair g x)) (tr_Taker x.2)
      (own_trades (group_of g trades m (ledger_pair g x)) (tr_Taker x.2))) as HB. rewrite E in HB.
    destruct HB as (front & back & EB & EO & Hv & E1 & E2 & E3 & E4).
    apply bracketTrades_spec in EB as ([Hf Tf]%own_trades_elem & [Hb Tb]%own_trades_elem & Hne & HA).
    apply group_of_elem in Hf as [Pf Mf]; [|done..]. apply group_of_elem in Hb as [Pb Mb]; [|done..].
    assert (HM : forall z, same_market g z front <-> same_market g z x) by (unfold same_market in *; intuition congruence).
    exists front, back. eexists. rewrite E1. split; [exact E4|]. do 3 (split; [done|]). split; [done|].
    split; [by apply HM|]. do 4 (split; [done|]). split; [|split; [done|]].
    + intros z Pz Mz Tz. apply HA, own_trades_elem. split; [|done]. apply group_of_elem; [done..|]. split; [done|]. by apply HM.
    + intros v. rewrite victims_of_elem, group_of_elem by done. rewrite HM. tauto.
  - intros front back v Pf Pb Pv Mb Mv Tb Tv Hidx EO HX.
    set (group := group_of g trades m (ledger_pair g front)).
    assert (EB : bracketTrades m (own_trades group (tr_Taker front.2)) = Some (front, back)).
    { apply bracketTrades_extremes.
      - apply own_trades_elem. split; [|done]. by apply group_of_elem.
      - apply own_trades_elem. split; [|done]. by apply group_of_elem.
      - intros E. unfold tx_index in Hidx. rewrite E in Hidx. lia.
      - intros z [[Pz Mz]%group_of_elem Tz]%own_trades_elem; [|done..]. by apply HX.
      - intros z [[Pz Mz]%group_of_elem Tz]%own_trades_elem; [|done..]. by apply HX. }
    pose proof (buildSandwichCandidate_spec g usd m group (tr_Taker front.2) (own_trades group (tr_Taker front.2))) as HB.
    destruct (buildSandwichCandidate g usd m group _ _) as [c|] eqn:E.
    + destruct HB as (f & k & EB' & _ & _ & E1 & E2 & _). rewrite EB in EB'. injection EB' as <- <-.
      exists c. split; [|done]. apply DetectSandwiches_elem. exists front. split; [by apply placed_elem|exact E].
    + specialize (HB front back EB EO). assert (Hin : v ∈ victims_of m group (tr_Taker front.2) (tx_index m front) (tx_index m back)).
      { apply victims_of_elem. split; [by apply group_of_elem|done]. }
      rewrite HB in Hin. by apply elem_of_nil in Hin.
Qed.

(** ** Asking for few transactions *)

Lemma filter_of_List_filter {A} (P : A -> Prop) `{forall x, Decision (P x)} l : filter P l = List.filter (fun x => bool_decide (P x)) l.
Proof. induction l as [|x l IH]; [done|]. rewrite filter_cons. cbn [List.filter]. rewrite IH. by case_bool_decide; case_decide. Qed.

Lemma list_omap_ext_elem {A B} (f h : A -> option B) (l : list A) : (forall x, x ∈ l -> f x = h x) -> omap f l = omap h l.
Proof. induction l as [|x l IH]; intros H; [done|]. cbn. rewrite H by (by left). rewrite IH; [done|]. intros. apply H. by right. Qed.

Section Few.
Context (g : globals) (usd : list MEVLegUSD) (trades : list Trade).

Definition orderable_group (k : string) : list itrade :=
  filter (fun y => ledger_pair g y = k) (List.filter (fun x => orderableTrade x.2) (indexed trades)).
Definition wanted_key (k : string) : bool := sandwich_shaped (orderable_group k).

Lemma collectSandwichHashes_elem h : h ∈ collectSandwichHashes g trades <->
  exists x, x ∈ indexed trades /\ orderableTrade x.2 = true /\ wanted_key (ledger_pair g x) = true /\ tr_TxHash x.2 = h.
Proof.
  unfold collectSandwichHashes. rewrite elem_of_list_to_set, list_elem_of_bind.
  destruct (group_by_spec (ledger_pair g) (List.filter (fun x : itrade => orderableTrade x.2) (indexed trades))) as [_ HG]. split.
  - intros ([k gr] & Hh & Hin). apply HG in Hin as [_ ->]. cbn [snd] in Hh. fold (orderable_group k) in Hh.
    destruct (sandwich_shaped (orderable_group k)) eqn:ES; [|by apply elem_of_nil in Hh].
    apply list_elem_of_fmap in Hh as (x & -> & [Ek [Ho Hx]%elem_of_List_filter]%list_elem_of_filter). exists x. unfold wanted_key. by rewrite Ek.
  - intros (x & Hx & Ho & HW & <-). exists (ledger_pair g x, orderable_group (ledger_pair g x)). cbn [snd].
    unfold wanted_key in HW. rewrite HW. split.
    + apply list_elem_of_fmap. exists x. split; [done|]. unfold orderable_group. by rewrite list_elem_of_filter, elem_of_List_filter.
    + apply HG. split; [|done]. exists x. by rewrite elem_of_List_filter.
Qed.

(** Any bracket has the shape that is asked for. *)
Lemma bracket_shaped group front back v : front ∈ group -> back ∈ group -> v ∈ group ->
  tr_Taker front.2 = tr_Taker back.2 -> tr_Taker v.2 <> tr_Taker front.2 -> tr_TxHash front.2 <> tr_TxHash back.2 ->
  sandwich_shaped group = true.
Proof.
  intros Hf Hb Hv E Hne Hh. unfold sandwich_shaped. rewrite andb_true_iff, negb_true_iff, orb_false_iff, !Nat.ltb_ge, existsb_exists.
  split; [split|].
  - apply (NoDup_length_le [front; back; v]); [|set_solver].
    assert (front <> back /\ front <> v /\ back <> v) as (? & ? & ?) by (repeat split; intros ->; congruence).
    repeat (apply NoDup_cons; split; [set_solver|]). constructor.
  - by apply (takers_two group v front).
  - exists (tr_Taker front.2, own_trades group (tr_Taker front.2)). rewrite <- list_elem_of_In. split; [apply takers_elem; eauto|].
    cbn [snd]. apply Nat.leb_le. change 2%nat with (length [tr_TxHash front.2; tr_TxHash back.2]).
    rewrite <- (size_list_to_set (C := gset string) [tr_TxHash front.2; tr_TxHash back.2]).
    + apply subseteq_size. intros h. rewrite !elem_of_list_to_set, elem_of_cons, list_elem_of_singleton, list_elem_of_fmap.
      intros [->| ->]; eexists; (split; [done|]); apply own_trades_elem; done.
    + repeat constructor; rewrite ?list_elem_of_singleton; set_solver.
Qed.

Lemma group_of_orderable m k x : x ∈ group_of g trades m k -> x ∈ orderable_group k.
Proof.
  unfold group_of, orderable_group. rewrite !list_elem_of_filter, !elem_of_List_filter. unfold ordered_trade. rewrite andb_true_iff. tauto.
Qed.

Lemma unwanted_empty m k : wanted_key k = false -> sandwichesInGroup g usd m (group_of g trades m k) = [].
Proof.
  intros HW. destruct (sandwichesInGroup g usd m (group_of g trades m k)) as [|c cs] eqn:E; [done|]. exfalso.
  assert (Hc : c ∈ sandwichesInGroup g usd m (group_of g trades m k)) by (rewrite E; by left).
  apply sandwichesInGroup_elem in Hc as (x & Hx & EC).
  pose proof (buildSandwichCandidate_spec g usd m (group_of g trades m k) (tr_Taker x.2) (own_trades (group_of g trades m k) (tr_Taker x.2))) as HB.
  rewrite EC in HB. destruct HB as (front & back & EB & _ & Hv & _).
  apply bracketTrades_spec in EB as ([Hf Tf]%own_trades_elem & [Hb Tb]%own_trades_elem & Hne & _).
  destruct (victims_of m _ _ _ _) as [|v vs] eqn:EV; [done|].
  assert (Hin : v ∈ v :: vs) by (by left). rewrite <- EV in Hin. apply victims_of_elem in Hin as (Hg & Hn & _).
  unfold wanted_key in HW. rewrite (bracket_shaped _ front back v) in HW; [done|by eapply group_of_orderable..|congruence|congruence|done].
Qed.

(** Only the wanted groups count. *)
Lemma unguarded_wanted m : unguarded g usd trades m =
  group_by (ledger_pair g) (List.filter (fun x => ordered_trade m x && wanted_key (ledger_pair g x)) (indexed trades))
  ≫= fun gr => sandwichesInGroup g usd m gr.2.
Proof.
  unfold unguarded. rewrite (bind_filter (fun gr => wanted_key gr.1)).
  - by rewrite group_by_filter, filter_filter_andb.
  - intros [k gr] Hin HW. apply (group_by_spec (ledger_pair g)) in Hin as [_ ->]. by apply unwanted_empty.
Qed.

(** The lookups agree on a set of hashes. *)
Context (m m' : gmap string Z).

Lemma ordered_trade_agree x : m' !! tr_TxHash x.2 = m !! tr_TxHash x.2 -> ordered_trade m' x = ordered_trade m x.
Proof. unfold ordered_trade. by intros ->. Qed.

Lemma tx_index_agree x : m' !! tr_TxHash x.2 = m !! tr_TxHash x.2 -> tx_index m' x = tx_index m x.
Proof. unfold tx_index. by intros ->. Qed.

Definition agree_on (l : list itrade) : Prop := forall x, x ∈ l -> m' !! tr_TxHash x.2 = m !! tr_TxHash x.2.

Lemma bracketTrades_agree own : agree_on own -> bracketTrades m' own = bracketTrades m own.
Proof.
  destruct own as [|x l]; [done|]. intros HA. cbn [bracketTrades].
  assert (E : foldl (widen m') (x, x) l = foldl (widen m) (x, x) l); [|by rewrite E].
  assert (HI : forall k, k ∈ x :: l -> tx_index m' k = tx_index m k) by (intros; by apply tx_index_agree, HA).
  clear HA. induction l as [|y l IH] using rev_ind; [done|]. rewrite !foldl_snoc.
  rewrite IH by (intros k Hk; apply HI; set_solver). destruct (foldl (widen m) (x, x) l) as [f b] eqn:E.
  destruct (widen_spec m x l f b E) as (Hf & Hb & _). unfold widen. rewrite !HI by set_solver. done.
Qed.

Lemma orderedLegFrom_agree role x : m' !! tr_TxHash x.2 = m !! tr_TxHash x.2 -> orderedLegFrom m' role x = orderedLegFrom m role x.
Proof. intros E. unfold orderedLegFrom. by rewrite tx_index_agree. Qed.

Lemma buildSandwichCandidate_agree group attacker own : agree_on group -> (forall x, x ∈ own -> x ∈ group) ->
  buildSandwichCandidate g usd m' group attacker own = buildSandwichCandidate g usd m group attacker own.
Proof.
  intros HA Hown. unfold buildSandwichCandidate. rewrite bracketTrades_agree by (intros x Hx; auto).
  destruct (bracketTrades m own) as [[front back]|] eqn:EB; [|done]. apply bracketTrades_spec in EB as (Hf & Hb & _).
  destruct (negb _); [done|].
  assert (EV : victims_of m' group attacker (tx_index m' front) (tx_index m' back) =
               victims_of m group attacker (tx_index m front) (tx_index m back)).
  { unfold victims_of. rewrite !tx_index_agree by auto. apply List_filter_ext_elem. intros x Hx. by rewrite !tx_index_agree by auto. }
  rewrite EV. destruct (victims_of m group _ _ _) as [|v vs] eqn:EV'; [done|].
  assert (EL : map (orderedLegFrom m' "victim") (v :: vs) = map (orderedLegFrom m "victim") (v :: vs)).
  { apply map_ext_in. intros x Hx. apply orderedLegFrom_agree, HA. apply list_elem_of_In in Hx. rewrite <- EV' in Hx.
    by apply victims_of_elem in Hx as (Hx & _). }
  rewrite EL, !orderedLegFrom_agree by auto. done.
Qed.

Lemma sandwichesInGroup_agree group : agree_on group -> sandwichesInGroup g usd m' group = sandwichesInGroup g usd m group.
Proof.
  intros HA. unfold sandwichesInGroup. destruct (_ <? 2)%nat; [done|]. apply list_omap_ext_elem. intros [tk own] Hin.
  apply takers_elem in Hin as [_ ->]. apply buildSandwichCandidate_agree; [done|]. by intros x [? _]%own_trades_elem.
Qed.

Lemma sandwiches_agree : (forall h, h ∈ collectSandwichHashes g trades -> m' !! h = m !! h) ->
  DetectSandwiches g trades usd m' = DetectSandwiches g trades usd m.
Proof.
  intros HH. rewrite !DetectSandwiches_unguarded, !unguarded_wanted.
  assert (HA : forall x, x ∈ indexed trades -> orderableTrade x.2 = true -> wanted_key (ledger_pair g x) = true ->
                 m' !! tr_TxHash x.2 = m !! tr_TxHash x.2).
  { intros x Hx Ho HW. apply HH, collectSandwichHashes_elem. by exists x. }
  assert (EF : List.filter (fun x => ordered_trade m' x && wanted_key (ledger_pair g x)) (indexed trades) =
               List.filter (fun x => ordered_trade m x && wanted_key (ledger_pair g x)) (indexed trades)).
  { apply List_filter_ext_elem. intros x Hx. destruct (wanted_key (ledger_pair g x)) eqn:HW; [|by rewrite !andb_false_r].
    unfold ordered_trade. destruct (orderableTrade x.2) eqn:Ho; [|done]. by rewrite HA. }
  rewrite EF. apply bind_ext. intros [k gr] Hin. apply sandwichesInGroup_agree. intros x Hx.
  apply (group_by_spec (ledger_pair g)) in Hin as [_ ->]. apply list_elem_of_filter in Hx as [_ Hx].
  apply elem_of_List_filter in Hx as [[Ho HW]%andb_prop Hx]. unfold ordered_trade in Ho. apply andb_prop in Ho as [Ho _]. auto.
Qed.

(** The trades an update is compared with. *)
Definition touching (k : gmap string Z) (o : OracleRef) : list itrade :=
  List.filter (fun x => negb (String.eqb (tr_TxHash x.2) (or_TxHash o) || negb (tradeTouches g x.2 (or_Asset o))))
    (ledger_trades trades k (or_Ledger o)).

Lemma touching_elem k o x : x ∈ touching k o ->
  x ∈ indexed trades /\ orderableTrade x.2 = true /\ tr_Ledger x.2 = or_Ledger o /\ tradeTouches g x.2 (or_Asset o) = true.
Proof.
  unfold touching, ledger_trades, ordered_trade.
  rewrite !elem_of_List_filter, andb_true_iff, negb_true_iff, orb_false_iff, negb_false_iff, Z.eqb_eq. tauto.
Qed.

Lemma collectOracleHashes_elem oracles o x : o ∈ oracles -> usable_oracle o = true -> x ∈ indexed trades -> orderableTrade x.2 = true ->
  tr_Ledger x.2 = or_Ledger o -> tradeTouches g x.2 (or_Asset o) = true ->
  tr_TxHash x.2 ∈ collectOracleHashes g trades oracles /\ or_TxHash o ∈ collectOracleHashes g trades oracles.
Proof.
  intros Ho Hu Hx Hot El Ht.
  assert (H : forall h, h ∈ [tr_TxHash x.2; or_TxHash o] -> h ∈ collectOracleHashes g trades oracles); [|split; apply H; set_solver].
  intros h Hh. unfold collectOracleHashes. rewrite elem_of_list_to_set, list_elem_of_bind. exists x.2.
  rewrite elem_of_List_filter. split; [|split; [done|by apply indexed_trade]]. apply list_elem_of_bind. exists o. split; [done|].
  rewrite elem_of_List_filter, Hu, Ht, El, Z.eqb_refl. done.
Qed.

Lemma nearest_agree oIdx own acc : agree_on own -> agree_on (option_list acc.1) -> agree_on (option_list acc.2) ->
  foldl (nearest m' oIdx) acc own = foldl (nearest m oIdx) acc own
  /\ agree_on (option_list (foldl (nearest m oIdx) acc own).1) /\ agree_on (option_list (foldl (nearest m oIdx) acc own).2).
Proof.
  revert acc. induction own as [|x own IH]; intros [b a] HA Hb Ha; [done|]. cbn [foldl fst snd] in *.
  assert (Hx : m' !! tr_TxHash x.2 = m !! tr_TxHash x.2) by (apply HA; by left).
  assert (E : nearest m' oIdx (b, a) x = nearest m oIdx (b, a) x).
  { unfold nearest. rewrite (tx_index_agree x) by done. destruct b as [b|], a as [a|]; cbn in Ha, Hb;
      rewrite ?(tx_index_agree b) by (apply Hb; by left); rewrite ?(tx_index_agree a) by (apply Ha; by left); done. }
  rewrite E. apply IH; [intros y Hy; apply HA; by right|..]; unfold nearest; clear IH E HA;
    repeat case_match; cbn in *; simplify_eq; try done; intros y Hy%list_elem_of_singleton; subst; auto; (apply Ha || apply Hb); by left.
Qed.

Lemma oracle_build_agree o oIdx taker own : agree_on own ->
  buildOracleSandwichCandidate g usd m' o oIdx taker own = buildOracleSandwichCandidate g usd m o oIdx taker own.
Proof.
  intros HA. unfold buildOracleSandwichCandidate.
  destruct (nearest_agree oIdx own (None, None) HA) as (-> & Hb & Ha); [by intros x ?%elem_of_nil..|].
  destruct (foldl (nearest m oIdx) (None, None) own) as [[b|] [a|]]; try done. cbn [fst snd option_list] in *.
  rewrite (orderedLegFrom_agree "before" b) by (apply Hb; by left). rewrite (orderedLegFrom_agree "after" a) by (apply Ha; by left). done.
Qed.

Definition oracle_update (k : gmap string Z) (o : OracleRef) : list Candidate :=
  if negb (usable_oracle o) then []
  else match k !! or_TxHash o with
       | None => []
       | Some oIdx => oracleSandwichesForUpdate g usd k o oIdx (ledger_trades trades k (or_Ledger o))
       end.

Lemma DetectOracleSandwiches_updates oracles k : DetectOracleSandwiches g trades usd oracles k = oracles ≫= oracle_update k.
Proof.
  unfold DetectOracleSandwiches. destruct (Nat.eqb_spec (size k) 0) as [->%map_size_empty_inv|]; cbn [orb].
  - symmetry. induction oracles as [|o oracles IH]; [done|]. cbn. unfold oracle_update at 1. rewrite lookup_empty.
    by destruct (negb _).
  - by destruct oracles.
Qed.

Lemma oracle_update_agree oracles o : (forall h, h ∈ collectOracleHashes g trades oracles -> m' !! h = m !! h) -> o ∈ oracles ->
  oracle_update m' o = oracle_update m o.
Proof.
  intros HH Ho. unfold oracle_update. destruct (usable_oracle o) eqn:Hu; [|done]. cbn [negb].
  assert (HA : forall k, agree_on (touching k o)).
  { intros k x Hx. apply touching_elem in Hx as (Hx & Hot & El & Ht). by apply HH, (collectOracleHashes_elem oracles o x). }
  assert (ET : touching m' o = touching m o).
  { unfold touching, ledger_trades. rewrite !filter_filter_andb. apply List_filter_ext_elem. intros x Hx. unfold ordered_trade.
    destruct (orderableTrade x.2) eqn:Hot; [|done]. destruct (Z.eqb_spec (tr_Ledger x.2) (or_Ledger o)) as [El|]; [|by rewrite !andb_false_r].
    destruct (tradeTouches g x.2 (or_Asset o)) eqn:Ht; [|by rewrite orb_true_r, !andb_false_r].
    rewrite HH; [done|]. by apply (collectOracleHashes_elem oracles o x). }
  unfold oracleSandwichesForUpdate. fold (touching m' o) (touching m o). rewrite ET.
  destruct (touching m o) as [|x l] eqn:E; [by destruct (m' !! _), (m !! _)|].
  assert (Hx : x ∈ touching m o) by (rewrite E; by left). apply touching_elem in Hx as (Hx & Hot & El & Ht).
  rewrite (HH (or_TxHash o)) by (by apply (collectOracleHashes_elem oracles o x)).
  destruct (m !! or_TxHash o) as [oIdx|]; [|done]. rewrite <- E. apply list_omap_ext_elem. intros [tk own] Hin.
  apply takers_elem in Hin as [_ ->]. apply oracle_build_agree. intros y [Hy _]%own_trades_elem. by apply (HA m).
Qed.

Lemma oracle_sandwiches_agree oracles : (forall h, h ∈ collectOracleHashes g trades oracles -> m' !! h = m !! h) ->
  DetectOracleSandwiches g trades usd oracles m' = DetectOracleSandwiches g trades usd oracles m.
Proof.
  intros HH. rewrite !DetectOracleSandwiches_updates. apply bind_ext. intros o Ho. by apply (oracle_update_agree oracles).
Qed.
End Few.

Lemma sortedKeys_elem (s : gset string) h : h ∈ sortedKeys s <-> h ∈ s.
Proof. unfold sortedKeys, sort_Strings. by rewrite elem_of_isort, elem_of_elements. Qed.

(** The prefilter loses nothing. A transaction order that knows only the
    hashes of [OrderingTxHashes] - however little else it agrees on - gives
    the sandwich and oracle-sandwich detectors the candidates of the full
    one, evidence included and in the same order. *)
Theorem OrderingTxHashes_enough g trades usd oracles m m' :
  (forall h, h ∈ OrderingTxHashes g trades oracles -> m' !! h = m !! h) ->
  DetectSandwiches g trades usd m' = DetectSandwiches g trades usd m
  /\ DetectOracleSandwiches g trades usd oracles m' = DetectOracleSandwiches g trades usd oracles m.
Proof.
  intros HH. split; [apply sandwiches_agree|apply oracle_sandwiches_agree]; intros h Hh; apply HH; apply sortedKeys_elem; set_solver.
Qed.

(** ** Examples *)

(** An account buys before and sells after another's trade; a fourth trade
    is in another ledger's shape. *)
Definition sandwich_ex : list Trade :=
  [swap_ex "sdex" "aa" "G1" 1024 NativeAsset usd_ex; swap_ex "sdex" "bb" "G2" 1024 NativeAsset usd_ex;
   swap_ex "sdex" "cc" "G1" 1024 usd_ex NativeAsset; swap_ex "sdex" "dd" "G3" 1024 eur_ex usd_ex].

Definition order_ex : gmap string Z := {[ "aa" := 1; "bb" := 2; "cc" := 3; "dd" := 4 ]}.

Lemma DetectSandwiches_exact_witness :
  exists c (front back : itrade), DetectSandwiches init_globals sandwich_ex [] order_ex = [c]
    /\ tr_TxHash front.2 <> tr_TxHash back.2 /\ oppositeDirection init_globals front.2 back.2 = true.
Proof.
  assert (HL : length (DetectSandwiches init_globals sandwich_ex [] order_ex) = 1%nat) by (vm_compute; reflexivity).
  destruct (DetectSandwiches init_globals sandwich_ex [] order_ex) as [|c [|]] eqn:E; [discriminate HL| |discriminate HL].
  destruct (DetectSandwiches_exact init_globals sandwich_ex [] order_ex) as [H _]; [repeat (apply Forall_cons; split; [vm_compute; by split|]); by apply Forall_nil|].
  destruct (H c) as (front & back & victims & _ & _ & _ & _ & _ & _ & _ & _ & Hne & HO & _); [rewrite E; by left|].
  exists c, front, back. split; [reflexivity|]. split; [exact Hne|exact HO].
Defined.

Lemma OrderingTxHashes_enough_witness :
  let m := delete "dd" order_ex in
  OrderingTxHashes init_globals sandwich_ex [] = ["aa"; "bb"; "cc"]
  /\ DetectSandwiches init_globals sandwich_ex [] m = DetectSandwiches init_globals sandwich_ex [] order_ex.
Proof.
  assert (E : OrderingTxHashes init_globals sandwich_ex [] = ["aa"; "bb"; "cc"]) by (vm_compute; reflexivity).
  split; [exact E|]. apply (OrderingTxHashes_enough init_globals sandwich_ex [] []). rewrite E. clear E. intros h Hh.
  repeat (apply elem_of_cons in Hh as [Hh|Hh]; [subst h; reflexivity|]). apply elem_of_nil in Hh. destruct Hh.
Defined.
