(* ===== verification/Cascade.v ===== *)
(** * Liquidation cascades (internal/aggregate/mev/cascade.go)

    A fill of a liquidation auction extends a cascade when another position
    was liquidated within twelve ledgers before it and an oracle update for
    one of its own assets lies in the bracket. The theorem says which fills
    are published, with which prior fills, and that no owner of a liquidated
    position is ever listed as an account. *)

From S2P Require Import Prelude GoLib Amount Asset Alias Trade Mev Sandwich.

Definition KindLiquidationCascade : string := "liquidation_cascade".
Definition cascadeWindowLedgers : Z := 12.
Definition maxEvidence : nat := 10.

Record AuctionFill := mkAuctionFill {
  af_Pool : string; af_User : string; af_Filler : string; af_AuctionType : Z; af_Ledger : Z;
  af_TxHash : string; af_OpIndex : Z; af_Timestamp : Time; af_Assets : list string
}.

(** Ledger, then hash, then operation. Fills of one operation keep the order
    of the input here. *)
Definition fill_less (a b : AuctionFill) : bool :=
  if negb (af_Ledger a =? af_Ledger b) then af_Ledger a <? af_Ledger b
  else if negb (String.eqb (af_TxHash a) (af_TxHash b)) then str_ltb (af_TxHash a) (af_TxHash b)
  else af_OpIndex a <? af_OpIndex b.
Definition fill_leb (a b : AuctionFill) : bool := negb (fill_less b a).

(** The loop backwards from [f]. *)
Fixpoint priors_of (f : AuctionFill) (l : list AuctionFill) : list AuctionFill :=
  match l with
  | [] => []
  | p :: l =>
      if cascadeWindowLedgers <? (af_Ledger f - af_Ledger p) mod 2 ^ 32 then []
      else if String.eqb (af_Pool p) (af_Pool f) && String.eqb (af_User p) (af_User f) then priors_of f l
      else if String.eqb (af_TxHash p) (af_TxHash f) then priors_of f l
      else p :: priors_of f l
  end.

Section Cascade.
Context `{Strkey} (g : globals).

Definition oracleRefIsMapped (o : OracleRef) : bool :=
  match ParseAsset (or_Asset o) with Ok a => Asset_IsMapped a | Err _ => false end.

Definition positionAssetSet (assets : list string) : gset string :=
  list_to_set (assets ≫= fun s =>
    normAsset g s :: match ParseAsset s with Ok a => map (normAsset g) (AssetAliasStrings g a) | Err _ => [] end).

Definition correlated (f : AuctionFill) (lowLedger : Z) (o : OracleRef) : bool :=
  negb ((or_Ledger o =? 0) || ((or_Ledger o + cascadeWindowLedgers) mod 2 ^ 32 <? lowLedger) || (af_Ledger f <? or_Ledger o))
  && oracleRefIsMapped o && bool_decide (normAsset g (or_Asset o) ∈ positionAssetSet (af_Assets f)).

Definition oracle_ref (o : OracleRef) : cascadeOracleRef :=
  mkCascadeOracleRef (or_Source o) (or_ContractID o) (or_Asset o) (or_Ledger o) (or_TxHash o).

Definition correlatedOracles (f : AuctionFill) (lowLedger : Z) (oracles : list OracleRef) : list cascadeOracleRef :=
  map oracle_ref (List.filter (correlated f lowLedger) oracles).

Definition positionAssets (assets : list string) : gset string := list_to_set assets.

Definition fillRef (f : AuctionFill) : cascadeFillRef :=
  mkCascadeFillRef (af_Pool f) (af_User f) (af_Filler f) (af_AuctionType f) (sortedKeys (positionAssets (af_Assets f)))
    (af_Ledger f) (af_TxHash f) (af_OpIndex f).

Definition assembleCascadeCandidate (f : AuctionFill) (priors : list AuctionFill) (updates : list cascadeOracleRef) : Candidate :=
  let priors := take maxEvidence priors in
  let updates := take maxEvidence updates in
  mkCandidate KindLiquidationCascade (af_Ledger f) (af_Ledger f) (af_Timestamp f) (af_TxHash f) (af_Filler f)
    (Some (first_seen (map af_TxHash (f :: priors))))
    (Some (first_seen (List.filter (fun a => negb (String.eqb a "")) (map af_Filler (f :: priors)))))
    (sortedKeys (positionAssets (af_Assets f))) ["blend"] "" "" [] (mkNotional None false false)
    (KindLiquidationCascade +:+ ":" +:+ af_TxHash f +:+ ":" +:+ af_Pool f +:+ ":" +:+ af_User f +:+ ":" +:+ big_String (af_OpIndex f))
    (CascadeDetail cascadeWindowLedgers (fillRef f) (map fillRef priors) updates).

(** [before]: the sorted fills before [f], nearest first. *)
Definition buildCascadeCandidate (f : AuctionFill) (before : list AuctionFill) (oracles : list OracleRef) : option Candidate :=
  match last (priors_of f before) with
  | None => None
  | Some low =>
      match correlatedOracles f (af_Ledger low) oracles with
      | [] => None
      | updates => Some (assembleCascadeCandidate f (priors_of f before) updates)
      end
  end.

Fixpoint cascade_loop (before rest : list AuctionFill) (oracles : list OracleRef) : list Candidate :=
  match rest with
  | [] => []
  | f :: rest => option_list (buildCascadeCandidate f before oracles) ++ cascade_loop (f :: before) rest oracles
  end.

Definition DetectLiquidationCascades (fills : list AuctionFill) (oracles : list OracleRef) : list Candidate :=
  if (length fills <? 2)%nat then []
  else match isort fill_leb fills with
       | [] => []
       | f :: rest => cascade_loop [f] rest oracles
       end.
End Cascade.

(** ** The order of fills *)

(** In an earlier ledger, or in another transaction of the same ledger that
    sorts first. *)
Definition fill_before (p f : AuctionFill) : Prop :=
  af_Ledger p < af_Ledger f \/ af_Ledger p = af_Ledger f /\ str_ltb (af_TxHash p) (af_TxHash f) = true.

Lemma fill_leb_total a b : fill_leb a b = true \/ fill_leb b a = true.
Proof.
  unfold fill_leb, fill_less. rewrite (Z.eqb_sym (af_Ledger b)), (String.eqb_sym (af_TxHash b)).
  destruct (Z.eqb_spec (af_Ledger a) (af_Ledger b)); cbn [negb]; [|destruct (Z.ltb_spec (af_Ledger a) (af_Ledger b)), (Z.ltb_spec (af_Ledger b) (af_Ledger a)); cbn; auto; lia].
  destruct (String.eqb_spec (af_TxHash a) (af_TxHash b)); cbn [negb].
  - destruct (Z.ltb_spec (af_OpIndex a) (af_OpIndex b)), (Z.ltb_spec (af_OpIndex b) (af_OpIndex a)); cbn; auto; lia.
  - apply str_leb_total.
Qed.

Lemma fill_leb_spec a b : fill_leb a b = true <->
  af_Ledger a < af_Ledger b \/ af_Ledger a = af_Ledger b /\
  (str_ltb (af_TxHash a) (af_TxHash b) = true \/ af_TxHash a = af_TxHash b /\ af_OpIndex a <= af_OpIndex b).
Proof.
  unfold fill_leb, fill_less. destruct (Z.eqb_spec (af_Ledger b) (af_Ledger a)) as [E|E]; cbn [negb].
  - destruct (String.eqb_spec (af_TxHash b) (af_TxHash a)) as [E'|E']; cbn [negb].
    + rewrite E', str_ltb_irrefl, negb_true_iff, Z.ltb_ge. split; [right; split; [lia|]; right; split; [done|lia]|].
      intros [?|[_ [?|[_ ?]]]]; [lia|done|lia].
    + rewrite negb_true_iff. split.
      * intros Hs. right. split; [lia|]. left. destruct (str_ltb (af_TxHash a) (af_TxHash b)) eqn:E2; [done|].
        by destruct E'; apply str_ltb_total.
      * intros [?|[_ [Hs|[? _]]]]; [lia|by apply str_ltb_asym|congruence].
  - rewrite negb_true_iff, Z.ltb_ge. split; [intros; left; lia|]. intros [?|[? _]]; lia.
Qed.

Lemma fill_leb_trans a b c : fill_leb a b = true -> fill_leb b c = true -> fill_leb a c = true.
Proof.
  rewrite !fill_leb_spec. intros [H1|[E1 H1]] [H2|[E2 H2]]; [left; lia..|]. right. split; [lia|].
  destruct H1 as [H1|[E3 H1]], H2 as [H2|[E4 H2]].
  - left. by eapply str_ltb_trans.
  - left. congruence.
  - left. congruence.
  - right. split; [congruence|lia].
Qed.

(** ** The prior fills *)

Definition ledgers_down (l : list AuctionFill) : Prop := StronglySorted (fun a b => af_Ledger b <= af_Ledger a) l.

(** A fill of another position, in another transaction and within the window. *)
Definition prior_fill (f p : AuctionFill) : Prop :=
  af_Ledger f - af_Ledger p <= cascadeWindowLedgers
  /\ (af_Pool p <> af_Pool f \/ af_User p <> af_User f) /\ af_TxHash p <> af_TxHash f.

(** The loop may stop at the window's end because the ledgers only fall. *)
Lemma priors_of_elem f l p : af_Ledger f < 2 ^ 32 -> ledgers_down l ->
  (forall q, q ∈ l -> 0 <= af_Ledger q <= af_Ledger f) -> p ∈ priors_of f l <-> p ∈ l /\ prior_fill f p.
Proof.
  intros Hf HS HL. induction l as [|q l IH]; [split; [by intros ?%elem_of_nil|by intros [?%elem_of_nil _]]|].
  apply StronglySorted_inv in HS as [HS HQ]. rewrite Forall_forall in HQ.
  specialize (IH HS ltac:(intros; apply HL; by right)). pose proof (HL q ltac:(by left)) as Hq.
  unfold prior_fill in *. cbn [priors_of]. rewrite Z.mod_small by lia. rewrite !elem_of_cons.
  destruct (Z.ltb_spec cascadeWindowLedgers (af_Ledger f - af_Ledger q)) as [Hw|Hw].
  { split; [by intros ?%elem_of_nil|]. intros [[->|Hp] (Hpw & _)]; [lia|]. specialize (HQ p Hp). lia. }
  destruct (String.eqb_spec (af_Pool q) (af_Pool f)), (String.eqb_spec (af_User q) (af_User f)),
    (String.eqb_spec (af_TxHash q) (af_TxHash f)); cbn [andb]; rewrite ?elem_of_cons, IH; naive_solver.
Qed.

Lemma priors_of_sublist f l : priors_of f l `sublist_of` l.
Proof. induction l as [|q l IH]; [done|]. cbn [priors_of]. repeat case_match; try (by apply sublist_cons); [apply sublist_nil_l|by apply sublist_skip]. Qed.

(** The last of them is the earliest. *)
Lemma last_down l low : ledgers_down l -> last l = Some low -> low ∈ l /\ forall p, p ∈ l -> af_Ledger low <= af_Ledger p.
Proof.
  intros HD. induction HD as [|q l HS IH HQ]; intros E; [done|]. rewrite Forall_forall in HQ. destruct l as [|r l].
  - injection E as ->. split; [by left|]. intros p Hp%list_elem_of_singleton. subst. lia.
  - change (last (q :: r :: l)) with (last (r :: l)) in E. destruct (IH E) as [H1 H2]. split; [by right|].
    intros p [->|Hp]%elem_of_cons; [by apply HQ|auto].
Qed.

Lemma ledgers_down_sublist l k : k `sublist_of` l -> ledgers_down l -> ledgers_down k.
Proof.
  intros HS HD. revert k HS. induction HD as [|q l HD IH HQ]; intros k HS; [apply sublist_nil_r in HS as ->; constructor|].
  apply sublist_cons_r in HS as [HS|(k' & -> & HS)]; [auto|]. apply SSorted_cons; [by apply IH|].
  rewrite Forall_forall in HQ. apply Forall_forall. intros x Hx. apply HQ. by apply (elem_of_sublist k').
Qed.

Lemma first_seen_elem l a : a ∈ first_seen l <-> a ∈ l.
Proof.
  unfold first_seen. induction l as [|x l IH] using rev_ind; [done|]. rewrite foldl_snoc, elem_of_app, list_elem_of_singleton, <- IH.
  case_bool_decide as Hx; [|by rewrite elem_of_app, list_elem_of_singleton]. split; [auto|]. intros [?|Ha]; [done|by subst a].
Qed.

Lemma sorted_split (l a b : list AuctionFill) f : StronglySorted (fun x y => fill_leb x y = true) l -> l = a ++ f :: b ->
  (forall p, p ∈ a -> fill_leb p f = true) /\ (forall p, p ∈ b -> fill_leb f p = true) /\ ledgers_down (rev a).
Proof.
  intros HS ->. split; [|split].
  - intros p Hp. apply StronglySorted_app in HS as (HX & _ & _). apply HX; [done|by left].
  - apply StronglySorted_app in HS as (_ & _ & HS). apply StronglySorted_inv in HS as [_ HF]. by rewrite Forall_forall in HF.
  - apply StronglySorted_app in HS as (_ & HS & _). clear -HS. induction a as [|x a IH]; [constructor|].
    apply StronglySorted_inv in HS as [HS HF]. cbn [rev]. unfold ledgers_down. apply StronglySorted_app. split; [|split; [by apply IH|repeat constructor]].
    intros u v Hu Hv%list_elem_of_singleton. subst v. rewrite Forall_forall in HF. apply list_elem_of_In, in_rev, list_elem_of_In in Hu.
    specialize (HF u Hu). apply fill_leb_spec in HF. lia.
Qed.

Section Exact.
Context `{Strkey} (g : globals) (oracles : list OracleRef).

Lemma cascade_loop_elem before rest c : c ∈ cascade_loop g before rest oracles <->
  exists a f b, rest = a ++ f :: b /\ buildCascadeCandidate g f (rev a ++ before) oracles = Some c.
Proof.
  revert before. induction rest as [|f rest IH]; intros before; cbn [cascade_loop].
  { split; [by intros ?%elem_of_nil|]. intros ([|] & f & b & E & _); discriminate E. }
  rewrite elem_of_app, IH. split.
  - intros [Hc|(a & f' & b & -> & E)].
    + destruct (buildCascadeCandidate g f before oracles) as [c'|] eqn:E; cbn in Hc; [|by apply elem_of_nil in Hc].
      apply list_elem_of_singleton in Hc as ->. by exists [], f, rest.
    + exists (f :: a), f', b. split; [done|]. cbn [rev]. by rewrite <- app_assoc.
  - intros ([|x a] & f' & b & E & EB); cbn in E; injection E as -> ->.
    + left. cbn in EB. rewrite EB. by left.
    + right. exists a, f', b. split; [done|]. cbn [rev] in EB. by rewrite <- app_assoc in EB.
Qed.

Lemma DetectLiquidationCascades_elem fills c : c ∈ DetectLiquidationCascades g fills oracles <->
  exists a f b, isort fill_leb fills = a ++ f :: b /\ buildCascadeCandidate g f (rev a) oracles = Some c.
Proof.
  unfold DetectLiquidationCascades. rewrite <- (isort_length fill_leb fills). destruct (isort fill_leb fills) as [|f0 [|f1 rest]].
  - split; [by intros ?%elem_of_nil|]. intros ([|] & f & b & E & _); discriminate E.
  - split; [by intros ?%elem_of_nil|]. intros ([|x [|]] & f & b & E & EB); try discriminate E. done.
  - change (length (f0 :: f1 :: rest) <? 2)%nat with false. cbv iota. rewrite cascade_loop_elem. split.
    + intros (a & f & b & E & EB). exists (f0 :: a), f, b. cbn [rev app]. by rewrite E.
    + intros ([|x a] & f & b & E & EB); [done|]. injection E as <- E. exists a, f, b. done.
Qed.

Context (fills : list AuctionFill) (HU : Forall (fun f => is_uint32 (af_Ledger f)) fills).

(** What is before a fill in the sorted order and counts. *)
Lemma cascade_priors a f b : isort fill_leb fills = a ++ f :: b ->
  f ∈ fills /\ ledgers_down (rev a)
  /\ forall p, p ∈ priors_of f (rev a) <-> p ∈ fills /\ fill_before p f /\ prior_fill f p.
Proof.
  intros E. pose proof (isort_sorted fill_leb fill_leb_total fill_leb_trans fills) as HS.
  destruct (sorted_split _ a b f HS E) as (Ha & Hb & HD).
  assert (HM : forall p, p ∈ fills <-> p ∈ a \/ p = f \/ p ∈ b)
    by (intros p; rewrite <- (elem_of_isort fill_leb), E, elem_of_app, elem_of_cons; tauto).
  assert (HR : forall p, p ∈ rev a <-> p ∈ a) by (intros p; rewrite !list_elem_of_In; symmetry; apply in_rev).
  rewrite Forall_forall in HU. unfold is_uint32, MaxUint32 in HU. assert (Hf : f ∈ fills) by (apply HM; auto).
  split; [done|]. split; [done|]. intros p. rewrite priors_of_elem, HR; [|specialize (HU f Hf); lia|done|].
  - split.
    + intros [Hp HP]. split; [apply HM; auto|]. split; [|done]. apply Ha, fill_leb_spec in Hp. destruct HP as (_ & _ & Hne).
      unfold fill_before. destruct Hp as [?|[? [?|[? _]]]]; [auto..|by destruct Hne].
    + intros (Hp & Hlt & HP). split; [|done]. apply HM in Hp as [?|[->|Hp]]; [done|exfalso..].
      * destruct Hlt as [?|[_ Hs]]; [lia|]. by rewrite str_ltb_irrefl in Hs.
      * apply Hb, fill_leb_spec in Hp. destruct HP as (_ & _ & Hne). destruct Hlt as [?|[? Hs]]; [lia|].
        destruct Hp as [?|[_ [Hs'|[? _]]]]; [lia|by rewrite (str_ltb_asym _ _ Hs) in Hs'|by destruct Hne].
  - intros q Hq%HR. pose proof (HU q ltac:(apply HM; auto)). apply Ha, fill_leb_spec in Hq. lia.
Qed.

Lemma correlatedOracles_nil f low : correlatedOracles g f low oracles = [] <-> forall o, o ∈ oracles -> correlated g f low o = false.
Proof.
  unfold correlatedOracles. split.
  - intros E o Ho. apply map_eq_nil in E. destruct (correlated g f low o) eqn:EC; [|done].
    assert (Hin : o ∈ List.filter (correlated g f low) oracles) by (by apply elem_of_List_filter). rewrite E in Hin. by apply elem_of_nil in Hin.
  - intros HN. replace (List.filter (correlated g f low) oracles) with ([] : list OracleRef); [done|]. symmetry.
    destruct (List.filter (correlated g f low) oracles) as [|o l] eqn:E; [done|].
    assert (Hin : o ∈ List.filter (correlated g f low) oracles) by (rewrite E; by left).
    apply elem_of_List_filter in Hin as [HC Ho]. by rewrite HN in HC.
Qed.

(** The update prices an asset of the position, no later than the fill and at
    most a window before the ledger [low]. *)
Definition update_in_bracket (f : AuctionFill) (low : Z) (o : OracleRef) : Prop :=
  0 < or_Ledger o /\ low <= or_Ledger o + cascadeWindowLedgers <= MaxUint32 /\ or_Ledger o <= af_Ledger f
  /\ oracleRefIsMapped o = true /\ normAsset g (or_Asset o) ∈ positionAssetSet g (af_Assets f).

Lemma correlated_bracket f low o : update_in_bracket f low o -> correlated g f low o = true.
Proof.
  unfold update_in_bracket, correlated, cascadeWindowLedgers, MaxUint32. intros (H1 & H2 & H3 & -> & H5).
  rewrite bool_decide_true by done. rewrite Z.mod_small by lia.
  rewrite (proj2 (Z.eqb_neq _ _)), (proj2 (Z.ltb_ge _ _)), (proj2 (Z.ltb_ge _ _)) by lia. done.
Qed.

Lemma cascade_found f p o : f ∈ fills -> p ∈ fills -> fill_before p f -> prior_fill f p -> o ∈ oracles ->
  update_in_bracket f (af_Ledger p) o ->
  exists c, c ∈ DetectLiquidationCascades g fills oracles /\ cTxHash c = af_TxHash f /\ cTaker c = af_Filler f.
Proof.
  intros Hf Hp Hlt HP Ho HB. rewrite <- (elem_of_isort fill_leb) in Hf. apply list_elem_of_split in Hf as (a & b & E).
  destruct (cascade_priors a f b E) as (_ & HD & HM). assert (Hin : p ∈ priors_of f (rev a)) by (by apply HM).
  assert (HDp : ledgers_down (priors_of f (rev a))) by (eapply ledgers_down_sublist; [apply priors_of_sublist|done]).
  destruct (last (priors_of f (rev a))) as [low|] eqn:EL; [|apply last_None in EL; rewrite EL in Hin; by apply elem_of_nil in Hin].
  destruct (last_down _ low HDp EL) as [_ Hlow]. specialize (Hlow p Hin).
  assert (HC : correlated g f (af_Ledger low) o = true) by (apply correlated_bracket; unfold update_in_bracket in *; intuition lia).
  exists (assembleCascadeCandidate f (priors_of f (rev a)) (correlatedOracles g f (af_Ledger low) oracles)).
  split; [|done]. apply DetectLiquidationCascades_elem. exists a, f, b. split; [done|]. unfold buildCascadeCandidate. rewrite EL.
  destruct (correlatedOracles g f (af_Ledger low) oracles) eqn:EC; [|done]. rewrite correlatedOracles_nil in EC. by rewrite EC in HC.
Qed.

Lemma cascade_evidence c : c ∈ DetectLiquidationCascades g fills oracles ->
  exists f priors low,
    f ∈ fills /\ c = assembleCascadeCandidate f priors (correlatedOracles g f (af_Ledger low) oracles)
    /\ correlatedOracles g f (af_Ledger low) oracles <> []
    /\ (forall p, p ∈ priors <-> p ∈ fills /\ fill_before p f /\ prior_fill f p)
    /\ low ∈ priors /\ (forall p, p ∈ priors -> af_Ledger low <= af_Ledger p).
Proof.
  intros (a & f & b & E & EB)%DetectLiquidationCascades_elem. destruct (cascade_priors a f b E) as (Hf & HD & HM).
  unfold buildCascadeCandidate in EB. destruct (last (priors_of f (rev a))) as [low|] eqn:EL; [|done].
  destruct (correlatedOracles g f (af_Ledger low) oracles) as [|u us] eqn:EC; [done|]. injection EB as <-.
  exists f, (priors_of f (rev a)), low. rewrite EC. split; [done|]. split; [done|]. split; [done|]. split; [done|].
  apply last_down; [|done]. eapply ledgers_down_sublist; [apply priors_of_sublist|done].
Qed.

Lemma cascade_accounts f priors updates a :
  a ∈ default [] (Accounts (assembleCascadeCandidate f priors updates)) -> a <> "" /\ exists p, p ∈ f :: priors /\ a = af_Filler p.
Proof.
  unfold assembleCascadeCandidate. cbn [Accounts]. unfold default, from_option, id. rewrite first_seen_elem, elem_of_List_filter, negb_true_iff, String.eqb_neq.
  intros [Hne Ha]. split; [done|]. apply list_elem_of_fmap in Ha as (p & -> & Hp). exists p. split; [|done].
  apply elem_of_cons in Hp as [->|Hp]; [by left|right]. eapply elem_of_sublist; [exact Hp|]. apply sublist_take.
Qed.
End Exact.

(** Which liquidations are published as a cascade. A candidate's fill
    is preceded within twelve ledgers by the prior fills it lists - exactly
    the fills of other positions and other transactions sorted before it -
    and by an oracle update for one of its own assets, and the accounts it
    names are fillers, never the owner of a liquidated position as such; and
    every fill with such a predecessor and update is published. *)
Theorem DetectLiquidationCascades_exact `{Strkey} g fills oracles : Forall (fun f => is_uint32 (af_Ledger f)) fills ->
  (forall c, c ∈ DetectLiquidationCascades g fills oracles ->
     exists f priors low,
       f ∈ fills /\ low ∈ priors /\ (forall p, p ∈ priors <-> p ∈ fills /\ fill_before p f /\ prior_fill f p)
       /\ (forall p, p ∈ priors -> af_Ledger low <= af_Ledger p)
       /\ cTxHash c = af_TxHash f
       /\ Detail c = CascadeDetail 12 (fillRef f) (map fillRef (take 10 priors)) (take 10 (correlatedOracles g f (af_Ledger low) oracles))
       /\ (exists o, o ∈ oracles /\ correlated g f (af_Ledger low) o = true)
       /\ (forall a, a ∈ default [] (Accounts c) -> a <> "" /\ exists p, p ∈ f :: priors /\ a = af_Filler p))
  /\ (forall f p o, f ∈ fills -> p ∈ fills -> fill_before p f -> prior_fill f p -> o ∈ oracles ->
        update_in_bracket g f (af_Ledger p) o ->
        exists c, c ∈ DetectLiquidationCascades g fills oracles /\ cTxHash c = af_TxHash f /\ cTaker c = af_Filler f).
Proof.
  intros HU. split; [|by intros; eapply cascade_found].
  intros c Hc. destruct (cascade_evidence g oracles fills HU c Hc) as (f & priors & low & Hf & -> & HC & HP & Hl & Hmin).
  exists f, priors, low. do 6 (split; [done|]). split; [|intros a; apply cascade_accounts].
  destruct (existsb (correlated g f (af_Ledger low)) oracles) eqn:EX.
  - apply existsb_exists in EX as (o & Ho & HO). exists o. by rewrite list_elem_of_In.
  - destruct HC. apply correlatedOracles_nil. intros o Ho. destruct (correlated g f (af_Ledger low) o) eqn:EO; [|done].
    rewrite <- EX. symmetry. apply existsb_exists. exists o. by rewrite <- list_elem_of_In.
Qed.

(** ** An example *)

Definition cascade_ex : list AuctionFill :=
  [mkAuctionFill "P" "U2" "F2" 0 110 "bb" 0 5 ["native"]; mkAuctionFill "P" "U1" "F1" 0 100 "aa" 0 4 ["native"]].
Definition cascade_oracles_ex : list OracleRef := [mkOracleRef "reflector" "C" 105 "cc" 0 "native" "" 4].

Lemma DetectLiquidationCascades_exact_witness :
  exists c, c ∈ @DetectLiquidationCascades plain_strkey init_globals cascade_ex cascade_oracles_ex /\ cTxHash c = "bb".
Proof.
  destruct (@DetectLiquidationCascades_exact plain_strkey init_globals cascade_ex cascade_oracles_ex) as [_ H].
  { repeat (apply Forall_cons; split; [vm_compute; split; congruence|]). by apply Forall_nil. }
  destruct (H (mkAuctionFill "P" "U2" "F2" 0 110 "bb" 0 5 ["native"]) (mkAuctionFill "P" "U1" "F1" 0 100 "aa" 0 4 ["native"])
              (mkOracleRef "reflector" "C" 105 "cc" 0 "native" "" 4)) as (c & Hc & E & _).
  - by left.
  - right. by left.
  - left. vm_compute. reflexivity.
  - split; [vm_compute; congruence|]. split; [right|]; vm_compute; congruence.
  - by left.
  - split; [vm_compute; reflexivity|]. split; [vm_compute; split; congruence|]. split; [vm_compute; congruence|].
    split; [vm_compute; reflexivity|]. apply (bool_decide_unpack _). vm_compute. exact I.
  - exists c. split; [exact Hc|exact E].
Defined.
