(* ===== verification/Encoding.v ===== *)
(** * Text encodings (what the decoders use of encoding/hex, encoding/base64,
    unicode/utf8, time and strings)

    Bytes are the characters of a [string]. The codecs come with the laws the
    decoders rely on: what is encoded is decoded back, and hexadecimal and
    base64 text is plain ASCII. *)

From S2P Require Import Prelude GoLib.

Definition byte_char (b : Z) : ascii := ascii_of_N (Z.to_N b).

Lemma byte_of_char b : 0 <= b < 256 -> byte_of (byte_char b) = b.
Proof. intros Hb. unfold byte_of, byte_char. rewrite N_ascii_embedding by lia. lia. Qed.

Lemma byte_char_of c : byte_char (byte_of c) = c.
Proof. unfold byte_of, byte_char. by rewrite N2Z.id, ascii_N_embedding. Qed.

(** [strings.Contains]. *)
Fixpoint str_Contains (s sub : string) : bool :=
  HasPrefix s sub || match s with EmptyString => false | String _ s => str_Contains s sub end.

Lemma str_Contains_byte c s : str_Contains s (String c EmptyString) = negb (str_forallb (fun x => negb (Ascii.eqb c x)) s).
Proof.
  induction s as [|x s IH]; [done|]. cbn [str_Contains str_forallb]. rewrite IH. unfold HasPrefix. cbn [CutPrefix].
  destruct (Ascii.eqb c x); [done|]. by destruct (str_forallb _ s).
Qed.

(** A check of every number below a bound, by computation. *)
Lemma below_forallb (f : nat -> bool) n : forallb f (seq 0 n) = true -> forall k, (k < n)%nat -> f k = true.
Proof. intros HF k Hk. rewrite forallb_forall in HF. apply HF, in_seq. lia. Qed.

Lemma byte_cases (P : Z -> bool) : forallb (fun n => P (Z.of_nat n)) (seq 0 256) = true -> forall c, P (byte_of c) = true.
Proof.
  intros HF c. pose proof (byte_of_range c). rewrite <- (Z2Nat.id (byte_of c)) by lia.
  apply (below_forallb (fun n => P (Z.of_nat n)) 256 HF). lia.
Qed.

(** ** Hexadecimal *)

Fixpoint hex_EncodeToString (s : string) : string :=
  match s with
  | EmptyString => EmptyString
  | String c s => String (digit_char (byte_of c / 16)) (String (digit_char (byte_of c mod 16)) (hex_EncodeToString s))
  end.

Definition hex_digit (c : ascii) : option Z :=
  match digit_val c with
  | Some d => if d <? 16 then Some d else None
  | None => None
  end.

(** Odd length and other characters are errors. *)
Fixpoint hex_DecodeString (s : string) : option string :=
  match s with
  | EmptyString => Some EmptyString
  | String _ EmptyString => None
  | String a (String b s) =>
      match hex_digit a, hex_digit b, hex_DecodeString s with
      | Some x, Some y, Some r => Some (String (byte_char (x * 16 + y)) r)
      | _, _, _ => None
      end
  end.

Lemma hex_digit_char d : 0 <= d < 16 -> hex_digit (digit_char d) = Some d /\ byte_of (digit_char d) < 128 /\ 0 < byte_of (digit_char d).
Proof.
  intros Hd. assert (HB : forallb (fun n => bool_decide (hex_digit (digit_char (Z.of_nat n)) = Some (Z.of_nat n))
    && (byte_of (digit_char (Z.of_nat n)) <? 128) && (0 <? byte_of (digit_char (Z.of_nat n)))) (seq 0 16) = true) by (vm_compute; done).
  pose proof (below_forallb _ 16 HB (Z.to_nat d) ltac:(lia)) as HX. cbv beta in HX. rewrite Z2Nat.id in HX by lia.
  apply andb_prop in HX as [HX H3%Z.ltb_lt]. apply andb_prop in HX as [H1%bool_decide_eq_true H2%Z.ltb_lt]. done.
Qed.

Lemma nibbles c : 0 <= byte_of c / 16 < 16 /\ 0 <= byte_of c mod 16 < 16.
Proof. pose proof (byte_of_range c). split; [split; [apply Z.div_pos; lia|apply Z.div_lt_upper_bound; lia]|apply Z.mod_pos_bound; lia]. Qed.

Lemma hex_roundtrip s : hex_DecodeString (hex_EncodeToString s) = Some s.
Proof.
  induction s as [|c s IH]; [done|]. cbn [hex_EncodeToString hex_DecodeString]. destruct (nibbles c) as [H1 H2].
  destruct (hex_digit_char _ H1) as [-> _], (hex_digit_char _ H2) as [-> _]. rewrite IH. do 2 f_equal.
  rewrite <- (byte_char_of c) at 3. f_equal. pose proof (Z.div_mod (byte_of c) 16). lia.
Qed.

Definition is_ascii_text (c : ascii) : bool := (0 <? byte_of c) && (byte_of c <? 128).

Lemma hex_ascii s : str_forallb is_ascii_text (hex_EncodeToString s) = true.
Proof.
  induction s as [|c s IH]; [done|]. cbn [hex_EncodeToString str_forallb]. rewrite IH. destruct (nibbles c) as [H1 H2]. unfold is_ascii_text.
  destruct (hex_digit_char _ H1) as (_ & A1 & B1), (hex_digit_char _ H2) as (_ & A2 & B2).
  by rewrite !(proj2 (Z.ltb_lt _ _)) by lia.
Qed.

(** ** UTF-8 *)

Definition between (lo hi : Z) (c : ascii) : bool := (lo <=? byte_of c) && (byte_of c <=? hi).
Definition cont (c : ascii) : bool := between 128 191 c.

(** [utf8.ValidString]: the well-formed sequences of the Unicode standard. *)
Fixpoint utf8_ValidString (s : string) : bool :=
  match s with
  | EmptyString => true
  | String a s =>
      if byte_of a <? 128 then utf8_ValidString s
      else match s with
           | EmptyString => false
           | String b s =>
               if between 194 223 a then cont b && utf8_ValidString s
               else match s with
                    | EmptyString => false
                    | String c s =>
                        if between 224 239 a then
                          between (if byte_of a =? 224 then 160 else 128) (if byte_of a =? 237 then 159 else 191) b
                          && cont c && utf8_ValidString s
                        else match s with
                             | EmptyString => false
                             | String d s =>
                                 between 240 244 a
                                 && between (if byte_of a =? 240 then 144 else 128) (if byte_of a =? 244 then 143 else 191) b
                                 && cont c && cont d && utf8_ValidString s
                             end
                    end
           end
  end.

Lemma ascii_valid s : str_forallb is_ascii_text s = true -> utf8_ValidString s = true /\ str_Contains s (String "000"%char EmptyString) = false.
Proof.
  intros HA. split.
  - induction s as [|c s IH]; [done|]. cbn in HA. apply andb_prop in HA as [Hc HA]. cbn [utf8_ValidString].
    unfold is_ascii_text in Hc. apply andb_prop in Hc as [_ ->]. by apply IH.
  - rewrite str_Contains_byte. apply negb_false_iff. induction s as [|c s IH]; [done|]. cbn in HA. cbn [str_forallb].
    apply andb_prop in HA as [Hc HA]. rewrite IH by done. rewrite andb_true_r. apply negb_true_iff, Ascii.eqb_neq. intros <-.
    vm_compute in Hc. done.
Qed.

(** ** Base64 (StdEncoding) *)

Definition base64_char (n : Z) : ascii :=
  byte_char (if n <? 26 then 65 + n else if n <? 52 then 71 + n else if n <? 62 then n - 4 else if n =? 62 then 43 else 47).

Definition base64_val (c : ascii) : option Z :=
  let b := byte_of c in
  if (65 <=? b) && (b <=? 90) then Some (b - 65)
  else if (97 <=? b) && (b <=? 122) then Some (b - 71)
  else if (48 <=? b) && (b <=? 57) then Some (b + 4)
  else if b =? 43 then Some 62 else if b =? 47 then Some 63 else None.

Definition pad : ascii := "="%char.

Fixpoint base64_EncodeToString (s : string) : string :=
  match s with
  | EmptyString => EmptyString
  | String a EmptyString =>
      String (base64_char (byte_of a / 4)) (String (base64_char (byte_of a mod 4 * 16)) (String pad (String pad EmptyString)))
  | String a (String b EmptyString) =>
      String (base64_char (byte_of a / 4)) (String (base64_char (byte_of a mod 4 * 16 + byte_of b / 16))
        (String (base64_char (byte_of b mod 16 * 4)) (String pad EmptyString)))
  | String a (String b (String c s)) =>
      String (base64_char (byte_of a / 4)) (String (base64_char (byte_of a mod 4 * 16 + byte_of b / 16))
        (String (base64_char (byte_of b mod 16 * 4 + byte_of c / 64)) (String (base64_char (byte_of c mod 64)) (base64_EncodeToString s))))
  end.

(** Four digits at a time; padding ends the text. *)
Fixpoint base64_quanta (s : string) : option string :=
  match s with
  | EmptyString => Some EmptyString
  | String a (String b (String c (String d s))) =>
      match base64_val a, base64_val b with
      | Some x, Some y =>
          if Ascii.eqb c pad then
            if Ascii.eqb d pad then match s with EmptyString => Some (String (byte_char (x * 4 + y / 16)) EmptyString) | _ => None end
            else None
          else match base64_val c with
               | None => None
               | Some z =>
                   if Ascii.eqb d pad then
                     match s with
                     | EmptyString => Some (String (byte_char (x * 4 + y / 16)) (String (byte_char (y mod 16 * 16 + z / 4)) EmptyString))
                     | _ => None
                     end
                   else match base64_val d, base64_quanta s with
                        | Some w, Some r =>
                            Some (String (byte_char (x * 4 + y / 16)) (String (byte_char (y mod 16 * 16 + z / 4))
                                   (String (byte_char (z mod 4 * 64 + w)) r)))
                        | _, _ => None
                        end
               end
      | _, _ => None
      end
  | _ => None
  end.

(** Line ends are skipped wherever they stand. *)
Definition is_newline (c : ascii) : bool := (byte_of c =? 10) || (byte_of c =? 13).

Fixpoint str_filter (f : ascii -> bool) (s : string) : string :=
  match s with
  | EmptyString => EmptyString
  | String c s => if f c then String c (str_filter f s) else str_filter f s
  end.

Definition base64_DecodeString (s : string) : option string := base64_quanta (str_filter (fun c => negb (is_newline c)) s).

Lemma base64_char_val n : 0 <= n < 64 -> base64_val (base64_char n) = Some n /\ Ascii.eqb (base64_char n) pad = false /\ is_newline (base64_char n) = false.
Proof.
  intros Hn. assert (HB : forallb (fun k => bool_decide (base64_val (base64_char (Z.of_nat k)) = Some (Z.of_nat k))
    && negb (Ascii.eqb (base64_char (Z.of_nat k)) pad) && negb (is_newline (base64_char (Z.of_nat k)))) (seq 0 64) = true) by (vm_compute; done).
  pose proof (below_forallb _ 64 HB (Z.to_nat n) ltac:(lia)) as HX. cbv beta in HX. rewrite Z2Nat.id in HX by lia.
  apply andb_prop in HX as [HX H3%negb_true_iff]. apply andb_prop in HX as [H1%bool_decide_eq_true H2%negb_true_iff]. done.
Qed.

Ltac b64 :=
  repeat match goal with
  | |- context [base64_val (base64_char ?n)] => rewrite (proj1 (base64_char_val n ltac:(Z.to_euclidean_division_equations; lia)))
  | |- context [Ascii.eqb (base64_char ?n) pad] => rewrite (proj1 (proj2 (base64_char_val n ltac:(Z.to_euclidean_division_equations; lia))))
  | |- context [is_newline (base64_char ?n)] => rewrite (proj2 (proj2 (base64_char_val n ltac:(Z.to_euclidean_division_equations; lia))))
  end.

(** The byte put together from two parts is the one that was taken apart. *)
Lemma byte_char_eq c b : b = byte_of c -> byte_char b = c.
Proof. intros ->. apply byte_char_of. Qed.

Lemma str3_ind (P : string -> Prop) : P EmptyString -> (forall a, P (String a EmptyString)) -> (forall a b, P (String a (String b EmptyString))) ->
  (forall a b c s, P s -> P (String a (String b (String c s)))) -> forall s, P s.
Proof.
  intros H0 H1 H2 H3. fix IH 1. intros [|a [|b [|c s]]]; [done|done|done|]. apply H3, IH.
Qed.

Lemma base64_roundtrip s : base64_DecodeString (base64_EncodeToString s) = Some s.
Proof.
  unfold base64_DecodeString. induction s as [|a|a b|a b c s IH] using str3_ind; [done|..];
    pose proof (byte_of_range a); try pose proof (byte_of_range b); try pose proof (byte_of_range c);
    cbn [base64_EncodeToString str_filter]; b64; cbn [negb].
  - change (is_newline pad) with false. cbn [negb base64_quanta]. b64. change (Ascii.eqb pad pad) with true. cbn iota.
    do 2 f_equal. apply byte_char_eq. Z.to_euclidean_division_equations; lia.
  - change (is_newline pad) with false. cbn [negb base64_quanta]. b64. change (Ascii.eqb pad pad) with true. cbn iota.
    do 2 f_equal; [|f_equal]; apply byte_char_eq; Z.to_euclidean_division_equations; lia.
  - cbn [base64_quanta]. b64. rewrite IH. do 2 f_equal; [|f_equal; [|f_equal]]; apply byte_char_eq; Z.to_euclidean_division_equations; lia.
Qed.

Lemma base64_inj s t : base64_EncodeToString s = base64_EncodeToString t -> s = t.
Proof. intros E. pose proof (base64_roundtrip s) as Hs. rewrite E, base64_roundtrip in Hs. by injection Hs. Qed.

(** ** Times (time.Parse with time.RFC3339) *)

Definition dig (c : ascii) : Z := byte_of c - 48.

(** A number of one or two digits; [fixed] asks for two. *)
Definition getnum (s : string) (fixed : bool) : option (Z * string) :=
  match s with
  | EmptyString => None
  | String a r =>
      if negb (is_dec_digit a) then None
      else match r with
           | String b r' => if is_dec_digit b then Some (dig a * 10 + dig b, r') else if fixed then None else Some (dig a, r)
           | EmptyString => if fixed then None else Some (dig a, r)
           end
  end.

Definition skip (c : ascii) (s : string) : option string :=
  match s with
  | String x s => if Ascii.eqb x c then Some s else None
  | EmptyString => None
  end.

Definition getyear (s : string) : option (Z * string) :=
  match s with
  | String a (String b (String c (String d s))) =>
      if is_dec_digit a && is_dec_digit b && is_dec_digit c && is_dec_digit d
      then Some (((dig a * 10 + dig b) * 10 + dig c) * 10 + dig d, s) else None
  | _ => None
  end.

(** The run of digits at the front: value, length, rest. *)
Fixpoint digit_run (s : string) (acc : Z) (n : nat) : Z * nat * string :=
  match s with
  | String c r => if is_dec_digit c then digit_run r (acc * 10 + dig c) (S n) else (acc, n, s)
  | EmptyString => (acc, n, s)
  end.

(** A fraction after a point or comma, nine digits of it at most. *)
Definition getfrac (s : string) : Z * string :=
  match s with
  | String p (String c _ as r) =>
      if (Ascii.eqb p "." || Ascii.eqb p ",") && is_dec_digit c then
        let '(_, n, rest) := digit_run r 0 0 in
        let n := Nat.min n 9 in
        let '(v, _, _) := digit_run (str_take n r) 0 0 in
        (v * 10 ^ (9 - Z.of_nat n), rest)
      else (0, s)
  | _ => (0, s)
  end.

(** Seconds east of UTC; an offset of 24:60 is let through. *)
Definition getzone (s : string) : option (Z * string) :=
  match s with
  | String "Z" s => Some (0, s)
  | String sg s =>
      match getnum (str_take 2 s) true, skip ":" (str_drop 2 s) with
      | Some (hr, _), Some s' =>
          match getnum (str_take 2 s') true with
          | Some (mm, _) =>
              if (24 <? hr) || (60 <? mm) then None
              else if Ascii.eqb sg "+" then Some ((hr * 60 + mm) * 60, str_drop 2 s')
              else if Ascii.eqb sg "-" then Some (- ((hr * 60 + mm) * 60), str_drop 2 s')
              else None
          | None => None
          end
      | _, _ => None
      end
  | EmptyString => None
  end.

Definition isLeap (y : Z) : bool := (y mod 4 =? 0) && (negb (y mod 100 =? 0) || (y mod 400 =? 0)).
Definition daysIn (m y : Z) : Z :=
  if (m =? 2) && isLeap y then 29 else nth (Z.to_nat m) [0; 31; 28; 31; 30; 31; 30; 31; 31; 30; 31; 30; 31] 0.

(** Days since 1970-01-01. *)
Definition civil_days (y m d : Z) : Z :=
  365 * y + (y + 3) / 4 - (y + 99) / 100 + (y + 399) / 400
  + zsum (map (fun k => daysIn (Z.of_nat k) y) (seq 1 (Z.to_nat m - 1))) + (d - 1) - 719528.

Definition time_ParseRFC3339 (s : string) : option Time :=
  '(y, s) ← getyear s; s ← skip "-" s;
  '(mo, s) ← getnum s true; if (mo <=? 0) || (12 <? mo) then None else
  s ← skip "-" s; '(d, s) ← getnum s true; s ← skip "T" s;
  '(h, s) ← getnum s false; if 24 <=? h then None else
  s ← skip ":" s; '(mi, s) ← getnum s true; if 60 <=? mi then None else
  s ← skip ":" s; '(se, s) ← getnum s true; if 60 <=? se then None else
  let '(ns, s) := getfrac s in
  '(off, s) ← getzone s;
  match s with
  | EmptyString =>
      if (d <? 1) || (daysIn mo y <? d) then None
      else Some (unix_time (civil_days y mo d * 86400 + h * 3600 + mi * 60 + se - off) + ns)
  | _ => None
  end.

Example time_Parse_ex :
  map time_ParseRFC3339 ["2026-05-12T14:30:00Z"; "1970-01-01T00:00:00Z"; "2024-02-29T23:59:59.5+01:00"; "2023-02-29T00:00:00Z"; "0001-01-01T00:00:00Z"; ""]
  = [Some (unix_time 1778596200); Some 0; Some (unix_time 1709247599 + 500000000); None; Some zero_time; None].
Proof. vm_compute. reflexivity. Qed.

(** [strings.Join]. *)
Fixpoint strings_Join (l : list string) (sep : string) : string :=
  match l with
  | [] => EmptyString
  | [s] => s
  | s :: l => s +:+ sep +:+ strings_Join l sep
  end.

(** The eight bytes of a uint64, most significant first. *)
Definition be_uint64 (n : Z) : string :=
  foldr (fun k acc => String (byte_char (n / 2 ^ (8 * Z.of_nat (7 - k)) mod 256)) acc) EmptyString (seq 0 8).
