(* ===== verification/Projector.v ===== *)
(** * The projector (internal/projector: projector.go, sinkfault.go;
    internal/storage/timescale: cursors.go, errors.go,
    projection_dirty_window.go)

    Each source reads the landed events of the next ledgers, decodes them,
    writes the outputs to a sink and moves its cursor. The cursor is the only
    record of what was done: what lies at or below it is never read again, so
    the theorems are about what a committed cursor may leave behind.

    One cycle is the function [cycleOneSource]; what it meets is its
    environment [cycle_env]: the answers of the store, the rows of the stream,
    an operator's rewind that lands before the commit, whether the deadline
    has passed. The sink is a function of its own state, the decoder is that
    of the completeness checks. Metrics and log lines are left out. *)

From S2P Require Import Prelude GoLib Encoding Amount Completeness.

Definition BatchLimit : Z := 1000.
Definition MinBatchLimit : Z := 25.
Definition PerSourceTimeout : Duration := 60 * Second.
Definition MaxCycleBudgetMultiple : Z := 8.
Definition QuarantineAfterCycles : Z := 20.
Definition QuarantineAfterCyclesNoProgress : Z := 720.
Definition PermanentSkipPerCycle : nat := 1.

(** ** Faults of the sink *)

(** An error with what [errors.Is] and [errors.As] find in its chain, and its
    text. *)
Inductive errlink :=
| Canonical (s : sentinel)
| ErrMalformedRow | ErrSinkPanic | ErrBadConn | NetError | Canceled | DeadlineExceeded
| PgError (code : string).

#[export] Instance errlink_eq_dec : EqDecision errlink.
Proof. solve_decision. Defined.

Record goerr := mkErr { err_chain : list errlink; err_text : string }.

Definition err_Is (e : goerr) (l : errlink) : bool := bool_decide (l ∈ err_chain e).

(** [errors.As] into [*pgconn.PgError]. *)
Definition as_PgError (e : goerr) : option string :=
  head (omap (fun l => match l with PgError code => Some code | _ => None end) (err_chain e)).

Definition sqlStateClass (code : string) : string :=
  if (String.length code <? 2)%nat then "" else str_take 2 code.

Definition IsInfraError (e : goerr) : bool :=
  if err_Is e Canceled || err_Is e DeadlineExceeded then false
  else if err_Is e ErrBadConn then true
  else if err_Is e NetError then true
  else match as_PgError e with
       | Some code =>
           String.eqb (sqlStateClass code) "08"
           || bool_decide (code ∈ ["57P01"; "57P02"; "57P03"; "53300"; "53400"])
       | None =>
           existsb (str_Contains (err_text e))
             ["connection refused"; "connection reset"; "broken pipe"; "no such host"; "i/o timeout";
              "server closed the connection"; "the database system is"]
       end.

Definition IsPermanentDataError (e : goerr) : bool :=
  if err_Is e Canceled || err_Is e DeadlineExceeded then false
  else if err_Is e ErrMalformedRow then true
  else match as_PgError e with
       | Some code => String.eqb (sqlStateClass code) "22" || String.eqb (sqlStateClass code) "23"
       | None => false
       end.

Inductive sinkDisposition := dispositionSkip | dispositionRetry | dispositionUnclassified.

#[export] Instance sinkDisposition_eq_dec : EqDecision sinkDisposition.
Proof. solve_decision. Defined.

Definition valueShapeSentinels : list sentinel :=
  [ErrInvalidOracle; ErrInvalidTrade; ErrInvalidAsset; ErrInvalidStrkey; ErrInvalidAmount; ErrI128Overflow].

Definition isValueShapeError (e : goerr) : bool := existsb (fun s => err_Is e (Canonical s)) valueShapeSentinels.
Definition isI128Overflow (e : goerr) : bool := err_Is e (Canonical ErrI128Overflow).

Definition classifySinkFault (e : goerr) : sinkDisposition :=
  if IsPermanentDataError e then dispositionSkip
  else if isValueShapeError e then dispositionSkip
  else if err_Is e ErrSinkPanic then dispositionSkip
  else if IsInfraError e || err_Is e Canceled || err_Is e DeadlineExceeded then dispositionRetry
  else dispositionUnclassified.

(** ** Retry budgets *)

(** Ledger, transaction, operation, event. *)
Abbreviation rowIdentity := (Z * string * Z * Z)%type.

Abbreviation poisonTracker := (gmap rowIdentity Z).

Definition tr_fail (t : poisonTracker) (id : rowIdentity) : poisonTracker * Z :=
  let n := default 0 (t !! id) + 1 in (<[id := n]> t, n).
Definition forget (t : poisonTracker) (id : rowIdentity) : poisonTracker := delete id t.
Definition retain (t : poisonTracker) (seen : gset rowIdentity) : poisonTracker :=
  filter (fun kv => kv.1 ∈ seen) t.

Record heldRow := mkHeld { h_id : rowIdentity; holdLedger : Z; disposition : sinkDisposition; fails : Z }.

Definition id_ledger (id : rowIdentity) : Z := let '(l, _, _, _) := id in l.
Definition heldAt (r : heldRow) : Z := if negb (holdLedger r =? 0) then holdLedger r else id_ledger (h_id r).

(** The index of the first row of least ledger that may be given up. *)
Fixpoint shed_scan (rows : list heldRow) (i : nat) (want : sinkDisposition) (budget : Z) (best : option (nat * Z)) : option (nat * Z) :=
  match rows with
  | [] => best
  | r :: rows =>
      let best :=
        if negb (bool_decide (disposition r = want)) || (fails r <? budget) then best
        else match best with
             | None => Some (i, heldAt r)
             | Some (_, l) => if heldAt r <? l then Some (i, heldAt r) else best
             end in
      shed_scan rows (S i) want budget best
  end.
Definition shedCandidate (rows : list heldRow) (want : sinkDisposition) (budget : Z) : option nat :=
  fst <$> shed_scan rows 0 want budget None.

Definition quarantineCandidate (held : list heldRow) (madeProgress : bool) : option nat :=
  shedCandidate held dispositionUnclassified (if madeProgress then QuarantineAfterCycles else QuarantineAfterCyclesNoProgress).
Definition permanentSkipCandidate (poisoned : list heldRow) (madeProgress : bool) : option nat :=
  shedCandidate poisoned dispositionSkip (if madeProgress then 1 else QuarantineAfterCyclesNoProgress).

Definition lowest_step (acc : option Z) (r : heldRow) : option Z :=
  match acc with
  | None => Some (heldAt r)
  | Some l => if heldAt r <? l then Some (heldAt r) else acc
  end.
Definition lowestHeldLedger (held : list heldRow) : option Z := foldl lowest_step None held.

(** ** The adaptive window and the cycle budget *)

Definition shrinkWindow (current : Z) (deadline : bool) : Z * bool :=
  if negb deadline || (current <=? MinBatchLimit) then (current, false)
  else (Z.max (current / 2) MinBatchLimit, true).

Definition recoverWindow (current : Z) : Z :=
  if BatchLimit <=? current then BatchLimit else Z.min (current * 2) BatchLimit.

(** The loop doubles at most [floorStalls] times while below the cap. *)
Fixpoint budget_mult (stalls : nat) (mult : Z) : Z :=
  match stalls with
  | O => mult
  | S stalls => if mult <? MaxCycleBudgetMultiple then budget_mult stalls (mult * 2) else mult
  end.
Definition budget (floorStalls : nat) : Duration := PerSourceTimeout * budget_mult floorStalls 1.

Definition saturatingAdd (a b : Z) : Z := if MaxUint32 - b <? a then MaxUint32 else a + b.

(** ** The cursor row *)

Record CursorRead := mkRead { Exists : bool; LastLedger : Z }.

(** [None] is an error; the boolean says whether the row was still what the
    cycle had read. *)
Definition AdvanceCursorFrom (row : option Z) (expected : CursorRead) (newLast : Z) : option (option Z * bool) :=
  if Exists expected then
    if newLast <=? LastLedger expected then None
    else match row with
         | Some l => if l =? LastLedger expected then Some (Some newLast, true) else Some (row, false)
         | None => Some (row, false)
         end
  else match row with
       | None => Some (Some newLast, true)
       | Some _ => Some (row, false)
       end.

Definition RewindCursor (row : option Z) (lastLedger : Z) : option (Z * Z) :=
  match row with
  | Some l => if lastLedger <? l then Some (lastLedger, l) else None
  | None => None
  end.

(** ** Replay windows *)

Record ProjectionDirtyWindow := mkWindow { w_From : Z; w_To : Z; w_Reason : string }.
Definition IsProjectorReplay (w : ProjectionDirtyWindow) : bool := HasPrefix (w_Reason w) "projector-replay rewind ".
Definition replayWindowCovers (w : ProjectionDirtyWindow) (cursor : Z) : bool :=
  if negb (IsProjectorReplay w) then false else (w_From w <=? cursor + 1) && (cursor <? w_To w).

(** ** One row *)

Section Project.
Context `{EventPayload} (d : Decoder).

(** The sink: its state, and a fault when it did not take the output. *)
Context {W : Type} (sink : W -> Output -> W * option goerr).

Definition rowIdentity_of (ev : Event) : rowIdentity :=
  (ev_Ledger ev, ev_TxHash ev, ev_OperationIndex ev, ev_EventIndex ev).

(** [DecodeRow]: not matched, failed (by an error or a panic), or outputs. *)
Inductive row_decode := Unmatched | DecodeFailed | Decoded (outs : list Output).

Definition DecodeRow (s : dec_state d) (ev : Event) : row_decode * dec_state d :=
  let '(matched, s) := safeMatches d s ev in
  match matched with
  | None => (DecodeFailed, s)
  | Some false => (Unmatched, s)
  | Some true =>
      let '(outs, s) := safeDecode d s ev in
      (match outs with None => DecodeFailed | Some outs => Decoded outs end, s)
  end.

(** The output's own ledger when it declares an earlier one. *)
Definition outputLedger (out : Output) (rowLedger : Z) : Z :=
  let l := out_EventLedger out in
  if negb (l =? 0) && (l <? rowLedger) then l else rowLedger.

Record rowSinkFaults := mkFaults { dropped : list goerr; f_held : option goerr; heldLedger : Z }.

Fixpoint sink_outs (w : W) (rowLedger : Z) (outs : list Output) (emitted : Z) (drops : list goerr) : W * Z * rowSinkFaults :=
  match outs with
  | [] => (w, emitted, mkFaults drops None 0)
  | out :: outs =>
      let '(w, err) := sink w out in
      match err with
      | None => sink_outs w rowLedger outs (emitted + 1) drops
      | Some e =>
          if bool_decide (classifySinkFault e = dispositionSkip) then sink_outs w rowLedger outs emitted (drops ++ [e])
          else (w, emitted, mkFaults drops (Some e) (outputLedger out rowLedger))
      end
  end.

Record row_result := mkRow { rr_emitted : Z; rr_decodeFail : bool; rr_faults : rowSinkFaults }.

Definition processEventSafely (s : dec_state d) (w : W) (ev : Event) : dec_state d * W * row_result :=
  let '(r, s) := DecodeRow s ev in
  match r with
  | Unmatched => (s, w, mkRow 0 false (mkFaults [] None 0))
  | DecodeFailed => (s, w, mkRow 0 true (mkFaults [] None 0))
  | Decoded outs =>
      let '(w, emitted, faults) := sink_outs w (ev_Ledger ev) outs 0 [] in (s, w, mkRow emitted false faults)
  end.

(** ** The scan of a window *)

(** A row of the stream; a landing-zone row may not be reconstructable. *)
Inductive stream_row := RowEvent (ev : Event) | RowMalformed (ledger : Z).

Record scan := mkScan {
  sc_last : option rowIdentity; sc_dec : dec_state d; sc_sink : W; sc_tracker : poisonTracker;
  sc_failed : gset rowIdentity; sc_emitted : Z; sc_decodeErrors : Z; sc_reconstructErrors : Z;
  sc_permanent : Z; sc_i128 : Z; sc_held : list heldRow; sc_poisoned : list heldRow
}.

Definition start_scan (s : dec_state d) (w : W) (t : poisonTracker) : scan := mkScan None s w t ∅ 0 0 0 0 0 [] [].

Definition count_drops (drops : list goerr) : Z := Z.of_nat (length (List.filter (fun e => negb (isI128Overflow e)) drops)).
Definition count_i128 (drops : list goerr) : Z := Z.of_nat (length (List.filter isI128Overflow drops)).

Definition process (sc : scan) (ev : Event) : scan :=
  let id := rowIdentity_of ev in
  if bool_decide (sc_last sc = Some id) then sc
  else
    let '(s, w, r) := processEventSafely (sc_dec sc) (sc_sink sc) ev in
    let emitted := sc_emitted sc + rr_emitted r in
    if rr_decodeFail r then
      mkScan (Some id) s w (sc_tracker sc) (sc_failed sc) emitted (sc_decodeErrors sc + 1) (sc_reconstructErrors sc)
        (sc_permanent sc) (sc_i128 sc) (sc_held sc) (sc_poisoned sc)
    else
      let f := rr_faults r in
      match dropped f, f_held f with
      | [], None =>
          mkScan (Some id) s w (sc_tracker sc) (sc_failed sc) emitted (sc_decodeErrors sc) (sc_reconstructErrors sc)
            (sc_permanent sc) (sc_i128 sc) (sc_held sc) (sc_poisoned sc)
      | drops, held =>
          let '(t, n) := tr_fail (sc_tracker sc) id in
          let mk := mkScan (Some id) s w t ({[id]} ∪ sc_failed sc) emitted (sc_decodeErrors sc) (sc_reconstructErrors sc)
                      (sc_permanent sc + count_drops drops) (sc_i128 sc + count_i128 drops) in
          match held with
          | Some e => mk (sc_held sc ++ [mkHeld id (heldLedger f) (classifySinkFault e) n]) (sc_poisoned sc)
          | None => mk (sc_held sc) (sc_poisoned sc ++ [mkHeld id 0 dispositionSkip n])
          end
      end.

Definition scan_row (sc : scan) (r : stream_row) : scan :=
  match r with
  | RowEvent ev => process sc ev
  | RowMalformed _ =>
      mkScan (sc_last sc) (sc_dec sc) (sc_sink sc) (sc_tracker sc) (sc_failed sc) (sc_emitted sc) (sc_decodeErrors sc)
        (sc_reconstructErrors sc + 1) (sc_permanent sc) (sc_i128 sc) (sc_held sc) (sc_poisoned sc)
  end.

(** ** Giving up on rows *)

Fixpoint shed_loop (n : nat) (progress : bool) (t : poisonTracker) (poisoned : list heldRow) (shed : list heldRow)
  : poisonTracker * list heldRow * list heldRow :=
  match n with
  | O => (t, poisoned, shed)
  | S n =>
      match permanentSkipCandidate poisoned progress with
      | None => (t, poisoned, shed)
      | Some i =>
          match poisoned !! i with
          | None => (t, poisoned, shed)
          | Some r => shed_loop n progress (forget t (h_id r)) (delete i poisoned) (shed ++ [r])
          end
      end
  end.

Definition quarantine (progress : bool) (t : poisonTracker) (held : list heldRow) : poisonTracker * list heldRow * list heldRow :=
  match quarantineCandidate held progress with
  | None => (t, held, [])
  | Some i =>
      match held !! i with
      | None => (t, held, [])
      | Some r => (forget t (h_id r), delete i held, [r])
      end
  end.

(** ** A source, and what a cycle meets *)

Record source := mkSource { src_ContractIDs : list string; src_Func : bool; src_Genesis : Z; src_Lake : bool; src_Barrier : bool }.

Record cycle_env := mkEnv {
  ce_readFails : bool;                                  (* the cursor read fails *)
  ce_tip : option (option Z);                           (* the ledgerstream cursor: error, none, a ledger *)
  ce_watermark : Z -> Z -> option Z;                    (* the lake's contiguous watermark, or an error *)
  ce_lakeMin : option Z;                                (* the lake's first ledger, or an error *)
  ce_settleFails : bool;                                (* the barrier of the landing zone fails *)
  ce_first : Z -> Z -> list string -> option (option Z);       (* the first matching ledger of a range *)
  ce_stream : Z -> Z -> list string -> list stream_row * option goerr;
  ce_gate : list string; ce_gateAfter : list string;    (* the growing gate before and after the scan *)
  ce_spent : bool;                                      (* the cycle's deadline has passed after the scan *)
  ce_rewind : option Z;                                 (* a rewind that lands during the cycle *)
  ce_commitFails : bool
}.

Record src_state := mkSt {
  st_cursor : option Z; st_window : Z; st_tracker : poisonTracker; st_stalls : nat;
  st_dec : dec_state d; st_sink : W; st_seed : option Z
}.

Definition PrefilterContractIDs (src : source) (e : cycle_env) : list string :=
  if src_Func src then ce_gate e else src_ContractIDs src.

Definition prefilterWidened (src : source) (e : cycle_env) (snapshot : list string) : list string :=
  if negb (src_Func src) || (length snapshot =? 0)%nat then []
  else List.filter (fun c => negb (bool_decide (c ∈ snapshot))) (ce_gateAfter e).

Definition resolveTip (src : source) (e : cycle_env) (from scanLimit : Z) : option Z :=
  match ce_tip e with
  | None => None
  | Some None => Some 0
  | Some (Some durableTip) =>
      if src_Lake src then
        match ce_watermark e from scanLimit with
        | None => None
        | Some wm => Some (if wm <? durableTip then wm else durableTip)
        end
      else if src_Barrier src && ce_settleFails e then None
      else Some durableTip
  end.

Definition freshSourceStart (src : source) (e : cycle_env) : option Z :=
  if negb (src_Lake src) then Some (src_Genesis src)
  else match ce_lakeMin e with
       | None => None
       | Some lakeMin => Some (Z.max (src_Genesis src) (Z.max 1 lakeMin))
       end.

(** The seed and whether it may be kept; [None] is a failed seek. *)
Definition findSeed (src : source) (e : cycle_env) : option (Z * bool) :=
  match freshSourceStart src e with
  | None => None
  | Some floor =>
      match resolveTip src e floor MaxUint32 with
      | None => None
      | Some tip =>
          if tip <? floor then Some (floor, false)
          else match ce_first e floor tip (src_ContractIDs src) with
               | None => None
               | Some None => Some (tip, true)
               | Some (Some first) => Some (first, true)
               end
      end
  end.

Definition seedFromLedger (src : source) (e : cycle_env) (seed : option Z) : Z * option Z :=
  match seed with
  | Some s => (s, seed)
  | None =>
      match findSeed src e with
      | None => (0, Some 0)
      | Some (s, settled) => (s, if settled then Some s else None)
      end
  end.

(** ** One cycle *)

Inductive cycle_outcome :=
| CursorReadFailed | TipFailed | NothingToScan | StreamFailed | GateWidened | HeldBack | CommitLost
| Committed (commitTo : Z).

Record cycle_out := mkOut { co_outcome : cycle_outcome; co_from : Z; co_to : Z; co_scan : option scan; co_shed : list heldRow; co_quarantined : list heldRow }.

Definition quiet (o : cycle_outcome) (from to : Z) : cycle_out := mkOut o from to None [] [].

Definition floor_stall (stalls : nat) (window : Z) (deadline : bool) : nat :=
  if deadline && (window <=? MinBatchLimit) then S stalls else stalls.

(** The lower of two held ledgers. *)
Definition lower_held (a b : option Z) : option Z :=
  match a, b with
  | Some x, Some y => if y <? x then Some y else Some x
  | None, b => b
  | a, None => a
  end.

(** The row of the cursor after the commit, and whether the cycle moved it. *)
Definition commitCursor (e : cycle_env) (row : option Z) (read : CursorRead) (commitTo : Z) : option Z * bool :=
  let row := match ce_rewind e with
             | Some l => match RewindCursor row l with Some (l, _) => Some l | None => row end
             | None => row
             end in
  if ce_commitFails e then (row, false)
  else match AdvanceCursorFrom row read commitTo with
       | None => (row, false)
       | Some r => r
       end.

(** After a scan that read its whole window. *)
Definition finish_cycle (src : source) (e : cycle_env) (st : src_state) (read : CursorRead) (from to : Z) (prefilter : list string) (sc : scan)
  : src_state * cycle_out :=
  let tracker := retain (sc_tracker sc) (sc_failed sc) in
  let mk window tracker stalls cursor := mkSt cursor window tracker stalls (sc_dec sc) (sc_sink sc) (st_seed st) in
  if negb (length (prefilterWidened src e prefilter) =? 0)%nat
  then (mk (st_window st) tracker (st_stalls st) (st_cursor st), mkOut GateWidened from to (Some sc) [] [])
  else
    let progress := 0 <? sc_emitted sc in
    let '(tracker, poisoned, shed) := shed_loop PermanentSkipPerCycle progress tracker (sc_poisoned sc) [] in
    let '(tracker, held, quarantined) := quarantine progress tracker (sc_held sc) in
    let window :=
      if ce_spent e && (0 <? length held)%nat then (shrinkWindow (st_window st) true).1 else st_window st in
    let out o := mkOut o from to (Some sc) shed quarantined in
    let firstHeld := lower_held (lowestHeldLedger held) (lowestHeldLedger poisoned) in
    let commit commitTo :=
      let '(row, advanced) := commitCursor e (st_cursor st) read commitTo in
      if advanced
      then (mk (if ce_spent e then window else recoverWindow window) tracker 0%nat row, out (Committed commitTo))
      else (mk window tracker (st_stalls st) row, out CommitLost) in
    match firstHeld with
    | Some l =>
        if l <=? from then (mk window tracker (floor_stall (st_stalls st) window (ce_spent e)) (st_cursor st), out HeldBack)
        else commit (l - 1)
    | None => commit to
    end.

Definition cycleOneSource (src : source) (e : cycle_env) (st : src_state) : src_state * cycle_out :=
  if ce_readFails e then (st, quiet CursorReadFailed 0 0)
  else
    let '(from, read, seed) :=
      match st_cursor st with
      | Some l => ((l + 1) mod 2 ^ 32, mkRead true l, st_seed st)
      | None => let '(from, seed) := seedFromLedger src e (st_seed st) in (from, mkRead false 0, seed)
      end in
    let st := mkSt (st_cursor st) (st_window st) (st_tracker st) (st_stalls st) (st_dec st) (st_sink st) seed in
    match resolveTip src e from (saturatingAdd from (st_window st)) with
    | None => (st, quiet TipFailed from 0)
    | Some tip =>
        if tip <? from
        then (mkSt (st_cursor st) (st_window st) (st_tracker st) 0%nat (st_dec st) (st_sink st) seed, quiet NothingToScan from tip)
        else
          let to := if st_window st <? tip - from then from + st_window st else tip in
          let prefilter := PrefilterContractIDs src e in
          let '(rows, err) := ce_stream e from to prefilter in
          let sc := foldl scan_row (start_scan (st_dec st) (st_sink st) (st_tracker st)) rows in
          match err with
          | Some err =>
              let deadline := err_Is err DeadlineExceeded in
              let window := (shrinkWindow (st_window st) deadline).1 in
              (mkSt (st_cursor st) window (sc_tracker sc) (floor_stall (st_stalls st) window deadline) (sc_dec sc) (sc_sink sc) seed,
               mkOut StreamFailed from to (Some sc) [] [])
          | None => finish_cycle src e st read from to prefilter sc
          end
    end.
End Project.

Arguments sc_last {_ d W}.
Arguments sc_dec {_ d W}.
Arguments sc_sink {_ d W}.
Arguments sc_tracker {_ d W}.
Arguments sc_failed {_ d W}.
Arguments sc_emitted {_ d W}.
Arguments sc_decodeErrors {_ d W}.
Arguments sc_reconstructErrors {_ d W}.
Arguments sc_permanent {_ d W}.
Arguments sc_i128 {_ d W}.
Arguments sc_held {_ d W}.
Arguments sc_poisoned {_ d W}.
Arguments st_cursor {_ d W}.
Arguments st_window {_ d W}.
Arguments st_tracker {_ d W}.
Arguments st_stalls {_ d W}.
Arguments st_dec {_ d W}.
Arguments st_sink {_ d W}.
Arguments st_seed {_ d W}.
Arguments co_outcome {_ d W}.
Arguments co_from {_ d W}.
Arguments co_to {_ d W}.
Arguments co_scan {_ d W}.
Arguments co_shed {_ d W}.
Arguments co_quarantined {_ d W}.

(** ** Held rows *)

Lemma lowest_fold rows acc l : foldl lowest_step acc rows = Some l ->
  (forall a, acc = Some a -> l <= a) /\ (forall r, r ∈ rows -> l <= heldAt r).
Proof.
  revert acc. induction rows as [|r rows IH]; intros acc; cbn [foldl].
  { intros ->. split; [by intros a [= ->]|]. by intros r ?%elem_of_nil. }
  intros E. destruct (IH _ E) as [H1 H2]. unfold lowest_step in H1. split.
  - intros a ->. destruct (Z.ltb_spec (heldAt r) a) as [Hl|Hl]; [specialize (H1 _ eq_refl); lia|by apply H1].
  - intros x [->|Hx]%elem_of_cons; [|auto]. destruct acc as [a|]; [|by apply H1].
    destruct (Z.ltb_spec (heldAt r) a) as [Hl|Hl]; specialize (H1 _ eq_refl); lia.
Qed.

Lemma lowest_None rows acc : foldl lowest_step acc rows = None -> acc = None /\ rows = [].
Proof.
  revert acc. induction rows as [|r rows IH]; intros acc; cbn [foldl]; [done|].
  intros E. destruct (IH _ E) as [H1 _]. unfold lowest_step in H1. destruct acc; [by destruct (_ <? _)|done].
Qed.

Lemma lowestHeldLedger_le rows l r : lowestHeldLedger rows = Some l -> r ∈ rows -> l <= heldAt r.
Proof. intros E Hr. by apply (lowest_fold rows None l E). Qed.

(** Nothing is held, or every held row is at the ledger or above. *)
Lemma lower_held_spec held poisoned r : r ∈ held \/ r ∈ poisoned ->
  exists l, lower_held (lowestHeldLedger held) (lowestHeldLedger poisoned) = Some l /\ l <= heldAt r.
Proof.
  intros Hr. destruct (lowestHeldLedger held) as [x|] eqn:Eh, (lowestHeldLedger poisoned) as [y|] eqn:Ep; unfold lower_held.
  - destruct (Z.ltb_spec y x); eexists; (split; [done|]); destruct Hr as [Hr|Hr];
      [apply (lowestHeldLedger_le _ _ _ Eh) in Hr|apply (lowestHeldLedger_le _ _ _ Ep) in Hr|
       apply (lowestHeldLedger_le _ _ _ Eh) in Hr|apply (lowestHeldLedger_le _ _ _ Ep) in Hr]; lia.
  - exists x. split; [done|]. apply lowest_None in Ep as [_ ->]. destruct Hr as [Hr|Hr]; [by eapply lowestHeldLedger_le|by apply elem_of_nil in Hr].
  - exists y. split; [done|]. apply lowest_None in Eh as [_ ->]. destruct Hr as [Hr|Hr]; [by apply elem_of_nil in Hr|by eapply lowestHeldLedger_le].
  - apply lowest_None in Eh as [_ ->]. apply lowest_None in Ep as [_ ->]. destruct Hr as [Hr|Hr]; by apply elem_of_nil in Hr.
Qed.

Lemma lowest_attained rows acc l : foldl lowest_step acc rows = Some l -> acc = Some l \/ exists r, r ∈ rows /\ heldAt r = l.
Proof.
  revert acc. induction rows as [|r rows IH]; intros acc; cbn [foldl]; [auto|].
  intros E. destruct (IH _ E) as [E'|(x & Hx & Ex)]; [|right; exists x; split; [by right|done]]. unfold lowest_step in E'.
  destruct acc as [a|]; [destruct (heldAt r <? a); [|by left]|]; injection E' as <-; right; exists r; (split; [by left|done]).
Qed.

Lemma lower_held_attained held poisoned l : lower_held (lowestHeldLedger held) (lowestHeldLedger poisoned) = Some l ->
  exists r, (r ∈ held \/ r ∈ poisoned) /\ heldAt r = l.
Proof.
  intros E. assert (HO : lowestHeldLedger held = Some l \/ lowestHeldLedger poisoned = Some l).
  { unfold lower_held in E. destruct (lowestHeldLedger held), (lowestHeldLedger poisoned); [destruct (_ <? _)|..]; auto. }
  destruct HO as [HO|HO]; apply lowest_attained in HO as [HO|(r & Hr & Er)]; try done; eauto.
Qed.

Lemma delete_elem {A} (l : list A) i x r : l !! i = Some x -> r ∈ l -> r = x \/ r ∈ delete i l.
Proof. intros E Hr. rewrite (delete_Permutation l i x E) in Hr. by apply elem_of_cons in Hr. Qed.

(** The row given up is one of the list, with its disposition and budget. *)
Lemma shed_scan_spec rows i want b best : 
  (forall k l, best = Some (k, l) -> (k < i)%nat) ->
  forall k l, shed_scan rows i want b best = Some (k, l) ->
    best = Some (k, l) \/ exists j r, k = (i + j)%nat /\ rows !! j = Some r /\ disposition r = want /\ b <= fails r /\ l = heldAt r.
Proof.
  revert i best. induction rows as [|r rows IH]; intros i best HB k l; cbn [shed_scan]; [auto|].
  intros E. apply IH in E; [|].
  - destruct E as [E|(j & r' & -> & Hj & Hd & Hf & ->)]; [|right; exists (S j), r'; split; [lia|done]].
    destruct (bool_decide (disposition r = want)) eqn:Ed; cbn [negb orb] in E; [|auto]. apply bool_decide_eq_true in Ed.
    destruct (Z.ltb_spec (fails r) b); [auto|].
    assert (HR : Some (i, heldAt r) = Some (k, l) -> exists j r', k = (i + j)%nat /\ (r :: rows) !! j = Some r' /\ disposition r' = want /\ b <= fails r' /\ l = heldAt r').
    { intros [= <- <-]. exists 0%nat, r. split; [lia|done]. }
    destruct best as [[k0 l0]|]; [destruct (heldAt r <? l0)|]; auto.
  - intros k' l' E'. destruct (negb _ || _); [apply HB in E'; lia|].
    destruct best as [[k0 l0]|]; [destruct (heldAt r <? l0)|]; injection E' as <- <-; [lia|specialize (HB _ _ eq_refl); lia|lia].
Qed.

Lemma shedCandidate_spec rows want b i : shedCandidate rows want b = Some i ->
  exists r, rows !! i = Some r /\ disposition r = want /\ b <= fails r.
Proof.
  unfold shedCandidate. destruct (shed_scan rows 0 want b None) as [[k l]|] eqn:E; [|done]. cbn. intros [= ->].
  apply shed_scan_spec in E; [|done]. destruct E as [E|(j & r & -> & Hj & Hd & Hf & _)]; [done|]. by exists r.
Qed.

(** A poisoned or held row is given up or stays. *)
Lemma shed_loop_elem n progress t poisoned shed t' poisoned' shed' r : shed_loop n progress t poisoned shed = (t', poisoned', shed') ->
  r ∈ poisoned \/ r ∈ shed -> r ∈ poisoned' \/ r ∈ shed'.
Proof.
  revert t poisoned shed. induction n as [|n IH]; intros t poisoned shed; cbn [shed_loop]; [by intros [= _ <- <-]|].
  destruct (permanentSkipCandidate poisoned progress) as [i|]; [|by intros [= _ <- <-]].
  destruct (poisoned !! i) as [x|] eqn:Ex; [|by intros [= _ <- <-]]. intros E Hr. apply (IH _ _ _ E).
  destruct Hr as [Hr|Hr]; [destruct (delete_elem _ _ _ _ Ex Hr) as [->|?]|]; set_solver.
Qed.

Lemma quarantine_elem progress t held t' held' q r : quarantine progress t held = (t', held', q) -> r ∈ held -> r ∈ held' \/ r ∈ q.
Proof.
  unfold quarantine. destruct (quarantineCandidate held progress) as [i|]; [|by intros [= _ <- <-]; auto].
  destruct (held !! i) as [x|] eqn:Ex; [|by intros [= _ <- <-]; auto]. intros [= _ <- <-] Hr.
  destruct (delete_elem _ _ _ _ Ex Hr) as [->|?]; set_solver.
Qed.

Lemma given_up_or_stays n p t held poisoned t1 poisoned' shed h : forall t2 held' quar,
  shed_loop n p t poisoned [] = (t1, poisoned', shed) -> quarantine p t1 held = (t2, held', quar) ->
  h ∈ held \/ h ∈ poisoned -> (h ∈ held' \/ h ∈ poisoned') \/ (h ∈ shed \/ h ∈ quar).
Proof.
  intros t2 held' quar Es Eq [Hh|Hh]; [destruct (quarantine_elem _ _ _ _ _ _ _ Eq Hh)|destruct (shed_loop_elem _ _ _ _ _ _ _ _ h Es)]; auto.
Qed.

Lemma shed_loop_sub n p t poisoned shed t' poisoned' shed' h : shed_loop n p t poisoned shed = (t', poisoned', shed') ->
  h ∈ poisoned' -> h ∈ poisoned.
Proof.
  revert t poisoned shed. induction n as [|n IH]; intros t poisoned shed; cbn [shed_loop]; [by intros [= _ <- <-]|].
  destruct (permanentSkipCandidate poisoned p) as [i|]; [|by intros [= _ <- <-]].
  destruct (poisoned !! i) as [x|] eqn:Ex; [|by intros [= _ <- <-]]. intros E Hh. eapply elem_of_sublist; [by eapply IH|apply sublist_delete].
Qed.

Lemma stays_from n p t held poisoned t1 poisoned' shed h : forall t2 held' quar,
  shed_loop n p t poisoned [] = (t1, poisoned', shed) -> quarantine p t1 held = (t2, held', quar) ->
  h ∈ held' \/ h ∈ poisoned' -> h ∈ held \/ h ∈ poisoned.
Proof.
  intros t2 held' quar Es Eq [Hh|Hh]; [left|right; by eapply shed_loop_sub]. unfold quarantine in Eq.
  destruct (quarantineCandidate held p) as [i|]; [|by injection Eq as _ <- _].
  destruct (held !! i) as [x|]; injection Eq as _ <- _; [|done]. eapply elem_of_sublist; [exact Hh|apply sublist_delete].
Qed.

(** ** What a fault is *)

(** The first Postgres error of the chain. *)
Definition pg_code (e : goerr) (code : string) : Prop :=
  exists pre post, err_chain e = pre ++ PgError code :: post /\ forall c, PgError c ∉ pre.

Definition aborted (e : goerr) : Prop := Canceled ∈ err_chain e \/ DeadlineExceeded ∈ err_chain e.

(** The row itself is at fault: a value the database or the canonical types
    refuse, or a panic of the sink. *)
Definition permanent (e : goerr) : Prop :=
  (~ aborted e
   /\ (ErrMalformedRow ∈ err_chain e \/ exists code, pg_code e code /\ (HasPrefix code "22" = true \/ HasPrefix code "23" = true)))
  \/ (exists s, s ∈ [ErrInvalidOracle; ErrInvalidTrade; ErrInvalidAsset; ErrInvalidStrkey; ErrInvalidAmount; ErrI128Overflow]
        /\ Canonical s ∈ err_chain e)
  \/ ErrSinkPanic ∈ err_chain e.

(** The cycle was stopped, or the database cannot be reached. *)
Definition transient (e : goerr) : Prop :=
  aborted e \/ ErrBadConn ∈ err_chain e \/ NetError ∈ err_chain e
  \/ (exists code, pg_code e code /\ (HasPrefix code "08" = true \/ code ∈ ["57P01"; "57P02"; "57P03"; "53300"; "53400"]))
  \/ ((forall c, PgError c ∉ err_chain e)
      /\ exists t, t ∈ ["connection refused"; "connection reset"; "broken pipe"; "no such host"; "i/o timeout";
                        "server closed the connection"; "the database system is"] /\ str_Contains (err_text e) t = true).

Lemma as_PgError_code e code : as_PgError e = Some code <-> pg_code e code.
Proof.
  unfold as_PgError, pg_code. induction (err_chain e) as [|l ls IH]; [split; [done|]; by intros ([|] & post & ? & _)|].
  destruct l as [s| | | | | | |c]; cbn [omap list_omap head];
    try (rewrite IH; split; [intros (pre & post & -> & HN)|intros ([|x pre] & post & [= <- E] & HN)];
      [eexists (_ :: pre), post; split; [done|]; intros c [?|?]%elem_of_cons; [done|by eapply HN]
      |exists pre, post; split; [done|]; intros c Hc; apply (HN c); by right]).
  split; [intros [= ->]; exists [], ls; split; [done|]; by intros ? ?%elem_of_nil|].
  intros ([|x pre] & post & [= <- E] & HN); [by subst|]. exfalso. apply (HN c). by left.
Qed.

Lemma as_PgError_None e : as_PgError e = None <-> forall c, PgError c ∉ err_chain e.
Proof.
  unfold as_PgError. induction (err_chain e) as [|l ls IH]; [split; [intros _ c ?%elem_of_nil; done|done]|].
  destruct l as [s| | | | | | |c]; cbn [omap list_omap head]; try (rewrite IH; split; intros HN c;
    [intros [?|?]%elem_of_cons; [done|by eapply HN]|intros Hc; apply (HN c); by right]).
  split; [done|]. intros HN. destruct (HN c). by left.
Qed.

Lemma sqlStateClass_prefix code a b : String.eqb (sqlStateClass code) (String a (String b "")) = HasPrefix code (String a (String b "")).
Proof.
  unfold sqlStateClass, HasPrefix. destruct code as [|x [|y code]]; cbn; [done|by destruct (Ascii.eqb _ _)|].
  destruct (Ascii.eqb_spec x a), (Ascii.eqb_spec a x), (Ascii.eqb_spec y b), (Ascii.eqb_spec b y); subst; try done.
Qed.

Lemma err_Is_elem e l : err_Is e l = true <-> l ∈ err_chain e.
Proof. unfold err_Is. apply bool_decide_eq_true. Qed.

Lemma aborted_spec e : err_Is e Canceled || err_Is e DeadlineExceeded = true <-> aborted e.
Proof. by rewrite orb_true_iff, !err_Is_elem. Qed.

Lemma IsPermanentDataError_spec e : IsPermanentDataError e = true <->
  ~ aborted e /\ (ErrMalformedRow ∈ err_chain e \/ exists code, pg_code e code /\ (HasPrefix code "22" = true \/ HasPrefix code "23" = true)).
Proof.
  rewrite <- aborted_spec. unfold IsPermanentDataError. destruct (err_Is e Canceled || _); [split; [done|by intros [[] _]]|].
  rewrite <- err_Is_elem. destruct (err_Is e ErrMalformedRow); [split; auto|].
  destruct (as_PgError e) as [code|] eqn:E.
  - rewrite !sqlStateClass_prefix, orb_true_iff. apply as_PgError_code in E. split; [intros Hc; split; [done|]; right; eauto|].
    intros (_ & [?|(code' & E' & Hc)]); [done|]. apply as_PgError_code in E, E'. by simplify_eq.
  - split; [done|]. intros (_ & [?|(code' & E' & Hc)]); [done|]. apply as_PgError_code in E'. congruence.
Qed.

Lemma permanent_spec e : classifySinkFault e = dispositionSkip <-> permanent e.
Proof.
  unfold classifySinkFault, permanent. rewrite <- IsPermanentDataError_spec.
  assert (isValueShapeError e = true <-> exists s, s ∈ valueShapeSentinels /\ Canonical s ∈ err_chain e) as HV.
  { unfold isValueShapeError. rewrite existsb_exists. split; intros (s & Hs & HE); exists s; (split; [by apply list_elem_of_In|by apply err_Is_elem]). }
  fold valueShapeSentinels. rewrite <- HV, <- (err_Is_elem e ErrSinkPanic).
  destruct (IsPermanentDataError e), (isValueShapeError e), (err_Is e ErrSinkPanic); try naive_solver. destruct (_ || _ || _); naive_solver.
Qed.

Lemma transient_spec e : IsInfraError e || err_Is e Canceled || err_Is e DeadlineExceeded = true <-> transient e.
Proof.
  unfold transient. rewrite <- aborted_spec, <- !err_Is_elem. unfold IsInfraError.
  destruct (err_Is e Canceled || err_Is e DeadlineExceeded) eqn:EA; [rewrite <- orb_assoc, EA, orb_true_r; naive_solver|].
  apply orb_false_iff in EA as [-> ->]. rewrite !orb_false_r. destruct (err_Is e ErrBadConn); [naive_solver|]. destruct (err_Is e NetError); [naive_solver|].
  destruct (as_PgError e) as [code|] eqn:E.
  - rewrite sqlStateClass_prefix, orb_true_iff, bool_decide_eq_true. split; [intros Hc; do 3 right; left; exists code; by rewrite <- as_PgError_code|].
    intros [?|[?|[?|[(c & Ec & Hc)|[HN _]]]]]; try done; [apply as_PgError_code in Ec; by simplify_eq|].
    apply as_PgError_None in HN. congruence.
  - rewrite existsb_exists. split.
    + intros (t & Ht%list_elem_of_In & HC). do 4 right. split; [by apply as_PgError_None|]. by exists t.
    + intros [?|[?|[?|[(c & Ec & Hc)|[HN (t & Ht & HC)]]]]]; try done; [apply as_PgError_code in Ec; congruence|].
      exists t. split; [by apply list_elem_of_In|done].
Qed.

(** A fault of neither kind. *)
Lemma unclassified_spec e : classifySinkFault e = dispositionUnclassified -> ~ permanent e /\ ~ transient e.
Proof.
  intros E. split; [rewrite <- permanent_spec, E; done|]. rewrite <- transient_spec. unfold classifySinkFault in E.
  destruct (IsPermanentDataError e); [done|]. destruct (isValueShapeError e); [done|]. destruct (err_Is e ErrSinkPanic); [done|].
  by destruct (IsInfraError e || _ || _).
Qed.

(** ** Rows that are done *)

(** What one row met: the outputs that the sink took, the faults by which it
    refused others, and the fault at which the row stopped. *)
Record entry := mkEntry { en_id : rowIdentity; en_taken : nat; en_refused : list goerr; en_stopped : option goerr }.

(** Every output was taken, or there was nothing to write. *)
Definition en_fine (en : entry) : Prop := en_refused en = [] /\ en_stopped en = None.

Definition taken (log : list entry) : nat := foldr (fun en n => (en_taken en + n)%nat) 0%nat log.

Section Laws.
Context `{EventPayload} (d : Decoder) {W : Type} (sink : W -> Output -> W * option goerr).

Abbreviation scan := (@Projector.scan _ d W).
Abbreviation src_state := (@Projector.src_state _ d W).
Abbreviation cycle_out := (@Projector.cycle_out _ d W).

(** The sink is offered the outputs one after the other. It takes one, or
    refuses it for good and the next one follows, or fails, and no more of the
    row is offered. *)
Inductive offered : W -> list Output -> W -> nat -> list goerr -> option goerr -> Prop :=
| offered_end w : offered w [] w 0 [] None
| offered_taken w out w1 outs w' n errs stop :
    sink w out = (w1, None) -> offered w1 outs w' n errs stop -> offered w (out :: outs) w' (S n) errs stop
| offered_refused w out w1 err outs w' n errs stop :
    sink w out = (w1, Some err) -> permanent err -> offered w1 outs w' n errs stop -> offered w (out :: outs) w' n (err :: errs) stop
| offered_stopped w out w1 err outs :
    sink w out = (w1, Some err) -> ~ permanent err -> offered w (out :: outs) w1 0 [] (Some err).

(** An event that the decoder does not match, or cannot decode, writes
    nothing; the outputs of another one go to the sink. *)
Definition row_read (s : dec_state d) (w : W) (ev : Event) (s' : dec_state d) (w' : W) (n : nat) (errs : list goerr) (stop : option goerr) : Prop :=
  let nothing s1 := s' = s1 /\ offered w [] w' n errs stop in
  match dec_Matches d s ev with
  | (Some true, s1) => match dec_Decode d s1 ev with
                       | (Some (Some outs), s2) => s' = s2 /\ offered w outs w' n errs stop
                       | (_, s2) => nothing s2
                       end
  | (_, s1) => nothing s1
  end.

(** A stream is read row by row, the parts of one event that follow one
    another once. *)
Inductive passes : option rowIdentity -> dec_state d -> W -> list stream_row -> dec_state d -> W -> list entry -> Prop :=
| passes_end last s w : passes last s w [] s w []
| passes_malformed last s w l rows s' w' log :
    passes last s w rows s' w' log -> passes last s w (RowMalformed l :: rows) s' w' log
| passes_again s w ev rows s' w' log :
    passes (Some (rowIdentity_of ev)) s w rows s' w' log -> passes (Some (rowIdentity_of ev)) s w (RowEvent ev :: rows) s' w' log
| passes_row last s w ev s1 w1 n errs stop rows s' w' log :
    last <> Some (rowIdentity_of ev) -> row_read s w ev s1 w1 n errs stop ->
    passes (Some (rowIdentity_of ev)) s1 w1 rows s' w' log ->
    passes last s w (RowEvent ev :: rows) s' w' (mkEntry (rowIdentity_of ev) n errs stop :: log).

Definition read_log (sc0 : scan) (rows : list stream_row) (log : list entry) : Prop :=
  let sc := foldl (scan_row d sink) sc0 rows in
  passes (sc_last sc0) (sc_dec sc0) (sc_sink sc0) rows (sc_dec sc) (sc_sink sc) log.

(** Read in the stream and done. *)
Definition fine_in (log : list entry) (id : rowIdentity) : Prop := exists en, en ∈ log /\ en_id en = id /\ en_fine en.

(** Held below its ledger. *)
Definition is_held (sc : scan) (id : rowIdentity) : Prop :=
  exists h, (h ∈ sc_held sc \/ h ∈ sc_poisoned sc) /\ h_id h = id /\ heldAt h <= id_ledger id.

Lemma outputLedger_le out l : outputLedger out l <= l.
Proof. unfold outputLedger. destruct (negb _ && _) eqn:E; [|lia]. apply andb_prop in E as [_ E%Z.ltb_lt]. lia. Qed.

Lemma sink_outs_held w l outs n drops w' m f : sink_outs sink w l outs n drops = (w', m, f) -> f_held f <> None -> heldLedger f <= l.
Proof.
  revert w n drops. induction outs as [|out outs IH]; intros w n drops; cbn [sink_outs].
  { by intros [= _ _ <-]. }
  destruct (sink w out) as [w1 [e|]]; [|apply IH]. destruct (bool_decide _); [apply IH|].
  intros [= _ _ <-] _. apply outputLedger_le.
Qed.

Lemma processEventSafely_held s w ev : f_held (rr_faults (processEventSafely d sink s w ev).2) <> None ->
  heldLedger (rr_faults (processEventSafely d sink s w ev).2) <= ev_Ledger ev.
Proof.
  unfold processEventSafely. destruct (DecodeRow d s ev) as [[| |outs] s']; [done..|].
  destruct (sink_outs sink w (ev_Ledger ev) outs 0 []) as [[w' n] f] eqn:E. cbn. by eapply sink_outs_held.
Qed.

Lemma process_held_mono sc ev h : h ∈ sc_held sc \/ h ∈ sc_poisoned sc ->
  h ∈ sc_held (process d sink sc ev) \/ h ∈ sc_poisoned (process d sink sc ev).
Proof.
  intros Hh. unfold process. destruct (bool_decide _); [done|]. destruct (processEventSafely _ _ _ _ _) as [[s w] r].
  destruct (rr_decodeFail r); [done|]. destruct (dropped (rr_faults r)), (f_held (rr_faults r)); cbn; set_solver.
Qed.

Lemma scan_held_mono rows sc h : h ∈ sc_held sc \/ h ∈ sc_poisoned sc ->
  h ∈ sc_held (foldl (scan_row d sink) sc rows) \/ h ∈ sc_poisoned (foldl (scan_row d sink) sc rows).
Proof.
  revert sc. induction rows as [|[ev|l] rows IH]; intros sc Hh; [done|..]; cbn [foldl]; apply IH; [by apply process_held_mono|done].
Qed.

(** What is held is a row of the stream. *)
Lemma scan_held_rows rows sc0 : sc_held sc0 = [] -> sc_poisoned sc0 = [] ->
  let sc := foldl (scan_row d sink) sc0 rows in
  forall h, h ∈ sc_held sc \/ h ∈ sc_poisoned sc -> exists ev, RowEvent ev ∈ rows /\ h_id h = rowIdentity_of ev /\ heldAt h <= ev_Ledger ev.
Proof.
  intros E1 E2. induction rows as [|r rows IH] using rev_ind; cbn zeta in *.
  { cbn. rewrite E1, E2. by intros h [?%elem_of_nil|?%elem_of_nil]. }
  rewrite foldl_snoc. set (sc := foldl (scan_row d sink) sc0 rows) in *. clearbody sc. intros h Hh.
  assert (HO : (h ∈ sc_held sc \/ h ∈ sc_poisoned sc) \/ exists ev, r = RowEvent ev /\ h_id h = rowIdentity_of ev /\ heldAt h <= ev_Ledger ev).
  { destruct r as [ev|l]; cbn [scan_row] in Hh; [|by left].
    pose proof (processEventSafely_held (sc_dec sc) (sc_sink sc) ev) as HB. unfold process in Hh.
    destruct (bool_decide _); [by left|]. destruct (processEventSafely _ _ _ _ _) as [[s w] x]. cbn [snd] in HB.
    destruct (rr_decodeFail x); [by left|].
    assert (HN : forall disp n, h = mkHeld (rowIdentity_of ev) (heldLedger (rr_faults x)) disp n -> f_held (rr_faults x) <> None -> heldAt h <= ev_Ledger ev).
    { intros disp n -> Hf. unfold heldAt. cbn. destruct (negb _); [by apply HB|lia]. }
    destruct (dropped (rr_faults x)) as [|y ys], (f_held (rr_faults x)) as [e|] eqn:Eh; cbn in Hh; [|by left|..];
      rewrite elem_of_app, list_elem_of_singleton in Hh; destruct Hh as [Hh|Hh]; try (by auto); (destruct Hh as [Hh|Hh]; [by auto|]) ||idtac;
      right; exists ev; (split; [done|]); (try (split; [by subst h|]; eapply HN; [exact Hh|done])).
    all: subst h; split; [done|]; unfold heldAt; cbn; lia. }
  destruct HO as [Ho|(ev & -> & E & Hl)]; [destruct (IH h Ho) as (ev & Hin & E)|]; exists ev; (split; [set_solver|done]).
Qed.

(** What the scan records of a row is what the row met. *)
Lemma sink_outs_offered w l outs m drops w' m' f : sink_outs sink w l outs m drops = (w', m', f) ->
  exists n errs, offered w outs w' n errs (f_held f) /\ m' = m + Z.of_nat n /\ dropped f = drops ++ errs.
Proof.
  revert w m drops. induction outs as [|out outs IH]; intros w m drops; cbn [sink_outs].
  { intros [= <- <- <-]. exists 0%nat, []. split; [constructor|]. split; [lia|]. by rewrite app_nil_r. }
  destruct (sink w out) as [w1 [err|]] eqn:E.
  - destruct (bool_decide _) eqn:Eb; [apply bool_decide_eq_true, permanent_spec in Eb|apply bool_decide_eq_false in Eb; rewrite permanent_spec in Eb].
    + intros (n & errs & HO & -> & HD)%IH. exists n, (err :: errs). split; [by eapply offered_refused|]. split; [done|]. by rewrite HD, <- app_assoc.
    + intros [= <- <- <-]. exists 0%nat, []. split; [by eapply offered_stopped|]. split; [lia|]. by rewrite app_nil_r.
  - intros (n & errs & HO & -> & HD)%IH. exists (S n), errs. split; [by eapply offered_taken|]. split; [lia|done].
Qed.

Lemma processEventSafely_read s w ev s' w' r : processEventSafely d sink s w ev = (s', w', r) ->
  exists n, row_read s w ev s' w' n (dropped (rr_faults r)) (f_held (rr_faults r)) /\ rr_emitted r = Z.of_nat n
    /\ (rr_decodeFail r = true -> dropped (rr_faults r) = [] /\ f_held (rr_faults r) = None).
Proof.
  unfold processEventSafely, DecodeRow, safeMatches, safeDecode, row_read. destruct (dec_Matches d s ev) as [[[|]|] s1].
  - destruct (dec_Decode d s1 ev) as [[[outs|]|] s2]; [|intros [= <- <- <-]; exists 0%nat; repeat split; constructor..].
    destruct (sink_outs sink w (ev_Ledger ev) outs 0 []) as [[w1 m] f] eqn:E. intros [= <- <- <-].
    apply sink_outs_offered in E as (n & errs & HO & -> & HD). exists n. cbn. rewrite HD. split; [done|]. split; [lia|done].
  - intros [= <- <- <-]. exists 0%nat. repeat split; constructor.
  - intros [= <- <- <-]. exists 0%nat. repeat split; constructor.
Qed.

(** What is held for a row that is not fine. *)
Definition held_for (h : heldRow) (en : entry) : Prop :=
  h_id h = en_id en /\ match en_stopped en with
                       | Some err => disposition h = classifySinkFault err
                       | None => en_refused en <> [] /\ disposition h = dispositionSkip
                       end.

(** One row of the scan against one row of the log. *)
Record row_step (sc sc' : scan) (ev : Event) (en : entry) : Prop := {
  rs_id : en_id en = rowIdentity_of ev;
  rs_last : sc_last sc' = Some (rowIdentity_of ev);
  rs_read : row_read (sc_dec sc) (sc_sink sc) ev (sc_dec sc') (sc_sink sc') (en_taken en) (en_refused en) (en_stopped en);
  rs_emitted : sc_emitted sc' = sc_emitted sc + Z.of_nat (en_taken en);
  rs_failed : forall id, id ∈ sc_failed sc' <-> id ∈ sc_failed sc \/ (id = en_id en /\ ~ en_fine en);
  rs_held : forall h, h ∈ sc_held sc' -> h ∈ sc_held sc \/ (held_for h en /\ en_stopped en <> None);
  rs_poisoned : forall h, h ∈ sc_poisoned sc' -> h ∈ sc_poisoned sc \/ (held_for h en /\ en_stopped en = None);
  rs_kept : ~ en_fine en -> is_held sc' (en_id en)
}.

Lemma process_step sc ev : sc_last sc <> Some (rowIdentity_of ev) -> exists en, row_step sc (process d sink sc ev) ev en.
Proof.
  intros Hl. pose proof (processEventSafely_held (sc_dec sc) (sc_sink sc) ev) as HB. unfold process. rewrite bool_decide_false by done.
  destruct (processEventSafely _ _ _ _ _) as [[s w] r] eqn:E. apply processEventSafely_read in E as (n & HR & En & HF). cbn [snd] in HB.
  exists (mkEntry (rowIdentity_of ev) n (dropped (rr_faults r)) (f_held (rr_faults r))).
  assert (Hat : forall disp n, f_held (rr_faults r) <> None -> heldAt (mkHeld (rowIdentity_of ev) (heldLedger (rr_faults r)) disp n) <= ev_Ledger ev)
    by (intros disp k Hf; unfold heldAt; cbn; destruct (negb _); [by apply HB|lia]).
  destruct (rr_decodeFail r).
  { destruct (HF eq_refl) as [E1 E2]. rewrite E1, E2 in *. split; unfold en_fine, held_for, is_held; cbn; try done; try (by rewrite En); naive_solver. }
  assert (HFine : forall n' stop errs, ~ en_fine (mkEntry (rowIdentity_of ev) n' errs stop) -> forall id, id ∈ {[rowIdentity_of ev]} ∪ sc_failed sc <->
    id ∈ sc_failed sc \/ (id = rowIdentity_of ev /\ ~ en_fine (mkEntry (rowIdentity_of ev) n' errs stop))) by (intros; set_solver).
  destruct (dropped (rr_faults r)) as [|x xs], (f_held (rr_faults r)) as [err|]; split;
    cbn [en_id en_taken en_refused en_stopped sc_last sc_dec sc_sink sc_emitted sc_failed sc_held sc_poisoned tr_fail]; try done; try (by rewrite En);
    try (apply HFine; by intros []); try (by auto);
    try (intros h; rewrite elem_of_app, list_elem_of_singleton; intros [?| ->]; [by left|by right]);
    try (intros _; eexists; split; [left; apply elem_of_app; right; by left|]; split; [done|by apply Hat]).
  - intros id. split; [by left|]. intros [?|[_ []]]; done.
  - by intros [].
  - intros _. eexists. split; [right; apply elem_of_app; right; by left|]. split; [done|]. unfold heldAt. cbn. lia.
Qed.

(** The scan against the log: what it emitted, what it failed on, what it
    holds. *)
Record log_of (sc0 : scan) (rows : list stream_row) (log : list entry) : Prop := {
  lo_read : read_log sc0 rows log;
  lo_emitted : sc_emitted (foldl (scan_row d sink) sc0 rows) = sc_emitted sc0 + Z.of_nat (taken log);
  lo_failed : forall id, id ∈ sc_failed (foldl (scan_row d sink) sc0 rows) <-> id ∈ sc_failed sc0 \/ exists en, en ∈ log /\ en_id en = id /\ ~ en_fine en;
  lo_held : forall h, h ∈ sc_held (foldl (scan_row d sink) sc0 rows) -> h ∈ sc_held sc0 \/ exists en, en ∈ log /\ held_for h en /\ en_stopped en <> None;
  lo_poisoned : forall h, h ∈ sc_poisoned (foldl (scan_row d sink) sc0 rows) -> h ∈ sc_poisoned sc0 \/ exists en, en ∈ log /\ held_for h en /\ en_stopped en = None;
  lo_kept : forall en, en ∈ log -> ~ en_fine en -> is_held (foldl (scan_row d sink) sc0 rows) (en_id en);
  lo_all : forall ev, RowEvent ev ∈ rows -> sc_last sc0 = Some (rowIdentity_of ev) \/ exists en, en ∈ log /\ en_id en = rowIdentity_of ev
}.

Lemma scan_log rows : forall sc0, exists log, log_of sc0 rows log.
Proof.
  induction rows as [|r rows IH]; intros sc0.
  { exists []. split; cbn; try done; try lia; try set_solver. constructor. }
  destruct (IH (scan_row d sink sc0 r)) as (log & [H1 H2 H3 H4 H5 H6 H7]). destruct r as [ev|l]; cbn [scan_row] in *.
  - destruct (decide (sc_last sc0 = Some (rowIdentity_of ev))) as [El|El].
    + assert (process d sink sc0 ev = sc0) as Ep by (unfold process; by rewrite bool_decide_true). rewrite Ep in *.
      exists log. split; cbn [foldl scan_row]; rewrite ?Ep; try done.
      * unfold read_log in *. cbn [foldl scan_row]. rewrite Ep. rewrite El in *. by apply passes_again.
      * intros ev' [[= ->]|Hin]%elem_of_cons; [by left|by apply H7].
    + destruct (process_step sc0 ev El) as (en & [R1 R2 R3 R4 R5 R6 R7 R8]). exists (en :: log). split; cbn [foldl scan_row].
      * unfold read_log in *. cbn [foldl scan_row]. rewrite R2 in H1. destruct en as [i n errs stop]. cbn in R1. subst i. by eapply passes_row.
      * rewrite H2, R4. cbn [taken foldr]. fold (taken log). lia.
      * intros id. rewrite H3, R5. setoid_rewrite elem_of_cons. naive_solver.
      * intros h Hh. destruct (H4 h Hh) as [[?|?]%R6|(x & ? & ?)]; [by left|right; exists en; split; [by left|done]|right; exists x; split; [by right|done]].
      * intros h Hh. destruct (H5 h Hh) as [[?|?]%R7|(x & ? & ?)]; [by left|right; exists en; split; [by left|done]|right; exists x; split; [by right|done]].
      * intros x [->|Hx]%elem_of_cons Hn; [|by apply H6]. destruct (R8 Hn) as (h & Hh & HX). exists h. split; [by apply scan_held_mono|done].
      * intros ev' [[= ->]|Hin]%elem_of_cons; right; [exists en; split; [by left|done]|].
        destruct (H7 ev' Hin) as [E|(x & Hx & Ex)]; [exists en; split; [by left|]; congruence|exists x; split; [by right|done]].
  - exists log. split; cbn [foldl scan_row]; try done; [by apply passes_malformed|]. intros ev [?|Hin]%elem_of_cons; [done|by apply H7].
Qed.

(** Every row of the stream is done or held. *)
Lemma log_accounts sc0 rows log : log_of sc0 rows log -> sc_last sc0 = None ->
  forall ev, RowEvent ev ∈ rows -> fine_in log (rowIdentity_of ev) \/ is_held (foldl (scan_row d sink) sc0 rows) (rowIdentity_of ev).
Proof.
  intros HL H0 ev Hin. destruct (lo_all _ _ _ HL ev Hin) as [?|(en & Hen & <-)]; [congruence|].
  destruct (decide (en_refused en = [] /\ en_stopped en = None)) as [Hf|Hf]; [left; by exists en|]. right. by apply (lo_kept _ _ _ HL).
Qed.

Lemma offered_permanent w outs w' n errs stop : offered w outs w' n errs stop -> Forall permanent errs.
Proof. by induction 1; [constructor| |constructor|constructor]. Qed.

Lemma passes_permanent last s w rows s' w' log : passes last s w rows s' w' log -> forall en, en ∈ log -> Forall permanent (en_refused en).
Proof.
  induction 1 as [| | |last s w ev s1 w1 n errs stop rows s' w' log _ HR _ IH]; [by intros en ?%elem_of_nil|done..|].
  intros en [->|?]%elem_of_cons; [|by apply IH]. unfold row_read in HR.
  destruct (dec_Matches d s ev) as [[[|]|] s2]; [destruct (dec_Decode d s2 ev) as [[[outs|]|] s3]|..]; destruct HR as [_ HO]; by eapply offered_permanent.
Qed.

(** ** What a cycle does to the cursor *)

Context (src : source).

Definition gave_up (o : cycle_out) (id : rowIdentity) : Prop :=
  exists h, (h ∈ co_shed o \/ h ∈ co_quarantined o) /\ h_id h = id.

(** Moved back by an operator. *)
Definition rewound (row row' : option Z) : Prop := row' = row \/ exists l l', row = Some l /\ row' = Some l' /\ 0 <= l' < l.

Lemma rewound_by row l : 0 <= l -> rewound row (match RewindCursor row l with Some (l, _) => Some l | None => row end).
Proof.
  intros Hl. unfold RewindCursor. destruct row as [x|]; [|by left]. destruct (Z.ltb_spec l x); [right; exists x, l; done|by left].
Qed.

Lemma commitCursor_spec e row read c row' b : (forall l, ce_rewind e = Some l -> 0 <= l) -> commitCursor e row read c = (row', b) ->
  if b then row' = Some c /\ (Exists read = true -> LastLedger read < c) else rewound row row'.
Proof.
  intros HW. unfold commitCursor. set (r := match ce_rewind e with Some _ => _ | None => row end).
  assert (HR : rewound row r) by (unfold r; destruct (ce_rewind e); [by apply rewound_by, HW|by left]).
  destruct (ce_commitFails e); [by intros [= <- <-]|]. unfold AdvanceCursorFrom. destruct (Exists read).
  - destruct (Z.leb_spec c (LastLedger read)); [by intros [= <- <-]|]. destruct r as [l|]; [|by intros [= <- <-]].
    destruct (l =? LastLedger read); [|by intros [= <- <-]]. by intros [= <- <-].
  - destruct r as [l|]; [by intros [= <- <-]|]. by intros [= <- <-].
Qed.

(** The rows at or below the committed ledger are done or were given up. *)
Lemma finish_spec (ok : rowIdentity -> Prop) e st read from to pf sc st' o (rows : list stream_row) : finish_cycle d src e st read from to pf sc = (st', o) -> from <= to -> (forall l, ce_rewind e = Some l -> 0 <= l) ->
  (forall ev, RowEvent ev ∈ rows -> ok (rowIdentity_of ev) \/ is_held sc (rowIdentity_of ev)) ->
  (forall h, h ∈ sc_held sc \/ h ∈ sc_poisoned sc -> heldAt h <= to) ->
  st_seed st' = st_seed st /\
  match co_outcome o with
  | Committed c => (co_from o = from /\ co_to o = to /\ co_scan o = Some sc) /\ from <= c <= to /\ st_cursor st' = Some c
      /\ (Exists read = true -> LastLedger read < c) /\ prefilterWidened src e pf = []
      /\ forall ev, RowEvent ev ∈ rows -> ev_Ledger ev <= c ->
           ok (rowIdentity_of ev) \/ gave_up o (rowIdentity_of ev)
  | _ => rewound (st_cursor st) (st_cursor st')
  end.
Proof.
  intros E Hft HW HA HT. unfold finish_cycle in E. destruct (negb _) eqn:Epf; [injection E as <- <-; split; [done|by left]|].
  apply negb_false_iff, Nat.eqb_eq, length_zero_iff_nil in Epf.
  destruct (shed_loop _ _ _ _ _) as [[t1 poisoned] shed] eqn:Es. destruct (quarantine _ _ _) as [[t2 held] quar] eqn:Eq.
  set (first := lower_held (lowestHeldLedger held) (lowestHeldLedger poisoned)) in E.
  assert (HD : forall c ev, match first with Some l => c < l | None => True end -> RowEvent ev ∈ rows -> ev_Ledger ev <= c ->
    ok (rowIdentity_of ev)
    \/ exists h, (h ∈ shed \/ h ∈ quar) /\ h_id h = rowIdentity_of ev).
  { intros c ev Hc Hin Hle. destruct (HA ev Hin) as [?|(h & Hh & Eid & Hat)]; [by left|right]. exists h. split; [|done].
    destruct (given_up_or_stays _ _ _ _ _ _ _ _ h _ _ _ Es Eq Hh) as [Hr|?]; [exfalso|done].
    destruct (lower_held_spec held poisoned h Hr) as (l & El & Hl). fold first in El. rewrite El in Hc. cbn in Hat. lia. }
  assert (HF : forall l, first = Some l -> l <= to).
  { intros l El. apply lower_held_attained in El as (h & Hh & <-). apply HT. by apply (stays_from _ _ _ _ _ _ _ _ h _ _ _ Es Eq). }
  clearbody first. destruct first as [l|].
  - destruct (Z.leb_spec l from); [injection E as <- <-; split; [done|by left]|]. specialize (HF l eq_refl).
    destruct (commitCursor e (st_cursor st) read (l - 1)) as [row [|]] eqn:Ec; (apply commitCursor_spec in Ec; [|done]); injection E as <- <-; [|done].
    destruct Ec as [-> Hr]. cbn. split_and!; try done; [lia..|]. intros ev Hin Hle. apply (HD (l - 1)); [lia|done..].
  - destruct (commitCursor e (st_cursor st) read to) as [row [|]] eqn:Ec; (apply commitCursor_spec in Ec; [|done]); injection E as <- <-; [|done].
    destruct Ec as [-> Hr]. cbn. split_and!; try done; [lia..|]. intros ev Hin Hle. by apply (HD to).
Qed.

(** ** Runs *)

(** The events that a source is to project, whenever they land. *)
Context (wanted : list Event).

(** What the store, the lake and the landing zone promise: below the resolved
    tip the stream stays in its range and holds every wanted event that the
    contract filter lets through, so all of them unless the gate has grown
    during the scan; the seek finds the first event, and nothing precedes the
    lake. *)
Record lawful (e : cycle_env) : Prop := {
  law_rewind : forall l, ce_rewind e = Some l -> 0 <= l;
  law_tip : forall from lim tip, resolveTip src e from lim = Some tip -> 0 <= tip <= MaxUint32;
  law_stream : forall from lim tip to rows, resolveTip src e from lim = Some tip -> from <= to <= tip ->
    ce_stream e from to (PrefilterContractIDs src e) = (rows, None) ->
    (prefilterWidened src e (PrefilterContractIDs src e) = [] -> forall ev, ev ∈ wanted -> from <= ev_Ledger ev <= to -> RowEvent ev ∈ rows)
    /\ (forall ev, RowEvent ev ∈ rows -> from <= ev_Ledger ev <= to);
  law_first : forall floor tip r, resolveTip src e floor MaxUint32 = Some tip -> ce_first e floor tip (src_ContractIDs src) = Some r ->
    match r with
    | Some l => floor <= l <= tip /\ forall ev, ev ∈ wanted -> floor <= ev_Ledger ev <= tip -> l <= ev_Ledger ev
    | None => forall ev, ev ∈ wanted -> ~ floor <= ev_Ledger ev <= tip
    end;
  law_lakeMin : forall m, ce_lakeMin e = Some m -> forall ev, ev ∈ wanted -> m <= ev_Ledger ev
}.

Definition genesis_ok : Prop := 0 <= src_Genesis src /\ forall ev, ev ∈ wanted -> 1 <= ev_Ledger ev /\ src_Genesis src <= ev_Ledger ev.

(** The rows of the window of a cycle and what they met; the cycle leaves the
    decoder and the sink as the last row left them. *)
Definition cycle_log (c : cycle_env * src_state) (log : list entry) : Prop :=
  let '(e, st) := c in
  let '(st', o) := cycleOneSource d sink src e st in
  passes None (st_dec st) (st_sink st) (ce_stream e (co_from o) (co_to o) (PrefilterContractIDs src e)).1 (st_dec st') (st_sink st') log.

(** The row was read in that cycle, and done or given up. *)
Definition done_in (c : cycle_env * src_state) (id : rowIdentity) : Prop :=
  exists log, cycle_log c log
    /\ exists en, en ∈ log /\ en_id en = id /\ (en_fine en \/ gave_up (cycleOneSource d sink src c.1 c.2).2 id).

Lemma finish_ends e st read from to pf (sc : scan) :
  let '(st', o) := finish_cycle d src e st read from to pf sc in
  st_dec st' = sc_dec sc /\ st_sink st' = sc_sink sc /\ co_from o = from /\ co_to o = to /\ co_scan o = Some sc.
Proof.
  unfold finish_cycle. destruct (negb _); [done|].
  destruct (shed_loop _ _ _ _ _) as [[t1 poisoned] shed]. destruct (quarantine _ _ _) as [[t2 held] quar].
  destruct (lower_held _ _) as [l|]; [destruct (l <=? from); [done|]|]; destruct (commitCursor _ _ _ _) as [row [|]]; done.
Qed.

(** A cycle that scanned has a log; one that did not gives nothing up. *)
Lemma cycle_scanned e st st' o : cycleOneSource d sink src e st = (st', o) ->
  let rows := (ce_stream e (co_from o) (co_to o) (PrefilterContractIDs src e)).1 in
  let sc := foldl (scan_row d sink) (start_scan d (st_dec st) (st_sink st) (st_tracker st)) rows in
  match co_scan o with
  | Some sc' => sc' = sc /\ st_dec st' = sc_dec sc /\ st_sink st' = sc_sink sc
  | None => co_shed o = [] /\ co_quarantined o = []
  end.
Proof.
  cbv zeta. unfold cycleOneSource. destruct (ce_readFails e); [by intros [= _ <-]|].
  destruct (match st_cursor st with Some l => _ | None => _ end) as [[from read] seed]. cbn [st_window st_cursor st_tracker st_stalls st_dec st_sink].
  destruct (resolveTip src e from _) as [tip|]; [|by intros [= _ <-]]. destruct (tip <? from); [by intros [= _ <-]|].
  set (to := if st_window st <? tip - from then from + st_window st else tip).
  destruct (ce_stream e from to (PrefilterContractIDs src e)) as [rows err] eqn:Er.
  destruct err as [err|]; [intros [= <- <-]; cbn; by rewrite Er|].
  set (sc := foldl _ _ rows). set (st1 := mkSt d (st_cursor st) (st_window st) (st_tracker st) (st_stalls st) (st_dec st) (st_sink st) seed).
  pose proof (finish_ends e st1 read from to (PrefilterContractIDs src e) sc) as HE. intros E. rewrite E in HE.
  destruct HE as (-> & -> & -> & -> & ->). rewrite Er. done.
Qed.

Lemma log_of_cycle e st st' o sc : cycleOneSource d sink src e st = (st', o) -> co_scan o = Some sc ->
  let rows := (ce_stream e (co_from o) (co_to o) (PrefilterContractIDs src e)).1 in
  let sc0 := start_scan d (st_dec st) (st_sink st) (st_tracker st) in
  foldl (scan_row d sink) sc0 rows = sc /\ forall log, log_of sc0 rows log -> cycle_log (e, st) log.
Proof.
  intros E Esc. pose proof (cycle_scanned e st st' o E) as HC. rewrite Esc in HC. destruct HC as (-> & E1 & E2). split; [done|].
  intros log HL. unfold cycle_log. rewrite E, E1, E2. apply (lo_read _ _ _ HL).
Qed.

Definition fresh (cursor : option Z) (w : W) : src_state := mkSt d cursor BatchLimit ∅ 0%nat (dec_init d) w None.

(** Cycles, rewinds by an operator and restarts of the process, in any order;
    the list remembers the cycles. *)
Inductive run : src_state -> list (cycle_env * src_state) -> Prop :=
| run_start w : run (fresh None w) []
| run_cycle e st tr : run st tr -> lawful e -> run (cycleOneSource d sink src e st).1 ((e, st) :: tr)
| run_rewind l l' st tr : run st tr -> RewindCursor (st_cursor st) l = Some (l, l') -> 0 <= l ->
    run (mkSt d (Some l) (st_window st) (st_tracker st) (st_stalls st) (st_dec st) (st_sink st) (st_seed st)) tr
| run_restart st tr : run st tr -> run (fresh (st_cursor st) (st_sink st)) tr.

Definition seed_ok (seed : option Z) : Prop := forall s, seed = Some s -> 0 <= s /\ forall ev, ev ∈ wanted -> s <= ev_Ledger ev.

Definition window_ok (w : Z) : Prop := MinBatchLimit <= w <= BatchLimit.

Definition projected (st : src_state) (tr : list (cycle_env * src_state)) : Prop :=
  (forall c, st_cursor st = Some c -> 0 <= c <= MaxUint32
     /\ forall ev, ev ∈ wanted -> ev_Ledger ev <= c -> exists k, k ∈ tr /\ done_in k (rowIdentity_of ev))
  /\ seed_ok (st_seed st) /\ window_ok (st_window st).

Lemma findSeed_ok e s settled : genesis_ok -> lawful e -> findSeed src e = Some (s, settled) -> 0 <= s /\ forall ev, ev ∈ wanted -> s <= ev_Ledger ev.
Proof.
  intros [HG0 HG] HL. unfold findSeed. destruct (freshSourceStart src e) as [floor|] eqn:Ef; [|done].
  assert (Hfl : 0 <= floor /\ forall ev, ev ∈ wanted -> floor <= ev_Ledger ev).
  { unfold freshSourceStart in Ef. destruct (negb (src_Lake src)); [injection Ef as <-; split; [done|intros ev He; by apply HG]|].
    destruct (ce_lakeMin e) as [m|] eqn:Em; [|done]. injection Ef as <-. split; [lia|]. intros ev He. pose proof (law_lakeMin e HL m Em ev He).
    destruct (HG ev He). lia. }
  destruct (resolveTip src e floor MaxUint32) as [tip|] eqn:Et; [|done]. destruct (Z.ltb_spec tip floor); [by intros [= <- _]|].
  destruct (ce_first e floor tip (src_ContractIDs src)) as [r|] eqn:Er; [|done]. pose proof (law_first e HL floor tip r Et Er) as HF.
  destruct Hfl as [Hfl0 Hfl]. destruct r as [l|]; intros [= <- _].
  - destruct HF as [Hr HF]. split; [lia|]. intros ev He. destruct (Z.le_gt_cases (ev_Ledger ev) tip) as [Hle|]; [|lia].
    apply HF; [done|]. specialize (Hfl ev He). lia.
  - split; [lia|]. intros ev He. specialize (HF ev He). specialize (Hfl ev He). lia.
Qed.

Lemma seedFromLedger_ok e seed : genesis_ok -> lawful e -> seed_ok seed ->
  let '(s, seed') := seedFromLedger src e seed in 0 <= s /\ (forall ev, ev ∈ wanted -> s <= ev_Ledger ev) /\ seed_ok seed'.
Proof.
  intros HG HL HS. unfold seedFromLedger. destruct seed as [s|]; [destruct (HS s eq_refl); done|].
  destruct (findSeed src e) as [[s settled]|] eqn:E.
  - destruct (findSeed_ok e s settled HG HL E) as [H1 H2]. split; [done|]. split; [done|]. destruct settled; [|done].
    intros x [= <-]. done.
  - destruct HG as [_ HG]. split; [done|]. assert (forall ev, ev ∈ wanted -> 0 <= ev_Ledger ev) by (intros ev He; destruct (HG ev He); lia).
    split; [done|]. by intros x [= <-].
Qed.

Lemma shrinkWindow_ok w b : window_ok w -> window_ok (shrinkWindow w b).1.
Proof.
  unfold window_ok, shrinkWindow, MinBatchLimit, BatchLimit. intros Hw. destruct (_ || _) eqn:E; [done|]. cbn.
  apply orb_false_iff in E as [_ E%Z.leb_gt]. split; [lia|]. apply Z.max_lub; [|lia]. apply Z.div_le_upper_bound; lia.
Qed.

Lemma recoverWindow_ok w : window_ok w -> window_ok (recoverWindow w).
Proof. unfold window_ok, recoverWindow, MinBatchLimit, BatchLimit. intros Hw. destruct (Z.leb_spec 1000 w); lia. Qed.

Lemma finish_window e (st : src_state) read from to pf sc : window_ok (st_window st) -> window_ok (st_window (finish_cycle d src e st read from to pf sc).1).
Proof.
  intros Hw. unfold finish_cycle. destruct (negb _); [done|].
  destruct (shed_loop _ _ _ _ _) as [[t1 poisoned] shed]. destruct (quarantine _ _ _) as [[t2 held] quar].
  set (w := if ce_spent e && _ then _ else _).
  assert (Hw' : window_ok w) by (unfold w; destruct (ce_spent e && _); [by apply shrinkWindow_ok|done]). clearbody w.
  assert (Hr : window_ok (if ce_spent e then w else recoverWindow w)) by (destruct (ce_spent e); [done|by apply recoverWindow_ok]).
  destruct (lower_held _ _) as [l|]; [destruct (l <=? from); [done|]|]; destruct (commitCursor _ _ _ _) as [row [|]]; done.
Qed.

Lemma rewound_projected (st st' : src_state) tr e : projected st tr -> rewound (st_cursor st) (st_cursor st') ->
  forall c, st_cursor st' = Some c -> 0 <= c <= MaxUint32
     /\ forall ev, ev ∈ wanted -> ev_Ledger ev <= c -> exists k, k ∈ e :: tr /\ done_in k (rowIdentity_of ev).
Proof.
  intros (HP & _) HR c Ec. destruct HR as [E|(l & l' & E & E' & Hl)].
  - rewrite E in Ec. destruct (HP c Ec) as [H1 H2]. split; [done|]. intros ev He Hle. destruct (H2 ev He Hle) as (k & Hk & HD). exists k. split; [by right|done].
  - destruct (HP l E) as [H1 H2]. assert (c = l') as -> by congruence. split; [lia|].
    intros ev He Hle. destruct (H2 ev He ltac:(lia)) as (k & Hk & HD). exists k. split; [by right|done].
Qed.

Lemma cycle_projected e st tr : genesis_ok -> lawful e -> projected st tr -> projected (cycleOneSource d sink src e st).1 ((e, st) :: tr).
Proof.
  intros HG HL HP. pose proof HP as (HC & HS & HWin).
  assert (Hsame : forall st' : src_state, st_cursor st' = st_cursor st -> seed_ok (st_seed st') -> window_ok (st_window st') -> projected st' ((e, st) :: tr)).
  { intros st' E Hs Hw. split; [|done]. apply (rewound_projected st); [done|by left]. }
  destruct (cycleOneSource d sink src e st) as [st' o] eqn:E. cbn [fst]. pose proof E as Ecycle. unfold cycleOneSource in E.
  destruct (ce_readFails e); [injection E as <- <-; by apply Hsame|].
  set (start := match st_cursor st with Some l => _ | None => _ end) in E.
  assert (Hstart : let '(from, read, seed) := start in seed_ok seed /\ (0 <= from)
    /\ match st_cursor st with
       | Some l => from = (l + 1) mod 2 ^ 32 /\ read = mkRead true l
       | None => Exists read = false /\ forall ev, ev ∈ wanted -> from <= ev_Ledger ev
       end).
  { unfold start. destruct (st_cursor st) as [l|]; [split; [done|]; split; [apply Z.mod_pos_bound; lia|done]|].
    pose proof (seedFromLedger_ok e (st_seed st) HG HL HS) as HX. destruct (seedFromLedger src e (st_seed st)) as [s seed]. destruct HX as (H1 & H2 & H3). done. }
  destruct start as [[from read] seed]. destruct Hstart as (Hseed & Hfrom & Hst).
  destruct (resolveTip src e from _) as [tip|] eqn:Et; [|injection E as <- <-; by apply Hsame]. cbn [st_window st_cursor] in E, Et.
  destruct (Z.ltb_spec tip from) as [|Htip]; [injection E as <- <-; by apply Hsame|].
  set (to := if st_window st <? tip - from then from + st_window st else tip) in E.
  assert (Hto : from <= to <= tip) by (unfold to; destruct (Z.ltb_spec (st_window st) (tip - from)); unfold window_ok, MinBatchLimit in HWin; lia).
  destruct (ce_stream e from to (PrefilterContractIDs src e)) as [rows err] eqn:Er.
  set (sc := foldl _ _ rows) in E. destruct err as [err|]; [injection E as <- <-; apply Hsame; [done..|by apply shrinkWindow_ok]|].
  set (st1 := mkSt d (st_cursor st) (st_window st) (st_tracker st) (st_stalls st) (st_dec st) (st_sink st) seed) in E.
  destruct (law_stream e HL from _ tip to rows Et Hto Er) as [Hall Hrange].
  destruct (scan_log rows (start_scan d (st_dec st) (st_sink st) (st_tracker st))) as (log & Hlog).
  pose proof (finish_spec (fine_in log) e st1 read from to _ sc st' o rows E ltac:(lia) (law_rewind e HL)) as HF.
  destruct HF as [Eseed HF].
  { by apply (log_accounts _ _ _ Hlog). }
  { intros h Hh. destruct (scan_held_rows rows (start_scan d (st_dec st) (st_sink st) (st_tracker st)) eq_refl eq_refl h Hh) as (ev & Hin & _ & Hle).
    specialize (Hrange ev Hin). lia. }
  assert (Hwin : window_ok (st_window st')) by (replace st' with (finish_cycle d src e st1 read from to (PrefilterContractIDs src e) sc).1 by (by rewrite E); by apply finish_window).
  split; [|split; [by rewrite Eseed|done]].
  destruct (co_outcome o) as [| | | | | | |c] eqn:Eo; try (by apply (rewound_projected st)).
  destruct HF as ((Efr & Eto & Esc) & Hc & Ec & Hlast & Hpf & Hdone). intros c' Ec'. assert (c' = c) as -> by congruence.
  split; [pose proof (law_tip e HL _ _ _ Et); lia|]. intros ev He Hle.
  assert (HN : from <= ev_Ledger ev -> exists k, k ∈ (e, st) :: tr /\ done_in k (rowIdentity_of ev)).
  { intros Hge. exists (e, st). split; [by left|]. exists log. cbn [fst snd].
    assert (RowEvent ev ∈ rows) as Hin by (apply Hall; [done|done|lia]). destruct (log_of_cycle e st st' o sc Ecycle Esc) as [_ HLC].
    rewrite Efr, Eto, Er, Ecycle in *. split; [by apply HLC|].
    destruct (Hdone ev Hin Hle) as [(en & Hen & Ei & Hf)|Hg]; [exists en; auto|].
    destruct (lo_all _ _ _ Hlog ev Hin) as [?|(en & Hen & Ei)]; [done|]. exists en. auto. }
  destruct (st_cursor st) as [l|] eqn:El; [|destruct Hst as [_ Hst]; by apply HN, Hst].
  destruct Hst as [-> ->]. specialize (Hlast eq_refl). cbn in Hlast. destruct (HC l eq_refl) as [Hl HCl].
  pose proof (law_tip e HL _ _ _ Et) as Ht. assert (Hm : (l + 1) mod 2 ^ 32 = l + 1) by (apply Z.mod_small; unfold MaxUint32 in *; lia).
  destruct (Z.le_gt_cases (ev_Ledger ev) l) as [Hel|Hel]; [|apply HN; rewrite Hm; lia].
  destruct (HCl ev He Hel) as (k & Hk & HD). exists k. split; [by right|done].
Qed.

Lemma run_projected st tr : genesis_ok -> run st tr -> projected st tr.
Proof.
  intros HG. induction 1 as [w|e st tr _ IH HL|l l' st tr _ IH HR Hl|st tr _ IH].
  - split; [done|]. split; [done|]. unfold window_ok. cbn. unfold MinBatchLimit, BatchLimit. lia.
  - by apply cycle_projected.
  - destruct IH as (HC & HS & HW). split; [|done]. cbn. intros c [= <-].
    unfold RewindCursor in HR. destruct (st_cursor st) as [x|]; [|done]. destruct (Z.ltb_spec l x); [|done].
    destruct (HC x eq_refl) as [Hx HD]. split; [lia|]. intros ev He Hle. apply HD; [done|lia].
  - destruct IH as (HC & _ & _). split; [done|]. split; [done|]. unfold window_ok. cbn. unfold MinBatchLimit, BatchLimit. lia.
Qed.
End Laws.

(** ** Giving up takes its time *)

Section Budget.
Context `{EventPayload} (d : Decoder) {W : Type} (sink : W -> Output -> W * option goerr) (src : source) (wanted : list Event).

(** The identities read, a repeated part once. *)
Definition read_step (ids : list rowIdentity) (r : stream_row) : list rowIdentity :=
  match r with
  | RowEvent ev => if bool_decide (last ids = Some (rowIdentity_of ev)) then ids else ids ++ [rowIdentity_of ev]
  | RowMalformed _ => ids
  end.
Definition read_ids (rows : list stream_row) : list rowIdentity := foldl read_step [] rows.

(** Parts of one row arrive one after the other. *)
Definition parts_adjacent (e : cycle_env) : Prop := forall from to pf, NoDup (read_ids (ce_stream e from to pf).1).

Definition failed_in (k : cycle_env * @src_state _ d W) (id : rowIdentity) : bool :=
  match co_scan (cycleOneSource d sink src k.1 k.2).2 with
  | Some sc => bool_decide (id ∈ sc_failed sc)
  | None => false
  end.

(** The cycles that read the row and failed on it. *)
Definition failures (tr : list (cycle_env * @src_state _ d W)) (id : rowIdentity) : Z :=
  Z.of_nat (length (List.filter (fun k => failed_in k id) tr)).

(** What a scan has charged. *)
Definition charged (t0 : poisonTracker) (sc : @scan _ d W) : Prop :=
  (forall id, default 0 (sc_tracker sc !! id) = default 0 (t0 !! id) + (if bool_decide (id ∈ sc_failed sc) then 1 else 0))
  /\ forall h, h ∈ sc_held sc \/ h ∈ sc_poisoned sc -> h_id h ∈ sc_failed sc /\ fails h = default 0 (t0 !! h_id h) + 1.

Lemma NoDup_read_prefix rows r : NoDup (read_ids (rows ++ [r])) -> NoDup (read_ids rows).
Proof.
  unfold read_ids. rewrite foldl_snoc. destruct r as [ev|l]; cbn [read_step]; [|done]. destruct (bool_decide _); [done|].
  by intros [? _]%NoDup_app.
Qed.

Lemma scan_charged s w t0 rows : NoDup (read_ids rows) ->
  let sc := foldl (scan_row d sink) (start_scan d s w t0) rows in
  charged t0 sc /\ sc_last sc = last (read_ids rows) /\ forall id, id ∈ sc_failed sc -> id ∈ read_ids rows.
Proof.
  induction rows as [|r rows IH] using rev_ind; intros HN; cbn zeta.
  { cbn [foldl]. unfold charged, start_scan. cbn [sc_tracker sc_failed sc_held sc_poisoned sc_last].
    split; [split; [intros id; rewrite bool_decide_false by set_solver; lia|by intros h [?%elem_of_nil|?%elem_of_nil]]|].
    split; [done|set_solver]. }
  specialize (IH (NoDup_read_prefix _ _ HN)). cbn zeta in IH. unfold read_ids in *. rewrite !foldl_snoc in *.
  set (ids := foldl read_step [] rows) in *. set (sc := foldl (scan_row d sink) _ rows) in *. clearbody ids sc.
  destruct IH as ((HT & HH) & HL & HF). destruct r as [ev|l]; cbn [scan_row read_step] in *; [|done].
  unfold process. rewrite HL in *. destruct (bool_decide (last ids = Some (rowIdentity_of ev))) eqn:Eb; [done|].
  apply NoDup_app in HN as (_ & HN & _). set (id := rowIdentity_of ev) in *.
  assert (Hid : id ∉ sc_failed sc) by (intros Hin; apply (HN id (HF id Hin)); by left).
  destruct (processEventSafely _ _ _ _ _) as [[s' w'] r]. rewrite last_snoc.
  destruct (rr_decodeFail r); [cbn; split; [done|]; split; [done|set_solver]|].
  assert (HC : forall drops held poisoned, (forall h, h ∈ held \/ h ∈ poisoned -> (h ∈ sc_held sc \/ h ∈ sc_poisoned sc) \/ (h_id h = id /\ fails h = default 0 (sc_tracker sc !! id) + 1)) ->
    let sc' := mkScan d (Some id) s' w' (<[id := default 0 (sc_tracker sc !! id) + 1]> (sc_tracker sc)) ({[id]} ∪ sc_failed sc) (sc_emitted sc + rr_emitted r) (sc_decodeErrors sc)
      (sc_reconstructErrors sc) (sc_permanent sc + count_drops drops) (sc_i128 sc + count_i128 drops) held poisoned in
    charged t0 sc' /\ sc_last sc' = Some id /\ forall i, i ∈ sc_failed sc' -> i ∈ ids ++ [id]).
  { intros drops held poisoned Hnew. cbn [sc_last sc_failed]. split; [|split; [done|set_solver]].
    assert (Ht : default 0 (sc_tracker sc !! id) = default 0 (t0 !! id)) by (rewrite HT, bool_decide_false by done; lia).
    split; cbn [sc_tracker sc_failed sc_held sc_poisoned].
    - intros i. destruct (decide (i = id)) as [->|Hi].
      + rewrite lookup_insert_eq, bool_decide_true by set_solver. rewrite <- Ht. reflexivity.
      + rewrite lookup_insert_ne, HT by done. replace (bool_decide (i ∈ {[id]} ∪ sc_failed sc)) with (bool_decide (i ∈ sc_failed sc)); [done|].
        apply bool_decide_ext. set_solver.
    - intros h Hh. destruct (Hnew h Hh) as [Ho|[-> ->]]; [destruct (HH h Ho) as [? ->]; split; [set_solver|done]|].
      split; [set_solver|]. lia. }
  destruct (dropped (rr_faults r)) as [|x xs], (f_held (rr_faults r)) as [e|]; unfold tr_fail; [|by cbn; split; [done|]; split; [done|set_solver]|..];
    apply HC; intros h; rewrite elem_of_app, list_elem_of_singleton; naive_solver.
Qed.

(** ** Over a run *)

Lemma retain_le t seen (id : rowIdentity) : default 0 (retain t seen !! id) = 0 \/ retain t seen !! id = t !! id.
Proof.
  unfold retain. destruct (t !! id) as [n|] eqn:E.
  - destruct (decide (id ∈ seen)) as [Hin|Hin]; [right; by apply map_lookup_filter_Some|left].
    replace (filter _ t !! id) with (None : option Z); [done|]. symmetry. apply map_lookup_filter_None. right. intros n' E' HX. by apply Hin.
  - right. apply map_lookup_filter_None. by left.
Qed.

Lemma forget_le (t : poisonTracker) x (id : rowIdentity) : default 0 (forget t x !! id) = 0 \/ forget t x !! id = t !! id.
Proof. unfold forget. destruct (decide (x = id)) as [->|Hx]; [left; by rewrite lookup_delete_eq|right; by rewrite lookup_delete_ne]. Qed.

(** Counts only fall after the scan. *)
Definition below (t t' : poisonTracker) : Prop := forall id, 0 <= default 0 (t !! id) -> 0 <= default 0 (t' !! id) <= default 0 (t !! id).

Lemma below_of (t t' : poisonTracker) : (forall id : rowIdentity, default 0 (t' !! id) = 0 \/ t' !! id = t !! id) -> below t t'.
Proof. intros HX id H0. destruct (HX id) as [->| ->]; lia. Qed.

Lemma shed_loop_below n p t poisoned shed : below t (shed_loop n p t poisoned shed).1.1.
Proof.
  revert t poisoned shed. induction n as [|n IH]; intros t poisoned shed; cbn [shed_loop]; [intros id H0; cbn; lia|].
  destruct (permanentSkipCandidate poisoned p) as [i|]; [|intros id H0; cbn; lia]. destruct (poisoned !! i) as [x|]; [|intros id H0; cbn; lia].
  intros id H0. pose proof (below_of t (forget t (h_id x)) (forget_le t (h_id x)) id H0) as H1.
  pose proof (IH (forget t (h_id x)) (delete i poisoned) (shed ++ [x]) id ltac:(lia)). lia.
Qed.

Lemma quarantine_below p t held : below t (quarantine p t held).1.1.
Proof.
  unfold quarantine. destruct (quarantineCandidate held p) as [i|]; [|intros id H0; cbn; lia].
  destruct (held !! i) as [x|]; [|intros id H0; cbn; lia]. apply below_of, forget_le.
Qed.

Lemma finish_tracker e st read from to pf (sc : @scan _ d W) : below (sc_tracker sc) (st_tracker (finish_cycle d src e st read from to pf sc).1)
  /\ co_scan (finish_cycle d src e st read from to pf sc).2 = Some sc.
Proof.
  pose proof (below_of _ _ (retain_le (sc_tracker sc) (sc_failed sc))) as HR. unfold finish_cycle. destruct (negb _); [done|].
  pose proof (shed_loop_below PermanentSkipPerCycle (0 <? sc_emitted sc) (retain (sc_tracker sc) (sc_failed sc)) (sc_poisoned sc) []) as HS.
  destruct (shed_loop _ _ _ _ _) as [[t1 poisoned] shed]. cbn [fst] in HS.
  pose proof (quarantine_below (0 <? sc_emitted sc) t1 (sc_held sc)) as HQ. destruct (quarantine _ _ _) as [[t2 held] quar]. cbn [fst] in HQ.
  assert (HB : below (sc_tracker sc) t2).
  { intros id H0. pose proof (HR id H0) as H1. pose proof (HS id ltac:(lia)) as H2. pose proof (HQ id ltac:(lia)). lia. }
  destruct (lower_held _ _) as [l|]; [destruct (l <=? from); [done|]|]; destruct (commitCursor _ _ _ _) as [row [|]]; done.
Qed.

(** A cycle charges what it fails on once. *)
Lemma cycle_tracker e (st : @src_state _ d W) id : parts_adjacent e -> 0 <= default 0 (st_tracker st !! id) ->
  0 <= default 0 (st_tracker (cycleOneSource d sink src e st).1 !! id)
    <= default 0 (st_tracker st !! id) + (if failed_in (e, st) id then 1 else 0).
Proof.
  intros HA H0. unfold failed_in. cbn [fst snd].
  assert (Hq : forall b : bool, 0 <= default 0 (st_tracker st !! id) <= default 0 (st_tracker st !! id) + (if b then 1 else 0)) by (intros []; lia).
  unfold cycleOneSource. destruct (ce_readFails e); [apply (Hq false)|].
  destruct (match st_cursor st with Some l => _ | None => _ end) as [[from read] seed]. cbn [st_window st_cursor st_tracker st_stalls st_dec st_sink].
  destruct (resolveTip src e from _) as [tip|]; [|apply (Hq false)]. destruct (tip <? from); [apply (Hq false)|].
  set (to := if st_window st <? tip - from then from + st_window st else tip). pose proof (HA from to (PrefilterContractIDs src e)) as HN.
  destruct (ce_stream e from to (PrefilterContractIDs src e)) as [rows err]. cbn [fst] in HN.
  destruct (scan_charged (st_dec st) (st_sink st) (st_tracker st) rows HN) as ((HT & _) & _ & _).
  set (sc := foldl _ _ rows) in *. specialize (HT id). destruct err as [err|]; [cbn; rewrite HT; destruct (bool_decide _); lia|].
  destruct (finish_tracker e (mkSt d (st_cursor st) (st_window st) (st_tracker st) (st_stalls st) (st_dec st) (st_sink st) seed) read from to
    (PrefilterContractIDs src e) sc) as [HB ->].
  specialize (HB id ltac:(rewrite HT; destruct (bool_decide _); lia)). rewrite HT in HB. exact HB.
Qed.

Lemma failures_cons k tr id : failures (k :: tr) id = failures tr id + (if failed_in k id then 1 else 0).
Proof. unfold failures. cbn [List.filter]. destruct (failed_in k id); cbn [length]; lia. Qed.

Lemma failures_nonneg tr id : 0 <= failures tr id.
Proof. unfold failures. lia. Qed.

Lemma fresh_tracker cursor (w : W) tr id : 0 <= default 0 (st_tracker (fresh d cursor w) !! id) <= failures tr id.
Proof. unfold fresh. cbn [st_tracker]. rewrite lookup_empty. cbn [default]. pose proof (failures_nonneg tr id). simpl. lia. Qed.

Lemma run_tracker st tr id : run d sink src wanted st tr -> (forall k, k ∈ tr -> parts_adjacent k.1) ->
  0 <= default 0 (st_tracker st !! id) <= failures tr id.
Proof.
  induction 1 as [w|e st tr _ IH HL|l l' st tr _ IH HR Hl|st tr _ IH]; intros HA.
  - by apply fresh_tracker.
  - specialize (IH ltac:(intros; apply HA; by right)). rewrite failures_cons.
    pose proof (cycle_tracker e st id (HA (e, st) ltac:(by left)) ltac:(lia)). lia.
  - by apply IH.
  - by apply fresh_tracker.
Qed.

(** What a cycle gives up was held or poisoned, and its budget is spent. *)
Lemma shed_loop_given n p t poisoned shed t' poisoned' shed' : shed_loop n p t poisoned shed = (t', poisoned', shed') ->
  (length shed' <= n + length shed)%nat
  /\ forall h, h ∈ shed' -> h ∈ shed \/ h ∈ poisoned /\ disposition h = dispositionSkip /\ (if p then 1 else QuarantineAfterCyclesNoProgress) <= fails h.
Proof.
  revert t poisoned shed. induction n as [|n IH]; intros t poisoned shed; cbn [shed_loop]; [intros [= _ _ <-]; split; [lia|auto]|].
  destruct (permanentSkipCandidate poisoned p) as [i|] eqn:Ei; [|intros [= _ _ <-]; split; [lia|auto]].
  apply shedCandidate_spec in Ei as (r & Er & Hd & Hf). rewrite Er. intros E. apply IH in E as [HL HS]. split; [rewrite length_app in HL; simpl in HL; lia|].
  intros h Hh. destruct (HS h Hh) as [[Ho|Hr%list_elem_of_singleton]%elem_of_app|(Hp & HX)].
  - by left.
  - right. subst h. split; [by eapply list_elem_of_lookup_2|done].
  - right. split; [|done]. eapply elem_of_sublist; [exact Hp|apply sublist_delete].
Qed.

Lemma quarantine_given p t held t' held' q : quarantine p t held = (t', held', q) ->
  (length q <= 1)%nat /\ forall h, h ∈ q -> h ∈ held /\ disposition h = dispositionUnclassified
    /\ (if p then QuarantineAfterCycles else QuarantineAfterCyclesNoProgress) <= fails h.
Proof.
  unfold quarantine. destruct (quarantineCandidate held p) as [i|] eqn:Ei; [|intros [= _ _ <-]; split; [simpl; lia|by intros h ?%elem_of_nil]].
  apply shedCandidate_spec in Ei as (r & Er & Hd & Hf). rewrite Er. intros [= _ _ <-]. split; [simpl; lia|].
  intros h Hh%list_elem_of_singleton. subst h. split; [by eapply list_elem_of_lookup_2|done].
Qed.

Lemma finish_given e st read from to pf (sc : @scan _ d W) : 
  let o := (finish_cycle d src e st read from to pf sc).2 in
  let p := 0 <? sc_emitted sc in
  (length (co_shed o) <= 1)%nat /\ (length (co_quarantined o) <= 1)%nat
  /\ (forall h, h ∈ co_shed o -> h ∈ sc_poisoned sc /\ disposition h = dispositionSkip /\ (if p then 1 else QuarantineAfterCyclesNoProgress) <= fails h)
  /\ (forall h, h ∈ co_quarantined o -> h ∈ sc_held sc /\ disposition h = dispositionUnclassified
         /\ (if p then QuarantineAfterCycles else QuarantineAfterCyclesNoProgress) <= fails h).
Proof.
  cbn zeta. unfold finish_cycle. destruct (negb _); [cbn; split_and!; try lia; by intros h ?%elem_of_nil|].
  destruct (shed_loop _ _ _ _ _) as [[t1 poisoned] shed] eqn:Es. destruct (quarantine _ _ _) as [[t2 held] quar] eqn:Eq.
  apply shed_loop_given in Es as [HS1 HS2]. apply quarantine_given in Eq as [HQ1 HQ2].
  assert (HG : (length shed <= 1)%nat /\ (length quar <= 1)%nat
    /\ (forall h, h ∈ shed -> h ∈ sc_poisoned sc /\ disposition h = dispositionSkip /\ (if 0 <? sc_emitted sc then 1 else QuarantineAfterCyclesNoProgress) <= fails h)
    /\ (forall h, h ∈ quar -> h ∈ sc_held sc /\ disposition h = dispositionUnclassified
         /\ (if 0 <? sc_emitted sc then QuarantineAfterCycles else QuarantineAfterCyclesNoProgress) <= fails h)).
  { split; [exact HS1|]. split; [done|]. split; [|done]. intros h Hh. destruct (HS2 h Hh) as [?%elem_of_nil|?]; done. }
  destruct (lower_held _ _) as [l|]; [destruct (l <=? from); [done|]|]; destruct (commitCursor _ _ _ _) as [row [|]]; done.
Qed.

Lemma cycle_given e (st : @src_state _ d W) o sc : parts_adjacent e -> (cycleOneSource d sink src e st).2 = o -> co_scan o = Some sc ->
  let p := 0 <? sc_emitted sc in
  (length (co_shed o) <= 1)%nat /\ (length (co_quarantined o) <= 1)%nat
  /\ (forall h, h ∈ co_shed o -> h_id h ∈ sc_failed sc /\ fails h = default 0 (st_tracker st !! h_id h) + 1
        /\ disposition h = dispositionSkip /\ (if p then 1 else QuarantineAfterCyclesNoProgress) <= fails h)
  /\ (forall h, h ∈ co_quarantined o -> h_id h ∈ sc_failed sc /\ fails h = default 0 (st_tracker st !! h_id h) + 1
        /\ disposition h = dispositionUnclassified /\ (if p then QuarantineAfterCycles else QuarantineAfterCyclesNoProgress) <= fails h).
Proof.
  intros HA Eo Esc. cbn zeta. unfold cycleOneSource in Eo. destruct (ce_readFails e); [by subst o|].
  destruct (match st_cursor st with Some l => _ | None => _ end) as [[from read] seed]. cbn [st_window st_cursor st_tracker st_stalls st_dec st_sink] in Eo.
  destruct (resolveTip src e from _) as [tip|]; [|by subst o]. destruct (tip <? from); [by subst o|].
  set (to := if st_window st <? tip - from then from + st_window st else tip) in Eo. pose proof (HA from to (PrefilterContractIDs src e)) as HN.
  destruct (ce_stream e from to (PrefilterContractIDs src e)) as [rows err]. cbn [fst] in HN.
  destruct (scan_charged (st_dec st) (st_sink st) (st_tracker st) rows HN) as ((_ & HH) & _ & _).
  set (sc0 := foldl _ _ rows) in *. destruct err as [err|]; [subst o; cbn; split_and!; try lia; by intros h ?%elem_of_nil|].
  set (st1 := mkSt d (st_cursor st) (st_window st) (st_tracker st) (st_stalls st) (st_dec st) (st_sink st) seed) in Eo.
  destruct (finish_tracker e st1 read from to (PrefilterContractIDs src e) sc0) as [_ HS].
  destruct (finish_given e st1 read from to (PrefilterContractIDs src e) sc0) as (H1 & H2 & H3 & H4). rewrite Eo in *.
  assert (sc0 = sc) as <- by congruence. split; [done|]. split; [done|]. split; intros h Hh.
  - destruct (H3 h Hh) as (Hp & Hd & Hb). destruct (HH h) as [? ?]; [by right|done].
  - destruct (H4 h Hh) as (Hp & Hd & Hb). destruct (HH h) as [? ?]; [by left|done].
Qed.
End Budget.

(** C5: no row is lost behind the cursor. After any run of cycles,
    operator rewinds and process restarts, whatever the faults of the store,
    the stream, the decoder and the sink, and though the contract gate may
    grow while a window is read, every wanted event at or below a
    source's cursor was read in some cycle that either wrote every output of
    it (or could not decode it) or gave it up by name, as a shed or a
    quarantined row. *)
Theorem projector_no_loss `{EventPayload} (d : Decoder) {W} (sink : W -> Output -> W * option goerr) src wanted st tr c :
  genesis_ok src wanted -> run d sink src wanted st tr -> st_cursor st = Some c ->
  forall ev, ev ∈ wanted -> ev_Ledger ev <= c -> exists k, k ∈ tr /\ done_in d sink src k (rowIdentity_of ev).
Proof. intros HG HR Ec. by apply (run_projected d sink src wanted st tr HG HR). Qed.


(** ** What is written and what is re-derived *)

Section Written.
Context `{EventPayload} (d : Decoder).

(** A sink that takes everything. *)
Definition take_all (w : list Output) (out : Output) : list Output * option goerr := (w ++ [out], None).

Definition kind_sum (m : Counts) (k : string) : Z := msum (fun c => c) (default ∅ (m !! k)).
Definition written (k : string) (w : list Output) : Z := Z.of_nat (countb (fun o => String.eqb (out_Kind o) k) w).

Lemma kind_sum_empty k : kind_sum ∅ k = 0.
Proof. unfold kind_sum. by rewrite lookup_empty. Qed.

Lemma kind_sum_count_output m l o k : kind_sum (count_output m l o) k = kind_sum m k + (if String.eqb (out_Kind o) k then 1 else 0).
Proof.
  unfold kind_sum, count_output. cbv zeta. destruct (String.eqb_spec (out_Kind o) k) as [<-|Hk].
  - rewrite lookup_insert_eq. set (mk := default ∅ (m !! out_Kind o)).
    change (msum (fun c => c) (<[countLedger o l := default 0 (mk !! countLedger o l) + 1]> mk) = msum (fun c => c) mk + 1).
    rewrite msum_insert. destruct (mk !! countLedger o l); simpl; lia.
  - rewrite lookup_insert_ne by done. lia.
Qed.

Lemma kind_sum_outputs outs m l k : kind_sum (foldl (fun m out => count_output m l out) m outs) k = kind_sum m k + written k outs.
Proof.
  revert m. induction outs as [|o outs IH]; intros m; [unfold written; cbn [foldl countb]; lia|]. cbn [foldl]. rewrite IH, kind_sum_count_output. unfold written. cbn [countb].
  destruct (String.eqb (out_Kind o) k); lia.
Qed.

Lemma sink_outs_all w l outs n : sink_outs take_all w l outs n [] = (w ++ outs, n + Z.of_nat (length outs), mkFaults [] None 0).
Proof.
  revert w n. induction outs as [|o outs IH]; intros w n; cbn [sink_outs take_all]; [by rewrite app_nil_r, Z.add_0_r|].
  rewrite IH, <- app_assoc. cbn [length app]. f_equal. f_equal. lia.
Qed.

Lemma written_app k a b : written k (a ++ b) = written k a + written k b.
Proof. unfold written. rewrite countb_app. lia. Qed.

(** The scan and the re-derive go through the stream in step. *)
Definition in_step (w0 : list Output) (sc : @scan _ d (list Output)) (ds : derive_state d) : Prop :=
  sc_dec sc = ds_dec ds /\ (forall ev, sc_last sc = Some (rowIdentity_of ev) <-> ds_last ds = Some (ident ev))
  /\ sc_held sc = [] /\ sc_poisoned sc = [] /\ forall k, written k (sc_sink sc) = written k w0 + kind_sum (ds_byKind ds) k.

Lemma identity_iff ev ev' : Some (rowIdentity_of ev) = Some (rowIdentity_of ev') <-> Some (ident ev) = Some (ident ev').
Proof. unfold rowIdentity_of, ident. split; intros [= -> -> -> ->]; done. Qed.

Lemma step_in_step w0 sc ds ev : in_step w0 sc ds -> in_step w0 (process d take_all sc ev) (derive_step ds ev).
Proof.
  intros (HD & HL & HH & HP & HW). unfold process, derive_step.
  destruct (bool_decide (ds_last ds = Some (ident ev))) eqn:Eb.
  { apply bool_decide_eq_true, HL in Eb. by rewrite bool_decide_true. }
  apply bool_decide_eq_false in Eb. rewrite bool_decide_false by (by rewrite HL).
  unfold processEventSafely, DecodeRow, derive_event. rewrite HD. destruct (safeMatches d (ds_dec ds) ev) as [[[|]|] s].
  - destruct (safeDecode d s ev) as [[outs|] s'].
    + rewrite sink_outs_all. cbn [rr_decodeFail rr_faults dropped f_held]. unfold in_step.
      cbn [sc_dec sc_last sc_held sc_poisoned sc_sink ds_dec ds_last ds_byKind].
      split; [done|]. split; [intros; apply identity_iff|]. split; [done|]. split; [done|].
      intros k. rewrite written_app, HW, kind_sum_outputs. lia.
    + cbn. split; [done|]. split; [intros; apply identity_iff|]. done.
  - cbn. split; [done|]. split; [intros; apply identity_iff|]. done.
  - cbn. split; [done|]. split; [intros; apply identity_iff|]. done.
Qed.

Lemma scan_in_step w0 evs sc ds : in_step w0 sc ds ->
  in_step w0 (foldl (scan_row d take_all) sc (map RowEvent evs)) (foldl derive_step ds evs).
Proof. revert sc ds. induction evs as [|ev evs IH]; intros sc ds HS; [done|]. cbn [map foldl scan_row]. by apply IH, step_in_step. Qed.
End Written.


(** ** Examples *)

#[local] Instance flag_payload : EventPayload := {| payload := bool |}.

Definition event_ex (ledger : Z) (flag : bool) : @Event flag_payload := mkEvent ledger "aa" 0 0 flag.
Definition source_ex : source := mkSource [] false 0 false false.

(** A landing zone that holds a list of events, read up to a tip. *)
Definition in_range (from to : Z) (ev : Event) : bool := (from <=? ev_Ledger ev) && (ev_Ledger ev <=? to).
Definition env_ex (evs : list Event) (tip : Z) : cycle_env :=
  mkEnv false (Some (Some tip)) (fun _ _ => None) None false (fun _ _ _ => None)
    (fun from to _ => (map RowEvent (List.filter (in_range from to) evs), None)) [] [] false None false.

(** One output for each event; and a decoder that keeps an output of a
    flagged event until the next event. *)
Definition plain_decoder : Decoder :=
  mkDecoder unit tt (fun s _ => (Some true, s))
    (fun s (ev : @Event flag_payload) => (Some (Some [mkOutput (if (ev_Payload ev : bool) then "bad" else "ok") 0]), s)).
Definition buffered_decoder : Decoder :=
  mkDecoder (list Output) [] (fun s _ => (Some true, s))
    (fun s (ev : @Event flag_payload) => if (ev_Payload ev : bool) then (Some (Some []), s ++ [mkOutput "trade" (ev_Ledger ev)]) else (Some (Some s), [])).

(** Rejects an output of kind "bad" for good. *)
Definition picky (w : list Output) (out : Output) : list Output * option goerr :=
  if String.eqb (out_Kind out) "bad" then (w, Some (mkErr [PgError "23514"] "")) else (w ++ [out], None).

(** Is down for the first output that it is offered. *)
Definition down_once (w : bool * list Output) (out : Output) : (bool * list Output) * option goerr :=
  if w.1 then ((false, w.2), Some (mkErr [NetError] "")) else ((false, w.2 ++ [out]), None).

Lemma env_ex_lawful evs tip : 0 <= tip <= MaxUint32 -> lawful source_ex evs (env_ex evs tip).
Proof.
  intros Ht. split; try done.
  - intros from lim t [= <-]. done.
  - intros from lim t to rows _ _ [= <-]. unfold in_range. split.
    + intros _ ev He Hr. apply list_elem_of_In, in_map, filter_In. rewrite <- list_elem_of_In. split; [done|].
      apply andb_true_intro. split; apply Z.leb_le; lia.
    + intros ev He. apply list_elem_of_In, in_map_iff in He as (x & [= ->] & [_ Hf]%filter_In).
      apply andb_prop in Hf as [H1%Z.leb_le H2%Z.leb_le]. done.
Qed.

Definition events_ex : list Event := [event_ex 10 false; event_ex 11 true].

Lemma projector_no_loss_witness :
  exists (st : @src_state _ plain_decoder (list Output)) (tr : list (cycle_env * @src_state _ plain_decoder (list Output))),
    st_cursor st = Some 11 /\ exists k, k ∈ tr /\ done_in plain_decoder picky source_ex k (rowIdentity_of (event_ex 11 true)).
Proof.
  exists (cycleOneSource plain_decoder picky source_ex (env_ex events_ex 11) (fresh plain_decoder None [])).1,
    [(env_ex events_ex 11, fresh plain_decoder None [])].
  split; [|apply (projector_no_loss plain_decoder picky source_ex events_ex
    (cycleOneSource plain_decoder picky source_ex (env_ex events_ex 11) (fresh plain_decoder None [])).1 _ 11)].
  - vm_compute. reflexivity.
  - split; [done|]. intros ev He. repeat (apply elem_of_cons in He as [->|He]; [done|]). by apply elem_of_nil in He.
  - apply run_cycle; [apply run_start|apply env_ex_lawful]. done.
  - vm_compute. reflexivity.
  - right. by left.
  - done.
Defined.



(** An output that a decoder carries over from a ledger below the cursor is
    lost by one transient fault: the cycle holds the cursor where it is, not
    below the output's ledger, and the decoder does not emit it again. *)
Definition carried_ex : list Event := [event_ex 10 true; event_ex 11 false].

Definition carried_run (tips : list Z) (st : @src_state _ buffered_decoder (bool * list Output)) :=
  foldl (fun acc tip => let '(st, outs) := acc in
           let '(st, o) := cycleOneSource buffered_decoder down_once source_ex (env_ex carried_ex tip) st in (st, outs ++ [o])) (st, []) tips.

Theorem carried_output_lost :
  let '(st, outs) := carried_run [10; 11; 11] (fresh buffered_decoder None (true, [])) in
  st_cursor st = Some 11 /\ st_sink st = (false, [])
  /\ map co_outcome outs = [Committed 10; HeldBack; Committed 11]
  /\ Forall (fun o => co_shed o = [] /\ co_quarantined o = []) outs.
Proof. vm_compute. repeat split; repeat constructor. Qed.

(** A window of [BatchLimit] reads one ledger more. *)
Example batch_reads_one_more :
  let o := (cycleOneSource plain_decoder take_all source_ex (env_ex [] 5000) (fresh plain_decoder (Some 99) [])).2 in
  (co_from o, co_to o, co_to o - co_from o + 1) = (100, 1100, BatchLimit + 1).
Proof. vm_compute. reflexivity. Qed.
