(* ===== verification/ScVal.v ===== *)
(** * Contract values (internal/scval: scval.go, display.go, sac_balance.go)

    The wrapper around the SDK's XDR that every decoder reads contract events
    through: base64 parsing, typed accessors, lookup of map fields by name,
    the text form of contract-chosen bytes, the balance keys of token
    contracts and the rendering for the explorer.

    A value is the tagged union of the XDR specification; its marshalling and
    the SDK's address text are the interface class [Xdr], with the documented
    behaviour of the codec as laws. *)

From S2P Require Import Prelude GoLib Encoding Amount Asset.

(** ** Values *)

Inductive ScAddress :=
| AddrAccount (ed25519 : string)
| AddrContract (id : string)
| AddrMuxedAccount (ed25519 : string) (id : Z)
| AddrClaimableBalance (type : Z) (v0 : option string)
| AddrLiquidityPool (id : string)
| AddrMuxedContract (contract : string) (id : Z)
| AddrOther (type : Z).

#[local] Set Warnings "-register-all".

(** The zero value has the type Bool and no arm. *)
Inductive ScVal :=
| ScvBool (b : option bool)
| ScvVoid
| ScvU32 (n : Z) | ScvI32 (n : Z) | ScvU64 (n : Z) | ScvI64 (n : Z)
| ScvTimepoint (n : Z) | ScvDuration (n : Z)
| ScvU128 (hi lo : Z) | ScvI128 (hi lo : Z)
| ScvU256 (hiHi hiLo loHi loLo : Z) | ScvI256 (hiHi hiLo loHi loLo : Z)
| ScvBytes (b : string) | ScvString (s : string) | ScvSymbol (s : string)
| ScvVec (v : option (list ScVal))
| ScvMap (m : option (list (ScVal * ScVal)))
| ScvAddress (a : ScAddress)
| ScvOther (name : string).

Definition zero_ScVal : ScVal := ScvBool None.

(** What [errors.Is] finds; a package's own sentinel is known by its text. *)
Inductive errtag :=
| Canon (s : sentinel)
| ErrScValDecode | ErrScValType | ErrScValMissingKey | ErrUnknownBalanceValShape
| Named (text : string).

#[export] Instance errtag_eq_dec : EqDecision errtag.
Proof. solve_decision. Defined.

Abbreviation gerr := (list errtag).
Definition gerr_Is (e : gerr) (t : errtag) : bool := bool_decide (t ∈ e).

(** A canonical result with its sentinels carried over. *)
Definition canon {A} (r : res error A) : res gerr A :=
  match r with Ok a => Ok a | Err e => Err (map Canon e) end.

(** The SDK: [MarshalBinary], [xdr.SafeUnmarshal] into an [ScVal], and
    [ScAddress.String]. *)
Class Xdr := {
  xdr_MarshalBinary : ScVal -> option string;
  xdr_SafeUnmarshal : string -> option ScVal;
  xdr_AddressString : ScAddress -> option string
}.

(** Decoding inverts encoding; strings and symbols always encode; an encoding
    begins with its four-byte discriminant. *)
Class XdrLaws `{Xdr} := {
  xdr_roundtrip v b : xdr_MarshalBinary v = Some b -> xdr_SafeUnmarshal b = Some v;
  xdr_text s : is_Some (xdr_MarshalBinary (ScvString s)) /\ is_Some (xdr_MarshalBinary (ScvSymbol s));
  xdr_nonempty v b : xdr_MarshalBinary v = Some b -> b <> EmptyString
}.

Section Wire.
Context `{Xdr}.

Definition ParseBytes (raw : string) : res gerr ScVal :=
  match xdr_SafeUnmarshal raw with Some v => Ok v | None => Err [ErrScValDecode] end.

Definition UnmarshalBase64 (b64 : string) : option ScVal := raw ← base64_DecodeString b64; xdr_SafeUnmarshal raw.

Definition Parse (b64 : string) : res gerr ScVal :=
  match UnmarshalBase64 b64 with Some v => Ok v | None => Err [ErrScValDecode] end.

Definition encode (v : ScVal) : res gerr string :=
  match xdr_MarshalBinary v with Some b => Ok (base64_EncodeToString b) | None => Err [ErrScValDecode] end.

Definition EncodeString (s : string) : res gerr string := encode (ScvString s).

Definition symbol_char (c : ascii) : bool :=
  between 97 122 c || between 65 90 c || between 48 57 c || (byte_of c =? 95).

Definition EncodeSymbol (s : string) : res gerr string :=
  if (String.length s =? 0)%nat || (32 <? String.length s)%nat then Err []
  else if negb (str_forallb symbol_char s) then Err []
  else encode (ScvSymbol s).

(** A failure panics when the package is initialised, so no code runs with
    the empty text. *)
Definition MustEncodeString (s : string) : string := match EncodeString s with Ok b => b | Err _ => EmptyString end.
Definition MustEncodeSymbol (s : string) : string := match EncodeSymbol s with Ok b => b | Err _ => EmptyString end.

Fixpoint parse_args (args : list string) : res gerr (list ScVal) :=
  match args with
  | [] => Ok []
  | a :: args => v ← Parse a; vs ← parse_args args; Ok (v :: vs)
  end.

(** [None] is the nil slice, SQL NULL. *)
Definition EncodeArgsAsScVec (b64Args : list string) : res gerr (option string) :=
  match b64Args with
  | [] => Ok None
  | _ => vec ← parse_args b64Args;
         match xdr_MarshalBinary (ScvVec (Some vec)) with Some b => Ok (Some b) | None => Err [] end
  end.

Fixpoint marshal_elems (l : list ScVal) : res gerr (list string) :=
  match l with
  | [] => Ok []
  | v :: l =>
      match xdr_MarshalBinary v with
      | None => Err []
      | Some b => r ← marshal_elems l; Ok (base64_EncodeToString b :: r)
      end
  end.

Definition DecodeScVecToArgs (b : option string) : res gerr (list string) :=
  match b with
  | None | Some EmptyString => Ok []
  | Some b =>
      sv ← ParseBytes b;
      match sv with
      | ScvVec None => Ok []
      | ScvVec (Some vec) => marshal_elems vec
      | _ => Err []
      end
  end.
End Wire.

(** ** Accessors *)

Definition type_err {A} : res gerr A := Err [ErrScValType].

Definition AsString (sv : ScVal) : res gerr string := match sv with ScvString s => Ok s | _ => type_err end.
Definition AsSymbol (sv : ScVal) : res gerr string := match sv with ScvSymbol s => Ok s | _ => type_err end.
Definition AsU64 (sv : ScVal) : res gerr Z := match sv with ScvU64 n => Ok n | _ => type_err end.
Definition AsU32 (sv : ScVal) : res gerr Z := match sv with ScvU32 n => Ok n | _ => type_err end.
Definition AsI32 (sv : ScVal) : res gerr Z := match sv with ScvI32 n => Ok n | _ => type_err end.
Definition AsBytes (sv : ScVal) : res gerr string := match sv with ScvBytes b => Ok b | _ => type_err end.
Definition AsBool (sv : ScVal) : res gerr bool := match sv with ScvBool (Some b) => Ok b | _ => type_err end.
Definition IsVoid (sv : ScVal) : bool := match sv with ScvVoid => true | _ => false end.
Definition NewU32 (v : Z) : ScVal := ScvU32 v.

Definition AsAmountFromI128 (sv : ScVal) : res gerr Amount :=
  match sv with ScvI128 hi lo => Ok (FromInt128Parts hi lo) | _ => type_err end.
Definition AsAmountFromU128 (sv : ScVal) : res gerr Amount :=
  match sv with ScvU128 hi lo => Ok (FromUInt128Parts hi lo) | _ => type_err end.
Definition AsAmountFromU256 (sv : ScVal) : res gerr Amount :=
  match sv with ScvU256 a b c d => Ok (FromUInt256Parts a b c d) | _ => type_err end.
Definition AsAmountFromI256 (sv : ScVal) : res gerr Amount :=
  match sv with ScvI256 a b c d => Ok (FromInt256Parts a b c d) | _ => type_err end.

Definition strkey_of `{Strkey} (v : version_byte) (raw : string) : res gerr string :=
  match strkey_Encode v raw with Some s => Ok s | None => Err [] end.

Definition AsAddressStrkey `{Strkey} (sv : ScVal) : res gerr string :=
  match sv with
  | ScvAddress addr =>
      match addr with
      | AddrAccount raw => strkey_of VersionByteAccountID raw
      | AddrContract raw => strkey_of VersionByteContract raw
      | AddrMuxedAccount ed id => strkey_of VersionByteMuxedAccount (ed +:+ be_uint64 id)
      | AddrClaimableBalance _ None => type_err
      | AddrClaimableBalance ty (Some v0) => strkey_of VersionByteClaimableBalance (String (byte_char (ty mod 256)) v0)
      | AddrLiquidityPool id => strkey_of VersionByteLiquidityPool id
      | AddrMuxedContract c id => strkey_of VersionByteMuxedContract (c +:+ be_uint64 id)
      | AddrOther _ => type_err
      end
  | _ => type_err
  end.

Definition AsAddressOrVoid `{Strkey} (sv : ScVal) : res gerr string := if IsVoid sv then Ok "" else AsAddressStrkey sv.

Definition AsVec (sv : ScVal) : res gerr (list ScVal) := match sv with ScvVec v => Ok (default [] v) | _ => type_err end.
Definition AsMap (sv : ScVal) : res gerr (list (ScVal * ScVal)) := match sv with ScvMap m => Ok (default [] m) | _ => type_err end.

(** The first entry whose key is the symbol. *)
Fixpoint MapField (entries : list (ScVal * ScVal)) (key : string) : option ScVal :=
  match entries with
  | [] => None
  | (ScvSymbol s, v) :: entries => if String.eqb s key then Some v else MapField entries key
  | _ :: entries => MapField entries key
  end.

Definition MustMapField (entries : list (ScVal * ScVal)) (key : string) : res gerr ScVal :=
  match MapField entries key with Some v => Ok v | None => Err [ErrScValMissingKey] end.

Definition AsTupleN (sv : ScVal) (n : Z) : res gerr (list ScVal) :=
  elts ← AsVec sv; if negb (Z.of_nat (length elts) =? n) then type_err else Ok elts.

Record AddressOrSymbol := mkAOS { aos_Address : string; aos_Symbol : string }.

Definition DecodeAddressOrSymbol `{Strkey} (sv : ScVal) : res gerr AddressOrSymbol :=
  match sv with
  | ScvAddress _ => addr ← AsAddressStrkey sv; Ok (mkAOS addr "")
  | ScvSymbol _ => sym ← AsSymbol sv; Ok (mkAOS "" sym)
  | _ => type_err
  end.

(** ** Contract bytes as text *)

Definition NUL : string := String "000"%char EmptyString.
Definition TextHexPrefix : string := "\x".

Definition ToText (raw : string) : string :=
  if utf8_ValidString raw && negb (str_Contains raw NUL) && negb (HasPrefix raw TextHexPrefix) then raw
  else TextHexPrefix +:+ hex_EncodeToString raw.

Definition AsText (sv : ScVal) : res gerr string := raw ← AsString sv; Ok (ToText raw).

Definition FromText (text : string) : res gerr string :=
  match CutPrefix text TextHexPrefix with
  | None => Ok text
  | Some rest => match hex_DecodeString rest with Some raw => Ok raw | None => Err [ErrScValDecode] end
  end.

(** ** Balance keys (sac_balance.go) *)

Section Balance.
Context `{Xdr, Strkey}.

Definition balanceKeySymbol : string := MustEncodeSymbol "Balance".

Definition IsSEP41BalanceKey (key : ScVal) : bool :=
  match AsVec key with
  | Err _ => false
  | Ok vec =>
      if negb (length vec =? 2)%nat then false
      else match vec with
           | ScvSymbol s :: _ => match EncodeSymbol s with Ok enc => String.eqb enc balanceKeySymbol | Err _ => false end
           | _ => false
           end
  end.

Definition HolderFromBalanceKey (key : ScVal) : res gerr string :=
  match AsVec key with
  | Ok (_ :: holder :: _) => AsAddressStrkey holder
  | _ => Err []
  end.

Definition SEP41BalanceAmount (val : ScVal) : res gerr Z :=
  match val with
  | ScvI128 _ _ => amt ← AsAmountFromI128 val; Ok (Amount_BigInt amt)
  | ScvMap _ =>
      entries ← AsMap val;
      match MapField entries "amount" with
      | Some (ScvI128 _ _ as v) => amt ← AsAmountFromI128 v; Ok (Amount_BigInt amt)
      | _ => Err [ErrUnknownBalanceValShape]
      end
  | _ => Err [ErrUnknownBalanceValShape]
  end.

Definition ContractIDFromScAddress (addr : ScAddress) : option string :=
  match addr with AddrContract raw => strkey_Encode VersionByteContract raw | _ => None end.
End Balance.

(** ** Rendering (display.go) *)

Definition displayMaxDepth : nat := 3.
Definition ellipsis : string := "…".

(** [utf8.RuneStart]. *)
Definition RuneStart (c : ascii) : bool := negb (cont c).

(** The last position at or below [cut] that starts a rune; 0 at worst. *)
Fixpoint rune_cut (s : string) (cut : nat) : nat :=
  match cut with
  | O => O
  | S c => match String.get cut s with Some x => if RuneStart x then cut else rune_cut s c | None => cut end
  end.

Definition truncateDisplay (s : string) : string :=
  if (String.length s <=? 120)%nat then s else str_take (rune_cut s 120) s +:+ ellipsis.

Definition int256String (hiHi hiLo loHi loLo : Z) : string :=
  big_String (Z.shiftl (Z.shiftl (Z.shiftl hiHi 64 + hiLo) 64 + loHi) 64 + loLo).

Section Display.
Context `{Xdr}.

Definition displayScalar (v : ScVal) : string :=
  match v with
  | ScvBool None => "bool"
  | ScvBool (Some b) => if b then "true" else "false"
  | ScvVoid => "void"
  | ScvU32 n | ScvI32 n | ScvU64 n | ScvI64 n => big_String n
  | ScvTimepoint n => "t:" +:+ big_String n
  | ScvDuration n => "d:" +:+ big_String n
  | ScvU128 hi lo => Amount_String (FromUInt128Parts hi lo)
  | ScvI128 hi lo => Amount_String (FromInt128Parts hi lo)
  | ScvU256 a b c d => Amount_String (FromUInt256Parts a b c d)
  | ScvI256 a b c d => int256String a b c d
  | ScvSymbol s => s
  | ScvString s => truncateDisplay s
  | ScvBytes b => "bytes[" +:+ big_String (Z.of_nat (String.length b)) +:+ "]"
  | ScvAddress a => default "address" (xdr_AddressString a)
  | ScvVec _ => "Vec"
  | ScvMap _ => "Map"
  | ScvOther name => name
  end.

Fixpoint display (v : ScVal) (depth : nat) : string :=
  if (displayMaxDepth <? depth)%nat then ellipsis
  else match v with
       | ScvVec None => "[]"
       | ScvVec (Some vec) => "[" +:+ truncateDisplay (strings_Join (map (fun e => display e (S depth)) vec) ", ") +:+ "]"
       | ScvMap None => "{}"
       | ScvMap (Some m) =>
           "{" +:+ truncateDisplay (strings_Join (map (fun kv => display kv.1 (S depth) +:+ ": " +:+ display kv.2 (S depth)) m) ", ") +:+ "}"
       | v => displayScalar v
       end.

Definition Display (v : ScVal) : string := display v 0.

Definition DisplayB64 (b64 : string) : string :=
  if String.eqb b64 "" then "" else match Parse b64 with Ok v => Display v | Err _ => "" end.
End Display.

(** ** The wire *)

Section WireLaws.
Context `{XdrLaws}.

Lemma encode_Parse v b : encode v = Ok b -> Parse b = Ok v.
Proof.
  unfold encode, Parse, UnmarshalBase64. destruct (xdr_MarshalBinary v) as [raw|] eqn:E; [|done]. intros [= <-].
  rewrite base64_roundtrip. cbn. by rewrite (xdr_roundtrip _ _ E).
Qed.

Lemma encode_inj v w b : encode v = Ok b -> encode w = Ok b -> v = w.
Proof. intros Hv%encode_Parse Hw%encode_Parse. congruence. Qed.

Lemma EncodeString_Must s : EncodeString s = Ok (MustEncodeString s).
Proof.
  unfold MustEncodeString, EncodeString, encode. destruct (xdr_text s) as [[b E] _]. by rewrite E.
Qed.

Lemma MustEncodeString_inj s t : MustEncodeString s = MustEncodeString t -> s = t.
Proof.
  intros E. pose proof (EncodeString_Must s) as Hs. rewrite E in Hs. pose proof (encode_inj _ _ _ Hs (EncodeString_Must t)) as HX. by injection HX.
Qed.

Definition symbol_ok (s : string) : bool :=
  negb ((String.length s =? 0)%nat || (32 <? String.length s)%nat) && str_forallb symbol_char s.

Lemma EncodeSymbol_ok s : EncodeSymbol s = if symbol_ok s then encode (ScvSymbol s) else Err [].
Proof. unfold EncodeSymbol, symbol_ok. destruct (_ || _); [done|]. by destruct (str_forallb _ _). Qed.

Lemma EncodeSymbol_Must s : symbol_ok s = true -> EncodeSymbol s = Ok (MustEncodeSymbol s).
Proof.
  intros E. unfold MustEncodeSymbol. rewrite EncodeSymbol_ok, E. unfold encode. destruct (xdr_text s) as [_ [b Eb]]. by rewrite Eb.
Qed.

Lemma EncodeSymbol_inj s t b : EncodeSymbol s = Ok b -> EncodeSymbol t = Ok b -> s = t.
Proof.
  rewrite !EncodeSymbol_ok. destruct (symbol_ok s), (symbol_ok t); try done. intros Hs Ht.
  pose proof (encode_inj _ _ _ Hs Ht) as HX. by injection HX.
Qed.

(** A symbol topic is never a string topic. *)
Lemma symbol_not_string s t : symbol_ok s = true -> MustEncodeSymbol s <> MustEncodeString t.
Proof.
  intros Hs E. pose proof (EncodeSymbol_Must s Hs) as H1. rewrite EncodeSymbol_ok, Hs, E in H1.
  by pose proof (encode_inj _ _ _ H1 (EncodeString_Must t)).
Qed.

(** What an encoder produced, one text for each value. *)
Definition canonical_arg (a : string) : Prop := exists v, encode v = Ok a.

Lemma parse_marshal args vec : parse_args args = Ok vec -> Forall canonical_arg args -> marshal_elems vec = Ok args.
Proof.
  revert vec. induction args as [|a args IH]; intros vec E HA; [by injection E as <-|].
  apply Forall_cons in HA as [[v Hv] HA]. cbn [parse_args] in E. rewrite (encode_Parse _ _ Hv) in E. cbn in E.
  destruct (parse_args args) as [vs|] eqn:Ea; [|done]. injection E as <-. cbn [marshal_elems].
  unfold encode in Hv. destruct (xdr_MarshalBinary v); [|done]. injection Hv as <-. by rewrite (IH vs).
Qed.
End WireLaws.

(** The operation arguments of an event come back from the
    landing zone as they were stored: decoding the stored vector gives the
    argument blobs, in order, with none for the empty list. *)
Theorem args_roundtrip `{XdrLaws} args b :
  EncodeArgsAsScVec args = Ok b -> Forall canonical_arg args -> DecodeScVecToArgs b = Ok args.
Proof.
  intros E HA. unfold EncodeArgsAsScVec in E. destruct args as [|a args]; [by injection E as <-|].
  destruct (parse_args (a :: args)) as [vec|] eqn:Ep; [|done]. cbn in E.
  destruct (xdr_MarshalBinary (ScvVec (Some vec))) as [raw|] eqn:Em; [|done]. injection E as <-. unfold DecodeScVecToArgs.
  pose proof (xdr_nonempty _ _ Em). destruct raw as [|c raw]; [done|]. unfold ParseBytes. rewrite (xdr_roundtrip _ _ Em). cbn.
  by apply parse_marshal.
Qed.

(** The pre-encoded comparison decides the shape of a balance key. *)
Lemma IsSEP41BalanceKey_exact `{XdrLaws} key :
  IsSEP41BalanceKey key = true <-> exists holder, key = ScvVec (Some [ScvSymbol "Balance"; holder]).
Proof.
  assert (HB : EncodeSymbol "Balance" = Ok balanceKeySymbol) by by apply EncodeSymbol_Must. split.
  - unfold IsSEP41BalanceKey. destruct key as [| | | | | | | | | | | | | | |[vec|]| | |]; try done. cbn [AsVec default id].
    destruct vec as [|x [|y [|? ?]]]; try done. unfold id. cbn [length Nat.eqb negb]. destruct x as [| | | | | | | | | | | | | |s| | | |]; try done.
    destruct (EncodeSymbol s) as [enc|e] eqn:Es; [|discriminate]. intros ->%String.eqb_eq. exists y. by rewrite (EncodeSymbol_inj _ _ _ Es HB).
  - intros [holder ->]. unfold IsSEP41BalanceKey. cbn [AsVec default]. unfold id. cbn [length Nat.eqb negb]. rewrite HB. apply String.eqb_refl.
Qed.

(** ** Text *)

(** C37: contract-chosen bytes survive their text form: whatever
    the bytes, what is stored is valid UTF-8 without a NUL, and reading it
    back gives the exact bytes; so distinct bytes never share a text. *)
Theorem ToText_roundtrip raw :
  FromText (ToText raw) = Ok raw /\ utf8_ValidString (ToText raw) = true /\ str_Contains (ToText raw) NUL = false.
Proof.
  unfold ToText. destruct (utf8_ValidString raw && negb (str_Contains raw NUL) && negb (HasPrefix raw TextHexPrefix)) eqn:E.
  - apply andb_prop in E as [[E1 E2%negb_true_iff]%andb_prop E3%negb_true_iff]. split; [|done].
    unfold FromText. unfold HasPrefix in E3. by destruct (CutPrefix raw TextHexPrefix).
  - clear E. split.
    + unfold FromText. change (CutPrefix (TextHexPrefix +:+ hex_EncodeToString raw) TextHexPrefix) with (Some (hex_EncodeToString raw)).
      cbv iota. by rewrite hex_roundtrip.
    + apply ascii_valid. change (TextHexPrefix +:+ hex_EncodeToString raw) with (String "\" (String "x" (hex_EncodeToString raw))).
      cbn [str_forallb]. by rewrite hex_ascii.
Qed.

(** ** Truncation *)

Lemma str_app_cons c s t : String c s +:+ t = String c (s +:+ t).
Proof. done. Qed.
Lemma str_app_nil t : EmptyString +:+ t = t.
Proof. done. Qed.

(** A valid text is a sequence of runes: a start byte and continuation bytes. *)
Lemma rune_split s : utf8_ValidString s = true -> s <> EmptyString -> exists a t rest,
  s = String a t +:+ rest /\ str_forallb cont t = true /\ utf8_ValidString rest = true
  /\ forall s', utf8_ValidString (String a t +:+ s') = utf8_ValidString s'.
Proof.
  intros HV HN. destruct s as [|a s]; [done|]. clear HN. cbn [utf8_ValidString] in HV. destruct (byte_of a <? 128) eqn:E1.
  { exists a, EmptyString, s. split_and!; try done. intros s'. rewrite !str_app_cons, str_app_nil. cbn [utf8_ValidString]. by rewrite E1. }
  destruct s as [|b s]; [done|]. destruct (between 194 223 a) eqn:E2.
  { apply andb_prop in HV as [Hb HV]. exists a, (String b EmptyString), s. cbn [str_forallb]. rewrite Hb. split_and!; try done.
    intros s'. rewrite !str_app_cons, str_app_nil. cbn [utf8_ValidString]. by rewrite E1, E2, Hb. }
  destruct s as [|c s]; [done|]. destruct (between 224 239 a) eqn:E3.
  { apply andb_prop in HV as [[Hb Hc]%andb_prop HV]. exists a, (String b (String c EmptyString)), s. cbn [str_forallb]. rewrite Hc.
    assert (Hb' : cont b = true).
    { clear -Hb. unfold cont, between in *. apply andb_prop in Hb as [H1%Z.leb_le H2%Z.leb_le].
      apply andb_true_intro. split; apply Z.leb_le; destruct (byte_of a =? 224), (byte_of a =? 237); lia. }
    rewrite Hb'. split_and!; try done. intros s'. rewrite !str_app_cons, str_app_nil. cbn [utf8_ValidString]. by rewrite E1, E2, E3, Hb, Hc. }
  destruct s as [|d s]; [done|]. apply andb_prop in HV as [[[[E4 Hb]%andb_prop Hc]%andb_prop Hd]%andb_prop HV].
  exists a, (String b (String c (String d EmptyString))), s. cbn [str_forallb]. rewrite Hc, Hd.
  assert (Hb' : cont b = true).
  { clear -Hb. unfold cont, between in *. apply andb_prop in Hb as [H1%Z.leb_le H2%Z.leb_le].
    apply andb_true_intro. split; apply Z.leb_le; destruct (byte_of a =? 240), (byte_of a =? 244); lia. }
  rewrite Hb'. split_and!; try done. intros s'. rewrite !str_app_cons, str_app_nil. cbn [utf8_ValidString]. by rewrite E1, E2, E3, E4, Hb, Hc, Hd.
Qed.

Lemma str_get_app a b k : String.get (String.length a + k) (a +:+ b) = String.get k b.
Proof. induction a as [|c a IH]; [done|]. apply IH. Qed.

Lemma cont_get t b k x : str_forallb cont t = true -> (k < String.length t)%nat -> String.get k (t +:+ b) = Some x -> cont x = true.
Proof.
  revert k. induction t as [|c t IH]; intros k HF Hk E; [cbn in Hk; lia|]. cbn in HF. apply andb_prop in HF as [Hc HF].
  destruct k as [|k]; [by injection E as <-|]. apply (IH k); [done|cbn in Hk; lia|done].
Qed.

Lemma str_take_past a b k : str_take (String.length a + k) (a +:+ b) = a +:+ str_take k b.
Proof. induction a as [|c a IH]; [done|]. rewrite !str_app_cons. cbn. f_equal. apply IH. Qed.

(** A cut at the start of a rune leaves a valid text. *)
Lemma take_valid s cut x : utf8_ValidString s = true -> String.get cut s = Some x -> RuneStart x = true ->
  utf8_ValidString (str_take cut s) = true.
Proof.
  remember (String.length s) as n eqn:En. revert s cut En. induction n as [n IH] using (well_founded_induction lt_wf).
  intros s cut -> HV Hg Hx. destruct cut as [|cut]; [by destruct s|]. destruct (rune_split s HV) as (a & t & rest & -> & Ht & HR & Hs); [by intros ->|].
  destruct (Nat.lt_ge_cases cut (String.length t)) as [Hlt|Hge].
  - exfalso. cbn in Hg. pose proof (cont_get _ _ _ _ Ht Hlt Hg) as HC. unfold RuneStart in Hx. by rewrite HC in Hx.
  - replace (S cut) with (String.length (String a t) + (cut - String.length t))%nat in Hg |- * by (cbn; lia).
    rewrite str_get_app in Hg. rewrite str_take_past, Hs. apply (IH (String.length rest)); [rewrite str_length_app; cbn; lia|done..].
Qed.

Lemma valid_app a b : utf8_ValidString a = true -> utf8_ValidString b = true -> utf8_ValidString (a +:+ b) = true.
Proof.
  remember (String.length a) as n eqn:En. revert a En. induction n as [n IH] using (well_founded_induction lt_wf).
  intros a -> HA HB. destruct a as [|c a]; [done|]. destruct (rune_split _ HA) as (x & t & rest & E & _ & HR & Hs); [done|].
  rewrite E, str_app_assoc, Hs. apply (IH (String.length rest)); [rewrite E, str_length_app; cbn; lia|done..].
Qed.

Lemma rune_cut_spec s n : (n < String.length s)%nat -> (rune_cut s n <= n)%nat
  /\ (rune_cut s n = 0%nat \/ exists x, String.get (rune_cut s n) s = Some x /\ RuneStart x = true).
Proof.
  induction n as [|n IH]; intros Hn; [cbn; split; [lia|by left]|]. cbn [rune_cut]. destruct (String.get (S n) s) as [x|] eqn:Eg.
  - destruct (RuneStart x) eqn:Ex; [split; [lia|right; by exists x]|]. destruct IH as [H1 H2]; [lia|]. split; [lia|done].
  - exfalso. clear -Eg Hn. revert Eg Hn. generalize (S n). induction s as [|c s IH]; intros k Eg Hk; [cbn in Hk; lia|].
    destruct k as [|k]; [done|]. apply (IH k); [done|cbn in Hk; lia].
Qed.

(** A shown fragment stays short and stays text: it has at
    most 123 bytes, and valid UTF-8 is never cut inside a rune. *)
Theorem truncateDisplay_valid s :
  (String.length (truncateDisplay s) <= 123)%nat /\ (utf8_ValidString s = true -> utf8_ValidString (truncateDisplay s) = true).
Proof.
  unfold truncateDisplay. destruct (Nat.leb_spec (String.length s) 120) as [Hs|Hs]; [split; [lia|done]|].
  destruct (rune_cut_spec s 120 Hs) as [H1 H2]. split.
  - rewrite str_length_app, str_take_length by lia. change (String.length ellipsis) with 3%nat. lia.
  - intros HV. apply valid_app; [|done]. destruct H2 as [->|(x & Hg & Hx)]; [by destruct s|]. by apply (take_valid s _ x).
Qed.
