(* ===== verification/ContractId.v ===== *)
(** * Contract events and the identity gate (internal/events,
    internal/contractid)

    What a decoder reads of a contract event beyond its identity, and the
    registry of contracts a protocol trusts: its factories, and the children
    they announced. The persistence hooks are the calls that [Seed] makes. *)

From S2P Require Import Prelude GoLib Encoding Amount ScVal Completeness.

(** ** Events *)

Record contract_event := mkCE { ce_LedgerClosedAt : string; ce_ContractID : string; ce_Topic : list string; ce_Value : string }.

#[export] Instance contract_payload : EventPayload := {| payload := contract_event |}.

Definition ev_ContractID (ev : Event) : string := ce_ContractID (ev_Payload ev).
Definition ev_Topic (ev : Event) : list string := ce_Topic (ev_Payload ev).
Definition ev_Value (ev : Event) : string := ce_Value (ev_Payload ev).

Definition EventClosedAt (ev : Event) : res gerr Time :=
  let s := ce_LedgerClosedAt (ev_Payload ev) in
  if String.eqb s "" then Err []
  else match time_ParseRFC3339 s with Some t => Ok t | None => Err [] end.

(** ** The registry *)

Abbreviation Attrs := (gmap string string).

Record Registry := mkReg {
  reg_set : gset string; reg_factories : gset string; reg_attrs : gmap string Attrs;
  reg_hook : bool; reg_attrHook : bool
}.

(** A call of a persistence hook. *)
Inductive hook_call :=
| Hooked (child factory : string) (firstLedger : Z)
| AttrHooked (child factory : string) (firstLedger : Z) (attrs : Attrs).

Definition Option_ : Type := Registry -> Registry.

Definition New (opts : list Option_) : Registry := foldl (fun r opt => opt r) (mkReg ∅ ∅ ∅ false false) opts.

Definition add_ids (ids : list string) (s : gset string) : gset string :=
  foldl (fun s id => if String.eqb id "" then s else {[id]} ∪ s) s ids.

Definition WithFactories (ids : list string) : Option_ := fun r =>
  mkReg (reg_set r) (add_ids ids (reg_factories r)) (reg_attrs r) (reg_hook r) (reg_attrHook r).
Definition WithSeed (ids : list string) : Option_ := fun r =>
  mkReg (add_ids ids (reg_set r)) (reg_factories r) (reg_attrs r) (reg_hook r) (reg_attrHook r).
Definition WithHook : Option_ := fun r => mkReg (reg_set r) (reg_factories r) (reg_attrs r) true (reg_attrHook r).
Definition WithAttrHook : Option_ := fun r => mkReg (reg_set r) (reg_factories r) (reg_attrs r) (reg_hook r) true.
Definition WithAttrSeed (seed : list (string * Attrs)) : Option_ := fun r =>
  foldl (fun r kv => if String.eqb kv.1 "" then r
                     else mkReg ({[kv.1]} ∪ reg_set r) (reg_factories r) (<[kv.1 := kv.2]> (reg_attrs r)) (reg_hook r) (reg_attrHook r)) r seed.

Definition Has (r : Registry) (c : string) : bool := bool_decide (c ∈ reg_set r).
Definition IsFactory (r : Registry) (c : string) : bool := bool_decide (c ∈ reg_factories r).
Definition Factories (r : Registry) : list string := elements (reg_factories r).
Definition Children (r : Registry) : list string := elements (reg_set r).
Definition GatedSet (r : Registry) : list string :=
  elements (reg_set r) ++ List.filter (fun id => negb (bool_decide (id ∈ reg_set r))) (elements (reg_factories r)).
Definition AllAttrs (r : Registry) : gmap string Attrs := reg_attrs r.
Definition Registry_Len (r : Registry) : Z := Z.of_nat (size (reg_set r)).

Definition Seed (r : Registry) (child factory : string) (firstLedger : Z) : Registry * list hook_call :=
  if String.eqb child "" then (r, [])
  else (mkReg ({[child]} ∪ reg_set r) (reg_factories r) (reg_attrs r) (reg_hook r) (reg_attrHook r),
        if reg_hook r then [Hooked child factory firstLedger] else []).

Definition SeedWithAttrs (r : Registry) (child factory : string) (firstLedger : Z) (attrs : Attrs) : Registry * list hook_call :=
  if String.eqb child "" then (r, [])
  else
    let r := mkReg (reg_set r) (reg_factories r) (<[child := attrs]> (reg_attrs r)) (reg_hook r) (reg_attrHook r) in
    let '(r, calls) := Seed r child factory firstLedger in
    (r, calls ++ (if reg_attrHook r then [AttrHooked child factory firstLedger attrs] else [])).

(** ** The prefilter is the gate *)

(** The list is exactly what the gate can accept, each contract once. *)
Lemma GatedSet_exact r c : (c ∈ GatedSet r <-> Has r c = true \/ IsFactory r c = true) /\ NoDup (GatedSet r).
Proof.
  unfold GatedSet, Has, IsFactory. rewrite !bool_decide_eq_true. split.
  - rewrite elem_of_app, elem_of_elements, list_elem_of_In, filter_In, <- list_elem_of_In, elem_of_elements, negb_true_iff, bool_decide_eq_false.
    destruct (decide (c ∈ reg_set r)); naive_solver.
  - apply NoDup_app. split; [apply NoDup_elements|]. split.
    + intros x Hx Hf. rewrite list_elem_of_In, filter_In, negb_true_iff, bool_decide_eq_false in Hf. apply elem_of_elements in Hx. tauto.
    + rewrite NoDup_ListNoDup. apply List.NoDup_filter. rewrite <- NoDup_ListNoDup. apply NoDup_elements.
Qed.

Lemma Seed_set r c f l x : x ∈ reg_set (Seed r c f l).1 <-> x ∈ reg_set r \/ x = c /\ c <> "".
Proof.
  unfold Seed. destruct (String.eqb_spec c ""); cbn; [naive_solver|]. rewrite elem_of_union, elem_of_singleton. naive_solver.
Qed.

Lemma Seed_factories r c f l : reg_factories (Seed r c f l).1 = reg_factories r.
Proof. unfold Seed. by destruct (String.eqb c ""). Qed.

Lemma add_ids_elem ids s x : x ∈ add_ids ids s <-> x ∈ s \/ x ∈ ids /\ x <> "".
Proof.
  unfold add_ids. revert s. induction ids as [|i ids IH]; intros s; cbn [foldl].
  - split; [by left|]. intros [?|[H%elem_of_nil _]]; done.
  - rewrite IH, elem_of_cons. destruct (String.eqb_spec i ""); [naive_solver|]. rewrite elem_of_union, elem_of_singleton. naive_solver.
Qed.
