(* ===== verification/Phoenix.v ===== *)
(** * The Phoenix decoder (internal/sources/phoenix: events.go, decode.go,
    decode_single.go, consumer.go, dispatcher_adapter.go)

    Phoenix publishes one swap as up to eight contract events, a field each.
    The decoder collects the fields of a group (ledger, transaction,
    operation, pool) in a buffer, emits the trade when the last field lands,
    and rescues what it can from a group that ages out, is pushed out by the
    next swap of the group, or is left over at the end.

    The decoder is a state passed from event to event. A panic of the packed
    operation index is an outcome. Metrics and log lines are left out; the
    clock that the sweep falls back on is a parameter. *)

From S2P Require Import Prelude GoLib Encoding Amount Asset Trade ScVal Completeness ContractId.

Definition SourceName : string := "phoenix".

(** ** Names (events.go) *)

Definition EventActionSwap : string := "swap".
Definition EventActionProvideLiquidity : string := "provide_liquidity".
Definition EventActionWithdrawLiquidity : string := "withdraw_liquidity".
Definition EventActionBond : string := "bond".
Definition EventActionUnbond : string := "unbond".
Definition EventActionAdmin : string := "XYK Pool: ".
Definition EventActionInitialize : string := "initialize".
Definition EventActionCreate : string := "create".
Definition EventActionWithdrawRewards : string := "withdraw_rewards".
Definition EventActionDistributeRewards : string := "distribute_rewards".
Definition EventActionCreateDistributionFlow : string := "create_distribution_flow".
Definition EventActionStakeMigration : string := "Stake: Migration: ".
Definition EventActionStake : string := "Stake".
Definition EventActionFactory : string := "Factory".
Definition EventActionBlendPool : string := "blend_pool".
Definition EventActionToggleTrading : string := "toggle_trading".

Definition FieldSender : string := "sender".
Definition FieldSellToken : string := "sell_token".
Definition FieldOfferAmount : string := "offer_amount".
Definition FieldActualReceived : string := "actual received amount".
Definition FieldBuyToken : string := "buy_token".
Definition FieldReturnAmount : string := "return_amount".
Definition FieldSpreadAmount : string := "spread_amount".
Definition FieldReferralFee : string := "referral_fee_amount".
Definition FieldDRAsset : string := "asset".
Definition FieldCreateLiquidityPool : string := "liquidity_pool".

Definition MainnetFactory : string := "CB4SVAWJA6TSRNOJZ7W2AWFW46D5VR4ZMFZKDIKXEINZCZEGZCJZCKMI".

Definition ErrUnknownField : errtag := Named "phoenix: unknown swap field".
Definition ErrIncompleteSwap : errtag := Named "phoenix: incomplete swap (need 8 fields)".
Definition ErrMalformedPayload : errtag := Named "phoenix: malformed swap payload".
Definition ErrZeroAmountSwap : errtag := Named "phoenix: zero-amount swap (recognised no-op)".
Definition ErrIncompleteLiquidity : errtag := Named "phoenix: incomplete liquidity event".
Definition ErrIncompleteStake : errtag := Named "phoenix: incomplete stake event".

(** ** Outputs (consumer.go) *)

Record LiquidityChange := mkLiq {
  lq_Action : string; lq_Pool : string; lq_Ledger : Z; lq_TxHash : string; lq_OpIndex : Z; lq_EventIndex : Z; lq_ClosedAt : Time;
  lq_Sender : string; lq_TokenA : string; lq_AmountA : Amount; lq_TokenB : string; lq_AmountB : Amount; lq_SharesAmount : Amount
}.

Record StakeChange := mkStake {
  sk_Action : string; sk_Contract : string; sk_Ledger : Z; sk_TxHash : string; sk_OpIndex : Z; sk_EventIndex : Z; sk_ClosedAt : Time;
  sk_User : string; sk_LPToken : string; sk_Amount : Amount
}.

Record Initialize := mkInit {
  in_Pool : string; in_Ledger : Z; in_TxHash : string; in_OpIndex : Z; in_EventIndex : Z; in_ObservedAt : Time;
  in_TokenSlot : string; in_Token : string
}.

Record Admin := mkAdmin {
  ad_Pool : string; ad_Ledger : Z; ad_TxHash : string; ad_OpIndex : Z; ad_EventIndex : Z; ad_ObservedAt : Time;
  ad_AdminAction : string; ad_Admin : string; ad_Value : Amount
}.

Inductive consumer_event :=
| TradeEvent (t : Trade)
| LiquidityEvent (c : LiquidityChange)
| StakeEvent (c : StakeChange)
| InitializeEvent (c : Initialize)
| AdminEvent (c : Admin).

Definition EventKind (e : consumer_event) : string :=
  match e with
  | TradeEvent _ => "phoenix.trade" | LiquidityEvent _ => "phoenix.liquidity" | StakeEvent _ => "phoenix.stake"
  | InitializeEvent _ => "phoenix.initialize" | AdminEvent _ => "phoenix.admin"
  end.

(** 0 for the kinds that do not declare a ledger. *)
Definition EventLedger (e : consumer_event) : Z :=
  match e with
  | TradeEvent t => tr_Ledger t | LiquidityEvent c => lq_Ledger c | StakeEvent c => sk_Ledger c
  | InitializeEvent _ | AdminEvent _ => 0
  end.

(** ** Groups (decode.go) *)

Inductive swapField := Sender | SellToken | OfferAmount | ActualReceived | BuyToken | ReturnAmount | SpreadAmount | ReferralFee.

#[export] Instance swapField_eq_dec : EqDecision swapField.
Proof. solve_decision. Defined.

Record RawSwap := mkSwap {
  rs_Ledger : Z; rs_TxHash : string; rs_OpIndex : Z; rs_EventIndex : Z; rs_Pool : string; rs_ClosedAt : Time;
  rs_Sender : option Event; rs_SellToken : option Event; rs_OfferAmount : option Event; rs_ActualReceived : option Event;
  rs_BuyToken : option Event; rs_ReturnAmount : option Event; rs_SpreadAmount : option Event; rs_ReferralFee : option Event
}.

Record RawProvideLiquidity := mkPL {
  pl_Ledger : Z; pl_TxHash : string; pl_OpIndex : Z; pl_EventIndex : Z; pl_Pool : string; pl_ClosedAt : Time;
  pl_Sender : option Event; pl_TokenA : option Event; pl_TokenAAmount : option Event; pl_TokenB : option Event; pl_TokenBAmount : option Event
}.

Record RawWithdrawLiquidity := mkWL {
  wl_Ledger : Z; wl_TxHash : string; wl_OpIndex : Z; wl_EventIndex : Z; wl_Pool : string; wl_ClosedAt : Time;
  wl_Sender : option Event; wl_SharesAmount : option Event; wl_ReturnAmountA : option Event; wl_ReturnAmountB : option Event
}.

Record RawStake := mkRStake {
  rk_Ledger : Z; rk_TxHash : string; rk_OpIndex : Z; rk_EventIndex : Z; rk_Contract : string; rk_ClosedAt : Time; rk_IsBond : bool;
  rk_User : option Event; rk_Token : option Event; rk_Amount : option Event
}.

Record RawWithdrawRewards := mkWR {
  wr_Ledger : Z; wr_TxHash : string; wr_OpIndex : Z; wr_EventIndex : Z; wr_Contract : string; wr_ClosedAt : Time;
  wr_User : option Event; wr_RewardToken : option Event
}.

(** Ledger, transaction, operation, contract. *)
Abbreviation groupKey := (Z * string * Z * string)%type.

Definition keyOf (e : Event) : groupKey := (ev_Ledger e, ev_TxHash e, wrapu 32 (ev_OperationIndex e), ev_ContractID e).

(** What the buffer asks of a group. *)
Class RawGroup (R : Type) := {
  slot : R -> string -> option Event;
  assign : R -> Event -> string -> res gerr R;
  Complete : R -> bool;
  ClosedAt : R -> Time
}.

Definition filled (l : list (option Event)) : bool := forallb (fun o => match o with Some _ => true | None => false end) l.

Definition rs_get (r : RawSwap) (f : swapField) : option Event :=
  match f with
  | Sender => rs_Sender r | SellToken => rs_SellToken r | OfferAmount => rs_OfferAmount r | ActualReceived => rs_ActualReceived r
  | BuyToken => rs_BuyToken r | ReturnAmount => rs_ReturnAmount r | SpreadAmount => rs_SpreadAmount r | ReferralFee => rs_ReferralFee r
  end.

Definition rs_set (r : RawSwap) (f : swapField) (e : Event) : RawSwap :=
  let g x := if bool_decide (x = f) then Some e else rs_get r x in
  mkSwap (rs_Ledger r) (rs_TxHash r) (rs_OpIndex r) (rs_EventIndex r) (rs_Pool r) (rs_ClosedAt r)
    (g Sender) (g SellToken) (g OfferAmount) (g ActualReceived) (g BuyToken) (g ReturnAmount) (g SpreadAmount) (g ReferralFee).

Definition Swap_Complete (r : RawSwap) : bool :=
  filled [rs_Sender r; rs_SellToken r; rs_OfferAmount r; rs_ActualReceived r; rs_BuyToken r; rs_ReturnAmount r; rs_SpreadAmount r; rs_ReferralFee r].

Definition Decodable (r : RawSwap) : bool :=
  filled [rs_Sender r; rs_SellToken r; rs_OfferAmount r; rs_BuyToken r; rs_ReturnAmount r].

Section Decoder.
Context `{Xdr, Strkey}.

(** ** Topics *)

Definition TopicSymbolSwap : string := MustEncodeString EventActionSwap.
Definition TopicSymbolSwapMap : string := MustEncodeSymbol EventActionSwap.
Definition TopicSymbolProvideLiquidityMap : string := MustEncodeSymbol EventActionProvideLiquidity.
Definition TopicSymbolWithdrawLiquidityMap : string := MustEncodeSymbol EventActionWithdrawLiquidity.
Definition TopicSymbolProvideLiquidity : string := MustEncodeString EventActionProvideLiquidity.
Definition TopicSymbolWithdrawLiquidity : string := MustEncodeString EventActionWithdrawLiquidity.
Definition TopicSymbolBond : string := MustEncodeString EventActionBond.
Definition TopicSymbolUnbond : string := MustEncodeString EventActionUnbond.
Definition TopicSymbolAdmin : string := MustEncodeString EventActionAdmin.
Definition TopicSymbolInitialize : string := MustEncodeString EventActionInitialize.
Definition TopicSymbolCreate : string := MustEncodeString EventActionCreate.
Definition TopicCreateLiquidityPool : string := MustEncodeString FieldCreateLiquidityPool.
Definition TopicSymbolWithdrawRewards : string := MustEncodeString EventActionWithdrawRewards.
Definition TopicSymbolDistributeRewards : string := MustEncodeString EventActionDistributeRewards.
Definition TopicSymbolDRAsset : string := MustEncodeString FieldDRAsset.
Definition TopicCreateDistributionFlow : string := MustEncodeString EventActionCreateDistributionFlow.
Definition TopicStakeMigration : string := MustEncodeString EventActionStakeMigration.
Definition TopicStake : string := MustEncodeString EventActionStake.
Definition TopicFactory : string := MustEncodeString EventActionFactory.
Definition TopicBlendPool : string := MustEncodeString EventActionBlendPool.
Definition TopicToggleTrading : string := MustEncodeString EventActionToggleTrading.
Definition TopicMigrationStarted : string := MustEncodeString "Start of migration for user: ".
Definition TopicMigrationQueried : string := MustEncodeString "Query for user completed: ".
Definition TopicMigrationCompleted : string := MustEncodeString "Migration for user completed and stored: ".
Definition TopicFactoryUpdatedConfig : string := MustEncodeString "Updated Config".
Definition TopicBlendSetDelegate : string := MustEncodeString "set_delegate".
Definition TopicBlendSetMinTradingA : string := MustEncodeString "set_min_trading_a".
Definition TopicBlendSetMinTradingB : string := MustEncodeString "set_min_trading_b".
Definition TopicToggleTradingEnabled : string := MustEncodeString "enabled".
Definition TopicInitTokenA : string := MustEncodeString "XYK LP token_a".
Definition TopicInitTokenB : string := MustEncodeString "XYK LP token_b".
Definition TopicInitLPShareStaking : string := MustEncodeString "LP Share token staking contract".
Definition TopicSymbolStakeToken : string := MustEncodeString "token".
Definition TopicSymbolStakeAmount : string := MustEncodeString "amount".
Definition TopicSymbolWLAutoUnbonded : string := MustEncodeString "auto unbonded".

(** The first entry of a table of topics. *)
Fixpoint by_topic {A} (t : string) (l : list (string * A)) : option A :=
  match l with
  | [] => None
  | (name, a) :: l => if String.eqb t (MustEncodeString name) then Some a else by_topic t l
  end.

Definition swap_fields : list (string * swapField) :=
  [(FieldSender, Sender); (FieldSellToken, SellToken); (FieldOfferAmount, OfferAmount); (FieldActualReceived, ActualReceived);
   (FieldBuyToken, BuyToken); (FieldReturnAmount, ReturnAmount); (FieldSpreadAmount, SpreadAmount); (FieldReferralFee, ReferralFee)].

Definition unknown_field {A} : res gerr A := Err [ErrUnknownField].

Definition Swap_slot (r : RawSwap) (t : string) : option Event := f ← by_topic t swap_fields; rs_get r f.
Definition Swap_assign (r : RawSwap) (e : Event) (t : string) : res gerr RawSwap :=
  match by_topic t swap_fields with Some f => Ok (rs_set r f e) | None => unknown_field end.

Definition PL_slot (r : RawProvideLiquidity) (t : string) : option Event :=
  mjoin (by_topic t [("sender", pl_Sender r); ("token_a", pl_TokenA r); ("token_a-amount", pl_TokenAAmount r);
                     ("token_b", pl_TokenB r); ("token_b-amount", pl_TokenBAmount r)]).
Definition PL_assign (r : RawProvideLiquidity) (e : Event) (t : string) : res gerr RawProvideLiquidity :=
  let mk a b c d f := mkPL (pl_Ledger r) (pl_TxHash r) (pl_OpIndex r) (pl_EventIndex r) (pl_Pool r) (pl_ClosedAt r) a b c d f in
  match by_topic t [("sender", mk (Some e) (pl_TokenA r) (pl_TokenAAmount r) (pl_TokenB r) (pl_TokenBAmount r));
                    ("token_a", mk (pl_Sender r) (Some e) (pl_TokenAAmount r) (pl_TokenB r) (pl_TokenBAmount r));
                    ("token_a-amount", mk (pl_Sender r) (pl_TokenA r) (Some e) (pl_TokenB r) (pl_TokenBAmount r));
                    ("token_b", mk (pl_Sender r) (pl_TokenA r) (pl_TokenAAmount r) (Some e) (pl_TokenBAmount r));
                    ("token_b-amount", mk (pl_Sender r) (pl_TokenA r) (pl_TokenAAmount r) (pl_TokenB r) (Some e))] with
  | Some r => Ok r
  | None => unknown_field
  end.
Definition PL_Complete (r : RawProvideLiquidity) : bool :=
  filled [pl_Sender r; pl_TokenA r; pl_TokenAAmount r; pl_TokenB r; pl_TokenBAmount r].

Definition WL_slot (r : RawWithdrawLiquidity) (t : string) : option Event :=
  mjoin (by_topic t [("sender", wl_Sender r); ("shares_amount", wl_SharesAmount r);
                     ("return_amount_a", wl_ReturnAmountA r); ("return_amount_b", wl_ReturnAmountB r)]).
Definition WL_assign (r : RawWithdrawLiquidity) (e : Event) (t : string) : res gerr RawWithdrawLiquidity :=
  let mk a b c d := mkWL (wl_Ledger r) (wl_TxHash r) (wl_OpIndex r) (wl_EventIndex r) (wl_Pool r) (wl_ClosedAt r) a b c d in
  match by_topic t [("sender", mk (Some e) (wl_SharesAmount r) (wl_ReturnAmountA r) (wl_ReturnAmountB r));
                    ("shares_amount", mk (wl_Sender r) (Some e) (wl_ReturnAmountA r) (wl_ReturnAmountB r));
                    ("return_amount_a", mk (wl_Sender r) (wl_SharesAmount r) (Some e) (wl_ReturnAmountB r));
                    ("return_amount_b", mk (wl_Sender r) (wl_SharesAmount r) (wl_ReturnAmountA r) (Some e));
                    ("auto unbonded", r)] with
  | Some r => Ok r
  | None => unknown_field
  end.
Definition WL_Complete (r : RawWithdrawLiquidity) : bool :=
  filled [wl_Sender r; wl_SharesAmount r; wl_ReturnAmountA r; wl_ReturnAmountB r].

Definition Stake_slot (r : RawStake) (t : string) : option Event :=
  mjoin (by_topic t [("user", rk_User r); ("token", rk_Token r); ("amount", rk_Amount r)]).
Definition Stake_assign (r : RawStake) (e : Event) (t : string) : res gerr RawStake :=
  let mk a b c := mkRStake (rk_Ledger r) (rk_TxHash r) (rk_OpIndex r) (rk_EventIndex r) (rk_Contract r) (rk_ClosedAt r) (rk_IsBond r) a b c in
  match by_topic t [("user", mk (Some e) (rk_Token r) (rk_Amount r)); ("token", mk (rk_User r) (Some e) (rk_Amount r));
                    ("amount", mk (rk_User r) (rk_Token r) (Some e))] with
  | Some r => Ok r
  | None => unknown_field
  end.
Definition Stake_Complete (r : RawStake) : bool := filled [rk_User r; rk_Token r; rk_Amount r].

Definition WR_slot (r : RawWithdrawRewards) (t : string) : option Event :=
  mjoin (by_topic t [("user", wr_User r); ("reward_token", wr_RewardToken r)]).
Definition WR_assign (r : RawWithdrawRewards) (e : Event) (t : string) : res gerr RawWithdrawRewards :=
  let mk a b := mkWR (wr_Ledger r) (wr_TxHash r) (wr_OpIndex r) (wr_EventIndex r) (wr_Contract r) (wr_ClosedAt r) a b in
  match by_topic t [("user", mk (Some e) (wr_RewardToken r)); ("reward_token", mk (wr_User r) (Some e))] with
  | Some r => Ok r
  | None => unknown_field
  end.
Definition WR_Complete (r : RawWithdrawRewards) : bool := filled [wr_User r; wr_RewardToken r].

#[export] Instance swap_group : RawGroup RawSwap := Build_RawGroup _ Swap_slot Swap_assign Swap_Complete rs_ClosedAt.
#[export] Instance provide_group : RawGroup RawProvideLiquidity := Build_RawGroup _ PL_slot PL_assign PL_Complete pl_ClosedAt.
#[export] Instance withdraw_group : RawGroup RawWithdrawLiquidity := Build_RawGroup _ WL_slot WL_assign WL_Complete wl_ClosedAt.
#[export] Instance stake_group : RawGroup RawStake := Build_RawGroup _ Stake_slot Stake_assign Stake_Complete rk_ClosedAt.
#[export] Instance rewards_group : RawGroup RawWithdrawRewards := Build_RawGroup _ WR_slot WR_assign WR_Complete wr_ClosedAt.

(** ** Classification *)

Inductive action :=
| actionUnknown | actionSwap | actionSwapMap | actionProvideLiquidity | actionWithdrawLiquidity
| actionProvideLiquidityMap | actionWithdrawLiquidityMap | actionBond | actionUnbond | actionAdmin | actionInitialize
| actionWithdrawRewards | actionDistributeRewards | actionCreatePool
| actionCreateDistributionFlow | actionStakeMigration | actionFactoryConfig | actionBlendPoolAdmin | actionToggleTrading.

#[export] Instance action_eq_dec : EqDecision action.
Proof. solve_decision. Defined.

Definition topicPairActions : list (string * string * action) :=
  [(TopicCreateDistributionFlow, TopicSymbolDRAsset, actionCreateDistributionFlow);
   (TopicStakeMigration, TopicMigrationStarted, actionStakeMigration);
   (TopicStakeMigration, TopicMigrationQueried, actionStakeMigration);
   (TopicStake, TopicMigrationCompleted, actionStakeMigration);
   (TopicFactory, TopicFactoryUpdatedConfig, actionFactoryConfig);
   (TopicBlendPool, TopicBlendSetDelegate, actionBlendPoolAdmin);
   (TopicBlendPool, TopicBlendSetMinTradingA, actionBlendPoolAdmin);
   (TopicBlendPool, TopicBlendSetMinTradingB, actionBlendPoolAdmin);
   (TopicToggleTrading, TopicToggleTradingEnabled, actionToggleTrading)].

Fixpoint pair_action (t0 t1 : string) (l : list (string * string * action)) : option action :=
  match l with
  | [] => None
  | (a, b, x) :: l => if String.eqb t0 a && String.eqb t1 b then Some x else pair_action t0 t1 l
  end.

Definition classifyAny (e : Event) : action * string :=
  match ev_Topic e with
  | [] => (actionUnknown, "")
  | [t] =>
      if String.eqb t TopicSymbolSwapMap then (actionSwapMap, "")
      else if String.eqb t TopicSymbolProvideLiquidityMap then (actionProvideLiquidityMap, "")
      else if String.eqb t TopicSymbolWithdrawLiquidityMap then (actionWithdrawLiquidityMap, "")
      else (actionUnknown, "")
  | t0 :: t1 :: _ =>
      if String.eqb t0 TopicSymbolSwap then (actionSwap, t1)
      else if String.eqb t0 TopicSymbolProvideLiquidity then (actionProvideLiquidity, t1)
      else if String.eqb t0 TopicSymbolWithdrawLiquidity then (actionWithdrawLiquidity, t1)
      else if String.eqb t0 TopicSymbolBond then (actionBond, t1)
      else if String.eqb t0 TopicSymbolUnbond then (actionUnbond, t1)
      else if String.eqb t0 TopicSymbolWithdrawRewards then (actionWithdrawRewards, t1)
      else if String.eqb t0 TopicSymbolDistributeRewards then
        if negb (String.eqb t1 TopicSymbolDRAsset) then (actionUnknown, "") else (actionDistributeRewards, t1)
      else if String.eqb t0 TopicSymbolAdmin then (actionAdmin, t1)
      else if String.eqb t0 TopicSymbolInitialize then (actionInitialize, t1)
      else if String.eqb t0 TopicSymbolCreate then
        if negb (String.eqb t1 TopicCreateLiquidityPool) then (actionUnknown, "") else (actionCreatePool, t1)
      else match pair_action t0 t1 topicPairActions with
           | Some a => (a, t1)
           | None => (actionUnknown, "")
           end
  end.

(** ** Values of the fields *)

Definition decodeAddress (valueB64 : string) : res gerr string := sv ← Parse valueB64; AsAddressStrkey sv.
Definition decodeAsset (valueB64 : string) : res gerr Asset := addr ← decodeAddress valueB64; canon (NewSorobanAsset addr).
Definition decodeI128 (valueB64 : string) : res gerr Amount := sv ← Parse valueB64; AsAmountFromI128 sv.

Definition malformed {A} (r : res gerr A) : res gerr A := match r with Ok a => Ok a | Err e => Err (ErrMalformedPayload :: e) end.

Definition decodeAnnouncedPool (e : Event) : res gerr string :=
  body ← malformed (Parse (ev_Value e));
  pool ← malformed (AsAddressStrkey body);
  match pool with
  | String "C" _ => Ok pool
  | _ => Err [ErrMalformedPayload]
  end.

Definition checkSwapAmounts (offer returned : Amount) : res gerr unit :=
  if (Amount_Sign offer <? 0) || (Amount_Sign returned <? 0) then Err [ErrMalformedPayload]
  else if (Amount_Sign offer =? 0) || (Amount_Sign returned =? 0) then Err [ErrZeroAmountSwap]
  else Ok tt.

(** A trade once its operation index is packed; [None] is the panic. *)
Definition packed (opIndex eventIndex : Z) (mk : Z -> Trade) : option (res gerr Trade) :=
  match FanoutOpIndex opIndex eventIndex with
  | Some op => Some (Ok (mk op))
  | None => None
  end.

(** The value of a slot; an empty one is not read. *)
Definition val (o : option Event) : string := match o with Some e => ev_Value e | None => "" end.

Definition swap_values (r : RawSwap) : res gerr (string * Pair * Amount * Amount) :=
  sender ← decodeAddress (val (rs_Sender r));
  sellToken ← decodeAsset (val (rs_SellToken r));
  buyToken ← decodeAsset (val (rs_BuyToken r));
  offer ← decodeI128 (val (rs_OfferAmount r));
  returned ← decodeI128 (val (rs_ReturnAmount r));
  _ ← checkSwapAmounts offer returned;
  pr ← canon (NewPair sellToken buyToken);
  Ok (sender, pr, offer, returned).

Definition decodeSwap (r : RawSwap) : option (res gerr Trade) :=
  if negb (Decodable r) then Some (Err [ErrIncompleteSwap])
  else match swap_values r with
       | Err e => Some (Err e)
       | Ok (sender, pr, offer, returned) =>
           packed (rs_OpIndex r) (rs_EventIndex r) (fun op =>
             mkTrade SourceName (rs_Ledger r) (rs_TxHash r) op (rs_ClosedAt r) pr offer returned "" sender "")
       end.

(** ** The single-event schema *)

Definition mapBodyReaders (valueB64 : string) : res gerr ((string -> res gerr string) * (string -> res gerr Amount)) :=
  sv ← Parse valueB64;
  entries ← AsMap sv;
  Ok (fun key => v ← MustMapField entries key; AsAddressStrkey v, fun key => v ← MustMapField entries key; AsAmountFromI128 v).

Definition swap_map_values (ev : Event) : res gerr (string * Pair * Amount * Amount) :=
  '(addr, amount) ← mapBodyReaders (ev_Value ev);
  sender ← addr FieldSender;
  sellAddr ← addr FieldSellToken;
  buyAddr ← addr FieldBuyToken;
  offer ← amount FieldOfferAmount;
  returned ← amount FieldReturnAmount;
  _ ← checkSwapAmounts offer returned;
  sellToken ← canon (NewSorobanAsset sellAddr);
  buyToken ← canon (NewSorobanAsset buyAddr);
  pr ← canon (NewPair sellToken buyToken);
  Ok (sender, pr, offer, returned).

Definition decodeSwapMap (ev : Event) (closedAt : Time) : option (res gerr Trade) :=
  match swap_map_values ev with
  | Err e => Some (Err e)
  | Ok (sender, pr, offer, returned) =>
      packed (ev_OperationIndex ev) (ev_EventIndex ev) (fun op =>
        mkTrade SourceName (ev_Ledger ev) (ev_TxHash ev) op closedAt pr offer returned "" sender "")
  end.

Definition no_amount : Amount := mkAmount None.

Definition decodeProvideLiquidityMap (ev : Event) (closedAt : Time) : res gerr LiquidityChange :=
  '(addr, amount) ← mapBodyReaders (ev_Value ev);
  sender ← addr "sender";
  tokenA ← addr "token_a";
  tokenB ← addr "token_b";
  amountA ← amount "actual_received_a";
  amountB ← amount "actual_received_b";
  Ok (mkLiq EventActionProvideLiquidity (ev_ContractID ev) (ev_Ledger ev) (ev_TxHash ev) (ev_OperationIndex ev) (ev_EventIndex ev) closedAt
        sender tokenA amountA tokenB amountB no_amount).

Definition decodeWithdrawLiquidityMap (ev : Event) (closedAt : Time) : res gerr LiquidityChange :=
  '(addr, amount) ← mapBodyReaders (ev_Value ev);
  sender ← addr "sender";
  shares ← amount "shares_amount";
  returnA ← amount "return_amount_a";
  returnB ← amount "return_amount_b";
  Ok (mkLiq EventActionWithdrawLiquidity (ev_ContractID ev) (ev_Ledger ev) (ev_TxHash ev) (ev_OperationIndex ev) (ev_EventIndex ev) closedAt
        sender "" returnA "" returnB shares).

(** ** Finalisers *)

Definition decodeProvideLiquidity (r : RawProvideLiquidity) : res gerr LiquidityChange :=
  if negb (PL_Complete r) then Err [ErrIncompleteLiquidity]
  else
    sender ← decodeAddress (val (pl_Sender r));
    tokenA ← decodeAddress (val (pl_TokenA r));
    tokenB ← decodeAddress (val (pl_TokenB r));
    amountA ← decodeI128 (val (pl_TokenAAmount r));
    amountB ← decodeI128 (val (pl_TokenBAmount r));
    Ok (mkLiq EventActionProvideLiquidity (pl_Pool r) (pl_Ledger r) (pl_TxHash r) (pl_OpIndex r) (pl_EventIndex r) (pl_ClosedAt r)
          sender tokenA amountA tokenB amountB no_amount).

Definition decodeWithdrawLiquidity (r : RawWithdrawLiquidity) : res gerr LiquidityChange :=
  if negb (WL_Complete r) then Err [ErrIncompleteLiquidity]
  else
    sender ← decodeAddress (val (wl_Sender r));
    shares ← decodeI128 (val (wl_SharesAmount r));
    returnA ← decodeI128 (val (wl_ReturnAmountA r));
    returnB ← decodeI128 (val (wl_ReturnAmountB r));
    Ok (mkLiq EventActionWithdrawLiquidity (wl_Pool r) (wl_Ledger r) (wl_TxHash r) (wl_OpIndex r) (wl_EventIndex r) (wl_ClosedAt r)
          sender "" returnA "" returnB shares).

Definition decodeStake (r : RawStake) : res gerr StakeChange :=
  if negb (Stake_Complete r) then Err [ErrIncompleteStake]
  else
    user ← decodeAddress (val (rk_User r));
    token ← decodeAddress (val (rk_Token r));
    amount ← decodeI128 (val (rk_Amount r));
    Ok (mkStake (if rk_IsBond r then EventActionBond else EventActionUnbond) (rk_Contract r) (rk_Ledger r) (rk_TxHash r) (rk_OpIndex r)
          (rk_EventIndex r) (rk_ClosedAt r) user token amount).

Definition decodeWithdrawRewards (r : RawWithdrawRewards) : res gerr StakeChange :=
  if negb (WR_Complete r) then Err [ErrIncompleteStake]
  else
    user ← decodeAddress (val (wr_User r));
    rewardToken ← decodeAddress (val (wr_RewardToken r));
    Ok (mkStake EventActionWithdrawRewards (wr_Contract r) (wr_Ledger r) (wr_TxHash r) (wr_OpIndex r) (wr_EventIndex r) (wr_ClosedAt r)
          user rewardToken no_amount).

(** ** Single-event actions (decode_single.go) *)

Definition singleStakeChange (ev : Event) (closedAt : Time) (act user token : string) : list consumer_event :=
  [StakeEvent (mkStake act (ev_ContractID ev) (ev_Ledger ev) (ev_TxHash ev) (ev_OperationIndex ev) (ev_EventIndex ev) closedAt user token no_amount)].

Definition decodeDistributeRewards (ev : Event) (closedAt : Time) : res gerr StakeChange :=
  asset ← decodeAddress (ev_Value ev);
  Ok (mkStake EventActionDistributeRewards (ev_ContractID ev) (ev_Ledger ev) (ev_TxHash ev) (ev_OperationIndex ev) (ev_EventIndex ev) closedAt
        "" asset no_amount).

Definition decodeCreateDistributionFlowEvent (ev : Event) (closedAt : Time) : res gerr (list consumer_event) :=
  asset ← decodeAddress (ev_Value ev);
  Ok (singleStakeChange ev closedAt EventActionCreateDistributionFlow "" asset).

Definition stakeMigrationSlugByTopic (t : string) : string :=
  default "" (by_topic t [("Start of migration for user: ", "migration_started"); ("Query for user completed: ", "migration_queried");
                          ("Migration for user completed and stored: ", "migration_completed")]).

Definition decodeStakeMigrationEvent (ev : Event) (fieldTopic : string) (closedAt : Time) : res gerr (list consumer_event) :=
  user ← decodeAddress (ev_Value ev);
  Ok (singleStakeChange ev closedAt (stakeMigrationSlugByTopic fieldTopic) user "").

Definition newAdminEvent (ev : Event) (closedAt : Time) (slug admin : string) (value : Amount) : Admin :=
  mkAdmin (ev_ContractID ev) (ev_Ledger ev) (ev_TxHash ev) (wrapu 32 (ev_OperationIndex ev)) (wrapu 32 (ev_EventIndex ev)) closedAt slug admin value.

Definition decodeFactoryConfigEvent (ev : Event) (closedAt : Time) : res gerr (list consumer_event) :=
  sv ← malformed (Parse (ev_Value ev));
  if negb (IsVoid sv) then Err [ErrMalformedPayload]
  else Ok [AdminEvent (newAdminEvent ev closedAt "factory_config_updated" "" no_amount)].

Definition checkToggleTradingBody (ev : Event) : res gerr unit :=
  sv ← malformed (Parse (ev_Value ev));
  _ ← malformed (AsBool sv);
  Ok tt.

Definition blendAdminSlugByTopic (t : string) : string :=
  default "" (by_topic t [("set_delegate", "blend_set_delegate"); ("set_min_trading_a", "blend_set_min_trading_a");
                          ("set_min_trading_b", "blend_set_min_trading_b")]).

Definition decodeBlendPoolAdminEvent (ev : Event) (fieldTopic : string) (closedAt : Time) : res gerr (list consumer_event) :=
  let slug := blendAdminSlugByTopic fieldTopic in
  if String.eqb fieldTopic TopicBlendSetDelegate
  then admin ← decodeAddress (ev_Value ev); Ok [AdminEvent (newAdminEvent ev closedAt slug admin no_amount)]
  else value ← decodeI128 (ev_Value ev); Ok [AdminEvent (newAdminEvent ev closedAt slug "" value)].

Definition decodeInitializeEvent (ev : Event) (fieldTopic : string) (closedAt : Time) : res gerr (list consumer_event) :=
  let emit slot :=
    sv ← malformed (Parse (ev_Value ev));
    token ← malformed (AsAddressStrkey sv);
    Ok [InitializeEvent (mkInit (ev_ContractID ev) (ev_Ledger ev) (ev_TxHash ev) (wrapu 32 (ev_OperationIndex ev)) (wrapu 32 (ev_EventIndex ev))
          closedAt slot token)] in
  if String.eqb fieldTopic TopicInitTokenA then emit "a"
  else if String.eqb fieldTopic TopicInitTokenB then emit "b"
  else if String.eqb fieldTopic TopicInitLPShareStaking then Ok []
  else Err [ErrMalformedPayload].

Definition adminActionByTopic (t : string) : option string :=
  by_topic t [("Admin replacement requested by old admin: ", "replace_requested"); ("Replace with new admin: ", "replace_set");
              ("Undo admin change: ", "undo"); ("Accepted new admin: ", "accepted")].

Definition decodeAdminEvent (ev : Event) (fieldTopic : string) (closedAt : Time) : res gerr (list consumer_event) :=
  match adminActionByTopic fieldTopic with
  | None => Ok []
  | Some slug =>
      let admin := match decodeAddress (ev_Value ev) with Ok a => a | Err _ => "" end in
      Ok [AdminEvent (newAdminEvent ev closedAt slug admin no_amount)]
  end.

(** ** The buffer (consumer.go) *)

Definition defaultOrphanMaxAge : Duration := 5 * Minute.

Record buffer := mkBuf {
  b_m : gmap groupKey RawSwap; b_pl : gmap groupKey RawProvideLiquidity; b_wl : gmap groupKey RawWithdrawLiquidity;
  b_bond : gmap groupKey RawStake; b_unbond : gmap groupKey RawStake; b_withdrawRewards : gmap groupKey RawWithdrawRewards;
  b_maxAge : Duration; b_otherEvicted : Z
}.

Definition newBuffer : buffer := mkBuf ∅ ∅ ∅ ∅ ∅ ∅ defaultOrphanMaxAge 0.

Definition with_m (b : buffer) m := mkBuf m (b_pl b) (b_wl b) (b_bond b) (b_unbond b) (b_withdrawRewards b) (b_maxAge b) (b_otherEvicted b).
Definition with_pl (b : buffer) m := mkBuf (b_m b) m (b_wl b) (b_bond b) (b_unbond b) (b_withdrawRewards b) (b_maxAge b) (b_otherEvicted b).
Definition with_wl (b : buffer) m := mkBuf (b_m b) (b_pl b) m (b_bond b) (b_unbond b) (b_withdrawRewards b) (b_maxAge b) (b_otherEvicted b).
Definition with_bond (b : buffer) m := mkBuf (b_m b) (b_pl b) (b_wl b) m (b_unbond b) (b_withdrawRewards b) (b_maxAge b) (b_otherEvicted b).
Definition with_unbond (b : buffer) m := mkBuf (b_m b) (b_pl b) (b_wl b) (b_bond b) m (b_withdrawRewards b) (b_maxAge b) (b_otherEvicted b).
Definition with_rewards (b : buffer) m := mkBuf (b_m b) (b_pl b) (b_wl b) (b_bond b) (b_unbond b) m (b_maxAge b) (b_otherEvicted b).
Definition with_other (b : buffer) n := mkBuf (b_m b) (b_pl b) (b_wl b) (b_bond b) (b_unbond b) (b_withdrawRewards b) (b_maxAge b) n.

Definition takeOtherEvicted (b : buffer) : buffer * Z := (with_other b 0, b_otherEvicted b).

(** The entries of one map that are older than the cutoff, in some order. *)
Definition stale {R} `{RawGroup R} (cutoff : Time) (r : R) : bool := time_Before (ClosedAt r) cutoff.
Definition keep_fresh {R} `{RawGroup R} (cutoff : Time) (m : gmap groupKey R) : gmap groupKey R := filter (fun kv => stale cutoff kv.2 = false) m.
Definition aged_out {R} `{RawGroup R} (cutoff : Time) (m : gmap groupKey R) : list R := (map_to_list (filter (fun kv => stale cutoff kv.2 = true) m)).*2.

Definition sweep_ref (ref now : Time) : Time := if time_IsZero ref then now else ref.

Definition sweepStale (b : buffer) (ref now : Time) : buffer * list RawSwap :=
  if b_maxAge b <=? 0 then (b, [])
  else
    let cutoff := time_Add (sweep_ref ref now) (- b_maxAge b) in
    (with_m b (keep_fresh cutoff (b_m b)), aged_out cutoff (b_m b)).

Definition sweepStaleAll (b : buffer) (ref now : Time) : buffer * Z :=
  if b_maxAge b <=? 0 then (b, 0)
  else
    let cutoff := time_Add (sweep_ref ref now) (- b_maxAge b) in
    let count {R} `{RawGroup R} (m : gmap groupKey R) := Z.of_nat (length (aged_out cutoff m)) in
    (mkBuf (b_m b) (keep_fresh cutoff (b_pl b)) (keep_fresh cutoff (b_wl b)) (keep_fresh cutoff (b_bond b)) (keep_fresh cutoff (b_unbond b))
       (keep_fresh cutoff (b_withdrawRewards b)) (b_maxAge b) (b_otherEvicted b),
     count (b_pl b) + count (b_wl b) + count (b_bond b) + count (b_unbond b) + count (b_withdrawRewards b)).

Definition newRawSwap (e : Event) (closedAt : Time) : RawSwap :=
  mkSwap (ev_Ledger e) (ev_TxHash e) (wrapu 32 (ev_OperationIndex e)) (ev_EventIndex e) (ev_ContractID e) closedAt
    None None None None None None None None.

(** Another event already fills the slot. *)
Definition occupied {R} `{RawGroup R} (r : R) (e : Event) (fieldTopic : string) : bool :=
  match slot r fieldTopic with
  | Some prior => negb (ev_EventIndex prior =? ev_EventIndex e)
  | None => false
  end.

Definition absorb (b : buffer) (e : Event) (fieldTopic : string) (closedAt now : Time) : buffer * list RawSwap * res gerr (option RawSwap) :=
  let '(b, evicted) := sweepStale b closedAt now in
  let '(b, n) := sweepStaleAll b closedAt now in
  let b := with_other b (b_otherEvicted b + n) in
  let k := keyOf e in
  let '(r, evicted) :=
    match b_m b !! k with
    | None => (newRawSwap e closedAt, evicted)
    | Some r => if occupied r e fieldTopic then (newRawSwap e closedAt, evicted ++ [r]) else (r, evicted)
    end in
  match assign r e fieldTopic with
  | Err err => (with_m b (<[k := r]> (b_m b)), evicted, Err err)
  | Ok r =>
      if Complete r then (with_m b (delete k (b_m b)), evicted, Ok (Some r))
      else (with_m b (<[k := r]> (b_m b)), evicted, Ok None)
  end.

Definition orphans (b : buffer) : list RawSwap := (map_to_list (b_m b)).*2.

Definition drain (b : buffer) : buffer * list RawSwap * Z :=
  (mkBuf ∅ ∅ ∅ ∅ ∅ ∅ (b_maxAge b) (b_otherEvicted b), orphans b,
   Z.of_nat (size (b_pl b)) + Z.of_nat (size (b_wl b)) + Z.of_nat (size (b_bond b)) + Z.of_nat (size (b_unbond b)) + Z.of_nat (size (b_withdrawRewards b))).

Definition rotateOpen {R} `{RawGroup R} (m : gmap groupKey R) (k : groupKey) (e : Event) (fieldTopic : string) : gmap groupKey R * Z :=
  match m !! k with
  | None => (m, 0)
  | Some r => if occupied r e fieldTopic then (delete k m, 1) else (m, 0)
  end.

(** What the absorb functions of the other actions share: open or find the
    group, assign, close when complete. *)
Definition absorb_group {R} `{RawGroup R} (m : gmap groupKey R) (fresh : R) (e : Event) (fieldTopic : string)
  : gmap groupKey R * Z * res gerr (option R) :=
  let k := keyOf e in
  let '(m, evicted) := rotateOpen m k e fieldTopic in
  let r := default fresh (m !! k) in
  match assign r e fieldTopic with
  | Err err => (<[k := r]> m, evicted, Err err)
  | Ok r => if Complete r then (delete k m, evicted, Ok (Some r)) else (<[k := r]> m, evicted, Ok None)
  end.

Definition absorbProvideLiquidity (b : buffer) (e : Event) (fieldTopic : string) (closedAt now : Time) : buffer * Z * res gerr (option RawProvideLiquidity) :=
  let '(b, evicted) := sweepStaleAll b closedAt now in
  let fresh := mkPL (ev_Ledger e) (ev_TxHash e) (wrapu 32 (ev_OperationIndex e)) (ev_EventIndex e) (ev_ContractID e) closedAt None None None None None in
  let '(m, n, r) := absorb_group (b_pl b) fresh e fieldTopic in
  (with_pl b m, evicted + n, r).

Definition absorbWithdrawLiquidity (b : buffer) (e : Event) (fieldTopic : string) (closedAt now : Time) : buffer * Z * res gerr (option RawWithdrawLiquidity) :=
  let '(b, evicted) := sweepStaleAll b closedAt now in
  if String.eqb fieldTopic TopicSymbolWLAutoUnbonded then (b, evicted, Ok None)
  else
    let fresh := mkWL (ev_Ledger e) (ev_TxHash e) (wrapu 32 (ev_OperationIndex e)) (ev_EventIndex e) (ev_ContractID e) closedAt None None None None in
    let '(m, n, r) := absorb_group (b_wl b) fresh e fieldTopic in
    (with_wl b m, evicted + n, r).

Definition continuesEarlyUnbond (b : buffer) (k : groupKey) (fieldTopic : string) : bool :=
  match b_bond b !! k, b_unbond b !! k with
  | Some _, _ => false
  | None, None => false
  | None, Some u =>
      match rk_User u with
      | None => false
      | Some _ =>
          if String.eqb fieldTopic TopicSymbolStakeToken then bool_decide (rk_Token u = None)
          else if String.eqb fieldTopic TopicSymbolStakeAmount then bool_decide (rk_Amount u = None)
          else false
      end
  end.

Definition absorbStake (b : buffer) (e : Event) (fieldTopic : string) (closedAt : Time) (isBond : bool) (now : Time) : buffer * Z * res gerr (option RawStake) :=
  let '(b, evicted) := sweepStaleAll b closedAt now in
  let toBond := isBond && negb (continuesEarlyUnbond b (keyOf e) fieldTopic) in
  let fresh := mkRStake (ev_Ledger e) (ev_TxHash e) (wrapu 32 (ev_OperationIndex e)) (ev_EventIndex e) (ev_ContractID e) closedAt isBond None None None in
  let '(m, n, r) := absorb_group (if toBond then b_bond b else b_unbond b) fresh e fieldTopic in
  (if toBond then with_bond b m else with_unbond b m, evicted + n, r).

Definition absorbWithdrawRewards (b : buffer) (e : Event) (fieldTopic : string) (closedAt now : Time) : buffer * Z * res gerr (option RawWithdrawRewards) :=
  let '(b, evicted) := sweepStaleAll b closedAt now in
  let fresh := mkWR (ev_Ledger e) (ev_TxHash e) (wrapu 32 (ev_OperationIndex e)) (ev_EventIndex e) (ev_ContractID e) closedAt None None in
  let '(m, n, r) := absorb_group (b_withdrawRewards b) fresh e fieldTopic in
  (with_rewards b m, evicted + n, r).

(** ** The adapter (dispatcher_adapter.go) *)

Record decoder := mkDec { d_buf : buffer; d_evictedOrphans : Z; d_carried : list consumer_event; d_reg : Registry; d_hooks : list hook_call }.

Definition with_buf (d : decoder) (b : buffer) (orphans : Z) : decoder :=
  mkDec b (d_evictedOrphans d + orphans) (d_carried d) (d_reg d) (d_hooks d).
Definition with_carried (d : decoder) (c : list consumer_event) : decoder :=
  mkDec (d_buf d) (d_evictedOrphans d) c (d_reg d) (d_hooks d).

Definition NewDecoder (gated : list string) (opts : list Option_) : decoder :=
  mkDec newBuffer 0 [] (New ([WithFactories [MainnetFactory]; WithSeed gated] ++ opts)) [].

Definition GatedContractSet (d : decoder) : list string := GatedSet (d_reg d).

Definition Matches (d : decoder) (ev : Event) : bool :=
  let a := (classifyAny ev).1 in
  if bool_decide (a = actionUnknown) then false
  else if bool_decide (a = actionCreatePool) || bool_decide (a = actionFactoryConfig) then IsFactory (d_reg d) (ev_ContractID ev)
  else Has (d_reg d) (ev_ContractID ev).

Definition isNotATrade (e : gerr) : bool := gerr_Is e ErrZeroAmountSwap || gerr_Is e (Canon ErrPairMismatch).

Definition tradeOrNoOp (r : res gerr Trade) : res gerr (list consumer_event) :=
  match r with
  | Err e => if isNotATrade e then Ok [] else Err e
  | Ok t => Ok [TradeEvent t]
  end.

(** The rescued trades and the orphans; [None] is a panic, with the orphans
    counted before it. *)
Fixpoint rescueEvicted (evicted : list RawSwap) (out : list consumer_event) (orphaned : Z) : option (list consumer_event) * Z :=
  match evicted with
  | [] => (Some out, orphaned)
  | r :: evicted =>
      if negb (Decodable r) then rescueEvicted evicted out (orphaned + 1)
      else match decodeSwap r with
           | None => (None, orphaned)
           | Some (Ok t) => rescueEvicted evicted (out ++ [TradeEvent t]) orphaned
           | Some (Err e) => rescueEvicted evicted out (if isNotATrade e then orphaned else orphaned + 1)
           end
  end.

(** [None] is a panic, and the state is what it left. *)
Abbreviation outcome := (option (res gerr (list consumer_event))).

Definition decodeSwapEvent (d : decoder) (ev : Event) (fieldTopic : string) (closedAt now : Time) : outcome * decoder :=
  let '(b, evicted, r) := absorb (d_buf d) ev fieldTopic closedAt now in
  let '(b, other) := takeOtherEvicted b in
  let '(out, orphaned) := rescueEvicted evicted [] 0 in
  let d := with_buf d b (other + orphaned) in
  match out with
  | None => (None, d)
  | Some out =>
      let cur :=
        match r with
        | Err e => Some (Err e)
        | Ok None => Some (Ok [])
        | Ok (Some completed) => tradeOrNoOp <$> decodeSwap completed
        end in
      match cur with
      | None => (None, d)
      | Some (Ok cur) => (Some (Ok (out ++ cur)), d)
      | Some (Err e) => (Some (Err e), with_carried d (d_carried d ++ out))
      end
  end.

Definition decodeSwapMapEvent (ev : Event) (closedAt : Time) : outcome := tradeOrNoOp <$> decodeSwapMap ev closedAt.

Definition liquidityEventOf (r : res gerr LiquidityChange) : res gerr (list consumer_event) := c ← r; Ok [LiquidityEvent c].
Definition stakeEventOf (r : res gerr StakeChange) : res gerr (list consumer_event) := c ← r; Ok [StakeEvent c].

(** A group that is still open emits nothing. *)
Definition finish {R C} (decode : R -> res gerr C) (wrap : res gerr C -> res gerr (list consumer_event)) (r : res gerr (option R)) : outcome :=
  Some (completed ← r; match completed with None => Ok [] | Some c => wrap (decode c) end).

Definition decodeProvideLiquidityEvent (d : decoder) (ev : Event) (fieldTopic : string) (closedAt now : Time) : outcome * decoder :=
  let '(b, evicted, r) := absorbProvideLiquidity (d_buf d) ev fieldTopic closedAt now in
  (finish decodeProvideLiquidity liquidityEventOf r, with_buf d b evicted).

Definition decodeWithdrawLiquidityEvent (d : decoder) (ev : Event) (fieldTopic : string) (closedAt now : Time) : outcome * decoder :=
  let '(b, evicted, r) := absorbWithdrawLiquidity (d_buf d) ev fieldTopic closedAt now in
  (finish decodeWithdrawLiquidity liquidityEventOf r, with_buf d b evicted).

Definition decodeStakeEvent (d : decoder) (ev : Event) (fieldTopic : string) (closedAt : Time) (isBond : bool) (now : Time) : outcome * decoder :=
  let '(b, evicted, r) := absorbStake (d_buf d) ev fieldTopic closedAt isBond now in
  (finish decodeStake stakeEventOf r, with_buf d b evicted).

Definition decodeWithdrawRewardsEvent (d : decoder) (ev : Event) (fieldTopic : string) (closedAt now : Time) : outcome * decoder :=
  let '(b, evicted, r) := absorbWithdrawRewards (d_buf d) ev fieldTopic closedAt now in
  (finish decodeWithdrawRewards stakeEventOf r, with_buf d b evicted).

Definition decodeAction (d : decoder) (a : action) (ev : Event) (fieldTopic : string) (closedAt now : Time) : outcome * decoder :=
  match a with
  | actionSwap => decodeSwapEvent d ev fieldTopic closedAt now
  | actionSwapMap => (decodeSwapMapEvent ev closedAt, d)
  | actionProvideLiquidity => decodeProvideLiquidityEvent d ev fieldTopic closedAt now
  | actionWithdrawLiquidity => decodeWithdrawLiquidityEvent d ev fieldTopic closedAt now
  | actionProvideLiquidityMap => (Some (liquidityEventOf (decodeProvideLiquidityMap ev closedAt)), d)
  | actionWithdrawLiquidityMap => (Some (liquidityEventOf (decodeWithdrawLiquidityMap ev closedAt)), d)
  | actionBond => decodeStakeEvent d ev fieldTopic closedAt true now
  | actionUnbond => decodeStakeEvent d ev fieldTopic closedAt false now
  | actionWithdrawRewards => decodeWithdrawRewardsEvent d ev fieldTopic closedAt now
  | actionDistributeRewards => (Some (stakeEventOf (decodeDistributeRewards ev closedAt)), d)
  | actionInitialize => (Some (decodeInitializeEvent ev fieldTopic closedAt), d)
  | actionAdmin => (Some (decodeAdminEvent ev fieldTopic closedAt), d)
  | actionCreateDistributionFlow => (Some (decodeCreateDistributionFlowEvent ev closedAt), d)
  | actionStakeMigration => (Some (decodeStakeMigrationEvent ev fieldTopic closedAt), d)
  | actionFactoryConfig => (Some (decodeFactoryConfigEvent ev closedAt), d)
  | actionBlendPoolAdmin => (Some (decodeBlendPoolAdminEvent ev fieldTopic closedAt), d)
  | actionToggleTrading => (Some (_ ← checkToggleTradingBody ev; Ok []), d)
  | actionCreatePool | actionUnknown => (Some (Ok []), d)
  end.

Definition seedAnnouncedPool (d : decoder) (ev : Event) : res gerr unit * decoder :=
  match decodeAnnouncedPool ev with
  | Err e => (Err e, d)
  | Ok pool =>
      let '(reg, calls) := Seed (d_reg d) pool (ev_ContractID ev) (ev_Ledger ev) in
      (Ok tt, mkDec (d_buf d) (d_evictedOrphans d) (d_carried d) reg (d_hooks d ++ calls))
  end.

Definition Decode (d : decoder) (ev : Event) (now : Time) : outcome * decoder :=
  let '(a, fieldTopic) := classifyAny ev in
  if bool_decide (a = actionUnknown) then (Some (Ok []), d)
  else if bool_decide (a = actionCreatePool) then let '(r, d) := seedAnnouncedPool d ev in (Some (_ ← r; Ok []), d)
  else match EventClosedAt ev with
       | Err e => (Some (Err e), d)
       | Ok closedAt =>
           let '(r, d) := decodeAction d a ev fieldTopic closedAt now in
           match r with
           | Some (Ok out) => (Some (Ok (d_carried d ++ out)), with_carried d [])
           | r => (r, d)
           end
       end.

(** [None] is a panic. *)
Definition Drain (d : decoder) : option (list consumer_event) * decoder :=
  let '(b, swaps, other) := drain (d_buf d) in
  let '(out, orphaned) := rescueEvicted swaps [] 0 in
  let d' := with_buf d b (other + orphaned) in
  match out with
  | None => (None, d')
  | Some out => (Some (d_carried d ++ out), with_carried d' [])
  end.

Definition EvictedOrphans (d : decoder) : Z := d_evictedOrphans d.
End Decoder.
