(* ===== verification/PhoenixSwap.v ===== *)
(** * What the Phoenix decoder makes of a stream

    The buffer is related to a reference that never ages anything out, the
    reference to the events of each group alone, and those to the swaps they
    were published by. The main result is that a stream in ledger order
    yields exactly the trades of its swaps: none twice, none mixed from two
    swaps, none lost to another pool, to the age limit or to an error. *)

From S2P Require Import Prelude GoLib Encoding Amount Asset Trade ScVal Completeness ContractId Phoenix Projector.

(** ** Slots *)

Lemma rs_get_set r f g e : rs_get (rs_set r f e) g = if bool_decide (g = f) then Some e else rs_get r g.
Proof. by destruct g. Qed.

Definition all_fields : list swapField := [Sender; SellToken; OfferAmount; ActualReceived; BuyToken; ReturnAmount; SpreadAmount; ReferralFee].

Lemma all_fields_elem f : f ∈ all_fields.
Proof. destruct f; unfold all_fields; set_solver. Qed.

Lemma Complete_iff r : Swap_Complete r = true <-> forall f, is_Some (rs_get r f).
Proof.
  unfold Swap_Complete, filled. split.
  - intros HC f. apply forallb_forall with (x := rs_get r f) in HC; [by destruct (rs_get r f)|]. destruct f; cbn; tauto.
  - intros HF. apply forallb_forall. intros o Ho.
    assert (Hx : exists f, o = rs_get r f) by (cbn in Ho; destruct Ho as [<-|[<-|[<-|[<-|[<-|[<-|[<-|[<-|[]]]]]]]]];
      [exists Sender|exists SellToken|exists OfferAmount|exists ActualReceived|exists BuyToken|exists ReturnAmount|exists SpreadAmount|exists ReferralFee]; done).
    destruct Hx as [f ->]. by destruct (HF f) as [? ->].
Qed.

(** Two lists with the same elements for every key. *)
Lemma Permutation_by_key {A K} `{EqDecision K} (key : A -> K) (l l' : list A) :
  (forall k, filter (fun x => key x = k) l ≡ₚ filter (fun x => key x = k) l') -> l ≡ₚ l'.
Proof.
  revert l'. induction l as [|x l IH]; intros l' HP.
  - destruct l' as [|y l']; [done|]. specialize (HP (key y)). rewrite filter_nil, filter_cons_True in HP by done. by apply Permutation_nil_cons in HP.
  - assert (Hx : x ∈ l').
    { assert (Hin : x ∈ filter (fun y => key y = key x) l'); [|by apply list_elem_of_filter in Hin as [_ ?]].
      rewrite <- (HP (key x)). rewrite filter_cons_True by done. by left. }
    apply list_elem_of_split in Hx as (l1 & l2 & ->). rewrite <- Permutation_middle. constructor. apply IH. intros k.
    specialize (HP k). rewrite <- Permutation_middle in HP. rewrite !filter_cons in HP. destruct (decide (key x = k)); [by apply Permutation_cons_inv in HP|done].
Qed.

Section Swaps.
Context {X : Xdr} {XL : XdrLaws} {SK : Strkey}.

Definition topic_of (ev : Event) : string := (classifyAny ev).2.
Definition is_swap (ev : Event) : Prop := (classifyAny ev).1 = actionSwap.
#[export] Instance is_swap_dec ev : Decision (is_swap ev).
Proof. unfold is_swap. solve_decision. Defined.

Definition field_of (ev : Event) : option swapField := by_topic (topic_of ev) swap_fields.

Definition rkey (r : RawSwap) : groupKey := (rs_Ledger r, rs_TxHash r, rs_OpIndex r, rs_Pool r).

Lemma new_key e t : rkey (newRawSwap e t) = keyOf e.
Proof. done. Qed.
Lemma set_key r f e : rkey (rs_set r f e) = rkey r.
Proof. done. Qed.

(** ** The reference: the same groups, with nothing aged out *)

(** Close time of each ledger. *)
Context (close : Z -> Time).

Definition closed (ev : Event) : Time := close (ev_Ledger ev).

(** The group an event goes to, and the group it pushes out. *)
Definition enter (open : option RawSwap) (ev : Event) : RawSwap * list RawSwap :=
  match open with
  | None => (newRawSwap ev (closed ev), [])
  | Some r => if occupied r ev (topic_of ev) then (newRawSwap ev (closed ev), [r]) else (r, [])
  end.

(** The group after the event: still open, and what it finished. *)
Definition settle (r : RawSwap) (ev : Event) : option RawSwap * list RawSwap :=
  match Swap_assign r ev (topic_of ev) with
  | Err _ => (Some r, [])
  | Ok r => if Swap_Complete r then (None, [r]) else (Some r, [])
  end.

Definition gstep (g : list RawSwap * option RawSwap) (ev : Event) : list RawSwap * option RawSwap :=
  let '(r, out) := enter g.2 ev in
  let '(open, fin) := settle r ev in
  (g.1 ++ out ++ fin, open).

Definition rstep (s : list RawSwap * gmap groupKey RawSwap) (ev : Event) : list RawSwap * gmap groupKey RawSwap :=
  let '(fin, open) := gstep (s.1, s.2 !! keyOf ev) ev in
  (fin, partial_alter (fun _ => open) (keyOf ev) s.2).

Definition ref (evs : list Event) : list RawSwap * gmap groupKey RawSwap := foldl rstep ([], ∅) evs.
Definition groups (evs : list Event) : list RawSwap * option RawSwap := foldl gstep ([], None) evs.

Definition opt_list {A} (o : option A) : list A := match o with Some a => [a] | None => [] end.

(** Each open group has its own key. *)
Lemma gstep_keys fin open ev : (forall r, open = Some r -> rkey r = keyOf ev) ->
  exists new, (gstep (fin, open) ev).1 = fin ++ new /\ Forall (fun r => rkey r = keyOf ev) new
    /\ forall r, (gstep (fin, open) ev).2 = Some r -> rkey r = keyOf ev.
Proof.
  intros HO. unfold gstep. cbn [fst snd]. destruct (enter open ev) as [r out] eqn:Ee.
  assert (Hr : rkey r = keyOf ev /\ Forall (fun r => rkey r = keyOf ev) out).
  { unfold enter in Ee. destruct open as [r0|]; [|by injection Ee as <- <-]. specialize (HO r0 eq_refl).
    destruct (occupied r0 ev (topic_of ev)); injection Ee as <- <-; split; try done; by repeat constructor. }
  destruct Hr as [Hr Hout]. unfold settle, Swap_assign. destruct (by_topic _ _) as [f|].
  - destruct (Swap_Complete _); cbn.
    + exists (out ++ [rs_set r f ev]). split; [done|]. split; [|done]. apply Forall_app. split; [done|]. by repeat constructor.
    + exists (out ++ []). split; [done|]. split; [by rewrite app_nil_r|]. intros x [= <-]. done.
  - cbn. exists (out ++ []). split; [done|]. split; [by rewrite app_nil_r|]. intros x [= <-]. done.
Qed.

Lemma ref_groups evs k :
  filter (fun r => rkey r = k) (ref evs).1 = (groups (filter (fun ev => keyOf ev = k) evs)).1
  /\ (ref evs).2 !! k = (groups (filter (fun ev => keyOf ev = k) evs)).2
  /\ forall r, (ref evs).2 !! k = Some r -> rkey r = k.
Proof.
  revert k. induction evs as [|ev evs IH] using rev_ind; intros k; [cbn; by rewrite lookup_empty|].
  unfold ref. rewrite foldl_snoc. fold (ref evs). unfold rstep. destruct (ref evs) as [fin opens] eqn:Er. cbn [fst snd] in *.
  destruct (IH (keyOf ev)) as (_ & Hev & Hkey). destruct (gstep_keys fin (opens !! keyOf ev) ev Hkey) as (new & E1 & HN & E2).
  destruct (gstep (fin, opens !! keyOf ev) ev) as [fin' open'] eqn:Eg. cbn [fst snd] in *. subst fin'. rewrite filter_app.
  destruct (IH k) as (H1 & H2 & H3). rewrite filter_app. destruct (decide (keyOf ev = k)) as [<-|Hk].
  - rewrite lookup_partial_alter_eq. rewrite (filter_cons_True _ ev []), filter_nil by done. unfold groups in *. rewrite foldl_snoc.
    set (g := foldl gstep ([], None) _) in *. destruct g as [gf go]. cbn [fst snd] in *.
    assert (HG : gstep (gf, go) ev = (gf ++ new, open')).
    { rewrite H2 in Eg. unfold gstep in *. cbn [fst snd] in *. destruct (enter go ev) as [r out], (settle r ev) as [o f].
      injection Eg as E ->. apply app_inv_head in E. by rewrite E. }
    rewrite HG. cbn [fst snd]. rewrite H1. split; [|done]. f_equal.
    clear -HN. induction new as [|x new IHn]; [done|]. apply Forall_cons in HN as [Hx HN]. rewrite filter_cons_True by done. f_equal. by apply IHn.
  - rewrite lookup_partial_alter_ne by done. rewrite (filter_cons_False _ ev []), filter_nil, app_nil_r by done.
    rewrite <- H1, <- H2. split_and!; try done. rewrite <- (app_nil_r (filter _ fin)) at 2. f_equal.
    clear -HN Hk. induction new as [|x new IHn]; [done|]. apply Forall_cons in HN as [Hx HN]. rewrite filter_cons_False by congruence. by apply IHn.
Qed.

Lemma values_key (m : gmap groupKey RawSwap) k : (forall k r, m !! k = Some r -> rkey r = k) -> filter (fun r => rkey r = k) (values m) ≡ₚ opt_list (m !! k).
Proof.
  intros HK. assert (HN : forall m' : gmap groupKey RawSwap, (forall k' r, m' !! k' = Some r -> rkey r <> k) -> filter (fun r => rkey r = k) (values m') = []).
  { intros m' HM. unfold values.
    assert (HF : Forall (fun r => rkey r <> k) (map_to_list m').*2).
    { apply Forall_fmap, Forall_forall. intros [k' r] Hin%elem_of_map_to_list. by apply (HM k'). }
    clear -HF. induction HF as [|r l Hr _ IH]; [done|]. by rewrite filter_cons_False. }
  destruct (m !! k) as [r|] eqn:E; cbn [opt_list].
  - rewrite <- (insert_delete_id m k r E). unfold values. rewrite map_to_list_insert by apply lookup_delete_eq. rewrite fmap_cons. cbn [snd]. rewrite filter_cons_True by (by apply HK).
    constructor. fold (values (delete k m)). rewrite HN; [done|]. intros k' x Hx%lookup_delete_Some. destruct Hx as [Hne Hx]. rewrite (HK _ _ Hx). congruence.
  - rewrite HN; [done|]. intros k' x Hx. rewrite (HK _ _ Hx). intros ->. congruence.
Qed.

(** All groups of a stream, finished or left open. *)
Definition ref_all (evs : list Event) : list RawSwap := (ref evs).1 ++ values (ref evs).2.

Lemma ref_all_key evs k : let g := groups (filter (fun ev => keyOf ev = k) evs) in
  filter (fun r => rkey r = k) (ref_all evs) ≡ₚ g.1 ++ opt_list g.2.
Proof.
  cbv zeta. destruct (ref_groups evs k) as (H1 & H2 & _). unfold ref_all. rewrite filter_app, H1, <- H2. apply Permutation_app_head, values_key.
  intros k' r Hr. by apply (ref_groups evs k').
Qed.

(** ** The groups of one key are the swaps that were published *)

(** A swap as it was published: its first event and the others. *)
Abbreviation swap := (Event * list Event)%type.
Definition flat (s : swap) : list Event := s.1 :: s.2.

Definition put (r : RawSwap) (ev : Event) : RawSwap := match field_of ev with Some f => rs_set r f ev | None => r end.

(** The fields of the swap, each in its slot. *)
Definition swap_of (s : swap) : RawSwap := foldl put (newRawSwap s.1 (closed s.1)) (flat s).

Record wf_swap (s : swap) : Prop := {
  wf_fields : NoDup (field_of <$> flat s);
  wf_known : Forall (fun ev => is_Some (field_of ev)) (flat s);
  wf_key : Forall (fun ev => keyOf ev = keyOf s.1) (flat s)
}.

Lemma put_get r ev f : is_Some (field_of ev) -> rs_get (put r ev) f = if bool_decide (field_of ev = Some f) then Some ev else rs_get r f.
Proof.
  intros [g Hg]. unfold put. rewrite Hg, rs_get_set. destruct (decide (f = g)) as [->|Hne]; [by rewrite !bool_decide_true|].
  rewrite !bool_decide_false; congruence.
Qed.

Lemma puts_get l r f : NoDup (field_of <$> l) -> Forall (fun ev => is_Some (field_of ev)) l ->
  (forall e, rs_get (foldl put r l) f = Some e -> e ∈ l /\ field_of e = Some f \/ rs_get r f = Some e)
  /\ (forall e, e ∈ l -> field_of e = Some f -> rs_get (foldl put r l) f = Some e)
  /\ ((forall e, e ∈ l -> field_of e <> Some f) -> rs_get (foldl put r l) f = rs_get r f).
Proof.
  revert r. induction l as [|x l IH]; intros r HN HK; [cbn; split_and!; [by right| |done]; by intros e ?%elem_of_nil|].
  cbn [fmap list_fmap] in HN. apply NoDup_cons in HN as [Hx HN]. apply Forall_cons in HK as [Hk HK]. cbn [foldl].
  destruct (IH (put r x) HN HK) as (H1 & H2 & H3). rewrite put_get in H1, H3 by done. split_and!.
  - intros e He. destruct (H1 e He) as [[? ?]|E]; [left; split; [by right|done]|].
    destruct (bool_decide (field_of x = Some f)) eqn:Eb; [|by right]. injection E as <-. apply bool_decide_eq_true in Eb. left. split; [by left|done].
  - intros e He Ef. apply elem_of_cons in He as [->|He]; [|by apply H2]. rewrite H3; [by rewrite bool_decide_true|].
    intros e' He' Ef'. apply Hx. rewrite Ef, <- Ef'. by apply list_elem_of_fmap_2.
  - intros HF. rewrite H3 by (intros e He; apply HF; by right). rewrite bool_decide_false; [done|]. apply HF. by left.
Qed.

Lemma swap_of_get s f e : wf_swap s -> rs_get (swap_of s) f = Some e <-> e ∈ flat s /\ field_of e = Some f.
Proof.
  intros [HN HK _]. destruct (puts_get (flat s) (newRawSwap s.1 (closed s.1)) f HN HK) as (H1 & H2 & _). split.
  - intros He. destruct (H1 e He) as [?|E]; [done|]. by destruct f.
  - intros [? ?]. by apply H2.
Qed.

Lemma gstep_put fin r ev f : field_of ev = Some f -> rs_get r f = None ->
  gstep (fin, Some r) ev = if Swap_Complete (put r ev) then (fin ++ [put r ev], None) else (fin, Some (put r ev)).
Proof.
  intros Ef Hr. unfold gstep, enter, settle, Swap_assign, occupied, put. cbn [fst snd slot swap_group]. unfold Swap_slot.
  unfold field_of in Ef |- *. rewrite Ef. cbn [mbind option_bind]. rewrite Hr.
  destruct (Swap_Complete _); cbn [app]; by rewrite ?app_nil_r.
Qed.

Lemma run_rest l fin r : NoDup (field_of <$> l) -> Forall (fun ev => is_Some (field_of ev)) l ->
  (forall ev f, ev ∈ l -> field_of ev = Some f -> rs_get r f = None) -> Swap_Complete r = false ->
  foldl gstep (fin, Some r) l = if Swap_Complete (foldl put r l) then (fin ++ [foldl put r l], None) else (fin, Some (foldl put r l)).
Proof.
  revert r. induction l as [|x l IH]; intros r HN HK HF HC; [cbn [foldl]; by rewrite HC|].
  cbn [fmap list_fmap] in HN. apply NoDup_cons in HN as [Hx HN]. apply Forall_cons in HK as [[f Hf] HK]. cbn [foldl].
  rewrite (gstep_put fin r x f Hf); [|by apply (HF x); [left|]].
  destruct l as [|y l]; [done|]. assert (HC' : Swap_Complete (put r x) = false).
  { apply not_true_is_false. intros HX. apply Forall_cons in HK as [[g Hg] _]. rewrite Complete_iff in HX. destruct (HX g) as [e He].
    rewrite put_get in He by done. destruct (bool_decide (field_of x = Some g)) eqn:Eb.
    - apply bool_decide_eq_true in Eb. apply Hx. rewrite Eb, <- Hg. left.
    - by rewrite (HF y g) in He; [|right; left|]. }
  rewrite HC'. apply IH; try done. intros ev g He Hg. rewrite put_get by done.
  rewrite bool_decide_false; [apply (HF ev); [by right|done]|]. intros Ex. apply Hx. rewrite Ex, <- Hg. by apply list_elem_of_fmap_2.
Qed.

(** From a free slot, or from a group that the first event pushes out. *)
Lemma run_swap s fin open : wf_swap s -> (forall p, open = Some p -> occupied p s.1 (topic_of s.1) = true) ->
  foldl gstep (fin, open) (flat s) =
    if Swap_Complete (swap_of s) then ((fin ++ opt_list open) ++ [swap_of s], None) else (fin ++ opt_list open, Some (swap_of s)).
Proof.
  intros [HN HK _] HO. destruct s as [e rest]. unfold flat, swap_of in *. cbn [fst snd flat foldl] in *.
  assert (HS : gstep (fin, open) e = gstep (fin ++ opt_list open, Some (newRawSwap e (closed e))) e).
  { unfold gstep, enter at 1. cbn [fst snd]. assert (Hn : occupied (newRawSwap e (closed e)) e (topic_of e) = false).
    { unfold occupied. cbn [slot swap_group]. unfold Swap_slot. by destruct (by_topic _ _) as [[]|]. }
    unfold enter. rewrite Hn. destruct open as [p|].
    - rewrite (HO p eq_refl). destruct (settle _ _). cbn [opt_list]. by rewrite <- app_assoc.
    - cbn [opt_list]. rewrite app_nil_r. done. }
  rewrite HS. change (foldl gstep ?g (e :: rest)) with (foldl gstep g (e :: rest)).
  apply (run_rest (e :: rest) (fin ++ opt_list open) (newRawSwap e (closed e)) HN HK); [by intros ev []|done].
Qed.

(** The next swap of a key starts when the last one is complete, or with a
    field that the last one already has. *)
Fixpoint follow (prev : option RawSwap) (l : list swap) : Prop :=
  match l with
  | [] => True
  | s :: l => (forall p, prev = Some p -> occupied p s.1 (topic_of s.1) = true)
              /\ follow (if Swap_Complete (swap_of s) then None else Some (swap_of s)) l
  end.

Lemma run_swaps l fin open : Forall wf_swap l -> follow open l ->
  let g := foldl gstep (fin, open) (l ≫= flat) in g.1 ++ opt_list g.2 = (fin ++ opt_list open) ++ map swap_of l.
Proof.
  cbv zeta. revert fin open. induction l as [|s l IH]; intros fin open HW HF; [cbn; by rewrite app_nil_r|].
  apply Forall_cons in HW as [Hs HW]. destruct HF as [HO HF]. cbn [mbind list_bind]. rewrite foldl_app, (run_swap s fin open Hs HO).
  cbn [map]. destruct (Swap_Complete (swap_of s)) eqn:EC; rewrite IH by done; cbn [opt_list]; rewrite ?app_nil_r, <- ?app_assoc; done.
Qed.

(** ** The decoder and the reference *)

(** The clock that a sweep would fall back on. *)
Context (nowFn : Event -> Time).

(** A consumer of the decoder: what it accepted, what it was given. *)
Definition feed (s : list Event * list consumer_event * decoder) (ev : Event) : list Event * list consumer_event * decoder :=
  let '(acc, outs, d) := s in
  if Matches d ev
  then let '(r, d) := Decode d ev (nowFn ev) in (acc ++ [ev], outs ++ match r with Some (Ok out) => out | _ => [] end, d)
  else s.

Definition drive (d : decoder) (evs : list Event) : list Event * list consumer_event * decoder := foldl feed ([], [], d) evs.

(** A bounded stream ends with a drain. *)
Definition decode_all (d : decoder) (evs : list Event) : list consumer_event :=
  let '(_, outs, d) := drive d evs in outs ++ default [] (Drain d).1.

Definition accepted (d : decoder) (evs : list Event) : list Event := (drive d evs).1.1.

Definition trades (outs : list consumer_event) : list Trade := omap (fun o => match o with TradeEvent t => Some t | _ => None end) outs.

Definition trade_of (r : RawSwap) : option Trade := match decodeSwap r with Some (Ok t) => Some t | _ => None end.
Definition map_trade (ev : Event) : option Trade :=
  if bool_decide ((classifyAny ev).1 = actionSwapMap)
  then match decodeSwapMap ev (closed ev) with Some (Ok t) => Some t | _ => None end
  else None.

Lemma trades_app a b : trades (a ++ b) = trades a ++ trades b.
Proof. apply omap_app. Qed.

(** The packed index does not panic. *)
Definition idx_ok (op ei : Z) : Prop := 0 <= op <= 0xFFFF /\ 0 <= ei <= 0xFFFF.
Definition raw_ok (r : RawSwap) : Prop := idx_ok (rs_OpIndex r) (rs_EventIndex r).

Lemma packed_ok op ei mk : idx_ok op ei -> packed op ei mk <> None.
Proof.
  intros [Ho He]. unfold packed, FanoutOpIndex. rewrite !(proj2 (Z.ltb_ge _ _)) by lia. done.
Qed.

Lemma decodeSwap_ok r : raw_ok r -> decodeSwap r <> None.
Proof.
  intros HR. unfold decodeSwap. destruct (negb _); [done|]. destruct (swap_values r) as [[[[a b] c] e]|]; [|done]. by apply packed_ok.
Qed.

Lemma rescueEvicted_trades evicted out n : Forall raw_ok evicted ->
  exists out' n', rescueEvicted evicted out n = (Some out', n') /\ trades out' = trades out ++ omap trade_of evicted.
Proof.
  revert out n. induction evicted as [|r evicted IH]; intros out n HR; [exists out, n; split; [done|]; by rewrite app_nil_r|].
  apply Forall_cons in HR as [Hr HR]. cbn [rescueEvicted omap list_omap]. unfold trade_of at 1. destruct (negb (Decodable r)) eqn:ED.
  { destruct (IH out (n + 1) HR) as (o & m & E & Et). exists o, m. split; [done|]. rewrite Et. unfold decodeSwap. by rewrite ED. }
  pose proof (decodeSwap_ok r Hr). destruct (decodeSwap r) as [[t|e]|]; [| |done].
  - destruct (IH (out ++ [TradeEvent t]) n HR) as (o & m & E & Et). exists o, m. split; [done|]. rewrite Et, trades_app, <- app_assoc. done.
  - destruct (IH out (if isNotATrade e then n else n + 1) HR) as (o & m & E & Et). by exists o, m.
Qed.

(** ** Sweeps *)

Lemma keep_fresh_lookup (cutoff : Time) (m : gmap groupKey RawSwap) k :
  keep_fresh cutoff m !! k = match m !! k with Some r => if rs_ClosedAt r <? cutoff then None else Some r | None => None end.
Proof.
  unfold keep_fresh. rewrite map_lookup_filter. destruct (m !! k) as [r|]; cbn; [|done]. unfold stale. cbn [ClosedAt swap_group]. unfold time_Before.
  destruct (rs_ClosedAt r <? cutoff); [by rewrite option_guard_False|by rewrite option_guard_True].
Qed.

Lemma values_split (m m1 : gmap groupKey RawSwap) : m1 ⊆ m -> values m ≡ₚ values (m ∖ m1) ++ values m1.
Proof.
  induction m1 as [|k r m1 Hk IH] using map_ind; intros HS.
  - assert (m ∖ ∅ = m) as -> by (apply map_eq; intros i; by rewrite lookup_difference, lookup_empty). by rewrite app_nil_r.
  - assert (Hm : m !! k = Some r) by (eapply lookup_weaken; [apply lookup_insert_eq|done]).
    rewrite IH by (etransitivity; [by apply insert_subseteq|done]).
    assert (m ∖ m1 = <[k := r]> (m ∖ <[k := r]> m1)) as ->.
    { apply map_eq. intros i. destruct (decide (i = k)) as [->|Hne]; [by rewrite lookup_insert_eq, lookup_difference, Hk|].
      by rewrite lookup_insert_ne, !lookup_difference, lookup_insert_ne by done. }
    rewrite !values_insert; [|done|by rewrite lookup_difference, lookup_insert_eq]. by rewrite <- Permutation_middle.
Qed.

(** The stale entries and the fresh ones. *)
Lemma values_sweep (cutoff : Time) (m : gmap groupKey RawSwap) : values m ≡ₚ aged_out cutoff m ++ values (keep_fresh cutoff m).
Proof.
  rewrite (values_split m (keep_fresh cutoff m)) by apply map_filter_subseteq. apply Permutation_app_tail. unfold values, aged_out.
  assert (m ∖ keep_fresh cutoff m = filter (fun kv => stale cutoff kv.2 = true) m) as ->; [|done].
  apply map_eq. intros k. rewrite lookup_difference, keep_fresh_lookup, map_lookup_filter.
  destruct (m !! k) as [r|] eqn:E; cbn [mbind option_bind]; [|done]. unfold stale. cbn [ClosedAt swap_group snd]. unfold time_Before.
  destruct (rs_ClosedAt r <? cutoff); [by rewrite option_guard_True|by rewrite option_guard_False].
Qed.

Definition cutoff_at (ev : Event) : Time := closed ev - defaultOrphanMaxAge.

Lemma sweepStaleAll_m b ref now : b_m (sweepStaleAll b ref now).1 = b_m b /\ b_maxAge (sweepStaleAll b ref now).1 = b_maxAge b.
Proof. unfold sweepStaleAll. by destruct (b_maxAge b <=? 0). Qed.

(** One event in the buffer, as the reference sees it. *)
Lemma absorb_spec b e now :
  b_maxAge b = defaultOrphanMaxAge -> closed e <> zero_time -> (forall r, b_m b !! keyOf e = Some r -> rs_ClosedAt r = closed e) ->
  let g := enter (b_m b !! keyOf e) e in let s := settle g.1 e in
  exists b' res, absorb b e (topic_of e) (closed e) now = (b', aged_out (cutoff_at e) (b_m b) ++ g.2, res)
    /\ b_m b' = partial_alter (fun _ => s.1) (keyOf e) (keep_fresh (cutoff_at e) (b_m b)) /\ b_maxAge b' = defaultOrphanMaxAge
    /\ s.2 = match res with Ok (Some c) => [c] | _ => [] end.
Proof.
  intros HM HZ HC. cbv zeta. unfold absorb, sweepStale. rewrite HM. change (defaultOrphanMaxAge <=? 0) with false. cbv iota.
  assert (Hz : sweep_ref (closed e) now = closed e) by (unfold sweep_ref, time_IsZero; by rewrite (proj2 (Z.eqb_neq _ _))).
  rewrite Hz. change (time_Add (closed e) (- defaultOrphanMaxAge)) with (cutoff_at e).
  destruct (sweepStaleAll _ _ _) as [b1 n] eqn:Es. match type of Es with sweepStaleAll ?x ?y ?z = _ => pose proof (sweepStaleAll_m x y z) as [Hm Ha] end.
  rewrite Es in Hm, Ha. cbn [fst b_m b_maxAge with_m] in Hm, Ha. cbn [b_m with_other]. rewrite Hm.
  assert (HK : keep_fresh (cutoff_at e) (b_m b) !! keyOf e = b_m b !! keyOf e).
  { rewrite keep_fresh_lookup. destruct (b_m b !! keyOf e) as [r|]; [|done]. rewrite (HC r eq_refl).
    rewrite (proj2 (Z.ltb_ge _ _)); [done|]. unfold cutoff_at, defaultOrphanMaxAge, Minute, Second. lia. }
  rewrite HK. set (g := enter (b_m b !! keyOf e) e).
  assert (Hg : match b_m b !! keyOf e with
    | Some r => if occupied r e (topic_of e) then (newRawSwap e (closed e), aged_out (cutoff_at e) (b_m b) ++ [r]) else (r, aged_out (cutoff_at e) (b_m b))
    | None => (newRawSwap e (closed e), aged_out (cutoff_at e) (b_m b))
    end = (g.1, aged_out (cutoff_at e) (b_m b) ++ g.2)).
  { unfold g, enter. destruct (b_m b !! keyOf e) as [r|]; [destruct (occupied r e (topic_of e))|]; cbn [fst snd]; by rewrite ?app_nil_r. }
  rewrite Hg. unfold settle. cbn [assign swap_group Complete]. destruct (Swap_assign g.1 e (topic_of e)) as [r|err]; [destruct (Swap_Complete r)|]; eexists _, _; (split; [reflexivity|]);
    cbn [b_m with_m b_maxAge with_other fst snd]; rewrite Ha, HM; done.
Qed.

Definition emitted (r : option (res gerr (list consumer_event))) : list consumer_event := match r with Some (Ok out) => out | _ => [] end.

Lemma decodeSwapEvent_spec d e now :
  let m := b_m (d_buf d) in
  b_maxAge (d_buf d) = defaultOrphanMaxAge -> closed e <> zero_time -> (forall r, m !! keyOf e = Some r -> rs_ClosedAt r = closed e) ->
  let g := enter (m !! keyOf e) e in let s := settle g.1 e in let new := aged_out (cutoff_at e) m ++ g.2 ++ s.2 in
  Forall raw_ok new ->
  exists r d', decodeSwapEvent d e (topic_of e) (closed e) now = (r, d')
    /\ b_m (d_buf d') = partial_alter (fun _ => s.1) (keyOf e) (keep_fresh (cutoff_at e) m) /\ b_maxAge (d_buf d') = defaultOrphanMaxAge
    /\ match r with
       | None => False
       | Some (Ok out) => d_carried d' = d_carried d /\ trades out = omap trade_of new
       | Some (Err _) => trades (d_carried d') = trades (d_carried d) ++ omap trade_of new
       end.
Proof.
  cbv zeta. intros HM HZ HC HR. destruct (absorb_spec (d_buf d) e now HM HZ HC) as (b' & res & E & Em & Ea & Es).
  unfold decodeSwapEvent. rewrite E. cbn [takeOtherEvicted]. rewrite app_assoc in HR. apply Forall_app in HR as [HR1 HR2].
  destruct (rescueEvicted_trades _ [] 0 HR1) as (out & n & Er & Et). rewrite Er. rewrite app_assoc, omap_app. cbn [trades omap list_omap app] in Et.
  rewrite Es in HR2 |- *. destruct res as [[c|]|err].
  - apply Forall_cons in HR2 as [HR2 _]. pose proof (decodeSwap_ok c HR2) as Hok. cbn [omap list_omap].
    destruct (decodeSwap c) as [[t|e']|] eqn:Ed; [| |done]; cbn [fmap option_fmap option_map tradeOrNoOp].
    + assert (trade_of c = Some t) as -> by (unfold trade_of; by rewrite Ed). eexists _, _. split; [reflexivity|]. split; [done|]. split; [done|]. split; [done|]. by rewrite trades_app, Et.
    + destruct (isNotATrade e'); eexists _, _; (split; [reflexivity|]); (split; [done|]); (split; [done|]).
      * assert (trade_of c = None) as -> by (unfold trade_of; by rewrite Ed). split; [done|]. by rewrite trades_app, Et.
      * assert (trade_of c = None) as -> by (unfold trade_of; by rewrite Ed). cbn [d_carried with_carried with_buf]. by rewrite trades_app, Et, app_nil_r.
  - eexists _, _. split; [reflexivity|]. split; [done|]. split; [done|]. split; [done|]. cbn [omap list_omap]. by rewrite trades_app, Et.
  - eexists _, _. split; [reflexivity|]. split; [done|]. split; [done|]. cbn [d_carried with_carried with_buf omap list_omap]. by rewrite trades_app, Et, app_nil_r.
Qed.

(** The other actions leave the swaps alone and emit no trade of theirs. *)
Definition swaps_kept (d : decoder) (p : option (res gerr (list consumer_event)) * decoder) : Prop :=
  b_m (d_buf p.2) = b_m (d_buf d) /\ b_maxAge (d_buf p.2) = b_maxAge (d_buf d) /\ d_carried p.2 = d_carried d
  /\ p.1 <> None /\ trades (emitted p.1) = [].

Lemma finish_kept {R C} (decode : R -> res gerr C) wrap r d b n :
  (forall c, trades (emitted (Some (wrap c))) = []) -> b_m b = b_m (d_buf d) -> b_maxAge b = b_maxAge (d_buf d) ->
  swaps_kept d (finish decode wrap r, with_buf d b n).
Proof.
  intros HW Hm Ha. split; [done|]. split; [done|]. split; [done|]. split; [done|]. unfold finish. cbn [fst].
  destruct r as [[c|]|e]; [apply HW|done..].
Qed.

Lemma liquidity_no_trade c : trades (emitted (Some (liquidityEventOf c))) = [].
Proof. by destruct c. Qed.
Lemma stake_no_trade c : trades (emitted (Some (stakeEventOf c))) = [].
Proof. by destruct c. Qed.

Lemma decodeAction_kept d a ev ft t now : a <> actionSwap -> a <> actionSwapMap -> swaps_kept d (decodeAction d a ev ft t now).
Proof.
  intros H1 H2. destruct a; try done; cbn [decodeAction].
  - unfold decodeProvideLiquidityEvent, absorbProvideLiquidity. destruct (sweepStaleAll _ _ _) as [b n] eqn:Es.
    pose proof (sweepStaleAll_m (d_buf d) t now) as [Hm Ha]. rewrite Es in Hm, Ha. destruct (absorb_group _ _ _ _) as [[m k] r].
    by apply finish_kept; [apply liquidity_no_trade|..].
  - unfold decodeWithdrawLiquidityEvent, absorbWithdrawLiquidity. destruct (sweepStaleAll _ _ _) as [b n] eqn:Es.
    pose proof (sweepStaleAll_m (d_buf d) t now) as [Hm Ha]. rewrite Es in Hm, Ha. destruct (String.eqb _ _).
    + by apply finish_kept; [apply liquidity_no_trade|..].
    + destruct (absorb_group _ _ _ _) as [[m k] r]. by apply finish_kept; [apply liquidity_no_trade|..].
  - split_and!; try done. apply liquidity_no_trade.
  - split_and!; try done. apply liquidity_no_trade.
  - unfold decodeStakeEvent, absorbStake. destruct (sweepStaleAll _ _ _) as [b n] eqn:Es.
    pose proof (sweepStaleAll_m (d_buf d) t now) as [Hm Ha]. rewrite Es in Hm, Ha. destruct (absorb_group _ _ _ _) as [[m k] r].
    apply finish_kept; [apply stake_no_trade|by destruct (_ && _)..].
  - unfold decodeStakeEvent, absorbStake. destruct (sweepStaleAll _ _ _) as [b n] eqn:Es.
    pose proof (sweepStaleAll_m (d_buf d) t now) as [Hm Ha]. rewrite Es in Hm, Ha. destruct (absorb_group _ _ _ _) as [[m k] r].
    apply finish_kept; [apply stake_no_trade|by destruct (_ && _)..].
  - split_and!; try done. cbn [fst]. unfold decodeAdminEvent. by destruct (adminActionByTopic ft).
  - split_and!; try done. cbn [fst]. unfold decodeInitializeEvent.
    destruct (String.eqb ft TopicInitTokenA); [|destruct (String.eqb ft TopicInitTokenB); [|by destruct (String.eqb ft _)]];
      (destruct (malformed (Parse _)) as [sv|]; [|done]; cbn; by destruct (malformed _)).
  - unfold decodeWithdrawRewardsEvent, absorbWithdrawRewards. destruct (sweepStaleAll _ _ _) as [b n] eqn:Es.
    pose proof (sweepStaleAll_m (d_buf d) t now) as [Hm Ha]. rewrite Es in Hm, Ha. destruct (absorb_group _ _ _ _) as [[m k] r].
    by apply finish_kept; [apply stake_no_trade|..].
  - split_and!; try done. apply stake_no_trade.
  - split_and!; try done. cbn [fst]. unfold decodeCreateDistributionFlowEvent. by destruct (decodeAddress _).
  - split_and!; try done. cbn [fst]. unfold decodeStakeMigrationEvent. by destruct (decodeAddress _).
  - split_and!; try done. cbn [fst]. unfold decodeFactoryConfigEvent. destruct (malformed _) as [sv|]; [|done]. cbn. by destruct (negb _).
  - split_and!; try done. cbn [fst]. unfold decodeBlendPoolAdminEvent. destruct (String.eqb _ _); [by destruct (decodeAddress _)|by destruct (decodeI128 _)].
  - split_and!; try done. cbn [fst]. by destruct (checkToggleTradingBody ev).
Qed.

(** ** The invariant *)

(** What is asked of a stream: a close time for every ledger that does not go
    back, and indices that fit. *)
Record event_ok (ev : Event) : Prop := {
  ok_time : EventClosedAt ev = Ok (closed ev);
  ok_set : closed ev <> zero_time;
  ok_idx : idx_ok (ev_OperationIndex ev) (ev_EventIndex ev)
}.

Definition key_ledger (k : groupKey) : Z := let '(l, _, _, _) := k in l.

Record inv (acc : list Event) (outs : list consumer_event) (d : decoder) : Prop := {
  inv_age : b_maxAge (d_buf d) = defaultOrphanMaxAge;
  inv_sub : b_m (d_buf d) ⊆ (ref (filter is_swap acc)).2;
  inv_time : forall k r, (ref (filter is_swap acc)).2 !! k = Some r -> rs_ClosedAt r = close (key_ledger k) /\ raw_ok r;
  inv_swept : forall k r, (ref (filter is_swap acc)).2 !! k = Some r -> b_m (d_buf d) !! k = None ->
    exists e, e ∈ acc /\ close (key_ledger k) < closed e;
  inv_trades : trades (outs ++ d_carried d) ≡ₚ omap map_trade acc
    ++ omap trade_of ((ref (filter is_swap acc)).1 ++ values ((ref (filter is_swap acc)).2 ∖ b_m (d_buf d)))
}.

Context (close_mono : forall l l', l <= l' -> close l <= close l').

Lemma new_ok ev : event_ok ev -> raw_ok (newRawSwap ev (closed ev)) /\ rs_ClosedAt (newRawSwap ev (closed ev)) = close (key_ledger (keyOf ev)).
Proof.
  intros [_ _ [Ho He]]. split; [|done]. split; [|done]. cbn. unfold wrapu. rewrite Z.mod_small; lia.
Qed.

(** What an event does to the group of its key. *)
Lemma settle_ok open ev : event_ok ev -> (forall r, open = Some r -> rs_ClosedAt r = close (key_ledger (keyOf ev)) /\ raw_ok r) ->
  let g := enter open ev in let s := settle g.1 ev in
  Forall raw_ok (g.2 ++ s.2) /\ (forall r, s.1 = Some r -> rs_ClosedAt r = close (key_ledger (keyOf ev)) /\ raw_ok r).
Proof.
  intros HE HO. cbv zeta. destruct (enter open ev) as [r out] eqn:Ee. cbn [fst snd].
  assert (Hr : (rs_ClosedAt r = close (key_ledger (keyOf ev)) /\ raw_ok r) /\ Forall raw_ok out).
  { destruct (new_ok ev HE) as [Hn1 Hn2]. unfold enter in Ee. destruct open as [r0|]; [|injection Ee as <- <-; split; [by split|constructor]].
    destruct (HO r0 eq_refl) as [H1 H2]. destruct (occupied r0 ev (topic_of ev)); injection Ee as <- <-; (split; [by split|]); [by apply Forall_singleton|constructor]. }
  destruct Hr as [[Ht Hr] Hout]. unfold settle, Swap_assign. destruct (by_topic _ _) as [f|].
  - assert (HS : rs_ClosedAt (rs_set r f ev) = close (key_ledger (keyOf ev)) /\ raw_ok (rs_set r f ev)) by done.
    destruct (Swap_Complete _); cbn [fst snd]; rewrite ?app_nil_r; (split; [|by intros x [= <-]]); [|done].
    apply Forall_app. split; [done|]. constructor; [apply HS|constructor].
  - cbn [fst snd]. rewrite app_nil_r. split; [done|]. by intros x [= <-].
Qed.

(** The swept part of the reference after one more event. *)
Lemma swept_step (opens m : gmap groupKey RawSwap) k open cutoff : m ⊆ opens -> m !! k = opens !! k -> keep_fresh cutoff m !! k = m !! k ->
  values (partial_alter (fun _ => open) k opens ∖ partial_alter (fun _ => open) k (keep_fresh cutoff m)) ≡ₚ values (opens ∖ m) ++ aged_out cutoff m.
Proof.
  intros HS Hk Hkf. set (kf := keep_fresh cutoff m) in *.
  assert (partial_alter (fun _ => open) k opens ∖ partial_alter (fun _ => open) k kf = opens ∖ kf) as ->.
  { apply map_eq. intros i. rewrite !lookup_difference. destruct (decide (i = k)) as [->|Hne].
    - rewrite !lookup_partial_alter_eq, Hkf, Hk. by destruct open, (opens !! k).
    - by rewrite !lookup_partial_alter_ne by done. }
  assert (HKs : kf ⊆ m) by apply map_filter_subseteq.
  apply (Permutation_app_inv_r (values kf)). rewrite <- values_split by (by etransitivity). rewrite (values_split opens m HS), <- app_assoc.
  apply Permutation_app_head, values_sweep.
Qed.

(** Nothing of the event's own key has been swept. *)
Lemma own_key acc outs d ev : inv acc outs d -> (forall e, e ∈ acc -> ev_Ledger e <= ev_Ledger ev) ->
  let m := b_m (d_buf d) in let opens := (ref (filter is_swap acc)).2 in
  m !! keyOf ev = opens !! keyOf ev /\ (forall r, m !! keyOf ev = Some r -> rs_ClosedAt r = closed ev)
  /\ keep_fresh (cutoff_at ev) m !! keyOf ev = m !! keyOf ev.
Proof.
  intros [HA HS HT HW HP] Hord. cbv zeta. set (opens := (ref (filter is_swap acc)).2) in *. set (m := b_m (d_buf d)) in *. set (k := keyOf ev).
  assert (Hk : m !! k = opens !! k).
  { destruct (m !! k) as [r|] eqn:E; [symmetry; by eapply lookup_weaken|]. destruct (opens !! k) as [r|] eqn:Er; [|done].
    destruct (HW k r Er E) as (e & He & Hlt). pose proof (close_mono _ _ (Hord e He)). unfold closed in Hlt. cbn in Hlt. lia. }
  assert (HC : forall r, m !! k = Some r -> rs_ClosedAt r = closed ev) by (intros r Hr; rewrite Hk in Hr; by destruct (HT k r Hr)).
  split; [done|]. split; [done|]. rewrite keep_fresh_lookup. destruct (m !! k) as [r|] eqn:E; [|done]. rewrite (HC r eq_refl).
  rewrite (proj2 (Z.ltb_ge _ _)); [done|]. unfold cutoff_at, defaultOrphanMaxAge, Minute, Second. lia.
Qed.

Lemma ref_snoc acc ev : is_swap ev -> let R := ref (filter is_swap acc) in
  let g := enter (R.2 !! keyOf ev) ev in let s := settle g.1 ev in
  ref (filter is_swap (acc ++ [ev])) = (R.1 ++ g.2 ++ s.2, partial_alter (fun _ => s.1) (keyOf ev) R.2).
Proof.
  intros Hsw. cbv zeta. rewrite filter_app, (filter_cons_True _ ev []), filter_nil by done. unfold ref at 1. rewrite foldl_snoc. fold (ref (filter is_swap acc)).
  unfold rstep, gstep. cbn [fst snd]. destruct (enter _ ev) as [g1 g2]. cbn [fst snd]. by destruct (settle g1 ev).
Qed.

(** The invariant after a swap event, from the state of its buffer and the
    trades it emitted or carried. *)
Lemma inv_next acc outs d ev outs' d' : inv acc outs d -> event_ok ev -> is_swap ev -> (forall e, e ∈ acc -> ev_Ledger e <= ev_Ledger ev) ->
  let m := b_m (d_buf d) in let g := enter (m !! keyOf ev) ev in let s := settle g.1 ev in
  b_m (d_buf d') = partial_alter (fun _ => s.1) (keyOf ev) (keep_fresh (cutoff_at ev) m) -> b_maxAge (d_buf d') = defaultOrphanMaxAge ->
  trades (outs' ++ d_carried d') ≡ₚ trades (outs ++ d_carried d) ++ omap trade_of (aged_out (cutoff_at ev) m ++ g.2 ++ s.2) ->
  inv (acc ++ [ev]) outs' d'.
Proof.
  intros HI HE Hsw Hord. cbv zeta. intros Em Ea Ht. destruct (own_key acc outs d ev HI Hord) as (Hk & _ & Hkf). destruct HI as [HA HS HT HW HP].
  pose proof (ref_snoc acc ev Hsw) as HRef. cbv zeta in HRef. rewrite <- Hk in HRef.
  destruct (settle_ok (b_m (d_buf d) !! keyOf ev) ev HE) as [_ Hopen]; [intros r Hr; rewrite Hk in Hr; by apply HT|].
  set (R := ref (filter is_swap acc)) in *. set (m := b_m (d_buf d)) in *. set (k := keyOf ev) in *. set (g := enter (m !! k) ev) in *. set (s := settle g.1 ev) in *.
  assert (HMt : omap map_trade (acc ++ [ev]) = omap map_trade acc).
  { rewrite omap_app. cbn [omap list_omap]. unfold map_trade at 2. unfold is_swap in Hsw. rewrite Hsw. rewrite bool_decide_false by done. apply app_nil_r. }
  split; rewrite ?HRef, ?Em, ?HMt; cbn [fst snd].
  - done.
  - apply map_subseteq_spec. intros i x. destruct (decide (i = k)) as [->|Hne]; [by rewrite !lookup_partial_alter_eq|]. rewrite !lookup_partial_alter_ne by done.
    intros Hx. eapply lookup_weaken; [exact Hx|]. etransitivity; [apply map_filter_subseteq|done].
  - intros i r0. destruct (decide (i = k)) as [->|Hne]; [rewrite lookup_partial_alter_eq; apply Hopen|rewrite lookup_partial_alter_ne by done; apply HT].
  - intros i r0. destruct (decide (i = k)) as [->|Hne]; [rewrite !lookup_partial_alter_eq; congruence|]. rewrite !lookup_partial_alter_ne by done.
    intros Hi. rewrite keep_fresh_lookup. destruct (m !! i) as [r1|] eqn:E.
    + pose proof (lookup_weaken _ _ _ _ E HS) as E'. assert (r1 = r0) as -> by congruence. destruct (Z.ltb_spec (rs_ClosedAt r0) (cutoff_at ev)) as [Hlt|]; [|done].
      intros _. exists ev. split; [apply elem_of_app; right; by left|]. destruct (HT i r0 Hi) as [Hc _]. unfold cutoff_at, defaultOrphanMaxAge, Minute, Second in Hlt. lia.
    + intros _. destruct (HW i r0 Hi E) as (e & He & Hlt). exists e. split; [apply elem_of_app; by left|done].
  - rewrite Ht, HP, <- app_assoc, <- omap_app. apply Permutation_app_head. apply omap_Permutation.
    rewrite (swept_step R.2 m k s.1 (cutoff_at ev) HS Hk Hkf), <- !app_assoc. apply Permutation_app_head.
    rewrite (app_assoc (values (R.2 ∖ m))), (app_assoc g.2). apply Permutation_app_comm.
Qed.

Lemma take_swap acc outs d ev : inv acc outs d -> event_ok ev -> is_swap ev -> (forall e, e ∈ acc -> ev_Ledger e <= ev_Ledger ev) ->
  let '(r, d') := Decode d ev (nowFn ev) in inv (acc ++ [ev]) (outs ++ emitted r) d'.
Proof.
  intros HI HE Hsw Hord. destruct (own_key acc outs d ev HI Hord) as (Hk & HC & _). pose proof HI as [HA HS HT HW HP].
  destruct (settle_ok (b_m (d_buf d) !! keyOf ev) ev HE) as [Hnew _]; [intros r Hr; rewrite Hk in Hr; by apply HT|].
  assert (Haged : Forall raw_ok (aged_out (cutoff_at ev) (b_m (d_buf d)))).
  { apply Forall_forall. intros r Hr. assert (Hv : r ∈ values (b_m (d_buf d))) by (rewrite (values_sweep (cutoff_at ev)); apply elem_of_app; by left).
    apply elem_of_values in Hv as [k' Hk']. apply (HT k' r). by eapply lookup_weaken. }
  destruct (decodeSwapEvent_spec d ev (nowFn ev) HA (ok_set ev HE) HC) as (r & d1 & Ed & Em & Ea & Hr); [by apply Forall_app|].
  unfold Decode. destruct (classifyAny ev) as [a ft] eqn:Ec. pose proof Hsw as Ha. unfold is_swap in Ha. rewrite Ec in Ha. cbn in Ha. subst a.
  rewrite !bool_decide_false by done. rewrite (ok_time ev HE). cbn [decodeAction].
  assert (ft = topic_of ev) as -> by (unfold topic_of; by rewrite Ec). rewrite Ed. destruct r as [[out|err]|]; [| |done].
  - destruct Hr as [Hcar Htr]. apply (inv_next acc outs d); try done. cbn [d_carried with_carried emitted]. by rewrite app_nil_r, app_assoc, trades_app, Htr, Hcar.
  - apply (inv_next acc outs d); try done. cbn [emitted]. by rewrite app_nil_r, !trades_app, Hr, app_assoc.
Qed.

Lemma take_same acc outs d ev d' out : inv acc outs d -> ~ is_swap ev -> b_m (d_buf d') = b_m (d_buf d) -> b_maxAge (d_buf d') = b_maxAge (d_buf d) ->
  trades (out ++ d_carried d') = trades (d_carried d) ++ opt_list (map_trade ev) -> inv (acc ++ [ev]) (outs ++ out) d'.
Proof.
  intros [HA HS HT HW HP] Hsw Em Ea Ht.
  assert (HF : filter is_swap (acc ++ [ev]) = filter is_swap acc) by (rewrite filter_app, (filter_cons_False _ ev []), filter_nil by done; apply app_nil_r).
  split; rewrite ?HF, ?Em, ?Ea; try done.
  - intros k r Hk Hm. destruct (HW k r Hk Hm) as (e & He & Hlt). exists e. split; [apply elem_of_app; by left|done].
  - rewrite <- app_assoc, trades_app, Ht, omap_app. rewrite trades_app in HP. rewrite app_assoc, HP, <- !app_assoc. apply Permutation_app_head.
    cbn [omap list_omap]. destruct (map_trade ev); cbn [opt_list]; apply Permutation_app_comm.
Qed.

Lemma take_other acc outs d ev : inv acc outs d -> event_ok ev -> ~ is_swap ev ->
  let '(r, d') := Decode d ev (nowFn ev) in inv (acc ++ [ev]) (outs ++ emitted r) d'.
Proof.
  intros HI [Htime Hset Hidx] Hsw. unfold Decode. unfold is_swap in Hsw. destruct (classifyAny ev) as [a ft] eqn:Ec. cbn [fst] in Hsw.
  assert (Hmap : a <> actionSwapMap -> map_trade ev = None) by (intros Hne; unfold map_trade; rewrite Ec; cbn; by rewrite bool_decide_false).
  assert (Hns : ~ is_swap ev) by (unfold is_swap; by rewrite Ec).
  destruct (decide (a = actionUnknown)) as [->|H1].
  { rewrite bool_decide_true by done. apply (take_same _ _ d); try done. rewrite Hmap by done. cbn [emitted opt_list]. by rewrite app_nil_r. }
  rewrite bool_decide_false by done. destruct (decide (a = actionCreatePool)) as [->|H2].
  { rewrite bool_decide_true by done. unfold seedAnnouncedPool. destruct (decodeAnnouncedPool ev) as [pool|e]; [destruct (Seed _ _ _ _) as [reg calls]|];
      (apply (take_same _ _ d); try done; rewrite Hmap by done; cbn; by rewrite app_nil_r). }
  rewrite bool_decide_false by done. rewrite Htime. destruct (decide (a = actionSwapMap)) as [->|H3].
  - cbn [decodeAction]. unfold decodeSwapMapEvent. assert (Hok : decodeSwapMap ev (closed ev) <> None).
    { unfold decodeSwapMap. destruct (swap_map_values ev) as [[[[? ?] ?] ?]|]; [by apply packed_ok|done]. }
    assert (Hm : map_trade ev = match decodeSwapMap ev (closed ev) with Some (Ok t) => Some t | _ => None end)
      by (unfold map_trade; rewrite Ec; cbn; by rewrite bool_decide_true).
    destruct (decodeSwapMap ev (closed ev)) as [[t|e]|]; [| |done]; cbn [fmap option_fmap option_map tradeOrNoOp].
    + apply (take_same _ _ d); try done. rewrite Hm. cbn [emitted d_carried with_carried opt_list]. by rewrite app_nil_r, trades_app.
    + destruct (isNotATrade e); apply (take_same _ _ d); try done; rewrite Hm; cbn [emitted d_carried with_carried opt_list]; by rewrite !app_nil_r.
  - pose proof (decodeAction_kept d a ev ft (closed ev) (nowFn ev) Hsw H3) as (Em & Ea & Ecar & Hn & Ht).
    destruct (decodeAction d a ev ft (closed ev) (nowFn ev)) as [r d']. cbn [fst snd] in *. destruct r as [[out|e]|]; [| |done].
    + apply (take_same _ _ d); try done. rewrite Hmap by done. cbn [emitted d_carried with_carried opt_list]. rewrite !app_nil_r, trades_app, Ecar.
      cbn [emitted] in Ht. by rewrite Ht, app_nil_r.
    + apply (take_same _ _ d); try done. rewrite Hmap by done. cbn [emitted opt_list app]. by rewrite Ecar, app_nil_r.
Qed.

Definition by_ledger (a b : Event) : Prop := ev_Ledger a <= ev_Ledger b.

Lemma drive_inv d evs : inv [] [] d -> Forall event_ok evs -> StronglySorted by_ledger evs ->
  let '(acc, outs, d') := drive d evs in inv acc outs d' /\ acc ⊆ evs.
Proof.
  intros HI. induction evs as [|ev evs IH] using rev_ind; intros HE HS; [done|].
  apply Forall_app in HE as [HE Hev]. apply Forall_cons in Hev as [Hev _].
  assert (Hlast : forall e, e ∈ evs -> ev_Ledger e <= ev_Ledger ev).
  { intros e He. clear -HS He. induction evs as [|x evs IHs]; [by apply elem_of_nil in He|]. inversion_clear HS as [|? ? HS' HF].
    apply elem_of_cons in He as [->|He]; [|by apply IHs]. rewrite Forall_forall in HF. apply (HF ev). apply elem_of_app. right. by left. }
  assert (HS' : StronglySorted by_ledger evs).
  { clear -HS. induction evs as [|x evs IHs]; [constructor|]. inversion_clear HS as [|? ? HS' HF]. constructor; [by apply IHs|]. by apply Forall_app in HF as [? _]. }
  specialize (IH HE HS'). unfold drive in *. rewrite foldl_snoc. destruct (foldl feed ([], [], d) evs) as [[acc outs] d'] eqn:Ef.
  destruct IH as [IH Hsub]. unfold feed. destruct (Matches d' ev); [|split; [done|set_solver]].
  assert (Hord : forall e, e ∈ acc -> ev_Ledger e <= ev_Ledger ev) by (intros e He; apply Hlast; by apply Hsub).
  destruct (decide (is_swap ev)) as [Hsw|Hsw].
  - pose proof (take_swap acc outs d' ev IH Hev Hsw Hord) as HT. destruct (Decode d' ev (nowFn ev)) as [r d2]. split; [done|set_solver].
  - pose proof (take_other acc outs d' ev IH Hev Hsw) as HT. destruct (Decode d' ev (nowFn ev)) as [r d2]. split; [done|set_solver].
Qed.

(** A decoder that has read nothing. *)
Lemma fresh_inv d : d_buf d = newBuffer -> d_carried d = [] -> inv [] [] d.
Proof.
  intros Eb Ec. assert (E : (@filter Event (list Event) _ is_swap _ []) = []) by done. split; rewrite ?E, ?Eb; cbn; try done.
  by rewrite Ec.
Qed.

Lemma decode_all_ref d evs : d_buf d = newBuffer -> d_carried d = [] -> Forall event_ok evs -> StronglySorted by_ledger evs ->
  trades (decode_all d evs) ≡ₚ omap map_trade (accepted d evs) ++ omap trade_of (ref_all (filter is_swap (accepted d evs))).
Proof.
  intros Eb Ec HE HS. pose proof (drive_inv d evs (fresh_inv d Eb Ec) HE HS) as HI. unfold decode_all, accepted.
  destruct (drive d evs) as [[acc outs] d'] eqn:Ed. cbn [fst]. destruct HI as [[HA HSub HT HW HP] _].
  assert (HR : Forall raw_ok (orphans (d_buf d'))).
  { apply Forall_forall. intros r Hr. change (orphans (d_buf d')) with (values (b_m (d_buf d'))) in Hr. apply elem_of_values in Hr as [k Hk].
    apply (HT k r). by eapply lookup_weaken. }
  unfold Drain, drain. destruct (rescueEvicted_trades _ [] 0 HR) as (out & n & Er & Et). rewrite Er. cbn [fst default id].
  rewrite !trades_app, Et. rewrite trades_app in HP. rewrite app_assoc, HP. cbn [trades omap list_omap app].
  rewrite <- app_assoc, <- omap_app. apply Permutation_app_head, omap_Permutation. unfold ref_all. rewrite <- app_assoc. apply Permutation_app_head.
  change (orphans (d_buf d')) with (values (b_m (d_buf d'))). by rewrite <- values_split.
Qed.

(** ** What a well-formed stream publishes *)

(** In each group, the next swap begins when the last one has all eight
    fields, or with a field of another event that the last one already has. *)
Fixpoint starts_clear (l : list swap) : Prop :=
  match l with
  | s :: (s' :: _) as l' =>
      (length (flat s) = 8%nat \/ exists e, e ∈ flat s /\ field_of e = field_of s'.1 /\ ev_EventIndex e <> ev_EventIndex s'.1) /\ starts_clear l'
  | _ => True
  end.

(** The swaps that the swap events of a stream belong to. *)
Record published (evs : list Event) (swaps : list swap) : Prop := {
  pb_wf : Forall wf_swap swaps;
  pb_key : forall k, filter (fun ev => keyOf ev = k) evs = filter (fun s : swap => keyOf s.1 = k) swaps ≫= flat;
  pb_next : forall k, starts_clear (filter (fun s : swap => keyOf s.1 = k) swaps)
}.

Lemma eight_complete s : wf_swap s -> length (flat s) = 8%nat -> Swap_Complete (swap_of s) = true.
Proof.
  intros HW HL. apply Complete_iff. intros f. pose proof HW as [HN HK _].
  assert (HI : List.incl (map Some all_fields) (field_of <$> flat s)).
  { apply NoDup_length_incl; [by apply NoDup_ListNoDup|rewrite (length_fmap field_of), HL; done|]. intros o Ho. apply list_elem_of_In, list_elem_of_fmap in Ho as (e & -> & He).
    rewrite Forall_forall in HK. destruct (HK e He) as [g ->]. apply in_map, list_elem_of_In, all_fields_elem. }
  pose proof (HI (Some f) (in_map _ _ _ (proj1 (list_elem_of_In _ _) (all_fields_elem f)))) as Hf. apply list_elem_of_In, list_elem_of_fmap in Hf as (e & Ef & He).
  exists e. by apply swap_of_get.
Qed.

Lemma clear_follow l : Forall wf_swap l -> starts_clear l ->
  forall prev, (forall p s, prev = Some p -> head l = Some s -> occupied p s.1 (topic_of s.1) = true) -> follow prev l.
Proof.
  induction l as [|s l IH]; intros HW HC prev HP; [done|]. apply Forall_cons in HW as [Hs HW]. cbn [follow]. split; [intros p Ep; by apply (HP p s)|].
  apply IH; [done|by destruct l; [|destruct HC]|]. intros p s' Ep Hh. destruct l as [|s'' l]; [done|]. injection Hh as ->.
  destruct HC as [[H8|(e & He & Ef & Hi)] _]; [by rewrite (eight_complete s Hs H8) in Ep|].
  destruct (Swap_Complete (swap_of s)); [done|]. injection Ep as <-. apply Forall_cons in HW as [[_ HK' _] _]. apply Forall_cons in HK' as [[f Hf] _].
  unfold occupied. cbn [slot swap_group]. unfold Swap_slot. unfold field_of in Hf. rewrite Hf. cbn [mbind option_bind].
  assert (rs_get (swap_of s) f = Some e) as ->; [|by rewrite (proj2 (Z.eqb_neq _ _))].
  apply swap_of_get; [done|]. split; [done|]. rewrite Ef. done.
Qed.

Lemma swap_of_key s : rkey (swap_of s) = keyOf s.1.
Proof.
  unfold swap_of. rewrite <- (new_key s.1 (closed s.1)). generalize (newRawSwap s.1 (closed s.1)). generalize (flat s).
  induction l as [|e l IH]; intros r; [done|]. cbn [foldl]. rewrite IH. unfold put. by destruct (field_of e).
Qed.

Lemma published_ref evs swaps : published evs swaps -> ref_all evs ≡ₚ map swap_of swaps.
Proof.
  intros [HW HK HN]. apply (Permutation_by_key rkey). intros k. rewrite (ref_all_key evs k). rewrite HK.
  set (l := filter (fun s : swap => keyOf s.1 = k) swaps).
  assert (HWl : Forall wf_swap l) by (apply Forall_forall; intros s Hs%list_elem_of_filter; rewrite Forall_forall in HW; apply HW, Hs).
  pose proof (run_swaps l [] None HWl (clear_follow l HWl (HN k) None ltac:(done))) as E. cbv zeta in E. unfold groups. rewrite E. cbn [opt_list app].
  clear. unfold l. induction swaps as [|s swaps IH]; [done|]. cbn [map]. rewrite !filter_cons, swap_of_key.
  destruct (decide (keyOf s.1 = k)); cbn [map]; by rewrite IH.
Qed.

End Swaps.

(** ** The gate *)

Section Gate.
Context `{Xdr, Strkey}.

Lemma absorb_reg d ev ft t now : d_reg (decodeSwapEvent d ev ft t now).2 = d_reg d.
Proof.
  unfold decodeSwapEvent. destruct (absorb _ _ _ _ _) as [[b evicted] r]. cbn [takeOtherEvicted]. destruct (rescueEvicted _ _ _) as [[out|] n]; [|done].
  destruct r as [[c|]|e]; [destruct (tradeOrNoOp <$> decodeSwap c) as [[?|?]|]|..]; done.
Qed.

Lemma decodeAction_reg d a ev ft t now : d_reg (decodeAction d a ev ft t now).2 = d_reg d.
Proof.
  destruct a; cbn [decodeAction]; try done; [apply absorb_reg| | | | |].
  - unfold decodeProvideLiquidityEvent. by destruct (absorbProvideLiquidity _ _ _ _ _) as [[b n] r].
  - unfold decodeWithdrawLiquidityEvent. by destruct (absorbWithdrawLiquidity _ _ _ _ _) as [[b n] r].
  - unfold decodeStakeEvent. by destruct (absorbStake _ _ _ _ _ _) as [[b n] r].
  - unfold decodeStakeEvent. by destruct (absorbStake _ _ _ _ _ _) as [[b n] r].
  - unfold decodeWithdrawRewardsEvent. by destruct (absorbWithdrawRewards _ _ _ _ _) as [[b n] r].
Qed.

(** The pool that an event announces. *)
Definition announces (ev : Event) (c : string) : Prop := (classifyAny ev).1 = actionCreatePool /\ decodeAnnouncedPool ev = Ok c.

Lemma Decode_reg d ev now : reg_factories (d_reg (Decode d ev now).2) = reg_factories (d_reg d)
  /\ forall c, c ∈ reg_set (d_reg (Decode d ev now).2) <-> c ∈ reg_set (d_reg d) \/ announces ev c.
Proof.
  unfold Decode, announces. destruct (classifyAny ev) as [a ft]. cbn [fst]. destruct (decide (a = actionUnknown)) as [->|H1].
  { rewrite bool_decide_true by done. split; [done|]. naive_solver. }
  rewrite bool_decide_false by done. destruct (decide (a = actionCreatePool)) as [->|H2].
  - rewrite bool_decide_true by done. unfold seedAnnouncedPool. destruct (decodeAnnouncedPool ev) as [pool|e] eqn:Ep; [|cbn; naive_solver].
    assert (Hne : pool <> "").
    { unfold decodeAnnouncedPool in Ep. destruct (malformed (Parse (ev_Value ev))) as [v|]; [|done]. cbn in Ep. destruct (malformed (AsAddressStrkey v)) as [p|]; [|done]. cbn in Ep.
      intros ->. destruct p as [|x p]; [done|]. by destruct x as [[] [] [] [] [] [] [] []]. }
    pose proof (Seed_set (d_reg d) pool (ev_ContractID ev) (ev_Ledger ev)) as HS. pose proof (Seed_factories (d_reg d) pool (ev_ContractID ev) (ev_Ledger ev)) as HF.
    destruct (Seed _ _ _ _) as [reg calls]. cbn in *. split; [done|]. intros c. rewrite HS. naive_solver.
  - rewrite bool_decide_false by done. assert (HR : forall d', d_reg d' = d_reg d -> reg_factories (d_reg d') = reg_factories (d_reg d)
      /\ forall c, c ∈ reg_set (d_reg d') <-> c ∈ reg_set (d_reg d) \/ a = actionCreatePool /\ decodeAnnouncedPool ev = Ok c) by (intros d' ->; naive_solver).
    destruct (EventClosedAt ev) as [t|e]; [|by apply HR]. pose proof (decodeAction_reg d a ev ft t now) as HD.
    destruct (decodeAction d a ev ft t now) as [[[out|e]|] d']; by apply HR.
Qed.
End Gate.

(** C6: a Phoenix stream yields exactly the trades of its swaps. Let a stream
    come in ledger order, with each group's fields published one swap after
    the other, in any order within a swap, with all eight fields or with
    some missing, and mixed with the events of other pools, operations and
    actions. Then the trades that come out, those rescued from aged or pushed
    out groups and the final drain included, are one for each swap whose own
    fields decode and one for each single-event swap: nothing twice, nothing
    put together from two swaps, nothing lost. *)
Theorem phoenix_trades_exact `{XdrLaws} `{Strkey} close nowFn d evs swaps :
  (forall l l', l <= l' -> close l <= close l') -> d_buf d = newBuffer -> d_carried d = [] ->
  Forall (event_ok close) evs -> StronglySorted by_ledger evs -> published (filter is_swap (accepted nowFn d evs)) swaps ->
  trades (decode_all nowFn d evs) ≡ₚ omap (map_trade close) (accepted nowFn d evs) ++ omap trade_of (map (swap_of close) swaps).
Proof.
  intros HC Hb Hd HE HS HP. rewrite (decode_all_ref close nowFn HC d evs Hb Hd HE HS). apply Permutation_app_head, omap_Permutation. by apply published_ref.
Qed.


(** ** Examples *)

(** A codec for the values that the examples use. *)
#[local] Instance toy_xdr : Xdr := {|
  xdr_MarshalBinary v :=
    match v with
    | ScvString s => Some (String "s" s)
    | ScvSymbol s => Some (String "y" s)
    | ScvAddress (AddrAccount s) => Some (String "a" s)
    | ScvAddress (AddrContract s) => Some (String "c" s)
    | ScvI128 0 lo => if 0 <=? lo then Some (String "n" (fmt_uint 10 lo)) else None
    | _ => None
    end;
  xdr_SafeUnmarshal b :=
    match b with
    | String "s" s => Some (ScvString s)
    | String "y" s => Some (ScvSymbol s)
    | String "a" s => Some (ScvAddress (AddrAccount s))
    | String "c" s => Some (ScvAddress (AddrContract s))
    | String "n" s => ScvI128 0 <$> parse_uint 10 s
    | _ => None
    end;
  xdr_AddressString _ := None
|}.

#[local] Instance toy_laws : XdrLaws.
Proof.
  split.
  - intros v b E. destruct v as [| | | | | | | | |hi lo| | | | | | | |a|]; try done; [|by injection E as <-|by injection E as <-|].
    + cbn [xdr_MarshalBinary toy_xdr] in E. destruct hi; try done. destruct (Z.leb_spec 0 lo); [|done]. injection E as <-. cbn [xdr_SafeUnmarshal toy_xdr].
      by rewrite parse_fmt_uint.
    + destruct a; try done; by injection E as <-.
  - done.
  - intros v b E ->. destruct v as [| | | | | | | | |hi lo| | | | | | | |a|]; try done; [|by destruct a].
    cbn in E. destruct hi; try done. by destruct (0 <=? lo).
Qed.

Definition sk (c : ascii) : string := foldr (fun _ s => String c s) EmptyString (seq 0 55).
Definition contract_ex (c : ascii) : string := String "C" (sk c).
Definition address_ex (c : ascii) : ScVal := ScvAddress (AddrContract (sk c)).
Definition amount_ex (n : Z) : ScVal := ScvI128 0 n.

(** A field event of a swap, and the value it carries. *)
Definition field_ex (pool : ascii) (ledger index : Z) (closedAt name : string) (v : ScVal) : Event :=
  mkEvent ledger "aa" 0 index (mkCE closedAt (contract_ex pool) [TopicSymbolSwap; MustEncodeString name] (match encode v with Ok b => b | Err _ => "" end)).

Definition noon : string := "2026-05-12T12:00:00Z".
Definition later : string := "2026-05-12T12:10:00Z".

(** A swap of pool A with its eight fields out of order, around the seven
    fields of a swap of pool B, and ten minutes later an event of pool A. *)
Definition swap_a : list Event :=
  [field_ex "A" 10 3 noon "return_amount" (amount_ex 50); field_ex "A" 10 4 noon "sender" (address_ex "S"); field_ex "A" 10 5 noon "sell_token" (address_ex "T");
   field_ex "A" 10 6 noon "buy_token" (address_ex "U"); field_ex "A" 10 7 noon "offer_amount" (amount_ex 100);
   field_ex "A" 10 8 noon "actual received amount" (amount_ex 100); field_ex "A" 10 9 noon "spread_amount" (amount_ex 1); field_ex "A" 10 20 noon "referral_fee_amount" (amount_ex 0)].
Definition swap_b : list Event :=
  [field_ex "B" 10 10 noon "sender" (address_ex "S"); field_ex "B" 10 11 noon "sell_token" (address_ex "U"); field_ex "B" 10 12 noon "offer_amount" (amount_ex 50);
   field_ex "B" 10 13 noon "buy_token" (address_ex "T"); field_ex "B" 10 14 noon "return_amount" (amount_ex 101);
   field_ex "B" 10 15 noon "spread_amount" (amount_ex 1); field_ex "B" 10 16 noon "referral_fee_amount" (amount_ex 0)].
Definition lone : Event := field_ex "A" 110 0 later "sender" (address_ex "S").

Definition stream_ex : list Event := take 7 swap_a ++ swap_b ++ drop 7 swap_a ++ [lone].

Definition decoder_ex : decoder := NewDecoder [contract_ex "A"; contract_ex "B"] [].
Definition close_ex (l : Z) : Time := unix_time (if l <? 100 then 1778587200 else 1778587800).
Definition swaps_ex : list (Event * list Event) := omap (fun s => match s with e :: l => Some (e, l) | [] => None end) [swap_a; swap_b; [lone]].

Lemma filter_absent {A K} `{EqDecision K} (key : A -> K) l k : k ∉ map key l -> filter (fun x => key x = k) l = [].
Proof.
  induction l as [|x l IH]; [done|]. cbn [map]. intros [H1 H2]%not_elem_of_cons. rewrite filter_cons_False by congruence. by apply IH.
Qed.

#[local] Instance sk_ex : Strkey := plain_strkey.

Lemma published_ex : published (filter is_swap (accepted (fun _ => 0) decoder_ex stream_ex)) swaps_ex.
Proof.
  assert (E : filter is_swap (accepted (fun _ => 0) decoder_ex stream_ex) = stream_ex) by (vm_compute; reflexivity). rewrite E. clear E.
  assert (HK : forall P : groupKey -> Prop, Forall P (remove_dups (map keyOf stream_ex)) ->
    (forall k, k ∉ map keyOf stream_ex -> k ∉ map (fun s => keyOf s.1) swaps_ex -> P k) -> forall k, P k).
  { intros P HP HN k. destruct (decide (k ∈ remove_dups (map keyOf stream_ex))) as [Hk|Hk]; [by rewrite Forall_forall in HP; apply HP|].
    apply HN; intros Hin; apply Hk; revert Hin; vm_compute; set_solver. }
  let ks := eval vm_compute in (remove_dups (map keyOf stream_ex)) in change (remove_dups (map keyOf stream_ex)) with ks in HK.
  split.
  - unfold swaps_ex. cbn [omap list_omap swap_a swap_b].
    repeat (apply Forall_cons; split; [split; refine (bool_decide_unpack _ _); vm_compute; exact I|]). constructor.
  - apply HK; [repeat (apply Forall_cons; split; [vm_compute; reflexivity|]); constructor|]. intros k H1 H2.
    by rewrite (filter_absent keyOf), (filter_absent (fun s : Event * list Event => keyOf s.1)).
  - apply HK; [repeat (apply Forall_cons; split; [vm_compute; exact I|]); constructor|]. intros k H1 H2. by rewrite (filter_absent (fun s : Event * list Event => keyOf s.1)).
Qed.

Lemma phoenix_trades_exact_witness :
  trades (decode_all (fun _ => 0) decoder_ex stream_ex) ≡ₚ omap trade_of (map (swap_of close_ex) swaps_ex)
  /\ map (fun t => (tr_OpIndex t, Amount_BigInt (tr_BaseAmount t), Amount_BigInt (tr_QuoteAmount t))) (trades (decode_all (fun _ => 0) decoder_ex stream_ex))
     = [(3, 100, 50); (10, 50, 101)].
Proof.
  split; [|vm_compute; reflexivity].
  pose proof (phoenix_trades_exact close_ex (fun _ => 0) decoder_ex stream_ex swaps_ex) as HT.
  assert (HA : omap (map_trade close_ex) (accepted (fun _ => 0) decoder_ex stream_ex) = []) by (vm_compute; reflexivity).
  rewrite HA, app_nil_l in HT. apply HT; clear HT HA.
  - intros l l' Hl. unfold close_ex, unix_time, Second. destruct (Z.ltb_spec l 100), (Z.ltb_spec l' 100); lia.
  - reflexivity.
  - reflexivity.
  - repeat (apply Forall_cons; split; [split; [vm_compute; reflexivity|vm_compute; discriminate|vm_compute; repeat split; discriminate]|]). constructor.
  - repeat (apply SSorted_cons; [|repeat (apply Forall_cons; split; [vm_compute; discriminate|]); constructor]). constructor.
  - apply published_ex.
Defined.

(** ** Behind the projector *)

Definition output_of (e : consumer_event) : Output := mkOutput (EventKind e) (EventLedger e).

(** The decoder as the projector and the completeness checks call it. *)
Definition phoenix_decoder (d : decoder) : Decoder :=
  mkDecoder decoder d (fun d ev => (Some (Matches d ev), d))
    (fun d ev => let '(r, d) := Decode d ev 0 in
       (match r with None => None | Some (Err _) => Some None | Some (Ok outs) => Some (Some (map output_of outs)) end, d)).

(** A landing zone up to a tip. *)
Definition zone (evs : list Event) (tip : Z) : cycle_env :=
  mkEnv false (Some (Some tip)) (fun _ _ => None) None false (fun _ _ _ => None)
    (fun from to _ => (map RowEvent (List.filter (fun ev => (from <=? ev_Ledger ev) && (ev_Ledger ev <=? to)) evs), None)) [] [] false None false.

Definition cycles (sink : list bool * list Output -> Output -> (list bool * list Output) * option goerr) (tips : list Z) :=
  foldl (fun acc tip => let '(st, outs) := acc in
           let '(st, o) := cycleOneSource (phoenix_decoder decoder_ex) sink (mkSource [] false 0 false false) (zone (swap_b ++ [lone]) tip) st in (st, outs ++ [co_outcome o]))
    (fresh (phoenix_decoder decoder_ex) None ([true], []), []) tips.

Definition healthy (w : list bool * list Output) (out : Output) : (list bool * list Output) * option goerr := ((w.1, w.2 ++ [out]), None).

(** Fails once, with a network error. *)
Definition one_outage (w : list bool * list Output) (out : Output) : (list bool * list Output) * option goerr :=
  match w.1 with
  | true :: l => ((l, w.2), Some (mkErr [NetError] ""))
  | l => ((l, w.2 ++ [out]), None)
  end.

(** The trade of a seven-field swap is written when its group has aged out, in
    a later cycle than its fields were read in. One transient fault of the
    sink at that moment loses it: the cursor is held where it is, above the
    trade's own ledger, and the decoder has given the group up. Nothing is
    reported as shed or quarantined. *)
Theorem rescued_trade_lost :
  (let '(st, outs) := cycles healthy [10; 110; 110] in st_sink st = ([true], [mkOutput "phoenix.trade" 10]) /\ st_cursor st = Some 110)
  /\ (let '(st, outs) := cycles one_outage [10; 110; 110] in
      st_sink st = ([], []) /\ st_cursor st = Some 110 /\ outs = [Committed 10; HeldBack; Committed 110]).
Proof. vm_compute. repeat split. Qed.
