(* ===== verification/Soroswap.v ===== *)
(** * The Soroswap decoder (internal/sources/soroswap: events.go, decode.go,
    consumer.go, dispatcher_adapter.go)

    A Soroswap pair publishes a swap (amounts only) and the sync of its
    reserves. The decoder groups the two by ledger, transaction, operation and
    pair, emits the trade when both are there, and settles a swap that the
    next swap of its group pushes out. The tokens of a pair come from the
    factory's announcements.

    The decoder is a state passed from event to event. A panic of the packed
    operation index is an outcome. The clock that the sweep falls back on is a
    parameter, and the hook that persists a pair is the list of its calls. *)

From S2P Require Import Prelude GoLib Encoding Amount Asset Trade ScVal Completeness ContractId.

Definition SourceName : string := "soroswap".

(** ** Names (events.go) *)

Definition EventSwap : string := "swap".
Definition EventSync : string := "sync".
Definition EventDeposit : string := "deposit".
Definition EventWithdraw : string := "withdraw".
Definition EventSkim : string := "skim".
Definition EventNewPair : string := "new_pair".
Definition EventPairToken : string := "pair_token".

Definition PrefixPair : string := "SoroswapPair".
Definition PrefixFactory : string := "SoroswapFactory".

Definition MainnetFactory : string := "CA4HEQTL2WPEUYKYKCDOHCDNIV4QHNJ7EL4J4NQ6VADP7SYHVRYZ7AW2".
Definition MainnetFactories : list string :=
  [MainnetFactory; "CCIQM2O3YJQEKS7I77AS5IO3CU6UCBAUWHLWRBWVV336ZCSTKRNBKPHW";
   "CDBRTEJMOUJQHFZCAW4JPXZ75HCRHZAQXG75ZMGQ2LMNXA5ID7RQIFSX"; "CCDATRT2EY6Y2KAZ7HM7BRZVZCB6RHL56PQUBWGBS2ML2JAK7VXFLCJY"].

Definition IsMainnetFactory (contractID : string) : bool := existsb (fun f => String.eqb f contractID) MainnetFactories.

Definition ErrSwapWithoutSync : errtag := Named "soroswap: swap without sync".
Definition ErrMalformedPayload : errtag := Named "soroswap: malformed event payload".
Definition ErrNonDirectionalSwap : errtag := Named "soroswap: non-directional swap (no cross-token exchange)".
(** It wraps [ErrNonDirectionalSwap]. *)
Definition ErrAmbiguousSwapDirection : errtag := Named "ambiguous direction (overlapping in/out legs)".

(** ** Outputs (consumer.go) *)

Record Skim := mkSkim {
  sm_ContractID : string; sm_Ledger : Z; sm_TxHash : string; sm_OpIndex : Z; sm_EventIndex : Z; sm_ObservedAt : Time;
  sm_To : string; sm_Amount0 : Amount; sm_Amount1 : Amount
}.

Record Liquidity := mkLiquidity {
  lq_ContractID : string; lq_Ledger : Z; lq_TxHash : string; lq_OpIndex : Z; lq_EventIndex : Z; lq_ObservedAt : Time; lq_Action : string;
  lq_To : string; lq_Token0 : string; lq_Token1 : string; lq_Amount0 : Amount; lq_Amount1 : Amount; lq_Liquidity : Amount;
  lq_NewReserve0 : Amount; lq_NewReserve1 : Amount
}.

Inductive consumer_event := TradeEvent (t : Trade) | SkimEvent (s : Skim) | LiquidityEvent (l : Liquidity).

Definition EventKind (e : consumer_event) : string :=
  match e with TradeEvent _ => "soroswap.trade" | SkimEvent _ => "soroswap.skim" | LiquidityEvent _ => "soroswap.liquidity" end.

(** ** Groups (decode.go) *)

Record RawPair := mkRaw {
  rp_Ledger : Z; rp_TxHash : string; rp_OpIndex : Z; rp_Pair : string; rp_ClosedAt : Time; rp_Swap : option Event; rp_Sync : option Event
}.

Definition Complete (r : RawPair) : bool :=
  match rp_Swap r, rp_Sync r with Some _, Some _ => true | _, _ => false end.

(** Ledger, transaction, operation, pair. *)
Abbreviation groupKey := (Z * string * Z * string)%type.

Definition keyOf (e : Event) : groupKey := (ev_Ledger e, ev_TxHash e, wrapu 32 (ev_OperationIndex e), ev_ContractID e).

Record swapAmounts := mkAmts { Amount0In : Amount; Amount1In : Amount; Amount0Out : Amount; Amount1Out : Amount }.
Record LiquidityFields := mkLF {
  lf_Amount0 : Amount; lf_Amount1 : Amount; lf_Liquidity : Amount; lf_NewReserve0 : Amount; lf_NewReserve1 : Amount; lf_To : string
}.
Record NewPairFields := mkNP { np_Token0 : Asset; np_Token1 : Asset; np_Pair : string }.
Record SkimFields := mkSF { sf_Amount0 : Amount; sf_Amount1 : Amount; sf_To : string }.

Section Decoder.
Context `{Xdr, Strkey}.

Definition TopicPrefixPair : string := MustEncodeString PrefixPair.
Definition TopicPrefixFactory : string := MustEncodeString PrefixFactory.
Definition TopicSymbolSwap : string := MustEncodeSymbol EventSwap.
Definition TopicSymbolSync : string := MustEncodeSymbol EventSync.
Definition TopicSymbolDeposit : string := MustEncodeSymbol EventDeposit.
Definition TopicSymbolWithdraw : string := MustEncodeSymbol EventWithdraw.
Definition TopicSymbolSkim : string := MustEncodeSymbol EventSkim.
Definition TopicSymbolNewPair : string := MustEncodeSymbol EventNewPair.
Definition TopicSymbolLPTransfer : string := MustEncodeSymbol "transfer".
Definition TopicSymbolLPMint : string := MustEncodeSymbol "mint".
Definition TopicSymbolLPBurn : string := MustEncodeSymbol "burn".
Definition TopicSymbolLPApprove : string := MustEncodeSymbol "approve".

Definition classify (e : Event) : string :=
  match ev_Topic e with
  | t0 :: t1 :: _ =>
      if String.eqb t0 TopicPrefixPair then
        if String.eqb t1 TopicSymbolSwap then EventSwap
        else if String.eqb t1 TopicSymbolSync then EventSync
        else if String.eqb t1 TopicSymbolDeposit then EventDeposit
        else if String.eqb t1 TopicSymbolWithdraw then EventWithdraw
        else if String.eqb t1 TopicSymbolSkim then EventSkim
        else ""
      else if String.eqb t0 TopicPrefixFactory && String.eqb t1 TopicSymbolNewPair then EventNewPair
      else if String.eqb t0 TopicSymbolLPTransfer || String.eqb t0 TopicSymbolLPMint || String.eqb t0 TopicSymbolLPBurn
              || String.eqb t0 TopicSymbolLPApprove
      then EventPairToken
      else ""
  | _ => ""
  end.

(** ** Bodies *)

Definition body_map (valueB64 : string) : res gerr (list (ScVal * ScVal)) := body ← Parse valueB64; AsMap body.
Definition amount_field (entries : list (ScVal * ScVal)) (name : string) : res gerr Amount := sv ← MustMapField entries name; AsAmountFromI128 sv.
Definition address_field (entries : list (ScVal * ScVal)) (name : string) : res gerr string := sv ← MustMapField entries name; AsAddressStrkey sv.

Definition sdkDecodeSwapAmounts (valueB64 : string) : res gerr swapAmounts :=
  entries ← body_map valueB64;
  a ← amount_field entries "amount_0_in";
  b ← amount_field entries "amount_1_in";
  c ← amount_field entries "amount_0_out";
  d ← amount_field entries "amount_1_out";
  Ok (mkAmts a b c d).

Definition decodeSwapTaker (valueB64 : string) : string :=
  match Parse valueB64 with
  | Err _ => ""
  | Ok sv =>
      match AsMap sv with
      | Err _ => ""
      | Ok entries =>
          match MapField entries "to" with
          | None => ""
          | Some toSv => match AsAddressStrkey toSv with Ok addr => addr | Err _ => "" end
          end
      end
  end.

Definition sdkDecodeLiquidity (valueB64 : string) : res gerr LiquidityFields :=
  entries ← body_map valueB64;
  a ← amount_field entries "amount_0";
  b ← amount_field entries "amount_1";
  c ← amount_field entries "liquidity";
  d ← amount_field entries "new_reserve_0";
  e ← amount_field entries "new_reserve_1";
  to ← address_field entries "to";
  Ok (mkLF a b c d e to).

Definition sdkDecodeNewPair (valueB64 : string) : res gerr NewPairFields :=
  entries ← body_map valueB64;
  t0 ← address_field entries "token_0";
  t1 ← address_field entries "token_1";
  pairAddr ← address_field entries "pair";
  a0 ← canon (NewSorobanAsset t0);
  a1 ← canon (NewSorobanAsset t1);
  Ok (mkNP a0 a1 pairAddr).

Definition skimAmountField (entries : list (ScVal * ScVal)) (primary alias : string) : res gerr Amount :=
  match MapField entries primary with
  | Some sv => AsAmountFromI128 sv
  | None => match MapField entries alias with Some sv => AsAmountFromI128 sv | None => Err [] end
  end.

Definition sdkDecodeSkim (valueB64 : string) : res gerr SkimFields :=
  entries ← body_map valueB64;
  amt0 ← skimAmountField entries "skimmed_0" "amount_0";
  amt1 ← skimAmountField entries "skimmed_1" "amount_1";
  to ← match MapField entries "to" with Some sv => AsAddressStrkey sv | None => Ok "" end;
  Ok (mkSF amt0 amt1 to).

(** ** A swap *)

(** The legs of a swap: what was sold and what was received. *)
Definition direction (a : swapAmounts) (tok0 tok1 : Asset) : res gerr (Asset * Amount * Asset * Amount) :=
  let in0 := 0 <? Amount_Sign (Amount0In a) in
  let in1 := 0 <? Amount_Sign (Amount1In a) in
  let out0 := 0 <? Amount_Sign (Amount0Out a) in
  let out1 := 0 <? Amount_Sign (Amount1Out a) in
  if in0 && out1 && negb in1 && negb out0 then Ok (tok0, Amount0In a, tok1, Amount1Out a)
  else if in1 && out0 && negb in0 && negb out1 then Ok (tok1, Amount1In a, tok0, Amount0Out a)
  else
    let legs := length (List.filter (fun b => b) [in0; in1; out0; out1]) in
    Err (if (3 <=? legs)%nat then [ErrNonDirectionalSwap; ErrAmbiguousSwapDirection] else [ErrNonDirectionalSwap]).

Definition swap_values (e : Event) (tok0 tok1 : Asset) : res gerr (Pair * Amount * Amount * string) :=
  amounts ← match sdkDecodeSwapAmounts (ev_Value e) with Ok a => Ok a | Err er => Err (ErrMalformedPayload :: er) end;
  '(base, baseAmt, quote, quoteAmt) ← direction amounts tok0 tok1;
  pr ← canon (NewPair base quote);
  Ok (pr, baseAmt, quoteAmt, decodeSwapTaker (ev_Value e)).

(** [None] is a panic of the packed index. *)
Definition decodeSwapLeg (r : RawPair) (tok0 tok1 : Asset) : option (res gerr Trade) :=
  match rp_Swap r with
  | None => Some (Err [ErrMalformedPayload])
  | Some e =>
      match swap_values e tok0 tok1 with
      | Err er => Some (Err er)
      | Ok (pr, baseAmt, quoteAmt, taker) =>
          match FanoutOpIndex (rp_OpIndex r) (ev_EventIndex e) with
          | None => None
          | Some op => Some (Ok (mkTrade SourceName (rp_Ledger r) (rp_TxHash r) op (rp_ClosedAt r) pr baseAmt quoteAmt "" taker ""))
          end
      end
  end.

Definition decodeSwap (r : RawPair) (tok0 tok1 : Asset) : option (res gerr Trade) :=
  if negb (Complete r) then Some (Err [ErrSwapWithoutSync]) else decodeSwapLeg r tok0 tok1.

(** ** The buffer (consumer.go) *)

Definition defaultOrphanMaxAge : Duration := 5 * Minute.

Record buffer := mkBuf { b_m : gmap groupKey RawPair; b_maxAge : Duration }.
Definition newBuffer : buffer := mkBuf ∅ defaultOrphanMaxAge.

Definition rotates (p : RawPair) (kind : string) (e : Event) : bool :=
  let prior := if String.eqb kind EventSwap then rp_Swap p else if String.eqb kind EventSync then rp_Sync p else None in
  match prior with Some q => negb (ev_EventIndex q =? ev_EventIndex e) | None => false end.

Definition stale (cutoff : Time) (p : RawPair) : bool := time_Before (rp_ClosedAt p) cutoff.

(** The groups that aged out, and the rest. *)
Definition sweepStale (b : buffer) (ref now : Time) : buffer * list RawPair :=
  if b_maxAge b <=? 0 then (b, [])
  else
    let ref := if time_IsZero ref then now else ref in
    let cutoff := time_Add ref (- b_maxAge b) in
    (mkBuf (filter (fun kv => stale cutoff kv.2 = false) (b_m b)) (b_maxAge b),
     List.filter (stale cutoff) (map_to_list (b_m b)).*2).

Definition newRaw (e : Event) (closedAt : Time) : RawPair :=
  mkRaw (ev_Ledger e) (ev_TxHash e) (wrapu 32 (ev_OperationIndex e)) (ev_ContractID e) closedAt None None.

Definition put (p : RawPair) (kind : string) (e : Event) : RawPair :=
  if String.eqb kind EventSwap then mkRaw (rp_Ledger p) (rp_TxHash p) (rp_OpIndex p) (rp_Pair p) (rp_ClosedAt p) (Some e) (rp_Sync p)
  else if String.eqb kind EventSync then mkRaw (rp_Ledger p) (rp_TxHash p) (rp_OpIndex p) (rp_Pair p) (rp_ClosedAt p) (rp_Swap p) (Some e)
  else p.

Definition has_swap (p : RawPair) : bool := match rp_Swap p with Some _ => true | None => false end.

Definition absorb (b : buffer) (e : Event) (kind : string) (closedAt now : Time) : buffer * list RawPair * list RawPair :=
  let '(b, evicted) := sweepStale b closedAt now in
  let k := keyOf e in
  let '(p, completed, evicted) :=
    match b_m b !! k with
    | None => (newRaw e closedAt, [], evicted)
    | Some p =>
        if rotates p kind e then
          if has_swap p then (newRaw e closedAt, [p], evicted) else (newRaw e closedAt, [], evicted ++ [p])
        else (p, [], evicted)
    end in
  let p := put p kind e in
  if Complete p then (mkBuf (delete k (b_m b)) (b_maxAge b), completed ++ [p], evicted)
  else (mkBuf (<[k := p]> (b_m b)) (b_maxAge b), completed, evicted).

Definition orphans (b : buffer) : list RawPair := (map_to_list (b_m b)).*2.

(** ** The adapter (dispatcher_adapter.go) *)

Record PairTokens := mkTokens { Token0 : Asset; Token1 : Asset }.

Record decoder := mkDec {
  d_buf : buffer; pairTokens : gmap string PairTokens; onNewPair : bool; hook_calls : list (string * string * string);
  d_evictedOrphans : Z; d_evictedBareSync : Z; d_skippedUnknownPair : Z; d_skippedNonDirectional : Z
}.

Definition DecoderOption : Type := decoder -> decoder.
Definition WithSeededPairTokensDecoder (seed : gmap string PairTokens) : DecoderOption := fun d =>
  mkDec (d_buf d) (seed ∪ pairTokens d) (onNewPair d) (hook_calls d) (d_evictedOrphans d) (d_evictedBareSync d) (d_skippedUnknownPair d) (d_skippedNonDirectional d).
Definition WithPairUpsertHook : DecoderOption := fun d =>
  mkDec (d_buf d) (pairTokens d) true (hook_calls d) (d_evictedOrphans d) (d_evictedBareSync d) (d_skippedUnknownPair d) (d_skippedNonDirectional d).
Definition NewDecoder (opts : list DecoderOption) : decoder := foldl (fun d o => o d) (mkDec newBuffer ∅ false [] 0 0 0 0) opts.

Definition SeedPair (d : decoder) (pair : string) (token0 token1 : Asset) : decoder :=
  mkDec (d_buf d) (<[pair := mkTokens token0 token1]> (pairTokens d)) (onNewPair d)
    (if onNewPair d then hook_calls d ++ [(pair, ContractID token0, ContractID token1)] else hook_calls d)
    (d_evictedOrphans d) (d_evictedBareSync d) (d_skippedUnknownPair d) (d_skippedNonDirectional d).

Definition pairTokensFor (d : decoder) (contractID : string) : option PairTokens := pairTokens d !! contractID.

Definition Matches (d : decoder) (ev : Event) : bool :=
  let kind := classify ev in
  if String.eqb kind "" then false
  else if String.eqb kind EventPairToken then false
  else if String.eqb kind EventNewPair then IsMainnetFactory (ev_ContractID ev)
  else match pairTokensFor d (ev_ContractID ev) with Some _ => true | None => false end.

Definition GatedContractSet (d : decoder) : list string :=
  sort_Strings (MainnetFactories ++ List.filter (fun p => negb (IsMainnetFactory p)) (elements (dom (pairTokens d)))).

(** [None] is a panic, and the state is what it left. *)
Abbreviation outcome := (option (res gerr (list consumer_event))).

Definition skip_unknown (d : decoder) : decoder :=
  mkDec (d_buf d) (pairTokens d) (onNewPair d) (hook_calls d) (d_evictedOrphans d) (d_evictedBareSync d) (d_skippedUnknownPair d + 1) (d_skippedNonDirectional d).
Definition skip_direction (d : decoder) : decoder :=
  mkDec (d_buf d) (pairTokens d) (onNewPair d) (hook_calls d) (d_evictedOrphans d) (d_evictedBareSync d) (d_skippedUnknownPair d) (d_skippedNonDirectional d + 1).
Definition count_evicted (d : decoder) (orphaned bare : Z) : decoder :=
  mkDec (d_buf d) (pairTokens d) (onNewPair d) (hook_calls d) (d_evictedOrphans d + orphaned) (d_evictedBareSync d + bare)
    (d_skippedUnknownPair d) (d_skippedNonDirectional d).
Definition with_buf (d : decoder) (b : buffer) : decoder :=
  mkDec b (pairTokens d) (onNewPair d) (hook_calls d) (d_evictedOrphans d) (d_evictedBareSync d) (d_skippedUnknownPair d) (d_skippedNonDirectional d).

Fixpoint emitCompleted (d : decoder) (completed : list RawPair) (out : list consumer_event) : outcome * decoder :=
  match completed with
  | [] => (Some (Ok out), d)
  | r :: completed =>
      match pairTokensFor d (rp_Pair r) with
      | None => emitCompleted (skip_unknown d) completed out
      | Some tokens =>
          match decodeSwapLeg r (Token0 tokens) (Token1 tokens) with
          | None => (None, d)
          | Some (Err e) =>
              if gerr_Is e ErrNonDirectionalSwap then emitCompleted (skip_direction d) completed out else (Some (Err e), d)
          | Some (Ok trade) => emitCompleted d completed (out ++ [TradeEvent trade])
          end
      end
  end.

Definition count_with (f : RawPair -> bool) (l : list RawPair) : Z := Z.of_nat (length (List.filter f l)).

Definition absorbEvent (d : decoder) (ev : Event) (kind : string) (closedAt now : Time) : decoder * list RawPair :=
  let '(b, completed, evicted) := absorb (d_buf d) ev kind closedAt now in
  (count_evicted (with_buf d b) (count_with has_swap evicted) (count_with (fun p => negb (has_swap p)) evicted), completed).

Definition emitLiquidity (d : decoder) (ev : Event) (kind : string) : res gerr (list consumer_event) :=
  closedAt ← EventClosedAt ev;
  fields ← sdkDecodeLiquidity (ev_Value ev);
  let '(tok0, tok1) := match pairTokensFor d (ev_ContractID ev) with
                       | Some t => (Asset_String (Token0 t), Asset_String (Token1 t))
                       | None => ("", "")
                       end in
  Ok [LiquidityEvent (mkLiquidity (ev_ContractID ev) (ev_Ledger ev) (ev_TxHash ev) (wrapu 32 (ev_OperationIndex ev)) (wrapu 32 (ev_EventIndex ev))
        closedAt kind (lf_To fields) tok0 tok1 (lf_Amount0 fields) (lf_Amount1 fields) (lf_Liquidity fields) (lf_NewReserve0 fields) (lf_NewReserve1 fields))].

Definition decode_skim (ev : Event) : res gerr (list consumer_event) :=
  closedAt ← EventClosedAt ev;
  fields ← sdkDecodeSkim (ev_Value ev);
  Ok [SkimEvent (mkSkim (ev_ContractID ev) (ev_Ledger ev) (ev_TxHash ev) (wrapu 32 (ev_OperationIndex ev)) (wrapu 32 (ev_EventIndex ev))
        closedAt (sf_To fields) (sf_Amount0 fields) (sf_Amount1 fields))].

Definition Decode (d : decoder) (ev : Event) (now : Time) : outcome * decoder :=
  let kind := classify ev in
  if String.eqb kind "" then (Some (Ok []), d)
  else if String.eqb kind EventNewPair then
    match sdkDecodeNewPair (ev_Value ev) with
    | Err e => (Some (Err e), d)
    | Ok f => (Some (Ok []), SeedPair d (np_Pair f) (np_Token0 f) (np_Token1 f))
    end
  else if String.eqb kind EventSkim then (Some (decode_skim ev), d)
  else if String.eqb kind EventDeposit || String.eqb kind EventWithdraw then (Some (emitLiquidity d ev kind), d)
  else if negb (String.eqb kind EventSwap) && negb (String.eqb kind EventSync) then (Some (Ok []), d)
  else match EventClosedAt ev with
       | Err e => (Some (Err e), d)
       | Ok closedAt =>
           let '(d, completed) := absorbEvent d ev kind closedAt now in
           match completed with
           | [] => (Some (Ok []), d)
           | _ :: _ => emitCompleted d completed []
           end
       end.

(** The open groups in the order of the map. *)
Fixpoint drain_open (d : decoder) (open : list RawPair) (out : list consumer_event) : option (list consumer_event) * decoder :=
  match open with
  | [] => (Some out, d)
  | p :: open =>
      if negb (has_swap p) then drain_open (count_evicted d 0 1) open out
      else match emitCompleted d [p] [] with
           | (None, d) => (None, d)
           | (Some (Err _), d) => drain_open (count_evicted d 1 0) open out
           | (Some (Ok evs), d) => drain_open d open (out ++ evs)
           end
  end.

Definition Drain (d : decoder) : option (list consumer_event) * decoder :=
  drain_open (with_buf d (mkBuf ∅ (b_maxAge (d_buf d)))) (orphans (d_buf d)) [].

Definition EvictedOrphans (d : decoder) : Z := d_evictedOrphans d.
Definition EvictedBareSync (d : decoder) : Z := d_evictedBareSync d.
Definition SkippedUnknownPair (d : decoder) : Z := d_skippedUnknownPair d.
Definition UnknownContractDrops (d : decoder) : Z := SkippedUnknownPair d.
Definition SkippedNonDirectional (d : decoder) : Z := d_skippedNonDirectional d.
End Decoder.

(** ** Properties *)

(** *** One event in the buffer *)

(** The swaps of a list of groups. *)
Definition swaps_in (l : list RawPair) : list Event := omap rp_Swap l.

Lemma swaps_in_app a b : swaps_in (a ++ b) = swaps_in a ++ swaps_in b.
Proof. apply omap_app. Qed.

#[local] Instance swaps_in_proper : Proper ((≡ₚ) ==> (≡ₚ)) swaps_in.
Proof. intros a b. apply omap_Permutation. Qed.

Definition opt_swap (kind : string) (e : Event) : list Event := if String.eqb kind EventSwap then [e] else [].

Lemma opt_swap_put p kind e : (kind = EventSwap -> rp_Swap p = None) ->
  swaps_in [put p kind e] = swaps_in [p] ++ opt_swap kind e.
Proof.
  intros Hk. unfold put, opt_swap, swaps_in. destruct (String.eqb_spec kind EventSwap) as [Ek|]; cbn [omap list_omap rp_Swap].
  - by rewrite (Hk Ek).
  - destruct (String.eqb kind EventSync); cbn [omap list_omap rp_Swap]; by rewrite app_nil_r.
Qed.

(** No swap is lost or made up: those that were open and the new one are
    settled, aged out or open. *)
Lemma absorb_conserves b e kind closedAt now b' completed evicted :
  (forall p q, b_m b !! keyOf e = Some p -> kind = EventSwap -> rp_Swap p = Some q -> ev_EventIndex q <> ev_EventIndex e) ->
  absorb b e kind closedAt now = (b', completed, evicted) ->
  swaps_in (values (b_m b)) ++ opt_swap kind e ≡ₚ swaps_in completed ++ swaps_in evicted ++ swaps_in (values (b_m b')).
Proof.
  intros Hd. unfold absorb. destruct (sweepStale b closedAt now) as [b1 aged] eqn:Es.
  assert (values (b_m b) ≡ₚ aged ++ values (b_m b1) /\ forall p, b_m b1 !! keyOf e = Some p -> b_m b !! keyOf e = Some p) as [Hv Hsub].
  { unfold sweepStale in Es. case_if_in Es; injection Es as <- <-; [done|]. split; [apply values_filter|].
    intros p. cbn [b_m]. rewrite map_lookup_filter_Some. by intros [? _]. }
  set (start := match b_m b1 !! keyOf e with
      | Some p => if rotates p kind e then if has_swap p then (newRaw e closedAt, [p], aged) else (newRaw e closedAt, [], aged ++ [p]) else (p, [], aged)
      | None => (newRaw e closedAt, [], aged) end).
  assert (let '(p, c, a) := start in
    swaps_in (aged ++ values (b_m b1)) ≡ₚ swaps_in c ++ swaps_in a ++ swaps_in [p] ++ swaps_in (values (delete (keyOf e) (b_m b1))) /\
    (kind = EventSwap -> rp_Swap p = None)) as Hst.
  { unfold start. destruct (b_m b1 !! keyOf e) as [p|] eqn:Ep.
    - assert (swaps_in (aged ++ values (b_m b1)) ≡ₚ swaps_in aged ++ swaps_in [p] ++ swaps_in (values (delete (keyOf e) (b_m b1)))) as Hd1.
      { rewrite swaps_in_app, (values_delete _ _ _ Ep). change (p :: ?l) with ([p] ++ l). by rewrite swaps_in_app. }
      destruct (rotates p kind e) eqn:Er.
      + destruct (has_swap p); (split; [|done]); rewrite Hd1; change (swaps_in [newRaw e closedAt]) with (@nil Event); rewrite ?swaps_in_app; cbn [app].
        * apply Permutation_app_swap_app.
        * by rewrite <- app_assoc.
      + split; [done|]. intros Ek. destruct (rp_Swap p) as [q|] eqn:Eq; [|done].
        exfalso. unfold rotates in Er. subst kind. cbn in Er. rewrite Eq in Er. apply negb_false_iff, Z.eqb_eq in Er. by apply (Hd p q (Hsub p eq_refl) eq_refl Eq).
    - rewrite delete_id by done. split; [|done]. by rewrite swaps_in_app. }
  destruct start as [[p c] a]. destruct Hst as [Hall Hk]. intros E. rewrite Hv, Hall.
  pose proof (opt_swap_put p kind e Hk) as Hput. set (p' := put p kind e) in *.
  destruct (Complete p'); injection E as <- <- <-; cbn [b_m].
  - rewrite swaps_in_app, Hput, <- !app_assoc. apply Permutation_app_head. rewrite (Permutation_app_comm (swaps_in (values _))). solve_Permutation.
  - rewrite (values_delete _ _ _ (lookup_insert_eq _ _ _)), delete_insert_eq.
    change (p' :: ?l) with ([p'] ++ l). rewrite swaps_in_app, Hput. rewrite <- !app_assoc. do 2 apply Permutation_app_head. solve_Permutation.
Qed.

(** *** Groups hold the swaps they were given *)

Section Groups.
(** The close time of a ledger, and the swaps seen so far. *)
Context (close : Z -> Time).

Definition gkey (p : RawPair) : groupKey := (rp_Ledger p, rp_TxHash p, rp_OpIndex p, rp_Pair p).

Definition good_group (seen : Event -> Prop) (p : RawPair) : Prop :=
  rp_ClosedAt p = close (rp_Ledger p) /\ forall q, rp_Swap p = Some q -> keyOf q = gkey p /\ seen q.

Record buf_ok (seen : Event -> Prop) (b : buffer) : Prop := {
  ok_age : b_maxAge b = defaultOrphanMaxAge;
  ok_group : forall k p, b_m b !! k = Some p -> gkey p = k /\ Complete p = false /\ good_group seen p
}.

Lemma good_group_mono (S1 S2 : Event -> Prop) p : (forall q, S1 q -> S2 q) -> good_group S1 p -> good_group S2 p.
Proof. intros HS [Hc Hq]. split; [done|]. intros q E. destruct (Hq q E). auto. Qed.

Lemma good_new seen e : good_group seen (newRaw e (close (ev_Ledger e))).
Proof. by split. Qed.

Lemma good_put seen p kind e : gkey p = keyOf e -> good_group seen p -> (kind = EventSwap -> seen e) ->
  gkey (put p kind e) = keyOf e /\ good_group seen (put p kind e).
Proof.
  intros Hk [Hc Hq] Hs. unfold put. destruct (String.eqb_spec kind EventSwap) as [Ek|]; [|destruct (String.eqb kind EventSync)].
  - split; [done|]. split; [done|]. intros q [= <-]. split; [by rewrite <- Hk|auto].
  - split; [done|]. by split.
  - done.
Qed.

Lemma put_new_incomplete e kind t : Complete (put (newRaw e t) kind e) = false.
Proof. unfold put. by repeat case_if. Qed.

Lemma complete_has_swap p : Complete p = true -> has_swap p = true.
Proof. unfold Complete, has_swap. by destruct (rp_Swap p). Qed.

(** What a swept or pushed out group looks like, and what settles. *)
Lemma absorb_groups seen b e kind now b' completed evicted :
  buf_ok seen b -> close (ev_Ledger e) <> zero_time -> (kind = EventSwap -> seen e) ->
  absorb b e kind (close (ev_Ledger e)) now = (b', completed, evicted) ->
  buf_ok seen b' /\ Forall (good_group seen) (completed ++ evicted) /\
  (completed = [] \/ exists p, completed = [p] /\ has_swap p = true) /\
  (forall p, p ∈ evicted -> has_swap p = true -> rp_ClosedAt p + defaultOrphanMaxAge < close (ev_Ledger e)).
Proof.
  intros [Hage Hg] Hz Hs. unfold absorb, sweepStale. rewrite Hage. change (defaultOrphanMaxAge <=? 0) with false. cbv iota.
  assert (time_IsZero (close (ev_Ledger e)) = false) as -> by (by apply Z.eqb_neq). set (cutoff := time_Add _ _).
  set (m1 := filter _ (b_m b)). set (aged := List.filter (stale cutoff) _). cbn [b_m b_maxAge].
  assert (forall k p, m1 !! k = Some p -> gkey p = k /\ Complete p = false /\ good_group seen p) as Hg1.
  { intros k p. unfold m1. rewrite map_lookup_filter_Some. intros [Hp _]. by apply Hg. }
  assert (Forall (good_group seen) aged /\ forall p, p ∈ aged -> rp_ClosedAt p + defaultOrphanMaxAge < close (ev_Ledger e)) as [Ha1 Ha2].
  { assert (forall p, p ∈ aged -> good_group seen p /\ stale cutoff p = true) as Ha.
    { intros p Hp. unfold aged in Hp. apply list_elem_of_In, filter_In in Hp as [Hp Hst]. apply list_elem_of_In, elem_of_values in Hp as [k Hk].
      split; [by apply (Hg k)|done]. }
    split; [apply Forall_forall; intros p Hp; by apply Ha|]. intros p Hp. destruct (Ha p Hp) as [_ Hst]. unfold stale, cutoff, time_Before, time_Add in Hst. bprop. lia. }
  assert (forall p, gkey p = keyOf e -> good_group seen p -> forall completed0 evicted0,
    Forall (good_group seen) (completed0 ++ evicted0) -> (completed0 = [] \/ Complete (put p kind e) = false /\ exists r, completed0 = [r] /\ has_swap r = true) ->
    (forall r, r ∈ evicted0 -> has_swap r = true -> rp_ClosedAt r + defaultOrphanMaxAge < close (ev_Ledger e)) ->
    (if Complete (put p kind e) then (mkBuf (delete (keyOf e) m1) defaultOrphanMaxAge, completed0 ++ [put p kind e], evicted0)
     else (mkBuf (<[keyOf e := put p kind e]> m1) defaultOrphanMaxAge, completed0, evicted0)) = (b', completed, evicted) ->
    buf_ok seen b' /\ Forall (good_group seen) (completed ++ evicted) /\
    (completed = [] \/ exists p, completed = [p] /\ has_swap p = true) /\
    (forall p, p ∈ evicted -> has_swap p = true -> rp_ClosedAt p + defaultOrphanMaxAge < close (ev_Ledger e))) as Hend.
  { intros p Hk Hp c ev Hf Hc Hev. destruct (good_put seen p kind e Hk Hp Hs) as [Hk' Hp'].
    destruct (Complete (put p kind e)) eqn:Ec; intros [= <- <- <-].
    - destruct Hc as [->|[[=] _]]. split; [split; [done|]|split; [by constructor|split; [right|done]]].
      + cbn [b_m]. intros k r [_ Hr]%lookup_delete_Some. by apply Hg1.
      + exists (put p kind e). split; [done|by apply complete_has_swap].
    - split; [split; [done|]|split; [done|split; [|done]]].
      + cbn [b_m]. intros k r [[<- <-]|[_ Hr]]%lookup_insert_Some; [done|by apply Hg1].
      + destruct Hc as [->|[_ Hc]]; [by left|by right]. }
  destruct (m1 !! keyOf e) as [p|] eqn:Ep; [|by apply Hend; [done|apply good_new|rewrite app_nil_l|left|auto]].
  destruct (Hg1 _ _ Ep) as (Hk & Hinc & Hp). destruct (rotates p kind e); [|by apply Hend; [done|done|rewrite app_nil_l|left|auto]].
  destruct (has_swap p) eqn:Esw; apply Hend; try done; try apply good_new.
  - by constructor.
  - right. split; [apply put_new_incomplete|by exists p].
  - auto.
  - rewrite app_nil_l. apply Forall_app. split; [done|by constructor].
  - by left.
  - intros r [Hr|Hr%list_elem_of_singleton]%elem_of_app; [auto|]. subst r. by rewrite Esw.
Qed.
End Groups.

(** *** A stream *)

Section Stream.
Context `{Xdr, Strkey}.
(** The close time of a ledger, the tokens of a pair, and the clock that a
    sweep would fall back on. *)
Context (close : Z -> Time) (toks : string -> PairTokens) (nowFn : Event -> Time).

Definition is_swap (ev : Event) : bool := String.eqb (classify ev) EventSwap.
Definition swaps (evs : list Event) : list Event := List.filter is_swap evs.

Definition trades (outs : list consumer_event) : list Trade := omap (fun o => match o with TradeEvent t => Some t | _ => None end) outs.

(** The trade of a swap on its own. *)
Definition swap_trade (e : Event) : option Trade :=
  let t := toks (ev_ContractID e) in
  match swap_values e (Token0 t) (Token1 t), FanoutOpIndex (wrapu 32 (ev_OperationIndex e)) (ev_EventIndex e) with
  | Ok (pr, baseAmt, quoteAmt, taker), Some op =>
      Some (mkTrade SourceName (ev_Ledger e) (ev_TxHash e) op (close (ev_Ledger e)) pr baseAmt quoteAmt "" taker "")
  | _, _ => None
  end.

Definition emitted (r : option (res gerr (list consumer_event))) : list consumer_event := match r with Some (Ok out) => out | _ => [] end.

(** A consumer of the decoder: what it accepted and what it was given. *)
Definition feed (s : list Event * list consumer_event * decoder) (ev : Event) : list Event * list consumer_event * decoder :=
  let '(acc, outs, d) := s in
  if Matches d ev then let '(r, d) := Decode d ev (nowFn ev) in (acc ++ [ev], outs ++ emitted r, d) else s.

Definition drive (d : decoder) (evs : list Event) : list Event * list consumer_event * decoder := foldl feed ([], [], d) evs.
Definition accepted (d : decoder) (evs : list Event) : list Event := (drive d evs).1.1.

(** A bounded stream ends with a drain. *)
Definition decode_all (d : decoder) (evs : list Event) : list consumer_event :=
  let '(_, outs, d) := drive d evs in outs ++ default [] (Drain d).1.

(** What the ledger guarantees of an event. *)
Record event_ok (ev : Event) : Prop := {
  eo_close : EventClosedAt ev = Ok (close (ev_Ledger ev));
  eo_real : close (ev_Ledger ev) <> zero_time;
  eo_op : 0 <= ev_OperationIndex ev <= 0xFFFF;
  eo_index : 0 <= ev_EventIndex ev <= 0xFFFF
}.

(** A pair is announced with its tokens. *)
Definition announced (ev : Event) : Prop :=
  classify ev = EventNewPair -> forall f, sdkDecodeNewPair (ev_Value ev) = Ok f -> toks (np_Pair f) = mkTokens (np_Token0 f) (np_Token1 f).
Definition agreed (m : gmap string PairTokens) : Prop := forall c t, m !! c = Some t -> t = toks c.

Definition ident (e : Event) : groupKey * Z := (keyOf e, ev_EventIndex e).

(** More than the age limit before an event of the list. *)
Definition outlived (acc : list Event) (e : Event) : Prop :=
  exists e', e' ∈ acc /\ close (ev_Ledger e) + defaultOrphanMaxAge < close (ev_Ledger e').

(** The decoder after the events it accepted. *)
Record inv (acc : list Event) (outs : list consumer_event) (d : decoder) : Prop := {
  iv_agreed : agreed (pairTokens d);
  iv_known : forall q, q ∈ swaps acc -> is_Some (pairTokensFor d (ev_ContractID q));
  iv_buf : buf_ok close (fun q => q ∈ swaps acc) (d_buf d);
  iv_out : exists kept lost, swaps acc ≡ₚ kept ++ lost ++ swaps_in (values (b_m (d_buf d))) /\
             trades outs = omap swap_trade kept /\ Forall (outlived acc) lost /\ d_evictedOrphans d = Z.of_nat (length lost);
  iv_unknown : d_skippedUnknownPair d = 0
}.

Lemma swap_trades_app a b : trades (a ++ b) = trades a ++ trades b.
Proof. apply omap_app. Qed.

Lemma swaps_snoc acc ev : swaps (acc ++ [ev]) = swaps acc ++ opt_swap (classify ev) ev.
Proof. unfold swaps. rewrite List.filter_app. cbn. unfold is_swap, opt_swap. by case_if. Qed.

Lemma swaps_elem acc q : q ∈ swaps acc <-> q ∈ acc /\ classify q = EventSwap.
Proof. unfold swaps. rewrite list_elem_of_In, filter_In, <- list_elem_of_In. unfold is_swap. by rewrite String.eqb_eq. Qed.

Lemma outlived_snoc acc ev e : outlived acc e -> outlived (acc ++ [ev]) e.
Proof. intros (e' & He & Ho). exists e'. split; [|done]. apply elem_of_app. by left. Qed.

(** A settled group yields the trade of its swap. *)
Lemma emit_group d p q seen : agreed (pairTokens d) -> good_group close seen p -> rp_Swap p = Some q ->
  event_ok q -> is_Some (pairTokensFor d (ev_ContractID q)) ->
  exists r d', emitCompleted d [p] [] = (Some r, d') /\
    trades (emitted (Some r)) = omap swap_trade [q] /\ d_buf d' = d_buf d /\ pairTokens d' = pairTokens d /\
    d_evictedOrphans d' = d_evictedOrphans d /\ d_skippedUnknownPair d' = d_skippedUnknownPair d.
Proof.
  intros Hag [Hc Hq] Ep [_ _ Ho Hi] [t Ht]. destruct (Hq q Ep) as [Hk _]. unfold keyOf, gkey in Hk. injection Hk as E1 E2 E3 E4.
  cbn [emitCompleted omap list_omap]. rewrite <- E4, Ht, (Hag _ _ Ht). unfold decodeSwapLeg, swap_trade. rewrite Ep, Hc, <- E1, <- E2, <- E3.
  destruct (swap_values q _ _) as [[[[pr b] qt] tk]|e].
  - unfold FanoutOpIndex. rewrite (wrapu_small 32) by (cbn; lia). rewrite !(proj2 (Z.ltb_ge _ _)) by lia. cbn. by eexists _, _.
  - destruct (gerr_Is e ErrNonDirectionalSwap); by eexists _, _.
Qed.

(** Events that do not touch the buffer. *)
Lemma inv_other acc outs d ev out m :
  inv acc outs d -> classify ev <> EventSwap -> trades out = [] -> agreed m -> (forall c, is_Some (pairTokens d !! c) -> is_Some (m !! c)) ->
  forall d', d_buf d' = d_buf d -> pairTokens d' = m -> d_evictedOrphans d' = d_evictedOrphans d -> d_skippedUnknownPair d' = d_skippedUnknownPair d ->
  inv (acc ++ [ev]) (outs ++ out) d'.
Proof.
  intros [Hag Hkn Hb (kept & lost & Hp & Ht & Hl & He) Hu] Hns Ho Hm Hdom d' E1 E2 E3 E4.
  assert (swaps (acc ++ [ev]) = swaps acc) as Hsw.
  { rewrite swaps_snoc. unfold opt_swap. rewrite (proj2 (String.eqb_neq _ _) Hns). apply app_nil_r. }
  split; rewrite ?Hsw, ?E1.
  - by rewrite E2.
  - intros q Hq. unfold pairTokensFor. rewrite E2. by apply Hdom, Hkn.
  - done.
  - exists kept, lost. rewrite E3, swap_trades_app, Ho, app_nil_r. split_and!; try done. eapply Forall_impl; [done|]. intros. by apply outlived_snoc.
  - by rewrite E4.
Qed.

(** The swaps of groups that have one. *)
Lemma swaps_in_some p q : rp_Swap p = Some q -> swaps_in [p] = [q].
Proof. intros E. unfold swaps_in. cbn. by rewrite E. Qed.

Lemma count_swaps l : count_with has_swap l = Z.of_nat (length (swaps_in l)).
Proof.
  unfold count_with. f_equal. induction l as [|p l IH]; [done|]. cbn [List.filter swaps_in omap list_omap]. unfold has_swap at 1.
  destruct (rp_Swap p); cbn [length]; [f_equal; done|done].
Qed.

Lemma swaps_in_elem l q : q ∈ swaps_in l -> exists p, p ∈ l /\ rp_Swap p = Some q.
Proof. unfold swaps_in. rewrite list_elem_of_omap. done. Qed.

Lemma has_swap_Some p : has_swap p = true -> exists q, rp_Swap p = Some q.
Proof. unfold has_swap. destruct (rp_Swap p) as [q|]; [by exists q|done]. Qed.

(** The pairs of accepted swaps are known. *)
Lemma known_snoc d acc ev : (forall q, q ∈ swaps acc -> is_Some (pairTokensFor d (ev_ContractID q))) -> is_Some (pairTokensFor d (ev_ContractID ev)) ->
  forall q, q ∈ swaps (acc ++ [ev]) -> is_Some (pairTokensFor d (ev_ContractID q)).
Proof.
  intros Hkn Hev q. rewrite swaps_snoc. intros [Hq|Hq]%elem_of_app; [by apply Hkn|].
  unfold opt_swap in Hq. case_if_in Hq; [by apply list_elem_of_singleton in Hq as ->|by apply elem_of_nil in Hq].
Qed.

Lemma last_ok acc ev : Forall event_ok (acc ++ [ev]) -> event_ok ev.
Proof. intros Hok. eapply Forall_forall in Hok; [done|]. apply elem_of_app. right. by apply list_elem_of_singleton. Qed.

(** What settles is emitted. *)
Lemma emit_settled acc d completed : agreed (pairTokens d) -> Forall event_ok acc ->
  (forall q, q ∈ swaps acc -> is_Some (pairTokensFor d (ev_ContractID q))) ->
  Forall (good_group close (fun q => q ∈ swaps acc)) completed ->
  (completed = [] \/ exists p, completed = [p] /\ has_swap p = true) ->
  exists r d', match completed with [] => (Some (Ok []), d) | _ :: _ => emitCompleted d completed [] end = (Some r, d') /\
    trades (emitted (Some r)) = omap swap_trade (swaps_in completed) /\ d_buf d' = d_buf d /\ pairTokens d' = pairTokens d /\
    d_evictedOrphans d' = d_evictedOrphans d /\ d_skippedUnknownPair d' = d_skippedUnknownPair d.
Proof.
  intros Hag Hok Hkn Hgood [->|(p & -> & Hsp)]; [by eexists _, _|]. apply has_swap_Some in Hsp as [q Hq]. rewrite (swaps_in_some p q Hq).
  apply Forall_cons in Hgood as [Hgp _]. pose proof (proj2 Hgp q Hq) as [_ Hseen].
  destruct (emit_group d p q _ Hag Hgp Hq) as (r & d2 & E & Hrest); [|by apply Hkn|by eexists _, _].
  apply swaps_elem in Hseen as [Hin _]. by eapply Forall_forall in Hok.
Qed.

(** A group that aged out held a swap that an event outlived. *)
Lemma evicted_outlived seen acc ev evicted : Forall (good_group close seen) evicted ->
  (forall p, p ∈ evicted -> has_swap p = true -> rp_ClosedAt p + defaultOrphanMaxAge < close (ev_Ledger ev)) ->
  Forall (outlived (acc ++ [ev])) (swaps_in evicted).
Proof.
  intros Hge Hold. apply Forall_forall. intros q Hq. apply swaps_in_elem in Hq as (p & Hpe & Eq). exists ev.
  split; [apply elem_of_app; right; by apply list_elem_of_singleton|]. eapply Forall_forall in Hge as [Hcl Hq2]; [|done].
  destruct (Hq2 q Eq) as [Hk _]. unfold keyOf, gkey in Hk. injection Hk as -> _ _ _. rewrite <- Hcl. apply Hold; [done|]. unfold has_swap. by rewrite Eq.
Qed.

(** A swap or a sync. *)
Lemma inv_absorb acc outs d ev :
  inv acc outs d -> Forall event_ok (acc ++ [ev]) -> NoDup (ident <$> swaps (acc ++ [ev])) ->
  is_Some (pairTokensFor d (ev_ContractID ev)) ->
  let '(d1, completed) := absorbEvent d ev (classify ev) (close (ev_Ledger ev)) (nowFn ev) in
  let '(r, d2) := match completed with [] => (Some (Ok []), d1) | _ :: _ => emitCompleted d1 completed [] end in
  inv (acc ++ [ev]) (outs ++ emitted r) d2.
Proof.
  intros [Hag Hkn Hb (kept & lost & Hp & Ht & Hl & He) Hu] Hok Hnd Hev. pose proof (last_ok _ _ Hok) as Hoke. unfold absorbEvent.
  destruct (absorb _ _ _ _ _) as [[b completed] evicted] eqn:Ea. set (seen := fun q => q ∈ swaps (acc ++ [ev])).
  assert (buf_ok close seen (d_buf d)) as Hb'.
  { destruct Hb as [Ha Hg]. split; [done|]. intros k p Hk. destruct (Hg k p Hk) as (? & ? & Hgg). split_and!; try done.
    eapply good_group_mono; [|done]. intros q Hq. unfold seen. rewrite swaps_snoc. apply elem_of_app. by left. }
  assert (classify ev = EventSwap -> seen ev) as Hs by (intros Ek; apply swaps_elem; split; [apply elem_of_app; right; by apply list_elem_of_singleton|done]).
  destruct (absorb_groups close seen _ _ _ _ _ _ _ Hb' (eo_real _ Hoke) Hs Ea) as (Hb2 & [Hg1 Hg2]%Forall_app & Hc & Hold).
  apply absorb_conserves in Ea; last first.
  { intros p q Hpq Ek Eq Hi. destruct Hb as [_ Hg]. destruct (Hg _ _ Hpq) as (Hk & _ & _ & Hq). destruct (Hq q Eq) as [Hqk Hqs].
    rewrite swaps_snoc, fmap_app, NoDup_app in Hnd. destruct Hnd as (_ & Hd & _). apply (Hd (ident q)).
    - by apply list_elem_of_fmap_2.
    - unfold opt_swap. rewrite Ek, String.eqb_refl. cbn. apply list_elem_of_singleton. unfold ident. by rewrite Hqk, Hk, Hi. }
  set (d1 := count_evicted _ _ _).
  destruct (emit_settled (acc ++ [ev]) d1 completed) as (r & d2 & -> & Hr & E1 & E2 & E3 & E4); [done|done|by apply known_snoc|done|done|].
  split.
  - by rewrite E2.
  - intros q Hq. unfold pairTokensFor. rewrite E2. by apply (known_snoc d acc ev).
  - by rewrite E1.
  - exists (kept ++ swaps_in completed), (lost ++ swaps_in evicted). rewrite E1, E3. split_and!.
    + rewrite swaps_snoc, Hp, <- !app_assoc. apply Permutation_app_head. rewrite Ea. solve_Permutation.
    + by rewrite swap_trades_app, omap_app, Ht, Hr.
    + apply Forall_app. split; [eapply Forall_impl; [done|]; intros; by apply outlived_snoc|]. by apply (evicted_outlived seen).
    + change (d_evictedOrphans d1) with (d_evictedOrphans d + count_with has_swap evicted). rewrite He, count_swaps, length_app. lia.
  - by rewrite E4.
Qed.

Lemma inv_step acc outs d ev :
  inv acc outs d -> Forall event_ok (acc ++ [ev]) -> NoDup (ident <$> swaps (acc ++ [ev])) -> announced ev -> Matches d ev = true ->
  let '(r, d') := Decode d ev (nowFn ev) in inv (acc ++ [ev]) (outs ++ emitted r) d'.
Proof.
  intros HI Hok Hnd Han HM. pose proof (last_ok _ _ Hok) as Hoke. unfold Matches in HM. unfold Decode.
  destruct (String.eqb_spec (classify ev) "") as [|_]; [done|]. destruct (String.eqb_spec (classify ev) EventPairToken) as [|_]; [done|].
  destruct (String.eqb_spec (classify ev) EventNewPair) as [En|Hn].
  { assert (classify ev <> EventSwap) as Hns by (rewrite En; done). destruct (sdkDecodeNewPair (ev_Value ev)) as [f|e] eqn:Ef.
    - eapply (inv_other _ _ _ _ _ (<[np_Pair f := mkTokens (np_Token0 f) (np_Token1 f)]> (pairTokens d))); try done.
      + intros c t. rewrite lookup_insert_Some. intros [[<- <-]|[_ Ht]]; [by rewrite (Han En f Ef)|by apply (iv_agreed _ _ _ HI)].
      + intros c Hc. apply lookup_insert_is_Some'. by right.
    - eapply inv_other; try done. apply (iv_agreed _ _ _ HI). }
  destruct (String.eqb_spec (classify ev) EventSkim) as [Es|_].
  { eapply inv_other; try done; [by rewrite Es| |apply (iv_agreed _ _ _ HI)]. unfold decode_skim. destruct (EventClosedAt ev); [|done].
    cbn [res_bind]. by destruct (sdkDecodeSkim _). }
  destruct (String.eqb (classify ev) EventDeposit || String.eqb (classify ev) EventWithdraw) eqn:El.
  { eapply inv_other; try done; [|by unfold emitLiquidity; destruct (EventClosedAt ev); [|done]; destruct (sdkDecodeLiquidity _); [|done]; cbn; destruct (pairTokensFor _ _)|apply (iv_agreed _ _ _ HI)].
    apply orb_prop in El as [E%String.eqb_eq|E%String.eqb_eq]; by rewrite E. }
  assert (is_Some (pairTokensFor d (ev_ContractID ev))) as Hkn by (by destruct (pairTokensFor d (ev_ContractID ev))).
  destruct (negb (String.eqb (classify ev) EventSwap) && negb (String.eqb (classify ev) EventSync)) eqn:Ek.
  { apply andb_prop in Ek as [Ek _]. apply negb_true_iff, String.eqb_neq in Ek. eapply inv_other; try done. apply (iv_agreed _ _ _ HI). }
  rewrite (eo_close _ Hoke). pose proof (inv_absorb acc outs d ev HI Hok Hnd Hkn) as HA. destruct (absorbEvent _ _ _ _ _) as [d1 [|p completed]]; exact HA.
Qed.

Lemma pairs_drive_inv evs acc outs d : inv acc outs d -> Forall event_ok (acc ++ evs) -> NoDup (ident <$> swaps (acc ++ evs)) -> Forall announced evs ->
  let '(acc', outs', d') := foldl feed (acc, outs, d) evs in inv acc' outs' d' /\ Forall event_ok acc'.
Proof.
  revert acc outs d. induction evs as [|ev evs IH]; intros acc outs d HI Hok Hnd Han; cbn [foldl]; [by rewrite app_nil_r in Hok|].
  apply Forall_cons in Han as [Ha Han]. unfold feed at 2. destruct (Matches d ev) eqn:EM.
  - assert (acc ++ ev :: evs = (acc ++ [ev]) ++ evs) as Eapp by (by rewrite <- app_assoc). rewrite Eapp in Hok, Hnd. pose proof (inv_step acc outs d ev HI) as HS. destruct (Decode d ev (nowFn ev)) as [r d'].
    apply IH; try done. apply HS; [by apply Forall_app in Hok as [? _]| |done|done].
    unfold swaps in Hnd. rewrite List.filter_app, fmap_app in Hnd. by apply NoDup_app in Hnd as [? _].
  - apply IH; try done.
    + apply Forall_app in Hok as [? [_ ?]%Forall_cons]. by apply Forall_app.
    + eapply sublist_NoDup; [done|]. unfold swaps. rewrite !List.filter_app, !fmap_app. apply sublist_app; [done|]. cbn [List.filter].
      case_if; [by apply sublist_cons|done].
Qed.

(** What is open at the end is emitted. *)
Lemma drain_open_trades acc l d out :
  agreed (pairTokens d) -> Forall event_ok acc -> (forall q, q ∈ swaps acc -> is_Some (pairTokensFor d (ev_ContractID q))) ->
  Forall (good_group close (fun q => q ∈ swaps acc)) l ->
  exists out' d', drain_open d l out = (Some out', d') /\ trades out' = trades out ++ omap swap_trade (swaps_in l).
Proof.
  intros Hag Hok Hkn. revert d out Hag Hkn. induction l as [|p l IH]; intros d out Hag Hkn Hg; [eexists _, _; split; [done|]; by rewrite app_nil_r|].
  apply Forall_cons in Hg as [Hp Hg]. cbn [drain_open]. change (p :: l) with ([p] ++ l). rewrite swaps_in_app, omap_app. destruct (has_swap p) eqn:Es; cbn [negb].
  - pose proof (emit_settled acc d [p] Hag Hok Hkn) as HE. destruct HE as (r & d' & E & Ht & E1 & E2 & _); [by constructor|right; by exists p|]. cbv iota in E. rewrite E, <- Ht.
    assert (agreed (pairTokens d')) as Hag' by (by rewrite E2).
    assert (forall q, q ∈ swaps acc -> is_Some (pairTokensFor d' (ev_ContractID q))) as Hkn' by (intros q Hq; unfold pairTokensFor; rewrite E2; by apply Hkn).
    destruct r as [evs|e].
    + destruct (IH d' (out ++ evs) Hag' Hkn' Hg) as (o & d2 & -> & Ho). eexists _, _. split; [done|]. by rewrite Ho, swap_trades_app, <- app_assoc.
    + by destruct (IH (count_evicted d' 1 0) out Hag' Hkn' Hg) as (o & d2 & -> & Ho); eexists _, _.
  - destruct (IH (count_evicted d 0 1) out Hag Hkn Hg) as (o & d2 & -> & Ho). eexists _, _. split; [done|]. rewrite Ho. unfold has_swap in Es. unfold swaps_in at 2. cbn. by destruct (rp_Swap p).
Qed.

(** The options a decoder is built with. *)
Definition known_option (o : DecoderOption) : Prop := o = WithPairUpsertHook \/ exists seed, agreed seed /\ o = WithSeededPairTokensDecoder seed.

Lemma pairs_fresh_inv opts : Forall known_option opts -> inv [] [] (NewDecoder opts).
Proof.
  unfold NewDecoder. set (d0 := mkDec _ _ _ _ _ _ _ _). assert (inv [] [] d0 /\ d_buf d0 = newBuffer) as HI.
  { split; [|done]. split; [done|by intros q ?%elem_of_nil|by split|by exists [], []|done]. }
  revert HI. generalize d0. clear d0. induction opts as [|o opts IH]; intros d [HI Hb] HO; cbn [foldl]; [done|].
  apply Forall_cons in HO as [Ho HO]. apply IH; [|done]. destruct HI as [Hag Hkn Hbk Hout Hu].
  destruct Ho as [->|(seed & Hs & ->)]; (split; [|done]); split; try done; try by intros q ?%elem_of_nil.
  cbn [pairTokens WithSeededPairTokensDecoder]. intros c t. rewrite lookup_union_Some_raw. intros [?|[_ ?]]; auto.
Qed.


(** *** The gate *)

(** A pair that an event of a factory makes known. *)
Definition announces (ev : Event) (c : string) : Prop :=
  classify ev = EventNewPair /\ exists f, sdkDecodeNewPair (ev_Value ev) = Ok f /\ np_Pair f = c.

Lemma emitCompleted_tokens l d out : pairTokens (emitCompleted d l out).2 = pairTokens d.
Proof.
  revert d out. induction l as [|p l IH]; intros d out; cbn [emitCompleted]; [done|]. destruct (pairTokensFor d (rp_Pair p)); [|by rewrite IH].
  destruct (decodeSwapLeg _ _ _) as [[t|e]|]; [by rewrite IH| |done]. destruct (gerr_Is e _); [by rewrite IH|done].
Qed.

Lemma Decode_tokens d ev now c :
  is_Some (pairTokensFor (Decode d ev now).2 c) <-> is_Some (pairTokensFor d c) \/ announces ev c.
Proof.
  unfold announces. destruct (decide (classify ev = EventNewPair)) as [E|E].
  - unfold Decode. rewrite E, String.eqb_refl. change (String.eqb EventNewPair "") with false. cbv iota. destruct (sdkDecodeNewPair (ev_Value ev)) as [f|e]; cbn [snd].
    + unfold pairTokensFor. cbn [pairTokens SeedPair]. rewrite lookup_insert_is_Some'. split; [intros [<-|?]; [right; split; [done|by exists f]|by left]|].
      intros [?|(_ & f' & [= <-] & ->)]; tauto.
    + split; [by left|]. by intros [?|(_ & f' & ? & _)].
  - assert (pairTokens (Decode d ev now).2 = pairTokens d) as HD.
    { unfold Decode. rewrite (proj2 (String.eqb_neq _ _) E). repeat (case_if; [done|]). destruct (EventClosedAt ev); [|done].
      unfold absorbEvent. destruct (absorb _ _ _ _ _) as [[b [|p completed]] evicted]; [done|]. by rewrite emitCompleted_tokens. }
    unfold pairTokensFor. rewrite HD. naive_solver.
Qed.

(** Only the factories make a pair known, and only events of known pairs and
    of factories are decoded: after any stream the known pairs are those the
    decoder started with and those that an accepted event of a factory
    announced. The set given to the store's prefilter names exactly them. *)
Theorem soroswap_gate d evs :
  let '(acc, _, d') := drive d evs in
  (forall c, is_Some (pairTokensFor d' c) <->
     is_Some (pairTokensFor d c) \/ exists ev, ev ∈ acc /\ IsMainnetFactory (ev_ContractID ev) = true /\ announces ev c) /\
  (forall ev, ev ∈ acc -> IsMainnetFactory (ev_ContractID ev) = true \/ is_Some (pairTokensFor d' (ev_ContractID ev))) /\
  (forall c, c ∈ GatedContractSet d' <-> IsMainnetFactory c = true \/ is_Some (pairTokensFor d' c)).
Proof.
  assert (forall d c, c ∈ GatedContractSet d <-> IsMainnetFactory c = true \/ is_Some (pairTokensFor d c)) as HG.
  { intros d0 c. unfold GatedContractSet, sort_Strings. rewrite elem_of_isort, elem_of_app, (list_elem_of_In (List.filter _ _)), filter_In, <- list_elem_of_In, elem_of_elements, elem_of_dom.
    unfold pairTokensFor. assert (c ∈ MainnetFactories <-> IsMainnetFactory c = true) as ->.
    { unfold IsMainnetFactory. rewrite existsb_exists. setoid_rewrite String.eqb_eq. setoid_rewrite <- list_elem_of_In. naive_solver. }
    destruct (IsMainnetFactory c); cbn; naive_solver. }
  induction evs as [|ev evs IH] using rev_ind.
  { cbn. split_and!; [|by intros ev ?%elem_of_nil|apply HG]. intros c. split; [by left|]. by intros [?|(ev & ?%elem_of_nil & _)]. }
  unfold drive in *. rewrite foldl_snoc. destruct (foldl feed ([], [], d) evs) as [[acc outs] d']. destruct IH as (HP & HA & _).
  unfold feed. destruct (Matches d' ev) eqn:EM; [|by split_and!]. pose proof (Decode_tokens d' ev (nowFn ev)) as HT. destruct (Decode d' ev (nowFn ev)) as [r d2].
  cbn [snd] in HT. unfold Matches in EM. split_and!; [| |apply HG].
  - intros c. rewrite HT, HP. setoid_rewrite elem_of_app. setoid_rewrite list_elem_of_singleton. split; [|naive_solver].
    intros [[?|?]|Hc]; [naive_solver|naive_solver|]. right. exists ev. split_and!; [by right| |done]. destruct Hc as [Hc _]. by rewrite Hc in EM.
  - intros e [He|He%list_elem_of_singleton]%elem_of_app; [destruct (HA e He); [by left|right; apply HT; by left]|]. subst e.
    repeat case_if_in EM; try done; [by left|]. right. apply HT. left. by destruct (pairTokensFor d' _).
Qed.
End Stream.

(** *** The direction of a swap *)

Definition positive (a : Amount) : Prop := 0 < Amount_BigInt a.

Lemma sign_positive a : (0 <? Amount_Sign a) = bool_decide (positive a).
Proof. rewrite Amount_Sign_spec. unfold positive. destruct (Z.ltb_spec 0 (Z.sgn (Amount_BigInt a))); [rewrite bool_decide_true|rewrite bool_decide_false]; [done|lia|done|lia]. Qed.

(** A swap has a price exactly when one token went in and the other came out,
    and nothing else moved: then the base is the token that went in. Any other
    swap is refused as one without a direction. *)
Theorem direction_exact a tok0 tok1 :
  (forall l, direction a tok0 tok1 = Ok l <->
     (positive (Amount0In a) /\ positive (Amount1Out a) /\ ~ positive (Amount1In a) /\ ~ positive (Amount0Out a) /\ l = (tok0, Amount0In a, tok1, Amount1Out a))
     \/ (positive (Amount1In a) /\ positive (Amount0Out a) /\ ~ positive (Amount0In a) /\ ~ positive (Amount1Out a) /\ l = (tok1, Amount1In a, tok0, Amount0Out a)))
  /\ (forall e, direction a tok0 tok1 = Err e -> gerr_Is e ErrNonDirectionalSwap = true).
Proof.
  unfold direction. rewrite !sign_positive. split.
  - intros l. do 4 case_bool_decide; cbn [andb negb]; naive_solver.
  - intros e. do 4 case_bool_decide; cbn; intros [= <-]; done.
Qed.

(** *** An example *)

Definition raw_ex (c : ascii) : string := foldr (fun _ s => String c s) EmptyString (seq 0 55).
Definition pair_ex : string := String "C" (raw_ex "P").
Definition token_ex (c : ascii) : ScVal := ScvAddress (AddrContract (raw_ex c)).
Definition asset_ex (c : ascii) : Asset := mkAsset AssetSoroban "" "" (String "C" (raw_ex c)).

Definition amounts_ex (a b c d : Z) : ScVal :=
  ScvMap (Some [(ScvSymbol "amount_0_in", ScvI128 0 a); (ScvSymbol "amount_1_in", ScvI128 0 b);
                (ScvSymbol "amount_0_out", ScvI128 0 c); (ScvSymbol "amount_1_out", ScvI128 0 d); (ScvSymbol "to", token_ex "S")]).

(** A codec for the values of the example. *)
#[local] Instance letter_xdr : Xdr := {|
  xdr_MarshalBinary v := match v with ScvString s => Some (String "s" s) | ScvSymbol s => Some (String "y" s) | _ => None end;
  xdr_SafeUnmarshal b :=
    match b with
    | String "p" _ => Some (ScvMap (Some [(ScvSymbol "token_0", token_ex "T"); (ScvSymbol "token_1", token_ex "U"); (ScvSymbol "pair", token_ex "P")]))
    | String "a" _ => Some (amounts_ex 100 0 0 50)
    | String "b" _ => Some (amounts_ex 0 30 61 0)
    | _ => None
    end;
  xdr_AddressString _ := None
|}.
#[local] Instance letter_strkey : Strkey := plain_strkey.

Definition event_ex (contract prefix name : string) (ledger op index : Z) (closedAt value : string) : Event :=
  mkEvent ledger "aa" op index (mkCE closedAt contract [MustEncodeString prefix; MustEncodeSymbol name] (base64_EncodeToString value)).

(** The factory announces a pair. Two swaps of one operation follow, and one
    sync for the second of them; a swap of the next operation has no sync,
    and ten minutes pass. *)
Definition stream_ex : list Event :=
  let noon := "2026-05-12T12:00:00Z" in
  [event_ex MainnetFactory PrefixFactory EventNewPair 9 0 0 noon "p"; event_ex pair_ex PrefixPair EventSwap 10 1 0 noon "a";
   event_ex pair_ex PrefixPair EventSwap 10 1 1 noon "b"; event_ex pair_ex PrefixPair EventSync 10 1 2 noon "";
   event_ex pair_ex PrefixPair EventSwap 10 2 0 noon "a"; event_ex pair_ex PrefixPair EventSync 110 0 0 "2026-05-12T12:10:00Z" ""].

Definition close_ex (l : Z) : Time := unix_time (if l <? 100 then 1778587200 else 1778587800).
Definition tokens_ex (_ : string) : PairTokens := mkTokens (asset_ex "T") (asset_ex "U").

