(* ===== verification/PriceGuard.v ===== *)
(** * Serving guards: outlier band and thin-market floor (internal/pricingguard:
    guard.go, substance.go; the substance read of internal/storage/timescale/
    aggregates.go; the [pricing_guard] check of internal/config/config.go)

    The raw one-minute buckets bypass the aggregator's own filters, so every
    path that serves them asks here first. The band guard judges a bucket
    against the buckets before it; the substance gate refuses a pair whose
    trailing market is too small to mean anything.

    [big.Rat.SetString] and the text of a Postgres NUMERIC are the interface
    [RatText]: the theorems hold for every such pair of functions. What a call
    reads of the store is an argument. Metrics and log lines are left out; the
    map of logged verdicts is kept, since it bounds memory too. *)

From S2P Require Import Prelude GoLib Float64 Amount Asset Alias RobustStat.
From Stdlib Require Import Floats.SpecFloat.

Class RatText := {
  Rat_SetString : string -> option Q;
  numeric_text : Q -> string
}.

(** ** The band guard (guard.go) *)

Definition SampleFetch : nat := 40.
Definition BaselineMaxAge : Duration := 24 * Hour.

Record Vwap1mRow := mkVwap {
  vr_Bucket : Time; vr_BaseAsset : string; vr_QuoteAsset : string;
  vr_VWAP : string; vr_TradeCount : Z; vr_Sources : list string
}.

Definition zero_row : Vwap1mRow := mkVwap zero_time "" "" "" 0 [].

Section Guard.
Context `{RatText}.

(** The buckets a candidate is judged against. *)
Definition in_baseline (candidate row : Vwap1mRow) : bool :=
  negb (negb (time_Before (vr_Bucket row) (vr_Bucket candidate))
        || (BaselineMaxAge <? time_Sub (vr_Bucket candidate) (vr_Bucket row))).

Definition trailing_rows (candidate : Vwap1mRow) (rows : list Vwap1mRow) : list Vwap1mRow :=
  List.filter (in_baseline candidate) rows.

Definition row_value (row : Vwap1mRow) : option Q := Rat_SetString (vr_VWAP row).

(** The row to serve, whether the candidate was rejected, whether it was
    accepted against nothing. The index is always in range
    ([select_rejects]). *)
Definition selectGuardedVWAP1m (candidate : Vwap1mRow) (rows : list Vwap1mRow) : Vwap1mRow * bool * bool :=
  match row_value candidate with
  | None => (candidate, false, false)
  | Some c =>
      let trailingRows := trailing_rows candidate rows in
      let trailing := map row_value trailingRows in
      let '(accept, lkgIdx) := GuardServedVWAP (Some c) trailing in
      if accept then (candidate, false, negb (ServedBaselineValidated trailing))
      else (default zero_row (trailingRows !! Z.to_nat lkgIdx), true, false)
  end.

Definition SelectGuardedVWAP1m (candidate : Vwap1mRow) (rows : list Vwap1mRow) : Vwap1mRow * bool :=
  let '(served, rejected, _) := selectGuardedVWAP1m candidate rows in (served, rejected).

Definition selectGuardedVWAP1mAt (candidate : Vwap1mRow) (rows : list Vwap1mRow) (ts : Time) (maxStaleness : Duration)
  : Vwap1mRow * bool * bool * bool :=
  let '(served, rejected, lowConfidence) := selectGuardedVWAP1m candidate rows in
  if lowConfidence then (zero_row, false, false, true)
  else if negb rejected then (served, true, false, false)
  else if maxStaleness <? time_Sub ts (time_Add (vr_Bucket served) Minute) then (zero_row, false, true, false)
  else (served, true, true, false).

Definition SelectGuardedVWAP1mAt (candidate : Vwap1mRow) (rows : list Vwap1mRow) (ts : Time) (maxStaleness : Duration) : Vwap1mRow * bool :=
  let '(served, ok, _, _) := selectGuardedVWAP1mAt candidate rows ts maxStaleness in (served, ok).

(** [fetch] is what the store answers, [None] for an error. *)
Definition GuardServedVWAP1mConfidence (fetch : option (list Vwap1mRow)) (candidate : Vwap1mRow) : Vwap1mRow * bool * bool :=
  match fetch with
  | None => (candidate, false, false)
  | Some rows =>
      let '(served, rejected, lowConfidence) := selectGuardedVWAP1m candidate rows in (served, lowConfidence, rejected)
  end.

Definition GuardServedVWAP1mAt (fetch : option (list Vwap1mRow)) (candidate : Vwap1mRow) (ts : Time) (maxStaleness : Duration)
  : Vwap1mRow * bool :=
  match fetch with
  | None => (candidate, true)
  | Some rows => SelectGuardedVWAP1mAt candidate rows ts maxStaleness
  end.

(** One bucket of a series, judged against those that follow it. *)
Definition series_row (rows : list Vwap1mRow) (i : nat) : option Vwap1mRow :=
  row ← rows !! i;
  let trailing := take SampleFetch (drop (S i) rows) in
  let '(_, rejected, lowConfidence) := selectGuardedVWAP1m row trailing in
  if rejected || lowConfidence then None else Some row.

(** [None] is the panic of [make] with a negative capacity. *)
Definition GuardServedVWAP1mSeries (rows : list Vwap1mRow) (n : Z) : option (list Vwap1mRow) :=
  let n := if Z.of_nat (length rows) <? n then Z.of_nat (length rows) else n in
  if n <? 0 then None else Some (omap (series_row rows) (seq 0 (Z.to_nat n))).

End Guard.

(** ** The floor of the substance gate (substance.go) *)

Record SubstancePolicy := mkSubPol { sp_MinVolumeUSD : option Q; sp_MinBuckets : Z; sp_MinSpan : Duration; sp_Window : Duration }.

(** A policy with its defaults applied: the volume is never nil. *)
Record floors := mkFloors { MinVolumeUSD : Q; MinBuckets : Z; MinSpan : Duration; SubWindow : Duration }.

Definition DefaultSubstanceMinVolumeUSD : Q := 1000 # 1.
Definition DefaultSubstanceMinBuckets : Z := 20.
Definition DefaultSubstanceMinSpan : Duration := 6 * Hour.
Definition DefaultSubstanceWindow : Duration := 24 * Hour.

Definition withDefaults (p : SubstancePolicy) : floors :=
  mkFloors (default DefaultSubstanceMinVolumeUSD (sp_MinVolumeUSD p))
    (if sp_MinBuckets p =? 0 then DefaultSubstanceMinBuckets else sp_MinBuckets p)
    (if sp_MinSpan p =? 0 then DefaultSubstanceMinSpan else sp_MinSpan p)
    (if sp_Window p =? 0 then DefaultSubstanceWindow else sp_Window p).

Definition durationOrZero (n : Z) (unit : Duration) : Duration :=
  if (Z.quot MaxInt64 unit <? n) || (n <? Z.quot MinInt64 unit) then 0 else wraps 64 (n * unit).

Definition SubstancePolicyFromValues (minVolumeUSD : float64) (minBuckets minSpanMinutes windowHours : Z) : SubstancePolicy :=
  mkSubPol (if f64_lt f64_zero minVolumeUSD then SetFloat64 minVolumeUSD else None)
    minBuckets (durationOrZero minSpanMinutes Minute) (durationOrZero windowHours Hour).

Inductive SubstanceFloor := FloorNone | FloorBuckets | FloorSpan | FloorVolume | FloorVolumeUnvalued.

#[export] Instance SubstanceFloor_eq_dec : EqDecision SubstanceFloor.
Proof. solve_decision. Defined.

Definition floorRank (f : SubstanceFloor) : Z :=
  match f with FloorNone => 0 | FloorBuckets => 1 | FloorSpan => 2 | FloorVolume => 3 | FloorVolumeUnvalued => 4 end.

Definition furthestFloor (a b : SubstanceFloor) : SubstanceFloor := if floorRank a <? floorRank b then b else a.

Definition FailedFloor (volumeUSD : option Q) (buckets valuedBuckets spanSeconds : Z) (policy : floors) : SubstanceFloor :=
  let volume := default 0%Q volumeUSD in
  if buckets <? MinBuckets policy then FloorBuckets
  else if wraps 64 (wraps 64 spanSeconds * Second) <? MinSpan policy then FloorSpan
  else if Qlt_bool volume (MinVolumeUSD policy) then
    if wraps 64 (2 * valuedBuckets) <? buckets then FloorVolumeUnvalued else FloorVolume
  else FloorNone.

Definition SubstanceOK (volumeUSD : option Q) (buckets spanSeconds : Z) (policy : floors) : bool :=
  bool_decide (FailedFloor volumeUSD buckets buckets spanSeconds policy = FloorNone).

(** [Duration.Truncate]. *)
Definition dur_Truncate (d m : Duration) : Duration := if m <=? 0 then d else d - Z.rem d m.

Definition minutesPerHour : Z := Hour / Minute.

Definition hourGrainPolicy (p : floors) : floors :=
  let buckets := Z.quot (wraps 64 (wraps 64 (MinBuckets p + minutesPerHour) - 1)) minutesPerHour in
  let span := dur_Truncate (MinSpan p) Hour in
  let buckets := if (Hour <=? span) && (buckets <? 2) then 2 else buckets in
  mkFloors (MinVolumeUSD p) buckets span (SubWindow p).

(** ** What the store measures (timescale/aggregates.go) *)

Inductive HistoryGranularity :=
| Granularity1m | Granularity15m | Granularity1h | Granularity4h | Granularity1d | Granularity1w | Granularity1mo.

#[export] Instance HistoryGranularity_eq_dec : EqDecision HistoryGranularity.
Proof. solve_decision. Defined.

Definition granularity_text (g : HistoryGranularity) : string :=
  match g with
  | Granularity1m => "1m" | Granularity15m => "15m" | Granularity1h => "1h" | Granularity4h => "4h"
  | Granularity1d => "1d" | Granularity1w => "1w" | Granularity1mo => "1mo"
  end.

Definition BucketDuration (g : HistoryGranularity) : Duration :=
  match g with
  | Granularity1m => Minute | Granularity15m => 15 * Minute | Granularity1h => Hour | Granularity4h => 4 * Hour
  | Granularity1d => 24 * Hour | Granularity1w => 7 * 24 * Hour | Granularity1mo => 30 * 24 * Hour
  end.

Definition PriceAtMinuteRungMaxAge : Duration := 48 * Hour.

Record MarketSubstance := mkSub { ms_VolumeUSD : string; ms_Buckets : Z; ms_SpanSeconds : Z; ms_ValuedBuckets : Z }.

(** A row of a price aggregate; a NULL volume is [None]. *)
Record price_row := mkRow { pr_bucket : Time; pr_base : string; pr_quote : string; pr_volume_usd : option Q }.

(** The two arms of the query: the second leaves out what the first selects. *)
Definition first_arm (baseKeys quoteKeys : list string) (r : price_row) : bool :=
  bool_decide (pr_base r ∈ baseKeys) && bool_decide (pr_quote r ∈ quoteKeys).
Definition selects (baseKeys quoteKeys : list string) (r : price_row) : bool :=
  first_arm baseKeys quoteKeys r
  || (first_arm quoteKeys baseKeys r && negb (first_arm baseKeys quoteKeys r)).

(** A timestamp printed to the second. *)
Definition to_second (t : Time) : Time := time_Unix t * Second.

(** The bounds on [bucket], with the clocks of the process and of the
    database. *)
Definition live_bounds (now dbNow : Time) (window : Duration) (bucket : Time) : bool :=
  (bucket <=? dbNow - Minute) && (to_second (now - window) <=? bucket).
Definition at_bounds (asOf dbNow : Time) (window : Duration) (g : HistoryGranularity) (bucket : Time) : bool :=
  (bucket <=? dbNow - BucketDuration g) && (bucket <=? to_second (asOf - BucketDuration g)) && (to_second (asOf - window) <=? bucket).

(** [sum] of SQL: NULL for no value. *)
Definition sql_sum (l : list (option Q)) : option Q :=
  match omap id l with [] => None | x :: r => Some (foldl Qplus x r) end.

Definition extent (l : list Z) : Z :=
  match l with [] => 0 | x :: r => foldr Z.max x r - foldr Z.min x r end.

Definition bucket_usd (rows : list price_row) (bucket : Time) : option Q :=
  sql_sum (map pr_volume_usd (List.filter (fun r => pr_bucket r =? bucket) rows)).

Definition summarise `{RatText} (rows : list price_row) : MarketSubstance :=
  let buckets := remove_dups (map pr_bucket rows) in
  let sums := map (bucket_usd rows) buckets in
  mkSub (numeric_text (default 0%Q (sql_sum sums)))
    (Z.of_nat (length buckets)) (extent buckets / Second)
    (Z.of_nat (length (List.filter (fun o => match o with Some q => Qlt_bool 0 q | None => false end) sums))).

(** [rows] is the table; [None] an error. *)
Definition PairMarketSubstance `{RatText} (rows : list price_row) (now dbNow : Time) (bases quotes : list Asset) (window : Duration)
  : option MarketSubstance :=
  if window <=? 0 then None
  else match bases, quotes with
       | _ :: _, _ :: _ =>
           let b := map Asset_String bases in let q := map Asset_String quotes in
           Some (summarise (List.filter (fun r => selects b q r && live_bounds now dbNow window (pr_bucket r)) rows))
       | _, _ => None
       end.

Definition PairMarketSubstanceAt `{RatText} (rows : list price_row) (dbNow : Time) (bases quotes : list Asset) (asOf : Time) (window : Duration)
    (g : HistoryGranularity) : option MarketSubstance :=
  if window <=? 0 then None
  else if negb (bool_decide (g = Granularity1m) || bool_decide (g = Granularity1h)) then None
  else match bases, quotes with
       | _ :: _, _ :: _ =>
           let b := map Asset_String bases in let q := map Asset_String quotes in
           Some (summarise (List.filter (fun r => selects b q r && at_bounds asOf dbNow window g (pr_bucket r)) rows))
       | _, _ => None
       end.

(** ** The gate (substance.go) *)

Definition substanceCacheTTL : Duration := 60 * Second.
Definition substanceCacheMax : Z := 8192.
Definition substanceLoggedMax : Z := 2 ^ 16.

Record SubstanceEvidence := mkEv {
  se_Base : Asset; se_Quote : Asset; se_Window : Duration; se_MeasuredAt : Time; se_WindowEnd : Time;
  se_VolumeUSD : string; se_Buckets : Z; se_ValuedBuckets : Z; se_SpanSeconds : Z; se_Policy : floors; se_Floor : SubstanceFloor
}.

Record SubstanceVerdict := mkVerdict { Allowed : bool; Measured : bool; Floor : SubstanceFloor; Evidence : option SubstanceEvidence }.

Record substanceVerdict := mkEntry { sv_allowed : bool; sv_floor : SubstanceFloor; sv_evidence : SubstanceEvidence; sv_expires : Time }.

Definition verdict (e : substanceVerdict) : SubstanceVerdict := mkVerdict (sv_allowed e) true (sv_floor e) (Some (sv_evidence e)).

Definition no_verdict : SubstanceVerdict := mkVerdict false false FloorNone None.
Definition pass_verdict : SubstanceVerdict := mkVerdict true true FloorNone None.

Record SubstanceGate := mkGate {
  sg_policy : floors;
  sg_cache : gmap string substanceVerdict;
  sg_atCache : gmap string substanceVerdict;
  sg_logged : gmap string bool
}.

Definition NewSubstanceGate (p : SubstancePolicy) : SubstanceGate := mkGate (withDefaults p) ∅ ∅ ∅.

Definition gate_Policy (g : option SubstanceGate) : floors :=
  match g with Some g => sg_policy g | None => withDefaults (mkSubPol None 0 0 0) end.

Definition onChain (a : Asset) : bool :=
  match Type_ a with AssetNative | AssetClassic | AssetSoroban => true | _ => false end.
Definition SubstanceGated (base quote : Asset) : bool := onChain base || onChain quote.

Definition key_sep : string := String "000"%char EmptyString.

Definition pairCacheKey (base quote : Asset) : string :=
  let b := Asset_String base in
  let q := Asset_String quote in
  if str_ltb q b then q +:+ key_sep +:+ b else b +:+ key_sep +:+ q.

Definition sweepOrReset (m : gmap string substanceVerdict) (now : Time) : gmap string substanceVerdict :=
  if Z.of_nat (size m) <? substanceCacheMax then m
  else
    let m := filter (fun kv => time_Before now (sv_expires kv.2) = true) m in
    if substanceCacheMax <=? Z.of_nat (size m) then ∅ else m.

Definition fresh_entry (m : gmap string substanceVerdict) (key : string) (now : Time) : option substanceVerdict :=
  prior ← m !! key; if time_Before now (sv_expires prior) then Some prior else None.

Definition with_expiry (e : substanceVerdict) (t : Time) : substanceVerdict := mkEntry (sv_allowed e) (sv_floor e) (sv_evidence e) t.

(** The two sections of [Measure] that write under the lock. *)
Definition put_live (g : SubstanceGate) (now : Time) (key : string) (entry : substanceVerdict) : SubstanceGate :=
  let logged := if substanceLoggedMax <=? Z.of_nat (size (sg_logged g)) then ∅ else sg_logged g in
  mkGate (sg_policy g) (<[key := entry]> (sweepOrReset (sg_cache g) now)) (sg_atCache g) (<[key := sv_allowed entry]> logged).

Definition put_at (g : SubstanceGate) (now : Time) (key : string) (entry : substanceVerdict) : SubstanceGate :=
  mkGate (sg_policy g) (sg_cache g) (<[key := entry]> (sweepOrReset (sg_atCache g) now)) (sg_logged g).

Definition policyAt (g : SubstanceGate) (age : Duration) : HistoryGranularity * floors :=
  if age <=? PriceAtMinuteRungMaxAge then (Granularity1m, sg_policy g) else (Granularity1h, hourGrainPolicy (sg_policy g)).

(** The instant and the grain a point-in-time question is answered at. *)
Definition at_question (g : SubstanceGate) (now at_ : Time) : HistoryGranularity * floors * Time :=
  let asOf := if time_After at_ now then now else at_ in
  let '(grain, policy) := policyAt g (time_Sub now asOf) in
  (grain, policy, time_Truncate asOf (BucketDuration grain)).

Definition at_key (base quote : Asset) (grain : HistoryGranularity) (asOf : Time) : string :=
  pairCacheKey base quote +:+ key_sep +:+ granularity_text grain +:+ key_sep +:+ big_String (time_Unix asOf).

Section Gate.
Context `{RatText} (gl : globals).

(** [read] is the store at the moment of the call; [None] is an error. *)
Definition measureUnion (base quote : Asset) (policy : floors) (measuredAt windowEnd : Time)
    (read : list Asset -> list Asset -> option MarketSubstance) : option substanceVerdict :=
  sub ← read (AssetAliases gl base) (AssetAliases gl quote);
  let vol := default 0%Q (Rat_SetString (ms_VolumeUSD sub)) in
  let floor := FailedFloor (Some vol) (ms_Buckets sub) (ms_ValuedBuckets sub) (ms_SpanSeconds sub) policy in
  Some (mkEntry (bool_decide (floor = FloorNone)) floor
    (mkEv base quote (SubWindow policy) measuredAt windowEnd (ms_VolumeUSD sub) (ms_Buckets sub) (ms_ValuedBuckets sub)
       (ms_SpanSeconds sub) policy floor)
    zero_time).

Definition measure_live (p : floors) (now : Time) (read : list Asset -> list Asset -> Duration -> option MarketSubstance) (base quote : Asset)
  : option substanceVerdict :=
  entry ← measureUnion base quote p now now (fun b q => read b q (SubWindow p));
  Some (with_expiry entry (time_Add now substanceCacheTTL)).

Definition Measure (g : option SubstanceGate) (now : Time) (read : list Asset -> list Asset -> Duration -> option MarketSubstance)
    (base quote : Asset) : SubstanceVerdict * option SubstanceGate :=
  match g with
  | None => (pass_verdict, None)
  | Some s =>
      if negb (SubstanceGated base quote) then (pass_verdict, g)
      else
        let key := pairCacheKey base quote in
        match fresh_entry (sg_cache s) key now with
        | Some prior => (verdict prior, g)
        | None =>
            match measure_live (sg_policy s) now read base quote with
            | None => (no_verdict, g)
            | Some entry => (verdict entry, Some (put_live s now key entry))
            end
        end
  end.

Definition measure_at (now : Time) (q : HistoryGranularity * floors * Time)
    (readAt : list Asset -> list Asset -> Time -> Duration -> HistoryGranularity -> option MarketSubstance) (base quote : Asset)
  : option substanceVerdict :=
  let '(grain, policy, asOf) := q in
  entry ← measureUnion base quote policy now asOf (fun b q => readAt b q asOf (SubWindow policy) grain);
  Some (with_expiry entry (time_Add now substanceCacheTTL)).

Definition MeasureAt (g : option SubstanceGate) (now : Time)
    (readAt : list Asset -> list Asset -> Time -> Duration -> HistoryGranularity -> option MarketSubstance)
    (base quote : Asset) (at_ : Time) : SubstanceVerdict * option SubstanceGate :=
  match g with
  | None => (pass_verdict, None)
  | Some s =>
      if negb (SubstanceGated base quote) then (pass_verdict, g)
      else
        let q := at_question s now at_ in
        let key := at_key base quote q.1.1 q.2 in
        match fresh_entry (sg_atCache s) key now with
        | Some prior => (verdict prior, g)
        | None =>
            match measure_at now q readAt base quote with
            | None => (no_verdict, g)
            | Some entry => (verdict entry, Some (put_at s now key entry))
            end
        end
  end.

Definition Probe (g : option SubstanceGate) (now : Time) (read : list Asset -> list Asset -> Duration -> option MarketSubstance)
    (base quote : Asset) : bool * bool * SubstanceFloor * option SubstanceGate :=
  let '(v, g) := Measure g now read base quote in (Allowed v, Measured v, Floor v, g).

Definition Verdict_ (g : option SubstanceGate) (now : Time) (read : list Asset -> list Asset -> Duration -> option MarketSubstance)
    (base quote : Asset) : bool * bool * option SubstanceGate :=
  let '(allowed, measured, _, g) := Probe g now read base quote in (allowed, measured, g).

Definition gate_Allowed (g : option SubstanceGate) (now : Time) (read : list Asset -> list Asset -> Duration -> option MarketSubstance)
    (base quote : Asset) : bool * option SubstanceGate :=
  let '(allowed, measured, g) := Verdict_ g now read base quote in (allowed || negb measured, g).

Definition AllowedAt (g : option SubstanceGate) (now : Time)
    (readAt : list Asset -> list Asset -> Time -> Duration -> HistoryGranularity -> option MarketSubstance)
    (base quote : Asset) (at_ : Time) : bool * option SubstanceGate :=
  let '(v, g) := MeasureAt g now readAt base quote at_ in (Allowed v || negb (Measured v), g).

(** The fold over the backing quotes of an asset. *)
Fixpoint probe_quotes (g : option SubstanceGate) (now : Time) (read : list Asset -> list Asset -> Duration -> option MarketSubstance)
    (asset : Asset) (quotes : list Asset) (measured : bool) (floor : SubstanceFloor) : bool * bool * SubstanceFloor * option SubstanceGate :=
  match quotes with
  | [] => (false, measured, floor, g)
  | quote :: quotes =>
      if Asset_Equal asset quote then probe_quotes g now read asset quotes measured floor
      else
        let '(ok, m, f, g) := Probe g now read asset quote in
        if ok && m then (true, true, FloorNone, g)
        else probe_quotes g now read asset quotes (measured && m) (furthestFloor floor f)
  end.

Definition fiatUSD : Asset := mkAsset AssetFiat "USD" "" "".

Definition assetSubstance (g : option SubstanceGate) (now : Time) (read : list Asset -> list Asset -> Duration -> option MarketSubstance)
    (asset : Asset) (usdPegs : list Asset) : bool * bool * SubstanceFloor * option SubstanceGate :=
  match g with
  | None => (true, true, FloorNone, g)
  | Some _ =>
      match Type_ asset with
      | AssetClassic | AssetSoroban => probe_quotes g now read asset (NativeAsset :: fiatUSD :: usdPegs) true FloorNone
      | _ => (true, true, FloorNone, g)
      end
  end.

Definition AssetSubstanceVerdict (g : option SubstanceGate) (now : Time) (read : list Asset -> list Asset -> Duration -> option MarketSubstance)
    (asset : Asset) (usdPegs : list Asset) : bool * bool * option SubstanceGate :=
  let '(allowed, measured, _, g) := assetSubstance g now read asset usdPegs in (allowed, measured, g).

Definition AssetSubstanceVerdictThinServed (g : option SubstanceGate) (now : Time)
    (read : list Asset -> list Asset -> Duration -> option MarketSubstance) (asset : Asset) (usdPegs : list Asset)
  : bool * bool * SubstanceFloor * option SubstanceGate := assetSubstance g now read asset usdPegs.

End Gate.

(** ** The configuration (config.go) *)

Record PricingGuardConfig := mkPG {
  DisableSubstanceGate : bool; SubstanceMinVolumeUSD : float64; SubstanceMinBuckets : Z; SubstanceMinSpanMinutes : Z;
  SubstanceWindowHours : Z; FXCrossMaxAgeHours : Z; DisableFiatBasis : bool; FiatPeggedClassicAssets : gmap string string
}.

Definition maxSubstanceWindowHours : Z := 400 * 24.

Definition cmp_Or (a b : Z) : Z := if a =? 0 then b else a.

Definition defaultPricingGuardConfig : PricingGuardConfig :=
  mkPG false (S754_finite false 8796093022208000 (-43)) 20 360 24 76 false ∅.

Definition validateSubstanceSatisfiable (pg : PricingGuardConfig) : bool :=
  let def := defaultPricingGuardConfig in
  let windowHours := cmp_Or (SubstanceWindowHours pg) (SubstanceWindowHours def) in
  let spanMinutes := cmp_Or (SubstanceMinSpanMinutes pg) (SubstanceMinSpanMinutes def) in
  let buckets := cmp_Or (SubstanceMinBuckets pg) (SubstanceMinBuckets def) in
  if maxSubstanceWindowHours <? windowHours then false
  else
    let windowMinutes := wraps 64 (windowHours * 60) in
    if wraps 64 (windowMinutes - 2) <? spanMinutes then false
    else if wraps 64 (windowMinutes - 1) <? buckets then false
    else true.

Definition valid_peg `{Strkey} (entry : string * string) : bool :=
  match ParseAsset entry.1 with
  | Err _ => false
  | Ok asset =>
      if negb (bool_decide (Type_ asset = AssetClassic)) then false
      else match NewFiatAsset entry.2 with Ok _ => true | Err _ => false end
  end.

(** Whether the configuration is accepted; the pegs are checked in any order. *)
Definition pg_validate `{Strkey} (pg : PricingGuardConfig) : bool :=
  if f64_lt (SubstanceMinVolumeUSD pg) f64_zero then false
  else if SubstanceMinBuckets pg <? 0 then false
  else if SubstanceMinSpanMinutes pg <? 0 then false
  else if SubstanceWindowHours pg <? 0 then false
  else if negb (validateSubstanceSatisfiable pg) then false
  else if FXCrossMaxAgeHours pg <? 0 then false
  else forallb valid_peg (map_to_list (FiatPeggedClassicAssets pg)).

Definition buildSubstanceGate (cfg : PricingGuardConfig) : option SubstanceGate :=
  if DisableSubstanceGate cfg then None
  else Some (NewSubstanceGate (SubstancePolicyFromValues (SubstanceMinVolumeUSD cfg) (SubstanceMinBuckets cfg)
               (SubstanceMinSpanMinutes cfg) (SubstanceWindowHours cfg))).

(** ** The band guard: proofs *)

Section GuardProofs.
Context `{RatText}.

Definition baseline (candidate : Vwap1mRow) (rows : list Vwap1mRow) : list (option Q) := map row_value (trailing_rows candidate rows).

Lemma in_baseline_spec c r :
  in_baseline c r = true <-> vr_Bucket r < vr_Bucket c /\ time_Sub (vr_Bucket c) (vr_Bucket r) <= BaselineMaxAge.
Proof. unfold in_baseline, time_Before. rewrite negb_orb, negb_involutive, andb_true_iff, negb_true_iff, Z.ltb_lt, Z.ltb_ge. done. Qed.

Lemma elem_of_trailing c r rows :
  r ∈ trailing_rows c rows <-> r ∈ rows /\ vr_Bucket r < vr_Bucket c /\ time_Sub (vr_Bucket c) (vr_Bucket r) <= BaselineMaxAge.
Proof. unfold trailing_rows. rewrite !list_elem_of_In, filter_In, in_baseline_spec. done. Qed.

(** The newest bucket of the baseline that lies in the band. *)
Definition newest_clean (c : Vwap1mRow) (rows : list Vwap1mRow) (lo hi : Q) (served : Vwap1mRow) : Prop :=
  exists i q, trailing_rows c rows !! i = Some served /\ row_value served = Some q /\ (lo <= q <= hi)%Q
    /\ forall j r w, (j < i)%nat -> trailing_rows c rows !! j = Some r -> row_value r = Some w -> ~ (lo <= w <= hi)%Q.

Lemma select_spec c rows q :
  row_value c = Some q ->
  match robustBand (baseline c rows) with
  | None => selectGuardedVWAP1m c rows = (c, false, true)
  | Some (lo, hi) =>
      ((lo <= q <= hi)%Q /\ selectGuardedVWAP1m c rows = (c, false, false))
      \/ (~ (lo <= q <= hi)%Q /\ exists served, selectGuardedVWAP1m c rows = (served, true, false) /\ newest_clean c rows lo hi served)
  end.
Proof.
  intros Hq. unfold selectGuardedVWAP1m. rewrite Hq. fold (baseline c rows).
  destruct (robustBand (baseline c rows)) as [[lo hi]|] eqn:EB.
  - pose proof (GuardServedVWAP_sound _ _ _ q EB) as [_ HG]. unfold ServedBaselineValidated. rewrite EB.
    destruct (GuardServedVWAP (Some q) (baseline c rows)) as [[] i] eqn:EG; [left; by destruct HG|right].
    destruct HG as (HN & n & v & -> & Hn & Hv & HF). split; [done|].
    unfold baseline in Hn. apply list_lookup_fmap_Some in Hn as (r & Er & Hr).
    exists r. rewrite Nat2Z.id, Hr. split; [done|]. exists n, v. do 3 (split; [done|]).
    intros j s w Hj Hs Ew. apply (HF j w Hj). unfold baseline. rewrite list_lookup_fmap, Hs. cbn. by rewrite Ew.
  - unfold GuardServedVWAP, ServedBaselineValidated. by rewrite EB.
Qed.
End GuardProofs.


(** A parser for decimal text without sign or exponent, for the examples. *)
Definition decimal_text : RatText := {|
  Rat_SetString s := match Cut s "."%char with
                     | Some (a, b) => match big_SetString10 a, big_SetString10 b with
                                      | Some x, Some y => let n := String.length b in Some (Qmake (x * 10 ^ Z.of_nat n + y) (Pos.pow 10 (Pos.of_nat n)))
                                      | _, _ => None
                                      end
                     | None => match big_SetString10 s with Some x => Some (Qmake x 1) | None => None end
                     end;
  numeric_text q := big_String (Qnum q / Zpos (Qden q))
|}.

Definition row_ex (minute : Z) (v : string) : Vwap1mRow := mkVwap (minute * Minute) "native" "fiat:USD" v 1 [].
Definition rows_ex : list Vwap1mRow := [row_ex 99 "50"; row_ex 98 "0.11"; row_ex 97 "0.10"; row_ex 96 "0.12"; row_ex 95 "0.11"; row_ex 94 "0.10"].


(** ** Minutes and hours *)

Lemma extent_max_min x r : let l := x :: r in
  (foldr Z.max x r ∈ l /\ forall y, y ∈ l -> y <= foldr Z.max x r) /\ (foldr Z.min x r ∈ l /\ forall y, y ∈ l -> foldr Z.min x r <= y).
Proof.
  cbn. induction r as [|z r [[IM IMax] [Im IMin]]]; cbn.
  - split; (split; [set_solver|]); intros y Hy%list_elem_of_singleton; lia.
  - split; (split; [first [destruct (Z.max_spec z (foldr Z.max x r)) as [[_ ->]|[_ ->]]
                         | destruct (Z.min_spec z (foldr Z.min x r)) as [[_ ->]|[_ ->]]]; set_solver|]).
    + intros y [->|[->|Hy]%elem_of_cons]%elem_of_cons; [|lia|]; [pose proof (IMax x ltac:(set_solver))|pose proof (IMax y ltac:(set_solver))]; lia.
    + intros y [->|[->|Hy]%elem_of_cons]%elem_of_cons; [|lia|]; [pose proof (IMin x ltac:(set_solver))|pose proof (IMin y ltac:(set_solver))]; lia.
Qed.

Lemma extent_eq l lo hi : lo ∈ l -> hi ∈ l -> (forall x, x ∈ l -> lo <= x <= hi) -> extent l = hi - lo.
Proof.
  intros Hlo Hhi HB. destruct l as [|x r]; [by apply elem_of_nil in Hlo|].
  destruct (extent_max_min x r) as [[IM IMax] [Im IMin]]. cbn [extent].
  pose proof (HB _ IM). pose proof (HB _ Im). pose proof (IMax _ Hhi). pose proof (IMin _ Hlo). lia.
Qed.

Lemma extent_bounds l : l <> [] -> exists lo hi, lo ∈ l /\ hi ∈ l /\ forall x, x ∈ l -> lo <= x <= hi.
Proof.
  destruct l as [|x r]; [done|intros _]. destruct (extent_max_min x r) as [[IM IMax] [Im IMin]].
  exists (foldr Z.min x r), (foldr Z.max x r). split_and!; auto.
Qed.

Lemma set_extent (X : gset Z) lo hi : lo ∈ X -> hi ∈ X -> (forall x, x ∈ X -> lo <= x <= hi) -> extent (elements X) = hi - lo.
Proof. intros. apply extent_eq; [by apply elem_of_elements..|]. intros x Hx%elem_of_elements. auto. Qed.

Lemma set_bounds (X : gset Z) : X <> ∅ -> exists lo hi, lo ∈ X /\ hi ∈ X /\ forall x, x ∈ X -> lo <= x <= hi.
Proof.
  intros HX. destruct (extent_bounds (elements X)) as (lo & hi & Hlo & Hhi & HB).
  { intros E%elements_empty_inv. by apply leibniz_equiv in E. }
  exists lo, hi. split_and!; [by apply elem_of_elements..|]. intros x Hx. apply HB. by apply elem_of_elements.
Qed.

(** The minutes of a set of hours, sixty for each. *)
Lemma minutes_of (H : gset Z) : exists M : gset Z, (forall m, m ∈ M <-> m / 60 ∈ H) /\ size M = (60 * size H)%nat.
Proof.
  induction H as [|h H Hh (M & HM & HS)] using set_ind_L; [exists ∅; split; [set_solver|by rewrite !size_empty]|].
  exists (list_to_set (seqZ (60 * h) 60) ∪ M). split.
  - intros m. rewrite !elem_of_union, elem_of_list_to_set, elem_of_seqZ, HM, elem_of_singleton. split; (intros [E|E]; [left|by right]).
    + symmetry. apply (Z.div_unique m 60 h (m - 60 * h)); lia.
    + subst h. pose proof (Z.div_mod m 60 ltac:(lia)). pose proof (Z.mod_pos_bound m 60 ltac:(lia)). lia.
  - rewrite size_union, size_list_to_set, length_seqZ, HS, size_union, size_singleton; [change (Z.to_nat 60) with 60%nat; lia|set_solver|apply NoDup_seqZ|].
    intros m Hm%elem_of_list_to_set HM'. apply elem_of_seqZ in Hm. apply HM in HM'.
    rewrite <- (Z.div_unique m 60 h (m - 60 * h)) in HM' by lia. done.
Qed.

Definition hours (M : gset Z) : gset Z := set_map (fun m => m / 60) M.

Lemma elem_of_hours M h : h ∈ hours M <-> exists m, m ∈ M /\ m / 60 = h.
Proof. unfold hours. rewrite elem_of_map. naive_solver. Qed.

Lemma size_hours M : (size M <= 60 * size (hours M))%nat.
Proof.
  destruct (minutes_of (hours M)) as (N & HN & <-). apply subseteq_size. intros m Hm. apply HN, elem_of_hours. by exists m.
Qed.

(** A market as the floors see it: enough buckets, spread widely enough, and
    enough volume, whatever share of the buckets was valued. *)
Lemma clears_iff vol n v s p :
  0 <= s -> s * Second <= MaxInt64 ->
  FailedFloor vol n v s p = FloorNone <-> MinBuckets p <= n /\ MinSpan p <= s * Second /\ (MinVolumeUSD p <= default 0%Q vol)%Q.
Proof.
  intros Hs HM. unfold FailedFloor, MaxInt64, Second in *.
  rewrite (wraps_small 64 s) by lia. rewrite (wraps_small 64 (s * _)) by lia.
  destruct (Z.ltb_spec n (MinBuckets p)); [split; [done|lia]|].
  destruct (Z.ltb_spec (s * 1000000000) (MinSpan p)); [split; [done|lia]|].
  destruct (Qlt_bool (default 0%Q vol) (MinVolumeUSD p)) eqn:EQ.
  - apply Qlt_bool_iff in EQ. split; [by destruct (_ <? _)|]. intros (_ & _ & X). exfalso. by apply (Qlt_not_le _ _ EQ).
  - apply Qlt_bool_false in EQ. split; [intros _; by split_and!|done].
Qed.

Lemma hourGrain_span p : 0 <= MinSpan p -> MinSpan (hourGrainPolicy p) = MinSpan p / Hour * Hour.
Proof.
  intros HS. cbn. unfold dur_Truncate. change (Hour <=? 0) with false. cbn iota.
  rewrite Z.rem_mod_nonneg by (unfold Hour, Minute, Second; lia). pose proof (Z.div_mod (MinSpan p) Hour ltac:(done)). lia.
Qed.

Lemma hourGrain_buckets p : 1 <= MinBuckets p -> MinBuckets p <= MaxInt64 - 60 ->
  MinBuckets (hourGrainPolicy p)
  = (if (Hour <=? MinSpan (hourGrainPolicy p)) && ((MinBuckets p + 59) / 60 <? 2) then 2 else (MinBuckets p + 59) / 60).
Proof.
  intros H1 H2. unfold MaxInt64 in H2. cbn [MinBuckets MinSpan hourGrainPolicy]. change minutesPerHour with 60.
  rewrite (wraps_small 64 (MinBuckets p + 60)), (wraps_small 64 (_ - 1)) by lia. replace (MinBuckets p + 60 - 1) with (MinBuckets p + 59) by lia.
  rewrite Z.quot_div_nonneg by lia. done.
Qed.

(** The hour floor in minutes: [a] is the span floor, in minutes. *)
Lemma hourGrain_iff p a n s : 1 <= MinBuckets p -> MinBuckets p <= MaxInt64 - 60 -> 0 <= a -> MinSpan p = a * Minute ->
  MinBuckets (hourGrainPolicy p) <= n /\ MinSpan (hourGrainPolicy p) <= s * Hour
  <-> MinBuckets p <= 60 * n /\ a / 60 <= s /\ (1 <= a / 60 -> 2 <= n).
Proof.
  intros H1 H2 Ha Hm.
  assert (MinSpan (hourGrainPolicy p) = a / 60 * Hour) as ES.
  { rewrite hourGrain_span by (rewrite Hm; unfold Minute, Second; lia). f_equal. rewrite Hm. unfold Hour.
    rewrite Z.div_mul_cancel_r; [done|lia|done]. }
  rewrite (hourGrain_buckets p H1 H2), ES. pose proof (Z.div_mod (MinBuckets p + 59) 60 ltac:(lia)).
  pose proof (Z.mod_pos_bound (MinBuckets p + 59) 60 ltac:(lia)). unfold Hour, Minute, Second in *.
  destruct (Z.leb_spec (60 * (60 * 1000000000)) (a / 60 * (60 * (60 * 1000000000)))), (Z.ltb_spec ((MinBuckets p + 59) / 60) 2); cbn [andb]; lia.
Qed.

Lemma hours_empty M : hours M = ∅ -> M = ∅.
Proof.
  intros HM. destruct (decide (M = ∅)) as [|(m & Hm)%set_choose_L]; [done|].
  exfalso. apply (not_elem_of_empty (C := gset Z) (m / 60)). rewrite <- HM. apply elem_of_hours. by exists m.
Qed.

(** The bounds of the hours of a market are the hours of its bounds. *)
Lemma hours_bounds M lo hi mlo mhi :
  lo ∈ hours M -> hi ∈ hours M -> (forall h, h ∈ hours M -> lo <= h <= hi) ->
  mlo ∈ M -> mhi ∈ M -> (forall m, m ∈ M -> mlo <= m <= mhi) -> lo = mlo / 60 /\ hi = mhi / 60.
Proof.
  intros Hlo Hhi HX Hmlo Hmhi HMX.
  pose proof (HX (mlo / 60) (proj2 (elem_of_hours M _) (ex_intro _ mlo (conj Hmlo eq_refl)))).
  pose proof (HX (mhi / 60) (proj2 (elem_of_hours M _) (ex_intro _ mhi (conj Hmhi eq_refl)))).
  apply elem_of_hours in Hlo as (m & Hm & <-). apply elem_of_hours in Hhi as (m' & Hm' & <-).
  pose proof (Z.div_le_mono mlo m 60 ltac:(lia) (proj1 (HMX _ Hm))).
  pose proof (Z.div_le_mono m' mhi 60 ltac:(lia) (proj2 (HMX _ Hm'))). lia.
Qed.

(** Every minute of some hours: the largest market with those hours. *)
Lemma full_market (H : gset Z) lo hi :
  lo ∈ H -> hi ∈ H -> (forall h, h ∈ H -> lo <= h <= hi) ->
  exists M, hours M = H /\ size M = (60 * size H)%nat /\ extent (elements M) = 60 * (hi - lo) + 59.
Proof.
  intros Hlo Hhi HX. destruct (minutes_of H) as (M & HM & Hsz). exists M. split_and!; [|done|].
  - apply set_eq. intros h. rewrite elem_of_hours. split; [intros (m & Hm & <-); by apply HM|].
    intros Hh. exists (60 * h). rewrite HM, Z.mul_comm, Z.div_mul by lia. done.
  - rewrite (set_extent M (60 * lo) (60 * hi + 59)); [lia| | |].
    + apply HM. by rewrite Z.mul_comm, Z.div_mul by lia.
    + apply HM. rewrite <- (Z.div_unique (60 * hi + 59) 60 hi 59) by lia. done.
    + intros m Hm%HM%HX. pose proof (Z.div_mod m 60 ltac:(lia)). pose proof (Z.mod_pos_bound m 60 ltac:(lia)). lia.
Qed.

Lemma two_hours (H : gset Z) a b : a ∈ H -> b ∈ H -> a <> b -> 2 <= Z.of_nat (size H).
Proof.
  intros Ha Hb Hn. change 2 with (Z.of_nat 2). apply inj_le. transitivity (size ({[a; b]} : gset Z)).
  - rewrite size_union, !size_singleton by set_solver. lia.
  - apply subseteq_size. set_solver.
Qed.

(** C27: the hour-grain floor is exact. A market seen by the hour clears the
    hour floor exactly when those hours are the hours of some market that
    clears the minute floor: no market the minute policy admits is refused
    for being old, and no stricter floor has that property. *)
Theorem hour_grain_exact p vol v v' (H : gset Z) :
  1 <= MinBuckets p <= MaxInt64 - 60 -> 0 <= MinSpan p -> (Minute | MinSpan p) ->
  (forall h, h ∈ H -> 0 <= h < 2 ^ 20) ->
  FailedFloor vol (Z.of_nat (size H)) v (3600 * extent (elements H)) (hourGrainPolicy p) = FloorNone
  <-> exists M : gset Z, hours M = H /\ FailedFloor vol (Z.of_nat (size M)) v' (60 * extent (elements M)) p = FloorNone.
Proof.
  intros [HB1 HB2] HS [a Ha] HR. assert (0 <= a) as Ha0 by (unfold Minute, Second in *; lia).
  destruct (decide (H = ∅)) as [->|HE].
  { rewrite elements_empty, size_empty. cbn [extent]. split.
    - intros X%clears_iff; [|done..]. destruct X as (X & X2 & _).
      destruct (proj1 (hourGrain_iff p a 0 0 HB1 HB2 Ha0 Ha) ltac:(unfold Second, Hour, Minute in *; cbn in X, X2 |- *; lia)). lia.
    - intros (M & HM%hours_empty & X). subst M.
      rewrite elements_empty, size_empty in X. apply clears_iff in X; [|done..]. cbn in X. lia. }
  destruct (set_bounds H HE) as (lo & hi & Hlo & Hhi & HX).
  pose proof (HR _ Hlo) as Rlo. pose proof (HR _ Hhi) as Rhi. pose proof (HX _ Hhi) as Hlh.
  rewrite (set_extent H lo hi Hlo Hhi HX).
  rewrite clears_iff by (unfold MaxInt64, Second; lia).
  replace (3600 * (hi - lo) * Second) with ((hi - lo) * Hour) by (unfold Hour, Minute, Second; lia).
  replace (MinVolumeUSD (hourGrainPolicy p)) with (MinVolumeUSD p) by done.
  pose proof (hourGrain_iff p a (Z.of_nat (size H)) (hi - lo) HB1 HB2 Ha0 Ha) as HI.
  split.
  - intros (X1 & X2 & X3). destruct (proj1 HI (conj X1 X2)) as (Y1 & Y2 & _).
    destruct (full_market H lo hi Hlo Hhi HX) as (M & HH & Hsz & Hext). exists M. split; [done|]. rewrite Hext.
    apply clears_iff; [unfold MaxInt64, Second; lia..|]. rewrite Hsz. split_and!; [lia| |done].
    rewrite Ha. unfold Minute, Second. pose proof (Z.div_mod a 60 ltac:(lia)). pose proof (Z.mod_pos_bound a 60 ltac:(lia)). lia.
  - intros (M & <- & X). assert (M <> ∅) as HM by (intros ->; by unfold hours in HE; rewrite set_map_empty in HE).
    destruct (set_bounds M HM) as (mlo & mhi & Hmlo & Hmhi & HMX). pose proof (HMX _ Hmhi) as Hmm.
    destruct (hours_bounds M lo hi mlo mhi Hlo Hhi HX Hmlo Hmhi HMX) as [-> ->].
    rewrite (set_extent M mlo mhi Hmlo Hmhi HMX) in X.
    pose proof (Z.div_mod mlo 60 ltac:(lia)). pose proof (Z.mod_pos_bound mlo 60 ltac:(lia)).
    pose proof (Z.div_mod mhi 60 ltac:(lia)). pose proof (Z.mod_pos_bound mhi 60 ltac:(lia)).
    apply clears_iff in X; [|unfold MaxInt64, Second; lia..]. destruct X as (X1 & X2 & X3).
    pose proof (size_hours M) as Hsz. rewrite Ha in X2. unfold Minute, Second in X2.
    pose proof (Z.div_mod a 60 ltac:(lia)). pose proof (Z.mod_pos_bound a 60 ltac:(lia)).
    assert (a / 60 <= mhi / 60 - mlo / 60) as HS' by lia.
    split_and!; [apply HI..|done]; (split_and!; [lia|lia|]); intros Hone; apply (two_hours _ _ _ Hlo Hhi); lia.
Qed.

Lemma hour_grain_exact_witness :
  let p := withDefaults (mkSubPol None 0 0 0) in
  exists M : gset Z, hours M = {[ 10; 16 ]} /\ FailedFloor (Some (1000 # 1)%Q) (Z.of_nat (size M)) 0 (60 * extent (elements M)) p = FloorNone.
Proof.
  intros p. apply (hour_grain_exact p (Some (1000 # 1)%Q) 0 0 {[ 10; 16 ]}).
  - by vm_compute.
  - by vm_compute.
  - exists 360. by vm_compute.
  - intros h Hh. assert (h = 10 \/ h = 16) as [-> | ->] by set_solver; by vm_compute.
  - by vm_compute.
Defined.

(** ** A configuration some market clears *)

Lemma durationOrZero_small n unit : 0 < unit -> 0 <= n -> n * unit <= MaxInt64 -> durationOrZero n unit = n * unit.
Proof.
  intros Hu Hn HM. unfold durationOrZero.
  assert (n <= Z.quot MaxInt64 unit) by (rewrite Z.quot_div_nonneg by (unfold MaxInt64; lia); apply Z.div_le_lower_bound; lia).
  assert (Z.quot MinInt64 unit <= 0) by (change MinInt64 with (- 2 ^ 63); rewrite Z.quot_opp_l by lia; pose proof (Z.quot_pos (2 ^ 63) unit ltac:(lia) ltac:(lia)); lia).
  destruct (Z.ltb_spec (Z.quot MaxInt64 unit) n), (Z.ltb_spec n (Z.quot MinInt64 unit)); try lia. cbn [orb].
  apply wraps_small; unfold MaxInt64 in *; lia.
Qed.

(** The knobs of a configuration, a zero standing for the default. *)
Definition knob_window (pg : PricingGuardConfig) : Z := cmp_Or (SubstanceWindowHours pg) 24.
Definition knob_span (pg : PricingGuardConfig) : Z := cmp_Or (SubstanceMinSpanMinutes pg) 360.
Definition knob_buckets (pg : PricingGuardConfig) : Z := cmp_Or (SubstanceMinBuckets pg) 20.

Lemma configured pg g : buildSubstanceGate pg = Some g ->
  0 <= SubstanceMinSpanMinutes pg -> SubstanceMinSpanMinutes pg * Minute <= MaxInt64 ->
  0 <= SubstanceWindowHours pg -> SubstanceWindowHours pg * Hour <= MaxInt64 ->
  MinBuckets (sg_policy g) = knob_buckets pg /\ MinSpan (sg_policy g) = knob_span pg * Minute /\ SubWindow (sg_policy g) = knob_window pg * Hour.
Proof.
  intros HG H1 H2 H3 H4. unfold buildSubstanceGate in HG. destruct (DisableSubstanceGate pg); [done|]. injection HG as <-. cbn.
  rewrite !durationOrZero_small by (done || (unfold Hour, Minute, Second; lia)). unfold knob_buckets, knob_span, knob_window, cmp_Or.
  split; [done|]. split; unfold Hour, Minute, Second in *; repeat case_if; bprop; unfold DefaultSubstanceMinSpan, DefaultSubstanceWindow, Hour, Minute, Second; lia.
Qed.

Lemma satisfiable_iff pg : 0 <= SubstanceWindowHours pg ->
  validateSubstanceSatisfiable pg = true
  <-> knob_window pg <= 9600 /\ knob_span pg <= 60 * knob_window pg - 2 /\ knob_buckets pg <= 60 * knob_window pg - 1.
Proof.
  intros HW. unfold validateSubstanceSatisfiable. cbn [SubstanceWindowHours SubstanceMinSpanMinutes SubstanceMinBuckets defaultPricingGuardConfig].
  fold (knob_window pg) (knob_span pg) (knob_buckets pg). assert (0 < knob_window pg) by (unfold knob_window, cmp_Or; case_if; bprop; lia).
  unfold maxSubstanceWindowHours. destruct (Z.ltb_spec (400 * 24) (knob_window pg)); [split; [done|lia]|].
  rewrite (wraps_small 64 (knob_window pg * 60)), !(wraps_small 64 (_ - _)) by lia.
  destruct (Z.ltb_spec (knob_window pg * 60 - 2) (knob_span pg)); [split; [done|lia]|].
  destruct (Z.ltb_spec (knob_window pg * 60 - 1) (knob_buckets pg)); [split; [done|lia]|]. split; [lia|done].
Qed.

(** The minutes the live query can count. *)
Lemma live_minute now w m : 0 < w ->
  live_bounds now now (w * Hour) (m * Minute) = true
  <-> now / Minute - 60 * w + (if time_Unix now mod 60 =? 0 then 0 else 1) <= m <= now / Minute - 1.
Proof.
  intros Hw. unfold live_bounds, to_second, time_Unix. rewrite andb_true_iff, !Z.leb_le.
  replace (now - w * Hour) with (now + (- (w * 3600)) * Second) by (unfold Hour, Minute, Second; lia). rewrite Z.div_add by done.
  replace (now / Minute) with (now / Second / 60) by (rewrite Z.div_div by (unfold Second; lia); done).
  set (s := now / Second). assert (Second * s <= now < Second * (s + 1)) as HS.
  { pose proof (Z.div_mod now Second ltac:(done)). pose proof (Z.mod_pos_bound now Second ltac:(done)). unfold s. lia. }
  pose proof (Z.div_mod s 60 ltac:(lia)). pose proof (Z.mod_pos_bound s 60 ltac:(lia)). unfold Minute, Second in *.
  destruct (Z.eqb_spec (s mod 60) 0); lia.
Qed.

Lemma seq_set_extent (a n : Z) : 0 < n -> size (list_to_set (seqZ a n) : gset Z) = Z.to_nat n /\ extent (elements (list_to_set (seqZ a n) : gset Z)) = n - 1.
Proof.
  intros Hn. split; [by rewrite size_list_to_set, length_seqZ by apply NoDup_seqZ|].
  rewrite (set_extent _ a (a + n - 1)); [lia|..]; rewrite ?elem_of_list_to_set, ?elem_of_seqZ; [lia..|].
  intros x. rewrite elem_of_list_to_set, elem_of_seqZ. lia.
Qed.

(** The start-up check of the substance floors accepts exactly the
    configurations that can be met. At every moment some set of closed
    one-minute buckets of the window clears an accepted policy, and a refused
    one (its window within the limit) leaves moments when no market at all
    would be served; an accepted policy can also be met at hour grain, at
    every hour. *)
Theorem guard_config_exact pg g vol :
  buildSubstanceGate pg = Some g -> (MinVolumeUSD (sg_policy g) <= vol)%Q ->
  0 <= SubstanceMinBuckets pg -> 0 <= SubstanceMinSpanMinutes pg -> SubstanceMinSpanMinutes pg * Minute <= MaxInt64 ->
  0 <= SubstanceWindowHours pg <= maxSubstanceWindowHours ->
  let p := sg_policy g in
  (validateSubstanceSatisfiable pg = true <->
   forall now, exists M : gset Z, (forall m, m ∈ M -> live_bounds now now (SubWindow p) (m * Minute) = true)
     /\ FailedFloor (Some vol) (Z.of_nat (size M)) 0 (60 * extent (elements M)) p = FloorNone)
  /\ (validateSubstanceSatisfiable pg = true ->
      forall asOf dbNow, (Hour | asOf) -> asOf <= dbNow ->
      exists H : gset Z, (forall h, h ∈ H -> at_bounds asOf dbNow (SubWindow p) Granularity1h (h * Hour) = true)
        /\ FailedFloor (Some vol) (Z.of_nat (size H)) 0 (3600 * extent (elements H)) (hourGrainPolicy p) = FloorNone).
Proof.
  intros HG HV H1 H2 H3 [H4 H5] p. unfold maxSubstanceWindowHours in H5.
  destruct (configured pg g HG H2 H3 H4 ltac:(unfold MaxInt64, Hour, Minute, Second; lia)) as (EB & ES & EW).
  fold p in EB, ES, EW, HV. rewrite (satisfiable_iff pg H4), EW.
  assert (0 < knob_window pg <= 9600 /\ 1 <= knob_buckets pg /\ 0 <= knob_span pg) as (Hw & Hb & Hs)
    by (unfold knob_window, knob_buckets, knob_span, cmp_Or; repeat case_if; bprop; lia).
  set (w := knob_window pg) in *. split; [split|].
  - intros (_ & S1 & S2) now. exists (list_to_set (seqZ (now / Minute - 60 * w + 1) (60 * w - 1))). split.
    + intros m. rewrite elem_of_list_to_set, elem_of_seqZ, live_minute by lia. intros Hm. case_if; lia.
    + destruct (seq_set_extent (now / Minute - 60 * w + 1) (60 * w - 1) ltac:(lia)) as [-> ->].
      apply clears_iff; [unfold MaxInt64, Second; lia..|]. rewrite EB, ES. unfold Minute, Second. split_and!; [lia|lia|done].
  - intros HA. destruct (HA Second) as (M & HM & HF). split; [lia|].
    assert (forall m, m ∈ M -> - 60 * w + 1 <= m <= -1) as HR by (intros m Hm; specialize (HM m Hm); rewrite live_minute in HM by lia; change (Second / Minute) with 0 in HM; change (time_Unix Second mod 60 =? 0) with false in HM; cbn iota in HM; lia).
    assert (size M <= Z.to_nat (60 * w - 1))%nat as HS.
    { destruct (seq_set_extent (- 60 * w + 1) (60 * w - 1) ltac:(lia)) as [<- _]. apply subseteq_size.
      intros m Hm%HR. rewrite elem_of_list_to_set, elem_of_seqZ. lia. }
    destruct (decide (M = ∅)) as [->|HE].
    { rewrite elements_empty, size_empty in HF. apply clears_iff in HF; [|done..]. cbn in HF. lia. }
    destruct (set_bounds M HE) as (lo & hi & Hlo & Hhi & HX). rewrite (set_extent M lo hi Hlo Hhi HX) in HF.
    pose proof (HR _ Hlo). pose proof (HR _ Hhi). pose proof (HX _ Hhi).
    apply clears_iff in HF; [|unfold MaxInt64, Second; lia..]. rewrite EB, ES in HF. unfold Minute, Second in HF. lia.
  - intros (_ & S1 & S2) asOf dbNow [k ->] Hdb. exists (list_to_set (seqZ (k - w) w)). split.
    + intros h. rewrite elem_of_list_to_set, elem_of_seqZ. intros Hh. unfold at_bounds, to_second, time_Unix. cbn [BucketDuration].
      replace (k * Hour - Hour) with ((k - 1) * 3600 * Second) by (unfold Hour, Minute, Second; lia).
      replace (k * Hour - w * Hour) with ((k - w) * 3600 * Second) by (unfold Hour, Minute, Second; lia).
      rewrite !Z.div_mul by done. rewrite !andb_true_iff, !Z.leb_le. unfold Hour, Minute, Second in *. lia.
    + destruct (seq_set_extent (k - w) w ltac:(lia)) as [-> ->].
      apply clears_iff; [unfold MaxInt64, Second; lia..|].
      replace (3600 * (w - 1) * Second) with ((w - 1) * Hour) by (unfold Hour, Minute, Second; lia).
      destruct (proj2 (hourGrain_iff p (knob_span pg) (Z.of_nat (Z.to_nat w)) (w - 1) ltac:(lia) ltac:(unfold MaxInt64; lia) Hs ES)) as [X Y].
      { pose proof (Z.div_mod (knob_span pg) 60 ltac:(lia)). pose proof (Z.mod_pos_bound (knob_span pg) 60 ltac:(lia)). lia. }
      by split_and!.
Qed.

Lemma guard_config_exact_witness :
  let pg := mkPG false (S754_zero false) 61 62 2 0 false ∅ in
  exists g, buildSubstanceGate pg = Some g /\ validateSubstanceSatisfiable pg = true
    /\ exists M : gset Z, FailedFloor (Some (1000 # 1)%Q) (Z.of_nat (size M)) 0 (60 * extent (elements M)) (sg_policy g) = FloorNone.
Proof.
  intros pg. eexists. split; [reflexivity|]. split; [reflexivity|].
  destruct (guard_config_exact pg _ (1000 # 1)%Q eq_refl ltac:(by vm_compute) ltac:(by vm_compute) ltac:(by vm_compute) ltac:(by vm_compute) ltac:(by vm_compute))
    as [HI _]. destruct (proj1 HI eq_refl 0) as (M & _ & HM). by exists M.
Defined.

(** ** Cache keys *)

Definition no_nul (c : ascii) : bool := negb (Ascii.eqb "000" c).

Lemma allow_list_no_nul l code : forallb (str_forallb no_nul) l = true -> bool_decide (code ∈ l) = true -> str_forallb no_nul code = true.
Proof. intros Hl Hc. bprop. rewrite forallb_forall in Hl. by apply Hl, list_elem_of_In. Qed.

Lemma printable_no_nul c : is_alnum c = true \/ is_base32 c = true \/ is_printable c = true -> no_nul c = true.
Proof. unfold no_nul. destruct (Ascii.eqb_spec "000" c) as [<-|_]; [|done]. by intros [X|[X|X]]; vm_compute in X. Qed.

Lemma no_nul_from s : str_forallb is_alnum s = true \/ str_forallb is_base32 s = true \/ str_forallb is_printable s = true ->
  str_forallb no_nul s = true.
Proof. intros [X|[X|X]]; (eapply str_forallb_impl; [|exact X]); intros c Hc; apply printable_no_nul; tauto. Qed.

Lemma Asset_String_no_nul `{StrkeyLaws} a : Asset_Validate a = Ok tt -> str_forallb no_nul (Asset_String a) = true.
Proof.
  intros Hv. pose proof (Asset_Validate_inv a Hv) as Hi.
  assert (forall c, IsKnownFiat c = true \/ IsKnownCrypto c = true \/ IsKnownRWA c = true -> str_forallb no_nul c = true) as HK
    by (intros c [HK|[HK|HK]]; (eapply allow_list_no_nul; [|exact HK]; vm_compute; reflexivity)).
  destruct a as [[] c i k]; unfold Asset_String, NativeAsset in *; simpl in *; destruct_and?; simplify_eq; try done;
    rewrite ?str_forallb_app; try by (rewrite (HK c) by tauto).
  - destruct (IsAccountID_shape i) as [_ Hb]; [done|]. unfold validateClassicAssetCode in *. case_match; [done|]. inv_ok. bprop.
    by rewrite (no_nul_from c), (no_nul_from i) by tauto.
  - destruct (IsContractID_shape k) as [_ Hb]; [done|]. apply no_nul_from. tauto.
  - unfold validateRawSymbol in *. case_match; [done|]. inv_ok. bprop.
    by rewrite (no_nul_from c) by tauto.
Qed.

Lemma sep_inj a b c d : str_forallb no_nul a = true -> str_forallb no_nul c = true ->
  a +:+ key_sep +:+ b = c +:+ key_sep +:+ d -> a = c /\ b = d.
Proof.
  revert c. induction a as [|x a IH]; intros [|y c] Ha Hc E.
  - cbn in E. injection E as E. done.
  - change ("" +:+ key_sep +:+ b) with (String "000" b) in E. change (String y c +:+ key_sep +:+ d) with (String y (c +:+ key_sep +:+ d)) in E.
    injection E as <- _. by vm_compute in Hc.
  - change ("" +:+ key_sep +:+ d) with (String "000" d) in E. change (String x a +:+ key_sep +:+ b) with (String x (a +:+ key_sep +:+ b)) in E.
    injection E as -> _. by vm_compute in Ha.
  - cbn [str_forallb] in Ha, Hc. bprop. change (String x (a +:+ key_sep +:+ b) = String y (c +:+ key_sep +:+ d)) in E. injection E as <- E.
    destruct (IH c) as [-> ->]; auto.
Qed.

(** The same two legs, in either order. *)
Definition same_legs (b q b' q' : Asset) : Prop := (b' = b /\ q' = q) \/ (b' = q /\ q' = b).

Lemma ordered_key b q : exists x y, pairCacheKey b q = x +:+ key_sep +:+ y
  /\ ((x = Asset_String b /\ y = Asset_String q) \/ (x = Asset_String q /\ y = Asset_String b)).
Proof. unfold pairCacheKey. case_if; do 2 eexists; (split; [reflexivity|]); tauto. Qed.

Section Keys.
Context `{StrkeyLaws}.

Lemma pairCacheKey_inj b q b' q' :
  Asset_Validate b = Ok tt -> Asset_Validate q = Ok tt -> Asset_Validate b' = Ok tt -> Asset_Validate q' = Ok tt ->
  pairCacheKey b q = pairCacheKey b' q' -> same_legs b q b' q'.
Proof.
  intros Vb Vq Vb' Vq' E. pose proof (Asset_String_no_nul b Vb). pose proof (Asset_String_no_nul q Vq).
  pose proof (Asset_String_no_nul b' Vb'). pose proof (Asset_String_no_nul q' Vq').
  destruct (ordered_key b q) as (x & y & Exy & Hxy), (ordered_key b' q') as (x' & y' & Exy' & Hxy').
  rewrite Exy, Exy' in E. apply sep_inj in E as [-> ->]; [|by naive_solver..].
  unfold same_legs. destruct Hxy as [[-> ->]|[-> ->]], Hxy' as [[E1 E2]|[E1 E2]];
    apply Asset_String_inj in E1; try done; apply Asset_String_inj in E2; try done; subst; tauto.
Qed.

Lemma granularity_no_nul g : str_forallb no_nul (granularity_text g) = true.
Proof. by destruct g. Qed.

Lemma granularity_inj g g' : granularity_text g = granularity_text g' -> g = g'.
Proof. by destruct g, g'. Qed.

Lemma at_key_inj b q g t b' q' g' t' :
  Asset_Validate b = Ok tt -> Asset_Validate q = Ok tt -> Asset_Validate b' = Ok tt -> Asset_Validate q' = Ok tt ->
  at_key b q g t = at_key b' q' g' t' -> same_legs b q b' q' /\ g = g' /\ time_Unix t = time_Unix t'.
Proof.
  intros Vb Vq Vb' Vq' E. pose proof (Asset_String_no_nul b Vb). pose proof (Asset_String_no_nul q Vq).
  pose proof (Asset_String_no_nul b' Vb'). pose proof (Asset_String_no_nul q' Vq').
  destruct (ordered_key b q) as (x & y & Exy & Hxy), (ordered_key b' q') as (x' & y' & Exy' & Hxy').
  unfold at_key in E. rewrite Exy, Exy', !str_app_assoc in E.
  apply sep_inj in E as [Ex E]; [|by naive_solver..]. apply sep_inj in E as [Ey E]; [|by naive_solver..].
  apply sep_inj in E as [Eg%granularity_inj Et]; [|by apply granularity_no_nul..].
  apply (f_equal big_SetString10) in Et. rewrite !big_SetString_String in Et. injection Et as Et. split; [|done].
  apply pairCacheKey_inj; try done. by rewrite Exy, Exy', Ex, Ey.
Qed.
End Keys.

(** ** Runs of the gate

    Requests run concurrently, but only [put_live] and [put_at] change the
    gate, each under its lock. A run is a sequence of these, in any order and
    with any clocks, each storing what the store said when it was asked. *)

Section Runs.
Context `{StrkeyLaws} `{RatText} (gl : globals) (p : SubstancePolicy).

Definition live_answer (t dbNow : Time) (rows : list price_row) (b q : Asset) : option substanceVerdict :=
  measure_live gl (withDefaults p) t (PairMarketSubstance rows t dbNow) b q.

Definition at_answer (t dbNow : Time) (rows : list price_row) (question : HistoryGranularity * floors * Time) (b q : Asset) : option substanceVerdict :=
  measure_at gl t question (PairMarketSubstanceAt rows dbNow) b q.

Definition question (now at_ : Time) : HistoryGranularity * floors * Time := at_question (NewSubstanceGate p) now at_.

Inductive gate_run : SubstanceGate -> Prop :=
| run_new : gate_run (NewSubstanceGate p)
| run_live g t dbNow rows b q e :
    gate_run g -> Asset_Validate b = Ok tt -> Asset_Validate q = Ok tt ->
    live_answer t dbNow rows b q = Some e -> gate_run (put_live g t (pairCacheKey b q) e)
| run_at g t dbNow rows at_ b q e :
    gate_run g -> Asset_Validate b = Ok tt -> Asset_Validate q = Ok tt ->
    at_answer t dbNow rows (question t at_) b q = Some e ->
    gate_run (put_at g t (at_key b q (question t at_).1.1 (question t at_).2) e).

Lemma selects_sym b q r : selects b q r = selects q b r.
Proof. unfold selects. by destruct (first_arm b q r), (first_arm q b r). Qed.

Lemma PairMarketSubstance_sym rows t dbNow b q w : PairMarketSubstance rows t dbNow b q w = PairMarketSubstance rows t dbNow q b w.
Proof.
  unfold PairMarketSubstance. case_if; [done|]. destruct b as [|x b], q as [|y q]; try done.
  do 2 f_equal. apply List.filter_ext. intros r. by rewrite selects_sym.
Qed.

Lemma PairMarketSubstanceAt_sym rows dbNow b q t w g : PairMarketSubstanceAt rows dbNow b q t w g = PairMarketSubstanceAt rows dbNow q b t w g.
Proof.
  unfold PairMarketSubstanceAt. do 2 (case_if; [done|]). destruct b as [|x b], q as [|y q]; try done.
  do 2 f_equal. apply List.filter_ext. intros r. by rewrite selects_sym.
Qed.

(** Two entries that say the same of a pair. *)
Definition agree (e e' : substanceVerdict) : Prop :=
  sv_allowed e = sv_allowed e' /\ sv_floor e = sv_floor e' /\ sv_expires e = sv_expires e'.

Lemma measureUnion_sym b q pol t w read e :
  (forall x y, read x y = read y x) -> measureUnion gl b q pol t w read = Some e ->
  exists e', measureUnion gl q b pol t w read = Some e' /\ agree e e'.
Proof.
  intros HS (sub & Hsub & E)%bind_Some. rewrite HS in Hsub. eexists. split; [apply bind_Some; exists sub; split; [exact Hsub|reflexivity]|].
  injection E as <-. done.
Qed.

Lemma live_answer_sym t dbNow rows b q e : live_answer t dbNow rows b q = Some e -> exists e', live_answer t dbNow rows q b = Some e' /\ agree e e'.
Proof.
  intros (e0 & He0 & E)%bind_Some.
  apply (measureUnion_sym b q (withDefaults p) t t) in He0 as (e1 & He1 & HA); [|intros; apply PairMarketSubstance_sym].
  eexists. split; [apply bind_Some; exists e1; split; [exact He1|reflexivity]|]. injection E as <-. by destruct HA as (? & ? & _).
Qed.

Lemma at_answer_sym t dbNow rows quest b q e :
  at_answer t dbNow rows quest b q = Some e -> exists e', at_answer t dbNow rows quest q b = Some e' /\ agree e e'.
Proof.
  destruct quest as [[grain pol] asOf]. intros (e0 & He0 & E)%bind_Some.
  apply (measureUnion_sym b q pol t asOf) in He0 as (e1 & He1 & HA); [|intros; apply PairMarketSubstanceAt_sym].
  eexists. split; [apply bind_Some; exists e1; split; [exact He1|reflexivity]|]. injection E as <-. by destruct HA as (? & ? & _).
Qed.

Lemma live_answer_expires t dbNow rows b q e : live_answer t dbNow rows b q = Some e -> sv_expires e = t + substanceCacheTTL.
Proof. by intros (e0 & _ & [= <-])%bind_Some. Qed.

Lemma at_answer_expires t dbNow rows quest b q e : at_answer t dbNow rows quest b q = Some e -> sv_expires e = t + substanceCacheTTL.
Proof. destruct quest as [[grain pol] asOf]. by intros (e0 & _ & [= <-])%bind_Some. Qed.

(** What the two maps hold, and how large the three maps are. *)
Record gate_inv (g : SubstanceGate) : Prop := {
  gi_policy : sg_policy g = withDefaults p;
  gi_live k e : sg_cache g !! k = Some e ->
    exists t dbNow rows b q, k = pairCacheKey b q /\ Asset_Validate b = Ok tt /\ Asset_Validate q = Ok tt
      /\ live_answer t dbNow rows b q = Some e;
  gi_at k e : sg_atCache g !! k = Some e ->
    exists t dbNow rows at_ b q, k = at_key b q (question t at_).1.1 (question t at_).2 /\ Asset_Validate b = Ok tt /\ Asset_Validate q = Ok tt
      /\ at_answer t dbNow rows (question t at_) b q = Some e;
  gi_sizes : Z.of_nat (size (sg_cache g)) <= substanceCacheMax /\ Z.of_nat (size (sg_atCache g)) <= substanceCacheMax
    /\ Z.of_nat (size (sg_logged g)) <= substanceLoggedMax
}.

Lemma sweep_lookup m now k e : sweepOrReset m now !! k = Some e -> m !! k = Some e.
Proof. unfold sweepOrReset. repeat case_if; [done..|]. by intros [? _]%map_lookup_filter_Some. Qed.

Lemma insert_size {A} (m : gmap string A) k v : Z.of_nat (size (<[k := v]> m)) <= Z.of_nat (size m) + 1.
Proof. rewrite map_size_insert. destruct (m !! k); cbn; lia. Qed.

Lemma sweep_insert_size m now k e : Z.of_nat (size (<[k := e]> (sweepOrReset m now))) <= substanceCacheMax.
Proof.
  pose proof (insert_size (sweepOrReset m now) k e) as X.
  enough (Z.of_nat (size (sweepOrReset m now)) < substanceCacheMax) by lia. clear X.
  unfold sweepOrReset. case_if; bprop; [done|]. case_if; bprop; [by rewrite map_size_empty|done].
Qed.

Lemma gate_run_inv g : gate_run g -> gate_inv g.
Proof.
  induction 1 as [|g t dbNow rows b q e _ [IP IL IA (I1 & I2 & I3)] Vb Vq HE|g t dbNow rows at_ b q e _ [IP IL IA (I1 & I2 & I3)] Vb Vq HE].
  - split; [done|by intros k e X; cbn in X; rewrite lookup_empty in X..|]. cbn. by rewrite !map_size_empty.
  - split; [done| |exact IA|].
    + intros k e'. cbn [put_live sg_cache]. intros [[<- <-]|[_ X%sweep_lookup%IL]]%lookup_insert_Some; [|done]. by exists t, dbNow, rows, b, q.
    + split; [apply sweep_insert_size|]. split; [exact I2|]. cbn [put_live sg_logged].
      case_if; bprop; [|unfold substanceLoggedMax in *; pose proof (insert_size (sg_logged g) (pairCacheKey b q) (sv_allowed e)); lia].
      pose proof (insert_size (∅ : gmap string bool) (pairCacheKey b q) (sv_allowed e)) as X. rewrite map_size_empty in X. unfold substanceLoggedMax. lia.
  - split; [done|exact IL| |].
    + intros k e'. cbn [put_at sg_atCache]. intros [[<- <-]|[_ X%sweep_lookup%IA]]%lookup_insert_Some; [|done]. by exists t, dbNow, rows, at_, b, q.
    + split; [exact I1|]. split; [apply sweep_insert_size|exact I3].
Qed.

Lemma question_shape now at_ : exists asOf, question now at_ =
  (let grain := (question now at_).1.1 in
   (grain, if bool_decide (grain = Granularity1m) then withDefaults p else hourGrainPolicy (withDefaults p), time_Truncate asOf (BucketDuration grain)))
  /\ ((question now at_).1.1 = Granularity1m \/ (question now at_).1.1 = Granularity1h).
Proof.
  unfold question, at_question. set (asOf := if time_After at_ now then now else at_). exists asOf.
  unfold policyAt. cbn [sg_policy NewSubstanceGate]. case_if; cbn; auto.
Qed.

Lemma truncate_second t g : g = Granularity1m \/ g = Granularity1h ->
  time_Truncate t (BucketDuration g) = time_Unix (time_Truncate t (BucketDuration g)) * Second.
Proof.
  intros Hg. unfold time_Unix.
  assert ((Second | time_Truncate t (BucketDuration g))) as [k E].
  { unfold time_Truncate. destruct Hg as [-> | ->]; cbn [BucketDuration].
    - change (Minute <=? 0) with false. cbn iota. pose proof (Z.div_mod (t - zero_time) Minute ltac:(done)) as X.
      exists ((t - zero_time) / Minute * 60 - 62135596800). unfold zero_time, Minute, Second in *. lia.
    - change (Hour <=? 0) with false. cbn iota. pose proof (Z.div_mod (t - zero_time) Hour ltac:(done)) as X.
      exists ((t - zero_time) / Hour * 3600 - 62135596800). unfold zero_time, Hour, Minute, Second in *. lia. }
  rewrite E, Z.div_mul by done. done.
Qed.

Lemma question_eq now at_ now' at_' :
  (question now at_).1.1 = (question now' at_').1.1 -> time_Unix (question now at_).2 = time_Unix (question now' at_').2 ->
  question now at_ = question now' at_'.
Proof.
  intros EG ET. destruct (question_shape now at_) as (a & Ea & Ha), (question_shape now' at_') as (a' & Ea' & Ha').
  set (gr := (question now at_).1.1) in *. rewrite <- EG in Ea', Ha'. cbn zeta in Ea, Ea'. rewrite Ea, Ea' in ET |- *. cbn [fst snd] in ET.
  f_equal. rewrite truncate_second, ET by done. symmetry. by apply truncate_second.
Qed.

Lemma fresh_entry_Some m k now e : fresh_entry m k now = Some e -> m !! k = Some e /\ now < sv_expires e.
Proof. intros (e' & Hk & E)%bind_Some. unfold time_Before in E. case_if_in E; [|done]. bprop. by injection E as <-. Qed.

(** Measuring the pair the other way round gives the same entry. *)
Lemma live_legs t dbNow rows b q b' q' e :
  same_legs b q b' q' -> live_answer t dbNow rows b' q' = Some e -> exists e', live_answer t dbNow rows b q = Some e' /\ agree e e'.
Proof. intros [[-> ->]|[-> ->]] E; [exists e; by repeat split|by apply live_answer_sym]. Qed.

Lemma at_legs t dbNow rows quest b q b' q' e :
  same_legs b q b' q' -> at_answer t dbNow rows quest b' q' = Some e -> exists e', at_answer t dbNow rows quest b q = Some e' /\ agree e e'.
Proof. intros [[-> ->]|[-> ->]] E; [exists e; by repeat split|by apply at_answer_sym]. Qed.
End Runs.


Definition market_ex : list price_row := [mkRow (- 5 * Minute) "native" "fiat:USD" (Some (25 # 1)%Q)].
Definition policy_ex : SubstancePolicy := mkSubPol None 0 0 0.
Definition entry_ex : option substanceVerdict := @live_answer decimal_text init_globals policy_ex 0 0 market_ex NativeAsset fiatUSD.
Definition gate_ex : SubstanceGate :=
  match entry_ex with Some e => put_live (NewSubstanceGate policy_ex) 0 (pairCacheKey NativeAsset fiatUSD) e | None => NewSubstanceGate policy_ex end.

