(* ===== verification/Orchestrator.v ===== *)
(** * The tick of the aggregator
    (internal/aggregate/orchestrator: orchestrator.go, stream.go,
    triangulate.go, phase2_freeze.go; internal/cachekeys/keys.go)

    One tick refreshes every pair in every window, composes prices of targets
    out of other pairs, and leaves the served prices in Redis. A bucket, the
    minute that closed last, is decided by the first tick that sees it closed:
    read, filtered, priced, compared, and then published or refused; later ticks
    of the same minute replay what was decided.

    The state of the orchestrator is the record [agg]; the freeze part of it is
    [orch] of [FreezeControl]. The keys of Redis that hold served prices are a
    map from the kind of a key, the pair and the window in seconds to a body
    with its expiry; bodies are kept as values, not as text. What a tick reads
    from elsewhere is the record [inputs]; the wall clock that composites are
    stamped with is the clock of the tick. The pass of the divergence
    service, which only reads what a tick served, is in [Divergence]; the
    contributions table, gauges and log lines are left out. *)

From S2P Require Import Prelude GoLib Float64 Rounding Amount Asset Alias Trade RobustStat Window Proxy Outliers Router Sources Render WindowFetch.
From S2P Require Import Confidence Baseline Anomaly Freeze FreezeStore FreezeControl PriceGuard Evidence.

(** ** Windows *)

Definition DefaultWindows : list Duration := [5 * Minute; Hour; 24 * Hour].

Fixpoint compact (l : list Duration) : list Duration :=
  match l with
  | a :: ((b :: _) as rest) => if a =? b then compact rest else a :: compact rest
  | _ => l
  end.

Definition normalizeWindows (ws : list Duration) : list Duration := compact (isort Z.leb (List.filter (fun w => 0 <? w) ws)).
Definition effectiveWindows (ws : list Duration) : list Duration := match normalizeWindows ws with [] => DefaultWindows | out => out end.
Definition LongestWindow (ws : list Duration) : Duration := List.last (effectiveWindows ws) 0.
Definition ShortestWindow (ws : list Duration) : Duration := hd 0 (effectiveWindows ws).

(** ** Served keys (cachekeys/keys.go) *)

Inductive served_kind := KValue | KProvenance | KObservedAt | KCoverage | KMeta | KConfidence.
#[export] Instance served_kind_eq_dec : EqDecision served_kind.
Proof. solve_decision. Defined.
#[export] Instance served_kind_countable : Countable served_kind.
Proof.
  refine (inj_countable' (fun k => match k with KValue => 0 | KProvenance => 1 | KObservedAt => 2 | KCoverage => 3 | KMeta => 4 | KConfidence => 5 end)
    (fun n => match n with 0 => KValue | 1 => KProvenance | 2 => KObservedAt | 3 => KCoverage | 4 => KMeta | _ => KConfidence end) _).
  by intros [].
Defined.

Definition VWAPMaxAge : Duration := 5 * Minute.
Definition VWAPTTLWithMaxAge (window maxAge : Duration) : Duration := if (window <=? 0) || (window <? maxAge) then window else maxAge.

(** The parts of [vwap:base:quote:seconds] and its siblings. *)
Definition served_key : Type := served_kind * (string * string * Z).
Definition key_of (k : served_kind) (pair : Pair) (window : Duration) : served_key :=
  (k, (Asset_String (Base pair), Asset_String (Quote pair), Z.quot window Second)).

Record compositeMeta := mkMetaC {
  m_ServedRouteCount : Z; m_PathCount : Z; m_CorroborationCount : Z; m_CombinedConfidence : float64;
  m_LowConfidence : bool; m_Diverged : bool; m_Rerouted : bool; m_CorroborationBasis : string; m_CompositeLegSources : gmap string Z;
  m_PivotProxyShare : gmap string float64; m_PivotSurfaceRefusal : option (string * cause); m_PivotUnverified : bool
}.

Inductive served_body :=
| BValue (s : string) | BTriangulated | BObservedAt (t : Time) | BCoverage (c : WindowCoverage) | BMeta (m : compositeMeta) | BScore (s : Score).

(** A body and the moment it expires. *)
Abbreviation ServedCache := (gmap served_key (served_body * Time)).

Definition served_get (c : ServedCache) (now : Time) (k : served_key) : option served_body :=
  match c !! k with Some (b, e) => if now <? e then Some b else None | None => None end.
Definition served_set (k : served_key) (b : served_body) (e : Time) (c : ServedCache) : ServedCache := <[k := (b, e)]> c.
(** A key that has expired is gone. *)
Definition served_expire (now : Time) (k : served_key) (e : Time) (c : ServedCache) : ServedCache :=
  match served_get c now k with Some b => <[k := (b, e)]> c | None => c end.
Definition served_set_nx (now : Time) (k : served_key) (b : served_body) (e : Time) (c : ServedCache) : ServedCache :=
  match served_get c now k with Some _ => c | None => <[k := (b, e)]> c end.

(** ** The state *)

Abbreviation key := (string * Duration)%type.
Definition stateKey (pair : Pair) (window : Duration) : key := (Pair_String pair, window).

Record publishedBucket := mkPublished { pb_value : string; pb_coverage : WindowCoverage; pb_score : option Score; pb_edge : QuoteObs; pb_leg : legRef }.
Record decidedBucket := mkDecided { db_end : Time; db_published : option publishedBucket; db_frozen : bool; db_reading : option Reading }.
Record heldDirect := mkHeld { hd_pair : Pair; hd_window : Duration; hd_pub : publishedBucket; hd_bucketEnd : Time; hd_now : Time }.

(** The last published price: [prevVWAPs], [prevVWAPAt] and
    [prevVWAPBucketEnd], which are written and deleted together. *)
Record comparator := mkComparator { cp_vwap : Q; cp_at : Time; cp_bucketEnd : Time }.

Inductive stream_event :=
| ClosedBucket (k : key) (value : string) (bucketEnd : Time) (coverage : option WindowCoverage)
| FrozenBucket (k : key) (bucketEnd frozenSince : Time).

Section Tick.
Context {C D : Type} `{RedisCache C} `{LadderDB D} `{Strkey} `{FloatText} `{MathLib} `{RatText}.

Record agg := mkAgg {
  a_freeze : orch (C := C) (D := D);
  comparators : gmap key comparator;
  prevVWAPCoverage : gmap key WindowCoverage;
  frozenPrevVWAPs : gmap key Q;
  scoredMinutes : gmap key minuteVWAP;
  lastWriteAt : gmap string Time;
  decidedBuckets : gmap key decidedBucket;
  heldDirects : gmap key heldDirect;
  streamedBuckets : gmap key Time;
  tickEdgeQuotes : gmap Duration (list QuoteObs);
  tickLegRefs : LegRefs;
  tickCompositeRefs : Readings;
  lastComposites : Samples;
  bootstrapReleased : gmap string bool;
  served : ServedCache;
  events : list stream_event
}.

Definition set_freeze (x : orch) (s : agg) : agg :=
  mkAgg x (comparators s) (prevVWAPCoverage s) (frozenPrevVWAPs s) (scoredMinutes s) (lastWriteAt s) (decidedBuckets s)
    (heldDirects s) (streamedBuckets s) (tickEdgeQuotes s) (tickLegRefs s) (tickCompositeRefs s) (lastComposites s)
    (bootstrapReleased s) (served s) (events s) .
Definition set_comparators (x : gmap key comparator) (y : gmap key WindowCoverage) (s : agg) : agg :=
  mkAgg (a_freeze s) x y (frozenPrevVWAPs s) (scoredMinutes s) (lastWriteAt s) (decidedBuckets s) (heldDirects s)
    (streamedBuckets s) (tickEdgeQuotes s) (tickLegRefs s) (tickCompositeRefs s) (lastComposites s) (bootstrapReleased s) (served s)
    (events s) .
Definition set_shadow (x : gmap key Q) (s : agg) : agg :=
  mkAgg (a_freeze s) (comparators s) (prevVWAPCoverage s) x (scoredMinutes s) (lastWriteAt s) (decidedBuckets s) (heldDirects s)
    (streamedBuckets s) (tickEdgeQuotes s) (tickLegRefs s) (tickCompositeRefs s) (lastComposites s) (bootstrapReleased s) (served s)
    (events s) .
Definition set_scored (x : gmap key minuteVWAP) (s : agg) : agg :=
  mkAgg (a_freeze s) (comparators s) (prevVWAPCoverage s) (frozenPrevVWAPs s) x (lastWriteAt s) (decidedBuckets s) (heldDirects s)
    (streamedBuckets s) (tickEdgeQuotes s) (tickLegRefs s) (tickCompositeRefs s) (lastComposites s) (bootstrapReleased s) (served s)
    (events s) .
Definition set_lastWrite (x : gmap string Time) (s : agg) : agg :=
  mkAgg (a_freeze s) (comparators s) (prevVWAPCoverage s) (frozenPrevVWAPs s) (scoredMinutes s) x (decidedBuckets s) (heldDirects s)
    (streamedBuckets s) (tickEdgeQuotes s) (tickLegRefs s) (tickCompositeRefs s) (lastComposites s) (bootstrapReleased s) (served s)
    (events s) .
Definition set_decided (x : gmap key decidedBucket) (s : agg) : agg :=
  mkAgg (a_freeze s) (comparators s) (prevVWAPCoverage s) (frozenPrevVWAPs s) (scoredMinutes s) (lastWriteAt s) x (heldDirects s)
    (streamedBuckets s) (tickEdgeQuotes s) (tickLegRefs s) (tickCompositeRefs s) (lastComposites s) (bootstrapReleased s) (served s)
    (events s) .
Definition set_held (x : gmap key heldDirect) (s : agg) : agg :=
  mkAgg (a_freeze s) (comparators s) (prevVWAPCoverage s) (frozenPrevVWAPs s) (scoredMinutes s) (lastWriteAt s) (decidedBuckets s) x
    (streamedBuckets s) (tickEdgeQuotes s) (tickLegRefs s) (tickCompositeRefs s) (lastComposites s) (bootstrapReleased s) (served s)
    (events s) .
Definition set_streamed (x : gmap key Time) (y : list stream_event) (s : agg) : agg :=
  mkAgg (a_freeze s) (comparators s) (prevVWAPCoverage s) (frozenPrevVWAPs s) (scoredMinutes s) (lastWriteAt s) (decidedBuckets s)
    (heldDirects s) x (tickEdgeQuotes s) (tickLegRefs s) (tickCompositeRefs s) (lastComposites s) (bootstrapReleased s) (served s) y.
Definition set_edges (x : gmap Duration (list QuoteObs)) (y : LegRefs) (s : agg) : agg :=
  mkAgg (a_freeze s) (comparators s) (prevVWAPCoverage s) (frozenPrevVWAPs s) (scoredMinutes s) (lastWriteAt s) (decidedBuckets s)
    (heldDirects s) (streamedBuckets s) x y (tickCompositeRefs s) (lastComposites s) (bootstrapReleased s) (served s) (events s) .
Definition set_readings (x : Readings) (s : agg) : agg :=
  mkAgg (a_freeze s) (comparators s) (prevVWAPCoverage s) (frozenPrevVWAPs s) (scoredMinutes s) (lastWriteAt s) (decidedBuckets s)
    (heldDirects s) (streamedBuckets s) (tickEdgeQuotes s) (tickLegRefs s) x (lastComposites s) (bootstrapReleased s) (served s)
    (events s) .
Definition set_samples (x : Samples) (s : agg) : agg :=
  mkAgg (a_freeze s) (comparators s) (prevVWAPCoverage s) (frozenPrevVWAPs s) (scoredMinutes s) (lastWriteAt s) (decidedBuckets s)
    (heldDirects s) (streamedBuckets s) (tickEdgeQuotes s) (tickLegRefs s) (tickCompositeRefs s) x (bootstrapReleased s) (served s)
    (events s) .
Definition set_released (x : gmap string bool) (s : agg) : agg :=
  mkAgg (a_freeze s) (comparators s) (prevVWAPCoverage s) (frozenPrevVWAPs s) (scoredMinutes s) (lastWriteAt s) (decidedBuckets s)
    (heldDirects s) (streamedBuckets s) (tickEdgeQuotes s) (tickLegRefs s) (tickCompositeRefs s) (lastComposites s) x (served s)
    (events s) .
Definition set_served (x : ServedCache) (s : agg) : agg :=
  mkAgg (a_freeze s) (comparators s) (prevVWAPCoverage s) (frozenPrevVWAPs s) (scoredMinutes s) (lastWriteAt s) (decidedBuckets s)
    (heldDirects s) (streamedBuckets s) (tickEdgeQuotes s) (tickLegRefs s) (tickCompositeRefs s) (lastComposites s)
    (bootstrapReleased s) x (events s) .

(** ** Configuration and inputs *)

Record AggConfig := mkAggConfig {
  ac_fetch : FetchConfig; ac_freeze : Config; ac_reference : CompositeReferenceConfig; Pairs : list Pair; Triangulations : list TriangulationChain;
  MaxHops : Z; MinRouteConfidence : float64; Interval : Duration; DivergenceMinSources : Z; hasStream : bool
}.

(** What a tick reads, and which of its calls to Redis fail: the pipelines that
    write a value, the writes of one key, the reads. *)
Record inputs := mkInputsT {
  in_store : Store; in_fx : FXRates; in_baselines : option (Pair -> option (MultiBaseline * Time)); in_cached : Pair -> option CachedResult;
  in_tx_fails : Pair -> Duration -> bool; in_set_fails : Pair -> Duration -> bool; in_get_fails : Pair -> Duration -> bool
}.

Definition DefaultMaxHops : Z := 3.
Definition maxRouterHops : Z := 4.
Definition clamp_hops (h : Z) : Z :=
  let h := if h =? 0 then DefaultMaxHops else h in
  let h := if h <? 2 then 2 else h in
  if maxRouterHops <? h then maxRouterHops else h.

(** What [New] makes of a configuration, and the state it starts with; the
    served keys are those of the process before. *)
Definition New_config (cfg : AggConfig) : AggConfig :=
  let f := ac_fetch cfg in
  let z := ac_freeze cfg in
  mkAggConfig
    (mkFetch (if MaxTradesPerWindow f <=? 0 then DefaultMaxTradesPerWindow else MaxTradesPerWindow f) (EnableStablecoinFiatProxy f) (USDPeggedClassicAssets f)
      (USDPeggedSorobanAssets f) (MinUSDVolume f) (OutlierSigmaThreshold f) (DisableClassFilter f) (ExcludedSources f) (cfgDecimals f) (FXMaxAge f))
    (mkConfig (hasFreezeWriter z) (hasWindowedFreeze z) (hasOverrideReader z) (effectiveWindows (Windows z)) (phase2 z) (ReleaseBandPct z) (cfgAnomaly z) (writer z))
    (ac_reference cfg) (Pairs cfg) (Triangulations cfg) (clamp_hops (MaxHops cfg)) (MinRouteConfidence cfg) (tickInterval (Interval cfg)) (DivergenceMinSources cfg) (hasStream cfg).

Definition New (w : world) (c : ServedCache) : agg := mkAgg (mkOrch ∅ ∅ w) ∅ ∅ ∅ ∅ ∅ ∅ ∅ ∅ ∅ ∅ ∅ ∅ ∅ c [].

Context (cfg : AggConfig) (g : globals) (env : inputs) (now : Time).

Definition vwapMaxAge : Duration := let derived := wraps 64 (10 * Interval cfg) in if VWAPMaxAge <? derived then derived else VWAPMaxAge.
Definition vwapTTL (window : Duration) : Duration := VWAPTTLWithMaxAge window vwapMaxAge.

(** ** The stream (stream.go) *)

Definition claimStreamBucket (pair : Pair) (window : Duration) (bucketEnd : Time) (s : agg) : bool :=
  match streamedBuckets s !! stateKey pair window with Some last => negb (time_Equal last bucketEnd) | None => true end.

(** An event that the publisher refuses is only counted. *)
Definition emit (pair : Pair) (window : Duration) (bucketEnd : Time) (ev : stream_event) (s : agg) : agg :=
  set_streamed (<[stateKey pair window := bucketEnd]> (streamedBuckets s)) (if hasStream cfg then events s ++ [ev] else events s) s.

Definition streamBucketOnce (pair : Pair) (window : Duration) (value : string) (bucketEnd : Time) (coverage : option WindowCoverage) (s : agg) : agg :=
  if negb (claimStreamBucket pair window bucketEnd s) then s
  else emit pair window bucketEnd (ClosedBucket (stateKey pair window) value bucketEnd coverage) s.

Definition streamFrozenOnce (pair : Pair) (window : Duration) (bucketEnd firedAt : Time) (s : agg) : agg :=
  if negb (hasStream cfg) || negb (claimStreamBucket pair window bucketEnd s) then s
  else emit pair window bucketEnd (FrozenBucket (stateKey pair window) bucketEnd (if time_IsZero firedAt then zero_time else time_Truncate firedAt closedBucket)) s.

(** ** Serving *)

Definition recordPairWrite (pair : Pair) (at_ : Time) (s : agg) : agg :=
  if time_IsZero at_ then s else set_lastWrite (<[Pair_String pair := at_]> (lastWriteAt s)) s.

Definition cacheConfidence (pair : Pair) (window : Duration) (score : Score) (s : agg) : agg :=
  if in_set_fails env pair window then s
  else set_served (served_set (key_of KConfidence pair window) (BScore score) (now + vwapTTL window) (served s)) s.

(** False when Redis refuses the write. *)
Definition serveDirect (pair : Pair) (window : Duration) (pub : publishedBucket) (bucketEnd at_ : Time) (s : agg) : agg * bool :=
  if in_tx_fails env pair window then (s, false)
  else
    let e := now + vwapTTL window in
    let c := delete (key_of KProvenance pair window) (served s) in
    let c := served_set (key_of KObservedAt pair window) (BObservedAt bucketEnd) e c in
    let c := served_set (key_of KCoverage pair window) (BCoverage (pb_coverage pub)) e c in
    let c := served_set (key_of KValue pair window) (BValue (pb_value pub)) e c in
    let s := set_served c s in
    let s := match pb_score pub with Some score => cacheConfidence pair window score s | None => s end in
    let s := recordPairWrite pair at_ s in
    (streamBucketOnce pair window (pb_value pub) bucketEnd (Some (pb_coverage pub)) s, true).

Definition isTriangulationTarget (pair : Pair) : bool := existsb (fun t => Pair_Equal (Target t) pair) (Triangulations cfg).

Definition appendTickEdgeQuote (window : Duration) (q : QuoteObs) (edges : gmap Duration (list QuoteObs)) : gmap Duration (list QuoteObs) :=
  <[window := default [] (edges !! window) ++ [q]]> edges.

Definition publishDirect (pair : Pair) (window : Duration) (pub : publishedBucket) (bucketEnd : Time) (s : agg) : agg * bool :=
  let '(s, ok) := if isTriangulationTarget pair
                  then (set_held (<[stateKey pair window := mkHeld pair window pub bucketEnd now]> (heldDirects s)) s, true)
                  else serveDirect pair window pub bucketEnd now s in
  if negb ok then (s, false)
  else (set_edges (appendTickEdgeQuote window (pb_edge pub) (tickEdgeQuotes s)) (setTickLegRef pair window (pb_leg pub) (tickLegRefs s)) s, true).

Definition settleDirect (pair : Pair) (window : Duration) (compositeServed : bool) (s : agg) : agg :=
  let k := stateKey pair window in
  match heldDirects s !! k with
  | None => s
  | Some h =>
      let s := set_held (delete k (heldDirects s)) s in
      if compositeServed then match pb_score (hd_pub h) with Some score => cacheConfidence pair window score s | None => s end
      else fst (serveDirect (hd_pair h) (hd_window h) (hd_pub h) (hd_bucketEnd h) (hd_now h) s)
  end.

(** [ended]: the context of the tick is over. *)
Definition flushHeldDirect (ended : bool) (s : agg) : agg :=
  foldl (fun s (x : key * heldDirect) =>
    if ended then set_held (delete (stateKey (hd_pair x.2) (hd_window x.2)) (heldDirects s)) s
    else settleDirect (hd_pair x.2) (hd_window x.2) false s) s (map_to_list (heldDirects s)).

(** ** Holding a frozen price (phase2_freeze.go) *)

Definition hold_ttl (ttl : Duration) : Duration := if ttl <=? 0 then FreezeTTL else ttl.

Definition keepFrozenVWAPAlive (pair : Pair) (window ttl : Duration) (s : agg) : agg :=
  if in_tx_fails env pair window then s
  else set_served (foldl (fun c k => served_expire now (key_of k pair window) (now + hold_ttl ttl) c) (served s)
                     [KValue; KObservedAt; KProvenance; KMeta; KCoverage; KConfidence]) s.

Definition reseedFrozenVWAP (pair : Pair) (window ttl : Duration) (s : agg) : agg :=
  match comparators s !! stateKey pair window with
  | None => s
  | Some held =>
      if in_tx_fails env pair window then s
      else
        let e := now + hold_ttl ttl in
        let c := served_set_nx now (key_of KObservedAt pair window) (BObservedAt (cp_bucketEnd held)) e (served s) in
        set_served (match served_get c now (key_of KValue pair window) with
                    | Some _ => c
                    | None =>
                        let c := served_set (key_of KValue pair window) (BValue (formatRatFixed (cp_vwap held) 12)) e c in
                        match prevVWAPCoverage s !! stateKey pair window with
                        | Some cov => served_set (key_of KCoverage pair window) (BCoverage cov) e c
                        | None => delete (key_of KCoverage pair window) c
                        end
                    end) s
  end.

Definition frozenValue (pair : Pair) (window : Duration) (s : agg) : string :=
  match comparators s !! stateKey pair window with Some c => formatRatFixed (cp_vwap c) 12 | None => "" end.

(** The marker's lifetime when the step engages a freeze. *)
Definition engaged_ttl (pair : Pair) (window : Duration) (sig : Signal) (o : orch) : option Duration :=
  match snd (loadFreezeState (ac_freeze cfg) now pair window o) with
  | Ok (prev, false) => let out := Evaluate (Lifecycle (phase2 (ac_freeze cfg))) prev sig in if Frozen out then Some (MarkerTTL out) else None
  | _ => None
  end.

(** The rest of [engageFreeze]: the price that stays in the cache. *)
Definition hold_served (pair : Pair) (window : Duration) (sig : Signal) (before : orch) (s : agg) : agg :=
  match engaged_ttl pair window sig before with
  | None => s
  | Some ttl => reseedFrozenVWAP pair window ttl (keepFrozenVWAPAlive pair window ttl s)
  end.

Definition unscored_signal : Signal := mkSignal now false false f64_zero f64_zero false false.
Definition phase1_signal : Signal := mkSignal now true false f64_zero f64_zero false false.

Definition unpriced (pair : Pair) (window : Duration) (s : agg) : agg :=
  let k := stateKey pair window in
  let step := match freezeStates (a_freeze s) !! k with Some st => Active st | None => true end in
  let o := unpricedBucket (ac_freeze cfg) g now pair window (frozenValue pair window s) (a_freeze s) in
  if step then hold_served pair window unscored_signal (a_freeze s) (set_freeze o s) else set_freeze o s.

(** True when the bucket may go on. *)
Definition phase1 (pair : Pair) (window : Duration) (step : priceStep) (sources : Z) (s : agg) : agg * bool :=
  let '(o, (_, ok)) := evaluateAndMaybeFreeze (ac_freeze cfg) g now pair window (frozenValue pair window s) (st_prev step) (st_curr step) sources (a_freeze s) in
  if ok then (set_freeze o s, true) else (hold_served pair window phase1_signal (a_freeze s) (set_freeze o s), false).

(** True when the bucket is refused. *)
Definition phase2_step (pair : Pair) (window : Duration) (conf : option confidenceComputation) (sources : Z) (vwap : Q) (ref : compositeReference) (s : agg) : agg * bool :=
  let '(o, refused) := stepPhase2Freeze (ac_freeze cfg) g now pair window (frozenValue pair window s) conf sources vwap ref (a_freeze s) in
  let sig := phase2_signal (phase2 (ac_freeze cfg)) (ReleaseBandPct (ac_freeze cfg)) now conf sources vwap ref in
  if refused then (hold_served pair window sig (a_freeze s) (set_freeze o s), true) else (set_freeze o s, false).

(** ** Deciding a bucket *)

Definition outlierOptions (weights : WindowFetch.Weights) : LocalOutlierOptions :=
  mkOpts (OutlierSigmaThreshold (ac_fetch cfg)) 0 0 0 (if (size weights =? 0)%nat then None else Some (fun t => tradeWeight t weights)) (Some amountScaleDecimalsFor).

(** The trades that a price is made of. *)
Definition survivors (f : Fetched) : list Trade :=
  let trades := dropExcludedSources (f_trades f) (ExcludedSources (ac_fetch cfg)) in
  let trades := if DisableClassFilter (ac_fetch cfg) then trades else filterForVWAP trades in
  let trades := dropUnpriceable trades in
  if f64_lt f64_zero (OutlierSigmaThreshold (ac_fetch cfg)) then FilterOutliersLocal trades (outlierOptions (f_weights f)) else trades.

Definition edgeConfidence (conf : option confidenceComputation) (trades : list Trade) : float64 :=
  match conf with
  | Some c => Confidence.Confidence (ccScore c)
  | None => let n := SourceCountFactor (distinctSourceCount trades) in if f64_lt BootstrapConfidenceCap n then BootstrapConfidenceCap else n
  end.

Definition newEdgeQuote (pair : Pair) (vwap : Q) (conf : option confidenceComputation) (trades : list Trade) : QuoteObs :=
  mkQuoteObs pair (Some vwap) (edgeConfidence conf trades) [].

Definition setComparator (k : key) (vwap : Q) (bucketEnd : Time) (coverage : WindowCoverage) (s : agg) : agg :=
  set_comparators (<[k := mkComparator vwap now bucketEnd]> (comparators s)) (<[k := coverage]> (prevVWAPCoverage s)) s.

Definition ageComparator (k : key) (s : agg) : agg :=
  match comparators s !! k with
  | None => s
  | Some c =>
      if Active (state_of (a_freeze s) k) || (time_Sub now (cp_at c) <=? vwapMaxAge) then s
      else set_comparators (delete k (comparators s)) (delete k (prevVWAPCoverage s)) s
  end.

Definition nothing_read : compositeReference := mkCompositeRef VerdictNone None.

(** The reading of the composite, for a pair with one venue. *)
Definition composite_step (pair : Pair) (window : Duration) (trades : list Trade) (vwap : Q) (s : agg) : agg * compositeReference :=
  if compositeReferenceEligible (ac_reference cfg) (phase2 (ac_freeze cfg)) pair trades then
    let r := resolveCompositeReference (ac_fetch cfg) (ac_reference cfg) (Triangulations cfg) (in_fx env) (tickLegRefs s) pair window now vwap in
    (set_readings (<[stateKey pair window := r]> (tickCompositeRefs s)) s, rd_ref r)
  else (s, nothing_read).

Definition confidence_step (pair : Pair) (window : Duration) (trades : list Trade) (vwap : Q) (rets : list float64) (s : agg) : agg * option confidenceComputation :=
  let '(conf, released) := computeConfidence (Interval cfg) (DivergenceMinSources cfg) (in_baselines env) (in_cached env) (tickCompositeRefs s) (lastComposites s)
                             pair window vwap rets trades now now (bootstrapReleased s) in
  (set_released released s, conf).

(** A bucket with a price: scored, and published unless a phase refuses it.
    [Err] when Redis refuses the write. *)
Definition decidePriced (pair : Pair) (window : Duration) (bucketEnd : Time) (f : Fetched) (trades : list Trade) (vwap : Q) (s : agg) : agg * res unit (option publishedBucket) :=
  let k := stateKey pair window in
  let '(mb, scored) := scoreMinutes (ac_fetch cfg) pair trades (scoredMinutes s !! k) vwap in
  let s := match scored with Some m => set_scored (<[k := m]> (scoredMinutes s)) s | None => s end in
  let prev := option_map cp_vwap (comparators s !! k) in
  let '(s, ok) := phase1 pair window (worstStep mb prev) (distinctSourceCount trades) s in
  if negb ok then (s, Ok None)
  else
    let prevForConfidence := match frozenPrevVWAPs s !! k with Some shadow => Some shadow | None => prev end in
    let '(s, ref) := composite_step pair window trades vwap s in
    let '(s, conf) := confidence_step pair window trades vwap (returns mb prevForConfidence) s in
    let '(s, refused) := phase2_step pair window conf (distinctSourceCount trades) vwap ref s in
    if refused then (set_shadow (<[k := vwap]> (frozenPrevVWAPs s)) s, Ok None)
    else
      let s := set_shadow (delete k (frozenPrevVWAPs s)) s in
      let pub := mkPublished (formatRatFixed vwap 12) (f_coverage f) (option_map ccScore conf) (newEdgeQuote pair vwap conf trades)
                   (newLegRef (ac_fetch cfg) pair vwap trades (f_proxied f)) in
      let '(s, ok) := publishDirect pair window pub bucketEnd s in
      if negb ok then (s, Err tt) else (setComparator k vwap bucketEnd (f_coverage f) s, Ok (Some pub)).

Definition decideBucket (pair : Pair) (window : Duration) (bucketEnd : Time) (s : agg) : agg * res unit (option publishedBucket) :=
  match fetchForTarget (ac_fetch cfg) (in_store env) pair (time_Add bucketEnd (- window)) bucketEnd with
  | None => (s, Err tt)
  | Some f =>
      let trades := survivors f in
      if (length trades =? 0)%nat then (unpriced pair window s, Ok None)
      else if dropForMinUSDVolume (ac_fetch cfg) (in_fx env) pair trades (survivorUSDVolume trades (f_usd f)) now then (unpriced pair window s, Ok None)
      else match computeNormalizedVWAP (ac_fetch cfg) trades pair with
           | Err ErrNoTrades => (unpriced pair window s, Ok None)
           | Err _ => (s, Err tt)
           | Ok vwap => decidePriced pair window bucketEnd f trades vwap s
           end
  end.

Definition markFrozenThisTick (k : key) (s : agg) : agg :=
  set_freeze (mkOrch (freezeStates (a_freeze s)) ({[ k ]} ∪ frozenThisTick (a_freeze s)) (wld (a_freeze s))) s.

Definition replayDecidedBucket (pair : Pair) (window : Duration) (d : decidedBucket) (s : agg) : agg * bool :=
  let k := stateKey pair window in
  let s := if db_frozen d then markFrozenThisTick k s else s in
  let s := match db_reading d with Some r => set_readings (<[k := r]> (tickCompositeRefs s)) s | None => s end in
  match db_published d with
  | None => (s, true)
  | Some pub => publishDirect pair window pub (db_end d) s
  end.

(** The first tick that sees the bucket. An error leaves it undecided. *)
Definition refresh_fresh (pair : Pair) (window : Duration) (bucketEnd : Time) (s : agg) : agg * bool :=
  let k := stateKey pair window in
  let '(s, r) := decideBucket pair window bucketEnd (ageComparator k s) in
  match r with
  | Err _ => (s, false)
  | Ok pub =>
      let frozen := bool_decide (k ∈ frozenThisTick (a_freeze s)) in
      let s := if frozen && negb (bool_decide (is_Some pub)) then streamFrozenOnce pair window bucketEnd (FiredAt (state_of (a_freeze s) k)) s else s in
      (set_decided (<[k := mkDecided bucketEnd pub frozen (tickCompositeRefs s !! k)]> (decidedBuckets s)) s, true)
  end.

(** False on an error. *)
Definition refreshPairWindow (pair : Pair) (window : Duration) (s : agg) : agg * bool :=
  let bucketEnd := time_Truncate now closedBucket in
  let k := stateKey pair window in
  match decidedBuckets s !! k with
  | Some prior =>
      if time_Equal (db_end prior) bucketEnd then replayDecidedBucket pair window prior s
      else refresh_fresh pair window bucketEnd s
  | None => refresh_fresh pair window bucketEnd s
  end.

(** ** Triangulation (triangulate.go) *)

Inductive outcome := OutcomeOk | OutcomeFrozenLeg | OutcomeFrozenLegDirectServed | OutcomeStaleLeg | OutcomeMissingLeg | OutcomeRedisError | OutcomeParseError
| OutcomeLowConfidence | OutcomeProxyPivot.

Record chainLegStatus := mkLegStatus { ls_frozen : bool; ls_hardErr : option outcome; ls_legDry : bool }.

Definition legEdgeConfidence : float64 := f64_one.
Definition cachedLegConfidence : float64 := BootstrapConfidenceCap.
Definition legConfidence (leg : Pair) : float64 := if isFXLeg leg then legEdgeConfidence else cachedLegConfidence.

Definition tickEdgePrice (pair : Pair) (window : Duration) (s : agg) : option Q :=
  match List.find (fun q => Pair_Equal (q_Pair q) pair) (default [] (tickEdgeQuotes s !! window)) with Some q => q_Price q | None => None end.

Definition fxLegProvenance (leg : Pair) : list string :=
  (if String.eqb (Code (Base leg)) "USD" then [] else ["fx:" +:+ Code (Base leg)]) ++ (if String.eqb (Code (Quote leg)) "USD" then [] else ["fx:" +:+ Code (Quote leg)]).

Definition legPriceFromCache (leg : Pair) (window : Duration) (s : agg) : Q + outcome :=
  if frozenLeg (ac_freeze cfg) now leg window (a_freeze s) then inr OutcomeFrozenLeg
  else if containsPair (Pairs cfg) leg then match tickEdgePrice leg window s with Some p => inl p | None => inr OutcomeStaleLeg end
  else if in_get_fails env leg window then inr OutcomeRedisError
  else match served_get (served s) now (key_of KValue leg window) with
       | None => inr OutcomeMissingLeg
       | Some (BValue raw) => match Rat_SetString raw with
                              | None => inr OutcomeParseError
                              | Some p => if Qle_bool p 0 then inr OutcomeMissingLeg else inl p
                              end
       | Some _ => inr OutcomeParseError
       end.

Definition legPrice (leg : Pair) (window : Duration) (bucketEnd : Time) (s : agg) : (option Q * list string) + outcome :=
  let fallback := match legPriceFromCache leg window s with inl p => inl (Some p, []) | inr o => inr o end in
  if isFXLeg leg then
    match in_fx env with
    | None => fallback
    | Some fxQuoteAtOrBefore =>
        match fxQuoteAtOrBefore leg bucketEnd with
        | FXQuote price observedAt source => if fxSnapRejection now observedAt source (fx_max_age (ac_fetch cfg)) then fallback else inl (price, fxLegProvenance leg)
        | FXMissing => fallback
        | FXFailed => inr OutcomeRedisError
        end
    end
  else fallback.

(** One leg after another into the map of quotes by pair. *)
Fixpoint resolve_legs (legs : list Pair) (window : Duration) (bucketEnd : Time) (s : agg) (quotes : gmap string QuoteObs) (st : chainLegStatus)
    : gmap string QuoteObs * chainLegStatus :=
  match legs with
  | [] => (quotes, st)
  | leg :: legs =>
      let '(quotes, st) :=
        match legPrice leg window bucketEnd s with
        | inl (price, provenance) =>
            (match quotes !! Pair_String leg with Some _ => quotes | None => <[Pair_String leg := mkQuoteObs leg price (legConfidence leg) provenance]> quotes end, st)
        | inr OutcomeFrozenLeg => (quotes, mkLegStatus true (ls_hardErr st) (ls_legDry st))
        | inr OutcomeRedisError => (quotes, mkLegStatus (ls_frozen st) (Some OutcomeRedisError) (ls_legDry st))
        | inr OutcomeParseError => (quotes, mkLegStatus (ls_frozen st) (Some OutcomeParseError) (ls_legDry st))
        | inr OutcomeMissingLeg | inr OutcomeStaleLeg => (quotes, mkLegStatus (ls_frozen st) (ls_hardErr st) true)
        | inr _ => (quotes, st)
        end in
      resolve_legs legs window bucketEnd s quotes st
  end.

Definition resolveChainLegs (chain : TriangulationChain) (window : Duration) (bucketEnd : Time) (s : agg) (quotes : gmap string QuoteObs) : gmap string QuoteObs * chainLegStatus :=
  resolve_legs (Legs chain) window bucketEnd s quotes (mkLegStatus false None false).

Fixpoint resolve_chains (chains : list TriangulationChain) (window : Duration) (bucketEnd : Time) (s : agg) (quotes : gmap string QuoteObs)
    : gmap string QuoteObs * list chainLegStatus :=
  match chains with
  | [] => (quotes, [])
  | chain :: chains =>
      let '(quotes, st) := resolveChainLegs chain window bucketEnd s quotes in
      let '(quotes, sts) := resolve_chains chains window bucketEnd s quotes in (quotes, st :: sts)
  end.

Definition buildWindowEdges (window : Duration) (bucketEnd : Time) (s : agg) : list RouteLeg * list chainLegStatus :=
  let own := foldl (fun m q => <[Pair_String (q_Pair q) := q]> m) ∅ (default [] (tickEdgeQuotes s !! window)) in
  let '(quotes, status) := resolve_chains (Triangulations cfg) window bucketEnd s own in
  (match BuildEdges (map snd (map_to_list quotes)) with Ok edges => edges | Err _ => [] end, status).

Definition excludeDirectEdge (edges : list RouteLeg) (target : Pair) : list RouteLeg :=
  List.filter (fun e => negb ((Asset_Equal (From_ e) (Base target) && Asset_Equal (To_ e) (Quote target)) || (Asset_Equal (From_ e) (Quote target) && Asset_Equal (To_ e) (Base target)))) edges.

(** The shares of stablecoin prints by leg, the first leg whose stablecoin
    prints and own prints disagree, and whether a leg has no own prints. *)
Definition pivotComposition (chain : TriangulationChain) (window : Duration) (s : agg) : gmap string float64 * option (string * cause) * bool :=
  let maxBps := LegDispersionBps (ref_withDefaults (ac_reference cfg)) in
  foldl (fun (acc : gmap string float64 * option (string * cause) * bool) leg =>
    let '(shares, refusal, unverified) := acc in
    match tickLegRefs s !! (window, Pair_String leg) with
    | None => acc
    | Some lr =>
        if isFXLeg leg || f64_le (lr_proxyShare lr) f64_zero then acc
        else (<[Pair_String leg := lr_proxyShare lr]> shares,
              match refusal with Some _ => refusal | None => option_map (fun why => (Pair_String leg, why)) (quoteSurfaceRefusal lr maxBps) end,
              unverified || (negb (bool_decide (is_Some (lr_surfaceDivergence lr))) && negb (lr_surfaceUncomputable lr)))
    end) (∅, None, false) (Legs chain).

Definition corroborationBasisComposite : string := "composite".
Definition corroborationBasisVenue : string := "venue".
Definition basis (r : Reading) : string :=
  match FreezeControl.verdict (rd_ref r) with compositeVerdictCorroborated => corroborationBasisComposite | _ => corroborationBasisVenue end.

Definition withCorroborationBasis (target : Pair) (window : Duration) (m : compositeMeta) (s : agg) : compositeMeta :=
  match tickCompositeRefs s !! stateKey target window with
  | None => m
  | Some r => mkMetaC (m_ServedRouteCount m) (m_PathCount m) (m_CorroborationCount m) (m_CombinedConfidence m) (m_LowConfidence m) (m_Diverged m) (m_Rerouted m)
                (basis r) (if (size (rd_legSources r) =? 0)%nat then m_CompositeLegSources m else rd_legSources r) (m_PivotProxyShare m) (m_PivotSurfaceRefusal m) (m_PivotUnverified m)
  end.

Definition with_pivot (shares : gmap string float64) (refusal : option (string * cause)) (unverified : bool) (m : compositeMeta) : compositeMeta :=
  mkMetaC (m_ServedRouteCount m) (m_PathCount m) (m_CorroborationCount m) (m_CombinedConfidence m) (m_LowConfidence m) (m_Diverged m) (m_Rerouted m)
    (m_CorroborationBasis m) (m_CompositeLegSources m) shares refusal unverified.

Definition withPivotComposition (chain : TriangulationChain) (window : Duration) (m : compositeMeta) (s : agg) : compositeMeta :=
  let '(shares, _, unverified) := pivotComposition chain window s in with_pivot shares (m_PivotSurfaceRefusal m) unverified m.

Definition writeCompositeMeta (target : Pair) (window : Duration) (m : compositeMeta) (s : agg) : agg :=
  if in_set_fails env target window then s
  else set_served (served_set (key_of KMeta target window) (BMeta (withCorroborationBasis target window m s)) (now + vwapTTL window) (served s)) s.

Definition plain_meta (r : combined) (corroboration : Z) (low rerouted : bool) : compositeMeta :=
  mkMetaC (Z.of_nat (servedRouteCount r)) (Z.of_nat (pathCount r)) corroboration (combinedConfidence r) low (diverged r) rerouted "" ∅ ∅ None false.

Definition refuseProxyPivot (chain : TriangulationChain) (window : Duration) (m : compositeMeta) (s : agg) : agg * bool :=
  let '(shares, refusal, _) := pivotComposition chain window s in
  match refusal with
  | None => (s, false)
  | Some _ => (writeCompositeMeta (Target chain) window (with_pivot shares refusal (m_PivotUnverified m) m) s, true)
  end.

Definition publishComposite (chain : TriangulationChain) (window : Duration) (comp : Q) (r : combined) (rerouted : bool) (s : agg) : agg * outcome :=
  let target := Target chain in
  let value := formatRatFixed comp 12 in
  if Qlt_b 0 comp && match Rat_SetString value with Some p => Qle_bool p 0 | None => true end then (s, OutcomeParseError)
  else if in_tx_fails env target window then (s, OutcomeRedisError)
  else
    let e := now + vwapTTL window in
    let bucketEnd := time_Truncate now closedBucket in
    let meta := withPivotComposition chain window (withCorroborationBasis target window (plain_meta r (Z.of_nat (corroborationCount r)) false rerouted) s) s in
    let c := served_set (key_of KMeta target window) (BMeta meta) e (served s) in
    let c := served_set (key_of KProvenance target window) BTriangulated e c in
    let c := served_set (key_of KObservedAt target window) (BObservedAt bucketEnd) e c in
    let c := delete (key_of KCoverage target window) c in
    let c := served_set (key_of KValue target window) (BValue value) e c in
    let s := set_served c s in
    let s := set_comparators (comparators s) (delete (stateKey target window) (prevVWAPCoverage s)) s in
    let s := streamBucketOnce target window value bucketEnd None s in
    let s := recordPairWrite target now s in
    (set_samples (recordComposite target window (Some comp) now (Z.of_nat (corroborationCount r)) (combinedConfidence r) (diverged r) (lastComposites s)) s, OutcomeOk).

Definition inheritLegFreeze (chain : TriangulationChain) (window : Duration) (s : agg) : agg :=
  let target := Target chain in
  let s := settleDirect target window false s in
  let s := keepFrozenVWAPAlive target window FreezeTTL s in
  let s := streamFrozenOnce target window (time_Truncate now closedBucket) zero_time s in
  if negb (hasFreezeWriter (ac_freeze cfg)) then s
  else
    let fv := if in_get_fails env target window then "" else match served_get (served s) now (key_of KValue target window) with Some (BValue v) => v | _ => "" end in
    let decision := mkDecision ActionFreeze (classOf (ac_freeze cfg) g target) zero_Thresholds f64_zero (OtherReason "triangulation:leg_frozen") in
    set_freeze (set_world (a_freeze s) (fst (Mark (writer (ac_freeze cfg)) (Base target) (Quote target) now false fv decision (wld (a_freeze s))))) s.

Definition routeTarget (chain : TriangulationChain) (window : Duration) (edges : list RouteLeg) (st : chainLegStatus) (s : agg) : agg * outcome :=
  match ls_hardErr st with
  | Some o => (s, o)
  | None =>
      let target := Target chain in
      match CombineRoutes (excludeDirectEdge edges target) (Base target) (Quote target) (MaxHops cfg) (MinRouteConfidence cfg) with
      | Err ErrNoRoute =>
          if ls_frozen st then
            match tickEdgePrice target window s with
            | Some _ => (s, OutcomeFrozenLegDirectServed)
            | None => (inheritLegFreeze chain window s, OutcomeFrozenLeg)
            end
          else (s, OutcomeMissingLeg)
      | Err _ => (s, OutcomeParseError)
      | Ok r =>
          let rerouted := ls_legDry st || ls_frozen st in
          if frozenLeg (ac_freeze cfg) now target window (a_freeze s) then (writeCompositeMeta target window (plain_meta r 0 (lowConfidence r) rerouted) s, OutcomeFrozenLeg)
          else if lowConfidence r || (rerouted && negb (ClearsRouteTrustFloor (combinedConfidence r)))
          then (writeCompositeMeta target window (plain_meta r 0 true rerouted) s, OutcomeLowConfidence)
          else
            let '(s, refused) := refuseProxyPivot chain window (plain_meta r 0 false rerouted) s in
            if refused then (s, OutcomeProxyPivot)
            else match composite r with
               | None => (s, OutcomeParseError)
               | Some comp => publishComposite chain window comp r rerouted s
               end
      end
  end.

Definition settle_target (window : Duration) (edges : list RouteLeg) (x : TriangulationChain * chainLegStatus) (s : agg) : agg :=
  let '(s, o) := routeTarget x.1 window edges x.2 s in
  settleDirect (Target x.1) window (match o with OutcomeOk => true | _ => false end) s.

Definition triangulateWindow (window : Duration) (s : agg) : agg :=
  let '(edges, status) := buildWindowEdges window (time_Truncate now window) s in
  foldl (fun s x => settle_target window edges x s) s (combine (Triangulations cfg) status).

(** [upto]: how many windows the deadline of the tick allows. *)
Definition triangulateAll (upto : option nat) (s : agg) : agg :=
  let windows := Windows (ac_freeze cfg) in
  match Triangulations cfg with [] => s | _ => foldl (fun s w => triangulateWindow w s) s (match upto with Some n => take n windows | None => windows end) end.

(** ** The tick *)

Definition start_tick (s : agg) : agg :=
  let s := set_freeze (mkOrch (freezeStates (a_freeze s)) ∅ (wld (a_freeze s))) s in
  set_held ∅ (set_readings ∅ (set_edges ∅ ∅ s)).

Definition refresh_jobs : list (Pair * Duration) :=
  flat_map (fun p => map (pair p) (Windows (ac_freeze cfg))) (refreshOrder (ac_reference cfg) (Triangulations cfg) (Pairs cfg)).

(** [done]: how many refreshes the deadline of the tick allows; the errors. *)
Definition refreshAllPairs (done : option nat) (s : agg) : agg * bool :=
  let jobs := match done with Some n => take n refresh_jobs | None => refresh_jobs end in
  foldl (fun (x : agg * bool) (job : Pair * Duration) => let '(s, ok) := refreshPairWindow job.1 job.2 x.1 in (s, x.2 || negb ok)) (s, false) jobs.

Definition stalenessXLMNative : string := "native".
Definition stalenessXLMTicker : string := "crypto:XLM".

Definition pairLastWrite (pair : Pair) (s : agg) : option Time :=
  let last := lastWriteAt s !! Pair_String pair in
  let base := Asset_String (Base pair) in
  let sibling := if String.eqb base stalenessXLMNative then Some stalenessXLMTicker else if String.eqb base stalenessXLMTicker then Some stalenessXLMNative else None in
  match sibling with
  | None => last
  | Some b => match lastWriteAt s !! (b +:+ "/" +:+ Asset_String (Quote pair)) with
              | Some other => if time_After other (default zero_time last) then Some other else last
              | None => last
              end
  end.

(** The first sighting of a pair counts as a write; the gauges read
    [pairLastWrite]. *)
Definition emitStalenessGauges (s : agg) : agg :=
  foldl (fun s p => match lastWriteAt s !! Pair_String p with Some _ => s | None => recordPairWrite p now s end) s (Pairs cfg).

(** [done] and [upto] as above; [late]: the deadline passed after them. A tick
    that the end of the process cuts short is left out. *)
Definition Tick (done upto : option nat) (late : bool) (s : agg) : agg :=
  let s := fst (refreshAllPairs done (start_tick s)) in
  let cut := match done with Some n => (n <? length refresh_jobs)%nat | None => false end in
  let s := if cut then s else triangulateAll upto s in
  let ended := late || cut || match upto with Some n => (n <? length (Windows (ac_freeze cfg)))%nat | None => false end in
  emitStalenessGauges (flushHeldDirect ended s).
End Tick.
