(* ===== verification/Publish.v ===== *)
(** * What a tick publishes

    Every operation of [Orchestrator] on a pair and a window leaves the entries
    of the others alone ([frame]). On top of that: a bucket is streamed once, a
    frozen price is never replaced, a decided bucket is not decided again, and
    a published price is that of a window that passed every gate. *)

From S2P Require Import Prelude GoLib Float64 Rounding Amount Asset Alias Trade RobustStat Window Proxy Outliers Router Sources Render WindowFetch.
From S2P Require Import Confidence Baseline Anomaly Freeze FreezeStore FreezeControl PriceGuard Evidence Orchestrator.

Lemma sorted_snoc {A} (R : A -> A -> Prop) l x : StronglySorted R l -> (forall y, y ∈ l -> R y x) -> StronglySorted R (l ++ [x]).
Proof.
  induction 1 as [|a l HS IH HF]; intros HR; cbn; [repeat constructor|]. constructor; [apply IH; intros y Hy; apply HR; by right|].
  apply Forall_app. split; [done|]. apply Forall_singleton, HR. by left.
Qed.

Section Freezing.
Context {C D : Type} `{RedisCache C} `{LadderDB D}.
Context (cfg : Config) (g : globals) (now : Time) (pair : Pair) (window : Duration).
Let k := (Pair_String pair, window).
Implicit Types o : orch (C := C) (D := D).

(** What a freeze step may change besides the stored markers: its own state,
    and its own mark when it refuses. *)
Definition freeze_frame (refused : bool) o o' : Prop :=
  (forall k', k' <> k -> freezeStates o' !! k' = freezeStates o !! k')
  /\ (frozenThisTick o' = frozenThisTick o \/ (refused = true /\ frozenThisTick o' = {[ k ]} ∪ frozenThisTick o)).

Lemma freeze_frame_refl r o : freeze_frame r o o.
Proof. split; [done|by left]. Qed.

Lemma load_frame o : freeze_frame false o (fst (loadFreezeState cfg now pair window o)).
Proof.
  unfold loadFreezeState. destruct (negb _); [apply freeze_frame_refl|]. destruct (freezeStates o !! _) as [st|].
  - destruct (Active st); [|apply freeze_frame_refl]. by destruct (LoadState _ _ _ _ _) as [[? [|]]|]; apply freeze_frame_refl.
  - destruct (loadMarkerState _ _ _ _ _) as [[m ok]|]; [|apply freeze_frame_refl]. split; [|by left]. intros k' Hk. unfold set_state. cbn. by apply lookup_insert_ne.
Qed.

Lemma release_frame prev tr o : freeze_frame false o (fst (releaseFreeze cfg now pair window prev tr o)).
Proof.
  assert (forall st, freeze_frame false o (set_state o k st)) as HS by (intros st; split; [intros k' Hk; by apply lookup_insert_ne|by left]).
  unfold releaseFreeze. destruct (negb (Active prev)); [apply HS|]. destruct (negb (hasFreezeWriter cfg)); [apply HS|].
  destruct (siblingWindowFrozen _ _ _ _); [by destruct (hasWindowedFreeze cfg); apply HS|]. unfold clearReleasedMarker. destruct (negb _); apply HS.
Qed.

Lemma freeze_frame_trans r o1 o2 o3 : freeze_frame false o1 o2 -> freeze_frame r o2 o3 -> freeze_frame r o1 o3.
Proof. intros [X1 [E1|[]]] [X2 E2]; [|done]. split; [intros k' Hk; by rewrite X2, X1|]. rewrite E1 in E2. done. Qed.

Lemma step_frame fv sig d o : let '(o', refused) := stepFreezeLifecycle cfg now pair window fv sig d o in freeze_frame refused o o'.
Proof.
  unfold stepFreezeLifecycle. pose proof (load_frame o) as HL. destruct (loadFreezeState cfg now pair window o) as [o1 [[prev [|]]|e]]; cbn [fst] in HL.
  - eapply freeze_frame_trans; [done|apply release_frame].
  - destruct (negb (Frozen _)); [eapply freeze_frame_trans; [done|apply release_frame]|]. eapply freeze_frame_trans; [done|]. unfold engageFreeze. split.
    + intros k' Hk. destruct (negb _); cbn; by apply lookup_insert_ne.
    + right. split; [done|]. by destruct (negb _).
  - destruct HL as [X1 [X2|[]]]; [|done]. split; [done|by left].
Qed.

Lemma phase2_frame fv conf n v ref o : let '(o', refused) := stepPhase2Freeze cfg g now pair window fv conf n v ref o in freeze_frame refused o o'.
Proof. apply step_frame. Qed.

Lemma unpriced_frame fv o : freeze_frame true o (unpricedBucket cfg g now pair window fv o).
Proof.
  assert (freeze_frame true o (fst (stepPhase2Freeze cfg g now pair window fv None 0 0 (mkCompositeRef VerdictNone None) o))) as HS.
  { pose proof (phase2_frame fv None 0 0 (mkCompositeRef VerdictNone None) o) as HP. destruct (stepPhase2Freeze _ _ _ _ _ _ _ _ _ _ _) as [o' r]. destruct HP as [X1 [X2|[_ X2]]]; split; auto. }
  unfold unpricedBucket. destruct (freezeStates o !! _) as [st|]; [|done]. destruct (Active st); [done|apply freeze_frame_refl].
Qed.

Lemma phase1_frame fv p c n o : let '(o', (_, ok)) := evaluateAndMaybeFreeze cfg g now pair window fv p c n o in freeze_frame (negb ok) o o'.
Proof.
  unfold evaluateAndMaybeFreeze. destruct (cfgAnomaly cfg); [|apply freeze_frame_refl]. destruct (Active _); [apply freeze_frame_refl|]. destruct (negb _); [apply freeze_frame_refl|].
  match goal with |- context [stepFreezeLifecycle cfg now pair window fv ?sig ?d o] => pose proof (step_frame fv sig d o) as HS; destruct (stepFreezeLifecycle cfg now pair window fv sig d o) as [o' r] end.
  by rewrite negb_involutive.
Qed.
End Freezing.

Section Ticks.
Context {C D : Type} `{RedisCache C} `{LadderDB D} `{Strkey} `{FloatText} `{MathLib} `{RatText}.
Context (cfg : AggConfig) (g : globals) (env : inputs) (now : Time).
Implicit Types s : agg (C := C) (D := D).

(** ** What an operation leaves alone *)

Definition place (p : Pair) (w : Duration) : string * string * Z := snd (key_of KValue p w).

Definition served_only (p : Pair) (w : Duration) (c c' : ServedCache) : Prop := forall q : served_key, q.2 <> place p w -> c' !! q = c !! q.

Lemma served_only_refl p w c : served_only p w c c.
Proof. by intros q. Qed.
Lemma served_only_trans p w a b c : served_only p w a b -> served_only p w b c -> served_only p w a c.
Proof. intros X Y q Hq. by rewrite Y, X. Qed.
Lemma served_only_insert p w kd b c : served_only p w c (<[key_of kd p w := b]> c).
Proof. intros q Hq. apply lookup_insert_ne. intros <-. by apply Hq. Qed.
Lemma served_only_delete p w kd c : served_only p w c (delete (key_of kd p w) c).
Proof. intros q Hq. apply lookup_delete_ne. intros <-. by apply Hq. Qed.
Lemma served_only_set p w kd b e c : served_only p w c (served_set (key_of kd p w) b e c).
Proof. apply served_only_insert. Qed.
Lemma served_only_expire p w kd t e c : served_only p w c (served_expire t (key_of kd p w) e c).
Proof. unfold served_expire. destruct (served_get _ _ _); [apply served_only_insert|apply served_only_refl]. Qed.
Lemma served_only_nx p w kd t b e c : served_only p w c (served_set_nx t (key_of kd p w) b e c).
Proof. unfold served_set_nx. destruct (served_get _ _ _); [apply served_only_refl|apply served_only_insert]. Qed.

Record frame (p : Pair) (w : Duration) s s' : Prop := {
  fr_comparators : forall k, k <> stateKey p w -> comparators s' !! k = comparators s !! k;
  fr_shadow : forall k, k <> stateKey p w -> frozenPrevVWAPs s' !! k = frozenPrevVWAPs s !! k;
  fr_scored : forall k, k <> stateKey p w -> scoredMinutes s' !! k = scoredMinutes s !! k;
  fr_decided : forall k, k <> stateKey p w -> decidedBuckets s' !! k = decidedBuckets s !! k;
  fr_held : forall k, k <> stateKey p w -> heldDirects s' !! k = heldDirects s !! k;
  fr_states : forall k, k <> stateKey p w -> freezeStates (a_freeze s') !! k = freezeStates (a_freeze s) !! k;
  fr_frozen : forall k, k <> stateKey p w -> (k ∈ frozenThisTick (a_freeze s') <-> k ∈ frozenThisTick (a_freeze s));
  fr_served : served_only p w (served s) (served s')
}.

Lemma frame_refl p w s : frame p w s s.
Proof. by split. Qed.

Lemma frame_trans p w s1 s2 s3 : frame p w s1 s2 -> frame p w s2 s3 -> frame p w s1 s3.
Proof.
  intros X Y. split; intros k Hk.
  - by rewrite (fr_comparators _ _ _ _ Y k Hk), (fr_comparators _ _ _ _ X k Hk).
  - by rewrite (fr_shadow _ _ _ _ Y k Hk), (fr_shadow _ _ _ _ X k Hk).
  - by rewrite (fr_scored _ _ _ _ Y k Hk), (fr_scored _ _ _ _ X k Hk).
  - by rewrite (fr_decided _ _ _ _ Y k Hk), (fr_decided _ _ _ _ X k Hk).
  - by rewrite (fr_held _ _ _ _ Y k Hk), (fr_held _ _ _ _ X k Hk).
  - by rewrite (fr_states _ _ _ _ Y k Hk), (fr_states _ _ _ _ X k Hk).
  - by rewrite (fr_frozen _ _ _ _ Y k Hk), (fr_frozen _ _ _ _ X k Hk).
  - by rewrite (fr_served _ _ _ _ Y k Hk), (fr_served _ _ _ _ X k Hk).
Qed.

(** The events of a stream, their market and their bucket. *)
Definition event_id (ev : stream_event) : key * Time := match ev with ClosedBucket k _ t _ => (k, t) | FrozenBucket k t _ => (k, t) end.

(** Events of one market are of ever later buckets. *)
Definition later (a b : stream_event) : Prop := (event_id a).1 = (event_id b).1 -> (event_id a).2 < (event_id b).2.

(** Nothing was streamed after [T], the events of a market are in the order of
    their buckets, and what is held is of the bucket [T]. *)
Record stream_ok (T : Time) s : Prop := {
  so_streamed : forall k t, streamedBuckets s !! k = Some t -> t <= T;
  so_events : forall ev, ev ∈ events s -> exists t, streamedBuckets s !! (event_id ev).1 = Some t /\ (event_id ev).2 <= t;
  so_order : StronglySorted later (events s);
  so_held : forall k h, heldDirects s !! k = Some h -> hd_bucketEnd h = T
}.

Definition streams_kept s s' : Prop := streamedBuckets s' = streamedBuckets s /\ events s' = events s /\ heldDirects s' = heldDirects s.

Lemma streams_kept_ok T s s' : streams_kept s s' -> stream_ok T s -> stream_ok T s'.
Proof. intros (E1 & E2 & E3) []. split; rewrite ?E1, ?E2, ?E3; done. Qed.

Abbreviation T := (time_Truncate now closedBucket).

Lemma emit_ok p w ev s : claimStreamBucket p w T s = true -> event_id ev = (stateKey p w, T) -> stream_ok T s -> stream_ok T (emit cfg p w T ev s).
Proof.
  unfold claimStreamBucket, emit, set_streamed. intros HC HE [A1 A2 A3 A4]. split; cbn.
  - intros k t. destruct (decide (k = stateKey p w)) as [->|]; [rewrite lookup_insert_eq; intros [= <-]; lia|rewrite lookup_insert_ne by done; apply A1].
  - assert (forall e, e ∈ events s -> exists t, <[stateKey p w := T]> (streamedBuckets s) !! (event_id e).1 = Some t /\ (event_id e).2 <= t) as HA.
    { intros e He. destruct (A2 e He) as (t & Ht & Hle). destruct (decide ((event_id e).1 = stateKey p w)) as [Ek|]; [|exists t; by rewrite lookup_insert_ne].
      exists T. rewrite Ek, lookup_insert_eq. split; [done|]. specialize (A1 _ _ Ht). lia. }
    destruct (hasStream cfg); [|done]. intros e [He|He%list_elem_of_singleton]%elem_of_app; [by apply HA|]. subst e. exists T. rewrite HE. cbn. rewrite lookup_insert_eq. split; [done|lia].
  - destruct (hasStream cfg); [|done]. apply sorted_snoc; [done|]. intros e He Ek. rewrite HE in *. cbn in Ek |- *. destruct (A2 e He) as (t & Ht & Hle). rewrite Ek in Ht. specialize (A1 _ _ Ht).
    rewrite Ht in HC. unfold time_Equal in HC. apply negb_true_iff, Z.eqb_neq in HC. lia.
  - done.
Qed.

(** ** One market *)

Definition op_ok (p : Pair) (w : Duration) s s' : Prop := frame p w s s' /\ (stream_ok T s -> stream_ok T s').

Lemma op_refl p w s : op_ok p w s s.
Proof. split; [apply frame_refl|done]. Qed.
Lemma op_trans p w s1 s2 s3 : op_ok p w s1 s2 -> op_ok p w s2 s3 -> op_ok p w s1 s3.
Proof. intros [X1 X2] [Y1 Y2]. split; [by eapply frame_trans|auto]. Qed.

Ltac other_key := intros; cbn; solve [done | by rewrite lookup_insert_ne | by rewrite lookup_delete_ne].

Lemma set_served_op p w c s : served_only p w (served s) c -> op_ok p w s (set_served c s).
Proof. intros HS. split; [split; try other_key; done|]. by apply streams_kept_ok. Qed.

Lemma streamBucketOnce_op p w v cov s : op_ok p w s (streamBucketOnce cfg p w v T cov s).
Proof.
  unfold streamBucketOnce. destruct (claimStreamBucket p w T s) eqn:EC; cbn [negb]; [|apply op_refl].
  split; [split; try other_key; apply served_only_refl|]. by apply emit_ok.
Qed.

Lemma streamFrozenOnce_op p w f s : op_ok p w s (streamFrozenOnce cfg p w T f s).
Proof.
  unfold streamFrozenOnce. destruct (negb (hasStream cfg)); cbn [orb]; [apply op_refl|]. destruct (claimStreamBucket p w T s) eqn:EC; cbn [negb]; [|apply op_refl].
  split; [split; try other_key; apply served_only_refl|]. by apply emit_ok.
Qed.

Lemma recordPairWrite_op p w t s : op_ok p w s (recordPairWrite p t s).
Proof. unfold recordPairWrite. destruct (time_IsZero t); [apply op_refl|]. split; [split; try other_key; apply served_only_refl|by apply streams_kept_ok]. Qed.

Lemma cacheConfidence_op p w sc s : op_ok p w s (cacheConfidence cfg env now p w sc s).
Proof. unfold cacheConfidence. destruct (in_set_fails env p w); [apply op_refl|]. apply set_served_op, served_only_set. Qed.

Lemma serveDirect_op p w pub t s : op_ok p w s (fst (serveDirect cfg env now p w pub T t s)).
Proof.
  unfold serveDirect. destruct (in_tx_fails env p w); [apply op_refl|]. cbn [fst]. eapply op_trans; [|apply streamBucketOnce_op]. eapply op_trans; [|apply recordPairWrite_op].
  assert (forall s1, op_ok p w s1 (match pb_score pub with Some score => cacheConfidence cfg env now p w score s1 | None => s1 end)) as HC
    by (intros s1; destruct (pb_score pub); [apply cacheConfidence_op|apply op_refl]).
  eapply op_trans; [|apply HC]. apply set_served_op. repeat (eapply served_only_trans; [|apply served_only_set]). apply served_only_delete.
Qed.

Lemma publishDirect_op p w pub s : op_ok p w s (fst (publishDirect cfg env now p w pub T s)).
Proof.
  unfold publishDirect.
  assert (forall s1, op_ok p w s1 (set_edges (appendTickEdgeQuote w (pb_edge pub) (tickEdgeQuotes s1)) (setTickLegRef p w (pb_leg pub) (tickLegRefs s1)) s1)) as HE
    by (intros s1; split; [split; try other_key; apply served_only_refl|by apply streams_kept_ok]).
  destruct (isTriangulationTarget cfg p).
  - cbn [negb fst]. eapply op_trans; [|apply HE]. split; [split; try other_key; apply served_only_refl|]. intros [A1 A2 A3 A4]. split; try done. cbn. intros k h.
    destruct (decide (k = stateKey p w)) as [->|]; [rewrite lookup_insert_eq; by intros [= <-]|rewrite lookup_insert_ne by done; apply A4].
  - pose proof (serveDirect_op p w pub now s) as HS. destruct (serveDirect _ _ _ _ _ _ _ _ _) as [s1 ok]. cbn [fst] in HS. destruct ok; cbn [negb fst]; [|done]. eapply op_trans; [done|apply HE].
Qed.

(** *** Operations that publish nothing *)

(** The body of a value is one that was there, or the last published price. *)
Definition value_from p w s (b : served_body) : Prop :=
  (exists e, served s !! key_of KValue p w = Some (b, e)) \/ (exists cp, comparators s !! stateKey p w = Some cp /\ b = BValue (formatRatFixed (cp_vwap cp) 12)).

Record quiet p w s s' : Prop := {
  q_op : op_ok p w s s';
  q_held : heldDirects s' !! stateKey p w = heldDirects s !! stateKey p w;
  q_decided : decidedBuckets s' !! stateKey p w = decidedBuckets s !! stateKey p w;
  q_comparator : forall cp, comparators s' !! stateKey p w = Some cp -> comparators s !! stateKey p w = Some cp;
  q_value : forall b e, served s' !! key_of KValue p w = Some (b, e) -> value_from p w s b
}.

Lemma quiet_refl p w s : quiet p w s s.
Proof. split; [apply op_refl|done..|]. intros b e E. left. by exists e. Qed.

Lemma quiet_trans p w s1 s2 s3 : quiet p w s1 s2 -> quiet p w s2 s3 -> quiet p w s1 s3.
Proof.
  intros X Y. split.
  - eapply op_trans; [apply X|apply Y].
  - by rewrite (q_held _ _ _ _ Y), (q_held _ _ _ _ X).
  - by rewrite (q_decided _ _ _ _ Y), (q_decided _ _ _ _ X).
  - intros cp E. by apply (q_comparator _ _ _ _ X), (q_comparator _ _ _ _ Y).
  - intros b e E. destruct (q_value _ _ _ _ Y b e E) as [[e0 E0]|(cp & Ec & ->)]; [by eapply (q_value _ _ _ _ X)|]. right. exists cp. split; [|done]. by apply (q_comparator _ _ _ _ X).
Qed.

Lemma quiet_same p w s s' : op_ok p w s s' -> heldDirects s' = heldDirects s -> decidedBuckets s' = decidedBuckets s -> comparators s' = comparators s -> served s' = served s -> quiet p w s s'.
Proof. intros HO E1 E2 E3 E4. split; rewrite ?E1, ?E2, ?E3, ?E4; try done. intros b e E. left. by exists e. Qed.

Lemma set_freeze_op p w r o s : freeze_frame p w r (a_freeze s) o -> op_ok p w s (set_freeze o s).
Proof.
  intros [X1 X2]. split; [split; try other_key; [by apply X1|]|by apply streams_kept_ok].
  intros k Hk. cbn. destruct X2 as [->|[_ ->]]; [done|]. rewrite elem_of_union, elem_of_singleton. tauto.
Qed.

Lemma set_freeze_quiet p w r o s : freeze_frame p w r (a_freeze s) o -> quiet p w s (set_freeze o s).
Proof. intros HF. apply quiet_same; try done. by eapply set_freeze_op. Qed.

Lemma keep_alive_quiet p w ttl s : quiet p w s (keepFrozenVWAPAlive env now p w ttl s).
Proof.
  unfold keepFrozenVWAPAlive. destruct (in_tx_fails env p w); [apply quiet_refl|]. set (e := now + hold_ttl ttl).
  assert (forall ks c, served_only p w c (foldl (fun c k => served_expire now (key_of k p w) e c) c ks)
    /\ forall b t, foldl (fun c k => served_expire now (key_of k p w) e c) c ks !! key_of KValue p w = Some (b, t) -> exists t0, c !! key_of KValue p w = Some (b, t0)) as HK.
  { induction ks as [|kd ks IH]; intros c; cbn [foldl]; [split; [apply served_only_refl|intros b t E; by exists t]|]. destruct (IH (served_expire now (key_of kd p w) e c)) as [I1 I2]. split; [eapply served_only_trans; [apply served_only_expire|done]|].
    intros b t E. apply I2 in E as [t0 E]. unfold served_expire, served_get in E. destruct (c !! key_of kd p w) as [[b0 e0]|] eqn:E0; [|by exists t0]. destruct (now <? e0); [|by exists t0].
    destruct (decide (key_of kd p w = key_of KValue p w)) as [Ek|]; [rewrite Ek, lookup_insert_eq in E; injection E as <- <-; rewrite Ek in E0; by exists e0|rewrite lookup_insert_ne in E by done; by exists t0]. }
  destruct (HK [KValue; KObservedAt; KProvenance; KMeta; KCoverage; KConfidence] (served s)) as [K1 K2]. split; try done; [by apply set_served_op|].
  intros b t E. left. by eapply K2.
Qed.

Lemma reseed_quiet p w ttl s : quiet p w s (reseedFrozenVWAP env now p w ttl s).
Proof.
  unfold reseedFrozenVWAP. destruct (comparators s !! stateKey p w) as [held|] eqn:EH; [|apply quiet_refl]. destruct (in_tx_fails env p w); [apply quiet_refl|]. cbv zeta.
  set (e := now + hold_ttl ttl). set (c := served_set_nx now (key_of KObservedAt p w) (BObservedAt (cp_bucketEnd held)) e (served s)).
  assert (served_only p w (served s) c) as Hc by apply served_only_nx.
  assert (c !! key_of KValue p w = served s !! key_of KValue p w) as HV by (unfold c, served_set_nx; destruct (served_get _ _ _); [done|by apply lookup_insert_ne]).
  destruct (served_get c now (key_of KValue p w)).
  - split; try done; [by apply set_served_op|]. cbn. intros b t E. left. rewrite HV in E. by exists t.
  - set (c' := served_set (key_of KValue p w) (BValue (formatRatFixed (cp_vwap held) 12)) e c).
    assert (served_only p w (served s) c') as Hc' by (eapply served_only_trans; [done|apply served_only_set]).
    assert (forall c2, served_only p w c' c2 -> c2 !! key_of KValue p w = c' !! key_of KValue p w -> quiet p w s (set_served c2 s)) as HQ.
    { intros c2 H21 H22. split; try done; [apply set_served_op; by eapply served_only_trans|]. cbn. intros b t E. rewrite H22 in E. unfold c', served_set in E. rewrite lookup_insert_eq in E. injection E as <- <-.
      right. exists held. by rewrite EH. }
    destruct (prevVWAPCoverage s !! stateKey p w); apply HQ; [apply served_only_set|by apply lookup_insert_ne|apply served_only_delete|by apply lookup_delete_ne].
Qed.

Lemma hold_quiet p w sig o s : quiet p w s (hold_served cfg env now p w sig o s).
Proof. unfold hold_served. destruct (engaged_ttl _ _ _ _ _ _); [|apply quiet_refl]. eapply quiet_trans; [apply keep_alive_quiet|apply reseed_quiet]. Qed.

Lemma unpriced_quiet p w s : quiet p w s (unpriced cfg g env now p w s).
Proof.
  unfold unpriced. assert (quiet p w s (set_freeze (unpricedBucket (ac_freeze cfg) g now p w (frozenValue p w s) (a_freeze s)) s)) as HQ by (eapply set_freeze_quiet, unpriced_frame).
  destruct (match freezeStates (a_freeze s) !! stateKey p w with Some st => Active st | None => true end); [|done]. eapply quiet_trans; [done|apply hold_quiet].
Qed.

Lemma ageComparator_quiet p w s : quiet p w s (ageComparator cfg now (stateKey p w) s).
Proof.
  unfold ageComparator. destruct (comparators s !! stateKey p w) as [c|] eqn:E; [|apply quiet_refl]. destruct (_ || _); [apply quiet_refl|]. split; try done.
  - split; [split; try other_key; apply served_only_refl|by apply streams_kept_ok].
  - cbn. intros cp Ec. by rewrite lookup_delete_eq in Ec.
  - cbn. intros b e Eb. left. by exists e.
Qed.

Abbreviation frozen_marks s := (frozenThisTick (a_freeze s)).

Lemma phase1_spec p w step n s : let '(s', ok) := phase1 cfg g env now p w step n s in quiet p w s s' /\ (ok = true -> frozen_marks s' = frozen_marks s).
Proof.
  unfold phase1. pose proof (phase1_frame (ac_freeze cfg) g now p w (frozenValue p w s) (st_prev step) (st_curr step) n (a_freeze s)) as HF.
  destruct (evaluateAndMaybeFreeze _ _ _ _ _ _ _ _ _ _) as [o [act ok]]. destruct ok; cbn [negb] in HF.
  - split; [by eapply set_freeze_quiet|]. intros _. destruct HF as [_ [E|[E _]]]; [done|discriminate E].
  - split; [|done]. eapply quiet_trans; [by eapply set_freeze_quiet|apply hold_quiet].
Qed.

Lemma phase2_spec p w conf n v ref s : let '(s', refused) := phase2_step cfg g env now p w conf n v ref s in quiet p w s s' /\ (refused = false -> frozen_marks s' = frozen_marks s).
Proof.
  unfold phase2_step. pose proof (phase2_frame (ac_freeze cfg) g now p w (frozenValue p w s) conf n v ref (a_freeze s)) as HF.
  destruct (stepPhase2Freeze _ _ _ _ _ _ _ _ _ _ _) as [o refused]. destruct refused.
  - split; [|done]. eapply quiet_trans; [by eapply set_freeze_quiet|apply hold_quiet].
  - split; [by eapply set_freeze_quiet|]. intros _. destruct HF as [_ [E|[E _]]]; [done|discriminate E].
Qed.

Lemma publishDirect_frozen p w pub t s : frozen_marks (fst (publishDirect cfg env now p w pub t s)) = frozen_marks s /\ decidedBuckets (fst (publishDirect cfg env now p w pub t s)) = decidedBuckets s.
Proof.
  unfold publishDirect. destruct (isTriangulationTarget cfg p); [done|]. unfold serveDirect. destruct (in_tx_fails env p w); [done|]. cbn [negb fst].
  unfold streamBucketOnce, recordPairWrite, cacheConfidence. destruct (pb_score pub), (time_IsZero now), (in_set_fails env p w); destruct (negb _); done.
Qed.

(** A bucket is either refused quietly or published without a freeze. *)
Definition decision_ok p w s s' (r : res unit (option publishedBucket)) : Prop :=
  op_ok p w s s' /\ decidedBuckets s' !! stateKey p w = decidedBuckets s !! stateKey p w
  /\ ((quiet p w s s' /\ forall pub, r <> Ok (Some pub)) \/ frozen_marks s' = frozen_marks s).

Lemma quiet_decision p w s s' r : quiet p w s s' -> (forall pub, r <> Ok (Some pub)) -> decision_ok p w s s' r.
Proof. intros HQ HR. split; [exact (q_op _ _ _ _ HQ)|]. split; [exact (q_decided _ _ _ _ HQ)|by left]. Qed.

Lemma decidePriced_spec p w f trades vwap s : let '(s', r) := decidePriced cfg g env now p w T f trades vwap s in decision_ok p w s s' r.
Proof.
  unfold decidePriced. destruct (scoreMinutes _ _ _ _ _) as [mb scored].
  set (s1 := match scored with Some m => set_scored _ s | None => s end).
  assert (quiet p w s s1 /\ frozen_marks s1 = frozen_marks s) as [Q1 F1].
  { unfold s1. destruct scored; [|split; [apply quiet_refl|done]]. split; [|done]. apply quiet_same; try done. split; [split; try other_key; apply served_only_refl|by apply streams_kept_ok]. }
  pose proof (phase1_spec p w (worstStep mb (option_map cp_vwap (comparators s1 !! stateKey p w))) (distinctSourceCount trades) s1) as HP1.
  destruct (phase1 _ _ _ _ _ _ _ _ _) as [s2 ok]. destruct HP1 as [Q2 F2]. assert (quiet p w s s2) as Q12 by (by eapply quiet_trans).
  destruct ok; cbn [negb]; [|by apply quiet_decision]. specialize (F2 eq_refl).
  assert (forall s0, quiet p w s0 (fst (composite_step cfg env now p w trades vwap s0)) /\ frozen_marks (fst (composite_step cfg env now p w trades vwap s0)) = frozen_marks s0) as HCS.
  { intros s0. unfold composite_step. destruct (compositeReferenceEligible _ _ _ _); (split; [|done]); [|apply quiet_refl]. apply quiet_same; try done. split; [split; try other_key; apply served_only_refl|by apply streams_kept_ok]. }
  specialize (HCS s2). destruct (composite_step cfg env now p w trades vwap s2) as [s3 ref]. cbn [fst] in HCS. destruct HCS as [Q3 F3].
  match goal with |- context [confidence_step cfg env now p w trades vwap ?r s3] => set (rets := r) end.
  assert (quiet p w s3 (fst (confidence_step cfg env now p w trades vwap rets s3)) /\ frozen_marks (fst (confidence_step cfg env now p w trades vwap rets s3)) = frozen_marks s3) as HCF.
  { unfold confidence_step. destruct (computeConfidence _ _ _ _ _ _ _ _ _ _ _ _ _ _) as [conf rel]. split; [|done]. apply quiet_same; try done. split; [split; try other_key; apply served_only_refl|by apply streams_kept_ok]. }
  destruct (confidence_step cfg env now p w trades vwap rets s3) as [s4 conf]. cbn [fst] in HCF. destruct HCF as [Q4 F4].
  pose proof (phase2_spec p w conf (distinctSourceCount trades) vwap ref s4) as HP2. destruct (phase2_step _ _ _ _ _ _ _ _ _ _ _) as [s5 refused]. destruct HP2 as [Q5 F5].
  assert (quiet p w s s5) as Q05 by (do 3 (eapply quiet_trans; [|done]); done).
  assert (forall m, (forall k, k <> stateKey p w -> m !! k = frozenPrevVWAPs s5 !! k) -> quiet p w s5 (set_shadow m s5)) as HSh.
  { intros m Hm. apply quiet_same; try done. split; [split; try other_key; done|by apply streams_kept_ok]. }
  destruct refused.
  - apply quiet_decision; [|done]. eapply quiet_trans; [done|]. apply HSh. intros k Hk. by apply lookup_insert_ne.
  - specialize (F5 eq_refl). set (s6 := set_shadow (delete (stateKey p w) (frozenPrevVWAPs s5)) s5). assert (quiet p w s s6) as Q06 by (eapply quiet_trans; [done|apply HSh; intros k Hk; by apply lookup_delete_ne]).
    match goal with |- context [publishDirect cfg env now p w ?pb T s6] => set (pub := pb) end.
    pose proof (publishDirect_op p w pub s6) as HO. pose proof (publishDirect_frozen p w pub T s6) as [HFr HD]. destruct (publishDirect cfg env now p w pub T s6) as [s7 ok]. cbn [fst] in HO, HFr, HD.
    assert (frozen_marks s7 = frozen_marks s) as HM by (rewrite HFr; change (frozen_marks s6) with (frozen_marks s5); congruence).
    assert (op_ok p w s s7 /\ decidedBuckets s7 !! stateKey p w = decidedBuckets s !! stateKey p w) as [O7 D7] by (split; [eapply op_trans; [exact (q_op _ _ _ _ Q06)|done]|rewrite HD; exact (q_decided _ _ _ _ Q06)]).
    destruct ok; cbn [negb]; (split; [|split; [done|by right]]); [|done]. eapply op_trans; [done|]. split; [split; try other_key; apply served_only_refl|by apply streams_kept_ok].
Qed.

Lemma decideBucket_spec p w s : let '(s', r) := decideBucket cfg g env now p w T s in decision_ok p w s s' r.
Proof.
  unfold decideBucket. destruct (fetchForTarget _ _ _ _ _) as [f|]; [|by apply quiet_decision; [apply quiet_refl|]].
  destruct (_ =? 0)%nat; [by apply quiet_decision; [apply unpriced_quiet|]|]. destruct (dropForMinUSDVolume _ _ _ _ _ _); [by apply quiet_decision; [apply unpriced_quiet|]|].
  destruct (computeNormalizedVWAP _ _ _) as [v|[]]; try (by apply quiet_decision; [apply quiet_refl|]); [apply decidePriced_spec|by apply quiet_decision; [apply unpriced_quiet|]].
Qed.

(** *** One refresh *)

(** A bucket that was refused has nothing to publish. *)
Definition decided_ok s : Prop := forall k d, decidedBuckets s !! k = Some d -> db_frozen d = true -> db_published d = None.

(** The market is held, and its value is one of before or the last published. *)
Definition untouched s0 s p w : Prop :=
  heldDirects s !! stateKey p w = None
  /\ (forall cp, comparators s !! stateKey p w = Some cp -> comparators s0 !! stateKey p w = Some cp)
  /\ (forall b e, served s !! key_of KValue p w = Some (b, e) -> value_from p w s0 b).

Definition held_own s p w : Prop := forall h, heldDirects s !! stateKey p w = Some h -> hd_pair h = p /\ hd_window h = w.

Lemma quiet_untouched p w s0 s : heldDirects s0 !! stateKey p w = None -> quiet p w s0 s -> untouched s0 s p w.
Proof. intros HN HQ. split; [by rewrite (q_held _ _ _ _ HQ)|]. split; [exact (q_comparator _ _ _ _ HQ)|exact (q_value _ _ _ _ HQ)]. Qed.

Lemma publishDirect_held p w pub t s : held_own s p w -> held_own (fst (publishDirect cfg env now p w pub t s)) p w.
Proof.
  intros HO h. unfold publishDirect. destruct (isTriangulationTarget cfg p); cbn [negb fst].
  - cbn. rewrite lookup_insert_eq. by intros [= <-].
  - unfold serveDirect. destruct (in_tx_fails env p w); [apply HO|]. cbn [negb fst]. unfold streamBucketOnce, recordPairWrite, cacheConfidence.
    destruct (pb_score pub), (time_IsZero now), (in_set_fails env p w); destruct (negb _); apply HO.
Qed.

Lemma decidePriced_held p w f trades vwap s : heldDirects s !! stateKey p w = None -> held_own (fst (decidePriced cfg g env now p w T f trades vwap s)) p w.
Proof.
  intros HN. pose proof (decidePriced_spec p w f trades vwap s) as HS. destruct (decidePriced cfg g env now p w T f trades vwap s) as [s' r] eqn:E. cbn [fst].
  destruct HS as (_ & _ & [[HQ _]|_]); [intros h Hh; rewrite (q_held _ _ _ _ HQ), HN in Hh; done|]. revert E. unfold decidePriced.
  destruct (scoreMinutes _ _ _ _ _) as [mb scored]. set (s1 := match scored with Some m => set_scored _ s | None => s end).
  assert (heldDirects s1 !! stateKey p w = None) as N1 by (unfold s1; by destruct scored).
  match goal with |- context [phase1 cfg g env now p w ?a ?b s1] => pose proof (phase1_spec p w a b s1) as HP1; destruct (phase1 cfg g env now p w a b s1) as [s2 ok] end. destruct HP1 as [Q2 _].
  assert (heldDirects s2 !! stateKey p w = None) as N2 by (by rewrite (q_held _ _ _ _ Q2)). destruct ok; cbn [negb]; [|intros [= <- _] h Hh; congruence].
  assert (heldDirects (fst (composite_step cfg env now p w trades vwap s2)) = heldDirects s2) as E3 by (unfold composite_step; by destruct (compositeReferenceEligible _ _ _ _)).
  destruct (composite_step cfg env now p w trades vwap s2) as [s3 ref]. cbn [fst] in E3.
  match goal with |- context [confidence_step cfg env now p w trades vwap ?r s3] => set (rets := r) end.
  assert (heldDirects (fst (confidence_step cfg env now p w trades vwap rets s3)) = heldDirects s3) as E4 by (unfold confidence_step; by destruct (computeConfidence _ _ _ _ _ _ _ _ _ _ _ _ _ _)).
  destruct (confidence_step cfg env now p w trades vwap rets s3) as [s4 conf]. cbn [fst] in E4.
  pose proof (phase2_spec p w conf (distinctSourceCount trades) vwap ref s4) as HP2. destruct (phase2_step _ _ _ _ _ _ _ _ _ _ _) as [s5 refused]. destruct HP2 as [Q5 _].
  assert (heldDirects s5 !! stateKey p w = None) as N5 by (rewrite (q_held _ _ _ _ Q5), E4, E3; done).
  destruct refused; [intros [= <- _] h Hh; cbn in Hh; congruence|].
  match goal with |- context [publishDirect cfg env now p w ?pb T ?s6] => pose proof (publishDirect_held p w pb T s6) as HH; destruct (publishDirect cfg env now p w pb T s6) as [s7 ok] end.
  assert (held_own s7 p w) as H7 by (apply HH; intros h Hh; cbn in Hh; congruence). destruct ok; cbn [negb]; intros [= <- _]; exact H7.
Qed.

Lemma decideBucket_held p w s : heldDirects s !! stateKey p w = None -> held_own (fst (decideBucket cfg g env now p w T s)) p w.
Proof.
  intros HN. assert (held_own s p w) as H0s by (intros h Hh; congruence). assert (held_own (unpriced cfg g env now p w s) p w) as HU by (intros h Hh; rewrite (q_held _ _ _ _ (unpriced_quiet p w s)), HN in Hh; done).
  unfold decideBucket. destruct (fetchForTarget _ _ _ _ _) as [f|]; [|done]. destruct (_ =? 0)%nat; [done|]. destruct (dropForMinUSDVolume _ _ _ _ _ _); [done|].
  destruct (computeNormalizedVWAP _ _ _) as [v|[]]; try done. by apply decidePriced_held.
Qed.

Definition refreshed p w s s' : Prop :=
  op_ok p w s s' /\ decided_ok s' /\ held_own s' p w /\ (stateKey p w ∈ frozen_marks s' -> untouched s s' p w).

Lemma refresh_fresh_spec p w s : stateKey p w ∉ frozen_marks s -> heldDirects s !! stateKey p w = None -> decided_ok s ->
  refreshed p w s (fst (refresh_fresh cfg g env now p w T s)).
Proof.
  intros HM HN HD. unfold refresh_fresh. pose proof (ageComparator_quiet p w s) as QA. set (s1 := ageComparator cfg now (stateKey p w) s) in *.
  assert (frozen_marks s1 = frozen_marks s /\ decidedBuckets s1 = decidedBuckets s) as [M1 D1] by (unfold s1, ageComparator; destruct (comparators s !! _); [destruct (_ || _)|]; done).
  assert (heldDirects s1 !! stateKey p w = None) as N1 by (by rewrite (q_held _ _ _ _ QA)).
  pose proof (decideBucket_spec p w s1) as HS. pose proof (decideBucket_held p w s1 N1) as HH. destruct (decideBucket cfg g env now p w T s1) as [s2 r]. cbn [fst] in HH. destruct HS as (O2 & D2 & HC).
  assert (op_ok p w s s2) as O02 by (eapply op_trans; [exact (q_op _ _ _ _ QA)|done]).
  assert (decided_ok s2) as DK2.
  { intros k d Ed Hf. destruct (decide (k = stateKey p w)) as [->|Hk]; [rewrite D2, D1 in Ed; by apply (HD (stateKey p w) d)|]. rewrite (fr_decided _ _ _ _ (proj1 O2) k Hk), D1 in Ed. by apply (HD k d). }
  assert (stateKey p w ∈ frozen_marks s2 -> quiet p w s1 s2 /\ forall pub, r <> Ok (Some pub)) as HQ by (intros Hin; destruct HC as [HQ|E]; [done|]; exfalso; apply HM; congruence).
  assert (stateKey p w ∈ frozen_marks s2 -> untouched s s2 p w) as HU by (intros Hin; destruct (HQ Hin) as [Q2 _]; apply quiet_untouched; [done|by eapply quiet_trans]).
  destruct r as [pub|]; [|by split_and!]. cbn [fst].
  set (s3 := if bool_decide (stateKey p w ∈ frozen_marks s2) && negb (bool_decide (is_Some pub)) then streamFrozenOnce cfg p w T (FiredAt (state_of (a_freeze s2) (stateKey p w))) s2 else s2).
  assert (op_ok p w s2 s3) as O3 by (unfold s3; destruct (_ && _); [apply streamFrozenOnce_op|apply op_refl]).
  assert (a_freeze s3 = a_freeze s2 /\ decidedBuckets s3 = decidedBuckets s2 /\ heldDirects s3 = heldDirects s2 /\ comparators s3 = comparators s2 /\ served s3 = served s2) as (E1 & E2 & E3 & E4 & E5)
    by (unfold s3, streamFrozenOnce; destruct (_ && _); [destruct (_ || _)|]; done).
  split; [|split; [|split]].
  - eapply op_trans; [done|]. eapply op_trans; [done|]. split; [split; try other_key|by apply streams_kept_ok].
  - intros k d. cbn. rewrite E2. destruct (decide (k = stateKey p w)) as [->|Hk]; [|rewrite lookup_insert_ne by done; apply DK2]. rewrite lookup_insert_eq. intros [= <-]. cbn [db_frozen db_published].
    intros Hb%bool_decide_eq_true. destruct (HQ Hb) as [_ Hr]. destruct pub as [pub|]; [by destruct (Hr pub)|done].
  - intros h. cbn. rewrite E3. apply HH.
  - cbn. rewrite E1. intros Hin. destruct (HU Hin) as (U1 & U2 & U3). unfold untouched. cbn. by rewrite E3, E4, E5.
Qed.

Lemma replay_spec p w d s : stateKey p w ∉ frozen_marks s -> heldDirects s !! stateKey p w = None -> decided_ok s -> decidedBuckets s !! stateKey p w = Some d -> db_end d = T ->
  refreshed p w s (fst (replayDecidedBucket cfg env now p w d s)).
Proof.
  intros HM HN HD Ed Et. unfold replayDecidedBucket. set (s1 := if db_frozen d then markFrozenThisTick (stateKey p w) s else s).
  assert (quiet p w s s1) as Q1.
  { unfold s1. destruct (db_frozen d); [|apply quiet_refl]. apply (set_freeze_quiet p w true). split; [done|]. right. done. }
  set (s2 := match db_reading d with Some r => set_readings _ s1 | None => s1 end).
  assert (quiet p w s s2 /\ a_freeze s2 = a_freeze s1 /\ heldDirects s2 = heldDirects s /\ decidedBuckets s2 = decidedBuckets s) as (Q2 & E2 & E3 & E4).
  { unfold s2. assert (heldDirects s1 = heldDirects s /\ decidedBuckets s1 = decidedBuckets s) as [X1 X2] by (unfold s1; by destruct (db_frozen d)).
    destruct (db_reading d); [|done]. split; [|done]. eapply quiet_trans; [done|]. apply quiet_same; try done. split; [split; try other_key|by apply streams_kept_ok]. }
  destruct (db_published d) as [pub|] eqn:EP.
  - assert (db_frozen d = false) as Ef by (destruct (db_frozen d) eqn:E; [|done]; rewrite (HD _ d Ed E) in EP; discriminate). rewrite Et.
    pose proof (publishDirect_op p w pub s2) as HO. pose proof (publishDirect_frozen p w pub T s2) as [HF HDB]. pose proof (publishDirect_held p w pub T s2) as HH.
    split; [eapply op_trans; [exact (q_op _ _ _ _ Q2)|done]|]. split; [intros k x; rewrite HDB, E4; apply HD|]. split; [apply HH; intros h Hh; rewrite E3 in Hh; congruence|].
    rewrite HF, E2. unfold s1. rewrite Ef. done.
  - cbn [fst]. split; [exact (q_op _ _ _ _ Q2)|]. split; [intros k x; rewrite E4; apply HD|]. split; [intros h Hh; rewrite E3 in Hh; congruence|]. intros _. by apply quiet_untouched.
Qed.

Lemma refresh_spec p w s : stateKey p w ∉ frozen_marks s -> heldDirects s !! stateKey p w = None -> decided_ok s -> refreshed p w s (fst (refreshPairWindow cfg g env now p w s)).
Proof.
  intros HM HN HD. unfold refreshPairWindow. destruct (decidedBuckets s !! stateKey p w) as [d|] eqn:Ed; [|by apply refresh_fresh_spec].
  destruct (time_Equal (db_end d) T) eqn:Et; [|by apply refresh_fresh_spec]. apply Z.eqb_eq in Et. by apply replay_spec.
Qed.

(** ** A whole tick *)

Definition scope p w : Prop := (p ∈ Pairs cfg \/ exists chain, chain ∈ Triangulations cfg /\ Target chain = p) /\ w ∈ Windows (ac_freeze cfg).

(** Different markets have different keys. *)
Definition names_ok : Prop := forall p w p' w', scope p w -> scope p' w' -> stateKey p w = stateKey p' w' \/ place p w = place p' w' -> p = p' /\ w = w'.

Definition held_ok s : Prop := forall k h, heldDirects s !! k = Some h -> k = stateKey (hd_pair h) (hd_window h) /\ scope (hd_pair h) (hd_window h).

Definition unseen s0 s p w : Prop :=
  (stateKey p w ∉ frozen_marks s) /\ heldDirects s !! stateKey p w = None /\ comparators s !! stateKey p w = comparators s0 !! stateKey p w
  /\ served s !! key_of KValue p w = served s0 !! key_of KValue p w.

Definition calm s0 s p w : Prop := stateKey p w ∈ frozen_marks s -> untouched s0 s p w.

Record tick_inv s0 (finished : list (Pair * Duration)) s : Prop := {
  ti_decided : decided_ok s;
  ti_held : held_ok s;
  ti_stream : stream_ok T s0 -> stream_ok T s;
  ti_unseen : forall p w, scope p w -> (p, w) ∉ finished -> unseen s0 s p w;
  ti_calm : forall p w, scope p w -> calm s0 s p w
}.

Lemma place_served p w p' w' s s' : served_only p w (served s) (served s') -> place p' w' <> place p w -> served s' !! key_of KValue p' w' = served s !! key_of KValue p' w'.
Proof. intros HS Hp. by apply HS. Qed.

Lemma calm_frame s0 s s' p w p' w' : frame p w s s' -> stateKey p' w' <> stateKey p w -> place p' w' <> place p w -> calm s0 s p' w' -> calm s0 s' p' w'.
Proof.
  intros HF Hk Hp HC Hin. rewrite (fr_frozen _ _ _ _ HF _ Hk) in Hin. destruct (HC Hin) as (U1 & U2 & U3). unfold untouched.
  rewrite (fr_held _ _ _ _ HF _ Hk), (fr_comparators _ _ _ _ HF _ Hk), (place_served _ _ _ _ _ _ (fr_served _ _ _ _ HF) Hp). done.
Qed.

Lemma unseen_frame s0 s s' p w p' w' : frame p w s s' -> stateKey p' w' <> stateKey p w -> place p' w' <> place p w -> unseen s0 s p' w' -> unseen s0 s' p' w'.
Proof.
  intros HF Hk Hp (U1 & U2 & U3 & U4). unfold unseen.
  rewrite (fr_frozen _ _ _ _ HF _ Hk), (fr_held _ _ _ _ HF _ Hk), (fr_comparators _ _ _ _ HF _ Hk), (place_served _ _ _ _ _ _ (fr_served _ _ _ _ HF) Hp). done.
Qed.

Lemma other_market p w p' w' : names_ok -> scope p w -> scope p' w' -> (p', w') <> (p, w) -> stateKey p' w' <> stateKey p w /\ place p' w' <> place p w.
Proof. intros HN Hs Hs' Hne. split; intros E; apply Hne; destruct (HN p' w' p w Hs' Hs) as [-> ->]; auto. Qed.

Lemma value_from_unseen s0 s p w b : unseen s0 s p w -> value_from p w s b -> value_from p w s0 b.
Proof. intros (_ & _ & E1 & E2). unfold value_from. by rewrite E1, E2. Qed.

Lemma market_refresh_inv s0 finished s p w : names_ok -> scope p w -> (p, w) ∉ finished -> tick_inv s0 finished s ->
  tick_inv s0 ((p, w) :: finished) (fst (refreshPairWindow cfg g env now p w s)).
Proof.
  intros HN Hsc Hnf [I1 I2 I3 I4 I5]. destruct (I4 p w Hsc Hnf) as (U1 & U2 & U3 & U4). destruct (refresh_spec p w s U1 U2 I1) as ([HF HS] & R2 & R3 & R4).
  set (s' := fst (refreshPairWindow cfg g env now p w s)) in *. split; [done| |auto| |].
  - intros k h Hh. destruct (decide (k = stateKey p w)) as [->|Hk]; [destruct (R3 h Hh) as [-> ->]; done|]. rewrite (fr_held _ _ _ _ HF k Hk) in Hh. by apply I2.
  - intros p' w' Hs' Hn. rewrite not_elem_of_cons in Hn. destruct Hn as [Hne Hn]. destruct (other_market p w p' w' HN Hsc Hs' Hne). by eapply unseen_frame; eauto.
  - intros p' w' Hs'. destruct (decide ((p', w') = (p, w))) as [[= -> ->]|Hne]; [|destruct (other_market p w p' w' HN Hsc Hs' Hne); by eapply calm_frame; eauto].
    intros Hin. destruct (R4 Hin) as (V1 & V2 & V3). split; [done|]. split; [intros cp E; rewrite <- U3; by apply V2|]. intros b e E. eapply value_from_unseen; [|by eapply V3]. by split_and!.
Qed.

Lemma refreshes_inv s0 jobs : names_ok -> NoDup jobs -> Forall (fun j => scope j.1 j.2) jobs -> forall finished s err, (forall j, j ∈ jobs -> j ∉ finished) -> tick_inv s0 finished s ->
  tick_inv s0 (rev jobs ++ finished)
    (fst (foldl (fun (x : agg * bool) (job : Pair * Duration) => let '(s, ok) := refreshPairWindow cfg g env now job.1 job.2 x.1 in (s, x.2 || negb ok)) (s, err) jobs)).
Proof.
  intros HN. induction jobs as [|[p w] jobs IH]; intros Hnd HF finished s err Hdis HI; [done|]. apply NoDup_cons in Hnd as [Hn Hnd]. apply Forall_cons in HF as [Hsc HF]. cbn [foldl fst snd].
  pose proof (market_refresh_inv s0 finished s p w HN Hsc (Hdis (p, w) ltac:(by left)) HI) as HI'. destruct (refreshPairWindow cfg g env now p w s) as [s' ok]. cbn [fst] in HI'.
  replace (rev ((p, w) :: jobs) ++ finished) with (rev jobs ++ ((p, w) :: finished)) by (cbn [rev]; by rewrite <- app_assoc). apply IH; try done.
  intros j Hj. rewrite not_elem_of_cons. split; [intros ->; done|]. apply Hdis. by right.
Qed.
End Ticks.
