(* ===== verification/TickRun.v ===== *)
(** * Runs of ticks

    The second half of a tick composes prices and settles the direct prices that
    were held back; every step of it touches one market, and only what is served
    and streamed ([tail]). A run of ticks is [ran]. *)

From S2P Require Import Prelude GoLib Float64 Rounding Amount Asset Alias Trade RobustStat Window Proxy Outliers Router Sources Render WindowFetch.
From S2P Require Import Confidence Baseline Anomaly Freeze FreezeStore FreezeControl PriceGuard Evidence Orchestrator Publish.

Lemma filter_split_perm {A} (f : A -> bool) l : List.filter f l ++ List.filter (fun x => negb (f x)) l ≡ₚ l.
Proof. induction l as [|x l IH]; [done|]. cbn. destruct (f x); cbn; [by constructor|]. rewrite <- Permutation_middle. by constructor. Qed.

Section Tails.
Context {C D : Type} `{RedisCache C} `{LadderDB D} `{Strkey} `{FloatText} `{MathLib} `{RatText}.
Context (cfg : AggConfig) (g : globals) (env : inputs) (now : Time).
Implicit Types s : agg (C := C) (D := D).
Abbreviation T := (time_Truncate now closedBucket).
Abbreviation marks s := (frozenThisTick (a_freeze s)).

(** What later buckets are decided from, and the marks. *)
Record keeps s s' : Prop := {
  kp_comparators : comparators s' = comparators s;
  kp_shadow : frozenPrevVWAPs s' = frozenPrevVWAPs s;
  kp_scored : scoredMinutes s' = scoredMinutes s;
  kp_decided : decidedBuckets s' = decidedBuckets s;
  kp_states : freezeStates (a_freeze s') = freezeStates (a_freeze s);
  kp_marks : marks s' = marks s
}.

Lemma keeps_refl s : keeps s s.
Proof. by split. Qed.
Lemma keeps_trans s1 s2 s3 : keeps s1 s2 -> keeps s2 s3 -> keeps s1 s3.
Proof. intros [] []. split; congruence. Qed.

Record tail (p : Pair) (w : Duration) s s' : Prop := {
  tl_stream : stream_ok T s -> stream_ok T s';
  tl_keeps : keeps s s';
  tl_held : heldDirects s' = heldDirects s \/ heldDirects s' = delete (stateKey p w) (heldDirects s);
  tl_frame : stream_ok T s -> held_own s p w -> frame p w s s';
  tl_quiet : stateKey p w ∈ marks s -> heldDirects s !! stateKey p w = None -> quiet now p w s s'
}.

Lemma tail_refl p w s : tail p w s s.
Proof. split; [done|apply keeps_refl|by left|intros _ _; apply frame_refl|intros _ _; apply quiet_refl]. Qed.

Lemma tail_held_own p w s s' : tail p w s s' -> held_own s p w -> held_own s' p w.
Proof. intros HT HO h. destruct (tl_held _ _ _ _ HT) as [->| ->]; [apply HO|by rewrite lookup_delete_eq]. Qed.

Lemma tail_trans p w s1 s2 s3 : tail p w s1 s2 -> tail p w s2 s3 -> tail p w s1 s3.
Proof.
  intros X Y. split.
  - intros HS. by apply (tl_stream _ _ _ _ Y), (tl_stream _ _ _ _ X).
  - eapply keeps_trans; [exact (tl_keeps _ _ _ _ X)|exact (tl_keeps _ _ _ _ Y)].
  - destruct (tl_held _ _ _ _ X) as [E1|E1], (tl_held _ _ _ _ Y) as [E2|E2]; rewrite E2, E1; rewrite ?delete_delete_eq; auto.
  - intros HS HO. eapply frame_trans; [by apply (tl_frame _ _ _ _ X)|]. apply (tl_frame _ _ _ _ Y); [by apply (tl_stream _ _ _ _ X)|by eapply tail_held_own].
  - intros HM HN. pose proof (tl_quiet _ _ _ _ X HM HN) as Q1. eapply quiet_trans; [exact Q1|]. apply (tl_quiet _ _ _ _ Y); [by rewrite (kp_marks _ _ (tl_keeps _ _ _ _ X))|by rewrite (q_held _ _ _ _ _ Q1)].
Qed.

(** An operation that leaves the held prices alone. *)
Lemma op_tail p w s s' : op_ok now p w s s' -> keeps s s' -> heldDirects s' = heldDirects s ->
  (stateKey p w ∈ marks s -> quiet now p w s s') -> tail p w s s'.
Proof. intros [HF HS] HK HH HQ. split; auto. Qed.

Ltac same := split; intros; done.

Lemma quiet_tail p w s s' : quiet now p w s s' -> keeps s s' -> heldDirects s' = heldDirects s -> tail p w s s'.
Proof. intros HQ HK HH. apply op_tail; auto. exact (q_op _ _ _ _ _ HQ). Qed.

Lemma cacheConfidence_tail p w sc s : tail p w s (cacheConfidence cfg env now p w sc s).
Proof.
  apply quiet_tail; [|unfold cacheConfidence; by destruct (in_set_fails env p w)..]. pose proof (cacheConfidence_op cfg env now p w sc s) as HO. revert HO. unfold cacheConfidence.
  destruct (in_set_fails env p w); [intros _; apply quiet_refl|]. intros HO. split; try done. cbn. intros b e E. unfold served_set in E. rewrite lookup_insert_ne in E by done. left. by exists e.
Qed.

Lemma writeCompositeMeta_tail p w m s : tail p w s (writeCompositeMeta cfg env now p w m s).
Proof.
  apply quiet_tail; [|unfold writeCompositeMeta; by destruct (in_set_fails env p w)..]. unfold writeCompositeMeta. destruct (in_set_fails env p w); [apply quiet_refl|].
  split; try done; [apply set_served_op, served_only_set|]. cbn. intros b e E. unfold served_set in E. rewrite lookup_insert_ne in E by done. left. by exists e.
Qed.

Lemma streamFrozenOnce_tail p w f s : tail p w s (streamFrozenOnce cfg p w T f s).
Proof.
  assert (forall X : agg -> Prop, X s -> (forall y z, X (set_streamed y z s)) -> X (streamFrozenOnce cfg p w T f s)) as HC by (intros X X1 X2; unfold streamFrozenOnce; destruct (_ || _); auto; apply X2).
  apply quiet_tail; [apply quiet_same; [apply streamFrozenOnce_op|..]|..]; apply HC; try done; intros; by split.
Qed.

Lemma keep_alive_tail p w ttl s : tail p w s (keepFrozenVWAPAlive env now p w ttl s).
Proof. apply quiet_tail; [apply keep_alive_quiet|unfold keepFrozenVWAPAlive; by destruct (in_tx_fails env p w)..]. Qed.

(** *** Settling a direct price *)

Lemma serveDirect_keeps p w pub be t s : keeps s (fst (serveDirect cfg env now p w pub be t s)) /\ heldDirects (fst (serveDirect cfg env now p w pub be t s)) = heldDirects s.
Proof.
  unfold serveDirect. destruct (in_tx_fails env p w); [split; [apply keeps_refl|done]|]. cbn [fst]. unfold streamBucketOnce, recordPairWrite, cacheConfidence.
  destruct (pb_score pub), (time_IsZero t), (in_set_fails env p w); destruct (negb _); split; try done; by split.
Qed.

Lemma drop_held_tail p w s : tail p w s (set_held (delete (stateKey p w) (heldDirects s)) s).
Proof.
  split; [|by split|by right| |].
  - intros [A1 A2 A3 A4]. split; try done. cbn. intros k x [_ Hx]%lookup_delete_Some. by eapply A4.
  - intros _ _. split; intros; cbn; try done; by apply lookup_delete_ne.
  - intros _ HN. apply quiet_same; try done; [|cbn; by apply delete_id]. split; [split; intros; cbn; try done; by apply lookup_delete_ne|]. intros [A1 A2 A3 A4]. split; try done. cbn. intros k x [_ Hx]%lookup_delete_Some. by eapply A4.
Qed.

Lemma settleDirect_tail p w served_composite s : tail p w s (settleDirect cfg env now p w served_composite s).
Proof.
  unfold settleDirect. destruct (heldDirects s !! stateKey p w) as [h|] eqn:Eh; [|apply tail_refl]. set (s1 := set_held (delete (stateKey p w) (heldDirects s)) s).
  pose proof (drop_held_tail p w s : tail p w s s1) as T1.
  destruct served_composite; [destruct (pb_score (hd_pub h)); [|done]; eapply tail_trans; [done|apply cacheConfidence_tail]|].
  destruct (serveDirect_keeps (hd_pair h) (hd_window h) (hd_pub h) (hd_bucketEnd h) (hd_now h) s1) as [K2 Hd2]. split.
  - intros HS. rewrite (so_held _ _ HS _ _ Eh). apply (serveDirect_op cfg env now). by apply (tl_stream _ _ _ _ T1).
  - eapply keeps_trans; [exact (tl_keeps _ _ _ _ T1)|done].
  - right. by rewrite Hd2.
  - intros HS HO. destruct (HO h Eh) as [<- <-]. rewrite (so_held _ _ HS _ _ Eh). eapply frame_trans; [by apply (tl_frame _ _ _ _ T1)|]. apply (serveDirect_op cfg env now).
  - intros _ HN. congruence.
Qed.

(** *** Composing a price *)

Lemma publishComposite_tail chain w comp r rerouted s : stateKey (Target chain) w ∉ marks s ->
  tail (Target chain) w s (fst (publishComposite cfg env now chain w comp r rerouted s)).
Proof.
  intros HM. unfold publishComposite. destruct (_ && _); [apply tail_refl|]. destruct (in_tx_fails env (Target chain) w); [apply tail_refl|]. cbv zeta. cbn [fst].
  match goal with |- context [set_served ?c s] => set (c1 := c) end.
  assert (served_only (Target chain) w (served s) c1) as HC.
  { unfold c1. eapply served_only_trans; [|apply served_only_set]. eapply served_only_trans; [|apply served_only_delete]. do 2 (eapply served_only_trans; [|apply served_only_set]). apply served_only_set. }
  match goal with |- context [streamBucketOnce cfg ?p w ?v _ None ?s2] => pose proof (streamBucketOnce_op cfg now p w v None s2) as O3; set (s2' := s2) in *; set (s3 := streamBucketOnce cfg p w v _ None s2') in * end.
  assert (op_ok now (Target chain) w s s2') as O2.
  { eapply op_trans; [by apply set_served_op|]. split; [by split|by apply streams_kept_ok]. }
  pose proof (recordPairWrite_op now (Target chain) w now s3) as O4. set (s4 := recordPairWrite (Target chain) now s3) in *.
  assert (forall X : agg -> Prop, (forall a b, X (set_streamed a b s2')) -> X s2' -> X s3) as HX by (intros X X1 X2; unfold s3, streamBucketOnce; destruct (negb _); auto; apply X1).
  assert (keeps s s3) as K3 by (apply HX; by split). assert (heldDirects s3 = heldDirects s) as Hd3 by (by apply (HX (fun z => heldDirects z = heldDirects s))).
  assert (forall X : agg -> Prop, (forall a, X (set_lastWrite a s3)) -> X s3 -> X s4) as HY by (intros X X1 X2; unfold s4, recordPairWrite; destruct (time_IsZero now); auto).
  assert (keeps s s4) as K4 by (apply HY; [intros a; destruct K3; by split|done]). assert (heldDirects s4 = heldDirects s) as Hd4 by (by apply (HY (fun z => heldDirects z = heldDirects s))).
  apply op_tail; [|destruct K4; by split|done|done]. eapply op_trans; [exact O2|]. eapply op_trans; [exact O3|]. eapply op_trans; [exact O4|]. split; [by split|by apply streams_kept_ok].
Qed.

Lemma inheritLegFreeze_tail chain w s : tail (Target chain) w s (inheritLegFreeze cfg g env now chain w s).
Proof.
  unfold inheritLegFreeze. cbv zeta. set (s1 := streamFrozenOnce cfg _ w _ _ _). assert (tail (Target chain) w s s1) as T1.
  { unfold s1. eapply tail_trans; [|apply streamFrozenOnce_tail]. eapply tail_trans; [apply settleDirect_tail|apply keep_alive_tail]. }
  destruct (negb _); [done|]. eapply tail_trans; [exact T1|]. apply quiet_tail; [|by split|done]. apply (set_freeze_quiet now _ w false). split; [done|by left].
Qed.

Lemma frozenLeg_marked p w (o : orch (C := C) (D := D)) : frozenLeg (ac_freeze cfg) now p w o = false -> stateKey p w ∉ frozenThisTick o.
Proof. unfold frozenLeg. intros [E _]%orb_false_iff. by apply bool_decide_eq_false in E. Qed.

Lemma routeTarget_tail chain w edges st s : tail (Target chain) w s (fst (routeTarget cfg g env now chain w edges st s)).
Proof.
  unfold routeTarget. destruct (ls_hardErr st); [apply tail_refl|]. destruct (CombineRoutes _ _ _ _ _) as [r|[]]; try apply tail_refl.
  - cbv zeta. destruct (frozenLeg _ _ _ _ _) eqn:EF; [apply writeCompositeMeta_tail|]. destruct (_ || _); [apply writeCompositeMeta_tail|]. unfold refuseProxyPivot. destruct (pivotComposition _ _ _ _) as [[shares [refusal|]] unverified]; [apply writeCompositeMeta_tail|].
    destruct (composite r); [|apply tail_refl]. apply publishComposite_tail. by eapply frozenLeg_marked.
  - destruct (ls_frozen st); [|apply tail_refl]. destruct (tickEdgePrice _ _ _); [apply tail_refl|apply inheritLegFreeze_tail].
Qed.

Lemma settle_target_tail w edges x s : tail (Target x.1) w s (settle_target cfg g env now w edges x s).
Proof.
  unfold settle_target. pose proof (routeTarget_tail x.1 w edges x.2 s) as HR. destruct (routeTarget _ _ _ _ _ _ _ _ _) as [s1 o]. cbn [fst] in HR. eapply tail_trans; [exact HR|apply settleDirect_tail].
Qed.

(** *** The second half of a tick *)

(** A sequence of steps on markets that satisfy [A]. *)
Inductive tails (A : Pair -> Duration -> Prop) : agg (C := C) (D := D) -> agg -> Prop :=
| tails_done s : tails A s s
| tails_step s1 s2 s3 p w : A p w -> tail p w s1 s2 -> tails A s2 s3 -> tails A s1 s3.

Lemma tails_app A s1 s2 s3 : tails A s1 s2 -> tails A s2 s3 -> tails A s1 s3.
Proof. induction 1; [done|]. intros. econstructor; eauto. Qed.

Lemma tails_foldl {X} A (f : agg -> X -> agg) l : (forall s x, x ∈ l -> tails A s (f s x)) -> forall s, tails A s (foldl f s l).
Proof. induction l as [|x l IH]; intros Hf s; [constructor|]. cbn [foldl]. eapply tails_app; [apply Hf; by left|]. apply IH. intros s' y Hy. apply Hf. by right. Qed.

Lemma tail_one (A : Pair -> Duration -> Prop) p w s s' : A p w -> tail p w s s' -> tails A s s'.
Proof. intros HA HT. econstructor; [exact HA|exact HT|constructor]. Qed.

Lemma tails_stream A s s' : tails A s s' -> stream_ok T s -> stream_ok T s'.
Proof. induction 1 as [|s1 s2 s3 p w HA HT HR IH]; [done|]. intros HS. by apply IH, (tl_stream _ _ _ _ HT). Qed.

Lemma tails_keeps A s s' : tails A s s' -> keeps s s'.
Proof. induction 1 as [|s1 s2 s3 p w HA HT HR IH]; [apply keeps_refl|]. eapply keeps_trans; [exact (tl_keeps _ _ _ _ HT)|done]. Qed.

Lemma triangulateAll_tails upto s : tails (scope cfg) s (triangulateAll cfg g env now upto s).
Proof.
  unfold triangulateAll. destruct (Triangulations cfg) as [|c0 cs] eqn:EC; [constructor|]. apply tails_foldl. intros s1 w Hw. assert (w ∈ Windows (ac_freeze cfg)) by (destruct upto as [n|]; [|done]; apply list_elem_of_In in Hw; apply list_elem_of_In; rewrite <- (take_drop n); apply in_or_app; by left). unfold triangulateWindow. destruct (buildWindowEdges _ _ _ _ _ _) as [edges status].
  apply tails_foldl. intros s2 [chain st] Hin. eapply tail_one; [|apply settle_target_tail]. split; [|done]. right. exists chain. split; [|done].
  apply list_elem_of_In, in_combine_l in Hin. by apply list_elem_of_In.
Qed.

Lemma flush_tails ended s : tails (fun p w => exists k h, heldDirects s !! k = Some h /\ hd_pair h = p /\ hd_window h = w) s (flushHeldDirect cfg env now ended s).
Proof.
  unfold flushHeldDirect. apply tails_foldl. intros s1 [k h] Hin%elem_of_map_to_list. apply (tail_one _ (hd_pair h) (hd_window h)); [by exists k, h|]. cbn [snd].
  destruct ended; [apply drop_held_tail|apply settleDirect_tail].
Qed.

Lemma gauges_same s : exists x, emitStalenessGauges cfg now s = set_lastWrite x s.
Proof.
  unfold emitStalenessGauges. assert (exists x, s = set_lastWrite x s) as HS by (exists (lastWriteAt s); by destruct s). revert HS. generalize s at 1 3 as s1. induction (Pairs cfg) as [|p ps IH]; intros s1 [x ->]; cbn [foldl]; [by exists x|].
  apply IH. destruct (_ !! _); [by exists x|]. unfold recordPairWrite. destruct (time_IsZero now); [by exists x|]. by eexists.
Qed.

(** The second half, from the state that the refreshes left. *)
Definition second_half (cut : bool) (upto : option nat) (ended : bool) s : agg := emitStalenessGauges cfg now (flushHeldDirect cfg env now ended (if cut then s else triangulateAll cfg g env now upto s)).

Lemma second_half_stream cut upto ended s : stream_ok T s -> stream_ok T (second_half cut upto ended s).
Proof.
  intros HS. unfold second_half. destruct (gauges_same (flushHeldDirect cfg env now ended (if cut then s else triangulateAll cfg g env now upto s))) as [x ->].
  apply (streams_kept_ok _ (flushHeldDirect cfg env now ended (if cut then s else triangulateAll cfg g env now upto s))); [done|].
  eapply tails_stream; [apply flush_tails|]. destruct cut; [done|]. eapply tails_stream; [apply triangulateAll_tails|done].
Qed.

Lemma second_half_keeps cut upto ended s : keeps s (second_half cut upto ended s).
Proof.
  unfold second_half. set (s1 := if cut then s else triangulateAll cfg g env now upto s). assert (keeps s s1) as K1 by (unfold s1; destruct cut; [apply keeps_refl|eapply tails_keeps, triangulateAll_tails]).
  destruct (gauges_same (flushHeldDirect cfg env now ended s1)) as [x ->]. pose proof (tails_keeps _ _ _ (flush_tails ended s1)) as K2. eapply keeps_trans; [exact K1|]. destruct K2. by split.
Qed.

(** Marks hold through the second half. *)
Record late s0 s : Prop := { lt_held : held_ok cfg s; lt_stream : stream_ok T s; lt_calm : forall p w, scope cfg p w -> calm s0 s p w }.

Lemma tail_late s0 s s' p w : names_ok cfg -> scope cfg p w -> tail p w s s' -> late s0 s -> late s0 s'.
Proof.
  intros HN Hsc HT [L1 L2 L3]. assert (held_own s p w) as HO.
  { intros h Hh. destruct (L1 _ _ Hh) as [Ek Hsh]. destruct (HN p w (hd_pair h) (hd_window h) Hsc Hsh) as [-> ->]; [by left|done]. }
  pose proof (tl_frame _ _ _ _ HT L2 HO) as HF. split; [|by apply (tl_stream _ _ _ _ HT)|].
  - intros k h. destruct (tl_held _ _ _ _ HT) as [->| ->]; [apply L1|]. intros [_ Hh]%lookup_delete_Some. by apply L1.
  - intros p' w' Hs'. destruct (decide ((p', w') = (p, w))) as [[= -> ->]|Hne]; [|destruct (other_market cfg p w p' w' HN Hsc Hs' Hne); by eapply calm_frame; eauto].
    intros Hin. rewrite (kp_marks _ _ (tl_keeps _ _ _ _ HT)) in Hin. destruct (L3 p w Hsc Hin) as (U1 & U2 & U3). pose proof (tl_quiet _ _ _ _ HT Hin U1) as HQ.
    split; [by rewrite (q_held _ _ _ _ _ HQ)|]. split; [intros cp E; by apply U2, (q_comparator _ _ _ _ _ HQ)|].
    intros b e E. destruct (q_value _ _ _ _ _ HQ b e E) as [[e0 E0]|(cp & Ec & ->)]; [by eapply U3|]. right. exists cp. split; [|done]. by apply U2.
Qed.

Lemma tails_late A s0 s s' : names_ok cfg -> (forall p w, A p w -> scope cfg p w) -> tails A s s' -> late s0 s -> late s0 s'.
Proof. intros HN HA. induction 1 as [|s1 s2 s3 p w Ha HT HR IH]; [done|]. intros HL. apply IH. eapply tail_late; eauto. Qed.

Lemma second_half_late cut upto ended s0 s : names_ok cfg -> late s0 s -> late s0 (second_half cut upto ended s).
Proof.
  intros HN HL. unfold second_half. set (s1 := if cut then s else triangulateAll cfg g env now upto s).
  assert (late s0 s1) as L1 by (unfold s1; destruct cut; [done|]; eapply tails_late; [done|by intros ? ?|apply triangulateAll_tails|done]).
  destruct (gauges_same (flushHeldDirect cfg env now ended s1)) as [x ->].
  assert (late s0 (flushHeldDirect cfg env now ended s1)) as [M1 M2 M3].
  { eapply tails_late; [done| |apply flush_tails|done]. intros p w (k & h & Hh & <- & <-). by apply (lt_held _ _ L1 k h). }
  split; [done| |done]. by apply (streams_kept_ok _ (flushHeldDirect cfg env now ended s1)).
Qed.

Lemma Tick_halves done_ upto late_ s : exists cut ended, Tick cfg g env now done_ upto late_ s = second_half cut upto ended (fst (refreshAllPairs cfg g env now done_ (start_tick s))).
Proof. unfold Tick, second_half. eauto. Qed.

(** *** The refreshes *)

Lemma refresh_op p w s : op_ok now p w s (fst (refreshPairWindow cfg g env now p w s)).
Proof.
  assert (op_ok now p w s (fst (refresh_fresh cfg g env now p w T s))) as HR.
  { unfold refresh_fresh. pose proof (q_op _ _ _ _ _ (ageComparator_quiet cfg now p w s)) as O1. set (s1 := ageComparator cfg now (stateKey p w) s) in *.
    pose proof (decideBucket_spec cfg g env now p w s1) as HS. destruct (decideBucket cfg g env now p w T s1) as [s2 r]. destruct HS as (O2 & _ & _).
    destruct r as [pub|]; cbn [fst]; [|by eapply op_trans]. eapply op_trans; [exact O1|]. eapply op_trans; [exact O2|].
    match goal with |- op_ok _ _ _ _ (set_decided _ ?s3) => eapply (op_trans now p w _ s3) end; [destruct (_ && _); [apply streamFrozenOnce_op|apply op_refl]|].
    split; [split; intros; cbn; try done; by apply lookup_insert_ne|by apply streams_kept_ok]. }
  unfold refreshPairWindow. destruct (decidedBuckets s !! stateKey p w) as [d|]; [|done]. destruct (time_Equal (db_end d) T) eqn:Et; [|done]. apply Z.eqb_eq in Et.
  unfold replayDecidedBucket. set (s1 := if db_frozen d then _ else s). set (s2 := match db_reading d with Some r => _ | None => s1 end).
  assert (op_ok now p w s s1) as O1 by (unfold s1; destruct (db_frozen d); [|apply op_refl]; apply (set_freeze_op now p w true); split; [done|by right]).
  assert (op_ok now p w s1 s2) as O2 by (unfold s2; destruct (db_reading d); [|apply op_refl]; split; [by split|by apply streams_kept_ok]).
  eapply op_trans; [exact O1|]. destruct (db_published d) as [pub|]; [|done]. eapply op_trans; [exact O2|]. rewrite Et. apply publishDirect_op.
Qed.

Definition refresh_all jobs (x : agg * bool) : agg * bool :=
  foldl (fun (x : agg * bool) (job : Pair * Duration) => let '(s, ok) := refreshPairWindow cfg g env now job.1 job.2 x.1 in (s, x.2 || negb ok)) x jobs.

(** What every refresh keeps is kept. *)
Lemma refresh_all_kept (I : agg -> Prop) : (forall p w s, I s -> I (fst (refreshPairWindow cfg g env now p w s))) -> forall jobs x, I x.1 -> I (refresh_all jobs x).1.
Proof.
  intros HI. induction jobs as [|[p w] jobs IH]; intros x Hx; [done|]. unfold refresh_all. cbn [foldl fst snd]. apply IH. pose proof (HI p w x.1 Hx) as HS. by destruct (refreshPairWindow cfg g env now p w x.1).
Qed.

(** What decides the next buckets of a market. *)
Definition memory (k : key) s := (comparators s !! k, frozenPrevVWAPs s !! k, scoredMinutes s !! k, decidedBuckets s !! k, freezeStates (a_freeze s) !! k).

Lemma frame_memory p w k s s' : frame p w s s' -> k <> stateKey p w -> memory k s' = memory k s.
Proof.
  intros HF Hk. unfold memory. by rewrite (fr_comparators _ _ _ _ HF k Hk), (fr_shadow _ _ _ _ HF k Hk), (fr_scored _ _ _ _ HF k Hk), (fr_decided _ _ _ _ HF k Hk), (fr_states _ _ _ _ HF k Hk).
Qed.

Lemma keeps_memory k s s' : keeps s s' -> memory k s' = memory k s.
Proof. intros []. unfold memory. congruence. Qed.

Lemma publishDirect_memory k p w pub t s : memory k (fst (publishDirect cfg env now p w pub t s)) = memory k s.
Proof.
  unfold publishDirect. destruct (isTriangulationTarget cfg p); [done|]. destruct (serveDirect_keeps p w pub t now s) as [K _]. destruct (serveDirect cfg env now p w pub t now s) as [s1 ok]. cbn [fst] in K.
  apply (keeps_memory k) in K. by destruct ok.
Qed.

Lemma refresh_memory k d p w s : decidedBuckets s !! k = Some d -> db_end d = T -> memory k (fst (refreshPairWindow cfg g env now p w s)) = memory k s.
Proof.
  intros Ed Et. destruct (decide (k = stateKey p w)) as [->|Hk]; [|by eapply frame_memory; [apply refresh_op|]]. unfold refreshPairWindow. rewrite Ed. unfold time_Equal. rewrite Et, Z.eqb_refl.
  unfold replayDecidedBucket. destruct (db_published d); [rewrite publishDirect_memory|cbn [fst]]; destruct (db_frozen d), (db_reading d); done.
Qed.

Lemma Tick_memory k d done_ upto late_ s : decidedBuckets s !! k = Some d -> db_end d = T -> memory k (Tick cfg g env now done_ upto late_ s) = memory k s.
Proof.
  intros Ed Et. destruct (Tick_halves done_ upto late_ s) as (cut & ended & ->). rewrite (keeps_memory k _ _ (second_half_keeps cut upto ended _)). unfold refreshAllPairs. fold (refresh_all (match done_ with Some n => take n (refresh_jobs cfg) | None => refresh_jobs cfg end) (start_tick s, false)).
  apply (refresh_all_kept (fun s' => memory k s' = memory k s)); [|done]. intros p w s' E. rewrite <- E. apply (refresh_memory k d); [|done]. assert (decidedBuckets s' !! k = decidedBuckets s !! k) as -> by (unfold memory in E; congruence). done.
Qed.

Lemma Tick_stream T0 done_ upto late_ s : T0 <= T -> stream_ok T0 s -> stream_ok T (Tick cfg g env now done_ upto late_ s).
Proof.
  intros HT [A1 A2 A3 A4]. destruct (Tick_halves done_ upto late_ s) as (cut & ended & ->). apply second_half_stream. unfold refreshAllPairs. fold (refresh_all (match done_ with Some n => take n (refresh_jobs cfg) | None => refresh_jobs cfg end) (start_tick s, false)).
  apply refresh_all_kept; [intros p w s'; apply refresh_op|]. cbn [fst]. split; cbn; try done. intros k t E. specialize (A1 k t E). lia.
Qed.

(** *** A tick and its marks *)

Lemma refresh_jobs_ok : NoDup (Pairs cfg) -> NoDup (Windows (ac_freeze cfg)) -> NoDup (refresh_jobs cfg) /\ Forall (fun j => scope cfg j.1 j.2) (refresh_jobs cfg).
Proof.
  intros HP HW. assert (refreshOrder (ac_reference cfg) (Triangulations cfg) (Pairs cfg) ≡ₚ Pairs cfg) as HR.
  { unfold refreshOrder. destruct (_ || _); [done|]. apply filter_split_perm. }
  assert (forall j, j ∈ refresh_jobs cfg <-> j.1 ∈ Pairs cfg /\ j.2 ∈ Windows (ac_freeze cfg)) as HI.
  { intros [p w]. unfold refresh_jobs. rewrite list_elem_of_In, in_flat_map. setoid_rewrite in_map_iff. setoid_rewrite <- list_elem_of_In. cbn [fst snd]. setoid_rewrite HR. split; [intros (x & Hx & y & [= -> ->] & Hy); done|]. intros [Hp Hw]. exists p. split; [done|]. by exists w. }
  split; [|apply Forall_forall; intros j Hj%HI; destruct Hj as [J1 J2]; split; [by left|done]]. unfold refresh_jobs. rewrite <- HR in HP. clear HR HI. induction HP as [|p ps Hn HP IH]; [constructor|]. cbn [flat_map].
  apply NoDup_app. split; [apply NoDup_fmap_2; [|done]; by intros ? ? [= ->]|]. split; [|done]. intros [x y] (w & [= -> ->] & _)%list_elem_of_fmap. rewrite list_elem_of_In, in_flat_map. setoid_rewrite in_map_iff.
  intros (q & Hq & y & [= -> ->] & _). apply Hn. by apply list_elem_of_In.
Qed.

Lemma start_inv s : decided_ok s -> tick_inv cfg now (start_tick s) [] (start_tick s).
Proof. intros HD. by split. Qed.

Lemma Tick_calm T0 done_ upto late_ s : T0 <= T -> stream_ok T0 s -> decided_ok s -> names_ok cfg -> NoDup (Pairs cfg) -> NoDup (Windows (ac_freeze cfg)) ->
  decided_ok (Tick cfg g env now done_ upto late_ s) /\ forall p w, scope cfg p w -> calm s (Tick cfg g env now done_ upto late_ s) p w.
Proof.
  intros HT [A1 A2 A3 A4] HD HN HP HW. destruct (refresh_jobs_ok HP HW) as [J1 J2]. set (jobs := match done_ with Some n => take n (refresh_jobs cfg) | None => refresh_jobs cfg end).
  assert (NoDup jobs) as N1 by (unfold jobs; destruct done_; [|done]; eapply sublist_NoDup; [done|apply sublist_take]).
  assert (Forall (fun j => scope cfg j.1 j.2) jobs) as N2 by (unfold jobs; destruct done_; [|done]; by apply Forall_take).
  pose proof (refreshes_inv cfg g env now (start_tick s) jobs HN N1 N2 [] (start_tick s) false (fun j _ => not_elem_of_nil j) (start_inv s HD)) as HI. destruct (Tick_halves done_ upto late_ s) as (cut & ended & ->). unfold refreshAllPairs. fold jobs.
  set (s1 := fst (foldl _ _ jobs)) in *. assert (stream_ok T (start_tick s)) as HS by (split; cbn; try done; intros k t E; specialize (A1 k t E); lia).
  assert (late (start_tick s) s1) as HL by (split; [exact (ti_held _ _ _ _ _ HI)|exact (ti_stream _ _ _ _ _ HI HS)|exact (ti_calm _ _ _ _ _ HI)]).
  split; [|exact (lt_calm _ _ (second_half_late cut upto ended _ _ HN HL))].
  intros k d. rewrite (kp_decided _ _ (second_half_keeps cut upto ended s1)). apply (ti_decided _ _ _ _ _ HI).
Qed.
End Tails.

(** ** Keys of a deployment *)

Lemma compact_In l x : x ∈ compact l -> x ∈ l.
Proof.
  induction l as [|a [|b l] IH]; [done|done|]. change (compact (a :: b :: l)) with (if a =? b then compact (b :: l) else a :: compact (b :: l)). destruct (a =? b).
  - intros Hx. right. by apply IH.
  - intros [->|Hx]%elem_of_cons; [by left|]. right. by apply IH.
Qed.

Lemma compact_NoDup l : StronglySorted (fun a b => (a <=? b) = true) l -> NoDup (compact l).
Proof.
  induction 1 as [|a l HS IH HF]; [constructor|]. destruct l as [|b l]; [apply NoDup_singleton|]. change (compact (a :: b :: l)) with (if a =? b then compact (b :: l) else a :: compact (b :: l)).
  destruct (Z.eqb_spec a b) as [->|Hne]; [done|]. apply NoDup_cons. split; [|done]. intros Hin%compact_In. apply Forall_cons in HF as [Hab _]. apply StronglySorted_inv in HS as [_ HF]. rewrite Forall_forall in HF.
  apply elem_of_cons in Hin as [->|Hin]; [done|]. specialize (HF a Hin). bprop. lia.
Qed.

Lemma effectiveWindows_NoDup ws : NoDup (effectiveWindows ws).
Proof.
  unfold effectiveWindows. assert (NoDup (normalizeWindows ws)) as HN by (apply compact_NoDup, isort_sorted; [intros a b; destruct (Z.leb_spec a b), (Z.leb_spec b a); auto; lia|intros a b c; bprop; lia]). destruct (normalizeWindows ws); [|done].
  by apply (bool_decide_unpack (NoDup DefaultWindows)).
Qed.

Lemma effectiveWindows_In ws w : w ∈ effectiveWindows ws -> w ∈ ws \/ w ∈ DefaultWindows.
Proof.
  unfold effectiveWindows. destruct (normalizeWindows ws) as [|a l] eqn:E; [by right|]. rewrite <- E. intros Hw%compact_In. left. rewrite elem_of_isort, elem_of_List_filter in Hw. by destruct Hw.
Qed.

(** Valid pairs, each listed once, and windows of whole seconds. *)
Definition deployable `{Strkey} (cfg : AggConfig) : Prop :=
  NoDup (Pairs cfg) /\ Forall (fun p => Pair_Validate p = Ok tt) (Pairs cfg ++ map Target (Triangulations cfg)) /\ Forall (fun w => Z.rem w Second = 0) (Windows (ac_freeze cfg)).

Lemma Pair_String_inj `{StrkeyLaws} p q : Pair_Validate p = Ok tt -> Pair_Validate q = Ok tt -> Pair_String p = Pair_String q -> p = q.
Proof. intros Hp%ParsePair_String_valid Hq%ParsePair_String_valid E. congruence. Qed.

Lemma Pair_parts_inj `{StrkeyLaws} p q : Pair_Validate p = Ok tt -> Pair_Validate q = Ok tt -> Asset_String (Base p) = Asset_String (Base q) -> Asset_String (Quote p) = Asset_String (Quote q) -> p = q.
Proof. intros Hp Hq E1 E2. apply Pair_String_inj; try done. unfold Pair_String. by rewrite E1, E2. Qed.

Lemma deployable_names `{StrkeyLaws} cfg : deployable cfg -> names_ok (New_config cfg).
Proof.
  intros (_ & HV & HW). rewrite Forall_app, !Forall_forall in HV. destruct HV as [V1 V2]. rewrite Forall_forall in HW.
  assert (forall p w, scope (New_config cfg) p w -> Pair_Validate p = Ok tt /\ Z.rem w Second = 0) as HS.
  { intros p w [Hp Hw]. cbn in Hp, Hw. split; [destruct Hp as [Hp|(chain & Hc & <-)]; [by apply V1|by apply V2, list_elem_of_fmap; exists chain]|].
    apply effectiveWindows_In in Hw as [Hw|Hw]; [by apply HW|]. repeat (apply elem_of_cons in Hw as [->|Hw]; [done|]). by apply elem_of_nil in Hw. }
  intros p w p' w' [P1 W1]%HS [P2 W2]%HS [[= E ->]|[= E1 E2 E3]]; [by split; [apply Pair_String_inj|]|]. split; [by apply Pair_parts_inj|].
  rewrite (Z.quot_rem' w Second), (Z.quot_rem' w' Second), W1, W2, E3. done.
Qed.

(** ** Runs *)

Section Runs.
Context {C D : Type} `{RedisCache C} `{LadderDB D} `{SL : StrkeyLaws} `{FloatText} `{MathLib} `{RatText}.
Context (cfg : AggConfig).

(** The states that a process reaches tick by tick; the clock does not go back
    to an earlier bucket. *)
Inductive ran : Time -> agg (C := C) (D := D) -> Prop :=
| ran_new t w c : ran t (New w c)
| ran_tick t s g env now done_ upto late_ : ran t s -> t <= time_Truncate now closedBucket ->
    ran (time_Truncate now closedBucket) (Tick (New_config cfg) g env now done_ upto late_ s).

Lemma ran_stream t s : ran t s -> stream_ok t s.
Proof. induction 1 as [t w c|t s g env now done_ upto late_ HR IH HT]; [|by eapply Tick_stream]. split; cbn; try done; [|constructor]. by intros ev Hev%elem_of_nil. Qed.

Lemma ran_decided t s : deployable cfg -> ran t s -> decided_ok s.
Proof.
  intros HD. induction 1 as [t w c|t s g env now done_ upto late_ HR IH HT]; [by intros k d|]. eapply Tick_calm; [exact HT|by apply ran_stream|done|by apply deployable_names| |].
  - apply HD.
  - apply effectiveWindows_NoDup.
Qed.
End Runs.

(** ** The claims *)


(** C3: a frozen price is never replaced. After a tick of a process that runs
    on a valid configuration, a market that the tick marked frozen, direct or
    composed, serves a value that was in the cache before the tick or the
    last price that was published, and it has no newer comparator. *)
Theorem frozen_price_kept {C D : Type} `{RedisCache C} `{LadderDB D} `{StrkeyLaws} `{FloatText} `{MathLib} `{RatText} cfg t (s : agg (C := C) (D := D)) g env now done_ upto late_ p w :
  deployable cfg -> ran cfg t s -> t <= time_Truncate now closedBucket -> scope (New_config cfg) p w ->
  let s' := Tick (New_config cfg) g env now done_ upto late_ s in
  stateKey p w ∈ frozenThisTick (a_freeze s') ->
  (forall b e, served s' !! key_of KValue p w = Some (b, e) -> value_from p w s b)
  /\ (forall cp, comparators s' !! stateKey p w = Some cp -> comparators s !! stateKey p w = Some cp).
Proof.
  intros HD HR HT Hsc s' Hin. destruct (Tick_calm (New_config cfg) g env now t done_ upto late_ s HT (ran_stream cfg t s HR) (ran_decided cfg t s HD HR) (deployable_names cfg HD) (proj1 HD) (effectiveWindows_NoDup _)) as [_ HC].
  destruct (HC p w Hsc Hin) as (_ & U2 & U3). by split.
Qed.

(** C18: a bucket is decided once. A tick in a minute that a market was decided
    in leaves everything that later decisions are made of as it is: the
    comparator, the shadow price of a freeze, the last scored minute, the
    decision and the state of the freeze. *)
Theorem bucket_decided_once {C D : Type} `{RedisCache C} `{LadderDB D} `{Strkey} `{FloatText} `{MathLib} `{RatText} cfg (s : agg (C := C) (D := D)) g env now done_ upto late_ k d :
  decidedBuckets s !! k = Some d -> db_end d = time_Truncate now closedBucket ->
  let s' := Tick cfg g env now done_ upto late_ s in
  comparators s' !! k = comparators s !! k /\ frozenPrevVWAPs s' !! k = frozenPrevVWAPs s !! k /\ scoredMinutes s' !! k = scoredMinutes s !! k
  /\ decidedBuckets s' !! k = Some d /\ freezeStates (a_freeze s') !! k = freezeStates (a_freeze s) !! k.
Proof. intros Ed Et s'. pose proof (Tick_memory cfg g env now k d done_ upto late_ s Ed Et) as HM. unfold memory in HM. fold s' in HM. injection HM as E1 E2 E3 E4 E5. rewrite E4. by split_and!. Qed.

(** ** A run *)

#[local] Instance run_text : FloatText := {| shortest_decimal _ := Some 0%Q |}.
#[local] Instance run_math : MathLib := coarse_math.
#[local] Instance run_strkey : Strkey := plain_strkey.
#[local] Instance run_strkey_laws : StrkeyLaws := plain_strkey_laws.
#[local] Instance run_rat : RatText := decimal_text.

(** Lumens in dollars, in two windows, and in pounds through dollars. The hour
    is held by a freeze of the process before, whose price is still served. *)
Definition run_cfg : AggConfig := mkAggConfig evidence_cfg cfg_ex reference_ex [xlm_usd] chains_ex 0 f64_zero 0 0 true.
Definition run_table : list Trade := [trade_ex "kraken" (Minute + 5) 10000 1200; trade_ex "coinbase" (2 * Minute + 1) 10000 1201].
Definition run_env : inputs :=
  mkInputsT (table_store run_table Hour (fun _ _ _ => false)) (Some (fun _ now => FXQuote (Some (8 # 10)%Q) now "ecb")) None (fun _ => None)
    (fun _ _ => false) (fun _ _ => false) (fun _ _ => false).
Definition run_cache : ServedCache := {[ key_of KValue xlm_usd Hour := (BValue "0.130000000000", Hour) ]}.
Definition run0 : agg (C := map_cache) (D := map_db) := New world_ex run_cache.
Definition run1 := Tick (New_config run_cfg) init_globals run_env (3 * Minute) None None false run0.
Definition run2 := Tick (New_config run_cfg) init_globals run_env (3 * Minute + 30 * Second) None None false run1.

(** The five minutes are published and composed, the hours are held; the
    second tick of the minute adds nothing to the stream. *)
Example run_streams : events run2 =
  [ClosedBucket (stateKey xlm_usd (5 * Minute)) "0.120050000000" (3 * Minute) (Some (mkCoverage false zero_time));
   FrozenBucket (stateKey xlm_usd Hour) (3 * Minute) 0;
   ClosedBucket (stateKey xlm_gbp (5 * Minute)) "0.096040000000" (3 * Minute) None;
   FrozenBucket (stateKey xlm_gbp Hour) (3 * Minute) zero_time].
Proof. vm_compute. reflexivity. Qed.


Lemma frozen_price_kept_witness : served run2 !! key_of KValue xlm_usd Hour = Some (BValue "0.130000000000", 35 * Minute) /\ value_from xlm_usd Hour run1 (BValue "0.130000000000").
Proof.
  assert (served run2 !! key_of KValue xlm_usd Hour = Some (BValue "0.130000000000", 35 * Minute)) as HV by (vm_compute; reflexivity). split; [exact HV|].
  assert (deployable run_cfg) as HD by (split; [apply NoDup_singleton|split; repeat constructor; vm_compute; reflexivity]).
  assert (ran run_cfg (time_Truncate (3 * Minute) closedBucket) run1) as HR by (apply (ran_tick run_cfg 0); [apply ran_new|vm_compute; discriminate]).
  assert (time_Truncate (3 * Minute) closedBucket <= time_Truncate (3 * Minute + 30 * Second) closedBucket) as HT by (vm_compute; discriminate).
  assert (scope (New_config run_cfg) xlm_usd Hour) as HS by (split; [left; by left|apply (bool_decide_unpack (Hour ∈ [5 * Minute; Hour])); vm_compute; exact I]).
  assert (stateKey xlm_usd Hour ∈ frozenThisTick (a_freeze run2)) as HM by (apply (bool_decide_unpack (stateKey xlm_usd Hour ∈ frozenThisTick (a_freeze run2))); vm_compute; exact I).
  unfold run2 in HV, HM. exact (proj1 (frozen_price_kept run_cfg _ run1 init_globals run_env _ None None false xlm_usd Hour HD HR HT HS HM) _ _ HV).
Defined.

Lemma bucket_decided_once_witness : option_map db_frozen (decidedBuckets run2 !! stateKey xlm_usd Hour) = Some true.
Proof.
  destruct (decidedBuckets run1 !! stateKey xlm_usd Hour) as [d|] eqn:Ed; [|vm_compute in Ed; discriminate].
  assert (db_end d = time_Truncate (3 * Minute + 30 * Second) closedBucket /\ db_frozen d = true) as [E1 E2].
  { assert (option_map (fun x => (db_end x, db_frozen x)) (decidedBuckets run1 !! stateKey xlm_usd Hour) = Some (3 * Minute, true)) as E by (vm_compute; reflexivity). rewrite Ed in E. injection E as -> ->. split; vm_compute; reflexivity. }
  destruct (bucket_decided_once (New_config run_cfg) run1 init_globals run_env (3 * Minute + 30 * Second) None None false _ d Ed E1) as (_ & _ & _ & E & _).
  unfold run2. rewrite E. cbn [option_map]. by rewrite E2.
Defined.
