(* ===== verification/Divergence.v ===== *)
(** * Comparison with outside references
    (internal/divergence: reference.go, compare.go, oracle.go, synthetic.go,
    worker.go; internal/aggregate/orchestrator/divergence_refresh.go)

    A pair's price is compared with what other publishers say. The references
    are asked at once and answer in any order or too late; the verdict of a pair
    is debounced over refreshes, survives restarts through the cache, and calls
    a hook once per episode. The cached verdict is what [Evidence] reads.

    A reference is its name and its answers, as a function of the pair, the time
    of the comparison and the wall clock; either may panic. Names are compared,
    texts of errors are left out, and so are gauges and log lines. *)

From S2P Require Import Prelude GoLib Float64 Rounding Amount Asset Alias Trade RobustStat Window Proxy Outliers Router Sources Render WindowFetch.
From S2P Require Import Confidence Baseline Anomaly Freeze FreezeStore FreezeControl PriceGuard Evidence Orchestrator.
From Stdlib Require Import Floats.SpecFloat.

(** ** References (reference.go) *)

Inductive ref_error := ErrAssetUnsupported | ErrPriceUnavailable | ErrTooStaleToCompare | errReferencePanicked | DeadlineExceeded | OtherError.
#[export] Instance ref_error_eq_dec : EqDecision ref_error.
Proof. solve_decision. Defined.

(** [Quote]; the router has one of its own. *)
Record RefQuote := mkRefQuote { rq_Price : float64; rq_AsOf : Time }.

Inductive reply := Answered (q : RefQuote) | Failed (e : ref_error) | Panicked.

(** A name that cannot be had without a panic is [None]. *)
Record Reference := mkReference_ { rf_Name : option string; LookupQuote : Pair -> Time -> Time -> reply }.

Definition safeName (r : Reference) : string := default "_unknown" (rf_Name r).

Definition DefaultMaxComparableAge : Duration := Hour.
Definition DefaultMaxComparableAgeFX : Duration := 76 * Hour.
Definition MaxComparableAge (pair : Pair) : Duration :=
  if bool_decide (Type_ (Base pair) = AssetFiat) && bool_decide (Type_ (Quote pair) = AssetFiat) then DefaultMaxComparableAgeFX else DefaultMaxComparableAge.

Definition checkComparable (q : RefQuote) (pair : Pair) (observedAt wall : Time) : option ref_error :=
  if time_IsZero (rq_AsOf q) then Some ErrTooStaleToCompare
  else
    let observedAt := if time_IsZero observedAt then wall else observedAt in
    if MaxComparableAge pair <? time_Sub observedAt (rq_AsOf q) then Some ErrTooStaleToCompare else None.

(** ** One comparison (compare.go) *)

Inductive ref_outcome :=
| OutcomeOK | OutcomeAssetUnsupported | OutcomePriceUnavailable | OutcomeTooStale | OutcomeInvalidPrice | OutcomeTimeout | OutcomeDeadlineExceeded
| OutcomePanicked | OutcomeError.
#[export] Instance ref_outcome_eq_dec : EqDecision ref_outcome.
Proof. solve_decision. Defined.

Definition errorOutcome (e : ref_error) : ref_outcome :=
  match e with
  | ErrAssetUnsupported => OutcomeAssetUnsupported
  | ErrPriceUnavailable => OutcomePriceUnavailable
  | ErrTooStaleToCompare => OutcomeTooStale
  | errReferencePanicked => OutcomePanicked
  | DeadlineExceeded => OutcomeTimeout
  | OtherError => OutcomeError
  end.

Definition isFinitePositive (x : float64) : bool := negb (IsNaN x) && negb (IsInf x) && f64_lt f64_zero x.

(** Of a sorted list. *)
Definition median (sorted : list float64) : float64 :=
  let n := length sorted in
  if (n =? 0)%nat then f64_zero
  else if Nat.odd n then default f64_zero (sorted !! Nat.div2 n)
  else f64_div (f64_add (default f64_zero (sorted !! (Nat.div2 n - 1)%nat)) (default f64_zero (sorted !! Nat.div2 n))) f64_two.

Record fetchOutcome := mkFetchOutcome { fo_name : string; fo_price : float64; fo_asOf : Time; fo_err : option ref_error }.

(** What one goroutine sends. *)
Definition fetch_one (pair : Pair) (observedAt wall : Time) (r : Reference) : fetchOutcome :=
  match LookupQuote r pair observedAt wall with
  | Panicked => mkFetchOutcome (safeName r) f64_zero zero_time (Some errReferencePanicked)
  | Failed e => mkFetchOutcome (safeName r) f64_zero zero_time (Some e)
  | Answered q => mkFetchOutcome (safeName r) (rq_Price q) (rq_AsOf q) (checkComparable q pair observedAt wall)
  end.

(** [Failures] keeps the class of an error, not its text. *)
Record Comparison := mkComparison {
  dr_OurPrice : float64; dr_Median : float64; dr_DivergencePct : float64; dr_Sources : gmap string float64; dr_SourcesAsOf : gmap string Time;
  dr_Failures : gmap string ref_outcome; dr_SuccessCount : Z; dr_FailureCount : Z; dr_Outcomes : gmap string ref_outcome
}.

Record collected := mkCollected { co_sources : gmap string float64; co_asOf : gmap string Time; co_failures : gmap string ref_outcome; co_outcomes : gmap string ref_outcome; co_prices : list float64 }.

Definition fail_with (name : string) (o : ref_outcome) (c : collected) : collected :=
  mkCollected (co_sources c) (co_asOf c) (<[name := o]> (co_failures c)) (<[name := o]> (co_outcomes c)) (co_prices c).

Definition collect_one (c : collected) (o : fetchOutcome) : collected :=
  match fo_err o with
  | Some e => fail_with (fo_name o) (errorOutcome e) c
  | None =>
      if negb (isFinitePositive (fo_price o)) then fail_with (fo_name o) OutcomeInvalidPrice c
      else mkCollected (<[fo_name o := fo_price o]> (co_sources c)) (<[fo_name o := fo_asOf o]> (co_asOf c)) (co_failures c)
             (<[fo_name o := OutcomeOK]> (co_outcomes c)) (co_prices c ++ [fo_price o])
  end.

(** [late]: the deadline came before every reply did. *)
Definition collectOutcomes (pending : gset string) (late : bool) (arrived : list fetchOutcome) : collected :=
  let c := foldl collect_one (mkCollected ∅ ∅ ∅ ∅ []) arrived in
  if late then foldr (fun name c => fail_with name OutcomeDeadlineExceeded c) c (elements (pending ∖ list_to_set (map fo_name arrived))) else c.

(** [arrived]: the references that reply before the deadline, by their index,
    in the order of their replies. *)
Definition Compare (refs : list Reference) (pair : Pair) (ourPrice : float64) (observedAt wall : Time) (minSuccess : Z) (arrived : list nat) : Comparison :=
  let minSuccess := if minSuccess <=? 0 then 1 else minSuccess in
  let pending := list_to_set (map safeName refs) in
  let c := collectOutcomes pending (length arrived <? length refs)%nat (omap (fun i => fetch_one pair observedAt wall <$> refs !! i) arrived) in
  let successes := Z.of_nat (size (co_sources c)) in
  let result med pct := mkComparison ourPrice med pct (co_sources c) (co_asOf c) (co_failures c) successes (Z.of_nat (size (co_failures c))) (co_outcomes c) in
  if (length refs =? 0)%nat || (successes <? minSuccess) then result f64_zero f64_zero
  else
    let med := median (isort f64_sort_le (co_prices c)) in
    result med (if f64_lt f64_zero med then pct_dev ourPrice med else f64_zero).

Definition agrees (ourPrice thresholdPct refPrice : float64) : bool := isFinitePositive refPrice && f64_le (pct_dev ourPrice refPrice) thresholdPct.

Definition CountAgreeing (ourPrice : float64) (sources : gmap string float64) (thresholdPct : float64) : Z :=
  if negb (isFinitePositive ourPrice) || IsNaN thresholdPct || f64_lt thresholdPct f64_zero then 0
  else Z.of_nat (length (List.filter (fun kv => agrees ourPrice thresholdPct kv.2) (map_to_list sources))).

Definition countOutcome (outcomes : gmap string ref_outcome) (want : ref_outcome) : Z :=
  Z.of_nat (length (List.filter (fun kv => bool_decide (kv.2 = want)) (map_to_list outcomes))).

(** ** The oracles that are indexed (oracle.go) *)

Definition OracleSourceReflectorDEX : string := "reflector-dex".
Definition OracleSourceReflectorCEX : string := "reflector-cex".
Definition OracleSourceReflectorFX : string := "reflector-fx".
Definition OracleSourceRedstone : string := "redstone".
Definition OracleSourceBand : string := "band".
Definition OracleSourceChainlinkStellar : string := "chainlink-stellar".
Definition OracleSourceExchangeRatesAPI : string := "exchangeratesapi".

Definition CorrelatedWithOurVWAP (name : string) : bool := String.eqb name OracleSourceReflectorDEX.

Definition defaultOracleMaxAge (source : string) : Duration :=
  if String.eqb source OracleSourceRedstone then 26 * Hour
  else if String.eqb source OracleSourceBand then 26 * Hour
  else if String.eqb source OracleSourceChainlinkStellar then 26 * Hour
  else if String.eqb source OracleSourceExchangeRatesAPI then 3 * Hour
  else 30 * Minute.

Definition scaleOracleAmount (raw : Z) (decimals : Z) : option float64 :=
  if (decimals <? 0) || (38 <? decimals) then None else Some (rat_Float64 (SetFrac raw (big_Exp 10 decimals))).

(** The reader answers [None] on an error and [Some None] when it has no row. *)
Definition OracleReader : Type := string -> list string -> list string -> option (option OracleUpdate).

Definition oracle_LookupQuote (g : globals) (source : string) (reader : OracleReader) (maxAge : Duration) (pair : Pair) (observedAt wall : Time) : reply :=
  match reader source (AssetAliasStrings g (Base pair)) (AssetAliasStrings g (Quote pair)) with
  | None => Failed OtherError
  | Some None => Failed ErrAssetUnsupported
  | Some (Some u) =>
      if negb (Asset_IsMapped (ou_Asset u)) || negb (Asset_IsMapped (ou_Quote u)) then Failed ErrAssetUnsupported
      else
        let asOf := if time_IsZero observedAt then wall else observedAt in
        if maxAge <? time_Sub asOf (ou_Timestamp u) then Failed ErrPriceUnavailable
        else if Amount_Sign (ou_Price u) <=? 0 then Failed OtherError
        else match scaleOracleAmount (Amount_BigInt (ou_Price u)) (ou_Decimals u) with
             | None => Failed OtherError
             | Some price => Answered (mkRefQuote price (ou_Timestamp u))
             end
  end.

Definition NewOracleReference (g : globals) (source : string) (reader : OracleReader) (maxAge : Duration) : option Reference :=
  if String.eqb source "" then None
  else Some (mkReference_ (Some source) (oracle_LookupQuote g source reader (if maxAge <=? 0 then defaultOracleMaxAge source else maxAge))).

(** ** A price crossed through dollars (synthetic.go) *)

Definition SyntheticCrossName : string := "synthetic-usd-cross".

Definition referencePublisher (name : string) : string :=
  if String.eqb name OracleSourceReflectorDEX || String.eqb name OracleSourceReflectorCEX || String.eqb name OracleSourceReflectorFX then "reflector" else name.

Definition isUsablePrice (p : float64) : bool := f64_lt f64_zero p && negb (IsNaN p) && negb (IsInf p).

Definition lookupLeg (ref : Reference) (pair : Pair) (observedAt wall : Time) : reply :=
  let named e := match rf_Name ref with None => Panicked | Some _ => Failed e end in
  match LookupQuote ref pair observedAt wall with
  | Answered q =>
      if negb (isUsablePrice (rq_Price q)) then named OtherError
      else match checkComparable q pair observedAt wall with Some e => named e | None => Answered q end
  | r => r
  end.

(** [legFailures]: whether a failure that is not for want of a listing was
    seen. *)
Definition record_failure (sawTransient : bool) (e : ref_error) : bool := sawTransient || negb (bool_decide (e = ErrAssetUnsupported)).
Definition failures_err (sawTransient : bool) : ref_error := if sawTransient then ErrPriceUnavailable else ErrAssetUnsupported.

(** The candidates from the [i]th on; those before [done_] were asked already.
    The quote of the first usable one of another publisher, how many were asked,
    whether a transient failure and whether a usable one of the same publisher
    was met. [None] is a panic. *)
Fixpoint independent_loop (refs : list Reference) (pair : Pair) (observedAt wall : Time) (publisher : string) (done_ i : nat) (transient dependent : bool)
    : option (option RefQuote * nat * bool * bool) :=
  match refs with
  | [] => Some (None, Nat.max done_ i, transient, dependent)
  | ref :: refs =>
      match lookupLeg ref pair observedAt wall with
      | Panicked => None
      | Failed e => independent_loop refs pair observedAt wall publisher done_ (S i) (if (i <? done_)%nat then transient else record_failure transient e) dependent
      | Answered q =>
          match rf_Name ref with
          | None => None
          | Some name =>
              if String.eqb (referencePublisher name) publisher then independent_loop refs pair observedAt wall publisher done_ (S i) transient true
              else Some (Some q, Nat.max done_ (S i), transient, dependent)
          end
      end
  end.

(** The base legs one after another, with what is known of the other legs. *)
Fixpoint synthetic_loop (usdLegs fxLegs : list Reference) (basePair fxPair : Pair) (observedAt wall : Time) (baseTransient baseAnswered : bool) (done_ : nat) (transient dependent : bool) : reply :=
  match usdLegs with
  | [] =>
      Failed (if negb baseAnswered then failures_err baseTransient else if dependent then ErrPriceUnavailable else failures_err transient)
  | baseRef :: usdLegs =>
      match lookupLeg baseRef basePair observedAt wall with
      | Panicked => Panicked
      | Failed e => synthetic_loop usdLegs fxLegs basePair fxPair observedAt wall (record_failure baseTransient e) baseAnswered done_ transient dependent
      | Answered baseUSD =>
          match rf_Name baseRef with
          | None => Panicked
          | Some name =>
              match independent_loop fxLegs fxPair observedAt wall (referencePublisher name) done_ 0 transient dependent with
              | None => Panicked
              | Some (None, done_, transient, dependent) => synthetic_loop usdLegs fxLegs basePair fxPair observedAt wall baseTransient true done_ transient dependent
              | Some (Some fiatUSD, _, _, _) =>
                  let price := f64_div (rq_Price baseUSD) (rq_Price fiatUSD) in
                  if negb (isUsablePrice price) then Failed ErrPriceUnavailable else Answered (mkRefQuote price (rq_AsOf baseUSD))
              end
          end
      end
  end.

Definition usd : Asset := mkAsset AssetFiat "USD" "" "".

Definition synthetic_LookupQuote (usdLegs fxLegs : list Reference) (pair : Pair) (observedAt wall : Time) : reply :=
  if negb (bool_decide (Type_ (Quote pair) = AssetFiat)) || String.eqb (Code (Quote pair)) "USD" then Failed ErrAssetUnsupported
  else synthetic_loop usdLegs fxLegs (mkPair (Base pair) usd) (mkPair (Quote pair) usd) observedAt wall false false 0 false false.

Definition NewSyntheticCrossReference (usdLegs fxLegs : list Reference) : option Reference :=
  if (length usdLegs =? 0)%nat || (length fxLegs =? 0)%nat then None
  else Some (mkReference_ (Some SyntheticCrossName) (synthetic_LookupQuote usdLegs fxLegs)).

(** ** The service (worker.go) *)

Definition DefaultWarningPersistence : Duration := 5 * Minute.
Definition DefaultPerReferenceTimeout : Duration := 5 * Second.
Definition overallTimeoutFactor : Z := 2.
Definition cacheTTLSlack : Duration := Minute.
Definition DivergenceTTL : Duration := 5 * Minute.

Record ServiceOptions := mkServiceOptions {
  so_References : list Reference; so_Threshold : float64; so_MinSourcesForWarning : Z; so_WarningPersistence : Duration; so_RefreshInterval : Duration;
  so_Window : Duration; so_PairCount : Z; so_PerReferenceTimeout : Duration; so_hasSink : bool; so_hasHook : bool
}.

Record Service := mkService {
  sv_refs : list Reference; sv_threshold : float64; sv_minSources : Z; sv_window : Duration; sv_persistence : Duration; sv_maxGap : Duration;
  sv_cacheTTL : Duration; sv_hasSink : bool; sv_hasHook : bool
}.

Definition independentReferences (refs : list Reference) : list Reference := List.filter (fun r => negb (CorrelatedWithOurVWAP (safeName r))) refs.

Definition cacheTTL (refreshInterval : Duration) (pairs : Z) (perReference : Duration) : Duration :=
  if refreshInterval <=? 0 then DivergenceTTL
  else
    let worstPass := wraps 64 (Z.max pairs 1 * overallTimeoutFactor * perReference) in
    Z.max DivergenceTTL (wraps 64 (refreshInterval + worstPass + cacheTTLSlack)).

Definition NewService (opts : ServiceOptions) : Service :=
  let timeout := if so_PerReferenceTimeout opts <=? 0 then DefaultPerReferenceTimeout else so_PerReferenceTimeout opts in
  let persistence := if so_WarningPersistence opts =? 0 then DefaultWarningPersistence else so_WarningPersistence opts in
  mkService (independentReferences (so_References opts)) (if f64_le (so_Threshold opts) f64_zero then f64_Z 5 else so_Threshold opts)
    (if so_MinSourcesForWarning opts <=? 0 then 2 else so_MinSourcesForWarning opts) (so_Window opts) persistence
    (wraps 64 (2 * Z.max persistence (so_RefreshInterval opts))) (cacheTTL (so_RefreshInterval opts) (so_PairCount opts) timeout) (so_hasSink opts) (so_hasHook opts).

(** [CachedResult]; the fields that the confidence of a bucket reads are
    [reads]. *)
Record CachedEntry := mkEntry {
  ce_OurPrice : float64; ce_Median : float64; ce_DivergencePct : float64; ce_WarningFired : bool; ce_FiringSince : Time; ce_Sources : gmap string float64;
  ce_Failures : gmap string ref_outcome; ce_SuccessCount : Z; ce_FailureCount : Z; ce_AgreementCount : Z; ce_Pinned : bool; ce_WindowSeconds : Z; ce_ComputedAt : Time
}.

Definition reads (e : CachedEntry) : CachedResult := mkCached (ce_SuccessCount e) (ce_Pinned e) (ce_Median e) (ce_DivergencePct e) (ce_AgreementCount e).

Definition json_number (x : float64) : bool := negb (IsNaN x) && negb (IsInf x).
(** [json.Marshal] refuses a number that is not finite. *)
Definition encodable (e : CachedEntry) : bool := json_number (ce_OurPrice e) && json_number (ce_Median e) && json_number (ce_DivergencePct e).

Record firingStreak := mkStreak { fs_since : Time; fs_last : Time }.

Record ObservationRecord := mkObservation { ob_pair : Pair; ob_Reference : string; ob_OurPrice : float64; ob_RefPrice : float64; ob_DeltaPct : float64; ob_Firing : bool; ob_ObservedAt : Time; ob_RefObservedAt : Time }.

(** The maps of the service and the keys of the cache, [div:<pair>] with a body
    that decodes or not, and [div:idx:<base>] with its members; the rows of the
    sink. *)
Record svc := mkSvc {
  warningState : gmap string bool; notified : gset string; firingSince : gmap string firingStreak; restored : gset string;
  d_values : gmap string (option CachedEntry * Time); d_index : gmap string (gset string * Time); d_rows : list ObservationRecord
}.

Definition set_latches (w : gmap string bool) (n : gset string) (s : svc) : svc := mkSvc w n (firingSince s) (restored s) (d_values s) (d_index s) (d_rows s).
Definition set_streaks (f : gmap string firingStreak) (s : svc) : svc := mkSvc (warningState s) (notified s) f (restored s) (d_values s) (d_index s) (d_rows s).
Definition set_restored (r : gset string) (s : svc) : svc := mkSvc (warningState s) (notified s) (firingSince s) r (d_values s) (d_index s) (d_rows s).
Definition set_values (v : gmap string (option CachedEntry * Time)) (s : svc) : svc := mkSvc (warningState s) (notified s) (firingSince s) (restored s) v (d_index s) (d_rows s).
Definition set_members (i : gmap string (gset string * Time)) (s : svc) : svc := mkSvc (warningState s) (notified s) (firingSince s) (restored s) (d_values s) i (d_rows s).
Definition set_rows (l : list ObservationRecord) (s : svc) : svc := mkSvc (warningState s) (notified s) (firingSince s) (restored s) (d_values s) (d_index s) l.

Definition live_value (s : svc) (now : Time) (k : string) : option (option CachedEntry) :=
  match d_values s !! k with Some (e, t) => if now <? t then Some e else None | None => None end.
Definition live_members (s : svc) (now : Time) (base : string) : gset string :=
  match d_index s !! base with Some (m, t) => if now <? t then m else ∅ | None => ∅ end.

(** One refresh: what it is asked, when, and which calls fail. *)
Record refresh_input := mkRefresh {
  x_pair : Pair; x_price : float64; x_observedAt : Time; x_wall : Time; x_pinned : bool; x_arrived : list nat;
  x_get_fails : bool; x_set_fails : bool; x_sadd_fails : bool; x_expire_fails : bool; x_hook_fails : bool; x_sink_fails : string -> bool
}.

Inductive refresh_error := ErrMarshal | ErrCacheSet | ErrIndex | ErrNoReferenceResponded.

(** The published verdict, whether the refresh was one that counts, the call of
    the hook with its success, the error. *)
Record refresh_output := mkOutput { y_fired : option bool; y_recorded : option bool; y_hook : option bool; y_err : option refresh_error }.

Section Service.
Context (sv : Service).

Definition warningPersists (k : string) (rawFiring : bool) (at_ : Time) (s : svc) : svc * (bool * Time) :=
  if sv_persistence sv <=? 0 then (s, (rawFiring, zero_time))
  else if negb rawFiring then (set_streaks (delete k (firingSince s)) s, (false, zero_time))
  else
    let start := (set_streaks (<[k := mkStreak at_ at_]> (firingSince s)) s, (false, at_)) in
    match firingSince s !! k with
    | None => start
    | Some streak =>
        if time_Before at_ (fs_since streak) || ((sv_maxGap sv <? time_Sub at_ (fs_last streak)) && negb (default false (warningState s !! k))) then start
        else
          let s := if time_After at_ (fs_last streak) then set_streaks (<[k := mkStreak (fs_since streak) at_]> (firingSince s)) s else s in
          (s, (sv_persistence sv <=? time_Sub at_ (fs_since streak), fs_since streak))
    end.

Definition restoreWarningState (k : string) (at_ wall : Time) (get_fails : bool) (s : svc) : svc :=
  if bool_decide (k ∈ restored s) || get_fails then s
  else
    let '(fired, since) := match live_value s wall k with Some (Some e) => (ce_WarningFired e, ce_FiringSince e) | _ => (false, zero_time) end in
    let since := if time_IsZero since && fired && (0 <? sv_persistence sv) then time_Add at_ (- sv_persistence sv) else since in
    let s := set_restored ({[ k ]} ∪ restored s) s in
    let s := match firingSince s !! k with Some _ => s | None => if time_IsZero since then s else set_streaks (<[k := mkStreak since since]> (firingSince s)) s end in
    match warningState s !! k with
    | Some _ => s
    | None => if fired then set_latches (<[k := true]> (warningState s)) ({[ k ]} ∪ notified s) s else s
    end.

Definition lastWarning (k : string) (s : svc) : bool := default false (warningState s !! k).
Definition lastFiringSince (k : string) (s : svc) : Time := match firingSince s !! k with Some st => fs_since st | None => zero_time end.

(** The call of the hook, if there was one, and whether it succeeded. *)
Definition recordWarning (k : string) (fired hook_fails : bool) (s : svc) : svc * option bool :=
  let n := if fired then notified s else notified s ∖ {[ k ]} in
  let deliver := sv_hasHook sv && fired && negb (bool_decide (k ∈ n)) in
  let s := set_latches (<[k := fired]> (warningState s)) (if deliver then {[ k ]} ∪ n else n) s in
  if negb deliver then (s, None)
  else if hook_fails then (if lastWarning k s then set_latches (warningState s) (notified s ∖ {[ k ]}) s else s, Some false)
  else (s, Some true).

Definition absFloat (f : float64) : float64 := if f64_lt f f64_zero then SFopp f else f.

Definition observation (pair : Pair) (ourPrice : float64) (res : Comparison) (at_ : Time) (kv : string * float64) : ObservationRecord :=
  let deltaPct := f64_mul (f64_div (f64_sub ourPrice kv.2) kv.2) f64_hundred in
  mkObservation pair kv.1 ourPrice kv.2 deltaPct (f64_lt (sv_threshold sv) (absFloat deltaPct)) at_ (default zero_time (dr_SourcesAsOf res !! kv.1)).

(** A row that the sink refuses is only logged. *)
Definition flushObservations (pair : Pair) (ourPrice : float64) (res : Comparison) (at_ : Time) (fails : string -> bool) (s : svc) : svc :=
  set_rows (d_rows s ++ map (observation pair ourPrice res at_) (List.filter (fun kv => negb (f64_eq kv.2 f64_zero) && negb (fails kv.1)) (map_to_list (dr_Sources res)))) s.

Definition compared (x : refresh_input) : Comparison := Compare (sv_refs sv) (x_pair x) (x_price x) (x_observedAt x) (x_wall x) 1 (x_arrived x).
Definition agreeing (x : refresh_input) : Z := CountAgreeing (x_price x) (dr_Sources (compared x)) (sv_threshold sv).
Definition gate_at (x : refresh_input) : Time := if time_IsZero (x_observedAt x) then x_wall x else x_observedAt x.
Definition evaluated (x : refresh_input) : bool := (sv_minSources sv <=? dr_SuccessCount (compared x)) && negb (x_pinned x).
Definition raw_firing (x : refresh_input) : bool :=
  let res := compared x in
  (f64_lt (sv_threshold sv) (dr_DivergencePct res) && (agreeing x <? Z.quot (dr_SuccessCount res + 1) 2)) || (agreeing x =? 0).

Definition entry_of (x : refresh_input) (fired : bool) (since : Time) : CachedEntry :=
  let res := compared x in
  mkEntry (x_price x) (dr_Median res) (dr_DivergencePct res) fired since (dr_Sources res) (dr_Failures res) (dr_SuccessCount res) (dr_FailureCount res)
    (agreeing x) (x_pinned x) (Z.quot (sv_window sv) Second) (x_wall x).

Definition no_reference (x : refresh_input) : bool :=
  let res := compared x in
  (dr_SuccessCount res =? 0) && (countOutcome (dr_Outcomes res) OutcomeAssetUnsupported <? dr_FailureCount res).

Definition refresh (x : refresh_input) (s : svc) : svc * refresh_output :=
  if (length (sv_refs sv) =? 0)%nat then (s, mkOutput None None None None)
  else
    let k := Pair_String (x_pair x) in
    let s := restoreWarningState k (gate_at x) (x_wall x) (x_get_fails x) s in
    let '(s, (fired, since)) := if evaluated x then warningPersists k (raw_firing x) (gate_at x) s else (s, (lastWarning k s, lastFiringSince k s)) in
    let e := entry_of x fired since in
    if negb (encodable e) then (s, mkOutput None None None (Some ErrMarshal))
    else if x_set_fails x then (s, mkOutput None None None (Some ErrCacheSet))
    else
      let s := set_values (<[k := (Some e, x_wall x + sv_cacheTTL sv)]> (d_values s)) s in
      if x_sadd_fails x then (s, mkOutput (Some fired) None None (Some ErrIndex))
      else
        let base := Asset_String (Base (x_pair x)) in
        let members := {[ Asset_String (Quote (x_pair x)) ]} ∪ live_members s (x_wall x) base in
        (* a set that is new has no expiry until it is given one *)
        if x_expire_fails x then
          (set_members (<[base := (members, match d_index s !! base with Some (_, t) => if x_wall x <? t then t else MaxInt64 | None => MaxInt64 end)]> (d_index s)) s,
           mkOutput (Some fired) None None (Some ErrIndex))
        else
          let s := set_members (<[base := (members, x_wall x + sv_cacheTTL sv)]> (d_index s)) s in
          let s := if sv_hasSink sv then flushObservations (x_pair x) (x_price x) (compared x) (gate_at x) (x_sink_fails x) s else s in
          let '(s, hook) := if evaluated x then recordWarning k fired (x_hook_fails x) s else (s, None) in
          (s, mkOutput (Some fired) (if evaluated x then Some fired else None) hook (if no_reference x then Some ErrNoReferenceResponded else None)).

(** A process that starts: what is in the cache and the sink stays. *)
Definition restart (s : svc) : svc := mkSvc ∅ ∅ ∅ ∅ (d_values s) (d_index s) (d_rows s).

(** ** Reading the cache *)

Record AssetVerdict := mkVerdict { av_Firing : bool; av_Checked : bool; av_Detail : option CachedEntry }.

(** [Err] is an error of the cache or a body that does not decode. *)
Definition lookupCachedQuote `{Strkey} (s : svc) (now : Time) (get_fails : string -> bool) (asset : Asset) (q : string) : res unit (option CachedEntry) :=
  match ParseAsset q with
  | Err _ => Ok None
  | Ok quote =>
      let k := Pair_String (mkPair asset quote) in
      if get_fails k then Err tt
      else match live_value s now k with
           | None => Ok None
           | Some None => Err tt
           | Some (Some e) => Ok (Some e)
           end
  end.

(** The quote kept for display: whether it fires, and how far it is off. *)
Definition better (best cand : CachedEntry) : bool :=
  (ce_WarningFired cand && negb (ce_WarningFired best))
  || (Bool.eqb (ce_WarningFired cand) (ce_WarningFired best) && f64_le (absFloat (ce_DivergencePct best)) (absFloat (ce_DivergencePct cand))).

Definition add_quote (v : AssetVerdict) (e : CachedEntry) : AssetVerdict :=
  mkVerdict (av_Firing v || ce_WarningFired e) (av_Checked v || (sv_minSources sv <=? ce_SuccessCount e))
    (match av_Detail v with None => Some e | Some best => if better best e then Some e else Some best end).

Fixpoint fold_quotes `{Strkey} (s : svc) (now : Time) (get_fails : string -> bool) (asset : Asset) (quotes : list string) (v : AssetVerdict) : res unit AssetVerdict :=
  match quotes with
  | [] => Ok v
  | q :: quotes =>
      match lookupCachedQuote s now get_fails asset q with
      | Err _ => Err tt
      | Ok None => fold_quotes s now get_fails asset quotes v
      | Ok (Some e) => fold_quotes s now get_fails asset quotes (add_quote v e)
      end
  end.

(** [quotes]: the members of the index, in the order of the answer. *)
Definition LookupCached `{Strkey} (s : svc) (now : Time) (get_fails : string -> bool) (asset : Asset) (quotes : list string) : res unit (option AssetVerdict) :=
  match fold_quotes s now get_fails asset quotes (mkVerdict false false None) with
  | Err _ => Err tt
  | Ok v => Ok (match av_Detail v with None => None | Some _ => Some v end)
  end.

Definition LookupCachedPair (s : svc) (now : Time) (get_fails : bool) (pair : Pair) : res unit (option CachedEntry) :=
  if get_fails then Err tt
  else match live_value s now (Pair_String pair) with None => Ok None | Some None => Err tt | Some (Some e) => Ok (Some e) end.

Definition LookupCachedPairVerdict (s : svc) (now : Time) (get_fails : bool) (pair : Pair) : res unit (bool * bool * Duration) :=
  match LookupCachedPair s now get_fails pair with
  | Err _ => Err tt
  | Ok None => Ok (false, false, 0)
  | Ok (Some e) => Ok (ce_WarningFired e, sv_minSources sv <=? ce_SuccessCount e, wraps 64 (ce_WindowSeconds e * Second))
  end.
End Service.

(** ** The pass of a tick (orchestrator/divergence_refresh.go) *)

Section Pass.
Context {C D : Type} `{RedisCache C} `{LadderDB D} `{Strkey} `{FloatText} `{MathLib} `{RatText}.
Context (cfg : AggConfig) (g : globals) (env : inputs) (now : Time).
(** [strconv.ParseFloat], and what each refresh meets besides its pair. *)
Context (ParseFloat : string -> option float64) (sv : Service) (meets : Pair -> refresh_input).

Fixpoint first_value (l : list (Asset * Asset)) (window : Duration) (s : agg (C := C) (D := D)) : option string :=
  match l with
  | [] => None
  | (b, q) :: l =>
      if in_get_fails env (mkPair b q) window then first_value l window s
      else match served_get (served s) now (key_of KValue (mkPair b q) window) with Some (BValue v) => Some v | _ => first_value l window s end
  end.

Definition cachedVWAPAcrossAliases (pair : Pair) (window : Duration) (s : agg (C := C) (D := D)) : option string :=
  first_value (flat_map (fun b => map (fun q => (b, q)) (AssetAliases g (Quote pair))) (AssetAliases g (Base pair))) window s.

(** A frozen price is compared without a verdict. *)
Definition refreshPairDivergence (pair : Pair) (window : Duration) (price : float64) (s : agg (C := C) (D := D)) (d : svc) : svc * refresh_output :=
  let x := meets pair in
  refresh sv (mkRefresh pair price now (x_wall x) (frozenLeg (ac_freeze cfg) now pair window (a_freeze s)) (x_arrived x) (x_get_fails x) (x_set_fails x) (x_sadd_fails x)
                (x_expire_fails x) (x_hook_fails x) (x_sink_fails x)) d.

Definition refresh_pair (window : Duration) (s : agg (C := C) (D := D)) (d : svc) (pair : Pair) : svc :=
  match cachedVWAPAcrossAliases pair window s with
  | None => d
  | Some raw => match ParseFloat raw with None => d | Some price => fst (refreshPairDivergence pair window price s d) end
  end.

(** With a refresher configured; without one the pass does nothing. [upto]: how
    many pairs the deadline of the tick allows; the time of the last pass goes
    along. *)
Definition refreshDivergenceAll (minInterval : Duration) (upto : option nat) (s : agg (C := C) (D := D)) (last : option Time) (d : svc) : option Time * svc :=
  match Windows (ac_freeze cfg) with
  | [] => (last, d)
  | shortest :: _ =>
      if (0 <? minInterval) && match last with Some t => time_Sub now t <? minInterval | None => false end then (last, d)
      else (Some now, foldl (refresh_pair shortest s) d (match upto with Some n => take n (Pairs cfg) | None => Pairs cfg end))
  end.
End Pass.
