(* ===== verification/DivergenceRun.v ===== *)
(** * What a divergence verdict says

    A comparison does not depend on the order of the replies; the debounced
    verdict of a pair is that of a reference definition over the history of its
    readings; the hook is called once per episode; a price crossed through
    dollars has two publishers. *)

From S2P Require Import Prelude GoLib Float64 Rounding Amount Asset Alias Trade RobustStat Window Proxy Outliers Router Sources Render WindowFetch.
From S2P Require Import Confidence Baseline Anomaly Freeze FreezeStore FreezeControl PriceGuard Evidence Orchestrator Divergence.
From Stdlib Require Import Floats.SpecFloat.

(** ** Order of the replies *)

(** Equal up to the order of the prices. *)
Definition same_collected (a b : collected) : Prop :=
  co_sources a = co_sources b /\ co_asOf a = co_asOf b /\ co_failures a = co_failures b /\ co_outcomes a = co_outcomes b /\ co_prices a ≡ₚ co_prices b.

Lemma same_collected_refl a : same_collected a a.
Proof. by split_and!. Qed.
Lemma same_collected_trans a b c : same_collected a b -> same_collected b c -> same_collected a c.
Proof. intros (A1 & A2 & A3 & A4 & A5) (B1 & B2 & B3 & B4 & B5). split_and!; try congruence. by etransitivity. Qed.

Lemma fail_with_same n o a b : same_collected a b -> same_collected (fail_with n o a) (fail_with n o b).
Proof. intros (E1 & E2 & E3 & E4 & E5). unfold fail_with. split_and!; cbn; congruence || done. Qed.

Lemma collect_one_same o a b : same_collected a b -> same_collected (collect_one a o) (collect_one b o).
Proof.
  intros HS. unfold collect_one. destruct (fo_err o); [by apply fail_with_same|]. destruct (negb _); [by apply fail_with_same|].
  destruct HS as (E1 & E2 & E3 & E4 & E5). split_and!; cbn; try congruence. by rewrite E5.
Qed.

Lemma foldl_same l : forall a b, same_collected a b -> same_collected (foldl collect_one a l) (foldl collect_one b l).
Proof. induction l as [|o l IH]; intros a b HS; [done|]. cbn [foldl]. apply IH. by apply collect_one_same. Qed.

Lemma collect_swap o1 o2 c : fo_name o1 <> fo_name o2 -> same_collected (collect_one (collect_one c o1) o2) (collect_one (collect_one c o2) o1).
Proof.
  intros Hn. unfold collect_one, fail_with. destruct (fo_err o1), (fo_err o2); cbn; repeat (destruct (negb (isFinitePositive _)); cbn);
    split_and!; cbn; try done; try (by apply insert_insert_ne); try (rewrite <- !app_assoc; apply Permutation_app_head; apply Permutation_swap).
Qed.

Lemma foldl_perm l l' : l ≡ₚ l' -> NoDup (map fo_name l) -> forall c, same_collected (foldl collect_one c l) (foldl collect_one c l').
Proof.
  induction 1 as [|o l l' HP IH|o1 o2 l|l1 l2 l3 HP1 IH1 HP2 IH2]; intros Hnd c.
  - apply same_collected_refl.
  - cbn [foldl]. apply IH. by apply NoDup_cons in Hnd as [_ Hnd].
  - cbn [foldl]. apply foldl_same, collect_swap. cbn [map] in Hnd. apply NoDup_cons in Hnd as [Hn _]. intros E. apply Hn. rewrite E. by left.
  - eapply same_collected_trans; [by apply IH1|]. apply IH2. by rewrite <- HP1.
Qed.

Lemma finpos_key x : isFinitePositive x = true -> exists m e, x = S754_finite false m e.
Proof. unfold isFinitePositive, f64_lt. destruct x as [[]|[]| |[] m e]; cbn; try done. by exists m, e. Qed.

Lemma finpos_antisym x y : isFinitePositive x = true -> isFinitePositive y = true -> f64_sort_le x y = true -> f64_sort_le y x = true -> x = y.
Proof.
  intros (mx & ex & ->)%finpos_key (my & ey & ->)%finpos_key. unfold f64_sort_le. cbn [IsNaN orb]. rewrite !f64_le_spec. cbn. intros (_ & _ & X) (_ & _ & Y).
  assert (ex = ey) as -> by lia. assert (Zpos mx = Zpos my) as [= ->] by lia. done.
Qed.

Lemma f64_sort_le_total x y : f64_sort_le x y = true \/ f64_sort_le y x = true.
Proof. unfold f64_sort_le. destruct (IsNaN x) eqn:EX; [by left|]. destruct (IsNaN y) eqn:EY; [by right|]. by apply f64_le_total. Qed.

Lemma f64_sort_le_trans x y z : f64_sort_le x y = true -> f64_sort_le y z = true -> f64_sort_le x z = true.
Proof.
  unfold f64_sort_le. destruct (IsNaN x); [done|]. cbn [orb]. intros X. pose proof (f64_le_nan _ _ X) as [_ ->]. cbn [orb]. by apply f64_le_trans.
Qed.

Lemma isort_finpos l l' : l ≡ₚ l' -> Forall (fun x => isFinitePositive x = true) l -> isort f64_sort_le l = isort f64_sort_le l'.
Proof.
  intros HP HF. rewrite Forall_forall in HF.
  apply (StronglySorted_unique_strong (fun a b => f64_sort_le a b = true)).
  - intros x y Hx Hy. rewrite elem_of_isort in Hx, Hy. rewrite <- HP in Hy. apply finpos_antisym; by apply HF.
  - apply isort_sorted; [apply f64_sort_le_total|apply f64_sort_le_trans].
  - apply isort_sorted; [apply f64_sort_le_total|apply f64_sort_le_trans].
  - by rewrite !isort_perm.
Qed.

Lemma foldl_prices l : forall c, Forall (fun x => isFinitePositive x = true) (co_prices c) -> Forall (fun x => isFinitePositive x = true) (co_prices (foldl collect_one c l)).
Proof.
  induction l as [|o l IH]; intros c HF; [done|]. cbn [foldl]. apply IH. unfold collect_one, fail_with. destruct (fo_err o); [done|]. destruct (isFinitePositive (fo_price o)) eqn:E; cbn; [|done].
  apply Forall_app. split; [done|]. by apply Forall_singleton.
Qed.

Lemma late_prices names c : co_prices (foldr (fun name c => fail_with name OutcomeDeadlineExceeded c) c names) = co_prices c.
Proof. induction names as [|n names IH]; [done|]. cbn. by rewrite IH. Qed.

Lemma late_same names a b : same_collected a b ->
  same_collected (foldr (fun name c => fail_with name OutcomeDeadlineExceeded c) a names) (foldr (fun name c => fail_with name OutcomeDeadlineExceeded c) b names).
Proof. intros HS. induction names as [|n names IH]; [done|]. cbn [foldr]. by apply fail_with_same. Qed.

Lemma collectOutcomes_perm pending late l l' : l ≡ₚ l' -> NoDup (map fo_name l) -> same_collected (collectOutcomes pending late l) (collectOutcomes pending late l').
Proof.
  intros HP Hnd. unfold collectOutcomes. pose proof (foldl_perm l l' HP Hnd (mkCollected ∅ ∅ ∅ ∅ [])) as HS. destruct late; [|done].
  assert (list_to_set (C := gset string) (map fo_name l) = list_to_set (map fo_name l')) as -> by (apply set_eq; intros n; rewrite !elem_of_list_to_set; by rewrite HP). by apply late_same.
Qed.

Lemma collectOutcomes_prices pending late l : Forall (fun x => isFinitePositive x = true) (co_prices (collectOutcomes pending late l)).
Proof. unfold collectOutcomes. destruct late; [rewrite late_prices|]; by apply foldl_prices. Qed.

(** *** Names *)

Definition names_of (c : collected) : gset string := dom (co_sources c) ∪ dom (co_failures c).

Lemma foldl_names l : forall c, NoDup (map fo_name l) -> dom (co_sources c) ## dom (co_failures c) -> (forall o, o ∈ l -> fo_name o ∉ names_of c) ->
  names_of (foldl collect_one c l) = names_of c ∪ list_to_set (map fo_name l) /\ dom (co_sources (foldl collect_one c l)) ## dom (co_failures (foldl collect_one c l)).
Proof.
  induction l as [|o l IH]; intros c Hnd Hd Hfresh; [cbn; split; [set_solver|done]|]. cbn [map] in Hnd. apply NoDup_cons in Hnd as [Hn Hnd]. cbn [foldl].
  pose proof (Hfresh o ltac:(by left)) as Ho. unfold names_of in *.
  assert (dom (co_sources (collect_one c o)) ∪ dom (co_failures (collect_one c o)) = {[ fo_name o ]} ∪ (dom (co_sources c) ∪ dom (co_failures c))
    /\ dom (co_sources (collect_one c o)) ## dom (co_failures (collect_one c o))) as [HN HDj].
  { unfold collect_one, fail_with. destruct (fo_err o); [|destruct (negb _)]; cbn; rewrite dom_insert_L; split; set_solver. }
  destruct (IH (collect_one c o) Hnd HDj) as [I1 I2].
  - intros o' Ho'. rewrite HN. intros [E%elem_of_singleton|Hin]%elem_of_union; [|by apply (Hfresh o'); [by right|]]. apply Hn. rewrite <- E. by apply list_elem_of_fmap_2.
  - split; [|done]. rewrite I1, HN. cbn [map list_to_set]. set_solver.
Qed.

Lemma late_names names c : dom (co_sources c) ## dom (co_failures c) -> (forall n, n ∈ names -> n ∉ dom (co_sources c)) ->
  let c' := foldr (fun name c => fail_with name OutcomeDeadlineExceeded c) c names in
  co_sources c' = co_sources c /\ dom (co_failures c') = list_to_set names ∪ dom (co_failures c).
Proof.
  intros Hd Hn. induction names as [|n names IH]; [cbn; split; [done|set_solver]|]. cbn [foldr]. destruct IH as [I1 I2]; [intros; apply Hn; by right|]. unfold fail_with at 1 3. cbn.
  split; [done|]. rewrite dom_insert_L, I2. set_solver.
Qed.

Section Comparing.
Context (refs : list Reference) (pair : Pair) (ourPrice : float64) (observedAt wall : Time) (minSuccess : Z).
Abbreviation ask := (fetch_one pair observedAt wall).
Abbreviation replies := (omap (M := list) (fun i => ask <$> refs !! i)).
Abbreviation compare := (Compare refs pair ourPrice observedAt wall minSuccess).

Lemma ask_name r : fo_name (ask r) = safeName r.
Proof. unfold fetch_one. by destruct (LookupQuote r pair observedAt wall). Qed.

Lemma reply_in arrived o : o ∈ replies arrived -> exists i r, i ∈ arrived /\ refs !! i = Some r /\ o = ask r.
Proof. intros (i & Hi & E)%list_elem_of_omap. destruct (refs !! i) as [r|] eqn:Er; [|done]. injection E as <-. by exists i, r. Qed.

Lemma reply_names arrived : NoDup (map safeName refs) -> NoDup arrived -> NoDup (map fo_name (replies arrived)).
Proof.
  intros Hn. induction 1 as [|i arrived Hi Hnd IH]; [constructor|]. cbn [omap list_omap]. destruct (refs !! i) as [r|] eqn:Er; [|done]. cbn [fmap option_fmap option_map map]. apply NoDup_cons. split; [|done].
  intros (o & Eo & Ho)%list_elem_of_fmap. apply reply_in in Ho as (j & r' & Hj & Er' & ->). rewrite !ask_name in Eo. apply Hi. replace i with j; [done|].
  apply (NoDup_lookup (map safeName refs) j i (safeName r)); [done| |]; rewrite list_lookup_fmap; [rewrite Er'; cbn; by rewrite <- Eo|by rewrite Er].
Qed.

Lemma Compare_perm arrived arrived' : NoDup (map safeName refs) -> NoDup arrived -> arrived' ≡ₚ arrived -> compare arrived' = compare arrived.
Proof.
  intros Hn Hnd HP. assert (replies arrived' ≡ₚ replies arrived) as HR by (by rewrite HP). assert (NoDup (map fo_name (replies arrived'))) as Hnd' by (apply reply_names; [done|by rewrite HP]).
  unfold Compare. rewrite <- (Permutation_length HP). set (late := (length arrived' <? length refs)%nat). set (pending := list_to_set (map safeName refs)).
  destruct (collectOutcomes_perm pending late _ _ HR Hnd') as (E1 & E2 & E3 & E4 & E5). rewrite E1, E2, E3, E4. rewrite (isort_finpos _ _ E5 (collectOutcomes_prices pending late _)). done.
Qed.

Lemma Compare_sources arrived : exists c, dr_Sources (compare arrived) = co_sources c /\ dr_Failures (compare arrived) = co_failures c
  /\ dr_SuccessCount (compare arrived) = Z.of_nat (size (co_sources c)) /\ dr_FailureCount (compare arrived) = Z.of_nat (size (co_failures c))
  /\ c = collectOutcomes (list_to_set (map safeName refs)) (length arrived <? length refs)%nat (replies arrived).
Proof. eexists. split_and!; [| | | |reflexivity]; unfold Compare; destruct (_ || _); reflexivity. Qed.

Lemma all_arrived arrived : NoDup arrived -> Forall (fun i => (i < length refs)%nat) arrived -> (length refs <= length arrived)%nat ->
  list_to_set (C := gset string) (map fo_name (replies arrived)) = list_to_set (map safeName refs).
Proof.
  intros Hnd HF Hlen. rewrite Forall_forall in HF.
  assert (arrived ≡ₚ seq 0 (length refs)) as HP.
  { apply submseteq_length_Permutation; [|rewrite length_seq; lia]. apply NoDup_submseteq; [done|]. intros i Hi. apply elem_of_seq. specialize (HF i Hi). lia. }
  apply set_eq. intros n. rewrite !elem_of_list_to_set, !list_elem_of_fmap. split.
  - intros (o & -> & (i & r & Hi & Er & ->)%reply_in). exists r. rewrite ask_name. split; [done|]. by eapply list_elem_of_lookup_2.
  - intros (r & -> & [i Hi]%list_elem_of_lookup_1). exists (ask r). split; [by rewrite ask_name|]. apply list_elem_of_omap. exists i. rewrite Hi. split; [|done]. rewrite HP. apply elem_of_seq.
    apply lookup_lt_Some in Hi. lia.
Qed.

Lemma Compare_names arrived : NoDup (map safeName refs) -> NoDup arrived -> Forall (fun i => (i < length refs)%nat) arrived ->
  dom (dr_Sources (compare arrived)) ## dom (dr_Failures (compare arrived)) /\ dom (dr_Sources (compare arrived)) ∪ dom (dr_Failures (compare arrived)) = list_to_set (map safeName refs).
Proof.
  intros Hn Hnd HF. destruct (Compare_sources arrived) as (c & -> & -> & _ & _ & ->). unfold collectOutcomes.
  destruct (foldl_names (replies arrived) (mkCollected ∅ ∅ ∅ ∅ []) (reply_names arrived Hn Hnd)) as [N1 N2]; [set_solver|unfold names_of; set_solver|].
  set (c0 := foldl collect_one _ (replies arrived)) in *. unfold names_of in N1. cbn in N1. rewrite !dom_empty_L, !union_empty_l_L in N1. destruct (Nat.ltb_spec (length arrived) (length refs)) as [Hlt|Hge].
  - set (missing := elements (list_to_set (map safeName refs) ∖ list_to_set (map fo_name (replies arrived)) : gset string)).
    destruct (late_names missing c0 N2) as [L1 L2]; [unfold missing; set_solver|]. rewrite L1, L2. unfold missing. rewrite list_to_set_elements_L.
    assert (list_to_set (C := gset string) (map fo_name (replies arrived)) ⊆ list_to_set (map safeName refs)) as HSub.
    { intros n. rewrite !elem_of_list_to_set, !list_elem_of_fmap. intros (o & -> & (i & r & Hi & Er & ->)%reply_in). exists r. rewrite ask_name. split; [done|]. by eapply list_elem_of_lookup_2. }
    split; [set_solver|]. rewrite (assoc_L (∪)), (comm_L (∪) (dom (co_sources c0))), <- (assoc_L (∪)). rewrite N1, (comm_L (∪)). by rewrite <- union_difference_L.
  - split; [done|]. rewrite N1. by apply all_arrived.
Qed.
End Comparing.

Lemma foldl_sources l : forall c n p, co_sources (foldl collect_one c l) !! n = Some p ->
  co_sources c !! n = Some p \/ exists o, o ∈ l /\ fo_name o = n /\ fo_price o = p /\ fo_err o = None /\ isFinitePositive p = true.
Proof.
  induction l as [|o l IH]; intros c n p E; [by left|]. cbn [foldl] in E. destruct (IH _ _ _ E) as [E1|(o' & Ho & X)]; [|right; exists o'; split; [by right|done]].
  unfold collect_one, fail_with in E1. destruct (fo_err o) eqn:Ee; [by left|]. destruct (isFinitePositive (fo_price o)) eqn:Ep; [|by left]. cbn in E1.
  destruct (decide (fo_name o = n)) as [En|Hne]; [rewrite En, lookup_insert_eq in E1; injection E1 as <-; right; exists o; split; [by left|done]|rewrite lookup_insert_ne in E1 by done; by left].
Qed.

Lemma late_sources names c : co_sources (foldr (fun name c => fail_with name OutcomeDeadlineExceeded c) c names) = co_sources c.
Proof. induction names as [|n names IH]; [done|]. cbn. by rewrite IH. Qed.

Lemma Compare_quote refs pair ourPrice observedAt wall minSuccess arrived n p : dr_Sources (Compare refs pair ourPrice observedAt wall minSuccess arrived) !! n = Some p ->
  exists i r q, i ∈ arrived /\ refs !! i = Some r /\ safeName r = n /\ LookupQuote r pair observedAt wall = Answered q /\ rq_Price q = p
    /\ checkComparable q pair observedAt wall = None /\ isFinitePositive p = true.
Proof.
  destruct (Compare_sources refs pair ourPrice observedAt wall minSuccess arrived) as (c & -> & _ & _ & _ & ->). unfold collectOutcomes. intros E.
  assert (co_sources (foldl collect_one (mkCollected ∅ ∅ ∅ ∅ []) (omap (M := list) (fun i => fetch_one pair observedAt wall <$> refs !! i) arrived)) !! n = Some p) as E1
    by (destruct (_ <? _)%nat; [by rewrite late_sources in E|done]).
  destruct (foldl_sources _ _ _ _ E1) as [E0|(o & (i & r & Hi & Er & ->)%reply_in & Hn & Hp & He & Hf)]; [cbn in E0; by rewrite lookup_empty in E0|]. exists i, r. rewrite ask_name in Hn.
  unfold fetch_one in Hp, He. destruct (LookupQuote r pair observedAt wall) as [q| |] eqn:EQ; [|done..]. exists q. by split_and!.
Qed.

(** C0: a comparison does not depend on the race of its references. When their
    names differ, any order of the same replies gives the same result, median
    and percentage included; every reference is either a source or a failure,
    those that miss the deadline too, and never both; and the price of a
    source is one that this reference gave, finite, positive and not too old
    for the pair. *)
Theorem compare_any_order refs pair ourPrice observedAt wall minSuccess arrived : NoDup (map safeName refs) -> NoDup arrived -> Forall (fun i => (i < length refs)%nat) arrived ->
  let res := Compare refs pair ourPrice observedAt wall minSuccess arrived in
  (forall arrived', arrived' ≡ₚ arrived -> Compare refs pair ourPrice observedAt wall minSuccess arrived' = res)
  /\ dom (dr_Sources res) ## dom (dr_Failures res) /\ dom (dr_Sources res) ∪ dom (dr_Failures res) = list_to_set (map safeName refs)
  /\ dr_SuccessCount res + dr_FailureCount res = Z.of_nat (length refs)
  /\ forall n p, dr_Sources res !! n = Some p -> exists i r q, i ∈ arrived /\ refs !! i = Some r /\ safeName r = n /\ LookupQuote r pair observedAt wall = Answered q
       /\ rq_Price q = p /\ checkComparable q pair observedAt wall = None /\ isFinitePositive p = true.
Proof.
  intros Hn Hnd HF res. destruct (Compare_names refs pair ourPrice observedAt wall minSuccess arrived Hn Hnd HF) as [N1 N2]. fold res in N1, N2. split_and!; try done.
  - intros arrived' HP. by apply Compare_perm.
  - destruct (Compare_sources refs pair ourPrice observedAt wall minSuccess arrived) as (c & E1 & E2 & E3 & E4 & _). fold res in E1, E2, E3, E4. rewrite E3, E4, <- E1, <- E2, <- Nat2Z.inj_add, <- !size_dom, <- size_union by done.
    rewrite N2, size_list_to_set by done. by rewrite length_map.
  - intros n p. apply Compare_quote.
Qed.

(** ** Runs of a service *)

Section Runs.
Context (sv : Service).

(** The outputs, with the pair they are of. *)
Fixpoint run (xs : list refresh_input) (s : svc) : svc * list (string * refresh_output) :=
  match xs with
  | [] => (s, [])
  | x :: xs => let '(s, y) := refresh sv x s in let '(s, ys) := run xs s in (s, (Pair_String (x_pair x), y) :: ys)
  end.

Lemma refreshes_app xs ys s : run (xs ++ ys) s = (fst (run ys (fst (run xs s))), snd (run xs s) ++ snd (run ys (fst (run xs s)))).
Proof.
  revert s. induction xs as [|x xs IH]; intros s; cbn [run app fst snd]; [by destruct (run ys s)|]. destruct (refresh sv x s) as [s1 y]. rewrite IH. destruct (run xs s1) as [s2 o2]. cbn [fst snd]. done.
Qed.

(** *** What a refresh does to the pair [k] *)

Record kept (k : string) (s s' : svc) : Prop := {
  kt_warning : warningState s' !! k = warningState s !! k; kt_notified : k ∈ notified s' <-> k ∈ notified s;
  kt_streak : firingSince s' !! k = firingSince s !! k; kt_restored : k ∈ restored s' <-> k ∈ restored s
}.

Lemma kept_refl k s : kept k s s.
Proof. by split. Qed.
Lemma kept_trans k s1 s2 s3 : kept k s1 s2 -> kept k s2 s3 -> kept k s1 s3.
Proof. intros [A1 A2 A3 A4] [B1 B2 B3 B4]. split; [congruence|tauto|congruence|tauto]. Qed.

Lemma restore_other k k' at_ wall f s : k' <> k -> kept k s (restoreWarningState sv k' at_ wall f s).
Proof.
  intros Hk. unfold restoreWarningState. destruct (_ || _); [apply kept_refl|]. destruct (match live_value s wall k' with Some (Some e) => _ | _ => _ end) as [fired since].
  set (since' := if _ && _ && _ then _ else since). set (s1 := set_restored _ s). assert (kept k s s1) as K1 by (split; try done; cbn; set_solver).
  assert (forall s2, kept k s s2 -> kept k s (match warningState s2 !! k' with Some _ => s2 | None => if fired then set_latches (<[k' := true]> (warningState s2)) ({[ k' ]} ∪ notified s2) s2 else s2 end)) as HL.
  { intros s2 K2. destruct (warningState s2 !! k'); [done|]. destruct fired; [|done]. eapply kept_trans; [exact K2|]. split; try done; cbn; [by apply lookup_insert_ne|set_solver]. }
  apply HL. destruct (firingSince s1 !! k'); [done|]. destruct (time_IsZero since'); [done|]. eapply kept_trans; [exact K1|]. split; try done. cbn. by apply lookup_insert_ne.
Qed.

Lemma persists_other k k' raw at_ s : k' <> k -> kept k s (fst (warningPersists sv k' raw at_ s)).
Proof.
  intros Hk. unfold warningPersists. destruct (_ <=? 0); [apply kept_refl|]. destruct (negb raw); [split; try done; cbn; by apply lookup_delete_ne|].
  destruct (firingSince s !! k') as [st|]; [|split; try done; cbn; by apply lookup_insert_ne]. destruct (_ || _); [split; try done; cbn; by apply lookup_insert_ne|].
  destruct (time_After at_ (fs_last st)); [|apply kept_refl]. split; try done. cbn. by apply lookup_insert_ne.
Qed.

Lemma record_other k k' fired f s : k' <> k -> kept k s (fst (recordWarning sv k' fired f s)).
Proof.
  intros Hk. unfold recordWarning. set (n := if fired then _ else _). assert (k ∈ n <-> k ∈ notified s) as Hn by (unfold n; destruct fired; set_solver). set (deliver := _ && _ && _).
  set (s1 := set_latches _ _ s). assert (kept k s s1) as K1 by (split; try done; cbn; [by apply lookup_insert_ne|destruct deliver; set_solver]).
  destruct (negb deliver); [done|]. destruct f; [|done]. cbn [fst]. destruct (lastWarning k' s1); [|done]. eapply kept_trans; [exact K1|]. split; try done. cbn. set_solver.
Qed.

(** The last writes of a refresh, after the verdict. *)
Definition publish_tail (x : refresh_input) (fired : bool) (since : Time) (s : svc) : svc * refresh_output :=
  let k := Pair_String (x_pair x) in
  let e := entry_of sv x fired since in
  if negb (encodable e) then (s, mkOutput None None None (Some ErrMarshal))
  else if x_set_fails x then (s, mkOutput None None None (Some ErrCacheSet))
  else
    let s := set_values (<[k := (Some e, x_wall x + sv_cacheTTL sv)]> (d_values s)) s in
    if x_sadd_fails x then (s, mkOutput (Some fired) None None (Some ErrIndex))
    else
      let base := Asset_String (Base (x_pair x)) in
      let members := {[ Asset_String (Quote (x_pair x)) ]} ∪ live_members s (x_wall x) base in
      if x_expire_fails x then
        (set_members (<[base := (members, match d_index s !! base with Some (_, t) => if x_wall x <? t then t else MaxInt64 | None => MaxInt64 end)]> (d_index s)) s,
         mkOutput (Some fired) None None (Some ErrIndex))
      else
        let s := set_members (<[base := (members, x_wall x + sv_cacheTTL sv)]> (d_index s)) s in
        let s := if sv_hasSink sv then flushObservations sv (x_pair x) (x_price x) (compared sv x) (gate_at x) (x_sink_fails x) s else s in
        let '(s, hook) := if evaluated sv x then recordWarning sv k fired (x_hook_fails x) s else (s, None) in
        (s, mkOutput (Some fired) (if evaluated sv x then Some fired else None) hook (if no_reference sv x then Some ErrNoReferenceResponded else None)).

(** A refresh is a restore, a verdict and the writes. *)
Lemma refresh_eq x s : sv_refs sv <> [] -> refresh sv x s =
  let k := Pair_String (x_pair x) in
  let s1 := restoreWarningState sv k (gate_at x) (x_wall x) (x_get_fails x) s in
  let v := if evaluated sv x then warningPersists sv k (raw_firing sv x) (gate_at x) s1 else (s1, (lastWarning k s1, lastFiringSince k s1)) in
  publish_tail x v.2.1 v.2.2 v.1.
Proof. intros HR. unfold refresh. destruct (sv_refs sv); [done|]. cbn [length Nat.eqb]. cbv zeta. by destruct (if evaluated sv x then _ else _) as [s2 [fired since]]. Qed.

(** The writes end before the verdict is recorded, or record it. *)
Lemma publish_tail_cases x fired since s : let '(s', y) := publish_tail x fired since s in
  (y_recorded y = None /\ y_hook y = None /\ forall k, kept k s s')
  \/ (evaluated sv x = true /\ y_fired y = Some fired /\ y_recorded y = Some fired /\ exists s1, (forall k, kept k s s1) /\ (s', y_hook y) = recordWarning sv (Pair_String (x_pair x)) fired (x_hook_fails x) s1).
Proof.
  unfold publish_tail. cbv zeta. destruct (negb (encodable _)); [left; split_and!; try done; intros; apply kept_refl|]. destruct (x_set_fails x); [left; split_and!; try done; intros; apply kept_refl|].
  destruct (x_sadd_fails x); [left; by split_and!|]. destruct (x_expire_fails x); [left; by split_and!|].
  match goal with |- context [if sv_hasSink sv then flushObservations _ _ _ _ _ _ ?a else ?a] => set (s1 := if sv_hasSink sv then flushObservations _ _ _ _ _ _ a else a) end.
  assert (forall k, kept k s s1) as K1 by (intros k; unfold s1; by destruct (sv_hasSink sv)). destruct (evaluated sv x).
  - destruct (recordWarning sv (Pair_String (x_pair x)) fired (x_hook_fails x) s1) as [s2 hook] eqn:E. right. split_and!; try done. exists s1. by rewrite E.
  - left. by split_and!.
Qed.

Lemma refresh_other k x s : Pair_String (x_pair x) <> k -> kept k s (fst (refresh sv x s)).
Proof.
  intros Hk. destruct (decide (sv_refs sv = [])) as [E|HR]; [unfold refresh; rewrite E; apply kept_refl|]. rewrite refresh_eq by done. cbv zeta. set (s1 := restoreWarningState _ _ _ _ _ s).
  assert (kept k s s1) as K1 by (by apply restore_other). set (v := if evaluated sv x then _ else _). assert (kept k s1 v.1) as K2 by (unfold v; destruct (evaluated sv x); [by apply persists_other|apply kept_refl]).
  pose proof (publish_tail_cases x v.2.1 v.2.2 v.1) as HP. destruct (publish_tail x v.2.1 v.2.2 v.1) as [s' y]. cbn [fst]. eapply kept_trans; [exact K1|]. eapply kept_trans; [exact K2|].
  destruct HP as [(_ & _ & K)|(_ & _ & _ & s2 & K & E)]; [apply K|]. eapply kept_trans; [apply K|]. pose proof (record_other k _ v.2.1 (x_hook_fails x) s2 Hk) as K3. by rewrite <- E in K3.
Qed.

(** *** The hook *)

Lemma restore_notified k at_ wall f s : k ∈ notified s -> k ∈ notified (restoreWarningState sv k at_ wall f s).
Proof.
  intros Hin. unfold restoreWarningState. destruct (_ || _); [done|]. destruct (match live_value s wall k with Some (Some e) => _ | _ => _ end) as [fired since]. set (since' := if _ && _ && _ then _ else since).
  destruct (firingSince _ !! k); [|destruct (time_IsZero since')]; destruct (warningState _ !! k); try done; destruct fired; try done; cbn; set_solver.
Qed.

Lemma persists_notified k raw at_ s : notified (fst (warningPersists sv k raw at_ s)) = notified s.
Proof. unfold warningPersists. destruct (_ <=? 0); [done|]. destruct (negb raw); [done|]. destruct (firingSince s !! k); [|done]. destruct (_ || _); [done|]. by destruct (time_After _ _). Qed.

(** A delivered episode stays delivered until a clear verdict. *)
Lemma refresh_notified k x s : k ∈ notified s -> let '(s', y) := refresh sv x s in
  (k ∈ notified s' \/ (Pair_String (x_pair x) = k /\ y_recorded y = Some false)) /\ (Pair_String (x_pair x) = k -> y_hook y = None).
Proof.
  intros Hin. destruct (decide (Pair_String (x_pair x) = k)) as [Ek|Hk]; [|pose proof (refresh_other k x s Hk) as K; destruct (refresh sv x s) as [s' y]; split; [left; by apply (kt_notified _ _ _ K)|done]].
  destruct (decide (sv_refs sv = [])) as [E|HR]; [unfold refresh; rewrite E; cbn; auto|]. rewrite refresh_eq by done. cbv zeta. rewrite Ek. set (s1 := restoreWarningState _ _ _ _ _ s).
  assert (k ∈ notified s1) as N1 by (by apply restore_notified). set (v := if evaluated sv x then _ else _). assert (k ∈ notified v.1) as N2 by (unfold v; destruct (evaluated sv x); [by rewrite persists_notified|done]).
  pose proof (publish_tail_cases x v.2.1 v.2.2 v.1) as HP. destruct (publish_tail x v.2.1 v.2.2 v.1) as [s' y].
  destruct HP as [(_ & E & K)|(_ & _ & ER & s2 & K & E)]; [split; [left; by apply (kt_notified _ _ _ (K k))|done]|]. rewrite Ek in E. assert (k ∈ notified s2) as N3 by (by apply (kt_notified _ _ _ (K k))).
  unfold recordWarning in E. rewrite ER. destruct v.2.1.
  - rewrite (bool_decide_eq_true_2 _ N3), andb_false_r in E. cbn in E. injection E as -> ->. split; [by left|done].
  - rewrite andb_false_r in E. cbn in E. injection E as -> ->. split; [by right|done].
Qed.

Lemma hook_notifies x s : let '(s', y) := refresh sv x s in y_hook y = Some true -> Pair_String (x_pair x) ∈ notified s'.
Proof.
  destruct (decide (sv_refs sv = [])) as [E|HR]; [unfold refresh; rewrite E; done|]. rewrite refresh_eq by done. cbv zeta. set (s1 := restoreWarningState _ _ _ _ _ s). set (v := if evaluated sv x then _ else _).
  pose proof (publish_tail_cases x v.2.1 v.2.2 v.1) as HP. destruct (publish_tail x v.2.1 v.2.2 v.1) as [s' y]. destruct HP as [(_ & E & _)|(_ & _ & _ & s2 & _ & E)]; [by rewrite E|].
  unfold recordWarning in E. set (n := if v.2.1 then _ else _) in E. destruct (sv_hasHook sv && v.2.1 && negb (bool_decide (Pair_String (x_pair x) ∈ n))) eqn:ED; cbn [negb] in E; [|injection E as _ ->; done].
  destruct (x_hook_fails x); injection E as -> ->; [done|]. intros _. cbn. set_solver.
Qed.

Lemma notified_run k xs : forall s middle second after, k ∈ notified s -> snd (run xs s) = middle ++ second :: after -> second.1 = k -> y_hook second.2 = Some true ->
  exists clear, clear ∈ middle /\ clear.1 = k /\ y_recorded clear.2 = Some false.
Proof.
  induction xs as [|x xs IH]; intros s middle second after Hin E Hk Hy; cbn [run] in E; [by destruct middle|]. pose proof (refresh_notified k x s Hin) as HR. destruct (refresh sv x s) as [s1 y]. destruct HR as [HN HH].
  specialize (IH s1). destruct (run xs s1) as [s2 ys]. cbn [snd] in *. destruct middle as [|m middle]; injection E as <- E; [cbn in Hk, Hy; rewrite (HH Hk) in Hy; done|].
  destruct HN as [HN|[Ek Ec]]; [|exists (Pair_String (x_pair x), y); split; [by left|done]]. destruct (IH middle second after HN E Hk Hy) as (clear & Hc & X). exists clear. split; [by right|done].
Qed.

Lemma delivered_run k xs : forall s before first middle second after, snd (run xs s) = before ++ first :: middle ++ second :: after -> first.1 = k -> second.1 = k -> y_hook first.2 = Some true -> y_hook second.2 = Some true ->
  exists clear, clear ∈ middle /\ clear.1 = k /\ y_recorded clear.2 = Some false.
Proof.
  induction xs as [|x xs IH]; intros s before first middle second after E K1 K2 Y1 Y2; cbn [run] in E; [by destruct before|]. pose proof (hook_notifies x s) as HH. destruct (refresh sv x s) as [s1 y].
  specialize (IH s1). pose proof (notified_run k xs s1) as HN. destruct (run xs s1) as [s2 ys]. cbn [snd] in *. destruct before as [|b before]; injection E as <- E; [|by eapply IH].
  cbn in K1, Y1. apply (HN middle second after); try done. rewrite <- K1. by apply HH.
Qed.

(** *** The verdict *)

(** What the refreshes of a pair that count have seen, oldest first. *)
Definition reading (k : string) (x : refresh_input) : option (Time * bool) :=
  if String.eqb (Pair_String (x_pair x)) k && evaluated sv x then Some (gate_at x, raw_firing sv x) else None.
Definition readings (k : string) (xs : list refresh_input) : list (Time * bool) := omap (reading k) xs.

(** When the uninterrupted divergence at the end of a history began. *)
Definition streak_start (h : list (Time * bool)) : option Time := foldl (fun st (r : Time * bool) => if r.2 then Some (default r.1 st) else None) None h.

(** The clock does not go back and no gap is longer than the service allows. *)
Definition steady (h : list (Time * bool)) : Prop := forall i a b, h !! i = Some a -> h !! S i = Some b -> a.1 <= b.1 /\ b.1 - a.1 <= sv_maxGap sv.

Definition persisted (h : list (Time * bool)) (at_ : Time) : bool := match streak_start h with Some t0 => sv_persistence sv <=? time_Sub at_ t0 | None => false end.

Definition last_recorded (k : string) (ys : list (string * refresh_output)) : option bool :=
  last (omap (fun o : string * refresh_output => if String.eqb o.1 k then y_recorded o.2 else None) ys).

(** Nothing is known of the pair, in the process or in the cache. *)
Definition unknown (k : string) (s : svc) : Prop := firingSince s !! k = None /\ warningState s !! k = None /\ d_values s !! k = None.

Lemma streak_snoc h r : streak_start (h ++ [r]) = if r.2 then Some (default r.1 (streak_start h)) else None.
Proof. unfold streak_start. by rewrite foldl_app. Qed.

Lemma steady_snoc h r : steady (h ++ [r]) -> steady h /\ forall l, last h = Some l -> l.1 <= r.1 /\ r.1 - l.1 <= sv_maxGap sv.
Proof.
  intros HS. split.
  - intros i a b Ha Hb. apply (HS i); by apply lookup_app_l_Some.
  - intros l Hl. rewrite last_lookup in Hl. assert (0 < length h)%nat as Hn by (destruct h; [done|cbn; lia]). apply (HS (pred (length h))).
    + by apply lookup_app_l_Some.
    + replace (S (pred (length h))) with (length h) by lia. by apply list_lookup_middle.
Qed.

Definition tracked (k : string) (h : list (Time * bool)) (s : svc) : Prop :=
  match streak_start h with
  | None => firingSince s !! k = None
  | Some t0 => exists l, last h = Some l /\ t0 <= l.1 /\ firingSince s !! k = Some (mkStreak t0 l.1)
  end.

Lemma persists_tracked k h raw at_ s : 0 < sv_persistence sv -> steady (h ++ [(at_, raw)]) -> tracked k h s -> let '(s', (fired, _)) := warningPersists sv k raw at_ s in
  tracked k (h ++ [(at_, raw)]) s' /\ fired = persisted (h ++ [(at_, raw)]) at_ /\ warningState s' = warningState s /\ restored s' = restored s.
Proof.
  intros HP [HS HL]%steady_snoc HT. unfold warningPersists, tracked, persisted. rewrite streak_snoc. cbn [fst snd]. destruct (Z.leb_spec (sv_persistence sv) 0) as [?|_]; [lia|].
  destruct raw; cbn [negb]; [|cbn; by rewrite lookup_delete_eq]. assert (time_Sub at_ at_ = 0) as E0 by (unfold time_Sub, MinInt64, MaxInt64; lia).
  assert (last (h ++ [(at_, true)]) = Some (at_, true)) as EL by apply last_snoc. unfold tracked in HT. destruct (streak_start h) as [t0|]; cbn [default]; [|rewrite HT; cbn].
  - destruct HT as (l & Hl & Ht & EF). rewrite EF. destruct (HL l Hl) as [Hle Hgap]. cbn in Hle, Hgap. cbn [fs_since fs_last]. unfold time_Before. destruct (Z.ltb_spec at_ t0) as [?|_]; [lia|]. cbn [orb].
    assert (time_Sub at_ l.1 <= sv_maxGap sv) as Hg by (unfold time_Sub, MinInt64, MaxInt64; lia). destruct (Z.ltb_spec (sv_maxGap sv) (time_Sub at_ l.1)) as [?|_]; [lia|]. cbn [andb].
    unfold time_After. destruct (Z.ltb_spec l.1 at_) as [Hlt|Hge].
    + cbn. split; [exists (at_, true); rewrite lookup_insert_eq; split_and!; try done; cbn; lia|done].
    + destruct l as [lt lb]. cbn [fst] in *. assert (lt = at_) as -> by lia. split; [|done]. exists (at_, true). by split_and!.
  - split; [exists (at_, true); rewrite lookup_insert_eq; split_and!; try done; cbn; lia|]. rewrite E0. split; [|done]. symmetry. apply Z.leb_gt. lia.
Qed.

Lemma restore_unknown k at_ wall s : k ∈ restored s \/ d_values s !! k = None -> let s' := restoreWarningState sv k at_ wall false s in
  firingSince s' !! k = firingSince s !! k /\ warningState s' !! k = warningState s !! k /\ k ∈ restored s'.
Proof.
  intros HR. unfold restoreWarningState. rewrite orb_false_r. destruct (bool_decide_reflect (k ∈ restored s)) as [Hin|Hn]; [done|]. destruct HR as [?|E]; [done|]. unfold live_value. rewrite E. cbv beta iota zeta. change (time_IsZero zero_time) with true. cbn [andb]. cbv iota. change (time_IsZero zero_time) with true. cbv iota.
  cbn [firingSince set_restored]. destruct (firingSince s !! k) eqn:EF; cbn [warningState set_restored]; destruct (warningState s !! k) eqn:EW; cbn; rewrite ?EF, ?EW; split_and!; try done; set_solver.
Qed.

Lemma publish_tail_fired x fired since s f : y_fired (snd (publish_tail x fired since s)) = Some f -> f = fired.
Proof.
  unfold publish_tail. cbv zeta. destruct (negb (encodable _)); [done|]. destruct (x_set_fails x); [done|]. destruct (x_sadd_fails x); [cbn; congruence|]. destruct (x_expire_fails x); [cbn; congruence|].
  destruct (evaluated sv x); [destruct (recordWarning _ _ _ _ _)|]; cbn; congruence.
Qed.

Lemma record_warning k fired f s : let s' := fst (recordWarning sv k fired f s) in warningState s' !! k = Some fired /\ firingSince s' = firingSince s /\ restored s' = restored s.
Proof.
  unfold recordWarning. set (n := if fired then _ else _). set (deliver := _ && _ && _). set (s1 := set_latches _ _ s). assert (warningState s1 !! k = Some fired) as E by (cbn; by rewrite lookup_insert_eq).
  destruct (negb deliver); [done|]. destruct f; [|done]. cbn [fst]. by destruct (lastWarning k s1).
Qed.

Lemma refresh_values k x s : Pair_String (x_pair x) <> k -> d_values (fst (refresh sv x s)) !! k = d_values s !! k.
Proof.
  intros Hk. assert (forall k a w f t, d_values (restoreWarningState sv k a w f t) = d_values t) as HRs.
  { intros k0 a w f t. unfold restoreWarningState. destruct (_ || _); [done|]. destruct (match live_value t w k0 with Some (Some e) => _ | _ => _ end) as [fired since]. set (since' := if _ && _ && _ then _ else since).
    destruct (firingSince _ !! k0); [|destruct (time_IsZero since')]; destruct (warningState _ !! k0); try done; by destruct fired. }
  assert (forall k r a t, d_values (fst (warningPersists sv k r a t)) = d_values t) as HPs.
  { intros k0 r a t. unfold warningPersists. destruct (_ <=? 0); [done|]. destruct (negb r); [done|]. destruct (firingSince t !! k0); [|done]. destruct (_ || _); [done|]. by destruct (time_After _ _). }
  assert (forall k r f t, d_values (fst (recordWarning sv k r f t)) = d_values t) as HRc.
  { intros k0 r f t. unfold recordWarning. destruct (negb _); [done|]. destruct f; [|done]. cbn [fst]. by destruct (lastWarning _ _). }
  destruct (decide (sv_refs sv = [])) as [E|HR]; [unfold refresh; by rewrite E|]. rewrite refresh_eq by done. cbv zeta. set (s1 := restoreWarningState _ _ _ _ _ s). set (v := if evaluated sv x then _ else _).
  assert (d_values v.1 = d_values s) as EV by (unfold v; destruct (evaluated sv x); [rewrite HPs|]; apply HRs). rewrite <- EV. unfold publish_tail. cbv zeta. destruct (negb (encodable _)); [done|]. destruct (x_set_fails x); [done|].
  assert (forall e, <[Pair_String (x_pair x) := e]> (d_values v.1) !! k = d_values v.1 !! k) as HI by (intros e; by apply lookup_insert_ne).
  destruct (x_sadd_fails x); [apply HI|]. destruct (x_expire_fails x); [apply HI|].
  match goal with |- context [if sv_hasSink sv then flushObservations _ _ _ _ _ _ ?a else ?a] => set (s2 := if sv_hasSink sv then flushObservations _ _ _ _ _ _ a else a) end.
  assert (d_values s2 !! k = d_values v.1 !! k) as E2 by (unfold s2; destruct (sv_hasSink sv); apply HI). destruct (evaluated sv x); [|done].
  specialize (HRc (Pair_String (x_pair x)) v.2.1 (x_hook_fails x) s2). destruct (recordWarning _ _ _ _ _). cbn [fst] in *. congruence.
Qed.

Lemma tracked_kept k h s s' : kept k s s' -> tracked k h s -> tracked k h s'.
Proof. intros K. unfold tracked. by rewrite (kt_streak _ _ _ K). Qed.

Lemma refresh_tracked k h x s : sv_refs sv <> [] -> 0 < sv_persistence sv -> Pair_String (x_pair x) = k -> x_get_fails x = false ->
  steady (h ++ readings k [x]) -> tracked k h s -> k ∈ restored s \/ d_values s !! k = None -> let '(s', y) := refresh sv x s in
  tracked k (h ++ readings k [x]) s' /\ k ∈ restored s' /\ warningState s' !! k = match y_recorded y with Some b => Some b | None => warningState s !! k end
  /\ forall f, y_fired y = Some f -> f = if evaluated sv x then persisted (h ++ readings k [x]) (gate_at x) else default false (warningState s !! k).
Proof.
  intros HR HP Ek Hg HS HT HRd. rewrite refresh_eq by done. cbv zeta. rewrite Ek, Hg. destruct (restore_unknown k (gate_at x) (x_wall x) s HRd) as (R1 & R2 & R3). set (s1 := restoreWarningState sv k _ _ false s) in *.
  assert (readings k [x] = if evaluated sv x then [(gate_at x, raw_firing sv x)] else []) as ER by (unfold readings, reading; cbn; rewrite Ek, String.eqb_refl; cbn; by destruct (evaluated sv x)). rewrite ER in *.
  assert (tracked k h s1) as T1 by (unfold tracked; by rewrite R1). set (v := if evaluated sv x then warningPersists sv k _ _ s1 else _).
  assert (tracked k (h ++ (if evaluated sv x then [(gate_at x, raw_firing sv x)] else [])) v.1 /\ warningState v.1 = warningState s1 /\ restored v.1 = restored s1
    /\ v.2.1 = if evaluated sv x then persisted (h ++ (if evaluated sv x then [(gate_at x, raw_firing sv x)] else [])) (gate_at x) else default false (warningState s !! k)) as (T2 & W2 & Rs2 & V2).
  { unfold v. destruct (evaluated sv x); [|rewrite app_nil_r; split_and!; try done; cbn; unfold lastWarning; by rewrite R2].
    pose proof (persists_tracked k h (raw_firing sv x) (gate_at x) s1 HP HS T1) as HT1. destruct (warningPersists sv k (raw_firing sv x) (gate_at x) s1) as [s2 [fired since]]. destruct HT1 as (X1 & X2 & X3 & X4). by split_and!. }
  pose proof (publish_tail_cases x v.2.1 v.2.2 v.1) as HC. pose proof (publish_tail_fired x v.2.1 v.2.2 v.1) as HF. destruct (publish_tail x v.2.1 v.2.2 v.1) as [s' y]. cbn [snd] in HF. rewrite <- V2.
  destruct HC as [(E1 & _ & K)|(_ & _ & E1 & s2 & K & E2)]; rewrite E1.
  - split; [by eapply tracked_kept|]. split; [rewrite (kt_restored _ _ _ (K k)), Rs2; done|]. split; [|done]. by rewrite (kt_warning _ _ _ (K k)), W2.
  - rewrite Ek in E2. destruct (record_warning k v.2.1 (x_hook_fails x) s2) as (W3 & F3 & Rs3). rewrite <- E2 in W3, F3, Rs3. cbn [fst] in W3, F3, Rs3. split; [unfold tracked; rewrite F3; by eapply tracked_kept|].
    split; [rewrite Rs3, (kt_restored _ _ _ (K k)), Rs2; done|done].
Qed.

Lemma last_recorded_snoc k ys o : last_recorded k (ys ++ [o]) = if String.eqb o.1 k then match y_recorded o.2 with Some b => Some b | None => last_recorded k ys end else last_recorded k ys.
Proof. unfold last_recorded. rewrite omap_app. cbn. destruct (String.eqb o.1 k); [destruct (y_recorded o.2); [apply last_snoc|by rewrite app_nil_r]|by rewrite app_nil_r]. Qed.

Lemma readings_other k x : Pair_String (x_pair x) <> k -> readings k [x] = [].
Proof. intros Hk. unfold readings, reading. cbn. by destruct (String.eqb_spec (Pair_String (x_pair x)) k). Qed.

Lemma run_tracked k xs s0 : sv_refs sv <> [] -> 0 < sv_persistence sv -> unknown k s0 -> (forall x, x ∈ xs -> Pair_String (x_pair x) = k -> x_get_fails x = false) -> steady (readings k xs) ->
  tracked k (readings k xs) (fst (run xs s0)) /\ (k ∈ restored (fst (run xs s0)) \/ d_values (fst (run xs s0)) !! k = None) /\ warningState (fst (run xs s0)) !! k = last_recorded k (snd (run xs s0)).
Proof.
  intros HR HP (U1 & U2 & U3). induction xs as [|x xs IH] using rev_ind; intros Hg HS; [cbn; auto|]. unfold readings in *. rewrite omap_app in *.
  assert (steady (omap (reading k) xs)) as HS' by (intros i a b Ha Hb; apply (HS i); by apply lookup_app_l_Some). destruct IH as (I1 & I2 & I3); [intros; apply Hg; [apply elem_of_app; by left|done]|done|].
  rewrite refreshes_app. cbn [fst snd run]. set (s := fst (run xs s0)) in *. destruct (decide (Pair_String (x_pair x) = k)) as [Ek|Hk].
  - pose proof (refresh_tracked k (omap (reading k) xs) x s HR HP Ek (Hg x ltac:(apply elem_of_app; right; by left) Ek) HS I1 I2) as HT. destruct (refresh sv x s) as [s' y]. cbn [fst snd].
    destruct HT as (T1 & T2 & T3 & _). split; [done|]. split; [by left|]. rewrite last_recorded_snoc, T3. cbn [fst snd]. by rewrite Ek, String.eqb_refl, I3.
  - pose proof (refresh_other k x s Hk) as K. pose proof (refresh_values k x s Hk) as HV. pose proof (readings_other k x Hk) as ER. unfold readings in ER. rewrite ER, app_nil_r. destruct (refresh sv x s) as [s' y]. cbn [fst snd] in *.
    split; [by eapply tracked_kept|]. split; [rewrite (kt_restored _ _ _ K), HV; done|]. rewrite last_recorded_snoc. cbn [fst]. destruct (String.eqb_spec (Pair_String (x_pair x)) k); [done|]. by rewrite (kt_warning _ _ _ K).
Qed.
End Runs.

(** C0: the verdict of a pair is exact. A service that starts without a record
    of the pair, reads its cache, and judges it on a clock that does not go back
    and without gaps longer than it allows publishes a warning exactly when
    the divergence that its readings end with has held for the whole
    persistence time; a refresh that cannot be judged, for want of a quorum or
    because the price is pinned, repeats the last verdict. *)
Theorem warning_exact sv k xs x s0 : sv_refs sv <> [] -> 0 < sv_persistence sv -> unknown k s0 -> Pair_String (x_pair x) = k ->
  (forall x', x' ∈ xs ++ [x] -> Pair_String (x_pair x') = k -> x_get_fails x' = false) -> steady sv (readings sv k (xs ++ [x])) ->
  forall fired, y_fired (snd (refresh sv x (fst (run sv xs s0)))) = Some fired ->
  fired = if evaluated sv x then match streak_start (readings sv k (xs ++ [x])) with Some since => sv_persistence sv <=? time_Sub (gate_at x) since | None => false end
          else default false (last_recorded k (snd (run sv xs s0))).
Proof.
  intros HR HP HU Ek Hg HS fired HF. unfold readings in HS. rewrite omap_app in HS. assert (steady sv (readings sv k xs)) as HS' by (intros i a b Ha Hb; apply (HS i); by apply lookup_app_l_Some).
  destruct (run_tracked sv k xs s0 HR HP HU) as (T1 & T2 & T3); [intros; apply Hg; [apply elem_of_app; by left|done]|done|].
  pose proof (refresh_tracked sv k (readings sv k xs) x _ HR HP Ek (Hg x ltac:(apply elem_of_app; right; by left) Ek) HS T1 T2) as HT. destruct (refresh sv x (fst (run sv xs s0))) as [s' y]. cbn [snd] in HF.
  destruct HT as (_ & _ & _ & HV). rewrite (HV fired HF), T3. unfold readings. by rewrite omap_app.
Qed.

(** C0: the hook is called once per episode. In any run of refreshes, whatever
    fails, between two deliveries for one pair a refresh recorded that the pair
    no longer diverges; a call that failed is no delivery. *)
Theorem hook_once sv k xs s0 before first middle second after : snd (run sv xs s0) = before ++ first :: middle ++ second :: after ->
  first.1 = k -> second.1 = k -> y_hook first.2 = Some true -> y_hook second.2 = Some true -> exists clear, clear ∈ middle /\ clear.1 = k /\ y_recorded clear.2 = Some false.
Proof. apply delivered_run. Qed.

(** A recorded warning reaches the hook, or its episode did before: nothing is
    kept from a hook that answers. *)
Theorem warning_reaches_hook sv x s : sv_hasHook sv = true -> let '(s', y) := refresh sv x s in
  y_recorded y = Some true -> x_hook_fails x = false -> Pair_String (x_pair x) ∈ notified s' /\ (y_hook y = Some true \/ y_hook y = None).
Proof.
  intros HH. destruct (decide (sv_refs sv = [])) as [E|HR]; [unfold refresh; by rewrite E|]. rewrite refresh_eq by done. cbv zeta. set (s1 := restoreWarningState _ _ _ _ _ s). set (v := if evaluated sv x then _ else _).
  pose proof (publish_tail_cases sv x v.2.1 v.2.2 v.1) as HC. destruct (publish_tail sv x v.2.1 v.2.2 v.1) as [s' y]. destruct HC as [(E & _ & _)|(_ & _ & ER & s2 & _ & E)]; [by rewrite E|].
  rewrite ER. intros [= EF] Hf. rewrite EF, Hf in E. unfold recordWarning in E. rewrite HH in E. cbn [andb] in E. destruct (bool_decide_reflect (Pair_String (x_pair x) ∈ notified s2)); cbn [negb] in E; injection E as -> ->; cbn; split; auto; set_solver.
Qed.

(** A pinned price leaves the verdict, its streak and its episode alone. *)
Theorem pinned_no_verdict sv x s : x_pinned x = true -> Pair_String (x_pair x) ∈ restored s -> let '(s', y) := refresh sv x s in
  y_recorded y = None /\ y_hook y = None /\ kept (Pair_String (x_pair x)) s s' /\ forall f, y_fired y = Some f -> f = lastWarning (Pair_String (x_pair x)) s.
Proof.
  intros HPn Hin. destruct (decide (sv_refs sv = [])) as [E|HR]; [unfold refresh; rewrite E; split_and!; try done; apply kept_refl|]. rewrite refresh_eq by done. cbv zeta.
  assert (evaluated sv x = false) as EE by (unfold evaluated; rewrite HPn; apply andb_false_r). unfold restoreWarningState. rewrite (bool_decide_eq_true_2 _ Hin). cbn [orb]. rewrite EE. cbn [fst snd].
  set (fired := lastWarning _ s). set (since := lastFiringSince _ s). pose proof (publish_tail_cases sv x fired since s) as HC. pose proof (publish_tail_fired sv x fired since s) as HF. destruct (publish_tail sv x fired since s) as [s' y]. cbn [snd] in HF.
  destruct HC as [(E1 & E2 & K)|(E1 & _)]; [by split_and!|congruence].
Qed.

(** ** Crossed prices *)

Lemma lookupLeg_answered ref pair observedAt wall q : lookupLeg ref pair observedAt wall = Answered q ->
  LookupQuote ref pair observedAt wall = Answered q /\ isUsablePrice (rq_Price q) = true /\ checkComparable q pair observedAt wall = None.
Proof.
  unfold lookupLeg. destruct (LookupQuote ref pair observedAt wall) as [q'| |]; [|done..]. destruct (isUsablePrice (rq_Price q')) eqn:E; cbn [negb]; [|by destruct (rf_Name ref)].
  destruct (checkComparable q' pair observedAt wall) eqn:EC; [by destruct (rf_Name ref)|]. intros [= <-]. done.
Qed.

Lemma independent_answered refs pair observedAt wall publisher : forall done_ i t d q n t' d', independent_loop refs pair observedAt wall publisher done_ i t d = Some (Some q, n, t', d') ->
  exists f name, f ∈ refs /\ rf_Name f = Some name /\ referencePublisher name <> publisher /\ lookupLeg f pair observedAt wall = Answered q.
Proof.
  induction refs as [|f refs IH]; intros done_ i t d q n t' d' E; cbn [independent_loop] in E; [done|].
  assert (forall done_ i t d, independent_loop refs pair observedAt wall publisher done_ i t d = Some (Some q, n, t', d') ->
    exists f0 name, f0 ∈ f :: refs /\ rf_Name f0 = Some name /\ referencePublisher name <> publisher /\ lookupLeg f0 pair observedAt wall = Answered q) as HR.
  { intros a b c e E'. destruct (IH a b c e q n t' d' E') as (f0 & name & Hf & X). exists f0, name. split; [by right|done]. }
  destruct (lookupLeg f pair observedAt wall) as [q'| |] eqn:EL; [|by eapply HR|done]. destruct (rf_Name f) as [name|] eqn:EN; [|done]. destruct (String.eqb_spec (referencePublisher name) publisher) as [_|Hne]; [by eapply HR|].
  injection E as <- _ _ _. exists f, name. split; [by left|done].
Qed.

(** The quotient of two quotes of different publishers, each young enough for
    its own pair. *)
Definition crossed (usdLegs fxLegs : list Reference) (pair : Pair) (observedAt wall : Time) (q : RefQuote) : Prop :=
  exists b f nb nf qb qf, b ∈ usdLegs /\ f ∈ fxLegs /\ rf_Name b = Some nb /\ rf_Name f = Some nf /\ referencePublisher nf <> referencePublisher nb
    /\ LookupQuote b (mkPair (Base pair) usd) observedAt wall = Answered qb /\ checkComparable qb (mkPair (Base pair) usd) observedAt wall = None
    /\ LookupQuote f (mkPair (Quote pair) usd) observedAt wall = Answered qf /\ checkComparable qf (mkPair (Quote pair) usd) observedAt wall = None
    /\ rq_Price q = f64_div (rq_Price qb) (rq_Price qf) /\ isUsablePrice (rq_Price q) = true /\ rq_AsOf q = rq_AsOf qb.

Lemma synthetic_loop_answered usdLegs fxLegs pair observedAt wall q : forall bt ba n t d,
  synthetic_loop usdLegs fxLegs (mkPair (Base pair) usd) (mkPair (Quote pair) usd) observedAt wall bt ba n t d = Answered q -> crossed usdLegs fxLegs pair observedAt wall q.
Proof.
  induction usdLegs as [|b legs IH]; intros bt ba n t d E; cbn [synthetic_loop] in E; [done|].
  assert (crossed legs fxLegs pair observedAt wall q -> crossed (b :: legs) fxLegs pair observedAt wall q) as HR
    by (intros (b0 & f & nb & nf & qb & qf & Hb & X); exists b0, f, nb, nf, qb, qf; split; [right; exact Hb|exact X]).
  destruct (lookupLeg b (mkPair (Base pair) usd) observedAt wall) as [qb| |] eqn:EL; [|by eapply HR, IH|done]. destruct (rf_Name b) as [nb|] eqn:EN; [|done].
  destruct (independent_loop fxLegs _ _ _ _ _ _ _ _) as [[[[[qf|] n'] t'] d']|] eqn:EI; [|by eapply HR, IH|done]. apply independent_answered in EI as (f & nf & Hf & ENf & Hne & EF).
  destruct (isUsablePrice (f64_div (rq_Price qb) (rq_Price qf))) eqn:EU; [|done]. injection E as <-. apply lookupLeg_answered in EL as (L1 & _ & L3). apply lookupLeg_answered in EF as (F1 & _ & F3).
  exists b, f, nb, nf, qb, qf. split_and!; try done. by left.
Qed.

(** A price crossed through dollars has two publishers. *)
Theorem synthetic_two_publishers usdLegs fxLegs pair observedAt wall q :
  synthetic_LookupQuote usdLegs fxLegs pair observedAt wall = Answered q -> crossed usdLegs fxLegs pair observedAt wall q.
Proof. unfold synthetic_LookupQuote. destruct (_ || _); [done|]. apply synthetic_loop_answered. Qed.

(** ** Instances *)

(** Two references that say two, and refreshes once a minute. *)
Definition says (name : string) (price : Q) : Reference := mkReference_ (Some name) (fun _ observedAt _ => Answered (mkRefQuote (rat_Float64 price) observedAt)).
Definition sv_ex : Service := NewService (mkServiceOptions [says "a" 2; says "b" 2] f64_zero 0 (2 * Minute) Minute (5 * Minute) 1 0 true true).
Definition at_ex (minutes : Z) (price : Q) : refresh_input :=
  mkRefresh xlm_usd (rat_Float64 price) (minutes * Minute) (minutes * Minute) false [1; 0]%nat false false false false false (fun _ => false).
Definition svc_ex : svc := restart (mkSvc ∅ ∅ ∅ ∅ ∅ ∅ []).

Lemma compare_any_order_witness : dr_SuccessCount (Compare (sv_refs sv_ex) xlm_usd f64_one 0 0 1 [1; 0]%nat) = 2
  /\ Compare (sv_refs sv_ex) xlm_usd f64_one 0 0 1 [0; 1]%nat = Compare (sv_refs sv_ex) xlm_usd f64_one 0 0 1 [1; 0]%nat.
Proof.
  split; [vm_compute; reflexivity|].
  assert (NoDup (map safeName (sv_refs sv_ex))) as HN by (apply (bool_decide_unpack (NoDup ["a"; "b"])); vm_compute; exact I).
  assert (NoDup [1; 0]%nat) as HA by (apply (bool_decide_unpack (NoDup [1; 0]%nat)); vm_compute; exact I).
  assert (Forall (fun i => (i < length (sv_refs sv_ex))%nat) [1; 0]%nat) as HF by (repeat constructor).
  pose proof (compare_any_order (sv_refs sv_ex) xlm_usd f64_one 0 0 1 [1; 0]%nat HN HA HF) as HC. cbv zeta in HC. destruct HC as [HO _]. apply HO, Permutation_swap.
Defined.

(** The pair diverges from the first minute on; the warning comes with the
    third. *)
Lemma warning_exact_witness : y_fired (snd (refresh sv_ex (at_ex 3 1) (fst (run sv_ex [at_ex 1 1; at_ex 2 1] svc_ex)))) = Some true
  /\ true = (sv_persistence sv_ex <=? time_Sub (3 * Minute) (1 * Minute)).
Proof.
  assert (y_fired (snd (refresh sv_ex (at_ex 3 1) (fst (run sv_ex [at_ex 1 1; at_ex 2 1] svc_ex)))) = Some true) as HF by (vm_compute; reflexivity). split; [exact HF|].
  assert (readings sv_ex (Pair_String xlm_usd) ([at_ex 1 1; at_ex 2 1] ++ [at_ex 3 1]) = [(1 * Minute, true); (2 * Minute, true); (3 * Minute, true)]) as HRd by (vm_compute; reflexivity).
  assert (steady sv_ex (readings sv_ex (Pair_String xlm_usd) ([at_ex 1 1; at_ex 2 1] ++ [at_ex 3 1]))) as HS.
  { rewrite HRd. assert (sv_maxGap sv_ex = 4 * Minute) as EG by (vm_compute; reflexivity). unfold steady. rewrite EG. clear HF HRd EG.
    intros [|[|[|i]]] a b Ha Hb; cbn [lookup list_lookup] in Ha, Hb; try discriminate; injection Ha as <-; injection Hb as <-; cbn [fst]; change Minute with 60000000000; lia. }
  assert (forall x', x' ∈ [at_ex 1 1; at_ex 2 1] ++ [at_ex 3 1] -> Pair_String (x_pair x') = Pair_String xlm_usd -> x_get_fails x' = false) as HG.
  { clear. intros x' Hx _. cbn [app] in Hx. repeat (apply elem_of_cons in Hx as [->|Hx]; [reflexivity|]). by apply elem_of_nil in Hx. }
  pose proof (warning_exact sv_ex (Pair_String xlm_usd) [at_ex 1 1; at_ex 2 1] (at_ex 3 1) svc_ex ltac:(discriminate) ltac:(vm_compute; reflexivity) ltac:(split_and!; reflexivity) eq_refl HG HS true HF) as HW.
  rewrite HRd in HW. vm_compute in HW. vm_compute. exact HW.
Defined.

(** It recovers, and diverges again: a second episode. *)
Definition run_ex : list refresh_input := [at_ex 1 1; at_ex 2 1; at_ex 3 1; at_ex 4 2; at_ex 5 1; at_ex 6 1; at_ex 7 1].
Definition outs_ex : list (string * refresh_output) := snd (run sv_ex run_ex svc_ex).
Definition nothing_ex : string * refresh_output := ("", mkOutput None None None None).

Lemma hook_once_witness : map (fun o => y_hook o.2) outs_ex = [None; None; Some true; None; None; None; Some true]
  /\ exists clear, clear ∈ take 3 (drop 3 outs_ex) /\ clear.1 = Pair_String xlm_usd /\ y_recorded clear.2 = Some false.
Proof.
  split; [vm_compute; reflexivity|].
  apply (hook_once sv_ex (Pair_String xlm_usd) run_ex svc_ex (take 2 outs_ex) (default nothing_ex (outs_ex !! 2%nat)) (take 3 (drop 3 outs_ex)) (default nothing_ex (outs_ex !! 6%nat)) []); vm_compute; reflexivity.
Defined.

(** A divergence too large for a float is not published: the record of it does
    not encode. *)
Example overflow_unpublished : let sv := NewService (mkServiceOptions [says "a" (1 # 10 ^ 300); says "b" (1 # 10 ^ 300)] f64_zero 0 (2 * Minute) Minute (5 * Minute) 1 0 true true) in
  let x := at_ex 1 (10 ^ 10 # 1) in
  evaluated sv x = true /\ raw_firing sv x = true /\ y_err (snd (refresh sv x svc_ex)) = Some ErrMarshal /\ d_values (fst (refresh sv x svc_ex)) = ∅.
Proof. vm_compute. split_and!; reflexivity. Qed.

(** When the cache cannot be read at first, a later refresh restores from the
    entry that the process wrote itself: the divergence of the first minute
    comes back after the clear reading of the second, whose entry could not be
    written, and the warning is published although the divergence did not
    hold. *)
Example own_entry_restored :
  let cut (minutes : Z) (price : Q) (set_fails : bool) := mkRefresh xlm_usd (rat_Float64 price) (minutes * Minute) (minutes * Minute) false [1; 0]%nat true set_fails false false false (fun _ => false) in
  let xs := [cut 1 1%Q false; cut 2 2%Q true] in
  readings sv_ex (Pair_String xlm_usd) (xs ++ [at_ex 3 1]) = [(1 * Minute, true); (2 * Minute, false); (3 * Minute, true)]
  /\ y_fired (snd (refresh sv_ex (at_ex 3 1) (fst (run sv_ex xs svc_ex)))) = Some true.
Proof. vm_compute. split; reflexivity. Qed.
