(* ===== verification/ScamGate.v ===== *)
(** * Serving guards: flagged issuers and the one withholding decision
    (internal/pricingguard/scam.go, the tag vocabulary of internal/storage/
    timescale/account_directory.go)

    The price of a market is withheld when the issuer of either leg carries a
    scam-class tag in the directory, under every spelling of the asset, or
    when the substance gate of [PriceGuard] refuses it.

    The directory and the listing of flagged assets are what a call reads of
    the store ([scam_env]); [strings.ToLower] and [strings.TrimSpace], which
    follow the Unicode tables, are the interface [StringsFold]. A call reads the
    clock once. Metrics and log lines are left out. *)

From S2P Require Import Prelude GoLib Amount Asset Alias RobustStat PriceGuard.

Class StringsFold := {
  strings_ToLower : string -> string;
  strings_TrimSpace : string -> string
}.

Definition DirectoryScamFlagTags : list string := ["malicious"; "unsafe"; "fraud"; "scam"; "hack"; "phishing"].

Definition CanonicalDirectoryTag `{StringsFold} (tag : string) : string := strings_ToLower (strings_TrimSpace tag).

Definition IsDirectoryScamFlagged `{StringsFold} (tags : list string) : bool :=
  existsb (fun t => bool_decide (CanonicalDirectoryTag t ∈ DirectoryScamFlagTags)) tags.

Definition scamCacheTTL : Duration := 60 * Second.
Definition scamCacheMax : Z := 8192.

Record scamVerdict := mkScamV { scv_withheld : bool; scv_expires : Time }.

(** [sc_inflight] counts the running rebuilds ([sacRefresh]). *)
Record ScamGate := mkScam {
  sc_lister : bool;
  sc_cache : gmap string scamVerdict;
  sc_sacIndex : option (gset string);
  sc_sacExpires : Time;
  sc_sacRefreshing : bool;
  sc_inflight : nat
}.

Definition NewScamGate (hasDir hasLister : bool) : option ScamGate :=
  if negb hasDir then None else Some (mkScam hasLister ∅ None zero_time false 0).

(** What a request reads: the entry of an address ([None] an error, [Some
    None] no entry) and the flagged classic assets. *)
Record scam_env := mkScamEnv {
  DirectoryEntryByAddress : string -> option (option (list string));
  DirectoryScamFlaggedClassicAssets : option (list Asset)
}.

Section Scam.
Context `{Strkey} `{XdrSac} `{StringsFold} (gl : globals).

Definition sacIndexOf (assets : list Asset) : gset string :=
  list_to_set (omap (fun a => match SacContractID gl a with Ok cid => Some cid | Err _ => None end) assets).

Definition scam_fresh (g : ScamGate) (key : string) (now : Time) : option bool :=
  v ← sc_cache g !! key; if time_Before now (scv_expires v) then Some (scv_withheld v) else None.

(** The section that stores a verdict. *)
Definition store_verdict (g : ScamGate) (now : Time) (key : string) (withheld : bool) : ScamGate :=
  let cache := if scamCacheMax <=? Z.of_nat (size (sc_cache g)) then ∅ else sc_cache g in
  mkScam (sc_lister g) (<[key := mkScamV withheld (time_Add now scamCacheTTL)]> cache)
    (sc_sacIndex g) (sc_sacExpires g) (sc_sacRefreshing g) (sc_inflight g).

Definition entry_flagged (e : option (list string)) : bool :=
  match e with Some tags => IsDirectoryScamFlagged tags | None => false end.

Definition directoryFlagged (g : ScamGate) (env : scam_env) (now : Time) (key : string) : bool * ScamGate :=
  match scam_fresh g key now with
  | Some withheld => (withheld, g)
  | None =>
      match DirectoryEntryByAddress env key with
      | None => (false, g)
      | Some e => (entry_flagged e, store_verdict g now key (entry_flagged e))
      end
  end.

Definition set_index (g : ScamGate) (now : Time) (assets : list Asset) (refreshing : bool) (inflight : nat) : ScamGate :=
  mkScam (sc_lister g) (sc_cache g) (Some (sacIndexOf assets)) (time_Add now scamCacheTTL) refreshing inflight.

Definition buildSACIndexLocked (g : ScamGate) (env : scam_env) (now : Time) : option (gset string) * ScamGate :=
  match DirectoryScamFlaggedClassicAssets env with
  | None => (None, g)
  | Some assets => let g := set_index g now assets (sc_sacRefreshing g) (sc_inflight g) in (sc_sacIndex g, g)
  end.

Definition flaggedSACIndex (g : ScamGate) (env : scam_env) (now : Time) : option (gset string) * ScamGate :=
  match sc_sacIndex g with
  | None => buildSACIndexLocked g env now
  | Some index =>
      if negb (time_Before now (sc_sacExpires g)) && negb (sc_sacRefreshing g)
      then (Some index, mkScam (sc_lister g) (sc_cache g) (Some index) (sc_sacExpires g) true (S (sc_inflight g)))
      else (Some index, g)
  end.

Definition WarmSACIndex (g : option ScamGate) (env : scam_env) (now : Time) : option ScamGate :=
  match g with
  | Some s => if negb (sc_lister s) then g else Some (flaggedSACIndex s env now).2
  | None => None
  end.

(** How a rebuild ends. *)
Inductive refresh_result := Listed (assets : list Asset) | ListingFailed | Panicked.

Definition refreshSACIndex (g : ScamGate) (r : refresh_result) (now : Time) : ScamGate :=
  match r with
  | Listed assets => set_index g now assets false (pred (sc_inflight g))
  | ListingFailed | Panicked => mkScam (sc_lister g) (sc_cache g) (sc_sacIndex g) (sc_sacExpires g) false (pred (sc_inflight g))
  end.

Definition flaggedSAC (g : ScamGate) (env : scam_env) (now : Time) (contractID : string) : bool * ScamGate :=
  if negb (sc_lister g) || is_empty contractID then (false, g)
  else
    let '(index, g) := flaggedSACIndex g env now in
    match index with
    | None => (false, g)
    | Some index => (bool_decide (contractID ∈ index), g)
    end.

Definition withheldLeg (g : option ScamGate) (env : scam_env) (now : Time) (asset : Asset) : bool * option ScamGate :=
  match g with
  | None => (false, None)
  | Some s =>
      let asset := CanonicalAsset gl asset in
      if bool_decide (Type_ asset = AssetSoroban) then
        if is_empty (ContractID asset) then (false, g)
        else
          let '(hit, s) := flaggedSAC s env now (ContractID asset) in
          if hit then (true, Some s)
          else let '(hit, s) := directoryFlagged s env now (ContractID asset) in (hit, Some s)
      else if negb (bool_decide (Type_ asset = AssetClassic)) || is_empty (Issuer asset) then (false, g)
      else let '(hit, s) := directoryFlagged s env now (Issuer asset) in (hit, Some s)
  end.

Definition WithheldPair (g : option ScamGate) (env : scam_env) (now : Time) (base quote : Asset) : bool * option ScamGate :=
  let '(hit, g) := withheldLeg g env now base in
  if hit then (true, g) else withheldLeg g env now quote.

Definition Withheld (g : option ScamGate) (env : scam_env) (now : Time) (base : Asset) : bool * option ScamGate := withheldLeg g env now base.

(** ** The one decision *)

Inductive Withholding := NotWithheld | WithheldThinMarket | WithheldFlaggedIssuer.

#[export] Instance Withholding_eq_dec : EqDecision Withholding.
Proof. solve_decision. Defined.

Record Query := mkQuery { q_PointInTime : bool; q_At : Time; q_AdmitThin : bool }.

Record Verdict := mkV { v_Withholding : Withholding; v_Substance : option SubstanceEvidence; v_ThinAdmitted : bool }.

Definition Fold (scamFlagged : bool) (v : SubstanceVerdict) (admitThin : bool) : Verdict :=
  if scamFlagged then mkV WithheldFlaggedIssuer None false
  else if Measured v && negb (Allowed v) && admitThin then mkV NotWithheld (Evidence v) true
  else if Measured v && negb (Allowed v) then mkV WithheldThinMarket (Evidence v) false
  else mkV NotWithheld (Evidence v) false.

Record Gate := mkGates { gt_Substance : option SubstanceGate; gt_Scam : option ScamGate }.

Section Judge.
Context `{RatText}.
Context (read : list Asset -> list Asset -> Duration -> option MarketSubstance).
Context (readAt : list Asset -> list Asset -> Time -> Duration -> HistoryGranularity -> option MarketSubstance).

Definition Judge (g : Gate) (env : scam_env) (now : Time) (base quote : Asset) (q : Query) : Verdict * Gate :=
  let '(hit, scam) := WithheldPair (gt_Scam g) env now base quote in
  if hit then (Fold true no_verdict false, mkGates (gt_Substance g) scam)
  else
    let '(v, sub) :=
      if q_PointInTime q then MeasureAt gl (gt_Substance g) now readAt base quote (q_At q)
      else Measure gl (gt_Substance g) now read base quote in
    (Fold false v (q_AdmitThin q), mkGates sub scam).

Definition PriceWithholding (g : Gate) (env : scam_env) (now : Time) (base quote : Asset) : Withholding * Gate :=
  let '(v, g) := Judge g env now base quote (mkQuery false zero_time false) in (v_Withholding v, g).

Definition PriceWithheld (g : Gate) (env : scam_env) (now : Time) (base quote : Asset) : bool * Gate :=
  let '(w, g) := PriceWithholding g env now base quote in (negb (bool_decide (w = NotWithheld)), g).

Definition PriceWithholdingAt (g : Gate) (env : scam_env) (now : Time) (base quote : Asset) (at_ : Time) : Withholding * Gate :=
  let '(v, g) := Judge g env now base quote (mkQuery true at_ false) in (v_Withholding v, g).

Definition WithholdingFor (scamFlagged substanceAllowed : bool) : Withholding :=
  if scamFlagged then WithheldFlaggedIssuer else if negb substanceAllowed then WithheldThinMarket else NotWithheld.

Definition AssetValueWithholding (g : Gate) (env : scam_env) (now : Time) (asset : Asset) (usdPegs : list Asset) : Withholding * Gate :=
  let '(hit, scam) := withheldLeg (gt_Scam g) env now asset in
  if hit then (WithheldFlaggedIssuer, mkGates (gt_Substance g) scam)
  else
    let '(allowed, measured, sub) := AssetSubstanceVerdict gl (gt_Substance g) now read asset usdPegs in
    (WithholdingFor false (allowed || negb measured), mkGates sub scam).
End Judge.

(** ** Runs

    Requests and rebuilds interleave; one step is one section under a lock.
    The directory says [D] and the listing [L] throughout, but any call may
    fail, at any time, and any clock is possible. *)

Context (D : string -> option (list string)) (L : list Asset).

(** What a leg is, by the directory and the listing alone. *)
Definition leg_flagged (lister : bool) (asset : Asset) : bool :=
  let a := CanonicalAsset gl asset in
  match Type_ a with
  | AssetSoroban =>
      negb (is_empty (ContractID a)) && ((lister && bool_decide (ContractID a ∈ sacIndexOf L)) || entry_flagged (D (ContractID a)))
  | AssetClassic => negb (is_empty (Issuer a)) && entry_flagged (D (Issuer a))
  | _ => false
  end.

(** An environment that tells the truth or fails. *)
Definition truthful (env : scam_env) : Prop :=
  (forall k e, DirectoryEntryByAddress env k = Some e -> e = D k)
  /\ (forall l, DirectoryScamFlaggedClassicAssets env = Some l -> l = L).
Definition answering (env : scam_env) : Prop :=
  (forall k, DirectoryEntryByAddress env k = Some (D k)) /\ DirectoryScamFlaggedClassicAssets env = Some L.

Inductive scam_step : ScamGate -> ScamGate -> Prop :=
| step_store g now key : scam_step g (store_verdict g now key (entry_flagged (D key)))
| step_index g env now : truthful env -> sc_lister g = true -> scam_step g (flaggedSACIndex g env now).2
| step_refresh g r now : (0 < sc_inflight g)%nat -> (forall l, r = Listed l -> l = L) -> scam_step g (refreshSACIndex g r now).

Definition scam_run (lister : bool) : ScamGate -> Prop := rtc scam_step (mkScam lister ∅ None zero_time false 0).

Record scam_inv (lister : bool) (g : ScamGate) : Prop := {
  si_lister : sc_lister g = lister;
  si_cache k v : sc_cache g !! k = Some v -> scv_withheld v = entry_flagged (D k);
  si_index i : sc_sacIndex g = Some i -> i = sacIndexOf L;
  si_inflight : sc_inflight g = if sc_sacRefreshing g then 1%nat else 0%nat;
  si_size : Z.of_nat (size (sc_cache g)) <= scamCacheMax
}.

End Scam.

Section ScamProofs.
Context `{Strkey} `{XdrSac} `{StringsFold} (gl : globals) (D : string -> option (list string)) (L : list Asset).

Lemma store_inv lister g now key : scam_inv gl D L lister g -> scam_inv gl D L lister (store_verdict g now key (entry_flagged (D key))).
Proof.
  intros [IL IC IX II IS]. split; try done.
  - intros k v. cbn [store_verdict sc_cache]. intros [[<- <-]|[_ HK]]%lookup_insert_Some; [done|].
    case_if_in HK; [by rewrite lookup_empty in HK|by apply IC].
  - cbn [store_verdict sc_cache]. case_if; bprop.
    + pose proof (insert_size (∅ : gmap string scamVerdict) key (mkScamV (entry_flagged (D key)) (time_Add now scamCacheTTL))) as X.
      rewrite map_size_empty in X. unfold scamCacheMax. lia.
    + pose proof (insert_size (sc_cache g) key (mkScamV (entry_flagged (D key)) (time_Add now scamCacheTTL))). lia.
Qed.

Lemma index_inv lister g env now : truthful D L env -> scam_inv gl D L lister g ->
  scam_inv gl D L lister (flaggedSACIndex gl g env now).2
  /\ (forall i, (flaggedSACIndex gl g env now).1 = Some i -> i = sacIndexOf gl L)
  /\ (DirectoryScamFlaggedClassicAssets env <> None -> is_Some (flaggedSACIndex gl g env now).1).
Proof.
  intros [_ HL] [IL IC IX II IS]. unfold flaggedSACIndex. destruct (sc_sacIndex g) as [i|] eqn:EI.
  - destruct (sc_sacRefreshing g) eqn:ER; rewrite ?andb_false_r.
    + cbn [fst snd]. split_and!; [|by intros ? [= <-]; apply IX|done]. split; try done; by rewrite ?EI, ?ER.
    + case_if; cbn [fst snd]; (split_and!; [|by intros ? [= <-]; apply IX|done]); split; try done; cbn; try by rewrite ?EI, ?ER.
      by rewrite II.
  - unfold buildSACIndexLocked. destruct (DirectoryScamFlaggedClassicAssets env) as [l|] eqn:EL; cbn [fst snd].
    + rewrite (HL l eq_refl). split_and!; [|by intros ? [= <-]|done]. split; try done. cbn. by intros ? [= <-].
    + split_and!; [|done|done]. split; try done. by rewrite EI.
Qed.

Lemma refresh_inv lister g r now : (0 < sc_inflight g)%nat -> (forall l, r = Listed l -> l = L) -> scam_inv gl D L lister g ->
  scam_inv gl D L lister (refreshSACIndex gl g r now) /\ sc_sacRefreshing (refreshSACIndex gl g r now) = false.
Proof.
  intros Hp HL [IL IC IX II IS]. split; [|by destruct r].
  assert (pred (sc_inflight g) = 0%nat) as EP by (destruct (sc_sacRefreshing g); lia).
  destruct r as [l| |]; split; try done; cbn; try by rewrite EP. by intros ? [= <-]; rewrite (HL l).
Qed.

Lemma scam_run_inv lister g : scam_run gl D L lister g -> scam_inv gl D L lister g.
Proof.
  intros HR. unfold scam_run in HR. apply (rtc_ind_r (fun g => scam_inv gl D L lister g) _) in HR; [done| |].
  - split; done.
  - intros x y _ HS HI. destruct HS as [x now key|x env now HT _|x r now Hp HL].
    + by apply store_inv.
    + by apply index_inv.
    + by apply refresh_inv.
Qed.

Lemma directoryFlagged_spec lister g env now key : truthful D L env -> scam_inv gl D L lister g ->
  scam_inv gl D L lister (directoryFlagged g env now key).2
  /\ ((directoryFlagged g env now key).1 = true -> entry_flagged (D key) = true)
  /\ (DirectoryEntryByAddress env key <> None -> (directoryFlagged g env now key).1 = entry_flagged (D key)).
Proof.
  intros [HD _] HI. unfold directoryFlagged, scam_fresh. destruct (sc_cache g !! key) as [v|] eqn:EC; cbn [mbind option_bind].
  - rewrite (si_cache _ _ _ _ _ HI _ _ EC). case_if; [done|].
    destruct (DirectoryEntryByAddress env key) as [e|] eqn:EE; cbn [fst snd]; [|done].
    rewrite (HD _ _ EE). split; [by apply store_inv|done].
  - destruct (DirectoryEntryByAddress env key) as [e|] eqn:EE; cbn [fst snd]; [|done].
    rewrite (HD _ _ EE). split; [by apply store_inv|done].
Qed.

(** One leg: never withheld without cause; decided by the directory and the
    listing when they answer. *)
Lemma withheldLeg_spec lister g env now a : truthful D L env -> scam_inv gl D L lister g ->
  exists g', (withheldLeg gl (Some g) env now a).2 = Some g' /\ scam_inv gl D L lister g'
    /\ ((withheldLeg gl (Some g) env now a).1 = true -> leg_flagged gl D L lister a = true)
    /\ (answering D L env -> (withheldLeg gl (Some g) env now a).1 = leg_flagged gl D L lister a).
Proof.
  intros HT HI. unfold withheldLeg, leg_flagged. set (c := CanonicalAsset gl a).
  case_bool_decide as EA.
  - rewrite EA. destruct (is_empty (ContractID c)) eqn:EE; [by exists g|]. cbn [negb andb].
    unfold flaggedSAC. rewrite EE, orb_false_r, (si_lister _ _ _ _ _ HI).
    destruct (index_inv _ g env now HT HI) as (HI1 & HX & HA).
    destruct lister; cbn [negb andb orb].
    + destruct (flaggedSACIndex gl g env now) as [[i|] g1]; cbn [fst snd] in *.
      * rewrite (HX i eq_refl). destruct (bool_decide (ContractID c ∈ sacIndexOf gl L)); [by exists g1|].
        destruct (directoryFlagged_spec _ g1 env now (ContractID c) HT HI1) as (HI2 & HF & HE).
        destruct (directoryFlagged g1 env now (ContractID c)) as [hit g2]. cbn [fst snd] in *. exists g2.
        split_and!; [done|done|by cbn|]. intros [HD _]. apply HE. by rewrite HD.
      * destruct (directoryFlagged_spec _ g1 env now (ContractID c) HT HI1) as (HI2 & HF & HE).
        destruct (directoryFlagged g1 env now (ContractID c)) as [hit g2]. cbn [fst snd] in *. exists g2.
        split_and!; [done|done|intros X; rewrite (HF X); apply orb_true_r|]. intros [HD HL]. rewrite HL in HA. by destruct HA.
    + destruct (directoryFlagged_spec _ g env now (ContractID c) HT HI) as (HI2 & HF & HE).
      destruct (directoryFlagged g env now (ContractID c)) as [hit g2]. cbn [fst snd] in *. exists g2.
      split_and!; [done|done|by cbn|]. intros [HD _]. apply HE. by rewrite HD.
  - destruct (Type_ c) eqn:ET; try done; cbn [negb orb]; try (by exists g).
    rewrite bool_decide_eq_true_2 by done. cbn [negb orb]. destruct (is_empty (Issuer c)) eqn:EE; [by exists g|].
    destruct (directoryFlagged_spec _ g env now (Issuer c) HT HI) as (HI2 & HF & HE).
    destruct (directoryFlagged g env now (Issuer c)) as [hit g2]. cbn [fst snd negb andb] in *. exists g2.
    split_and!; [done|done|done|]. intros [HD _]. apply HE. by rewrite HD.
Qed.

Lemma answering_truthful env : answering D L env -> truthful D L env.
Proof. intros [HD HL]. split; [intros k e; rewrite HD; by intros [= <-]|intros l; rewrite HL; by intros [= <-]]. Qed.

Lemma WithheldPair_spec lister g env now b q : truthful D L env -> scam_inv gl D L lister g ->
  exists g', (WithheldPair gl (Some g) env now b q).2 = Some g' /\ scam_inv gl D L lister g'
    /\ ((WithheldPair gl (Some g) env now b q).1 = true -> leg_flagged gl D L lister b || leg_flagged gl D L lister q = true)
    /\ (answering D L env -> (WithheldPair gl (Some g) env now b q).1 = leg_flagged gl D L lister b || leg_flagged gl D L lister q).
Proof.
  intros HT HI. unfold WithheldPair. destruct (withheldLeg_spec _ g env now b HT HI) as (g1 & E1 & HI1 & HF1 & HA1).
  destruct (withheldLeg gl (Some g) env now b) as [[] o]; cbn [fst snd] in *; subst o.
  - exists g1. split_and!; [done|done|intros _; by rewrite HF1|]. intros HA. by rewrite <- HA1.
  - destruct (withheldLeg_spec _ g1 env now q HT HI1) as (g2 & E2 & HI2 & HF2 & HA2).
    exists g2. split_and!; [done|done|intros X; rewrite (HF2 X); apply orb_true_r|]. intros HA. by rewrite <- HA1, HA2.
Qed.
End ScamProofs.


(** The rebuild of the index: at most one runs, the flag says so, no failure
    or panic leaves the flag behind, and an index once built is never lost. *)
Theorem sac_index_kept `{Strkey} `{XdrSac} `{StringsFold} gl D L lister g g' :
  scam_run gl D L lister g -> scam_step gl D L g g' ->
  (sc_inflight g <= 1)%nat /\ (sc_sacRefreshing g = true <-> sc_inflight g = 1%nat)
  /\ (sc_sacIndex g <> None -> sc_sacIndex g' = Some (sacIndexOf gl L))
  /\ (forall env now i, sc_sacIndex g = Some i -> sc_sacExpires g <= now -> sc_inflight g = 0%nat ->
        sc_inflight (flaggedSACIndex gl g env now).2 = 1%nat).
Proof.
  intros HR%scam_run_inv HS. pose proof (si_inflight _ _ _ _ _ HR) as HI.
  split; [destruct (sc_sacRefreshing g); lia|]. split; [destruct (sc_sacRefreshing g); split; (done || lia)|]. split.
  - intros HN. assert (sc_sacIndex g = Some (sacIndexOf gl L)) as EI.
    { destruct (sc_sacIndex g) as [i|] eqn:E; [|done]. by rewrite (si_index _ _ _ _ _ HR i E). }
    destruct HS as [x now key|x env now HT _|x r now Hp HL]; [done| |].
    + unfold flaggedSACIndex. rewrite EI. by case_if.
    + destruct r as [l| |]; [cbn; by rewrite (HL l)|done|done].
  - intros env now i Ei Hn Hz. unfold flaggedSACIndex, time_Before. rewrite Ei.
    assert (sc_sacRefreshing g = false) as -> by (destruct (sc_sacRefreshing g); [lia|done]).
    destruct (Z.ltb_spec now (sc_sacExpires g)); [lia|]. cbn. by rewrite Hz.
Qed.

(** A folding of ASCII text, for the example. *)
Fixpoint ascii_fold (s : string) : string :=
  match s with EmptyString => EmptyString | String c s => String (ascii_lower c) (ascii_fold s) end.
Definition ascii_folding : StringsFold := {| strings_ToLower := ascii_fold; strings_TrimSpace := fun s => s |}.

Definition directory_ex (k : string) : option (list string) := if String.eqb k issuer_ex then Some ["Exchange"; "SCAM"] else None.
Definition env_flagged : scam_env := mkScamEnv (fun k => Some (directory_ex k)) (Some [usdc_ex]).
Definition sac_spelling : Asset :=
  mkAsset AssetSoroban "" "" (match @SacContractID plain_strkey plain_sac init_globals usdc_ex with Ok c => c | Err _ => "" end).

