(* ===== verification/Supply.v ===== *)
(** * Supply derivation (internal/supply)

    Total, circulating and maximal supply of an asset: native XLM less the
    reserve accounts (xlm.go), classic assets from four kinds of holdings
    (classic.go), contract tokens from their flows (sep41.go), under an
    operator policy (policy.go, key.go); the readers that fetch the parts
    (lcm_reader.go, config_reader.go, chained_reserve_reader.go,
    storage_classic_reader.go, storage_sep41_reader.go), the SEP-1 overlay
    (overlay.go) and the comparison of an asset with its wrapper
    (crosscheck.go).

    A [*big.Int] that may be nil is an [option Z]. The stores are records of
    functions that may fail; a per-holder balance is non-nil, as the store
    interfaces promise. An error is the list of sentinels it wraps. *)

From S2P Require Import Prelude GoLib Amount Asset Alias.

Inductive supply_error :=
| ErrNotClassic | ErrNotSoroban | ErrNilReader | ErrUnknownNetwork
| ErrNegativeTotalSupply | ErrNegativeTotalMissingBaseline | ErrGenesisBaselineNotSeeded
| ErrNoObservation | ErrStaticReserveSnapshotExpired
| ErrCrossCheckNilSupply | ErrCrossCheckMisaligned | ErrNoSnapshot | errNativePolicyKey
| Canonical_ (s : sentinel) | StoreFailure (tag : string).

#[export] Instance supply_error_eq_dec : EqDecision supply_error.
Proof. solve_decision. Defined.

Abbreviation serr := (list supply_error).
Definition serr_Is (e : serr) (s : supply_error) : bool := bool_decide (s ∈ e).
Definition from_canon {A} (r : res error A) : res serr A :=
  match r with Ok a => Ok a | Err e => Err (map Canonical_ e) end.

(** ** Records (supply.go) *)

Inductive Basis :=
| BasisXLMSDFReserveExclusion | BasisXLMSDFReserveExclusionStatic | BasisXLMTotalOnly | BasisIssuerExclusion
| BasisAdminExclusion | BasisSEP41TotalOnly | BasisOverride | BasisSEP1DeclaredMax | BasisSEP41LakeFlows
| BasisClassicLakeFlows | BasisClassicTrustlineSum | BasisContractStorageBalances | BasisNoMetadata | BasisUnset.

#[export] Instance Basis_eq_dec : EqDecision Basis.
Proof. solve_decision. Defined.

Definition LowerBound (b : Basis) : bool :=
  match b with BasisClassicTrustlineSum | BasisContractStorageBalances => true | _ => false end.

Record Supply := mkSupply {
  s_AssetKey : string; TotalSupply : option Z; CirculatingSupply : option Z; MaxSupply : option Z;
  s_Basis : Basis; MaxSupplyBasis : Basis; LedgerSequence : Z; ObservedAt : Time;
  MinComponentLedger : Z; SACWrappedStroops : option Z
}.

(** ** Keys (key.go) *)

Definition nativeAssetKey : string := "XLM".

Definition AssetKey (a : Asset) : res serr string :=
  match Type_ a with
  | AssetNative => Ok nativeAssetKey
  | AssetClassic => Ok (Code a +:+ ":" +:+ Issuer a)
  | AssetSoroban => Ok (ContractID a)
  | _ => Err []
  end.

Section Keys.
Context `{Strkey}.

Definition ParseAssetKey (raw : string) : res serr string := a ← from_canon (ParseAsset raw); AssetKey a.

Fixpoint CanonicalizeWatchedClassic (entries : list string) : res serr (list string) :=
  match entries with
  | [] => Ok []
  | e :: entries =>
      a ← from_canon (ParseAsset e);
      _ ← guardE (bool_decide (Type_ a = AssetClassic)) [];
      out ← CanonicalizeWatchedClassic entries;
      Ok ((Code a +:+ ":" +:+ Issuer a) :: out)
  end.

Definition SACWrapperAssetKey (value : string) : res serr (string * bool) :=
  match index_by is_sep value with
  | None => Ok (value, false)
  | Some _ =>
      canon ← CanonicalizeWatchedClassic [value];
      match canon with k :: _ => Ok (k, true) | [] => Err [] end
  end.

(** The wrappers in the order the map is ranged over. *)
Fixpoint sac_classic_keys (wrappers : list (string * string)) (out : gmap string string) : res serr (gmap string string) :=
  match wrappers with
  | [] => Ok out
  | (cid, v) :: wrappers =>
      kc ← SACWrapperAssetKey v;
      sac_classic_keys wrappers (if kc.2 : bool then <[cid := kc.1]> out else out)
  end.
Definition SACClassicKeys (wrappers : gmap string string) : res serr (gmap string string) := sac_classic_keys (map_to_list wrappers) ∅.

(** The spellings in sorted order; two of one asset are refused. *)
Fixpoint canonicalize_keys {V} (entries : list (string * V)) (out : gmap string V) : res serr (gmap string V) :=
  match entries with
  | [] => Ok out
  | (raw, v) :: entries =>
      key ← ParseAssetKey raw;
      match out !! key with
      | Some _ => Err []
      | None => canonicalize_keys entries (<[key := v]> out)
      end
  end.
Definition sorted_entries {V} (m : gmap string V) : list (string * V) := isort (fun a b => str_leb a.1 b.1) (map_to_list m).
Definition canonicalizeAssetKeys {V} (byAsset : gmap string V) : res serr (gmap string V) := canonicalize_keys (sorted_entries byAsset) ∅.

Definition CanonicalizeStaleComponentLedgers (byAsset : gmap string Z) : res serr (gmap string Z) := canonicalizeAssetKeys byAsset.

Definition CanonicalizePolicyKeys {V} (byAsset : gmap string V) : res serr (gmap string V) :=
  out ← canonicalizeAssetKeys byAsset;
  match out !! nativeAssetKey with Some _ => Err [errNativePolicyKey] | None => Ok out end.

Definition validatePolicyKey (key : string) : res serr unit :=
  match ParseAssetKey key with
  | Err e => Err e
  | Ok canon =>
      if String.eqb canon nativeAssetKey then Err [errNativePolicyKey]
      else if negb (String.eqb canon key) then Err [] else Ok tt
  end.

(** ** Policy (policy.go) *)

Record LockedSet := mkLocked { Accounts : list string; Contracts : list string }.
#[export] Instance LockedSet_eq_dec : EqDecision LockedSet.
Proof. solve_decision. Defined.
Definition no_locks : LockedSet := mkLocked [] [].
Definition locked_IsEmpty (l : LockedSet) : bool := (length (Accounts l) =? 0)%nat && (length (Contracts l) =? 0)%nat.

Record Policy := mkPolicy {
  SDFReserveAccounts : list string;
  PerAsset : gmap string LockedSet;
  MaxSupplyOverrides : gmap string string
}.

Definition MaxSupplyOverride (p : Policy) (assetKey : string) : res serr (option Z) :=
  match MaxSupplyOverrides p !! assetKey with
  | None => Ok None
  | Some raw =>
      if String.eqb raw "" then Ok None
      else match big_SetString10 raw with
           | None => Err []
           | Some n => if Z.sgn n <? 0 then Err [] else Ok (Some n)
           end
  end.

(** No entry is empty and none occurs twice. *)
Fixpoint distinct_nonempty (items seen : list string) : bool :=
  match items with
  | [] => true
  | v :: items =>
      if String.eqb v "" then false
      else if bool_decide (v ∈ seen) then false
      else distinct_nonempty items (v :: seen)
  end.
Definition validateStrkeys (valid : string -> bool) (items : list string) : bool :=
  distinct_nonempty items [] && forallb (fun v => String.eqb v "" || valid v) items.

(** Whether the joined errors are empty. *)
Definition policy_Validate (p : Policy) : bool :=
  validateStrkeys IsAccountID (SDFReserveAccounts p)
  && forallb (fun kv => is_ok (validatePolicyKey kv.1)
                        && (String.eqb kv.2 "" || is_ok (MaxSupplyOverride p kv.1))) (map_to_list (MaxSupplyOverrides p))
  && forallb (fun kv => is_ok (validatePolicyKey kv.1)
                        && validateStrkeys IsAccountID (Accounts kv.2) && validateStrkeys IsContractID (Contracts kv.2)) (map_to_list (PerAsset p)).

End Keys.

(** ** Native XLM (xlm.go and its readers) *)

Definition TestnetPassphrase : string := "Test SDF Network ; September 2015".
Definition FuturenetPassphrase : string := "Test SDF Future Network ; October 2022".

Definition xlmTotalSupplyStroops : Z := 50001806812 * 10000000.
Definition xlmTestNetworkTotalSupplyStroops : Z := 100000000000 * 10000000.

Definition XLMTotalSupplyStroopsForNetwork (passphrase : string) : res serr Z :=
  if String.eqb passphrase PubnetPassphrase then Ok xlmTotalSupplyStroops
  else if String.eqb passphrase TestnetPassphrase || String.eqb passphrase FuturenetPassphrase then Ok xlmTestNetworkTotalSupplyStroops
  else Err [ErrUnknownNetwork].

Inductive ReserveSource := ReserveSourceLive | ReserveSourceStatic.

#[export] Instance ReserveSource_eq_dec : EqDecision ReserveSource.
Proof. solve_decision. Defined.

(** A reader of reserve balances; the two optional interfaces are [None]
    where the reader does not implement them. *)
Record reserve_reader := mkReader {
  ReserveBalanceTotal : list string -> Z -> res serr (option Z);
  ReserveBalanceTotalSourced : option (list string -> Z -> res serr (option Z * ReserveSource));
  MinReserveAccountLedger : option (list string -> Z -> res serr Z)
}.

Definition readReserveTotal (r : reserve_reader) (accounts : list string) (ledger : Z) : res serr (option Z * ReserveSource) :=
  match ReserveBalanceTotalSourced r with
  | Some sourced => sourced accounts ledger
  | None => v ← ReserveBalanceTotal r accounts ledger; Ok (v, ReserveSourceLive)
  end.

Record AccountObservationRow := mkObs { ao_Balance : option Z; ao_IsRemoval : bool; ao_Ledger : Z }.

Record account_store := mkAccStore {
  LatestAccountObservationAtOrBefore : string -> Z -> res serr AccountObservationRow;
  MaxAccountObservationLedger : Z -> res serr Z
}.

Fixpoint lcm_total (store : account_store) (accounts : list string) (ledger total : Z) : res serr (option Z) :=
  match accounts with
  | [] => Ok (Some total)
  | acc :: accounts =>
      match LatestAccountObservationAtOrBefore store acc ledger with
      | Err e => Err (ErrNoObservation :: e)
      | Ok row =>
          if ao_IsRemoval row then lcm_total store accounts ledger total
          else match ao_Balance row with
               | None => Err [ErrNoObservation]
               | Some b => lcm_total store accounts ledger (total + b)
               end
      end
  end.

(** Whether an account has no recorded ledger. *)
Fixpoint lcm_unobserved (store : account_store) (accounts : list string) (ledger : Z) : res serr bool :=
  match accounts with
  | [] => Ok false
  | acc :: accounts =>
      match LatestAccountObservationAtOrBefore store acc ledger with
      | Err e => Err (ErrNoObservation :: e)
      | Ok row => if ao_Ledger row =? 0 then Ok true else lcm_unobserved store accounts ledger
      end
  end.

Definition lcm_min_ledger (store : account_store) (accounts : list string) (ledger : Z) : res serr Z :=
  match accounts with
  | [] => Ok 0
  | _ :: _ =>
      unobserved ← lcm_unobserved store accounts ledger;
      if unobserved : bool then Ok 0 else MaxAccountObservationLedger store ledger
  end.

Definition NewLCMReserveBalanceReader (store : account_store) : reserve_reader :=
  mkReader (fun accounts ledger => lcm_total store accounts ledger 0) None (Some (lcm_min_ledger store)).

Record ConfigReserveBalanceReader := mkConfigReader { cr_balances : gmap string Z; cr_asOf : Time; cr_maxAge : Duration }.

Fixpoint parse_balances (entries : list (string * string)) (out : gmap string Z) : res serr (gmap string Z) :=
  match entries with
  | [] => Ok out
  | (acc, raw) :: entries =>
      if String.eqb acc "" then Err []
      else match big_SetString10 raw with
           | None => Err []
           | Some v => if Z.sgn v <? 0 then Err [] else parse_balances entries (<[acc := v]> out)
           end
  end.

Definition NewConfigReserveBalanceReader (balances : gmap string string) (asOf : Time) (maxAge : Duration) : res serr ConfigReserveBalanceReader :=
  if maxAge <=? 0 then Err []
  else parsed ← parse_balances (map_to_list balances) ∅; Ok (mkConfigReader parsed asOf maxAge).

Definition checkAge (r : ConfigReserveBalanceReader) (now : Time) : res serr unit :=
  if time_IsZero (cr_asOf r) then Err [ErrStaticReserveSnapshotExpired]
  else if cr_maxAge r <? time_Sub now (cr_asOf r) then Err [ErrStaticReserveSnapshotExpired]
  else Ok tt.

Fixpoint config_sum (balances : gmap string Z) (accounts : list string) (total : Z) : res serr (option Z) :=
  match accounts with
  | [] => Ok (Some total)
  | acc :: accounts => match balances !! acc with None => Err [] | Some v => config_sum balances accounts (total + v) end
  end.

Definition config_total (r : ConfigReserveBalanceReader) (now : Time) (accounts : list string) : res serr (option Z) :=
  _ ← (if (0 <? length accounts)%nat then checkAge r now else Ok tt);
  config_sum (cr_balances r) accounts 0.

Definition config_reader (r : ConfigReserveBalanceReader) (now : Time) : reserve_reader :=
  mkReader (fun accounts _ => config_total r now accounts)
    (Some (fun accounts _ => v ← config_total r now accounts; Ok (v, ReserveSourceStatic))) None.

Definition chained_sourced (live static : reserve_reader) (accounts : list string) (ledger : Z) : res serr (option Z * ReserveSource) :=
  match ReserveBalanceTotal live accounts ledger with
  | Ok out => Ok (out, ReserveSourceLive)
  | Err e =>
      if negb (serr_Is e ErrNoObservation) then Err e
      else match ReserveBalanceTotal static accounts ledger with
           | Err se => Err se
           | Ok out => Ok (out, ReserveSourceStatic)
           end
  end.

Definition chained_min_ledger (live : reserve_reader) (accounts : list string) (ledger : Z) : res serr Z :=
  match MinReserveAccountLedger live with
  | None => Ok 0
  | Some probe =>
      match probe accounts ledger with
      | Err e => if serr_Is e ErrNoObservation then Ok 0 else Err e
      | Ok got => Ok got
      end
  end.

Definition NewChainedReserveBalanceReader (live static : reserve_reader) : reserve_reader :=
  mkReader (fun accounts ledger => vs ← chained_sourced live static accounts ledger; Ok vs.1)
    (Some (chained_sourced live static)) (Some (chained_min_ledger live)).

Record XLMComputer := mkXLM { xc_reserveAccounts : list string; xc_reader : option reserve_reader; xc_total : Z }.

Definition NewXLMComputerForNetwork (passphrase : string) (reserveAccounts : list string) (reader : option reserve_reader) : res serr XLMComputer :=
  total ← XLMTotalSupplyStroopsForNetwork passphrase;
  match reserveAccounts, reader with
  | _ :: _, None => Err [ErrNilReader]
  | _, _ => Ok (mkXLM reserveAccounts reader total)
  end.

Definition NewXLMComputer (reserveAccounts : list string) (reader : option reserve_reader) : res serr XLMComputer :=
  NewXLMComputerForNetwork PubnetPassphrase reserveAccounts reader.

Definition clamp_zero (z : Z) : Z := if Z.sgn z <? 0 then 0 else z.

(** The excluded reserves and who answered; the constructor rules out
    accounts without a reader. *)
Definition xlm_reserved (c : XLMComputer) (ledger : Z) : res serr (Z * ReserveSource) :=
  match xc_reserveAccounts c, xc_reader c with
  | _ :: _, Some r =>
      vs ← readReserveTotal r (xc_reserveAccounts c) ledger;
      match vs.1 with None => Err [] | Some v => Ok (v, vs.2) end
  | _, _ => Ok (0, ReserveSourceLive)
  end.

Definition xlm_basis (c : XLMComputer) (source : ReserveSource) : Basis :=
  match xc_reserveAccounts c, source with
  | [], _ => BasisXLMTotalOnly
  | _, ReserveSourceStatic => BasisXLMSDFReserveExclusionStatic
  | _, _ => BasisXLMSDFReserveExclusion
  end.

Definition xlm_min_ledger (c : XLMComputer) (source : ReserveSource) (ledger : Z) : Z :=
  match xc_reader c, xc_reserveAccounts c, source with
  | Some r, _ :: _, ReserveSourceLive =>
      match MinReserveAccountLedger r with
      | Some probe => match probe (xc_reserveAccounts c) ledger with Ok got => got | Err _ => 0 end
      | None => 0
      end
  | _, _, _ => 0
  end.

Definition XLMComputer_Compute (c : XLMComputer) (ledger : Z) (observedAt : Time) : res serr Supply :=
  rs ← xlm_reserved c ledger;
  let circulating := clamp_zero (xc_total c - rs.1) in
  Ok (mkSupply nativeAssetKey (Some (xc_total c)) (Some circulating) (Some (xc_total c)) (xlm_basis c rs.2) BasisUnset
        ledger observedAt (xlm_min_ledger c rs.2 ledger) None).

(** ** Classic assets (classic.go, storage_classic_reader.go) *)

Record ClassicSupplyComponents := mkClassic {
  Trustline : option Z; Claimable : option Z; LPReserve : option Z; SACWrapped : option Z; SACObserved : bool;
  IssuerBalance : option Z; c_LockedAccountBalances : option Z; c_LockedContractBalances : option Z; c_MinComponentLedger : Z
}.

Definition nonneg_components (l : list (option Z)) : bool :=
  forallb (fun o => match o with Some v => negb (Z.sgn v <? 0) | None => false end) l.

Definition validateClassicComponents (c : ClassicSupplyComponents) : bool :=
  nonneg_components [Trustline c; Claimable c; LPReserve c; SACWrapped c; IssuerBalance c; c_LockedAccountBalances c; c_LockedContractBalances c].

Definition amount_of (o : option Z) : Z := default 0 o.

Definition sacWrappedStroops (c : ClassicSupplyComponents) : option Z := if negb (SACObserved c) then None else Some (amount_of (SACWrapped c)).

(** The maximum and the basis under the operator's overrides. *)
Definition override_basis (max : option Z) (locked : LockedSet) (basis : Basis) : Basis :=
  match max with Some _ => BasisOverride | None => if negb (locked_IsEmpty locked) then BasisOverride else basis end.

Definition ClassicComputer_Compute (policy : Policy) (reader : Asset -> LockedSet -> Z -> res serr ClassicSupplyComponents)
    (asset : Asset) (ledger : Z) (observedAt : Time) : res serr Supply :=
  if negb (bool_decide (Type_ asset = AssetClassic)) then Err [ErrNotClassic]
  else
    key ← AssetKey asset;
    let locked := default no_locks (PerAsset policy !! key) in
    comps ← reader asset locked ledger;
    if negb (validateClassicComponents comps) then Err []
    else
      let total := amount_of (Trustline comps) + amount_of (Claimable comps) + amount_of (LPReserve comps) + amount_of (SACWrapped comps) in
      let circulating := clamp_zero (total - amount_of (IssuerBalance comps) - amount_of (c_LockedAccountBalances comps)
                                     - amount_of (c_LockedContractBalances comps)) in
      max ← MaxSupplyOverride policy key;
      Ok (mkSupply key (Some total) (Some circulating) max (override_basis max locked BasisIssuerExclusion) BasisUnset
            ledger observedAt (c_MinComponentLedger comps) (sacWrappedStroops comps)).

Record ClassicSupplyStore := mkClassicStore {
  SumTrustlineBalancesAtOrBefore : string -> Z -> res serr (option Z);
  SumClaimableBalancesAtOrBefore : string -> Z -> res serr (option Z);
  SumLPReservesAtOrBefore : string -> Z -> res serr (option Z);
  SumSACBalancesAtOrBefore : string -> Z -> res serr (option Z);
  SACBalanceObservationsExist : string -> Z -> res serr bool;
  TrustlineBalanceForAccountAtOrBefore : string -> string -> Z -> res serr Z;
  SACBalanceForContractAtOrBefore : string -> string -> Z -> res serr Z;
  MinClassicComponentLedger : string -> Z -> res serr Z
}.

(** The sum of a lookup over the holders of a locked set. *)
Fixpoint sum_holders (lookup : string -> res serr Z) (holders : list string) (total : Z) : res serr Z :=
  match holders with
  | [] => Ok total
  | h :: holders => if String.eqb h "" then Err [] else b ← lookup h; sum_holders lookup holders (total + b)
  end.

Definition sumPerAccountTrustlines (store : ClassicSupplyStore) (accounts : list string) (assetKey : string) (ledger : Z) : res serr Z :=
  sum_holders (fun acc => TrustlineBalanceForAccountAtOrBefore store acc assetKey ledger) accounts 0.
Definition sumPerContractSAC (store : ClassicSupplyStore) (contracts : list string) (assetKey : string) (ledger : Z) : res serr Z :=
  sum_holders (fun c => SACBalanceForContractAtOrBefore store c assetKey ledger) contracts 0.

Definition ClassicSupplyAt (store : ClassicSupplyStore) (asset : Asset) (locked : LockedSet) (ledger : Z) : res serr ClassicSupplyComponents :=
  if negb (bool_decide (Type_ asset = AssetClassic)) then Err [ErrNotClassic]
  else
    key ← AssetKey asset;
    trustline ← SumTrustlineBalancesAtOrBefore store key ledger;
    claimable ← SumClaimableBalancesAtOrBefore store key ledger;
    lpReserve ← SumLPReservesAtOrBefore store key ledger;
    sacWrapped ← SumSACBalancesAtOrBefore store key ledger;
    sacObserved ← SACBalanceObservationsExist store key ledger;
    issuerBalance ← TrustlineBalanceForAccountAtOrBefore store (Issuer asset) key ledger;
    lockedAccounts ← sumPerAccountTrustlines store (Accounts locked) key ledger;
    lockedContracts ← sumPerContractSAC store (Contracts locked) key ledger;
    let minLedger := match MinClassicComponentLedger store key ledger with Ok l => l | Err _ => 0 end in
    Ok (mkClassic trustline claimable lpReserve sacWrapped sacObserved (Some issuerBalance) (Some lockedAccounts) (Some lockedContracts) minLedger).

(** ** Contract tokens (sep41.go, storage_sep41_reader.go) *)

Record SEP41SupplyComponents := mkSEP41 {
  MintTotal : option Z; BurnTotal : option Z; ClawbackTotal : option Z; AdminBalance : option Z;
  t_LockedAccountBalances : option Z; t_LockedContractBalances : option Z; t_MinComponentLedger : Z; GenesisBaselineSeeded : bool
}.

Definition validateSEP41Components (c : SEP41SupplyComponents) : bool :=
  nonneg_components [MintTotal c; BurnTotal c; ClawbackTotal c; AdminBalance c; t_LockedAccountBalances c; t_LockedContractBalances c].

Definition sep41_basis (max : option Z) (locked : LockedSet) (admin : Z) : Basis :=
  let basis := override_basis max locked BasisAdminExclusion in
  if bool_decide (basis = BasisAdminExclusion) && (Z.sgn admin =? 0) then BasisSEP41TotalOnly else basis.

Definition SEP41Computer_Compute (gl : globals) (policy : Policy) (reader : Asset -> LockedSet -> Z -> res serr SEP41SupplyComponents)
    (asset : Asset) (ledger : Z) (observedAt : Time) : res serr Supply :=
  if negb (bool_decide (Type_ asset = AssetSoroban)) then Err [ErrNotSoroban]
  else
    key ← AssetKey asset;
    let locked := default no_locks (PerAsset policy !! key) in
    comps ← reader asset locked ledger;
    if negb (validateSEP41Components comps) then Err []
    else
      let total := amount_of (MintTotal comps) - amount_of (BurnTotal comps) - amount_of (ClawbackTotal comps) in
      if Z.sgn total <? 0 then Err [if negb (GenesisBaselineSeeded comps) then ErrNegativeTotalMissingBaseline else ErrNegativeTotalSupply]
      else if negb (GenesisBaselineSeeded comps) && bool_decide (Type_ (CanonicalAsset gl asset) = AssetClassic)
      then Err [ErrGenesisBaselineNotSeeded]
      else
        let circulating := clamp_zero (total - amount_of (AdminBalance comps) - amount_of (t_LockedAccountBalances comps)
                                       - amount_of (t_LockedContractBalances comps)) in
        max ← MaxSupplyOverride policy key;
        Ok (mkSupply key (Some total) (Some circulating) max (sep41_basis max locked (amount_of (AdminBalance comps))) BasisUnset
              ledger observedAt (t_MinComponentLedger comps) None).

Record SEP41SupplyStore := mkSEP41Store {
  SEP41KindTotalsAtOrBefore : string -> Z -> res serr (option Z * option Z * option Z);
  t_SACBalance : string -> string -> Z -> res serr Z;
  t_TrustlineBalance : string -> string -> Z -> res serr Z;
  MinSEP41ComponentLedger : string -> Z -> res serr Z;
  SEP41GenesisBaselineSeeded : string -> res serr bool
}.

Section SEP41Reader.
Context `{Strkey}.

Definition holderBalance (store : SEP41SupplyStore) (sacClassicKeys : gmap string string) (contractID : string) (ledger : Z) (holder : string) : res serr Z :=
  match sacClassicKeys !! contractID with
  | None => t_SACBalance store holder contractID ledger
  | Some classicKey =>
      if IsAccountID holder then t_TrustlineBalance store holder classicKey ledger
      else t_SACBalance store holder classicKey ledger
  end.

Definition sumPerHolder (store : SEP41SupplyStore) (sacClassicKeys : gmap string string) (holders : list string) (contractID : string) (ledger : Z) : res serr Z :=
  sum_holders (holderBalance store sacClassicKeys contractID ledger) holders 0.

Definition SEP41SupplyAt (store : SEP41SupplyStore) (sacClassicKeys : gmap string string) (asset : Asset) (locked : LockedSet) (ledger : Z)
  : res serr SEP41SupplyComponents :=
  if negb (bool_decide (Type_ asset = AssetSoroban)) then Err [ErrNotSoroban]
  else
    let contractID := ContractID asset in
    if String.eqb contractID "" then Err []
    else
      totals ← SEP41KindTotalsAtOrBefore store contractID ledger;
      lockedAccounts ← sumPerHolder store sacClassicKeys (Accounts locked) contractID ledger;
      lockedContracts ← sumPerHolder store sacClassicKeys (Contracts locked) contractID ledger;
      let minLedger := match MinSEP41ComponentLedger store contractID ledger with Ok l => l | Err _ => 0 end in
      let seeded := match SEP41GenesisBaselineSeeded store contractID with Ok b => b | Err _ => false end in
      Ok (mkSEP41 totals.1.1 totals.1.2 totals.2 (Some 0) (Some lockedAccounts) (Some lockedContracts) minLedger seeded).
End SEP41Reader.

(** ** The SEP-1 overlay (overlay.go) *)

(** [resolver] is absent, fails, or declares a text. *)
Definition Overlay (snap : Supply) (asset : Asset) (resolver : option (Asset -> res serr (option string))) : Supply * bool * option serr :=
  if String.eqb (s_AssetKey snap) nativeAssetKey || match MaxSupply snap with Some _ => true | None => false end then (snap, false, None)
  else match resolver with
       | None => (snap, false, None)
       | Some resolve =>
           match resolve asset with
           | Err e => (snap, false, Some e)
           | Ok None => (snap, false, None)
           | Ok (Some raw) =>
               if String.eqb raw "" then (snap, false, None)
               else match big_SetString10 raw with
                    | None => (snap, false, None)
                    | Some val =>
                        if Z.sgn val <=? 0 then (snap, false, None)
                        else if match TotalSupply snap with Some t => val <? t | None => false end then (snap, false, None)
                        else if match CirculatingSupply snap with Some c => val <? c | None => false end then (snap, false, None)
                        else (mkSupply (s_AssetKey snap) (TotalSupply snap) (CirculatingSupply snap) (Some val) (s_Basis snap) BasisSEP1DeclaredMax
                                (LedgerSequence snap) (ObservedAt snap) (MinComponentLedger snap) (SACWrappedStroops snap), true, None)
                    end
           end
       end.

(** ** An asset against its wrapper (crosscheck.go) *)

Definition CrossCheckTolerance : Z := 1.
Definition CrossCheckLedgerTolerance : Z := 1000.

(** The class is a string in the code; anything but full is partial. *)
Inductive WrapClass := WrapClassPartial | WrapClassFull | WrapClassOther (s : string).

#[export] Instance WrapClass_eq_dec : EqDecision WrapClass.
Proof. solve_decision. Defined.

Definition normalizeWrapClass (c : WrapClass) : WrapClass := match c with WrapClassFull => WrapClassFull | _ => WrapClassPartial end.

Record CrossCheckResult := mkCC {
  cc_ClassicKey : string; cc_SACKey : string; cc_ClassicTotal : Z; cc_SACTotal : Z; DivergenceStroops : Z; WithinTolerance : bool;
  cc_WrapClass : WrapClass; cc_ClassicLedger : Z; cc_SACLedger : Z; OverMintStroops : option Z; cc_SACWrapped : option Z;
  SubsetBoundChecked : bool; EscrowExcessStroops : option Z
}.

Definition ledgerGap (a b : Z) : Z := if b <? a then wrapu 32 (a - b) else wrapu 32 (b - a).

Definition checkLedgerAlignment (classic sac : Supply) : res serr unit :=
  if (LedgerSequence classic =? 0) || (LedgerSequence sac =? 0) then Ok tt
  else if CrossCheckLedgerTolerance <? ledgerGap (LedgerSequence classic) (LedgerSequence sac) then Err [ErrCrossCheckMisaligned]
  else Ok tt.

Definition CrossCheck (classic sac : Supply) : res serr CrossCheckResult :=
  match TotalSupply classic, TotalSupply sac with
  | Some c, Some s =>
      let d := Z.abs (c - s) in
      Ok (mkCC (s_AssetKey classic) (s_AssetKey sac) c s d (d <=? CrossCheckTolerance) WrapClassFull
            (LedgerSequence classic) (LedgerSequence sac) None None false None)
  | _, _ => Err [ErrCrossCheckNilSupply]
  end.

Definition excessOver (have bound : Z) : Z := clamp_zero (have - bound).

Definition CrossCheckSubsetBound (classic sac : Supply) : res serr CrossCheckResult :=
  match TotalSupply classic, TotalSupply sac with
  | Some c, Some s =>
      let escrow := match SACWrappedStroops classic with Some w => Some (excessOver w s) | None => None end in
      let d := match escrow with Some x => if 0 <? x then x else 0 | None => 0 end in
      Ok (mkCC (s_AssetKey classic) (s_AssetKey sac) c s d (d <=? CrossCheckTolerance) WrapClassPartial
            (LedgerSequence classic) (LedgerSequence sac) (Some (excessOver s c)) (SACWrappedStroops classic)
            (match escrow with Some _ => true | None => false end) escrow)
  | _, _ => Err [ErrCrossCheckNilSupply]
  end.

Definition CrossCheckForClass (classic sac : Supply) (class : WrapClass) : res serr CrossCheckResult :=
  _ ← checkLedgerAlignment classic sac;
  if bool_decide (normalizeWrapClass class = WrapClassFull) then CrossCheck classic sac else CrossCheckSubsetBound classic sac.

(** ** Properties *)

(** *** Keys *)

Section KeyFacts.
Context `{StrkeyLaws}.

Lemma from_canon_Ok {A} (r : res error A) a : from_canon r = Ok a <-> r = Ok a.
Proof. destruct r; split; intros E; simplify_eq/=; done. Qed.

Lemma alnum_code code : validateClassicAssetCode code = Ok tt -> str_forallb is_alnum code = true /\ code <> "".
Proof. unfold validateClassicAssetCode. intros E. case_if_in E; [done|]. bprop. inv_ok. split; [done|]. by intros ->. Qed.

(** The part before the first separator, and the part after it, are fixed by
    the whole. *)
Lemma code_sep_inj code c issuer code' c' issuer' :
  str_forallb is_alnum code = true -> str_forallb is_alnum code' = true -> is_sep c = true -> is_sep c' = true ->
  code +:+ String c issuer = code' +:+ String c' issuer' -> code = code' /\ issuer = issuer'.
Proof.
  intros Ha Ha' Hc Hc' E.
  assert (CutPrefix (code +:+ String c issuer) (code' +:+ String c' "") = Some issuer') as E'.
  { rewrite E. change (String c' issuer') with (String c' "" +:+ issuer'). rewrite <- str_app_assoc. apply CutPrefix_app. }
  destruct (CutPrefix_sep is_alnum code c issuer code' c' issuer' Ha Ha' (is_sep_not_alnum c Hc) (is_sep_not_alnum c' Hc') E')
    as (-> & _ & ->). done.
Qed.

Lemma classic_key_not_contract code issuer : IsContractID (code +:+ ":" +:+ issuer) = false.
Proof. apply not_base32_not_contract. rewrite str_forallb_app. simpl. by rewrite andb_false_r. Qed.

Lemma classic_key_length code issuer : IsAccountID issuer = true -> (57 <= String.length (code +:+ ":" +:+ issuer))%nat.
Proof. intros [Hl _]%IsAccountID_shape. rewrite !str_length_app. simpl. lia. Qed.

Lemma native_key_not_classic code issuer : IsAccountID issuer = true -> nativeAssetKey <> code +:+ ":" +:+ issuer.
Proof. intros Hl%(classic_key_length code) E. rewrite <- E in Hl. simpl in Hl. lia. Qed.
Lemma native_key_not_contract : IsContractID nativeAssetKey <> true.
Proof. by intros [? _]%IsContractID_shape. Qed.

(** Different valid assets have different keys. *)
Lemma AssetKey_inj a b k : Asset_Validate a = Ok tt -> Asset_Validate b = Ok tt -> AssetKey a = Ok k -> AssetKey b = Ok k -> a = b.
Proof.
  intros Ha%Asset_Validate_inv Hb%Asset_Validate_inv.
  destruct a as [[] c i t], b as [[] c' i' t']; unfold AssetKey; cbn [Type_ Code Issuer ContractID] in *; intros E E';
    destruct_and?; simplify_eq; try done; try congruence;
    try (exfalso; match goal with
         | E : nativeAssetKey = ?c +:+ _ |- _ => by apply (native_key_not_classic c) in E
         | E : ?c +:+ _ = nativeAssetKey |- _ => symmetry in E; by apply (native_key_not_classic c) in E
         | _ : IsContractID (?c +:+ ":" +:+ ?i) = true |- _ => by rewrite classic_key_not_contract in *
         | _ : IsContractID nativeAssetKey = true |- _ => by apply native_key_not_contract
         end).
  destruct (alnum_code c) as [Hc _]; [done|]. destruct (alnum_code c') as [Hc' _]; [done|].
  match goal with E : _ +:+ _ = _ +:+ _ |- _ => apply code_sep_inj in E as [-> ->]; done end.
Qed.

Lemma ParseAssetKey_Ok raw k : ParseAssetKey raw = Ok k <-> exists a, ParseAsset raw = Ok a /\ AssetKey a = Ok k.
Proof.
  unfold ParseAssetKey. split.
  - intros E. destruct (ParseAsset raw) as [a|]; [|done]. by exists a.
  - intros (a & -> & E). done.
Qed.

(** The key of an asset reads back as the asset, but for the code [raw]. *)
Lemma ParseAsset_key a k : Asset_Validate a = Ok tt -> AssetKey a = Ok k ->
  ParseAsset k = Ok a <-> ~ (Type_ a = AssetClassic /\ Code a = "raw").
Proof.
  intros Hv%Asset_Validate_inv. destruct a as [[] c i t]; unfold AssetKey, NativeAsset in *; cbn [Type_ Code Issuer ContractID] in *; intros E;
    destruct_and?; simplify_eq.
  - split; [by intros _ []|done].
  - split.
    + intros E [_ ->]. change (ParseAsset _) with (NewOracleRawAsset i) in E. unfold NewOracleRawAsset in E. by inv_ok.
    + intros Hn. apply (ParseAsset_classic_sep ":"); [done| |done|done]. intros _ ->. by apply Hn.
  - split; [by intros _ []|]. intros _. by apply ParseAsset_soroban.
Qed.

Lemma canonicalize_keys_lookup {V} (entries : list (string * V)) out0 out :
  canonicalize_keys entries out0 = Ok out ->
  forall k v, out !! k = Some v <-> out0 !! k = Some v \/ exists raw, (raw, v) ∈ entries /\ ParseAssetKey raw = Ok k.
Proof.
  revert out0. induction entries as [|[raw w] entries IH]; intros out0; cbn [canonicalize_keys].
  - intros [= ->] k v. set_solver.
  - destruct (ParseAssetKey raw) as [key|] eqn:Ek; [|done]. cbn. destruct (out0 !! key) eqn:Eo; [done|]. intros E k v.
    rewrite (IH _ E), lookup_insert_Some. setoid_rewrite elem_of_cons. split.
    + intros [[[<- <-]|[]]|(raw' & ? & ?)]; eauto 10.
    + intros [Ho|(raw' & [[= -> ->]|Hin] & Hk)].
      * left. right. split; [congruence|done].
      * left. left. split; [congruence|done].
      * right. eauto.
Qed.

Lemma canonicalizeAssetKeys_lookup {V} (m out : gmap string V) :
  canonicalizeAssetKeys m = Ok out ->
  forall k v, out !! k = Some v <-> exists raw, m !! raw = Some v /\ ParseAssetKey raw = Ok k.
Proof.
  intros E k v. rewrite (canonicalize_keys_lookup _ _ _ E), lookup_empty. unfold sorted_entries.
  setoid_rewrite elem_of_isort. setoid_rewrite elem_of_map_to_list. naive_solver.
Qed.

End KeyFacts.

Lemma validatePolicyKey_spec `{StrkeyLaws} a k : Asset_Validate a = Ok tt -> AssetKey a = Ok k ->
  validatePolicyKey k = Ok tt <-> a <> NativeAsset /\ ~ (Type_ a = AssetClassic /\ Code a = "raw").
Proof.
  intros Hv Hk. rewrite <- (ParseAsset_key a k Hv Hk). unfold validatePolicyKey. split.
  - destruct (ParseAssetKey k) as [k'|] eqn:E; [|done]. apply ParseAssetKey_Ok in E as (b & Hp & Hb).
    destruct (String.eqb_spec k' nativeAssetKey) as [->|Hn]; [done|]. destruct (String.eqb_spec k' k) as [->|]; [|done]. intros _.
    assert (b = a) as -> by (by eapply AssetKey_inj; [apply ParseAsset_valid in Hp| | |]). split; [|done]. intros ->. unfold AssetKey in Hk. cbn in Hk. congruence.
  - intros [Hn Hp]. assert (ParseAssetKey k = Ok k) as -> by (apply ParseAssetKey_Ok; by exists a).
    rewrite String.eqb_refl. destruct (String.eqb_spec k nativeAssetKey) as [->|]; [|done].
    by destruct Hn; apply (AssetKey_inj a NativeAsset nativeAssetKey).
Qed.

(** C36: a valid on-chain asset has a supply key of its own: no other asset
    shares it, and an operator's policy entry is found under the key exactly
    when the operator wrote it under a spelling of that asset. The key reads
    back as the asset, and is accepted in a policy, for every asset but native
    XLM (which takes no policy) and a classic asset whose code is [raw]: its
    key [raw:G...] reads as a raw oracle symbol, so no policy can name it. *)
Theorem supply_key_roundtrip `{StrkeyLaws} a k :
  Asset_Validate a = Ok tt -> AssetKey a = Ok k ->
  (ParseAsset k = Ok a <-> ~ (Type_ a = AssetClassic /\ Code a = "raw")) /\
  (forall b, Asset_Validate b = Ok tt -> AssetKey b = Ok k -> b = a) /\
  (validatePolicyKey k = Ok tt <-> a <> NativeAsset /\ ~ (Type_ a = AssetClassic /\ Code a = "raw")) /\
  (forall V (m out : gmap string V), CanonicalizePolicyKeys m = Ok out ->
     forall v, out !! k = Some v <-> exists raw, m !! raw = Some v /\ ParseAsset raw = Ok a).
Proof.
  intros Hv Hk. split; [by apply ParseAsset_key|]. split; [intros b Hb Hbk; by apply (AssetKey_inj b a k)|].
  split; [by apply validatePolicyKey_spec|]. intros V m out E v. unfold CanonicalizePolicyKeys in E. inv_ok.
  rewrite (canonicalizeAssetKeys_lookup m out) by (destruct (_ !! _) in E; [done|]; by inv_ok).
  f_equiv; intros raw. rewrite ParseAssetKey_Ok. split.
  - intros (Hm & b & Hp & Hb). split; [done|]. apply ParseAsset_valid in Hp as Hbv. by rewrite <- (AssetKey_inj b a k).
  - intros (Hm & Hp). split; [done|]. by exists a.
Qed.

Definition usdc : Asset := mkAsset AssetClassic "USDC" issuer_ex "".

Lemma supply_key_roundtrip_witness :
  let k := "USDC:" +:+ issuer_ex in
  @ParseAsset plain_strkey k = Ok usdc /\ @validatePolicyKey plain_strkey k = Ok tt /\
  @CanonicalizePolicyKeys plain_strkey Z {[ "USDC-" +:+ issuer_ex := 7 ]} = Ok {[ k := 7 ]} /\
  (exists raw, ({[ "USDC-" +:+ issuer_ex := 7 ]} : gmap string Z) !! raw = Some 7 /\ @ParseAsset plain_strkey raw = Ok usdc).
Proof.
  assert (@CanonicalizePolicyKeys plain_strkey Z {[ "USDC-" +:+ issuer_ex := 7 ]} = Ok {[ "USDC:" +:+ issuer_ex := 7 ]}) as Hc
    by (vm_compute; reflexivity).
  destruct (@supply_key_roundtrip plain_strkey plain_strkey_laws usdc ("USDC:" +:+ issuer_ex)) as (H1 & _ & H3 & H4);
    [vm_compute; reflexivity|reflexivity|].
  cbv zeta. split; [apply H1; intros [_ [=]]|]. split; [apply H3; split; [intros [=]|intros [_ [=]]]|].
  split; [exact Hc|]. apply (H4 Z _ _ Hc). apply lookup_singleton_eq.
Defined.

(** *** Native XLM *)

(** What the live store says an account holds; an account that was removed
    holds nothing. *)
Definition live_balance (store : account_store) (ledger : Z) (acc : string) : option Z :=
  match LatestAccountObservationAtOrBefore store acc ledger with
  | Ok row => if ao_IsRemoval row then Some 0 else ao_Balance row
  | Err _ => None
  end.

Lemma lcm_total_spec store ledger accounts total :
  match lcm_total store accounts ledger total with
  | Ok o => exists bs, Forall2 (fun acc b => live_balance store ledger acc = Some b) accounts bs /\ o = Some (total + zsum bs)
  | Err e => ErrNoObservation ∈ e /\ exists acc, acc ∈ accounts /\ live_balance store ledger acc = None
  end.
Proof.
  revert total. induction accounts as [|acc accounts IH]; intros total; cbn [lcm_total].
  { exists []. split; [constructor|]. cbn. f_equal. lia. }
  assert (forall b, live_balance store ledger acc = Some b ->
    match lcm_total store accounts ledger (total + b) with
    | Ok o => exists bs, Forall2 (fun acc b => live_balance store ledger acc = Some b) (acc :: accounts) bs /\ o = Some (total + zsum bs)
    | Err e => ErrNoObservation ∈ e /\ exists a, a ∈ acc :: accounts /\ live_balance store ledger a = None
    end) as Hstep.
  { intros b Hb. specialize (IH (total + b)). destruct (lcm_total _ _ _ _).
    - destruct IH as (bs & Hbs & ->). exists (b :: bs). split; [by constructor|]. f_equal. change (zsum (b :: bs)) with (b + zsum bs). lia.
    - destruct IH as (He & a & Ha & Hn). split; [done|]. exists a. split; [by right|done]. }
  unfold live_balance in Hstep at 1. destruct (LatestAccountObservationAtOrBefore store acc ledger) as [row|e] eqn:E.
  2: { split; [set_solver|]. exists acc. unfold live_balance. rewrite E. set_solver. }
  destruct (ao_IsRemoval row) eqn:Er; [by specialize (Hstep 0 eq_refl); rewrite Z.add_0_r in Hstep|].
  destruct (ao_Balance row) eqn:Eb; [by apply Hstep|].
  split; [set_solver|]. exists acc. unfold live_balance. rewrite E, Er. set_solver.
Qed.

Lemma config_sum_spec balances accounts total :
  match config_sum balances accounts total with
  | Ok o => exists bs, Forall2 (fun acc b => balances !! acc = Some b) accounts bs /\ o = Some (total + zsum bs)
  | Err e => e = [] /\ exists acc, acc ∈ accounts /\ balances !! acc = None
  end.
Proof.
  revert total. induction accounts as [|acc accounts IH]; intros total; cbn [config_sum].
  { exists []. split; [constructor|]. cbn. f_equal. lia. }
  destruct (balances !! acc) as [b|] eqn:E; [|split; [done|]; exists acc; set_solver].
  specialize (IH (total + b)). destruct (config_sum _ _ _).
  - destruct IH as (bs & Hbs & ->). exists (b :: bs). split; [by constructor|]. f_equal. change (zsum (b :: bs)) with (b + zsum bs). lia.
  - destruct IH as (He & a & Ha & Hn). split; [done|]. exists a. split; [by right|done].
Qed.

Lemma parse_balances_spec entries out0 out :
  parse_balances entries out0 = Ok out ->
  forall acc v, out !! acc = Some v -> out0 !! acc = Some v \/ exists raw, (acc, raw) ∈ entries /\ big_SetString10 raw = Some v /\ 0 <= v.
Proof.
  revert out0. induction entries as [|[a raw] entries IH]; intros out0; cbn [parse_balances]; [intros [= ->]; auto|].
  destruct (String.eqb a ""); [done|]. destruct (big_SetString10 raw) as [w|] eqn:Ew; [|done].
  destruct (Z.ltb_spec (Z.sgn w) 0); [done|]. intros E acc v Hv.
  destruct (IH _ E acc v Hv) as [Ho|(raw' & Hin & Hr)]; [|right; exists raw'; split; [by right|done]].
  apply lookup_insert_Some in Ho as [[<- <-]|[_ Ho]]; [|by left].
  right. exists raw. split; [by left|]. split; [done|]. destruct w; simpl in *; lia.
Qed.

(** What the operator configured for an account. *)
Definition configured_balance (balances : gmap string string) (acc : string) (b : Z) : Prop :=
  exists raw, balances !! acc = Some raw /\ big_SetString10 raw = Some b.

Lemma config_reader_balances balances asOf maxAge cr acc v :
  NewConfigReserveBalanceReader balances asOf maxAge = Ok cr -> cr_balances cr !! acc = Some v ->
  configured_balance balances acc v /\ 0 <= v.
Proof.
  unfold NewConfigReserveBalanceReader. intros E Hv. case_if_in E; [done|]. inv_ok. cbn in Hv.
  destruct (parse_balances_spec _ _ _ E0 acc v Hv) as [Ho|(raw & Hin%elem_of_map_to_list & Hr & H0)]; [by rewrite lookup_empty in Ho|].
  split; [by exists raw|done].
Qed.

Lemma Forall2_nonneg {A} (P : A -> Z -> Prop) (l : list A) bs :
  Forall2 P l bs -> (forall a b, a ∈ l -> P a b -> 0 <= b) -> 0 <= zsum bs.
Proof.
  induction 1 as [|a b l bs HP _ IH]; intros Hn; [done|]. change (zsum (b :: bs)) with (b + zsum bs).
  pose proof (Hn a b (list_elem_of_here _ _) HP). assert (0 <= zsum bs) by (apply IH; intros; eapply Hn; [by right|done]). lia.
Qed.

(** Whether the operator's snapshot may still be used. *)
Definition snapshot_fresh (cr : ConfigReserveBalanceReader) (now : Time) : Prop :=
  cr_asOf cr <> zero_time /\ time_Sub now (cr_asOf cr) <= cr_maxAge cr.

Lemma config_total_spec balances asOf maxAge cr now accounts :
  NewConfigReserveBalanceReader balances asOf maxAge = Ok cr -> accounts <> [] ->
  match config_total cr now accounts with
  | Ok o => snapshot_fresh cr now /\ exists bs, Forall2 (configured_balance balances) accounts bs /\ 0 <= zsum bs /\ o = Some (zsum bs)
  | Err e => (ErrNoObservation ∉ e) /\ ((~ snapshot_fresh cr now) \/ exists acc, acc ∈ accounts /\ cr_balances cr !! acc = None)
  end.
Proof.
  intros Hcr Hne. unfold config_total. destruct (Nat.ltb_spec 0 (length accounts)) as [_|]; [|by destruct accounts; simpl in *; [|lia]].
  unfold checkAge, snapshot_fresh, time_IsZero.
  destruct (Z.eqb_spec (cr_asOf cr) zero_time); [cbn; split; [set_solver|left; intros []; done]|].
  destruct (Z.ltb_spec (cr_maxAge cr) (time_Sub now (cr_asOf cr))); [cbn -[Z.le time_Sub]; split; [set_solver|left; intros []; lia]|].
  cbn [mbind res_bind]. pose proof (config_sum_spec (cr_balances cr) accounts 0) as Hs. destruct (config_sum _ _ _) as [o|e].
  - destruct Hs as (bs & Hbs & ->). split; [done|]. exists bs. split; [|split; [|done]].
    + eapply Forall2_impl; [exact Hbs|]. intros acc b Hb. by apply (config_reader_balances _ _ _ _ _ _ Hcr).
    + eapply Forall2_nonneg; [exact Hbs|]. intros acc b _ Hb. by apply (config_reader_balances _ _ _ _ _ _ Hcr) in Hb as [_ ?].
  - destruct Hs as (-> & Hm). split; [set_solver|by right].
Qed.

Lemma clamp_zero_max z : clamp_zero z = Z.max 0 z.
Proof. unfold clamp_zero. destruct (Z.ltb_spec (Z.sgn z) 0); destruct z; simpl in *; lia. Qed.

(** What the chain of readers answers, and who answered. *)
Lemma chained_spec store balances asOf maxAge cr now accounts ledger :
  NewConfigReserveBalanceReader balances asOf maxAge = Ok cr -> accounts <> [] ->
  match chained_sourced (NewLCMReserveBalanceReader store) (config_reader cr now) accounts ledger with
  | Ok (o, ReserveSourceLive) =>
      exists bs, Forall2 (fun acc b => live_balance store ledger acc = Some b) accounts bs /\ o = Some (zsum bs)
  | Ok (o, ReserveSourceStatic) =>
      (exists acc, acc ∈ accounts /\ live_balance store ledger acc = None) /\ snapshot_fresh cr now /\
      exists bs, Forall2 (configured_balance balances) accounts bs /\ 0 <= zsum bs /\ o = Some (zsum bs)
  | Err e =>
      (ErrNoObservation ∉ e) /\ (exists acc, acc ∈ accounts /\ live_balance store ledger acc = None) /\
      ((~ snapshot_fresh cr now) \/ exists acc, acc ∈ accounts /\ cr_balances cr !! acc = None)
  end.
Proof.
  intros Hcr Hne. unfold chained_sourced. cbn [ReserveBalanceTotal NewLCMReserveBalanceReader config_reader].
  pose proof (lcm_total_spec store ledger accounts 0) as Hl. destruct (lcm_total _ _ _ _) as [o|e]; [exact Hl|].
  destruct Hl as (He & Hm). unfold serr_Is. rewrite bool_decide_true by done. cbn [negb].
  pose proof (config_total_spec balances asOf maxAge cr now accounts Hcr Hne) as Hc.
  destruct (config_total _ _ _); naive_solver.
Qed.

(** C17: the supply of native XLM. The total is the network's; circulating is
    the total less the reserves, never below zero nor above the total. The
    reserves are summed over all reserve accounts from one source: the live
    balances when every account has one, and otherwise the operator's
    snapshot, which is used only when a live balance is missing and the
    snapshot is dated and not expired; the basis says which. There is no
    answer exactly when neither source has every account, and then the error
    is not the benign "no observation" one. *)
Theorem xlm_supply_exact store balances asOf maxAge cr now accounts passphrase c ledger observedAt :
  NewConfigReserveBalanceReader balances asOf maxAge = Ok cr ->
  NewXLMComputerForNetwork passphrase accounts
    (Some (NewChainedReserveBalanceReader (NewLCMReserveBalanceReader store) (config_reader cr now))) = Ok c ->
  (forall acc b, acc ∈ accounts -> live_balance store ledger acc = Some b -> 0 <= b) ->
  match XLMComputer_Compute c ledger observedAt with
  | Ok s =>
      exists total reserved circulating,
        XLMTotalSupplyStroopsForNetwork passphrase = Ok total /\ TotalSupply s = Some total /\ MaxSupply s = Some total /\
        CirculatingSupply s = Some circulating /\ circulating = Z.max 0 (total - reserved) /\ 0 <= circulating <= total /\
        match s_Basis s with
        | BasisXLMTotalOnly => accounts = [] /\ reserved = 0
        | BasisXLMSDFReserveExclusion =>
            exists bs, Forall2 (fun acc b => live_balance store ledger acc = Some b) accounts bs /\ reserved = zsum bs
        | BasisXLMSDFReserveExclusionStatic =>
            (exists acc, acc ∈ accounts /\ live_balance store ledger acc = None) /\ snapshot_fresh cr now /\ MinComponentLedger s = 0 /\
            exists bs, Forall2 (configured_balance balances) accounts bs /\ reserved = zsum bs
        | _ => False
        end
  | Err e =>
      (ErrNoObservation ∉ e) /\ (exists acc, acc ∈ accounts /\ live_balance store ledger acc = None) /\
      ((~ snapshot_fresh cr now) \/ exists acc, acc ∈ accounts /\ cr_balances cr !! acc = None)
  end.
Proof.
  intros Hcr Hc Hnn. unfold NewXLMComputerForNetwork in Hc.
  destruct (XLMTotalSupplyStroopsForNetwork passphrase) as [total|] eqn:Et; [|done]. cbn [mbind res_bind] in Hc.
  assert (0 <= total) as Ht by (unfold XLMTotalSupplyStroopsForNetwork in Et; repeat case_if_in Et; inv_ok; done).
  assert (c = mkXLM accounts (Some (NewChainedReserveBalanceReader (NewLCMReserveBalanceReader store) (config_reader cr now))) total) as ->
    by (destruct accounts; by inv_ok).
  unfold XLMComputer_Compute, xlm_reserved. cbn [xc_reserveAccounts xc_reader xc_total]. destruct accounts as [|a0 accounts'].
  { cbn -[Z.max clamp_zero Z.le]. exists total, 0, (clamp_zero (total - 0)). rewrite clamp_zero_max. split_and!; try done; lia. }
  set (accounts := a0 :: accounts') in *. assert (accounts <> []) as Hne by done.
  pose proof (chained_spec store balances asOf maxAge cr now accounts ledger Hcr Hne) as Hch.
  unfold readReserveTotal. cbn [ReserveBalanceTotalSourced NewChainedReserveBalanceReader].
  destruct (chained_sourced _ _ _ _) as [[o []]|e]; [| |exact Hch].
  - destruct Hch as (bs & Hbs & ->). pose proof (Forall2_nonneg _ _ _ Hbs Hnn).
    cbn -[Z.max clamp_zero Z.le zsum]. exists total, (zsum bs), (clamp_zero (total - zsum bs)).
    rewrite clamp_zero_max. split_and!; try done; try lia. by exists bs.
  - destruct Hch as (Hm & Hf & bs & Hbs & H0 & ->).
    cbn -[Z.max clamp_zero Z.le zsum]. exists total, (zsum bs), (clamp_zero (total - zsum bs)).
    rewrite clamp_zero_max. split_and!; try done; try lia. by exists bs.
Qed.

Definition gappy_store : account_store :=
  mkAccStore (fun acc _ => if String.eqb acc "GA" then Ok (mkObs (Some 30) false 9) else Err [StoreFailure "no row"]) (fun l => Ok l).
Definition operator_balances : gmap string string := {[ "GA" := "40"; "GB" := "50000000" ]}.

Lemma xlm_supply_exact_witness :
  let cr := mkConfigReader {[ "GA" := 40; "GB" := 50000000 ]} (1000 * Second) Hour in
  exists s, XLMComputer_Compute (mkXLM ["GA"; "GB"] (Some (NewChainedReserveBalanceReader (NewLCMReserveBalanceReader gappy_store)
      (config_reader cr (2000 * Second)))) xlmTotalSupplyStroops) 10 0 = Ok s /\
    s_Basis s = BasisXLMSDFReserveExclusionStatic /\ CirculatingSupply s = Some (xlmTotalSupplyStroops - 50000040) /\
    snapshot_fresh cr (2000 * Second).
Proof.
  cbv zeta. set (cr := mkConfigReader _ _ _). set (c := mkXLM _ _ _).
  assert (NewConfigReserveBalanceReader operator_balances (1000 * Second) Hour = Ok cr) as Hcr by (vm_compute; reflexivity).
  assert (NewXLMComputerForNetwork PubnetPassphrase ["GA"; "GB"]
    (Some (NewChainedReserveBalanceReader (NewLCMReserveBalanceReader gappy_store) (config_reader cr (2000 * Second)))) = Ok c) as Hc
    by (vm_compute; reflexivity).
  pose proof (xlm_supply_exact gappy_store operator_balances (1000 * Second) Hour cr (2000 * Second) ["GA"; "GB"] PubnetPassphrase c 10 0 Hcr Hc)
    as Hx.
  destruct (XLMComputer_Compute c 10 0) as [s|] eqn:E; [|vm_compute in E; discriminate].
  assert (s_Basis s = BasisXLMSDFReserveExclusionStatic /\ CirculatingSupply s = Some (xlmTotalSupplyStroops - 50000040)) as [Hb Hcirc].
  { vm_compute in E. injection E as <-. split; reflexivity. }
  exists s. split; [reflexivity|]. split; [exact Hb|]. split; [exact Hcirc|].
  rewrite Hb in Hx. destruct Hx as (? & ? & ? & ? & ? & ? & ? & ? & ? & _ & Hf & _); [|exact Hf].
  intros acc b _. unfold live_balance, gappy_store. cbn. destruct (String.eqb acc "GA"); cbn; congruence || (intros [= <-]; lia).
Defined.

(** *** Classic assets and contract tokens *)

Lemma sum_holders_spec lookup holders total r :
  sum_holders lookup holders total = Ok r ->
  exists bs, Forall2 (fun h b => lookup h = Ok b) holders bs /\ r = total + zsum bs.
Proof.
  revert total. induction holders as [|h holders IH]; intros total; cbn [sum_holders].
  { intros [= <-]. exists []. split; [constructor|]. cbn. lia. }
  destruct (String.eqb h ""); [done|]. destruct (lookup h) as [b|] eqn:E; [|done]. cbn [mbind res_bind].
  intros (bs & Hbs & ->)%IH. exists (b :: bs). split; [by constructor|]. change (zsum (b :: bs)) with (b + zsum bs). lia.
Qed.

Lemma distinct_nonempty_NoDup items seen : distinct_nonempty items seen = true -> NoDup items /\ (forall v, v ∈ items -> v ∉ seen).
Proof.
  revert seen. induction items as [|v items IH]; intros seen; cbn [distinct_nonempty]; [split; [constructor|set_solver]|].
  destruct (String.eqb v ""); [done|]. destruct (bool_decide (v ∈ seen)) eqn:E; [done|]. bprop. intros [Hn Hd]%IH.
  split; [constructor; [intros Hv; by apply (Hd v Hv); left|done]|]. set_solver.
Qed.

Lemma policy_holders_distinct `{Strkey} p key locked :
  policy_Validate p = true -> PerAsset p !! key = Some locked -> NoDup (Accounts locked) /\ NoDup (Contracts locked).
Proof.
  unfold policy_Validate, validateStrkeys. intros Hv Hk. bprop.
  match goal with E : forallb _ (map_to_list (PerAsset p)) = true |- _ => rewrite forallb_forall in E;
    specialize (E (key, locked)); rewrite <- list_elem_of_In, elem_of_map_to_list in E; specialize (E Hk); cbn in E end. bprop.
  split; [by apply (distinct_nonempty_NoDup (Accounts locked) [])|by apply (distinct_nonempty_NoDup (Contracts locked) [])].
Qed.

Lemma MaxSupplyOverride_Some p key m : MaxSupplyOverride p key = Ok (Some m) ->
  exists raw, MaxSupplyOverrides p !! key = Some raw /\ big_SetString10 raw = Some m /\ 0 <= m.
Proof.
  unfold MaxSupplyOverride. destruct (_ !! key) as [raw|]; [|done]. destruct (String.eqb raw ""); [done|].
  destruct (big_SetString10 raw) as [n|] eqn:E; [|done]. destruct (Z.ltb_spec (Z.sgn n) 0); [done|]. intros [= ->].
  exists raw. split_and!; try done. destruct m; simpl in *; lia.
Qed.

Lemma nonneg_components_Some l o : nonneg_components l = true -> o ∈ l -> exists v, o = Some v /\ 0 <= v.
Proof.
  unfold nonneg_components. rewrite forallb_forall. intros Hf Ho%list_elem_of_In%Hf. destruct o as [v|]; [|done].
  exists v. split; [done|]. bprop. destruct v; simpl in *; lia.
Qed.

Lemma amount_of_nonneg l o : nonneg_components l = true -> o ∈ l -> 0 <= amount_of o.
Proof. intros Hn Ho. by destruct (nonneg_components_Some l o Hn Ho) as (v & -> & ?). Qed.

(** A snapshot publishes [total], less what is [excluded]. *)
Definition published (s : Supply) (total excluded : Z) : Prop :=
  exists circulating, TotalSupply s = Some total /\ CirculatingSupply s = Some circulating /\
    circulating = Z.max 0 (total - excluded) /\ 0 <= circulating <= total.

Lemma published_intro key total excluded max basis mb ledger at_ mn sac :
  0 <= total -> 0 <= excluded ->
  published (mkSupply key (Some total) (Some (clamp_zero (total - excluded))) max basis mb ledger at_ mn sac) total excluded.
Proof. intros. exists (clamp_zero (total - excluded)). rewrite clamp_zero_max. cbn -[Z.max Z.le]. split_and!; try done; lia. Qed.

(** The maximum the operator wrote for a key: none, or the number of the text. *)
Definition operator_max (p : Policy) (key : string) (max : option Z) : Prop :=
  match MaxSupplyOverrides p !! key with
  | None => max = None
  | Some raw => if String.eqb raw "" then max = None else exists m, max = Some m /\ big_SetString10 raw = Some m /\ 0 <= m
  end.

Lemma MaxSupplyOverride_max p key max : MaxSupplyOverride p key = Ok max -> operator_max p key max.
Proof.
  unfold MaxSupplyOverride, operator_max. destruct (_ !! key) as [raw|]; [|by intros [= <-]].
  destruct (String.eqb raw ""); [by intros [= <-]|].
  destruct (big_SetString10 raw) as [n|] eqn:E; [|done]. destruct (Z.ltb_spec (Z.sgn n) 0); [done|]. intros [= <-].
  exists n. split_and!; try done. destruct n; simpl in *; lia.
Qed.

(** What the operator's overrides say of a snapshot. *)
Definition under_policy (p : Policy) (key : string) (s : Supply) (plain : Basis) : Prop :=
  s_AssetKey s = key /\ operator_max p key (MaxSupply s) /\
  s_Basis s = (if decide (MaxSupply s = None /\ default no_locks (PerAsset p !! key) = no_locks) then plain else BasisOverride).

Lemma override_basis_spec max locked basis :
  override_basis max locked basis = if decide (max = None /\ locked = no_locks) then basis else BasisOverride.
Proof.
  unfold override_basis, locked_IsEmpty. destruct max; [rewrite decide_False; [done|by intros []]|].
  destruct locked as [[] []]; (destruct (decide _) as [[_ Hl]|Hl]; [done || discriminate Hl|done || by destruct Hl]).
Qed.

Lemma ClassicSupplyAt_spec store asset locked key ledger comps :
  AssetKey asset = Ok key -> ClassicSupplyAt store asset locked ledger = Ok comps ->
  SumTrustlineBalancesAtOrBefore store key ledger = Ok (Trustline comps) /\
  SumClaimableBalancesAtOrBefore store key ledger = Ok (Claimable comps) /\
  SumLPReservesAtOrBefore store key ledger = Ok (LPReserve comps) /\
  SumSACBalancesAtOrBefore store key ledger = Ok (SACWrapped comps) /\
  TrustlineBalanceForAccountAtOrBefore store (Issuer asset) key ledger = Ok (amount_of (IssuerBalance comps)) /\
  (exists bs, Forall2 (fun acc b => TrustlineBalanceForAccountAtOrBefore store acc key ledger = Ok b) (Accounts locked) bs /\
     amount_of (c_LockedAccountBalances comps) = zsum bs) /\
  (exists cs, Forall2 (fun acc b => SACBalanceForContractAtOrBefore store acc key ledger = Ok b) (Contracts locked) cs /\
     amount_of (c_LockedContractBalances comps) = zsum cs).
Proof.
  unfold ClassicSupplyAt. intros Hk E. rewrite Hk in E. case_if_in E; [done|]. cbn [mbind res_bind] in E. inv_ok.
  cbn [Trustline Claimable LPReserve SACWrapped IssuerBalance c_LockedAccountBalances c_LockedContractBalances amount_of].
  repeat match goal with
  | H : sumPerAccountTrustlines _ _ _ _ = Ok _ |- _ => apply sum_holders_spec in H as (bs & Hbs & ->)
  | H : sumPerContractSAC _ _ _ _ = Ok _ |- _ => apply sum_holders_spec in H as (cs & Hcs & ->)
  end. split_and!; try done; [by exists bs|by exists cs].
Qed.

Lemma SEP41SupplyAt_spec `{Strkey} store keys asset locked ledger comps :
  SEP41SupplyAt store keys asset locked ledger = Ok comps ->
  SEP41KindTotalsAtOrBefore store (ContractID asset) ledger = Ok (MintTotal comps, BurnTotal comps, ClawbackTotal comps) /\
  amount_of (AdminBalance comps) = 0 /\
  (exists bs, Forall2 (fun h b => holderBalance store keys (ContractID asset) ledger h = Ok b) (Accounts locked) bs /\
     amount_of (t_LockedAccountBalances comps) = zsum bs) /\
  (exists cs, Forall2 (fun h b => holderBalance store keys (ContractID asset) ledger h = Ok b) (Contracts locked) cs /\
     amount_of (t_LockedContractBalances comps) = zsum cs) /\
  (GenesisBaselineSeeded comps = true -> SEP41GenesisBaselineSeeded store (ContractID asset) = Ok true).
Proof.
  unfold SEP41SupplyAt. intros E. do 2 (case_if_in E; [done|]). inv_ok.
  repeat match goal with
  | H : sumPerHolder _ _ (Accounts _) _ _ = Ok _ |- _ => apply sum_holders_spec in H as (bs & Hbs & ->)
  | H : sumPerHolder _ _ (Contracts _) _ _ = Ok _ |- _ => apply sum_holders_spec in H as (cs & Hcs & ->)
  | p : _ * _ |- _ => destruct p
  end. cbn. split_and!; try done; [by exists bs|by exists cs|]. by destruct (SEP41GenesisBaselineSeeded _ _); [intros ->|].
Qed.

Lemma classic_compute_spec policy store asset key ledger observedAt s :
  AssetKey asset = Ok key -> ClassicComputer_Compute policy (ClassicSupplyAt store) asset ledger observedAt = Ok s ->
  let locked := default no_locks (PerAsset policy !! key) in
  exists tl cb lp sac issuer bs cs,
    SumTrustlineBalancesAtOrBefore store key ledger = Ok (Some tl) /\ SumClaimableBalancesAtOrBefore store key ledger = Ok (Some cb) /\
    SumLPReservesAtOrBefore store key ledger = Ok (Some lp) /\ SumSACBalancesAtOrBefore store key ledger = Ok (Some sac) /\
    TrustlineBalanceForAccountAtOrBefore store (Issuer asset) key ledger = Ok issuer /\
    Forall2 (fun acc b => TrustlineBalanceForAccountAtOrBefore store acc key ledger = Ok b) (Accounts locked) bs /\
    Forall2 (fun acc b => SACBalanceForContractAtOrBefore store acc key ledger = Ok b) (Contracts locked) cs /\
    published s (tl + cb + lp + sac) (issuer + zsum bs + zsum cs) /\ under_policy policy key s BasisIssuerExclusion.
Proof.
  intros Hk E. unfold ClassicComputer_Compute in E. rewrite Hk in E. case_if_in E; [done|]. cbn [mbind res_bind] in E.
  cbv zeta. set (locked := default no_locks _) in *. destruct (ClassicSupplyAt _ _ _ _) as [comps|] eqn:Ec; [|done].
  cbn [mbind res_bind] in E. destruct (validateClassicComponents comps) eqn:Ev; [|done]. cbn [negb] in E.
  destruct (MaxSupplyOverride policy key) as [max|] eqn:Em; [|done]. cbn [mbind res_bind] in E. injection E as <-.
  destruct (ClassicSupplyAt_spec _ _ _ _ _ _ Hk Ec) as (Ht & Hcb & Hl & Hs & Hi & (bs & Hbs & Hla) & (cs & Hcs & Hlc)).
  unfold validateClassicComponents in Ev.
  destruct (nonneg_components_Some _ (Trustline comps) Ev) as (tl & Etl & ?); [set_solver|].
  destruct (nonneg_components_Some _ (Claimable comps) Ev) as (cb & Ecb & ?); [set_solver|].
  destruct (nonneg_components_Some _ (LPReserve comps) Ev) as (lp & Elp & ?); [set_solver|].
  destruct (nonneg_components_Some _ (SACWrapped comps) Ev) as (sac & Esac & ?); [set_solver|].
  pose proof (amount_of_nonneg _ (IssuerBalance comps) Ev ltac:(set_solver)).
  pose proof (amount_of_nonneg _ (c_LockedAccountBalances comps) Ev ltac:(set_solver)).
  pose proof (amount_of_nonneg _ (c_LockedContractBalances comps) Ev ltac:(set_solver)).
  exists tl, cb, lp, sac, (amount_of (IssuerBalance comps)), bs, cs. rewrite <- Hla, <- Hlc, <- Etl, <- Ecb, <- Elp, <- Esac.
  split_and!; try done.
  - rewrite Etl, Ecb, Elp, Esac. cbn [amount_of default]. rewrite <- !Z.sub_add_distr, Z.add_assoc. apply published_intro; lia.
  - split; [done|]. split; [by apply MaxSupplyOverride_max|]. apply override_basis_spec.
Qed.

Lemma sep41_compute_spec `{Strkey} gl policy store keys asset key ledger observedAt s :
  AssetKey asset = Ok key -> SEP41Computer_Compute gl policy (SEP41SupplyAt store keys) asset ledger observedAt = Ok s ->
  let locked := default no_locks (PerAsset policy !! key) in
  exists mint burn clawback bs cs,
    SEP41KindTotalsAtOrBefore store (ContractID asset) ledger = Ok (Some mint, Some burn, Some clawback) /\
    Forall2 (fun h b => holderBalance store keys (ContractID asset) ledger h = Ok b) (Accounts locked) bs /\
    Forall2 (fun h b => holderBalance store keys (ContractID asset) ledger h = Ok b) (Contracts locked) cs /\
    published s (mint - burn - clawback) (zsum bs + zsum cs) /\ under_policy policy key s BasisSEP41TotalOnly /\
    (SEP41GenesisBaselineSeeded store (ContractID asset) = Ok true \/ Type_ (CanonicalAsset gl asset) <> AssetClassic).
Proof.
  intros Hk E. unfold SEP41Computer_Compute in E. rewrite Hk in E. case_if_in E; [done|]. cbn [mbind res_bind] in E.
  cbv zeta. set (locked := default no_locks _) in *. destruct (SEP41SupplyAt _ _ _ _ _) as [comps|] eqn:Ec; [|done].
  cbn [mbind res_bind] in E. destruct (validateSEP41Components comps) eqn:Ev; [|done]. cbn [negb] in E.
  destruct (Z.ltb_spec (Z.sgn (amount_of (MintTotal comps) - amount_of (BurnTotal comps) - amount_of (ClawbackTotal comps))) 0) as [|Hpos]; [done|].
  destruct (negb (GenesisBaselineSeeded comps) && _) eqn:Eg; [done|].
  destruct (MaxSupplyOverride policy key) as [max|] eqn:Em; [|done]. cbn [mbind res_bind] in E. injection E as <-.
  destruct (SEP41SupplyAt_spec _ _ _ _ _ _ Ec) as (Ht & Ha & (bs & Hbs & Hla) & (cs & Hcs & Hlc) & Hg).
  unfold validateSEP41Components in Ev.
  destruct (nonneg_components_Some _ (MintTotal comps) Ev) as (mint & Emint & ?); [set_solver|].
  destruct (nonneg_components_Some _ (BurnTotal comps) Ev) as (burn & Eburn & ?); [set_solver|].
  destruct (nonneg_components_Some _ (ClawbackTotal comps) Ev) as (claw & Eclaw & ?); [set_solver|].
  pose proof (amount_of_nonneg _ (t_LockedAccountBalances comps) Ev ltac:(set_solver)).
  pose proof (amount_of_nonneg _ (t_LockedContractBalances comps) Ev ltac:(set_solver)).
  exists mint, burn, claw, bs, cs. rewrite Ha, <- Hla, <- Hlc, <- Emint, <- Eburn, <- Eclaw. split_and!; try done.
  - rewrite Emint, Eburn, Eclaw in *. cbn [amount_of default] in *. rewrite Z.sub_0_r, <- (Z.sub_add_distr (mint - burn - claw)).
    apply published_intro; [by apply Z.sgn_nonneg|lia].
  - split; [done|]. split; [by apply MaxSupplyOverride_max|]. cbn [MaxSupply s_Basis]. unfold sep41_basis. rewrite override_basis_spec. fold locked. by destruct (decide (max = None /\ locked = no_locks)).
  - destruct (GenesisBaselineSeeded comps); [left; by apply Hg|right]. cbn [negb andb] in Eg. bprop. done.
Qed.

(** *** When a supply is computed *)

Lemma sum_holders_ok lookup holders bs total :
  Forall2 (fun h b => lookup h = Ok b) holders bs -> Forall (fun h => h <> "") holders ->
  sum_holders lookup holders total = Ok (total + zsum bs).
Proof.
  intros H. revert total. induction H as [|h b holders bs Hb _ IH]; intros total HF; cbn [sum_holders].
  - cbn. f_equal. lia.
  - apply Forall_cons in HF as [Hh HF]. destruct (String.eqb_spec h ""); [done|]. rewrite Hb. cbn [mbind res_bind].
    rewrite IH by done. change (zsum (b :: bs)) with (b + zsum bs). f_equal. lia.
Qed.

Lemma nonneg_components_intro l : Forall (fun o => exists v, o = Some v /\ 0 <= v) l -> nonneg_components l = true.
Proof.
  unfold nonneg_components. intros HF. apply forallb_forall. intros o Ho%list_elem_of_In.
  rewrite Forall_forall in HF. destruct (HF o Ho) as (v & -> & Hv). apply negb_true_iff, Z.ltb_ge. by apply Z.sgn_nonneg.
Qed.

Lemma distinct_nonempty_nonempty items seen : distinct_nonempty items seen = true -> Forall (fun h => h <> "") items.
Proof.
  revert seen. induction items as [|v items IH]; intros seen; cbn [distinct_nonempty]; [constructor|].
  destruct (String.eqb_spec v ""); [done|]. destruct (bool_decide (v ∈ seen)); [done|]. intros H. constructor; [done|by eapply IH].
Qed.

Lemma policy_holders_nonempty `{Strkey} p key : policy_Validate p = true ->
  let locked := default no_locks (PerAsset p !! key) in
  Forall (fun h => h <> "") (Accounts locked) /\ Forall (fun h => h <> "") (Contracts locked).
Proof.
  unfold policy_Validate, validateStrkeys. cbv zeta. destruct (PerAsset p !! key) as [locked|] eqn:Hk; [|split; constructor]. intros Hv. bprop.
  match goal with E : forallb _ (map_to_list (PerAsset p)) = true |- _ => rewrite forallb_forall in E;
    specialize (E (key, locked)); rewrite <- list_elem_of_In, elem_of_map_to_list in E; specialize (E Hk); cbn in E end. bprop.
  split; by eapply distinct_nonempty_nonempty.
Qed.

Lemma policy_max_ok `{Strkey} p key : policy_Validate p = true -> is_ok (MaxSupplyOverride p key) = true.
Proof.
  unfold policy_Validate. intros Hv. bprop. destruct (MaxSupplyOverrides p !! key) as [raw|] eqn:Hk; [|unfold MaxSupplyOverride; by rewrite Hk].
  match goal with E : forallb _ (map_to_list (MaxSupplyOverrides p)) = true |- _ => rewrite forallb_forall in E;
    specialize (E (key, raw)); rewrite <- list_elem_of_In, elem_of_map_to_list in E; specialize (E Hk); cbn in E end. bprop.
  match goal with E : _ || _ = true |- _ => apply orb_true_iff in E as [E|E]; [|exact E] end.
  unfold MaxSupplyOverride. rewrite Hk. by match goal with E : String.eqb raw "" = true |- _ => rewrite E end.
Qed.

Lemma Forall2_zsum_nonneg {A} (P : A -> Z -> Prop) l bs : Forall2 P l bs -> Forall (fun b => 0 <= b) bs -> 0 <= zsum bs.
Proof. intros _ HF. induction HF as [|b bs Hb _ IH]; [done|]. change (zsum (b :: bs)) with (b + zsum bs). lia. Qed.

(** What the store says of a classic asset: the four kinds of holdings, the
    issuer's own balance, and the balances of the locked holders. *)
Definition classic_reads (store : ClassicSupplyStore) (asset : Asset) (locked : LockedSet) (ledger tl cb lp sac issuer : Z) (bs cs : list Z) : Prop :=
  let key := Code asset +:+ ":" +:+ Issuer asset in
  SumTrustlineBalancesAtOrBefore store key ledger = Ok (Some tl) /\ SumClaimableBalancesAtOrBefore store key ledger = Ok (Some cb) /\
  SumLPReservesAtOrBefore store key ledger = Ok (Some lp) /\ SumSACBalancesAtOrBefore store key ledger = Ok (Some sac) /\
  TrustlineBalanceForAccountAtOrBefore store (Issuer asset) key ledger = Ok issuer /\
  Forall2 (fun acc b => TrustlineBalanceForAccountAtOrBefore store acc key ledger = Ok b) (Accounts locked) bs /\
  Forall2 (fun acc b => SACBalanceForContractAtOrBefore store acc key ledger = Ok b) (Contracts locked) cs.

(** The balance of a holder of a contract token: by the token's own contract,
    unless the token wraps a classic asset, whose trustline it is for an
    account and whose wrapped balance for a contract. *)
Definition holder_reads `{Strkey} (store : SEP41SupplyStore) (keys : gmap string string) (asset : Asset) (ledger : Z) (holder : string) (b : Z) : Prop :=
  match keys !! ContractID asset with
  | None => t_SACBalance store holder (ContractID asset) ledger = Ok b
  | Some classic =>
      (IsAccountID holder = true -> t_TrustlineBalance store holder classic ledger = Ok b)
      /\ (IsAccountID holder = false -> t_SACBalance store holder classic ledger = Ok b)
  end.

Definition token_reads `{Strkey} (store : SEP41SupplyStore) (keys : gmap string string) (asset : Asset) (locked : LockedSet) (ledger mint burn clawback : Z) (bs cs : list Z) : Prop :=
  SEP41KindTotalsAtOrBefore store (ContractID asset) ledger = Ok (Some mint, Some burn, Some clawback) /\
  Forall2 (holder_reads store keys asset ledger) (Accounts locked) bs /\
  Forall2 (holder_reads store keys asset ledger) (Contracts locked) cs.

Lemma holder_reads_spec `{Strkey} store keys asset ledger h b :
  holder_reads store keys asset ledger h b <-> holderBalance store keys (ContractID asset) ledger h = Ok b.
Proof. unfold holder_reads, holderBalance. destruct (keys !! _); [|done]. destruct (IsAccountID h); naive_solver. Qed.

Lemma classic_compute_total `{Strkey} policy store asset ledger observedAt tl cb lp sac issuer bs cs :
  policy_Validate policy = true -> Type_ asset = AssetClassic ->
  classic_reads store asset (default no_locks (PerAsset policy !! (Code asset +:+ ":" +:+ Issuer asset))) ledger tl cb lp sac issuer bs cs ->
  Forall (fun b => 0 <= b) ([tl; cb; lp; sac; issuer] ++ bs ++ cs) ->
  is_ok (SACBalanceObservationsExist store (Code asset +:+ ":" +:+ Issuer asset) ledger) = true ->
  is_ok (ClassicComputer_Compute policy (ClassicSupplyAt store) asset ledger observedAt) = true.
Proof.
  intros Hv Ht (H1 & H2 & H3 & H4 & H5 & Hbs & Hcs) [Hn [Hnb Hnc]%Forall_app]%Forall_app Hsac.
  destruct (policy_holders_nonempty policy (Code asset +:+ ":" +:+ Issuer asset) Hv) as [Na Nc].
  pose proof (policy_max_ok policy (Code asset +:+ ":" +:+ Issuer asset) Hv) as Hm.
  unfold ClassicComputer_Compute, ClassicSupplyAt, AssetKey. rewrite Ht, bool_decide_true by done. cbn [negb mbind res_bind].
  set (key := Code asset +:+ ":" +:+ Issuer asset) in *. rewrite H1, H2, H3, H4. cbn [mbind res_bind].
  destruct (SACBalanceObservationsExist store key ledger) as [b|]; [|done]. cbn [mbind res_bind]. rewrite H5. cbn [mbind res_bind].
  unfold sumPerAccountTrustlines, sumPerContractSAC. erewrite !sum_holders_ok by done. cbn [mbind res_bind].
  pose proof (Forall2_zsum_nonneg _ _ _ Hbs Hnb). pose proof (Forall2_zsum_nonneg _ _ _ Hcs Hnc).
  unfold validateClassicComponents. cbn [Trustline Claimable LPReserve SACWrapped IssuerBalance c_LockedAccountBalances c_LockedContractBalances].
  rewrite nonneg_components_intro.
  - cbn [negb]. destruct (MaxSupplyOverride policy key); [done|done].
  - rewrite !Forall_cons in Hn. destruct_and! Hn. repeat (apply Forall_cons; split; [by eexists|]). constructor.
Qed.

Lemma token_compute_total `{Strkey} gl policy store keys asset ledger observedAt mint burn clawback bs cs :
  policy_Validate policy = true -> Type_ asset = AssetSoroban -> ContractID asset <> "" ->
  token_reads store keys asset (default no_locks (PerAsset policy !! ContractID asset)) ledger mint burn clawback bs cs ->
  Forall (fun b => 0 <= b) ([mint; burn; clawback] ++ bs ++ cs) -> 0 <= mint - burn - clawback ->
  SEP41GenesisBaselineSeeded store (ContractID asset) = Ok true \/ Type_ (CanonicalAsset gl asset) <> AssetClassic ->
  is_ok (SEP41Computer_Compute gl policy (SEP41SupplyAt store keys) asset ledger observedAt) = true.
Proof.
  intros Hv Ht Hc (H1 & Hbs & Hcs) [Hn [Hnb Hnc]%Forall_app]%Forall_app Hpos Hseed.
  destruct (policy_holders_nonempty policy (ContractID asset) Hv) as [Na Nc].
  pose proof (policy_max_ok policy (ContractID asset) Hv) as Hm.
  assert (forall l bs, Forall2 (holder_reads store keys asset ledger) l bs ->
            Forall2 (fun h b => holderBalance store keys (ContractID asset) ledger h = Ok b) l bs) as Hh
    by (intros l bs' HF; eapply Forall2_impl; [exact HF|]; intros h b; by apply holder_reads_spec).
  apply Hh in Hbs, Hcs. unfold SEP41Computer_Compute, SEP41SupplyAt, AssetKey. rewrite Ht, bool_decide_true by done. cbn [negb mbind res_bind].
  destruct (String.eqb_spec (ContractID asset) ""); [done|]. rewrite H1. cbn [mbind res_bind].
  unfold sumPerHolder. erewrite !sum_holders_ok by done. cbn [mbind res_bind fst snd].
  pose proof (Forall2_zsum_nonneg _ _ _ Hbs Hnb). pose proof (Forall2_zsum_nonneg _ _ _ Hcs Hnc).
  unfold validateSEP41Components. cbn [MintTotal BurnTotal ClawbackTotal AdminBalance t_LockedAccountBalances t_LockedContractBalances GenesisBaselineSeeded amount_of].
  rewrite nonneg_components_intro.
  - cbn [negb]. change (amount_of (Some ?z)) with z. destruct (Z.ltb_spec (Z.sgn (mint - burn - clawback)) 0) as [Hs|_];
      [pose proof (proj2 (Z.sgn_nonneg (mint - burn - clawback)) Hpos); lia|].
    destruct (negb _ && _) eqn:Eg; [|by destruct (MaxSupplyOverride policy (ContractID asset))].
    apply andb_true_iff in Eg as [Eg1 Eg2]. apply bool_decide_eq_true in Eg2. destruct Hseed as [Hs|Hs]; [by rewrite Hs in Eg1|done].
  - rewrite !Forall_cons in Hn. destruct_and! Hn. repeat (apply Forall_cons; split; [by eexists|]). constructor.
Qed.

(** C16: the supply of an issued asset under a validated policy. A classic
    asset's total is exactly what trustlines, claimable balances, pools and
    the wrapper hold under its code and issuer, and a contract token's what
    was minted less what was burnt and clawed back; circulating is the total
    less the issuer's balance (classic) and the balances of the locked
    holders, none listed twice, never below zero nor above the total. A
    holder of a token that wraps a classic asset is looked up under the
    classic key, an account by its trustline. The maximum is the number the
    operator wrote for the key, or unset, and the basis says whether the
    operator's policy took part. A token that wraps a classic asset is
    published only with its genesis baseline. A supply is computed whenever
    the store answers every read with a non-negative amount. *)
Theorem token_supply_exact `{Strkey} gl policy asset ledger observedAt :
  policy_Validate policy = true ->
  (forall key locked, PerAsset policy !! key = Some locked -> NoDup (Accounts locked) /\ NoDup (Contracts locked)) /\
  (Type_ asset = AssetClassic -> forall store,
     let key := Code asset +:+ ":" +:+ Issuer asset in
     let locked := default no_locks (PerAsset policy !! key) in
     let computed := ClassicComputer_Compute policy (ClassicSupplyAt store) asset ledger observedAt in
     (forall s, computed = Ok s -> exists tl cb lp sac issuer bs cs,
        classic_reads store asset locked ledger tl cb lp sac issuer bs cs /\
        published s (tl + cb + lp + sac) (issuer + zsum bs + zsum cs) /\ under_policy policy key s BasisIssuerExclusion) /\
     (forall tl cb lp sac issuer bs cs, classic_reads store asset locked ledger tl cb lp sac issuer bs cs ->
        Forall (fun b => 0 <= b) ([tl; cb; lp; sac; issuer] ++ bs ++ cs) ->
        is_ok (SACBalanceObservationsExist store key ledger) = true -> is_ok computed = true)) /\
  (Type_ asset = AssetSoroban -> forall store keys,
     let key := ContractID asset in
     let locked := default no_locks (PerAsset policy !! key) in
     let computed := SEP41Computer_Compute gl policy (SEP41SupplyAt store keys) asset ledger observedAt in
     let based := SEP41GenesisBaselineSeeded store key = Ok true \/ Type_ (CanonicalAsset gl asset) <> AssetClassic in
     (forall s, computed = Ok s -> exists mint burn clawback bs cs,
        token_reads store keys asset locked ledger mint burn clawback bs cs /\
        published s (mint - burn - clawback) (zsum bs + zsum cs) /\ under_policy policy key s BasisSEP41TotalOnly /\ based) /\
     (forall mint burn clawback bs cs, token_reads store keys asset locked ledger mint burn clawback bs cs -> key <> "" ->
        Forall (fun b => 0 <= b) ([mint; burn; clawback] ++ bs ++ cs) -> 0 <= mint - burn - clawback -> based -> is_ok computed = true)).
Proof.
  intros Hv. split; [intros key locked; by apply policy_holders_distinct|]. split.
  - intros Ht store. cbv zeta. split; [|intros; by eapply classic_compute_total].
    intros s E. destruct (classic_compute_spec policy store asset (Code asset +:+ ":" +:+ Issuer asset) ledger observedAt s)
      as (tl & cb & lp & sac & issuer & bs & cs & ? & ? & ? & ? & ? & ? & ? & ? & ?); [unfold AssetKey; by rewrite Ht|done|].
    by exists tl, cb, lp, sac, issuer, bs, cs.
  - intros Ht store keys. cbv zeta. split; [|intros; by eapply token_compute_total].
    intros s E. destruct (sep41_compute_spec gl policy store keys asset (ContractID asset) ledger observedAt s)
      as (mint & burn & claw & bs & cs & ? & Hbs & Hcs & ? & ? & ?); [unfold AssetKey; by rewrite Ht|done|].
    exists mint, burn, claw, bs, cs. split_and!; try done. split_and!; [done|..].
    all: eapply Forall2_impl; [done|]; intros h b; apply holder_reads_spec.
Qed.

Definition usdc_key : string := "USDC:" +:+ issuer_ex.
Definition treasury_ex : string := "GA5ZSEJYB37JRC5AVCIA5MOP4RHTM335X2KGX3IHOJAPP5RE34K4KZVM".
Definition contract_ex : string := "CA5ZSEJYB37JRC5AVCIA5MOP4RHTM335X2KGX3IHOJAPP5RE34K4KZVN".
Definition wrapper_ex : Asset := mkAsset AssetSoroban "" "" contract_ex.
Definition usdc_policy : Policy :=
  mkPolicy [] {[ usdc_key := mkLocked [treasury_ex] []; contract_ex := mkLocked [treasury_ex] [] ]}
    {[ usdc_key := "1000"; contract_ex := "" ]}.
Definition usdc_store : ClassicSupplyStore :=
  mkClassicStore (fun _ _ => Ok (Some 100)) (fun _ _ => Ok (Some 20)) (fun _ _ => Ok (Some 3)) (fun _ _ => Ok (Some 4)) (fun _ _ => Ok true)
    (fun _ _ _ => Ok 10) (fun _ _ _ => Ok 1) (fun _ _ => Ok 7).
Definition usdc_supply : Supply := mkSupply usdc_key (Some 127) (Some 107) (Some 1000) BasisOverride BasisUnset 50 0 7 (Some 4).
Definition wrapper_store : SEP41SupplyStore :=
  mkSEP41Store (fun _ _ => Ok (Some 90, Some 5, Some 1)) (fun _ _ _ => Ok 2)
    (fun _ k _ => if String.eqb k usdc_key then Ok 30 else Err []) (fun _ _ => Ok 9) (fun _ => Ok true).
Definition wrapper_supply : Supply := mkSupply contract_ex (Some 84) (Some 54) None BasisOverride BasisUnset 50 0 9 None.

Lemma token_supply_exact_witness :
  @policy_Validate plain_strkey usdc_policy = true /\
  ClassicComputer_Compute usdc_policy (ClassicSupplyAt usdc_store) usdc 50 0 = Ok usdc_supply /\
  SEP41Computer_Compute init_globals usdc_policy
    (@SEP41SupplyAt plain_strkey wrapper_store {[ contract_ex := usdc_key ]}) wrapper_ex 50 0 = Ok wrapper_supply /\
  (exists total excluded, published usdc_supply total excluded) /\
  under_policy usdc_policy usdc_key usdc_supply BasisIssuerExclusion.
Proof.
  assert (@policy_Validate plain_strkey usdc_policy = true) as Hp by (vm_compute; reflexivity).
  assert (ClassicComputer_Compute usdc_policy (ClassicSupplyAt usdc_store) usdc 50 0 = Ok usdc_supply) as Hc by (vm_compute; reflexivity).
  split; [exact Hp|]. split; [exact Hc|]. split; [vm_compute; reflexivity|].
  destruct (@token_supply_exact plain_strkey init_globals usdc_policy usdc 50 0 Hp) as (_ & Hx & _).
  destruct (proj1 (Hx eq_refl usdc_store) usdc_supply Hc) as (tl & cb & lp & sac & i & bs & cs & _ & Hpub & Hpol).
  split; [exists (tl + cb + lp + sac), (i + zsum bs + zsum cs); exact Hpub|exact Hpol].
Defined.

(** *** The overlay and the comparison *)

(** The overlay touches nothing but the maximum and its basis, never replaces
    a maximum that is set, and declares none below what exists. *)
Theorem Overlay_sound snap asset resolver snap' changed err :
  Overlay snap asset resolver = (snap', changed, err) ->
  (changed = false /\ snap' = snap) \/
  (changed = true /\ err = None /\ MaxSupply snap = None /\ s_AssetKey snap <> nativeAssetKey /\
   exists m, snap' = mkSupply (s_AssetKey snap) (TotalSupply snap) (CirculatingSupply snap) (Some m) (s_Basis snap) BasisSEP1DeclaredMax
                       (LedgerSequence snap) (ObservedAt snap) (MinComponentLedger snap) (SACWrappedStroops snap) /\
     0 < m /\ (forall t, TotalSupply snap = Some t -> t <= m) /\ (forall c, CirculatingSupply snap = Some c -> c <= m)).
Proof.
  unfold Overlay. destruct (String.eqb_spec (s_AssetKey snap) nativeAssetKey); [cbn; intros; simplify_eq; by left|].
  destruct (MaxSupply snap) eqn:Em; [cbn; intros; simplify_eq; by left|]. cbn [orb].
  destruct resolver as [resolve|]; [|intros; simplify_eq; by left].
  destruct (resolve asset) as [[raw|]|]; [|intros; simplify_eq; by left..].
  destruct (String.eqb raw ""); [intros; simplify_eq; by left|]. destruct (big_SetString10 raw) as [m|]; [|intros; simplify_eq; by left].
  destruct (Z.leb_spec (Z.sgn m) 0); [intros; simplify_eq; by left|].
  destruct (match TotalSupply snap with Some t => m <? t | None => false end) eqn:Et; [intros; simplify_eq; by left|].
  destruct (match CirculatingSupply snap with Some t => m <? t | None => false end) eqn:Ec; [intros; simplify_eq; by left|].
  intros [= <- <- <-]. right. split_and!; try done. exists m. split; [done|]. split; [destruct m; simpl in *; lia|].
  split; intros x Hx; rewrite Hx in *; bprop; done.
Qed.

Lemma ledgerGap_abs a b : is_uint32 a -> is_uint32 b -> ledgerGap a b = Z.abs (a - b).
Proof.
  unfold ledgerGap, is_uint32, MaxUint32. intros Ha Hb. destruct (Z.ltb_spec b a); rewrite wrapu_small; lia.
Qed.

(** The comparison is made only of two snapshots that have totals and are at
    most a thousand ledgers apart (a snapshot without a ledger is not
    judged). A full wrapper is compared by its total. A partial one is
    compared by what it holds of the classic asset against what it has
    issued, and only when the holding was observed. *)
Theorem CrossCheckForClass_exact classic sac class r :
  is_uint32 (LedgerSequence classic) -> is_uint32 (LedgerSequence sac) ->
  CrossCheckForClass classic sac class = Ok r ->
  exists c s, TotalSupply classic = Some c /\ TotalSupply sac = Some s /\ cc_WrapClass r = normalizeWrapClass class /\
    (LedgerSequence classic <> 0 -> LedgerSequence sac <> 0 -> Z.abs (LedgerSequence classic - LedgerSequence sac) <= CrossCheckLedgerTolerance) /\
    (WithinTolerance r = true <-> DivergenceStroops r <= CrossCheckTolerance) /\
    match cc_WrapClass r with
    | WrapClassFull => DivergenceStroops r = Z.abs (c - s)
    | _ => SubsetBoundChecked r = bool_decide (is_Some (SACWrappedStroops classic)) /\
           DivergenceStroops r = Z.max 0 (default s (SACWrappedStroops classic) - s)
    end.
Proof.
  intros Hc Hs E. unfold CrossCheckForClass in E. destruct (checkLedgerAlignment classic sac) as [[]|] eqn:Ea; [|done].
  cbn [mbind res_bind] in E.
  assert (LedgerSequence classic <> 0 -> LedgerSequence sac <> 0 ->
          Z.abs (LedgerSequence classic - LedgerSequence sac) <= CrossCheckLedgerTolerance) as Hgap.
  { intros H1 H2. unfold checkLedgerAlignment in Ea. rewrite (proj2 (Z.eqb_neq _ _) H1), (proj2 (Z.eqb_neq _ _) H2) in Ea. cbn [orb] in Ea.
    case_if_in Ea; [done|]. bprop. by rewrite ledgerGap_abs in *. }
  case_if_in E; unfold CrossCheck, CrossCheckSubsetBound in E; destruct (TotalSupply classic) as [c|]; try done;
    destruct (TotalSupply sac) as [s|]; try done; injection E as <-; exists c, s; bprop;
    cbn [cc_WrapClass WithinTolerance DivergenceStroops SubsetBoundChecked].
  - split_and!; try done. apply Z.leb_le.
  - split_and!; try done; [by destruct class|apply Z.leb_le|by destruct (SACWrappedStroops classic)|].
    destruct (SACWrappedStroops classic) as [w|]; unfold default; cbn [from_option id]; [|lia]. unfold excessOver. rewrite clamp_zero_max.
    destruct (Z.ltb_spec 0 (Z.max 0 (w - s))); unfold id in *; lia.
Qed.
