(* ===== verification/SupplyRefresh.v ===== *)
(** * Publishing supply (internal/supply: refresher.go, crosscheck_refresher.go,
    genesis_autoseed.go)

    One [Tick] computes a snapshot, judges how old its parts are, and writes
    it; a second loop compares an asset with its wrapper. What a tick reads
    and whether its write succeeds are its environment. Log lines are left
    out. *)

From S2P Require Import Prelude GoLib Amount Asset Alias Supply.

(** ** The refresher (refresher.go) *)

Inductive OutcomeKind :=
| OutcomeKindOK | OutcomeKindNoLedger | OutcomeKindNoObservation | OutcomeKindComputeError | OutcomeKindStaleComponent
| OutcomeKindMissingFreshness | OutcomeKindMissingBaseline | OutcomeKindDormant | OutcomeKindWriteError | OutcomeKindStaticReserve.

#[export] Instance OutcomeKind_eq_dec : EqDecision OutcomeKind.
Proof. solve_decision. Defined.

Inductive band := BandNone | BandUp | BandDown.

Record TickOutcome := mkOutcome { o_Kind : OutcomeKind; o_Snapshot : option Supply; o_Err : option serr; o_BandBreach : band }.

Definition DefaultStaleComponentLedgers : Z := 1000.
Definition DefaultMaxDormantComponentLedgers : Z := 17280.
Definition WriteBandFactor : Z := 10.

Record Refresher := mkRefresher {
  staleComponentLedger : Z;
  staleComponentByAsset : gmap string Z;
  strictFreshnessRequired : bool;
  maxDormantComponentLedger : Z;
  lastComponentLedger : gmap string Z;
  lastWrittenTotal : gmap string Z
}.

Definition RefresherOption : Type := Refresher -> Refresher.

Definition WithStaleComponentLedgers (maxLag : Z) : RefresherOption := fun r =>
  mkRefresher maxLag (staleComponentByAsset r) (strictFreshnessRequired r) (maxDormantComponentLedger r) (lastComponentLedger r) (lastWrittenTotal r).
Definition WithStaleComponentLedgersFor (assetKey : string) (maxLag : Z) : RefresherOption := fun r =>
  mkRefresher (staleComponentLedger r) (<[assetKey := maxLag]> (staleComponentByAsset r)) (strictFreshnessRequired r) (maxDormantComponentLedger r)
    (lastComponentLedger r) (lastWrittenTotal r).
Definition WithMaxDormantComponentLedgers (maxDormant : Z) : RefresherOption := fun r =>
  mkRefresher (staleComponentLedger r) (staleComponentByAsset r) (strictFreshnessRequired r) maxDormant (lastComponentLedger r) (lastWrittenTotal r).
Definition WithStrictFreshnessRequired (strict : bool) : RefresherOption := fun r =>
  mkRefresher (staleComponentLedger r) (staleComponentByAsset r) strict (maxDormantComponentLedger r) (lastComponentLedger r) (lastWrittenTotal r).

Definition NewRefresher (opts : list RefresherOption) : Refresher :=
  foldl (fun r o => o r) (mkRefresher DefaultStaleComponentLedgers ∅ false DefaultMaxDormantComponentLedgers ∅ ∅) opts.

(** What one tick meets: the latest ledger, the computer, the write. *)
Record tick_env := mkTick {
  LatestKnownLedger : res serr (Z * Time);
  Compute_ : Z -> Time -> res serr Supply;
  InsertSupply : Supply -> option serr
}.

Definition with_last (r : Refresher) (m : gmap string Z) : Refresher :=
  mkRefresher (staleComponentLedger r) (staleComponentByAsset r) (strictFreshnessRequired r) (maxDormantComponentLedger r) m (lastWrittenTotal r).
Definition with_written (r : Refresher) (m : gmap string Z) : Refresher :=
  mkRefresher (staleComponentLedger r) (staleComponentByAsset r) (strictFreshnessRequired r) (maxDormantComponentLedger r) (lastComponentLedger r) m.

Definition checkWriteBand (r : Refresher) (snap : Supply) : band * Refresher :=
  match TotalSupply snap with
  | None => (BandNone, r)
  | Some total =>
      let prev := lastWrittenTotal r !! s_AssetKey snap in
      let r := with_written r (<[s_AssetKey snap := total]> (lastWrittenTotal r)) in
      match prev with
      | None => (BandNone, r)
      | Some prev =>
          if Z.sgn prev <=? 0 then (BandNone, r)
          else if prev * WriteBandFactor <? total then (BandUp, r)
          else if total * WriteBandFactor <? prev then (BandDown, r)
          else (BandNone, r)
      end
  end.

Definition threshold_of (r : Refresher) (key : string) : Z := default (staleComponentLedger r) (staleComponentByAsset r !! key).

(** The distance of the oldest part behind the snapshot. *)
Definition lag (snap : Supply) : Z := wrapu 32 (LedgerSequence snap - MinComponentLedger snap).

Inductive gate_result := GateOpen | GateDecided (o : TickOutcome) (written : list Supply).

Definition applyStaleComponentGate (r : Refresher) (insert : Supply -> option serr) (snap : Supply) : gate_result * Refresher :=
  let threshold := threshold_of r (s_AssetKey snap) in
  if (threshold =? 0) || (MinComponentLedger snap =? 0) then (GateOpen, r)
  else
    let last := lastComponentLedger r !! s_AssetKey snap in
    let r := with_last r (<[s_AssetKey snap := MinComponentLedger snap]> (lastComponentLedger r)) in
    if (LedgerSequence snap <=? MinComponentLedger snap) || (lag snap <=? threshold) then (GateOpen, r)
    else
      let dormant := match last with Some l => l =? MinComponentLedger snap | None => false end in
      if negb dormant then (GateDecided (mkOutcome OutcomeKindStaleComponent (Some snap) (Some []) BandNone) [], r)
      else if (0 <? maxDormantComponentLedger r) && (maxDormantComponentLedger r <? lag snap)
      then (GateDecided (mkOutcome OutcomeKindStaleComponent (Some snap) (Some []) BandNone) [], r)
      else match insert snap with
           | Some e => (GateDecided (mkOutcome OutcomeKindWriteError (Some snap) (Some e) BandNone) [], r)
           | None => let '(breach, r) := checkWriteBand r snap in
                     (GateDecided (mkOutcome OutcomeKindDormant (Some snap) None breach) [snap], r)
           end.

Definition compute_kind (e : serr) : OutcomeKind :=
  if serr_Is e ErrNoObservation then OutcomeKindNoObservation
  else if serr_Is e ErrNegativeTotalMissingBaseline || serr_Is e ErrGenesisBaselineNotSeeded then OutcomeKindMissingBaseline
  else OutcomeKindComputeError.

(** The outcome, the rows written and the next state. *)
Definition Tick (r : Refresher) (env : tick_env) : TickOutcome * list Supply * Refresher :=
  match LatestKnownLedger env with
  | Err e => (mkOutcome OutcomeKindNoLedger None (Some e) BandNone, [], r)
  | Ok (ledger, observedAt) =>
      match Compute_ env ledger observedAt with
      | Err e => (mkOutcome (compute_kind e) None (Some e) BandNone, [], r)
      | Ok snap =>
          let staticReserve := bool_decide (s_Basis snap = BasisXLMSDFReserveExclusionStatic) in
          if strictFreshnessRequired r && ((MinComponentLedger snap =? 0) || staticReserve)
          then (mkOutcome OutcomeKindMissingFreshness (Some snap) (Some []) BandNone, [], r)
          else
            match applyStaleComponentGate r (InsertSupply env) snap with
            | (GateDecided o written, r) => (o, written, r)
            | (GateOpen, r) =>
                match InsertSupply env snap with
                | Some e => (mkOutcome OutcomeKindWriteError (Some snap) (Some e) BandNone, [], r)
                | None =>
                    let '(breach, r) := checkWriteBand r snap in
                    (mkOutcome (if staticReserve then OutcomeKindStaticReserve else OutcomeKindOK) (Some snap) None breach, [snap], r)
                end
            end
      end
  end.

(** ** The cross-check loop (crosscheck_refresher.go) *)

Record CrossCheckPair := mkCCPair { p_ClassicKey : string; p_SACKey : string; p_WrapClass : WrapClass }.

Inductive CrossCheckOutcomeKind :=
| CrossCheckOutcomeWithin | CrossCheckOutcomeOver | CrossCheckOutcomeMissing | CrossCheckOutcomeReadError
| CrossCheckOutcomeMisaligned | CrossCheckOutcomeUnchecked.

Record CrossCheckOutcome := mkCCOut { cco_Pair : CrossCheckPair; cco_Kind : CrossCheckOutcomeKind; cco_Result : option CrossCheckResult; cco_Err : option serr }.

(** What the emitter is told. *)
Inductive emission :=
| EmitDivergence (classicKey : string) (class : WrapClass) (stroops : Z)
| EmitClear (classicKey : string) (class : WrapClass)
| EmitOutcome (kind : CrossCheckOutcomeKind) (class : WrapClass).

Definition read_outcome (p : CrossCheckPair) (e : serr) : CrossCheckOutcome :=
  mkCCOut p (if serr_Is e ErrNoSnapshot then CrossCheckOutcomeMissing else CrossCheckOutcomeReadError) None (Some e).

Definition tickOne (LatestSupply : string -> res serr Supply) (p : CrossCheckPair) : CrossCheckOutcome :=
  match LatestSupply (p_ClassicKey p) with
  | Err e => read_outcome p e
  | Ok classic =>
      match LatestSupply (p_SACKey p) with
      | Err e => read_outcome p e
      | Ok sac =>
          match CrossCheckForClass classic sac (p_WrapClass p) with
          | Err e => mkCCOut p (if serr_Is e ErrCrossCheckMisaligned then CrossCheckOutcomeMisaligned else CrossCheckOutcomeReadError) None (Some e)
          | Ok result =>
              if bool_decide (cc_WrapClass result = WrapClassPartial) && negb (SubsetBoundChecked result)
              then mkCCOut p CrossCheckOutcomeUnchecked (Some result) None
              else if WithinTolerance result then mkCCOut p CrossCheckOutcomeWithin (Some result) None
              else mkCCOut p CrossCheckOutcomeOver (Some result) None
          end
      end
  end.

(** The gauge takes the divergence before its conversion to a float. *)
Definition emit_one (o : CrossCheckOutcome) : list emission :=
  let p := cco_Pair o in
  let class := normalizeWrapClass (p_WrapClass p) in
  EmitOutcome (cco_Kind o) class ::
  match cco_Kind o, cco_Result o with
  | CrossCheckOutcomeWithin, Some result | CrossCheckOutcomeOver, Some result => [EmitDivergence (p_ClassicKey p) class (DivergenceStroops result)]
  | CrossCheckOutcomeWithin, None | CrossCheckOutcomeOver, None => []
  | _, _ => [EmitClear (p_ClassicKey p) class]
  end.

(** Some key occurs twice in a row. *)
Fixpoint adjacent_dup (l : list CrossCheckPair) : bool :=
  match l with
  | a :: ((b :: _) as l) => String.eqb (p_ClassicKey b) (p_ClassicKey a) || adjacent_dup l
  | _ => false
  end.

Definition NewCrossCheckRefresher (pairs : list CrossCheckPair) : option (list CrossCheckPair) :=
  if existsb (fun p => String.eqb (p_ClassicKey p) "" || String.eqb (p_SACKey p) "") pairs then None
  else
    let sorted := isort (fun a b => str_leb (p_ClassicKey a) (p_ClassicKey b)) pairs in
    if adjacent_dup sorted then None else Some sorted.

Definition cross_tick (LatestSupply : string -> res serr Supply) (pairs : list CrossCheckPair) : list CrossCheckOutcome * list emission :=
  let out := map (tickOne LatestSupply) pairs in (out, concat (map emit_one out)).

(** ** Seeding a baseline (genesis_autoseed.go) *)

Record GenesisSeedingComputer := mkSeeder { retryAfter : Duration; lastFailure : Time }.

Definition mayAttempt (g : GenesisSeedingComputer) (now : Time) : bool :=
  time_IsZero (lastFailure g) || (retryAfter g <=? time_Sub now (lastFailure g)).
Definition recordFailure (g : GenesisSeedingComputer) (now : Time) : GenesisSeedingComputer := mkSeeder (retryAfter g) now.

(** [first] and [second] are what the inner computer says before and after the
    seed; the result says whether the seeder was called. *)
Definition Seeding_Compute (g : GenesisSeedingComputer) (now failedAt : Time) (first : res serr Supply) (seed : option serr) (second : res serr Supply)
  : res serr Supply * bool * GenesisSeedingComputer :=
  match first with
  | Ok s => (Ok s, false, g)
  | Err e =>
      if negb (serr_Is e ErrGenesisBaselineNotSeeded) && negb (serr_Is e ErrNegativeTotalMissingBaseline) then (Err e, false, g)
      else if negb (mayAttempt g now) then (Err e, false, g)
      else match seed with
           | Some _ => (Err e, true, recordFailure g failedAt)
           | None => (second, true, g)
           end
  end.

(** ** Properties *)

(** *** The refresher *)

(** The snapshot a tick computes. *)
Definition computed (env : tick_env) : option Supply :=
  match LatestKnownLedger env with
  | Ok (ledger, observedAt) => match Compute_ env ledger observedAt with Ok s => Some s | Err _ => None end
  | Err _ => None
  end.

(** A snapshot that strict mode refuses. *)
Definition unanchored (s : Supply) : bool := (MinComponentLedger s =? 0) || bool_decide (s_Basis s = BasisXLMSDFReserveExclusionStatic).
Definition strict_ok (strict : bool) (s : Supply) : bool := negb (strict && unanchored s).

(** What the ticks of a history last saw as the oldest part of an asset. *)
Definition see_anchor (strict : bool) (k : string) (last : option Z) (env : tick_env) : option Z :=
  match computed env with
  | Some s => if strict_ok strict s && String.eqb (s_AssetKey s) k && negb (MinComponentLedger s =? 0) then Some (MinComponentLedger s) else last
  | None => last
  end.
Definition last_anchor (strict : bool) (hist : list tick_env) (k : string) : option Z := foldl (see_anchor strict k) None hist.

Definition run_ticks (r : Refresher) (hist : list tick_env) : Refresher := foldl (fun r env => (Tick r env).2) r hist.

(** The parts of a refresher no tick changes. *)
Definition same_config (r r' : Refresher) : Prop :=
  staleComponentLedger r' = staleComponentLedger r /\ staleComponentByAsset r' = staleComponentByAsset r /\
  strictFreshnessRequired r' = strictFreshnessRequired r /\ maxDormantComponentLedger r' = maxDormantComponentLedger r.

Lemma checkWriteBand_keeps r s : same_config r (checkWriteBand r s).2 /\ lastComponentLedger (checkWriteBand r s).2 = lastComponentLedger r.
Proof. unfold checkWriteBand, same_config. destruct (TotalSupply s); [|done]. destruct (_ !! _); [|done]. by repeat case_if. Qed.

(** Whether the gate lets a snapshot through, given the last anchor seen. *)
Definition fresh_enough (r : Refresher) (last : option Z) (s : Supply) : bool :=
  let gap := LedgerSequence s - MinComponentLedger s in
  (threshold_of r (s_AssetKey s) =? 0) || (MinComponentLedger s =? 0) || (gap <=? threshold_of r (s_AssetKey s))
  || bool_decide (last = Some (MinComponentLedger s))
     && negb ((0 <? maxDormantComponentLedger r) && (maxDormantComponentLedger r <? gap)).

Definition ledgers_ok (s : Supply) : Prop := is_uint32 (LedgerSequence s) /\ is_uint32 (MinComponentLedger s).
Definition thresholds_ok (r : Refresher) : Prop := forall k, 0 <= threshold_of r k.

(** The map after a tick that reached the gate. *)
Definition seen_map (r : Refresher) (s : Supply) : gmap string Z :=
  if (threshold_of r (s_AssetKey s) =? 0) || (MinComponentLedger s =? 0) then lastComponentLedger r
  else <[s_AssetKey s := MinComponentLedger s]> (lastComponentLedger r).

Lemma gate_spec r insert s :
  ledgers_ok s -> thresholds_ok r ->
  let '(g, r') := applyStaleComponentGate r insert s in
  same_config r r' /\ lastComponentLedger r' = seen_map r s /\
  match g with
  | GateOpen => fresh_enough r (lastComponentLedger r !! s_AssetKey s) s = true
  | GateDecided o written =>
      written = (if fresh_enough r (lastComponentLedger r !! s_AssetKey s) s
                 then match insert s with None => [s] | Some _ => [] end else [])
  end.
Proof.
  intros [HL HM] Hth. specialize (Hth (s_AssetKey s)). unfold applyStaleComponentGate, fresh_enough, seen_map.
  set (th := threshold_of r (s_AssetKey s)) in *. set (gap := LedgerSequence s - MinComponentLedger s).
  destruct ((th =? 0) || (MinComponentLedger s =? 0)) eqn:E1; [done|]. cbn [orb].
  set (last := lastComponentLedger r !! s_AssetKey s).
  destruct ((LedgerSequence s <=? MinComponentLedger s) || (lag s <=? th)) eqn:E2.
  { split; [done|]. split; [done|]. apply orb_true_iff. left. apply Z.leb_le. unfold gap, lag in *. unfold is_uint32, MaxUint32 in *.
    apply orb_true_iff in E2 as [E2|E2]; bprop; [lia|]. destruct (Z.leb_spec (LedgerSequence s) (MinComponentLedger s)); [lia|].
    rewrite wrapu_small in E2 by lia. done. }
  apply orb_false_iff in E2 as [E2 E3]. bprop.
  assert (lag s = gap) as Hlag by (unfold lag, gap, is_uint32, MaxUint32 in *; rewrite wrapu_small; lia). rewrite Hlag in *.
  rewrite (proj2 (Z.leb_gt gap th)) by lia. cbn [orb].
  assert (match last with Some l => l =? MinComponentLedger s | None => false end = bool_decide (last = Some (MinComponentLedger s))) as ->.
  { destruct last as [l|]; [|done]. destruct (Z.eqb_spec l (MinComponentLedger s)) as [->|Hn]; [by rewrite bool_decide_true|].
    rewrite bool_decide_false; [done|]. by intros [= ->]. }
  destruct (bool_decide (last = _)); cbn [negb andb]; [|done]. cbn [maxDormantComponentLedger with_last].
  destruct ((0 <? maxDormantComponentLedger r) && (maxDormantComponentLedger r <? gap)); cbn [negb]; [done|].
  destruct (insert s); [done|]. pose proof (checkWriteBand_keeps (with_last r (<[s_AssetKey s:=MinComponentLedger s]> (lastComponentLedger r))) s) as Hk.
  destruct (checkWriteBand _ s) as [b r'']. cbn [snd] in Hk. destruct Hk as [Hk1 Hk2]. split; [done|]. by rewrite Hk2.
Qed.

Definition accepted (env : tick_env) (s : Supply) : bool := match InsertSupply env s with None => true | Some _ => false end.

Lemma Tick_spec r env :
  (forall s, computed env = Some s -> ledgers_ok s) -> thresholds_ok r ->
  let '(o, written, r') := Tick r env in
  same_config r r' /\
  match computed env with
  | None => written = [] /\ lastComponentLedger r' = lastComponentLedger r
  | Some s =>
      written = (if strict_ok (strictFreshnessRequired r) s && fresh_enough r (lastComponentLedger r !! s_AssetKey s) s && accepted env s
                 then [s] else []) /\
      lastComponentLedger r' = (if strict_ok (strictFreshnessRequired r) s then seen_map r s else lastComponentLedger r)
  end.
Proof.
  intros Hok Hth. unfold Tick, computed in *. destruct (LatestKnownLedger env) as [[ledger t]|e]; [|done].
  destruct (Compute_ env ledger t) as [s|e]; [|done]. specialize (Hok s eq_refl).
  unfold strict_ok, unanchored. set (static := bool_decide (s_Basis s = _)).
  destruct (strictFreshnessRequired r && ((MinComponentLedger s =? 0) || static)) eqn:Es; [done|]. cbn [negb andb].
  pose proof (gate_spec r (InsertSupply env) s Hok Hth) as Hg. destruct (applyStaleComponentGate r (InsertSupply env) s) as [[|o written] r'].
  - destruct Hg as (Hc & Hl & ->). unfold accepted. cbn [andb]. destruct (InsertSupply env s) eqn:Ei; [done|].
    pose proof (checkWriteBand_keeps r' s) as Hk. destruct (checkWriteBand r' s) as [b r'']. cbn [snd] in Hk. destruct Hk as [Hk1 Hk2].
    split; [unfold same_config in *; intuition congruence|]. by rewrite Hk2.
  - destruct Hg as (Hc & Hl & ->). split; [done|]. split; [|done]. unfold accepted.
    destruct (fresh_enough _ _ _); [|done]. by destruct (InsertSupply env s).
Qed.

Lemma same_config_threshold r r' k : same_config r r' -> threshold_of r' k = threshold_of r k.
Proof. unfold threshold_of. by intros (-> & -> & _). Qed.
Lemma same_config_refl r : same_config r r.
Proof. done. Qed.
Lemma same_config_trans r1 r2 r3 : same_config r1 r2 -> same_config r2 r3 -> same_config r1 r3.
Proof. unfold same_config. intuition congruence. Qed.

Definition history_ok (hist : list tick_env) : Prop := Forall (fun env => forall s, computed env = Some s -> ledgers_ok s) hist.

(** The refresher remembers, of every gated asset, the anchor the history
    last showed. *)
Lemma run_ticks_spec r hist :
  lastComponentLedger r = ∅ -> history_ok hist -> thresholds_ok r ->
  same_config r (run_ticks r hist) /\
  forall k, threshold_of r k <> 0 -> lastComponentLedger (run_ticks r hist) !! k = last_anchor (strictFreshnessRequired r) hist k.
Proof.
  intros Hr Hh Hth. induction hist as [|env hist IH] using rev_ind.
  { split; [done|]. intros k _. cbn. by rewrite Hr, lookup_empty. }
  apply Forall_app in Hh as [Hh He%Forall_inv]. destruct (IH Hh) as [Hc Hl].
  unfold run_ticks, last_anchor in *. rewrite !foldl_app. cbn [foldl]. set (r1 := foldl _ r hist) in *.
  assert (thresholds_ok r1) as Hth1 by (intros k; rewrite (same_config_threshold r r1 k Hc); apply Hth).
  pose proof (Tick_spec r1 env He Hth1) as Ht. destruct (Tick r1 env) as [[o written] r']. cbn [snd]. destruct Ht as [Hc' Ht].
  split; [by eapply same_config_trans|]. intros k Hk. rewrite foldl_app. cbn [foldl]. rewrite <- (Hl k Hk). unfold see_anchor at 1.
  destruct (computed env) as [s|]; [|by destruct Ht as [_ ->]].
  destruct Ht as [_ ->]. destruct Hc as (Hc1 & Hc2 & Hc3 & Hc4). rewrite Hc3.
  destruct (strict_ok (strictFreshnessRequired r) s); cbn [andb]; [|done].
  unfold seen_map. rewrite (same_config_threshold r r1) by done.
  destruct (String.eqb_spec (s_AssetKey s) k) as [->|Hne]; cbn [andb].
  - destruct (Z.eqb_spec (threshold_of r k) 0); [done|]. cbn [orb].
    destruct (Z.eqb_spec (MinComponentLedger s) 0); [done|]. apply lookup_insert_eq.
  - case_if; [done|]. by rewrite lookup_insert_ne.
Qed.

(** The options the package offers, at their width. *)
Inductive refresher_option : RefresherOption -> Prop :=
| opt_stale n : is_uint32 n -> refresher_option (WithStaleComponentLedgers n)
| opt_stale_for k n : is_uint32 n -> refresher_option (WithStaleComponentLedgersFor k n)
| opt_dormant n : is_uint32 n -> refresher_option (WithMaxDormantComponentLedgers n)
| opt_strict b : refresher_option (WithStrictFreshnessRequired b).

Definition refresher_ok (r : Refresher) : Prop :=
  lastComponentLedger r = ∅ /\ 0 <= staleComponentLedger r /\ map_Forall (fun _ n => 0 <= n) (staleComponentByAsset r) /\
  0 <= maxDormantComponentLedger r.

Lemma NewRefresher_ok opts : Forall refresher_option opts -> refresher_ok (NewRefresher opts).
Proof.
  unfold NewRefresher. induction opts as [|o opts IH] using rev_ind; intros Ho.
  { by split_and!. }
  apply Forall_app in Ho as [Ho Hl%Forall_inv]. rewrite foldl_app. cbn [foldl]. destruct (IH Ho) as (H1 & H2 & H3 & H4).
  unfold refresher_ok, is_uint32 in *. destruct Hl; unfold is_uint32 in *; cbn; split_and!; try done; try lia. by apply map_Forall_insert_2; [lia|].
Qed.

Lemma refresher_ok_thresholds r : refresher_ok r -> thresholds_ok r.
Proof.
  intros (_ & Hs & Hm & _) k. unfold threshold_of. destruct (staleComponentByAsset r !! k) eqn:E; [|done]. by apply (Hm k).
Qed.

Lemma strict_ok_spec strict s :
  strict_ok strict s = true <-> (strict = true -> MinComponentLedger s <> 0 /\ s_Basis s <> BasisXLMSDFReserveExclusionStatic).
Proof.
  unfold strict_ok, unanchored. rewrite negb_true_iff, andb_false_iff, orb_false_iff, Z.eqb_neq, bool_decide_eq_false.
  destruct strict; naive_solver.
Qed.

Lemma fresh_enough_spec r last s : 0 <= maxDormantComponentLedger r ->
  fresh_enough r last s = true <->
  let gap := LedgerSequence s - MinComponentLedger s in
  threshold_of r (s_AssetKey s) = 0 \/ MinComponentLedger s = 0 \/ gap <= threshold_of r (s_AssetKey s) \/
  (last = Some (MinComponentLedger s) /\ (maxDormantComponentLedger r = 0 \/ gap <= maxDormantComponentLedger r)).
Proof.
  intros Hd. unfold fresh_enough. cbv zeta.
  rewrite !orb_true_iff, andb_true_iff, negb_true_iff, andb_false_iff, !Z.eqb_eq, Z.leb_le, bool_decide_eq_true, !Z.ltb_ge. intuition lia.
Qed.

(** C9: what a run of ticks publishes. Whatever ticks came before, a snapshot
    is written exactly when this tick computed it, the store took it, strict
    mode (if on) finds it anchored and not built from the operator's static
    reserves, and it is fresh: the gate is off for the asset, the snapshot
    carries no anchor, its oldest part is at most the threshold behind, or the
    asset is dormant, that is the latest earlier tick of the asset showed the
    very same anchor, and not for longer than the horizon. *)
Theorem refresher_writes_exactly opts hist env s :
  Forall refresher_option opts -> history_ok (hist ++ [env]) ->
  let r := NewRefresher opts in
  let gap := LedgerSequence s - MinComponentLedger s in
  s ∈ (Tick (run_ticks r hist) env).1.2 <->
  computed env = Some s /\ InsertSupply env s = None /\
  (strictFreshnessRequired r = true -> MinComponentLedger s <> 0 /\ s_Basis s <> BasisXLMSDFReserveExclusionStatic) /\
  (threshold_of r (s_AssetKey s) = 0 \/ MinComponentLedger s = 0 \/ gap <= threshold_of r (s_AssetKey s) \/
   (last_anchor (strictFreshnessRequired r) hist (s_AssetKey s) = Some (MinComponentLedger s) /\
    (maxDormantComponentLedger r = 0 \/ gap <= maxDormantComponentLedger r))).
Proof.
  intros Ho [Hh He%Forall_inv]%Forall_app r gap. apply NewRefresher_ok in Ho. fold r in Ho. pose proof (refresher_ok_thresholds r Ho) as Hth.
  destruct Ho as (Hl0 & _ & _ & Hd). destruct (run_ticks_spec r hist Hl0 Hh Hth) as [Hc Hl]. set (r1 := run_ticks r hist) in *.
  assert (thresholds_ok r1) as Hth1 by (intros k; rewrite (same_config_threshold r r1 k Hc); apply Hth).
  pose proof (Tick_spec r1 env He Hth1) as Ht. destruct (Tick r1 env) as [[o written] r']. cbn [fst snd]. destruct Ht as [_ Ht].
  destruct (computed env) as [s'|]; [|destruct Ht as [-> _]; set_solver]. destruct Ht as [-> _].
  pose proof Hc as (_ & _ & Hs & Hm). rewrite Hs. unfold gap. clear gap.
  assert (s ∈ (if strict_ok (strictFreshnessRequired r) s' && fresh_enough r1 (lastComponentLedger r1 !! s_AssetKey s') s' && accepted env s'
               then [s'] else []) <->
    s' = s /\ strict_ok (strictFreshnessRequired r) s = true /\ fresh_enough r1 (lastComponentLedger r1 !! s_AssetKey s) s = true /\
    accepted env s = true) as ->.
  { destruct (_ && _) eqn:E; rewrite ?andb_true_iff, ?andb_false_iff in E.
    - rewrite list_elem_of_singleton. split; [intros ->; tauto|by intros [-> _]].
    - split; [set_solver|]. intros (-> & E1 & E2 & E3). rewrite E1, E2, E3 in E. naive_solver. }
  rewrite strict_ok_spec, (fresh_enough_spec r1) by lia. cbv zeta. rewrite (same_config_threshold r r1) by done. rewrite Hm.
  unfold accepted. destruct (decide (threshold_of r (s_AssetKey s) = 0)) as [Hz|Hnz].
  - destruct (InsertSupply env s'), (InsertSupply env s); naive_solver.
  - rewrite (Hl _ Hnz). destruct (InsertSupply env s); naive_solver.
Qed.

Definition quiet_snapshot (ledger anchor : Z) : Supply :=
  mkSupply usdc_key (Some 127) (Some 107) None BasisOverride BasisUnset ledger 0 anchor (Some 4).
Definition quiet_tick (ledger anchor : Z) : tick_env :=
  mkTick (Ok (ledger, 0)) (fun l _ => Ok (quiet_snapshot l anchor)) (fun _ => None).

Lemma quiet_history_ok : history_ok ([quiet_tick 5000 100] ++ [quiet_tick 5010 100]).
Proof. repeat constructor; vm_compute in H; injection H as <-; vm_compute; congruence. Qed.

Lemma refresher_writes_exactly_witness :
  (Tick (NewRefresher [WithStrictFreshnessRequired true]) (quiet_tick 5000 100)).1.2 = [] /\
  quiet_snapshot 5010 100 ∈ (Tick (run_ticks (NewRefresher [WithStrictFreshnessRequired true]) [quiet_tick 5000 100]) (quiet_tick 5010 100)).1.2.
Proof.
  split; [vm_compute; reflexivity|].
  apply (refresher_writes_exactly [WithStrictFreshnessRequired true] [quiet_tick 5000 100] (quiet_tick 5010 100) (quiet_snapshot 5010 100)).
  - repeat constructor.
  - exact quiet_history_ok.
  - split; [vm_compute; reflexivity|]. split; [reflexivity|]. split; [intros _; split; vm_compute; congruence|].
    right. right. right. split; [vm_compute; reflexivity|]. right. vm_compute. congruence.
Defined.

(** The band is a report, never a veto: it compares the total with the one
    written before it for the asset, and remembers the new one. *)
Theorem checkWriteBand_exact r s total :
  TotalSupply s = Some total ->
  lastWrittenTotal (checkWriteBand r s).2 = <[s_AssetKey s := total]> (lastWrittenTotal r) /\
  match (checkWriteBand r s).1 with
  | BandUp => exists p, lastWrittenTotal r !! s_AssetKey s = Some p /\ 0 < p /\ p * 10 < total
  | BandDown => exists p, lastWrittenTotal r !! s_AssetKey s = Some p /\ 0 < p /\ total * 10 < p
  | BandNone => forall p, lastWrittenTotal r !! s_AssetKey s = Some p -> 0 < p -> total <= p * 10 /\ p <= total * 10
  end.
Proof.
  intros Ht. unfold checkWriteBand. rewrite Ht. destruct (lastWrittenTotal r !! s_AssetKey s) as [p|]; [|done].
  destruct (Z.leb_spec (Z.sgn p) 0) as [Hp|Hp].
  { split; [done|]. cbn. intros q [= <-] Hq. destruct p; simpl in *; lia. }
  assert (0 < p) by (destruct p; simpl in *; lia). unfold WriteBandFactor.
  destruct (Z.ltb_spec (p * 10) total); [by split; [|exists p]|]. destruct (Z.ltb_spec (total * 10) p); [by split; [|exists p]|].
  split; [done|]. cbn -[Z.mul Z.le]. intros q [= <-] _. lia.
Qed.

(** *** The cross-check *)

(** What a pair's gauge may be set to. *)
Definition gauge_of (LatestSupply : string -> res serr Supply) (p : CrossCheckPair) (d : Z) : Prop :=
  exists classic sac c s, LatestSupply (p_ClassicKey p) = Ok classic /\ LatestSupply (p_SACKey p) = Ok sac /\
    TotalSupply classic = Some c /\ TotalSupply sac = Some s /\
    (LedgerSequence classic <> 0 -> LedgerSequence sac <> 0 -> Z.abs (LedgerSequence classic - LedgerSequence sac) <= CrossCheckLedgerTolerance) /\
    match normalizeWrapClass (p_WrapClass p) with
    | WrapClassFull => d = Z.abs (c - s)
    | _ => exists w, SACWrappedStroops classic = Some w /\ d = Z.max 0 (w - s)
    end.

Lemma tickOne_emits LatestSupply p k class d :
  (forall key s, LatestSupply key = Ok s -> is_uint32 (LedgerSequence s)) ->
  EmitDivergence k class d ∈ emit_one (tickOne LatestSupply p) ->
  k = p_ClassicKey p /\ class = normalizeWrapClass (p_WrapClass p) /\ gauge_of LatestSupply p d.
Proof.
  intros Hl. unfold tickOne, gauge_of.
  destruct (LatestSupply (p_ClassicKey p)) as [classic|e] eqn:E1.
  2: { unfold read_outcome, emit_one. cbn. destruct (serr_Is e ErrNoSnapshot); cbn; set_solver. }
  destruct (LatestSupply (p_SACKey p)) as [sac|e] eqn:E2.
  2: { unfold read_outcome, emit_one. cbn. destruct (serr_Is e ErrNoSnapshot); cbn; set_solver. }
  destruct (CrossCheckForClass classic sac (p_WrapClass p)) as [r|e] eqn:E3.
  2: { unfold emit_one. cbn. destruct (serr_Is e ErrCrossCheckMisaligned); cbn; set_solver. }
  destruct (CrossCheckForClass_exact _ _ _ _ (Hl _ _ E1) (Hl _ _ E2) E3) as (c & s & Hc & Hs & Hw & Hgap & _ & Hd).
  destruct (bool_decide (cc_WrapClass r = WrapClassPartial) && negb (SubsetBoundChecked r)) eqn:Eu; [unfold emit_one; cbn; set_solver|].
  assert (EmitDivergence k class d ∈ emit_one (if WithinTolerance r then mkCCOut p CrossCheckOutcomeWithin (Some r) None
                                               else mkCCOut p CrossCheckOutcomeOver (Some r) None) ->
          k = p_ClassicKey p /\ class = normalizeWrapClass (p_WrapClass p) /\ d = DivergenceStroops r) as He
    by (destruct (WithinTolerance r); unfold emit_one; cbn; set_solver).
  intros (-> & -> & ->)%He. split; [done|]. split; [done|]. exists classic, sac, c, s. split_and!; try done. rewrite Hw in *.
  destruct (normalizeWrapClass (p_WrapClass p)) eqn:En; [|done|by destruct (p_WrapClass p)].
  destruct Hd as [Hsub Hd]. cbn [andb] in Eu. rewrite bool_decide_true in Eu by done. cbn [andb] in Eu. bprop. rewrite Eu in Hsub.
  destruct (SACWrappedStroops classic) as [w|]; [by exists w|done].
Qed.

Lemma adjacent_dup_NoDup l :
  StronglySorted (fun a b => str_leb (p_ClassicKey a) (p_ClassicKey b) = true) l -> adjacent_dup l = false -> NoDup (map p_ClassicKey l).
Proof.
  induction l as [|a l IH]; intros Hs Hd; cbn [map]; [constructor|].
  apply StronglySorted_inv in Hs as [Hs Ha]. destruct l as [|b l]; [repeat constructor; set_solver|].
  cbn [adjacent_dup] in Hd. bprop. constructor; [|by apply IH].
  intros (x & Hx & Hin)%list_elem_of_fmap. apply StronglySorted_inv in Hs as [_ Hb]. apply elem_of_cons in Hin as [->|Hin]; [congruence|].
  rewrite Forall_forall in Hb, Ha. specialize (Hb x Hin). pose proof (Ha b ltac:(left)) as Hab. rewrite <- Hx in Hb.
  by pose proof (str_leb_antisym _ _ Hab Hb).
Qed.

Lemma NewCrossCheckRefresher_spec pairs sorted :
  NewCrossCheckRefresher pairs = Some sorted -> sorted ≡ₚ pairs /\ NoDup (map p_ClassicKey sorted).
Proof.
  unfold NewCrossCheckRefresher. case_if; [done|]. case_if; [done|]. intros [= <-]. split; [apply isort_perm|].
  apply adjacent_dup_NoDup; [|done]. apply isort_sorted.
  - intros a b. apply str_leb_total.
  - intros a b c. apply str_leb_trans.
Qed.

(** What a pair tells its gauge. *)
Lemma emit_one_single o k class d e :
  EmitDivergence k class d ∈ emit_one o -> e ∈ emit_one o -> (exists d', e = EmitDivergence k class d') \/ (exists cl, e = EmitClear k cl) ->
  e = EmitDivergence k class d.
Proof. unfold emit_one. destruct (cco_Kind o), (cco_Result o); cbn; set_solver. Qed.

Lemma emit_one_key o k : (exists cl d, EmitDivergence k cl d ∈ emit_one o) \/ (exists cl, EmitClear k cl ∈ emit_one o) -> k = p_ClassicKey (cco_Pair o).
Proof. unfold emit_one. destruct (cco_Kind o), (cco_Result o); cbn; set_solver. Qed.

Lemma tickOne_pair LatestSupply p : cco_Pair (tickOne LatestSupply p) = p.
Proof.
  unfold tickOne, read_outcome. destruct (LatestSupply (p_ClassicKey p)); [|done]. destruct (LatestSupply (p_SACKey p)); [|done].
  destruct (CrossCheckForClass _ _ _); [|done]. by repeat case_if.
Qed.

Lemma NoDup_map_inj {A B} (f : A -> B) l x y : NoDup (map f l) -> x ∈ l -> y ∈ l -> f x = f y -> x = y.
Proof.
  induction l as [|a l IH]; [set_solver|]. cbn [map]. intros [Ha Hn]%NoDup_cons Hx Hy Hf.
  apply elem_of_cons in Hx as [->|Hx], Hy as [->|Hy]; [done| | |by apply IH]; exfalso; apply Ha.
  - rewrite Hf. by apply list_elem_of_fmap_2.
  - rewrite <- Hf. by apply list_elem_of_fmap_2.
Qed.

Lemma cross_tick_elem LatestSupply pairs e :
  e ∈ (cross_tick LatestSupply pairs).2 <-> exists p, p ∈ pairs /\ e ∈ emit_one (tickOne LatestSupply p).
Proof.
  unfold cross_tick. cbn [snd]. rewrite map_map. rewrite list_elem_of_In, in_concat. setoid_rewrite in_map_iff.
  setoid_rewrite list_elem_of_In. naive_solver.
Qed.

(** The divergence gauge of a classic asset and its wrapper. It is set
    only from two snapshots that both have totals and are at most a thousand
    ledgers apart; to the difference of the totals for a full wrapper, and
    for a partial one to what the wrapper holds beyond what it issued, which
    must have been observed. An asset is in one pair only, so a round sets
    its gauge to one value and does not clear it as well. *)
Theorem crosscheck_gauge_sound LatestSupply pairs sorted k class d :
  NewCrossCheckRefresher pairs = Some sorted ->
  (forall key s, LatestSupply key = Ok s -> is_uint32 (LedgerSequence s)) ->
  EmitDivergence k class d ∈ (cross_tick LatestSupply sorted).2 ->
  exists p, p ∈ pairs /\ k = p_ClassicKey p /\ class = normalizeWrapClass (p_WrapClass p) /\ gauge_of LatestSupply p d /\
    (forall p', p' ∈ pairs -> p_ClassicKey p' = k -> p' = p) /\
    (forall class' d', EmitDivergence k class' d' ∈ (cross_tick LatestSupply sorted).2 -> class' = class /\ d' = d) /\
    (forall class', EmitClear k class' ∉ (cross_tick LatestSupply sorted).2).
Proof.
  intros Hn Hl (p & Hp & He)%cross_tick_elem. destruct (NewCrossCheckRefresher_spec _ _ Hn) as [Hperm Hnd].
  destruct (tickOne_emits _ _ _ _ _ Hl He) as (-> & -> & Hg).
  assert (forall p', p' ∈ sorted -> p_ClassicKey p' = p_ClassicKey p -> p' = p) as Huniq
    by (intros p' Hp' Hk; by apply (NoDup_map_inj p_ClassicKey sorted)).
  exists p. split; [by rewrite <- Hperm|]. split; [done|]. split; [done|]. split; [done|]. split; [|split].
  - intros p' Hp'. apply Huniq. by rewrite Hperm.
  - intros class' d' (p' & Hp' & He')%cross_tick_elem. assert (p' = p) as ->.
    { apply Huniq; [done|]. symmetry. rewrite <- (tickOne_pair LatestSupply p'). apply emit_one_key. eauto. }
    destruct (tickOne_emits _ _ _ _ _ Hl He') as (_ & -> & _).
    pose proof (emit_one_single _ _ _ _ _ He He' (or_introl (ex_intro _ d' eq_refl))) as [= ->]. done.
  - intros class' (p' & Hp' & He')%cross_tick_elem. assert (p' = p) as ->.
    { apply Huniq; [done|]. symmetry. rewrite <- (tickOne_pair LatestSupply p'). apply emit_one_key. eauto. }
    by pose proof (emit_one_single _ _ _ _ _ He He' (or_intror (ex_intro _ class' eq_refl))).
Qed.

Definition wrapper_pair : CrossCheckPair := mkCCPair usdc_key "CWRAP" WrapClassPartial.
Definition wrapped_supplies (k : string) : res serr Supply :=
  if String.eqb k usdc_key then Ok usdc_supply
  else if String.eqb k "CWRAP" then Ok (mkSupply "CWRAP" (Some 1) (Some 1) None BasisSEP41TotalOnly BasisUnset 60 0 60 None)
  else Err [ErrNoSnapshot].

Lemma crosscheck_gauge_sound_witness :
  NewCrossCheckRefresher [wrapper_pair] = Some [wrapper_pair] /\
  EmitDivergence usdc_key WrapClassPartial 3 ∈ (cross_tick wrapped_supplies [wrapper_pair]).2 /\
  exists p, p ∈ [wrapper_pair] /\ gauge_of wrapped_supplies p 3.
Proof.
  assert (EmitDivergence usdc_key WrapClassPartial 3 ∈ (cross_tick wrapped_supplies [wrapper_pair]).2) as He
    by (vm_compute; right; left).
  split; [vm_compute; reflexivity|]. split; [exact He|].
  destruct (crosscheck_gauge_sound wrapped_supplies [wrapper_pair] [wrapper_pair] usdc_key WrapClassPartial 3) as (p & Hp & _ & _ & Hg & _).
  - vm_compute. reflexivity.
  - intros key s. unfold wrapped_supplies. destruct (String.eqb key usdc_key); [intros [= <-]; vm_compute; split; congruence|].
    destruct (String.eqb key "CWRAP"); [intros [= <-]; vm_compute; split; congruence|discriminate].
  - exact He.
  - exists p. split; [exact Hp|exact Hg].
Defined.

(** *** Seeding *)

(** The seeder is called only for a missing baseline, and after a failure not
    before the retry interval has passed; an error it cannot mend is returned
    as it was. *)
Theorem Seeding_Compute_exact g now failedAt first seed second :
  let '(out, called, g') := Seeding_Compute g now failedAt first seed second in
  (called = true -> exists e, first = Err e /\ (ErrGenesisBaselineNotSeeded ∈ e \/ ErrNegativeTotalMissingBaseline ∈ e) /\
     (lastFailure g = zero_time \/ retryAfter g <= time_Sub now (lastFailure g))) /\
  (out = first \/ (called = true /\ seed = None /\ out = second)) /\
  g' = (if called && bool_decide (is_Some seed) then recordFailure g failedAt else g).
Proof.
  unfold Seeding_Compute, mayAttempt, serr_Is, time_IsZero. destruct first as [s|e]; [naive_solver|].
  destruct (negb _ && negb _) eqn:E1; [naive_solver|]. destruct (negb (_ || _)) eqn:E2; [naive_solver|].
  rewrite andb_false_iff, !negb_false_iff, !bool_decide_eq_true in E1. rewrite negb_false_iff, orb_true_iff, Z.eqb_eq, Z.leb_le in E2.
  destruct seed; (split; [intros _; by exists e|]); split; auto.
Qed.
